(* ===== verification/_CoqProject ===== *)
-Q . S2P
Prelude.v
GoString.v
GoSha256.v
GoTime.v
GoJson.v
Identity.v
Spec.v
Release.v
Snapshot.v
SpecDiff.v
Policy.v
Review.v
Records.v
Ports.v
StoreState.v
StoreTx.v
FileStore.v
ReleaseService.v
Fixture.v
StoreInvariant.v
StoreSafety.v
StoreRuns.v
CoordinateSafety.v
StoreMigration.v
StorePublic.v
CatalogIdentity.v
SpecValidation.v
IndexDiff.v
Services.v
RevisionJson.v
ServiceSafety.v
EmbeddedJson.v
JsonNumbers.v
EmbeddedRoundtrip.v
GoUrl.v
Projection.v
SchemaGraph.v
ProjectionBuild.v
CatalogModel.v
CatalogPublication.v
CatalogVersions.v
CatalogValidation.v
CatalogChecks.v
CatalogDetails.v
SchemaGraphSafety.v
SchemaGraphRuns.v
ProjectionTrace.v
ProjectionNavigation.v
ProjectionRuns.v
CatalogRuntime.v
CatalogDisk.v
CatalogStore.v
Activation.v
CatalogSafety.v
CatalogRuns.v
CatalogCollect.v
CatalogRecovery.v
CatalogCrash.v
CatalogTransitions.v
CatalogQuarantine.v
ByteCache.v
CacheRuns.v
CacheSafety.v
SearchText.v
CatalogChildren.v
SearchIndex.v
SearchCodec.v
SearchQuery.v
SearchLists.v
SearchDistance.v
SearchSizes.v
SearchRoundtrip.v
SearchSegments.v
SearchIndexed.v
SearchBuilt.v
SearchServe.v
SearchTokens.v
SearchRecords.v
SearchRanking.v
SearchAnswers.v
