(* ===== verification/Prelude.v ===== *)
(** * Manja, modelled and verified

    Manja publishes OpenAPI documentation and keeps the evidence behind what it
    publishes.  This library models the parts of the Go program (paths are
    below src/) whose correctness is more than rendering, and proves what they
    are for.

    ** The program and the files that model it

    Two systems share the domain package.

    (1) Contract review and release.  An OpenAPI document becomes a contract
    snapshot; two snapshots are compared; a policy turns the findings into a
    verdict; a release service moves a release track only on the evidence of a
    persisted review, inside a transaction of a file store, and a public route
    serves what the track says.

    - GoString, GoSha256, GoTime, GoJson: what the code uses of Go's standard
      library: UTF-8, strings, path, hex, SHA-256, time and encoding/json.
    - Identity: domain/identity.go.  Spec: domain/spec.go.
    - Snapshot: domain/contractsnapshot.go.  SpecDiff: domain/specdiff.go.
      Policy: domain/policy.go.  Review: domain/review.go.
      Release: domain/release.go.
    - SpecValidation: domain/spec_validation.go, which every index passes before
      it is compared; IndexDiff: what it accepts and how the comparison of
      whole indexes uses it.
    - Records, Ports: the persisted records and application/port.
    - StoreState, StoreTx, FileStore: internal/adapters/store/fs.go, as the
      state and its checks, the operations of a transaction, and the directory.
    - ReleaseService: application/release.go and errors.go.
    - Services: application/sync.go, check.go, revision.go and publication.go,
      which fetch, parse, store and publish specifications through the ports.
      RevisionJson reads revision records back; ServiceSafety proves what a
      sync leaves behind.
    - Fixture: the history of contracttest/releaseauthority.go, which the
      witnesses of the store's theorems run.
    - StoreInvariant, StoreSafety, StoreRuns, StoreMigration, StorePublic,
      CoordinateSafety: lemmas and theorems over the store and the service.

    (2) Catalogs.  A compiled catalog is an immutable snapshot on disk.  A
    route table says which snapshot each mount serves; a coordinator changes it
    with a journal, keeps running requests safe from garbage collection and
    recovers after a crash; a byte cache shares verified children.

    - CatalogIdentity: domain/catalog_identity.go, operation_target.go and the
      key rules of catalog_validation.go.
    - GoUrl: net/url as the catalog code uses it.
    - CatalogPublication: domain/catalog_publication.go; CatalogVersions: SemVer
      precedence and accepted publication sets, its specification.
    - CatalogValidation: domain/catalog.go and catalog_validation.go;
      CatalogChecks and CatalogDetails: what they accept and the addresses of
      detail pages.
    - EmbeddedJson: application/projection/embedded_json.go, the canonical form
      of JSON examples; JsonNumbers and EmbeddedRoundtrip: its theorems.
    - Projection, CatalogModel: the artifacts (application/projection/model.go,
      application/catalog/model.go, bounds.go).
    - SchemaGraph: application/projection/schema_graph.go, which stores the
      schemas of a document as a graph of shared nodes.  SchemaGraphSafety and
      SchemaGraphRuns: what the graph stands for, and its theorems.
    - ProjectionBuild: application/projection/build.go and anchors.go, which
      turn an index into the document a page is rendered from.
      ProjectionTrace: the schemas a build interns and what its records show;
      ProjectionNavigation: the IDs it claims; ProjectionRuns: its theorems.
    - CatalogRuntime: application/catalog/runtime.go.
    - CatalogDisk: the directory and the ways a file operation can end.
    - CatalogStore: internal/adapters/catalogstore/store.go, publish.go and
      preflight.go.  Activation: activation.go, recovery.go and gc.go.
    - CatalogSafety, CatalogRuns, CatalogCollect, CatalogRecovery,
      CatalogCrash, CatalogTransitions, CatalogQuarantine: theorems over them.
    - ByteCache, CacheRuns, CacheSafety: application/catalog/cache.go, its
      critical sections, the goroutines around them, the theorems.
    - SearchText: application/catalog/normalize.go and the texts of the index;
      CatalogChildren: newChild and childIdentities of identity.go and the loop
      that cuts records into children; SearchIndex: search_model.go; SearchCodec
      and SearchQuery: search.go.  SearchLists, SearchDistance and SearchSizes:
      sorted lists, the distance of near keys and the sizes of segments.
      SearchRoundtrip: the encoding reads back; SearchSegments, SearchIndexed
      and SearchBuilt: what a built index holds; SearchServe, SearchTokens and
      SearchRecords: what a service of it loads; SearchRanking: the order of
      the answers; SearchAnswers: its theorems.

    A file models its source function by function under the source's names;
    record fields carry a prefix.  PROJECT.json maps each definition to its
    lines.

    ** How the code is represented

    An operation that can fail is a [res]; [Errorf] keeps the format string and
    operands of [fmt.Errorf], so [errors.Is] ([Is]) and the branch that failed
    are visible.  An operation on shared state is a [stM]: a state passed on,
    which keeps what was written before an error.  64-bit counters wrap
    ([wrap64]).  Slices distinguish nil from empty where JSON does.  A critical
    section of a mutex is one step; where goroutines interleave (the byte
    cache), threads are a step relation.  Where Go ranges over a map the model
    takes one order, and no theorem depends on it beyond which error comes
    first.

    Failures of the outside are data of the state.  A file store has a list of
    fates for its durable writes, a catalog directory ([Disk]) one for every
    operation and look at the context: done, failed, or done and still
    reported as failed.  A crash is a tail of failures and a new process.

    A Go context is the list of the answers its Err method gives, one for each
    look; the graph's hash is an argument of the build ([sha256] in production),
    and its theorems need only that it has 32 bytes.  What a machine can address
    is [memory_ok]: fewer than 2^32 nodes, preimages shorter than 2^64 bytes.

    Parameters are what is not in the repository or not modelled: the case
    tables of [unicode] (with the laws [CaseLaws]), NFKC and case folding
    ([SearchTables]; [SearchLaws] says that they keep UTF-8 well formed), blob
    stores and clocks (the
    ports), the fetcher, parser and cache of the sync service (classes [Sources]
    and [Cache], and the text of an error, [ErrorText]), the address inside the
    brackets of a URL host ([IPLiterals]), loaders and decoders of the byte
    cache, and the JSON codec of the catalog
    artifacts (class [SnapshotCodec]; [CodecLaws] states two of its checks).
    Every theorem that uses one has a witness with a concrete instance.

    ** What is proved

    - A release track serves only accepted revisions, the store's check of a
      transition is exact, and the newest decision wins (Release).
    - When no method has a space and no parameter location a colon, no breaking
      finding means that every request the old contract accepts the new one
      accepts; findings are exact; a digest names one surface up to an
      exhibited SHA-256 collision (SpecDiff, Snapshot).
    - The memoised, cycle-cutting walk over schema summaries is the plain depth
      and size bound, an accepted index has a valid snapshot exactly when its
      routes are distinct, and comparing accepted indexes decides compatibility
      (IndexDiff).
    - A policy's verdict, the composition of layers, and what an accepted
      release report says, are exact (Policy, Review).
    - Whatever a callback does through a transaction, what is committed is
      backed by evidence, evidence is permanent, transactions are atomic,
      writers do not lose updates, migrations keep what is proven, and a public
      route serves intact evidence (StoreSafety to StorePublic).
    - [Coordinate] commits exactly the decision its evidence supports, and its
      errors are classified (CoordinateSafety).
    - A successful sync is evidence, a failed one brings nothing in
      (ServiceSafety).
    - Version precedence is SemVer's, publication sets and catalog candidates
      are accepted exactly when they fit together, and the detail addresses of
      an accepted catalog are distinct (CatalogVersions, CatalogChecks,
      CatalogDetails).
    - The graph of a document unfolds to exactly the schemas that were interned,
      and equal schemas share their node whatever the hash (SchemaGraphRuns).
      A built document shows its index, part by part and schema by schema; its
      IDs are distinct and its search records and routes lead to elements of it
      (ProjectionRuns).
    - The canonical form of embedded JSON is a fixed point and identifies
      numbers by value (EmbeddedRoundtrip).
    - Activation, withdrawal and reauthorization of a mount are atomic under
      crashes; a withdrawn mount stays withdrawn; garbage collection spares
      every snapshot in use; and a snapshot that is quarantined twice blocks
      every start (the Catalog files).
    - A search over the index built of a catalog answers with the twenty best
      of the records its query identifies or whose tokens match, and the
      look-ups of exact keys and of tokens through the stored segments are exact
      (SearchAnswers).  A search fails only for an invalid query or for its
      budget, and never for the latter when the index is within it; the contexts
      are taken not to end.
    - Near keys are the nearest ones by the least number of edits
      (SearchDistance); a bucket of exact keys barely too large stops the build
      (SearchSizes).
    - Cached values match their digest, limits hold, flights are shared, no
      load waits for ever (CacheSafety).

    ** Fuel and bounds

    Recursion is structural.  Decoding UTF-8, SHA-256 and base64 take a count
    that is the number of bytes (or blocks) of their input.  The UTF-8 walk over
    a heap takes one more than the pointers of the heap, the walk over schema
    summaries the 64 levels the code allows ([schema_summary_check_exact]), the
    embedded JSON reader one more than the 64 levels it allows.  Interning a
    schema takes the levels of its summary, which 64 cover wherever the index
    check looked ([interning_ends]); it does not look at response headers, and
    there no fuel need suffice ([cyclic_header_never_projects]).  The LRU
    eviction of the byte cache takes one more than the number of elements
    ([eviction_ends_with_the_longest_fitting_prefix]).

    ** Not modelled

    HTML: templates, handlers, styles, the local-docs renderer and the site.
    The JSON form of documents, and the search over all catalogs (searchv2).
    The parsing of OpenAPI, Markdown, configuration and Git sources and the
    compilation of a catalog from them.  Packaging, licences, export and the
    command lines.  Each of these is listed with its reason in PROJECT.json.
    Inside the modelled files some failures are all or nothing: a directory is
    removed whole or not at all (gc.go), a write that fails leaves no partial
    file in staging (publish.go), reads of intact files succeed and the context
    of a store operation does not change while it runs (fs.go), and what was
    written and reported as unconfirmed stays written.  The archive of journals
    counts journals only (activation.go).
    Left out of the modelled files: process locks, namespace paths, the legacy reads
    of the file store, and test hooks. *)

From Stdlib Require Export Ascii ZArith Lia.
From stdpp Require Export base strings list gmap sorting.

#[global] Open Scope Z_scope.
#[global] Open Scope list_scope.

(** ** Errors and results

    A Go error built by [fmt.Errorf] is its format string with the operands of
    the verbs; [%w] wraps a cause ([EErr]), [%v] only prints one ([EText]).
    [Classified] is the application layer's [*Error] (application/errors.go).  An operation returning [(T, error)] is a
    [res T]; one returning [error] is a [res unit]. *)

Inductive earg :=
  | EStr (s : string)
  | EInt (z : Z)
  | EBool (b : bool)
  | EErr (e : error)
  | EText (e : error)
with error :=
  | Errorf (format : string) (args : list earg)
  | Classified (kind operation : string) (e : error).

Inductive res (A : Type) :=
  | Ok (a : A)
  | Fail (e : error).
Arguments Ok {_} _.
Arguments Fail {_} _.

#[export] Instance res_ret : MRet res := @Ok.
#[export] Instance res_bind : MBind res := λ A B f m,
  match m with
  | Ok a => f a
  | Fail e => Fail e
  end.
#[export] Instance res_fmap : FMap res := λ A B f m,
  match m with
  | Ok a => Ok (f a)
  | Fail e => Fail e
  end.

Definition is_ok {A} (m : res A) : bool :=
  match m with
  | Ok _ => true
  | Fail _ => false
  end.

(** [if cond { return err }] *)
Definition throw_if (b : bool) (e : error) : res unit :=
  if b then Fail e else Ok tt.

(** [if err := m; err != nil { return fmt.Errorf(format, args..., err) }] *)
Definition wrap_err {A} (m : res A) (w : error → error) : res A :=
  match m with
  | Ok a => Ok a
  | Fail e => Fail (w e)
  end.

(** [errors.Is(e, target)] for a sentinel: the chain of wrapped causes. *)
Fixpoint Is (target : string) (e : error) : bool :=
  match e with
  | Errorf format args =>
      bool_decide (format = target)
      || existsb (λ a, match a with EErr e => Is target e | _ => false end) args
  | Classified _ _ e => Is target e
  end.

(** ** Stateful operations

    An operation on a shared object keeps what it wrote before an error. *)

Definition stM (S A : Type) : Type := S → S * res A.

#[export] Instance stM_ret {S} : MRet (stM S) := λ A a s, (s, Ok a).
#[export] Instance stM_bind {S} : MBind (stM S) := λ A B f m s,
  match m s with
  | (s, Ok a) => f a s
  | (s, Fail e) => (s, Fail e)
  end.

Definition lift {S A} (r : res A) : stM S A := λ s, (s, r).
Definition gets {S A} (f : S → A) : stM S A := λ s, (s, Ok (f s)).
Definition modify {S} (f : S → S) : stM S unit := λ s, (f s, Ok tt).
Definition on_fst {S C A} (m : stM S A) : stM (S * C) A := λ sc,
  let '(s, r) := m sc.1 in ((s, sc.2), r).
Definition on_snd {S C A} (m : stM C A) : stM (S * C) A := λ sc,
  let '(c, r) := m sc.2 in ((sc.1, c), r).
Definition st_wrap {S A} (m : stM S A) (w : error → error) : stM S A := λ s,
  let '(s, r) := m s in (s, wrap_err r w).

(** The same loops over a state. *)
Section st_loops.
Context {S A : Type}.

Section st_for_each.
Context (f : A → stM S unit).
Fixpoint st_for_each (l : list A) : stM S unit :=
  match l with
  | [] => mret tt
  | x :: l => f x ;; st_for_each l
  end.
End st_for_each.

Section st_for_eachi.
Context (f : Z → A → stM S unit).
Fixpoint st_for_eachi_from (i : Z) (l : list A) : stM S unit :=
  match l with
  | [] => mret tt
  | x :: l => f i x ;; st_for_eachi_from (i + 1) l
  end.
Definition st_for_eachi (l : list A) : stM S unit := st_for_eachi_from 0 l.
End st_for_eachi.
End st_loops.

Section loops.
Context {A : Type}.

(** [for _, x := range l { if err := f(x); err != nil { return err } }] *)
Section for_each.
Context (f : A → res unit).
Fixpoint for_each (l : list A) : res unit :=
  match l with
  | [] => Ok tt
  | x :: l => f x ;; for_each l
  end.
End for_each.

(** The same loop with its index. *)
Section for_eachi.
Context (f : Z → A → res unit).
Fixpoint for_eachi_from (i : Z) (l : list A) : res unit :=
  match l with
  | [] => Ok tt
  | x :: l => f i x ;; for_eachi_from (i + 1) l
  end.
Definition for_eachi (l : list A) : res unit := for_eachi_from 0 l.
End for_eachi.

(** A loop that threads a state and may stop with an error. *)
Section fold_res.
Context {S : Type} (f : S → A → res S).
Fixpoint fold_res (s : S) (l : list A) : res S :=
  match l with
  | [] => Ok s
  | x :: l => s ← f s x; fold_res s l
  end.
End fold_res.
End loops.

(** [for key, value := range m { if err := f(key, value); err != nil { return
    err } }]; Go's order is random, which decides only the error reported. *)
Definition for_map {A} (f : string → A → res unit) (m : gmap string A) : res unit :=
  for_each (λ kv, f kv.1 kv.2) (map_to_list m).

(** ** Slices

    A Go slice is nil or holds elements; [reflect.DeepEqual] and
    [encoding/json] tell a nil slice from an empty one, so the fields whose
    nilness the code observes are [slice A]. *)

Abbreviation slice A := (option (list A)).

Definition elems {A} (s : slice A) : list A := default [] s.

(** [append(s, l...)]: appending nothing keeps a nil slice nil. *)
Definition gappend {A} (s : slice A) (l : list A) : slice A :=
  match l with
  | [] => s
  | _ => Some (elems s ++ l)
  end.

(** ** Machine integers *)

Definition max_uint64 : Z := 2 ^ 64 - 1.
Definition wrap64 (z : Z) : Z := z `mod` 2 ^ 64.
Definition is_uint64 (z : Z) : Prop := 0 ≤ z ≤ max_uint64.

(** ** Ordering: [sort.Slice] and [sort.Strings]

    Every [less] closure of the modelled code compares a fixed tuple of keys
    field by field; [less_by key] is that comparison.  Keys are strings,
    compared bytewise, or integers. *)

Inductive okey :=
  | KS (s : string)
  | KZ (z : Z).

Definition okey_ltb (a b : okey) : bool :=
  match a, b with
  | KS s, KS t => (s <? t)%string
  | KZ x, KZ y => (x <? y)%Z
  | KS _, KZ _ => true
  | KZ _, KS _ => false
  end.

#[export] Instance okey_eq_dec : EqDecision okey.
Proof. solve_decision. Defined.

(** The first differing key decides. *)
Fixpoint lex_ltb (a b : list okey) : bool :=
  match a, b with
  | x :: a, y :: b => if decide (x = y) then lex_ltb a b else okey_ltb x y
  | [], _ :: _ => true
  | _, [] => false
  end.

Definition less_by {A} (key : A → list okey) (x y : A) : bool :=
  lex_ltb (key x) (key y).

Fixpoint insert_by {A} (less : A → A → bool) (x : A) (l : list A) : list A :=
  match l with
  | [] => [x]
  | y :: l' => if less y x then y :: insert_by less x l' else x :: l
  end.

(** [sort.Slice] promises a sorted permutation and nothing about ties; the
    model is the stable one, and [sort_by_unique] says when that is the only
    sorted permutation there is. *)
Fixpoint sort_by {A} (less : A → A → bool) (l : list A) : list A :=
  match l with
  | [] => []
  | x :: l => insert_by less x (sort_by less l)
  end.

Definition sort_strings (l : list string) : list string :=
  sort_by (less_by (λ s, [KS s])) l.

(** [sort.Slice(s, less)]: sorting leaves a nil slice nil. *)
Definition sort_slice {A} (less : A → A → bool) (s : slice A) : slice A :=
  sort_by less <$> s.

(** ** Uniqueness loops

    [for i, x := range l { k := key(x); if seen[k] { return dup(i, k) };
    seen[k] = true; if err := body(i, x); err != nil { return err } }] *)
Section for_unique.
Context {A K : Type} `{Countable K}.
Context (key : A → K) (dup : Z → K → error) (body : Z → A → res unit).
Fixpoint for_unique_from (i : Z) (seen : gset K) (l : list A) : res unit :=
  match l with
  | [] => Ok tt
  | x :: l =>
      throw_if (bool_decide (key x ∈ seen)) (dup i (key x)) ;;
      body i x ;;
      for_unique_from (i + 1) ({[key x]} ∪ seen) l
  end.
Definition for_unique (l : list A) : res unit := for_unique_from 0 ∅ l.
End for_unique.

(** ** Results: lemmas *)

Create HintDb go.
#[export] Hint Constants Opaque : go.

Lemma bind_ok {A B} (m : res A) (f : A → res B) b :
  m ≫= f = Ok b ↔ ∃ a, m = Ok a ∧ f a = Ok b.
Proof. destruct m; simpl; naive_solver. Qed.

Lemma seq_ok {A} (m : res unit) (k : res A) a :
  (m ;; k) = Ok a ↔ m = Ok tt ∧ k = Ok a.
Proof. destruct m as [[]|]; simpl; naive_solver. Qed.

Lemma throw_if_ok b e : throw_if b e = Ok tt ↔ b = false.
Proof. destruct b; simpl; naive_solver. Qed.

Lemma throw_if_ok_u b e u : throw_if b e = Ok u ↔ b = false.
Proof. destruct b, u; simpl; naive_solver. Qed.

Lemma wrap_err_ok {A} (m : res A) w a : wrap_err m w = Ok a ↔ m = Ok a.
Proof. destruct m; simpl; naive_solver. Qed.

Lemma for_each_ok {A} (f : A → res unit) l :
  for_each f l = Ok tt ↔ Forall (λ x, f x = Ok tt) l.
Proof.
  induction l as [|x l IH]; simpl; [by split|].
  by rewrite seq_ok, Forall_cons, IH.
Qed.

Lemma for_map_ok {A} (f : string → A → res unit) (m : gmap string A) :
  for_map f m = Ok tt ↔ ∀ k x, m !! k = Some x → f k x = Ok tt.
Proof.
  unfold for_map. rewrite for_each_ok, Forall_forall. split.
  - intros Hf k x Hx. apply (Hf (k, x)). by apply elem_of_map_to_list.
  - intros Hf [k x] Hx. apply Hf. by apply elem_of_map_to_list.
Qed.

Lemma for_map_ok_u {A} (f : string → A → res unit) (m : gmap string A) u :
  for_map f m = Ok u ↔ ∀ k x, m !! k = Some x → f k x = Ok tt.
Proof. destruct u. apply for_map_ok. Qed.

Lemma for_eachi_from_ok {A} i (f : Z → A → res unit) l :
  for_eachi_from f i l = Ok tt ↔ ∀ n x, l !! n = Some x → f (i + Z.of_nat n) x = Ok tt.
Proof.
  revert i; induction l as [|x l IH]; intros i; simpl; [by split|].
  rewrite seq_ok, IH. split.
  - intros [Hx Hl] [|n] y Hy; simplify_eq/=; [by rewrite Z.add_0_r|].
    replace (i + Z.of_nat (S n)) with (i + 1 + Z.of_nat n) by lia. eauto.
  - intros H. split; [specialize (H 0%nat x eq_refl); by rewrite Z.add_0_r in H|].
    intros n y Hy. specialize (H (S n) y Hy).
    by replace (i + 1 + Z.of_nat n) with (i + Z.of_nat (S n)) by lia.
Qed.

Lemma for_eachi_ok {A} (f : Z → A → res unit) l :
  for_eachi f l = Ok tt ↔ ∀ n x, l !! n = Some x → f (Z.of_nat n) x = Ok tt.
Proof. apply for_eachi_from_ok. Qed.

(** A loop whose body succeeds independently of the index. *)
Lemma for_eachi_ok_Forall {A} (f : Z → A → res unit) (P : A → Prop) l :
  (∀ i x, f i x = Ok tt ↔ P x) → for_eachi f l = Ok tt ↔ Forall P l.
Proof.
  intros Hf. rewrite for_eachi_ok, Forall_lookup. by setoid_rewrite Hf.
Qed.

Lemma for_each_ok_Forall {A} (f : A → res unit) (P : A → Prop) l :
  (∀ x, f x = Ok tt ↔ P x) → for_each f l = Ok tt ↔ Forall P l.
Proof. intros Hf. rewrite for_each_ok. by setoid_rewrite Hf. Qed.

Lemma for_unique_from_ok {A} `{Countable K} (key : A → K) dup body i seen l :
  for_unique_from key dup body i seen l = Ok tt ↔
  NoDup (key <$> l) ∧ (∀ x, x ∈ l → key x ∉ seen)
  ∧ ∀ n x, l !! n = Some x → body (i + Z.of_nat n) x = Ok tt.
Proof.
  revert i seen; induction l as [|x l IH]; intros i seen; simpl.
  { split; [|done]. intros _. split; [constructor|]. split; [set_solver|done]. }
  rewrite !seq_ok, throw_if_ok, IH, NoDup_cons, bool_decide_eq_false, list_elem_of_fmap.
  split.
  - intros (Hs & Hb & Hn & Hf & Hl). split; [split; [|done]|split].
    + intros (y & E & Hy). specialize (Hf y Hy). set_solver.
    + intros y [->|Hy]%elem_of_cons; [done|]. specialize (Hf y Hy). set_solver.
    + intros [|n] y Hy; simplify_eq/=; [by rewrite Z.add_0_r|].
      replace (i + Z.of_nat (S n)) with (i + 1 + Z.of_nat n) by lia. eauto.
  - intros ((Hx & Hn) & Hs & Hl). split; [apply Hs; by left|].
    split; [specialize (Hl 0%nat x eq_refl); by rewrite Z.add_0_r in Hl|]. split; [done|]. split.
    + intros y Hy. rewrite elem_of_union, elem_of_singleton. intros [E|E].
      * apply Hx. by exists y.
      * apply (Hs y); [by right|done].
    + intros n y Hy. specialize (Hl (S n) y Hy).
      by replace (i + 1 + Z.of_nat n) with (i + Z.of_nat (S n)) by lia.
Qed.

Lemma for_unique_ok {A} `{Countable K} (key : A → K) dup body l :
  for_unique key dup body l = Ok tt ↔
  NoDup (key <$> l) ∧ ∀ n x, l !! n = Some x → body (Z.of_nat n) x = Ok tt.
Proof.
  unfold for_unique. rewrite for_unique_from_ok. split; [by intros (? & _ & ?)|].
  intros [? ?]. split; [done|]. split; [set_solver|done].
Qed.

(** A uniqueness loop whose body succeeds independently of the index. *)
Lemma for_unique_ok_Forall {A} `{Countable K} (key : A → K) dup body (P : A → Prop) l :
  (∀ i x, body i x = Ok tt ↔ P x) →
  for_unique key dup body l = Ok tt ↔ NoDup (key <$> l) ∧ Forall P l.
Proof. intros Hf. rewrite for_unique_ok, Forall_lookup. by setoid_rewrite Hf. Qed.

Lemma and_iff_under (A B C : Prop) : (A → (B ↔ C)) → (A ∧ B ↔ A ∧ C).
Proof. tauto. Qed.

Lemma Forall_iff_pointwise {A} (P Q : A → Prop) l :
  Forall (λ x, P x ↔ Q x) l → Forall P l ↔ Forall Q l.
Proof. induction 1; rewrite ?Forall_nil, ?Forall_cons; naive_solver. Qed.

Lemma forallb_Forall {A} (f : A → bool) l : forallb f l = true ↔ Forall (λ x, f x = true) l.
Proof. rewrite forallb_forall, Forall_forall. by setoid_rewrite list_elem_of_In. Qed.

(** A fold that succeeds as long as every step's condition holds in the state
    it meets. *)
Section fold_ok.
Context {A S} (ok : S → A → Prop) (g : S → A → S).
Fixpoint fold_ok (s : S) (l : list A) : Prop :=
  match l with
  | [] => True
  | x :: l => ok s x ∧ fold_ok (g s x) l
  end.

Lemma fold_res_spec (f : S → A → res S) :
  (∀ s x s', f s x = Ok s' ↔ ok s x ∧ s' = g s x) →
  ∀ l s s', fold_res f s l = Ok s' ↔ fold_ok s l ∧ s' = foldl g s l.
Proof.
  intros Hf. induction l as [|x l IH]; intros s s'; cbn [fold_res fold_ok foldl].
  { split; [by intros [= ->]|by intros [_ ->]]. }
  rewrite bind_ok. setoid_rewrite Hf. setoid_rewrite IH. naive_solver.
Qed.
End fold_ok.

Section fold_ok_rules.
Context {A S : Type} (g : S → A → S).

Lemma fold_ok_and (ok ok' : S → A → Prop) s l :
  fold_ok (λ s x, ok s x ∧ ok' s x) g s l ↔ fold_ok ok g s l ∧ fold_ok ok' g s l.
Proof. revert s. induction l as [|x l IH]; intros s; cbn [fold_ok]; [done|]. rewrite IH. naive_solver. Qed.

Lemma fold_ok_Forall (P : A → Prop) s l : fold_ok (λ _, P) g s l ↔ Forall P l.
Proof.
  revert s. induction l as [|x l IH]; intros s; cbn [fold_ok]; [by split; [constructor|]|]. by rewrite IH, Forall_cons.
Qed.

(** Keys that no earlier element took. *)
Lemma fold_ok_fresh `{Countable K} (key : A → K) (seen : S → gset K) s l :
  (∀ s x, seen (g s x) = {[key x]} ∪ seen s) →
  fold_ok (λ s x, key x ∉ seen s) g s l ↔ NoDup (key <$> l) ∧ ∀ x, x ∈ l → key x ∉ seen s.
Proof.
  intros Hg. revert s. induction l as [|x l IH]; intros s; cbn [fold_ok].
  { split; [|done]. intros _. split; [constructor|]. by intros x ?%elem_of_nil. }
  rewrite IH, fmap_cons, NoDup_cons, Hg, list_elem_of_fmap. setoid_rewrite elem_of_cons. set_solver.
Qed.

Lemma foldl_seen `{Countable K} (key : A → K) (seen : S → gset K) s l :
  (∀ s x, seen (g s x) = {[key x]} ∪ seen s) → seen (foldl g s l) = list_to_set (key <$> l) ∪ seen s.
Proof.
  intros Hg. revert s. induction l as [|x l IH]; intros s; [set_solver|]. cbn [foldl]. rewrite IH, Hg. set_solver.
Qed.
End fold_ok_rules.

(** The elements with their positions. *)
Definition indexed {A} (l : list A) : list (Z * A) := zip (seqZ 0 (Z.of_nat (length l))) l.

Lemma indexed_values {A} (l : list A) : (indexed l).*2 = l.
Proof. apply snd_zip. rewrite length_seqZ. lia. Qed.

Lemma fold_ok_indexed {A S} (ok : S → A → Prop) (g : S → A → S) s l :
  fold_ok (λ s x, ok s x.2) (λ s x, g s x.2) s (indexed l) ↔ fold_ok ok g s l.
Proof.
  rewrite <-(indexed_values l) at 2. generalize (indexed l). intros k. revert s. induction k as [|[i x] k IH]; intros s; [done|].
  cbn [fold_ok fmap list_fmap snd]. by rewrite IH.
Qed.
Lemma foldl_indexed {A S} (g : S → A → S) s l : foldl (λ s x, g s x.2) s (indexed l) = foldl g s l.
Proof.
  rewrite <-(indexed_values l) at 2. generalize (indexed l). intros k. revert s. by induction k as [|[i x] k IH]; intros s; [|apply IH].
Qed.

Lemma fold_res_app {A S} (f : S → A → res S) s l1 l2 :
  fold_res f s (l1 ++ l2) = (s' ← fold_res f s l1; fold_res f s' l2).
Proof.
  revert s; induction l1 as [|x l1 IH]; intros s; simpl; [done|].
  destruct (f s x) as [s'|e]; simpl; [apply IH|done].
Qed.

Lemma mapM_ok {A B} (f : A → res B) l k :
  mapM f l = Ok k ↔ Forall2 (λ x y, f x = Ok y) l k.
Proof.
  revert k. induction l as [|x l IH]; intros k; simpl.
  - split; [intros [= <-]; constructor|]. by inversion 1.
  - rewrite bind_ok. setoid_rewrite bind_ok. split.
    + intros (y & Hy & k' & Hk%IH & [= <-]). by constructor.
    + inversion 1 as [|? y ? k' Hy Hk]; subst. exists y. split; [done|]. exists k'. by rewrite IH.
Qed.

Lemma fmap_ok {A B} (f : A → B) (m : res A) b : f <$> m = Ok b ↔ ∃ a, m = Ok a ∧ b = f a.
Proof. destruct m as [a|e]; simpl; split; [intros [= <-]; eauto|by intros (? & [= ->] & ->)|done|by intros (? & ? & _)]. Qed.

(** ** Stateful operations: lemmas *)

Lemma st_bind_ok {S A B} (m : stM S A) (f : A → stM S B) s s' b :
  (m ≫= f) s = (s', Ok b) ↔ ∃ s1 a, m s = (s1, Ok a) ∧ f a s1 = (s', Ok b).
Proof.
  unfold mbind, stM_bind. destruct (m s) as [s1 [a|e]]; split; [eauto| |done|].
  - by intros (? & ? & [= <- <-] & ?).
  - by intros (? & ? & [=] & _).
Qed.

Lemma lift_bind_ok {S A B} (r : res A) (f : A → stM S B) s s' b :
  (lift r ≫= f) s = (s', Ok b) ↔ ∃ a, r = Ok a ∧ f a s = (s', Ok b).
Proof.
  rewrite st_bind_ok. unfold lift. split.
  - by intros (? & a & [= <- ->] & ?); eauto.
  - intros (a & -> & ?). eauto.
Qed.

Lemma gets_bind {S A B} (g : S → A) (f : A → stM S B) s : (gets g ≫= f) s = f (g s) s.
Proof. done. Qed.

Lemma st_wrap_ok {S A} (m : stM S A) w s s' a : st_wrap m w s = (s', Ok a) ↔ m s = (s', Ok a).
Proof. unfold st_wrap. destruct (m s) as [? [b|e]]; simpl; split; congruence. Qed.

Lemma on_fst_ok {S C A} (m : stM S A) (s s' : S) (c c' : C) a :
  on_fst m (s, c) = ((s', c'), Ok a) ↔ m s = (s', Ok a) ∧ c' = c.
Proof. unfold on_fst. simpl. destruct (m s). split; [by intros [= <- <- <-]|by intros [[= <- <-] ->]]. Qed.

Lemma on_snd_ok {S C A} (m : stM C A) (s s' : S) (c c' : C) a :
  on_snd m (s, c) = ((s', c'), Ok a) ↔ m c = (c', Ok a) ∧ s' = s.
Proof. unfold on_snd. simpl. destruct (m c). split; [by intros [= <- <- <-]|by intros [[= <- <-] ->]]. Qed.

(** [keeps R m]: whatever [m] answers, it takes the state along [R]. *)
Definition keeps {S A} (R : S → S → Prop) (m : stM S A) : Prop := ∀ s, R s (m s).1.

Section keeps.
Context {S : Type} (R : S → S → Prop) `{!PreOrder R}.

Lemma keeps_bind {A B} (m : stM S A) (f : A → stM S B) :
  keeps R m → (∀ a, keeps R (f a)) → keeps R (m ≫= f).
Proof.
  intros Hm Hf s. unfold mbind, stM_bind. specialize (Hm s).
  destruct (m s) as [s1 [a|e]]; simpl in *; [|done]. by etrans; [|apply Hf].
Qed.

(** With what the first step says about the state it leaves. *)
Lemma keeps_bind_gets {A B} (g : S → A) (f : A → stM S B) :
  (∀ s, R s (f (g s) s).1) → keeps R (gets g ≫= f).
Proof. intros Hf s. apply Hf. Qed.

Lemma keeps_ret {A} (a : A) : keeps R (mret a).
Proof. intros s. simpl. reflexivity. Qed.
Lemma keeps_lift {A} (r : res A) : keeps R (lift r).
Proof. intros s. simpl. reflexivity. Qed.
Lemma keeps_gets {A} (g : S → A) : keeps R (gets g).
Proof. intros s. simpl. reflexivity. Qed.
Lemma keeps_modify (f : S → S) : (∀ s, R s (f s)) → keeps R (modify f).
Proof. intros Hf s. apply Hf. Qed.
Lemma keeps_wrap {A} (m : stM S A) w : keeps R m → keeps R (st_wrap m w).
Proof. intros Hm s. specialize (Hm s). unfold st_wrap. by destruct (m s). Qed.
End keeps.

(** Walk through an operation step by step; loops and calls are left over. *)
Ltac keeps_step :=
  match goal with
  | |- keeps _ (mbind _ _) => apply (keeps_bind _); [|intros ?]
  | |- keeps _ (mret _) => apply (keeps_ret _)
  | |- keeps _ (lift _) => apply (keeps_lift _)
  | |- keeps _ (gets _) => apply (keeps_gets _)
  | |- keeps _ (st_wrap _ _) => apply (keeps_wrap _)
  | |- keeps _ (match _ with _ => _ end) => case_match
  | |- keeps _ (let '(_, _) := ?x in _) => destruct x
  end.
Ltac keeps_tac := repeat keeps_step.

(** [hoare P m Q E]: from a state in [P], success leaves [Q] and failure [E]. *)
Definition hoare {S A} (P : S → Prop) (m : stM S A) (Q : A → S → Prop) (E : S → Prop) : Prop :=
  ∀ s, P s → match m s with
             | (s', Ok a) => Q a s'
             | (s', Fail _) => E s'
             end.

Section hoare.
Context {S : Type}.
Implicit Types P E : S → Prop.

Lemma hoare_bind {A B} P Q E (m : stM S A) (f : A → stM S B) R :
  hoare P m Q E → (∀ a, hoare (Q a) (f a) R E) → hoare P (m ≫= f) R E.
Proof.
  intros Hm Hf s Hs. specialize (Hm s Hs). unfold mbind, stM_bind.
  destruct (m s) as [s' [a|e]]; [by apply Hf|done].
Qed.
Lemma hoare_ret {A} P E (a : A) (Q : A → S → Prop) : (∀ s, P s → Q a s) → hoare P (mret a) Q E.
Proof. intros HQ s Hs. by apply HQ. Qed.
Lemma hoare_lift {A} P (r : res A) (Q : A → S → Prop) E :
  (∀ a s, r = Ok a → P s → Q a s) → (∀ s, P s → E s) → hoare P (lift r) Q E.
Proof. intros HQ HE s Hs. unfold lift. destruct r; [by apply HQ|by apply HE]. Qed.
Lemma hoare_gets {A} P E (g : S → A) (Q : A → S → Prop) : (∀ s, P s → Q (g s) s) → hoare P (gets g) Q E.
Proof. intros HQ s Hs. by apply HQ. Qed.
Lemma hoare_modify P E (f : S → S) (Q : unit → S → Prop) : (∀ s, P s → Q tt (f s)) → hoare P (modify f) Q E.
Proof. intros HQ s Hs. by apply HQ. Qed.
Lemma hoare_wrap {A} P (m : stM S A) w (Q : A → S → Prop) E : hoare P m Q E → hoare P (st_wrap m w) Q E.
Proof.
  intros Hm s Hs. specialize (Hm s Hs). unfold st_wrap. by destruct (m s) as [s' [a|e]].
Qed.
Lemma hoare_conseq {A} P P' (m : stM S A) (Q Q' : A → S → Prop) E E' :
  hoare P' m Q' E' → (∀ s, P s → P' s) → (∀ a s, Q' a s → Q a s) → (∀ s, E' s → E s) → hoare P m Q E.
Proof.
  intros Hm HP HQ HE s Hs. specialize (Hm s (HP s Hs)).
  destruct (m s) as [s' [a|e]]; auto.
Qed.
Lemma hoare_keeps {A} (R : S → S → Prop) P (m : stM S A) :
  keeps R m → (∀ s s', R s s' → P s → P s') → hoare P m (λ _, P) P.
Proof. intros Hm HR s Hs. specialize (Hm s). destruct (m s) as [s' [a|e]]; eauto. Qed.
Lemma hoare_and {A} P P' (m : stM S A) (Q Q' : A → S → Prop) E E' :
  hoare P m Q E → hoare P' m Q' E' →
  hoare (λ s, P s ∧ P' s) m (λ a s, Q a s ∧ Q' a s) (λ s, E s ∧ E' s).
Proof. intros H1 H2 s [Hs Hs']. specialize (H1 s Hs). specialize (H2 s Hs'). by destruct (m s) as [s' [a|e]]. Qed.
Lemma hoare_pure {A} (φ : Prop) P (m : stM S A) (Q : A → S → Prop) E :
  (φ → hoare P m Q E) → hoare (λ s, φ ∧ P s) m Q E.
Proof. intros Hm s [Hφ Hs]. exact (Hm Hφ s Hs). Qed.
End hoare.

(** Break a successful run into the successes of its steps. *)
Ltac res_simpl :=
  repeat match goal with
  | H : mret _ = Ok _ |- _ => injection H as H; subst
  | H : Ok _ = Ok _ |- _ => injection H as H; subst
  | H : Fail _ = Ok _ |- _ => discriminate H
  | H : Ok _ = Fail _ |- _ => discriminate H
  | H : (_ ;; _) = Ok _ |- _ =>
      apply seq_ok in H; let H1 := fresh "Hok" in destruct H as [H1 H]
  | H : _ ≫= _ = Ok _ |- _ =>
      apply bind_ok in H;
      let a := fresh "a" in let H1 := fresh "Hok" in destruct H as (a & H1 & H)
  | H : throw_if _ _ = Ok _ |- _ => apply throw_if_ok_u in H
  | H : wrap_err _ _ = Ok _ |- _ => apply wrap_err_ok in H
  | u : unit |- _ => destruct u
  end.

(** Turn the boolean guards of the code into propositions. *)
Ltac bool_prop :=
  repeat match goal with
  | H : negb _ = true |- _ => apply negb_true_iff in H
  | H : negb _ = false |- _ => apply negb_false_iff in H
  | H : _ && _ = true |- _ => apply andb_true_iff in H; destruct H
  | H : _ || _ = false |- _ => apply orb_false_iff in H; destruct H
  | H : bool_decide _ = true |- _ => apply bool_decide_eq_true in H
  | H : bool_decide _ = false |- _ => apply bool_decide_eq_false in H
  | H : (_ <? _)%Z = true |- _ => apply Z.ltb_lt in H
  | H : (_ <? _)%Z = false |- _ => apply Z.ltb_ge in H
  | H : (_ <=? _)%Z = true |- _ => apply Z.leb_le in H
  | H : (_ <=? _)%Z = false |- _ => apply Z.leb_gt in H
  | H : (_ =? _)%Z = true |- _ => apply Z.eqb_eq in H
  | H : (_ =? _)%Z = false |- _ => apply Z.eqb_neq in H
  end.

Ltac go_inv := res_simpl; bool_prop; res_simpl.

(** ** Ordering: lemmas *)

Lemma string_ltb_spec s t : (s <? t)%string = true ↔ String.le s t ∧ s ≠ t.
Proof.
  unfold String.ltb, String.le, String.leb.
  destruct (s ?= t)%string eqn:E; simpl.
  - apply String.compare_eq_iff in E. naive_solver.
  - split; [|done]. intros _. split; [done|]. intros ->.
    assert ((t ?= t)%string = Eq) as E'; [|congruence].
    pose proof (String.compare_antisym t t). by destruct (t ?= t)%string.
  - split; [done|]. by intros [[] _].
Qed.

Lemma okey_ltb_irrefl x : okey_ltb x x = false.
Proof.
  destruct x as [s|z]; simpl; [|apply Z.ltb_irrefl].
  apply not_true_iff_false. rewrite string_ltb_spec. naive_solver.
Qed.

Lemma okey_ltb_trans x y z :
  okey_ltb x y = true → okey_ltb y z = true → okey_ltb x z = true.
Proof.
  destruct x as [s|a], y as [t|b], z as [u|c]; simpl; try done.
  - rewrite !string_ltb_spec. intros [? Hst] [? ?]. split; [by etrans|].
    intros ->. apply Hst. by apply (anti_symm String.le).
  - rewrite !Z.ltb_lt. lia.
Qed.

Lemma okey_ltb_total x y : x ≠ y → okey_ltb x y = false → okey_ltb y x = true.
Proof.
  destruct x as [s|a], y as [t|b]; simpl; try done; intros Hne Hlt.
  - apply string_ltb_spec. apply not_true_iff_false in Hlt.
    rewrite string_ltb_spec in Hlt.
    destruct (total String.le s t) as [?|?]; [exfalso; naive_solver|naive_solver].
  - apply Z.ltb_lt. apply Z.ltb_ge in Hlt. assert (a ≠ b) by naive_solver. lia.
Qed.

Lemma lex_ltb_irrefl a : lex_ltb a a = false.
Proof. induction a as [|x a IH]; simpl; [done|]. by rewrite decide_True. Qed.

Lemma lex_ltb_trans a b c :
  lex_ltb a b = true → lex_ltb b c = true → lex_ltb a c = true.
Proof.
  revert b c; induction a as [|x a IH]; intros [|y b] [|z c]; simpl; try done.
  destruct (decide (x = y)) as [->|Hxy]; [destruct (decide (y = z)); by eauto|].
  destruct (decide (y = z)) as [->|Hyz]; [by rewrite decide_False|].
  intros H1 H2. pose proof (okey_ltb_trans _ _ _ H1 H2) as H3.
  rewrite decide_False; [done|]. intros ->.
  pose proof (okey_ltb_trans _ _ _ H1 H2) as H4. by rewrite okey_ltb_irrefl in H4.
Qed.

Lemma lex_ltb_total a b : a ≠ b → lex_ltb a b = false → lex_ltb b a = true.
Proof.
  revert b; induction a as [|x a IH]; intros [|y b] Hne; simpl; try done.
  destruct (decide (x = y)) as [->|Hxy].
  - rewrite decide_True by done. intros. apply IH; naive_solver.
  - rewrite decide_False by done. by apply okey_ltb_total.
Qed.

(** [le_key key]: not greater in the order of [less_by key]. *)
Definition le_key {A} (key : A → list okey) (x y : A) : Prop :=
  less_by key y x = false.

#[export] Instance le_key_trans {A} (key : A → list okey) : Transitive (le_key key).
Proof.
  intros x y z. unfold le_key, less_by. intros Hyx Hzy.
  apply not_true_iff_false. intros Hzx.
  destruct (decide (key x = key y)) as [Hxy|Hxy]; [congruence|].
  apply lex_ltb_total in Hyx; [|congruence].
  pose proof (lex_ltb_trans _ _ _ Hzx Hyx). congruence.
Qed.

Lemma le_key_total {A} (key : A → list okey) x y : le_key key x y ∨ le_key key y x.
Proof.
  unfold le_key, less_by. destruct (lex_ltb (key y) (key x)) eqn:E; [right|by left].
  destruct (lex_ltb (key x) (key y)) eqn:E'; [|done].
  pose proof (lex_ltb_trans _ _ _ E E') as H. by rewrite lex_ltb_irrefl in H.
Qed.

Lemma le_key_refl {A} (key : A → list okey) x : le_key key x x.
Proof. apply lex_ltb_irrefl. Qed.

Lemma le_key_antisym {A} (key : A → list okey) x y :
  le_key key x y → le_key key y x → key x = key y.
Proof.
  unfold le_key, less_by. intros H1 H2.
  destruct (decide (key x = key y)) as [|Hne]; [done|].
  apply lex_ltb_total in H2; congruence.
Qed.

Lemma insert_by_perm {A} (less : A → A → bool) x l : insert_by less x l ≡ₚ x :: l.
Proof.
  induction l as [|y l IH]; simpl; [done|].
  destruct (less y x); [|done]. rewrite IH. apply Permutation_swap.
Qed.

Lemma sort_by_perm {A} (less : A → A → bool) l : sort_by less l ≡ₚ l.
Proof. induction l as [|x l IH]; simpl; [done|]. by rewrite insert_by_perm, IH. Qed.

Lemma sort_by_elem_of {A} (less : A → A → bool) l x : x ∈ sort_by less l ↔ x ∈ l.
Proof. by rewrite sort_by_perm. Qed.

Lemma sort_by_length {A} (less : A → A → bool) l : length (sort_by less l) = length l.
Proof. by rewrite sort_by_perm. Qed.

Lemma sort_by_nil {A} (less : A → A → bool) l : sort_by less l = [] ↔ l = [].
Proof.
  split; [|by intros ->]. intros H. apply Permutation_nil_r.
  by rewrite <-H, sort_by_perm.
Qed.

Lemma sort_by_Forall {A} (P : A → Prop) (less : A → A → bool) l :
  Forall P (sort_by less l) ↔ Forall P l.
Proof. by rewrite sort_by_perm. Qed.

Lemma insert_by_sorted {A} (key : A → list okey) x l :
  StronglySorted (le_key key) l → StronglySorted (le_key key) (insert_by (less_by key) x l).
Proof.
  induction 1 as [|y l Hl IH Hy]; simpl; [by repeat constructor|].
  destruct (less_by key y x) eqn:E.
  - constructor; [done|]. rewrite insert_by_perm. constructor; [|done].
    destruct (le_key_total key x y) as [H|H]; [|done]. unfold le_key in H. congruence.
  - constructor; [by constructor|]. constructor; [done|].
    eapply Forall_impl; [exact Hy|]. intros z Hz. by trans y.
Qed.

Lemma sort_by_sorted {A} (key : A → list okey) l :
  StronglySorted (le_key key) (sort_by (less_by key) l).
Proof. induction l; simpl; [constructor|]. by apply insert_by_sorted. Qed.

(** A sorted list is left as it is. *)
Lemma sort_by_id {A} (key : A → list okey) l :
  StronglySorted (le_key key) l → sort_by (less_by key) l = l.
Proof.
  induction 1 as [|x l Hl IH Hx]; simpl; [done|]. rewrite IH.
  destruct l as [|y l]; simpl; [done|]. by rewrite (Forall_inv Hx).
Qed.

Lemma sort_by_idem {A} (key : A → list okey) l :
  sort_by (less_by key) (sort_by (less_by key) l) = sort_by (less_by key) l.
Proof. apply sort_by_id, sort_by_sorted. Qed.

Definition strictly_sorted {A} (key : A → list okey) (l : list A) : Prop :=
  StronglySorted (λ x y, less_by key x y = true) l.

Lemma less_by_le {A} (key : A → list okey) x y :
  less_by key x y = true ↔ le_key key x y ∧ key x ≠ key y.
Proof.
  unfold le_key, less_by. split.
  - intros Hlt. split; [|intros E; rewrite E, lex_ltb_irrefl in Hlt; done].
    apply not_true_iff_false. intros Hgt.
    pose proof (lex_ltb_trans _ _ _ Hlt Hgt) as Hc. by rewrite lex_ltb_irrefl in Hc.
  - intros [Hle Hne]. apply lex_ltb_total in Hle; congruence.
Qed.

(** Sorted without two equal keys. *)
Lemma strictly_sorted_iff {A} (key : A → list okey) l :
  strictly_sorted key l ↔ StronglySorted (le_key key) l ∧ NoDup (key <$> l).
Proof.
  unfold strictly_sorted. split.
  - induction 1 as [|x l Hl [IH1 IH2] Hx]; [by repeat constructor|]. split.
    + constructor; [done|]. eapply Forall_impl; [exact Hx|]. by intros y []%less_by_le.
    + rewrite fmap_cons. apply NoDup_cons. split; [|done]. rewrite list_elem_of_fmap.
      intros (y & E & Hy). rewrite Forall_forall in Hx. by apply Hx, less_by_le in Hy as [_ ?].
  - intros [Hs Hn]. induction Hs as [|x l Hl IH Hx]; [constructor|].
    rewrite fmap_cons in Hn. apply NoDup_cons in Hn as [Hx' Hn]. constructor; [auto|].
    rewrite Forall_forall in *. intros y Hy. apply less_by_le. split; [auto|].
    intros E. apply Hx'. rewrite E. apply list_elem_of_fmap. by exists y.
Qed.

Lemma sort_by_strict {A} (key : A → list okey) l :
  NoDup (key <$> l) → strictly_sorted key (sort_by (less_by key) l).
Proof.
  intros Hn. apply strictly_sorted_iff. split; [apply sort_by_sorted|].
  by rewrite sort_by_perm.
Qed.

Lemma NoDup_fmap_inj {A B} (f : A → B) l x y :
  NoDup (f <$> l) → x ∈ l → y ∈ l → f x = f y → x = y.
Proof.
  induction l as [|z l IH]; rewrite ?fmap_cons; [set_solver|].
  intros [Hz Hn]%NoDup_cons Hx Hy E. rewrite list_elem_of_fmap in Hz.
  apply elem_of_cons in Hx as [->|Hx], Hy as [->|Hy]; [done| | |auto];
    exfalso; apply Hz; eauto.
Qed.

Lemma NoDup_fmap_iff {A B C} (f : A → B) (g : A → C) l :
  (∀ x y, x ∈ l → y ∈ l → f x = f y ↔ g x = g y) → NoDup (f <$> l) ↔ NoDup (g <$> l).
Proof.
  induction l as [|x l IH]; intros Hfg; [by split; constructor|].
  rewrite !fmap_cons, !NoDup_cons, IH by (intros; apply Hfg; by right).
  rewrite !list_elem_of_fmap.
  split; (intros [Hx ?]; split; [|done]); intros (y & E & Hy); apply Hx; exists y; (split; [|done]);
    apply Hfg; try done; [by left|by right|by left|by right].
Qed.

Lemma fmap_fixed {A} (f : A → A) l : Forall (λ x, f x = x) l → f <$> l = l.
Proof. induction 1; rewrite ?fmap_cons; [done|]. by f_equal. Qed.

Lemma sort_by_fixed {A} (key : A → list okey) l :
  sort_by (less_by key) l = l ↔ StronglySorted (le_key key) l.
Proof. split; [intros <-; apply sort_by_sorted|apply sort_by_id]. Qed.

(** When elements with equal keys are equal, every sorted permutation is the
    model's result: the choice of sorting algorithm cannot be observed. *)
Lemma sorted_unique {A} (key : A → list okey) l1 l2 :
  (∀ x y, x ∈ l1 → y ∈ l1 → key x = key y → x = y) →
  StronglySorted (le_key key) l1 → StronglySorted (le_key key) l2 →
  l1 ≡ₚ l2 → l1 = l2.
Proof.
  intros Hinj H1 H2 Hp. eapply StronglySorted_unique_strong; [|done..].
  intros x y Hx Hy Hxy Hyx. rewrite <-Hp in Hy.
  apply Hinj; [done..|]. by apply le_key_antisym.
Qed.

Lemma sort_by_unique {A} (key : A → list okey) l l' :
  (∀ x y, x ∈ l → y ∈ l → key x = key y → x = y) →
  StronglySorted (le_key key) l' → l' ≡ₚ l → l' = sort_by (less_by key) l.
Proof.
  intros Hinj Hs Hp. apply (sorted_unique key); [|done|apply sort_by_sorted|].
  - intros x y. rewrite !Hp. apply Hinj.
  - by rewrite sort_by_perm.
Qed.

Lemma sort_by_perm_eq {A} (key : A → list okey) l1 l2 :
  (∀ x y, x ∈ l1 → y ∈ l1 → key x = key y → x = y) →
  l1 ≡ₚ l2 → sort_by (less_by key) l1 = sort_by (less_by key) l2.
Proof.
  intros Hinj Hp. symmetry. apply sort_by_unique; [done|apply sort_by_sorted|].
  by rewrite sort_by_perm.
Qed.

(** ** Lists: lemmas *)

Lemma foldl_bind {A B S} (f : S → B → S) (g : A → list B) (s : S) (l : list A) :
  foldl f s (l ≫= g) = foldl (λ s x, foldl f s (g x)) s l.
Proof.
  revert s; induction l as [|x l IH]; intros s; csimpl; [done|]. by rewrite foldl_app, IH.
Qed.

Lemma foldl_ext_elem {A S} (f g : S → A → S) (s : S) (l : list A) :
  (∀ s x, x ∈ l → f s x = g s x) → foldl f s l = foldl g s l.
Proof.
  revert s; induction l as [|x l IH]; intros s Hf; simpl; [done|].
  rewrite Hf by by left. apply IH. intros s' y Hy. apply Hf. by right.
Qed.

Lemma foldl_map {A B S} (f : S → B → S) (g : A → B) (s : S) (l : list A) :
  foldl f s (g <$> l) = foldl (λ s x, f s (g x)) s l.
Proof. revert s; induction l as [|x l IH]; intros s; csimpl; [done|]. apply IH. Qed.

Lemma elem_of_imap_pair {A} (l : list A) i x : (i, x) ∈ imap pair l ↔ l !! i = Some x.
Proof.
  rewrite elem_of_lookup_imap. split; [by intros (j & y & [= -> ->] & ?)|]. eauto.
Qed.

Lemma NoDup_imap_fst {A} (l : list A) : NoDup (imap pair l).
Proof.
  apply NoDup_fmap_1 with fst. apply NoDup_alt. intros i j k.
  rewrite !list_lookup_fmap, !list_lookup_imap. intros E1 E2.
  destruct (l !! i), (l !! j); simplify_eq/=; congruence.
Qed.

(** ** Slices: lemmas *)

Lemma elems_gappend {A} (s : slice A) l : elems (gappend s l) = elems s ++ l.
Proof. destruct l; simpl; [by rewrite app_nil_r|done]. Qed.

Lemma elems_sort_slice {A} (less : A → A → bool) s :
  elems (sort_slice less s) = sort_by less (elems s).
Proof. by destruct s. Qed.

Lemma gappend_None {A} (l : list A) : gappend None l = match l with [] => None | _ => Some l end.
Proof. by destruct l. Qed.

(** ** Sums over lists and finite maps *)

Fixpoint sumZ {A} (f : A → Z) (l : list A) : Z :=
  match l with
  | [] => 0
  | x :: l => f x + sumZ f l
  end.

Definition total `{Countable K} {A} (f : A → Z) (m : gmap K A) : Z :=
  sumZ (λ kv, f kv.2) (map_to_list m).

#[export] Instance sumZ_proper {A} (f : A → Z) : Proper ((≡ₚ) ==> eq) (sumZ f).
Proof. induction 1; simpl; lia. Qed.

Lemma sumZ_app {A} (f : A → Z) l1 l2 : sumZ f (l1 ++ l2) = sumZ f l1 + sumZ f l2.
Proof. induction l1; simpl; lia. Qed.

Lemma sumZ_nonneg {A} (f : A → Z) l : (∀ x, x ∈ l → 0 ≤ f x) → 0 ≤ sumZ f l.
Proof.
  induction l as [|x l IH]; simpl; [lia|]. intros H.
  assert (0 ≤ sumZ f l) by (apply IH; intros; apply H; by right).
  pose proof (H x ltac:(left)). lia.
Qed.

Lemma sumZ_zero {A} (l : list A) : sumZ (λ _, 0) l = 0.
Proof. induction l; simpl; lia. Qed.

Lemma sumZ_le {A} (f g : A → Z) l : (∀ x, x ∈ l → f x ≤ g x) → sumZ f l ≤ sumZ g l.
Proof.
  induction l as [|x l IH]; simpl; [lia|]. intros H.
  assert (sumZ f l ≤ sumZ g l) by (apply IH; intros; apply H; by right).
  pose proof (H x ltac:(left)). lia.
Qed.

Lemma sumZ_elem {A} (f : A → Z) l x : (∀ x, x ∈ l → 0 ≤ f x) → x ∈ l → f x ≤ sumZ f l.
Proof.
  intros Hf Hx. apply elem_of_Permutation in Hx as [k Hk].
  rewrite Hk. simpl. assert (0 ≤ sumZ f k); [|lia].
  apply sumZ_nonneg. intros y Hy. apply Hf. rewrite Hk. by right.
Qed.

Section total.
Context `{Countable K} {A : Type} (f : A → Z).
Implicit Types m : gmap K A.

Lemma total_empty : total f (∅ : gmap K A) = 0.
Proof. unfold total. by rewrite map_to_list_empty. Qed.

Lemma total_delete m k x : m !! k = Some x → total f (delete k m) = total f m - f x.
Proof. intros Hk. unfold total. rewrite <-(map_to_list_delete m k x Hk). simpl. lia. Qed.

Lemma total_insert_fresh m k x : m !! k = None → total f (<[k:=x]> m) = f x + total f m.
Proof. intros Hk. unfold total. by rewrite map_to_list_insert. Qed.

Lemma total_insert m k x y : m !! k = Some x → total f (<[k:=y]> m) = total f m - f x + f y.
Proof.
  intros Hk. rewrite <-insert_delete_eq, total_insert_fresh, (total_delete m k x) by (done || apply lookup_delete_eq).
  lia.
Qed.

Lemma total_nonneg m : (∀ k x, m !! k = Some x → 0 ≤ f x) → 0 ≤ total f m.
Proof. intros Hf. apply sumZ_nonneg. intros [k x]. rewrite elem_of_map_to_list. eauto. Qed.

Lemma total_lookup m k x : (∀ k x, m !! k = Some x → 0 ≤ f x) → m !! k = Some x → f x ≤ total f m.
Proof.
  intros Hf Hk. apply (sumZ_elem (λ kv : K * A, f kv.2) (map_to_list m) (k, x)).
  - intros [k' x']. rewrite elem_of_map_to_list. eauto.
  - by apply elem_of_map_to_list.
Qed.

Lemma total_size m : total (λ _ : A, 1) m = Z.of_nat (size m).
Proof.
  unfold total. rewrite <-length_map_to_list. induction (map_to_list m); simpl; [done|]. lia.
Qed.
End total.

Lemma total_le `{Countable K} {A} (f g : A → Z) (m : gmap K A) :
  (∀ k x, m !! k = Some x → f x ≤ g x) → total f m ≤ total g m.
Proof. intros Hf. apply sumZ_le. intros [k x]. rewrite elem_of_map_to_list. eauto. Qed.

Create Rewrite HintDb go.
#[export] Hint Rewrite @elems_gappend @sort_by_length : go.
#[export] Hint Resolve sort_by_sorted le_key_refl : go.
