(* ===== verification/GoString.v ===== *)
(** * Go strings

    Go strings are byte sequences; the model keeps them as [string] (a list of
    8-bit characters) and gives the operations of [unicode/utf8], [unicode],
    [strings], [path] and [encoding/hex] that the modelled code calls.  UTF-8
    is decoded as [utf8.DecodeRune] does, one byte at a time on malformed
    input.  The case mapping of non-ASCII runes is the class [CaseTables]:
    the tables of the [unicode] package are data, and only the laws of
    [CaseLaws] are ever used of them. *)

From S2P Require Import Prelude.

Declare Scope go_scope.
Delimit Scope go_scope with go.

(** ** Bytes *)

Definition byte_of (a : ascii) : Z := Z.of_N (Ascii.N_of_ascii a).
Definition ascii_of (b : Z) : ascii := Ascii.ascii_of_N (Z.to_N b).

Fixpoint bytes_of (s : string) : list Z :=
  match s with
  | EmptyString => []
  | String a s => byte_of a :: bytes_of s
  end.

Fixpoint of_bytes (l : list Z) : string :=
  match l with
  | [] => EmptyString
  | b :: l => String (ascii_of b) (of_bytes l)
  end.

Definition is_byte (b : Z) : Prop := 0 ≤ b < 256.

(** [len(s)] *)
Definition go_len (s : string) : Z := Z.of_nat (String.length s).

(** ** UTF-8 *)

Definition RuneError : Z := 0xFFFD.

Definition is_scalar (r : Z) : bool :=
  (0 <=? r) && (r <=? 0x10FFFF) && negb ((0xD800 <=? r) && (r <=? 0xDFFF)).

Definition in_range (lo hi b : Z) : bool := (lo <=? b) && (b <=? hi).
Definition is_cont (b : Z) : bool := in_range 0x80 0xBF b.

(** The second byte allowed after a three- or four-byte lead. *)
Definition accept3 (b0 b1 : Z) : bool :=
  ((b0 =? 0xE0) && in_range 0xA0 0xBF b1)
  || (in_range 0xE1 0xEC b0 && is_cont b1)
  || ((b0 =? 0xED) && in_range 0x80 0x9F b1)
  || (in_range 0xEE 0xEF b0 && is_cont b1).
Definition accept4 (b0 b1 : Z) : bool :=
  ((b0 =? 0xF0) && in_range 0x90 0xBF b1)
  || (in_range 0xF1 0xF3 b0 && is_cont b1)
  || ((b0 =? 0xF4) && in_range 0x80 0x8F b1).

(** [utf8.DecodeRune]: the rune, [None] for an encoding error, and its width. *)
Definition decode1 (l : list Z) : option Z * nat :=
  match l with
  | [] => (None, 0%nat)
  | b0 :: l1 =>
      if in_range 0 0x7F b0 then (Some b0, 1%nat) else
      match l1 with
      | [] => (None, 1%nat)
      | b1 :: l2 =>
          if in_range 0xC2 0xDF b0 && is_cont b1
          then (Some ((b0 - 0xC0) * 64 + (b1 - 0x80)), 2%nat) else
          match l2 with
          | [] => (None, 1%nat)
          | b2 :: l3 =>
              if accept3 b0 b1 && is_cont b2
              then (Some ((b0 - 0xE0) * 4096 + (b1 - 0x80) * 64 + (b2 - 0x80)), 3%nat) else
              match l3 with
              | [] => (None, 1%nat)
              | b3 :: _ =>
                  if accept4 b0 b1 && is_cont b2 && is_cont b3
                  then (Some ((b0 - 0xF0) * 262144 + (b1 - 0x80) * 4096
                              + (b2 - 0x80) * 64 + (b3 - 0x80)), 4%nat)
                  else (None, 1%nat)
              end
          end
      end
  end.

(** A string cut into the runes a [range] loop visits, each with its bytes;
    [n] bounds the number of runes and the length of the string suffices. *)
Fixpoint decode_n (n : nat) (l : list Z) : list (option Z * list Z) :=
  match n, l with
  | S n, _ :: _ =>
      let '(r, k) := decode1 l in (r, take k l) :: decode_n n (drop k l)
  | _, _ => []
  end.
Definition decode (l : list Z) : list (option Z * list Z) := decode_n (length l) l.

(** The runes of [for _, r := range s]. *)
Definition runes (s : string) : list Z :=
  (λ seg, default RuneError seg.1) <$> decode (bytes_of s).

(** [utf8.ValidString] *)
Definition valid_utf8 (s : string) : bool :=
  forallb (λ seg, if seg.1 is Some _ then true else false) (decode (bytes_of s)).

(** [utf8.AppendRune] *)
Definition encode_rune (r : Z) : list Z :=
  if negb (is_scalar r) then [0xEF; 0xBF; 0xBD]
  else if r <=? 0x7F then [r]
  else if r <=? 0x7FF then [0xC0 + r / 64; 0x80 + r `mod` 64]
  else if r <=? 0xFFFF then [0xE0 + r / 4096; 0x80 + (r / 64) `mod` 64; 0x80 + r `mod` 64]
  else [0xF0 + r / 262144; 0x80 + (r / 4096) `mod` 64; 0x80 + (r / 64) `mod` 64; 0x80 + r `mod` 64].

Definition encode (rs : list Z) : list Z := rs ≫= encode_rune.
Definition of_runes (rs : list Z) : string := of_bytes (encode rs).

(** ** Classes of runes *)

(** [unicode.IsSpace] *)
Definition is_space (r : Z) : bool :=
  in_range 9 13 r || (r =? 0x20) || (r =? 0x85) || (r =? 0xA0) || (r =? 0x1680)
  || in_range 0x2000 0x200A r || (r =? 0x2028) || (r =? 0x2029) || (r =? 0x202F)
  || (r =? 0x205F) || (r =? 0x3000).

(** [unicode.IsControl] *)
Definition is_control (r : Z) : bool := in_range 0 0x1F r || in_range 0x7F 0x9F r.

(** ** [strings] *)

Fixpoint drop_while {A} (p : A → bool) (l : list A) : list A :=
  match l with
  | [] => []
  | x :: l' => if p x then drop_while p l' else l
  end.

Definition trim_by {A} (p : A → bool) (l : list A) : list A :=
  reverse (drop_while p (reverse (drop_while p l))).

(** The trimmed list neither begins nor ends with a space. *)
Definition trimmed {A} (p : A → bool) (l : list A) : Prop :=
  (∀ x k, l = x :: k → p x = false) ∧ (∀ x k, l = k ++ [x] → p x = false).

Definition seg_space (seg : option Z * list Z) : bool :=
  match seg.1 with
  | Some r => is_space r
  | None => false
  end.

Definition of_segs (segs : list (option Z * list Z)) : string :=
  of_bytes (concat (segs.*2)).

(** [strings.TrimSpace] *)
Definition TrimSpace (s : string) : string :=
  of_segs (trim_by seg_space (decode (bytes_of s))).

(** The maximal runs of elements outside [p], in order. *)
Fixpoint split_runs {A} (p : A → bool) (run : list A) (l : list A) : list (list A) :=
  match l with
  | [] => if run is [] then [] else [reverse run]
  | x :: l =>
      if p x then (if run is [] then split_runs p [] l else reverse run :: split_runs p [] l)
      else split_runs p (x :: run) l
  end.

(** [strings.Fields] *)
Definition Fields (s : string) : list string :=
  of_segs <$> split_runs seg_space [] (decode (bytes_of s)).

(** [strings.Join] *)
Fixpoint Join (l : list string) (sep : string) : string :=
  match l with
  | [] => ""
  | [s] => s
  | s :: l => s +:+ sep +:+ Join l sep
  end.

Definition HasPrefix (s pre : string) : bool := String.prefix pre s.
Definition TrimPrefix (s pre : string) : string :=
  if HasPrefix s pre
  then String.substring (String.length pre) (String.length s - String.length pre) s else s.

Definition rev_string (s : string) : string := of_bytes (reverse (bytes_of s)).
Definition HasSuffix (s suf : string) : bool := HasPrefix (rev_string s) (rev_string suf).
Definition TrimSuffix (s suf : string) : string :=
  if HasSuffix s suf then String.substring 0 (String.length s - String.length suf) s else s.

(** [strings.Contains] *)
Definition Contains (s sub : string) : bool :=
  if String.index 0 sub s is Some _ then true else false.

(** [strings.ContainsAny] for a set of ASCII characters *)
Definition ContainsAny (s chars : string) : bool :=
  existsb (λ b, existsb (Z.eqb b) (bytes_of chars)) (bytes_of s).

(** [strings.Split] on a one-byte separator *)
Fixpoint split_bytes (sep : Z) (l : list Z) : list (list Z) :=
  match l with
  | [] => [[]]
  | b :: l =>
      if b =? sep then [] :: split_bytes sep l
      else match split_bytes sep l with
           | [] => [[b]]
           | w :: ws => (b :: w) :: ws
           end
  end.
Definition Split (s : string) (sep : ascii) : list string :=
  of_bytes <$> split_bytes (byte_of sep) (bytes_of s).

(** [unicode.ToUpper] and [unicode.ToLower] beyond ASCII *)
Class CaseTables := {
  upper_table : Z → Z;
  lower_table : Z → Z;
}.

Definition ascii_upper (r : Z) : Z := if in_range 97 122 r then r - 32 else r.
Definition ascii_lower (r : Z) : Z := if in_range 65 90 r then r + 32 else r.
Definition rune_upper `{CaseTables} (r : Z) : Z := if r <=? 0x7F then ascii_upper r else upper_table r.
Definition rune_lower `{CaseTables} (r : Z) : Z := if r <=? 0x7F then ascii_lower r else lower_table r.

(** [strings.ToUpper], [strings.ToLower] *)
Definition ToUpper `{CaseTables} (s : string) : string := of_runes (rune_upper <$> runes s).
Definition ToLower `{CaseTables} (s : string) : string := of_runes (rune_lower <$> runes s).

(** What the code relies on of the case tables: simple case mapping is
    idempotent, stays within the Unicode scalar values, and neither makes nor
    removes a space or a control character. *)
Definition case_map_ok (f : Z → Z) : Prop :=
  ∀ r, is_scalar r = true → 0x7F < r →
    is_scalar (f r) = true ∧ is_space (f r) = is_space r ∧ is_control (f r) = is_control r.

Class CaseLaws `{CaseTables} : Prop := {
  upper_table_ok : case_map_ok upper_table;
  lower_table_ok : case_map_ok lower_table;
  upper_idem : ∀ r, rune_upper (rune_upper r) = rune_upper r;
  lower_idem : ∀ r, rune_lower (rune_lower r) = rune_lower r;
}.

(** ** [path.Clean] *)

Definition clean_step (rooted : bool) (out : list string) (w : string) : list string :=
  if bool_decide (w = "" ∨ w = ".") then out
  else if bool_decide (w = "..") then
    match out with
    | top :: out' => if bool_decide (top = "..") then ".." :: out else out'
    | [] => if rooted then [] else [".."]
    end
  else w :: out.

Definition path_clean (p : string) : string :=
  if bool_decide (p = "") then "."
  else
    let rooted := HasPrefix p "/" in
    let out := foldl (clean_step rooted) [] (Split p "/"%char) in
    let body := Join (reverse out) "/" in
    if rooted then "/" +:+ body
    else if bool_decide (body = "") then "." else body.

(** ** Hexadecimal *)

Definition hex_digit (n : Z) : Z := if n <? 10 then 48 + n else 87 + n.
Definition hex_bytes (l : list Z) : list Z := l ≫= λ b, [hex_digit (b / 16); hex_digit (b `mod` 16)].

(** [hex.EncodeToString] *)
Definition hex_encode (l : list Z) : string := of_bytes (hex_bytes l).

Definition is_lower_hex (r : Z) : bool := in_range 48 57 r || in_range 97 102 r.

(** ** Bytes: lemmas *)

Lemma byte_of_bound a : is_byte (byte_of a).
Proof.
  unfold is_byte, byte_of. pose proof (Ascii.N_ascii_bounded a). lia.
Qed.

Lemma ascii_of_byte_of a : ascii_of (byte_of a) = a.
Proof. unfold ascii_of, byte_of. by rewrite N2Z.id, Ascii.ascii_N_embedding. Qed.

Lemma byte_of_ascii_of b : is_byte b → byte_of (ascii_of b) = b.
Proof.
  unfold is_byte, byte_of, ascii_of. intros. rewrite Ascii.N_ascii_embedding; lia.
Qed.

Lemma of_bytes_of s : of_bytes (bytes_of s) = s.
Proof. induction s as [|a s IH]; simpl; [done|]. by rewrite ascii_of_byte_of, IH. Qed.

Lemma bytes_of_bytes l : Forall is_byte l → bytes_of (of_bytes l) = l.
Proof. induction 1; simpl; [done|].
  rewrite byte_of_ascii_of by done. by f_equal.
Qed.

Lemma bytes_of_bound s : Forall is_byte (bytes_of s).
Proof. induction s; simpl; constructor; auto using byte_of_bound. Qed.

#[export] Instance bytes_of_inj : Inj (=) (=) bytes_of.
Proof. intros s t E. by rewrite <-(of_bytes_of s), <-(of_bytes_of t), E. Qed.

Lemma bytes_of_app s t : bytes_of (s +:+ t) = bytes_of s ++ bytes_of t.
Proof. induction s as [|a s IH]; simpl; [done|]. by rewrite IH. Qed.

Lemma bytes_of_length s : length (bytes_of s) = String.length s.
Proof. induction s; simpl; auto. Qed.

Lemma of_bytes_app l k : of_bytes (l ++ k) = of_bytes l +:+ of_bytes k.
Proof. induction l as [|b l IH]; simpl; [done|]. by rewrite IH. Qed.

Lemma bytes_of_nil s : bytes_of s = [] ↔ s = "".
Proof. by destruct s. Qed.

(** ** UTF-8: lemmas *)

Lemma in_range_true lo hi b : in_range lo hi b = true ↔ lo ≤ b ≤ hi.
Proof. unfold in_range. by rewrite andb_true_iff, !Z.leb_le. Qed.

Lemma in_range_false lo hi b : in_range lo hi b = false ↔ b < lo ∨ hi < b.
Proof. unfold in_range. by rewrite andb_false_iff, !Z.leb_gt. Qed.

(** Decide the byte-range tests of a goal by arithmetic. *)
Ltac ranges :=
  unfold accept3, accept4, is_cont, is_scalar, in_range in *; lia.

Arguments decode1 : simpl never.
Arguments decode : simpl never.

Lemma decode1_width b l : (1 ≤ (decode1 (b :: l)).2)%nat.
Proof. unfold decode1. repeat case_match; simpl; lia. Qed.

Lemma decode_n_enough n m l :
  (length l ≤ n)%nat → (length l ≤ m)%nat → decode_n n l = decode_n m l.
Proof.
  revert m l; induction n as [|n IH]; intros [|m] [|b l] Hn Hm; simpl in *; try done; try lia.
  destruct (decode1 (b :: l)) as [r k] eqn:E. f_equal.
  pose proof (decode1_width b l) as Hk. rewrite E in Hk. simpl in Hk.
  apply IH; rewrite length_drop; simpl; lia.
Qed.

Lemma decode_step l r k :
  l ≠ [] → decode1 l = (r, k) → decode l = (r, take k l) :: decode (drop k l).
Proof.
  intros Hl E. destruct l as [|b l]; [done|]. unfold decode at 1. cbn [length decode_n].
  rewrite E. f_equal. pose proof (decode1_width b l) as Hk. rewrite E in Hk. simpl in Hk.
  apply decode_n_enough; rewrite ?length_drop; simpl; lia.
Qed.

(** Induction along the decoding of a byte sequence. *)
Lemma decode_ind (P : list Z → Prop) :
  P [] →
  (∀ l r k, l ≠ [] → decode1 l = (r, k) → P (drop k l) → P l) →
  ∀ l, P l.
Proof.
  intros H0 Hs l. remember (length l) as n eqn:Hn. revert l Hn.
  induction (lt_wf n) as [n _ IH]. intros [|b l] ->; [done|].
  destruct (decode1 (b :: l)) as [r k] eqn:E.
  apply (Hs _ r k); [done..|]. eapply IH; [|done].
  pose proof (decode1_width b l) as Hk. rewrite E in Hk.
  rewrite length_drop. simpl in *. lia.
Qed.

Lemma decode_concat l : concat (decode l).*2 = l.
Proof.
  induction l as [|l r k Hl E IH] using decode_ind; [done|].
  rewrite (decode_step _ _ _ Hl E). rewrite fmap_cons.
  cbn [concat snd]. by rewrite IH, take_drop.
Qed.

Lemma of_segs_decode s : of_segs (decode (bytes_of s)) = s.
Proof. unfold of_segs. by rewrite decode_concat, of_bytes_of. Qed.

Lemma encode_rune_bytes r : Forall is_byte (encode_rune r).
Proof.
  unfold encode_rune. destruct (is_scalar r) eqn:Hr; simpl;
    [|repeat constructor; unfold is_byte; lia].
  unfold is_scalar in Hr. bool_prop.
  repeat case_match; bool_prop; repeat constructor; unfold is_byte;
    Z.to_euclidean_division_equations; lia.
Qed.

Lemma encode_bytes rs : Forall is_byte (encode rs).
Proof.
  induction rs as [|r rs IH]; simpl; [constructor|].
  apply Forall_app; auto using encode_rune_bytes.
Qed.

Lemma encode_rune_cons r : ∃ b l, encode_rune r = b :: l.
Proof. unfold encode_rune. repeat case_match; eauto. Qed.

Ltac case_test :=
  match goal with
  | |- context [if ?b then _ else _] =>
      first [ replace b with true by (symmetry; ranges)
            | replace b with false by (symmetry; ranges) ]
  end.

Lemma decode1_encode r l :
  is_scalar r = true → decode1 (encode_rune r ++ l) = (Some r, length (encode_rune r)).
Proof.
  intros Hr. unfold encode_rune. rewrite Hr. simpl negb. cbv iota.
  assert (Hb : 0 ≤ r ≤ 0x10FFFF ∧ (r < 0xD800 ∨ 0xDFFF < r)) by ranges. clear Hr.
  repeat case_match; bool_prop; cbn [app length]; unfold decode1; cbv beta iota;
    Z.to_euclidean_division_equations; repeat case_test; repeat f_equal; lia.
Qed.

Lemma decode1_some l r k :
  decode1 l = (Some r, k) → is_scalar r = true ∧ take k l = encode_rune r.
Proof.
  unfold decode1. intros H. repeat case_match; simplify_eq; cbn [take].
  all: unfold accept3, accept4, is_cont, in_range in *.
  all: split; [unfold is_scalar; lia|].
  all: unfold encode_rune, is_scalar; repeat case_test; cbv iota.
  all: repeat f_equal; Z.to_euclidean_division_equations; lia.
Qed.

Lemma encode_cons r rs : encode (r :: rs) = encode_rune r ++ encode rs.
Proof. done. Qed.

Lemma decode_encode rs :
  Forall (λ r, is_scalar r = true) rs →
  decode (encode rs) = (λ r, (Some r, encode_rune r)) <$> rs.
Proof.
  induction 1 as [|r rs Hr _ IH]; [done|]. rewrite encode_cons.
  rewrite (decode_step _ _ _) by (try apply decode1_encode; try done;
    destruct (encode_rune_cons r) as (b & l & ->); done).
  by rewrite take_app_length, drop_app_length, IH.
Qed.

(** [scalars rs]: what the runes of a well-formed string are. *)
Notation scalars := (Forall (λ r, is_scalar r = true)).

Lemma decode_valid l :
  forallb (λ seg : option Z * list Z, if seg.1 is Some _ then true else false) (decode l) = true →
  ∃ rs, scalars rs ∧ l = encode rs.
Proof.
  induction l as [|l r k Hl E IH] using decode_ind; [by exists []|].
  rewrite (decode_step _ _ _ Hl E). cbn [forallb fst]. destruct r as [r|]; [|done]. simpl.
  intros (rs & Hrs & Hd)%IH. apply decode1_some in E as [Hr Ht].
  exists (r :: rs). split; [by constructor|].
  by rewrite encode_cons, <-Hd, <-Ht, take_drop.
Qed.

Lemma bytes_of_runes rs : bytes_of (of_runes rs) = encode rs.
Proof. apply bytes_of_bytes, encode_bytes. Qed.

Lemma runes_of_runes rs : scalars rs → runes (of_runes rs) = rs.
Proof.
  intros Hrs. unfold runes. rewrite bytes_of_runes, (decode_encode _ Hrs), <-list_fmap_compose.
  apply list_fmap_id.
Qed.

Lemma valid_of_runes rs : scalars rs → valid_utf8 (of_runes rs) = true.
Proof.
  intros Hrs. unfold valid_utf8. rewrite bytes_of_runes, (decode_encode _ Hrs).
  clear Hrs. by induction rs.
Qed.

(** A well-formed string is the encoding of its runes. *)
Lemma valid_runes s :
  valid_utf8 s = true → scalars (runes s) ∧ s = of_runes (runes s).
Proof.
  intros (rs & Hrs & Hs)%decode_valid.
  assert (s = of_runes rs) as -> by (by unfold of_runes; rewrite <-Hs, of_bytes_of).
  by rewrite runes_of_runes.
Qed.

Lemma of_runes_nil rs : of_runes rs = "" ↔ rs = [].
Proof.
  destruct rs as [|r rs]; [done|]. unfold of_runes. rewrite encode_cons.
  destruct (encode_rune_cons r) as (b & l & ->). done.
Qed.

(** ** [TrimSpace]: lemmas *)

Lemma drop_while_fmap {A B} (p : A → bool) (q : B → bool) (f : A → B) l :
  (∀ x, q (f x) = p x) → drop_while q (f <$> l) = f <$> drop_while p l.
Proof.
  intros Hf. induction l as [|x l IH]; simpl; [done|]. rewrite Hf. by destruct (p x).
Qed.

Lemma trim_by_fmap {A B} (p : A → bool) (q : B → bool) (f : A → B) l :
  (∀ x, q (f x) = p x) → trim_by q (f <$> l) = f <$> trim_by p l.
Proof.
  intros Hf. unfold trim_by.
  by rewrite (drop_while_fmap p), <-fmap_reverse, (drop_while_fmap p), <-fmap_reverse.
Qed.

Lemma drop_while_suffix {A} (p : A → bool) l : drop_while p l `suffix_of` l.
Proof.
  induction l as [|x l IH]; simpl; [done|]. destruct (p x); [|done].
  by apply suffix_cons_r.
Qed.

Lemma drop_while_head {A} (p : A → bool) l x k : drop_while p l = x :: k → p x = false.
Proof. induction l as [|y l IH]; simpl; [done|]. destruct (p y) eqn:E; naive_solver. Qed.

Lemma drop_while_id {A} (p : A → bool) l :
  (∀ x k, l = x :: k → p x = false) → drop_while p l = l.
Proof. destruct l as [|x l]; simpl; [done|]. intros H. by rewrite (H x l eq_refl). Qed.

Lemma trim_by_elem_of {A} (p : A → bool) l x : x ∈ trim_by p l → x ∈ l.
Proof.
  unfold trim_by. rewrite elem_of_reverse. intros H.
  destruct (drop_while_suffix p (reverse (drop_while p l))) as [k1 Hk1].
  destruct (drop_while_suffix p l) as [k2 Hk2].
  rewrite Hk2. apply elem_of_app. right. rewrite <-elem_of_reverse, Hk1.
  apply elem_of_app. by right.
Qed.

Lemma trim_by_trimmed {A} (p : A → bool) l : trimmed p (trim_by p l).
Proof.
  unfold trim_by, trimmed. split.
  - intros x k E.
    destruct (drop_while_suffix p (reverse (drop_while p l))) as [k1 Hk1].
    apply (f_equal reverse) in Hk1. rewrite reverse_involutive, reverse_app, E in Hk1.
    by apply drop_while_head in Hk1.
  - intros x k E. apply (f_equal reverse) in E.
    rewrite reverse_involutive, reverse_snoc in E. by apply drop_while_head in E.
Qed.

Lemma trim_by_id {A} (p : A → bool) l : trimmed p l → trim_by p l = l.
Proof.
  intros [H1 H2]. unfold trim_by. rewrite (drop_while_id p l H1), drop_while_id.
  - apply reverse_involutive.
  - intros x k E. apply (f_equal reverse) in E.
    rewrite reverse_involutive, reverse_cons in E. eauto.
Qed.

Lemma TrimSpace_of_runes rs :
  scalars rs → TrimSpace (of_runes rs) = of_runes (trim_by is_space rs).
Proof.
  intros Hrs. unfold TrimSpace. rewrite bytes_of_runes, (decode_encode _ Hrs).
  rewrite (trim_by_fmap is_space) by done. unfold of_segs, of_runes, encode. f_equal.
  induction (trim_by is_space rs) as [|r l IH]; [done|]. rewrite fmap_cons. csimpl. by f_equal.
Qed.

Lemma Forall_trim_by {A} (P : A → Prop) p l : Forall P l → Forall P (trim_by p l).
Proof. rewrite !Forall_forall. eauto using trim_by_elem_of. Qed.

Lemma TrimSpace_valid s : valid_utf8 s = true → valid_utf8 (TrimSpace s) = true.
Proof.
  intros [Hrs ->]%valid_runes. rewrite TrimSpace_of_runes by done.
  by apply valid_of_runes, Forall_trim_by.
Qed.

Lemma TrimSpace_idem s :
  valid_utf8 s = true → TrimSpace (TrimSpace s) = TrimSpace s.
Proof.
  intros [Hrs ->]%valid_runes. rewrite TrimSpace_of_runes by done.
  rewrite TrimSpace_of_runes by by apply Forall_trim_by.
  f_equal. apply trim_by_id, trim_by_trimmed.
Qed.

(** ** [Fields] and [Join]: lemmas *)

Lemma split_runs_fmap {A B} (p : A → bool) (q : B → bool) (f : A → B) (run l : list A) :
  (∀ x, q (f x) = p x) →
  split_runs q (fmap (M:=list) f run) (fmap (M:=list) f l)
  = fmap (M:=list) (fmap (M:=list) f) (split_runs p run l).
Proof.
  intros Hf. revert run. induction l as [|x l IH]; intros run.
  - destruct run as [|y run]; [done|]. cbn [split_runs fmap list_fmap]. f_equal. symmetry. apply (fmap_reverse f (y :: run)).
  - rewrite fmap_cons. cbn [split_runs]. rewrite Hf. destruct (p x).
    + destruct run as [|y run]; [apply (IH [])|]. rewrite !fmap_cons.
      f_equal; [|apply (IH [])]. symmetry. apply (fmap_reverse f (y :: run)).
    + rewrite <-fmap_cons. apply IH.
Qed.

(** A word: what [Fields] returns. *)
Definition word {A} (p : A → bool) (w : list A) : Prop := w ≠ [] ∧ Forall (λ x, p x = false) w.

Lemma split_runs_words {A} (p : A → bool) run l :
  Forall (λ x, p x = false) run → Forall (word p) (split_runs p run l).
Proof.
  assert (Hword : ∀ y r, Forall (λ x, p x = false) (y :: r) → word p (reverse (y :: r))).
  { intros y r Hr. split; [|by apply Forall_reverse].
    intros E%(f_equal length). by rewrite length_reverse in E. }
  revert run. induction l as [|x l IH]; intros run Hrun; simpl.
  - destruct run; repeat constructor; by apply Hword.
  - destruct (p x) eqn:E; [|auto]. destruct run; [auto|]. constructor; auto.
Qed.

Lemma split_runs_word {A} (p : A → bool) run w l :
  Forall (λ x, p x = false) w →
  split_runs p run (w ++ l) = split_runs p (reverse w ++ run) l.
Proof.
  intros Hw. revert run. induction Hw as [|x w Hx _ IH]; intros run; [done|]. simpl.
  rewrite Hx, IH, reverse_cons, <-app_assoc. done.
Qed.

Section join.
Context {A : Type} (sep : A).
Fixpoint join_list (ws : list (list A)) : list A :=
  match ws with
  | [] => []
  | [w] => w
  | w :: ws => w ++ sep :: join_list ws
  end.
End join.

Lemma split_runs_join {A} (p : A → bool) sep ws :
  p sep = true → Forall (word p) ws → split_runs p [] (join_list sep ws) = ws.
Proof.
  intros Hsep. induction 1 as [|w ws [Hne Hw] Hws IH]; [done|].
  assert (Hrev : ∃ y r, reverse w = y :: r).
  { destruct (reverse w) eqn:E; [|by eauto]. apply (f_equal reverse) in E. by rewrite reverse_involutive in E. }
  destruct Hrev as (y & r & Er).
  assert (Ew : reverse (y :: r) = w) by by rewrite <-Er, reverse_involutive.
  destruct ws as [|w' ws].
  - cbn [join_list]. rewrite <-(app_nil_r w) at 1. rewrite split_runs_word, Er, app_nil_r by done.
    cbn [split_runs]. by rewrite Ew.
  - cbn [join_list] in *. rewrite split_runs_word, Er, app_nil_r by done.
    cbn [split_runs]. rewrite Hsep, Ew. by f_equal.
Qed.

Lemma Fields_of_runes rs :
  scalars rs → Fields (of_runes rs) = of_runes <$> split_runs is_space [] rs.
Proof.
  intros Hrs. unfold Fields. rewrite bytes_of_runes, (decode_encode _ Hrs).
  change [] with ((λ r, (Some r, encode_rune r)) <$> ([] : list Z)) at 1.
  rewrite (split_runs_fmap is_space), <-list_fmap_compose by done.
  apply list_fmap_ext. intros _ w _. unfold compose, of_segs, of_runes, encode. f_equal.
  induction w as [|r w IH]; [done|]. rewrite fmap_cons. csimpl. by f_equal.
Qed.

Lemma of_runes_app rs rs' : of_runes (rs ++ rs') = of_runes rs +:+ of_runes rs'.
Proof. unfold of_runes, encode. by rewrite bind_app, of_bytes_app. Qed.

Lemma Join_of_runes ws : Join (of_runes <$> ws) " " = of_runes (join_list 32 ws).
Proof.
  induction ws as [|w ws IH]; [done|]. rewrite fmap_cons. destruct ws as [|w' ws]; [done|].
  cbn [join_list]. rewrite of_runes_app. cbn [Join]. rewrite fmap_cons. f_equal.
  rewrite fmap_cons in IH. rewrite IH. done.
Qed.

Lemma join_list_Forall {A} (P : A → Prop) sep ws :
  P sep → Forall (Forall P) ws → Forall P (join_list sep ws).
Proof.
  intros Hsep. induction 1 as [|w ws Hw Hws IH]; [done|]. destruct ws; [done|].
  cbn [join_list] in *. apply Forall_app. auto.
Qed.

Lemma split_runs_Forall {A} (P : A → Prop) p run l :
  Forall P run → Forall P l → Forall (Forall P) (split_runs p run l).
Proof.
  intros Hrun Hl. revert run Hrun. induction Hl as [|x l Hx Hl IH]; intros run Hrun; simpl.
  - destruct run; repeat constructor. by apply Forall_reverse.
  - destruct (p x); [|auto]. destruct run; [auto|]. constructor; [by apply Forall_reverse|auto].
Qed.

(** Joining the fields of a string normalises its white space once and for
    all. *)
Lemma Join_Fields_runes s :
  valid_utf8 s = true → ∃ ws, Forall (word is_space) ws ∧ scalars (join_list 32 ws)
    ∧ Join (Fields s) " " = of_runes (join_list 32 ws).
Proof.
  intros [Hrs E]%valid_runes. exists (split_runs is_space [] (runes s)).
  split; [by apply split_runs_words|]. split.
  - apply join_list_Forall; [done|]. by apply split_runs_Forall.
  - rewrite E at 1. rewrite Fields_of_runes by done. apply Join_of_runes.
Qed.

Lemma Join_Fields_idem s :
  valid_utf8 s = true → Join (Fields (Join (Fields s) " ")) " " = Join (Fields s) " ".
Proof.
  intros (ws & Hws & Hsc & ->)%Join_Fields_runes.
  by rewrite Fields_of_runes, split_runs_join, Join_of_runes.
Qed.

Lemma Join_Fields_valid s : valid_utf8 s = true → valid_utf8 (Join (Fields s) " ") = true.
Proof. intros (ws & _ & Hsc & ->)%Join_Fields_runes. by apply valid_of_runes. Qed.

Lemma valid_app s t : valid_utf8 s = true → valid_utf8 t = true → valid_utf8 (s +:+ t) = true.
Proof.
  intros [Hs ->]%valid_runes [Ht ->]%valid_runes. rewrite <-of_runes_app.
  apply valid_of_runes. by apply Forall_app.
Qed.

(** ** Case mapping: lemmas *)

Section case.
Context `{CaseTables, !CaseLaws}.

Lemma rune_map_ok (t : Z → Z) (a : Z → Z) (f : Z → Z) r :
  case_map_ok t →
  (∀ r, is_scalar r = true → r ≤ 0x7F →
    is_scalar (a r) = true ∧ is_space (a r) = is_space r ∧ is_control (a r) = is_control r) →
  (∀ r, f r = if r <=? 0x7F then a r else t r) →
  is_scalar r = true →
  is_scalar (f r) = true ∧ is_space (f r) = is_space r ∧ is_control (f r) = is_control r.
Proof.
  intros Ht Ha Hf Hr. rewrite Hf. destruct (r <=? 0x7F) eqn:E; bool_prop; [by apply Ha|by apply Ht].
Qed.

Lemma rune_upper_ok r :
  is_scalar r = true →
  is_scalar (rune_upper r) = true ∧ is_space (rune_upper r) = is_space r
  ∧ is_control (rune_upper r) = is_control r.
Proof.
  apply (rune_map_ok upper_table ascii_upper); [apply upper_table_ok| |done].
  intros r' Hr Hle. unfold ascii_upper, is_space, is_control. destruct (in_range 97 122 r') eqn:E; [|done].
  ranges.
Qed.

Lemma rune_lower_ok r :
  is_scalar r = true →
  is_scalar (rune_lower r) = true ∧ is_space (rune_lower r) = is_space r
  ∧ is_control (rune_lower r) = is_control r.
Proof.
  apply (rune_map_ok lower_table ascii_lower); [apply lower_table_ok| |done].
  intros r' Hr Hle. unfold ascii_lower, is_space, is_control. destruct (in_range 65 90 r') eqn:E; [|done].
  ranges.
Qed.
End case.

(** ** Hexadecimal: lemmas *)

Lemma hex_digit_lower n : 0 ≤ n < 16 → is_lower_hex (hex_digit n) = true ∧ is_byte (hex_digit n).
Proof. unfold is_lower_hex, hex_digit, in_range, is_byte. intros. case_match; lia. Qed.

Lemma hex_bytes_lower l :
  Forall is_byte l → Forall (λ b, is_lower_hex b = true ∧ is_byte b) (hex_bytes l).
Proof.
  induction 1 as [|b l Hb _ IH]; simpl; [constructor|].
  unfold is_byte in Hb.
  repeat constructor; try done; apply hex_digit_lower; Z.to_euclidean_division_equations; lia.
Qed.

Lemma hex_bytes_length l : length (hex_bytes l) = (2 * length l)%nat.
Proof. induction l; simpl; [done|]. lia. Qed.

Lemma hex_digit_inj m n : 0 ≤ m < 16 → 0 ≤ n < 16 → hex_digit m = hex_digit n → m = n.
Proof. unfold hex_digit. intros. repeat case_match; lia. Qed.

Lemma hex_bytes_inj l k :
  Forall is_byte l → Forall is_byte k → hex_bytes l = hex_bytes k → l = k.
Proof.
  intros Hl. revert k. induction Hl as [|b l Hb Hl IH]; intros [|c k] Hk E; try done.
  apply Forall_cons in Hk as [Hc Hk]. unfold is_byte in *.
  cbn in E. injection E as E1 E2 E3.
  apply hex_digit_inj in E1, E2; try (Z.to_euclidean_division_equations; lia).
  f_equal; [|by apply IH]. rewrite (Z.div_mod b 16), (Z.div_mod c 16) by lia. by rewrite E1, E2.
Qed.

(** An ASCII byte sequence decodes to itself. *)
Lemma runes_ascii l : Forall (λ b, 0 ≤ b ≤ 0x7F) l → runes (of_bytes l) = l ∧ valid_utf8 (of_bytes l) = true.
Proof.
  intros Hl. assert (scalars l) as Hs.
  { eapply Forall_impl; [exact Hl|]. simpl. unfold is_scalar. lia. }
  assert (of_bytes l = of_runes l) as ->; [|by split; [apply runes_of_runes|apply valid_of_runes]].
  unfold of_runes. f_equal. clear Hs. induction Hl as [|b l Hb _ IH]; [done|].
  rewrite encode_cons, <-IH. unfold encode_rune, is_scalar. by repeat case_test.
Qed.

#[export] Hint Rewrite of_bytes_of bytes_of_runes bytes_of_length : go.
#[export] Hint Resolve bytes_of_bound encode_bytes valid_of_runes Forall_trim_by : go.

(** ** The Latin-1 part of the case tables, for samples *)

Definition latin1 : CaseTables := {|
  upper_table r := if in_range 0xE0 0xFE r && negb (r =? 0xF7) then r - 32 else r;
  lower_table r := if in_range 0xC0 0xDE r && negb (r =? 0xD7) then r + 32 else r;
|}.

Lemma latin1_laws : @CaseLaws latin1.
Proof.
  constructor.
  - intros r Hr Hlo. simpl. case_match; [|done]. unfold is_space, is_control. ranges.
  - intros r Hr Hlo. simpl. case_match; [|done]. unfold is_space, is_control. ranges.
  - intros r. unfold rune_upper, ascii_upper. simpl. repeat case_match; ranges.
  - intros r. unfold rune_lower, ascii_lower. simpl. repeat case_match; ranges.
Qed.

(** A prefix that was added is trimmed. *)
Lemma substring_all s : String.substring 0 (String.length s) s = s.
Proof. induction s as [|a s IH]; simpl; [done|]. by rewrite IH. Qed.

Lemma TrimPrefix_app s pre : TrimPrefix (pre +:+ s) pre = s.
Proof.
  unfold TrimPrefix, HasPrefix. replace (String.prefix pre (pre +:+ s)) with true.
  - induction pre as [|a pre IH]; [simpl; rewrite Nat.sub_0_r; apply substring_all|exact IH].
  - symmetry. induction pre as [|a pre IH]; [by destruct s|]. simpl. destruct (Ascii.ascii_dec a a); [exact IH|done].
Qed.

Lemma prefix_split pre s : HasPrefix s pre = true → s = pre +:+ TrimPrefix s pre.
Proof.
  intros Hp. assert (∃ t, s = pre +:+ t) as [t ->]; [|by rewrite TrimPrefix_app].
  revert s Hp. unfold HasPrefix. induction pre as [|a pre IH]; intros s; simpl; [intros _; by exists s|].
  destruct s as [|b s]; [done|]. simpl. destruct (Ascii.ascii_dec a b) as [->|]; [|done].
  intros (t & ->)%IH. by exists t.
Qed.
