(* ===== verification/GoSha256.v ===== *)
(** * SHA-256

    [crypto/sha256.Sum256] as FIPS 180-4 defines it, on lists of bytes; words
    are 32-bit integers kept in [Z].  Every digest of the modelled code is
    this function, so witnesses compute real digests.  No theorem assumes the
    function injective: where the code relies on it, the statement exhibits
    the colliding pair instead. *)

From S2P Require Import Prelude GoString.

Definition mask32 : Z := 0xFFFFFFFF.
Definition add32 (x y : Z) : Z := Z.land (x + y) mask32.
Definition shr (x n : Z) : Z := Z.shiftr x n.
Definition rotr (x n : Z) : Z :=
  Z.lor (Z.shiftr x n) (Z.land (Z.shiftl x (32 - n)) mask32).

Definition sha_ch (x y z : Z) : Z := Z.lxor (Z.land x y) (Z.land (Z.lxor x mask32) z).
Definition sha_maj (x y z : Z) : Z := Z.lxor (Z.lxor (Z.land x y) (Z.land x z)) (Z.land y z).
Definition big_sigma0 (x : Z) : Z := Z.lxor (Z.lxor (rotr x 2) (rotr x 13)) (rotr x 22).
Definition big_sigma1 (x : Z) : Z := Z.lxor (Z.lxor (rotr x 6) (rotr x 11)) (rotr x 25).
Definition small_sigma0 (x : Z) : Z := Z.lxor (Z.lxor (rotr x 7) (rotr x 18)) (shr x 3).
Definition small_sigma1 (x : Z) : Z := Z.lxor (Z.lxor (rotr x 17) (rotr x 19)) (shr x 10).

(** The constants of the standard are the first 32 bits of the fractional
    parts of cube roots and square roots of primes; they are computed here. *)
Definition is_prime (n : Z) : bool :=
  forallb (λ d, negb (n mod Z.of_nat d =? 0)) (seq 2 (Z.to_nat (Z.sqrt n) - 1)).

Definition primes_upto (n : nat) : list Z := filter (λ p, is_prime p = true) (Z.of_nat <$> seq 2 (n - 1)).

(** The integer cube root, one bit at a time from bit [n - 1] down. *)
Fixpoint cube_root (n : nat) (root x : Z) : Z :=
  match n with
  | O => root
  | S n =>
      let next := root + 2 ^ Z.of_nat n in
      cube_root n (if next * next * next <=? x then next else root) x
  end.

Definition root_words (root : Z → Z) (primes : list Z) : list Z :=
  (λ p, Z.land (root p) mask32) <$> primes.

Definition sha_k : list Z :=
  Eval vm_compute in
  root_words (λ p, cube_root 36 0 (Z.shiftl p 96)) (primes_upto 311).

Record sha_state := ShaState {
  sa : Z; sb : Z; sc : Z; sd : Z; se : Z; sf : Z; sg : Z; sh : Z
}.

Definition sha_init : sha_state :=
  Eval vm_compute in
  match root_words (λ p, Z.sqrt (Z.shiftl p 64)) (primes_upto 19) with
  | [a; b; c; d; e; f; g; h] => ShaState a b c d e f g h
  | _ => ShaState 0 0 0 0 0 0 0 0
  end.

(** The message schedule, newest word first. *)
Fixpoint sha_extend (n : nat) (w : list Z) : list Z :=
  match n with
  | O => w
  | S n =>
      let x := add32 (add32 (small_sigma1 (nth 1 w 0)) (nth 6 w 0))
                     (add32 (small_sigma0 (nth 14 w 0)) (nth 15 w 0)) in
      sha_extend n (x :: w)
  end.

Definition sha_round (s : sha_state) (kw : Z * Z) : sha_state :=
  let t1 := add32 (add32 (sh s) (big_sigma1 (se s)))
                  (add32 (sha_ch (se s) (sf s) (sg s)) (add32 kw.1 kw.2)) in
  let t2 := add32 (big_sigma0 (sa s)) (sha_maj (sa s) (sb s) (sc s)) in
  ShaState (add32 t1 t2) (sa s) (sb s) (sc s) (add32 (sd s) t1) (se s) (sf s) (sg s).

Fixpoint be_words (n : nat) (l : list Z) : list Z :=
  match n, l with
  | S n, a :: b :: c :: d :: l => (a * 2 ^ 24 + b * 2 ^ 16 + c * 2 ^ 8 + d) :: be_words n l
  | _, _ => []
  end.

Definition sha_block (s : sha_state) (block : list Z) : sha_state :=
  let w := reverse (sha_extend 48 (reverse (be_words 16 block))) in
  let t := foldl sha_round s (zip sha_k w) in
  ShaState (add32 (sa s) (sa t)) (add32 (sb s) (sb t)) (add32 (sc s) (sc t)) (add32 (sd s) (sd t))
           (add32 (se s) (se t)) (add32 (sf s) (sf t)) (add32 (sg s) (sg t)) (add32 (sh s) (sh t)).

(** The first [n] bytes of [z], most significant first. *)
Fixpoint be_bytes (n : nat) (z : Z) : list Z :=
  match n with
  | O => []
  | S n => (Z.shiftr z (8 * Z.of_nat n)) `mod` 256 :: be_bytes n z
  end.

Definition sha_pad (l : list Z) : list Z :=
  let n := Z.of_nat (length l) in
  l ++ 0x80 :: replicate (Z.to_nat ((55 - n) `mod` 64)) 0 ++ be_bytes 8 (8 * n).

Fixpoint sha_blocks (n : nat) (s : sha_state) (l : list Z) : sha_state :=
  match n with
  | O => s
  | S n => sha_blocks n (sha_block s (take 64 l)) (drop 64 l)
  end.

Definition sha256 (l : list Z) : list Z :=
  let p := sha_pad l in
  let s := sha_blocks (length p / 64)%nat sha_init p in
  be_bytes 4 (sa s) ++ be_bytes 4 (sb s) ++ be_bytes 4 (sc s) ++ be_bytes 4 (sd s)
  ++ be_bytes 4 (se s) ++ be_bytes 4 (sf s) ++ be_bytes 4 (sg s) ++ be_bytes 4 (sh s).

Lemma be_bytes_length n z : length (be_bytes n z) = n.
Proof. induction n; simpl; auto. Qed.

Lemma be_bytes_bytes n z : Forall is_byte (be_bytes n z).
Proof. induction n; simpl; constructor; [apply Z.mod_pos_bound; lia|done]. Qed.

Lemma sha256_length l : length (sha256 l) = 32%nat.
Proof. unfold sha256. by rewrite !length_app, !be_bytes_length. Qed.

Lemma sha256_bytes l : Forall is_byte (sha256 l).
Proof. unfold sha256. rewrite !Forall_app. auto 20 using be_bytes_bytes. Qed.

(** FIPS 180-4 test vectors: one block, and a message that needs two. *)
Example sha256_abc :
  hex_encode (sha256 (bytes_of "abc")) = "ba7816bf8f01cfea414140de5dae2223b00361a396177a9cb410ff61f20015ad".
Proof. vm_compute. reflexivity. Qed.

Example sha256_two_blocks :
  hex_encode (sha256 (bytes_of "abcdbcdecdefdefgefghfghighijhijkijkljklmklmnlmnomnopnopq"))
  = "248d6a61d20638b8e5c026930c3e6039a33ce45964ff2167f6ecedd419db06c1".
Proof. vm_compute. reflexivity. Qed.

Example sha256_empty :
  hex_encode (sha256 []) = "e3b0c44298fc1c149afbf4c8996fb92427ae41e4649b934ca495991b7852b855".
Proof. vm_compute. reflexivity. Qed.

#[global] Opaque sha256.
#[export] Hint Resolve sha256_bytes : go.
