(* ===== verification/GoTime.v ===== *)
(** * [time.Time]

    A time is its distance in nanoseconds from the zero [time.Time] (year 1,
    January 1, 00:00:00 UTC) and its location.  Times of the modelled code
    come from [UTC()] or from JSON, so they carry no monotonic reading; Go's
    [==] then compares the instant and the location, as equality of records
    does here.  The instant is unbounded: [Add] of the durations the code uses
    (a nanosecond, five minutes) overflows only hundreds of billions of years
    away. *)

From stdpp Require Import pretty.
From S2P Require Import Prelude GoString.

Inductive Location :=
  | LocUTC
  | LocZone (name : string) (offset : Z).

Record Time := MkTime {
  t_ns : Z;
  t_loc : Location;
}.

#[export] Instance location_eq_dec : EqDecision Location.
Proof. solve_decision. Defined.
#[export] Instance time_eq_dec : EqDecision Time.
Proof. solve_decision. Defined.

(** [time.Time{}], [time.Unix(0, 0).UTC()] *)
Definition zero_time : Time := MkTime 0 LocUTC.
Definition unix_epoch : Time := MkTime (62135596800 * 1000000000) LocUTC.

Definition Nanosecond : Z := 1.
Definition Minute : Z := 60 * 1000000000.

Definition IsZero (t : Time) : bool := t_ns t =? 0.
Definition Before (t u : Time) : bool := t_ns t <? t_ns u.
Definition After (t u : Time) : bool := t_ns u <? t_ns t.
Definition TimeEqual (t u : Time) : bool := t_ns t =? t_ns u.
Definition TimeAdd (t : Time) (d : Z) : Time := MkTime (t_ns t + d) (t_loc t).
Definition ToUTC (t : Time) : Time := MkTime (t_ns t) LocUTC.
Definition is_UTC (t : Time) : bool := bool_decide (t_loc t = LocUTC).

(** ** Calendar and [time.RFC3339Nano] *)

(** The proleptic Gregorian date of a day number counted from 0001-01-01:
    400-year eras that begin on March 1, as the years of [time.Time] do. *)
Definition civil_of_days (days : Z) : Z * Z * Z :=
  let z := days + 306 in
  let era := z / 146097 in
  let doe := z `mod` 146097 in
  let yoe := (doe - doe / 1460 + doe / 36524 - doe / 146096) / 365 in
  let doy := doe - (365 * yoe + yoe / 4 - yoe / 100) in
  let mp := (5 * doy + 2) / 153 in
  let d := doy - (153 * mp + 2) / 5 + 1 in
  let m := if mp <? 10 then mp + 3 else mp - 9 in
  (yoe + era * 400 + (if m <=? 2 then 1 else 0), m, d).

(** Seconds east of UTC. *)
Definition loc_offset (l : Location) : Z :=
  match l with
  | LocUTC => 0
  | LocZone _ offset => offset
  end.

(** The nanoseconds of the wall clock at the time's location. *)
Definition local_ns (t : Time) : Z := t_ns t + loc_offset (t_loc t) * 1000000000.

Definition time_year (t : Time) : Z :=
  let '(y, _, _) := civil_of_days (local_ns t / (86400 * 1000000000)) in y.

(** The last [n] decimal digits of [z]. *)
Fixpoint digits (n : nat) (z : Z) : string :=
  match n with
  | O => ""
  | S n => digits n (z / 10) +:+ of_bytes [48 + z `mod` 10]
  end.

Definition pad_year (y : Z) : string :=
  if y <? 0 then "-" +:+ digits 4 (- y)
  else if y <=? 9999 then digits 4 y else pretty y.

(** [.999999999]: a fraction without its trailing zeros. *)
Fixpoint trim_zeros (n : nat) (z : Z) : string :=
  match n with
  | O => ""
  | S n' => if z `mod` 10 =? 0 then trim_zeros n' (z / 10) else "." +:+ digits n z
  end.

(** [Z], or the signed hours and minutes of the offset. *)
Definition zone_suffix (offset : Z) : string :=
  if offset =? 0 then "Z"
  else
    let minutes := Z.quot offset 60 in
    (if minutes <? 0 then "-" else "+")
    +:+ digits 2 (Z.abs minutes / 60) +:+ ":" +:+ digits 2 (Z.abs minutes `mod` 60).

(** [t.Format(time.RFC3339Nano)] *)
Definition format_time (t : Time) : string :=
  let secs := local_ns t / 1000000000 in
  let nanos := local_ns t `mod` 1000000000 in
  let '(y, m, d) := civil_of_days (secs / 86400) in
  let s := secs `mod` 86400 in
  pad_year y +:+ "-" +:+ digits 2 m +:+ "-" +:+ digits 2 d +:+ "T"
  +:+ digits 2 (s / 3600) +:+ ":" +:+ digits 2 ((s / 60) `mod` 60) +:+ ":" +:+ digits 2 (s `mod` 60)
  +:+ trim_zeros 9 nanos +:+ zone_suffix (loc_offset (t_loc t)).

(** ** Lemmas *)

Example format_epoch : format_time unix_epoch = "1970-01-01T00:00:00Z".
Proof. vm_compute. reflexivity. Qed.

Example format_leap_day :
  format_time (MkTime ((62135596800 + 1709210096) * 1000000000 + 120) LocUTC)
  = "2024-02-29T12:34:56.00000012Z".
Proof. vm_compute. reflexivity. Qed.

Example format_zone :
  format_time (MkTime (t_ns unix_epoch) (LocZone "CET" 3600)) = "1970-01-01T01:00:00+01:00".
Proof. vm_compute. reflexivity. Qed.

Example format_zero : format_time zero_time = "0001-01-01T00:00:00Z".
Proof. vm_compute. reflexivity. Qed.

Lemma ToUTC_idem t : ToUTC (ToUTC t) = ToUTC t.
Proof. done. Qed.

Lemma ToUTC_id t : is_UTC t = true → ToUTC t = t.
Proof. unfold is_UTC. intros H. bool_prop. destruct t; simpl in *. by subst. Qed.

Lemma IsZero_ToUTC t : IsZero (ToUTC t) = IsZero t.
Proof. done. Qed.

Lemma Before_ToUTC_r t u : Before t (ToUTC u) = Before t u.
Proof. done. Qed.

Lemma Before_trichotomy t u : Before t u = false → TimeEqual t u = false → t_ns u < t_ns t.
Proof. unfold Before, TimeEqual. intros. bool_prop. lia. Qed.

#[export] Hint Rewrite ToUTC_idem IsZero_ToUTC Before_ToUTC_r : go.
