(* ===== verification/GoJson.v ===== *)
(** * [encoding/json]

    [json.Marshal] of a struct is an object of its fields in declaration
    order; strings are escaped with HTML escaping on, malformed UTF-8 becomes
    the replacement character, and nil slices are [null].  [render_inj] shows
    that the text determines the value for the number-free, well-formed values
    whose digests the code compares. *)

From stdpp Require Import pretty.
From S2P Require Import Prelude GoString GoTime.

Inductive json :=
  | JNull
  | JBool (b : bool)
  | JInt (z : Z)
  | JString (s : string)
  | JArray (l : list json)
  | JObject (l : list (string * json)).

Definition bs (s : string) : list Z := bytes_of s.

Definition hex4 (z : Z) : list Z :=
  hex_digit ((z / 4096) `mod` 16) :: hex_digit ((z / 256) `mod` 16)
  :: hex_digit ((z / 16) `mod` 16) :: [hex_digit (z `mod` 16)].

(** One rune of a string: the two-character escapes, [\uXXXX] for the other
    control characters, for [<], [>], [&] and the two line separators. *)
Definition escape_rune (r : Z) : list Z :=
  if r =? 34 then [92; 34]
  else if r =? 92 then [92; 92]
  else if r =? 8 then [92; 98]
  else if r =? 12 then [92; 102]
  else if r =? 10 then [92; 110]
  else if r =? 13 then [92; 114]
  else if r =? 9 then [92; 116]
  else if (r <? 32) || (r =? 60) || (r =? 62) || (r =? 38) || (r =? 0x2028) || (r =? 0x2029)
  then 92 :: 117 :: hex4 r
  else encode_rune r.

Definition escape_seg (seg : option Z * list Z) : list Z :=
  match seg.1 with
  | Some r => escape_rune r
  | None => 92 :: 117 :: hex4 RuneError
  end.

Definition render_string (s : string) : list Z :=
  34 :: (decode (bytes_of s) ≫= escape_seg) ++ [34].

Section render_seq.
Context {A : Type} (f : A → list Z).
(** Elements separated by commas. *)
Fixpoint render_seq (l : list A) : list Z :=
  match l with
  | [] => []
  | [x] => f x
  | x :: l => f x ++ 44 :: render_seq l
  end.
End render_seq.

(** The bytes of [json.Marshal]. *)
Fixpoint render (j : json) : list Z :=
  match j with
  | JNull => bs "null"
  | JBool b => if b then bs "true" else bs "false"
  | JInt z => bs (pretty z)
  | JString s => render_string s
  | JArray l => 91 :: render_seq render l ++ [93]
  | JObject l => 123 :: render_seq (λ kv, render_string kv.1 ++ 58 :: render kv.2) l ++ [125]
  end.

(** ** Encoders of the field types *)

Definition json_slice {A} (f : A → json) (s : slice A) : json :=
  match s with
  | None => JNull
  | Some l => JArray (f <$> l)
  end.

(** A field of a struct; with [omitempty] the zero value drops the field. *)
Definition field (k : string) (j : json) : list (string * json) := [(k, j)].
Definition omit_empty (empty : bool) (k : string) (j : json) : list (string * json) :=
  if empty then [] else [(k, j)].
Definition is_empty {A} (s : slice A) : bool :=
  match elems s with
  | [] => true
  | _ => false
  end.

Definition omit_string (k v : string) : list (string * json) := omit_empty (bool_decide (v = "")) k (JString v).

(** What a decoder reads back from an encoded string. *)
Definition reread_string (s : string) : string := of_runes (runes s).

(** [Time.MarshalJSON]: an error outside the years 0 to 9999 and for an
    offset of a day or more. *)
Definition json_time (t : Time) : res json :=
  throw_if ((time_year t <? 0) || (9999 <? time_year t))
    (Errorf "Time.MarshalJSON: year outside of range [0,9999]" []) ;;
  throw_if (24 <=? Z.abs (loc_offset (t_loc t)) / 3600)
    (Errorf "Time.MarshalJSON: timezone hour outside of range [0,23]" []) ;;
  mret (JString (format_time t)).

(** ** Values whose text is unambiguous *)

Fixpoint json_wf (j : json) : bool :=
  match j with
  | JInt _ => false
  | JNull | JBool _ => true
  | JString s => valid_utf8 s
  | JArray l => forallb json_wf l
  | JObject l => forallb (λ kv, valid_utf8 kv.1 && json_wf kv.2) l
  end.

(** ** Lemmas *)

Section json_ind.
Context (P : json → Prop).
Context (Hnull : P JNull) (Hbool : ∀ b, P (JBool b)) (Hint_ : ∀ z, P (JInt z))
        (Hstring : ∀ s, P (JString s))
        (Harray : ∀ l, Forall P l → P (JArray l))
        (Hobject : ∀ l, Forall (λ kv : string * json, P kv.2) l → P (JObject l)).

Fixpoint json_ind' (j : json) : P j :=
  match j with
  | JNull => Hnull
  | JBool b => Hbool b
  | JInt z => Hint_ z
  | JString s => Hstring s
  | JArray l =>
      Harray l ((fix go (l : list json) : Forall P l :=
        match l with
        | [] => Forall_nil_2 _
        | x :: l => Forall_cons_2 _ _ _ (json_ind' x) (go l)
        end) l)
  | JObject l =>
      Hobject l ((fix go (l : list (string * json)) : Forall (λ kv, P kv.2) l :=
        match l with
        | [] => Forall_nil_2 _
        | x :: l => Forall_cons_2 _ _ _ (json_ind' x.2) (go l)
        end) l)
  end.
End json_ind.

(** *** Strings *)

Lemma runes_scalars s : scalars (runes s).
Proof.
  unfold runes. rewrite Forall_fmap. generalize (bytes_of s) as l.
  induction l as [|l r k Hl E IH] using decode_ind; [constructor|].
  rewrite (decode_step _ _ _ Hl E). constructor; [|done]. simpl.
  destruct r as [r|]; simpl; [|done]. by apply decode1_some in E as [? _].
Qed.

Lemma reread_string_idem s : reread_string (reread_string s) = reread_string s.
Proof. unfold reread_string. by rewrite runes_of_runes by apply runes_scalars. Qed.

Lemma reread_string_valid s : valid_utf8 s = true → reread_string s = s.
Proof. intros Hv. destruct (valid_runes s Hv) as [_ Hs]. symmetry. exact Hs. Qed.

Definition hex_val (b : Z) : Z := if b <? 58 then b - 48 else b - 87.

(** Read back one escaped rune. *)
Definition unescape1 (l : list Z) : option (Z * list Z) :=
  match l with
  | [] => None
  | b :: l1 =>
      if b =? 92 then
        match l1 with
        | [] => None
        | c :: l2 =>
            if c =? 34 then Some (34, l2) else if c =? 92 then Some (92, l2)
            else if c =? 98 then Some (8, l2) else if c =? 102 then Some (12, l2)
            else if c =? 110 then Some (10, l2) else if c =? 114 then Some (13, l2)
            else if c =? 116 then Some (9, l2)
            else match l2 with
                 | h1 :: h2 :: h3 :: h4 :: l3 =>
                     Some (hex_val h1 * 4096 + hex_val h2 * 256 + hex_val h3 * 16 + hex_val h4, l3)
                 | _ => None
                 end
        end
      else let '(r, k) := decode1 l in Some (default RuneError r, drop k l)
  end.

Lemma hex_val_digit n : 0 ≤ n < 16 → hex_val (hex_digit n) = n.
Proof. unfold hex_val, hex_digit. intros. repeat case_match; lia. Qed.

Lemma hex4_val r :
  0 ≤ r ≤ 0xFFFF →
  hex_val (hex_digit ((r / 4096) `mod` 16)) * 4096 + hex_val (hex_digit ((r / 256) `mod` 16)) * 256
  + hex_val (hex_digit ((r / 16) `mod` 16)) * 16 + hex_val (hex_digit (r `mod` 16)) = r.
Proof.
  intros. rewrite !hex_val_digit by (apply Z.mod_pos_bound; lia).
  Z.to_euclidean_division_equations; lia.
Qed.

Lemma encode_rune_head r b l :
  is_scalar r = true → encode_rune r = b :: l → b = r ∨ 0xC0 ≤ b.
Proof.
  unfold encode_rune. intros Hr. rewrite Hr. simpl negb. cbv iota. unfold is_scalar in Hr. bool_prop.
  repeat case_match; bool_prop; intros [= <- _]; [by left|right..];
    Z.to_euclidean_division_equations; lia.
Qed.

Lemma escape_rune_head r :
  is_scalar r = true → ∃ b l, escape_rune r = b :: l ∧ b ≠ 34.
Proof.
  intros Hr. unfold escape_rune. repeat case_match; bool_prop; eauto with lia.
  destruct (encode_rune r) as [|b l] eqn:E; [by destruct (encode_rune_cons r) as (? & ? & ?); congruence|].
  destruct (encode_rune_head _ _ _ Hr E); eexists _, _; split; [done|lia|done|lia].
Qed.

Lemma unescape1_escape r l :
  is_scalar r = true → unescape1 (escape_rune r ++ l) = Some (r, l).
Proof.
  intros Hr. unfold escape_rune.
  repeat (case_match; [bool_prop; subst; done|]). case_match.
  - assert (0 ≤ r ≤ 0xFFFF) by (unfold is_scalar in Hr; lia).
    cbn. by rewrite hex4_val.
  - bool_prop. destruct (encode_rune r) as [|b k] eqn:E;
      [by destruct (encode_rune_cons r) as (? & ? & ?); congruence|].
    assert (b ≠ 92) by (destruct (encode_rune_head _ _ _ Hr E); lia).
    cbn [app unescape1]. destruct (b =? 92) eqn:?; [lia|]. rewrite app_comm_cons, <-E.
    rewrite (decode1_encode _ _ Hr). cbn. by rewrite drop_app_length.
Qed.

Lemma escape_inj rs1 rs2 t1 t2 :
  scalars rs1 → scalars rs2 →
  (rs1 ≫= escape_rune) ++ 34 :: t1 = (rs2 ≫= escape_rune) ++ 34 :: t2 → rs1 = rs2 ∧ t1 = t2.
Proof.
  intros H1. revert rs2. induction H1 as [|r rs1 Hr H1 IH]; intros rs2 H2.
  - destruct H2 as [|r rs2 Hr H2]; [naive_solver|].
    destruct (escape_rune_head r Hr) as (b & l & E & Hb). csimpl. rewrite E. intros [= <- _]. done.
  - destruct H2 as [|r' rs2 Hr' H2]; csimpl; rewrite <-?app_assoc; intros E.
    + destruct (escape_rune_head r Hr) as (b & l & E' & Hb). rewrite E' in E. by simplify_eq/=.
    + apply (f_equal unescape1) in E. rewrite !unescape1_escape in E by done. simplify_eq.
      destruct (IH rs2) as [-> ->]; done.
Qed.

Lemma render_string_inj s1 s2 t1 t2 :
  valid_utf8 s1 = true → valid_utf8 s2 = true →
  render_string s1 ++ t1 = render_string s2 ++ t2 → s1 = s2 ∧ t1 = t2.
Proof.
  intros [H1 E1]%valid_runes [H2 E2]%valid_runes. rewrite E1, E2. unfold render_string.
  rewrite !bytes_of_runes, (decode_encode _ H1), (decode_encode _ H2), !list_fmap_bind.
  intros E. cbn [app] in E. injection E as E. rewrite <-!app_assoc in E.
  apply escape_inj in E as [-> ->]; done.
Qed.

Lemma render_string_head s : ∃ l, render_string s = 34 :: l.
Proof. by eexists. Qed.

#[local] Opaque render_string.

(** *** Values *)

Lemma render_head j : json_wf j = true → ∃ b l, render j = b :: l ∧
  b = match j with
      | JNull => 110 | JBool true => 116 | JBool false => 102 | JInt _ => 0
      | JString _ => 34 | JArray _ => 91 | JObject _ => 123
      end.
Proof.
  destruct j as [|[]| |s| |]; try done; try (eexists _, _; done).
  destruct (render_string_head s) as [l E]. by exists 34, l.
Qed.

Definition uniquely_readable {A} (f : A → list Z) (Q : A → Prop) (x : A) : Prop :=
  ∀ y t1 t2, Q y → f x ++ t1 = f y ++ t2 → x = y ∧ t1 = t2.

Lemma render_seq_cons {A} (f : A → list Z) x y l :
  render_seq f (x :: y :: l) = f x ++ 44 :: render_seq f (y :: l).
Proof. done. Qed.

Lemma render_seq_inj {A} (f : A → list Z) (Q : A → Prop) close l1 l2 t1 t2 :
  close ≠ 44 →
  (∀ x, Q x → ∃ b k, f x = b :: k ∧ b ≠ close) →
  Forall (uniquely_readable f Q) l1 → Forall Q l1 → Forall Q l2 →
  render_seq f l1 ++ close :: t1 = render_seq f l2 ++ close :: t2 → l1 = l2 ∧ t1 = t2.
Proof.
  intros Hc Hf Hu. assert (Hhead : ∀ x l t t', Q x →
    close :: t = render_seq f (x :: l) ++ close :: t' → False).
  { intros x l t t' (b & k & E & Hb)%Hf. destruct l; simpl; rewrite E; simpl; congruence. }
  revert l2. induction Hu as [|x l1 Hx Hu IH]; intros l2 H1 H2 E.
  - destruct l2 as [|y l2]; [naive_solver|]. apply Forall_cons in H2 as [? ?]. by apply Hhead in E.
  - apply Forall_cons in H1 as [Hqx H1].
    destruct l2 as [|y l2]; [symmetry in E; by apply Hhead in E|]. apply Forall_cons in H2 as [Hqy H2].
    destruct l1 as [|x' l1], l2 as [|y' l2]; rewrite ?render_seq_cons, <-?app_assoc in E;
      apply (Hx y) in E as [-> E]; try done; cbn [app] in E; try (injection E as E); simplify_eq.
    + done.
    + destruct (IH (y' :: l2)) as [-> ->]; try done.
Qed.

Definition wf_member (kv : string * json) : Prop :=
  valid_utf8 kv.1 = true ∧ json_wf kv.2 = true.

Definition render_member (kv : string * json) : list Z := render_string kv.1 ++ 58 :: render kv.2.

Lemma json_wf_object l :
  json_wf (JObject l) = true ↔ Forall wf_member l.
Proof.
  simpl. rewrite forallb_Forall. unfold wf_member. by setoid_rewrite andb_true_iff.
Qed.

Lemma json_wf_array l : json_wf (JArray l) = true ↔ Forall (λ j, json_wf j = true) l.
Proof. apply forallb_Forall. Qed.

Lemma render_prefix_inj j : json_wf j = true → uniquely_readable render (λ j, json_wf j = true) j.
Proof.
  induction j as [|b|z|s|l IH|l IH] using json_ind'; intros Hj j' t1 t2 Hj' E;
    destruct (render_head j' Hj') as (b' & k' & Eh & Hb'); try done.
  - rewrite Eh in E. destruct j' as [|[]| | | |]; simplify_eq/=; naive_solver.
  - rewrite Eh in E. destruct b, j' as [|[]| | | |]; simplify_eq/=; naive_solver.
  - destruct j' as [|[]| | | |]; try (rewrite Eh in E; simplify_eq/=; done).
    apply render_string_inj in E as [-> ->]; done.
  - destruct j' as [|[]| | |l'|]; try (rewrite Eh in E; simplify_eq/=; done). clear Eh Hb'.
    apply json_wf_array in Hj, Hj'. cbn in E. injection E as E. rewrite <-!app_assoc in E.
    eapply render_seq_inj in E as [-> ->]; [done|done| | |done|done].
    + intros x (b & k & -> & Hb)%render_head. eexists _, _; split; [done|]. by destruct x as [|[]| | | |]; subst.
    + eapply Forall_impl; [apply (proj2 (Forall_and _ _) (conj IH Hj))|]. naive_solver.
  - destruct j' as [|[]| | | |l']; try (rewrite Eh in E; simplify_eq/=; done). clear Eh Hb'.
    apply json_wf_object in Hj, Hj'. cbn in E. injection E as E. rewrite <-!app_assoc in E.
    eapply (render_seq_inj render_member) in E as [-> ->]; [done|done| | |done|done].
    + intros x _. unfold render_member. destruct (render_string_head x.1) as [k ->]. by eexists _, _.
    + eapply Forall_impl; [apply (proj2 (Forall_and _ _) (conj IH Hj))|].
      intros [kx jx] [HI [Hk Hv]] [ky jy] u1 u2 [Hk' Hv'] E'. unfold render_member in E'. simpl in *.
      rewrite <-!app_assoc in E'. apply render_string_inj in E' as [-> E']; [|done..].
      cbn [app] in E'. injection E' as E'. apply HI in E' as [-> ->]; done.
Qed.

(** The JSON text of a well-formed value determines it. *)
Lemma render_inj j1 j2 :
  json_wf j1 = true → json_wf j2 = true → render j1 = render j2 → j1 = j2.
Proof.
  intros H1 H2 E. eapply (render_prefix_inj j1 H1 j2 [] []); [done|]. by rewrite E.
Qed.
