(* ===== verification/Identity.v ===== *)
(** * Identities, digests and UTF-8 (domain/identity.go)

    The canonical-identity rule every domain and application boundary applies,
    the public-path rule, the reflective UTF-8 walk over a persisted value
    ([gval] is what [reflect] sees of it), and the SHA-256 digest strings of
    domain/contractsnapshot.go. *)

From stdpp Require Import pretty.
From S2P Require Import Prelude GoString GoSha256 GoTime.

(** ** Canonical identities *)

Definition ValidateCanonicalIdentity (name value : string) (allowEmpty : bool) : res unit :=
  throw_if (negb (valid_utf8 value)) (Errorf "%s must contain valid UTF-8" [EStr name]) ;;
  if bool_decide (value = "") then
    if allowEmpty then mret tt else Fail (Errorf "%s is required" [EStr name])
  else
    throw_if (negb (bool_decide (value = TrimSpace value)))
      (Errorf "%s must not contain leading or trailing whitespace" [EStr name]) ;;
    for_each (λ character,
      throw_if (is_control character) (Errorf "%s must not contain control characters" [EStr name]))
      (runes value).

Definition validateCanonicalIdentity (name value : string) (allowEmpty : bool) : res unit :=
  ValidateCanonicalIdentity name value allowEmpty.

Definition ValidateCanonicalPublicPath (name value : string) (allowEmpty : bool) : res unit :=
  ValidateCanonicalIdentity name value allowEmpty ;;
  if bool_decide (value = "") then mret tt
  else
    throw_if (negb (HasPrefix value "/") || Contains value "\" || negb (bool_decide (path_clean value = value)))
      (Errorf "%s is invalid" [EStr name]).

(** A table of [(name, value, allowEmpty)] rows, checked in order. *)
Definition validate_identities (rows : list (string * string * bool)) : res unit :=
  for_each (λ '(name, value, allowEmpty), ValidateCanonicalIdentity name value allowEmpty) rows.

Definition containsControlCharacter (value : string) : bool := existsb is_control (runes value).

(** ** Digests *)

Definition sha256Hex (value : list Z) : string := hex_encode (sha256 value).

Definition isLowerSHA256 (value : string) : bool :=
  if negb (go_len value =? 64) then false else forallb is_lower_hex (runes value).

(** ** Surface text *)

Section surface.
Context `{CaseTables}.

Definition canonicalUpperSurfaceText (value : string) : string :=
  let value := TrimSpace value in
  if negb (valid_utf8 value) then value else ToUpper value.

Definition canonicalLowerSurfaceText (value : string) : string :=
  let value := TrimSpace value in
  if negb (valid_utf8 value) then value else ToLower value.
End surface.

(** ** The reflective walk

    What [reflect] shows of a value: a struct lists its fields with their
    names and package paths (empty for an exported field).  A pointer that
    nothing else in the value shares shows its target in place; [VRef] is a
    pointer into a heap of values, which other pointers may share or close into
    a cycle. *)

Inductive gval :=
  | VScalar
  | VString (s : string)
  | VInterface (v : option gval)
  | VPointer (v : option gval)
  | VRef (p : positive)
  | VStruct (fields : list (string * string * gval))
  | VMap (entries : list (gval * gval))
  | VSlice (l : list gval).

Class GoValue (A : Type) := reflect_value : A → gval.

#[export] Instance string_value : GoValue string := VString.
#[export] Instance bool_value : GoValue bool := λ _, VScalar.
#[export] Instance Z_value : GoValue Z := λ _, VScalar.
(** The fields of [time.Time] are unexported. *)
#[export] Instance time_value : GoValue Time := λ _, VStruct [("wall", "time", VScalar); ("ext", "time", VScalar); ("loc", "time", VScalar)].

Definition exported {A} `{GoValue A} (name : string) (x : A) : string * string * gval :=
  (name, "", reflect_value x).
Definition value_slice {A} `{GoValue A} (l : list A) : gval := VSlice (reflect_value <$> l).
Definition value_pointer {A} `{GoValue A} (o : option A) : gval := VPointer (reflect_value <$> o).
Definition value_map {A} `{GoValue A} (m : gmap string A) : gval :=
  VMap ((λ kv, (VString kv.1, reflect_value kv.2)) <$> map_to_list m).

(** The walk carries the set of shared pointers it has visited; the fuel bounds
    the shared pointers it is inside of. *)
Definition utf8_walk := stM (gset positive).

Section walk.
Context (heap : positive → gval).

Fixpoint validateUTF8Value (fuel : nat) : string → gval → utf8_walk unit :=
  fix walk name value :=
  match value with
  | VScalar => mret tt
  | VInterface None | VPointer None => mret tt
  | VInterface (Some v) | VPointer (Some v) => walk name v
  | VRef p =>
      visited ← gets id;
      if bool_decide (p ∈ visited) then mret tt
      else
        modify (λ visited, {[p]} ∪ visited) ;;
        match fuel with
        | O => lift (Fail (Errorf "out of fuel" []))
        | S fuel => validateUTF8Value fuel name (heap p)
        end
  | VString s => lift (throw_if (negb (valid_utf8 s)) (Errorf "%s must contain valid UTF-8" [EStr name]))
  | VStruct fields =>
      st_for_each (λ '(fname, pkg, v),
        if negb (bool_decide (pkg = "")) then mret tt
        else walk (name +:+ "." +:+ fname) v) fields
  | VMap entries =>
      st_for_each (λ '(k, v),
        walk (name +:+ " map key") k ;;
        walk (name +:+ " map value") v) entries
  | VSlice l =>
      st_for_eachi (λ index v, walk (name +:+ "[" +:+ pretty index +:+ "]") v) l
  end.
End walk.

(** A value whose shared pointers all lie in the heap [heap]. *)
Definition validateUTF8Shared {A} `{GoValue A} (heap : gmap positive gval) (name : string) (value : A) : res unit :=
  (validateUTF8Value (λ p, default VScalar (heap !! p)) (S (size heap)) name (reflect_value value) ∅).2.

(** A value without shared pointers. *)
Definition validateUTF8Strings {A} `{GoValue A} (name : string) (value : A) : res unit :=
  validateUTF8Shared ∅ name value.

(** ** What the checks mean *)

(** A canonical identity: non-empty well-formed UTF-8 without surrounding
    white space or control characters. *)
Definition canonical (s : string) : Prop :=
  valid_utf8 s = true ∧ s ≠ "" ∧ TrimSpace s = s ∧ Forall (λ r, is_control r = false) (runes s).

Definition canonical_opt (s : string) : Prop := s = "" ∨ canonical s.

(** Every string reachable through exported fields is well-formed. *)
Fixpoint utf8_clean (value : gval) : bool :=
  match value with
  | VScalar | VInterface None | VPointer None | VRef _ => true
  | VInterface (Some v) | VPointer (Some v) => utf8_clean v
  | VString s => valid_utf8 s
  | VStruct fields => forallb (λ '(_, pkg, v), negb (bool_decide (pkg = "")) || utf8_clean v) fields
  | VMap entries => forallb (λ '(k, v), utf8_clean k && utf8_clean v) entries
  | VSlice l => forallb utf8_clean l
  end.

(** ** Lemmas *)

Lemma ValidateCanonicalIdentity_required name value :
  ValidateCanonicalIdentity name value false = Ok tt ↔ canonical value.
Proof.
  unfold ValidateCanonicalIdentity, canonical. rewrite seq_ok, throw_if_ok, negb_false_iff.
  case_bool_decide as Hv; [naive_solver|].
  rewrite seq_ok, throw_if_ok, negb_false_iff, bool_decide_eq_true, for_each_ok.
  setoid_rewrite throw_if_ok. naive_solver.
Qed.

Lemma ValidateCanonicalIdentity_optional name value :
  ValidateCanonicalIdentity name value true = Ok tt ↔ canonical_opt value.
Proof.
  unfold canonical_opt. destruct (decide (value = "")) as [->|Hv].
  - split; [by left|]. intros _. by vm_compute.
  - rewrite <-(ValidateCanonicalIdentity_required name).
    unfold ValidateCanonicalIdentity. rewrite bool_decide_eq_false_2 by done. naive_solver.
Qed.

Definition identity_row_ok (row : string * string * bool) : Prop :=
  let '(_, value, allowEmpty) := row in
  if allowEmpty then canonical_opt value else canonical value.

Lemma ValidateCanonicalIdentity_row name value allowEmpty :
  ValidateCanonicalIdentity name value allowEmpty = Ok tt ↔ identity_row_ok (name, value, allowEmpty).
Proof.
  destruct allowEmpty; [apply ValidateCanonicalIdentity_optional|apply ValidateCanonicalIdentity_required].
Qed.

Lemma validate_identities_ok rows :
  validate_identities rows = Ok tt ↔ Forall identity_row_ok rows.
Proof.
  apply for_each_ok_Forall. intros [[name value] allowEmpty]. apply ValidateCanonicalIdentity_row.
Qed.

Lemma canonical_nonempty s : canonical s → s ≠ "".
Proof. by intros (_ & ? & _). Qed.

Lemma canonical_valid s : canonical s → valid_utf8 s = true.
Proof. by intros (? & _). Qed.

Lemma canonical_opt_valid s : canonical_opt s → valid_utf8 s = true.
Proof. intros [->|?]; [done|by apply canonical_valid]. Qed.

Lemma canonical_is_opt s : canonical s → canonical_opt s.
Proof. by right. Qed.

Lemma canonical_trim s : canonical s → TrimSpace s = s.
Proof. by intros (_ & _ & ? & _). Qed.

(** The rune-level reading of a canonical identity. *)
Lemma canonical_runes s :
  canonical s ↔ ∃ rs, s = of_runes rs ∧ rs ≠ [] ∧
    Forall (λ r, is_scalar r = true ∧ is_control r = false) rs ∧ trimmed is_space rs.
Proof.
  split.
  - intros (Hv & Hne & Ht & Hc). destruct (valid_runes _ Hv) as [Hrs E].
    exists (runes s). split; [done|split; [|split; [by rewrite Forall_and|]]].
    + intros E'. rewrite E' in E. by rewrite E in Hne.
    + rewrite E, TrimSpace_of_runes in Ht by done.
      apply (f_equal runes) in Ht. rewrite !runes_of_runes in Ht by auto with go.
      rewrite <-Ht. apply trim_by_trimmed.
  - intros (rs & -> & Hne & [Hs Hc]%Forall_and & Ht). unfold canonical.
    rewrite runes_of_runes, TrimSpace_of_runes, trim_by_id by done.
    by rewrite valid_of_runes, of_runes_nil.
Qed.

(** *** Surface text keeps identities canonical and is idempotent. *)

Section surface_lemmas.
Context `{CaseTables, !CaseLaws}.

Lemma canonical_map f s :
  (∀ r, is_scalar r = true → is_scalar (f r) = true ∧ is_space (f r) = is_space r
                           ∧ is_control (f r) = is_control r) →
  canonical s → canonical (of_runes (f <$> runes s)).
Proof.
  intros Hf. rewrite !canonical_runes. intros (rs & -> & Hne & Hrs & Hl & Hr).
  assert (scalars rs) as Hs by (eapply Forall_impl; [exact Hrs|]; by intros ? []).
  rewrite runes_of_runes by done. exists (f <$> rs).
  split; [done|split; [by destruct rs|split]].
  - rewrite Forall_fmap. eapply Forall_impl; [exact Hrs|]. intros r [Hrs' Hc]; simpl.
    destruct (Hf r Hrs') as (? & _ & Hc'). by rewrite Hc', Hc.
  - rewrite Forall_forall in Hs. split.
    + intros x k E. destruct rs as [|r rs]; simplify_eq/=.
      destruct (Hf r) as (_ & -> & _); [apply Hs; by left|]. by eapply Hl.
    + intros x k E. destruct rs as [|r rs _] using rev_ind; [by destruct k|].
      rewrite fmap_app in E. simpl in E. apply app_inj_2 in E as [_ [= <-]]; [|done].
      destruct (Hf r) as (_ & -> & _); [apply Hs; set_solver|]. by eapply Hr.
Qed.

Lemma canonical_upper s : canonical s → canonical (canonicalUpperSurfaceText s).
Proof.
  intros Hs. unfold canonicalUpperSurfaceText. rewrite canonical_trim by done.
  rewrite canonical_valid by done. apply canonical_map; [apply rune_upper_ok|done].
Qed.

Lemma canonical_lower s : canonical s → canonical (canonicalLowerSurfaceText s).
Proof.
  intros Hs. unfold canonicalLowerSurfaceText. rewrite canonical_trim by done.
  rewrite canonical_valid by done. apply canonical_map; [apply rune_lower_ok|done].
Qed.

Lemma case_idem (f : Z → Z) s :
  (∀ r, f (f r) = f r) → (∀ r, is_scalar r = true → is_scalar (f r) = true) →
  valid_utf8 s = true →
  of_runes (f <$> runes (of_runes (f <$> runes s))) = of_runes (f <$> runes s).
Proof.
  intros Hf Hs [Hrs _]%valid_runes. rewrite runes_of_runes.
  - f_equal. rewrite <-list_fmap_compose. apply list_fmap_ext. intros. apply Hf.
  - rewrite Forall_fmap. eapply Forall_impl; [exact Hrs|]. apply Hs.
Qed.

Lemma canonicalUpper_idem s :
  canonical s →
  canonicalUpperSurfaceText (canonicalUpperSurfaceText s) = canonicalUpperSurfaceText s.
Proof.
  intros Hs. pose proof (canonical_upper _ Hs) as Hu.
  unfold canonicalUpperSurfaceText at 1. rewrite canonical_trim, canonical_valid by done. simpl.
  unfold canonicalUpperSurfaceText. rewrite canonical_trim, canonical_valid by done. simpl.
  apply case_idem; [apply upper_idem|apply rune_upper_ok|by apply canonical_valid].
Qed.

Lemma canonicalLower_idem s :
  canonical s →
  canonicalLowerSurfaceText (canonicalLowerSurfaceText s) = canonicalLowerSurfaceText s.
Proof.
  intros Hs. pose proof (canonical_lower _ Hs) as Hu.
  unfold canonicalLowerSurfaceText at 1. rewrite canonical_trim, canonical_valid by done. simpl.
  unfold canonicalLowerSurfaceText. rewrite canonical_trim, canonical_valid by done. simpl.
  apply case_idem; [apply lower_idem|apply rune_lower_ok|by apply canonical_valid].
Qed.
End surface_lemmas.

(** *** Digests *)

Lemma sha256Hex_lower l : isLowerSHA256 (sha256Hex l) = true.
Proof.
  unfold isLowerSHA256, sha256Hex, hex_encode, go_len.
  pose proof (hex_bytes_lower _ (sha256_bytes l)) as Hl.
  rewrite <-bytes_of_length, bytes_of_bytes by (eapply Forall_impl; [exact Hl|]; naive_solver).
  rewrite hex_bytes_length, sha256_length. simpl.
  destruct (runes_ascii (hex_bytes (sha256 l))) as [-> _].
  - eapply Forall_impl; [exact Hl|]. simpl. unfold is_lower_hex, in_range. intros b [? _]. lia.
  - apply forallb_forall. intros x Hx%list_elem_of_In.
    rewrite Forall_forall in Hl. by apply Hl.
Qed.

Lemma isLowerSHA256_valid s : isLowerSHA256 s = true → valid_utf8 s = true.
Proof.
  unfold isLowerSHA256, valid_utf8, runes. case_match; [done|]. rewrite !forallb_Forall, Forall_fmap.
  intros Hf. eapply Forall_impl; [exact Hf|]. by intros [[r|] bs].
Qed.

Lemma sha256Hex_inj l k : sha256Hex l = sha256Hex k → sha256 l = sha256 k.
Proof.
  unfold sha256Hex, hex_encode. intros E%(f_equal bytes_of).
  rewrite !bytes_of_bytes in E by (eapply Forall_impl; [apply hex_bytes_lower, sha256_bytes|]; naive_solver).
  apply hex_bytes_inj in E; auto with go.
Qed.

(** *** The reflective walk *)

Section gval_ind.
Context (P : gval → Prop).
Context (Hscalar : P VScalar) (Hstring : ∀ s, P (VString s))
        (Hiface0 : P (VInterface None)) (Hiface : ∀ v, P v → P (VInterface (Some v)))
        (Hptr0 : P (VPointer None)) (Hptr : ∀ v, P v → P (VPointer (Some v)))
        (Href : ∀ p, P (VRef p))
        (Hstruct : ∀ l, Forall (λ f : string * string * gval, P f.2) l → P (VStruct l))
        (Hmap : ∀ l, Forall (λ kv : gval * gval, P kv.1 ∧ P kv.2) l → P (VMap l))
        (Hslice : ∀ l, Forall P l → P (VSlice l)).

Fixpoint gval_ind' (v : gval) : P v :=
  match v with
  | VScalar => Hscalar
  | VString s => Hstring s
  | VInterface None => Hiface0
  | VInterface (Some v) => Hiface v (gval_ind' v)
  | VPointer None => Hptr0
  | VPointer (Some v) => Hptr v (gval_ind' v)
  | VRef p => Href p
  | VStruct l =>
      Hstruct l ((fix go (l : list (string * string * gval)) : Forall (λ f, P f.2) l :=
        match l with
        | [] => Forall_nil_2 _
        | x :: l => Forall_cons_2 _ _ _ (gval_ind' x.2) (go l)
        end) l)
  | VMap l =>
      Hmap l ((fix go (l : list (gval * gval)) : Forall (λ kv, P kv.1 ∧ P kv.2) l :=
        match l with
        | [] => Forall_nil_2 _
        | x :: l => Forall_cons_2 _ _ _ (conj (gval_ind' x.1) (gval_ind' x.2)) (go l)
        end) l)
  | VSlice l =>
      Hslice l ((fix go (l : list gval) : Forall P l :=
        match l with
        | [] => Forall_nil_2 _
        | x :: l => Forall_cons_2 _ _ _ (gval_ind' x) (go l)
        end) l)
  end.
End gval_ind.

(** The values a value holds directly, where the walk looks. *)
Definition parts (v : gval) : list gval :=
  match v with
  | VInterface (Some v) | VPointer (Some v) => [v]
  | VStruct fields => snd <$> filter (λ f, f.1.2 = "") fields
  | VMap entries => entries ≫= λ kv, [kv.1; kv.2]
  | VSlice l => l
  | _ => []
  end.

(** The shared pointers a value holds. *)
Fixpoint shared_refs (v : gval) : list positive :=
  match v with
  | VRef p => [p]
  | VInterface (Some v) | VPointer (Some v) => shared_refs v
  | VStruct fields => fields ≫= λ '(_, pkg, v), if bool_decide (pkg = "") then shared_refs v else []
  | VMap entries => entries ≫= λ '(k, v), shared_refs k ++ shared_refs v
  | VSlice l => l ≫= shared_refs
  | _ => []
  end.

Lemma parts_clean v : utf8_clean v = true → Forall (λ w, utf8_clean w = true) (parts v).
Proof.
  destruct v as [| |[]|[]| |l|l|l]; cbn [utf8_clean parts]; rewrite ?forallb_Forall; intros Hv; auto.
  - apply Forall_forall. intros w ([[f pkg] w'] & -> & [Hpkg Hl]%list_elem_of_filter)%list_elem_of_fmap.
    rewrite Forall_forall in Hv. specialize (Hv _ Hl). simpl in *. by rewrite bool_decide_eq_true_2 in Hv.
  - apply Forall_bind. eapply Forall_impl; [exact Hv|].
    intros [k w] [Hk Hw]%andb_true_iff. by repeat constructor.
Qed.

Lemma clean_parts v : (∀ s, v = VString s → valid_utf8 s = true) →
  Forall (λ w, utf8_clean w = true) (parts v) → utf8_clean v = true.
Proof.
  destruct v as [| |[]|[]| |l|l|l]; cbn [utf8_clean parts]; rewrite ?forallb_Forall; intros Hs Hv; auto.
  - by apply Forall_inv in Hv.
  - by apply Forall_inv in Hv.
  - apply Forall_forall. intros [[f pkg] w] Hl. case_bool_decide; [simpl|done].
    refine (proj1 (Forall_forall _ _) Hv w _).
    apply list_elem_of_fmap. exists (f, pkg, w). split; [done|]. by apply list_elem_of_filter.
  - apply Forall_bind in Hv. eapply Forall_impl; [exact Hv|].
    intros [k w] [Hk Hw%Forall_inv]%Forall_cons. apply andb_true_iff. by split.
Qed.

Lemma shared_refs_parts v p : p ∈ shared_refs v ↔ v = VRef p ∨ ∃ w, w ∈ parts v ∧ p ∈ shared_refs w.
Proof.
  assert (∀ (P : gval → Prop) w, (∃ w', w' ∈ [w] ∧ P w') ↔ P w) as Hone.
  { intros P w. split; [by intros (? & ->%list_elem_of_singleton & ?)|].
    exists w. split; [apply list_elem_of_here|done]. }
  destruct v as [| |[]|[]| |l|l|l]; cbn [shared_refs parts]; try set_solver; rewrite ?Hone; try set_solver.
  - rewrite list_elem_of_bind. split.
    + intros ([[f pkg] w] & Hp & Hl). right.
      case_bool_decide as E; [|by apply not_elem_of_nil in Hp]. exists w. split; [|done].
      apply list_elem_of_fmap. exists (f, pkg, w). split; [done|]. by apply list_elem_of_filter.
    + intros [|(w & ([[f pkg] w'] & -> & [E Hl]%list_elem_of_filter)%list_elem_of_fmap & Hp)]; [done|].
      exists (f, pkg, w'). by rewrite bool_decide_eq_true_2.
  - setoid_rewrite list_elem_of_bind. split.
    + intros ([k w] & Hp & Hl). right.
      apply elem_of_app in Hp as [Hp|Hp]; [exists k|exists w]; (split; [|done]); exists (k, w); set_solver.
    + intros [|(w' & ([k w] & Hw' & Hl) & Hp)]; [done|]. exists (k, w). set_solver.
Qed.

(** A shared pointer the walk may meet below [v]. *)
Section shared.
Context (heap : gmap positive gval).
Definition shared_value (p : positive) : gval := default VScalar (heap !! p).

Inductive reachable (v : gval) : positive → Prop :=
  | reach_here p : p ∈ shared_refs v → reachable v p
  | reach_next p q : reachable v p → q ∈ shared_refs (shared_value p) → reachable v q.

Notation walk := (validateUTF8Value shared_value).

(** What a successful walk over the values [vs] has established: they are
    well-formed, and so is every pointer it newly visited, whose own pointers
    are visited too. *)
Record walked (before : gset positive) (vs : list gval) (after : gset positive) : Prop := {
  wk_grows : before ⊆ after;
  wk_clean : Forall (λ v, utf8_clean v = true) vs;
  wk_refs : ∀ v p, v ∈ vs → p ∈ shared_refs v → p ∈ after;
  wk_new : ∀ p, p ∈ after → p ∉ before →
    utf8_clean (shared_value p) = true ∧ ∀ q, q ∈ shared_refs (shared_value p) → q ∈ after;
}.

Lemma walked_nil s : walked s [] s.
Proof. split; set_solver. Qed.

Lemma walked_app s vs s1 ws s2 : walked s vs s1 → walked s1 ws s2 → walked s (vs ++ ws) s2.
Proof.
  intros [G1 C1 R1 N1] [G2 C2 R2 N2]. split; [set_solver|by apply Forall_app|set_solver|].
  intros p Hp Hs. destruct (decide (p ∈ s1)) as [H1|H1]; [|auto].
  destruct (N1 p H1 Hs). split; [done|set_solver].
Qed.

Lemma walked_parts s v s' : (∀ t, v = VString t → valid_utf8 t = true) → (∀ p, v ≠ VRef p) →
  walked s (parts v) s' → walked s [v] s'.
Proof.
  intros Hs Hr [G C R N]. split; [done| | |done].
  - repeat constructor. by apply clean_parts.
  - intros v0 p ->%list_elem_of_singleton [->|(w & Hw & Hp)]%shared_refs_parts; [by destruct (Hr p)|by eapply R].
Qed.

Lemma walk_loop {A} (f : A → utf8_walk unit) (g : A → list gval) l :
  Forall (λ x, ∀ s s', f x s = (s', Ok tt) → walked s (g x) s') l →
  ∀ s s', st_for_each f l s = (s', Ok tt) → walked s (l ≫= g) s'.
Proof.
  induction 1 as [|x l Hx Hl IH]; intros s s' E; [by injection E as <-; apply walked_nil|].
  cbn in E. unfold mbind, stM_bind in E. destruct (f x s) as [s1 [[]|]] eqn:E1; [|done].
  cbn. eapply walked_app; [by apply Hx|by apply IH].
Qed.

Lemma walk_loopi {A} (f : Z → A → utf8_walk unit) (g : A → list gval) l :
  Forall (λ x, ∀ i s s', f i x s = (s', Ok tt) → walked s (g x) s') l →
  ∀ i s s', st_for_eachi_from f i l s = (s', Ok tt) → walked s (l ≫= g) s'.
Proof.
  induction 1 as [|x l Hx Hl IH]; intros i s s' E; [by injection E as <-; apply walked_nil|].
  cbn in E. unfold mbind, stM_bind in E. destruct (f i x s) as [s1 [[]|]] eqn:E1; [|done].
  cbn. eapply walked_app; [by eapply Hx|by eapply IH].
Qed.
Lemma walked_ref s p s' : walked ({[p]} ∪ s) [shared_value p] s' → walked s [VRef p] s'.
Proof.
  intros [G C R N]. apply Forall_inv in C. split.
  - set_solver.
  - by repeat constructor.
  - intros v q ->%list_elem_of_singleton. cbn. set_solver.
  - intros q Hq Hs. destruct (decide (q = p)) as [->|Hne]; [|apply N; set_solver].
    split; [done|]. intros q' Hq'. by eapply R; [apply list_elem_of_here|].
Qed.

Lemma walked_visited s p : p ∈ s → walked s [VRef p] s.
Proof. intros Hp. split; [done|by repeat constructor| |done]. intros v q ->%list_elem_of_singleton. cbn. set_solver. Qed.

Lemma walk_struct (f : string → gval → utf8_walk unit) name l :
  Forall (λ x : string * string * gval, ∀ name s s', f name x.2 s = (s', Ok tt) → walked s [x.2] s') l →
  ∀ s s', st_for_each (λ '(fname, pkg, v),
      if negb (bool_decide (pkg = "")) then mret tt else f (name +:+ "." +:+ fname) v) l s = (s', Ok tt) →
    walked s [VStruct l] s'.
Proof.
  intros IH s s' E. apply walked_parts; [done..|].
  apply (walk_loop _ (λ x, if bool_decide (x.1.2 = "") then [x.2] else [])) in E.
  - assert (parts (VStruct l) = l ≫= λ x, if bool_decide (x.1.2 = "") then [x.2] else []) as ->; [|done].
    clear. cbn. induction l as [|[[f pkg] v] l IH]; [done|]. rewrite filter_cons. cbn.
    case_bool_decide; case_decide; try done. cbn. by rewrite IH.
  - eapply Forall_impl; [exact IH|]. intros [[fn pkg] v] Hv t t' Et. cbn in *.
    case_bool_decide; cbn in Et; [by eapply Hv|]. injection Et as <-. apply walked_nil.
Qed.

Lemma walk_map (f : string → gval → utf8_walk unit) name l :
  Forall (λ kv : gval * gval, (∀ name s s', f name kv.1 s = (s', Ok tt) → walked s [kv.1] s')
                            ∧ (∀ name s s', f name kv.2 s = (s', Ok tt) → walked s [kv.2] s')) l →
  ∀ s s', st_for_each (λ '(k, v), f (name +:+ " map key") k ;; f (name +:+ " map value") v) l s = (s', Ok tt) →
    walked s [VMap l] s'.
Proof.
  intros IH s s' E. apply walked_parts; [done..|]. eapply walk_loop; [|exact E].
  eapply Forall_impl; [exact IH|]. intros [k v] [Hk Hv] t t' Et. cbn in *. unfold mbind, stM_bind in Et.
  destruct (f _ k t) as [t1 [[]|]] eqn:E1; [|done].
  apply (walked_app _ [k] t1 [v]); [by eapply Hk|by eapply Hv].
Qed.

Lemma walk_slice (f : string → gval → utf8_walk unit) (g : Z → string) l :
  Forall (λ v, ∀ name s s', f name v s = (s', Ok tt) → walked s [v] s') l →
  ∀ s s', st_for_eachi (λ i v, f (g i) v) l s = (s', Ok tt) → walked s [VSlice l] s'.
Proof.
  intros IH s s' E. apply walked_parts; [done..|].
  apply (walk_loopi _ (λ v, [v])) in E.
  - assert (l = l ≫= λ v, [v]) as El; [|cbn; by rewrite El]. clear. induction l as [|v l IH]; [done|]. cbn. by f_equal.
  - eapply Forall_impl; [exact IH|]. intros v Hv i t t' Et. by eapply Hv.
Qed.

Lemma walk_sound fuel name v s s' : walk fuel name v s = (s', Ok tt) → walked s [v] s'.
Proof.
  revert name v s s'. induction fuel as [|fuel IHfuel]; intros name v; revert name;
    induction v as [|t| |v IH| |v IH|p|l IH|l IH|l IH] using gval_ind'; intros name s s' E;
    cbn in E; unfold lift in E.
  all: try (injection E as <-; apply walked_parts; [done|done|apply walked_nil]).
  all: try (apply walked_parts; [done|done|by eapply IH]).
  all: try (apply pair_eq in E as [<- Ht%throw_if_ok%negb_false_iff];
            apply walked_parts; [by intros ? [= <-]|done|apply walked_nil]).
  all: try (by eapply walk_struct).
  all: try (by eapply walk_map).
  all: try (by eapply (walk_slice _ (λ i, _))).
  all: unfold gets, mbind, stM_bind, modify in E; cbn in E; case_bool_decide.
  all: try (injection E as <-; by apply walked_visited).
  - done.
  - eapply walked_ref, IHfuel, E.
Qed.
(** A walk that succeeds from every visited set that leaves at most [n] shared
    values to visit. *)
Definition walks (n : nat) (m : utf8_walk unit) : Prop :=
  ∀ s, (size (dom heap ∖ s) ≤ n)%nat → ∃ s', m s = (s', Ok tt) ∧ s ⊆ s'.

Lemma walks_ret n : walks n (mret tt).
Proof. intros s _. by exists s. Qed.

Lemma walks_seq n m k : walks n m → walks n k → walks n (m ;; k).
Proof.
  intros Hm Hk s Hs. destruct (Hm s Hs) as (s1 & E1 & H1).
  destruct (Hk s1) as (s2 & E2 & H2).
  { etrans; [|exact Hs]. apply subseteq_size. set_solver. }
  exists s2. unfold mbind, stM_bind. rewrite E1. split; [done|set_solver].
Qed.

Lemma walks_loop n {A} (f : A → utf8_walk unit) l :
  Forall (λ x, walks n (f x)) l → walks n (st_for_each f l).
Proof. induction 1; [apply walks_ret|by apply walks_seq]. Qed.

Lemma walks_loopi n {A} (f : Z → A → utf8_walk unit) l :
  Forall (λ x, ∀ i, walks n (f i x)) l → ∀ i, walks n (st_for_eachi_from f i l).
Proof. induction 1; intros i; [apply walks_ret|by apply walks_seq]. Qed.

Definition reach_clean (v : gval) : Prop :=
  utf8_clean v = true ∧ ∀ p, reachable v p → utf8_clean (shared_value p) = true.

Lemma reach_clean_parts v : reach_clean v → Forall reach_clean (parts v).
Proof.
  intros [Hv Hr]. apply parts_clean in Hv. rewrite Forall_forall in Hv |- *.
  intros w Hw. split; [by apply Hv|]. intros p Hp. apply Hr. clear Hr.
  induction Hp as [p Hp|p q Hp IH Hq]; [apply reach_here, shared_refs_parts; eauto|by eapply reach_next].
Qed.

Lemma reach_clean_ref p : reach_clean (VRef p) → reach_clean (shared_value p).
Proof.
  intros [_ Hr]. assert (reachable (VRef p) p) as Hp by (apply reach_here; cbn; set_solver).
  split; [by apply Hr|]. intros q Hq. apply Hr.
  induction Hq as [q Hq|q q' Hq IH Hq']; by eapply reach_next.
Qed.

Lemma walks_ref n fuel name p :
  (p ∈ dom heap → ∀ m, m < n → walks m (walk fuel name (shared_value p)))%nat → (n ≤ S fuel)%nat →
  walks n (walk (S fuel) name (VRef p)).
Proof.
  intros Hw Hn s Hs. cbn. unfold gets, mbind, stM_bind, modify. cbn. case_bool_decide as Hp; [by exists s|].
  destruct (decide (p ∈ dom heap)) as [Hd|Hd].
  - assert (size (dom heap ∖ ({[p]} ∪ s)) < size (dom heap ∖ s))%nat as Hlt by (apply subset_size; set_solver).
    destruct (Hw Hd (size (dom heap ∖ ({[p]} ∪ s)))) with ({[p]} ∪ s) as (s' & E & H'); [lia|done|].
    exists s'. split; [done|set_solver].
  - apply not_elem_of_dom in Hd. unfold shared_value. rewrite Hd. cbn. exists ({[p]} ∪ s).
    split; [by destruct fuel|set_solver].
Qed.

Lemma walks_le n m f : (m ≤ n)%nat → walks n f → walks m f.
Proof. intros Hm Hf s Hs. apply Hf. lia. Qed.

Lemma walks_struct n (f : string → gval → utf8_walk unit) name l :
  Forall (λ x : string * string * gval, reach_clean x.2 → ∀ name, walks n (f name x.2)) l →
  reach_clean (VStruct l) →
  walks n (st_for_each (λ '(fname, pkg, v),
      if negb (bool_decide (pkg = "")) then mret tt else f (name +:+ "." +:+ fname) v) l).
Proof.
  intros IH Hv%reach_clean_parts. apply walks_loop. rewrite Forall_forall in IH |- *.
  intros [[fn pkg] v] Hl. case_bool_decide; cbn; [|apply walks_ret].
  refine (IH _ Hl _ _). refine (proj1 (Forall_forall _ _) Hv _ _).
  apply list_elem_of_fmap. exists (fn, pkg, v). split; [done|]. by apply list_elem_of_filter.
Qed.

Lemma walks_map n (f : string → gval → utf8_walk unit) name l :
  Forall (λ kv : gval * gval, (reach_clean kv.1 → ∀ name, walks n (f name kv.1))
                            ∧ (reach_clean kv.2 → ∀ name, walks n (f name kv.2))) l →
  reach_clean (VMap l) →
  walks n (st_for_each (λ '(k, v), f (name +:+ " map key") k ;; f (name +:+ " map value") v) l).
Proof.
  intros IH Hv%reach_clean_parts. apply walks_loop. cbn in Hv. apply Forall_bind in Hv.
  rewrite Forall_forall in IH. rewrite Forall_forall in Hv |- *. intros [k v] Hl.
  destruct (IH _ Hl) as [Hk Hw]. specialize (Hv _ Hl). cbn in *.
  apply Forall_cons in Hv as [? Hv%Forall_inv]. apply walks_seq; auto.
Qed.

Lemma walks_slice n (f : string → gval → utf8_walk unit) (g : Z → string) l :
  Forall (λ v, reach_clean v → ∀ name, walks n (f name v)) l → reach_clean (VSlice l) →
  walks n (st_for_eachi (λ i v, f (g i) v) l).
Proof.
  intros IH Hv%reach_clean_parts. apply walks_loopi. cbn in Hv.
  rewrite Forall_forall in IH, Hv |- *. auto.
Qed.

Lemma walk_complete fuel v : reach_clean v → ∀ name, walks fuel (walk (S fuel) name v).
Proof.
  revert v. induction fuel as [|fuel IHfuel];
    induction v as [|t| |v IH| |v IH|p|l IH|l IH|l IH] using gval_ind'; intros Hv name.
  all: try (apply walks_ref; [intros Hd m Hm|lia]).
  all: try lia.
  all: try apply walks_ret.
  all: try (refine (IH _ _); apply reach_clean_parts in Hv; by apply Forall_inv in Hv).
  all: try (by refine (walks_struct _ _ _ _ _ Hv)).
  all: try (by refine (walks_map _ _ _ _ _ Hv)).
  all: try (by refine (walks_slice _ _ _ _ _ Hv)).
  all: try (intros s _; exists s; cbn; destruct Hv as [Hv _]; cbn in Hv; by rewrite Hv).
  - eapply (walks_le fuel); [lia|]. apply IHfuel. by apply reach_clean_ref.
Qed.

(** The walk accepts exactly when every string it can reach is well-formed,
    however the shared pointers are linked. *)
Lemma validateUTF8Shared_ok {A} `{GoValue A} name (x : A) :
  validateUTF8Shared heap name x = Ok tt ↔ reach_clean (reflect_value x).
Proof.
  unfold validateUTF8Shared. change (λ p, default VScalar (heap !! p)) with shared_value. split.
  - destruct (walk _ _ _ _) as [s' r] eqn:E. cbn. intros ->.
    destruct (walk_sound _ _ _ _ _ E) as [_ C R N]. split; [by apply Forall_inv in C|].
    assert (∀ p, reachable (reflect_value x) p → p ∈ s') as Hin.
    { induction 1 as [p Hp|p q Hp IH Hq]; [by eapply R; [apply list_elem_of_here|]|].
      by apply (N p); [|set_solver|]. }
    intros p Hp. by apply N; [apply Hin|set_solver].
  - intros Hx. destruct (walk_complete (size heap) _ Hx name ∅) as (s' & E & _); [|by rewrite E].
    rewrite <-size_dom. apply subseteq_size. set_solver.
Qed.
End shared.

Lemma validateUTF8Strings_ok {A} `{GoValue A} name (x : A) :
  validateUTF8Strings name x = Ok tt ↔ utf8_clean (reflect_value x) = true.
Proof.
  unfold validateUTF8Strings. rewrite validateUTF8Shared_ok. unfold reach_clean. split; [by intros []|].
  intros Hx. split; [done|]. intros p _. unfold shared_value. by rewrite lookup_empty.
Qed.

#[export] Hint Resolve canonical_nonempty canonical_valid canonical_opt_valid canonical_is_opt
  canonical_trim sha256Hex_lower isLowerSHA256_valid canonical_upper canonical_lower : go.

(** Prove a concrete identity canonical by running the check. *)
Ltac canonical_compute :=
  apply (ValidateCanonicalIdentity_required ""); vm_compute; reflexivity.
(** Prove a decidable statement about concrete values by deciding it. *)
Ltac decide_compute :=
  match goal with |- ?P => refine (bool_decide_eq_true_1 P _); vm_compute; reflexivity end.
(** Prove a conjunction of such facts about the elements of concrete lists. *)
Ltac concrete :=
  repeat match goal with
  | |- canonical _ => canonical_compute
  | |- canonical_opt _ => first [left; reflexivity | right; canonical_compute]
  | |- NoDup _ => decide_compute
  | |- Forall _ ?l =>
      let k := eval hnf in l in
      change l with k;
      lazymatch k with
      | [] => apply Forall_nil_2
      | _ => apply Forall_cons_2; cbv beta
      end
  | |- _ ∧ _ => split
  end.
