(* ===== verification/Spec.v ===== *)
(** * The specification index (domain/spec.go, domain/catalog.go)

    The parsed contract every later stage works on.  Field names carry a
    prefix per record.  A schema summary refers to its item schema through a
    Go pointer that several summaries may share and that malformed parser
    output may close into a cycle; the model keeps the pointer as a [ptr] into
    a heap [gmap ptr SchemaSummary] that the operations following it take as
    an argument. *)

From S2P Require Import Prelude Identity GoTime.

Definition ptr := positive.

Record FixedQueryParameter := MkFixedQueryParameter {
  fq_Name : string;
  fq_Value : string;
}.

Record Facet := MkFacet {
  fc_Name : string;
  fc_Value : string;
}.

Record SchemaConstraint := MkSchemaConstraint {
  sc_Name : string;
  sc_Value : string;
}.

Inductive SchemaSummary := MkSchemaSummary {
  ss_Name : string;
  ss_Type : string;
  ss_Format : string;
  ss_Description : string;
  ss_Default : string;
  ss_Example : string;
  ss_Enum : list string;
  ss_Constraints : list SchemaConstraint;
  ss_Nullable : bool;
  ss_Deprecated : bool;
  ss_Properties : list SchemaProperty;
  ss_Items : option ptr;
  ss_JSON : string;
}
with SchemaProperty := MkSchemaProperty {
  sp_Name : string;
  sp_Required : bool;
  sp_Schema : SchemaSummary;
  sp_Description : string;
}.

Record OperationParameter := MkOperationParameter {
  par_Name : string;
  par_In : string;
  par_Required : bool;
  par_Description : string;
  par_Schema : SchemaSummary;
  par_Example : string;
}.

Record OperationMediaType := MkOperationMediaType {
  mt_ContentType : string;
  mt_Schema : SchemaSummary;
  mt_Example : string;
  mt_ExampleProvided : bool;
}.

Record OperationRequestBody := MkOperationRequestBody {
  rb_Description : string;
  rb_Required : bool;
  rb_MediaTypes : list OperationMediaType;
}.

Record OperationResponseHeader := MkOperationResponseHeader {
  rh_Name : string;
  rh_Description : string;
  rh_Schema : SchemaSummary;
  rh_Example : string;
}.

Record OperationResponse := MkOperationResponse {
  rsp_Status : string;
  rsp_Description : string;
  rsp_Headers : list OperationResponseHeader;
  rsp_MediaTypes : list OperationMediaType;
}.

Record SecurityScheme := MkSecurityScheme {
  sec_Name : string;
  sec_Type : string;
  sec_Description : string;
  sec_ParameterName : string;
  sec_In : string;
  sec_Scheme : string;
  sec_BearerFormat : string;
  sec_OpenIDConnectURL : string;
}.

Record OperationSecurity := MkOperationSecurity {
  os_Name : string;
  os_Scopes : list string;
  os_Definition : SecurityScheme;
}.

Record RequestSnippet := MkRequestSnippet {
  sn_Label : string;
  sn_Language : string;
  sn_Code : string;
}.

Record Operation := MkOperation {
  op_ID : string;
  op_Anchor : string;
  op_Title : string;
  op_Method : string;
  op_Path : string;
  op_RequestTarget : string;
  op_FixedQuery : list FixedQueryParameter;
  op_Summary : string;
  op_Description : string;
  op_Tags : list string;
  op_Facets : list Facet;
  op_Deprecated : bool;
  op_Parameters : list OperationParameter;
  op_RequestBody : option OperationRequestBody;
  op_Responses : list OperationResponse;
  op_Security : list OperationSecurity;
  op_Snippets : list RequestSnippet;
}.

Record SchemaExample := MkSchemaExample {
  se_JSON : string;
  se_Example : string;
  se_Provided : bool;
}.

Record Schema := MkSchema {
  sch_Name : string;
  sch_Description : string;
  sch_Summary : SchemaSummary;
  sch_Example : SchemaExample;
}.

Record SearchDocument := MkSearchDocument {
  sd_ID : string;
  sd_Title : string;
  sd_Description : string;
  sd_Href : string;
  sd_Kind : string;
  sd_Method : string;
  sd_Path : string;
  sd_Section : string;
  sd_Keywords : list string;
}.

Record PublicRoute := MkPublicRoute {
  pr_Path : string;
  pr_Title : string;
  pr_Description : string;
}.

Record DocsBrandingLogo := MkDocsBrandingLogo {
  bl_Src : string;
  bl_Alt : string;
  bl_HomeURL : string;
}.

Record DocsBranding := MkDocsBranding {
  br_DisplayName : string;
  br_Logo : DocsBrandingLogo;
  br_Favicon : string;
}.

Record SpecServerVariable := MkSpecServerVariable {
  sv_Name : string;
  sv_Default : string;
  sv_Description : string;
  sv_Enum : list string;
}.

Record SpecServer := MkSpecServer {
  srv_URL : string;
  srv_Description : string;
  srv_Variables : list SpecServerVariable;
}.

Record SpecContact := MkSpecContact {
  ct_Name : string;
  ct_URL : string;
  ct_Email : string;
}.

Record SpecLicense := MkSpecLicense {
  li_Name : string;
  li_URL : string;
  li_Identifier : string;
}.

Record SpecOverview := MkSpecOverview {
  ov_Description : string;
  ov_TermsOfService : string;
  ov_Contact : SpecContact;
  ov_License : SpecLicense;
  ov_Servers : list SpecServer;
}.

Record SpecDownload := MkSpecDownload {
  dl_JSON : list Z;
  dl_Filename : string;
}.

Record SpecIndex := MkSpecIndex {
  ix_ProjectID : string;
  ix_RevisionID : string;
  ix_Title : string;
  ix_Version : string;
  ix_Branding : DocsBranding;
  ix_Overview : SpecOverview;
  ix_SpecDownload : SpecDownload;
  ix_Operations : list Operation;
  ix_Schemas : list Schema;
  ix_SecuritySchemes : list SecurityScheme;
  ix_Search : list SearchDocument;
  ix_PublicRoutes : list PublicRoute;
  ix_ExampleSpecJSON : string;
}.

(** ** Plain values, for samples *)

Definition empty_summary : SchemaSummary :=
  MkSchemaSummary "" "" "" "" "" "" [] [] false false [] None "".

(** An operation that declares a method, a path, parameters, a body and
    response statuses, everything else at its zero value. *)
Definition plain_operation (method path : string) (params : list (string * string * bool))
    (body : option bool) (statuses : list string) : Operation :=
  MkOperation "" "" "" method path "" [] "" "" [] [] false
    ((λ '(name, loc, required), MkOperationParameter name loc required "" empty_summary "") <$> params)
    ((λ required, MkOperationRequestBody "" required []) <$> body)
    ((λ status, MkOperationResponse status "" [] []) <$> statuses) [] [].

Definition plain_schema (name : string) : Schema :=
  MkSchema name "" empty_summary (MkSchemaExample "" "" false).

Definition plain_index (revision : string) (operations : list Operation) (schemas : list Schema) : SpecIndex :=
  MkSpecIndex "" revision "" "" (MkDocsBranding "" (MkDocsBrandingLogo "" "" "") "")
    (MkSpecOverview "" "" (MkSpecContact "" "" "") (MkSpecLicense "" "" "") [])
    (MkSpecDownload [] "") operations schemas [] [] [] "".
