(* ===== verification/Release.v ===== *)
(** * Release tracks (domain/release.go)

    A release track is the durable state of one deployment: the revision it
    serves, the candidate it holds back, and the last decision as evidence.
    [ConsiderReleaseDecision] and [PromoteReleaseRevision] are its only
    transitions; [ValidateReleaseTrack] is its invariant and
    [ValidateReleaseTrackTransition] the check a store applies to a mutation.
    A [*ReleaseDecision] is an option: the code copies the pointee at every
    boundary ([CloneReleaseTrack]), so tracks never share it. *)

From S2P Require Import Prelude GoString GoTime Identity.

Definition ReleaseModePinned : string := "pinned".
Definition ReleaseModeFollowing : string := "following".
Definition VerdictPass : string := "pass".
Definition VerdictFail : string := "fail".

Record ReleaseDecision := MkReleaseDecision {
  rd_RevisionID : string;
  rd_ReviewID : string;
  rd_ReviewDigest : string;
  rd_Verdict : string;
  rd_Accepted : bool;
  rd_EvaluatedAt : Time;
}.

Record ReleaseTrack := MkReleaseTrack {
  rt_ID : string;
  rt_ContractID : string;
  rt_BoundRef : string;
  rt_Mode : string;
  rt_Generation : Z;
  rt_CurrentRevisionID : string;
  rt_CandidateRevisionID : string;
  rt_LastDecision : option ReleaseDecision;
}.

Record ReleaseAuthorization := MkReleaseAuthorization {
  ra_ContractID : string;
  ra_TrackID : string;
  ra_ReviewID : string;
  ra_SyncRecordID : string;
  ra_BaselineRevisionID : string;
  ra_CandidateRevisionID : string;
  ra_SourceID : string;
  ra_BoundRef : string;
  ra_PublicPath : string;
  ra_PolicyDigest : string;
}.

#[export] Instance ReleaseDecision_eq_dec : EqDecision ReleaseDecision.
Proof. solve_decision. Defined.
#[export] Instance ReleaseTrack_eq_dec : EqDecision ReleaseTrack.
Proof. solve_decision. Defined.

#[export] Instance ReleaseDecision_value : GoValue ReleaseDecision := λ d, VStruct [
  exported "RevisionID" (rd_RevisionID d); exported "ReviewID" (rd_ReviewID d);
  exported "ReviewDigest" (rd_ReviewDigest d); exported "Verdict" (rd_Verdict d);
  exported "Accepted" (rd_Accepted d); exported "EvaluatedAt" (rd_EvaluatedAt d)].

#[export] Instance ReleaseTrack_value : GoValue ReleaseTrack := λ t, VStruct [
  exported "ID" (rt_ID t); exported "ContractID" (rt_ContractID t);
  exported "BoundRef" (rt_BoundRef t); exported "Mode" (rt_Mode t);
  exported "Generation" (rt_Generation t);
  exported "CurrentRevisionID" (rt_CurrentRevisionID t);
  exported "CandidateRevisionID" (rt_CandidateRevisionID t);
  ("LastDecision", "", value_pointer (rt_LastDecision t))].

#[export] Instance ReleaseAuthorization_value : GoValue ReleaseAuthorization := λ a, VStruct [
  exported "ContractID" (ra_ContractID a); exported "TrackID" (ra_TrackID a);
  exported "ReviewID" (ra_ReviewID a); exported "SyncRecordID" (ra_SyncRecordID a);
  exported "BaselineRevisionID" (ra_BaselineRevisionID a);
  exported "CandidateRevisionID" (ra_CandidateRevisionID a);
  exported "SourceID" (ra_SourceID a); exported "BoundRef" (ra_BoundRef a);
  exported "PublicPath" (ra_PublicPath a); exported "PolicyDigest" (ra_PolicyDigest a)].

(** ** Validation *)

Definition validateCanonicalReleaseIdentity (name value : string) (allowEmpty : bool) : res unit :=
  validateCanonicalIdentity name value allowEmpty.

Definition ValidateReleaseAuthorization (a : ReleaseAuthorization) : res unit :=
  validateUTF8Strings "release authorization" a ;;
  for_each (λ '(name, value), validateCanonicalReleaseIdentity name value false) [
    ("release authorization contract id", ra_ContractID a);
    ("release authorization track id", ra_TrackID a);
    ("release authorization review id", ra_ReviewID a);
    ("release authorization sync record id", ra_SyncRecordID a);
    ("release authorization baseline revision id", ra_BaselineRevisionID a);
    ("release authorization candidate revision id", ra_CandidateRevisionID a);
    ("release authorization source id", ra_SourceID a);
    ("release authorization bound ref", ra_BoundRef a)] ;;
  ValidateCanonicalPublicPath "release authorization public path" (ra_PublicPath a) false ;;
  throw_if (negb (isLowerSHA256 (ra_PolicyDigest a)))
    (Errorf "release authorization policy digest must be lowercase SHA-256" []).

Definition validateReleaseDecision (d : ReleaseDecision) : res unit :=
  validateUTF8Strings "release decision" d ;;
  validateCanonicalReleaseIdentity "release decision revision id" (rd_RevisionID d) false ;;
  validateCanonicalReleaseIdentity "release decision review id" (rd_ReviewID d) false ;;
  throw_if (negb (isLowerSHA256 (rd_ReviewDigest d)))
    (Errorf "release decision review digest must be lowercase SHA-256" []) ;;
  throw_if (negb (bool_decide (rd_Verdict d = VerdictPass)) && negb (bool_decide (rd_Verdict d = VerdictFail)))
    (Errorf "unsupported release decision verdict %q" [EStr (rd_Verdict d)]) ;;
  throw_if (rd_Accepted d && negb (bool_decide (rd_Verdict d = VerdictPass)))
    (Errorf "accepted release decision requires a passing verdict" []) ;;
  throw_if (negb (IsZero (rd_EvaluatedAt d)) && negb (is_UTC (rd_EvaluatedAt d)))
    (Errorf "release decision evaluation time must be UTC" []).

(** The second half of [ValidateReleaseTrack]: the decision evidence. *)
Definition validateTrackEvidence (t : ReleaseTrack) : res unit :=
  match rt_LastDecision t with
  | None =>
      throw_if (negb (bool_decide (rt_CandidateRevisionID t = "")))
        (Errorf "release track candidate requires decision evidence" [])
  | Some d =>
      throw_if (rt_Generation t =? 0)
        (Errorf "release track decision evidence requires a positive generation" []) ;;
      wrap_err (validateReleaseDecision d)
        (λ e, Errorf "invalid last release decision: %w" [EErr e]) ;;
      throw_if (IsZero (rd_EvaluatedAt d))
        (Errorf "last release decision evaluation time is required" []) ;;
      if bool_decide (rt_Mode t = ReleaseModeFollowing) && rd_Accepted d then
        throw_if (negb (bool_decide (rt_CandidateRevisionID t = "")))
          (Errorf "accepted following release decision cannot retain a candidate" []) ;;
        throw_if (negb (bool_decide (rt_CurrentRevisionID t = rd_RevisionID d)))
          (Errorf "release track current revision does not match last accepted decision" [])
      else if negb (bool_decide (rt_CandidateRevisionID t = "")) then
        throw_if (negb (bool_decide (rt_CandidateRevisionID t = rd_RevisionID d)))
          (Errorf "release track candidate does not match last decision" [])
      else
        throw_if (negb (rd_Accepted d))
          (Errorf "rejected release decision requires its candidate" []) ;;
        throw_if (negb (bool_decide (rt_CurrentRevisionID t = rd_RevisionID d)))
          (Errorf "release track current revision does not match last accepted decision" [])
  end.

Definition ValidateReleaseTrack (t : ReleaseTrack) : res unit :=
  validateUTF8Strings "release track" t ;;
  validateCanonicalReleaseIdentity "release track id" (rt_ID t) false ;;
  validateCanonicalReleaseIdentity "release track contract id" (rt_ContractID t) false ;;
  validateCanonicalReleaseIdentity "release track bound ref" (rt_BoundRef t) true ;;
  validateCanonicalReleaseIdentity "release track current revision id" (rt_CurrentRevisionID t) true ;;
  validateCanonicalReleaseIdentity "release track candidate revision id" (rt_CandidateRevisionID t) true ;;
  throw_if (negb (bool_decide (rt_Mode t = ReleaseModePinned)) && negb (bool_decide (rt_Mode t = ReleaseModeFollowing)))
    (Errorf "unsupported release track mode %q" [EStr (rt_Mode t)]) ;;
  validateTrackEvidence t.

(** ** Transitions *)

Definition ConsiderReleaseDecision (track : ReleaseTrack) (decision : ReleaseDecision)
    : res (ReleaseTrack * bool) :=
  ValidateReleaseTrack track ;;
  validateReleaseDecision decision ;;
  if bool_decide (rt_LastDecision track = Some decision) then mret (track, false) else
  throw_if (rt_Generation track =? max_uint64)
    (Errorf "release track generation is exhausted" []) ;;
  throw_if (IsZero (rd_EvaluatedAt decision))
    (Errorf "release decision evaluation time is required" []) ;;
  let apply :=
    let generation := wrap64 (rt_Generation track + 1) in
    if negb (rd_Accepted decision) || bool_decide (rt_Mode track = ReleaseModePinned) then
      (MkReleaseTrack (rt_ID track) (rt_ContractID track) (rt_BoundRef track) (rt_Mode track)
         generation (rt_CurrentRevisionID track) (rd_RevisionID decision) (Some decision), true)
    else
      (MkReleaseTrack (rt_ID track) (rt_ContractID track) (rt_BoundRef track) (rt_Mode track)
         generation (rd_RevisionID decision) "" (Some decision), true) in
  match rt_LastDecision track with
  | Some last =>
      if negb (IsZero (rd_EvaluatedAt last)) then
        if Before (rd_EvaluatedAt decision) (rd_EvaluatedAt last) then mret (track, false)
        else if TimeEqual (rd_EvaluatedAt decision) (rd_EvaluatedAt last) then
          Fail (Errorf "different release decisions have the same evaluation time" [])
        else mret apply
      else mret apply
  | None => mret apply
  end.

Definition PromoteReleaseRevision (track : ReleaseTrack) (revisionID : string) : res ReleaseTrack :=
  ValidateReleaseTrack track ;;
  throw_if (negb (bool_decide (rt_Mode track = ReleaseModePinned)))
    (Errorf "only pinned tracks require promotion" []) ;;
  validateCanonicalReleaseIdentity "revision id" revisionID false ;;
  throw_if (match rt_LastDecision track with
            | None => true
            | Some d => negb (rd_Accepted d) || negb (bool_decide (rd_Verdict d = VerdictPass))
                        || negb (bool_decide (rd_RevisionID d = revisionID))
            end)
    (Errorf "revision %q has no matching accepted decision" [EStr revisionID]) ;;
  if bool_decide (rt_CandidateRevisionID track = "") && bool_decide (rt_CurrentRevisionID track = revisionID)
  then mret track else
  throw_if (negb (bool_decide (revisionID = rt_CandidateRevisionID track)))
    (Errorf "revision %q is not the track candidate" [EStr revisionID]) ;;
  throw_if (rt_Generation track =? max_uint64)
    (Errorf "release track generation is exhausted" []) ;;
  mret (MkReleaseTrack (rt_ID track) (rt_ContractID track) (rt_BoundRef track) (rt_Mode track)
          (wrap64 (rt_Generation track + 1)) revisionID "" (rt_LastDecision track)).

Definition sameReleaseDecisionWithoutTime (left right : ReleaseDecision) : bool :=
  let strip d := MkReleaseDecision (rd_RevisionID d) (rd_ReviewID d) (rd_ReviewDigest d)
                   (rd_Verdict d) (rd_Accepted d) zero_time in
  bool_decide (strip left = strip right).

Definition legacy_review_id : string := "legacy-release-decision".

(** [fmt.Sprintf("%s\x00%t", revisionID, accepted)] *)
Definition legacy_preimage (revisionID : string) (accepted : bool) : list Z :=
  bytes_of revisionID ++ 0 :: bytes_of (if accepted then "true" else "false").

Definition ConsiderReleaseRevision (track : ReleaseTrack) (revisionID : string) (accepted : bool)
    : res ReleaseTrack :=
  ValidateReleaseTrack track ;;
  validateCanonicalReleaseIdentity "revision id" revisionID false ;;
  let consider :=
    let decision := MkReleaseDecision revisionID legacy_review_id
      (sha256Hex (legacy_preimage revisionID accepted))
      (if accepted then VerdictPass else VerdictFail) accepted unix_epoch in
    let at_time time := MkReleaseDecision (rd_RevisionID decision) (rd_ReviewID decision)
      (rd_ReviewDigest decision) (rd_Verdict decision) (rd_Accepted decision) time in
    let decision :=
      match rt_LastDecision track with
      | Some last =>
          if sameReleaseDecisionWithoutTime last decision then at_time (rd_EvaluatedAt last)
          else if negb (IsZero (rd_EvaluatedAt last)) then
            at_time (TimeAdd (rd_EvaluatedAt last) Nanosecond)
          else decision
      | None => decision
      end in
    '(next, _) ← ConsiderReleaseDecision track decision;
    mret next in
  match rt_LastDecision track with
  | Some last =>
      throw_if (negb (bool_decide (rd_ReviewID last = legacy_review_id)))
        (Errorf "legacy release helper cannot supersede an authoritative decision" []) ;;
      if rd_Accepted last then
        if accepted && bool_decide (rd_RevisionID last = revisionID) then mret track
        else Fail (Errorf "legacy accepted decision cannot be revoked or superseded" [])
      else consider
  | None => consider
  end.

(** The check a store applies before it persists a mutation. *)
Definition ValidateReleaseTrackTransition (current next : ReleaseTrack) : res unit :=
  wrap_err (ValidateReleaseTrack current)
    (λ e, Errorf "invalid current release track: %w" [EErr e]) ;;
  wrap_err (ValidateReleaseTrack next)
    (λ e, Errorf "invalid next release track: %w" [EErr e]) ;;
  throw_if (negb (bool_decide (rt_ID current = rt_ID next))
            || negb (bool_decide (rt_ContractID current = rt_ContractID next)))
    (Errorf "release track identity cannot change" []) ;;
  if bool_decide (current = next) then mret tt else
  let considered d :=
    r ← wrap_err (ConsiderReleaseDecision current d)
          (λ e, Errorf "validate persisted release decision: %w" [EErr e]);
    throw_if (negb r.2 || negb (bool_decide (r.1 = next)))
      (Errorf "persisted release track mutation does not match the authoritative decision" []) in
  match rt_LastDecision current, rt_LastDecision next with
  | Some dc, Some dn =>
      if bool_decide (dc = dn) then
        let promoted :=
          if bool_decide (rt_Mode current = ReleaseModePinned)
             && negb (bool_decide (rt_CandidateRevisionID current = ""))
          then match PromoteReleaseRevision current (rt_CandidateRevisionID current) with
               | Ok promoted => bool_decide (promoted = next)
               | Fail _ => false
               end
          else false in
        if promoted then mret tt
        else Fail (Errorf "persisted release track mutation is not an exact no-op or pinned promotion" [])
      else considered dn
  | None, Some dn => considered dn
  | _, None => Fail (Errorf "release track decision evidence cannot be removed" [])
  end.

(** ** What a valid track is *)

Record decision_ok (d : ReleaseDecision) : Prop := {
  do_revision : canonical (rd_RevisionID d);
  do_review : canonical (rd_ReviewID d);
  do_digest : isLowerSHA256 (rd_ReviewDigest d) = true;
  do_verdict : rd_Verdict d = VerdictPass ∨ rd_Verdict d = VerdictFail;
  do_accepted : rd_Accepted d = true → rd_Verdict d = VerdictPass;
  do_utc : IsZero (rd_EvaluatedAt d) = false → t_loc (rd_EvaluatedAt d) = LocUTC;
}.

(** The decision waits as the candidate: a pinned track has not promoted it,
    or it was a rejection. *)
Definition pending (t : ReleaseTrack) (d : ReleaseDecision) : Prop :=
  rt_CandidateRevisionID t = rd_RevisionID d
  ∧ (rt_Mode t = ReleaseModeFollowing → rd_Accepted d = false).

(** The decision was accepted and its revision is served. *)
Definition applied (t : ReleaseTrack) (d : ReleaseDecision) : Prop :=
  rt_CandidateRevisionID t = "" ∧ rd_Accepted d = true ∧ rt_CurrentRevisionID t = rd_RevisionID d.

Definition evidence_ok (t : ReleaseTrack) : Prop :=
  match rt_LastDecision t with
  | None => rt_CandidateRevisionID t = ""
  | Some d =>
      rt_Generation t ≠ 0 ∧ decision_ok d ∧ IsZero (rd_EvaluatedAt d) = false
      ∧ (pending t d ∨ applied t d)
  end.

Record track_ok (t : ReleaseTrack) : Prop := {
  to_id : canonical (rt_ID t);
  to_contract : canonical (rt_ContractID t);
  to_ref : canonical_opt (rt_BoundRef t);
  to_current : canonical_opt (rt_CurrentRevisionID t);
  to_candidate : canonical_opt (rt_CandidateRevisionID t);
  to_mode : rt_Mode t = ReleaseModePinned ∨ rt_Mode t = ReleaseModeFollowing;
  to_evidence : evidence_ok t;
}.

(** ** One step of a track *)

Inductive release_event :=
  | EvDecision (d : ReleaseDecision)
  | EvPromote (revisionID : string).

Inductive release_step (t : ReleaseTrack) : release_event → ReleaseTrack → Prop :=
  | step_decision d t' :
      ConsiderReleaseDecision t d = Ok (t', true) → release_step t (EvDecision d) t'
  | step_promote r t' :
      PromoteReleaseRevision t r = Ok t' → release_step t (EvPromote r) t'.

(** [history t0 es t]: the events [es], oldest first, lead from [t0] to [t]. *)
Inductive history (t0 : ReleaseTrack) : list release_event → ReleaseTrack → Prop :=
  | history_nil : history t0 [] t0
  | history_snoc es e t t' :
      history t0 es t → release_step t e t' → history t0 (es ++ [e]) t'.

Definition promotable (t : ReleaseTrack) (r : string) : Prop :=
  ∃ d, rt_LastDecision t = Some d ∧ rd_Accepted d = true ∧ rd_RevisionID d = r.

(** The decision is newer than the evidence the track holds. *)
Definition newer (t : ReleaseTrack) (d : ReleaseDecision) : Prop :=
  match rt_LastDecision t with
  | None => True
  | Some last => t_ns (rd_EvaluatedAt last) < t_ns (rd_EvaluatedAt d)
  end.

(** The track after a decision took effect. *)
Definition apply_decision (t : ReleaseTrack) (d : ReleaseDecision) : ReleaseTrack :=
  let served := rd_Accepted d && bool_decide (rt_Mode t = ReleaseModeFollowing) in
  MkReleaseTrack (rt_ID t) (rt_ContractID t) (rt_BoundRef t) (rt_Mode t) (rt_Generation t + 1)
    (if served then rd_RevisionID d else rt_CurrentRevisionID t)
    (if served then "" else rd_RevisionID d) (Some d).

(** Deliver a sequence of decisions, ignoring which of them changed the track. *)
Definition deliver (t : ReleaseTrack) (ds : list ReleaseDecision) : res ReleaseTrack :=
  fold_res (λ t d, fst <$> ConsiderReleaseDecision t d) t ds.

(** The decisions a track has seen: its evidence and those delivered since. *)
Definition seen (t : ReleaseTrack) (ds : list ReleaseDecision) : list ReleaseDecision :=
  option_list (rt_LastDecision t) ++ ds.

Definition decisions (es : list release_event) : list ReleaseDecision :=
  omap (λ e, match e with EvDecision d => Some d | EvPromote _ => None end) es.

(** ** Lemmas *)

Lemma validateReleaseDecision_ok d : validateReleaseDecision d = Ok tt ↔ decision_ok d.
Proof.
  unfold validateReleaseDecision, validateCanonicalReleaseIdentity, validateCanonicalIdentity.
  rewrite !seq_ok, !throw_if_ok, validateUTF8Strings_ok, !ValidateCanonicalIdentity_required.
  split.
  - intros (_ & H1 & H2 & H3 & H4 & H5 & H6). constructor; [done..| | | |].
    + by destruct (isLowerSHA256 _).
    + destruct (bool_decide _) eqn:E1 in H4; bool_prop; [by left|].
      destruct (bool_decide _) eqn:E2 in H4; bool_prop; [by right|done].
    + intros Ha. rewrite Ha in H5. by case_bool_decide.
    + intros Hz. rewrite Hz in H6. simpl in H6. unfold is_UTC in H6. by bool_prop.
  - intros [H1 H2 H3 H4 H5 H6]. split_and!; [|done|done|by rewrite H3| | |].
    + simpl. rewrite (canonical_valid _ H1), (canonical_valid _ H2), (isLowerSHA256_valid _ H3).
      by destruct H4 as [-> | ->].
    + by destruct H4 as [-> | ->].
    + destruct (rd_Accepted d); [|done]. by rewrite H5.
    + destruct (IsZero _); [done|]. simpl. unfold is_UTC. by rewrite H6.
Qed.

Lemma mode_pinned_iff t :
  rt_Mode t = ReleaseModePinned ∨ rt_Mode t = ReleaseModeFollowing →
  rt_Mode t = ReleaseModePinned ↔ rt_Mode t ≠ ReleaseModeFollowing.
Proof. intros [-> | ->]; done. Qed.

Lemma validateTrackEvidence_ok t : validateTrackEvidence t = Ok tt ↔ evidence_ok t.
Proof.
  unfold validateTrackEvidence, evidence_ok, pending, applied. destruct (rt_LastDecision t) as [d|].
  2: { rewrite throw_if_ok. by case_bool_decide. }
  rewrite !seq_ok, !throw_if_ok, wrap_err_ok, validateReleaseDecision_ok, Z.eqb_neq.
  assert (Hid : decision_ok d → rd_RevisionID d ≠ "") by (intros []; auto with go).
  destruct (rd_Accepted d); repeat case_bool_decide; simpl; rewrite ?seq_ok, ?throw_if_ok;
    repeat case_bool_decide; simpl; intuition congruence.
Qed.

Lemma track_ok_utf8 t : track_ok t → utf8_clean (reflect_value t) = true.
Proof.
  intros [H1 H2 H3 H4 H5 H6 H7]. simpl.
  rewrite (canonical_valid _ H1), (canonical_valid _ H2), (canonical_opt_valid _ H3),
    (canonical_opt_valid _ H4), (canonical_opt_valid _ H5).
  assert (valid_utf8 (rt_Mode t) = true) as -> by (by destruct H6 as [-> | ->]). simpl.
  unfold evidence_ok in H7. destruct (rt_LastDecision t) as [d|]; [|done].
  destruct H7 as (_ & Hd & _). apply validateReleaseDecision_ok in Hd.
  unfold validateReleaseDecision in Hd. apply seq_ok in Hd as [Hd _].
  apply validateUTF8Strings_ok in Hd. simpl in *. by rewrite Hd.
Qed.

Lemma ValidateReleaseTrack_ok t : ValidateReleaseTrack t = Ok tt ↔ track_ok t.
Proof.
  unfold ValidateReleaseTrack, validateCanonicalReleaseIdentity, validateCanonicalIdentity.
  rewrite !seq_ok, throw_if_ok, validateUTF8Strings_ok, !ValidateCanonicalIdentity_required,
    !ValidateCanonicalIdentity_optional, validateTrackEvidence_ok.
  split.
  - intros (_ & H1 & H2 & H3 & H4 & H5 & H6 & H7). constructor; try done.
    destruct (bool_decide _) eqn:E1 in H6; bool_prop; [by left|].
    destruct (bool_decide _) eqn:E2 in H6; bool_prop; [by right|done].
  - intros Ht. pose proof Ht as [H1 H2 H3 H4 H5 H6 H7].
    split_and!; try done; [by apply track_ok_utf8|by destruct H6 as [-> | ->]].
Qed.

Lemma wrap64_succ g : is_uint64 g → g ≠ max_uint64 → wrap64 (g + 1) = g + 1 ∧ is_uint64 (g + 1).
Proof.
  unfold wrap64, is_uint64, max_uint64. intros. split; [apply Z.mod_small|]; lia.
Qed.

(** The outcome of a decision on a valid track, branch by branch. *)
Lemma consider_iff t d t' c :
  is_uint64 (rt_Generation t) →
  ConsiderReleaseDecision t d = Ok (t', c) ↔
  track_ok t ∧ decision_ok d ∧
  ((c = false ∧ t' = t ∧ rt_LastDecision t = Some d) ∨
   (rt_LastDecision t ≠ Some d ∧ rt_Generation t ≠ max_uint64 ∧ IsZero (rd_EvaluatedAt d) = false
    ∧ ((c = false ∧ t' = t ∧ ∃ last, rt_LastDecision t = Some last
          ∧ t_ns (rd_EvaluatedAt d) < t_ns (rd_EvaluatedAt last))
       ∨ (c = true ∧ newer t d ∧ t' = apply_decision t d)))).
Proof.
  intros Hg. unfold ConsiderReleaseDecision.
  rewrite !seq_ok, ValidateReleaseTrack_ok, validateReleaseDecision_ok.
  apply and_iff_under; intros Ht. apply and_iff_under; intros Hd.
  case_bool_decide as Hr.
  { simpl. split; [intros [= <- <-]; by left|]. by intros [(-> & -> & _)|(? & _)]. }
  rewrite !seq_ok, !throw_if_ok, Z.eqb_neq.
  set (a := (if _ || _ then _ else _)).
  assert (Ha : rt_Generation t ≠ max_uint64 → a = (apply_decision t d, true)).
  { intros Hm. destruct (wrap64_succ _ Hg Hm) as [Hw _]. unfold a, apply_decision. rewrite Hw.
    destruct (to_mode _ Ht) as [Em|Em]; rewrite Em; by destruct (rd_Accepted d). }
  assert (Hlast : ∀ last, rt_LastDecision t = Some last → IsZero (rd_EvaluatedAt last) = false).
  { intros last El. pose proof (to_evidence _ Ht) as He. unfold evidence_ok in He.
    rewrite El in He. by destruct He as (_ & _ & ? & _). }
  unfold newer. destruct (rt_LastDecision t) as [last|] eqn:El.
  2: { split.
    - intros (Hm & Hz & [= <- <-]%(eq_trans (eq_sym (f_equal Ok (Ha Hm))))). right. auto 10.
    - intros [(? & ? & ?)|(? & Hm & ? & [(? & ? & ? & ? & ?)|(-> & ? & ->)])]; [done..|].
      split_and!; try done. f_equal. auto. }
  rewrite (Hlast last) by done. simpl. unfold Before, TimeEqual.
  destruct (Z.ltb_spec (t_ns (rd_EvaluatedAt d)) (t_ns (rd_EvaluatedAt last))) as [Hlt|Hge].
  { split.
    - intros (? & ? & [= <- <-]). right. split_and!; try done. left. eauto.
    - intros [(? & ? & ?)|(? & ? & ? & [(-> & -> & _)|(_ & ? & _)])]; [done|done|lia]. }
  destruct (Z.eqb_spec (t_ns (rd_EvaluatedAt d)) (t_ns (rd_EvaluatedAt last))) as [He|Hne].
  { split; [by intros (_ & _ & ?)|].
    intros [(_ & _ & ?)|(? & ? & ? & [(? & ? & ? & [= ->] & ?)|(? & ? & ?)])]; [done|lia|lia]. }
  split.
  - intros (Hm & Hz & [= <- <-]%(eq_trans (eq_sym (f_equal Ok (Ha Hm))))). right.
    split_and!; try done. right. split_and!; try done. lia.
  - intros [(_ & _ & ?)|(? & Hm & ? & [(? & ? & ? & [= ->] & ?)|(-> & ? & ->)])]; [done|lia|].
    split_and!; try done. f_equal. auto.
Qed.

Lemma apply_decision_ok t d :
  is_uint64 (rt_Generation t) → rt_Generation t ≠ max_uint64 →
  track_ok t → decision_ok d → IsZero (rd_EvaluatedAt d) = false →
  track_ok (apply_decision t d) ∧ is_uint64 (rt_Generation (apply_decision t d)).
Proof.
  intros Hg Hm Ht Hd Hz. split; [|by apply wrap64_succ].
  destruct Ht as [H1 H2 H3 H4 H5 H6 _]. pose proof (do_revision _ Hd) as Hr.
  constructor; simpl; try done.
  - destruct (_ && _); auto with go.
  - destruct (_ && _); [by left|auto with go].
  - unfold evidence_ok, pending, applied; simpl. unfold is_uint64 in Hg.
    split_and!; [lia|done|done|].
    destruct (rd_Accepted d); simpl; [|by left].
    case_bool_decide as Em; [by right|]. left. split; [done|]. by intros.
Qed.

Lemma consider_preserves t d t' c :
  is_uint64 (rt_Generation t) → ConsiderReleaseDecision t d = Ok (t', c) →
  track_ok t' ∧ is_uint64 (rt_Generation t').
Proof.
  intros Hg (Ht & Hd & H)%consider_iff; [|done].
  destruct H as [(_ & -> & _)|(_ & Hm & Hz & [(_ & -> & _)|(_ & _ & ->)])]; [done|done|].
  by apply apply_decision_ok.
Qed.

(** Promotion of a valid track, branch by branch. *)
Lemma promote_iff t r t' :
  is_uint64 (rt_Generation t) →
  PromoteReleaseRevision t r = Ok t' ↔
  track_ok t ∧ rt_Mode t = ReleaseModePinned ∧ promotable t r ∧
  ((rt_CandidateRevisionID t = "" ∧ rt_CurrentRevisionID t = r ∧ t' = t) ∨
   (rt_CandidateRevisionID t = r ∧ rt_Generation t ≠ max_uint64 ∧
    t' = MkReleaseTrack (rt_ID t) (rt_ContractID t) (rt_BoundRef t) (rt_Mode t)
           (rt_Generation t + 1) r "" (rt_LastDecision t))).
Proof.
  intros Hg. unfold PromoteReleaseRevision, validateCanonicalReleaseIdentity, validateCanonicalIdentity.
  rewrite !seq_ok, !throw_if_ok, ValidateReleaseTrack_ok, ValidateCanonicalIdentity_required, negb_false_iff,
    bool_decide_eq_true.
  apply and_iff_under; intros Ht. apply and_iff_under; intros Hp.
  pose proof (to_evidence _ Ht) as He. unfold evidence_ok, promotable in *.
  destruct (rt_LastDecision t) as [d|]; [|split; [by intros (_ & ? & _)|by intros [(? & ? & _) _]]].
  destruct He as (_ & [Hr _ _ _ Ha _] & _).
  rewrite !orb_false_iff, !negb_false_iff, !bool_decide_eq_true.
  destruct (bool_decide (rt_CandidateRevisionID t = "") && bool_decide (rt_CurrentRevisionID t = r)) eqn:Hn.
  - bool_prop. split.
    + intros (? & ((? & ?) & ?) & [= <-]). eauto 10.
    + intros ((d' & [= <-] & ? & <-) & [(_ & _ & ->)|(E & _)]); [split_and!; auto|].
      exfalso. rewrite E in *. by apply canonical_nonempty in Hr.
  - rewrite !seq_ok, !throw_if_ok, negb_false_iff, bool_decide_eq_true, Z.eqb_neq. split.
    + intros (? & ((? & ?) & ?) & -> & Hm & [= <-]).
      destruct (wrap64_succ _ Hg Hm) as [-> _]. eauto 10.
    + intros ((d' & [= <-] & ? & <-) & [(E1 & E2 & _)|(E & Hm & ->)]).
      * by rewrite E1, E2, !bool_decide_eq_true_2 in Hn.
      * destruct (wrap64_succ _ Hg Hm) as [-> _]. split_and!; auto.
Qed.

Lemma promote_preserves t r t' :
  is_uint64 (rt_Generation t) → PromoteReleaseRevision t r = Ok t' →
  track_ok t' ∧ is_uint64 (rt_Generation t').
Proof.
  intros Hg (Ht & Hp & (d & El & Ha & Er) & H)%promote_iff; [|done].
  destruct H as [(_ & _ & ->)|(Ec & Hm & ->)]; [done|]. split; [|by apply wrap64_succ].
  destruct Ht as [H1 H2 H3 H4 H5 H6 H7]. constructor; simpl; try done; [by rewrite <-Ec|by left|].
  unfold evidence_ok, pending, applied in *. simpl. rewrite El in *. unfold is_uint64 in Hg.
  destruct H7 as (? & ? & ? & _). split_and!; [lia|done|done|]. by right.
Qed.

Lemma step_preserves t e t' :
  is_uint64 (rt_Generation t) → release_step t e t' → track_ok t' ∧ is_uint64 (rt_Generation t').
Proof. intros Hg []; [by eapply consider_preserves|by eapply promote_preserves]. Qed.

#[export] Hint Resolve consider_preserves promote_preserves step_preserves : go.

Lemma step_identity t e t' :
  is_uint64 (rt_Generation t) → release_step t e t' →
  rt_ID t' = rt_ID t ∧ rt_ContractID t' = rt_ContractID t ∧ rt_Mode t' = rt_Mode t
  ∧ rt_BoundRef t' = rt_BoundRef t ∧ rt_Generation t ≤ rt_Generation t'.
Proof.
  intros Hg [d t1 H|r t1 H].
  - apply consider_iff in H as (_ & _ & [(? & ? & ?)|(_ & _ & _ & [(? & ? & ?)|(_ & _ & ->)])]); try done.
    simpl. split_and!; try done. lia.
  - apply promote_iff in H as (_ & _ & _ & [(_ & _ & ->)|(_ & _ & ->)]); try done;
      simpl; split_and!; try done; lia.
Qed.

(** What a step may serve: the revision already served, or that of an
    accepted decision seen before or with the step. *)
Lemma step_serves t e t' :
  is_uint64 (rt_Generation t) → release_step t e t' →
  (rt_CurrentRevisionID t' = rt_CurrentRevisionID t ∨
   ∃ d, rt_LastDecision t' = Some d ∧ rd_Accepted d = true ∧ rd_Verdict d = VerdictPass
        ∧ rd_RevisionID d = rt_CurrentRevisionID t')
  ∧ (rt_LastDecision t' = rt_LastDecision t ∨ ∃ d, e = EvDecision d ∧ rt_LastDecision t' = Some d).
Proof.
  intros Hg [d t1 H|r t1 H].
  - apply consider_iff in H as (_ & Hd & [(? & ? & ?)|(_ & _ & _ & [(? & ? & ?)|(_ & _ & ->)])]); try done.
    split; [|right; eauto]. simpl. destruct (rd_Accepted d) eqn:Ha; [|by left].
    case_bool_decide; [right|by left]. eauto 10 using do_accepted.
  - apply promote_iff in H as (Ht & _ & (d & El & Ha & <-) & [(_ & _ & ->)|(_ & _ & ->)]);
      [by auto|simpl|done].
    split; [|by left]. right. exists d. split_and!; try done.
    pose proof (to_evidence _ Ht) as He. unfold evidence_ok in He. rewrite El in He.
    destruct He as (_ & [] & _). auto.
Qed.

Lemma decisions_snoc es e :
  decisions (es ++ [e]) = decisions es ++ decisions [e].
Proof. apply omap_app. Qed.

Lemma history_inv t0 es t :
  is_uint64 (rt_Generation t0) → track_ok t0 → history t0 es t →
  track_ok t ∧ is_uint64 (rt_Generation t) ∧ rt_Generation t0 ≤ rt_Generation t
  ∧ rt_ID t = rt_ID t0 ∧ rt_ContractID t = rt_ContractID t0
  ∧ (∀ d, rt_LastDecision t = Some d → d ∈ seen t0 (decisions es))
  ∧ (rt_CurrentRevisionID t = rt_CurrentRevisionID t0 ∨
     ∃ d, d ∈ seen t0 (decisions es) ∧ rd_Accepted d = true ∧ rd_Verdict d = VerdictPass
          ∧ rd_RevisionID d = rt_CurrentRevisionID t).
Proof.
  intros Hg Ht0. induction 1 as [|es e t t' _ IH Hs].
  { split; [done|split; [done|split; [lia|]]]. split_and!; try done; [|by left].
    intros d E. unfold seen. rewrite E. by left. }
  destruct IH as (Ht & Hg' & Hle & Hid & Hc & Hlast & Hcur).
  destruct (step_preserves _ _ _ Hg' Hs) as [Hok Hg2].
  destruct (step_identity _ _ _ Hg' Hs) as (-> & -> & _ & _ & Hle').
  destruct (step_serves _ _ _ Hg' Hs) as [Hserve Hl].
  assert (Hseen : ∀ d, d ∈ seen t0 (decisions es) → d ∈ seen t0 (decisions (es ++ [e]))).
  { intros d. rewrite decisions_snoc. unfold seen. rewrite !elem_of_app. tauto. }
  assert (Hl' : ∀ d, rt_LastDecision t' = Some d → d ∈ seen t0 (decisions (es ++ [e]))).
  { intros d E. destruct Hl as [Hl|(d' & -> & E')]; [rewrite Hl in E; auto|].
    rewrite decisions_snoc. unfold seen. rewrite !elem_of_app. right; right.
    rewrite E' in E. injection E as <-. by left. }
  split; [done|split; [done|split; [lia|]]]. split_and!; try done.
  destruct Hserve as [->|(d & E & ? & ? & ?)]; [|right; by eauto 10].
  destruct Hcur as [->|(d & ? & ?)]; [by left|right]. eauto.
Qed.

Definition latest (t : ReleaseTrack) (ds : list ReleaseDecision) : Prop :=
  match rt_LastDecision t with
  | None => ds = []
  | Some last => last ∈ ds ∧ ∀ d, d ∈ ds → t_ns (rd_EvaluatedAt d) ≤ t_ns (rd_EvaluatedAt last)
  end.

Lemma latest_older t d past last :
  latest t past → rt_LastDecision t = Some last →
  t_ns (rd_EvaluatedAt d) ≤ t_ns (rd_EvaluatedAt last) → latest t (past ++ [d]).
Proof.
  unfold latest. intros Hp El Hle. rewrite El in *. destruct Hp as [? Hp].
  split; [set_solver|]. intros d' [?| ->%list_elem_of_singleton]%elem_of_app; auto.
Qed.

(** One delivery of a timely decision never fails and keeps the newest. *)
Lemma consider_latest t d past :
  is_uint64 (rt_Generation t) → rt_Generation t ≠ max_uint64 →
  track_ok t → decision_ok d → IsZero (rd_EvaluatedAt d) = false → latest t past →
  (∀ last, rt_LastDecision t = Some last →
     t_ns (rd_EvaluatedAt last) = t_ns (rd_EvaluatedAt d) → last = d) →
  ∃ t' c, ConsiderReleaseDecision t d = Ok (t', c) ∧ latest t' (past ++ [d])
          ∧ rt_Generation t' ≤ rt_Generation t + 1.
Proof.
  intros Hg Hm Ht Hd Hz Hpast Hdist.
  assert (Hnew : rt_LastDecision t ≠ Some d → newer t d → ∃ t' c, ConsiderReleaseDecision t d = Ok (t', c)
    ∧ latest t' (past ++ [d]) ∧ rt_Generation t' ≤ rt_Generation t + 1).
  { intros Hne Hn. exists (apply_decision t d), true. split; [apply consider_iff; auto 10|].
    split; [|simpl; lia]. unfold latest, newer in *. simpl. split; [set_solver|].
    intros d' [Hin| ->%list_elem_of_singleton]%elem_of_app; [|lia].
    destruct (rt_LastDecision t) as [last|]; [|set_solver]. destruct Hpast as [_ Hle].
    specialize (Hle _ Hin). lia. }
  destruct (rt_LastDecision t) as [last|] eqn:El; [|apply Hnew; [done|by unfold newer; rewrite El]].
  destruct (Z.lt_trichotomy (t_ns (rd_EvaluatedAt last)) (t_ns (rd_EvaluatedAt d))) as [Hlt|[He|Hgt]].
  - apply Hnew; [intros [= ->]; lia|by unfold newer; rewrite El].
  - assert (last = d) as -> by auto. exists t, false. split; [|split; [|lia]].
    + apply consider_iff; [done|]. split_and!; [done..|]. by left.
    + eapply latest_older; [done|done|lia].
  - exists t, false. split; [|split; [|lia]].
    + apply consider_iff; [done|]. split_and!; [done..|]. right. rewrite El.
      split_and!; try done; [intros [= ->]; lia|]. left. eauto.
    + eapply latest_older; [done|done|lia].
Qed.

Lemma deliver_latest ds t past :
  is_uint64 (rt_Generation t) → rt_Generation t + Z.of_nat (length ds) ≤ max_uint64 →
  track_ok t → latest t past →
  Forall (λ d, decision_ok d ∧ IsZero (rd_EvaluatedAt d) = false) ds →
  (∀ d1 d2, d1 ∈ past ++ ds → d2 ∈ past ++ ds →
     t_ns (rd_EvaluatedAt d1) = t_ns (rd_EvaluatedAt d2) → d1 = d2) →
  ∃ t', deliver t ds = Ok t' ∧ latest t' (past ++ ds).
Proof.
  revert t past. induction ds as [|d ds IH]; intros t past Hg Hm Ht Hpast Hok Hdist.
  { exists t. by rewrite app_nil_r. }
  apply Forall_cons in Hok as [[Hd Hz] Hok]. simpl in Hm.
  destruct (consider_latest t d past) as (t' & c & E & Hl & Hle); try done; [lia| |].
  { intros last El ?. apply Hdist; [|set_solver|done].
    unfold latest in Hpast. rewrite El in Hpast. set_solver. }
  destruct (consider_preserves _ _ _ _ Hg E) as [Ht' Hg'].
  destruct (IH t' (past ++ [d])) as (t'' & E' & Hl'); try done; [lia|by rewrite <-app_assoc|].
  exists t''. unfold deliver. simpl. rewrite E. by rewrite <-app_assoc in Hl'.
Qed.

Lemma latest_start t : latest t (option_list (rt_LastDecision t)).
Proof.
  unfold latest. destruct (rt_LastDecision t) as [d|]; [|done]. simpl.
  split; [by left|]. intros d' ->%list_elem_of_singleton. lia.
Qed.

Definition with_mode (t : ReleaseTrack) (mode : string) : ReleaseTrack :=
  MkReleaseTrack (rt_ID t) (rt_ContractID t) (rt_BoundRef t) mode (rt_Generation t)
    (rt_CurrentRevisionID t) (rt_CandidateRevisionID t) (rt_LastDecision t).

(** ** Sample data for the witnesses *)

Definition at_second (n : Z) : Time := MkTime (t_ns unix_epoch + n * 1000000000) LocUTC.

Definition sample_decision (rev : string) (accepted : bool) (n : Z) : ReleaseDecision :=
  MkReleaseDecision rev "review-1" (sha256Hex (bytes_of rev))
    (if accepted then VerdictPass else VerdictFail) accepted (at_second n).

Definition sample_track (mode : string) : ReleaseTrack :=
  MkReleaseTrack "track-1" "contract-1" "refs/heads/main" mode 0 "rev-0" "" None.

(** ** Properties *)

(** Every step of a release track, a decision that takes effect or a
    promotion, leads from a track with a 64-bit generation to a track that
    [ValidateReleaseTrack] accepts, again with a 64-bit generation: the
    generation never wraps around. *)
Theorem release_step_preserves_validity t e t' :
  is_uint64 (rt_Generation t) → release_step t e t' →
  ValidateReleaseTrack t' = Ok tt ∧ is_uint64 (rt_Generation t').
Proof.
  intros Hg Hs. destruct (step_preserves _ _ _ Hg Hs) as [Ht Hg'].
  split; [by apply ValidateReleaseTrack_ok|done].
Qed.

Lemma release_step_preserves_validity_witness :
  let t := sample_track ReleaseModePinned in
  let d := sample_decision "rev-1" true 5 in
  ValidateReleaseTrack (apply_decision t d) = Ok tt ∧ is_uint64 (rt_Generation (apply_decision t d)).
Proof.
  intros t d. apply (release_step_preserves_validity t (EvDecision d)).
  - unfold is_uint64, max_uint64. simpl. lia.
  - constructor. vm_compute. reflexivity.
Defined.

(** What the check of a persisted mutation accepts. *)
Lemma transition_inv current next :
  is_uint64 (rt_Generation current) →
  ValidateReleaseTrackTransition current next = Ok tt →
  ValidateReleaseTrack current = Ok tt ∧ (next = current ∨ ∃ e, release_step current e next).
Proof.
  intros Hg. unfold ValidateReleaseTrackTransition.
  rewrite !seq_ok, !wrap_err_ok, throw_if_ok. intros (Hc & _ & _ & H). split; [done|].
  case_bool_decide as E; [by left|right].
  destruct (rt_LastDecision next) as [dn|] eqn:En; [|by destruct (rt_LastDecision current)].
  assert (Hconsider : (r ← wrap_err (ConsiderReleaseDecision current dn)
        (λ e, Errorf "validate persisted release decision: %w" [EErr e]);
      throw_if (negb r.2 || negb (bool_decide (r.1 = next)))
        (Errorf "persisted release track mutation does not match the authoritative decision" [])) = Ok tt
    → ∃ e, release_step current e next).
  { intros Hr. go_inv. destruct a as [t c]. simpl in *. subst. exists (EvDecision dn). by constructor. }
  destruct (rt_LastDecision current) as [dc|]; [|auto].
  case_bool_decide; [|auto]. destruct (_ && _); [|done].
  destruct (PromoteReleaseRevision _ _) as [p|] eqn:Ep; [|done]. case_bool_decide; [subst|done].
  eexists (EvPromote _). by constructor.
Qed.

(** A step leaves the track alone or raises its generation by one. *)
Lemma step_generation t e t' :
  is_uint64 (rt_Generation t) → release_step t e t' →
  t' = t ∨ rt_Generation t' = rt_Generation t + 1.
Proof.
  intros Hg [d t1 H|r t1 H].
  - apply consider_iff in H as (_ & _ & [(_ & -> & _)|(_ & _ & _ & [(_ & -> & _)|(_ & _ & ->)])]); [by left..|by right|done].
  - apply promote_iff in H as (_ & _ & _ & [(_ & _ & ->)|(_ & _ & ->)]); [by left|by right|done].
Qed.

(** The check a store applies before persisting a mutation is exact: it
    accepts [next] over [current] precisely when the current track is valid
    and [next] is the same track or the result of one domain transition
    ([ConsiderReleaseDecision] taking effect or [PromoteReleaseRevision]). *)
Theorem release_transition_check_exact current next :
  is_uint64 (rt_Generation current) →
  ValidateReleaseTrackTransition current next = Ok tt ↔
  ValidateReleaseTrack current = Ok tt ∧ (next = current ∨ ∃ e, release_step current e next).
Proof.
  intros Hg. split.
  - by apply transition_inv.
  - rewrite ValidateReleaseTrack_ok. intros [Hc Hn].
    assert (Hnext : track_ok next ∧ rt_ID next = rt_ID current ∧ rt_ContractID next = rt_ContractID current).
    { destruct Hn as [->|[e Hs]]; [done|]. destruct (step_identity _ _ _ Hg Hs) as (? & ? & _).
      by destruct (step_preserves _ _ _ Hg Hs). }
    destruct Hnext as (Hok & Hid & Hct). unfold ValidateReleaseTrackTransition. rewrite Hid, Hct. clear Hid Hct. rewrite !seq_ok, !wrap_err_ok, !ValidateReleaseTrack_ok, throw_if_ok.
    split_and!; try done; [by rewrite !bool_decide_eq_true_2|].
    case_bool_decide as E; [done|]. destruct Hn as [?|[e Hs]]; [congruence|].
    destruct Hs as [d n H|r n H].
    + pose proof H as H'. apply consider_iff in H as (_ & _ & [(? & ? & ?)|(Hne & _ & _ & [(? & ? & ?)|(_ & _ & Ed)])]);
        [done|done| |done].
      rewrite Ed in *. simpl rt_LastDecision. cbv zeta.
      destruct (rt_LastDecision current) as [dc|]; cbv beta iota;
        [rewrite bool_decide_eq_false_2 by congruence|];
        rewrite H'; cbn [wrap_err mbind res_bind fst snd]; by rewrite bool_decide_eq_true_2.
    + pose proof H as H'. apply promote_iff in H as (_ & Hp & (d & El & Ha & Er) & [(_ & _ & ->)|(Ecand & _ & En)]);
        [done| |done].
      assert (Eln : rt_LastDecision n = Some d) by (by rewrite En). clear En.
      rewrite El, Eln. cbv zeta beta iota. rewrite bool_decide_eq_true_2 by done.
      rewrite Hp, Ecand, H', (bool_decide_eq_true_2 (n = n)) by done.
      assert (r ≠ "") as Hr; [|by rewrite (bool_decide_eq_false_2 (r = ""))].
      pose proof (to_evidence _ Hc) as Hev. unfold evidence_ok in Hev. rewrite El in Hev.
      destruct Hev as (_ & [] & _). subst r. by apply canonical_nonempty.
Qed.

Lemma release_transition_check_exact_witness :
  ValidateReleaseTrackTransition (sample_track ReleaseModeFollowing)
    (apply_decision (sample_track ReleaseModeFollowing) (sample_decision "rev-1" true 5)) = Ok tt.
Proof.
  apply (release_transition_check_exact (sample_track ReleaseModeFollowing)).
  - unfold is_uint64, max_uint64. simpl. lia.
  - split; [vm_compute; reflexivity|]. right. exists (EvDecision (sample_decision "rev-1" true 5)).
    constructor. vm_compute. reflexivity.
Defined.

(** C1: through any history of decisions and promotions from a valid track,
    the track stays valid and keeps its identity, its generation never goes
    back, and it serves either the revision it started with or the revision
    of a passing, accepted decision that it held at the start or received
    since: a rejected or unreviewed revision is never served. *)
Theorem release_serves_only_accepted t0 es t :
  is_uint64 (rt_Generation t0) → ValidateReleaseTrack t0 = Ok tt → history t0 es t →
  ValidateReleaseTrack t = Ok tt ∧ rt_ID t = rt_ID t0 ∧ rt_ContractID t = rt_ContractID t0
  ∧ rt_Generation t0 ≤ rt_Generation t
  ∧ (rt_CurrentRevisionID t = rt_CurrentRevisionID t0 ∨
     ∃ d, d ∈ seen t0 (decisions es) ∧ rd_Accepted d = true ∧ rd_Verdict d = VerdictPass
          ∧ rd_RevisionID d = rt_CurrentRevisionID t).
Proof.
  rewrite !ValidateReleaseTrack_ok. intros Hg Ht0 Hh.
  destruct (history_inv _ _ _ Hg Ht0 Hh) as (? & _ & ? & ? & ? & _ & ?). by split_and!.
Qed.

Lemma release_serves_only_accepted_witness :
  let t0 := sample_track ReleaseModePinned in
  let d := sample_decision "rev-1" true 5 in
  let t := MkReleaseTrack "track-1" "contract-1" "refs/heads/main" ReleaseModePinned 2 "rev-1" "" (Some d) in
  ValidateReleaseTrack t = Ok tt ∧ rt_ID t = rt_ID t0 ∧ rt_ContractID t = rt_ContractID t0
  ∧ rt_Generation t0 ≤ rt_Generation t
  ∧ (rt_CurrentRevisionID t = rt_CurrentRevisionID t0 ∨
     ∃ d', d' ∈ seen t0 (decisions ([EvDecision d] ++ [EvPromote "rev-1"])) ∧ rd_Accepted d' = true
       ∧ rd_Verdict d' = VerdictPass ∧ rd_RevisionID d' = rt_CurrentRevisionID t).
Proof.
  intros t0 d t. apply release_serves_only_accepted.
  - unfold is_uint64, max_uint64. simpl. lia.
  - vm_compute. reflexivity.
  - apply (history_snoc _ _ _ (apply_decision t0 d)).
    + apply (history_snoc _ [] _ t0); [constructor|]. constructor. vm_compute. reflexivity.
    + constructor. vm_compute. reflexivity.
Defined.

(** The latest decision wins, whatever the order of arrival.  Valid, timed
    decisions with distinct times delivered to a valid track are never
    refused, and the evidence the track ends with is the newest of all the
    decisions it has seen. *)
Theorem release_latest_decision_wins t ds :
  is_uint64 (rt_Generation t) → rt_Generation t + Z.of_nat (length ds) ≤ max_uint64 →
  ValidateReleaseTrack t = Ok tt →
  Forall (λ d, validateReleaseDecision d = Ok tt ∧ IsZero (rd_EvaluatedAt d) = false) ds →
  (∀ d1 d2, d1 ∈ seen t ds → d2 ∈ seen t ds →
     t_ns (rd_EvaluatedAt d1) = t_ns (rd_EvaluatedAt d2) → d1 = d2) →
  ∃ t', deliver t ds = Ok t' ∧
    match rt_LastDecision t' with
    | None => seen t ds = []
    | Some last => last ∈ seen t ds ∧
        ∀ d, d ∈ seen t ds → t_ns (rd_EvaluatedAt d) ≤ t_ns (rd_EvaluatedAt last)
    end.
Proof.
  rewrite ValidateReleaseTrack_ok. setoid_rewrite validateReleaseDecision_ok.
  intros Hg Hn Ht Hds Hdist. by apply (deliver_latest ds t (option_list (rt_LastDecision t)));
    [..|apply latest_start|done|].
Qed.

Lemma release_latest_decision_wins_witness :
  let t := sample_track ReleaseModeFollowing in
  let ds := [sample_decision "rev-2" false 9; sample_decision "rev-1" true 5] in
  ∃ t', deliver t ds = Ok t' ∧
    match rt_LastDecision t' with
    | None => seen t ds = []
    | Some last => last ∈ seen t ds ∧
        ∀ d, d ∈ seen t ds → t_ns (rd_EvaluatedAt d) ≤ t_ns (rd_EvaluatedAt last)
    end.
Proof.
  intros t ds. apply release_latest_decision_wins.
  - unfold is_uint64, max_uint64. simpl. lia.
  - unfold max_uint64. simpl. lia.
  - vm_compute. reflexivity.
  - repeat constructor.
  - intros d1 d2 H1 H2 E. unfold seen, t, ds in *. simpl in *.
    apply elem_of_cons in H1 as [->|H1], H2 as [->|H2];
      try apply list_elem_of_singleton in H1 as ->; try apply list_elem_of_singleton in H2 as ->;
      reflexivity || (vm_compute in E; discriminate E).
Defined.

(** Promoting by hand is following with a pause.  An accepted decision
    that takes effect on a pinned track can always be promoted while
    generations remain, and the promoted track agrees with what a following
    track makes of the same decision, one generation later. *)
Theorem release_pinned_promotion_follows t d t1 :
  rt_Mode t = ReleaseModePinned → 0 ≤ rt_Generation t → rt_Generation t + 2 ≤ max_uint64 →
  ValidateReleaseTrack (with_mode t ReleaseModeFollowing) = Ok tt →
  rd_Accepted d = true → ConsiderReleaseDecision t d = Ok (t1, true) →
  ∃ f, ConsiderReleaseDecision (with_mode t ReleaseModeFollowing) d = Ok (f, true) ∧
    PromoteReleaseRevision t1 (rd_RevisionID d) =
      Ok (MkReleaseTrack (rt_ID f) (rt_ContractID f) (rt_BoundRef f) ReleaseModePinned
            (rt_Generation f + 1) (rt_CurrentRevisionID f) (rt_CandidateRevisionID f) (rt_LastDecision f)).
Proof.
  rewrite ValidateReleaseTrack_ok. intros Hm H0 Hmax Hf Ha H.
  assert (Hg : is_uint64 (rt_Generation t)) by (unfold is_uint64; lia).
  pose proof (consider_preserves _ _ _ _ Hg H) as [Ht1 Hg1].
  apply consider_iff in H as (_ & Hd & [(? & _)|(Hne & Hgm & Hz & [(? & _)|(_ & Hn & ->)])]); [done|done| |done].
  exists (apply_decision (with_mode t ReleaseModeFollowing) d). split.
  - apply consider_iff; [done|]. split_and!; [done|done|]. right. split_and!; try done. by right.
  - apply promote_iff; [done|]. unfold apply_decision in *. simpl in *. rewrite Ha, Hm in *. simpl in *.
    split_and!; [done|done|by exists d|]. right. split_and!; [done|lia|done].
Qed.

Lemma release_pinned_promotion_follows_witness :
  let t := sample_track ReleaseModePinned in
  let d := sample_decision "rev-1" true 5 in
  ∃ f, ConsiderReleaseDecision (with_mode t ReleaseModeFollowing) d = Ok (f, true) ∧
    PromoteReleaseRevision (apply_decision t d) (rd_RevisionID d) =
      Ok (MkReleaseTrack (rt_ID f) (rt_ContractID f) (rt_BoundRef f) ReleaseModePinned
            (rt_Generation f + 1) (rt_CurrentRevisionID f) (rt_CandidateRevisionID f) (rt_LastDecision f)).
Proof.
  intros t d. apply release_pinned_promotion_follows.
  - reflexivity.
  - simpl. lia.
  - unfold max_uint64. simpl. lia.
  - vm_compute. reflexivity.
  - reflexivity.
  - vm_compute. reflexivity.
Defined.

(** An acceptance made through the source-compatible boolean helper is
    final for that helper: from then on it only replays the same acceptance,
    unchanged, and refuses every rejection and every other revision. *)
Theorem legacy_acceptance_is_final t r t1 r' accepted :
  is_uint64 (rt_Generation t) → canonical r' →
  ConsiderReleaseRevision t r true = Ok t1 →
  ConsiderReleaseRevision t1 r' accepted =
    if accepted && bool_decide (r = r') then Ok t1
    else Fail (Errorf "legacy accepted decision cannot be revoked or superseded" []).
Proof.
  intros Hg Hr' H.
  assert (Hlast : track_ok t1 ∧ ∃ d, rt_LastDecision t1 = Some d ∧ rd_ReviewID d = legacy_review_id
                  ∧ rd_Accepted d = true ∧ rd_RevisionID d = r).
  { unfold ConsiderReleaseRevision in H. go_inv. apply ValidateReleaseTrack_ok in Hok.
    destruct (rt_LastDecision t) as [last|] eqn:El.
    - go_inv. destruct (rd_Accepted last) eqn:Ea.
      + simpl in H. case_bool_decide; [|done]. go_inv. split; [done|]. by exists last.
      + assert (Hs : sameReleaseDecisionWithoutTime last (MkReleaseDecision r legacy_review_id
            (sha256Hex (legacy_preimage r true)) VerdictPass true unix_epoch) = false).
        { unfold sameReleaseDecisionWithoutTime. apply bool_decide_eq_false_2.
          intros E%(f_equal rd_Accepted). simpl in E. congruence. }
        rewrite Hs in H. apply bind_ok in H as ([n c] & H & [= <-]).
        pose proof (consider_preserves _ _ _ _ Hg H) as [Hn _]. split; [done|].
        apply consider_iff in H as (_ & _ & [(_ & _ & E)|(_ & _ & _ & [(_ & _ & ? & E & Hlt)|(_ & _ & ->)])]);
          [| | |done].
        * rewrite El in E. injection E as E%(f_equal rd_Accepted).
          destruct (negb _); simpl in E; congruence.
        * rewrite El in E. injection E as <-.
          pose proof (to_evidence _ Hok) as Hev. unfold evidence_ok in Hev. rewrite El in Hev.
          destruct Hev as (_ & _ & Hz & _). rewrite Hz in Hlt. simpl in Hlt. unfold Nanosecond in Hlt. lia.
        * eexists. split; [done|]. by destruct (negb _).
    - apply bind_ok in H as ([n c] & H & [= <-]).
      pose proof (consider_preserves _ _ _ _ Hg H) as [Hn _]. split; [done|].
      apply consider_iff in H as (_ & _ & [(_ & _ & E)|(_ & _ & _ & [(_ & _ & ? & E & _)|(_ & _ & ->)])]);
        [congruence|congruence| |done]. by eexists. }
  destruct Hlast as (Ht1 & d & El & Hid & Ha & <-). unfold ConsiderReleaseRevision.
  apply ValidateReleaseTrack_ok in Ht1. rewrite Ht1. cbn [mbind res_bind].
  unfold validateCanonicalReleaseIdentity, validateCanonicalIdentity.
  rewrite (proj2 (ValidateCanonicalIdentity_required _ _) Hr'). cbn [mbind res_bind].
  rewrite El, Hid, Ha. by rewrite (bool_decide_eq_true_2 (legacy_review_id = _)).
Qed.

Lemma legacy_acceptance_is_final_witness :
  ∃ t1, ConsiderReleaseRevision (sample_track ReleaseModeFollowing) "rev-1" true = Ok t1 ∧
    ConsiderReleaseRevision t1 "rev-2" true =
      Fail (Errorf "legacy accepted decision cannot be revoked or superseded" []).
Proof.
  eexists. split; [vm_compute; reflexivity|].
  apply (legacy_acceptance_is_final (sample_track ReleaseModeFollowing) "rev-1" _ "rev-2" true).
  - unfold is_uint64, max_uint64. simpl. lia.
  - by apply (ValidateCanonicalIdentity_required "x").
  - vm_compute. reflexivity.
Defined.

(** Delivery is idempotent.  Whatever a decision did to a track, the same
    decision delivered again is accepted and changes nothing, even when the
    generation counter is exhausted. *)
Theorem release_replay_is_noop t d t' c :
  is_uint64 (rt_Generation t) →
  ConsiderReleaseDecision t d = Ok (t', c) → ConsiderReleaseDecision t' d = Ok (t', false).
Proof.
  intros Hg H. pose proof (consider_preserves _ _ _ _ Hg H) as [Ht' Hg'].
  pose proof H as H'. apply consider_iff in H as (_ & Hd & Hcase); [|done].
  destruct Hcase as [(-> & -> & _)|(_ & _ & _ & [(-> & -> & _)|(_ & _ & ->)])]; [done|done|].
  apply consider_iff; [done|]. split_and!; try done. by left.
Qed.

Lemma release_replay_is_noop_witness :
  let t := sample_track ReleaseModeFollowing in
  let d := sample_decision "rev-1" false 5 in
  ConsiderReleaseDecision (apply_decision t d) d = Ok (apply_decision t d, false).
Proof.
  intros t d. apply (release_replay_is_noop t d _ true).
  - unfold is_uint64, max_uint64. simpl. lia.
  - vm_compute. reflexivity.
Defined.
