(* ===== verification/Snapshot.v ===== *)
(** * Contract snapshots (domain/contractsnapshot.go)

    The normalised compatibility surface of a contract revision and its
    digests.  [NewContractSnapshot] extracts it from a specification index;
    [ValidateContractSnapshot] is the check every persisted snapshot passes
    before a comparison trusts it. *)

From stdpp Require Import pretty.
From S2P Require Import Prelude GoString GoSha256 GoTime GoJson Identity Spec.

Record ContractParameter := MkContractParameter {
  cp_Name : string;
  cp_In : string;
  cp_Required : bool;
}.

Record ContractOperation := MkContractOperation {
  co_Method : string;
  co_Path : string;
  co_Parameters : slice ContractParameter;
  co_RequestBodyRequired : bool;
  co_ResponseStatuses : slice string;
}.

Record ContractSnapshot := MkContractSnapshot {
  cs_ContractID : string;
  cs_RevisionID : string;
  cs_SpecDigest : string;
  cs_ContractDigest : string;
  cs_Operations : slice ContractOperation;
  cs_Schemas : slice string;
}.

#[export] Instance ContractParameter_eq_dec : EqDecision ContractParameter.
Proof. solve_decision. Defined.
#[export] Instance ContractOperation_eq_dec : EqDecision ContractOperation.
Proof. solve_decision. Defined.
#[export] Instance ContractSnapshot_eq_dec : EqDecision ContractSnapshot.
Proof. solve_decision. Defined.

#[export] Instance ContractParameter_value : GoValue ContractParameter := λ p, VStruct [
  exported "Name" (cp_Name p); exported "In" (cp_In p); exported "Required" (cp_Required p)].
#[export] Instance ContractOperation_value : GoValue ContractOperation := λ o, VStruct [
  exported "Method" (co_Method o); exported "Path" (co_Path o);
  ("Parameters", "", value_slice (elems (co_Parameters o)));
  exported "RequestBodyRequired" (co_RequestBodyRequired o);
  ("ResponseStatuses", "", value_slice (elems (co_ResponseStatuses o)))].
#[export] Instance ContractSnapshot_value : GoValue ContractSnapshot := λ s, VStruct [
  exported "ContractID" (cs_ContractID s); exported "RevisionID" (cs_RevisionID s);
  exported "SpecDigest" (cs_SpecDigest s); exported "ContractDigest" (cs_ContractDigest s);
  ("Operations", "", value_slice (elems (cs_Operations s)));
  ("Schemas", "", value_slice (elems (cs_Schemas s)))].

(** The keys of the [less] closures. *)
Definition parameter_order (p : ContractParameter) : list okey := [KS (cp_In p); KS (cp_Name p)].
Definition operation_order (o : ContractOperation) : list okey := [KS (co_Method o); KS (co_Path o)].

(** ** The surface digest *)

Definition parameter_json (p : ContractParameter) : json := JObject
  (field "name" (JString (cp_Name p)) ++ field "in" (JString (cp_In p))
   ++ omit_empty (negb (cp_Required p)) "required" (JBool (cp_Required p))).

Definition operation_json (o : ContractOperation) : json := JObject
  (field "method" (JString (co_Method o)) ++ field "path" (JString (co_Path o))
   ++ omit_empty (is_empty (co_Parameters o)) "parameters" (json_slice parameter_json (co_Parameters o))
   ++ omit_empty (negb (co_RequestBodyRequired o)) "requestBodyRequired" (JBool (co_RequestBodyRequired o))
   ++ omit_empty (is_empty (co_ResponseStatuses o)) "responseStatuses"
        (json_slice JString (co_ResponseStatuses o))).

Definition surface_json (operations : slice ContractOperation) (schemas : slice string) : json := JObject
  (field "operations" (json_slice operation_json operations) ++ field "schemas" (json_slice JString schemas)).

(** The bytes the contract digest is taken of. *)
Definition surface_bytes (operations : slice ContractOperation) (schemas : slice string) : list Z :=
  render (surface_json operations schemas).

(** Marshalling strings, booleans and slices of them never fails. *)
Definition contractSurfaceDigest (operations : slice ContractOperation) (schemas : slice string) : res string :=
  mret (sha256Hex (surface_bytes operations schemas)).

Section snapshot.
Context `{CaseTables}.

(** ** Normalisation *)

Definition normalize_parameter (name loc : string) (required : bool) : ContractParameter :=
  MkContractParameter (TrimSpace name) (canonicalLowerSurfaceText loc) required.

Definition normalize_statuses (statuses : list string) : slice string :=
  sort_strings <$> gappend None (filter (λ s, s ≠ "") (TrimSpace <$> statuses)).

Definition normalizeSnapshotOperations (operations : slice ContractOperation) : slice ContractOperation :=
  let cloned operation :=
    MkContractOperation (canonicalUpperSurfaceText (co_Method operation)) (TrimSpace (co_Path operation))
      (sort_slice (less_by parameter_order)
        (gappend None ((λ p, normalize_parameter (cp_Name p) (cp_In p) (cp_Required p))
                         <$> elems (co_Parameters operation))))
      (co_RequestBodyRequired operation)
      (normalize_statuses (elems (co_ResponseStatuses operation))) in
  Some (sort_by (less_by operation_order) (cloned <$> elems operations)).

Definition normalizeSnapshotSchemas (schemas : slice string) : slice string :=
  Some (sort_strings (filter (λ s, s ≠ "") (TrimSpace <$> elems schemas))).

Definition normalizeContractOperations (operations : list Operation) : slice ContractOperation :=
  let normalized operation :=
    MkContractOperation (canonicalUpperSurfaceText (op_Method operation)) (TrimSpace (op_Path operation))
      (sort_slice (less_by parameter_order)
        (gappend None ((λ p, normalize_parameter (par_Name p) (par_In p) (par_Required p))
                         <$> op_Parameters operation)))
      (match op_RequestBody operation with
       | Some body => rb_Required body
       | None => false
       end)
      (normalize_statuses (rsp_Status <$> op_Responses operation)) in
  Some (sort_by (less_by operation_order) (normalized <$> operations)).

Definition normalizeContractSchemas (schemas : list Schema) : slice string :=
  Some (sort_strings (filter (λ s, s ≠ "") (TrimSpace <$> (sch_Name <$> schemas)))).

(** A digest error would make the constructor panic: there is none. *)
Definition NewContractSnapshot (contractID revisionID : string) (raw : list Z) (idx : SpecIndex) : ContractSnapshot :=
  let operations := normalizeContractOperations (ix_Operations idx) in
  let schemas := normalizeContractSchemas (ix_Schemas idx) in
  let digest :=
    match contractSurfaceDigest operations schemas with
    | Ok digest => digest
    | Fail _ => ""
    end in
  MkContractSnapshot contractID revisionID (sha256Hex raw) digest operations schemas.

(** ** Validation *)

Definition validateContractSurfaceIdentities (snapshot : ContractSnapshot) : res unit :=
  for_eachi (λ operationIndex operation,
    let prefix := "contract operation " +:+ pretty operationIndex in
    validateCanonicalIdentity (prefix +:+ " method") (co_Method operation) false ;;
    validateCanonicalIdentity (prefix +:+ " path") (co_Path operation) false ;;
    for_eachi (λ parameterIndex parameter,
      let parameterPrefix := prefix +:+ " parameter " +:+ pretty parameterIndex in
      validateCanonicalIdentity (parameterPrefix +:+ " name") (cp_Name parameter) false ;;
      validateCanonicalIdentity (parameterPrefix +:+ " location") (cp_In parameter) false)
      (elems (co_Parameters operation)) ;;
    for_eachi (λ statusIndex status,
      validateCanonicalIdentity (prefix +:+ " response status " +:+ pretty statusIndex) status false)
      (elems (co_ResponseStatuses operation)))
    (elems (cs_Operations snapshot)) ;;
  for_eachi (λ schemaIndex schema,
    validateCanonicalIdentity ("contract schema " +:+ pretty schemaIndex +:+ " name") schema false)
    (elems (cs_Schemas snapshot)).

Definition validateContractSurfaceUniqueness (snapshot : ContractSnapshot) : res unit :=
  for_unique (λ operation, (canonicalUpperSurfaceText (co_Method operation), TrimSpace (co_Path operation)))
    (λ operationIndex key, Errorf "contract operation %d duplicates canonical operation %s %s"
       [EInt operationIndex; EStr key.1; EStr key.2])
    (λ operationIndex operation,
      for_unique (λ parameter, (TrimSpace (cp_Name parameter), canonicalLowerSurfaceText (cp_In parameter)))
        (λ parameterIndex key,
           Errorf "contract operation %d parameter %d duplicates canonical parameter %s in %s"
             [EInt operationIndex; EInt parameterIndex; EStr key.1; EStr key.2])
        (λ _ _, mret tt) (elems (co_Parameters operation)) ;;
      for_unique TrimSpace
        (λ statusIndex status, Errorf "contract operation %d response status %d duplicates status %s"
           [EInt operationIndex; EInt statusIndex; EStr status])
        (λ _ _, mret tt) (elems (co_ResponseStatuses operation)))
    (elems (cs_Operations snapshot)) ;;
  for_unique TrimSpace
    (λ schemaIndex schema, Errorf "contract schema %d duplicates schema %s" [EInt schemaIndex; EStr schema])
    (λ _ _, mret tt) (elems (cs_Schemas snapshot)).

Definition validateAndCloneContractSnapshot (snapshot : ContractSnapshot) : res ContractSnapshot :=
  validateCanonicalIdentity "contract id" (cs_ContractID snapshot) false ;;
  validateCanonicalIdentity "revision id" (cs_RevisionID snapshot) false ;;
  throw_if (negb (isLowerSHA256 (cs_SpecDigest snapshot)))
    (Errorf "spec digest must be lowercase SHA-256" []) ;;
  throw_if (negb (isLowerSHA256 (cs_ContractDigest snapshot)))
    (Errorf "contract digest must be lowercase SHA-256" []) ;;
  validateContractSurfaceIdentities snapshot ;;
  validateContractSurfaceUniqueness snapshot ;;
  let normalizedOperations := normalizeSnapshotOperations (cs_Operations snapshot) in
  let normalizedSchemas := normalizeSnapshotSchemas (cs_Schemas snapshot) in
  throw_if (negb (bool_decide (cs_Operations snapshot = normalizedOperations))
            || negb (bool_decide (cs_Schemas snapshot = normalizedSchemas)))
    (Errorf "contract snapshot surface must be normalized and sorted" []) ;;
  recomputedDigest ← wrap_err (contractSurfaceDigest normalizedOperations normalizedSchemas)
    (λ e, Errorf "recompute contract digest: %w" [EErr e]);
  throw_if (negb (bool_decide (cs_ContractDigest snapshot = recomputedDigest)))
    (Errorf "contract digest %q does not match normalized surface digest %q"
       [EStr (cs_ContractDigest snapshot); EStr recomputedDigest]) ;;
  mret (MkContractSnapshot (cs_ContractID snapshot) (cs_RevisionID snapshot) (cs_SpecDigest snapshot)
          (cs_ContractDigest snapshot) normalizedOperations normalizedSchemas).

Definition ValidateContractSnapshot (snapshot : ContractSnapshot) : res unit :=
  validateAndCloneContractSnapshot snapshot ;; mret tt.
End snapshot.

(** ** What a valid snapshot is *)

(** A slice the normaliser could have built: nil rather than empty. *)
Definition compact {A} (s : slice A) : Prop := s ≠ Some [].

Section spec.
Context `{CaseTables}.

Record parameter_ok (p : ContractParameter) : Prop := {
  po_name : canonical (cp_Name p);
  po_in : canonical (cp_In p);
  po_lower : canonicalLowerSurfaceText (cp_In p) = cp_In p;
}.

Record operation_ok (o : ContractOperation) : Prop := {
  oo_method : canonical (co_Method o);
  oo_path : canonical (co_Path o);
  oo_upper : canonicalUpperSurfaceText (co_Method o) = co_Method o;
  oo_parameters : Forall parameter_ok (elems (co_Parameters o));
  oo_parameters_sorted : strictly_sorted parameter_order (elems (co_Parameters o));
  oo_parameters_compact : compact (co_Parameters o);
  oo_statuses : Forall canonical (elems (co_ResponseStatuses o));
  oo_statuses_sorted : strictly_sorted (λ s, [KS s]) (elems (co_ResponseStatuses o));
  oo_statuses_compact : compact (co_ResponseStatuses o);
}.

Record surface_ok (operations : slice ContractOperation) (schemas : slice string) : Prop := {
  su_operations : Forall operation_ok (elems operations);
  su_operations_sorted : strictly_sorted operation_order (elems operations);
  su_operations_some : operations ≠ None;
  su_schemas : Forall canonical (elems schemas);
  su_schemas_sorted : strictly_sorted (λ s, [KS s]) (elems schemas);
  su_schemas_some : schemas ≠ None;
}.

Record snapshot_ok (s : ContractSnapshot) : Prop := {
  sn_contract : canonical (cs_ContractID s);
  sn_revision : canonical (cs_RevisionID s);
  sn_spec : isLowerSHA256 (cs_SpecDigest s) = true;
  sn_surface : surface_ok (cs_Operations s) (cs_Schemas s);
  sn_digest : cs_ContractDigest s = sha256Hex (surface_bytes (cs_Operations s) (cs_Schemas s));
}.
End spec.

(** ** Lemmas *)

Section lemmas.
Context `{CaseTables, !CaseLaws}.

Definition parameter_canonical (p : ContractParameter) : Prop :=
  canonical (cp_Name p) ∧ canonical (cp_In p).

Definition operation_canonical (o : ContractOperation) : Prop :=
  canonical (co_Method o) ∧ canonical (co_Path o)
  ∧ Forall parameter_canonical (elems (co_Parameters o))
  ∧ Forall canonical (elems (co_ResponseStatuses o)).

Lemma identities_ok s :
  validateContractSurfaceIdentities s = Ok tt ↔
  Forall operation_canonical (elems (cs_Operations s)) ∧ Forall canonical (elems (cs_Schemas s)).
Proof.
  unfold validateContractSurfaceIdentities, validateCanonicalIdentity. rewrite seq_ok.
  rewrite (for_eachi_ok_Forall _ operation_canonical), (for_eachi_ok_Forall _ canonical); [done| |].
  - intros i x. apply ValidateCanonicalIdentity_required.
  - intros i o. unfold operation_canonical.
    rewrite !seq_ok, !ValidateCanonicalIdentity_required.
    rewrite (for_eachi_ok_Forall _ parameter_canonical), (for_eachi_ok_Forall _ canonical); [done| |].
    + intros j x. apply ValidateCanonicalIdentity_required.
    + intros j p. by rewrite seq_ok, !ValidateCanonicalIdentity_required.
Qed.

Definition operation_unique (o : ContractOperation) : Prop :=
  NoDup ((λ p, (TrimSpace (cp_Name p), canonicalLowerSurfaceText (cp_In p))) <$> elems (co_Parameters o))
  ∧ NoDup (TrimSpace <$> elems (co_ResponseStatuses o)).

Lemma for_unique_plain {A K} `{Countable K} (key : A → K) dup l :
  for_unique key dup (λ _ _, mret tt) l = Ok tt ↔ NoDup (key <$> l).
Proof.
  rewrite (for_unique_ok_Forall _ _ _ (λ _, True)) by done.
  split; [by intros []|]. intros Hn. split; [done|by apply Forall_true].
Qed.

Lemma uniqueness_ok s :
  validateContractSurfaceUniqueness s = Ok tt ↔
  (NoDup ((λ o, (canonicalUpperSurfaceText (co_Method o), TrimSpace (co_Path o))) <$> elems (cs_Operations s))
   ∧ Forall operation_unique (elems (cs_Operations s)))
  ∧ NoDup (TrimSpace <$> elems (cs_Schemas s)).
Proof.
  unfold validateContractSurfaceUniqueness. rewrite seq_ok, for_unique_plain.
  rewrite (for_unique_ok_Forall _ _ _ operation_unique); [done|].
  intros i o. by rewrite seq_ok, !for_unique_plain.
Qed.

(** Normalisation of canonical text is stable. *)

Lemma statuses_canonical l :
  Forall canonical l → filter (λ s, s ≠ "") (TrimSpace <$> l) = l.
Proof.
  induction 1 as [|s l Hs _ IH]; [done|].
  rewrite fmap_cons, (canonical_trim _ Hs), filter_cons_True by by apply canonical_nonempty.
  by rewrite IH.
Qed.

Lemma normalize_statuses_canonical s :
  Forall canonical (elems s) → normalize_statuses (elems s) = gappend None (sort_strings (elems s)).
Proof.
  intros Hs. unfold normalize_statuses. rewrite statuses_canonical by done.
  rewrite !gappend_None. destruct (elems s) as [|x l] eqn:E; [done|]. simpl.
  destruct (sort_strings (x :: l)) eqn:E'; [|by rewrite <-E'].
  apply (f_equal length) in E'. unfold sort_strings in E'. by rewrite sort_by_length in E'.
Qed.

Lemma compact_sorted {A} (key : A → list okey) s :
  s = gappend None (sort_by (less_by key) (elems s)) ↔
  compact s ∧ StronglySorted (le_key key) (elems s).
Proof.
  pose proof (sort_by_fixed key (elems s)) as Hf. rewrite <-Hf. clear Hf. unfold compact. rewrite gappend_None.
  destruct s as [[|x l]|]; simpl; [split; [done|by intros []]| |done].
  destruct (insert_by _ x _) as [|y k] eqn:E; split.
  - done.
  - intros [_ ?]. congruence.
  - intros [= -> ->]. done.
  - intros [_ <-]. done.
Qed.

Definition norm_parameter (p : ContractParameter) : ContractParameter :=
  normalize_parameter (cp_Name p) (cp_In p) (cp_Required p).

Lemma norm_parameter_canonical p :
  parameter_canonical p → parameter_canonical (norm_parameter p).
Proof.
  intros [Hn Hi]. unfold norm_parameter, normalize_parameter. split; simpl.
  - by rewrite canonical_trim.
  - by apply canonical_lower.
Qed.

Lemma norm_parameter_fixed p :
  parameter_canonical p →
  norm_parameter p = p ↔ canonicalLowerSurfaceText (cp_In p) = cp_In p.
Proof.
  intros [Hn Hi]. unfold norm_parameter, normalize_parameter.
  rewrite (canonical_trim _ Hn). destruct p; simpl.
  split; [by intros [=]|congruence].
Qed.

Lemma norm_parameter_idem p :
  parameter_canonical p → norm_parameter (norm_parameter p) = norm_parameter p.
Proof.
  intros Hp. apply norm_parameter_fixed; [by apply norm_parameter_canonical|].
  simpl. apply canonicalLower_idem, Hp.
Qed.

(** The parameters of a canonical operation: what normalisation leaves alone. *)
Lemma parameters_fixed s :
  Forall parameter_canonical (elems s) →
  s = sort_slice (less_by parameter_order) (gappend None (norm_parameter <$> elems s)) ↔
  Forall parameter_ok (elems s) ∧ compact s ∧ StronglySorted (le_key parameter_order) (elems s).
Proof.
  intros Hs.
  assert (Hsort : ∀ l, sort_slice (less_by parameter_order) (gappend None l)
                       = gappend None (sort_by (less_by parameter_order) l)).
  { intros [|x l]; [done|]. rewrite !gappend_None. simpl.
    destruct (insert_by _ x _) eqn:E; [|done].
    apply (f_equal length) in E. by rewrite insert_by_perm in E. }
  rewrite Hsort. split.
  - intros E.
    assert (Hfix : Forall (λ p, norm_parameter p = p) (elems s)).
    { rewrite E, elems_gappend, app_nil_l, sort_by_Forall, Forall_fmap.
      eapply Forall_impl; [exact Hs|]. apply norm_parameter_idem. }
    rewrite (fmap_fixed _ _ Hfix) in E. apply compact_sorted in E. split; [|done].
    rewrite Forall_forall in *. intros p Hp. destruct (Hs p Hp). constructor; [done..|].
    apply norm_parameter_fixed; auto.
  - intros (Hok & Hc). rewrite fmap_fixed; [by apply compact_sorted|].
    rewrite Forall_forall in *. intros p Hp. apply norm_parameter_fixed; [auto|].
    by apply po_lower, Hok.
Qed.

Definition norm_operation (o : ContractOperation) : ContractOperation :=
  MkContractOperation (canonicalUpperSurfaceText (co_Method o)) (TrimSpace (co_Path o))
    (sort_slice (less_by parameter_order) (gappend None (norm_parameter <$> elems (co_Parameters o))))
    (co_RequestBodyRequired o)
    (normalize_statuses (elems (co_ResponseStatuses o))).

Lemma normalizeSnapshotOperations_eq s :
  normalizeSnapshotOperations s = Some (sort_by (less_by operation_order) (norm_operation <$> elems s)).
Proof. done. Qed.

Lemma elems_normalize_statuses l :
  elems (normalize_statuses l) = sort_strings (filter (λ s, s ≠ "") (TrimSpace <$> l)).
Proof.
  unfold normalize_statuses. rewrite gappend_None.
  by destruct (filter _ _).
Qed.

Lemma normalize_statuses_compact l : compact (normalize_statuses l).
Proof.
  unfold normalize_statuses, compact. rewrite gappend_None.
  destruct (filter _ _) as [|x k]; [done|]. simpl. intros [= E].
  apply (f_equal length) in E. unfold sort_strings in E. by rewrite sort_by_length in E.
Qed.

Lemma sort_slice_compact {A} (less : A → A → bool) l : compact (sort_slice less (gappend None l)).
Proof.
  unfold compact. rewrite gappend_None. destruct l as [|x l]; [done|]. simpl. intros [= E].
  apply (f_equal length) in E. by rewrite insert_by_perm in E.
Qed.

Lemma norm_operation_canonical o : operation_canonical o → operation_canonical (norm_operation o).
Proof.
  intros (Hm & Hp & Hps & Hss). unfold operation_canonical. simpl.
  split; [by apply canonical_upper|]. split; [by rewrite canonical_trim|]. split.
  - rewrite elems_sort_slice, sort_by_Forall, elems_gappend, app_nil_l, Forall_fmap.
    eapply Forall_impl; [exact Hps|]. apply norm_parameter_canonical.
  - rewrite elems_normalize_statuses, statuses_canonical by done. by apply sort_by_Forall.
Qed.

(** What normalisation leaves alone. *)
Lemma norm_operation_fixed o :
  operation_canonical o →
  norm_operation o = o ↔
  canonicalUpperSurfaceText (co_Method o) = co_Method o
  ∧ (Forall parameter_ok (elems (co_Parameters o)) ∧ compact (co_Parameters o)
     ∧ StronglySorted (le_key parameter_order) (elems (co_Parameters o)))
  ∧ (compact (co_ResponseStatuses o)
     ∧ StronglySorted (le_key (λ s, [KS s])) (elems (co_ResponseStatuses o))).
Proof.
  intros (Hm & Hp & Hps & Hss). rewrite <-(parameters_fixed (co_Parameters o)) by done.
  rewrite <-(compact_sorted (λ s, [KS s]) (co_ResponseStatuses o)).
  unfold norm_operation. rewrite (canonical_trim _ Hp), normalize_statuses_canonical by done.
  destruct o as [m p ps b ss]; simpl. split.
  - intros [= -> E1 E2]. split; [done|]. split; by symmetry.
  - intros (-> & E1 & E2). rewrite <-E1. f_equal. by symmetry.
Qed.

Lemma norm_operation_idem o :
  operation_canonical o → norm_operation (norm_operation o) = norm_operation o.
Proof.
  intros Ho. apply norm_operation_fixed; [by apply norm_operation_canonical|].
  destruct Ho as (Hm & Hp & Hps & Hss). simpl.
  rewrite elems_sort_slice, sort_by_Forall, elems_gappend, app_nil_l.
  split; [by apply canonicalUpper_idem|]. split; [|split].
  - split; [|split; [apply sort_slice_compact|apply sort_by_sorted]].
    rewrite Forall_fmap. eapply Forall_impl; [exact Hps|]. intros p Hp'; simpl.
    destruct (norm_parameter_canonical _ Hp') as [Hn Hi].
    constructor; [done..|]. apply norm_parameter_fixed; [done|]. by apply norm_parameter_idem.
  - apply normalize_statuses_compact.
  - rewrite elems_normalize_statuses. apply sort_by_sorted.
Qed.

Lemma operation_ok_iff o :
  operation_ok o ↔ operation_canonical o ∧ operation_unique o ∧ norm_operation o = o.
Proof.
  assert (Hpar : Forall parameter_ok (elems (co_Parameters o)) →
    NoDup ((λ p, (TrimSpace (cp_Name p), canonicalLowerSurfaceText (cp_In p))) <$> elems (co_Parameters o))
    ↔ NoDup (parameter_order <$> elems (co_Parameters o))).
  { intros Hok. rewrite Forall_forall in Hok. apply NoDup_fmap_iff. intros p q Hp Hq.
    destruct (Hok p Hp) as [Hn _ ->], (Hok q Hq) as [Hn' _ ->].
    rewrite !canonical_trim by done. unfold parameter_order, operation_order; split; congruence. }
  assert (Hst : Forall canonical (elems (co_ResponseStatuses o)) →
    NoDup (TrimSpace <$> elems (co_ResponseStatuses o))
    ↔ NoDup ((λ s, [KS s]) <$> elems (co_ResponseStatuses o))).
  { intros Hok. rewrite Forall_forall in Hok. apply NoDup_fmap_iff. intros s t Hs Ht.
    rewrite !canonical_trim by auto. unfold parameter_order, operation_order; split; congruence. }
  split.
  - intros [Hm Hp Hu Hps [Hpsort Hpnd]%strictly_sorted_iff Hpc Hss [Hsort Hnd]%strictly_sorted_iff Hsc].
    assert (operation_canonical o) as Hc.
    { split; [done|split; [done|split; [|done]]]. eapply Forall_impl; [exact Hps|]. by intros ? []. }
    split; [done|]. split; [split; [by apply Hpar|by apply Hst]|].
    by apply norm_operation_fixed.
  - intros (Hc & [Hn1 Hn2] & (Hu & (Hps & Hpc & Hpsort) & Hsc & Hsort)%norm_operation_fixed); [|done].
    destruct Hc as (Hm & Hp & _ & Hss).
    constructor; try done; apply strictly_sorted_iff; (split; [done|]); [by apply Hpar|by apply Hst].
Qed.

Lemma schemas_fixed s :
  Forall canonical (elems s) →
  s = normalizeSnapshotSchemas s ↔ s ≠ None ∧ StronglySorted (le_key (λ s, [KS s])) (elems s).
Proof.
  intros Hs. unfold normalizeSnapshotSchemas. rewrite statuses_canonical by done.
  pose proof (sort_by_fixed (λ s, [KS s]) (elems s)) as Hf. rewrite <-Hf. clear Hf.
  fold (sort_strings (elems s)). destruct s as [l|]; simpl.
  - split; [intros [= E]; by rewrite <-E|intros [_ ->]; done].
  - split; [done|by intros []].
Qed.

Lemma operations_fixed s :
  Forall operation_canonical (elems s) →
  s = normalizeSnapshotOperations s ↔
  s ≠ None ∧ Forall (λ o, norm_operation o = o) (elems s)
  ∧ StronglySorted (le_key operation_order) (elems s).
Proof.
  intros Hs. rewrite normalizeSnapshotOperations_eq.
  pose proof (sort_by_fixed operation_order (elems s)) as Hf. rewrite <-Hf. clear Hf. split.
  - intros E.
    assert (Hfix : Forall (λ o, norm_operation o = o) (elems s)).
    { rewrite E. simpl. rewrite sort_by_Forall, Forall_fmap.
      eapply Forall_impl; [exact Hs|]. apply norm_operation_idem. }
    split; [by rewrite E|]. split; [done|]. rewrite (fmap_fixed _ _ Hfix) in E.
    rewrite E at 2. done.
  - intros (Hn & Hfix & E). rewrite (fmap_fixed _ _ Hfix). destruct s as [l|]; [|done].
    simpl in *. by rewrite E.
Qed.

Lemma operation_keys l :
  Forall operation_ok l →
  NoDup ((λ o, (canonicalUpperSurfaceText (co_Method o), TrimSpace (co_Path o))) <$> l)
  ↔ NoDup (operation_order <$> l).
Proof.
  intros Hok. rewrite Forall_forall in Hok. apply NoDup_fmap_iff. intros o o' Ho Ho'.
  destruct (Hok o Ho) as [_ Hp -> _ _ _ _ _ _], (Hok o' Ho') as [_ Hp' -> _ _ _ _ _ _].
  rewrite !canonical_trim by done. unfold parameter_order, operation_order; split; congruence.
Qed.

Lemma schema_keys l :
  Forall canonical l → NoDup (TrimSpace <$> l) ↔ NoDup ((λ s, [KS s]) <$> l).
Proof.
  intros Hok. rewrite Forall_forall in Hok. apply NoDup_fmap_iff. intros s t Hs Ht.
  rewrite !canonical_trim by auto. unfold parameter_order, operation_order; split; congruence.
Qed.

(** The identity, uniqueness and normal-form checks together. *)
Lemma surface_checks_ok s :
  surface_ok (cs_Operations s) (cs_Schemas s) ↔
  validateContractSurfaceIdentities s = Ok tt ∧ validateContractSurfaceUniqueness s = Ok tt
  ∧ cs_Operations s = normalizeSnapshotOperations (cs_Operations s)
  ∧ cs_Schemas s = normalizeSnapshotSchemas (cs_Schemas s).
Proof.
  rewrite identities_ok, uniqueness_ok. split.
  - intros [Ho [Hos Hond]%strictly_sorted_iff Hon Hs [Hss Hsnd]%strictly_sorted_iff Hsn].
    assert (Hall : Forall (λ o, operation_canonical o ∧ operation_unique o ∧ norm_operation o = o)
                     (elems (cs_Operations s))).
    { eapply Forall_impl; [exact Ho|]. intros o. apply operation_ok_iff. }
    apply Forall_and in Hall as [Hc [Hu Hf]%Forall_and].
    rewrite operation_keys, schema_keys by done. split; [done|]. split; [done|]. split.
    + by apply operations_fixed.
    + by apply schemas_fixed.
  - intros ([Hc Hs] & [[Hk Hu] Hsk] & (Hon & Hf & Hos)%operations_fixed & (Hsn & Hss)%schemas_fixed); [|done..].
    assert (Ho : Forall operation_ok (elems (cs_Operations s))).
    { rewrite Forall_forall in *. intros o Hin. apply operation_ok_iff. auto. }
    constructor; try done; apply strictly_sorted_iff; (split; [done|]);
      [by apply operation_keys|by apply schema_keys].
Qed.

Lemma validateAndClone_iff s s' :
  validateAndCloneContractSnapshot s = Ok s' ↔ snapshot_ok s ∧ s' = s.
Proof.
  unfold validateAndCloneContractSnapshot, contractSurfaceDigest, validateCanonicalIdentity.
  rewrite !seq_ok, !ValidateCanonicalIdentity_required, !throw_if_ok, !negb_false_iff, orb_false_iff,
    !negb_false_iff, !bool_decide_eq_true.
  cbn [wrap_err mret res_ret mbind res_bind]. rewrite seq_ok, throw_if_ok, negb_false_iff, bool_decide_eq_true.
  split.
  - intros (H1 & H2 & H3 & H4 & H5 & H6 & [Eo Es] & Ed & [= <-]).
    rewrite <-Eo, <-Es in *. split; [|by destruct s].
    constructor; try done. by apply surface_checks_ok.
  - intros [[H1 H2 H3 H4 H5] ->].
    pose proof H4 as (Hi & Hu & Eo & Es)%surface_checks_ok. rewrite <-Eo, <-Es.
    split_and!; try done; [rewrite H5; apply sha256Hex_lower|by destruct s].
Qed.

Lemma ValidateContractSnapshot_ok s : ValidateContractSnapshot s = Ok tt ↔ snapshot_ok s.
Proof.
  unfold ValidateContractSnapshot. split.
  - intros (s' & [Hs _]%validateAndClone_iff & _)%bind_ok. done.
  - intros Hs. by rewrite (proj2 (validateAndClone_iff s s)).
Qed.
End lemmas.

(** ** Snapshots built from an index *)

Section construction.
Context `{CaseTables}.

(** The surface an index declares, before normalisation. *)
Definition surface_operation (o : Operation) : ContractOperation :=
  MkContractOperation (op_Method o) (op_Path o)
    (Some ((λ p, MkContractParameter (par_Name p) (par_In p) (par_Required p)) <$> op_Parameters o))
    (match op_RequestBody o with Some body => rb_Required body | None => false end)
    (Some (rsp_Status <$> op_Responses o)).

(** Canonical names, and no two operations, parameters of an operation,
    statuses of an operation or schemas that normalisation would identify. *)
Record index_surface_ok (idx : SpecIndex) : Prop := {
  is_operations : Forall (λ o, operation_canonical (surface_operation o) ∧ operation_unique (surface_operation o))
                    (ix_Operations idx);
  is_keys : NoDup ((λ o, (canonicalUpperSurfaceText (op_Method o), TrimSpace (op_Path o))) <$> ix_Operations idx);
  is_schemas : Forall canonical (sch_Name <$> ix_Schemas idx);
  is_schema_keys : NoDup (sch_Name <$> ix_Schemas idx);
}.

(** Two indexes that list the same surface in a different order. *)
Definition same_operation (o o' : Operation) : Prop :=
  op_Method o = op_Method o' ∧ op_Path o = op_Path o'
  ∧ co_RequestBodyRequired (surface_operation o) = co_RequestBodyRequired (surface_operation o')
  ∧ elems (co_Parameters (surface_operation o)) ≡ₚ elems (co_Parameters (surface_operation o'))
  ∧ rsp_Status <$> op_Responses o ≡ₚ rsp_Status <$> op_Responses o'.

Definition same_surface (idx idx' : SpecIndex) : Prop :=
  (∃ ops, ix_Operations idx ≡ₚ ops ∧ Forall2 same_operation ops (ix_Operations idx'))
  ∧ sch_Name <$> ix_Schemas idx ≡ₚ sch_Name <$> ix_Schemas idx'.

Lemma normalizeContractOperations_eq ops :
  normalizeContractOperations ops = normalizeSnapshotOperations (Some (surface_operation <$> ops)).
Proof.
  unfold normalizeContractOperations, normalizeSnapshotOperations. simpl.
  rewrite <-list_fmap_compose. do 2 f_equal. apply list_fmap_ext. intros _ o _. simpl.
  by rewrite <-list_fmap_compose.
Qed.

Lemma normalizeContractSchemas_eq schemas :
  normalizeContractSchemas schemas = normalizeSnapshotSchemas (Some (sch_Name <$> schemas)).
Proof. done. Qed.
End construction.

Section construction_lemmas.
Context `{CaseTables, !CaseLaws}.

Lemma norm_parameter_keys l :
  Forall parameter_canonical l →
  (λ p, (TrimSpace (cp_Name p), canonicalLowerSurfaceText (cp_In p))) <$> (norm_parameter <$> l)
  = (λ p, (TrimSpace (cp_Name p), canonicalLowerSurfaceText (cp_In p))) <$> l.
Proof.
  induction 1 as [|p l [Hn Hi] _ IH]; [done|]. rewrite !fmap_cons, IH. f_equal. simpl.
  rewrite (canonical_trim _ Hn), (canonical_trim _ Hn). f_equal. by apply canonicalLower_idem.
Qed.

Lemma norm_operation_ok o :
  operation_canonical o → operation_unique o → operation_ok (norm_operation o).
Proof.
  intros Hc [Hp Hs]. apply operation_ok_iff.
  split; [by apply norm_operation_canonical|]. split; [|by apply norm_operation_idem].
  destruct Hc as (_ & _ & Hps & Hss). split; simpl.
  - rewrite elems_sort_slice, elems_gappend, app_nil_l.
    rewrite (sort_by_perm _ (norm_parameter <$> _)). by rewrite norm_parameter_keys.
  - rewrite elems_normalize_statuses, statuses_canonical by done.
    unfold sort_strings. by rewrite sort_by_perm.
Qed.

Lemma norm_operation_order l :
  Forall (λ o, operation_canonical o ∧ operation_unique o) l →
  NoDup (operation_order <$> (norm_operation <$> l))
  ↔ NoDup ((λ o, (canonicalUpperSurfaceText (co_Method o), TrimSpace (co_Path o))) <$> l).
Proof.
  intros Hl. rewrite <-list_fmap_compose. apply NoDup_fmap_iff. intros o o' _ _.
  unfold compose, operation_order. simpl. split; congruence.
Qed.

(** The normal form of a canonical, duplicate-free surface is a valid one. *)
Lemma normalized_surface_ok ops schemas :
  Forall (λ o, operation_canonical o ∧ operation_unique o) ops →
  NoDup ((λ o, (canonicalUpperSurfaceText (co_Method o), TrimSpace (co_Path o))) <$> ops) →
  Forall canonical schemas → NoDup schemas →
  surface_ok (normalizeSnapshotOperations (Some ops)) (normalizeSnapshotSchemas (Some schemas)).
Proof.
  intros Ho Hk Hs Hn. rewrite normalizeSnapshotOperations_eq.
  unfold normalizeSnapshotSchemas. rewrite statuses_canonical by done. constructor; simpl; try done.
  - rewrite sort_by_Forall, Forall_fmap. eapply Forall_impl; [exact Ho|].
    intros o []. by apply norm_operation_ok.
  - apply sort_by_strict. by apply norm_operation_order.
  - by apply sort_by_Forall.
  - apply sort_by_strict. apply NoDup_fmap_2; [|done]. by intros ?? [= ->].
Qed.

Lemma new_snapshot_ok contractID revisionID raw idx :
  canonical contractID → canonical revisionID → index_surface_ok idx →
  snapshot_ok (NewContractSnapshot contractID revisionID raw idx).
Proof.
  intros Hc Hr [Ho Hk Hs Hsk]. unfold NewContractSnapshot. cbn [contractSurfaceDigest mret res_ret].
  rewrite normalizeContractOperations_eq, normalizeContractSchemas_eq.
  constructor; simpl cs_ContractID; simpl cs_RevisionID; try done; [apply sha256Hex_lower|].
  apply normalized_surface_ok; try done; [by rewrite Forall_fmap|].
  by rewrite <-list_fmap_compose.
Qed.

(** *** Order independence *)

Lemma norm_same_operation o o' :
  operation_canonical (surface_operation o) → operation_unique (surface_operation o) →
  same_operation o o' → norm_operation (surface_operation o) = norm_operation (surface_operation o').
Proof.
  intros Hc Hu (Em & Ep & Eb & Hps & Hss).
  pose proof (norm_operation_ok _ Hc Hu) as Hok. destruct Hc as (_ & _ & _ & Hcs).
  unfold norm_operation. rewrite <-Eb. simpl. rewrite <-Em, <-Ep. simpl in Hps, Hcs. f_equal.
  - apply oo_parameters_sorted in Hok. simpl in Hok.
    rewrite elems_sort_slice, elems_gappend, app_nil_l in Hok.
    apply strictly_sorted_iff in Hok as [_ Hn]. rewrite sort_by_perm in Hn.
    assert (Hp : norm_parameter <$> ((λ p, MkContractParameter (par_Name p) (par_In p) (par_Required p)) <$> op_Parameters o)
            ≡ₚ norm_parameter <$> ((λ p, MkContractParameter (par_Name p) (par_In p) (par_Required p)) <$> op_Parameters o')).
    { by rewrite Hps. }
    rewrite !gappend_None. simpl in Hn.
    pose proof (sort_by_perm_eq parameter_order _ _ (λ x y, NoDup_fmap_inj _ _ x y Hn) Hp) as E.
    destruct (norm_parameter <$> _) as [|x l] eqn:E1; destruct (norm_parameter <$> _) as [|y k] eqn:E2 in Hp |- *;
      [done|by apply Permutation_nil_cons in Hp|symmetry in Hp; by apply Permutation_nil_cons in Hp|].
    rewrite E2 in E. simpl. by f_equal.
  - unfold normalize_statuses.
    assert (Hp : filter (λ s, s ≠ "") (TrimSpace <$> (rsp_Status <$> op_Responses o))
            ≡ₚ filter (λ s, s ≠ "") (TrimSpace <$> (rsp_Status <$> op_Responses o'))).
    { by rewrite Hss. }
    assert (E : sort_strings (filter (λ s, s ≠ "") (TrimSpace <$> (rsp_Status <$> op_Responses o)))
            = sort_strings (filter (λ s, s ≠ "") (TrimSpace <$> (rsp_Status <$> op_Responses o')))).
    { apply sort_by_perm_eq; [|done]. by intros x y _ _ [= ->]. }
    rewrite !gappend_None.
    destruct (filter _ _) as [|x l] eqn:E1; destruct (filter _ _) as [|y k] eqn:E2 in Hp |- *;
      [done|by apply Permutation_nil_cons in Hp|symmetry in Hp; by apply Permutation_nil_cons in Hp|].
    rewrite E2 in E. simpl. by f_equal.
Qed.
End construction_lemmas.

Section digest_lemmas.

Lemma parameter_json_inj p q : parameter_json p = parameter_json q → p = q.
Proof.
  destruct p as [n i r], q as [n' i' r']. unfold parameter_json, omit_empty, field. simpl.
  destruct r, r'; simpl; congruence.
Qed.

Lemma json_slice_inj {A} (f : A → json) s t :
  (∀ x y, f x = f y → x = y) → json_slice f s = json_slice f t → s = t.
Proof.
  intros Hf. destruct s as [l|], t as [k|]; simpl; try done. intros [= E]. f_equal.
  revert k E. induction l as [|x l IH]; intros [|y k]; rewrite ?fmap_nil, ?fmap_cons; try done.
  intros [= ?%Hf ?%IH]. by subst.
Qed.

Lemma is_empty_compact {A} (s : slice A) : compact s → is_empty s = true → s = None.
Proof. unfold compact, is_empty. by destruct s as [[|]|]. Qed.

Definition operation_compact (o : ContractOperation) : Prop :=
  compact (co_Parameters o) ∧ compact (co_ResponseStatuses o).

Lemma operation_json_inj o o' :
  operation_compact o → operation_compact o' → operation_json o = operation_json o' → o = o'.
Proof.
  intros [Hp Hs] [Hp' Hs']. destruct o as [m p ps b ss], o' as [m' p' ps' b' ss'].
  unfold operation_json, omit_empty, field in *. simpl in *.
  destruct (is_empty ps) eqn:E1; [apply is_empty_compact in E1; [|done]; subst ps|];
  (destruct (is_empty ps') eqn:E2; [apply is_empty_compact in E2; [|done]; subst ps'|]);
  (destruct (is_empty ss) eqn:E3; [apply is_empty_compact in E3; [|done]; subst ss|]);
  (destruct (is_empty ss') eqn:E4; [apply is_empty_compact in E4; [|done]; subst ss'|]);
  destruct b, b'; cbn [negb app]; intros E; simplify_eq; try done;
  repeat match goal with
  | H : json_slice parameter_json _ = json_slice parameter_json _ |- _ =>
      apply (json_slice_inj _ _ _ parameter_json_inj) in H
  | H : json_slice JString _ = json_slice JString _ |- _ =>
      apply json_slice_inj in H; [|by intros ?? [= ->]]
  end; by subst.
Qed.

Lemma json_slice_operations_inj s t :
  Forall operation_compact (elems s) → Forall operation_compact (elems t) →
  json_slice operation_json s = json_slice operation_json t → s = t.
Proof.
  destruct s as [l|], t as [k|]; simpl; try done. intros Hl Hk [= E]. f_equal.
  revert k Hk E. induction Hl as [|x l Hx Hl IH]; intros [|y k] Hk; rewrite ?fmap_nil, ?fmap_cons; try done.
  apply Forall_cons in Hk as [Hy Hk]. intros [E El]%(inj2 cons). apply operation_json_inj in E as ->; [|done..].
  f_equal. by apply IH.
Qed.

Lemma json_wf_slice {A} (f : A → json) (s : slice A) :
  Forall (λ x, json_wf (f x) = true) (elems s) → json_wf (json_slice f s) = true.
Proof.
  destruct s as [l|]; [|done]. cbn [json_slice elems default from_option].
  intros Hl. apply json_wf_array. by rewrite Forall_fmap.
Qed.

Context `{CaseTables}.

Lemma operation_json_wf o : operation_ok o → json_wf (operation_json o) = true.
Proof.
  intros [Hm Hp _ Hps _ _ Hss _ _]. apply json_wf_object. unfold operation_json, omit_empty, field.
  rewrite !Forall_app. split_and!; repeat constructor; simpl; auto using canonical_valid.
  - destruct (is_empty _); repeat constructor. simpl. apply json_wf_slice.
    eapply Forall_impl; [exact Hps|]. intros p [Hn Hi _]. apply json_wf_object.
    unfold parameter_json, omit_empty, field. rewrite !Forall_app.
    split_and!; repeat constructor; simpl; auto using canonical_valid. by destruct (cp_Required p); repeat constructor.
  - by destruct (co_RequestBodyRequired o); repeat constructor.
  - destruct (is_empty _); repeat constructor. simpl. apply json_wf_slice.
    eapply Forall_impl; [exact Hss|]. intros s. apply canonical_valid.
Qed.

Lemma surface_json_wf ops schemas : surface_ok ops schemas → json_wf (surface_json ops schemas) = true.
Proof.
  intros [Ho _ _ Hs _ _]. apply json_wf_object. unfold surface_json, field.
  repeat constructor; simpl; apply json_wf_slice.
  - eapply Forall_impl; [exact Ho|]. apply operation_json_wf.
  - eapply Forall_impl; [exact Hs|]. intros s. apply canonical_valid.
Qed.

(** The digested bytes determine a valid surface. *)
Lemma surface_bytes_inj ops schemas ops' schemas' :
  surface_ok ops schemas → surface_ok ops' schemas' →
  surface_bytes ops schemas = surface_bytes ops' schemas' → ops = ops' ∧ schemas = schemas'.
Proof.
  intros H1 H2 E. apply render_inj in E; [|by apply surface_json_wf..].
  unfold surface_json, field in E. simpl in E. injection E as Eo Es.
  assert (Hcompact : ∀ o s, surface_ok o s → Forall operation_compact (elems o)).
  { intros o s Hs. eapply Forall_impl; [apply (su_operations _ _ Hs)|]. by intros ? []. }
  split.
  - by apply json_slice_operations_inj; eauto.
  - eapply json_slice_inj; [|exact Es]. by intros ?? [= ->].
Qed.
End digest_lemmas.

(** ** Sample data for the witnesses *)

Definition sample_index : SpecIndex :=
  plain_index "rev-1"
    [plain_operation "post" "/pets" [("trace", "Header", false); ("dryRun", "query", true)] (Some true) ["201"; "400"];
     plain_operation "get" "/pets" [] None ["200"]]
    [plain_schema "Pet"; plain_schema "Error"].

(** [sample_index] with its parts listed in another order. *)
Definition shuffled_index : SpecIndex :=
  plain_index "rev-1"
    [plain_operation "get" "/pets" [] None ["200"];
     plain_operation "post" "/pets" [("dryRun", "query", true); ("trace", "Header", false)] (Some true) ["400"; "201"]]
    [plain_schema "Error"; plain_schema "Pet"].

Lemma sample_index_ok : @index_surface_ok latin1 sample_index.
Proof.
  constructor; unfold operation_canonical, operation_unique, parameter_canonical; concrete.
Qed.

Lemma sample_same_surface : same_surface sample_index shuffled_index.
Proof.
  split; [|apply Permutation_swap].
  exists (ix_Operations (plain_index "rev-1" (reverse (ix_Operations sample_index)) [])).
  split; [apply Permutation_swap|].
  repeat constructor; apply Permutation_swap.
Qed.

(** ** Properties *)

Section properties.
Context `{CaseTables, !CaseLaws}.

(** C24: validation of a snapshot is exact and changes nothing.  It succeeds
    precisely for the snapshots whose identities are canonical, whose surface
    is in normal form (methods upper case, parameter locations lower case,
    everything strictly sorted, so no duplicates) and whose contract digest is
    that of the surface; the clone it returns is the snapshot itself. *)
Theorem snapshot_validation_exact s s' :
  validateAndCloneContractSnapshot s = Ok s' ↔ snapshot_ok s ∧ s' = s.
Proof. apply validateAndClone_iff. Qed.

(** A snapshot built from an index passes the validation it will meet
    when it is loaded again, whenever the index has canonical names and no two
    of its operations, parameters, statuses or schemas collapse. *)
Theorem new_snapshot_validates contractID revisionID raw idx :
  canonical contractID → canonical revisionID → index_surface_ok idx →
  ValidateContractSnapshot (NewContractSnapshot contractID revisionID raw idx) = Ok tt.
Proof. intros. by apply ValidateContractSnapshot_ok, new_snapshot_ok. Qed.

(** The order in which a specification lists its operations, parameters,
    responses and schemas does not reach the snapshot, nor its digest. *)
Theorem new_snapshot_order_independent contractID revisionID raw idx idx' :
  index_surface_ok idx → same_surface idx idx' →
  NewContractSnapshot contractID revisionID raw idx = NewContractSnapshot contractID revisionID raw idx'.
Proof.
  intros [Ho Hk Hs _] [(ops & Hp & Hops) Hsch].
  assert (E1 : normalizeContractOperations (ix_Operations idx) = normalizeContractOperations (ix_Operations idx')).
  { rewrite !normalizeContractOperations_eq, !normalizeSnapshotOperations_eq. simpl. f_equal.
    assert (E : norm_operation <$> (surface_operation <$> ops)
              = norm_operation <$> (surface_operation <$> ix_Operations idx')).
    { rewrite Hp in Ho. clear Hp.
      induction Hops as [|o o' l l' Hoo _ IH]; [done|]. apply Forall_cons in Ho as [[Hc Hu] Ho].
      rewrite !fmap_cons, IH by done. f_equal. by apply norm_same_operation. }
    rewrite <-E. apply sort_by_perm_eq; [|by rewrite Hp].
    intros x y. apply NoDup_fmap_inj. apply norm_operation_order; [by rewrite Forall_fmap|].
    by rewrite <-list_fmap_compose. }
  assert (E2 : normalizeContractSchemas (ix_Schemas idx) = normalizeContractSchemas (ix_Schemas idx')).
  { unfold normalizeContractSchemas. f_equal. apply sort_by_perm_eq; [by intros x y _ _ [= ->]|].
    by rewrite Hsch. }
  unfold NewContractSnapshot. by rewrite E1, E2.
Qed.

(** The contract digest identifies the surface.  Two valid snapshots with
    the same contract digest have the same operations and schemas, unless
    their two surface encodings are distinct byte strings with the same
    SHA-256. *)
Theorem contract_digest_identifies_surface s1 s2 :
  ValidateContractSnapshot s1 = Ok tt → ValidateContractSnapshot s2 = Ok tt →
  cs_ContractDigest s1 = cs_ContractDigest s2 →
  let b1 := surface_bytes (cs_Operations s1) (cs_Schemas s1) in
  let b2 := surface_bytes (cs_Operations s2) (cs_Schemas s2) in
  (cs_Operations s1 = cs_Operations s2 ∧ cs_Schemas s1 = cs_Schemas s2)
  ∨ (b1 ≠ b2 ∧ sha256 b1 = sha256 b2).
Proof.
  rewrite !ValidateContractSnapshot_ok. intros [_ _ _ Hs1 E1] [_ _ _ Hs2 E2] E b1 b2.
  rewrite E1, E2 in E. apply sha256Hex_inj in E.
  destruct (decide (b1 = b2)) as [Eb|Hne]; [left|by right].
  by apply surface_bytes_inj.
Qed.
End properties.

Lemma snapshot_validation_exact_witness :
  let s := @NewContractSnapshot latin1 "contract-1" "rev-1" [] sample_index in
  @validateAndCloneContractSnapshot latin1 s = Ok s.
Proof.
  intros s. apply (@snapshot_validation_exact latin1 latin1_laws s s).
  split; [|reflexivity].
  apply (@new_snapshot_ok latin1 latin1_laws); [canonical_compute|canonical_compute|apply sample_index_ok].
Defined.

Lemma new_snapshot_validates_witness :
  @ValidateContractSnapshot latin1 (@NewContractSnapshot latin1 "contract-1" "rev-1" [] sample_index) = Ok tt.
Proof.
  apply (@new_snapshot_validates latin1 latin1_laws); [canonical_compute|canonical_compute|apply sample_index_ok].
Defined.

Lemma new_snapshot_order_independent_witness :
  @NewContractSnapshot latin1 "contract-1" "rev-1" [] sample_index
  = @NewContractSnapshot latin1 "contract-1" "rev-1" [] shuffled_index.
Proof.
  apply (@new_snapshot_order_independent latin1 latin1_laws); [apply sample_index_ok|apply sample_same_surface].
Defined.

Lemma contract_digest_identifies_surface_witness :
  let s1 := @NewContractSnapshot latin1 "contract-1" "rev-1" [] sample_index in
  let s2 := @NewContractSnapshot latin1 "contract-2" "rev-2" [1] shuffled_index in
  let b1 := surface_bytes (cs_Operations s1) (cs_Schemas s1) in
  let b2 := surface_bytes (cs_Operations s2) (cs_Schemas s2) in
  (cs_Operations s1 = cs_Operations s2 ∧ cs_Schemas s1 = cs_Schemas s2)
  ∨ (b1 ≠ b2 ∧ sha256 b1 = sha256 b2).
Proof.
  intros s1 s2. apply (@contract_digest_identifies_surface latin1 latin1_laws).
  - vm_compute. reflexivity.
  - vm_compute. reflexivity.
  - vm_compute. reflexivity.
Defined.
