(* ===== verification/SpecDiff.v ===== *)
(** * Contract differences (domain/specdiff.go)

    The comparison of two normalised surfaces: breaking and additive findings
    with stable identifiers.  The abstract specification is a set of client
    requests a surface accepts; a candidate with no breaking finding accepts
    every request of the baseline. *)

From S2P Require Import Prelude GoString GoSha256 GoTime GoJson Identity Spec Snapshot.

Definition SpecChangeAdditive : string := "additive".
Definition SpecChangeBreaking : string := "breaking".

Definition RuleOperationRemoved : string := "operation.removed".
Definition RuleOperationAdded : string := "operation.added".
Definition RuleRequiredParameterAdded : string := "request.parameter.required_added".
Definition RuleParameterBecameRequired : string := "request.parameter.became_required".
Definition RuleRequestBodyBecameRequired : string := "request.body.became_required".
Definition RuleResponseStatusRemoved : string := "response.status.removed".
Definition RuleResponseStatusAdded : string := "response.status.added".
Definition RuleSchemaRemoved : string := "schema.removed".
Definition RuleSchemaAdded : string := "schema.added".

Record SpecChange := MkSpecChange {
  ch_ID : string;
  ch_RuleID : string;
  ch_Severity : string;
  ch_Kind : string;
  ch_Subject : string;
  ch_Description : string;
}.

Record SpecDiff := MkSpecDiff {
  df_BaselineRevisionID : string;
  df_CandidateRevisionID : string;
  df_BreakingChanges : slice SpecChange;
  df_AdditiveChanges : slice SpecChange;
}.

#[export] Instance SpecChange_eq_dec : EqDecision SpecChange.
Proof. solve_decision. Defined.
#[export] Instance SpecDiff_eq_dec : EqDecision SpecDiff.
Proof. solve_decision. Defined.
#[export] Instance SpecChange_value : GoValue SpecChange := λ c, VStruct [
  exported "ID" (ch_ID c); exported "RuleID" (ch_RuleID c); exported "Severity" (ch_Severity c);
  exported "Kind" (ch_Kind c); exported "Subject" (ch_Subject c); exported "Description" (ch_Description c)].

(** ** Findings *)

Definition normalizedFindingSubject (subject : string) : string := Join (Fields subject) " ".

(** The bytes of [ruleID + "\x00" + normalizedFindingSubject(subject)]. *)
Definition finding_preimage (ruleID subject : string) : list Z :=
  bytes_of ruleID ++ 0 :: bytes_of (normalizedFindingSubject subject).

Definition stableFindingID (ruleID subject : string) : string :=
  hex_encode (sha256 (finding_preimage ruleID subject)).

Definition newSpecChange (ruleID severity kind subject description : string) : SpecChange :=
  let subject := normalizedFindingSubject subject in
  MkSpecChange (stableFindingID ruleID subject) ruleID severity kind subject description.

(** ** Keys *)

Definition contractOperationKey (operation : ContractOperation) : string :=
  co_Method operation +:+ " " +:+ co_Path operation.

Definition contractOperationSubject (operation : ContractOperation) : string :=
  co_Method operation +:+ " " +:+ co_Path operation.

Definition contractParameterKey (parameter : ContractParameter) : string :=
  cp_In parameter +:+ ":" +:+ cp_Name parameter.

Definition contractParameterSubject (parameter : ContractParameter) : string :=
  if bool_decide (cp_In parameter = "") then cp_Name parameter
  else cp_Name parameter +:+ " (" +:+ cp_In parameter +:+ ")".

(** [byKey[key(x)] = x] for every element: the last one with a key wins. *)
Definition index_by {A} (key : A → string) (l : list A) : gmap string A :=
  foldl (λ m x, <[key x := x]> m) ∅ l.

Definition contractOperationsByKey (operations : list ContractOperation) : gmap string ContractOperation :=
  index_by contractOperationKey operations.
Definition contractParametersByKey (parameters : list ContractParameter) : gmap string ContractParameter :=
  index_by contractParameterKey parameters.
Definition contractResponseStatuses (statuses : list string) : gset string := list_to_set statuses.
Definition contractSchemasByName (schemas : list string) : gset string := list_to_set schemas.

Definition sortedContractOperationKeys (operations : gmap string ContractOperation) : list string :=
  sort_strings (map_to_list operations).*1.
Definition sortedContractSchemaNames (schemas : gset string) : list string :=
  sort_strings (elements schemas).

(** ** Changes of one operation *)

Definition required_parameter_added (candidate : ContractOperation) (param : ContractParameter) : SpecChange :=
  newSpecChange RuleRequiredParameterAdded SpecChangeBreaking "Required parameter added"
    (contractOperationSubject candidate +:+ " " +:+ contractParameterSubject param)
    "Candidate requires a request parameter that production clients did not need.".
Definition parameter_became_required (candidate : ContractOperation) (param : ContractParameter) : SpecChange :=
  newSpecChange RuleParameterBecameRequired SpecChangeBreaking "Parameter became required"
    (contractOperationSubject candidate +:+ " " +:+ contractParameterSubject param)
    "Candidate makes an existing optional request parameter required.".
Definition request_body_became_required (candidate : ContractOperation) : SpecChange :=
  newSpecChange RuleRequestBodyBecameRequired SpecChangeBreaking "Request body became required"
    (contractOperationSubject candidate)
    "Candidate requires a request body where production did not.".
Definition response_status_removed (baseline : ContractOperation) (status : string) : SpecChange :=
  newSpecChange RuleResponseStatusRemoved SpecChangeBreaking "Response status removed"
    (contractOperationSubject baseline +:+ " " +:+ status)
    "Response status exists in production docs but is missing from the candidate.".
Definition response_status_added (candidate : ContractOperation) (status : string) : SpecChange :=
  newSpecChange RuleResponseStatusAdded SpecChangeAdditive "Response status added"
    (contractOperationSubject candidate +:+ " " +:+ status)
    "Candidate documents a response status that production docs do not list.".

Definition contractOperationBreakingChanges (baseline candidate : ContractOperation) : list SpecChange :=
  let baselineParameters := contractParametersByKey (elems (co_Parameters baseline)) in
  let parameters :=
    elems (co_Parameters candidate) ≫= λ param,
      if negb (cp_Required param) then [] else
      match baselineParameters !! contractParameterKey param with
      | None => [required_parameter_added candidate param]
      | Some base =>
          if negb (cp_Required base) then [parameter_became_required candidate param] else []
      end in
  let body :=
    if co_RequestBodyRequired candidate && negb (co_RequestBodyRequired baseline)
    then [request_body_became_required candidate] else [] in
  let candidateResponses := contractResponseStatuses (elems (co_ResponseStatuses candidate)) in
  let statuses :=
    elems (co_ResponseStatuses baseline) ≫= λ status,
      if bool_decide (status ∈ candidateResponses) then [] else [response_status_removed baseline status] in
  parameters ++ body ++ statuses.

Definition contractOperationAdditiveChanges (baseline candidate : ContractOperation) : list SpecChange :=
  let baselineResponses := contractResponseStatuses (elems (co_ResponseStatuses baseline)) in
  elems (co_ResponseStatuses candidate) ≫= λ status,
    if bool_decide (status ∈ baselineResponses) then [] else [response_status_added candidate status].

(** ** The comparison *)

Definition change_order (c : SpecChange) : list okey := [KS (ch_RuleID c); KS (ch_Subject c); KS (ch_ID c)].

Definition sortSpecChanges (changes : slice SpecChange) : slice SpecChange :=
  sort_slice (less_by change_order) changes.

Definition operation_removed (base : ContractOperation) : SpecChange :=
  newSpecChange RuleOperationRemoved SpecChangeBreaking "Removed endpoint" (contractOperationSubject base)
    "Endpoint exists in production docs but is missing from the candidate.".
Definition operation_added (next : ContractOperation) : SpecChange :=
  newSpecChange RuleOperationAdded SpecChangeAdditive "Added endpoint" (contractOperationSubject next)
    "Candidate adds a new endpoint without changing the production route.".
Definition schema_removed (name : string) : SpecChange :=
  newSpecChange RuleSchemaRemoved SpecChangeBreaking "Removed schema" name
    "Schema exists in production docs but is missing from the candidate.".
Definition schema_added (name : string) : SpecChange :=
  newSpecChange RuleSchemaAdded SpecChangeAdditive "Added schema" name
    "Candidate adds a new reusable schema.".

(** The zero value a Go map yields for an absent key. *)
Definition zero_operation : ContractOperation := MkContractOperation "" "" None false None.

(** A loop that appends findings to the two lists of the difference. *)
Definition collect {A} (changes : A → list SpecChange * list SpecChange) (l : list A)
    (acc : slice SpecChange * slice SpecChange) : slice SpecChange * slice SpecChange :=
  foldl (λ acc x, let '(breaking, additive) := changes x in
                  (gappend acc.1 breaking, gappend acc.2 additive)) acc l.

Definition diffValidatedContractSnapshots (baseline candidate : ContractSnapshot) : SpecDiff :=
  let baselineOperations := contractOperationsByKey (elems (cs_Operations baseline)) in
  let candidateOperations := contractOperationsByKey (elems (cs_Operations candidate)) in
  let changes := collect (λ key,
      let base := default zero_operation (baselineOperations !! key) in
      match candidateOperations !! key with
      | None => ([operation_removed base], [])
      | Some next => (contractOperationBreakingChanges base next, contractOperationAdditiveChanges base next)
      end) (sortedContractOperationKeys baselineOperations) (None, None) in
  let changes := collect (λ key,
      let next := default zero_operation (candidateOperations !! key) in
      if baselineOperations !! key is Some _ then ([], []) else ([], [operation_added next]))
      (sortedContractOperationKeys candidateOperations) changes in
  let baselineSchemas := contractSchemasByName (elems (cs_Schemas baseline)) in
  let candidateSchemas := contractSchemasByName (elems (cs_Schemas candidate)) in
  let changes := collect (λ name,
      if bool_decide (name ∈ candidateSchemas) then ([], []) else ([schema_removed name], []))
      (sortedContractSchemaNames baselineSchemas) changes in
  let changes := collect (λ name,
      if bool_decide (name ∈ baselineSchemas) then ([], []) else ([], [schema_added name]))
      (sortedContractSchemaNames candidateSchemas) changes in
  MkSpecDiff (cs_RevisionID baseline) (cs_RevisionID candidate)
    (sortSpecChanges changes.1) (sortSpecChanges changes.2).

Definition DiffContractSnapshots `{CaseTables} (baseline candidate : ContractSnapshot) : res SpecDiff :=
  wrap_err (ValidateContractSnapshot baseline)
    (λ e, Errorf "validate baseline contract snapshot: %w" [EErr e]) ;;
  wrap_err (ValidateContractSnapshot candidate)
    (λ e, Errorf "validate candidate contract snapshot: %w" [EErr e]) ;;
  mret (diffValidatedContractSnapshots baseline candidate).

(** ** What a finding means *)

Definition operations (s : ContractSnapshot) : list ContractOperation := elems (cs_Operations s).
Definition schemas (s : ContractSnapshot) : list string := elems (cs_Schemas s).
Definition parameters (o : ContractOperation) : list ContractParameter := elems (co_Parameters o).
Definition statuses (o : ContractOperation) : list string := elems (co_ResponseStatuses o).

Definition same_route (o o' : ContractOperation) : Prop :=
  co_Method o = co_Method o' ∧ co_Path o = co_Path o'.
Definition same_parameter (p q : ContractParameter) : Prop :=
  cp_In p = cp_In q ∧ cp_Name p = cp_Name q.

Inductive breaking_change (b c : ContractSnapshot) : SpecChange → Prop :=
  | brk_operation o :
      o ∈ operations b → (∀ o', o' ∈ operations c → ¬ same_route o o') →
      breaking_change b c (operation_removed o)
  | brk_parameter_added o o' p :
      o ∈ operations b → o' ∈ operations c → same_route o o' →
      p ∈ parameters o' → cp_Required p = true → (∀ q, q ∈ parameters o → ¬ same_parameter q p) →
      breaking_change b c (required_parameter_added o' p)
  | brk_parameter_required o o' p q :
      o ∈ operations b → o' ∈ operations c → same_route o o' →
      p ∈ parameters o' → cp_Required p = true →
      q ∈ parameters o → same_parameter q p → cp_Required q = false →
      breaking_change b c (parameter_became_required o' p)
  | brk_body o o' :
      o ∈ operations b → o' ∈ operations c → same_route o o' →
      co_RequestBodyRequired o' = true → co_RequestBodyRequired o = false →
      breaking_change b c (request_body_became_required o')
  | brk_status o o' status :
      o ∈ operations b → o' ∈ operations c → same_route o o' →
      status ∈ statuses o → status ∉ statuses o' →
      breaking_change b c (response_status_removed o status)
  | brk_schema name :
      name ∈ schemas b → name ∉ schemas c → breaking_change b c (schema_removed name).

Inductive additive_change (b c : ContractSnapshot) : SpecChange → Prop :=
  | add_operation o' :
      o' ∈ operations c → (∀ o, o ∈ operations b → ¬ same_route o o') →
      additive_change b c (operation_added o')
  | add_status o o' status :
      o ∈ operations b → o' ∈ operations c → same_route o o' →
      status ∈ statuses o' → status ∉ statuses o →
      additive_change b c (response_status_added o' status)
  | add_schema name :
      name ∈ schemas c → name ∉ schemas b → additive_change b c (schema_added name).

(** ** Clients of a surface *)

(** A client call: a route, the parameters it supplies and whether it has a
    body. *)
Record request := MkRequest {
  rq_Method : string;
  rq_Path : string;
  rq_Supplied : list (string * string);
  rq_HasBody : bool;
}.

Definition accepts (s : ContractSnapshot) (r : request) : Prop :=
  ∃ o, o ∈ operations s ∧ co_Method o = rq_Method r ∧ co_Path o = rq_Path r
  ∧ (∀ p, p ∈ parameters o → cp_Required p = true → (cp_In p, cp_Name p) ∈ rq_Supplied r)
  ∧ (co_RequestBodyRequired o = true → rq_HasBody r = true).

(** Everything a client of the baseline relies on still holds. *)
Record backward_compatible (b c : ContractSnapshot) : Prop := {
  bc_requests : ∀ r, accepts b r → accepts c r;
  bc_statuses : ∀ o o' status, o ∈ operations b → o' ∈ operations c → same_route o o' →
    status ∈ statuses o → status ∈ statuses o';
  bc_schemas : ∀ name, name ∈ schemas b → name ∈ schemas c;
}.

(** The separators of the comparison's string keys do not occur in the first
    component: no space in a method, no colon in a parameter location. *)
Definition lacks (a : ascii) (s : string) : Prop := ∀ t u, s ≠ t +:+ String a u.

Definition unambiguous (s : ContractSnapshot) : Prop :=
  Forall (λ o, lacks " " (co_Method o) ∧ Forall (λ p, lacks ":" (cp_In p)) (parameters o)) (operations s).

(** ** Lemmas *)

#[local] Opaque newSpecChange.

Lemma string_app_cons_inj (a : ascii) s s' t t' :
  lacks a s → lacks a s' → s +:+ String a t = s' +:+ String a t' → s = s' ∧ t = t'.
Proof.
  revert s'. induction s as [|c s IH]; intros [|c' s'] Hs Hs' E; simplify_eq/=; try done.
  - by destruct (Hs' "" s').
  - by destruct (Hs "" s).
  - destruct (IH s') as [-> ->]; try done.
    + intros u v ->. by apply (Hs (String c' u) v).
    + intros u v ->. by apply (Hs' (String c' u) v).
Qed.

Section index_by.
Context {A : Type} (key : A → string).

Lemma index_by_lookup_gen (l : list A) (m : gmap string A) k x :
  foldl (λ m x, <[key x := x]> m) m l !! k = Some x →
  (x ∈ l ∧ key x = k) ∨ ((∀ y, y ∈ l → key y ≠ k) ∧ m !! k = Some x).
Proof.
  revert m. induction l as [|y l IH]; intros m; simpl; [right; set_solver|].
  intros [[??]|[Hl Hm]]%IH; [left; set_solver|].
  destruct (decide (key y = k)) as [<-|Hne].
  - rewrite lookup_insert_eq in Hm. simplify_eq. left. set_solver.
  - rewrite lookup_insert_ne in Hm by done. right. set_solver.
Qed.

Lemma index_by_is_Some_gen (l : list A) (m : gmap string A) k :
  is_Some (foldl (λ m x, <[key x := x]> m) m l !! k) ↔ (∃ x, x ∈ l ∧ key x = k) ∨ is_Some (m !! k).
Proof.
  revert m. induction l as [|y l IH]; intros m; simpl; [set_solver|]. rewrite IH.
  rewrite lookup_insert_is_Some'. set_solver.
Qed.

Lemma index_by_Some l k x : index_by key l !! k = Some x → x ∈ l ∧ key x = k.
Proof. intros [?|[_ E]]%index_by_lookup_gen; [done|]. by rewrite lookup_empty in E. Qed.

Lemma index_by_is_Some l k : is_Some (index_by key l !! k) ↔ ∃ x, x ∈ l ∧ key x = k.
Proof.
  unfold index_by. rewrite index_by_is_Some_gen, lookup_empty. split; [|by left].
  by intros [?|[? ?]].
Qed.

Lemma index_by_None l k : index_by key l !! k = None ↔ ∀ x, x ∈ l → key x ≠ k.
Proof.
  rewrite eq_None_not_Some, index_by_is_Some. set_solver.
Qed.

Lemma index_by_elem l x : NoDup (key <$> l) → x ∈ l → index_by key l !! key x = Some x.
Proof.
  intros Hn Hx. destruct (proj2 (index_by_is_Some l (key x)) (ex_intro _ x (conj Hx eq_refl))) as [y Hy].
  rewrite Hy. apply index_by_Some in Hy as [? ?]. f_equal. by eapply NoDup_fmap_inj.
Qed.
End index_by.

Lemma sortedContractOperationKeys_elem m k : k ∈ sortedContractOperationKeys m ↔ is_Some (m !! k).
Proof.
  unfold sortedContractOperationKeys, sort_strings. rewrite sort_by_elem_of, list_elem_of_fmap. split.
  - intros ([k' o] & -> & ?%elem_of_map_to_list). by eexists.
  - intros [o Ho]. exists (k, o). split; [done|]. by apply elem_of_map_to_list.
Qed.

Lemma sortedContractSchemaNames_elem s k : k ∈ sortedContractSchemaNames s ↔ k ∈ s.
Proof. unfold sortedContractSchemaNames, sort_strings. by rewrite sort_by_elem_of, elem_of_elements. Qed.

Lemma collect_elems {A} (f : A → list SpecChange * list SpecChange) l acc :
  elems (collect f l acc).1 = elems acc.1 ++ (l ≫= λ x, (f x).1)
  ∧ elems (collect f l acc).2 = elems acc.2 ++ (l ≫= λ x, (f x).2).
Proof.
  unfold collect. revert acc. induction l as [|x l IH]; intros acc; csimpl; [by rewrite !app_nil_r|].
  destruct (IH (let '(breaking, additive) := f x in (gappend acc.1 breaking, gappend acc.2 additive))) as [-> ->].
  destruct (f x) as [br ad]; simpl. by rewrite !elems_gappend, !app_assoc.
Qed.

Lemma keys_bind m (f : string → list SpecChange) x :
  x ∈ (sortedContractOperationKeys m ≫= f) ↔ ∃ k o, m !! k = Some o ∧ x ∈ f k.
Proof.
  rewrite list_elem_of_bind. setoid_rewrite sortedContractOperationKeys_elem. split.
  - intros (k & Hx & o & Ho). eauto.
  - intros (k & o & Ho & Hx). exists k. split; [done|by eexists].
Qed.

Lemma names_bind l (f : string → list SpecChange) x :
  x ∈ (sortedContractSchemaNames (contractSchemasByName l) ≫= f) ↔ ∃ name, name ∈ l ∧ x ∈ f name.
Proof.
  unfold contractSchemasByName. rewrite list_elem_of_bind. setoid_rewrite sortedContractSchemaNames_elem.
  setoid_rewrite elem_of_list_to_set. set_solver.
Qed.

Lemma elem_of_set l name : bool_decide (name ∈ contractSchemasByName l) = bool_decide (name ∈ l).
Proof. apply bool_decide_ext. apply elem_of_list_to_set. Qed.

(** The shape of the two lists. *)
Lemma diff_breaking_elems b c x :
  let bo := contractOperationsByKey (operations b) in
  let co := contractOperationsByKey (operations c) in
  x ∈ elems (df_BreakingChanges (diffValidatedContractSnapshots b c)) ↔
  (∃ k o, bo !! k = Some o ∧
     (co !! k = None ∧ x = operation_removed o
      ∨ ∃ o', co !! k = Some o' ∧ x ∈ contractOperationBreakingChanges o o'))
  ∨ ∃ name, name ∈ schemas b ∧ name ∉ schemas c ∧ x = schema_removed name.
Proof.
  intros bo co. unfold diffValidatedContractSnapshots, sortSpecChanges. cbn [df_BreakingChanges].
  rewrite elems_sort_slice, sort_by_elem_of, !(proj1 (collect_elems _ _ _)), !elem_of_app, !keys_bind, !names_bind.
  fold (operations b) (operations c) (schemas b) (schemas c) bo co. cbn [fst elems default from_option].
  split.
  - intros [[[[[]%elem_of_nil|(k & o & Ho & Hx)]|(k & o & Ho & Hx)]|(n & Hn & Hx)]|(n & Hn & Hx)].
    + left. exists k, o. split; [done|]. rewrite Ho in Hx.
      destruct (co !! k) as [o'|]; [right; by eauto|left]. by apply list_elem_of_singleton in Hx.
    + by destruct (bo !! k); apply elem_of_nil in Hx.
    + right. exists n. rewrite elem_of_set in Hx. case_bool_decide; [by apply elem_of_nil in Hx|].
      by apply list_elem_of_singleton in Hx.
    + rewrite elem_of_set in Hx. by case_bool_decide; apply elem_of_nil in Hx.
  - intros [(k & o & Ho & Hx)|(n & Hn & Hc & ->)].
    + do 3 left. right. exists k, o. split; [done|]. rewrite Ho.
      destruct Hx as [[-> ->]|(o' & -> & Hx)]; [by left|done].
    + left. right. exists n. split; [done|]. rewrite elem_of_set, bool_decide_eq_false_2 by done. by left.
Qed.

Lemma diff_additive_elems b c x :
  let bo := contractOperationsByKey (operations b) in
  let co := contractOperationsByKey (operations c) in
  x ∈ elems (df_AdditiveChanges (diffValidatedContractSnapshots b c)) ↔
  (∃ k o', co !! k = Some o' ∧
     (bo !! k = None ∧ x = operation_added o'
      ∨ ∃ o, bo !! k = Some o ∧ x ∈ contractOperationAdditiveChanges o o'))
  ∨ ∃ name, name ∈ schemas c ∧ name ∉ schemas b ∧ x = schema_added name.
Proof.
  intros bo co. unfold diffValidatedContractSnapshots, sortSpecChanges. cbn [df_AdditiveChanges].
  rewrite elems_sort_slice, sort_by_elem_of, !(proj2 (collect_elems _ _ _)), !elem_of_app, !keys_bind, !names_bind.
  fold (operations b) (operations c) (schemas b) (schemas c) bo co. cbn [snd elems default from_option].
  split.
  - intros [[[[[]%elem_of_nil|(k & o & Ho & Hx)]|(k & o & Ho & Hx)]|(n & Hn & Hx)]|(n & Hn & Hx)].
    + left. rewrite Ho in Hx. destruct (co !! k) as [o'|] eqn:E; [|by apply elem_of_nil in Hx].
      exists k, o'. split; [done|]. right; eauto.
    + left. exists k, o. split; [done|]. rewrite Ho in Hx.
      destruct (bo !! k) as [o'|]; [by apply elem_of_nil in Hx|left]. by apply list_elem_of_singleton in Hx.
    + rewrite elem_of_set in Hx. by case_bool_decide; apply elem_of_nil in Hx.
    + right. exists n. rewrite elem_of_set in Hx. case_bool_decide; [by apply elem_of_nil in Hx|].
      by apply list_elem_of_singleton in Hx.
  - intros [(k & o' & Ho' & [[Hb ->]|(o & Ho & Hx)])|(n & Hn & Hc & ->)].
    + do 2 left. right. exists k, o'. split; [done|]. rewrite Hb, Ho'. by left.
    + do 3 left. right. exists k, o. split; [done|]. by rewrite Ho, Ho'.
    + right. exists n. split; [done|]. rewrite elem_of_set, bool_decide_eq_false_2 by done. by left.
Qed.

Section exact.
Context `{CaseTables}.
Context (b c : ContractSnapshot).
Context (Hb : snapshot_ok b) (Hc : snapshot_ok c) (Hub : unambiguous b) (Huc : unambiguous c).

Lemma operation_key_inj s s' o o' :
  unambiguous s → unambiguous s' → o ∈ operations s → o' ∈ operations s' →
  contractOperationKey o = contractOperationKey o' ↔ same_route o o'.
Proof.
  intros Hs Hs' Ho Ho'. unfold unambiguous in *. rewrite Forall_forall in Hs, Hs'.
  destruct (Hs o Ho) as [Hm _], (Hs' o' Ho') as [Hm' _]. unfold contractOperationKey, same_route.
  split; [|by intros [-> ->]]. by apply string_app_cons_inj.
Qed.

Lemma parameter_key_inj s s' o o' p q :
  unambiguous s → unambiguous s' → o ∈ operations s → o' ∈ operations s' →
  p ∈ parameters o → q ∈ parameters o' →
  contractParameterKey p = contractParameterKey q ↔ same_parameter p q.
Proof.
  intros Hs Hs' Ho Ho' Hp Hq. unfold unambiguous in *. rewrite Forall_forall in Hs, Hs'.
  destruct (Hs o Ho) as [_ Hm], (Hs' o' Ho') as [_ Hm']. rewrite Forall_forall in Hm, Hm'.
  unfold contractParameterKey, same_parameter.
  split; [|by intros [-> ->]]. apply string_app_cons_inj; auto.
Qed.

Lemma routes_unique s o o' :
  snapshot_ok s → o ∈ operations s → o' ∈ operations s → same_route o o' → o = o'.
Proof.
  intros [_ _ _ [_ [_ Hn]%strictly_sorted_iff _ _ _ _] _] Ho Ho' [Em Ep].
  eapply (NoDup_fmap_inj operation_order); [done..|]. unfold operation_order. by rewrite Em, Ep.
Qed.

Lemma parameters_unique s o p q :
  snapshot_ok s → o ∈ operations s → p ∈ parameters o → q ∈ parameters o → same_parameter p q → p = q.
Proof.
  intros [_ _ _ [Hs _ _ _ _ _] _] Ho Hp Hq [Ei En]. rewrite Forall_forall in Hs.
  destruct (Hs o Ho) as [_ _ _ _ [_ Hn]%strictly_sorted_iff _ _ _ _].
  eapply (NoDup_fmap_inj parameter_order); [done..|]. unfold parameter_order. by rewrite Ei, En.
Qed.

Lemma operations_nodup s :
  snapshot_ok s → unambiguous s → NoDup (contractOperationKey <$> operations s).
Proof.
  intros Hs Hu. pose proof Hs as [_ _ _ [_ [_ Hn]%strictly_sorted_iff _ _ _ _] _].
  eapply NoDup_fmap_iff; [|exact Hn]. intros o o' Ho Ho'. rewrite (operation_key_inj s s) by done.
  unfold same_route, operation_order. split; [by intros [-> ->]|by intros [= -> ->]].
Qed.

Lemma parameters_nodup s o :
  snapshot_ok s → unambiguous s → o ∈ operations s → NoDup (contractParameterKey <$> parameters o).
Proof.
  intros Hs Hu Ho. pose proof Hs as [_ _ _ [Hok _ _ _ _ _] _]. rewrite Forall_forall in Hok.
  destruct (Hok o Ho) as [_ _ _ _ [_ Hn]%strictly_sorted_iff _ _ _ _].
  eapply NoDup_fmap_iff; [|exact Hn]. intros p q Hp Hq. rewrite (parameter_key_inj s s o o) by done.
  unfold same_parameter, parameter_order. split; [by intros [-> ->]|by intros [= -> ->]].
Qed.

(** Looking an operation of one side up in the other. *)
Lemma route_lookup s s' o :
  snapshot_ok s' → unambiguous s → unambiguous s' → o ∈ operations s →
  match contractOperationsByKey (operations s') !! contractOperationKey o with
  | Some o' => o' ∈ operations s' ∧ same_route o o'
  | None => ∀ o', o' ∈ operations s' → ¬ same_route o o'
  end.
Proof.
  intros Hs' Hu Hu' Ho. unfold contractOperationsByKey.
  destruct (index_by _ _ !! _) as [o'|] eqn:E.
  - apply index_by_Some in E as [Ho' E]. split; [done|]. by apply (operation_key_inj s s').
  - rewrite index_by_None in E. intros o' Ho' Hr. apply (E o' Ho'). symmetry. by apply (operation_key_inj s s').
Qed.

Lemma route_found s o o' :
  snapshot_ok s → unambiguous s → o' ∈ operations s → same_route o o' →
  contractOperationsByKey (operations s) !! contractOperationKey o = Some o'.
Proof.
  intros Hs Hu Ho' Hr. replace (contractOperationKey o) with (contractOperationKey o').
  - by apply index_by_elem; [apply operations_nodup|].
  - unfold contractOperationKey. by destruct Hr as [-> ->].
Qed.

(** The findings of one operation present on both sides. *)
Lemma operation_breaking_elem o o' x :
  o ∈ operations b → o' ∈ operations c → same_route o o' →
  x ∈ contractOperationBreakingChanges o o' ↔
  (∃ p, p ∈ parameters o' ∧ cp_Required p = true ∧ (∀ q, q ∈ parameters o → ¬ same_parameter q p)
     ∧ x = required_parameter_added o' p)
  ∨ (∃ p q, p ∈ parameters o' ∧ cp_Required p = true ∧ q ∈ parameters o ∧ same_parameter q p
       ∧ cp_Required q = false ∧ x = parameter_became_required o' p)
  ∨ (co_RequestBodyRequired o' = true ∧ co_RequestBodyRequired o = false ∧ x = request_body_became_required o')
  ∨ ∃ status, status ∈ statuses o ∧ status ∉ statuses o' ∧ x = response_status_removed o status.
Proof.
  intros Ho Ho' Hr. unfold contractOperationBreakingChanges, contractParametersByKey, contractResponseStatuses.
  fold (parameters o) (parameters o') (statuses o) (statuses o').
  rewrite !elem_of_app, !list_elem_of_bind.
  split.
  - intros [(p & Hx & Hp)|[Hx|(st & Hx & Hst)]].
    + destruct (cp_Required p) eqn:Er; [|by apply elem_of_nil in Hx]. simpl in Hx.
      destruct (index_by _ _ !! _) as [q|] eqn:E.
      * apply index_by_Some in E as [Hq E].
        destruct (cp_Required q) eqn:Eq; [by apply elem_of_nil in Hx|]. apply list_elem_of_singleton in Hx.
        right; left. exists p, q. split_and!; try done. by apply (parameter_key_inj b c o o').
      * apply list_elem_of_singleton in Hx. rewrite index_by_None in E. left. exists p.
        split_and!; try done. intros q Hq Hs. apply (E q Hq). by apply (parameter_key_inj b c o o').
    + destruct (co_RequestBodyRequired o'), (co_RequestBodyRequired o); simpl in Hx;
        try by apply elem_of_nil in Hx.
      apply list_elem_of_singleton in Hx. right; right; left. done.
    + case_bool_decide as Hd; [by apply elem_of_nil in Hx|]. apply list_elem_of_singleton in Hx.
      rewrite elem_of_list_to_set in Hd. eauto 10.
  - intros [(p & Hp & Er & Hn & ->)|[(p & q & Hp & Er & Hq & Hs & Eq & ->)|[(E1 & E2 & ->)|(st & Hst & Hn & ->)]]].
    + left. exists p. split; [|done]. rewrite Er. simpl.
      rewrite (proj2 (index_by_None _ _ _)); [by left|]. intros q Hq E. apply (Hn q Hq).
      by apply (parameter_key_inj b c o o').
    + left. exists p. split; [|done]. rewrite Er. simpl.
      assert (E : contractParameterKey q = contractParameterKey p) by by apply (parameter_key_inj b c o o').
      rewrite <-E, index_by_elem by (try apply (parameters_nodup b); done). rewrite Eq. by left.
    + right; left. rewrite E1, E2. by left.
    + right; right. exists st. split; [|done].
      rewrite bool_decide_eq_false_2 by by rewrite elem_of_list_to_set. by left.
Qed.

Lemma breaking_exact x :
  x ∈ elems (df_BreakingChanges (diffValidatedContractSnapshots b c)) ↔ breaking_change b c x.
Proof.
  rewrite diff_breaking_elems. cbv zeta. split.
  - intros [(k & o & Ho & Hx)|(n & Hn & Hnc & ->)]; [|by apply brk_schema].
    apply index_by_Some in Ho as [Ho <-].
    pose proof (route_lookup b c o Hc Hub Huc Ho) as Hr.
    destruct Hx as [[E ->]|(o' & E & Hx)]; rewrite E in Hr; [by apply brk_operation|].
    destruct Hr as [Ho' Hr].
    apply operation_breaking_elem in Hx
      as [(?&?&?&?&->)|[(?&?&?&?&?&?&?&->)|[(?&?&->)|(?&?&?&->)]]]; [..|done|done|done];
      [by eapply brk_parameter_added|by eapply brk_parameter_required|by eapply brk_body|by eapply brk_status].
  - assert (Hboth : ∀ o o', o ∈ operations b → o' ∈ operations c → same_route o o' →
      x ∈ contractOperationBreakingChanges o o' →
      ∃ k o, contractOperationsByKey (operations b) !! k = Some o ∧
        (contractOperationsByKey (operations c) !! k = None ∧ x = operation_removed o
         ∨ ∃ o', contractOperationsByKey (operations c) !! k = Some o' ∧ x ∈ contractOperationBreakingChanges o o')).
    { intros o o' Ho Ho' Hr Hx. exists (contractOperationKey o), o.
      split; [by apply route_found|]. right. exists o'. split; [by apply route_found|done]. }
    intros Hx. destruct Hx as [o Ho Hn|o o' p Ho Ho' Hr Hp Er Hn|o o' p q Ho Ho' Hr Hp Er Hq Hs Eq
      |o o' Ho Ho' Hr E1 E2|o o' st Ho Ho' Hr Hst Hn|n Hn Hnc]; [left..|right; by exists n].
    + exists (contractOperationKey o), o. split; [by apply route_found|]. left. split; [|done].
      pose proof (route_lookup b c o Hc Hub Huc Ho) as Hr. destruct (_ !! _) as [o'|]; [|done].
      destruct Hr as [Ho' Hr]. by destruct (Hn o' Ho').
    + apply (Hboth o o' Ho Ho' Hr), operation_breaking_elem; [done..|]. left. by exists p.
    + apply (Hboth o o' Ho Ho' Hr), operation_breaking_elem; [done..|]. right; left. by exists p, q.
    + apply (Hboth o o' Ho Ho' Hr), operation_breaking_elem; [done..|]. right; right; left. done.
    + apply (Hboth o o' Ho Ho' Hr), operation_breaking_elem; [done..|]. right; right; right. by exists st.
Qed.

Lemma additive_exact x :
  x ∈ elems (df_AdditiveChanges (diffValidatedContractSnapshots b c)) ↔ additive_change b c x.
Proof.
  assert (Hstatus : ∀ o o', x ∈ contractOperationAdditiveChanges o o' ↔
    ∃ status, status ∈ statuses o' ∧ status ∉ statuses o ∧ x = response_status_added o' status).
  { intros o o'. unfold contractOperationAdditiveChanges, contractResponseStatuses.
    fold (statuses o) (statuses o'). rewrite list_elem_of_bind. split.
    - intros (st & Hx & Hst). case_bool_decide as Hd; [by apply elem_of_nil in Hx|].
      apply list_elem_of_singleton in Hx. rewrite elem_of_list_to_set in Hd. eauto.
    - intros (st & Hst & Hn & ->). exists st. split; [|done].
      rewrite bool_decide_eq_false_2 by by rewrite elem_of_list_to_set. by left. }
  rewrite diff_additive_elems. cbv zeta. split.
  - intros [(k & o' & Ho' & Hx)|(n & Hn & Hnc & ->)]; [|by apply add_schema].
    apply index_by_Some in Ho' as [Ho' <-].
    pose proof (route_lookup c b o' Hb Huc Hub Ho') as Hr.
    destruct Hx as [[E ->]|(o & E & Hx)]; rewrite E in Hr.
    + apply add_operation; [done|]. intros o Ho [Em Ep]. by apply (Hr o Ho).
    + apply Hstatus in Hx as (st & ? & ? & ->). destruct Hr as [Ho [Em Ep]]. by eapply add_status.
  - intros Hx. destruct Hx as [o' Ho' Hn|o o' st Ho Ho' Hr Hst Hns|n Hn Hnb]; [left..|right; by exists n].
    + exists (contractOperationKey o'), o'. split; [by apply route_found|]. left. split; [|done].
      pose proof (route_lookup c b o' Hb Huc Hub Ho') as Hr. destruct (_ !! _) as [o|]; [|done].
      destruct Hr as [Ho [Em Ep]]. by destruct (Hn o Ho).
    + exists (contractOperationKey o), o'. split; [by apply route_found|]. right. exists o.
      split; [by apply route_found|]. apply Hstatus. by exists st.
Qed.

Lemma breaking_iff_incompatible : (∀ x, ¬ breaking_change b c x) ↔ backward_compatible b c.
Proof.
  split.
  - intros Hn. constructor.
    + intros r (o & Ho & Em & Ep & Hps & Hbody).
      pose proof (route_lookup b c o Hc Hub Huc Ho) as Hr. destruct (_ !! _) as [o'|].
      2: { edestruct Hn. by eapply brk_operation. }
      destruct Hr as [Ho' Hr]. exists o'. pose proof Hr as [Em' Ep'].
      split; [done|]. split; [congruence|]. split; [congruence|]. split.
      * intros p Hp Er. destruct (decide (Exists (λ q, cp_In q = cp_In p ∧ cp_Name q = cp_Name p) (parameters o))) as [He|He].
        -- apply Exists_exists in He as (q & Hq & Hs). destruct (cp_Required q) eqn:Eq.
           ++ destruct Hs as [<- <-]. by apply Hps.
           ++ edestruct Hn. by eapply (brk_parameter_required b c o o' p q).
        -- edestruct Hn. eapply (brk_parameter_added b c o o' p); try done.
           intros q Hq Hs. apply He, Exists_exists. eauto.
      * intros E. apply Hbody. destruct (co_RequestBodyRequired o) eqn:E'; [done|].
        edestruct Hn. by eapply brk_body.
    + intros o o' st Ho Ho' Hr Hst. destruct (decide (st ∈ statuses o')) as [|Hns]; [done|].
      edestruct Hn. by eapply brk_status.
    + intros n Hbn. destruct (decide (n ∈ schemas c)) as [|Hns]; [done|]. edestruct Hn. by eapply brk_schema.
  - intros [Hreq Hst Hsch] x Hx.
    assert (Hmin : ∀ o, o ∈ operations b → ∃ o', o' ∈ operations c ∧ same_route o o'
      ∧ (∀ p, p ∈ parameters o' → cp_Required p = true →
           ∃ q, q ∈ parameters o ∧ cp_Required q = true ∧ same_parameter q p)
      ∧ (co_RequestBodyRequired o' = true → co_RequestBodyRequired o = true)).
    { intros o Ho.
      destruct (Hreq (MkRequest (co_Method o) (co_Path o)
        ((λ p, (cp_In p, cp_Name p)) <$> filter (λ p, cp_Required p = true) (parameters o))
        (co_RequestBodyRequired o))) as (o' & Ho' & Em & Ep & Hps & Hbody).
      { exists o. split_and!; try done. intros p Hp Er. apply list_elem_of_fmap. exists p.
        split; [done|]. by apply list_elem_of_filter. }
      exists o'. simpl in *. split_and!; try done. intros p Hp Er. specialize (Hps p Hp Er).
      apply list_elem_of_fmap in Hps as (q & [= E1 E2] & [Hq Hin]%list_elem_of_filter). exists q. by split_and!. }
    destruct Hx as [o Ho Hn|o o' p Ho Ho' Hr Hp Er Hn|o o' p q Ho Ho' Hr Hp Er Hq Hs Eq|o o' Ho Ho' Hr E1 E2|o o' st Ho Ho' Hr ? Hns|n ? Hn];
      [..|by apply Hns, (Hst o o')|by apply Hn, Hsch].
    all: destruct (Hmin o Ho) as (o2 & Ho2 & Hr2 & Hps & Hbody).
    + by apply (Hn o2).
    + assert (o2 = o') as -> by (eapply (routes_unique c); try done; split; destruct Hr, Hr2; congruence).
      destruct (Hps p Hp Er) as (q & ? & ? & ?). by apply (Hn q).
    + assert (o2 = o') as -> by (eapply (routes_unique c); try done; split; destruct Hr, Hr2; congruence).
      destruct (Hps p Hp Er) as (q' & Hq' & Er' & Hs').
      assert (q' = q) as -> by (eapply (parameters_unique b o); try done; split; destruct Hs, Hs'; congruence).
      congruence.
    + assert (o2 = o') as -> by (eapply (routes_unique c); try done; split; destruct Hr, Hr2; congruence).
      rewrite Hbody in E2; done.
Qed.
End exact.

(** ** Findings and their identifiers *)

Definition breaking_rules : list string :=
  [RuleOperationRemoved; RuleRequiredParameterAdded; RuleParameterBecameRequired;
   RuleRequestBodyBecameRequired; RuleResponseStatusRemoved; RuleSchemaRemoved].
Definition additive_rules : list string := [RuleOperationAdded; RuleResponseStatusAdded; RuleSchemaAdded].

(** The bytes the identifier of a finding is the digest of. *)
Definition id_preimage (x : SpecChange) : list Z := bytes_of (ch_RuleID x) ++ 0 :: bytes_of (ch_Subject x).

Record finding_ok (severity : string) (rules : list string) (x : SpecChange) : Prop := {
  fo_severity : ch_Severity x = severity;
  fo_rule : ch_RuleID x ∈ rules;
  fo_subject : valid_utf8 (ch_Subject x) = true;
  fo_normal : normalizedFindingSubject (ch_Subject x) = ch_Subject x;
  fo_id : ch_ID x = sha256Hex (id_preimage x);
}.

Section findings.
Context `{CaseTables}.
#[local] Transparent newSpecChange.

Lemma normalizedFindingSubject_idem subject :
  valid_utf8 subject = true →
  normalizedFindingSubject (normalizedFindingSubject subject) = normalizedFindingSubject subject.
Proof. apply Join_Fields_idem. Qed.

Lemma newSpecChange_ok rule severity kind subject description rules :
  rule ∈ rules → valid_utf8 subject = true →
  finding_ok severity rules (newSpecChange rule severity kind subject description).
Proof.
  intros Hr Hv. constructor; unfold newSpecChange, id_preimage; cbn [ch_Severity ch_RuleID ch_Subject ch_ID]; try done.
  - by apply Join_Fields_valid.
  - by apply Join_Fields_idem.
  - unfold stableFindingID, finding_preimage, sha256Hex. by rewrite normalizedFindingSubject_idem.
Qed.
#[local] Opaque newSpecChange.

Lemma subject_valid s o :
  snapshot_ok s → o ∈ operations s → valid_utf8 (contractOperationSubject o) = true.
Proof.
  intros [_ _ _ [Hs _ _ _ _ _] _] Ho. rewrite Forall_forall in Hs. destruct (Hs o Ho).
  unfold contractOperationSubject. auto using valid_app, canonical_valid.
Qed.

Lemma parameter_subject_valid s o p :
  snapshot_ok s → o ∈ operations s → p ∈ parameters o →
  valid_utf8 (contractOperationSubject o +:+ " " +:+ contractParameterSubject p) = true.
Proof.
  intros Hs Ho Hp. apply valid_app; [by eapply subject_valid|]. apply valid_app; [done|].
  destruct Hs as [_ _ _ [Hs _ _ _ _ _] _]. rewrite Forall_forall in Hs.
  destruct (Hs o Ho) as [_ _ _ Hps _ _ _ _ _]. rewrite Forall_forall in Hps. destruct (Hps p Hp).
  unfold contractParameterSubject. case_bool_decide; auto 10 using valid_app, canonical_valid.
Qed.

Lemma status_subject_valid s o st :
  snapshot_ok s → o ∈ operations s → st ∈ statuses o →
  valid_utf8 (contractOperationSubject o +:+ " " +:+ st) = true.
Proof.
  intros Hs Ho Hst. apply valid_app; [by eapply subject_valid|]. apply valid_app; [done|].
  destruct Hs as [_ _ _ [Hs _ _ _ _ _] _]. rewrite Forall_forall in Hs.
  destruct (Hs o Ho) as [_ _ _ _ _ _ Hss _ _]. rewrite Forall_forall in Hss. auto using canonical_valid.
Qed.

Lemma schema_valid s name : snapshot_ok s → name ∈ schemas s → valid_utf8 name = true.
Proof.
  intros [_ _ _ [_ _ _ Hs _ _] _] Hn. rewrite Forall_forall in Hs. auto using canonical_valid.
Qed.

Lemma operation_breaking_ok b c o o' x :
  snapshot_ok b → snapshot_ok c → o ∈ operations b → o' ∈ operations c →
  x ∈ contractOperationBreakingChanges o o' → finding_ok SpecChangeBreaking breaking_rules x.
Proof.
  intros Hb Hc Ho Ho'. unfold contractOperationBreakingChanges. rewrite !elem_of_app, !list_elem_of_bind.
  intros [(p & Hx & Hp)|[Hx|(st & Hx & Hst)]].
  - destruct (negb _); [by apply elem_of_nil in Hx|].
    destruct (_ !! _) as [q|]; [destruct (negb _); [|by apply elem_of_nil in Hx]|];
      apply list_elem_of_singleton in Hx as ->; apply newSpecChange_ok;
      first [decide_compute|by eapply (parameter_subject_valid c)].
  - destruct (_ && _); [|by apply elem_of_nil in Hx].
    apply list_elem_of_singleton in Hx as ->. apply newSpecChange_ok; [decide_compute|by eapply (subject_valid c)].
  - case_bool_decide; [by apply elem_of_nil in Hx|].
    apply list_elem_of_singleton in Hx as ->. apply newSpecChange_ok; [decide_compute|by eapply (status_subject_valid b)].
Qed.

Lemma breaking_ok b c x :
  snapshot_ok b → snapshot_ok c →
  x ∈ elems (df_BreakingChanges (diffValidatedContractSnapshots b c)) →
  finding_ok SpecChangeBreaking breaking_rules x.
Proof.
  intros Hb Hc. rewrite diff_breaking_elems. cbv zeta.
  intros [(k & o & [Ho _]%index_by_Some & [[_ ->]|(o' & [Ho' _]%index_by_Some & Hx)])|(n & Hn & _ & ->)].
  - apply newSpecChange_ok; [decide_compute|by eapply (subject_valid b)].
  - by apply (operation_breaking_ok b c o o').
  - apply newSpecChange_ok; [decide_compute|by eapply (schema_valid b)].
Qed.

Lemma additive_ok b c x :
  snapshot_ok b → snapshot_ok c →
  x ∈ elems (df_AdditiveChanges (diffValidatedContractSnapshots b c)) →
  finding_ok SpecChangeAdditive additive_rules x.
Proof.
  intros Hb Hc. rewrite diff_additive_elems. cbv zeta.
  intros [(k & o' & [Ho' _]%index_by_Some & [[_ ->]|(o & [Ho _]%index_by_Some & Hx)])|(n & Hn & _ & ->)].
  - apply newSpecChange_ok; [decide_compute|by eapply (subject_valid c)].
  - unfold contractOperationAdditiveChanges in Hx. apply list_elem_of_bind in Hx as (st & Hx & Hst).
    case_bool_decide; [by apply elem_of_nil in Hx|].
    apply list_elem_of_singleton in Hx as ->. apply newSpecChange_ok; [decide_compute|by eapply (status_subject_valid c)].
  - apply newSpecChange_ok; [decide_compute|by eapply (schema_valid c)].
Qed.

(** A rule identifier contains no NUL, so the preimage can be cut again. *)
Lemma rule_lacks_nul rule : rule ∈ breaking_rules ++ additive_rules → Forall (λ z, z ≠ 0) (bytes_of rule).
Proof.
  intros Hr. apply Forall_forall. intros z Hz ->.
  assert (forallb (λ r, forallb (λ z, negb (z =? 0)) (bytes_of r)) (breaking_rules ++ additive_rules) = true) as Hf
    by by vm_compute.
  rewrite forallb_Forall, Forall_forall in Hf. apply Hf in Hr. rewrite forallb_Forall, Forall_forall in Hr.
  by apply Hr in Hz.
Qed.

Lemma cut_nul l l' k k' :
  Forall (λ z, z ≠ 0) l → Forall (λ z, z ≠ 0) l' → l ++ 0 :: k = l' ++ 0 :: k' → l = l' ∧ k = k'.
Proof.
  intros Hl. revert l'. induction Hl as [|z l Hz Hl IH]; intros l' Hl' E; destruct Hl' as [|z' l' Hz' Hl']; simplify_eq/=; try done.
  by destruct (IH l') as [-> ->].
Qed.

Lemma id_preimage_inj s s' rs rs' x y :
  rs ⊆ breaking_rules ++ additive_rules → rs' ⊆ breaking_rules ++ additive_rules →
  finding_ok s rs x → finding_ok s' rs' y →
  id_preimage x = id_preimage y → ch_RuleID x = ch_RuleID y ∧ ch_Subject x = ch_Subject y.
Proof.
  intros Hrs Hrs' [_ Hx _ _ _] [_ Hy _ _ _] E. apply cut_nul in E as [E1 E2].
  - by apply bytes_of_inj in E1, E2.
  - by apply rule_lacks_nul, Hrs.
  - by apply rule_lacks_nul, Hrs'.
Qed.
End findings.

(** The lists of a difference are never empty without being nil. *)
Lemma collect_compact {A} (f : A → list SpecChange * list SpecChange) l acc :
  compact acc.1 → compact acc.2 → compact (collect f l acc).1 ∧ compact (collect f l acc).2.
Proof.
  unfold collect. revert acc. induction l as [|x l IH]; intros acc H1 H2; simpl; [done|].
  assert (Hg : ∀ (s : slice SpecChange) k, compact s → compact (gappend s k)).
  { unfold compact. intros [[|]|] [|y k] Hs; simpl; congruence. }
  apply IH; destruct (f x); simpl; by apply Hg.
Qed.

Lemma compact_nil {A} (s : slice A) : compact s → elems s = [] → s = None.
Proof. unfold compact. by destruct s as [[|]|]. Qed.

Lemma diff_compact b c :
  compact (df_BreakingChanges (diffValidatedContractSnapshots b c))
  ∧ compact (df_AdditiveChanges (diffValidatedContractSnapshots b c)).
Proof.
  assert (Hs : ∀ s, compact s → compact (sortSpecChanges s)).
  { unfold compact, sortSpecChanges. intros [[|x l]|] Hs; simpl; try congruence.
    intros [= E%(f_equal length)]. by rewrite insert_by_perm in E. }
  unfold diffValidatedContractSnapshots. cbn [df_BreakingChanges df_AdditiveChanges].
  split; apply Hs; repeat (apply collect_compact); done.
Qed.

(** ** Sample data for the witnesses *)

Definition base_snapshot : ContractSnapshot :=
  @NewContractSnapshot latin1 "contract-1" "rev-1" [] sample_index.

Definition next_index : SpecIndex :=
  plain_index "rev-2"
    [plain_operation "post" "/pets" [("trace", "header", true); ("dryRun", "query", true)] (Some true) ["201"; "400"; "409"];
     plain_operation "delete" "/pets/{id}" [] None ["204"]]
    [plain_schema "Pet"; plain_schema "Problem"].

Definition next_snapshot : ContractSnapshot :=
  @NewContractSnapshot latin1 "contract-1" "rev-2" [] next_index.

(** Prove a concrete snapshot valid by running the check. *)
Ltac snapshot_compute := vm_compute; reflexivity.

Ltac lacks_compute :=
  let t := fresh in let u := fresh in let E := fresh in
  intros t u E; repeat (destruct t as [|? t]; simplify_eq/=; try discriminate).

Lemma base_unambiguous : unambiguous base_snapshot.
Proof.
  unfold unambiguous. let l := eval vm_compute in (operations base_snapshot) in change (operations base_snapshot) with l.
  repeat constructor; lacks_compute.
Qed.

Lemma next_unambiguous : unambiguous next_snapshot.
Proof.
  unfold unambiguous. let l := eval vm_compute in (operations next_snapshot) in change (operations next_snapshot) with l.
  repeat constructor; lacks_compute.
Qed.

(** A valid snapshot whose two parameters share the comparison's key: [b:c]
    in [a] and [c] in [a:b] are both [a:b:c]. *)
Definition ambiguous_snapshot : ContractSnapshot :=
  @NewContractSnapshot latin1 "contract-1" "rev-1" []
    (plain_index "rev-1" [plain_operation "get" "/" [("b:c", "a", true); ("c", "a:b", false)] None []] []).

(** ** Properties *)

Section properties.
Context `{CaseTables, !CaseLaws}.

Lemma breaking_none b c :
  snapshot_ok b → snapshot_ok c → unambiguous b → unambiguous c →
  df_BreakingChanges (diffValidatedContractSnapshots b c) = None ↔ backward_compatible b c.
Proof.
  intros Hb Hc Hub Huc. rewrite <-(breaking_iff_incompatible b c Hb Hc Hub Huc).
  pose proof (breaking_exact b c Hb Hc Hub Huc) as Hx. split.
  - intros E x Hbr. apply Hx in Hbr. rewrite E in Hbr. by apply elem_of_nil in Hbr.
  - intros Hn. apply compact_nil; [apply diff_compact|].
    destruct (elems _) as [|x l] eqn:E; [done|]. exfalso. apply (Hn x), Hx. by left.
Qed.

(** C25: the comparison is sound and complete for its specification.  On two
    valid snapshots whose string keys are unambiguous it succeeds, its
    breaking list holds exactly the breaking changes between the surfaces
    (removed operations, added or newly required parameters, newly required
    bodies, removed statuses, removed schemas) and its additive list exactly
    the additions. *)
Theorem diff_findings_exact b c :
  ValidateContractSnapshot b = Ok tt → ValidateContractSnapshot c = Ok tt →
  unambiguous b → unambiguous c →
  ∃ d, DiffContractSnapshots b c = Ok d
    ∧ (∀ x, x ∈ elems (df_BreakingChanges d) ↔ breaking_change b c x)
    ∧ (∀ x, x ∈ elems (df_AdditiveChanges d) ↔ additive_change b c x).
Proof.
  intros Eb Ec Hub Huc. exists (diffValidatedContractSnapshots b c).
  split; [unfold DiffContractSnapshots; by rewrite Eb, Ec|].
  apply ValidateContractSnapshot_ok in Eb, Ec.
  split; intros x; [by apply breaking_exact|by apply additive_exact].
Qed.

(** C5: for snapshots whose string keys are unambiguous, no breaking finding
    means backward compatible, and conversely.  When no method has a
    space and no parameter location a colon, so that the comparison keys made of
    them are unique, the breaking list of the comparison is empty exactly when
    every request a client could make of the baseline is accepted by the
    candidate, every response status documented for a kept operation stays
    documented, and no schema disappears.  Without that condition it need not
    be so ([ambiguous_parameter_keys_break_identity]). *)
Theorem no_breaking_iff_backward_compatible b c d :
  DiffContractSnapshots b c = Ok d → unambiguous b → unambiguous c →
  df_BreakingChanges d = None ↔ backward_compatible b c.
Proof.
  unfold DiffContractSnapshots. rewrite !seq_ok, !wrap_err_ok, !ValidateContractSnapshot_ok.
  intros (Hb & Hc & [= <-]). by apply breaking_none.
Qed.

(** A snapshot does not differ from itself: with unambiguous keys both
    lists of the comparison are nil. *)
Theorem diff_with_itself_is_empty s :
  ValidateContractSnapshot s = Ok tt → unambiguous s →
  DiffContractSnapshots s s = Ok (MkSpecDiff (cs_RevisionID s) (cs_RevisionID s) None None).
Proof.
  intros Es Hu. unfold DiffContractSnapshots. rewrite Es. cbn [wrap_err mbind res_bind mret res_ret].
  apply ValidateContractSnapshot_ok in Es.
  assert (Hn : ∀ x, ¬ breaking_change s s x ∧ ¬ additive_change s s x).
  { intros x. split.
    - revert x. apply breaking_iff_incompatible; try done. constructor; [done| |done].
      intros o o' st Ho Ho' Hr. by rewrite (routes_unique s o o').
    - intros Hx. destruct Hx as [o' Ho' Hn|o o' st Ho Ho' Hr Hst Hns|n]; [|apply Hns|done].
      + by apply (Hn o').
      + by rewrite (routes_unique s o o'). }
  destruct (diff_compact s s) as [H1 H2].
  assert (E1 : df_BreakingChanges (diffValidatedContractSnapshots s s) = None).
  { apply compact_nil; [done|]. destruct (elems _) as [|x l] eqn:E; [done|]. exfalso.
    apply (proj1 (Hn x)), breaking_exact; [done..|]. rewrite E. by left. }
  assert (E2 : df_AdditiveChanges (diffValidatedContractSnapshots s s) = None).
  { apply compact_nil; [done|]. destruct (elems _) as [|x l] eqn:E; [done|]. exfalso.
    apply (proj2 (Hn x)), additive_exact; [done..|]. rewrite E. by left. }
  f_equal. unfold diffValidatedContractSnapshots in *. cbn [df_BreakingChanges df_AdditiveChanges] in *.
  by rewrite E1, E2.
Qed.

(** Identifiers of findings are stable names.  Whatever snapshots they
    come from, two findings with the same identifier have the same rule and
    subject, unless their identifier preimages are distinct byte strings with
    the same SHA-256; and every identifier is the lowercase SHA-256 that a
    policy exception may name. *)
Theorem finding_ids_name_rule_and_subject b c b' c' d d' x y :
  DiffContractSnapshots b c = Ok d → DiffContractSnapshots b' c' = Ok d' →
  x ∈ elems (df_BreakingChanges d) ++ elems (df_AdditiveChanges d) →
  y ∈ elems (df_BreakingChanges d') ++ elems (df_AdditiveChanges d') →
  isLowerSHA256 (ch_ID x) = true
  ∧ (ch_ID x = ch_ID y →
     (ch_RuleID x = ch_RuleID y ∧ ch_Subject x = ch_Subject y)
     ∨ (id_preimage x ≠ id_preimage y ∧ sha256 (id_preimage x) = sha256 (id_preimage y))).
Proof.
  unfold DiffContractSnapshots. rewrite !seq_ok, !wrap_err_ok, !ValidateContractSnapshot_ok.
  intros (Hb & Hc & [= <-]) (Hb' & Hc' & [= <-]) Hx Hy.
  assert (Hfind : ∀ b c z, snapshot_ok b → snapshot_ok c →
    z ∈ elems (df_BreakingChanges (diffValidatedContractSnapshots b c))
        ++ elems (df_AdditiveChanges (diffValidatedContractSnapshots b c)) →
    ∃ s rs, rs ⊆ breaking_rules ++ additive_rules ∧ finding_ok s rs z).
  { clear. intros b c z Hb Hc [Hz|Hz]%elem_of_app; eexists _, _.
    - split; [|by apply (breaking_ok b c)]. set_solver.
    - split; [|by apply (additive_ok b c)]. set_solver. }
  destruct (Hfind _ _ _ Hb Hc Hx) as (s & rs & Hrs & Hxok), (Hfind _ _ _ Hb' Hc' Hy) as (s' & rs' & Hrs' & Hyok).
  split; [rewrite (fo_id _ _ _ Hxok); apply sha256Hex_lower|].
  rewrite (fo_id _ _ _ Hxok), (fo_id _ _ _ Hyok). intros E%sha256Hex_inj.
  destruct (decide (id_preimage x = id_preimage y)) as [Ep|Hne]; [left|by right].
  by apply (id_preimage_inj s s' rs rs').
Qed.
End properties.

Lemma diff_findings_exact_witness :
  ∃ d, @DiffContractSnapshots latin1 base_snapshot next_snapshot = Ok d
    ∧ (∀ x, x ∈ elems (df_BreakingChanges d) ↔ breaking_change base_snapshot next_snapshot x)
    ∧ (∀ x, x ∈ elems (df_AdditiveChanges d) ↔ additive_change base_snapshot next_snapshot x).
Proof.
  apply (@diff_findings_exact latin1 latin1_laws);
    [snapshot_compute|snapshot_compute|apply base_unambiguous|apply next_unambiguous].
Defined.

Lemma no_breaking_iff_backward_compatible_witness :
  ¬ backward_compatible base_snapshot next_snapshot.
Proof.
  intros Hc.
  destruct (@DiffContractSnapshots latin1 base_snapshot next_snapshot) as [d|] eqn:E;
    [|vm_compute in E; discriminate E].
  pose proof (proj2 (@no_breaking_iff_backward_compatible latin1 latin1_laws _ _ _ E
    base_unambiguous next_unambiguous) Hc) as Hn.
  vm_compute in E. injection E as <-. discriminate Hn.
Defined.

Lemma diff_with_itself_is_empty_witness :
  @DiffContractSnapshots latin1 base_snapshot base_snapshot = Ok (MkSpecDiff "rev-1" "rev-1" None None).
Proof.
  apply (@diff_with_itself_is_empty latin1 latin1_laws base_snapshot); [snapshot_compute|apply base_unambiguous].
Defined.

Lemma finding_ids_name_rule_and_subject_witness :
  ∃ x, isLowerSHA256 (ch_ID x) = true ∧ ch_RuleID x = RuleOperationRemoved.
Proof.
  destruct (@DiffContractSnapshots latin1 base_snapshot next_snapshot) as [d|] eqn:E;
    [|vm_compute in E; discriminate E].
  assert (Hx : operation_removed (default zero_operation (operations base_snapshot !! 0%nat))
            ∈ elems (df_BreakingChanges d) ++ elems (df_AdditiveChanges d)).
  { vm_compute in E. injection E as <-. decide_compute. }
  exists (operation_removed (default zero_operation (operations base_snapshot !! 0%nat))).
  split; [|vm_compute; reflexivity].
  exact (proj1 (@finding_ids_name_rule_and_subject latin1 latin1_laws _ _ _ _ _ _ _ _ E E Hx Hx)).
Defined.

(** String keys can hide a change.  The sample [ambiguous_snapshot] passes
    validation, yet its two parameters share one comparison key, and comparing
    the snapshot with itself reports a breaking change. *)
Theorem ambiguous_parameter_keys_break_identity :
  @ValidateContractSnapshot latin1 ambiguous_snapshot = Ok tt ∧
  match @DiffContractSnapshots latin1 ambiguous_snapshot ambiguous_snapshot with
  | Ok d => (ch_RuleID <$> elems (df_BreakingChanges d)) = [RuleParameterBecameRequired]
  | Fail _ => False
  end.
Proof. vm_compute. done. Qed.
