(* ===== verification/Policy.v ===== *)
(** * Compatibility policy (domain/policy.go)

    Repository and server layers assign levels to rules and grant dated
    exceptions; [MergePolicy] composes them and [EvaluateFindings] turns the
    findings of a comparison into a verdict.  A rule level is a Go string; a
    layer's rules are a map.  The nilness of a policy's own slices is never
    observed, so they are lists; those of a result reach the JSON report. *)

From stdpp Require Import pretty.
From S2P Require Import Prelude GoString GoSha256 GoTime GoJson Identity Spec Snapshot SpecDiff.
From S2P Require Import Release.

Definition RuleLevelAllow : string := "allow".
Definition RuleLevelWarn : string := "warn".
Definition RuleLevelFail : string := "fail".

Definition PolicySourceRepository : string := "repository".
Definition PolicySourceServer : string := "server".

Record PolicyException := MkPolicyException {
  pe_FindingID : string;
  pe_RuleID : string;
  pe_Reason : string;
  pe_Author : string;
  pe_ExpiresAt : Time;
  pe_Source : string;
}.

Record PolicyLayer := MkPolicyLayer {
  pl_Name : string;
  pl_Source : string;
  pl_RequireReleaseBaseline : bool;
  pl_Rules : gmap string string;
  pl_Exceptions : list PolicyException;
}.

Record EffectivePolicy := MkEffectivePolicy {
  ep_Layers : list PolicyLayer;
  ep_RequireReleaseBaseline : bool;
}.

Record FindingDecision := MkFindingDecision {
  fd_Finding : SpecChange;
  fd_Level : string;
  fd_Source : string;
  fd_LayerName : string;
  fd_Excepted : bool;
}.

Record PolicyExceptionDisposition := MkPolicyExceptionDisposition {
  xd_LayerName : string;
  xd_Disposition : string;
  xd_Exception : PolicyException;
}.

Record PolicyResult := MkPolicyResult {
  pres_Verdict : string;
  pres_Decisions : slice FindingDecision;
  pres_AppliedExceptions : slice PolicyException;
  pres_ExceptionDispositions : slice PolicyExceptionDisposition;
}.

#[export] Instance PolicyException_eq_dec : EqDecision PolicyException.
Proof. solve_decision. Defined.
#[export] Instance PolicyLayer_eq_dec : EqDecision PolicyLayer.
Proof. solve_decision. Defined.
#[export] Instance EffectivePolicy_eq_dec : EqDecision EffectivePolicy.
Proof. solve_decision. Defined.
#[export] Instance FindingDecision_eq_dec : EqDecision FindingDecision.
Proof. solve_decision. Defined.
#[export] Instance PolicyExceptionDisposition_eq_dec : EqDecision PolicyExceptionDisposition.
Proof. solve_decision. Defined.
#[export] Instance PolicyResult_eq_dec : EqDecision PolicyResult.
Proof. solve_decision. Defined.

#[export] Instance PolicyException_value : GoValue PolicyException := λ e, VStruct [
  exported "FindingID" (pe_FindingID e); exported "RuleID" (pe_RuleID e);
  exported "Reason" (pe_Reason e); exported "Author" (pe_Author e);
  exported "ExpiresAt" (pe_ExpiresAt e); exported "Source" (pe_Source e)].
#[export] Instance FindingDecision_value : GoValue FindingDecision := λ d, VStruct [
  exported "Finding" (fd_Finding d); exported "Level" (fd_Level d); exported "Source" (fd_Source d);
  exported "LayerName" (fd_LayerName d); exported "Excepted" (fd_Excepted d)].
#[export] Instance PolicyExceptionDisposition_value : GoValue PolicyExceptionDisposition := λ d, VStruct [
  exported "LayerName" (xd_LayerName d); exported "Disposition" (xd_Disposition d);
  exported "Exception" (xd_Exception d)].
#[export] Instance PolicyResult_value : GoValue PolicyResult := λ r, VStruct [
  exported "Verdict" (pres_Verdict r);
  ("Decisions", "", value_slice (elems (pres_Decisions r)));
  ("AppliedExceptions", "", value_slice (elems (pres_AppliedExceptions r)));
  ("ExceptionDispositions", "", value_slice (elems (pres_ExceptionDispositions r)))].

Definition ExceptionDispositionApplied : string := "applied".
Definition ExceptionDispositionExpired : string := "expired".
Definition ExceptionDispositionNotApplicable : string := "not_applicable".

(** ** Rules and levels *)

Definition supportedRuleRegistry : list (string * string) :=
  [(RuleOperationRemoved, RuleLevelFail);
   (RuleOperationAdded, RuleLevelAllow);
   (RuleRequiredParameterAdded, RuleLevelFail);
   (RuleParameterBecameRequired, RuleLevelFail);
   (RuleRequestBodyBecameRequired, RuleLevelFail);
   (RuleResponseStatusRemoved, RuleLevelFail);
   (RuleResponseStatusAdded, RuleLevelAllow);
   (RuleSchemaRemoved, RuleLevelFail);
   (RuleSchemaAdded, RuleLevelAllow)].

Definition repositoryDefaultRules : gmap string string :=
  foldl (λ rules '(id, level), <[id := level]> rules) ∅ supportedRuleRegistry.

Definition isSupportedRuleID (ruleID : string) : bool :=
  existsb (λ '(id, _), bool_decide (id = ruleID)) supportedRuleRegistry.

Definition validRuleLevel (level : string) : bool :=
  bool_decide (level = RuleLevelAllow) || bool_decide (level = RuleLevelWarn)
  || bool_decide (level = RuleLevelFail).

Definition levelRank (level : string) : Z :=
  if bool_decide (level = RuleLevelAllow) then 0
  else if bool_decide (level = RuleLevelWarn) then 1
  else if bool_decide (level = RuleLevelFail) then 2
  else -1.

(** [rules[ruleID]], the empty level when absent. *)
Definition rule_level (rules : gmap string string) (ruleID : string) : string :=
  default "" (rules !! ruleID).

Definition sortedRuleIDs (rules : gmap string string) : list string :=
  sort_strings (map_to_list rules).*1.

Definition defaultLevelForFinding (finding : SpecChange) : string :=
  if bool_decide (ch_Severity finding = SpecChangeBreaking) then RuleLevelFail else RuleLevelAllow.

Definition contributionLevel (layer : PolicyLayer) (finding : SpecChange) : option string :=
  let configured := pl_Rules layer !! ch_RuleID finding in
  if bool_decide (pl_Source layer = PolicySourceRepository) then
    match configured with
    | Some level => Some level
    | None => Some (defaultLevelForFinding finding)
    end
  else configured.

(** ** Validation *)

Definition validatePolicyException (exception : PolicyException) (layerSource : string) : res unit :=
  validateCanonicalIdentity "finding id" (pe_FindingID exception) true ;;
  validateCanonicalIdentity "rule id" (pe_RuleID exception) true ;;
  let hasFindingID := negb (bool_decide (pe_FindingID exception = "")) in
  let hasRuleID := negb (bool_decide (pe_RuleID exception = "")) in
  throw_if (eqb hasFindingID hasRuleID) (Errorf "exactly one finding id or rule id is required" []) ;;
  throw_if (hasFindingID && negb (isLowerSHA256 (pe_FindingID exception)))
    (Errorf "finding id must be exactly 64 lowercase hexadecimal characters" []) ;;
  throw_if (hasRuleID && negb (isSupportedRuleID (pe_RuleID exception)))
    (Errorf "unknown rule %q" [EStr (pe_RuleID exception)]) ;;
  throw_if (bool_decide (TrimSpace (pe_Reason exception) = "")) (Errorf "reason is required" []) ;;
  throw_if (negb (valid_utf8 (pe_Reason exception))) (Errorf "reason must contain valid UTF-8" []) ;;
  validateCanonicalIdentity "author" (pe_Author exception) false ;;
  throw_if (IsZero (pe_ExpiresAt exception)) (Errorf "expiry is required" []) ;;
  throw_if (negb (bool_decide (pe_Source exception = layerSource)))
    (Errorf "source %q does not match layer source %q" [EStr (pe_Source exception); EStr layerSource]).

Definition validPolicyException (exception : PolicyException) (layerSource : string) : bool :=
  is_ok (validatePolicyException exception layerSource).

Definition validateLayer (layer : PolicyLayer) : res unit :=
  validateCanonicalIdentity "name" (pl_Name layer) false ;;
  throw_if (negb (bool_decide (pl_Source layer = PolicySourceRepository))
            && negb (bool_decide (pl_Source layer = PolicySourceServer)))
    (Errorf "source %q is invalid" [EStr (pl_Source layer)]) ;;
  for_each (λ ruleID,
    validateCanonicalIdentity "rule id" ruleID false ;;
    throw_if (negb (isSupportedRuleID ruleID)) (Errorf "unknown rule %q" [EStr ruleID]) ;;
    throw_if (negb (validRuleLevel (rule_level (pl_Rules layer) ruleID)))
      (Errorf "rule %q has invalid level %q" [EStr ruleID; EStr (rule_level (pl_Rules layer) ruleID)]))
    (sortedRuleIDs (pl_Rules layer)) ;;
  for_eachi (λ index exception,
    wrap_err (validatePolicyException exception (pl_Source layer))
      (λ e, Errorf "exception %d: %w" [EInt index; EErr e]))
    (pl_Exceptions layer).

(** ** Composition *)

Definition clonePolicyException (exception : PolicyException) : PolicyException :=
  MkPolicyException (pe_FindingID exception) (pe_RuleID exception) (pe_Reason exception)
    (pe_Author exception) (ToUTC (pe_ExpiresAt exception)) (pe_Source exception).

Definition clonePolicyLayer (layer : PolicyLayer) : PolicyLayer :=
  MkPolicyLayer (pl_Name layer) (pl_Source layer) (pl_RequireReleaseBaseline layer) (pl_Rules layer)
    (clonePolicyException <$> pl_Exceptions layer).

Definition normalizedRepositoryLayer (layer : PolicyLayer) : res PolicyLayer :=
  wrap_err (validateLayer layer)
    (λ e, Errorf "repository policy layer %q: %w" [EStr (pl_Name layer); EErr e]) ;;
  let cloned := clonePolicyLayer layer in
  mret (MkPolicyLayer (pl_Name cloned) (pl_Source cloned) (pl_RequireReleaseBaseline cloned)
          (pl_Rules layer ∪ repositoryDefaultRules) (pl_Exceptions cloned)).

(** The loop over the server layers.  Which of several weakened rules the
    error names depends on Go's map order; that there is one does not. *)
Fixpoint merge_server_layers (repository : PolicyLayer) (index : Z) (effective : EffectivePolicy)
    (layers : list PolicyLayer) : res EffectivePolicy :=
  match layers with
  | [] => mret effective
  | layer :: layers =>
      throw_if (negb (bool_decide (pl_Source layer = PolicySourceServer)))
        (Errorf "policy layer %d must be server" [EInt (index + 1)]) ;;
      wrap_err (validateLayer layer)
        (λ e, Errorf "policy layer %q: %w" [EStr (pl_Name layer); EErr e]) ;;
      for_each (λ '(ruleID, level),
        throw_if (levelRank level <? levelRank (rule_level (pl_Rules repository) ruleID))
          (Errorf "server rule %q cannot weaken repository level %q"
             [EStr ruleID; EStr (rule_level (pl_Rules repository) ruleID)]))
        (map_to_list (pl_Rules layer)) ;;
      merge_server_layers repository (index + 1)
        (MkEffectivePolicy (ep_Layers effective ++ [clonePolicyLayer layer])
           (ep_RequireReleaseBaseline effective || pl_RequireReleaseBaseline layer)) layers
  end.

Definition MergePolicy (layers : list PolicyLayer) : res EffectivePolicy :=
  match layers with
  | [] => Fail (Errorf "policy requires one repository layer" [])
  | first :: rest =>
      throw_if (negb (bool_decide (pl_Source first = PolicySourceRepository)))
        (Errorf "first policy layer must be repository" []) ;;
      repository ← normalizedRepositoryLayer first;
      merge_server_layers repository 0
        (MkEffectivePolicy [repository] (pl_RequireReleaseBaseline repository)) rest
  end.

(** ** Evaluation *)

(** [policyExceptionReference]: a layer and an exception by their indexes. *)
Abbreviation reference := (nat * nat)%type.

Definition matchingExceptions (layer : PolicyLayer) (finding : SpecChange) (evaluatedAt : Time) : list nat :=
  omap (λ '(index, exception),
    if negb (bool_decide (pe_Source exception = pl_Source layer))
       || negb (validPolicyException exception (pl_Source layer)) then None
    else if negb (Before evaluatedAt (pe_ExpiresAt exception)) then None
    else
      let matchesFinding := negb (bool_decide (pe_FindingID exception = ""))
                            && bool_decide (pe_FindingID exception = ch_ID finding) in
      let matchesRule := negb (bool_decide (pe_RuleID exception = ""))
                         && bool_decide (pe_RuleID exception = ch_RuleID finding) in
      if matchesFinding || matchesRule then Some index else None)
    (imap pair (pl_Exceptions layer)).

(** The first loop: a disposition for every exception, and where it is. *)
Definition disposition_of (layer : PolicyLayer) (exception : PolicyException) (evaluatedAt : Time)
    : PolicyExceptionDisposition :=
  MkPolicyExceptionDisposition (pl_Name layer)
    (if negb (Before evaluatedAt (pe_ExpiresAt exception)) then ExceptionDispositionExpired
     else ExceptionDispositionNotApplicable)
    (clonePolicyException exception).

Definition list_dispositions (layers : list PolicyLayer) (evaluatedAt : Time)
    : gmap reference nat * list PolicyExceptionDisposition :=
  foldl (λ acc '(layerIndex, layer),
    foldl (λ acc '(exceptionIndex, exception),
      (<[(layerIndex, exceptionIndex) := length acc.2]> acc.1,
       acc.2 ++ [disposition_of layer exception evaluatedAt]))
      acc (imap pair (pl_Exceptions layer)))
    (∅, []) (imap pair layers).

(** What the second loop carries. *)
Record evaluation := MkEvaluation {
  ev_Verdict : string;
  ev_Decisions : slice FindingDecision;
  ev_Applied : slice PolicyException;
  ev_Dispositions : list PolicyExceptionDisposition;
  ev_Seen : gset reference;
}.

Definition set_applied (d : PolicyExceptionDisposition) : PolicyExceptionDisposition :=
  MkPolicyExceptionDisposition (xd_LayerName d) ExceptionDispositionApplied (xd_Exception d).

(** Mark one matching exception of a layer as applied. *)
Definition apply_exception (indexes : gmap reference nat) (layerIndex : nat) (layer : PolicyLayer)
    (st : evaluation) (exceptionIndex : nat) : evaluation :=
  let reference := (layerIndex, exceptionIndex) in
  let dispositions := alter set_applied (default 0%nat (indexes !! reference)) (ev_Dispositions st) in
  if bool_decide (reference ∈ ev_Seen st) then
    MkEvaluation (ev_Verdict st) (ev_Decisions st) (ev_Applied st) dispositions (ev_Seen st)
  else
    MkEvaluation (ev_Verdict st) (ev_Decisions st)
      (gappend (ev_Applied st) (clonePolicyException <$> option_list (pl_Exceptions layer !! exceptionIndex)))
      dispositions ({[reference]} ∪ ev_Seen st).

Definition evaluate_layer (indexes : gmap reference nat) (evaluatedAt : Time) (finding : SpecChange)
    (st : evaluation) (il : nat * PolicyLayer) : evaluation :=
  let '(layerIndex, layer) := il in
  match contributionLevel layer finding with
  | None => st
  | Some level =>
      let matching := matchingExceptions layer finding evaluatedAt in
      let excepted := (0 <? length matching)%nat in
      let st := MkEvaluation (ev_Verdict st)
        (gappend (ev_Decisions st)
           [MkFindingDecision finding level (pl_Source layer) (pl_Name layer) excepted])
        (ev_Applied st) (ev_Dispositions st) (ev_Seen st) in
      let st := foldl (apply_exception indexes layerIndex layer) st matching in
      if bool_decide (level = RuleLevelFail) && negb excepted then
        MkEvaluation VerdictFail (ev_Decisions st) (ev_Applied st) (ev_Dispositions st) (ev_Seen st)
      else st
  end.

Definition EvaluateFindings (policy : EffectivePolicy) (findings : list SpecChange) (evaluatedAt : Time)
    : PolicyResult :=
  let '(indexes, dispositions) := list_dispositions (ep_Layers policy) evaluatedAt in
  let st := foldl (λ st finding,
      foldl (evaluate_layer indexes evaluatedAt finding) st (imap pair (ep_Layers policy)))
    (MkEvaluation VerdictPass None None dispositions ∅) findings in
  MkPolicyResult (ev_Verdict st) (ev_Decisions st) (ev_Applied st) (gappend None (ev_Dispositions st)).

(** ** What evaluation means *)

(** An exception that is in force at [t] and names the finding or its rule. *)
Record covers (layer : PolicyLayer) (t : Time) (f : SpecChange) (e : PolicyException) : Prop := {
  cv_source : pe_Source e = pl_Source layer;
  cv_valid : validatePolicyException e (pl_Source layer) = Ok tt;
  cv_expiry : t_ns t < t_ns (pe_ExpiresAt e);
  cv_names : (pe_FindingID e ≠ "" ∧ pe_FindingID e = ch_ID f) ∨ (pe_RuleID e ≠ "" ∧ pe_RuleID e = ch_RuleID f);
}.

(** The finding counts as a failure of the layer. *)
Definition fails (layer : PolicyLayer) (t : Time) (f : SpecChange) : Prop :=
  contributionLevel layer f = Some RuleLevelFail
  ∧ ∀ e, e ∈ pl_Exceptions layer → ¬ covers layer t f e.

(** The exceptions of a policy with their references, in listing order. *)
Definition exceptions_of (il : nat * PolicyLayer) : list (reference * (PolicyLayer * PolicyException)) :=
  (λ je, ((il.1, je.1), (il.2, je.2))) <$> imap pair (pl_Exceptions il.2).
Definition entries (layers : list PolicyLayer) : list (reference * (PolicyLayer * PolicyException)) :=
  imap pair layers ≫= exceptions_of.

(** Some finding the layer contributes to is covered by the exception. *)
Definition applies (layers : list PolicyLayer) (fs : list SpecChange) (t : Time) (r : reference) : Prop :=
  ∃ layer e f, layers !! r.1 = Some layer ∧ pl_Exceptions layer !! r.2 = Some e
    ∧ f ∈ fs ∧ is_Some (contributionLevel layer f) ∧ covers layer t f e.

(** ** Lemmas: exceptions *)

Lemma matching_iff layer f t j :
  j ∈ matchingExceptions layer f t ↔ ∃ e, pl_Exceptions layer !! j = Some e ∧ covers layer t f e.
Proof.
  unfold matchingExceptions. rewrite list_elem_of_omap. split.
  - intros ([i e] & Hin%elem_of_imap_pair & Hj). revert Hj. unfold Before.
    repeat case_match; intros [= <-]. exists e. split; [done|]. bool_prop.
    match goal with H : _ || _ = true |- _ => apply orb_true_iff in H as [H|H]; bool_prop end.
    all: constructor; [done| |done|auto]; unfold validPolicyException in *; by destruct (validatePolicyException _ _) as [[]|].
  - intros (e & He & [Hs Hv Ht Hn]). exists (j, e). split; [by apply elem_of_imap_pair|].
    unfold validPolicyException. rewrite Hv, (bool_decide_eq_true_2 (pe_Source e = _)) by done.
    assert (Before t (pe_ExpiresAt e) = true) as -> by by apply Z.ltb_lt. cbn [negb orb is_ok].
    destruct Hn as [[H1 H2]|[H1 H2]].
    + by rewrite (bool_decide_eq_false_2 _ H1), (bool_decide_eq_true_2 _ H2).
    + rewrite (bool_decide_eq_false_2 _ H1), (bool_decide_eq_true_2 _ H2). by rewrite orb_true_r.
Qed.

Lemma excepted_iff layer f t :
  (0 <? length (matchingExceptions layer f t))%nat = true ↔ ∃ e, e ∈ pl_Exceptions layer ∧ covers layer t f e.
Proof.
  destruct (matchingExceptions layer f t) as [|j l] eqn:E; simpl.
  - split; [done|]. intros (e & [j Hj]%list_elem_of_lookup & Hc).
    assert (Hin : j ∈ matchingExceptions layer f t) by (apply matching_iff; eauto).
    rewrite E in Hin. by apply elem_of_nil in Hin.
  - split; [|done]. intros _. assert (Hin : j ∈ matchingExceptions layer f t) by (rewrite E; by left).
    apply matching_iff in Hin as (e & He & Hc). eauto using list_elem_of_lookup_2.
Qed.

Lemma fails_iff layer f t :
  contributionLevel layer f = Some RuleLevelFail ∧ (0 <? length (matchingExceptions layer f t))%nat = false
  ↔ fails layer t f.
Proof.
  unfold fails. rewrite <-not_true_iff_false, excepted_iff. split; intros [? Hn]; (split; [done|]).
  - intros e He Hc. apply Hn. eauto.
  - intros (e & He & Hc). by apply (Hn e).
Qed.

(** *** The disposition table *)

Lemma entries_elem layers i j layer e :
  ((i, j), (layer, e)) ∈ entries layers ↔ layers !! i = Some layer ∧ pl_Exceptions layer !! j = Some e.
Proof.
  unfold entries. rewrite list_elem_of_bind. split.
  - intros ([i' l'] & ([j' e'] & E & Hj)%list_elem_of_fmap & Hi). simpl in *. simplify_eq.
    apply elem_of_imap_pair in Hi, Hj. done.
  - intros [Hi Hj]. exists (i, layer). rewrite elem_of_imap_pair. split; [|done].
    apply list_elem_of_fmap. exists (j, e). by rewrite elem_of_imap_pair.
Qed.

Lemma entries_nodup layers : NoDup (entries layers).*1.
Proof.
  assert (Hn : NoDup (entries layers)).
  { unfold entries. apply NoDup_bind; [|..|apply NoDup_imap_fst].
    - intros [i l] [i' l'] x Hi Hi' (y & -> & _)%list_elem_of_fmap (y' & E & _)%list_elem_of_fmap.
      simpl in E. simplify_eq. apply elem_of_imap_pair in Hi, Hi'. congruence.
    - intros [i l] _. apply NoDup_fmap_2_strong; [|apply NoDup_imap_fst]. by intros [] [] _ _ [= -> ->]. }
  apply NoDup_fmap_2_strong; [|done]. intros [[i j] [l e]] [[i' j'] [l' e']] H1 H2 [= <- <-].
  apply entries_elem in H1 as [H1 H3], H2 as [H2 H4]. congruence.
Qed.

Definition listed (t : Time) (x : reference * (PolicyLayer * PolicyException)) : PolicyExceptionDisposition :=
  disposition_of x.2.1 x.2.2 t.

Lemma list_dispositions_entries layers t :
  list_dispositions layers t =
  foldl (λ acc x, (<[x.1 := length acc.2]> acc.1, acc.2 ++ [listed t x])) (∅, []) (entries layers).
Proof.
  unfold list_dispositions, entries. rewrite foldl_bind. apply foldl_ext_elem. intros acc [i l] _.
  unfold exceptions_of. rewrite foldl_map. apply foldl_ext_elem. by intros acc' [j e] _.
Qed.

Lemma list_dispositions_spec layers t :
  (list_dispositions layers t).2 = listed t <$> entries layers
  ∧ ∀ n x, entries layers !! n = Some x → (list_dispositions layers t).1 !! x.1 = Some n.
Proof.
  rewrite list_dispositions_entries. pose proof (entries_nodup layers) as Hn.
  induction (entries layers) as [|x l IH] using rev_ind; [done|].
  rewrite fmap_app in Hn. apply NoDup_app in Hn as (Hl & Hd & _). destruct (IH Hl) as [E2 E1].
  rewrite foldl_app. simpl. rewrite E2, fmap_app. split; [done|]. intros n y Hy.
  apply lookup_app_Some in Hy as [Hy|[Hge Hy]].
  - rewrite lookup_insert_ne; [by apply E1|]. intros Ex.
    apply (Hd x.1); [|by left]. rewrite Ex. apply list_elem_of_fmap. eauto using list_elem_of_lookup_2.
  - destruct (n - length l)%nat as [|k] eqn:Ek; [|by destruct k]. simplify_eq/=.
    rewrite lookup_insert_eq, length_fmap. f_equal. lia.
Qed.

(** *** The evaluation loop *)

(** The visits of the second loop, in order. *)
Definition visits (layers : list PolicyLayer) (fs : list SpecChange) : list (SpecChange * (nat * PolicyLayer)) :=
  fs ≫= λ f, (λ il, (f, il)) <$> imap pair layers.

Lemma visits_elem layers fs f i layer :
  (f, (i, layer)) ∈ visits layers fs ↔ f ∈ fs ∧ layers !! i = Some layer.
Proof.
  unfold visits. rewrite list_elem_of_bind. split.
  - intros (f' & ([i' l'] & [= -> -> ->] & Hi)%list_elem_of_fmap & Hf). by rewrite elem_of_imap_pair in Hi.
  - intros [Hf Hi]. exists f. split; [|done]. apply list_elem_of_fmap. exists (i, layer). by rewrite elem_of_imap_pair.
Qed.

Definition start (layers : list PolicyLayer) (t : Time) : evaluation :=
  MkEvaluation VerdictPass None None (list_dispositions layers t).2 ∅.

Definition visit (layers : list PolicyLayer) (t : Time) (st : evaluation) (v : SpecChange * (nat * PolicyLayer)) : evaluation :=
  evaluate_layer (list_dispositions layers t).1 t v.1 st v.2.

Lemma EvaluateFindings_visits policy fs t :
  let st := foldl (visit (ep_Layers policy) t) (start (ep_Layers policy) t) (visits (ep_Layers policy) fs) in
  EvaluateFindings policy fs t =
  MkPolicyResult (ev_Verdict st) (ev_Decisions st) (ev_Applied st) (gappend None (ev_Dispositions st)).
Proof.
  unfold EvaluateFindings, start. destruct (list_dispositions _ _) as [indexes dispositions] eqn:E.
  unfold visits. rewrite foldl_bind. cbn [fst snd].
  assert (Es : ∀ s, foldl (λ st f, foldl (evaluate_layer indexes t f) st (imap pair (ep_Layers policy))) s fs
          = foldl (λ st f, foldl (visit (ep_Layers policy) t) st ((λ il, (f, il)) <$> imap pair (ep_Layers policy))) s fs).
  { intros s. apply foldl_ext_elem. intros st f _. rewrite foldl_map. apply foldl_ext_elem.
    intros st' il _. unfold visit. by rewrite E. }
  by rewrite Es.
Qed.

Definition shown (t : Time) (seen : gset reference) (x : reference * (PolicyLayer * PolicyException))
    : PolicyExceptionDisposition :=
  if decide (x.1 ∈ seen) then set_applied (listed t x) else listed t x.

Definition exception_at (layers : list PolicyLayer) (r : reference) : list PolicyException :=
  clonePolicyException <$> option_list (layers !! r.1 ≫= λ layer, pl_Exceptions layer !! r.2).

(** The exception bookkeeping agrees with the set of applied references. *)
Record booked (layers : list PolicyLayer) (t : Time) (st : evaluation) : Prop := {
  bk_dispositions : ev_Dispositions st = shown t (ev_Seen st) <$> entries layers;
  bk_applied : ∃ rs, NoDup rs ∧ (∀ r, r ∈ rs ↔ r ∈ ev_Seen st) ∧ elems (ev_Applied st) = rs ≫= exception_at layers;
}.

Lemma alter_shown layers t seen r n x :
  entries layers !! n = Some x → x.1 = r →
  alter set_applied n (shown t seen <$> entries layers) = shown t ({[r]} ∪ seen) <$> entries layers.
Proof.
  intros Hx <-. apply list_eq. intros m. rewrite list_lookup_fmap.
  destruct (decide (m = n)) as [->|Hne].
  - rewrite list_lookup_alter_eq, list_lookup_fmap, Hx. simpl. unfold shown.
    rewrite (decide_True (P := x.1 ∈ {[x.1]} ∪ seen)) by set_solver. by case_decide.
  - rewrite list_lookup_alter_ne, list_lookup_fmap by done.
    destruct (entries layers !! m) as [y|] eqn:Ey; [|done]. simpl. f_equal. unfold shown.
    assert (y.1 ≠ x.1) as Hyx.
    { intros E. apply Hne. eapply NoDup_lookup; [apply (entries_nodup layers)|..];
        rewrite list_lookup_fmap; [by rewrite Ey|by rewrite Hx, E]. }
    destruct (decide (y.1 ∈ seen)); [rewrite decide_True by set_solver|rewrite decide_False by set_solver]; done.
Qed.

Lemma apply_exception_booked layers t i layer j e st :
  layers !! i = Some layer → pl_Exceptions layer !! j = Some e → booked layers t st →
  let st' := apply_exception (list_dispositions layers t).1 i layer st j in
  booked layers t st' ∧ ev_Seen st' = {[(i, j)]} ∪ ev_Seen st
  ∧ ev_Verdict st' = ev_Verdict st ∧ ev_Decisions st' = ev_Decisions st.
Proof.
  intros Hi Hj [Hd (rs & Hn & Hrs & Ha)] st'.
  destruct (list_elem_of_lookup_1 _ _ (proj2 (entries_elem layers i j layer e) (conj Hi Hj))) as [n Hx].
  destruct (list_dispositions_spec layers t) as [_ Hindex].
  pose proof (Hindex _ _ Hx) as En. simpl in En.
  assert (Hal : alter set_applied (default 0%nat ((list_dispositions layers t).1 !! (i, j))) (ev_Dispositions st)
                = shown t ({[(i, j)]} ∪ ev_Seen st) <$> entries layers).
  { rewrite En, Hd. by eapply alter_shown. }
  unfold st', apply_exception. rewrite Hal. case_bool_decide as Hin; simpl.
  - assert ({[(i, j)]} ∪ ev_Seen st = ev_Seen st) as Es by set_solver.
    rewrite Es. split; [|done]. constructor; [done|]. by exists rs.
  - split; [|done]. constructor; [done|]. exists (rs ++ [(i, j)]). simpl. split; [|split].
    + apply NoDup_app. split; [done|]. split; [|apply NoDup_singleton].
      intros r Hr ->%list_elem_of_singleton. by apply Hin, Hrs.
    + intros r. rewrite elem_of_app, list_elem_of_singleton, Hrs. set_solver.
    + rewrite elems_gappend, Ha, bind_app. csimpl. rewrite app_nil_r. unfold exception_at. simpl.
      by rewrite Hi.
Qed.

Lemma apply_exceptions_booked layers t i layer js st :
  layers !! i = Some layer → Forall (λ j, is_Some (pl_Exceptions layer !! j)) js → booked layers t st →
  let st' := foldl (apply_exception (list_dispositions layers t).1 i layer) st js in
  booked layers t st' ∧ (∀ r, r ∈ ev_Seen st' ↔ r ∈ ev_Seen st ∨ ∃ j, j ∈ js ∧ r = (i, j))
  ∧ ev_Verdict st' = ev_Verdict st ∧ ev_Decisions st' = ev_Decisions st.
Proof.
  intros Hi Hjs. revert st. induction Hjs as [|j js [e He] _ IH]; intros st Hb; simpl.
  - split; [done|]. split; [set_solver|done].
  - destruct (apply_exception_booked _ _ _ _ _ _ _ Hi He Hb) as (Hb' & Es & Ev & Ed).
    destruct (IH _ Hb') as (Hb'' & Hs & -> & ->). split; [done|]. split; [|done].
    intros r. rewrite Hs, Es. set_solver.
Qed.

Definition decision_of (t : Time) (v : SpecChange * (nat * PolicyLayer)) : option FindingDecision :=
  (λ level, MkFindingDecision v.1 level (pl_Source v.2.2) (pl_Name v.2.2)
              (0 <? length (matchingExceptions v.2.2 v.1 t))%nat) <$> contributionLevel v.2.2 v.1.

(** The references the visits made so far have applied. *)
Definition visited (vs : list (SpecChange * (nat * PolicyLayer))) (t : Time) (r : reference) : Prop :=
  ∃ f layer e, (f, (r.1, layer)) ∈ vs ∧ is_Some (contributionLevel layer f)
    ∧ pl_Exceptions layer !! r.2 = Some e ∧ covers layer t f e.

Record evaluated (layers : list PolicyLayer) (t : Time) (vs : list (SpecChange * (nat * PolicyLayer)))
    (st : evaluation) : Prop := {
  el_booked : booked layers t st;
  el_seen : ∀ r, r ∈ ev_Seen st ↔ visited vs t r;
  el_decisions : elems (ev_Decisions st) = omap (decision_of t) vs;
  el_verdict : ev_Verdict st = VerdictFail ∧ (∃ v, v ∈ vs ∧ fails v.2.2 t v.1)
               ∨ ev_Verdict st = VerdictPass ∧ ∀ v, v ∈ vs → ¬ fails v.2.2 t v.1;
}.

Lemma start_evaluated layers t : evaluated layers t [] (start layers t).
Proof.
  constructor; simpl.
  - constructor; simpl.
    + rewrite (proj1 (list_dispositions_spec layers t)). apply list_fmap_ext. intros _ x _.
      unfold shown. by rewrite decide_False by set_solver.
    + exists []. split; [constructor|]. split; [set_solver|done].
  - intros r. split; [set_solver|]. by intros (? & ? & ? & ?%elem_of_nil & _).
  - done.
  - right. split; [done|]. by intros v ?%elem_of_nil.
Qed.

Lemma visited_snoc vs t f i layer r :
  visited (vs ++ [(f, (i, layer))]) t r ↔
  visited vs t r ∨ (is_Some (contributionLevel layer f) ∧ ∃ j, j ∈ matchingExceptions layer f t ∧ r = (i, j)).
Proof.
  setoid_rewrite matching_iff. unfold visited. split.
  - intros (f' & l' & e & [Hin|E%list_elem_of_singleton]%elem_of_app & Hc & He & Hcov); [left; by eauto 10|].
    right. simplify_eq. split; [done|]. exists r.2. split; [by exists e|by destruct r].
  - intros [(f' & l' & e & Hin & ?)|(Hc & j & (e & He & Hcov) & ->)].
    + exists f', l', e. split; [apply elem_of_app; by left|done].
    + exists f, layer, e. split; [apply elem_of_app; right; by left|done].
Qed.

Lemma visit_evaluated layers t vs st f i layer :
  layers !! i = Some layer → evaluated layers t vs st →
  evaluated layers t (vs ++ [(f, (i, layer))]) (visit layers t st (f, (i, layer))).
Proof.
  intros Hi [Hb Hs Hd Hv]. unfold visit, evaluate_layer. cbn [fst snd].
  assert (Hv' : (ev_Verdict st = VerdictFail ∧ (∃ v, v ∈ vs ++ [(f, (i, layer))] ∧ fails v.2.2 t v.1))
    ∨ (ev_Verdict st = VerdictPass ∧ ∀ v, v ∈ vs → ¬ fails v.2.2 t v.1)).
  { destruct Hv as [(Ev & v & Hin & Hf)|?]; [left|by right]. split; [done|]. exists v. rewrite elem_of_app. auto. }
  destruct (contributionLevel layer f) as [level|] eqn:El.
  2: { constructor; [done| | |].
       - intros r. rewrite visited_snoc, Hs, El. split; [by left|]. by intros [?|[[? ?] _]].
       - assert (E : decision_of t (f, (i, layer)) = None) by (unfold decision_of; simpl; by rewrite El).
         rewrite omap_app, Hd. simpl. by rewrite E, app_nil_r.
       - destruct Hv' as [?|[Ev Hn]]; [by left|right]. split; [done|].
         intros v [Hin| ->%list_elem_of_singleton]%elem_of_app; [by apply Hn|].
         intros [Hc _]. simpl in Hc. congruence. }
  set (st1 := MkEvaluation (ev_Verdict st) _ _ _ _).
  assert (Hb1 : booked layers t st1) by (destruct Hb; by constructor).
  assert (Hjs : Forall (λ j, is_Some (pl_Exceptions layer !! j)) (matchingExceptions layer f t)).
  { apply Forall_forall. intros j (e & He & _)%matching_iff. by eexists. }
  destruct (apply_exceptions_booked layers t i layer _ st1 Hi Hjs Hb1) as (Hb2 & Hs2 & Ev2 & Ed2).
  set (st2 := foldl _ st1 _) in *.
  assert (Hseen : ∀ r, r ∈ ev_Seen st2 ↔ visited (vs ++ [(f, (i, layer))]) t r).
  { intros r. rewrite visited_snoc, Hs2, El. simpl. rewrite Hs.
    split; (intros [?|?]; [by left|right]); [by split|tauto]. }
  assert (Hdec : elems (ev_Decisions st2) = omap (decision_of t) (vs ++ [(f, (i, layer))])).
  { rewrite Ed2. unfold st1. cbn [ev_Decisions]. rewrite elems_gappend, Hd, omap_app. f_equal. simpl.
    unfold decision_of. simpl. by rewrite El. }
  pose proof (fails_iff layer f t) as Hf. rewrite El in Hf.
  destruct (bool_decide (level = RuleLevelFail) && negb (0 <? length (matchingExceptions layer f t))%nat) eqn:Eb.
  - constructor; [by destruct Hb2; constructor|done|done|]. left. split; [done|].
    exists (f, (i, layer)). split; [apply elem_of_app; right; by left|]. apply Hf. bool_prop. by subst.
  - constructor; [done..|]. rewrite Ev2. destruct Hv' as [?|[Ev Hn]]; [by left|right]. split; [done|].
    intros v [Hin| ->%list_elem_of_singleton]%elem_of_app; [by apply Hn|]. simpl. intros [[= ->] Hm]%Hf.
    by rewrite Hm, bool_decide_eq_true_2 in Eb.
Qed.

Lemma visits_evaluated layers t fs :
  evaluated layers t (visits layers fs) (foldl (visit layers t) (start layers t) (visits layers fs)).
Proof.
  assert (Hall : ∀ vs, (∀ f i layer, (f, (i, layer)) ∈ vs → layers !! i = Some layer) →
    evaluated layers t vs (foldl (visit layers t) (start layers t) vs)).
  { induction vs as [|[f [i layer]] vs IH] using rev_ind; intros Hin; [apply start_evaluated|].
    rewrite foldl_app. simpl. apply visit_evaluated.
    - apply (Hin f i layer). set_solver.
    - apply IH. intros f' i' l' ?. apply (Hin f'). set_solver. }
  apply Hall. by intros f i layer [_ ?]%visits_elem.
Qed.

(** ** Lemmas: composition *)

Record exception_ok (source : string) (e : PolicyException) : Prop := {
  xo_finding : canonical_opt (pe_FindingID e);
  xo_rule : canonical_opt (pe_RuleID e);
  xo_one : pe_FindingID e = "" ↔ pe_RuleID e ≠ "";
  xo_digest : pe_FindingID e ≠ "" → isLowerSHA256 (pe_FindingID e) = true;
  xo_supported : pe_RuleID e ≠ "" → isSupportedRuleID (pe_RuleID e) = true;
  xo_reason : TrimSpace (pe_Reason e) ≠ "";
  xo_utf8 : valid_utf8 (pe_Reason e) = true;
  xo_author : canonical (pe_Author e);
  xo_expiry : IsZero (pe_ExpiresAt e) = false;
  xo_source : pe_Source e = source;
}.

Record layer_ok (l : PolicyLayer) : Prop := {
  lo_name : canonical (pl_Name l);
  lo_source : pl_Source l = PolicySourceRepository ∨ pl_Source l = PolicySourceServer;
  lo_rules : ∀ r v, pl_Rules l !! r = Some v → isSupportedRuleID r = true ∧ validRuleLevel v = true;
  lo_exceptions : Forall (exception_ok (pl_Source l)) (pl_Exceptions l);
}.

Lemma validatePolicyException_ok e source :
  validatePolicyException e source = Ok tt ↔ exception_ok source e.
Proof.
  unfold validatePolicyException, validateCanonicalIdentity. cbv zeta.
  rewrite !seq_ok, !throw_if_ok, !ValidateCanonicalIdentity_optional, ValidateCanonicalIdentity_required.
  split.
  - intros (H1 & H2 & H3 & H4 & H5 & H6 & H7 & H8 & H9 & H10). bool_prop.
    constructor; try done.
    + revert H3. repeat case_bool_decide; simpl; try done; tauto.
    + intros Hne. rewrite (bool_decide_eq_false_2 _ Hne) in H4. by apply negb_false_iff in H4.
    + intros Hne. rewrite (bool_decide_eq_false_2 _ Hne) in H5. by apply negb_false_iff in H5.
  - intros [H1 H2 H3 H4 H5 H6 H7 H8 H9 H10]. split_and!; try done.
    + repeat case_bool_decide; simpl; try done; tauto.
    + case_bool_decide as E; [done|]. by rewrite H4.
    + case_bool_decide as E; [done|]. by rewrite H5.
    + by apply bool_decide_eq_false_2.
    + by rewrite H7.
    + by rewrite bool_decide_eq_true_2.
Qed.

Lemma supported_canonical r : isSupportedRuleID r = true → canonical r.
Proof.
  intros Hr. apply existsb_exists in Hr as ([id level] & Hin & E). bool_prop. subst id.
  assert (Hall : Forall (λ '(id, _), ValidateCanonicalIdentity "" id false = Ok tt) supportedRuleRegistry)
    by (repeat constructor).
  rewrite Forall_forall in Hall. apply (ValidateCanonicalIdentity_required "").
  apply (Hall (r, level)). by apply list_elem_of_In.
Qed.

Lemma sortedRuleIDs_elem rules r : r ∈ sortedRuleIDs rules ↔ is_Some (rules !! r).
Proof.
  unfold sortedRuleIDs, sort_strings. rewrite sort_by_elem_of, list_elem_of_fmap. split.
  - intros ([r' v] & -> & ?%elem_of_map_to_list). by eexists.
  - intros [v Hv]. exists (r, v). split; [done|]. by apply elem_of_map_to_list.
Qed.

Lemma rule_level_Some rules r v : rules !! r = Some v → rule_level rules r = v.
Proof. unfold rule_level. by intros ->. Qed.

Lemma validateLayer_ok l : validateLayer l = Ok tt ↔ layer_ok l.
Proof.
  unfold validateLayer, validateCanonicalIdentity.
  rewrite !seq_ok, throw_if_ok, ValidateCanonicalIdentity_required.
  rewrite (for_eachi_ok_Forall _ (exception_ok (pl_Source l)))
    by (intros; by rewrite wrap_err_ok, validatePolicyException_ok).
  rewrite (for_each_ok_Forall _ (λ r, isSupportedRuleID r = true
                                     ∧ validRuleLevel (rule_level (pl_Rules l) r) = true)).
  2: { intros r. rewrite !seq_ok, !throw_if_ok, !negb_false_iff, ValidateCanonicalIdentity_required.
       split; [tauto|]. intros []. auto using supported_canonical. }
  rewrite Forall_forall. setoid_rewrite sortedRuleIDs_elem. split.
  - intros (H1 & H2 & H3 & H4). constructor; try done.
    + destruct (bool_decide _) eqn:E1 in H2; bool_prop; [by left|].
      destruct (bool_decide _) eqn:E2 in H2; bool_prop; [by right|done].
    + intros r v Hr. destruct (H3 r (ex_intro _ v Hr)) as (? & Hv). by rewrite (rule_level_Some _ _ _ Hr) in Hv.
  - intros [H1 H2 H3 H4]. split_and!; try done.
    + by destruct H2 as [-> | ->].
    + intros r [v Hr]. destruct (H3 r v Hr). by rewrite (rule_level_Some _ _ _ Hr).
Qed.

Lemma defaults_cover r : is_Some (repositoryDefaultRules !! r) ↔ isSupportedRuleID r = true.
Proof.
  split.
  - intros [v Hv]. apply existsb_exists.
    assert (Hm : ∀ l (m : gmap string string), foldl (λ rules '(id, level), <[id := level]> rules) m l !! r = Some v →
      (∃ level, In (r, level) l) ∨ m !! r = Some v).
    { clear. induction l as [|[id level] l IH]; intros m Hm; [by right|]. apply IH in Hm as [[lv ?]|Hm]; [left; exists lv; by right|].
      destruct (decide (id = r)) as [->|Hne]; [left; exists level; by left|]. right. by rewrite lookup_insert_ne in Hm. }
    apply Hm in Hv as [[level Hin]|Hv]; [|by rewrite lookup_empty in Hv].
    exists (r, level). split; [done|]. by apply bool_decide_eq_true.
  - intros ([id level] & Hin & E)%existsb_exists. bool_prop. subst id.
    assert (Hall : Forall (λ rule, is_Some (repositoryDefaultRules !! rule.1)) supportedRuleRegistry) by decide_compute.
    rewrite Forall_forall in Hall. apply (Hall (r, level)). by apply list_elem_of_In.
Qed.

Lemma default_level_valid r v : repositoryDefaultRules !! r = Some v → validRuleLevel v = true.
Proof.
  intros Hv.
  assert (Hall : map_Forall (λ _ v, validRuleLevel v = true) repositoryDefaultRules) by decide_compute.
  by apply Hall in Hv.
Qed.

Lemma clone_exception_ok source e : exception_ok source (clonePolicyException e) ↔ exception_ok source e.
Proof. split; intros []; by constructor. Qed.

Lemma clone_exception_idem e : clonePolicyException (clonePolicyException e) = clonePolicyException e.
Proof. done. Qed.

Lemma clone_layer_idem l : clonePolicyLayer (clonePolicyLayer l) = clonePolicyLayer l.
Proof. unfold clonePolicyLayer. simpl. f_equal. by rewrite <-list_fmap_compose. Qed.

Lemma clone_layer_ok l : layer_ok (clonePolicyLayer l) ↔ layer_ok l.
Proof.
  split; intros [H1 H2 H3 H4]; constructor; try done; simpl in *.
  - rewrite Forall_fmap in H4. eapply Forall_impl; [exact H4|]. intros e. apply clone_exception_ok.
  - rewrite Forall_fmap. eapply Forall_impl; [exact H4|]. intros e. apply clone_exception_ok.
Qed.

(** The repository layer with the registry's defaults filled in. *)
Definition with_defaults (l : PolicyLayer) : PolicyLayer :=
  MkPolicyLayer (pl_Name l) (pl_Source l) (pl_RequireReleaseBaseline l)
    (pl_Rules l ∪ repositoryDefaultRules) (clonePolicyException <$> pl_Exceptions l).

Lemma with_defaults_ok l : layer_ok l → layer_ok (with_defaults l).
Proof.
  intros Hl. pose proof Hl as [H1 H2 H3 H4]. constructor; simpl; try done.
  - intros r v [Hr|[_ Hr]]%lookup_union_Some_raw; [by apply H3|]. split; [|by eapply default_level_valid].
    apply defaults_cover. by eexists.
  - rewrite Forall_fmap. eapply Forall_impl; [exact H4|]. intros e. apply clone_exception_ok.
Qed.

Lemma with_defaults_idem l : with_defaults (with_defaults l) = with_defaults l.
Proof.
  unfold with_defaults. simpl. f_equal.
  - rewrite <-(assoc_L (∪)). by rewrite (idemp_L (∪) repositoryDefaultRules).
  - by rewrite <-list_fmap_compose.
Qed.

(** A server layer that repeats or tightens the repository's levels. *)
Definition tightens (repository l : PolicyLayer) : Prop :=
  pl_Source l = PolicySourceServer ∧ layer_ok l
  ∧ ∀ r v, pl_Rules l !! r = Some v → levelRank (rule_level (pl_Rules repository) r) ≤ levelRank v.

Lemma merge_server_layers_iff repository layers i effective p :
  merge_server_layers repository i effective layers = Ok p ↔
  Forall (tightens repository) layers
  ∧ p = MkEffectivePolicy (ep_Layers effective ++ (clonePolicyLayer <$> layers))
          (foldl orb (ep_RequireReleaseBaseline effective) (pl_RequireReleaseBaseline <$> layers)).
Proof.
  revert i effective. induction layers as [|l layers IH]; intros i effective; cbn [merge_server_layers].
  { rewrite app_nil_r. destruct effective. simpl.
    split; [intros [= <-]|intros [_ ->]]; [split; [by constructor|done]|done]. }
  rewrite !seq_ok, throw_if_ok, negb_false_iff, bool_decide_eq_true, wrap_err_ok, validateLayer_ok, IH, Forall_cons.
  assert (Hw : for_each (λ '(ruleID, level),
        throw_if (levelRank level <? levelRank (rule_level (pl_Rules repository) ruleID))
          (Errorf "server rule %q cannot weaken repository level %q"
             [EStr ruleID; EStr (rule_level (pl_Rules repository) ruleID)]))
        (map_to_list (pl_Rules l)) = Ok tt ↔
    ∀ r v, pl_Rules l !! r = Some v → levelRank (rule_level (pl_Rules repository) r) ≤ levelRank v).
  { rewrite for_each_ok, Forall_forall. split.
    - intros Ha r v Hr%elem_of_map_to_list. specialize (Ha _ Hr). simpl in Ha.
      rewrite throw_if_ok in Ha. by apply Z.ltb_ge in Ha.
    - intros Ha [r v] Hr. rewrite throw_if_ok. apply Z.ltb_ge, Ha. by apply elem_of_map_to_list. }
  rewrite Hw. unfold tightens. simpl. rewrite <-(app_assoc _ [clonePolicyLayer l]). tauto.
Qed.

Lemma existsb_clone l :
  existsb pl_RequireReleaseBaseline (clonePolicyLayer <$> l) = existsb pl_RequireReleaseBaseline l.
Proof. induction l as [|x l IH]; csimpl; [done|]. by rewrite IH. Qed.

(** What [MergePolicy] accepts, and what it makes of it. *)
Lemma MergePolicy_iff first rest p :
  MergePolicy (first :: rest) = Ok p ↔
  (pl_Source first = PolicySourceRepository ∧ layer_ok first
   ∧ Forall (tightens (with_defaults first)) rest)
  ∧ p = MkEffectivePolicy (with_defaults first :: (clonePolicyLayer <$> rest))
          (existsb pl_RequireReleaseBaseline (first :: rest)).
Proof.
  cbn [MergePolicy]. unfold normalizedRepositoryLayer.
  assert (He : ∀ b, foldl orb b (pl_RequireReleaseBaseline <$> rest) = b || existsb pl_RequireReleaseBaseline rest).
  { induction rest as [|l rest IH]; intros b; simpl; [by rewrite orb_false_r|]. by rewrite IH, orb_assoc. }
  rewrite !seq_ok, throw_if_ok, negb_false_iff, bool_decide_eq_true. split.
  - intros (Hs & (l & [Hv%wrap_err_ok [= <-]]%seq_ok & Hm)%bind_ok). apply validateLayer_ok in Hv.
    fold (with_defaults first) in Hm. apply merge_server_layers_iff in Hm as [Hr ->]. simpl. by rewrite He.
  - intros ((Hs & Hl & Hr) & ->). split; [done|].
    apply validateLayer_ok in Hl. rewrite Hl. cbn [wrap_err mbind res_bind mret res_ret].
    fold (with_defaults first). apply merge_server_layers_iff. split; [done|]. simpl. by rewrite He.
Qed.

Lemma verdict_cases policy fs t :
  (pres_Verdict (EvaluateFindings policy fs t) = VerdictFail
     ∧ ∃ f layer, f ∈ fs ∧ layer ∈ ep_Layers policy ∧ fails layer t f)
  ∨ (pres_Verdict (EvaluateFindings policy fs t) = VerdictPass
     ∧ ∀ f layer, f ∈ fs → layer ∈ ep_Layers policy → ¬ fails layer t f).
Proof.
  rewrite EvaluateFindings_visits. cbn [pres_Verdict].
  destruct (visits_evaluated (ep_Layers policy) t fs) as [_ _ _ Hv].
  destruct Hv as [(-> & [f [i layer]] & [Hf Hi]%visits_elem & Hfail)|(-> & Hn)]; [left|right].
  - split; [done|]. exists f, layer. eauto using list_elem_of_lookup_2.
  - split; [done|]. intros f layer Hf [i Hi]%list_elem_of_lookup. by apply (Hn (f, (i, layer))), visits_elem.
Qed.

Lemma verdict_fail_iff policy fs t :
  pres_Verdict (EvaluateFindings policy fs t) = VerdictFail ↔
  ∃ f layer, f ∈ fs ∧ layer ∈ ep_Layers policy ∧ fails layer t f.
Proof.
  destruct (verdict_cases policy fs t) as [[-> ?]|[-> Hn]]; [done|].
  split; [done|]. intros (f & layer & Hf & Hl & ?). by destruct (Hn f layer).
Qed.

Lemma verdict_pass_iff policy fs t :
  pres_Verdict (EvaluateFindings policy fs t) = VerdictPass ↔
  ∀ f layer, f ∈ fs → layer ∈ ep_Layers policy → ¬ fails layer t f.
Proof.
  destruct (verdict_cases policy fs t) as [[-> (f & layer & Hf & Hl & ?)]|[-> ?]]; [|done].
  split; [done|]. intros Hn. by destruct (Hn f layer).
Qed.

(** ** Sample data for the witnesses *)

Definition sample_exception : PolicyException :=
  MkPolicyException "" RuleOperationRemoved "Retired endpoint" "api-team" (at_second 100) PolicySourceRepository.

Definition sample_repository : PolicyLayer :=
  MkPolicyLayer "repo" PolicySourceRepository false {[RuleSchemaRemoved := RuleLevelWarn]} [sample_exception].

Definition sample_server : PolicyLayer :=
  MkPolicyLayer "org" PolicySourceServer true {[RuleSchemaRemoved := RuleLevelFail]} [].

Definition sample_policy : EffectivePolicy :=
  MkEffectivePolicy [with_defaults sample_repository; clonePolicyLayer sample_server] true.

Definition sample_finding (rule severity subject : string) : SpecChange :=
  newSpecChange rule severity "kind" subject "description".

(** Build a valid layer of concrete values. *)
Ltac layer_compute := apply validateLayer_ok; vm_compute; reflexivity.

(** ** Properties *)

(** C15: the verdict is exactly what the policy says.  Evaluation answers
    pass or fail, and it answers fail precisely when some layer assigns the
    level fail to some finding and none of that layer's exceptions, valid and
    unexpired at the evaluation time, names the finding or its rule. *)
Theorem policy_verdict_exact policy fs t :
  (pres_Verdict (EvaluateFindings policy fs t) = VerdictPass
   ∨ pres_Verdict (EvaluateFindings policy fs t) = VerdictFail)
  ∧ (pres_Verdict (EvaluateFindings policy fs t) = VerdictFail ↔
     ∃ f layer, f ∈ fs ∧ layer ∈ ep_Layers policy ∧ fails layer t f).
Proof.
  split; [|apply verdict_fail_iff]. destruct (verdict_cases policy fs t) as [[-> _]|[-> _]]; auto.
Qed.

(** Every exception is accounted for.  The result lists one disposition
    per exception of the policy, in order: applied when it covered some
    finding its layer contributes to, else expired when its time has passed,
    else not applicable; and the applied exceptions are listed exactly once
    each. *)
Theorem policy_exceptions_accounted policy fs t :
  let r := EvaluateFindings policy fs t in
  (∃ marks : list bool, Forall2 (λ b x, b = true ↔ applies (ep_Layers policy) fs t x.1) marks (entries (ep_Layers policy))
     ∧ elems (pres_ExceptionDispositions r)
       = zip_with (λ (b : bool) x, if b then set_applied (listed t x) else listed t x) marks (entries (ep_Layers policy)))
  ∧ (∃ rs, NoDup rs ∧ (∀ ref, ref ∈ rs ↔ applies (ep_Layers policy) fs t ref)
     ∧ elems (pres_AppliedExceptions r) = rs ≫= exception_at (ep_Layers policy)).
Proof.
  cbv zeta. rewrite EvaluateFindings_visits. cbn [pres_ExceptionDispositions pres_AppliedExceptions].
  rewrite elems_gappend, app_nil_l.
  destruct (visits_evaluated (ep_Layers policy) t fs) as [[Hd (rs & Hn & Hrs & Ha)] Hs _ _].
  set (st := foldl _ _ _) in *.
  assert (Hseen : ∀ r, r ∈ ev_Seen st ↔ applies (ep_Layers policy) fs t r).
  { intros r. rewrite Hs. unfold visited, applies. setoid_rewrite visits_elem. split.
    - intros (f & layer & e & [? ?] & ? & ? & ?). by exists layer, e, f.
    - intros (layer & e & f & ? & ? & ? & ? & ?). by exists f, layer, e. }
  split.
  - exists ((λ x, bool_decide (x.1 ∈ ev_Seen st)) <$> entries (ep_Layers policy)). split.
    + apply Forall2_fmap_l, Forall_Forall2_diag, Forall_forall. intros x _; simpl. by rewrite bool_decide_eq_true, Hseen.
    + rewrite Hd. unfold shown. clear. induction (entries _) as [|x l IH]; csimpl; [done|].
      rewrite IH. f_equal. by case_decide; case_bool_decide.
  - exists rs. split; [done|]. split; [|done]. intros r. by rewrite Hrs, Hseen.
Qed.

(** Failure is monotone.  A policy that fails keeps failing when more
    findings appear, when layers are added and as time passes: exceptions can
    only lapse. *)
Theorem policy_failure_is_monotone policy policy' fs fs' t t' :
  ep_Layers policy ⊆ ep_Layers policy' → fs ⊆ fs' → t_ns t ≤ t_ns t' →
  pres_Verdict (EvaluateFindings policy fs t) = VerdictFail →
  pres_Verdict (EvaluateFindings policy' fs' t') = VerdictFail.
Proof.
  rewrite !verdict_fail_iff. intros Hl Hf Ht (f & layer & Hin & Hlayer & Hc & Hn).
  exists f, layer. split; [auto|]. split; [auto|]. split; [done|].
  intros e He [H1 H2 H3 H4]. apply (Hn e He). constructor; try done. lia.
Qed.

(** Composition is exact and the repository is the floor.  [MergePolicy]
    accepts a valid repository layer followed by valid server layers none of
    whose levels ranks below the repository's, registry defaults included,
    and nothing else; the result lists the layers with those defaults filled
    in and requires a release baseline when any layer does. *)
Theorem merge_policy_exact first rest p :
  MergePolicy (first :: rest) = Ok p ↔
  (pl_Source first = PolicySourceRepository ∧ layer_ok first
   ∧ Forall (tightens (with_defaults first)) rest)
  ∧ p = MkEffectivePolicy (with_defaults first :: (clonePolicyLayer <$> rest))
          (existsb pl_RequireReleaseBaseline (first :: rest)).
Proof. apply MergePolicy_iff. Qed.

(** A composed policy is a fixed point: composing its layers again gives
    the same policy, which is what lets a stored review be re-evaluated. *)
Theorem merge_policy_idempotent layers p :
  MergePolicy layers = Ok p → MergePolicy (ep_Layers p) = Ok p.
Proof.
  destruct layers as [|first rest]; [done|]. intros [(Hs & Hl & Hr) ->]%MergePolicy_iff. simpl ep_Layers.
  apply MergePolicy_iff. split.
  - split; [done|]. split; [by apply with_defaults_ok|]. rewrite Forall_fmap, with_defaults_idem.
    eapply Forall_impl; [exact Hr|]. intros l (H1 & H2 & H3). split; [done|]. split; [by apply clone_layer_ok|done].
  - rewrite with_defaults_idem. cbn [existsb]. rewrite existsb_clone.
    assert (Hid : clonePolicyLayer <$> (clonePolicyLayer <$> rest) = clonePolicyLayer <$> rest).
    { apply fmap_fixed, Forall_fmap, Forall_forall. intros l _. apply clone_layer_idem. }
    by rewrite Hid.
Qed.

(** Server policy never weakens.  In a composed policy every level a
    layer contributes to a finding of a supported rule ranks at least as high
    as the repository's, and whatever the policy passes its repository layer
    alone passes. *)
Theorem server_policy_never_weakens first rest p f layer level t fs :
  MergePolicy (first :: rest) = Ok p →
  isSupportedRuleID (ch_RuleID f) = true →
  layer ∈ ep_Layers p → contributionLevel layer f = Some level →
  (∃ v, contributionLevel (with_defaults first) f = Some v ∧ levelRank v ≤ levelRank level)
  ∧ (pres_Verdict (EvaluateFindings p fs t) = VerdictPass →
     pres_Verdict (EvaluateFindings (MkEffectivePolicy [with_defaults first] (pl_RequireReleaseBaseline first)) fs t)
     = VerdictPass).
Proof.
  intros [(Hs & Hl & Hr) ->]%MergePolicy_iff Hsup Hlayer Hc. split.
  - assert (Hv : ∃ v, pl_Rules (with_defaults first) !! ch_RuleID f = Some v).
    { simpl. apply defaults_cover in Hsup as [v Hv].
      destruct (pl_Rules first !! ch_RuleID f) as [w|] eqn:Ew.
      - exists w. by apply lookup_union_Some_l.
      - exists v. by rewrite lookup_union_r. }
    destruct Hv as [v Hv]. exists v. unfold contributionLevel at 1. rewrite Hv.
    rewrite bool_decide_eq_true_2 by done. split; [done|].
    simpl in Hlayer. apply elem_of_cons in Hlayer as [->|Hin].
    + unfold contributionLevel in Hc. rewrite Hv, bool_decide_eq_true_2 in Hc by done. by injection Hc as ->.
    + apply list_elem_of_fmap in Hin as (l & -> & Hl'). rewrite Forall_forall in Hr.
      destruct (Hr l Hl') as (Hsrc & _ & Hw). unfold contributionLevel in Hc. simpl in Hc.
      rewrite bool_decide_eq_false_2 in Hc by by rewrite Hsrc.
      rewrite <-(rule_level_Some _ _ _ Hv). by apply Hw.
  - rewrite !verdict_pass_iff. intros Hn f' l Hf ->%list_elem_of_singleton. apply Hn; [done|]. by left.
Qed.

Lemma policy_failure_is_monotone_witness :
  let fs := [sample_finding RuleResponseStatusRemoved SpecChangeBreaking "GET /pets 404"] in
  pres_Verdict (EvaluateFindings sample_policy (fs ++ fs) (at_second 200)) = VerdictFail.
Proof.
  intros fs. apply (policy_failure_is_monotone (MkEffectivePolicy [with_defaults sample_repository] false)
    sample_policy fs (fs ++ fs) (at_second 5) (at_second 200)).
  - intros l ->%list_elem_of_singleton. left.
  - intros f Hf. apply elem_of_app. left. exact Hf.
  - simpl. lia.
  - vm_compute. reflexivity.
Defined.

Lemma merge_policy_exact_witness : MergePolicy [sample_repository; sample_server] = Ok sample_policy.
Proof.
  apply (merge_policy_exact sample_repository [sample_server] sample_policy).
  split; [|reflexivity]. split; [reflexivity|]. split; [layer_compute|].
  apply Forall_cons_2; [|apply Forall_nil_2]. split; [reflexivity|]. split; [layer_compute|].
  intros r v Hr. simpl in Hr. apply lookup_singleton_Some in Hr as [<- <-]. vm_compute. discriminate.
Defined.

Lemma merge_policy_idempotent_witness : MergePolicy (ep_Layers sample_policy) = Ok sample_policy.
Proof.
  apply (merge_policy_idempotent [sample_repository; sample_server]). vm_compute. reflexivity.
Defined.

Lemma server_policy_never_weakens_witness :
  let f := sample_finding RuleSchemaRemoved SpecChangeBreaking "Pet" in
  (∃ v, contributionLevel (with_defaults sample_repository) f = Some v ∧ levelRank v ≤ levelRank RuleLevelFail)
  ∧ (pres_Verdict (EvaluateFindings sample_policy [] (at_second 5)) = VerdictPass →
     pres_Verdict (EvaluateFindings (MkEffectivePolicy [with_defaults sample_repository]
       (pl_RequireReleaseBaseline sample_repository)) [] (at_second 5)) = VerdictPass).
Proof.
  intros f. apply (server_policy_never_weakens sample_repository [sample_server] sample_policy f
    (clonePolicyLayer sample_server) RuleLevelFail (at_second 5) []).
  - vm_compute. reflexivity.
  - vm_compute. reflexivity.
  - right. left.
  - vm_compute. reflexivity.
Defined.
