(* ===== verification/Review.v ===== *)
(** * Reviews (domain/review.go)

    The canonical report of a compatibility review: [EvaluateReview] produces
    it from validated snapshots and a normalised policy, [CanonicalReviewJSON]
    serialises it, and [ValidateReleaseReviewReportAgainstSnapshots]
    reconstructs release evidence from the persisted snapshots before a
    release trusts it. *)

From stdpp Require Import pretty.
From S2P Require Import Prelude GoString GoSha256 GoTime GoJson Identity Spec Snapshot SpecDiff.
From S2P Require Import Release.
From S2P Require Import Policy.

Definition ReviewSchemaVersion : string := "manja.review/v1".
Definition ComparisonPullRequest : string := "pull_request_delta".
Definition ComparisonReleaseImpact : string := "release_impact".

Record SnapshotRef := MkSnapshotRef {
  sr_RevisionID : string;
  sr_SpecDigest : string;
  sr_ContractDigest : string;
}.

Record ComparisonReport := MkComparisonReport {
  cr_Kind : string;
  cr_Baseline : SnapshotRef;
  cr_Candidate : SnapshotRef;
  cr_Findings : slice SpecChange;
  cr_Policy : PolicyResult;
}.

Record PolicyRuleProjection := MkPolicyRuleProjection {
  pp_RuleID : string;
  pp_Level : string;
}.

Record PolicyLayerProjection := MkPolicyLayerProjection {
  lp_Name : string;
  lp_Source : string;
  lp_RequireReleaseBaseline : bool;
  lp_Rules : slice PolicyRuleProjection;
  lp_Exceptions : slice PolicyException;
}.

Record EffectivePolicyProjection := MkEffectivePolicyProjection {
  epp_RequireReleaseBaseline : bool;
  epp_Layers : slice PolicyLayerProjection;
}.

Record ReviewReport := MkReviewReport {
  rr_SchemaVersion : string;
  rr_EngineVersion : string;
  rr_ContractID : string;
  rr_EvaluatedAt : Time;
  rr_EffectivePolicy : EffectivePolicyProjection;
  rr_PolicyDigest : string;
  rr_Verdict : string;
  rr_Comparisons : slice ComparisonReport;
}.

Record ReviewRequest := MkReviewRequest {
  rq_ContractID : string;
  rq_Target : ContractSnapshot;
  rq_Candidate : ContractSnapshot;
  rq_Release : option ContractSnapshot;
  rq_Policy : EffectivePolicy;
  rq_EvaluatedAt : Time;
  rq_EngineVersion : string;
}.

Record ContractReview := MkContractReview {
  rv_ID : string;
  rv_ContractID : string;
  rv_BaselineRevisionID : string;
  rv_BaselineSpecDigest : string;
  rv_BaselineContractDigest : string;
  rv_CandidateRevisionID : string;
  rv_CandidateSpecDigest : string;
  rv_CandidateContractDigest : string;
  rv_Report : ReviewReport;
}.

#[export] Instance SnapshotRef_eq_dec : EqDecision SnapshotRef.
Proof. solve_decision. Defined.
#[export] Instance ComparisonReport_eq_dec : EqDecision ComparisonReport.
Proof. solve_decision. Defined.
#[export] Instance PolicyRuleProjection_eq_dec : EqDecision PolicyRuleProjection.
Proof. solve_decision. Defined.
#[export] Instance PolicyLayerProjection_eq_dec : EqDecision PolicyLayerProjection.
Proof. solve_decision. Defined.
#[export] Instance EffectivePolicyProjection_eq_dec : EqDecision EffectivePolicyProjection.
Proof. solve_decision. Defined.
#[export] Instance ReviewReport_eq_dec : EqDecision ReviewReport.
Proof. solve_decision. Defined.
#[export] Instance ContractReview_eq_dec : EqDecision ContractReview.
Proof. solve_decision. Defined.

#[export] Instance SnapshotRef_value : GoValue SnapshotRef := λ r, VStruct [
  exported "RevisionID" (sr_RevisionID r); exported "SpecDigest" (sr_SpecDigest r);
  exported "ContractDigest" (sr_ContractDigest r)].
#[export] Instance ComparisonReport_value : GoValue ComparisonReport := λ c, VStruct [
  exported "Kind" (cr_Kind c); exported "Baseline" (cr_Baseline c); exported "Candidate" (cr_Candidate c);
  ("Findings", "", value_slice (elems (cr_Findings c))); exported "Policy" (cr_Policy c)].
#[export] Instance PolicyRuleProjection_value : GoValue PolicyRuleProjection := λ r, VStruct [
  exported "RuleID" (pp_RuleID r); exported "Level" (pp_Level r)].
#[export] Instance PolicyLayerProjection_value : GoValue PolicyLayerProjection := λ l, VStruct [
  exported "Name" (lp_Name l); exported "Source" (lp_Source l);
  exported "RequireReleaseBaseline" (lp_RequireReleaseBaseline l);
  ("Rules", "", value_slice (elems (lp_Rules l))); ("Exceptions", "", value_slice (elems (lp_Exceptions l)))].
#[export] Instance EffectivePolicyProjection_value : GoValue EffectivePolicyProjection := λ p, VStruct [
  exported "RequireReleaseBaseline" (epp_RequireReleaseBaseline p);
  ("Layers", "", value_slice (elems (epp_Layers p)))].
#[export] Instance ReviewReport_value : GoValue ReviewReport := λ r, VStruct [
  exported "SchemaVersion" (rr_SchemaVersion r); exported "EngineVersion" (rr_EngineVersion r);
  exported "ContractID" (rr_ContractID r); exported "EvaluatedAt" (rr_EvaluatedAt r);
  exported "EffectivePolicy" (rr_EffectivePolicy r); exported "PolicyDigest" (rr_PolicyDigest r);
  exported "Verdict" (rr_Verdict r); ("Comparisons", "", value_slice (elems (rr_Comparisons r)))].
#[export] Instance ContractReview_value : GoValue ContractReview := λ r, VStruct [
  exported "ID" (rv_ID r); exported "ContractID" (rv_ContractID r);
  exported "BaselineRevisionID" (rv_BaselineRevisionID r);
  exported "BaselineSpecDigest" (rv_BaselineSpecDigest r);
  exported "BaselineContractDigest" (rv_BaselineContractDigest r);
  exported "CandidateRevisionID" (rv_CandidateRevisionID r);
  exported "CandidateSpecDigest" (rv_CandidateSpecDigest r);
  exported "CandidateContractDigest" (rv_CandidateContractDigest r);
  exported "Report" (rv_Report r)].

(** ** Ordering *)

(** [comparePolicyExceptions] and [compareSpecChanges] compare these fields
    one after the other. *)
Definition policy_exception_order (e : PolicyException) : list okey :=
  [KS (pe_FindingID e); KS (pe_RuleID e); KS (pe_Reason e); KS (pe_Author e);
   KS (format_time (ToUTC (pe_ExpiresAt e))); KS (pe_Source e)].

Definition spec_change_order (c : SpecChange) : list okey :=
  [KS (ch_RuleID c); KS (ch_Subject c); KS (ch_ID c); KS (ch_Severity c); KS (ch_Kind c); KS (ch_Description c)].

Definition decision_order (d : FindingDecision) : list okey :=
  spec_change_order (fd_Finding d)
  ++ [KS (fd_Source d); KS (fd_LayerName d); KS (fd_Level d); KZ (Z.b2z (fd_Excepted d))].

Definition disposition_order (d : PolicyExceptionDisposition) : list okey :=
  [KS (pe_Source (xd_Exception d)); KS (xd_LayerName d)]
  ++ policy_exception_order (xd_Exception d) ++ [KS (xd_Disposition d)].

Definition sortPolicyResult (result : PolicyResult) : PolicyResult :=
  MkPolicyResult (pres_Verdict result)
    (sort_slice (less_by decision_order) (pres_Decisions result))
    (sort_slice (less_by policy_exception_order) (pres_AppliedExceptions result))
    (sort_slice (less_by disposition_order) (pres_ExceptionDispositions result)).

Definition policySourceRank (source : string) : Z :=
  if bool_decide (source = PolicySourceRepository) then 0 else 1.

(** ** JSON of a report *)

Definition exception_json (e : PolicyException) : res json :=
  expires ← json_time (pe_ExpiresAt e);
  mret (JObject
    (omit_empty (bool_decide (pe_FindingID e = "")) "findingId" (JString (pe_FindingID e))
     ++ omit_empty (bool_decide (pe_RuleID e = "")) "ruleId" (JString (pe_RuleID e))
     ++ field "reason" (JString (pe_Reason e)) ++ field "author" (JString (pe_Author e))
     ++ field "expiresAt" expires ++ field "source" (JString (pe_Source e)))).

(** A slice whose elements may fail to marshal. *)
Definition json_slice_res {A} (f : A → res json) (s : slice A) : res json :=
  match s with
  | None => mret JNull
  | Some l => l ← mapM f l; mret (JArray l)
  end.

Definition rule_json (r : PolicyRuleProjection) : json :=
  JObject (field "ruleId" (JString (pp_RuleID r)) ++ field "level" (JString (pp_Level r))).

Definition layer_json (l : PolicyLayerProjection) : res json :=
  exceptions ← json_slice_res exception_json (lp_Exceptions l);
  mret (JObject
    (field "name" (JString (lp_Name l)) ++ field "source" (JString (lp_Source l))
     ++ field "requireReleaseBaseline" (JBool (lp_RequireReleaseBaseline l))
     ++ field "rules" (json_slice rule_json (lp_Rules l)) ++ field "exceptions" exceptions)).

Definition policy_json (p : EffectivePolicyProjection) : res json :=
  layers ← json_slice_res layer_json (epp_Layers p);
  mret (JObject (field "requireReleaseBaseline" (JBool (epp_RequireReleaseBaseline p)) ++ field "layers" layers)).

Definition change_json (c : SpecChange) : json :=
  JObject (field "id" (JString (ch_ID c)) ++ field "ruleId" (JString (ch_RuleID c))
    ++ field "severity" (JString (ch_Severity c)) ++ field "kind" (JString (ch_Kind c))
    ++ field "subject" (JString (ch_Subject c)) ++ field "description" (JString (ch_Description c))).

Definition decision_json (d : FindingDecision) : json :=
  JObject (field "finding" (change_json (fd_Finding d)) ++ field "level" (JString (fd_Level d))
    ++ field "source" (JString (fd_Source d)) ++ field "layerName" (JString (fd_LayerName d))
    ++ field "excepted" (JBool (fd_Excepted d))).

Definition disposition_json (d : PolicyExceptionDisposition) : res json :=
  exception ← exception_json (xd_Exception d);
  mret (JObject (field "layerName" (JString (xd_LayerName d))
    ++ field "disposition" (JString (xd_Disposition d)) ++ field "exception" exception)).

Definition result_json (r : PolicyResult) : res json :=
  applied ← json_slice_res exception_json (pres_AppliedExceptions r);
  dispositions ← json_slice_res disposition_json (pres_ExceptionDispositions r);
  mret (JObject (field "verdict" (JString (pres_Verdict r))
    ++ field "decisions" (json_slice decision_json (pres_Decisions r))
    ++ omit_empty (is_empty (pres_AppliedExceptions r)) "appliedExceptions" applied
    ++ omit_empty (is_empty (pres_ExceptionDispositions r)) "exceptionDispositions" dispositions)).

Definition ref_json (r : SnapshotRef) : json :=
  JObject (field "revisionId" (JString (sr_RevisionID r)) ++ field "specDigest" (JString (sr_SpecDigest r))
    ++ field "contractDigest" (JString (sr_ContractDigest r))).

Definition comparison_json (c : ComparisonReport) : res json :=
  policy ← result_json (cr_Policy c);
  mret (JObject (field "kind" (JString (cr_Kind c)) ++ field "baseline" (ref_json (cr_Baseline c))
    ++ field "candidate" (ref_json (cr_Candidate c))
    ++ field "findings" (json_slice change_json (cr_Findings c)) ++ field "policy" policy)).

Definition report_json (r : ReviewReport) : res json :=
  evaluatedAt ← json_time (rr_EvaluatedAt r);
  policy ← policy_json (rr_EffectivePolicy r);
  comparisons ← json_slice_res comparison_json (rr_Comparisons r);
  mret (JObject (field "schemaVersion" (JString (rr_SchemaVersion r))
    ++ field "engineVersion" (JString (rr_EngineVersion r)) ++ field "contractId" (JString (rr_ContractID r))
    ++ field "evaluatedAt" evaluatedAt ++ field "effectivePolicy" policy
    ++ field "policyDigest" (JString (rr_PolicyDigest r)) ++ field "verdict" (JString (rr_Verdict r))
    ++ field "comparisons" comparisons)).

Definition CanonicalReviewJSON (report : ReviewReport) : res (list Z) :=
  validateUTF8Strings "review report" report ;;
  render <$> report_json report.

(** ** The canonical policy *)

Definition projectPolicyLayer (layer : PolicyLayer) : PolicyLayerProjection :=
  MkPolicyLayerProjection (pl_Name layer) (pl_Source layer) (pl_RequireReleaseBaseline layer)
    (gappend None ((λ ruleID, MkPolicyRuleProjection ruleID (rule_level (pl_Rules layer) ruleID))
                     <$> sortedRuleIDs (pl_Rules layer)))
    (sort_slice (less_by policy_exception_order) (gappend None (pl_Exceptions layer))).

Record sortablePolicyLayer := MkSortablePolicyLayer {
  sl_layer : PolicyLayer;
  sl_projection : PolicyLayerProjection;
  sl_key : string;
}.

Definition sort_exceptions (layer : PolicyLayer) : PolicyLayer :=
  MkPolicyLayer (pl_Name layer) (pl_Source layer) (pl_RequireReleaseBaseline layer) (pl_Rules layer)
    (sort_by (less_by policy_exception_order) (pl_Exceptions layer)).

Definition sortable_layer (layer : PolicyLayer) : res sortablePolicyLayer :=
  let cloned := sort_exceptions (clonePolicyLayer layer) in
  let projection := projectPolicyLayer cloned in
  encoded ← layer_json projection;
  mret (MkSortablePolicyLayer cloned projection (of_bytes (render encoded))).

Definition layer_order (s : sortablePolicyLayer) : list okey :=
  [KZ (policySourceRank (pl_Source (sl_layer s))); KS (pl_Name (sl_layer s)); KS (sl_key s)].

Definition canonicalReviewPolicy (policy : EffectivePolicy)
    : res (EffectivePolicy * EffectivePolicyProjection * string) :=
  sortable ← mapM sortable_layer (ep_Layers policy);
  let sorted := sort_by (less_by layer_order) sortable in
  let normalized := MkEffectivePolicy (sl_layer <$> sorted) (ep_RequireReleaseBaseline policy) in
  let projection := MkEffectivePolicyProjection (ep_RequireReleaseBaseline policy)
                      (gappend None (sl_projection <$> sorted)) in
  encoded ← policy_json projection;
  mret (normalized, projection, sha256Hex (render encoded)).

Definition normalizeEffectivePolicy (policy : EffectivePolicy) : res EffectivePolicy :=
  normalized ← MergePolicy (ep_Layers policy);
  throw_if (negb (bool_decide (ep_RequireReleaseBaseline normalized = ep_RequireReleaseBaseline policy)))
    (Errorf "release baseline aggregate %t does not match policy layers %t"
       [EBool (ep_RequireReleaseBaseline policy); EBool (ep_RequireReleaseBaseline normalized)]) ;;
  mret normalized.

(** The rules of a projected layer as a map: an error on a duplicate. *)
Definition projected_rules (layerIndex : Z) (rules : list PolicyRuleProjection) : res (gmap string string) :=
  fold_res (λ m rule,
    throw_if (bool_decide (is_Some (m !! pp_RuleID rule)))
      (Errorf "policy layer %d contains duplicate rule %q" [EInt layerIndex; EStr (pp_RuleID rule)]) ;;
    mret (<[pp_RuleID rule := pp_Level rule]> m)) ∅ rules.

Definition projected_layer (layerIndex : Z) (projected : PolicyLayerProjection) : res PolicyLayer :=
  rules ← projected_rules layerIndex (elems (lp_Rules projected));
  mret (MkPolicyLayer (lp_Name projected) (lp_Source projected) (lp_RequireReleaseBaseline projected)
          rules (elems (lp_Exceptions projected))).

Fixpoint projected_layers (layerIndex : Z) (projected : list PolicyLayerProjection) : res (list PolicyLayer) :=
  match projected with
  | [] => mret []
  | p :: projected =>
      layer ← projected_layer layerIndex p;
      layers ← projected_layers (layerIndex + 1) projected;
      mret (layer :: layers)
  end.

Definition validateCanonicalPolicyProjection (projection : EffectivePolicyProjection)
    : res (EffectivePolicy * string) :=
  layers ← projected_layers 0 (elems (epp_Layers projection));
  normalized ← normalizeEffectivePolicy (MkEffectivePolicy layers (epp_RequireReleaseBaseline projection));
  '(canonicalPolicy, canonicalProjection, digest) ← canonicalReviewPolicy normalized;
  throw_if (negb (bool_decide (projection = canonicalProjection)))
    (Errorf "effective policy projection is not canonical" []) ;;
  mret (canonicalPolicy, digest).

(** ** Evaluation *)

Definition snapshotRef (snapshot : ContractSnapshot) : SnapshotRef :=
  MkSnapshotRef (cs_RevisionID snapshot) (cs_SpecDigest snapshot) (cs_ContractDigest snapshot).

Definition evaluateComparison (kind : string) (baseline candidate : ContractSnapshot)
    (policy : EffectivePolicy) (evaluatedAt : Time) : ComparisonReport :=
  let diff := diffValidatedContractSnapshots baseline candidate in
  let findings := gappend (gappend None (elems (df_BreakingChanges diff))) (elems (df_AdditiveChanges diff)) in
  let findings := sortSpecChanges findings in
  MkComparisonReport kind (snapshotRef baseline) (snapshotRef candidate) findings
    (sortPolicyResult (EvaluateFindings policy (elems findings) evaluatedAt)).

Definition validateReviewRequest (request : ReviewRequest) : res unit :=
  validateCanonicalIdentity "review contract id" (rq_ContractID request) false ;;
  throw_if (negb (bool_decide (cs_ContractID (rq_Target request) = rq_ContractID request)))
    (Errorf "target contract id %q does not match review contract id %q"
       [EStr (cs_ContractID (rq_Target request)); EStr (rq_ContractID request)]) ;;
  throw_if (negb (bool_decide (cs_ContractID (rq_Candidate request) = rq_ContractID request)))
    (Errorf "candidate contract id %q does not match review contract id %q"
       [EStr (cs_ContractID (rq_Candidate request)); EStr (rq_ContractID request)]) ;;
  match rq_Release request with
  | Some release =>
      throw_if (negb (bool_decide (cs_ContractID release = rq_ContractID request)))
        (Errorf "release contract id %q does not match review contract id %q"
           [EStr (cs_ContractID release); EStr (rq_ContractID request)])
  | None => mret tt
  end ;;
  throw_if (IsZero (rq_EvaluatedAt request)) (Errorf "evaluation time is required" []) ;;
  validateCanonicalIdentity "engine version" (rq_EngineVersion request) false.

Section review.
Context `{CaseTables}.

Definition EvaluateReview (request : ReviewRequest) : res ReviewReport :=
  validateReviewRequest request ;;
  target ← wrap_err (validateAndCloneContractSnapshot (rq_Target request))
    (λ e, Errorf "validate target snapshot: %w" [EErr e]);
  candidate ← wrap_err (validateAndCloneContractSnapshot (rq_Candidate request))
    (λ e, Errorf "validate candidate snapshot: %w" [EErr e]);
  release ← match rq_Release request with
            | Some release =>
                Some <$> wrap_err (validateAndCloneContractSnapshot release)
                  (λ e, Errorf "validate release snapshot: %w" [EErr e])
            | None => mret None
            end;
  effectivePolicy ← wrap_err (normalizeEffectivePolicy (rq_Policy request))
    (λ e, Errorf "validate effective policy: %w" [EErr e]);
  throw_if (ep_RequireReleaseBaseline effectivePolicy && bool_decide (release = None))
    (Errorf "release baseline is required by policy" []) ;;
  '(policy, policyProjection, policyDigest) ← wrap_err (canonicalReviewPolicy effectivePolicy)
    (λ e, Errorf "canonicalize policy: %w" [EErr e]);
  let evaluatedAt := ToUTC (rq_EvaluatedAt request) in
  let comparisons :=
    gappend (Some [evaluateComparison ComparisonPullRequest target candidate policy evaluatedAt])
      ((λ release, evaluateComparison ComparisonReleaseImpact release candidate policy evaluatedAt)
         <$> option_list release) in
  let verdict :=
    if existsb (λ comparison, bool_decide (pres_Verdict (cr_Policy comparison) = VerdictFail)) (elems comparisons)
    then VerdictFail else VerdictPass in
  mret (MkReviewReport ReviewSchemaVersion (rq_EngineVersion request) (rq_ContractID request) evaluatedAt
          policyProjection policyDigest verdict comparisons).

(** ** Validation of release evidence *)

Definition validateSnapshotRef (role : string) (ref : SnapshotRef) : res unit :=
  validateCanonicalIdentity ("review " +:+ role +:+ " revision id") (sr_RevisionID ref) false ;;
  throw_if (negb (isLowerSHA256 (sr_SpecDigest ref)))
    (Errorf "review %s spec digest must be lowercase SHA-256" [EStr role]) ;;
  throw_if (negb (isLowerSHA256 (sr_ContractDigest ref)))
    (Errorf "review %s contract digest must be lowercase SHA-256" [EStr role]).

Definition validateExpectedSnapshotRef (role : string) (actual expected : SnapshotRef) : res unit :=
  validateSnapshotRef role actual ;;
  validateSnapshotRef ("expected " +:+ role) expected ;;
  throw_if (negb (bool_decide (sr_RevisionID actual = sr_RevisionID expected)))
    (Errorf "review %s revision id %q does not match expected revision %q"
       [EStr role; EStr (sr_RevisionID actual); EStr (sr_RevisionID expected)]) ;;
  throw_if (negb (bool_decide (sr_SpecDigest actual = sr_SpecDigest expected)))
    (Errorf "review %s spec digest %q does not match expected digest %q"
       [EStr role; EStr (sr_SpecDigest actual); EStr (sr_SpecDigest expected)]) ;;
  throw_if (negb (bool_decide (sr_ContractDigest actual = sr_ContractDigest expected)))
    (Errorf "review %s contract digest %q does not match expected digest %q"
       [EStr role; EStr (sr_ContractDigest actual); EStr (sr_ContractDigest expected)]).

Definition validateReleaseReviewReport (report : ReviewReport) (contractID : string)
    (baseline candidate : SnapshotRef) : res (EffectivePolicy * ComparisonReport) :=
  throw_if (negb (bool_decide (rr_SchemaVersion report = ReviewSchemaVersion)))
    (Errorf "unsupported review schema version %q" [EStr (rr_SchemaVersion report)]) ;;
  throw_if (negb (bool_decide (rr_ContractID report = contractID)))
    (Errorf "review contract id %q does not match release contract id %q"
       [EStr (rr_ContractID report); EStr contractID]) ;;
  validateCanonicalIdentity "review contract id" (rr_ContractID report) false ;;
  validateCanonicalIdentity "review engine version" (rr_EngineVersion report) false ;;
  throw_if (IsZero (rr_EvaluatedAt report)) (Errorf "review evaluation time is required" []) ;;
  throw_if (negb (is_UTC (rr_EvaluatedAt report))) (Errorf "review evaluation time must be UTC" []) ;;
  throw_if (negb (isLowerSHA256 (rr_PolicyDigest report)))
    (Errorf "review policy digest must be lowercase SHA-256" []) ;;
  '(canonicalPolicy, canonicalPolicyDigest) ← wrap_err (validateCanonicalPolicyProjection (rr_EffectivePolicy report))
    (λ e, Errorf "review effective policy is invalid: %w" [EErr e]);
  throw_if (negb (bool_decide (rr_PolicyDigest report = canonicalPolicyDigest)))
    (Errorf "review policy digest %q does not match effective policy digest %q"
       [EStr (rr_PolicyDigest report); EStr canonicalPolicyDigest]) ;;
  match elems (rr_Comparisons report) with
  | [comparison] =>
      throw_if (negb (bool_decide (cr_Kind comparison = ComparisonReleaseImpact)))
        (Errorf "release review comparison kind %q is not %q"
           [EStr (cr_Kind comparison); EStr ComparisonReleaseImpact]) ;;
      validateExpectedSnapshotRef "baseline" (cr_Baseline comparison) baseline ;;
      validateExpectedSnapshotRef "candidate" (cr_Candidate comparison) candidate ;;
      throw_if (negb (bool_decide (pres_Verdict (cr_Policy comparison) = VerdictPass))
                && negb (bool_decide (pres_Verdict (cr_Policy comparison) = VerdictFail)))
        (Errorf "unsupported comparison verdict %q" [EStr (pres_Verdict (cr_Policy comparison))]) ;;
      throw_if (negb (bool_decide (rr_Verdict report = pres_Verdict (cr_Policy comparison))))
        (Errorf "review verdict %q does not match comparison verdict %q"
           [EStr (rr_Verdict report); EStr (pres_Verdict (cr_Policy comparison))]) ;;
      mret (canonicalPolicy, comparison)
  | _ => Fail (Errorf "release review must contain exactly one comparison" [])
  end.

Definition ValidateReleaseReviewReport (report : ReviewReport) (contractID : string)
    (baseline candidate : SnapshotRef) : res unit :=
  validateReleaseReviewReport report contractID baseline candidate ;; mret tt.

Definition ValidateReleaseReviewReportAgainstSnapshots (report : ReviewReport) (contractID : string)
    (baseline candidate : ContractSnapshot) : res unit :=
  validatedBaseline ← wrap_err (validateAndCloneContractSnapshot baseline)
    (λ e, Errorf "validate persisted review baseline: %w" [EErr e]);
  validatedCandidate ← wrap_err (validateAndCloneContractSnapshot candidate)
    (λ e, Errorf "validate persisted review candidate: %w" [EErr e]);
  throw_if (negb (bool_decide (cs_ContractID validatedBaseline = contractID)))
    (Errorf "persisted review baseline contract id %q does not match release contract id %q"
       [EStr (cs_ContractID validatedBaseline); EStr contractID]) ;;
  throw_if (negb (bool_decide (cs_ContractID validatedCandidate = contractID)))
    (Errorf "persisted review candidate contract id %q does not match release contract id %q"
       [EStr (cs_ContractID validatedCandidate); EStr contractID]) ;;
  '(canonicalPolicy, comparison) ← validateReleaseReviewReport report contractID
    (snapshotRef validatedBaseline) (snapshotRef validatedCandidate);
  let expectedComparison := evaluateComparison ComparisonReleaseImpact validatedBaseline validatedCandidate
                              canonicalPolicy (rr_EvaluatedAt report) in
  throw_if (negb (bool_decide (comparison = expectedComparison)))
    (Errorf "release review result does not match canonical evaluation" []) ;;
  throw_if (negb (bool_decide (rr_Verdict report = pres_Verdict (cr_Policy expectedComparison))))
    (Errorf "review verdict %q does not match canonical comparison verdict %q"
       [EStr (rr_Verdict report); EStr (pres_Verdict (cr_Policy expectedComparison))]).

(** ** Identities of a review aggregate *)

Definition validateReviewFindingIdentities (prefix : string) (finding : SpecChange) : res unit :=
  validateCanonicalIdentity (prefix +:+ " id") (ch_ID finding) false ;;
  validateCanonicalIdentity (prefix +:+ " rule id") (ch_RuleID finding) false.

Definition validateReviewExceptionIdentities (prefix : string) (exception : PolicyException) : res unit :=
  validate_identities [
    (prefix +:+ " finding id", pe_FindingID exception, true);
    (prefix +:+ " rule id", pe_RuleID exception, true);
    (prefix +:+ " author", pe_Author exception, false);
    (prefix +:+ " source", pe_Source exception, false)].

Definition zero_report : ReviewReport :=
  MkReviewReport "" "" "" zero_time (MkEffectivePolicyProjection false None) "" "" None.

(** The policy part of the walk over a report. *)
Definition validatePolicyIdentities (policy : EffectivePolicyProjection) : res unit :=
  for_eachi (λ layerIndex layer,
    let prefix := "review policy layer " +:+ pretty layerIndex in
    validateCanonicalIdentity (prefix +:+ " name") (lp_Name layer) false ;;
    validateCanonicalIdentity (prefix +:+ " source") (lp_Source layer) false ;;
    for_eachi (λ ruleIndex rule,
      validateCanonicalIdentity (prefix +:+ " rule " +:+ pretty ruleIndex +:+ " id") (pp_RuleID rule) false)
      (elems (lp_Rules layer)) ;;
    for_eachi (λ exceptionIndex exception,
      validateReviewExceptionIdentities (prefix +:+ " exception " +:+ pretty exceptionIndex) exception)
      (elems (lp_Exceptions layer)))
    (elems (epp_Layers policy)).

(** The comparison part of the walk over a report. *)
Definition validateComparisonIdentities (comparisonIndex : Z) (comparison : ComparisonReport) : res unit :=
  let prefix := "review comparison " +:+ pretty comparisonIndex in
  validateCanonicalIdentity (prefix +:+ " kind") (cr_Kind comparison) false ;;
  validateSnapshotRef (prefix +:+ " baseline") (cr_Baseline comparison) ;;
  validateSnapshotRef (prefix +:+ " candidate") (cr_Candidate comparison) ;;
  for_eachi (λ findingIndex finding,
    validateReviewFindingIdentities (prefix +:+ " finding " +:+ pretty findingIndex) finding)
    (elems (cr_Findings comparison)) ;;
  for_eachi (λ decisionIndex decision,
    let decisionPrefix := prefix +:+ " policy decision " +:+ pretty decisionIndex in
    validateReviewFindingIdentities (decisionPrefix +:+ " finding") (fd_Finding decision) ;;
    validateCanonicalIdentity (decisionPrefix +:+ " source") (fd_Source decision) false ;;
    validateCanonicalIdentity (decisionPrefix +:+ " layer name") (fd_LayerName decision) false)
    (elems (pres_Decisions (cr_Policy comparison))) ;;
  for_eachi (λ exceptionIndex exception,
    validateReviewExceptionIdentities (prefix +:+ " applied exception " +:+ pretty exceptionIndex) exception)
    (elems (pres_AppliedExceptions (cr_Policy comparison))) ;;
  for_eachi (λ dispositionIndex disposition,
    let dispositionPrefix := prefix +:+ " exception disposition " +:+ pretty dispositionIndex in
    validateCanonicalIdentity (dispositionPrefix +:+ " layer name") (xd_LayerName disposition) false ;;
    validateReviewExceptionIdentities dispositionPrefix (xd_Exception disposition))
    (elems (pres_ExceptionDispositions (cr_Policy comparison))).

Definition ValidateContractReviewIdentities (review : ContractReview) : res unit :=
  validateUTF8Strings "contract review" review ;;
  for_each (λ '(name, value), validateCanonicalIdentity name value false) [
    ("review id", rv_ID review);
    ("review contract id", rv_ContractID review);
    ("review baseline revision id", rv_BaselineRevisionID review);
    ("review candidate revision id", rv_CandidateRevisionID review)] ;;
  let report := rv_Report review in
  if bool_decide (report = zero_report) then mret tt else
  validate_identities [
    ("review schema version", rr_SchemaVersion report, true);
    ("review engine version", rr_EngineVersion report, true);
    ("review report contract id", rr_ContractID report, true)] ;;
  validatePolicyIdentities (rr_EffectivePolicy report) ;;
  for_eachi validateComparisonIdentities (elems (rr_Comparisons report)).

Definition ValidateContractReviewAgainstSnapshots (review : ContractReview)
    (baseline candidate : ContractSnapshot) : res unit :=
  ValidateContractReviewIdentities review ;;
  for_each (λ '(name, value),
    throw_if (negb (isLowerSHA256 value)) (Errorf "%s must be lowercase SHA-256" [EStr name])) [
    ("review baseline spec digest", rv_BaselineSpecDigest review);
    ("review baseline contract digest", rv_BaselineContractDigest review);
    ("review candidate spec digest", rv_CandidateSpecDigest review);
    ("review candidate contract digest", rv_CandidateContractDigest review)] ;;
  throw_if (negb (bool_decide (cs_ContractID baseline = rv_ContractID review))
            || negb (bool_decide (cs_RevisionID baseline = rv_BaselineRevisionID review))
            || negb (bool_decide (cs_SpecDigest baseline = rv_BaselineSpecDigest review))
            || negb (bool_decide (cs_ContractDigest baseline = rv_BaselineContractDigest review)))
    (Errorf "review baseline evidence does not match canonical snapshot" []) ;;
  throw_if (negb (bool_decide (cs_ContractID candidate = rv_ContractID review))
            || negb (bool_decide (cs_RevisionID candidate = rv_CandidateRevisionID review))
            || negb (bool_decide (cs_SpecDigest candidate = rv_CandidateSpecDigest review))
            || negb (bool_decide (cs_ContractDigest candidate = rv_CandidateContractDigest review)))
    (Errorf "review candidate evidence does not match canonical snapshot" []) ;;
  ValidateReleaseReviewReportAgainstSnapshots (rv_Report review) (rv_ContractID review) baseline candidate.
End review.

(** ** Lemmas: the canonical policy is a fixed point *)

Lemma sort_exceptions_idem l : sort_exceptions (sort_exceptions l) = sort_exceptions l.
Proof. unfold sort_exceptions. simpl. by rewrite sort_by_idem. Qed.

Lemma clone_exceptions_fixed (l : list PolicyException) : clonePolicyException <$> (clonePolicyException <$> l) = clonePolicyException <$> l.
Proof. apply fmap_fixed, Forall_fmap, Forall_forall. done. Qed.

Definition canonical_layer (l : PolicyLayer) : PolicyLayer := sort_exceptions (clonePolicyLayer l).

Lemma canonical_layer_clone l : clonePolicyLayer (canonical_layer l) = canonical_layer l.
Proof.
  unfold canonical_layer, sort_exceptions, clonePolicyLayer. simpl. f_equal.
  apply fmap_fixed. rewrite sort_by_Forall, Forall_fmap. apply Forall_forall. done.
Qed.

Lemma canonical_layer_idem l : canonical_layer (canonical_layer l) = canonical_layer l.
Proof. unfold canonical_layer at 1. rewrite canonical_layer_clone. apply sort_exceptions_idem. Qed.

Lemma sortable_layer_ok l s :
  sortable_layer l = Ok s → sl_layer s = canonical_layer l ∧ sl_projection s = projectPolicyLayer (sl_layer s)
    ∧ sortable_layer (sl_layer s) = Ok s.
Proof.
  unfold sortable_layer. fold (canonical_layer l). intros (j & Hj & [= <-])%bind_ok. simpl.
  split; [done|]. split; [done|]. fold (canonical_layer (canonical_layer l)).
  by rewrite canonical_layer_idem, Hj.
Qed.

Lemma canonicalReviewPolicy_ok p np proj d :
  canonicalReviewPolicy p = Ok (np, proj, d) → ∃ sortable,
    Forall2 (λ l s, sortable_layer l = Ok s) (ep_Layers p) sortable
    ∧ np = MkEffectivePolicy (sl_layer <$> sort_by (less_by layer_order) sortable) (ep_RequireReleaseBaseline p)
    ∧ proj = MkEffectivePolicyProjection (ep_RequireReleaseBaseline p)
               (gappend None (sl_projection <$> sort_by (less_by layer_order) sortable))
    ∧ ∃ j, policy_json proj = Ok j ∧ d = sha256Hex (render j).
Proof.
  unfold canonicalReviewPolicy. intros (sortable & Hs%mapM_ok & (j & Hj & [= <- <- <-])%bind_ok)%bind_ok.
  exists sortable. split; [done|]. split; [done|]. split; [done|]. by exists j.
Qed.

Lemma sortable_refix l k :
  Forall2 (λ l s, sortable_layer l = Ok s) l k →
  ∀ k', k' ≡ₚ k → Forall2 (λ l s, sortable_layer l = Ok s) (sl_layer <$> k') k'.
Proof.
  intros Hlk k' Hp. apply Forall2_fmap_l, Forall_Forall2_diag. rewrite Hp.
  clear Hp k'. induction Hlk as [|x s l k Hs _ IH]; constructor; [|done]. by apply sortable_layer_ok in Hs as (_ & _ & ?).
Qed.

Lemma canonicalReviewPolicy_fixed p np proj d :
  canonicalReviewPolicy p = Ok (np, proj, d) → canonicalReviewPolicy np = Ok (np, proj, d).
Proof.
  intros (k & Hk & -> & -> & j & Hj & ->)%canonicalReviewPolicy_ok. unfold canonicalReviewPolicy. simpl.
  assert (Hm : mapM sortable_layer (sl_layer <$> sort_by (less_by layer_order) k)
               = Ok (sort_by (less_by layer_order) k)).
  { apply mapM_ok. eapply sortable_refix; [exact Hk|apply sort_by_perm]. }
  rewrite Hm. cbn [mbind res_bind]. rewrite sort_by_idem, Hj. done.
Qed.

(** *** Reading a projected layer back *)

Lemma projected_rules_fold i (level : string → string) (ks : list string) (m : gmap string string) :
  NoDup ks → (∀ k, k ∈ ks → m !! k = None) →
  ∃ m' : gmap string string, fold_res (λ m rule,
      throw_if (bool_decide (is_Some (m !! pp_RuleID rule)))
        (Errorf "policy layer %d contains duplicate rule %q" [EInt i; EStr (pp_RuleID rule)]) ;;
      mret (<[pp_RuleID rule := pp_Level rule]> m)) m
      ((λ k, MkPolicyRuleProjection k (level k)) <$> ks) = Ok m'
    ∧ ∀ k, m' !! k = if decide (k ∈ ks) then Some (level k) else m !! k.
Proof.
  intros Hn. revert m. induction Hn as [|k ks Hk Hn IH]; intros m Hm; rewrite ?fmap_cons; cbn [fold_res pp_RuleID pp_Level].
  { exists m. split; [done|]. intros k. by rewrite decide_False by set_solver. }
  rewrite bool_decide_eq_false_2 by (rewrite Hm by (by left); by intros [? ?]). cbn [throw_if mbind res_bind mret res_ret].
  destruct (IH (<[k := level k]> m)) as (m' & -> & Hm').
  { intros k' Hk'. rewrite lookup_insert_ne by set_solver. apply Hm. by right. }
  exists m'. split; [done|]. intros k'. rewrite Hm'.
  destruct (decide (k' = k)) as [->|Hne].
  - rewrite decide_False by done. rewrite lookup_insert_eq. by rewrite decide_True by by left.
  - destruct (decide (k' ∈ ks)); [by rewrite decide_True by by right|].
    rewrite lookup_insert_ne by done. by rewrite decide_False by set_solver.
Qed.

Lemma sortedRuleIDs_nodup rules : NoDup (sortedRuleIDs rules).
Proof. unfold sortedRuleIDs, sort_strings. rewrite sort_by_perm. apply NoDup_fst_map_to_list. Qed.

Lemma projected_rules_project i (rules : gmap string string) :
  projected_rules i ((λ ruleID, MkPolicyRuleProjection ruleID (rule_level rules ruleID)) <$> sortedRuleIDs rules)
  = Ok rules.
Proof.
  unfold projected_rules.
  destruct (projected_rules_fold i (rule_level rules) (sortedRuleIDs rules) ∅) as (m & -> & Hm);
    [apply sortedRuleIDs_nodup|intros; apply lookup_empty|].
  f_equal. apply map_eq. intros k. rewrite Hm. unfold rule_level.
  destruct (decide (k ∈ sortedRuleIDs rules)) as [Hk|Hk]; rewrite sortedRuleIDs_elem in Hk.
  - destruct Hk as [v ->]. done.
  - rewrite lookup_empty. symmetry. by apply eq_None_not_Some.
Qed.

Lemma projected_layer_project i l :
  sort_exceptions l = l → projected_layer i (projectPolicyLayer l) = Ok l.
Proof.
  intros Hl. unfold projected_layer, projectPolicyLayer. cbn [lp_Rules lp_Name lp_Source lp_RequireReleaseBaseline lp_Exceptions].
  rewrite elems_gappend, app_nil_l, projected_rules_project. cbn [mbind res_bind mret res_ret].
  rewrite elems_sort_slice, elems_gappend, app_nil_l.
  destruct l as [n s r m ex]. unfold sort_exceptions in Hl. simpl in *. by injection Hl as ->.
Qed.

Lemma projected_layers_project i k :
  Forall (λ s, sl_projection s = projectPolicyLayer (sl_layer s) ∧ sort_exceptions (sl_layer s) = sl_layer s) k →
  projected_layers i (sl_projection <$> k) = Ok (sl_layer <$> k).
Proof.
  intros Hk. revert i. induction Hk as [|s k [Hp Hs] _ IH]; intros i; [done|].
  rewrite !fmap_cons. cbn [projected_layers]. rewrite Hp, projected_layer_project, IH by done. done.
Qed.

Lemma sortable_projections l k :
  Forall2 (λ l s, sortable_layer l = Ok s) l k →
  Forall (λ s, sl_projection s = projectPolicyLayer (sl_layer s) ∧ sort_exceptions (sl_layer s) = sl_layer s) k.
Proof.
  induction 1 as [|x s l k (E & Hp & _)%sortable_layer_ok _ IH]; constructor; [|done].
  split; [done|]. rewrite E. apply sort_exceptions_idem.
Qed.

(** *** Composing the canonical layers again *)

Lemma sort_exceptions_ok l : layer_ok (sort_exceptions l) ↔ layer_ok l.
Proof.
  split; intros [H1 H2 H3 H4]; constructor; try done; simpl in *; [by apply sort_by_Forall in H4|by apply sort_by_Forall].
Qed.

Lemma canonical_layer_ok l : layer_ok (canonical_layer l) ↔ layer_ok l.
Proof. unfold canonical_layer. by rewrite sort_exceptions_ok, clone_layer_ok. Qed.

Lemma canonical_tightens r r' l :
  pl_Rules r = pl_Rules r' → tightens r l → tightens r' (canonical_layer l).
Proof. intros E (H1 & H2 & H3). split; [done|]. split; [by apply canonical_layer_ok|]. by rewrite <-E. Qed.

Lemma Forall2_canonical l k :
  Forall2 (λ l s, sortable_layer l = Ok s) l k → sl_layer <$> k = canonical_layer <$> l.
Proof. induction 1 as [|x s l k (E & _ & _)%sortable_layer_ok _ IH]; [done|]. by rewrite !fmap_cons, E, IH. Qed.

(** The repository layer sorts first. *)
Lemma repository_first s0 k :
  pl_Source (sl_layer s0) = PolicySourceRepository →
  Forall (λ s, pl_Source (sl_layer s) = PolicySourceServer) k →
  ∃ t, sort_by (less_by layer_order) (s0 :: k) = s0 :: t ∧ t ≡ₚ k.
Proof.
  intros H0 Hk. pose proof (sort_by_perm (less_by layer_order) (s0 :: k)) as Hp.
  pose proof (sort_by_sorted layer_order (s0 :: k)) as Hs.
  destruct (sort_by (less_by layer_order) (s0 :: k)) as [|h t];
    [by apply Permutation_nil_cons in Hp|].
  assert (h = s0) as ->; [|exists t; split; [done|by apply Permutation_cons_inv in Hp]].
  assert (Hh : h ∈ s0 :: k) by (rewrite <-Hp; by left).
  apply elem_of_cons in Hh as [->|Hh]; [done|]. exfalso.
  assert (H0in : s0 ∈ h :: t) by (rewrite Hp; by left).
  rewrite Forall_forall in Hk. pose proof (Hk h Hh) as Hsrc.
  apply elem_of_cons in H0in as [->|H0t]; [by rewrite H0 in Hsrc|].
  apply StronglySorted_inv in Hs as [_ Hle]. rewrite Forall_forall in Hle. specialize (Hle s0 H0t).
  unfold le_key, less_by, layer_order, policySourceRank in Hle. rewrite H0, Hsrc in Hle. done.
Qed.

Lemma existsb_canonical l :
  existsb pl_RequireReleaseBaseline (canonical_layer <$> l) = existsb pl_RequireReleaseBaseline l.
Proof. induction l as [|x l IH]; csimpl; [done|]. by rewrite IH. Qed.

Lemma existsb_perm {A} (f : A → bool) l k : l ≡ₚ k → existsb f l = existsb f k.
Proof.
  induction 1 as [|x l k _ IH|x y l|]; simpl; [done|by rewrite IH| |congruence].
  by rewrite !orb_assoc, (orb_comm (f x)).
Qed.

Lemma with_defaults_canonical l :
  with_defaults l = l → with_defaults (canonical_layer l) = canonical_layer l.
Proof.
  intros E. assert (Er : pl_Rules l ∪ repositoryDefaultRules = pl_Rules l) by exact (f_equal pl_Rules E).
  unfold with_defaults at 1, canonical_layer, sort_exceptions, clonePolicyLayer. simpl. rewrite Er. f_equal.
  apply fmap_fixed. rewrite sort_by_Forall, Forall_fmap. apply Forall_forall. done.
Qed.

(** A merged policy, made canonical, merges to itself. *)
Lemma merge_canonical layers p np proj d :
  MergePolicy layers = Ok p → canonicalReviewPolicy p = Ok (np, proj, d) → MergePolicy (ep_Layers np) = Ok np.
Proof.
  destruct layers as [|first rest]; [done|]. intros [(Hs & Hl & Hr) ->]%MergePolicy_iff.
  intros (k & Hk & -> & _)%canonicalReviewPolicy_ok. simpl in Hk |- *.
  pose proof (Forall2_canonical _ _ Hk) as Ek.
  destruct k as [|s0 k]; [done|]. rewrite !fmap_cons in Ek. injection Ek as E0 Ek.
  rewrite <-list_fmap_compose in Ek.
  destruct (repository_first s0 k) as (t & -> & Ht).
  { by rewrite E0. }
  { apply (Forall_fmap sl_layer (λ l, pl_Source l = PolicySourceServer)). rewrite Ek, Forall_fmap. eapply Forall_impl; [exact Hr|]. by intros l (? & _). }
  rewrite fmap_cons. apply MergePolicy_iff. rewrite E0.
  assert (Ew : with_defaults (canonical_layer (with_defaults first)) = canonical_layer (with_defaults first)).
  { apply with_defaults_canonical, with_defaults_idem. }
  assert (Ht' : sl_layer <$> t ≡ₚ canonical_layer ∘ clonePolicyLayer <$> rest) by by rewrite Ht, Ek.
  split; [split; [done|split]|].
  - by apply canonical_layer_ok, with_defaults_ok.
  - rewrite Ht', Ew, Forall_fmap. eapply Forall_impl; [exact Hr|]. intros l (H1 & H2 & H3).
    apply (canonical_tightens (with_defaults first)); [done|]. split; [done|]. split; [by apply clone_layer_ok|done].
  - rewrite Ew. f_equal.
    + f_equal. symmetry. apply fmap_fixed. rewrite Ht', Forall_fmap. apply Forall_forall. intros l _.
      apply canonical_layer_clone.
    + symmetry. rewrite (existsb_perm _ _ (canonical_layer (with_defaults first) :: (canonical_layer ∘ clonePolicyLayer <$> rest)))
        by by rewrite Ht'.
      rewrite list_fmap_compose, <-fmap_cons, existsb_canonical. cbn [existsb]. by rewrite existsb_clone.
Qed.

Lemma normalizeEffectivePolicy_ok policy p :
  normalizeEffectivePolicy policy = Ok p ↔
  MergePolicy (ep_Layers policy) = Ok p ∧ ep_RequireReleaseBaseline p = ep_RequireReleaseBaseline policy.
Proof.
  unfold normalizeEffectivePolicy. rewrite bind_ok. setoid_rewrite seq_ok. setoid_rewrite throw_if_ok.
  setoid_rewrite negb_false_iff. setoid_rewrite bool_decide_eq_true. split.
  - by intros (q & Hq & ? & [= <-]).
  - intros [? ?]. by exists p.
Qed.

(** The projection of a canonical policy reads back as that policy. *)
Lemma projection_roundtrip policy p np proj d :
  normalizeEffectivePolicy policy = Ok p → canonicalReviewPolicy p = Ok (np, proj, d) →
  validateCanonicalPolicyProjection proj = Ok (np, d).
Proof.
  intros [Hm _]%normalizeEffectivePolicy_ok Hc.
  pose proof (merge_canonical _ _ _ _ _ Hm Hc) as Hmc.
  pose proof (canonicalReviewPolicy_fixed _ _ _ _ Hc) as Hf.
  pose proof (canonicalReviewPolicy_ok _ _ _ _ Hc) as (k & Hk & Enp & Epr & _).
  assert (Hsort : Forall (λ s, sl_projection s = projectPolicyLayer (sl_layer s) ∧ sort_exceptions (sl_layer s) = sl_layer s)
            (sort_by (less_by layer_order) k)) by (apply sort_by_Forall; by eapply sortable_projections).
  unfold validateCanonicalPolicyProjection.
  assert (Hl : projected_layers 0 (elems (epp_Layers proj)) = Ok (ep_Layers np)).
  { rewrite Epr, Enp. simpl. rewrite elems_gappend, app_nil_l. by apply projected_layers_project. }
  rewrite Hl. cbn [mbind res_bind].
  assert (Er : epp_RequireReleaseBaseline proj = ep_RequireReleaseBaseline np) by by rewrite Epr, Enp.
  rewrite (proj2 (normalizeEffectivePolicy_ok _ np)) by (simpl; done). cbn [mbind res_bind].
  rewrite Hf. cbn [mbind res_bind]. rewrite bool_decide_eq_true_2 by done. done.
Qed.

(** ** Lemmas: evaluation *)

(** Cloning and sorting a layer's exceptions does not change what fails. *)
Lemma covers_clone l t f e : covers l t f (clonePolicyException e) ↔ covers l t f e.
Proof.
  assert (Hv : ∀ e', validatePolicyException e' (pl_Source l) = Ok tt ↔ exception_ok (pl_Source l) e')
    by (intros; apply validatePolicyException_ok).
  split; intros [H1 H2%Hv H3 H4]; constructor; try done; apply Hv; by apply clone_exception_ok.
Qed.

Lemma fails_canonical l t f : fails (canonical_layer l) t f ↔ fails l t f.
Proof.
  unfold fails. apply and_iff_under. intros _. split.
  - intros Hn e He Hc. apply (Hn (clonePolicyException e)).
    + simpl. rewrite sort_by_elem_of. by apply list_elem_of_fmap_2.
    + apply (covers_clone (canonical_layer l)). by destruct Hc.
  - intros Hn e' He' Hc. simpl in He'. rewrite sort_by_elem_of in He'.
    apply list_elem_of_fmap in He' as (e & -> & He). apply (Hn e He).
    apply (covers_clone l). by destruct Hc.
Qed.

(** All findings of a comparison. *)
Definition changes (b c : ContractSnapshot) : list SpecChange :=
  elems (df_BreakingChanges (diffValidatedContractSnapshots b c))
  ++ elems (df_AdditiveChanges (diffValidatedContractSnapshots b c)).

Lemma comparison_findings kind b c policy t :
  elems (cr_Findings (evaluateComparison kind b c policy t)) ≡ₚ changes b c.
Proof.
  unfold evaluateComparison, sortSpecChanges. cbn [cr_Findings].
  by rewrite elems_sort_slice, sort_by_perm, !elems_gappend, app_nil_l.
Qed.

Lemma comparison_verdict kind b c policy t :
  (pres_Verdict (cr_Policy (evaluateComparison kind b c policy t)) = VerdictFail
   ∧ ∃ x l, x ∈ changes b c ∧ l ∈ ep_Layers policy ∧ fails l t x)
  ∨ (pres_Verdict (cr_Policy (evaluateComparison kind b c policy t)) = VerdictPass
     ∧ ∀ x l, x ∈ changes b c → l ∈ ep_Layers policy → ¬ fails l t x).
Proof.
  pose proof (comparison_findings kind b c policy t) as Hp. unfold evaluateComparison in *.
  cbn [cr_Policy cr_Findings sortPolicyResult pres_Verdict] in *.
  edestruct verdict_cases as [[-> (x & l & Hx & Hl)]|[-> Hn]]; [left|right].
  - split; [done|]. exists x, l. by rewrite Hp in Hx.
  - split; [done|]. intros x l Hx. apply Hn. by rewrite Hp.
Qed.

(** Which layers the canonical policy has. *)
Lemma canonical_layers p np proj d :
  canonicalReviewPolicy p = Ok (np, proj, d) → ep_Layers np ≡ₚ canonical_layer <$> ep_Layers p.
Proof.
  intros (k & Hk & -> & _)%canonicalReviewPolicy_ok. simpl. rewrite sort_by_perm.
  by rewrite (Forall2_canonical _ _ Hk).
Qed.

Lemma canonical_fails p np proj d t x :
  canonicalReviewPolicy p = Ok (np, proj, d) →
  (∃ l, l ∈ ep_Layers np ∧ fails l t x) ↔ ∃ l, l ∈ ep_Layers p ∧ fails l t x.
Proof.
  intros Hc%canonical_layers. setoid_rewrite Hc. split.
  - intros (l & (l' & -> & Hl)%list_elem_of_fmap & Hf). exists l'. split; [done|]. by apply fails_canonical.
  - intros (l & Hl & Hf). exists (canonical_layer l). split; [by apply list_elem_of_fmap_2|]. by apply fails_canonical.
Qed.

Section evaluate.
Context `{CaseTables, !CaseLaws}.

(** A successful evaluation, step by step. *)
Lemma EvaluateReview_ok rq rep :
  EvaluateReview rq = Ok rep →
  validateReviewRequest rq = Ok tt ∧ snapshot_ok (rq_Target rq) ∧ snapshot_ok (rq_Candidate rq)
  ∧ Forall snapshot_ok (option_list (rq_Release rq))
  ∧ ∃ p np proj d, normalizeEffectivePolicy (rq_Policy rq) = Ok p
      ∧ canonicalReviewPolicy p = Ok (np, proj, d)
      ∧ let t := ToUTC (rq_EvaluatedAt rq) in
        let cs := evaluateComparison ComparisonPullRequest (rq_Target rq) (rq_Candidate rq) np t
                  :: ((λ release, evaluateComparison ComparisonReleaseImpact release (rq_Candidate rq) np t)
                       <$> option_list (rq_Release rq)) in
        rep = MkReviewReport ReviewSchemaVersion (rq_EngineVersion rq) (rq_ContractID rq) t proj d
                (if existsb (λ c, bool_decide (pres_Verdict (cr_Policy c) = VerdictFail)) cs
                 then VerdictFail else VerdictPass) (Some cs).
Proof.
  unfold EvaluateReview.
  intros (Hq & (tgt & [Ht ->]%wrap_err_ok%validateAndClone_iff &
    (cand & [Hc ->]%wrap_err_ok%validateAndClone_iff & (rel & Hrel & (p & Hp%wrap_err_ok & (_ & He)%seq_ok)%bind_ok)%bind_ok)%bind_ok)%bind_ok)%seq_ok.
  apply bind_ok in He as ([[np proj] d] & Hcan%wrap_err_ok & [= <-]).
  assert (rel = rq_Release rq ∧ Forall snapshot_ok (option_list (rq_Release rq))) as [-> Hrok].
  { destruct (rq_Release rq) as [b|]; [|injection Hrel as <-; split; [done|constructor]].
    apply fmap_ok in Hrel as (b' & [Hb ->]%wrap_err_ok%validateAndClone_iff & ->).
    split; [done|]. by apply Forall_singleton. }
  split; [done|]. split; [done|]. split; [done|]. split; [done|]. exists p, np, proj, d.
  split; [done|]. split; [done|]. by destruct (rq_Release rq).
Qed.

Lemma evaluate_verdict rq rep :
  EvaluateReview rq = Ok rep →
  ∃ p, normalizeEffectivePolicy (rq_Policy rq) = Ok p ∧
    (rr_Verdict rep = VerdictPass ↔
     ∀ b x l, b ∈ rq_Target rq :: option_list (rq_Release rq) → x ∈ changes b (rq_Candidate rq) →
       l ∈ ep_Layers p → ¬ fails l (rq_EvaluatedAt rq) x)
    ∧ (rr_Verdict rep = VerdictPass ∨ rr_Verdict rep = VerdictFail).
Proof.
  intros (_ & _ & _ & _ & p & np & proj & d & Hp & Hcan & ->)%EvaluateReview_ok.
  exists p. split; [done|]. cbn [rr_Verdict]. split; [|case_match; auto].
  set (t := ToUTC _). set (cs := _ :: _).
  assert (Hft : ∀ l x, fails l t x ↔ fails l (rq_EvaluatedAt rq) x).
  { intros l x. unfold fails. apply and_iff_under. intros _.
    split; intros Hn e He [H1 H2 H3 H4]; by apply (Hn e He). }
  assert (Hcs : ∀ kind b, (pres_Verdict (cr_Policy (evaluateComparison kind b (rq_Candidate rq) np t)) = VerdictFail
      ↔ ∃ x, x ∈ changes b (rq_Candidate rq) ∧ ∃ l, l ∈ ep_Layers p ∧ fails l (rq_EvaluatedAt rq) x)).
  { intros kind b. destruct (comparison_verdict kind b (rq_Candidate rq) np t) as [[-> (x & l & Hx & Hl & Hf)]|[-> Hn]].
    - split; [|done]. intros _. exists x. split; [done|]. setoid_rewrite <-Hft.
      apply (canonical_fails _ _ _ _ _ _ Hcan). eauto.
    - split; [done|]. intros (x & Hx & Hl). setoid_rewrite <-Hft in Hl.
      apply (canonical_fails _ _ _ _ _ _ Hcan) in Hl as (l & Hl & Hf). by destruct (Hn x l). }
  assert (Hex : existsb (λ c, bool_decide (pres_Verdict (cr_Policy c) = VerdictFail)) cs = true ↔
    ∃ b, b ∈ rq_Target rq :: option_list (rq_Release rq)
       ∧ ∃ x, x ∈ changes b (rq_Candidate rq) ∧ ∃ l, l ∈ ep_Layers p ∧ fails l (rq_EvaluatedAt rq) x).
  { unfold cs. rewrite existsb_exists. setoid_rewrite bool_decide_eq_true. split.
    - intros (c & [<-|Hin] & Hv).
      + apply Hcs in Hv. exists (rq_Target rq). split; [by left|done].
      + apply list_elem_of_In, list_elem_of_fmap in Hin as (b & -> & Hb). apply Hcs in Hv.
        exists b. split; [by right|done].
    - intros (b & [->|Hb]%elem_of_cons & Hx); eexists; (split; [|by apply Hcs]); [by left|right].
      apply list_elem_of_In, list_elem_of_fmap. by exists b. }
  destruct (existsb _ cs); split; try done.
  - intros Hn. destruct (proj1 Hex eq_refl) as (b & Hb & x & Hx & l & Hl & Hf). by destruct (Hn b x l).
  - intros _ b x l Hb Hx Hl Hf. assert (false = true) as Hc; [|done]. apply Hex. eauto 10.
Qed.

(** *** The default policy *)

(** A repository layer without rules or exceptions of its own. *)
Definition plain_layer (l : PolicyLayer) : Prop := pl_Rules l = ∅ ∧ pl_Exceptions l = [].

Lemma default_levels :
  Forall (λ r, repositoryDefaultRules !! r = Some RuleLevelFail) breaking_rules
  ∧ Forall (λ r, repositoryDefaultRules !! r = Some RuleLevelAllow) additive_rules.
Proof. split; decide_compute. Qed.

Lemma plain_fails l t x :
  plain_layer l → pl_Source l = PolicySourceRepository →
  (finding_ok SpecChangeBreaking breaking_rules x → fails (with_defaults l) t x)
  ∧ (finding_ok SpecChangeAdditive additive_rules x → ¬ fails (with_defaults l) t x).
Proof.
  intros [Er Ee] Hs. unfold fails, contributionLevel, with_defaults. simpl.
  rewrite Er, Ee, (left_id_L ∅ (∪)). simpl. rewrite bool_decide_eq_true_2 by done.
  destruct default_levels as [Hb Ha]. rewrite Forall_forall in Hb, Ha. split.
  - intros [_ Hr _ _ _]. rewrite (Hb _ Hr). split; [done|]. by intros e ?%elem_of_nil.
  - intros [_ Hr _ _ _]. rewrite (Ha _ Hr). by intros [[=] _].
Qed.

Lemma plain_pass b c l t :
  snapshot_ok b → snapshot_ok c → unambiguous b → unambiguous c →
  plain_layer l → pl_Source l = PolicySourceRepository →
  (∀ x, x ∈ changes b c → ¬ fails (with_defaults l) t x) ↔ backward_compatible b c.
Proof.
  intros Hb Hc Hub Huc Hl Hs. rewrite <-(breaking_iff_incompatible b c Hb Hc Hub Huc).
  pose proof (breaking_exact b c Hb Hc Hub Huc) as Hx. split.
  - intros Hn x Hbr. apply Hx in Hbr. apply (Hn x); [apply elem_of_app; by left|].
    apply (plain_fails l t x); [done..|]. by apply (breaking_ok b c).
  - intros Hn x [Hin|Hin]%elem_of_app; [by destruct (Hn x); apply Hx|].
    apply (plain_fails l t x); [done..|]. by apply (additive_ok b c).
Qed.
End evaluate.

(** The release part of an evaluated report: its second comparison alone,
    under that comparison's verdict (what contracttest/releaseauthority.go
    persists as release evidence). *)
Definition release_part (rep : ReviewReport) (c : ComparisonReport) : ReviewReport :=
  MkReviewReport (rr_SchemaVersion rep) (rr_EngineVersion rep) (rr_ContractID rep) (rr_EvaluatedAt rep)
    (rr_EffectivePolicy rep) (rr_PolicyDigest rep) (pres_Verdict (cr_Policy c)) (Some [c]).

Lemma snapshotRef_ok `{CaseTables} role s : snapshot_ok s → validateSnapshotRef role (snapshotRef s) = Ok tt.
Proof.
  intros [_ H2 H3 _ H5]. unfold validateSnapshotRef, validateCanonicalIdentity, snapshotRef. cbn [sr_RevisionID sr_SpecDigest sr_ContractDigest].
  rewrite !seq_ok, !throw_if_ok, !negb_false_iff, ValidateCanonicalIdentity_required.
  split_and!; try done. rewrite H5. apply sha256Hex_lower.
Qed.

Lemma expectedSnapshotRef_ok `{CaseTables} role s :
  snapshot_ok s → validateExpectedSnapshotRef role (snapshotRef s) (snapshotRef s) = Ok tt.
Proof.
  intros Hs. unfold validateExpectedSnapshotRef. rewrite !snapshotRef_ok by done. cbn [mbind res_bind].
  rewrite !bool_decide_eq_true_2 by done. done.
Qed.

(** What the validator has established when it accepts. *)
Lemma accepted_report_inv `{CaseTables, !CaseLaws} rep contractID b c :
  ValidateReleaseReviewReportAgainstSnapshots rep contractID b c = Ok tt →
  snapshot_ok b ∧ snapshot_ok c ∧
  ∃ p d, validateCanonicalPolicyProjection (rr_EffectivePolicy rep) = Ok (p, d)
    ∧ rr_PolicyDigest rep = d ∧ cs_ContractID b = contractID ∧ cs_ContractID c = contractID
    ∧ elems (rr_Comparisons rep) = [evaluateComparison ComparisonReleaseImpact b c p (rr_EvaluatedAt rep)]
    ∧ rr_Verdict rep = pres_Verdict (cr_Policy (evaluateComparison ComparisonReleaseImpact b c p (rr_EvaluatedAt rep))).
Proof.
  unfold ValidateReleaseReviewReportAgainstSnapshots.
  intros (b' & [Hb ->]%wrap_err_ok%validateAndClone_iff & (c' & [Hc ->]%wrap_err_ok%validateAndClone_iff & H1)%bind_ok)%bind_ok.
  split; [done|]. split; [done|].
  apply seq_ok in H1 as [Hcb H1]. apply seq_ok in H1 as [Hcc H1].
  apply bind_ok in H1 as ([p comparison] & Hv & H1). apply seq_ok in H1 as [He Hverdict].
  rewrite throw_if_ok in *. bool_prop. subst comparison.
  unfold validateReleaseReviewReport in Hv.
  do 7 apply seq_ok in Hv as [_ Hv].
  apply bind_ok in Hv as ([p' d] & Hp%wrap_err_ok & Hv). apply seq_ok in Hv as [Hd Hv].
  rewrite throw_if_ok in Hd. bool_prop.
  destruct (elems (rr_Comparisons rep)) as [|k [|? ?]]; try done.
  do 5 apply seq_ok in Hv as [_ Hv]. injection Hv as -> ->.
  by exists p, d.
Qed.

(** ** Sample data for the witnesses *)

Definition plain_repository : PolicyLayer := MkPolicyLayer "repository-default" PolicySourceRepository false ∅ [].

Definition sample_request (layers : list PolicyLayer) : ReviewRequest :=
  MkReviewRequest "contract-1" base_snapshot next_snapshot (Some base_snapshot)
    (MkEffectivePolicy layers (existsb pl_RequireReleaseBaseline layers)) (at_second 5) "test".

Definition sample_report (layers : list PolicyLayer) : ReviewReport :=
  match @EvaluateReview latin1 (sample_request layers) with
  | Ok rep => rep
  | Fail _ => zero_report
  end.

Definition sample_release_report : ReviewReport :=
  match elems (rr_Comparisons (sample_report [plain_repository])) with
  | [_; c] => release_part (sample_report [plain_repository]) c
  | _ => zero_report
  end.

(** ** Properties *)

Section properties.
Context `{CaseTables, !CaseLaws}.

(** C16: an accepted release review tells the truth.  When the validator
    accepts a stored report against the persisted snapshots, the report holds
    exactly the comparison of those snapshots under its own policy, and its
    verdict is pass precisely when no layer of that policy fails any change
    between them. *)
Theorem accepted_release_review_tells_the_truth rep contractID b c :
  ValidateReleaseReviewReportAgainstSnapshots rep contractID b c = Ok tt →
  ∃ p d, validateCanonicalPolicyProjection (rr_EffectivePolicy rep) = Ok (p, d)
    ∧ rr_PolicyDigest rep = d ∧ cs_ContractID b = contractID ∧ cs_ContractID c = contractID
    ∧ elems (rr_Comparisons rep) = [evaluateComparison ComparisonReleaseImpact b c p (rr_EvaluatedAt rep)]
    ∧ (rr_Verdict rep = VerdictPass ↔
       ∀ x l, x ∈ changes b c → l ∈ ep_Layers p → ¬ fails l (rr_EvaluatedAt rep) x).
Proof.
  intros (_ & _ & p & d & Hp & Hd & Hb & Hc & He & Hv)%accepted_report_inv.
  exists p, d. split_and!; try done. rewrite Hv.
  destruct (comparison_verdict ComparisonReleaseImpact b c p (rr_EvaluatedAt rep)) as [[-> (x & l & Hx & Hl & Hf)]|[-> Hn]].
  - split; [done|]. intros Hn. by destruct (Hn x l).
  - done.
Qed.

(** Evaluation and validation agree.  The release comparison of any
    successfully evaluated review, kept as the report's only comparison with
    its own verdict, is accepted as release evidence for the snapshots it was
    computed from. *)
Theorem evaluated_release_report_validates rq rep b :
  EvaluateReview rq = Ok rep → rq_Release rq = Some b →
  ∃ pr c, rr_Comparisons rep = Some [pr; c] ∧
    ValidateReleaseReviewReportAgainstSnapshots (release_part rep c) (rq_ContractID rq) b (rq_Candidate rq) = Ok tt.
Proof.
  intros (Hq & _ & Hc & Hrel & p & np & proj & d & Hp & Hcan & ->)%EvaluateReview_ok Er.
  rewrite Er in *. assert (Hb : snapshot_ok b) by exact (proj1 (Forall_singleton _ _) Hrel). eexists _, _. split; [done|].
  assert (Hids : cs_ContractID b = rq_ContractID rq ∧ cs_ContractID (rq_Candidate rq) = rq_ContractID rq
    ∧ canonical (rq_ContractID rq) ∧ canonical (rq_EngineVersion rq) ∧ IsZero (rq_EvaluatedAt rq) = false).
  { unfold validateReviewRequest, validateCanonicalIdentity in Hq. rewrite Er in Hq.
    rewrite !seq_ok, !throw_if_ok, !ValidateCanonicalIdentity_required in Hq.
    destruct Hq as (? & ? & ? & ? & ? & ?). by bool_prop. }
  destruct Hids as (Ebc & Ecc & Hcid & Heng & Hz).
  pose proof (projection_roundtrip _ _ _ _ _ Hp Hcan) as Hround.
  assert (Hd : isLowerSHA256 d = true).
  { apply canonicalReviewPolicy_ok in Hcan as (_ & _ & _ & _ & j & _ & ->). apply sha256Hex_lower. }
  set (cmp := evaluateComparison ComparisonReleaseImpact b (rq_Candidate rq) np (ToUTC (rq_EvaluatedAt rq))).
  assert (Hvalid : validateReleaseReviewReport (release_part (MkReviewReport ReviewSchemaVersion (rq_EngineVersion rq)
      (rq_ContractID rq) (ToUTC (rq_EvaluatedAt rq)) proj d VerdictPass None) cmp) (rq_ContractID rq)
      (snapshotRef b) (snapshotRef (rq_Candidate rq)) = Ok (np, cmp)).
  { unfold validateReleaseReviewReport, release_part, validateCanonicalIdentity. cbn [rr_SchemaVersion rr_ContractID
      rr_EngineVersion rr_EvaluatedAt rr_EffectivePolicy rr_PolicyDigest rr_Verdict rr_Comparisons elems default from_option].
    rewrite !(proj2 (ValidateCanonicalIdentity_required _ _)), Hd, Hround by done.
    change (IsZero (ToUTC (rq_EvaluatedAt rq))) with (IsZero (rq_EvaluatedAt rq)). rewrite Hz.
    change (is_UTC (ToUTC (rq_EvaluatedAt rq))) with true.
    rewrite (bool_decide_eq_true_2 (ReviewSchemaVersion = _)), (bool_decide_eq_true_2 (rq_ContractID rq = _)) by done.
    cbn [negb throw_if mbind res_bind wrap_err id]. rewrite (bool_decide_eq_true_2 (d = d)) by done.
    cbn [negb throw_if mbind res_bind]. rewrite (bool_decide_eq_true_2 (cr_Kind cmp = _)) by done.
    change (cr_Baseline cmp) with (snapshotRef b). change (cr_Candidate cmp) with (snapshotRef (rq_Candidate rq)).
    cbn [negb throw_if mbind res_bind].
    rewrite !expectedSnapshotRef_ok by done. cbn [mbind res_bind].
    destruct (comparison_verdict ComparisonReleaseImpact b (rq_Candidate rq) np (ToUTC (rq_EvaluatedAt rq))) as [[E _]|[E _]];
      fold cmp in E; rewrite E; reflexivity. }
  unfold ValidateReleaseReviewReportAgainstSnapshots.
  rewrite (proj2 (validateAndClone_iff b b)), (proj2 (validateAndClone_iff (rq_Candidate rq) (rq_Candidate rq))) by done.
  cbn [wrap_err mbind res_bind]. rewrite !bool_decide_eq_true_2 by done. cbn [negb throw_if mbind res_bind].
  unfold release_part in *. cbn [rr_SchemaVersion rr_EngineVersion rr_ContractID rr_EvaluatedAt rr_EffectivePolicy rr_PolicyDigest] in *.
  fold cmp. rewrite Hvalid. cbn [mbind res_bind rr_EvaluatedAt rr_Verdict]. fold cmp.
  by rewrite !bool_decide_eq_true_2.
Qed.

(** A report is not release evidence as it comes.  Every evaluated report
    starts with its pull-request comparison, so the release validator refuses
    all of them, whatever the snapshots. *)
Theorem evaluated_report_is_not_release_evidence rq rep contractID b c :
  EvaluateReview rq = Ok rep → ValidateReleaseReviewReport rep contractID b c ≠ Ok tt.
Proof.
  intros (_ & _ & _ & _ & p & np & proj & d & _ & _ & ->)%EvaluateReview_ok.
  unfold ValidateReleaseReviewReport. intros [[? ?] [Hv _]]%bind_ok.
  unfold validateReleaseReviewReport in Hv. do 7 apply seq_ok in Hv as [_ Hv].
  apply bind_ok in Hv as ([p' d'] & _ & Hv). apply seq_ok in Hv as [_ Hv].
  cbn [rr_Comparisons elems default from_option] in Hv. by destruct (rq_Release rq).
Qed.

(** C27: the verdict of a review is exact.  A successful evaluation passes
    precisely when no layer of the composed policy fails any change of the
    candidate against the target or against the release baseline, exceptions
    being read at the evaluation time. *)
Theorem review_verdict_exact rq rep :
  EvaluateReview rq = Ok rep →
  ∃ p, normalizeEffectivePolicy (rq_Policy rq) = Ok p ∧
    (rr_Verdict rep = VerdictPass ↔
     ∀ b x l, b ∈ rq_Target rq :: option_list (rq_Release rq) → x ∈ changes b (rq_Candidate rq) →
       l ∈ ep_Layers p → ¬ fails l (rq_EvaluatedAt rq) x)
    ∧ (rr_Verdict rep = VerdictPass ∨ rr_Verdict rep = VerdictFail).
Proof. apply evaluate_verdict. Qed.

(** Under the default policy, one repository layer without rules or
    exceptions, a review of snapshots whose string keys are unambiguous passes
    exactly when the candidate is backward compatible with the target and with
    the release baseline. *)
Theorem default_policy_passes_iff_compatible rq rep l :
  EvaluateReview rq = Ok rep → ep_Layers (rq_Policy rq) = [l] → plain_layer l →
  Forall unambiguous (rq_Candidate rq :: rq_Target rq :: option_list (rq_Release rq)) →
  rr_Verdict rep = VerdictPass ↔
  Forall (λ b, backward_compatible b (rq_Candidate rq)) (rq_Target rq :: option_list (rq_Release rq)).
Proof.
  intros He El Hl Hu. destruct (evaluate_verdict _ _ He) as (p & Hp & -> & _).
  apply EvaluateReview_ok in He as (_ & Ht & Hc & Hr & _).
  apply normalizeEffectivePolicy_ok in Hp as [Hm _]. rewrite El in Hm.
  apply MergePolicy_iff in Hm as [(Hs & _ & _) ->]. simpl ep_Layers.
  apply Forall_cons in Hu as [Huc Hu]. rewrite Forall_forall in Hu.
  assert (Hok : ∀ b, b ∈ rq_Target rq :: option_list (rq_Release rq) → snapshot_ok b).
  { intros b [->|Hb]%elem_of_cons; [done|]. rewrite Forall_forall in Hr. auto. }
  rewrite Forall_forall. split.
  - intros Hn b Hb. apply (plain_pass b (rq_Candidate rq) l (rq_EvaluatedAt rq)); auto.
    intros x Hx. apply (Hn b x _ Hb Hx). by left.
  - intros Hn b x l' Hb Hx ->%list_elem_of_singleton.
    apply (proj2 (plain_pass b (rq_Candidate rq) l (rq_EvaluatedAt rq) (Hok b Hb) Hc (Hu b Hb) Huc Hl Hs)); auto.
Qed.
End properties.

Lemma sample_report_ok : @EvaluateReview latin1 (sample_request [plain_repository]) = Ok (sample_report [plain_repository]).
Proof. vm_compute. reflexivity. Qed.

Lemma accepted_release_review_tells_the_truth_witness :
  ∃ p d, validateCanonicalPolicyProjection (rr_EffectivePolicy sample_release_report) = Ok (p, d)
    ∧ rr_PolicyDigest sample_release_report = d ∧ cs_ContractID base_snapshot = "contract-1"
    ∧ cs_ContractID next_snapshot = "contract-1"
    ∧ elems (rr_Comparisons sample_release_report)
      = [evaluateComparison ComparisonReleaseImpact base_snapshot next_snapshot p (rr_EvaluatedAt sample_release_report)]
    ∧ (rr_Verdict sample_release_report = VerdictPass ↔
       ∀ x l, x ∈ changes base_snapshot next_snapshot → l ∈ ep_Layers p →
         ¬ fails l (rr_EvaluatedAt sample_release_report) x).
Proof.
  apply (@accepted_release_review_tells_the_truth latin1 latin1_laws). vm_compute. reflexivity.
Defined.

Lemma evaluated_release_report_validates_witness :
  ∃ pr c, rr_Comparisons (sample_report [plain_repository]) = Some [pr; c] ∧
    @ValidateReleaseReviewReportAgainstSnapshots latin1 (release_part (sample_report [plain_repository]) c)
      "contract-1" base_snapshot next_snapshot = Ok tt.
Proof.
  apply (@evaluated_release_report_validates latin1 latin1_laws (sample_request [plain_repository]));
    [exact sample_report_ok|reflexivity].
Defined.

Lemma evaluated_report_is_not_release_evidence_witness :
  ValidateReleaseReviewReport (sample_report [plain_repository]) "contract-1"
    (snapshotRef base_snapshot) (snapshotRef next_snapshot) ≠ Ok tt.
Proof.
  apply (@evaluated_report_is_not_release_evidence latin1 latin1_laws (sample_request [plain_repository])).
  exact sample_report_ok.
Defined.

Lemma review_verdict_exact_witness :
  ∃ p, normalizeEffectivePolicy (rq_Policy (sample_request [plain_repository])) = Ok p ∧
    (rr_Verdict (sample_report [plain_repository]) = VerdictPass ↔
     ∀ b x l, b ∈ [base_snapshot; base_snapshot] → x ∈ changes b next_snapshot →
       l ∈ ep_Layers p → ¬ fails l (at_second 5) x)
    ∧ (rr_Verdict (sample_report [plain_repository]) = VerdictPass
       ∨ rr_Verdict (sample_report [plain_repository]) = VerdictFail).
Proof.
  exact (@review_verdict_exact latin1 latin1_laws (sample_request [plain_repository]) _ sample_report_ok).
Defined.

Lemma default_policy_passes_iff_compatible_witness :
  rr_Verdict (sample_report [plain_repository]) = VerdictPass ↔
  Forall (λ b, backward_compatible b next_snapshot) [base_snapshot; base_snapshot].
Proof.
  apply (@default_policy_passes_iff_compatible latin1 latin1_laws (sample_request [plain_repository]) _ plain_repository).
  - exact sample_report_ok.
  - reflexivity.
  - split; reflexivity.
  - apply Forall_cons_2; [apply next_unambiguous|]. apply Forall_cons_2; [apply base_unambiguous|].
    apply Forall_cons_2; [apply base_unambiguous|apply Forall_nil_2].
Defined.
