(* ===== verification/Records.v ===== *)
(** * Persisted records (domain/spec.go, domain/sync.go, domain/publication.go,
    domain/release.go, domain/spec_validation.go, application/port/blob.go)

    The immutable evidence the operational store keeps: contract revisions,
    sync records, publications, audit events and outbox messages, with their
    validation, their blob keys, and their JSON ([JsonRecord]): the text two
    records are compared by and the value a decoder reads back. *)

From S2P Require Import Prelude GoString GoSha256 GoTime GoJson Identity Spec Snapshot SpecDiff.
From S2P Require Import Release.
From S2P Require Import Policy.
From S2P Require Import Review.

Record SpecFile := MkSpecFile {
  sf_SourceID : string;
  sf_Path : string;
  sf_Format : string;
  sf_Bytes : list Z;
}.

Record ContractRevision := MkContractRevision {
  cv_ID : string;
  cv_ContractID : string;
  cv_SourceID : string;
  cv_SpecBlobKey : string;
  cv_SpecDigest : string;
  cv_ContractDigest : string;
  cv_ReviewSnapshot : option ContractSnapshot;
  cv_Ref : string;
  cv_CommitSHA : string;
  cv_Version : string;
  cv_AuthorName : string;
  cv_AuthorEmail : string;
  cv_Message : string;
}.

Definition SyncResultSuccess : string := "success".
Definition SyncResultFailure : string := "failure".

Record SyncRecord := MkSyncRecord {
  sy_ID : string;
  sy_ProjectID : string;
  sy_SourceID : string;
  sy_RevisionID : string;
  sy_Trigger : string;
  sy_Ref : string;
  sy_CommitSHA : string;
  sy_SpecPath : string;
  sy_Result : string;
  sy_ErrorSummary : string;
  sy_StartedAt : Time;
  sy_FinishedAt : Time;
}.

Record Publication := MkPublication {
  pb_ProjectID : string;
  pb_RevisionID : string;
  pb_Public : bool;
  pb_Path : string;
  pb_Hostname : string;
}.

Record Actor := MkActor {
  ac_Anonymous : bool;
  ac_UserID : string;
  ac_ProjectIDs : list string;
}.

Record AuditEvent := MkAuditEvent {
  ae_ID : string;
  ae_ContractID : string;
  ae_TrackID : string;
  ae_RevisionID : string;
  ae_Kind : string;
  ae_ActorID : string;
  ae_OccurredAt : Time;
}.

Record OutboxMessage := MkOutboxMessage {
  om_ID : string;
  om_ContractID : string;
  om_TrackID : string;
  om_RevisionID : string;
  om_Topic : string;
  om_Payload : slice Z;
  om_CreatedAt : Time;
}.

Record ReleaseEvidence := MkReleaseEvidence {
  re_Authorization : ReleaseAuthorization;
  re_Review : ContractReview;
  re_SyncRecord : SyncRecord;
}.

#[export] Instance ReleaseAuthorization_eq_dec : EqDecision ReleaseAuthorization.
Proof. solve_decision. Defined.
#[export] Instance ContractRevision_eq_dec : EqDecision ContractRevision.
Proof. solve_decision. Defined.
#[export] Instance SyncRecord_eq_dec : EqDecision SyncRecord.
Proof. solve_decision. Defined.
#[export] Instance Publication_eq_dec : EqDecision Publication.
Proof. solve_decision. Defined.

#[export] Instance ContractRevision_value : GoValue ContractRevision := λ r, VStruct [
  exported "ID" (cv_ID r); exported "ContractID" (cv_ContractID r); exported "SourceID" (cv_SourceID r);
  exported "SpecBlobKey" (cv_SpecBlobKey r); exported "SpecDigest" (cv_SpecDigest r);
  exported "ContractDigest" (cv_ContractDigest r); ("ReviewSnapshot", "", value_pointer (cv_ReviewSnapshot r));
  exported "Ref" (cv_Ref r); exported "CommitSHA" (cv_CommitSHA r); exported "Version" (cv_Version r);
  exported "AuthorName" (cv_AuthorName r); exported "AuthorEmail" (cv_AuthorEmail r);
  exported "Message" (cv_Message r)].

#[export] Instance SyncRecord_value : GoValue SyncRecord := λ r, VStruct [
  exported "ID" (sy_ID r); exported "ProjectID" (sy_ProjectID r); exported "SourceID" (sy_SourceID r);
  exported "RevisionID" (sy_RevisionID r); exported "Trigger" (sy_Trigger r); exported "Ref" (sy_Ref r);
  exported "CommitSHA" (sy_CommitSHA r); exported "SpecPath" (sy_SpecPath r); exported "Result" (sy_Result r);
  exported "ErrorSummary" (sy_ErrorSummary r); exported "StartedAt" (sy_StartedAt r);
  exported "FinishedAt" (sy_FinishedAt r)].

(** ** Blob keys *)

Definition ContentAddressedBlobKey (data : list Z) : string := "sha256:" +:+ sha256Hex data.

(** [hex.DecodeString] fails on an odd length or a byte that is no digit. *)
Definition hex_decodable (s : string) : bool :=
  (go_len s `mod` 2 =? 0)
  && forallb (λ b, in_range 48 57 b || in_range 97 102 b || in_range 65 70 b) (bytes_of s).

Section records.
Context `{CaseTables}.

Definition BlobKey_Valid (k : string) : bool :=
  if negb (HasPrefix k "sha256:") then false
  else
    let digest := TrimPrefix k "sha256:" in
    if negb (go_len digest =? 64) || negb (bool_decide (digest = ToLower digest)) then false
    else hex_decodable digest.

(** ** Validation *)

Definition ValidateContractRevision (revision : ContractRevision) : res unit :=
  validateUTF8Strings "contract revision" revision ;;
  validate_identities [
    ("revision id", cv_ID revision, false);
    ("revision contract id", cv_ContractID revision, true);
    ("revision source id", cv_SourceID revision, true);
    ("revision blob key", cv_SpecBlobKey revision, true);
    ("revision ref", cv_Ref revision, true);
    ("revision commit sha", cv_CommitSHA revision, true)] ;;
  for_each (λ '(name, value),
    throw_if (negb (bool_decide (value = "")) && negb (isLowerSHA256 value))
      (Errorf "%s must be lowercase SHA-256" [EStr name])) [
    ("revision spec digest", cv_SpecDigest revision);
    ("revision contract digest", cv_ContractDigest revision)] ;;
  match cv_ReviewSnapshot revision with
  | Some snapshot =>
      wrap_err (ValidateContractSnapshot snapshot) (λ e, Errorf "revision review snapshot: %w" [EErr e])
  | None => mret tt
  end.
End records.

Definition ValidateSyncRecord (record : SyncRecord) : res unit :=
  validateUTF8Strings "sync record" record ;;
  validate_identities [
    ("sync id", sy_ID record, false);
    ("sync project id", sy_ProjectID record, true);
    ("sync source id", sy_SourceID record, true);
    ("sync revision id", sy_RevisionID record, true);
    ("sync trigger", sy_Trigger record, true);
    ("sync ref", sy_Ref record, true);
    ("sync commit sha", sy_CommitSHA record, true);
    ("sync spec path", sy_SpecPath record, true);
    ("sync result", sy_Result record, true)].

Definition without_times (r : SyncRecord) : SyncRecord :=
  MkSyncRecord (sy_ID r) (sy_ProjectID r) (sy_SourceID r) (sy_RevisionID r) (sy_Trigger r) (sy_Ref r)
    (sy_CommitSHA r) (sy_SpecPath r) (sy_Result r) (sy_ErrorSummary r) zero_time zero_time.

Definition SameSyncEvidence (left right : SyncRecord) : bool :=
  bool_decide (without_times left = without_times right).

Definition VisibleTo (p : Publication) (actor : Actor) : bool :=
  if pb_Public p then true
  else if ac_Anonymous actor then false
  else existsb (λ id, bool_decide (id = pb_ProjectID p)) (ac_ProjectIDs actor).

(** ** JSON of the records

    [record_json] is what [json.Marshal] makes of a record and [reread] what
    decoding that text gives back: malformed UTF-8 has become U+FFFD, an empty
    [omitempty] slice nil, and a time the wall clock it was printed with, in a
    fixed zone that cuts the seconds of its offset. *)

Class JsonRecord (A : Type) := {
  record_json : A → res json;
  reread : A → A;
}.

Definition reread_zone (l : Location) : Location :=
  let offset := Z.quot (loc_offset l) 60 * 60 in
  if offset =? 0 then LocUTC else LocZone "" offset.
Definition reread_time (t : Time) : Time :=
  MkTime (local_ns t - loc_offset (reread_zone (t_loc t)) * 1000000000) (reread_zone (t_loc t)).
Definition reread_omitted {A} (f : A → A) (s : slice A) : slice A := gappend None (f <$> elems s).

Definition reread_parameter (p : ContractParameter) : ContractParameter :=
  MkContractParameter (reread_string (cp_Name p)) (reread_string (cp_In p)) (cp_Required p).
Definition reread_operation (o : ContractOperation) : ContractOperation :=
  MkContractOperation (reread_string (co_Method o)) (reread_string (co_Path o))
    (reread_omitted reread_parameter (co_Parameters o)) (co_RequestBodyRequired o)
    (reread_omitted reread_string (co_ResponseStatuses o)).
Definition reread_snapshot (s : ContractSnapshot) : ContractSnapshot :=
  MkContractSnapshot (reread_string (cs_ContractID s)) (reread_string (cs_RevisionID s))
    (reread_string (cs_SpecDigest s)) (reread_string (cs_ContractDigest s))
    (fmap (M:=list) reread_operation <$> cs_Operations s) (fmap (M:=list) reread_string <$> cs_Schemas s).

Definition snapshot_json (s : ContractSnapshot) : json := JObject
  (field "contractId" (JString (cs_ContractID s)) ++ field "revisionId" (JString (cs_RevisionID s))
   ++ field "specDigest" (JString (cs_SpecDigest s)) ++ field "contractDigest" (JString (cs_ContractDigest s))
   ++ field "operations" (json_slice operation_json (cs_Operations s))
   ++ field "schemas" (json_slice JString (cs_Schemas s))).

#[export] Instance revision_record : JsonRecord ContractRevision := {|
  record_json r := mret (JObject
    (field "ID" (JString (cv_ID r)) ++ omit_string "contractId" (cv_ContractID r)
     ++ field "SourceID" (JString (cv_SourceID r)) ++ omit_string "specBlobKey" (cv_SpecBlobKey r)
     ++ omit_string "specDigest" (cv_SpecDigest r) ++ omit_string "contractDigest" (cv_ContractDigest r)
     ++ match cv_ReviewSnapshot r with
        | Some s => field "reviewSnapshot" (snapshot_json s)
        | None => []
        end
     ++ field "Ref" (JString (cv_Ref r)) ++ field "CommitSHA" (JString (cv_CommitSHA r))
     ++ field "Version" (JString (cv_Version r)) ++ field "AuthorName" (JString (cv_AuthorName r))
     ++ field "AuthorEmail" (JString (cv_AuthorEmail r)) ++ field "Message" (JString (cv_Message r))));
  reread r := MkContractRevision (reread_string (cv_ID r)) (reread_string (cv_ContractID r))
    (reread_string (cv_SourceID r)) (reread_string (cv_SpecBlobKey r)) (reread_string (cv_SpecDigest r))
    (reread_string (cv_ContractDigest r)) (reread_snapshot <$> cv_ReviewSnapshot r)
    (reread_string (cv_Ref r)) (reread_string (cv_CommitSHA r)) (reread_string (cv_Version r))
    (reread_string (cv_AuthorName r)) (reread_string (cv_AuthorEmail r)) (reread_string (cv_Message r));
|}.

Definition reread_exception (e : PolicyException) : PolicyException :=
  MkPolicyException (reread_string (pe_FindingID e)) (reread_string (pe_RuleID e))
    (reread_string (pe_Reason e)) (reread_string (pe_Author e)) (reread_time (pe_ExpiresAt e))
    (reread_string (pe_Source e)).
Definition reread_change (c : SpecChange) : SpecChange :=
  MkSpecChange (reread_string (ch_ID c)) (reread_string (ch_RuleID c)) (reread_string (ch_Severity c))
    (reread_string (ch_Kind c)) (reread_string (ch_Subject c)) (reread_string (ch_Description c)).
Definition reread_rule (r : PolicyRuleProjection) : PolicyRuleProjection :=
  MkPolicyRuleProjection (reread_string (pp_RuleID r)) (reread_string (pp_Level r)).
Definition reread_layer (l : PolicyLayerProjection) : PolicyLayerProjection :=
  MkPolicyLayerProjection (reread_string (lp_Name l)) (reread_string (lp_Source l))
    (lp_RequireReleaseBaseline l) (fmap (M:=list) reread_rule <$> lp_Rules l)
    (fmap (M:=list) reread_exception <$> lp_Exceptions l).
Definition reread_decision (d : FindingDecision) : FindingDecision :=
  MkFindingDecision (reread_change (fd_Finding d)) (reread_string (fd_Level d))
    (reread_string (fd_Source d)) (reread_string (fd_LayerName d)) (fd_Excepted d).
Definition reread_disposition (d : PolicyExceptionDisposition) : PolicyExceptionDisposition :=
  MkPolicyExceptionDisposition (reread_string (xd_LayerName d)) (reread_string (xd_Disposition d))
    (reread_exception (xd_Exception d)).
Definition reread_result (r : PolicyResult) : PolicyResult :=
  MkPolicyResult (reread_string (pres_Verdict r)) (fmap (M:=list) reread_decision <$> pres_Decisions r)
    (reread_omitted reread_exception (pres_AppliedExceptions r))
    (reread_omitted reread_disposition (pres_ExceptionDispositions r)).
Definition reread_ref (r : SnapshotRef) : SnapshotRef :=
  MkSnapshotRef (reread_string (sr_RevisionID r)) (reread_string (sr_SpecDigest r))
    (reread_string (sr_ContractDigest r)).
Definition reread_comparison (c : ComparisonReport) : ComparisonReport :=
  MkComparisonReport (reread_string (cr_Kind c)) (reread_ref (cr_Baseline c)) (reread_ref (cr_Candidate c))
    (fmap (M:=list) reread_change <$> cr_Findings c) (reread_result (cr_Policy c)).
Definition reread_report (r : ReviewReport) : ReviewReport :=
  MkReviewReport (reread_string (rr_SchemaVersion r)) (reread_string (rr_EngineVersion r))
    (reread_string (rr_ContractID r)) (reread_time (rr_EvaluatedAt r))
    (MkEffectivePolicyProjection (epp_RequireReleaseBaseline (rr_EffectivePolicy r))
       (fmap (M:=list) reread_layer <$> epp_Layers (rr_EffectivePolicy r)))
    (reread_string (rr_PolicyDigest r)) (reread_string (rr_Verdict r))
    (fmap (M:=list) reread_comparison <$> rr_Comparisons r).

#[export] Instance review_record : JsonRecord ContractReview := {|
  record_json r :=
    report ← report_json (rv_Report r);
    mret (JObject
      (field "id" (JString (rv_ID r)) ++ field "contractId" (JString (rv_ContractID r))
       ++ field "baselineRevisionId" (JString (rv_BaselineRevisionID r))
       ++ field "baselineSpecDigest" (JString (rv_BaselineSpecDigest r))
       ++ field "baselineContractDigest" (JString (rv_BaselineContractDigest r))
       ++ field "candidateRevisionId" (JString (rv_CandidateRevisionID r))
       ++ field "candidateSpecDigest" (JString (rv_CandidateSpecDigest r))
       ++ field "candidateContractDigest" (JString (rv_CandidateContractDigest r))
       ++ field "report" report));
  reread r := MkContractReview (reread_string (rv_ID r)) (reread_string (rv_ContractID r))
    (reread_string (rv_BaselineRevisionID r)) (reread_string (rv_BaselineSpecDigest r))
    (reread_string (rv_BaselineContractDigest r)) (reread_string (rv_CandidateRevisionID r))
    (reread_string (rv_CandidateSpecDigest r)) (reread_string (rv_CandidateContractDigest r))
    (reread_report (rv_Report r));
|}.

#[export] Instance authorization_record : JsonRecord ReleaseAuthorization := {|
  record_json a := mret (JObject
    (field "contractId" (JString (ra_ContractID a)) ++ field "trackId" (JString (ra_TrackID a))
     ++ field "reviewId" (JString (ra_ReviewID a)) ++ field "syncRecordId" (JString (ra_SyncRecordID a))
     ++ field "baselineRevisionId" (JString (ra_BaselineRevisionID a))
     ++ field "candidateRevisionId" (JString (ra_CandidateRevisionID a))
     ++ field "sourceId" (JString (ra_SourceID a)) ++ field "boundRef" (JString (ra_BoundRef a))
     ++ field "publicPath" (JString (ra_PublicPath a)) ++ field "policyDigest" (JString (ra_PolicyDigest a))));
  reread a := MkReleaseAuthorization (reread_string (ra_ContractID a)) (reread_string (ra_TrackID a))
    (reread_string (ra_ReviewID a)) (reread_string (ra_SyncRecordID a))
    (reread_string (ra_BaselineRevisionID a)) (reread_string (ra_CandidateRevisionID a))
    (reread_string (ra_SourceID a)) (reread_string (ra_BoundRef a))
    (reread_string (ra_PublicPath a)) (reread_string (ra_PolicyDigest a));
|}.

#[export] Instance audit_record : JsonRecord AuditEvent := {|
  record_json e :=
    occurred ← json_time (ae_OccurredAt e);
    mret (JObject
      (field "id" (JString (ae_ID e)) ++ field "contractId" (JString (ae_ContractID e))
       ++ omit_string "trackId" (ae_TrackID e) ++ omit_string "revisionId" (ae_RevisionID e)
       ++ field "kind" (JString (ae_Kind e)) ++ omit_string "actorId" (ae_ActorID e)
       ++ field "occurredAt" occurred));
  reread e := MkAuditEvent (reread_string (ae_ID e)) (reread_string (ae_ContractID e))
    (reread_string (ae_TrackID e)) (reread_string (ae_RevisionID e)) (reread_string (ae_Kind e))
    (reread_string (ae_ActorID e)) (reread_time (ae_OccurredAt e));
|}.

(** [base64.StdEncoding], as [json.Marshal] prints bytes. *)
Definition base64_digit (n : Z) : Z :=
  if n <? 26 then 65 + n else if n <? 52 then 71 + n else if n <? 62 then n - 4
  else if n =? 62 then 43 else 47.
Fixpoint base64_bytes (fuel : nat) (l : list Z) : list Z :=
  match fuel, l with
  | S fuel, a :: b :: c :: l =>
      base64_digit (a / 4) :: base64_digit ((a `mod` 4) * 16 + b / 16)
      :: base64_digit ((b `mod` 16) * 4 + c / 64) :: base64_digit (c `mod` 64) :: base64_bytes fuel l
  | S _, [a; b] =>
      [base64_digit (a / 4); base64_digit ((a `mod` 4) * 16 + b / 16); base64_digit ((b `mod` 16) * 4); 61]
  | S _, [a] => [base64_digit (a / 4); base64_digit ((a `mod` 4) * 16); 61; 61]
  | _, _ => []
  end.
Definition base64 (l : list Z) : string := of_bytes (base64_bytes (S (length l)) l).

#[export] Instance outbox_record : JsonRecord OutboxMessage := {|
  record_json m :=
    created ← json_time (om_CreatedAt m);
    mret (JObject
      (field "id" (JString (om_ID m)) ++ field "contractId" (JString (om_ContractID m))
       ++ omit_string "trackId" (om_TrackID m) ++ omit_string "revisionId" (om_RevisionID m)
       ++ field "topic" (JString (om_Topic m))
       ++ omit_empty (is_empty (om_Payload m)) "payload" (JString (base64 (elems (om_Payload m))))
       ++ field "createdAt" created));
  reread m := MkOutboxMessage (reread_string (om_ID m)) (reread_string (om_ContractID m))
    (reread_string (om_TrackID m)) (reread_string (om_RevisionID m)) (reread_string (om_Topic m))
    (gappend None (elems (om_Payload m))) (reread_time (om_CreatedAt m));
|}.

(** Two records are the same evidence when their JSON is the same. *)
Definition immutableRecordsEqual {A} `{JsonRecord A} (left right : A) : res bool :=
  leftJSON ← wrap_err (record_json left) (λ e, Errorf "encode persisted immutable record: %w" [EErr e]);
  rightJSON ← wrap_err (record_json right) (λ e, Errorf "encode replayed immutable record: %w" [EErr e]);
  mret (bool_decide (render leftJSON = render rightJSON)).

(** Decoding a text that was just encoded does not fail. *)
Definition cloneImmutableRecord {A} `{JsonRecord A} (value : A) : res A :=
  wrap_err (record_json value) (λ e, Errorf "encode immutable record clone: %w" [EErr e]) ;;
  mret (reread value).

Lemma cloneImmutableRecord_reread {A} `{JsonRecord A} (value cloned : A) :
  cloneImmutableRecord value = Ok cloned → cloned = reread value.
Proof. unfold cloneImmutableRecord. by intros (? & _ & [= <-])%bind_ok. Qed.

Example base64_pad : base64 [77; 97; 110; 77] = "TWFuTQ==".
Proof. vm_compute. reflexivity. Qed.
Example base64_digits : base64 [0xFB; 0xEF; 0xBE; 0xFF; 0xFF] = "++++//8=".
Proof. vm_compute. reflexivity. Qed.

(** ** Lemmas: reading back twice is reading back once *)

Lemma reread_zone_idem l : reread_zone (reread_zone l) = reread_zone l.
Proof.
  unfold reread_zone. destruct (Z.quot (loc_offset l) 60 * 60 =? 0) eqn:E; [done|]. cbn [loc_offset].
  by rewrite Z.quot_mul, E by done.
Qed.

Lemma reread_time_idem t : reread_time (reread_time t) = reread_time t.
Proof.
  unfold reread_time at 1. cbn [reread_time t_loc]. rewrite reread_zone_idem. unfold reread_time. f_equal.
  unfold local_ns. cbn [t_ns t_loc]. lia.
Qed.

Lemma reread_time_utc t : t_loc t = LocUTC → reread_time t = t.
Proof.
  destruct t as [n l]. simpl. intros ->. unfold reread_time, reread_zone, local_ns. simpl.
  by rewrite Z.add_0_r, Z.sub_0_r.
Qed.

(** A [reread] of the parts that is idempotent makes the whole idempotent. *)
Lemma fmap_idem {A} (f : A → A) (l : list A) : (∀ x, f (f x) = f x) → f <$> (f <$> l) = f <$> l.
Proof. intros Hf. apply fmap_fixed, Forall_fmap, Forall_forall. intros x _. apply Hf. Qed.

Lemma slice_idem {A} (f : A → A) (s : slice A) :
  (∀ x, f (f x) = f x) → fmap (M:=list) f <$> (fmap (M:=list) f <$> s) = fmap (M:=list) f <$> s.
Proof. intros Hf. destruct s as [l|]; simpl; [|done]. by rewrite fmap_idem. Qed.

Lemma omitted_idem {A} (f : A → A) (s : slice A) :
  (∀ x, f (f x) = f x) → reread_omitted f (reread_omitted f s) = reread_omitted f s.
Proof.
  intros Hf. unfold reread_omitted. by rewrite elems_gappend, app_nil_l, fmap_idem.
Qed.

Class RereadIdem (A : Type) `{JsonRecord A} : Prop := reread_idem : ∀ x : A, reread (reread x) = reread x.

(** Descend into the fields of a record. *)
Ltac idem_fields := cbn; f_equal; rewrite ?reread_string_idem, ?reread_time_idem; try done.

Lemma reread_parameter_idem p : reread_parameter (reread_parameter p) = reread_parameter p.
Proof. unfold reread_parameter. idem_fields. Qed.
Lemma reread_operation_idem o : reread_operation (reread_operation o) = reread_operation o.
Proof.
  unfold reread_operation. idem_fields; apply omitted_idem; [apply reread_parameter_idem|apply reread_string_idem].
Qed.
Lemma reread_snapshot_idem s : reread_snapshot (reread_snapshot s) = reread_snapshot s.
Proof.
  unfold reread_snapshot. idem_fields; apply slice_idem; [apply reread_operation_idem|apply reread_string_idem].
Qed.

#[export] Instance revision_idem : RereadIdem ContractRevision.
Proof.
  intros r. unfold reread, revision_record. idem_fields.
  destruct (cv_ReviewSnapshot r); simpl; [|done]. by rewrite reread_snapshot_idem.
Qed.

Lemma reread_exception_idem e : reread_exception (reread_exception e) = reread_exception e.
Proof. unfold reread_exception. idem_fields. Qed.
Lemma reread_change_idem c : reread_change (reread_change c) = reread_change c.
Proof. unfold reread_change. idem_fields. Qed.
Lemma reread_rule_idem r : reread_rule (reread_rule r) = reread_rule r.
Proof. unfold reread_rule. idem_fields. Qed.
Lemma reread_layer_idem l : reread_layer (reread_layer l) = reread_layer l.
Proof.
  unfold reread_layer. idem_fields; apply slice_idem; [apply reread_rule_idem|apply reread_exception_idem].
Qed.
Lemma reread_decision_idem d : reread_decision (reread_decision d) = reread_decision d.
Proof. unfold reread_decision. idem_fields. apply reread_change_idem. Qed.
Lemma reread_disposition_idem d : reread_disposition (reread_disposition d) = reread_disposition d.
Proof. unfold reread_disposition. idem_fields. apply reread_exception_idem. Qed.
Lemma reread_result_idem r : reread_result (reread_result r) = reread_result r.
Proof.
  unfold reread_result. idem_fields.
  - apply slice_idem, reread_decision_idem.
  - apply omitted_idem, reread_exception_idem.
  - apply omitted_idem, reread_disposition_idem.
Qed.
Lemma reread_ref_idem r : reread_ref (reread_ref r) = reread_ref r.
Proof. unfold reread_ref. idem_fields. Qed.
Lemma reread_comparison_idem c : reread_comparison (reread_comparison c) = reread_comparison c.
Proof.
  unfold reread_comparison. idem_fields; [apply reread_ref_idem..| |apply reread_result_idem].
  apply slice_idem, reread_change_idem.
Qed.
Lemma reread_report_idem r : reread_report (reread_report r) = reread_report r.
Proof.
  unfold reread_report. idem_fields.
  - f_equal. apply slice_idem, reread_layer_idem.
  - apply slice_idem, reread_comparison_idem.
Qed.

#[export] Instance review_idem : RereadIdem ContractReview.
Proof. intros r. unfold reread, review_record. idem_fields. apply reread_report_idem. Qed.
#[export] Instance authorization_idem : RereadIdem ReleaseAuthorization.
Proof. intros a. unfold reread, authorization_record. idem_fields. Qed.
#[export] Instance audit_idem : RereadIdem AuditEvent.
Proof. intros e. unfold reread, audit_record. idem_fields. Qed.
#[export] Instance outbox_idem : RereadIdem OutboxMessage.
Proof. intros m. unfold reread, outbox_record. idem_fields. by destruct (om_Payload m) as [[]|]. Qed.
