(* ===== verification/Ports.v ===== *)
(** * Ports (application/port)

    What the application services ask of a store, a clock and a blob store.
    [OperationalStore] is the view of a transaction inside [Within];
    [UnitOfWork] runs a callback against it and publishes all of its writes or
    none.  A callback may capture variables of its caller: [C] is their type,
    and they keep what was assigned even when the transaction fails. *)

From S2P Require Import Prelude GoString GoTime Identity Release.
From S2P Require Import Review.
From S2P Require Import Records.

(** What [ctx.Err()] answers while the operation runs. *)
Definition Ctx : Type := res unit.

Definition ErrNotExist : error := Errorf "file does not exist" [].
Definition ErrGenerationConflict : error := Errorf "operational generation conflict" [].
Definition ErrCommitOutcomeUnknown : error := Errorf "operational commit outcome unknown" [].

Class OperationalStore (S : Type) := {
  SaveRevision : Ctx → ContractRevision → stM S unit;
  SaveReview : Ctx → ContractReview → stM S unit;
  SaveSyncRecord : Ctx → SyncRecord → stM S unit;
  LoadReleaseTrack : Ctx → string → string → stM S ReleaseTrack;
  SaveReleaseTrack : Ctx → Z → ReleaseTrack → stM S unit;
  SavePublication : Ctx → Publication → stM S unit;
  AppendAuditEvent : Ctx → AuditEvent → stM S unit;
  Enqueue : Ctx → OutboxMessage → stM S unit;
}.

Class UnitOfWork (W S : Type) :=
  Within : ∀ {C : Type}, Ctx → stM (S * C) unit → stM (W * C) unit.

Class RevisionReader (W : Type) :=
  ReadContractRevision : Ctx → string → string → stM W ContractRevision.

Class SyncRecordReader (W : Type) :=
  ReadSyncRecord : Ctx → string → stM W SyncRecord.

Class ReleaseEvidenceReader (W : Type) :=
  ReadReleaseEvidence : Ctx → string → string → string → stM W ReleaseEvidence.

Class ReleaseAuthorizationWriter (W : Type) :=
  WriteReleaseAuthorization : Ctx → ReleaseAuthorization → stM W unit.

Class PublicationReader (W : Type) :=
  ReadPublicPublicationByPath : Ctx → string → stM W Publication.

Class BlobStore (W : Type) := {
  PutBlob : Ctx → list Z → stM W string;
  GetBlob : Ctx → string → stM W (list Z);
}.

(** ** The writes of a transaction

    A callback acts on the store only through its operations: [store_effect]
    is one of them, whether it succeeded or failed. *)
Inductive store_effect {S} `{OperationalStore S} (ctx : Ctx) (s : S) : S → Prop :=
  | effect_revision r : store_effect ctx s (SaveRevision ctx r s).1
  | effect_review r : store_effect ctx s (SaveReview ctx r s).1
  | effect_sync r : store_effect ctx s (SaveSyncRecord ctx r s).1
  | effect_load contract track : store_effect ctx s (LoadReleaseTrack ctx contract track s).1
  | effect_track g t : store_effect ctx s (SaveReleaseTrack ctx g t s).1
  | effect_publication p : store_effect ctx s (SavePublication ctx p s).1
  | effect_audit e : store_effect ctx s (AppendAuditEvent ctx e s).1
  | effect_outbox m : store_effect ctx s (Enqueue ctx m s).1.

(** A callback that touches the store only through its operations. *)
Definition store_client {S C} `{OperationalStore S} (ctx : Ctx) (callback : stM (S * C) unit) : Prop :=
  ∀ s c, rtc (store_effect ctx) s (callback (s, c)).1.1.

(** Programs built of the operations act only through them. *)
Definition store_program {S A} `{OperationalStore S} (ctx : Ctx) (m : stM S A) : Prop :=
  ∀ s, rtc (store_effect ctx) s (m s).1.

Section clients.
Context {S : Type} `{!OperationalStore S} (ctx : Ctx).

Lemma program_bind {A B} (m : stM S A) (f : A → stM S B) :
  store_program ctx m → (∀ a, store_program ctx (f a)) → store_program ctx (m ≫= f).
Proof. intros Hm Hf. apply (keeps_bind (rtc (store_effect ctx))); [exact Hm|exact Hf]. Qed.

Lemma program_wrap {A} (m : stM S A) w : store_program ctx m → store_program ctx (st_wrap m w).
Proof. intros Hm s. specialize (Hm s). unfold st_wrap. by destruct (m s). Qed.

Lemma program_lift {A} (r : res A) : store_program ctx (lift r : stM S A).
Proof. intros s. apply rtc_refl. Qed.

Lemma program_if {A} (b : bool) (m1 m2 : stM S A) :
  store_program ctx m1 → store_program ctx m2 → store_program ctx (if b then m1 else m2).
Proof. by destruct b. Qed.

Lemma program_effect {A} (m : stM S A) : (∀ s, store_effect ctx s (m s).1) → store_program ctx m.
Proof. intros Hm s. by apply rtc_once. Qed.

(** Callbacks that also assign captured variables; [client] is [store_client]
    for any result type. *)
Definition client {C A} (m : stM (S * C) A) : Prop := ∀ s c, rtc (store_effect ctx) s (m (s, c)).1.1.

Lemma client_bind {C A B} (m : stM (S * C) A) (f : A → stM (S * C) B) :
  client m → (∀ a, client (f a)) → client (m ≫= f).
Proof.
  intros Hm Hf s c. unfold mbind, stM_bind. specialize (Hm s c).
  destruct (m (s, c)) as [[s1 c1] [a|e]]; simpl in *; [|done]. eapply rtc_trans; [done|apply Hf].
Qed.

Lemma client_on_fst {C A} (m : stM S A) : store_program ctx m → client (on_fst m : stM (S * C) A).
Proof. intros Hm s c. unfold on_fst. simpl. specialize (Hm s). by destruct (m s). Qed.

Lemma client_on_snd {C A} (m : stM C A) : client (on_snd m : stM (S * C) A).
Proof. intros s c. unfold on_snd. simpl. destruct (m c). apply rtc_refl. Qed.

Lemma client_lift {C A} (r : res A) : client (lift r : stM (S * C) A).
Proof. intros s c. apply rtc_refl. Qed.

Lemma client_ret {C A} (a : A) : client (mret a : stM (S * C) A).
Proof. intros s c. apply rtc_refl. Qed.
End clients.

Create HintDb client.
#[export] Hint Resolve program_bind program_wrap program_lift program_if client_bind client_on_fst client_on_snd client_lift client_ret : client.
