(* ===== verification/StoreState.v ===== *)
(** * The operational state (internal/adapters/store/fs.go)

    The maps the file store keeps in state.json, their keys, the ownership of
    revisions, and the checks a state passes before it is published: record
    identities, references between records, release authorities and the
    evidence bundle behind every decision.  Go iterates over a map in no
    particular order; the loops here use the order of [map_to_list], which
    only decides which error is reported first. *)

From stdpp Require Import pretty.
From S2P Require Import Prelude GoString GoSha256 GoTime GoJson Identity Spec Snapshot SpecDiff.
From S2P Require Import Release.
From S2P Require Import Policy.
From S2P Require Import Review.
From S2P Require Import Records.
From S2P Require Import Ports.

Definition legacyOperationalStateVersion : Z := 1.
Definition decisionOperationalStateVersion : Z := 2.
Definition authenticatedStateVersion : Z := 3.
Definition operationalStateVersion : Z := 4.
Definition releaseTrackAuthorityVersion : Z := 1.

Definition errUnsafeStorePath : error := Errorf "unsafe store path" [].

Record releaseTrackAuthority := MkReleaseTrackAuthority {
  au_Version : Z;
  au_Generation : Z;
  au_DecisionPresent : bool;
  au_Decision : ReleaseDecision;
}.

#[export] Instance releaseTrackAuthority_eq_dec : EqDecision releaseTrackAuthority.
Proof. solve_decision. Defined.

Record operationalState := MkOperationalState {
  os_Version : Z;
  os_Revisions : gmap string ContractRevision;
  os_Reviews : gmap string ContractReview;
  os_SyncRecords : gmap string SyncRecord;
  os_ReleaseTracks : gmap string ReleaseTrack;
  os_ReleaseTrackAuthorities : gmap string releaseTrackAuthority;
  os_ReleaseAuthorizations : gmap string ReleaseAuthorization;
  os_Publications : gmap string Publication;
  os_AuditEvents : gmap string AuditEvent;
  os_Outbox : gmap string OutboxMessage;
  os_migratedRevisions : gset string;
}.

Definition newOperationalState : operationalState :=
  MkOperationalState operationalStateVersion ∅ ∅ ∅ ∅ ∅ ∅ ∅ ∅ ∅ ∅.

(** Field updates. *)
Definition with_Revisions (f : gmap string ContractRevision → gmap string ContractRevision)
    (s : operationalState) : operationalState :=
  MkOperationalState (os_Version s) (f (os_Revisions s)) (os_Reviews s) (os_SyncRecords s)
    (os_ReleaseTracks s) (os_ReleaseTrackAuthorities s) (os_ReleaseAuthorizations s)
    (os_Publications s) (os_AuditEvents s) (os_Outbox s) (os_migratedRevisions s).
Definition with_Publications (f : gmap string Publication → gmap string Publication)
    (s : operationalState) : operationalState :=
  MkOperationalState (os_Version s) (os_Revisions s) (os_Reviews s) (os_SyncRecords s)
    (os_ReleaseTracks s) (os_ReleaseTrackAuthorities s) (os_ReleaseAuthorizations s)
    (f (os_Publications s)) (os_AuditEvents s) (os_Outbox s) (os_migratedRevisions s).

(** ** Keys and path-safe identities *)

Definition nul : string := of_bytes [0].

Definition revisionKey (contractID revisionID : string) : string :=
  if bool_decide (contractID = "") then revisionID else contractID +:+ nul +:+ revisionID.
Definition revisionStorageKey (revision : ContractRevision) : string :=
  revisionKey (cv_ContractID revision) (cv_ID revision).
Definition releaseTrackKey (contractID trackID : string) : string := contractID +:+ nul +:+ trackID.
Definition publicationKey (projectID revisionID : string) : string := projectID +:+ nul +:+ revisionID.

(** [filepath.IsAbs] and [filepath.Clean] on a Unix host. *)
Definition is_abs (p : string) : bool := HasPrefix p "/".

Definition validateID (id : string) : res unit :=
  throw_if (negb (valid_utf8 id)) (Errorf "identity must contain valid UTF-8" []) ;;
  throw_if (negb (bool_decide (id = TrimSpace id)))
    (Errorf "identity must not contain leading or trailing whitespace" []) ;;
  throw_if (bool_decide (id = "") || bool_decide (id = ".") || bool_decide (id = "..") || is_abs id)
    errUnsafeStorePath ;;
  throw_if (ContainsAny id "/\" || negb (bool_decide (path_clean id = id))) errUnsafeStorePath ;;
  throw_if (containsControlCharacter id) (Errorf "identity must not contain control characters" []).

Definition validatePublicPath (publicPath : string) : res unit :=
  wrap_err (ValidateCanonicalPublicPath "public path" publicPath false) (λ _, errUnsafeStorePath).

(** ** Revisions and their owners *)

Definition revisionForContract (state : operationalState) (contractID revisionID : string)
    : option ContractRevision :=
  match os_Revisions state !! revisionKey contractID revisionID with
  | Some revision =>
      if negb (bool_decide (cv_ContractID revision = contractID)) || negb (bool_decide (cv_ID revision = revisionID))
      then None else Some revision
  | None => None
  end.

Definition revisionsByID (state : operationalState) (revisionID : string) : list ContractRevision :=
  sort_by (less_by (λ r, [KS (cv_ContractID r)]))
    (filter (λ r, cv_ID r = revisionID) (map_to_list (os_Revisions state)).*2).

Definition requireOwnedRevision (state : operationalState) (contractID revisionID owner : string) : res unit :=
  throw_if (bool_decide (TrimSpace contractID = "")) (Errorf "%s has no owning contract" [EStr owner]) ;;
  match revisionForContract state contractID revisionID with
  | None => Fail (Errorf "%s references uncommitted revision %q" [EStr owner; EStr revisionID])
  | Some revision =>
      throw_if (negb (bool_decide (cv_ContractID revision = contractID)))
        (Errorf "%s references revision %q owned by contract %q, not %q"
           [EStr owner; EStr revisionID; EStr (cv_ContractID revision); EStr contractID])
  end.

Definition with_owner (contractID : string) (r : ContractRevision) : ContractRevision :=
  MkContractRevision (cv_ID r) contractID (cv_SourceID r) (cv_SpecBlobKey r) (cv_SpecDigest r)
    (cv_ContractDigest r) (cv_ReviewSnapshot r) (cv_Ref r) (cv_CommitSHA r) (cv_Version r)
    (cv_AuthorName r) (cv_AuthorEmail r) (cv_Message r).

(** A legacy revision without an owner is claimed by the first contract that
    refers to it, and moves to that contract's key. *)
Definition bindRevisionOwner (contractID revisionID owner : string) : stM operationalState bool := λ state,
  if bool_decide (TrimSpace contractID = "") then (state, Fail (Errorf "%s has no owning contract" [EStr owner]))
  else
    let key := revisionKey contractID revisionID in
    match os_Revisions state !! key with
    | Some revision =>
        if negb (bool_decide (cv_ContractID revision = contractID)) || negb (bool_decide (cv_ID revision = revisionID))
        then (state, Fail (Errorf "%s references malformed contract-scoped revision %q" [EStr owner; EStr revisionID]))
        else (state, Ok false)
    | None =>
        match os_Revisions state !! revisionID with
        | None => (state, Fail (Errorf "%s references uncommitted revision %q" [EStr owner; EStr revisionID]))
        | Some revision =>
            if bool_decide (cv_ContractID revision = contractID) then (state, Ok false)
            else if negb (bool_decide (cv_ContractID revision = "")) then
              (state, Fail (Errorf "%s references revision %q owned by contract %q, not %q"
                 [EStr owner; EStr revisionID; EStr (cv_ContractID revision); EStr contractID]))
            else
              (with_Revisions (λ m, <[key := with_owner contractID revision]> (delete revisionID m)) state, Ok true)
        end
    end.

(** ** Release track authorities *)

Definition zero_decision : ReleaseDecision := MkReleaseDecision "" "" "" "" false zero_time.

Definition newReleaseTrackAuthority (track : ReleaseTrack) : releaseTrackAuthority :=
  MkReleaseTrackAuthority releaseTrackAuthorityVersion (rt_Generation track)
    (bool_decide (is_Some (rt_LastDecision track)))
    (default zero_decision (rt_LastDecision track)).

Definition validateReleaseTrackAuthority (key : string) (track : ReleaseTrack)
    (authority : releaseTrackAuthority) : res unit :=
  throw_if (negb (au_Version authority =? releaseTrackAuthorityVersion))
    (Errorf "release track %q authority version %d is unsupported" [EStr key; EInt (au_Version authority)]) ;;
  throw_if (negb (au_Generation authority =? rt_Generation track))
    (Errorf "release track %q authority generation %d does not match track generation %d"
       [EStr key; EInt (au_Generation authority); EInt (rt_Generation track)]) ;;
  match rt_LastDecision track with
  | None =>
      throw_if (au_DecisionPresent authority || negb (bool_decide (au_Decision authority = zero_decision)))
        (Errorf "release track %q baseline authority contains decision evidence" [EStr key])
  | Some decision =>
      throw_if (negb (au_DecisionPresent authority) || negb (bool_decide (au_Decision authority = decision)))
        (Errorf "release track %q decision authority does not match its latest decision" [EStr key])
  end.

Definition validateReleaseTrackAuthorities (state : operationalState) : res unit :=
  throw_if (negb (bool_decide (size (os_ReleaseTrackAuthorities state) = size (os_ReleaseTracks state))))
    (Errorf "release track authority count does not match release track count" []) ;;
  for_map (λ key track,
    wrap_err (ValidateReleaseTrack track) (λ e, Errorf "release track %q is invalid: %w" [EStr key; EErr e]) ;;
    match os_ReleaseTrackAuthorities state !! key with
    | None => Fail (Errorf "release track %q has no decision authority marker" [EStr key])
    | Some authority => validateReleaseTrackAuthority key track authority
    end) (os_ReleaseTracks state) ;;
  for_map (λ key _,
    throw_if (bool_decide (os_ReleaseTracks state !! key = None))
      (Errorf "release track authority %q has no track" [EStr key]))
    (os_ReleaseTrackAuthorities state).

(** ** Effects of a transition *)

(** [fmt.Sprintf("%s\x00%s\x00%s\x00%s\x00%d\x00%t", ...)], with the kind of
    an event that is no consideration appended. *)
Definition releaseTransitionPreimage (authorization : ReleaseAuthorization) (accepted : bool)
    (generation : Z) : string :=
  ra_ContractID authorization +:+ nul +:+ ra_TrackID authorization +:+ nul
  +:+ ra_CandidateRevisionID authorization +:+ nul +:+ ra_ReviewID authorization +:+ nul
  +:+ pretty generation +:+ nul +:+ (if accepted then "true" else "false").

(** ["audit-" + hex.EncodeToString(sum[:])[:24]] *)
Definition audit_id (value : string) : string :=
  "audit-" +:+ String.substring 0 24 (sha256Hex (bytes_of value)).

Definition releaseTransitionEvidenceID (authorization : ReleaseAuthorization) (accepted : bool)
    (generation : Z) (kind : string) : string :=
  let value := releaseTransitionPreimage authorization accepted generation in
  audit_id (if negb (bool_decide (kind = "release.track.considered")) then value +:+ nul +:+ kind else value).

Definition outbox_id (eventID : string) : string := "outbox-" +:+ TrimPrefix eventID "audit-".

Definition requireReleaseTransitionEffects (state : operationalState) (authorization : ReleaseAuthorization)
    (accepted : bool) (generation : Z) (auditKind outboxTopic : string) : res unit :=
  let eventID := releaseTransitionEvidenceID authorization accepted generation auditKind in
  let missing := Errorf "release transition is missing deterministic audit event %q" [EStr eventID] in
  match os_AuditEvents state !! eventID with
  | None => Fail missing
  | Some event =>
      throw_if (negb (bool_decide (ae_ContractID event = ra_ContractID authorization))
        || negb (bool_decide (ae_TrackID event = ra_TrackID authorization))
        || negb (bool_decide (ae_RevisionID event = ra_CandidateRevisionID authorization))
        || negb (bool_decide (ae_Kind event = auditKind))
        || IsZero (ae_OccurredAt event) || negb (is_UTC (ae_OccurredAt event))) missing ;;
      let messageID := outbox_id eventID in
      let missing := Errorf "release transition is missing deterministic outbox message %q" [EStr messageID] in
      match os_Outbox state !! messageID with
      | None => Fail missing
      | Some message =>
          throw_if (negb (bool_decide (om_ContractID message = ra_ContractID authorization))
            || negb (bool_decide (om_TrackID message = ra_TrackID authorization))
            || negb (bool_decide (om_RevisionID message = ra_CandidateRevisionID authorization))
            || negb (bool_decide (om_Topic message = outboxTopic))
            || IsZero (om_CreatedAt message) || negb (is_UTC (om_CreatedAt message))
            || negb (TimeEqual (om_CreatedAt message) (ae_OccurredAt event))) missing
      end
  end.

(** ** The evidence behind authorizations and decisions *)

Section store.
Context `{CaseTables}.

Definition validateReleaseAuthorizationBundle (state : operationalState)
    (authorization : ReleaseAuthorization) : res unit :=
  ValidateReleaseAuthorization authorization ;;
  match os_ReleaseTracks state !! releaseTrackKey (ra_ContractID authorization) (ra_TrackID authorization) with
  | None => Fail (Errorf "references uncommitted release track" [])
  | Some track =>
      throw_if (negb (bool_decide (rt_BoundRef track = ra_BoundRef authorization)))
        (Errorf "bound ref does not match release track" [])
  end ;;
  baseline ← match revisionForContract state (ra_ContractID authorization) (ra_BaselineRevisionID authorization) with
    | Some baseline => mret baseline
    | None => Fail (Errorf "baseline revision is missing or belongs to another contract" [])
    end;
  throw_if (negb (bool_decide (cv_ContractID baseline = ra_ContractID authorization)))
    (Errorf "baseline revision is missing or belongs to another contract" []) ;;
  candidate ← match revisionForContract state (ra_ContractID authorization) (ra_CandidateRevisionID authorization) with
    | Some candidate => mret candidate
    | None => Fail (Errorf "candidate revision is missing or belongs to another contract" [])
    end;
  throw_if (negb (bool_decide (cv_ContractID candidate = ra_ContractID authorization)))
    (Errorf "candidate revision is missing or belongs to another contract" []) ;;
  let candidateRefMatches :=
    bool_decide (cv_Ref candidate = ra_BoundRef authorization)
    || (negb (bool_decide (cv_CommitSHA candidate = "")) && bool_decide (cv_Ref candidate = cv_CommitSHA candidate)) in
  throw_if (negb (bool_decide (cv_SourceID candidate = ra_SourceID authorization)) || negb candidateRefMatches)
    (Errorf "candidate revision source/ref does not match authorization" []) ;;
  '(baselineSnapshot, candidateSnapshot) ← match cv_ReviewSnapshot baseline, cv_ReviewSnapshot candidate with
    | Some b, Some c => mret (b, c)
    | _, _ => Fail (Errorf "authorized revisions require canonical review snapshots" [])
    end;
  review ← match os_Reviews state !! ra_ReviewID authorization with
    | Some review => mret review
    | None => Fail (Errorf "references uncommitted review" [])
    end;
  throw_if (negb (bool_decide (rv_ID review = ra_ReviewID authorization))
    || negb (bool_decide (rv_ContractID review = ra_ContractID authorization))
    || negb (bool_decide (rv_BaselineRevisionID review = ra_BaselineRevisionID authorization))
    || negb (bool_decide (rv_CandidateRevisionID review = ra_CandidateRevisionID authorization))
    || negb (bool_decide (rv_BaselineSpecDigest review = cv_SpecDigest baseline))
    || negb (bool_decide (rv_BaselineContractDigest review = cv_ContractDigest baseline))
    || negb (bool_decide (rv_CandidateSpecDigest review = cv_SpecDigest candidate))
    || negb (bool_decide (rv_CandidateContractDigest review = cv_ContractDigest candidate))
    || negb (bool_decide (rr_PolicyDigest (rv_Report review) = ra_PolicyDigest authorization)))
    (Errorf "persisted review does not match authorization and revisions" []) ;;
  wrap_err (ValidateReleaseReviewReportAgainstSnapshots (rv_Report review) (ra_ContractID authorization)
              baselineSnapshot candidateSnapshot)
    (λ e, Errorf "canonical review validation: %w" [EErr e]) ;;
  match os_SyncRecords state !! ra_SyncRecordID authorization with
  | None => Fail (Errorf "references uncommitted sync" [])
  | Some syncRecord =>
      throw_if (negb (bool_decide (sy_ID syncRecord = ra_SyncRecordID authorization))
        || negb (bool_decide (sy_ProjectID syncRecord = ra_ContractID authorization))
        || negb (bool_decide (sy_SourceID syncRecord = ra_SourceID authorization))
        || negb (bool_decide (sy_RevisionID syncRecord = ra_CandidateRevisionID authorization))
        || negb (bool_decide (sy_Ref syncRecord = ra_BoundRef authorization))
        || negb (bool_decide (sy_CommitSHA syncRecord = cv_CommitSHA candidate)))
        (Errorf "persisted sync does not match authorization" [])
  end.

(** The value of a Go map at a missing key. *)
Definition zero_review : ContractReview := MkContractReview "" "" "" "" "" "" "" "" zero_report.
Definition zero_sync : SyncRecord := MkSyncRecord "" "" "" "" "" "" "" "" "" "" zero_time zero_time.

(** The caller has checked that the track holds [decision] as its evidence. *)
Definition validateReleaseDecisionBundle (state : operationalState) (track : ReleaseTrack)
    (decision : ReleaseDecision) (authorization : ReleaseAuthorization) : res unit :=
  throw_if (negb (bool_decide (rt_CandidateRevisionID track = ""))
            && negb (bool_decide (rt_CurrentRevisionID track = ra_BaselineRevisionID authorization)))
    (Errorf "outstanding decision current revision %q does not match authorization baseline %q"
       [EStr (rt_CurrentRevisionID track); EStr (ra_BaselineRevisionID authorization)]) ;;
  let review := default zero_review (os_Reviews state !! ra_ReviewID authorization) in
  canonical ← wrap_err (CanonicalReviewJSON (rv_Report review))
    (λ e, Errorf "canonical review digest: %w" [EErr e]);
  throw_if (negb (bool_decide (rd_RevisionID decision = ra_CandidateRevisionID authorization))
    || negb (bool_decide (rd_ReviewID decision = ra_ReviewID authorization))
    || negb (bool_decide (rd_ReviewDigest decision = sha256Hex canonical))
    || negb (bool_decide (rd_Verdict decision = rr_Verdict (rv_Report review)))
    || negb (TimeEqual (rd_EvaluatedAt decision) (rr_EvaluatedAt (rv_Report review))))
    (Errorf "decision identity does not match immutable review" []) ;;
  throw_if (rd_Accepted decision
      && negb (bool_decide (sy_Result (default zero_sync (os_SyncRecords state !! ra_SyncRecordID authorization))
                            = SyncResultSuccess)))
    (Errorf "accepted decision requires successful authorized sync" []) ;;
  let promoted := bool_decide (rt_Mode track = ReleaseModePinned)
    && bool_decide (rt_CandidateRevisionID track = "")
    && bool_decide (rt_CurrentRevisionID track = rd_RevisionID decision) in
  throw_if (promoted && (rt_Generation track =? 0))
    (Errorf "promoted decision has no consideration generation" []) ;;
  let decisionGeneration := if promoted then wrap64 (rt_Generation track - 1) else rt_Generation track in
  requireReleaseTransitionEffects state authorization (rd_Accepted decision) decisionGeneration
    "release.track.considered" "release.track.updated" ;;
  (if rd_Accepted decision && (bool_decide (rt_Mode track = ReleaseModeFollowing) || promoted) then
     match os_Publications state !! publicationKey (ra_ContractID authorization) (ra_CandidateRevisionID authorization) with
     | None => Fail (Errorf "accepted published decision is missing its authorized publication" [])
     | Some publication =>
         throw_if (negb (pb_Public publication)
           || negb (bool_decide (pb_Path publication = ra_PublicPath authorization))
           || negb (bool_decide (pb_ProjectID publication = ra_ContractID authorization))
           || negb (bool_decide (pb_RevisionID publication = ra_CandidateRevisionID authorization)))
           (Errorf "accepted published decision is missing its authorized publication" [])
     end
   else mret tt) ;;
  if promoted then
    requireReleaseTransitionEffects state authorization (rd_Accepted decision) (rt_Generation track)
      "release.track.promoted" "release.track.promoted"
  else mret tt.

Definition validateReleaseEvidenceAuthorities (state : operationalState) : res unit :=
  for_map (λ reviewID authorization,
    throw_if (negb (bool_decide (reviewID = ra_ReviewID authorization)))
      (Errorf "release authorization key %q does not match review id %q"
         [EStr reviewID; EStr (ra_ReviewID authorization)]) ;;
    wrap_err (validateReleaseAuthorizationBundle state authorization)
      (λ e, Errorf "release authorization %q is invalid: %w" [EStr reviewID; EErr e]))
    (os_ReleaseAuthorizations state) ;;
  for_map (λ key track,
    match rt_LastDecision track with
    | None => mret tt
    | Some decision =>
        match os_ReleaseAuthorizations state !! rd_ReviewID decision with
        | None => Fail (Errorf "release track %q decision references missing authorization %q"
                          [EStr key; EStr (rd_ReviewID decision)])
        | Some authorization =>
            throw_if (negb (bool_decide (ra_ContractID authorization = rt_ContractID track))
                      || negb (bool_decide (ra_TrackID authorization = rt_ID track)))
              (Errorf "release track %q decision authorization belongs to another track" [EStr key]) ;;
            throw_if (negb (bool_decide (ra_BoundRef authorization = rt_BoundRef track)))
              (Errorf "release track %q decision authorization ref does not match bound ref" [EStr key]) ;;
            wrap_err (validateReleaseDecisionBundle state track decision authorization)
              (λ e, Errorf "release track %q has invalid decision authority: %w" [EStr key; EErr e])
        end
    end) (os_ReleaseTracks state).

(** ** References and identities *)

(** One round of the loop: [owners] maps each public path to its publication. *)
Definition claim_path (publications : gmap string Publication) (owners : gmap string string) (key : string)
    : res (gmap string string) :=
  match publications !! key with
  | None => mret owners
  | Some publication =>
      if negb (pb_Public publication) then mret owners
      else
        match owners !! pb_Path publication with
        | Some owner => Fail (Errorf "public path %q is claimed by both %q and %q"
                                [EStr (pb_Path publication); EStr owner; EStr key])
        | None => mret (<[pb_Path publication := key]> owners)
        end
  end.

Definition validateUniquePublicPaths (publications : gmap string Publication) : res unit :=
  fold_res (claim_path publications) ∅ (sort_strings (map_to_list publications).*1) ;; mret tt.

Definition validatePersistedOperationalIdentities (state : operationalState) : res unit :=
  for_map (λ _ revision,
    wrap_err (validateID (cv_ID revision)) (λ e, Errorf "persisted revision id: %w" [EErr e]) ;;
    wrap_err (ValidateContractRevision revision) (λ e, Errorf "persisted revision: %w" [EErr e]) ;;
    validate_identities [
      ("persisted revision contract id", cv_ContractID revision, true);
      ("persisted revision source id", cv_SourceID revision, true);
      ("persisted revision ref", cv_Ref revision, true);
      ("persisted revision commit sha", cv_CommitSHA revision, true)] ;;
    match cv_ReviewSnapshot revision with
    | Some snapshot =>
        wrap_err (ValidateContractSnapshot snapshot)
          (λ e, Errorf "persisted revision canonical review snapshot: %w" [EErr e])
    | None => mret tt
    end) (os_Revisions state) ;;
  for_map (λ _ review,
    wrap_err (ValidateContractReviewIdentities review) (λ e, Errorf "persisted review identities: %w" [EErr e]))
    (os_Reviews state) ;;
  for_map (λ _ record,
    wrap_err (validateID (sy_ID record)) (λ e, Errorf "persisted sync id: %w" [EErr e]) ;;
    wrap_err (ValidateSyncRecord record) (λ e, Errorf "persisted sync record: %w" [EErr e]) ;;
    validate_identities [
      ("persisted sync project id", sy_ProjectID record, true);
      ("persisted sync source id", sy_SourceID record, true);
      ("persisted sync revision id", sy_RevisionID record, true);
      ("persisted sync trigger", sy_Trigger record, true);
      ("persisted sync ref", sy_Ref record, true);
      ("persisted sync commit sha", sy_CommitSHA record, true);
      ("persisted sync spec path", sy_SpecPath record, true)]) (os_SyncRecords state) ;;
  for_map (λ _ publication,
    wrap_err (validateID (pb_ProjectID publication)) (λ e, Errorf "persisted publication contract id: %w" [EErr e]) ;;
    wrap_err (validateID (pb_RevisionID publication)) (λ e, Errorf "persisted publication revision id: %w" [EErr e]) ;;
    wrap_err (validatePublicPath (pb_Path publication)) (λ e, Errorf "persisted publication path: %w" [EErr e]) ;;
    validateCanonicalIdentity "persisted publication hostname" (pb_Hostname publication) true)
    (os_Publications state) ;;
  for_map (λ _ event,
    wrap_err (validateID (ae_ID event)) (λ e, Errorf "persisted audit id: %w" [EErr e]) ;;
    validate_identities [
      ("persisted audit contract id", ae_ContractID event, true);
      ("persisted audit track id", ae_TrackID event, true);
      ("persisted audit revision id", ae_RevisionID event, true);
      ("persisted audit actor id", ae_ActorID event, true);
      ("persisted audit kind", ae_Kind event, true)]) (os_AuditEvents state) ;;
  for_map (λ _ message,
    wrap_err (validateID (om_ID message)) (λ e, Errorf "persisted outbox id: %w" [EErr e]) ;;
    validate_identities [
      ("persisted outbox contract id", om_ContractID message, true);
      ("persisted outbox track id", om_TrackID message, true);
      ("persisted outbox revision id", om_RevisionID message, true);
      ("persisted outbox topic", om_Topic message, true)]) (os_Outbox state).

(** A record that names a track needs the track to exist. *)
Definition requireTrack (state : operationalState) (contractID trackID : string) (e : error) : res unit :=
  if bool_decide (trackID = "") then mret tt
  else throw_if (bool_decide (os_ReleaseTracks state !! releaseTrackKey contractID trackID = None)) e.

(** A record that names a revision needs its contract to own the revision. *)
Definition requireRevision (state : operationalState) (contractID revisionID owner : string) : res unit :=
  if bool_decide (revisionID = "") then mret tt else requireOwnedRevision state contractID revisionID owner.

Definition validateOperationalReferences (state : operationalState) : res unit :=
  validatePersistedOperationalIdentities state ;;
  validateUniquePublicPaths (os_Publications state) ;;
  for_map (λ key revision,
    throw_if (negb (bool_decide (key = revisionStorageKey revision)))
      (Errorf "revision key %q does not match revision identity" [EStr key])) (os_Revisions state) ;;
  for_map (λ key track,
    throw_if (negb (bool_decide (key = releaseTrackKey (rt_ContractID track) (rt_ID track))))
      (Errorf "release track key %q does not match its identity" [EStr key]) ;;
    for_each (λ '(role, revisionID),
      requireRevision state (rt_ContractID track) revisionID ("release track " +:+ key +:+ " " +:+ role))
      [("current", rt_CurrentRevisionID track); ("candidate", rt_CandidateRevisionID track)])
    (os_ReleaseTracks state) ;;
  for_map (λ key publication,
    throw_if (negb (bool_decide (key = publicationKey (pb_ProjectID publication) (pb_RevisionID publication))))
      (Errorf "publication key %q does not match its identity" [EStr key]) ;;
    requireOwnedRevision state (pb_ProjectID publication) (pb_RevisionID publication) ("publication " +:+ key))
    (os_Publications state) ;;
  for_map (λ key review,
    throw_if (negb (bool_decide (key = rv_ID review)))
      (Errorf "review key %q does not match review id %q" [EStr key; EStr (rv_ID review)]) ;;
    requireOwnedRevision state (rv_ContractID review) (rv_BaselineRevisionID review) ("review " +:+ key +:+ " baseline") ;;
    requireOwnedRevision state (rv_ContractID review) (rv_CandidateRevisionID review) ("review " +:+ key +:+ " candidate"))
    (os_Reviews state) ;;
  for_map (λ key record,
    throw_if (negb (bool_decide (key = sy_ID record)))
      (Errorf "sync record key %q does not match record id %q" [EStr key; EStr (sy_ID record)]) ;;
    if bool_decide (sy_Result record = SyncResultSuccess)
    then requireRevision state (sy_ProjectID record) (sy_RevisionID record) ("sync record " +:+ key)
    else mret tt) (os_SyncRecords state) ;;
  for_map (λ key event,
    throw_if (negb (bool_decide (key = ae_ID event)))
      (Errorf "audit event key %q does not match event id %q" [EStr key; EStr (ae_ID event)]) ;;
    requireRevision state (ae_ContractID event) (ae_RevisionID event) ("audit event " +:+ key) ;;
    requireTrack state (ae_ContractID event) (ae_TrackID event)
      (Errorf "audit event %q references an uncommitted release track" [EStr key])) (os_AuditEvents state) ;;
  for_map (λ key message,
    throw_if (negb (bool_decide (key = om_ID message)))
      (Errorf "outbox message key %q does not match message id %q" [EStr key; EStr (om_ID message)]) ;;
    requireRevision state (om_ContractID message) (om_RevisionID message) ("outbox message " +:+ key) ;;
    requireTrack state (om_ContractID message) (om_TrackID message)
      (Errorf "outbox message %q references an uncommitted release track" [EStr key])) (os_Outbox state) ;;
  validateReleaseEvidenceAuthorities state.

(** ** Revision evidence: the blobs on disk *)

Definition has_review_evidence (r : ContractRevision) : bool :=
  negb (bool_decide (cv_SpecDigest r = "")) || negb (bool_decide (cv_ContractDigest r = ""))
  || bool_decide (is_Some (cv_ReviewSnapshot r)).

Definition validateRevisionEvidence (ctx : Ctx) (blobs : gmap string (list Z)) (revision : ContractRevision)
    : res unit :=
  let hasReviewEvidence := has_review_evidence revision in
  let key := cv_SpecBlobKey revision in
  if bool_decide (key = "") then
    throw_if hasReviewEvidence (Errorf "review evidence requires a spec blob" [])
  else
    throw_if (negb (BlobKey_Valid key)) (Errorf "invalid blob key %q" [EStr key]) ;;
    match blobs !! key with
    | None => Fail (Errorf "references missing blob %q: %w" [EStr key; EErr ErrNotExist])
    | Some data =>
        let contentKey := ContentAddressedBlobKey data in
        throw_if (negb (bool_decide (contentKey = key))) (Errorf "references corrupt blob %q" [EStr key]) ;;
        ctx ;;
        if negb hasReviewEvidence then mret tt
        else
          throw_if (bool_decide (TrimSpace (cv_ContractID revision) = "")
                    || bool_decide (cv_SpecDigest revision = "") || bool_decide (cv_ContractDigest revision = ""))
            (Errorf "review evidence is incomplete" []) ;;
          match cv_ReviewSnapshot revision with
          | None => Fail (Errorf "review evidence is incomplete" [])
          | Some snapshot =>
              wrap_err (ValidateContractSnapshot snapshot) (λ e, Errorf "canonical review snapshot: %w" [EErr e]) ;;
              throw_if (negb (bool_decide (cs_ContractID snapshot = cv_ContractID revision))
                        || negb (bool_decide (cs_RevisionID snapshot = cv_ID revision)))
                (Errorf "canonical review snapshot identity does not match revision" []) ;;
              throw_if (negb (bool_decide (cs_SpecDigest snapshot = cv_SpecDigest revision)))
                (Errorf "spec digest does not match canonical review snapshot" []) ;;
              throw_if (negb (bool_decide (cs_ContractDigest snapshot = cv_ContractDigest revision)))
                (Errorf "contract digest does not match canonical review snapshot" []) ;;
              throw_if (negb (bool_decide (cv_SpecDigest revision = TrimPrefix contentKey "sha256:")))
                (Errorf "spec digest does not match stored blob" [])
          end
    end.

Definition validateReleaseAuthorizationRevisionEvidence (ctx : Ctx) (blobs : gmap string (list Z))
    (state : operationalState) (authorization : ReleaseAuthorization) : res unit :=
  for_each (λ revisionID,
    match revisionForContract state (ra_ContractID authorization) revisionID with
    | None => Fail (Errorf "authorized revision %q is missing" [EStr revisionID])
    | Some revision =>
        wrap_err (validateRevisionEvidence ctx blobs revision)
          (λ e, Errorf "authorized revision %q has invalid persisted evidence: %w" [EStr revisionID; EErr e])
    end) [ra_BaselineRevisionID authorization; ra_CandidateRevisionID authorization].

(** ** The commit check *)

Definition validateAuthorizationBaseline (previous : operationalState)
    (authorization : ReleaseAuthorization) : res unit :=
  match os_ReleaseTracks previous !! releaseTrackKey (ra_ContractID authorization) (ra_TrackID authorization) with
  | None => Fail (Errorf "authorized release track has no persisted pre-transition state" [])
  | Some track =>
      throw_if (negb (bool_decide (rt_CurrentRevisionID track = ra_BaselineRevisionID authorization)))
        (Errorf "authorized baseline %q does not match pre-transition current revision %q"
           [EStr (ra_BaselineRevisionID authorization); EStr (rt_CurrentRevisionID track)])
  end.

Definition validateChangedReleaseEvidence (ctx : Ctx) (blobs : gmap string (list Z))
    (previous state : operationalState) : res unit :=
  for_map (λ reviewID authorization,
    if bool_decide (os_ReleaseAuthorizations previous !! reviewID = Some authorization) then mret tt
    else
      wrap_err (validateAuthorizationBaseline previous authorization)
        (λ e, Errorf "release authorization %q baseline binding: %w" [EStr reviewID; EErr e]) ;;
      wrap_err (validateReleaseAuthorizationRevisionEvidence ctx blobs state authorization)
        (λ e, Errorf "release authorization %q evidence: %w" [EStr reviewID; EErr e]))
    (os_ReleaseAuthorizations state) ;;
  for_map (λ key track,
    if bool_decide (os_ReleaseTracks previous !! key = Some track) then mret tt
    else
      match rt_LastDecision track with
      | None => mret tt
      | Some decision =>
          match os_ReleaseAuthorizations state !! rd_ReviewID decision with
          | None => Fail (Errorf "changed release track %q has no persisted authorization" [EStr key])
          | Some authorization =>
              wrap_err (validateAuthorizationBaseline previous authorization)
                (λ e, Errorf "changed release track %q baseline binding: %w" [EStr key; EErr e]) ;;
              wrap_err (validateReleaseAuthorizationRevisionEvidence ctx blobs state authorization)
                (λ e, Errorf "changed release track %q evidence: %w" [EStr key; EErr e])
          end
      end) (os_ReleaseTracks state).

Definition validateOperationalState (ctx : Ctx) (blobs : gmap string (list Z))
    (previous state : operationalState) (mutatedRevisions : gset string) : res unit :=
  throw_if (negb (os_Version state =? operationalStateVersion))
    (Errorf "operational state version %d is not current" [EInt (os_Version state)]) ;;
  validateReleaseTrackAuthorities state ;;
  validateOperationalReferences state ;;
  for_each (λ key,
    match os_Revisions state !! key with
    | None => Fail (Errorf "mutated revision %q is missing" [EStr key])
    | Some revision =>
        wrap_err (validateRevisionEvidence ctx blobs revision)
          (λ e, Errorf "revision %q has invalid persisted evidence: %w" [EStr (cv_ID revision); EErr e])
    end) (elements mutatedRevisions) ;;
  validateChangedReleaseEvidence ctx blobs previous state.

Definition validateCommittedReleaseTracks (validated committed : gmap string ReleaseTrack) : res unit :=
  throw_if (negb (bool_decide (validated = committed)))
    (Errorf "committed release tracks differ from validated transitions" []).

(** ** The first save of a track *)

Definition validateReleaseTrackInitialization (track : ReleaseTrack) : res unit :=
  ValidateReleaseTrack track ;;
  match rt_LastDecision track with
  | None =>
      throw_if (negb (rt_Generation track =? 0))
        (Errorf "release track baseline initialization requires generation zero" [])
  | Some decision =>
      throw_if (negb (rt_Generation track =? 1)) (Errorf "first release decision requires generation one" []) ;;
      let current :=
        if bool_decide (rt_Mode track = ReleaseModeFollowing) && rd_Accepted decision then ""
        else rt_CurrentRevisionID track in
      let baseline := MkReleaseTrack (rt_ID track) (rt_ContractID track) (rt_BoundRef track) (rt_Mode track)
                        0 current "" None in
      r ← wrap_err (ConsiderReleaseDecision baseline decision)
        (λ e, Errorf "derive first release decision: %w" [EErr e]);
      throw_if (negb r.2 || negb (bool_decide (r.1 = track)))
        (Errorf "release track does not match a first authoritative decision" [])
  end.

(** ** Migration of older states *)

Definition with_Public (public : bool) (p : Publication) : Publication :=
  MkPublication (pb_ProjectID p) (pb_RevisionID p) public (pb_Path p) (pb_Hostname p).

(** The publications of the revisions the tracks serve. *)
Definition current_publications (state : operationalState) : gset string :=
  list_to_set ((λ kv : string * ReleaseTrack, publicationKey (rt_ContractID kv.2) (rt_CurrentRevisionID kv.2))
    <$> filter (λ kv : string * ReleaseTrack, rt_CurrentRevisionID kv.2 ≠ "") (map_to_list (os_ReleaseTracks state))).

Definition public_keys (publications : gmap string Publication) (path : string) : list string :=
  sort_strings (filter (λ kv : string * Publication, pb_Public kv.2 = true ∧ pb_Path kv.2 = path)
    (map_to_list publications)).*1.

Definition public_paths (publications : gmap string Publication) : list string :=
  sort_strings (remove_dups (pb_Path <$> filter (λ p, pb_Public p = true) (map_to_list publications).*2)).

Definition unpublish_others (winner : string) (keys : list string) (publications : gmap string Publication)
    : gmap string Publication :=
  foldl (λ m key, if bool_decide (key = winner) then m else alter (with_Public false) key m) publications keys.

Definition reconcileLegacyPublications (state : operationalState) : res operationalState :=
  let currentPublications := current_publications state in
  publications ← fold_res (λ publications publicPath,
    let keys := public_keys (os_Publications state) publicPath in
    if (length keys <? 2)%nat then mret publications
    else
      match filter (λ key, key ∈ currentPublications) keys with
      | [winner] => mret (unpublish_others winner keys publications)
      | _ => Fail (Errorf "legacy public path %q has no unique last-known-good publication" [EStr publicPath])
      end) (os_Publications state) (public_paths (os_Publications state));
  mret (with_Publications (λ _, publications) state).

Definition scopeOperationalRevisions (state : operationalState) : res operationalState :=
  scoped ← fold_res (λ (scoped : gmap string ContractRevision) (revision : ContractRevision),
    let key := revisionStorageKey revision in
    match scoped !! key with
    | Some existing =>
        equal ← immutableRecordsEqual existing revision;
        throw_if (negb equal) (Errorf "revision %q has conflicting records for contract %q"
          [EStr (cv_ID revision); EStr (cv_ContractID revision)]) ;;
        mret scoped
    | None => mret (<[key := revision]> scoped)
    end) ∅ (map_to_list (os_Revisions state)).*2;
  mret (with_Revisions (λ _, scoped) state).

(** [for ... { if _, err := bindRevisionOwner(...); err != nil { return err } }] *)
Definition bind_all (l : list (string * string * string)) (state : operationalState) : res operationalState :=
  fold_res (λ state '(contractID, revisionID, owner),
    let '(state, r) := bindRevisionOwner contractID revisionID owner state in
    r ;; mret state) state l.

(** The references a legacy state makes, in the order the code visits them. *)
Definition legacy_references (state : operationalState) : list (string * string * string) :=
  (map_to_list (os_ReleaseTracks state) ≫= λ kv,
     (λ role, (rt_ContractID kv.2, role.2, "release track " +:+ kv.1 +:+ " " +:+ role.1)) <$>
     filter (λ role : string * string, role.2 ≠ "")
       [("current", rt_CurrentRevisionID kv.2); ("candidate", rt_CandidateRevisionID kv.2)])
  ++ ((λ kv : string * Publication, (pb_ProjectID kv.2, pb_RevisionID kv.2, "publication " +:+ kv.1))
        <$> map_to_list (os_Publications state))
  ++ (map_to_list (os_Reviews state) ≫= λ kv,
        [(rv_ContractID kv.2, rv_BaselineRevisionID kv.2, "review " +:+ kv.1 +:+ " baseline");
         (rv_ContractID kv.2, rv_CandidateRevisionID kv.2, "review " +:+ kv.1 +:+ " candidate")])
  ++ ((λ kv : string * SyncRecord, (sy_ProjectID kv.2, sy_RevisionID kv.2, "sync record " +:+ kv.1))
        <$> filter (λ kv : string * SyncRecord, sy_Result kv.2 = SyncResultSuccess ∧ sy_RevisionID kv.2 ≠ "")
              (map_to_list (os_SyncRecords state)))
  ++ ((λ kv : string * AuditEvent, (ae_ContractID kv.2, ae_RevisionID kv.2, "audit event " +:+ kv.1))
        <$> filter (λ kv : string * AuditEvent, ae_RevisionID kv.2 ≠ "") (map_to_list (os_AuditEvents state)))
  ++ ((λ kv : string * OutboxMessage, (om_ContractID kv.2, om_RevisionID kv.2, "outbox message " +:+ kv.1))
        <$> filter (λ kv : string * OutboxMessage, om_RevisionID kv.2 ≠ "") (map_to_list (os_Outbox state))).

Definition bindLegacyOperationalRevisionOwners (state : operationalState) : res operationalState :=
  bind_all (legacy_references state) state.

(** Before version 3 a decision was not bound to persisted evidence: only the
    served revision and the generation survive. *)
Definition legacy_track (track : ReleaseTrack) : ReleaseTrack :=
  MkReleaseTrack (rt_ID track) (rt_ContractID track) (rt_BoundRef track) (rt_Mode track)
    (rt_Generation track) (rt_CurrentRevisionID track) "" None.

Definition strip_decisions (state : operationalState) : res operationalState :=
  for_map (λ key track,
    wrap_err (ValidateReleaseTrack (legacy_track track))
      (λ e, Errorf "migrate legacy release track %q: %w" [EStr key; EErr e])) (os_ReleaseTracks state) ;;
  mret (MkOperationalState (os_Version state) (os_Revisions state) (os_Reviews state) (os_SyncRecords state)
    (legacy_track <$> os_ReleaseTracks state)
    ((λ track, newReleaseTrackAuthority (legacy_track track)) <$> os_ReleaseTracks state)
    ∅ (os_Publications state) (os_AuditEvents state) (os_Outbox state) (os_migratedRevisions state)).

Definition migrateOperationalStateToCurrent (state : operationalState) : res operationalState :=
  state ← (if (os_Version state =? legacyOperationalStateVersion)
              || (os_Version state =? decisionOperationalStateVersion) then strip_decisions state
           else if os_Version state =? authenticatedStateVersion then mret state
           else Fail (Errorf "cannot migrate operational state version %d" [EInt (os_Version state)]));
  state ← reconcileLegacyPublications state;
  state ← wrap_err (bindLegacyOperationalRevisionOwners state)
    (λ e, Errorf "migrate legacy revision ownership: %w" [EErr e]);
  state ← wrap_err (scopeOperationalRevisions state)
    (λ e, Errorf "migrate contract-scoped revisions: %w" [EErr e]);
  mret (MkOperationalState operationalStateVersion (os_Revisions state) (os_Reviews state) (os_SyncRecords state)
    (os_ReleaseTracks state) (os_ReleaseTrackAuthorities state) (os_ReleaseAuthorizations state)
    (os_Publications state) (os_AuditEvents state) (os_Outbox state) (os_migratedRevisions state)).

(** The references that must keep their evidence across a migration. *)
Definition collectAuthoritativeRevisionReferences (state : operationalState) : list (string * string * string) :=
  sort_by (less_by (λ r : string * string * string, [KS (r.1.1 +:+ nul +:+ r.1.2 +:+ nul +:+ r.2)]))
    (filter (λ r : string * string * string, r.1.2 ≠ "")
      (((λ kv : string * ReleaseTrack, (rt_ContractID kv.2, rt_CurrentRevisionID kv.2, "release track " +:+ kv.1 +:+ " current"))
          <$> map_to_list (os_ReleaseTracks state))
       ++ ((λ kv : string * Publication, (pb_ProjectID kv.2, pb_RevisionID kv.2, "public publication " +:+ kv.1))
             <$> filter (λ kv : string * Publication, pb_Public kv.2 = true) (map_to_list (os_Publications state)))
       ++ (map_to_list (os_ReleaseAuthorizations state) ≫= λ kv,
             [(ra_ContractID kv.2, ra_BaselineRevisionID kv.2, "release authorization " +:+ kv.1 +:+ " baseline");
              (ra_ContractID kv.2, ra_CandidateRevisionID kv.2, "release authorization " +:+ kv.1 +:+ " candidate")]))).

Definition validateReferencedRevisionEvidence (ctx : Ctx) (blobs : gmap string (list Z))
    (state : operationalState) (references : list (string * string * string)) : res unit :=
  for_each (λ '(contractID, revisionID, owner),
    match revisionForContract state contractID revisionID with
    | None => Fail (Errorf "%s references missing revision %q" [EStr owner; EStr revisionID])
    | Some revision =>
        wrap_err (validateRevisionEvidence ctx blobs revision)
          (λ e, Errorf "%s has invalid revision evidence: %w" [EStr owner; EErr e])
    end) references.

Definition legacyRevisionAwaitsEvidenceEnrichment (revision : ContractRevision) : bool :=
  bool_decide (cv_ReviewSnapshot revision = None) && negb (bool_decide (cv_SpecBlobKey revision = ""))
  && (negb (bool_decide (cv_SpecDigest revision = "")) || negb (bool_decide (cv_ContractDigest revision = ""))).
End store.
