(* ===== verification/StoreTx.v ===== *)
(** * Transactions of the file store (internal/adapters/store/fs.go)

    [operationalTransaction] is the private copy of the state a callback of
    [Within] works on.  An operation that fails keeps what it wrote before the
    error, as the code does: a callback that swallows the error commits it.

    [cloneOperationalState] copies the maps of tracks, authorities and
    authorizations and shares the others with the loaded state; the commit
    check reads only the copied ones of the loaded state, so a value per
    transaction shows the same behaviour. *)

From S2P Require Import Prelude GoString GoSha256 GoTime GoJson Identity Spec Snapshot SpecDiff.
From S2P Require Import Release.
From S2P Require Import Policy.
From S2P Require Import Review.
From S2P Require Import Records.
From S2P Require Import Ports.
From S2P Require Import StoreState.

Record operationalTransaction := MkOperationalTransaction {
  tx_state : operationalState;
  tx_validatedReleaseTracks : gmap string ReleaseTrack;
  tx_mutatedRevisions : gset string;
}.

Abbreviation tx := (stM operationalTransaction).

Definition on_state (f : operationalState → operationalState) : tx unit :=
  modify (λ t, MkOperationalTransaction (f (tx_state t)) (tx_validatedReleaseTracks t) (tx_mutatedRevisions t)).
Definition set_mutated (f : gset string → gset string) : tx unit :=
  modify (λ t, MkOperationalTransaction (tx_state t) (tx_validatedReleaseTracks t) (f (tx_mutatedRevisions t))).

Definition put_Review (key : string) (r : ContractReview) (s : operationalState) : operationalState :=
  MkOperationalState (os_Version s) (os_Revisions s) (<[key := r]> (os_Reviews s)) (os_SyncRecords s)
    (os_ReleaseTracks s) (os_ReleaseTrackAuthorities s) (os_ReleaseAuthorizations s)
    (os_Publications s) (os_AuditEvents s) (os_Outbox s) (os_migratedRevisions s).
Definition put_SyncRecord (r : SyncRecord) (s : operationalState) : operationalState :=
  MkOperationalState (os_Version s) (os_Revisions s) (os_Reviews s) (<[sy_ID r := r]> (os_SyncRecords s))
    (os_ReleaseTracks s) (os_ReleaseTrackAuthorities s) (os_ReleaseAuthorizations s)
    (os_Publications s) (os_AuditEvents s) (os_Outbox s) (os_migratedRevisions s).
Definition put_Track (key : string) (t : ReleaseTrack) (s : operationalState) : operationalState :=
  MkOperationalState (os_Version s) (os_Revisions s) (os_Reviews s) (os_SyncRecords s)
    (<[key := t]> (os_ReleaseTracks s)) (<[key := newReleaseTrackAuthority t]> (os_ReleaseTrackAuthorities s))
    (os_ReleaseAuthorizations s) (os_Publications s) (os_AuditEvents s) (os_Outbox s) (os_migratedRevisions s).
Definition put_Authorization (a : ReleaseAuthorization) (s : operationalState) : operationalState :=
  MkOperationalState (os_Version s) (os_Revisions s) (os_Reviews s) (os_SyncRecords s)
    (os_ReleaseTracks s) (os_ReleaseTrackAuthorities s) (<[ra_ReviewID a := a]> (os_ReleaseAuthorizations s))
    (os_Publications s) (os_AuditEvents s) (os_Outbox s) (os_migratedRevisions s).
Definition put_AuditEvent (e : AuditEvent) (s : operationalState) : operationalState :=
  MkOperationalState (os_Version s) (os_Revisions s) (os_Reviews s) (os_SyncRecords s)
    (os_ReleaseTracks s) (os_ReleaseTrackAuthorities s) (os_ReleaseAuthorizations s)
    (os_Publications s) (<[ae_ID e := e]> (os_AuditEvents s)) (os_Outbox s) (os_migratedRevisions s).
Definition put_Outbox (m : OutboxMessage) (s : operationalState) : operationalState :=
  MkOperationalState (os_Version s) (os_Revisions s) (os_Reviews s) (os_SyncRecords s)
    (os_ReleaseTracks s) (os_ReleaseTrackAuthorities s) (os_ReleaseAuthorizations s)
    (os_Publications s) (os_AuditEvents s) (<[om_ID m := m]> (os_Outbox s)) (os_migratedRevisions s).

(** [transaction.bindRevisionOwner] *)
Definition tx_bindRevisionOwner (contractID revisionID owner : string) : tx unit := λ t,
  let '(state, r) := bindRevisionOwner contractID revisionID owner (tx_state t) in
  match r with
  | Fail e => (t, Fail e)
  | Ok changed =>
      (MkOperationalTransaction state (tx_validatedReleaseTracks t)
         (if changed then ({[revisionKey contractID revisionID]} ∪ tx_mutatedRevisions t) ∖ {[revisionID]}
          else tx_mutatedRevisions t), Ok tt)
  end.

(** ** Revisions *)

Definition without_evidence (contractID : string) (r : ContractRevision) : ContractRevision :=
  MkContractRevision (cv_ID r) contractID (cv_SourceID r) (cv_SpecBlobKey r) "" "" None (cv_Ref r)
    (cv_CommitSHA r) (cv_Version r) (cv_AuthorName r) (cv_AuthorEmail r) (cv_Message r).

(** A flat record without a snapshot may be completed once. *)
Definition canEnrichLegacyRevisionEvidence (existing enriched : ContractRevision) : bool :=
  if bool_decide (is_Some (cv_ReviewSnapshot existing)) || bool_decide (cv_ReviewSnapshot enriched = None) then false
  else
    bool_decide (without_evidence (cv_ContractID existing) existing
      = without_evidence (if bool_decide (cv_ContractID existing = "") then "" else cv_ContractID enriched) enriched).

Definition with_ref (ref : string) (r : ContractRevision) : ContractRevision :=
  MkContractRevision (cv_ID r) (cv_ContractID r) (cv_SourceID r) (cv_SpecBlobKey r) (cv_SpecDigest r)
    (cv_ContractDigest r) (cv_ReviewSnapshot r) ref (cv_CommitSHA r) (cv_Version r)
    (cv_AuthorName r) (cv_AuthorEmail r) (cv_Message r).

(** A mutable ref may be replaced by the commit it was resolved to. *)
Definition canCanonicalizeLegacyRevisionRef (existing canonical : ContractRevision) : bool :=
  if bool_decide (cv_CommitSHA existing = "")
     || negb (bool_decide (cv_CommitSHA canonical = cv_CommitSHA existing))
     || negb (bool_decide (cv_Ref canonical = cv_CommitSHA canonical)) then false
  else bool_decide (with_ref (cv_Ref canonical) existing = canonical).

Section tx.
Context `{CaseTables}.

(** The record a save meets: its own key, or an unowned flat record. *)
Definition existing_revision (state : operationalState) (revision : ContractRevision)
    : option (string * ContractRevision) :=
  let key := revisionStorageKey revision in
  match os_Revisions state !! key with
  | Some existing => Some (key, existing)
  | None =>
      if bool_decide (cv_ContractID revision = "") then None
      else
        match os_Revisions state !! cv_ID revision with
        | Some legacy => if bool_decide (cv_ContractID legacy = "") then Some (cv_ID revision, legacy) else None
        | None => None
        end
  end.

Definition put_Revision (key : string) (r : ContractRevision) : tx unit :=
  on_state (with_Revisions (λ m, <[key := r]> m)) ;; set_mutated (λ ids, {[key]} ∪ ids).

Definition tx_SaveRevision (ctx : Ctx) (revision : ContractRevision) : tx unit :=
  lift ctx ;;
  lift (validateID (cv_ID revision)) ;;
  lift (ValidateContractRevision revision) ;;
  lift (validate_identities [
    ("revision contract id", cv_ContractID revision, true);
    ("revision source id", cv_SourceID revision, true);
    ("revision ref", cv_Ref revision, true);
    ("revision commit sha", cv_CommitSHA revision, true)]) ;;
  lift (match cv_ReviewSnapshot revision with
        | Some snapshot =>
            wrap_err (ValidateContractSnapshot snapshot)
              (λ e, Errorf "revision canonical review snapshot: %w" [EErr e])
        | None => mret tt
        end) ;;
  let key := revisionStorageKey revision in
  found ← gets (λ t, existing_revision (tx_state t) revision);
  match found with
  | Some (existingKey, existing) =>
      equal ← lift (immutableRecordsEqual existing revision);
      if (equal : bool) then mret tt
      else if negb (canEnrichLegacyRevisionEvidence existing revision)
              && negb (canCanonicalizeLegacyRevisionRef existing revision) then
        lift (Fail (Errorf "revision %q conflicts with immutable persisted evidence" [EStr (cv_ID revision)]))
      else
        cloned ← lift (cloneImmutableRecord revision);
        (if bool_decide (existingKey = key) then mret tt
         else on_state (with_Revisions (delete existingKey)) ;; set_mutated (λ ids, ids ∖ {[existingKey]})) ;;
        put_Revision key cloned
  | None =>
      cloned ← lift (cloneImmutableRecord revision);
      put_Revision key cloned
  end.

(** ** Reviews, sync records and authorizations *)

Definition tx_SaveReview (ctx : Ctx) (review : ContractReview) : tx unit :=
  lift ctx ;;
  lift (ValidateContractReviewIdentities review) ;;
  tx_bindRevisionOwner (rv_ContractID review) (rv_BaselineRevisionID review)
    ("review " +:+ rv_ID review +:+ " baseline") ;;
  tx_bindRevisionOwner (rv_ContractID review) (rv_CandidateRevisionID review)
    ("review " +:+ rv_ID review +:+ " candidate") ;;
  state ← gets tx_state;
  baselineSnapshot ← lift
    match revisionForContract state (rv_ContractID review) (rv_BaselineRevisionID review) ≫= cv_ReviewSnapshot with
    | Some snapshot => mret snapshot
    | None => Fail (Errorf "review %q baseline has no canonical snapshot" [EStr (rv_ID review)])
    end;
  candidateSnapshot ← lift
    match revisionForContract state (rv_ContractID review) (rv_CandidateRevisionID review) ≫= cv_ReviewSnapshot with
    | Some snapshot => mret snapshot
    | None => Fail (Errorf "review %q candidate has no canonical snapshot" [EStr (rv_ID review)])
    end;
  lift (wrap_err (ValidateContractReviewAgainstSnapshots review baselineSnapshot candidateSnapshot)
    (λ e, Errorf "review %q is not canonical: %w" [EStr (rv_ID review); EErr e])) ;;
  found ← gets (λ t, os_Reviews (tx_state t) !! rv_ID review);
  match found with
  | Some existing =>
      equal ← lift (immutableRecordsEqual existing review);
      lift (throw_if (negb equal)
        (Errorf "review %q conflicts with immutable persisted evidence" [EStr (rv_ID review)]))
  | None =>
      cloned ← lift (cloneImmutableRecord review);
      on_state (put_Review (rv_ID review) cloned)
  end.

Definition tx_SaveSyncRecord (ctx : Ctx) (record : SyncRecord) : tx unit :=
  lift ctx ;;
  lift (validateID (sy_ID record)) ;;
  lift (ValidateSyncRecord record) ;;
  lift (validate_identities [
    ("sync project id", sy_ProjectID record, true);
    ("sync source id", sy_SourceID record, true);
    ("sync revision id", sy_RevisionID record, true);
    ("sync trigger", sy_Trigger record, true);
    ("sync ref", sy_Ref record, true);
    ("sync commit sha", sy_CommitSHA record, true);
    ("sync spec path", sy_SpecPath record, true)]) ;;
  (if bool_decide (sy_Result record = SyncResultSuccess) && negb (bool_decide (sy_RevisionID record = "")) then
     tx_bindRevisionOwner (sy_ProjectID record) (sy_RevisionID record) ("sync record " +:+ sy_ID record)
   else mret tt) ;;
  found ← gets (λ t, os_SyncRecords (tx_state t) !! sy_ID record);
  match found with
  | Some existing =>
      lift (throw_if (negb (SameSyncEvidence existing record))
        (Errorf "sync record %q conflicts with immutable persisted evidence" [EStr (sy_ID record)]))
  | None => on_state (put_SyncRecord record)
  end.

Definition tx_SyncRecord (ctx : Ctx) (id : string) : tx SyncRecord :=
  lift ctx ;;
  lift (validateID id) ;;
  found ← gets (λ t, os_SyncRecords (tx_state t) !! id);
  lift match found with
  | None => Fail ErrNotExist
  | Some record =>
      throw_if (negb (bool_decide (sy_ID record = id)))
        (Errorf "sync lookup %q returned transactional id %q" [EStr id; EStr (sy_ID record)]) ;;
      mret record
  end.

Definition tx_saveReleaseAuthorization (ctx : Ctx) (authorization : ReleaseAuthorization) : tx unit :=
  lift ctx ;;
  lift (ValidateReleaseAuthorization authorization) ;;
  found ← gets (λ t, os_ReleaseAuthorizations (tx_state t) !! ra_ReviewID authorization);
  match found with
  | Some existing =>
      equal ← lift (immutableRecordsEqual existing authorization);
      lift (throw_if (negb equal)
        (Errorf "release authorization %q conflicts with immutable persisted evidence"
           [EStr (ra_ReviewID authorization)]))
  | None => on_state (put_Authorization authorization)
  end.

(** ** Release tracks *)

Definition tx_ReleaseTrack (ctx : Ctx) (contractID trackID : string) : tx ReleaseTrack :=
  lift ctx ;;
  lift (validateID contractID) ;;
  lift (validateID trackID) ;;
  found ← gets (λ t, os_ReleaseTracks (tx_state t) !! releaseTrackKey contractID trackID);
  lift match found with
  | None => Fail ErrNotExist
  | Some track =>
      wrap_err (ValidateReleaseTrack track) (λ e, Errorf "invalid persisted release track: %w" [EErr e]) ;;
      mret track
  end.

Definition tx_SaveReleaseTrack (ctx : Ctx) (expectedGeneration : Z) (track : ReleaseTrack) : tx unit :=
  lift ctx ;;
  lift (validateID (rt_ContractID track)) ;;
  lift (validateID (rt_ID track)) ;;
  lift (wrap_err (ValidateReleaseTrack track) (λ e, Errorf "invalid release track: %w" [EErr e])) ;;
  let key := releaseTrackKey (rt_ContractID track) (rt_ID track) in
  found ← gets (λ t, os_ReleaseTracks (tx_state t) !! key);
  lift (match found with
        | Some current =>
            wrap_err (ValidateReleaseTrack current)
              (λ e, Errorf "invalid persisted release track: %w" [EErr e])
        | None => mret tt
        end) ;;
  if bool_decide (found = Some track) then mret tt
  else
    lift (match found with
          | Some current =>
              throw_if (negb (rt_Generation current =? expectedGeneration)) ErrGenerationConflict ;;
              ValidateReleaseTrackTransition current track
          | None =>
              throw_if (negb (expectedGeneration =? 0)) ErrGenerationConflict ;;
              validateReleaseTrackInitialization track
          end) ;;
    (if bool_decide (rt_CurrentRevisionID track = "") then mret tt
     else tx_bindRevisionOwner (rt_ContractID track) (rt_CurrentRevisionID track)
            ("release track " +:+ key +:+ " current")) ;;
    (if bool_decide (rt_CandidateRevisionID track = "") then mret tt
     else tx_bindRevisionOwner (rt_ContractID track) (rt_CandidateRevisionID track)
            ("release track " +:+ key +:+ " candidate")) ;;
    on_state (put_Track key track) ;;
    modify (λ t, MkOperationalTransaction (tx_state t) (<[key := track]> (tx_validatedReleaseTracks t))
                   (tx_mutatedRevisions t)).

(** ** Publications *)

(** Publishing a path takes it from every other publication. *)
Definition take_path (key path : string) (publications : gmap string Publication) : gmap string Publication :=
  map_imap (λ existingKey existing,
    Some (if bool_decide (existingKey = key) || negb (pb_Public existing) || negb (bool_decide (pb_Path existing = path))
          then existing else with_Public false existing)) publications.

Definition tx_SavePublication (ctx : Ctx) (publication : Publication) : tx unit :=
  lift ctx ;;
  lift (validateID (pb_ProjectID publication)) ;;
  lift (validateID (pb_RevisionID publication)) ;;
  lift (validatePublicPath (pb_Path publication)) ;;
  lift (validateCanonicalIdentity "publication hostname" (pb_Hostname publication) true) ;;
  let key := publicationKey (pb_ProjectID publication) (pb_RevisionID publication) in
  tx_bindRevisionOwner (pb_ProjectID publication) (pb_RevisionID publication) ("publication " +:+ key) ;;
  on_state (with_Publications (λ publications,
    <[key := publication]> (if pb_Public publication then take_path key (pb_Path publication) publications
                            else publications))).

(** ** The audit log and the outbox *)

Definition tx_AppendAuditEvent (ctx : Ctx) (event : AuditEvent) : tx unit :=
  lift ctx ;;
  lift (validateID (ae_ID event)) ;;
  lift (validate_identities [
    ("audit contract id", ae_ContractID event, true);
    ("audit track id", ae_TrackID event, true);
    ("audit revision id", ae_RevisionID event, true);
    ("audit actor id", ae_ActorID event, true);
    ("audit kind", ae_Kind event, true)]) ;;
  (if bool_decide (ae_RevisionID event = "") then mret tt
   else tx_bindRevisionOwner (ae_ContractID event) (ae_RevisionID event) ("audit event " +:+ ae_ID event)) ;;
  found ← gets (λ t, os_AuditEvents (tx_state t) !! ae_ID event);
  match found with
  | Some existing =>
      equal ← lift (immutableRecordsEqual existing event);
      lift (throw_if (negb equal)
        (Errorf "audit event %q conflicts with immutable persisted evidence" [EStr (ae_ID event)]))
  | None => on_state (put_AuditEvent event)
  end.

Definition tx_Enqueue (ctx : Ctx) (message : OutboxMessage) : tx unit :=
  lift ctx ;;
  lift (validateID (om_ID message)) ;;
  lift (validate_identities [
    ("outbox contract id", om_ContractID message, true);
    ("outbox track id", om_TrackID message, true);
    ("outbox revision id", om_RevisionID message, true);
    ("outbox topic", om_Topic message, true)]) ;;
  (if bool_decide (om_RevisionID message = "") then mret tt
   else tx_bindRevisionOwner (om_ContractID message) (om_RevisionID message) ("outbox message " +:+ om_ID message)) ;;
  found ← gets (λ t, os_Outbox (tx_state t) !! om_ID message);
  match found with
  | Some existing =>
      equal ← lift (immutableRecordsEqual existing message);
      lift (throw_if (negb equal)
        (Errorf "outbox message %q conflicts with immutable persisted evidence" [EStr (om_ID message)]))
  | None =>
      on_state (put_Outbox (MkOutboxMessage (om_ID message) (om_ContractID message) (om_TrackID message)
        (om_RevisionID message) (om_Topic message) (gappend None (elems (om_Payload message))) (om_CreatedAt message)))
  end.

#[export] Instance transaction_store : OperationalStore operationalTransaction := {|
  SaveRevision := tx_SaveRevision;
  SaveReview := tx_SaveReview;
  SaveSyncRecord := tx_SaveSyncRecord;
  LoadReleaseTrack := tx_ReleaseTrack;
  SaveReleaseTrack := tx_SaveReleaseTrack;
  SavePublication := tx_SavePublication;
  AppendAuditEvent := tx_AppendAuditEvent;
  Enqueue := tx_Enqueue;
|}.
End tx.
