(* ===== verification/FileStore.v ===== *)
(** * The file store (internal/adapters/store/fs.go)

    One handle on a root directory.  [World] is what the directory holds, with
    the fate of the writes still to come: a durable write can fail before the
    atomic rename, or after it when the directory cannot be confirmed.  The
    admission channel and the inter-process lock run the operations of a root
    one after the other, so each is one step here; contents that do not decode
    at all, staging files and the lock are not modelled. *)

From stdpp Require Import pretty.
From S2P Require Import Prelude GoString GoSha256 GoTime GoJson Identity Spec Snapshot SpecDiff.
From S2P Require Import Release.
From S2P Require Import Policy.
From S2P Require Import Review.
From S2P Require Import Records.
From S2P Require Import Ports.
From S2P Require Import StoreState.
From S2P Require Import StoreTx.

(** ** What is written to disk *)

#[export] Instance decision_record : JsonRecord ReleaseDecision := {|
  record_json d :=
    evaluated ← json_time (rd_EvaluatedAt d);
    mret (JObject (field "revisionId" (JString (rd_RevisionID d)) ++ field "reviewId" (JString (rd_ReviewID d))
      ++ field "reviewDigest" (JString (rd_ReviewDigest d)) ++ field "verdict" (JString (rd_Verdict d))
      ++ field "accepted" (JBool (rd_Accepted d)) ++ field "evaluatedAt" evaluated));
  reread d := MkReleaseDecision (reread_string (rd_RevisionID d)) (reread_string (rd_ReviewID d))
    (reread_string (rd_ReviewDigest d)) (reread_string (rd_Verdict d)) (rd_Accepted d)
    (reread_time (rd_EvaluatedAt d));
|}.

#[export] Instance track_record : JsonRecord ReleaseTrack := {|
  record_json t :=
    decision ← match rt_LastDecision t with
      | Some d => field "lastDecision" <$> record_json d
      | None => mret []
      end;
    mret (JObject (field "id" (JString (rt_ID t)) ++ field "contractId" (JString (rt_ContractID t))
      ++ omit_string "boundRef" (rt_BoundRef t) ++ field "mode" (JString (rt_Mode t))
      ++ field "generation" (JInt (rt_Generation t))
      ++ omit_string "currentRevisionId" (rt_CurrentRevisionID t)
      ++ omit_string "candidateRevisionId" (rt_CandidateRevisionID t) ++ decision));
  reread t := MkReleaseTrack (reread_string (rt_ID t)) (reread_string (rt_ContractID t))
    (reread_string (rt_BoundRef t)) (reread_string (rt_Mode t)) (rt_Generation t)
    (reread_string (rt_CurrentRevisionID t)) (reread_string (rt_CandidateRevisionID t))
    (reread <$> rt_LastDecision t);
|}.

#[export] Instance authority_record : JsonRecord releaseTrackAuthority := {|
  record_json a :=
    decision ← record_json (au_Decision a);
    mret (JObject (field "version" (JInt (au_Version a)) ++ field "generation" (JInt (au_Generation a))
      ++ field "decisionPresent" (JBool (au_DecisionPresent a)) ++ field "decision" decision));
  reread a := MkReleaseTrackAuthority (au_Version a) (au_Generation a) (au_DecisionPresent a)
    (reread (au_Decision a));
|}.

#[export] Instance sync_record : JsonRecord SyncRecord := {|
  record_json r :=
    started ← json_time (sy_StartedAt r);
    finished ← json_time (sy_FinishedAt r);
    mret (JObject (field "id" (JString (sy_ID r)) ++ field "projectId" (JString (sy_ProjectID r))
      ++ field "sourceId" (JString (sy_SourceID r)) ++ omit_string "revisionId" (sy_RevisionID r)
      ++ field "trigger" (JString (sy_Trigger r)) ++ omit_string "ref" (sy_Ref r)
      ++ omit_string "commitSha" (sy_CommitSHA r) ++ omit_string "specPath" (sy_SpecPath r)
      ++ field "result" (JString (sy_Result r)) ++ omit_string "errorSummary" (sy_ErrorSummary r)
      ++ field "startedAt" started ++ field "finishedAt" finished));
  reread r := MkSyncRecord (reread_string (sy_ID r)) (reread_string (sy_ProjectID r))
    (reread_string (sy_SourceID r)) (reread_string (sy_RevisionID r)) (reread_string (sy_Trigger r))
    (reread_string (sy_Ref r)) (reread_string (sy_CommitSHA r)) (reread_string (sy_SpecPath r))
    (reread_string (sy_Result r)) (reread_string (sy_ErrorSummary r))
    (reread_time (sy_StartedAt r)) (reread_time (sy_FinishedAt r));
|}.

#[export] Instance publication_record : JsonRecord Publication := {|
  record_json p := mret (JObject (field "ProjectID" (JString (pb_ProjectID p))
    ++ field "RevisionID" (JString (pb_RevisionID p)) ++ field "Public" (JBool (pb_Public p))
    ++ field "Path" (JString (pb_Path p)) ++ field "Hostname" (JString (pb_Hostname p))));
  reread p := MkPublication (reread_string (pb_ProjectID p)) (reread_string (pb_RevisionID p)) (pb_Public p)
    (reread_string (pb_Path p)) (reread_string (pb_Hostname p));
|}.

Definition encodes {A} `{JsonRecord A} (m : gmap string A) : res unit :=
  for_map (λ _ x, record_json x ;; mret tt) m.

(** [json.MarshalIndent(state, "", "  ")] fails exactly when a record does. *)
Definition encodes_state (s : operationalState) : res unit :=
  encodes (os_Revisions s) ;; encodes (os_Reviews s) ;; encodes (os_SyncRecords s) ;;
  encodes (os_ReleaseTracks s) ;; encodes (os_ReleaseTrackAuthorities s) ;;
  encodes (os_ReleaseAuthorizations s) ;; encodes (os_Publications s) ;;
  encodes (os_AuditEvents s) ;; encodes (os_Outbox s).

(** The state a later load decodes.  Keys are made of validated identities and
    come back as they were; the unexported set of migrated revisions is lost. *)
Definition reread_state (s : operationalState) : operationalState :=
  MkOperationalState (os_Version s) (reread <$> os_Revisions s) (reread <$> os_Reviews s)
    (reread <$> os_SyncRecords s) (reread <$> os_ReleaseTracks s) (reread <$> os_ReleaseTrackAuthorities s)
    (reread <$> os_ReleaseAuthorizations s) (reread <$> os_Publications s) (reread <$> os_AuditEvents s)
    (reread <$> os_Outbox s) ∅.

(** ** The directory *)

Inductive write_outcome :=
  | Written
  | NotWritten (e : error)
  | Unconfirmed (e : error).

Record World := MkWorld {
  w_state : option operationalState;
  w_marker : option Z;
  w_blobs : gmap string (list Z);
  w_revisions : gmap string ContractRevision;
  w_publications : gmap string Publication;
  w_syncs : gmap string SyncRecord;
  w_writes : list write_outcome;
}.

Abbreviation io := (stM World).

Definition set_state (s : operationalState) (w : World) : World :=
  MkWorld (Some s) (w_marker w) (w_blobs w) (w_revisions w) (w_publications w) (w_syncs w) (w_writes w).
Definition set_marker (v : Z) (w : World) : World :=
  MkWorld (w_state w) (Some v) (w_blobs w) (w_revisions w) (w_publications w) (w_syncs w) (w_writes w).
Definition set_blob (k : string) (data : list Z) (w : World) : World :=
  MkWorld (w_state w) (w_marker w) (<[k := data]> (w_blobs w)) (w_revisions w) (w_publications w) (w_syncs w) (w_writes w).
Definition next_writes (w : World) : World :=
  MkWorld (w_state w) (w_marker w) (w_blobs w) (w_revisions w) (w_publications w) (w_syncs w) (tail (w_writes w)).

(** [durableAtomicWrite...]: write a temporary file, sync, rename over the
    target, confirm the directory.  The next outcome decides where it fails. *)
Definition durableAtomicWrite (filePath : string) (replace : World → World) : io unit := λ w,
  match hd Written (w_writes w) with
  | Written => (replace (next_writes w), Ok tt)
  | NotWritten e => (next_writes w, Fail e)
  | Unconfirmed e =>
      (replace (next_writes w),
       Fail (Errorf "%w: confirm atomic replacement of %q: %v" [EErr ErrCommitOutcomeUnknown; EStr filePath; EText e]))
  end.

Definition loadOperationalSchemaMarker (ctx : Ctx) : io (option Z) :=
  lift ctx ;;
  marker ← gets w_marker;
  match marker with
  | None => mret None
  | Some version =>
      lift (throw_if (version <? authenticatedStateVersion)
        (Errorf "invalid operational schema marker version %d" [EInt version])) ;;
      mret (Some version)
  end.

Definition persistOperationalSchemaMarker (ctx : Ctx) (version : Z) : io unit :=
  lift ctx ;;
  marker ← loadOperationalSchemaMarker ctx;
  match marker with
  | Some present =>
      lift (throw_if (version <? present)
        (Errorf "refusing to lower operational schema marker from %d to %d" [EInt present; EInt version])) ;;
      if present =? version then mret tt
      else durableAtomicWrite "operational/schema.json" (set_marker version)
  | None => durableAtomicWrite "operational/schema.json" (set_marker version)
  end.

Definition publishOperationalState (ctx : Ctx) (state : operationalState) : io unit :=
  lift ctx ;;
  lift (encodes_state state) ;;
  durableAtomicWrite "operational/state.json" (set_state (reread_state state)).

Definition publishCurrentOperationalState (ctx : Ctx) (state : operationalState) : io unit :=
  lift (throw_if (negb (os_Version state =? operationalStateVersion))
    (Errorf "cannot publish non-current operational state version %d" [EInt (os_Version state)])) ;;
  publishOperationalState ctx state ;;
  st_wrap (persistOperationalSchemaMarker ctx operationalStateVersion)
    (λ e, Errorf "%w: persist operational schema marker after state commit: %v"
       [EErr ErrCommitOutcomeUnknown; EText e]).

(** ** Loading, with the migrations *)

(** [mergeLegacyJSON]: flat files in name order; the first record of a key wins. *)
Definition mergeLegacyJSON {A} (key : A → string) (directory target : gmap string A) : gmap string A :=
  foldl (λ target name,
    match directory !! name with
    | Some value =>
        if bool_decide (is_Some (target !! key value)) then target else <[key value := value]> target
    | None => target
    end) target (sort_strings (map_to_list directory).*1).

Definition with_migrated (s : operationalState) : operationalState :=
  MkOperationalState (os_Version s) (os_Revisions s) (os_Reviews s) (os_SyncRecords s)
    (os_ReleaseTracks s) (os_ReleaseTrackAuthorities s) (os_ReleaseAuthorizations s)
    (os_Publications s) (os_AuditEvents s) (os_Outbox s) (dom (os_Revisions s)).

(** A directory without state.json: the flat records of older versions. *)
Definition flat_state (w : World) : operationalState :=
  let s := with_migrated (with_Revisions (mergeLegacyJSON revisionStorageKey (w_revisions w)) newOperationalState) in
  MkOperationalState (os_Version s) (os_Revisions s) (os_Reviews s)
    (mergeLegacyJSON sy_ID (w_syncs w) (os_SyncRecords s))
    (os_ReleaseTracks s) (os_ReleaseTrackAuthorities s) (os_ReleaseAuthorizations s)
    (mergeLegacyJSON (λ p, publicationKey (pb_ProjectID p) (pb_RevisionID p)) (w_publications w) (os_Publications s))
    (os_AuditEvents s) (os_Outbox s) (os_migratedRevisions s).

Section file_store.
Context `{CaseTables}.

(** Migrate, check what the migrated state refers to, and publish it. *)
Definition migrate_and_publish (ctx : Ctx) (state : operationalState) (failed : error → error)
    : io operationalState :=
  migrated ← lift (migrateOperationalStateToCurrent state);
  lift (validateReleaseTrackAuthorities migrated) ;;
  lift (validateOperationalReferences migrated) ;;
  blobs ← gets w_blobs;
  lift (validateReferencedRevisionEvidence ctx blobs migrated (collectAuthoritativeRevisionReferences migrated)) ;;
  st_wrap (publishCurrentOperationalState ctx migrated) failed ;;
  mret migrated.

Definition load_versioned (ctx : Ctx) (marker : option Z) (state : operationalState) : io operationalState :=
  let version := os_Version state in
  let older_than bound := match marker with Some m => bound m | None => false end in
  let stale m := Errorf "operational state version %d is older than durable schema marker %d"
    [EInt version; EInt m] in
  if (version =? legacyOperationalStateVersion) || (version =? decisionOperationalStateVersion) then
    lift (throw_if (negb (bool_decide (os_ReleaseAuthorizations state = ∅)))
      (Errorf "operational state version %d contains authenticated release authority" [EInt version])) ;;
    lift (throw_if (older_than (λ m, authenticatedStateVersion <=? m)) (stale (default 0 marker))) ;;
    migrate_and_publish ctx state (λ e, Errorf "persist operational state v%d to v%d migration: %w"
      [EInt version; EInt operationalStateVersion; EErr e])
  else if version =? authenticatedStateVersion then
    lift (throw_if (older_than (λ m, authenticatedStateVersion <? m)) (stale (default 0 marker))) ;;
    migrate_and_publish ctx state (λ e, Errorf "persist authenticated operational state v%d to v%d migration: %w"
      [EInt authenticatedStateVersion; EInt operationalStateVersion; EErr e])
  else if version =? operationalStateVersion then
    lift (throw_if (older_than (λ m, operationalStateVersion <? m))
      (Errorf "unsupported durable operational schema marker %d" [EInt (default 0 marker)])) ;;
    lift (validateReleaseTrackAuthorities state) ;;
    lift (validateOperationalReferences state) ;;
    (if bool_decide (marker = None) || older_than (λ m, m <? operationalStateVersion) then
       st_wrap (persistOperationalSchemaMarker ctx operationalStateVersion)
         (λ e, Errorf "recover operational schema marker: %w" [EErr e])
     else mret tt) ;;
    mret state
  else lift (Fail (Errorf "unsupported operational state version %d" [EInt version])).

(** Check the flat revisions in key order; a record that waits for its
    snapshot stops nothing but forbids publishing yet. *)
Definition flat_evidence (ctx : Ctx) (blobs : gmap string (list Z)) (state : operationalState) : res bool :=
  fold_res (λ awaiting key,
    match os_Revisions state !! key with
    | None => mret awaiting
    | Some revision =>
        match validateRevisionEvidence ctx blobs revision with
        | Ok _ => mret awaiting
        | Fail e =>
            if legacyRevisionAwaitsEvidenceEnrichment revision then mret true
            else Fail (Errorf "validate legacy revision %q migration: %w" [EStr (cv_ID revision); EErr e])
        end
    end) false (sort_strings (map_to_list (os_Revisions state)).*1).

Definition load_flat (ctx : Ctx) : io operationalState :=
  state ← gets flat_state;
  if bool_decide (os_Revisions state = ∅) && bool_decide (os_Publications state = ∅)
     && bool_decide (os_SyncRecords state = ∅) then mret state
  else
    state ← lift (wrap_err (reconcileLegacyPublications state)
      (λ e, Errorf "reconcile legacy public paths: %w" [EErr e]));
    state ← lift (wrap_err (bindLegacyOperationalRevisionOwners state)
      (λ e, Errorf "migrate legacy revision ownership: %w" [EErr e]));
    lift (wrap_err (validateReleaseTrackAuthorities state)
      (λ e, Errorf "validate legacy release authority migration: %w" [EErr e])) ;;
    lift (wrap_err (validateOperationalReferences state)
      (λ e, Errorf "validate legacy operational references: %w" [EErr e])) ;;
    blobs ← gets w_blobs;
    awaiting ← lift (flat_evidence ctx blobs state);
    (if (awaiting : bool) then mret tt
     else st_wrap (publishCurrentOperationalState ctx state)
       (λ e, Errorf "persist legacy operational state migration: %w" [EErr e])) ;;
    mret state.

Definition loadOperationalStateLocked (ctx : Ctx) : io operationalState :=
  lift ctx ;;
  marker ← loadOperationalSchemaMarker ctx;
  stored ← gets w_state;
  match stored with
  | Some state => load_versioned ctx marker state
  | None =>
      match marker with
      | Some m => lift (Fail (Errorf "operational state is missing for durable schema marker %d" [EInt m]))
      | None => load_flat ctx
      end
  end.

(** ** [Within] *)

Definition begin_transaction (state : operationalState) : operationalTransaction :=
  MkOperationalTransaction state (os_ReleaseTracks state) (os_migratedRevisions state).

(** Everything after the callback. *)
Definition commit (ctx : Ctx) (previous : operationalState) (t : operationalTransaction) : io unit :=
  blobs ← gets w_blobs;
  lift (validateOperationalState ctx blobs previous (tx_state t) (tx_mutatedRevisions t)) ;;
  lift (validateCommittedReleaseTracks (tx_validatedReleaseTracks t) (os_ReleaseTracks (tx_state t))) ;;
  publishCurrentOperationalState ctx (tx_state t).

Definition FileStore_Within {C} (ctx : Ctx) (callback : stM (operationalTransaction * C) unit)
    : stM (World * C) unit := λ '(w, c),
  match (lift ctx ;; loadOperationalStateLocked ctx) w with
  | (w, Fail e) => ((w, c), Fail e)
  | (w, Ok state) =>
      let '((t, c), r) := callback (begin_transaction state, c) in
      match r with
      | Fail e => ((w, c), Fail e)
      | Ok _ => on_fst (commit ctx state t) (w, c)
      end
  end.

#[export] Instance file_unit_of_work : UnitOfWork World operationalTransaction := @FileStore_Within.

(** A single operation in a transaction of its own. *)
Definition within_unit (ctx : Ctx) (op : tx unit) : io unit := λ w,
  let '((w, _), r) := FileStore_Within (C:=unit) ctx (on_fst op) (w, tt) in (w, r).

Definition FileStore_SaveRevision (ctx : Ctx) (revision : ContractRevision) : io unit :=
  within_unit ctx (tx_SaveRevision ctx revision).
Definition FileStore_SavePublication (ctx : Ctx) (publication : Publication) : io unit :=
  within_unit ctx (tx_SavePublication ctx publication).
Definition FileStore_SaveSyncRecord (ctx : Ctx) (record : SyncRecord) : io unit :=
  within_unit ctx (tx_SaveSyncRecord ctx record).
Definition SaveReleaseAuthorization (ctx : Ctx) (authorization : ReleaseAuthorization) : io unit :=
  within_unit ctx (tx_saveReleaseAuthorization ctx authorization).

(** ** Reads *)

Definition FileStore_ContractRevision (ctx : Ctx) (contractID revisionID : string) : io ContractRevision :=
  lift (validateID contractID) ;;
  lift (validateID revisionID) ;;
  state ← loadOperationalStateLocked ctx;
  revision ← lift match revisionForContract state contractID revisionID with
    | Some revision => mret revision
    | None => Fail ErrNotExist
    end;
  lift (throw_if (negb (bool_decide (cv_ContractID revision = contractID)))
    (Errorf "revision %q belongs to contract %q, not %q"
       [EStr revisionID; EStr (cv_ContractID revision); EStr contractID])) ;;
  lift (throw_if (negb (bool_decide (cv_ID revision = revisionID)))
    (Errorf "revision lookup %q returned persisted id %q" [EStr revisionID; EStr (cv_ID revision)])) ;;
  blobs ← gets w_blobs;
  lift (wrap_err (validateRevisionEvidence ctx blobs revision)
    (λ e, Errorf "revision %q has invalid persisted evidence: %w" [EStr revisionID; EErr e])) ;;
  mret revision.

Definition FileStore_ReleaseEvidence (ctx : Ctx) (contractID trackID reviewID : string) : io ReleaseEvidence :=
  lift (for_each validateID [contractID; trackID; reviewID]) ;;
  state ← loadOperationalStateLocked ctx;
  authorization ← lift match os_ReleaseAuthorizations state !! reviewID with
    | Some authorization => mret authorization
    | None => Fail ErrNotExist
    end;
  lift (throw_if (negb (bool_decide (ra_ContractID authorization = contractID))
                  || negb (bool_decide (ra_TrackID authorization = trackID)))
    (Errorf "release authorization %q belongs to another track" [EStr reviewID])) ;;
  review ← lift match os_Reviews state !! ra_ReviewID authorization with
    | Some review => mret review
    | None => Fail (Errorf "release authorization %q has no persisted review" [EStr reviewID])
    end;
  syncRecord ← lift match os_SyncRecords state !! ra_SyncRecordID authorization with
    | Some syncRecord => mret syncRecord
    | None => Fail (Errorf "release authorization %q has no persisted sync" [EStr reviewID])
    end;
  blobs ← gets w_blobs;
  lift (wrap_err (validateReleaseAuthorizationRevisionEvidence ctx blobs state authorization)
    (λ e, Errorf "release authorization %q has unavailable evidence: %w" [EStr reviewID; EErr e])) ;;
  mret (MkReleaseEvidence authorization review syncRecord).

Definition FileStore_ReleaseTrack (ctx : Ctx) (contractID trackID : string) : io ReleaseTrack :=
  lift (validateID contractID) ;;
  lift (validateID trackID) ;;
  state ← loadOperationalStateLocked ctx;
  lift match os_ReleaseTracks state !! releaseTrackKey contractID trackID with
  | None => Fail ErrNotExist
  | Some track =>
      wrap_err (ValidateReleaseTrack track) (λ e, Errorf "invalid persisted release track: %w" [EErr e]) ;;
      mret track
  end.

Definition FileStore_SyncRecord (ctx : Ctx) (id : string) : io SyncRecord :=
  lift (validateID id) ;;
  state ← loadOperationalStateLocked ctx;
  flat ← gets (λ w, w_syncs w !! id);
  lift match os_SyncRecords state !! id with
  | Some record =>
      throw_if (negb (bool_decide (sy_ID record = id)))
        (Errorf "sync lookup %q returned persisted id %q" [EStr id; EStr (sy_ID record)]) ;;
      mret record
  | None =>
      ctx ;;
      match flat with
      | None => Fail ErrNotExist
      | Some record =>
          throw_if (negb (bool_decide (sy_ID record = id)))
            (Errorf "sync lookup %q returned persisted id %q" [EStr id; EStr (sy_ID record)]) ;;
          mret record
      end
  end.

Definition validatePublicationRevisionEvidence (ctx : Ctx) (blobs : gmap string (list Z))
    (state : operationalState) (publication : Publication) : res unit :=
  match revisionForContract state (pb_ProjectID publication) (pb_RevisionID publication) with
  | None => Fail (Errorf "public publication references missing contract revision" [])
  | Some revision =>
      wrap_err (validateRevisionEvidence ctx blobs revision)
        (λ e, Errorf "public publication revision evidence is unavailable: %w" [EErr e])
  end.

(** The publications a path may be served from: those of the state first, then
    the flat files in name order. *)
Definition path_candidates (w : World) (state : operationalState) : list Publication :=
  (map_to_list (os_Publications state)).*2
  ++ omap (λ name, w_publications w !! name) (sort_strings (map_to_list (w_publications w)).*1).

Definition PublicPublicationByPath (ctx : Ctx) (publicPath : string) : io Publication :=
  lift (validatePublicPath publicPath) ;;
  lift ctx ;;
  state ← loadOperationalStateLocked ctx;
  w ← gets (λ w, w);
  match filter (λ candidate, pb_Public candidate = true ∧ pb_Path candidate = publicPath) (path_candidates w state) with
  | [] => lift (Fail ErrNotExist)
  | candidate :: _ =>
      lift (validatePublicationRevisionEvidence ctx (w_blobs w) state candidate) ;;
      mret candidate
  end.

(** ** Blobs *)

Definition Put (ctx : Ctx) (data : list Z) : io string :=
  lift ctx ;;
  let key := ContentAddressedBlobKey data in
  lift (throw_if (negb (BlobKey_Valid key)) errUnsafeStorePath) ;;
  existing ← gets (λ w, w_blobs w !! key);
  match existing with
  | Some existing =>
      lift (throw_if (negb (bool_decide (ContentAddressedBlobKey existing = key)))
        (Errorf "stored blob %q failed its content identity" [EStr key])) ;;
      mret key
  | None =>
      durableAtomicWrite key (set_blob key data) ;;
      mret key
  end.

Definition Get (ctx : Ctx) (key : string) : io (list Z) :=
  lift ctx ;;
  lift (throw_if (negb (BlobKey_Valid key)) errUnsafeStorePath) ;;
  data ← gets (λ w, w_blobs w !! key);
  lift match data with
  | Some data => mret data
  | None => Fail ErrNotExist
  end.

#[export] Instance file_revision_reader : RevisionReader World := FileStore_ContractRevision.
#[export] Instance file_evidence_reader : ReleaseEvidenceReader World := FileStore_ReleaseEvidence.
#[export] Instance file_sync_reader : SyncRecordReader World := FileStore_SyncRecord.
#[export] Instance file_publication_reader : PublicationReader World := PublicPublicationByPath.
#[export] Instance file_authorizations : ReleaseAuthorizationWriter World := SaveReleaseAuthorization.
#[export] Instance file_blobs : BlobStore World := {| PutBlob := Put; GetBlob := Get |}.
End file_store.
