(* ===== verification/ReleaseService.v ===== *)
(** * Release coordination (application/release.go, application/errors.go)

    [Coordinate] turns a release command into a decision on a track.  It trusts
    nothing of the command but identities: the authorization, the review and
    the sync come from the store, the review is recomputed from the persisted
    snapshots, and the transition, its publication, its audit event and its
    outbox message are one transaction.  The service is stated against the
    ports; CoordinateSafety.v runs it on the file store. *)

From stdpp Require Import pretty.
From S2P Require Import Prelude GoString GoSha256 GoTime GoJson Identity Spec Snapshot SpecDiff.
From S2P Require Import Release.
From S2P Require Import Policy.
From S2P Require Import Review.
From S2P Require Import Records.
From S2P Require Import Ports.

(** ** Classified errors *)

Definition ErrorDependency : string := "dependency".
Definition ErrorValidation : string := "validation".
Definition ErrorInput : string := "input".
Definition ErrorSource : string := "source".
Definition ErrorParse : string := "parse".
Definition ErrorIntegrity : string := "integrity".
Definition ErrorEvaluation : string := "evaluation".
Definition ErrorTransaction : string := "transaction".
Definition ErrorCache : string := "cache".

Definition wrapError (kind operation : string) (err : error) : error := Classified kind operation err.

(** [validationError(operation, err.Error())]: the text of the cause. *)
Definition validationError (operation : string) (cause : error) : error :=
  wrapError ErrorValidation operation (Errorf "%s" [EText cause]).

Definition integrity {A} (m : res A) (w : error → error) : res A :=
  wrap_err m (λ e, wrapError ErrorIntegrity "coordinate release" (w e)).

(** ** Commands *)

Record ReleaseCommand := MkReleaseCommand {
  rc_ContractID : string;
  rc_TrackID : string;
  rc_RevisionID : string;
  rc_Accepted : bool;
  rc_Review : ContractReview;
  rc_SyncRecord : SyncRecord;
  rc_PublicPath : string;
  rc_ActorID : string;
}.

Definition ReleaseReviewMaxFutureSkew : Z := 5 * Minute.

Definition validateReleaseCommand (command : ReleaseCommand) : res unit :=
  wrap_err (validate_identities [
    ("contract id", rc_ContractID command, false);
    ("track id", rc_TrackID command, false);
    ("revision id", rc_RevisionID command, false);
    ("review id", rv_ID (rc_Review command), false);
    ("sync record id", sy_ID (rc_SyncRecord command), false);
    ("actor id", rc_ActorID command, true)]) (validationError "coordinate release") ;;
  wrap_err (ValidateCanonicalPublicPath "public path" (rc_PublicPath command) true)
    (validationError "coordinate release").

Definition validateSelectedReleaseEvidence (command : ReleaseCommand) (evidence : ReleaseEvidence) : res unit :=
  let authorization := re_Authorization evidence in
  wrap_err (ValidateReleaseAuthorization authorization)
    (λ e, Errorf "validate persisted release authorization: %w" [EErr e]) ;;
  throw_if (negb (bool_decide (ra_ContractID authorization = rc_ContractID command))
    || negb (bool_decide (ra_TrackID authorization = rc_TrackID command))
    || negb (bool_decide (ra_ReviewID authorization = rv_ID (rc_Review command)))
    || negb (bool_decide (ra_SyncRecordID authorization = sy_ID (rc_SyncRecord command)))
    || negb (bool_decide (ra_CandidateRevisionID authorization = rc_RevisionID command)))
    (Errorf "persisted release authorization does not match the selected command identity" []) ;;
  let review := re_Review evidence in
  throw_if (negb (bool_decide (rv_ID review = ra_ReviewID authorization))
    || negb (bool_decide (rv_ContractID review = ra_ContractID authorization))
    || negb (bool_decide (rv_BaselineRevisionID review = ra_BaselineRevisionID authorization))
    || negb (bool_decide (rv_CandidateRevisionID review = ra_CandidateRevisionID authorization))
    || negb (bool_decide (rr_PolicyDigest (rv_Report review) = ra_PolicyDigest authorization)))
    (Errorf "persisted review does not match its track authorization" []) ;;
  let syncRecord := re_SyncRecord evidence in
  throw_if (negb (bool_decide (sy_ID syncRecord = ra_SyncRecordID authorization))
    || negb (bool_decide (sy_ProjectID syncRecord = ra_ContractID authorization))
    || negb (bool_decide (sy_SourceID syncRecord = ra_SourceID authorization))
    || negb (bool_decide (sy_RevisionID syncRecord = ra_CandidateRevisionID authorization))
    || negb (bool_decide (sy_Ref syncRecord = ra_BoundRef authorization)))
    (Errorf "persisted sync does not match its track authorization" []) ;;
  if rc_Accepted command then
    throw_if (negb (bool_decide (rr_Verdict (rv_Report review) = VerdictPass)))
      (Errorf "accepted release requires a passing persisted review" []) ;;
    throw_if (negb (bool_decide (sy_Result syncRecord = SyncResultSuccess)))
      (Errorf "accepted release requires a successful persisted sync" [])
  else mret tt.

Definition validateReleaseRevisionIdentity (revision : ContractRevision)
    (contractID revisionID sourceID boundRef : string) : res unit :=
  throw_if (negb (bool_decide (cv_ContractID revision = contractID)) || negb (bool_decide (cv_ID revision = revisionID)))
    (Errorf "loaded revision identity does not match its authorized identity" []) ;;
  throw_if (negb (bool_decide (sourceID = "")) && negb (bool_decide (cv_SourceID revision = sourceID)))
    (Errorf "loaded revision source does not match its authorized source" []) ;;
  let refMatches := bool_decide (cv_Ref revision = boundRef)
    || (negb (bool_decide (cv_CommitSHA revision = "")) && bool_decide (cv_Ref revision = cv_CommitSHA revision)) in
  throw_if (negb (bool_decide (boundRef = "")) && negb refMatches)
    (Errorf "loaded revision ref does not match its authorized ref" []).

Definition validateReleaseAuthorizationForTrack (authorization : ReleaseAuthorization) (track : ReleaseTrack)
    : res unit :=
  throw_if (negb (bool_decide (rt_ContractID track = ra_ContractID authorization))
            || negb (bool_decide (rt_ID track = ra_TrackID authorization)))
    (Errorf "release authorization belongs to another track" []) ;;
  throw_if (negb (bool_decide (rt_BoundRef track = ra_BoundRef authorization)))
    (Errorf "release authorization ref does not match the persisted track" []).

Definition validateContractReviewSnapshots (review : ContractReview) (baseline candidate : ContractSnapshot)
    : res unit :=
  throw_if (negb (bool_decide (rv_BaselineRevisionID review = cs_RevisionID baseline))
    || negb (bool_decide (rv_BaselineSpecDigest review = cs_SpecDigest baseline))
    || negb (bool_decide (rv_BaselineContractDigest review = cs_ContractDigest baseline)))
    (Errorf "review baseline evidence does not match persisted canonical snapshot" []) ;;
  throw_if (negb (bool_decide (rv_CandidateRevisionID review = cs_RevisionID candidate))
    || negb (bool_decide (rv_CandidateSpecDigest review = cs_SpecDigest candidate))
    || negb (bool_decide (rv_CandidateContractDigest review = cs_ContractDigest candidate)))
    (Errorf "review candidate evidence does not match persisted canonical snapshot" []).

(** An exception the review applied must still be in force when it is used. *)
Definition validateAppliedExceptionsAtReleaseTime (report : ReviewReport) (now : Time) : res unit :=
  for_eachi (λ comparisonIndex comparison,
    for_eachi (λ exceptionIndex exception,
      throw_if (negb (Before now (pe_ExpiresAt exception)))
        (Errorf "applied policy exception %d in comparison %d is expired at trusted release time"
           [EInt exceptionIndex; EInt comparisonIndex]))
      (elems (pres_AppliedExceptions (cr_Policy comparison))))
    (elems (rr_Comparisons report)).

Definition releaseDecision (review : ContractReview) (accepted : bool) : res ReleaseDecision :=
  canonical ← CanonicalReviewJSON (rv_Report review);
  mret (MkReleaseDecision (rv_CandidateRevisionID review) (rv_ID review) (sha256Hex canonical)
          (rr_Verdict (rv_Report review)) accepted (rr_EvaluatedAt (rv_Report review))).

(** [fmt.Sprintf("%s\x00%s\x00%s\x00%s\x00%d\x00%t", ...)] *)
Definition releaseEvidencePreimage (authorization : ReleaseAuthorization) (accepted : bool) (generation : Z) : string :=
  let sep := of_bytes [0] in
  ra_ContractID authorization +:+ sep +:+ ra_TrackID authorization +:+ sep
  +:+ ra_CandidateRevisionID authorization +:+ sep +:+ ra_ReviewID authorization +:+ sep
  +:+ pretty generation +:+ sep +:+ (if accepted then "true" else "false").

Definition releaseEvidenceID (authorization : ReleaseAuthorization) (accepted : bool) (generation : Z) : string :=
  "audit-" +:+ String.substring 0 24 (sha256Hex (bytes_of (releaseEvidencePreimage authorization accepted generation))).

Section service.
Context `{CaseTables}.

Definition revisionReviewSnapshot (revision : ContractRevision) : res ContractSnapshot :=
  match cv_ReviewSnapshot revision with
  | None => Fail (Errorf "revision %q has no canonical review snapshot" [EStr (cv_ID revision)])
  | Some snapshot =>
      wrap_err (ValidateContractSnapshot snapshot)
        (λ e, Errorf "revision %q canonical review snapshot: %w" [EStr (cv_ID revision); EErr e]) ;;
      throw_if (negb (bool_decide (cs_ContractID snapshot = cv_ContractID revision))
                || negb (bool_decide (cs_RevisionID snapshot = cv_ID revision)))
        (Errorf "revision %q canonical review snapshot identity does not match revision" [EStr (cv_ID revision)]) ;;
      throw_if (negb (bool_decide (cs_SpecDigest snapshot = cv_SpecDigest revision))
                || negb (bool_decide (cs_ContractDigest snapshot = cv_ContractDigest revision)))
        (Errorf "revision %q digests do not match its canonical review snapshot" [EStr (cv_ID revision)]) ;;
      mret snapshot
  end.

(** ** The transaction *)

(** The variables of [Coordinate] its callback assigns. *)
Record coordination := MkCoordination {
  co_next : ReleaseTrack;
  co_temporalIntegrityFailure : bool;
}.

Definition zero_track : ReleaseTrack := MkReleaseTrack "" "" "" "" 0 "" "" None.
Definition no_coordination : coordination := MkCoordination zero_track false.

Definition set_next (t : ReleaseTrack) : stM coordination unit :=
  modify (λ c, MkCoordination t (co_temporalIntegrityFailure c)).
Definition temporal_failure : stM coordination unit :=
  modify (λ c, MkCoordination (co_next c) true).

Section callback.
Context {S : Type} `{!OperationalStore S}.

(** A check whose failure sets [temporalIntegrityFailure]. *)
Definition temporal_check (m : res unit) : stM (S * coordination) unit :=
  match m with
  | Ok _ => mret tt
  | Fail e => on_snd temporal_failure ;; lift (Fail e)
  end.

Definition baseline_mismatch (track : ReleaseTrack) (authorization : ReleaseAuthorization) : error :=
  Errorf "release track baseline %q does not match authorized review baseline %q"
    [EStr (rt_CurrentRevisionID track); EStr (ra_BaselineRevisionID authorization)].

(** The writes of an effective transition. *)
Definition record_transition (ctx : Ctx) (now : Time) (command : ReleaseCommand)
    (authorization : ReleaseAuthorization) (track next : ReleaseTrack) : stM S unit :=
  st_wrap (SaveReleaseTrack ctx (rt_Generation track) next) (λ e, Errorf "save release track: %w" [EErr e]) ;;
  (if rc_Accepted command && bool_decide (rt_CurrentRevisionID next = ra_CandidateRevisionID authorization) then
     st_wrap (SavePublication ctx (MkPublication (ra_ContractID authorization) (ra_CandidateRevisionID authorization)
                true (ra_PublicPath authorization) ""))
       (λ e, Errorf "save publication: %w" [EErr e])
   else mret tt) ;;
  let eventID := releaseEvidenceID authorization (rc_Accepted command) (rt_Generation next) in
  st_wrap (AppendAuditEvent ctx (MkAuditEvent eventID (ra_ContractID authorization) (ra_TrackID authorization)
             (ra_CandidateRevisionID authorization) "release.track.considered" (rc_ActorID command) now))
    (λ e, Errorf "append audit event: %w" [EErr e]) ;;
  st_wrap (Enqueue ctx (MkOutboxMessage ("outbox-" +:+ TrimPrefix eventID "audit-")
             (ra_ContractID authorization) (ra_TrackID authorization) (ra_CandidateRevisionID authorization)
             "release.track.updated" None now))
    (λ e, Errorf "enqueue release event: %w" [EErr e]).

Definition coordinate_callback (ctx : Ctx) (clock : Time) (command : ReleaseCommand)
    (evidence : ReleaseEvidence) (decision : ReleaseDecision) : stM (S * coordination) unit :=
  let authorization := re_Authorization evidence in
  let report := rv_Report (re_Review evidence) in
  track ← on_fst (st_wrap (LoadReleaseTrack ctx (rc_ContractID command) (rc_TrackID command))
    (λ e, Errorf "load release track: %w" [EErr e]));
  lift (wrap_err (ValidateReleaseTrack track) (λ e, Errorf "validate release track: %w" [EErr e])) ;;
  lift (validateReleaseAuthorizationForTrack authorization track) ;;
  lift (throw_if (negb (bool_decide (rt_CandidateRevisionID track = ""))
                  && negb (bool_decide (rt_CurrentRevisionID track = ra_BaselineRevisionID authorization)))
    (baseline_mismatch track authorization)) ;;
  if bool_decide (rt_LastDecision track = Some decision) then on_snd (set_next track)
  else
    let now := ToUTC clock in
    temporal_check (throw_if (IsZero now) (Errorf "trusted release time is required" [])) ;;
    temporal_check (throw_if (After (rr_EvaluatedAt report) (TimeAdd now ReleaseReviewMaxFutureSkew))
      (Errorf "release review evaluation time exceeds trusted clock skew" [])) ;;
    temporal_check (validateAppliedExceptionsAtReleaseTime report now) ;;
    match ConsiderReleaseDecision track decision with
    | Fail e => on_snd (set_next zero_track) ;; lift (Fail (Errorf "apply release transition: %w" [EErr e]))
    | Ok (next, changed) =>
        on_snd (set_next next) ;;
        if negb changed then mret tt
        else
          lift (throw_if (negb (bool_decide (rt_CurrentRevisionID track = ra_BaselineRevisionID authorization)))
            (baseline_mismatch track authorization)) ;;
          on_fst (record_transition ctx now command authorization track next)
    end.
End callback.

(** ** Coordinate *)

Section coordinate.
Context {W S : Type}.
Context `{!OperationalStore S, !UnitOfWork W S, !RevisionReader W, !ReleaseEvidenceReader W}.

(** What precedes the transaction: the evidence, bound to the command, to the
    persisted revisions and to their snapshots. *)
Definition coordinate_evidence (ctx : Ctx) (command : ReleaseCommand) : stM W (ReleaseEvidence * ReleaseDecision) :=
  lift (validateReleaseCommand command) ;;
  evidence ← st_wrap (ReadReleaseEvidence ctx (rc_ContractID command) (rc_TrackID command) (rv_ID (rc_Review command)))
    (λ e, wrapError ErrorIntegrity "coordinate release" (Errorf "load persisted release evidence: %w" [EErr e]));
  lift (integrity (validateSelectedReleaseEvidence command evidence) id) ;;
  let authorization := re_Authorization evidence in
  baselineRevision ← st_wrap (ReadContractRevision ctx (rc_ContractID command) (ra_BaselineRevisionID authorization))
    (λ e, wrapError ErrorIntegrity "coordinate release" (Errorf "load release review baseline: %w" [EErr e]));
  candidateRevision ← st_wrap (ReadContractRevision ctx (rc_ContractID command) (ra_CandidateRevisionID authorization))
    (λ e, wrapError ErrorIntegrity "coordinate release" (Errorf "load release review candidate: %w" [EErr e]));
  lift (integrity (validateReleaseRevisionIdentity baselineRevision (ra_ContractID authorization)
                     (ra_BaselineRevisionID authorization) "" "")
    (λ e, Errorf "bind release baseline revision: %w" [EErr e])) ;;
  lift (integrity (validateReleaseRevisionIdentity candidateRevision (ra_ContractID authorization)
                     (ra_CandidateRevisionID authorization) (ra_SourceID authorization) (ra_BoundRef authorization))
    (λ e, Errorf "bind release candidate revision: %w" [EErr e])) ;;
  lift (integrity (throw_if (negb (bool_decide (cv_CommitSHA candidateRevision = sy_CommitSHA (re_SyncRecord evidence))))
    (Errorf "bind release candidate revision: loaded revision commit does not match its authorized sync" [])) id) ;;
  baselineSnapshot ← lift (integrity (revisionReviewSnapshot baselineRevision)
    (λ e, Errorf "validate release review baseline: %w" [EErr e]));
  candidateSnapshot ← lift (integrity (revisionReviewSnapshot candidateRevision)
    (λ e, Errorf "validate release review candidate: %w" [EErr e]));
  lift (integrity (validateContractReviewSnapshots (re_Review evidence) baselineSnapshot candidateSnapshot)
    (λ e, Errorf "bind release review to persisted revisions: %w" [EErr e])) ;;
  lift (integrity (ValidateReleaseReviewReportAgainstSnapshots (rv_Report (re_Review evidence))
                     (rc_ContractID command) baselineSnapshot candidateSnapshot)
    (λ e, Errorf "validate release review against persisted revisions: %w" [EErr e])) ;;
  decision ← lift (integrity (releaseDecision (re_Review evidence) (rc_Accepted command))
    (λ e, Errorf "identify release decision: %w" [EErr e]));
  mret (evidence, decision).

(** The transaction; [clock] is what [s.clock.Now] answers inside it. *)
Definition commit_decision (ctx : Ctx) (clock : Time) (command : ReleaseCommand)
    (evidence : ReleaseEvidence) (decision : ReleaseDecision) : stM W ReleaseTrack := λ w,
  let '((w, c), r) := Within ctx (coordinate_callback (S:=S) ctx clock command evidence decision)
                        (w, no_coordination) in
  match r with
  | Ok _ => (w, Ok (co_next c))
  | Fail e =>
      let kind := if co_temporalIntegrityFailure c then ErrorIntegrity else ErrorTransaction in
      (w, Fail (wrapError kind "coordinate release" e))
  end.

Definition Coordinate (ctx : Ctx) (clock : Time) (command : ReleaseCommand) : stM W ReleaseTrack :=
  selected ← coordinate_evidence ctx command;
  commit_decision ctx clock command selected.1 selected.2.
End coordinate.
End service.

(** ** The callback touches the store only through its operations *)

Section client.
Context {S : Type} `{!OperationalStore S}.

Lemma record_transition_program ctx now command a track next :
  store_program ctx (record_transition (S:=S) ctx now command a track next).
Proof.
  unfold record_transition. apply program_bind; [|intros ?; apply program_bind; [apply program_if|intros ?; apply program_bind; [|intros ?]]].
  - apply program_wrap, program_effect. intros s. constructor.
  - apply program_wrap, program_effect. intros s. constructor.
  - intros s. apply rtc_refl.
  - apply program_wrap, program_effect. intros s. constructor.
  - apply program_wrap, program_effect. intros s. constructor.
Qed.

Lemma temporal_check_client ctx m : client ctx (temporal_check (S:=S) m).
Proof. unfold temporal_check. destruct m; [apply client_ret|apply client_bind; auto with client]. Qed.

Lemma coordinate_client ctx clock command evidence decision :
  store_client ctx (coordinate_callback (S:=S) ctx clock command evidence decision).
Proof.
  change (client (S:=S) ctx (coordinate_callback ctx clock command evidence decision)).
  unfold coordinate_callback. apply client_bind; [|intros track].
  { apply client_on_fst, program_wrap, program_effect. intros s. constructor. }
  repeat (apply client_bind; [apply client_lift|intros _]).
  case_bool_decide; [apply client_on_snd|].
  repeat (apply client_bind; [apply temporal_check_client|intros _]).
  destruct (ConsiderReleaseDecision track decision) as [[next changed]|e];
    (apply client_bind; [apply client_on_snd|intros _]); [|apply client_lift].
  destruct (negb changed); [apply client_ret|]. apply client_bind; [apply client_lift|intros _].
  apply client_on_fst, record_transition_program.
Qed.
End client.
