(* ===== verification/Fixture.v ===== *)
(** * The release authority fixture (contracttest/releaseauthority.go)

    The history every store of the release ports is tested on: two revisions
    with their blobs, a passing review of the second against the first, a
    successful sync, a track that serves the first and an authorization of the
    step between them.  It is written against the ports; the witnesses of the
    store's properties run it on a file store. *)

From stdpp Require Import pretty.
From S2P Require Import Prelude GoString GoSha256 GoTime GoJson Identity Spec Snapshot SpecDiff.
From S2P Require Import Release.
From S2P Require Import Policy.
From S2P Require Import Review.
From S2P Require Import Records.
From S2P Require Import Ports.
From S2P Require Import StoreState.
From S2P Require Import StoreTx.
From S2P Require Import FileStore.
From S2P Require Import ReleaseService.

Record releaseAuthorityEvidence := MkReleaseAuthorityEvidence {
  rae_baselineSpec : list Z;
  rae_candidateSpec : list Z;
  rae_baseline : ReleaseTrack;
  rae_next : ReleaseTrack;
  rae_review : ContractReview;
  rae_syncRecord : SyncRecord;
  rae_authorization : ReleaseAuthorization;
}.

(** [domain.SpecIndex{}] *)
Definition empty_index : SpecIndex := plain_index "" [] [].

(** 2026-07-25T12:00:00Z *)
Definition evaluated_at : Time := MkTime ((62135596800 + 1784980800) * 1000000000) LocUTC.

Example evaluated_at_date : format_time evaluated_at = "2026-07-25T12:00:00Z".
Proof. vm_compute. reflexivity. Qed.

Definition repository_default : PolicyLayer :=
  MkPolicyLayer "repository-default" PolicySourceRepository false ∅ [].

Section fixture.
Context `{CaseTables}.

(** [mode] is pinned in the contract tests. *)
Definition newReleaseAuthorityEvidence (mode : string) : res releaseAuthorityEvidence :=
  let baselineSpec := bytes_of "contracttest baseline" in
  let candidateSpec := bytes_of "contracttest candidate" in
  let baselineSnapshot := NewContractSnapshot "contract" "revision-good" baselineSpec empty_index in
  let candidateSnapshot := NewContractSnapshot "contract" "revision-next" candidateSpec empty_index in
  policy ← MergePolicy [repository_default];
  evaluated ← EvaluateReview (MkReviewRequest "contract" baselineSnapshot candidateSnapshot
    (Some baselineSnapshot) policy evaluated_at "contracttest");
  match elems (rr_Comparisons evaluated) with
  | _ :: comparison :: _ =>
      let report := release_part evaluated comparison in
      let review := MkContractReview "review-next" "contract"
        (cs_RevisionID baselineSnapshot) (cs_SpecDigest baselineSnapshot) (cs_ContractDigest baselineSnapshot)
        (cs_RevisionID candidateSnapshot) (cs_SpecDigest candidateSnapshot) (cs_ContractDigest candidateSnapshot)
        report in
      canonical ← CanonicalReviewJSON report;
      let decision := MkReleaseDecision (rv_CandidateRevisionID review) (rv_ID review)
        (hex_encode (sha256 canonical)) (rr_Verdict report) false evaluated_at in
      let baseline := MkReleaseTrack "stable" "contract" "refs/heads/main" mode 0
        (rv_BaselineRevisionID review) "" None in
      considered ← ConsiderReleaseDecision baseline decision;
      let syncRecord := MkSyncRecord "sync-next" "contract" "source-main" (rv_CandidateRevisionID review) ""
        (rt_BoundRef baseline) "" "" SyncResultSuccess "" (TimeAdd evaluated_at (- Minute)) evaluated_at in
      mret (MkReleaseAuthorityEvidence baselineSpec candidateSpec baseline considered.1 review syncRecord
        (MkReleaseAuthorization "contract" (rt_ID baseline) (rv_ID review) (sy_ID syncRecord)
           (rv_BaselineRevisionID review) (rv_CandidateRevisionID review) (sy_SourceID syncRecord)
           (rt_BoundRef baseline) "/contract/stable" (rr_PolicyDigest report)))
  | _ => Fail (Errorf "the review has no release comparison" [])
  end.

(** The revision of a snapshot, as the fixture saves it. *)
Definition fixture_revision (evidence : releaseAuthorityEvidence) (key : string) (s : ContractSnapshot) : ContractRevision :=
  MkContractRevision (cs_RevisionID s) (cs_ContractID s) (ra_SourceID (rae_authorization evidence)) key
    (cs_SpecDigest s) (cs_ContractDigest s) (Some s) (ra_BoundRef (rae_authorization evidence)) "" "" "" "" "".

Section seed.
Context {W S : Type} `{!OperationalStore S, !UnitOfWork W S, !BlobStore W, !ReleaseAuthorizationWriter W}.

(** The transaction that saves everything the authorization refers to. *)
Definition seed_operational (ctx : Ctx) (evidence : releaseAuthorityEvidence)
    (baselineKey candidateKey : string) : stM S unit :=
  let review := rae_review evidence in
  SaveRevision ctx (fixture_revision evidence baselineKey
    (NewContractSnapshot (rv_ContractID review) (rv_BaselineRevisionID review) (rae_baselineSpec evidence) empty_index)) ;;
  SaveRevision ctx (fixture_revision evidence candidateKey
    (NewContractSnapshot (rv_ContractID review) (rv_CandidateRevisionID review) (rae_candidateSpec evidence) empty_index)) ;;
  SaveReview ctx review ;;
  SaveSyncRecord ctx (rae_syncRecord evidence) ;;
  SaveReleaseTrack ctx 0 (rae_baseline evidence).

Definition seedReleaseAuthorityFixture (ctx : Ctx) (mode : string) (withAuthorization : bool)
    : stM W releaseAuthorityEvidence :=
  evidence ← lift (newReleaseAuthorityEvidence mode);
  baselineKey ← PutBlob ctx (rae_baselineSpec evidence);
  candidateKey ← PutBlob ctx (rae_candidateSpec evidence);
  (λ w, let '((w, _), r) := Within (C:=unit) ctx (on_fst (seed_operational ctx evidence baselineKey candidateKey)) (w, tt)
        in (w, r)) ;;
  (if (withAuthorization : bool) then WriteReleaseAuthorization ctx (rae_authorization evidence) else mret tt) ;;
  mret evidence.

Definition appendReleaseAuthorityEffects (ctx : Ctx) (evidence : releaseAuthorityEvidence) : stM S unit :=
  let a := rae_authorization evidence in
  let '(accepted, at_) := match rt_LastDecision (rae_next evidence) with
    | Some d => (rd_Accepted d, rd_EvaluatedAt d)
    | None => (false, zero_time)
    end in
  let eventID := releaseEvidenceID a accepted (rt_Generation (rae_next evidence)) in
  AppendAuditEvent ctx (MkAuditEvent eventID (ra_ContractID a) (ra_TrackID a) (ra_CandidateRevisionID a)
    "release.track.considered" "" at_) ;;
  Enqueue ctx (MkOutboxMessage ("outbox-" +:+ TrimPrefix eventID "audit-") (ra_ContractID a) (ra_TrackID a)
    (ra_CandidateRevisionID a) "release.track.updated" None at_).
End seed.
End fixture.

(** ** The fixture on a file store *)

Definition empty_world : World := MkWorld None None ∅ ∅ ∅ ∅ [].

Definition seed (mode : string) (withAuthorization : bool) : World * res releaseAuthorityEvidence :=
  @seedReleaseAuthorityFixture latin1 World operationalTransaction
    (@transaction_store latin1) (@file_unit_of_work latin1) (@file_blobs latin1) (@file_authorizations latin1)
    (Ok tt) mode withAuthorization empty_world.

Definition ok_value {A} (r : res A) : option A :=
  match r with
  | Ok a => Some a
  | Fail _ => None
  end.

(** The command of a client that asks for the authorized step. *)
Definition release_command (accepted : bool) (evidence : releaseAuthorityEvidence) : ReleaseCommand :=
  let a := rae_authorization evidence in
  MkReleaseCommand (ra_ContractID a) (ra_TrackID a) (ra_CandidateRevisionID a) accepted
    (rae_review evidence) (rae_syncRecord evidence) (ra_PublicPath a) "actor".

(** [Coordinate] on a file store. *)
Definition file_coordinate `{CaseTables} : Ctx → Time → ReleaseCommand → stM World ReleaseTrack :=
  @Coordinate _ World operationalTransaction transaction_store file_unit_of_work
    file_revision_reader file_evidence_reader.
Definition file_coordinate_evidence `{CaseTables} : Ctx → ReleaseCommand → stM World (ReleaseEvidence * ReleaseDecision) :=
  @coordinate_evidence _ World file_revision_reader file_evidence_reader.

(** The callback of the transaction of [Coordinate] on the fixture. *)
Definition selected_callback `{CaseTables} (clock : Time) (command : ReleaseCommand)
    (selected : option (ReleaseEvidence * ReleaseDecision)) : stM (operationalTransaction * coordination) unit :=
  match selected with
  | None => lift (Fail (Errorf "no evidence" []))
  | Some (evidence, decision) =>
      @coordinate_callback operationalTransaction transaction_store (Ok tt) clock command evidence decision
  end.

Lemma selected_callback_client `{CaseTables} clock command selected :
  store_client (S:=operationalTransaction) (Ok tt) (selected_callback clock command selected).
Proof. destruct selected as [[evidence decision]|]; [apply coordinate_client|intros s c; apply rtc_refl]. Qed.

(** What the seeding leaves for a following track, evaluated once. *)
Definition zero_command : ReleaseCommand := MkReleaseCommand "" "" "" false zero_review zero_sync "" "".
Definition seeded_world : World := Eval vm_compute in (seed ReleaseModeFollowing true).1.
Definition seeded_state : operationalState := Eval vm_compute in default newOperationalState (w_state seeded_world).
Definition fixture_command : ReleaseCommand := Eval vm_compute in
  default zero_command (release_command true <$> ok_value (seed ReleaseModeFollowing true).2).
Definition fixture_selected : option (ReleaseEvidence * ReleaseDecision) := Eval vm_compute in
  ok_value (@file_coordinate_evidence latin1 (Ok tt) fixture_command seeded_world).2.

(** The commit of an accepted decision on the fixture's track. *)
Definition fixture_callback : stM (operationalTransaction * coordination) unit :=
  @selected_callback latin1 evaluated_at fixture_command fixture_selected.

(** ** A small store: two revisions, a track and a public route *)

Definition small_spec : list Z := bytes_of "openapi: 3.1.0".
Definition small_revision (id blob : string) : ContractRevision :=
  MkContractRevision id "c" "src" blob "" "" None "main" "" "" "" "" "".
Definition small_track : ReleaseTrack := MkReleaseTrack "t" "c" "main" ReleaseModePinned 0 "r1" "" None.
Definition small_publication (revision : string) : Publication := MkPublication "c" revision true "/c" "".

Definition small_program : io unit :=
  key ← @Put latin1 (Ok tt) small_spec;
  @within_unit latin1 (Ok tt)
    (@tx_SaveRevision latin1 (Ok tt) (small_revision "r1" key) ;;
     @tx_SaveRevision latin1 (Ok tt) (small_revision "r2" key) ;;
     tx_SaveReleaseTrack (Ok tt) 0 small_track ;;
     tx_SavePublication (Ok tt) (small_publication "r1")).

Definition small_world : World := Eval vm_compute in (small_program empty_world).1.
Definition small_state : operationalState := Eval vm_compute in default newOperationalState (w_state small_world).

(** A client that publishes the other revision on the same path. *)
Definition small_callback : stM (operationalTransaction * unit) unit :=
  on_fst (tx_SavePublication (Ok tt) (small_publication "r2")).

Lemma small_callback_client : @store_client operationalTransaction unit (@transaction_store latin1) (Ok tt) small_callback.
Proof.
  unfold small_callback. intros s c. unfold on_fst. cbn [fst snd].
  destruct (tx_SavePublication _ _ s) as [s1 r] eqn:E. cbn [fst]. apply rtc_once.
  replace s1 with (tx_SavePublication (Ok tt) (small_publication "r2") s).1 by (by rewrite E).
  apply (effect_publication (H:=@transaction_store latin1)).
Qed.

(** ** Results of runs *)

Lemma run_ok {W C A} (p : W * C * res A) a : p.2 = Ok a → p = ((p.1.1, p.1.2), Ok a).
Proof. by destruct p as [[w c] r]; simpl; intros ->. Qed.

Definition result_track (r : res ReleaseTrack) : ReleaseTrack := default zero_track (ok_value r).

Lemma result_ok {W} (p : W * res ReleaseTrack) (t : ReleaseTrack) :
  bool_decide (ok_value p.2 = Some t) = true → p = (p.1, Ok t).
Proof. destruct p as [w [a|e]]; simpl; intros E; bool_prop; congruence. Qed.

Definition failure {A} (r : res A) : error :=
  match r with
  | Ok _ => Errorf "" []
  | Fail e => e
  end.

Lemma pair_ok {W A} (p : W * res A) (a : A) : p.2 = Ok a → p = (p.1, Ok a).
Proof. destruct p as [w r]; simpl. by intros ->. Qed.

Lemma result_fail {W A} (p : W * res A) :
  match ok_value p.2 with Some _ => false | None => true end = true → p = (p.1, Fail (failure p.2)).
Proof. by destruct p as [w [a|e]]. Qed.
