(* ===== verification/StoreInvariant.v ===== *)
(** * What a transaction can do to the operational state

    Lemmas over internal/adapters/store/fs.go: what each check of a commit
    means, and how the operations of a transaction move the state — evidence
    is only added, a track only takes validated transitions, a revision keeps
    its identity.  FileStore properties build on them. *)

From stdpp Require Import pretty.
From S2P Require Import Prelude GoString GoSha256 GoTime GoJson Identity Spec Snapshot SpecDiff.
From S2P Require Import Release.
From S2P Require Import Policy.
From S2P Require Import Review.
From S2P Require Import Records.
From S2P Require Import Ports.
From S2P Require Import StoreState.
From S2P Require Import StoreTx.

(** ** How the state moves *)

(** One write of a track. *)
Inductive track_write : option ReleaseTrack → option ReleaseTrack → Prop :=
  | write_first t : validateReleaseTrackInitialization t = Ok tt → track_write None (Some t)
  | write_next a b : ValidateReleaseTrackTransition a b = Ok tt → track_write (Some a) (Some b).

(** A revision under its contract with a review snapshot, as it was read from
    disk. *)
Definition complete (r : ContractRevision) : Prop :=
  cv_ContractID r ≠ "" ∧ is_Some (cv_ReviewSnapshot r) ∧ reread r = r.

(** The same evidence: all fields but the ref, which may have become the
    commit it was resolved to. *)
Definition same_evidence (r r' : ContractRevision) : Prop :=
  with_ref "" r' = with_ref "" r
  ∧ (cv_Ref r' = cv_Ref r ∨ cv_CommitSHA r' ≠ "" ∧ cv_Ref r' = cv_CommitSHA r')
  ∧ reread r' = r'.

Definition revisions_grow (m m' : gmap string ContractRevision) : Prop :=
  ∀ k r, m !! k = Some r → complete r → ∃ r', m' !! k = Some r' ∧ same_evidence r r'.

Lemma same_evidence_complete r r' : same_evidence r r' → complete r → complete r'.
Proof.
  intros (E & _ & Hr) (Hc & Hs & _). split_and!; [|..|done].
  - apply (f_equal cv_ContractID) in E. simpl in E. by rewrite E.
  - apply (f_equal cv_ReviewSnapshot) in E. simpl in E. by rewrite E.
Qed.

#[export] Instance revisions_grow_preorder : PreOrder revisions_grow.
Proof.
  split; [intros m k r Hr Hc; exists r; split; [done|split_and!; [done|by left|apply Hc]]|].
  intros m1 m2 m3 H12 H23 k r Hr Hc. destruct (H12 k r Hr Hc) as (r2 & Hr2 & Hs2).
  destruct (H23 k r2 Hr2 (same_evidence_complete _ _ Hs2 Hc)) as (r3 & Hr3 & Hs3).
  exists r3. split; [done|]. destruct Hs2 as (E2 & R2 & _), Hs3 as (E3 & R3 & ?).
  split_and!; [congruence| |done]. destruct R3 as [->|R3]; [|by right].
  destruct R2 as [?|[? ?]]; [by left|right].
  apply (f_equal cv_CommitSHA) in E3. simpl in E3. by rewrite E3.
Qed.

(** Evidence is only added and tracks take validated steps. *)
Record evolves (s s' : operationalState) : Prop := {
  ev_revisions : revisions_grow (os_Revisions s) (os_Revisions s');
  ev_version : os_Version s' = os_Version s;
  ev_reviews : os_Reviews s ⊆ os_Reviews s';
  ev_syncs : os_SyncRecords s ⊆ os_SyncRecords s';
  ev_authorizations : os_ReleaseAuthorizations s ⊆ os_ReleaseAuthorizations s';
  ev_audits : os_AuditEvents s ⊆ os_AuditEvents s';
  ev_outbox : os_Outbox s ⊆ os_Outbox s';
  ev_tracks : ∀ k, rtc track_write (os_ReleaseTracks s !! k) (os_ReleaseTracks s' !! k);
}.

#[export] Instance evolves_preorder : PreOrder evolves.
Proof.
  split; [intros s; split; reflexivity|].
  intros s1 s2 s3 [R1 V1 A1 B1 C1 D1 E1 F1] [R2 V2 A2 B2 C2 D2 E2 F2].
  split; [by etrans|congruence|by etrans..|]. intros k. by eapply rtc_trans; [apply F1|apply F2].
Qed.

Definition tx_evolves (t t' : operationalTransaction) : Prop :=
  evolves (tx_state t) (tx_state t')
  ∧ (tx_validatedReleaseTracks t = os_ReleaseTracks (tx_state t) →
     tx_validatedReleaseTracks t' = os_ReleaseTracks (tx_state t')).

#[export] Instance tx_evolves_preorder : PreOrder tx_evolves.
Proof.
  split; [intros t; split; [reflexivity|done]|]. intros t1 t2 t3 [H1 H2] [H3 H4].
  split; [by etrans|auto].
Qed.

(** Only the revisions and the set of mutated revisions may differ. *)
Record quiet (t t' : operationalTransaction) : Prop := {
  qu_state : tx_state t' = with_Revisions (λ _, os_Revisions (tx_state t')) (tx_state t);
  qu_validated : tx_validatedReleaseTracks t' = tx_validatedReleaseTracks t;
  qu_revisions : revisions_grow (os_Revisions (tx_state t)) (os_Revisions (tx_state t'));
}.

#[export] Instance quiet_preorder : PreOrder quiet.
Proof.
  split; [intros t; split; [by destruct t as [[]]|done|reflexivity]|].
  intros t1 t2 t3 [H1 H2 H5] [H3 H4 H6]. split; [|congruence|by etrans]. rewrite H3, H1. by destruct t1 as [[]].
Qed.

Lemma quiet_evolves t t' : quiet t t' → tx_evolves t t'.
Proof.
  intros [Hs Hv Hr]. split; [|by rewrite Hs, Hv].
  rewrite Hs. split; try reflexivity. by rewrite <-Hs.
Qed.

Lemma bindRevisionOwner_quiet c r o s :
  (bindRevisionOwner c r o s).1 = with_Revisions (λ _, os_Revisions (bindRevisionOwner c r o s).1) s.
Proof. unfold bindRevisionOwner. destruct s. repeat case_match; done. Qed.

(** Binding touches only a record nobody owns. *)
Lemma bindRevisionOwner_grows c r o s :
  revisions_grow (os_Revisions s) (os_Revisions (bindRevisionOwner c r o s).1).
Proof.
  unfold bindRevisionOwner. case_bool_decide as Hc; [done|].
  destruct (os_Revisions s !! revisionKey c r) as [x|] eqn:Ek; [by case_match|].
  destruct (os_Revisions s !! r) as [x|] eqn:Er; [|done].
  case_bool_decide; [done|]. case_bool_decide as Hu; [|done]. simpl.
  intros k y Hy Hco. exists y. split; [|split_and!; [done|by left|apply Hco]].
  rewrite lookup_insert_ne, lookup_delete_ne; [done| |]; intros <-; [|congruence].
  rewrite Er in Hy. injection Hy as ->. by destruct Hco as [? _].
Qed.

Lemma tx_bind_quiet c r o : keeps quiet (tx_bindRevisionOwner c r o).
Proof.
  intros t. unfold tx_bindRevisionOwner. pose proof (bindRevisionOwner_quiet c r o (tx_state t)) as Hq.
  pose proof (bindRevisionOwner_grows c r o (tx_state t)) as Hg.
  destruct (bindRevisionOwner c r o (tx_state t)) as [s [b|e]]; simpl in *; [|done].
  by split.
Qed.

(** Steps that only prepare a write. *)
Lemma quiet_step {A B} (m : tx A) (f : A → tx B) (R : operationalTransaction → operationalTransaction → Prop) t0 t :
  quiet t0 t → keeps quiet m → (∀ t, quiet t0 t → R t0 t) →
  (∀ a t1, quiet t0 t1 → R t0 (f a t1).1) → R t0 ((m ≫= f) t).1.
Proof.
  intros Hq Hm HR Hf. unfold mbind, stM_bind. specialize (Hm t).
  destruct (m t) as [t1 [a|e]]; simpl in *; [apply Hf|apply HR]; by etrans.
Qed.

Lemma quiet_gets {A B} (g : operationalTransaction → A) (f : A → tx B)
    (R : operationalTransaction → operationalTransaction → Prop) t0 t :
  R t0 (f (g t) t).1 → R t0 ((gets g ≫= f) t).1.
Proof. done. Qed.

Lemma keeps_if {S A} (R : S → S → Prop) (b : bool) (m1 m2 : stM S A) :
  keeps R m1 → keeps R m2 → keeps R (if b then m1 else m2).
Proof. by destruct b. Qed.




Lemma lift_step {A B} (r : res A) (f : A → tx B)
    (R : operationalTransaction → operationalTransaction → Prop) t0 t :
  R t0 t → (∀ a, r = Ok a → R t0 (f a t).1) → R t0 ((lift r ≫= f) t).1.
Proof. intros HR Hf. unfold mbind, stM_bind, lift. destruct r as [a|e]; [by apply Hf|done]. Qed.

(** A write after quiet steps. *)
Lemma quiet_write t0 t t' : quiet t0 t → tx_evolves t t' → tx_evolves t0 t'.
Proof. intros Hq Ht. etrans; [by apply quiet_evolves|done]. Qed.

(** Walk over the preparation of an operation down to its write. *)
Ltac quiet_steps :=
  repeat match goal with
  | |- tx_evolves ?t0 ((gets _ ≫= _) ?t).1 => apply (quiet_gets _ _ tx_evolves); cbv beta
  | |- tx_evolves ?t0 ((lift _ ≫= _) ?t).1 =>
      apply (lift_step _ _ tx_evolves); [first [reflexivity|by apply quiet_evolves]|intros ? ?]
  | |- tx_evolves ?t0 ((_ ≫= _) ?t).1 =>
      apply (quiet_step _ _ tx_evolves t0 t);
        [assumption || reflexivity
        |first [apply keeps_if; [apply tx_bind_quiet|apply keeps_ret; apply _]
               |apply keeps_if; [apply keeps_ret; apply _|apply tx_bind_quiet]
               |apply tx_bind_quiet]
        |by apply quiet_evolves|]; intros ? ? ?
  | |- tx_evolves ?t0 (lift _ ?t).1 => by apply quiet_evolves
  | |- tx_evolves ?t0 (mret _ ?t).1 => by apply quiet_evolves
  end.

(** ** The operations *)

Section operations.
Context `{CaseTables}.

Lemma SaveReview_evolves ctx r : keeps tx_evolves (tx_SaveReview ctx r).
Proof.
  intros t. unfold tx_SaveReview. quiet_steps. destruct (os_Reviews (tx_state _) !! _) eqn:E; quiet_steps.
  eapply quiet_write; [done|]. split; [|done]. split; simpl; try reflexivity. by apply insert_subseteq.
Qed.

Lemma SaveSyncRecord_evolves ctx r : keeps tx_evolves (tx_SaveSyncRecord ctx r).
Proof.
  intros t. unfold tx_SaveSyncRecord. quiet_steps. destruct (os_SyncRecords (tx_state _) !! _) eqn:E; quiet_steps.
  eapply quiet_write; [done|]. split; [|done]. split; simpl; try reflexivity. by apply insert_subseteq.
Qed.

Lemma saveReleaseAuthorization_evolves ctx a : keeps tx_evolves (tx_saveReleaseAuthorization ctx a).
Proof.
  intros t. unfold tx_saveReleaseAuthorization. quiet_steps.
  destruct (os_ReleaseAuthorizations (tx_state _) !! _) eqn:E; quiet_steps.
  split; [|done]. split; simpl; try reflexivity. by apply insert_subseteq.
Qed.

Lemma AppendAuditEvent_evolves ctx e : keeps tx_evolves (tx_AppendAuditEvent ctx e).
Proof.
  intros t. unfold tx_AppendAuditEvent. quiet_steps. destruct (os_AuditEvents (tx_state _) !! _) eqn:E; quiet_steps.
  eapply quiet_write; [done|]. split; [|done]. split; simpl; try reflexivity. by apply insert_subseteq.
Qed.

Lemma Enqueue_evolves ctx m : keeps tx_evolves (tx_Enqueue ctx m).
Proof.
  intros t. unfold tx_Enqueue. quiet_steps. destruct (os_Outbox (tx_state _) !! _) eqn:E; quiet_steps.
  eapply quiet_write; [done|]. split; [|done]. split; simpl; try reflexivity. by apply insert_subseteq.
Qed.

Lemma SavePublication_evolves ctx p : keeps tx_evolves (tx_SavePublication ctx p).
Proof.
  intros t. unfold tx_SavePublication. quiet_steps.
  eapply quiet_write; [done|]. split; [|done]. split; reflexivity.
Qed.

Lemma LoadReleaseTrack_evolves ctx c k : keeps tx_evolves (tx_ReleaseTrack ctx c k).
Proof. intros t. unfold tx_ReleaseTrack. quiet_steps. Qed.

(** What [existing_revision] finds is the record of the key, or one nobody owns. *)
Lemma existing_revision_ok s r k e :
  existing_revision s r = Some (k, e) →
  os_Revisions s !! k = Some e
  ∧ (k = revisionStorageKey r ∨ os_Revisions s !! revisionStorageKey r = None ∧ cv_ContractID e = "").
Proof.
  unfold existing_revision. destruct (os_Revisions s !! revisionStorageKey r) as [x|] eqn:E; [intros [= <- <-]; eauto|].
  case_bool_decide; [done|]. destruct (os_Revisions s !! cv_ID r) as [x|] eqn:El; [|done].
  case_bool_decide; [|done]. intros [= <- <-]. eauto.
Qed.

Lemma existing_revision_none s r :
  existing_revision s r = None → os_Revisions s !! revisionStorageKey r = None.
Proof. unfold existing_revision. by destruct (os_Revisions s !! revisionStorageKey r). Qed.

(** A complete record is replaced only by itself at its commit. *)
Lemma replaced_same_evidence existing revision :
  complete existing →
  canEnrichLegacyRevisionEvidence existing revision || canCanonicalizeLegacyRevisionRef existing revision = true →
  same_evidence existing (reread revision).
Proof.
  intros (_ & Hs & Hr) Hb. unfold canEnrichLegacyRevisionEvidence in Hb.
  rewrite (bool_decide_eq_true_2 _ Hs) in Hb. simpl in Hb.
  unfold canCanonicalizeLegacyRevisionRef in Hb. destruct (_ || _ || _) eqn:Hg; [done|].
  apply orb_false_iff in Hg as [[Hne E]%orb_false_iff Href]. bool_prop.
  assert (cv_Ref revision = cv_CommitSHA existing) as Hc by congruence. rewrite Hc in Hb.
  subst revision. clear Hc E Href.
  assert (reread (with_ref (cv_CommitSHA existing) existing) = with_ref (cv_CommitSHA existing) existing) as ->.
  { destruct existing. cbn in Hr |- *. unfold with_ref in *. cbn. by injection Hr as -> -> -> -> -> -> -> ? -> -> -> -> ->. }
  split; [done|]. split; [by right|].
  destruct existing. cbn in Hr |- *. unfold with_ref in *. cbn. by injection Hr as -> -> -> -> -> -> -> ? -> -> -> -> ->.
Qed.

(** The new record at its key, its unowned predecessor gone. *)
Lemma replace_grows m k e r (gone : bool) :
  m !! k = Some e → (k = revisionStorageKey r ∨ m !! revisionStorageKey r = None ∧ cv_ContractID e = "") →
  (gone = true → k ≠ revisionStorageKey r) →
  canEnrichLegacyRevisionEvidence e r || canCanonicalizeLegacyRevisionRef e r = true →
  revisions_grow m (<[revisionStorageKey r := reread r]> (if gone then delete k m else m)).
Proof.
  intros He Hk Hg Hb j x Hx Hco. destruct (decide (j = revisionStorageKey r)) as [->|Hj].
  - rewrite lookup_insert_eq. eexists. split; [done|]. apply replaced_same_evidence; [done|].
    destruct Hk as [->|[Hn _]]; [|congruence]. by rewrite He in Hx; injection Hx as ->.
  - exists x. split; [|split_and!; [done|by left|apply Hco]]. rewrite lookup_insert_ne by done.
    destruct gone; [|done]. rewrite lookup_delete_ne; [done|]. intros <-.
    rewrite He in Hx. injection Hx as <-. destruct Hk as [Hk|[_ Hu]]; [by apply Hg|by destruct Hco].
Qed.

Lemma insert_grows m k r : m !! k = None → revisions_grow m (<[k := r]> m).
Proof.
  intros Hn j x Hx Hco. exists x. rewrite lookup_insert_ne by congruence.
  split; [done|]. split_and!; [done|by left|apply Hco].
Qed.

Lemma SaveRevision_quiet ctx r : keeps quiet (tx_SaveRevision ctx r).
Proof.
  intros t0. unfold tx_SaveRevision. do 5 (apply (lift_step _ _ quiet); [done|intros ? _]).
  rewrite gets_bind. destruct (existing_revision (tx_state t0) r) as [[k e]|] eqn:E.
  - apply existing_revision_ok in E as [He Hk].
    apply (lift_step _ _ quiet); [done|intros b _]. destruct b; [done|].
    destruct (negb _ && negb _) eqn:Hb; [done|]. rewrite <-negb_orb in Hb. apply negb_false_iff in Hb.
    apply (lift_step _ _ quiet); [done|]. intros c ->%cloneImmutableRecord_reread.
    case_bool_decide as Hkey.
    + split; [done|done|]. by apply (replace_grows _ k e r false).
    + split; [done|done|]. by apply (replace_grows _ k e r true).
  - apply existing_revision_none in E. apply (lift_step _ _ quiet); [done|]. intros c _.
    split; [done|done|]. by apply insert_grows.
Qed.

(** A checked track put under its key. *)
Lemma put_Track_evolves key tr t t1 :
  track_write (os_ReleaseTracks (tx_state t) !! key) (Some tr) → quiet t t1 →
  tx_evolves t (MkOperationalTransaction (put_Track key tr (tx_state t1))
                  (<[key := tr]> (tx_validatedReleaseTracks t1)) (tx_mutatedRevisions t1)).
Proof.
  intros Hw [Hs Hv Hr]. split; simpl; [|rewrite Hs, Hv; simpl; by intros ->].
  rewrite Hs in Hr |- *. split; simpl; try reflexivity; [done|]. intros k.
  destruct (decide (k = key)) as [->|Hne]; [|by rewrite lookup_insert_ne].
  rewrite lookup_insert_eq. by apply rtc_once.
Qed.

Lemma SaveReleaseTrack_evolves ctx g tr : keeps tx_evolves (tx_SaveReleaseTrack ctx g tr).
Proof.
  intros t. unfold tx_SaveReleaseTrack. quiet_steps. case_bool_decide; quiet_steps.
  match goal with Hq : quiet t ?x |- tx_evolves t ((_ ≫= _) ?x).1 =>
    refine (put_Track_evolves _ tr t x _ Hq) end.
  match goal with Hc : match ?found with _ => _ end = Ok ?u, Hn : ?found ≠ Some _ |- _ =>
    destruct u, found as [current|]; apply seq_ok in Hc as [_ Hc] end; by constructor.
Qed.
Lemma effect_evolves ctx t t' : store_effect ctx t t' → tx_evolves t t'.
Proof.
  destruct 1; simpl.
  - apply quiet_evolves, SaveRevision_quiet.
  - apply SaveReview_evolves.
  - apply SaveSyncRecord_evolves.
  - apply LoadReleaseTrack_evolves.
  - apply SaveReleaseTrack_evolves.
  - apply SavePublication_evolves.
  - apply AppendAuditEvent_evolves.
  - apply Enqueue_evolves.
Qed.

Lemma client_evolves {C} ctx (callback : stM (operationalTransaction * C) unit) t c :
  store_client ctx callback → tx_evolves t (callback (t, c)).1.1.
Proof.
  intros Hc. specialize (Hc t c). induction Hc as [|? ? ? Hs _ IH]; [done|].
  etrans; [by eapply effect_evolves|done].
Qed.
End operations.

(** ** What the history of a track within a transaction means *)

Lemma transition_keeps_decision a b :
  ValidateReleaseTrackTransition a b = Ok tt → a = b ∨ is_Some (rt_LastDecision b).
Proof.
  unfold ValidateReleaseTrackTransition. rewrite !seq_ok. intros (_ & _ & _ & H).
  case_bool_decide as E; [by left|right].
  destruct (rt_LastDecision a), (rt_LastDecision b); try done; by eexists.
Qed.

Lemma writes_keep_decision o o' :
  rtc track_write o o' → ∀ a, o = Some a → ∃ b, o' = Some b ∧ (a = b ∨ is_Some (rt_LastDecision b)).
Proof.
  induction 1 as [|o o1 o' Hw _ IH]; intros a ->; [by eauto|].
  inversion Hw as [|a' b Hb]; subst. destruct (IH b eq_refl) as (c & -> & Hc). exists c. split; [done|].
  apply transition_keeps_decision in Hb. destruct Hb as [->|[d Hd]], Hc as [->|?]; eauto.
Qed.

Lemma writes_from_nothing o' :
  rtc track_write None o' → ∀ b, o' = Some b → rt_LastDecision b = None → rt_Generation b = 0.
Proof.
  intros Hr b -> Hb. inversion Hr as [|? o1 ? Hw Hr']; subst. inversion Hw as [t Ht|]; subst.
  destruct (writes_keep_decision _ _ Hr' t eq_refl) as (b' & [= <-] & Hor).
  destruct Hor as [->|[d Hd]]; [|congruence].
  unfold validateReleaseTrackInitialization in Ht. apply seq_ok in Ht as [_ Ht]. rewrite Hb in Ht.
  apply throw_if_ok in Ht. bool_prop. done.
Qed.

(** ** What the commit check establishes *)

Section commit.
Context `{CaseTables, !CaseLaws}.

(** A report that says what its policy makes of the two snapshots. *)
Definition truthful (rep : ReviewReport) (b c : ContractSnapshot) : Prop :=
  ∃ p, validateCanonicalPolicyProjection (rr_EffectivePolicy rep) = Ok (p, rr_PolicyDigest rep)
    ∧ elems (rr_Comparisons rep) = [evaluateComparison ComparisonReleaseImpact b c p (rr_EvaluatedAt rep)]
    ∧ (rr_Verdict rep = VerdictPass ↔
       ∀ x l, x ∈ changes b c → l ∈ ep_Layers p → ¬ fails l (rr_EvaluatedAt rep) x).

Lemma accepted_truthful rep contractID b c :
  ValidateReleaseReviewReportAgainstSnapshots rep contractID b c = Ok tt → truthful rep b c.
Proof.
  intros (_ & _ & p & d & Hp & Hd & _ & _ & He & Hv)%accepted_report_inv. exists p. rewrite Hd.
  split_and!; try done. rewrite Hv.
  destruct (comparison_verdict ComparisonReleaseImpact b c p (rr_EvaluatedAt rep)) as [[-> (x & l & Hx & Hl & Hf)]|[-> Hn]]; [|done].
  split; [done|]. intros Hn. by destruct (Hn x l).
Qed.

(** The persisted bundle an authorization refers to. *)
Record bundle (s : operationalState) (a : ReleaseAuthorization) (base cand : ContractRevision)
    (sb sc : ContractSnapshot) (review : ContractReview) (sync : SyncRecord) : Prop := {
  bu_base : revisionForContract s (ra_ContractID a) (ra_BaselineRevisionID a) = Some base;
  bu_cand : revisionForContract s (ra_ContractID a) (ra_CandidateRevisionID a) = Some cand;
  bu_base_snapshot : cv_ReviewSnapshot base = Some sb;
  bu_cand_snapshot : cv_ReviewSnapshot cand = Some sc;
  bu_source : cv_SourceID cand = ra_SourceID a;
  bu_review : os_Reviews s !! ra_ReviewID a = Some review;
  bu_policy : rr_PolicyDigest (rv_Report review) = ra_PolicyDigest a;
  bu_truth : truthful (rv_Report review) sb sc;
  bu_sync : os_SyncRecords s !! ra_SyncRecordID a = Some sync;
  bu_sync_revision : sy_RevisionID sync = ra_CandidateRevisionID a;
  bu_sync_ref : sy_Ref sync = ra_BoundRef a;
  bu_sync_commit : sy_CommitSHA sync = cv_CommitSHA cand;
}.

Lemma authorization_bundle s a :
  validateReleaseAuthorizationBundle s a = Ok tt →
  ∃ base cand sb sc review sync, bundle s a base cand sb sc review sync.
Proof.
  unfold validateReleaseAuthorizationBundle. intros H1.
  apply seq_ok in H1 as [_ H1]. apply seq_ok in H1 as [_ H1].
  apply bind_ok in H1 as (base & Hbase & H1). apply seq_ok in H1 as [_ H1].
  apply bind_ok in H1 as (cand & Hcand & H1). apply seq_ok in H1 as [_ H1].
  apply seq_ok in H1 as [Hsrc H1]. apply bind_ok in H1 as ([sb sc] & Hsnap & H1).
  apply bind_ok in H1 as (review & Hrev & H1). apply seq_ok in H1 as [Hmatch H1].
  apply seq_ok in H1 as [Hrep H1]. apply wrap_err_ok, accepted_truthful in Hrep.
  destruct (revisionForContract s _ (ra_BaselineRevisionID a)) as [base'|] eqn:Eb; [|done].
  destruct (revisionForContract s _ (ra_CandidateRevisionID a)) as [cand'|] eqn:Ec; [|done].
  injection Hbase as ->. injection Hcand as ->.
  destruct (cv_ReviewSnapshot base) as [sb'|] eqn:Esb; [|done].
  destruct (cv_ReviewSnapshot cand) as [sc'|] eqn:Esc; [|done]. injection Hsnap as -> ->.
  destruct (os_Reviews s !! _) as [review'|] eqn:Er; [|done]. injection Hrev as ->.
  destruct (os_SyncRecords s !! _) as [sync|] eqn:Es; [|done].
  rewrite throw_if_ok in *. bool_prop.
  exists base, cand, sb, sc, review, sync. by split.
Qed.

(** The publication an accepted decision was served under. *)
Definition published (s : operationalState) (a : ReleaseAuthorization) : Prop :=
  ∃ p, os_Publications s !! publicationKey (ra_ContractID a) (ra_CandidateRevisionID a) = Some p
    ∧ pb_Public p = true ∧ pb_Path p = ra_PublicPath a.

Lemma decision_bundle s t d a :
  track_ok t → rt_LastDecision t = Some d →
  validateReleaseDecisionBundle s t d a = Ok tt →
  rd_RevisionID d = ra_CandidateRevisionID a ∧ rd_ReviewID d = ra_ReviewID a
  ∧ rd_Verdict d = rr_Verdict (rv_Report (default zero_review (os_Reviews s !! ra_ReviewID a)))
  ∧ (rt_CurrentRevisionID t ≠ ra_BaselineRevisionID a →
     rt_CurrentRevisionID t = rd_RevisionID d ∧ rd_Accepted d = true
     ∧ sy_Result (default zero_sync (os_SyncRecords s !! ra_SyncRecordID a)) = SyncResultSuccess
     ∧ published s a).
Proof.
  intros Ht Hd. unfold validateReleaseDecisionBundle. intros H1.
  apply seq_ok in H1 as [Hb H1]. apply bind_ok in H1 as (can & _ & H1).
  apply seq_ok in H1 as [Hid H1]. apply seq_ok in H1 as [Hsync H1]. apply seq_ok in H1 as [_ H1].
  apply seq_ok in H1 as [_ H1]. apply seq_ok in H1 as [Hp _].
  rewrite throw_if_ok in Hb, Hid, Hsync. bool_prop.
  split; [done|]. split; [done|]. split; [done|]. intros Hcur.
  pose proof (to_evidence _ Ht) as He. unfold evidence_ok in He. rewrite Hd in He.
  destruct He as (_ & Hdok & _ & [[Hc _]|(Hc & Hacc & Hrev)]).
  { exfalso. apply andb_false_iff in Hb as [Hb|Hb]; bool_prop; [|done].
    rewrite Hb in Hc. by apply (canonical_nonempty _ (do_revision _ Hdok)). }
  rewrite Hacc in *. simpl in *. bool_prop.
  split; [done|]. split; [done|]. split; [done|].
  rewrite Hc, (bool_decide_eq_true_2 ("" = "")), (bool_decide_eq_true_2 (_ = rd_RevisionID d)), !andb_true_r in Hp by done.
  destruct (to_mode _ Ht) as [Em|Em]; rewrite Em in Hp; simpl in Hp;
    (destruct (os_Publications s !! _) as [p|] eqn:Ep; [|done]);
    apply throw_if_ok in Hp; bool_prop; by exists p.
Qed.

(** The parts of the commit check the properties use. *)
Record commit_ok (ctx : Ctx) (blobs : gmap string (list Z)) (previous s : operationalState) : Prop := {
  co_tracks : ∀ key t, os_ReleaseTracks s !! key = Some t → track_ok t ∧ key = releaseTrackKey (rt_ContractID t) (rt_ID t);
  co_authorizations : ∀ id a, os_ReleaseAuthorizations s !! id = Some a →
    id = ra_ReviewID a ∧ validateReleaseAuthorizationBundle s a = Ok tt;
  co_decisions : ∀ key t d, os_ReleaseTracks s !! key = Some t → rt_LastDecision t = Some d →
    ∃ a, os_ReleaseAuthorizations s !! rd_ReviewID d = Some a
      ∧ ra_ContractID a = rt_ContractID t ∧ ra_TrackID a = rt_ID t ∧ ra_BoundRef a = rt_BoundRef t
      ∧ validateReleaseDecisionBundle s t d a = Ok tt
      ∧ (os_ReleaseTracks previous !! key = Some t ∨
         validateAuthorizationBaseline previous a = Ok tt
         ∧ validateReleaseAuthorizationRevisionEvidence ctx blobs s a = Ok tt);
  co_paths : validateUniquePublicPaths (os_Publications s) = Ok tt;
}.

Lemma references_tracks s key t :
  validateOperationalReferences s = Ok tt → os_ReleaseTracks s !! key = Some t →
  key = releaseTrackKey (rt_ContractID t) (rt_ID t).
Proof.
  unfold validateOperationalReferences. intros H1.
  do 3 apply seq_ok in H1 as [_ H1]. apply seq_ok in H1 as [Ht _]. rewrite for_map_ok in Ht.
  intros Hk%Ht. apply seq_ok in Hk as [Hk _]. apply throw_if_ok in Hk. by bool_prop.
Qed.

Lemma references_evidence s :
  validateOperationalReferences s = Ok tt →
  validateUniquePublicPaths (os_Publications s) = Ok tt ∧ validateReleaseEvidenceAuthorities s = Ok tt.
Proof.
  unfold validateOperationalReferences. intros H1. apply seq_ok in H1 as [_ H1].
  apply seq_ok in H1 as [Hp H1]. split; [done|]. by do 7 apply seq_ok in H1 as [_ H1].
Qed.

Lemma authorities_tracks s key t :
  validateReleaseTrackAuthorities s = Ok tt → os_ReleaseTracks s !! key = Some t → track_ok t.
Proof.
  unfold validateReleaseTrackAuthorities. intros H1. apply seq_ok in H1 as [_ H1].
  apply seq_ok in H1 as [Ht _]. rewrite for_map_ok in Ht. intros Hk%Ht. apply seq_ok in Hk as [Hk _].
  by apply wrap_err_ok, ValidateReleaseTrack_ok in Hk.
Qed.

Lemma commit_checked ctx blobs previous s mutated :
  validateOperationalState ctx blobs previous s mutated = Ok tt →
  os_Version s = operationalStateVersion ∧ commit_ok ctx blobs previous s.
Proof.
  unfold validateOperationalState. intros H1. apply seq_ok in H1 as [Hv H1]. apply throw_if_ok in Hv. bool_prop.
  apply seq_ok in H1 as [Hauth H1]. apply seq_ok in H1 as [Href H1]. apply seq_ok in H1 as [_ Hch].
  split; [done|]. destruct (references_evidence _ Href) as [Hpaths Hev].
  unfold validateReleaseEvidenceAuthorities in Hev. apply seq_ok in Hev as [Ha Hd].
  unfold validateChangedReleaseEvidence in Hch. apply seq_ok in Hch as [_ Hct].
  rewrite for_map_ok in Ha. rewrite for_map_ok in Hd. rewrite for_map_ok in Hct. split; [| | |done].
  - intros key t Ht. split; [by eapply authorities_tracks|by eapply references_tracks].
  - intros id a Hid%Ha. apply seq_ok in Hid as [Hk Hb]. apply throw_if_ok in Hk. bool_prop.
    split; [done|]. by apply wrap_err_ok in Hb.
  - intros key t d Ht Hld. specialize (Hd _ _ Ht). specialize (Hct _ _ Ht). cbv beta in *. rewrite Hld in Hd, Hct.
    destruct (os_ReleaseAuthorizations s !! rd_ReviewID d) as [a|] eqn:Ea; [|done].
    apply seq_ok in Hd as [H1 Hd]. apply seq_ok in Hd as [H2 Hd]. apply wrap_err_ok in Hd.
    apply throw_if_ok in H1, H2. bool_prop. exists a. split_and!; try done.
    case_bool_decide; [by left|right]. apply seq_ok in Hct as [?%wrap_err_ok ?%wrap_err_ok]. done.
Qed.

Lemma baseline_track previous a :
  validateAuthorizationBaseline previous a = Ok tt →
  ∃ t, os_ReleaseTracks previous !! releaseTrackKey (ra_ContractID a) (ra_TrackID a) = Some t
    ∧ rt_CurrentRevisionID t = ra_BaselineRevisionID a.
Proof.
  unfold validateAuthorizationBaseline. destruct (_ !! _) as [t|]; [|done].
  intros Hb%throw_if_ok. bool_prop. by exists t.
Qed.
End commit.
