(* ===== verification/StoreSafety.v ===== *)
(** * Properties of the file store

    What the directory of a [FileStore] can hold after any sequence of
    transactions: every change of a track is backed by persisted evidence,
    evidence never changes, a failed transaction leaves the last state, and a
    public path has one publication. *)

From stdpp Require Import pretty.
From S2P Require Import Prelude GoString GoSha256 GoTime GoJson Identity Spec Snapshot SpecDiff.
From S2P Require Import Release.
From S2P Require Import Policy.
From S2P Require Import Review.
From S2P Require Import Records.
From S2P Require Import Ports.
From S2P Require Import StoreState.
From S2P Require Import StoreTx.
From S2P Require Import FileStore.
From S2P Require Import StoreInvariant.
From S2P Require Import ReleaseService.
From S2P Require Import Fixture.

(** ** Reading a state back *)

#[export] Instance decision_idem : RereadIdem ReleaseDecision.
Proof. intros d. unfold reread, decision_record. idem_fields. Qed.
#[export] Instance track_idem : RereadIdem ReleaseTrack.
Proof.
  intros t. unfold reread, track_record. idem_fields.
  destruct (rt_LastDecision t) as [d|]; simpl; [|done]. f_equal. apply (decision_idem d).
Qed.
#[export] Instance authority_idem : RereadIdem releaseTrackAuthority.
Proof. intros a. unfold reread, authority_record. idem_fields. Qed.
#[export] Instance sync_idem : RereadIdem SyncRecord.
Proof. intros r. unfold reread, sync_record. idem_fields. Qed.
#[export] Instance publication_idem : RereadIdem Publication.
Proof. intros p. unfold reread, publication_record. idem_fields. Qed.

Lemma reread_map_idem {A} `{RereadIdem A} (m : gmap string A) : reread <$> (reread <$> m) = reread <$> m.
Proof. rewrite <-map_fmap_compose. apply map_fmap_ext. intros k x _. apply reread_idem. Qed.

Lemma reread_state_idem s : reread_state (reread_state s) = reread_state s.
Proof. unfold reread_state. f_equal; apply reread_map_idem; apply _. Qed.

(** ** Runs of the store *)

Lemma fst_Ok {A B} (p : A * res B) : p = (p.1, p.2).
Proof. by destruct p. Qed.

Lemma durableAtomicWrite_cases path replace w w' r :
  durableAtomicWrite path replace w = (w', r) →
  (r = Ok tt ∧ w' = replace (next_writes w)) ∨
  (∃ e, r = Fail e ∧ (w' = next_writes w ∨
     (w' = replace (next_writes w) ∧ Is "operational commit outcome unknown" e = true))).
Proof.
  unfold durableAtomicWrite. destruct (hd Written (w_writes w)); intros [= <- <-]; [by left|right..]; eauto.
Qed.

(** The directory but for its state, its marker and the writes to come. *)
Definition same_records (w w' : World) : Prop :=
  w_blobs w' = w_blobs w ∧ w_revisions w' = w_revisions w ∧ w_publications w' = w_publications w ∧ w_syncs w' = w_syncs w.

#[export] Instance same_records_preorder : PreOrder same_records.
Proof.
  split; [by intros w|]. intros w1 w2 w3 (?&?&?&?) (?&?&?&?). split_and!; congruence.
Qed.

(** A state the store left behind with its schema marker. *)
Definition settled (w : World) (s : operationalState) : Prop :=
  w_state w = Some s ∧ os_Version s = operationalStateVersion ∧ w_marker w = Some operationalStateVersion.

Lemma loadMarker_same ctx w w' r : loadOperationalSchemaMarker ctx w = (w', r) → w' = w.
Proof.
  unfold loadOperationalSchemaMarker, mbind, stM_bind, lift, gets.
  destruct ctx as [[]|]; [|by intros [= <- <-]]. destruct (w_marker w) as [v|]; [|by intros [= <- <-]].
  destruct (throw_if _ _) as [[]|]; by intros [= <- <-].
Qed.

Lemma loadMarker_ok ctx w w' m :
  loadOperationalSchemaMarker ctx w = (w', Ok m) → w' = w ∧ m = w_marker w ∧ ctx = Ok tt.
Proof.
  intros E. pose proof (loadMarker_same _ _ _ _ E) as ->. split; [done|]. revert E.
  unfold loadOperationalSchemaMarker. intros ([] & -> & E)%lift_bind_ok. rewrite gets_bind in E.
  destruct (w_marker w) as [v|]; [|by injection E as <-].
  apply lift_bind_ok in E as (_ & _ & [= <-]). done.
Qed.

Section store.
Context `{CaseTables}.

Lemma load_settled ctx w s w' r :
  settled w s → loadOperationalStateLocked ctx w = (w', r) →
  w' = w ∧ (∀ s', r = Ok s' → s' = s).
Proof.
  intros (Hs & Hv & Hm). unfold loadOperationalStateLocked.
  unfold mbind at 1, stM_bind at 1, lift at 1. destruct ctx as [[]|e]; [|by intros [= <- <-]].
  unfold mbind at 1, stM_bind at 1.
  destruct (loadOperationalSchemaMarker (Ok tt) w) as [w1 [m|e]] eqn:E.
  2: { apply loadMarker_same in E as ->. by intros [= <- <-]. }
  apply loadMarker_ok in E as (-> & -> & _). rewrite gets_bind, Hs, Hm.
  unfold load_versioned. rewrite Hv. cbn -[validateReleaseTrackAuthorities validateOperationalReferences].
  unfold lift. destruct (validateReleaseTrackAuthorities s) as [[]|e]; [|by intros [= <- <-]].
  unfold stM_bind. destruct (validateOperationalReferences s) as [[]|e]; [|by intros [= <- <-]].
  intros [= <- <-]. split; [done|]. by intros s' [= <-].
Qed.

(** What publishing a state can leave behind: nothing new, or the whole state;
    an error after the replacement says the outcome is unknown. *)
Lemma publish_cases ctx s w w' r :
  publishCurrentOperationalState ctx s w = (w', r) →
  same_records w w' ∧
  ((∃ e, r = Fail e ∧ w_state w' = w_state w ∧ w_marker w' = w_marker w) ∨
   (os_Version s = operationalStateVersion ∧ w_state w' = Some (reread_state s)
    ∧ (w_marker w = Some operationalStateVersion → w_marker w' = Some operationalStateVersion)
    ∧ (r = Ok tt ∧ w_marker w' = Some operationalStateVersion
       ∨ ∃ e, r = Fail e ∧ Is "operational commit outcome unknown" e = true))).
Proof.
  unfold publishCurrentOperationalState, publishOperationalState.
  unfold mbind at 1, stM_bind at 1, lift at 1. destruct (throw_if _ _) as [[]|e] eqn:Ev; [|intros [= <- <-]; split; [done|]; left; by eauto].
  apply throw_if_ok in Ev. bool_prop.
  unfold mbind at 1, stM_bind at 1. unfold mbind at 1, stM_bind at 1, lift at 1.
  destruct ctx as [[]|e]; [|intros [= <- <-]; split; [done|]; left; by eauto].
  unfold mbind at 1, stM_bind at 1, lift at 1. destruct (encodes_state s) as [[]|e]; [|intros [= <- <-]; split; [done|]; left; by eauto].
  destruct (durableAtomicWrite _ _ w) as [w1 r1] eqn:E1.
  apply durableAtomicWrite_cases in E1 as [(-> & ->)|(e & -> & [->|[-> He]])].
  2: { intros [= <- <-]. split; [done|]. left. eauto. }
  2: { intros [= <- <-]. split; [done|]. right. eauto 10. }
  unfold st_wrap. destruct (persistOperationalSchemaMarker (Ok tt) _ _) as [w2 r2] eqn:E2. intros [= <- <-].
  revert E2. unfold persistOperationalSchemaMarker.
  unfold mbind at 1, stM_bind at 1, lift at 1. unfold mbind at 1, stM_bind at 1.
  destruct (loadOperationalSchemaMarker (Ok tt) _) as [w3 [m|e]] eqn:E3;
    pose proof (loadMarker_same _ _ _ _ E3) as ->.
  2: { intros [= <- <-]. split; [done|]. right. eauto 10. }
  apply loadMarker_ok in E3 as (_ & -> & _). cbn [w_marker set_state next_writes].
  destruct (w_marker w) as [v|] eqn:Em.
  - destruct (throw_if _ _) as [[]|e]; [|intros [= <- <-]; split; [done|]; right; (split_and!; [done|done|simpl; congruence|]); by eauto].
    destruct (v =? operationalStateVersion) eqn:Evv; [apply Z.eqb_eq in Evv as ->|apply Z.eqb_neq in Evv].
    + intros [= <- <-]. split; [done|]. right. split_and!; eauto 6.
    + intros [[-> ->]|(e & -> & [->|[-> He]])]%durableAtomicWrite_cases; (split; [done|]); right;
        (split_and!; [done|done|simpl; congruence|]); eauto 6.
  - intros [[-> ->]|(e & -> & [->|[-> He]])]%durableAtomicWrite_cases; (split; [done|]); right;
      (split_and!; [done|done|simpl; congruence|]); eauto 6.
Qed.

(** A committed transaction, step by step. *)
Lemma within_ok {C} ctx (callback : stM (operationalTransaction * C) unit) w c w' c' :
  FileStore_Within ctx callback (w, c) = ((w', c'), Ok tt) →
  ∃ w1 previous t, loadOperationalStateLocked ctx w = (w1, Ok previous)
    ∧ callback (begin_transaction previous, c) = ((t, c'), Ok tt)
    ∧ validateOperationalState ctx (w_blobs w1) previous (tx_state t) (tx_mutatedRevisions t) = Ok tt
    ∧ tx_validatedReleaseTracks t = os_ReleaseTracks (tx_state t)
    ∧ publishCurrentOperationalState ctx (tx_state t) w1 = (w', Ok tt).
Proof.
  unfold FileStore_Within. destruct ((lift ctx ;; loadOperationalStateLocked ctx) w) as [w1 [previous|e]] eqn:El; [|done].
  apply lift_bind_ok in El as (_ & _ & El).
  destruct (callback _) as [[t c1] [[]|e]] eqn:Ec; [|done]. intros [Hc <-]%on_fst_ok.
  unfold commit in Hc. rewrite gets_bind in Hc.
  apply lift_bind_ok in Hc as ([] & Hv & Hc). apply lift_bind_ok in Hc as (? & Ht & Hc).
  unfold validateCommittedReleaseTracks in Ht. apply throw_if_ok_u in Ht. bool_prop.
  by exists w1, previous, t.
Qed.
End store.

(** ** Properties *)

Section properties.
Context `{CaseTables, !CaseLaws}.

(** How a track may differ from what the transaction found. *)
Definition authorised_change (previous next : operationalState) (key : string) (after : ReleaseTrack) : Prop :=
  ∃ before d a base cand sb sc review sync,
    os_ReleaseTracks previous !! key = Some before ∧ rt_LastDecision after = Some d
    ∧ os_ReleaseAuthorizations next !! rd_ReviewID d = Some a
    ∧ ra_ContractID a = rt_ContractID after ∧ ra_TrackID a = rt_ID after ∧ ra_BoundRef a = rt_BoundRef after
    ∧ ra_BaselineRevisionID a = rt_CurrentRevisionID before ∧ ra_CandidateRevisionID a = rd_RevisionID d
    ∧ bundle next a base cand sb sc review sync ∧ rd_Verdict d = rr_Verdict (rv_Report review)
    ∧ (rt_CurrentRevisionID after ≠ rt_CurrentRevisionID before →
       rt_CurrentRevisionID after = ra_CandidateRevisionID a ∧ rd_Accepted d = true ∧ rd_Verdict d = VerdictPass
       ∧ sy_Result sync = SyncResultSuccess ∧ published next a).

(** C2: every committed change of a release track is backed by persisted
    evidence.  Whatever a callback does through the operations of the store,
    once the transaction commits each track is the one it found, or a new
    baseline without a decision, or follows a decision with an authorization
    for exactly this track and its previous current revision, whose review is
    the comparison of the two persisted snapshots under its own policy; and a
    revision that starts being served has an accepted passing decision, a
    successful sync and its authorized public route. *)
Theorem track_changes_are_authorised {C} ctx (callback : stM (operationalTransaction * C) unit) w c w' c' :
  store_client ctx callback →
  FileStore_Within ctx callback (w, c) = ((w', c'), Ok tt) →
  ∃ w1 previous next, loadOperationalStateLocked ctx w = (w1, Ok previous) ∧ w_state w' = Some (reread_state next)
    ∧ ∀ key after, os_ReleaseTracks next !! key = Some after →
        os_ReleaseTracks previous !! key = Some after
        ∨ (os_ReleaseTracks previous !! key = None ∧ rt_LastDecision after = None ∧ rt_Generation after = 0)
        ∨ authorised_change previous next key after.
Proof.
  intros Hc (w1 & previous & t & Hl & Hcb & Hv & _ & Hp)%within_ok.
  exists w1, previous, (tx_state t). split; [done|].
  apply publish_cases in Hp as (_ & [(e & ? & _)|(_ & Hs & _ & _)]); [done|]. split; [done|].
  destruct (commit_checked _ _ _ _ _ Hv) as [_ Hok].
  pose proof (client_evolves _ _ (begin_transaction previous) c Hc) as [Hev _]. rewrite Hcb in Hev. simpl in Hev.
  intros key after Hafter. pose proof (ev_tracks _ _ Hev key) as Hw. rewrite Hafter in Hw.
  destruct (co_tracks _ _ _ _ Hok _ _ Hafter) as [Hto Hkey].
  destruct (rt_LastDecision after) as [d|] eqn:Hd.
  - destruct (co_decisions _ _ _ _ Hok _ _ _ Hafter Hd) as (a & Ha & Hac & Hat & Har & Hb & [?|[Hbase _]]); [by left|].
    right; right. destruct (baseline_track _ _ Hbase) as (before & Hbefore & Hcur).
    rewrite Hac, Hat, <-Hkey in Hbefore.
    destruct (co_authorizations _ _ _ _ Hok _ _ Ha) as [Hid Hab].
    destruct (authorization_bundle _ _ Hab) as (base & cand & sb & sc & review & sync & Hbu).
    destruct (decision_bundle _ _ _ _ Hto Hd Hb) as (Hr & _ & Hverd & Hserve).
    rewrite (bu_review _ _ _ _ _ _ _ _ Hbu) in Hverd. rewrite (bu_sync _ _ _ _ _ _ _ _ Hbu) in Hserve. simpl in *.
    exists before, d, a, base, cand, sb, sc, review, sync. split_and!; try done.
    intros Hne. rewrite Hcur in Hne. destruct (Hserve Hne) as (E & Hacc & Hsy & Hpub).
    split; [congruence|]. split; [done|]. split; [|done].
    pose proof (to_evidence _ Hto) as He. unfold evidence_ok in He. rewrite Hd in He.
    destruct He as (_ & Hdok & _). by apply (do_accepted _ Hdok).
  - simpl in Hw. destruct (os_ReleaseTracks previous !! key) as [before|] eqn:Hbefore; [left|right; left].
    + destruct (writes_keep_decision _ _ Hw before eq_refl) as (b & [= <-] & [->|[? ?]]); [done|congruence].
    + split; [done|]. split; [done|]. by eapply writes_from_nothing.
Qed.
End properties.

(** ** Witnesses *)

(** The commit of an accepted decision on the fixture's following track. *)
Definition fixture_commit : World * coordination * res unit :=
  @FileStore_Within latin1 _ (Ok tt) fixture_callback
    (seeded_world, no_coordination).

Lemma track_changes_are_authorised_witness :
  ∃ w1 previous next, @loadOperationalStateLocked latin1 (Ok tt) seeded_world = (w1, Ok previous)
    ∧ w_state fixture_commit.1.1 = Some (reread_state next)
    ∧ ∀ key after, os_ReleaseTracks next !! key = Some after →
        os_ReleaseTracks previous !! key = Some after
        ∨ (os_ReleaseTracks previous !! key = None ∧ rt_LastDecision after = None ∧ rt_Generation after = 0)
        ∨ authorised_change previous next key after.
Proof.
  apply (@track_changes_are_authorised latin1 latin1_laws coordination (Ok tt)
           fixture_callback
           seeded_world no_coordination _ fixture_commit.1.2).
  - apply selected_callback_client.
  - apply (run_ok fixture_commit tt). vm_compute. reflexivity.
Defined.
