(* ===== verification/StoreRuns.v ===== *)
(** * Histories of a file store

    Any sequence of transactions, authorizations, blob writes and reads on one
    directory, whatever the disk does to its writes: each transaction is
    atomic, persisted evidence never changes, and a track only moves forward. *)

From stdpp Require Import pretty.
From S2P Require Import Prelude GoString GoSha256 GoTime GoJson Identity Spec Snapshot SpecDiff.
From S2P Require Import Release.
From S2P Require Import Policy.
From S2P Require Import Review.
From S2P Require Import Records.
From S2P Require Import Ports.
From S2P Require Import StoreState.
From S2P Require Import StoreTx.
From S2P Require Import FileStore.
From S2P Require Import StoreInvariant.
From S2P Require Import ReleaseService.
From S2P Require Import Fixture.
From S2P Require Import StoreSafety.

Section runs.
Context `{CaseTables}.

(** ** One transaction *)

(** Publishing over a settled directory: nothing changed and an error, or the
    whole new state; the error after the replacement says so. *)
Lemma publish_settled ctx w old s w' r :
  settled w old → publishCurrentOperationalState ctx s w = (w', r) →
  same_records w w' ∧
  ((∃ e, r = Fail e ∧ settled w' old) ∨
   (settled w' (reread_state s)
    ∧ (r = Ok tt ∨ ∃ e, r = Fail e ∧ Is "operational commit outcome unknown" e = true))).
Proof.
  intros (Hs & Hv & Hm) [Hr Hc]%publish_cases. split; [done|].
  destruct Hc as [(e & -> & Hs' & Hm')|(Hv' & Hs' & Hm' & Hc)]; [left|right].
  - exists e. split; [done|]. split_and!; congruence.
  - split; [split_and!; auto|]. destruct Hc as [[-> _]|?]; auto.
Qed.

(** The callback runs on a copy of the settled state; what it made of it is
    published when it passes the check of the commit. *)
Definition committed {C} (ctx : Ctx) (callback : stM (operationalTransaction * C) unit)
    (w : World) (s : operationalState) (c : C) (next : operationalState) (c' : C) : Prop :=
  ∃ t, callback (begin_transaction s, c) = ((t, c'), Ok tt) ∧ next = tx_state t
    ∧ validateOperationalState ctx (w_blobs w) s next (tx_mutatedRevisions t) = Ok tt.

Lemma within_cases {C} ctx (callback : stM (operationalTransaction * C) unit) w s c w' c' r :
  settled w s → FileStore_Within ctx callback (w, c) = ((w', c'), r) →
  same_records w w' ∧
  ((∃ e, r = Fail e ∧ settled w' s) ∨
   (∃ next, committed ctx callback w s c next c' ∧ settled w' (reread_state next)
      ∧ (r = Ok tt ∨ ∃ e, r = Fail e ∧ Is "operational commit outcome unknown" e = true))).
Proof.
  intros Hset. unfold FileStore_Within.
  destruct ((lift ctx ;; loadOperationalStateLocked ctx) w) as [w1 [previous|e]] eqn:El.
  2: { intros [= <- <- <-]. assert (w1 = w) as ->; [|split; [done|]; eauto].
    revert El. unfold mbind, stM_bind, lift. destruct ctx as [[]|]; [|by intros [= <- _]].
    by intros [-> _]%(load_settled _ _ _ _ _ Hset). }
  apply lift_bind_ok in El as (_ & _ & El). apply (load_settled _ _ _ _ _ Hset) in El as [-> Hp].
  specialize (Hp _ eq_refl) as ->.
  destruct (callback _) as [[t c1] [[]|e]] eqn:Ec; [|intros [= <- <- <-]; split; [done|]; eauto].
  unfold on_fst, commit. simpl. rewrite gets_bind.
  unfold mbind at 1, stM_bind at 1, lift at 1.
  destruct (validateOperationalState _ _ _ _ _) as [[]|e] eqn:Hv; [|intros [= <- <- <-]; split; [done|]; eauto].
  unfold mbind at 1, stM_bind at 1, lift at 1.
  destruct (validateCommittedReleaseTracks _ _) as [[]|e]; [|intros [= <- <- <-]; split; [done|]; eauto].
  destruct (publishCurrentOperationalState _ _ _) as [w2 r2] eqn:Hpub. intros [= <- <- <-].
  destruct (publish_settled _ _ _ _ _ _ Hset Hpub) as [? [?|[? ?]]]; (split; [done|]); [by left|right].
  exists (tx_state t). split; [by exists t|done].
Qed.

(** ** Histories *)

Inductive store_step (w : World) : World → Prop :=
  | step_within {C} ctx (callback : stM (operationalTransaction * C) unit) c :
      store_client ctx callback → store_step w (FileStore_Within ctx callback (w, c)).1.1
  | step_authorize ctx a : store_step w (SaveReleaseAuthorization ctx a w).1
  | step_put ctx data : store_step w (Put ctx data w).1
  | step_read ctx : store_step w (loadOperationalStateLocked ctx w).1.

(** A settled directory whose state is what reading it back gives, with
    generations that are 64-bit integers. *)
Record durable (w : World) (s : operationalState) : Prop := {
  du_settled : settled w s;
  du_reread : reread_state s = s;
  du_generations : ∀ k t, os_ReleaseTracks s !! k = Some t → is_uint64 (rt_Generation t);
}.

(** A track only moves forward, and its generation tells its states apart. *)
Definition advances (t t' : ReleaseTrack) : Prop :=
  rt_ID t' = rt_ID t ∧ rt_ContractID t' = rt_ContractID t ∧ rt_Mode t' = rt_Mode t ∧ rt_BoundRef t' = rt_BoundRef t
  ∧ rt_Generation t ≤ rt_Generation t' ∧ (rt_Generation t' = rt_Generation t → t' = t).

#[export] Instance advances_preorder : PreOrder advances.
Proof.
  split; [by intros t; split_and!|].
  intros t1 t2 t3 (?&?&?&?&Hg1&Hd1) (?&?&?&?&Hg2&Hd2). split_and!; try congruence; [lia|].
  intros E. rewrite Hd2 by lia. apply Hd1. lia.
Qed.

(** Nothing persisted is lost or altered. *)
Record extends (s s' : operationalState) : Prop := {
  ex_revisions : revisions_grow (os_Revisions s) (os_Revisions s');
  ex_reviews : os_Reviews s ⊆ os_Reviews s';
  ex_syncs : os_SyncRecords s ⊆ os_SyncRecords s';
  ex_authorizations : os_ReleaseAuthorizations s ⊆ os_ReleaseAuthorizations s';
  ex_audits : os_AuditEvents s ⊆ os_AuditEvents s';
  ex_outbox : os_Outbox s ⊆ os_Outbox s';
  ex_tracks : ∀ k t, os_ReleaseTracks s !! k = Some t → ∃ t', os_ReleaseTracks s' !! k = Some t' ∧ advances t t';
}.

#[export] Instance extends_preorder : PreOrder extends.
Proof.
  split; [intros s; split; try reflexivity; eauto using advances_preorder|].
  { intros k t Ht. exists t. split; [done|reflexivity]. }
  intros s1 s2 s3 [A1 B1 C1 D1 E1 F1 G1] [A2 B2 C2 D2 E2 F2 G2]. split; [by etrans..|].
  intros k t Ht. destruct (G1 k t Ht) as (t2 & Ht2 & H2). destruct (G2 k t2 Ht2) as (t3 & Ht3 & H3).
  exists t3. split; [done|by etrans].
Qed.

(** ** What a transaction does to a durable state *)

Definition generations_ok (s : operationalState) : Prop :=
  ∀ k t, os_ReleaseTracks s !! k = Some t → is_uint64 (rt_Generation t).

Definition uint64_track (o : option ReleaseTrack) : Prop := ∀ t, o = Some t → is_uint64 (rt_Generation t).
Definition track_forward (o o' : option ReleaseTrack) : Prop :=
  ∀ t, o = Some t → ∃ t', o' = Some t' ∧ advances t t'.

Lemma write_forward o o' : track_write o o' → uint64_track o → track_forward o o' ∧ uint64_track o'.
Proof.
  intros Hw Ho. destruct Hw as [t Ht|a b Hb].
  - split; [done|]. intros ? [= <-]. unfold validateReleaseTrackInitialization in Ht. apply seq_ok in Ht as [_ Ht].
    destruct (rt_LastDecision t); [apply seq_ok in Ht as [Ht _]|]; apply throw_if_ok in Ht; bool_prop;
      rewrite Ht; unfold is_uint64, max_uint64; lia.
  - specialize (Ho a eq_refl). apply transition_inv in Hb as [_ [->|[e He]]]; [| |done].
    + split; [intros ? [= <-]; by exists a|by intros ? [= <-]].
    + destruct (step_identity _ _ _ Ho He) as (?&?&?&?&?). destruct (step_preserves _ _ _ Ho He) as [_ ?].
      split; [intros ? [= <-]; exists b; split; [done|]|by intros ? [= <-]].
      split_and!; try done. intros E. destruct (step_generation _ _ _ Ho He); [done|lia].
Qed.

Lemma writes_forward o o' : rtc track_write o o' → uint64_track o → track_forward o o' ∧ uint64_track o'.
Proof.
  induction 1 as [o|o o1 o' Hw _ IH]; intros Ho; [split; [intros t ->; by exists t|done]|].
  destruct (write_forward _ _ Hw Ho) as [Hf1 H1]. destruct (IH H1) as [Hf2 H2]. split; [|done].
  intros t ->. destruct (Hf1 t eq_refl) as (t1 & -> & ?). destruct (Hf2 t1 eq_refl) as (t2 & -> & ?).
  exists t2. split; [done|by etrans].
Qed.

Lemma evolves_extends s s' : evolves s s' → generations_ok s → extends s s' ∧ generations_ok s'.
Proof.
  intros [Hrev _ Hr Hs Ha Hau Ho Ht] Hg.
  assert (∀ k, track_forward (os_ReleaseTracks s !! k) (os_ReleaseTracks s' !! k)
               ∧ uint64_track (os_ReleaseTracks s' !! k)) as Hk.
  { intros k. apply writes_forward; [apply Ht|]. intros t. apply Hg. }
  split; [|intros k t; apply Hk]. split; try done. intros k t. apply Hk.
Qed.

(** Writing the state out and reading it back keeps what was read before. *)
Lemma reread_subseteq {A} `{JsonRecord A} (m m' : gmap string A) :
  reread <$> m = m → m ⊆ m' → m ⊆ reread <$> m'.
Proof. intros E Hm. rewrite <-E. by apply map_fmap_mono. Qed.

Lemma reread_advances t t' : reread t = t → advances t t' → advances t (reread t').
Proof.
  intros Hf (E1&E2&E3&E4&Hle&Heq). unfold advances.
  pose proof (f_equal rt_ID Hf) as F1. pose proof (f_equal rt_ContractID Hf) as F2.
  pose proof (f_equal rt_Mode Hf) as F3. pose proof (f_equal rt_BoundRef Hf) as F4. simpl in F1, F2, F3, F4.
  split_and!; simpl; [congruence..|done|].
  intros Eg. rewrite (Heq Eg). exact Hf.
Qed.

Lemma reread_extends s s' : reread_state s = s → extends s s' → extends s (reread_state s').
Proof.
  intros Hs [Hrev Hr Hsy Ha Hau Ho Ht]. split.
  - intros k r Hk Hco. destruct (Hrev k r Hk Hco) as (r' & Hr' & Hse). exists r'. split; [|done].
    simpl. rewrite lookup_fmap, Hr'. simpl. f_equal. apply Hse.
  - apply reread_subseteq; [exact (f_equal os_Reviews Hs)|done].
  - apply reread_subseteq; [exact (f_equal os_SyncRecords Hs)|done].
  - apply reread_subseteq; [exact (f_equal os_ReleaseAuthorizations Hs)|done].
  - apply reread_subseteq; [exact (f_equal os_AuditEvents Hs)|done].
  - apply reread_subseteq; [exact (f_equal os_Outbox Hs)|done].
  - intros k t Hk. destruct (Ht k t Hk) as (t' & Ht' & Had). exists (reread t').
    cbn [reread_state os_ReleaseTracks]. rewrite lookup_fmap, Ht'. split; [done|]. apply reread_advances; [|done].
    pose proof (f_equal os_ReleaseTracks Hs) as Etr. cbn [reread_state os_ReleaseTracks] in Etr.
    rewrite <-Etr, lookup_fmap in Hk. apply fmap_Some in Hk as (t0 & _ & ->). apply reread_idem.
Qed.

Lemma reread_generations s : generations_ok s → generations_ok (reread_state s).
Proof.
  intros Hg k t. simpl. rewrite lookup_fmap. intros (t0 & Ht0 & ->)%fmap_Some. simpl. by apply (Hg k).
Qed.

(** Any transaction, whatever became of it. *)
Lemma within_durable {C} ctx (callback : stM (operationalTransaction * C) unit) c w s :
  durable w s → (∀ t, evolves (tx_state t) (tx_state (callback (t, c)).1.1)) →
  let w' := (FileStore_Within ctx callback (w, c)).1.1 in
  ∃ s', durable w' s' ∧ extends s s' ∧ w_blobs w' = w_blobs w.
Proof.
  intros [Hset Hre Hg] Hcl. destruct (FileStore_Within _ _ _) as [[w' c'] r] eqn:E. simpl.
  destruct (within_cases _ _ _ _ _ _ _ _ Hset E) as [(Hb & _) [(e & _ & Hs)|(next & Hc & Hs & _)]].
  - exists s. by split_and!.
  - destruct Hc as (t & Ht & -> & _). specialize (Hcl (begin_transaction s)). rewrite Ht in Hcl. simpl in Hcl.
    destruct (evolves_extends _ _ Hcl Hg) as [He Hgn]. exists (reread_state (tx_state t)).
    split; [|split; [by apply reread_extends|done]].
    split; [done|apply reread_state_idem|by apply reread_generations].
Qed.

Lemma put_records ctx data w w' r :
  Put ctx data w = (w', r) → w_state w' = w_state w ∧ w_marker w' = w_marker w ∧ w_blobs w ⊆ w_blobs w'.
Proof.
  unfold Put. unfold mbind at 1, stM_bind at 1, lift at 1. destruct ctx as [[]|e]; [|by intros [= <- _]].
  unfold mbind at 1, stM_bind at 1, lift at 1. destruct (throw_if _ _) as [[]|e]; [|by intros [= <- _]].
  rewrite gets_bind. destruct (w_blobs w !! _) as [x|] eqn:Eb; unfold mbind, stM_bind, lift.
  - by destruct (throw_if _ _) as [[]|e]; intros [= <- _].
  - destruct (durableAtomicWrite _ _ w) as [w1 r1] eqn:E. intros Eq.
    assert (w' = w1) as -> by (by destruct r1; injection Eq).
    apply durableAtomicWrite_cases in E as [[_ ->]|(e & _ & [->|[-> _]])]; simpl; (split; [done|]); (split; [done|]);
      [by apply insert_subseteq|done|by apply insert_subseteq].
Qed.

Lemma step_durable w s w' :
  durable w s → store_step w w' → ∃ s', durable w' s' ∧ extends s s' ∧ w_blobs w ⊆ w_blobs w'.
Proof.
  intros Hd Hst. destruct Hst as [C ctx callback c Hcl|ctx a|ctx data|ctx].
  - destruct (within_durable ctx callback c w s Hd) as (s' & ? & ? & Hb); [|exists s'; by rewrite Hb].
    intros t. by destruct (client_evolves ctx callback t c Hcl).
  - destruct (within_durable (C:=unit) ctx (on_fst (tx_saveReleaseAuthorization ctx a)) tt w s Hd) as (s' & Hd' & ? & Hb).
    { intros t. pose proof (saveReleaseAuthorization_evolves ctx a t) as [He _].
      unfold on_fst. simpl. by destruct (tx_saveReleaseAuthorization ctx a t). }
    exists s'. unfold SaveReleaseAuthorization, within_unit.
    destruct (FileStore_Within _ _ _) as [[w1 c1] r]. simpl in *. by rewrite Hb.
  - destruct (Put ctx data w) as [w1 r] eqn:E. destruct (put_records _ _ _ _ _ E) as (Hs & Hm & Hb). exists s. split; [|done].
    destruct Hd as [(?&?&?) ? ?]. split; [|done..]. unfold settled; simpl; split_and!; congruence.
  - exists s. destruct (loadOperationalStateLocked ctx w) as [w1 r] eqn:E.
    apply (load_settled _ _ _ _ _ (du_settled _ _ Hd)) in E as [-> _]. by split_and!.
Qed.

Lemma run_durable w w' :
  rtc store_step w w' → ∀ s, durable w s → ∃ s', durable w' s' ∧ extends s s' ∧ w_blobs w ⊆ w_blobs w'.
Proof.
  induction 1 as [w|w w1 w' Hst _ IH]; intros s Hd; [by exists s|].
  destruct (step_durable _ _ _ Hd Hst) as (s1 & Hd1 & ? & ?).
  destruct (IH s1 Hd1) as (s' & ? & ? & ?). exists s'. split; [done|]. split; by etrans.
Qed.

End runs.

(** ** Properties *)

Section properties.
Context `{CaseTables, !CaseLaws}.

(** C8: transactions are atomic, whatever the callback and the disk do.
    [Within] on a settled store either commits the callback's complete,
    validated state, or leaves the last state as it was and returns an error;
    only an error that wraps [ErrCommitOutcomeUnknown] can come with the new
    state, and then the new state is complete too.  Blobs and legacy records
    are never touched. *)
Theorem transactions_are_atomic {C} ctx (callback : stM (operationalTransaction * C) unit) w s c w' c' r :
  settled w s → FileStore_Within ctx callback (w, c) = ((w', c'), r) →
  same_records w w' ∧
  match r with
  | Ok _ => ∃ next, committed ctx callback w s c next c' ∧ settled w' (reread_state next)
  | Fail e =>
      settled w' s
      ∨ Is "operational commit outcome unknown" e = true
        ∧ ∃ next, committed ctx callback w s c next c' ∧ settled w' (reread_state next)
  end.
Proof.
  intros Hset Hw. destruct (within_cases _ _ _ _ _ _ _ _ Hset Hw) as [Hr Hc]. split; [done|].
  destruct Hc as [(e & -> & Hs)|(next & Hn & Hs & [->|(e & -> & He)])]; [by left|eauto|right; eauto].
Qed.

(** C7: persisted evidence is permanent.  Through any history of transactions,
    authorizations, blob writes and reads of a store, with any failures, the
    store stays settled; every review, sync record, authorization, audit event
    and outbox message it held is still there unchanged, every blob too; a
    revision with its snapshot keeps all of its fields but a ref that became
    its commit; and every track keeps its identity and mode, never lowers its
    generation, and is unchanged as long as its generation is. *)
Theorem persisted_evidence_is_permanent w s w' :
  durable w s → rtc store_step w w' → ∃ s', durable w' s' ∧ extends s s' ∧ w_blobs w ⊆ w_blobs w'.
Proof. intros Hd Hr. by eapply run_durable. Qed.

(** Saving a track that is there already changes nothing. *)
Lemma replay_changes_nothing s current generation :
  os_ReleaseTracks s !! releaseTrackKey (rt_ContractID current) (rt_ID current) = Some current →
  ∃ r, tx_SaveReleaseTrack (Ok tt) generation current (begin_transaction s) = (begin_transaction s, r)
    ∧ (validateID (rt_ContractID current) = Ok tt → validateID (rt_ID current) = Ok tt →
       ValidateReleaseTrack current = Ok tt → r = Ok tt).
Proof.
  intros Hc. unfold tx_SaveReleaseTrack.
  unfold mbind at 1, stM_bind at 1, lift at 1. unfold mbind at 1, stM_bind at 1, lift at 1.
  destruct (validateID (rt_ContractID current)) as [[]|e]; [|by exists (Fail e)].
  unfold mbind at 1, stM_bind at 1, lift at 1. destruct (validateID (rt_ID current)) as [[]|e]; [|by exists (Fail e)].
  unfold mbind at 1, stM_bind at 1, lift at 1. destruct (ValidateReleaseTrack current) as [[]|e] eqn:Ev; [|by eexists].
  cbn [wrap_err]. rewrite gets_bind. cbn [tx_state begin_transaction]. rewrite Hc.
  unfold mbind at 1, stM_bind at 1, lift at 1. rewrite Ev. cbn [wrap_err]. rewrite bool_decide_eq_true_2 by done.
  by exists (Ok tt).
Qed.

(** C22: no lost updates.  A writer that read a track before some history and
    saves against the generation it read either finds the very track it read,
    or changes nothing: saving another track than the persisted one then fails,
    with [ErrGenerationConflict] when what it saves is well formed and the
    persisted track valid.  Saving the persisted track again, against whatever
    generation, is a replay: it changes nothing and succeeds if the track is
    valid. *)
Theorem no_lost_updates w s w' k read :
  durable w s → os_ReleaseTracks s !! k = Some read → rtc store_step w w' →
  ∃ s' current, durable w' s' ∧ os_ReleaseTracks s' !! k = Some current
    ∧ (current = read ∨
       ∀ next, k = releaseTrackKey (rt_ContractID next) (rt_ID next) → next ≠ current →
         ∃ e, tx_SaveReleaseTrack (Ok tt) (rt_Generation read) next (begin_transaction s')
              = (begin_transaction s', Fail e)
           ∧ (validateID (rt_ContractID next) = Ok tt → validateID (rt_ID next) = Ok tt →
              ValidateReleaseTrack next = Ok tt → ValidateReleaseTrack current = Ok tt → e = ErrGenerationConflict))
    ∧ (k = releaseTrackKey (rt_ContractID current) (rt_ID current) → ∀ generation,
         ∃ r, tx_SaveReleaseTrack (Ok tt) generation current (begin_transaction s') = (begin_transaction s', r)
           ∧ (validateID (rt_ContractID current) = Ok tt → validateID (rt_ID current) = Ok tt →
              ValidateReleaseTrack current = Ok tt → r = Ok tt)).
Proof.
  intros Hd Hk Hr. destruct (run_durable _ _ Hr _ Hd) as (s' & Hd' & He & _).
  destruct (ex_tracks _ _ He _ _ Hk) as (current & Hc & Had). exists s', current. split; [done|]. split; [done|].
  split; [|by intros -> generation; apply replay_changes_nothing].
  destruct Had as (_&_&_&_&_&Heq). destruct (decide (rt_Generation current = rt_Generation read)) as [E|Hne]; [left; auto|right].
  intros next -> Hnc. unfold tx_SaveReleaseTrack.
  unfold mbind at 1, stM_bind at 1, lift at 1. unfold mbind at 1, stM_bind at 1, lift at 1.
  destruct (validateID (rt_ContractID next)) as [[]|e]; [|by exists e].
  unfold mbind at 1, stM_bind at 1, lift at 1. destruct (validateID (rt_ID next)) as [[]|e]; [|by exists e].
  unfold mbind at 1, stM_bind at 1, lift at 1. destruct (ValidateReleaseTrack next) as [[]|e]; [|by eexists].
  cbn [wrap_err]. rewrite gets_bind. cbn [tx_state begin_transaction]. rewrite Hc.
  unfold mbind at 1, stM_bind at 1, lift at 1. destruct (ValidateReleaseTrack current) as [[]|e]; [|by eexists].
  cbn [wrap_err]. rewrite bool_decide_eq_false_2 by congruence.
  unfold mbind at 1, stM_bind at 1, lift at 1. apply Z.eqb_neq in Hne. rewrite Hne. simpl. by exists ErrGenerationConflict.
Qed.
End properties.

(** ** Witnesses *)

Lemma small_settled : settled small_world small_state.
Proof. split_and!; vm_compute; reflexivity. Qed.

Definition generations_check (s : operationalState) : bool :=
  forallb (λ kv, (0 <=? rt_Generation kv.2) && (rt_Generation kv.2 <=? max_uint64)) (map_to_list (os_ReleaseTracks s)).

Lemma generations_check_ok s : generations_check s = true → generations_ok s.
Proof.
  unfold generations_check. rewrite forallb_forall. intros Hf k t Ht.
  apply elem_of_map_to_list, list_elem_of_In in Ht. apply Hf in Ht. simpl in Ht. bool_prop. split; lia.
Qed.

Lemma small_durable : durable small_world small_state.
Proof.
  split; [apply small_settled|vm_compute; reflexivity|]. apply generations_check_ok. vm_compute. reflexivity.
Qed.

Lemma seeded_durable : durable seeded_world seeded_state.
Proof.
  split; [split_and!; vm_compute; reflexivity|vm_compute; reflexivity|].
  apply generations_check_ok. vm_compute. reflexivity.
Qed.

(** The small client on a disk that cannot confirm the replacement. *)
Definition unsure (w : World) : World :=
  MkWorld (w_state w) (w_marker w) (w_blobs w) (w_revisions w) (w_publications w) (w_syncs w)
    [Unconfirmed (Errorf "sync directory: input/output error" [])].
Lemma unsure_settled w s : settled w s → settled (unsure w) s.
Proof. done. Qed.

Definition unsure_commit : World * unit * res unit :=
  @FileStore_Within latin1 _ (Ok tt) small_callback (unsure small_world, tt).
Lemma unsure_fails : unsure_commit = ((unsure_commit.1.1, unsure_commit.1.2), Fail (failure unsure_commit.2)).
Proof.
  assert (match ok_value unsure_commit.2 with Some _ => false | None => true end = true) as Hf by (vm_compute; reflexivity).
  revert Hf. by destruct unsure_commit as [[w c] [a|e]].
Qed.

Lemma transactions_are_atomic_witness :
  same_records (unsure small_world) unsure_commit.1.1 ∧
  (settled unsure_commit.1.1 small_state
   ∨ Is "operational commit outcome unknown" (failure unsure_commit.2) = true
     ∧ ∃ next, @committed latin1 _ (Ok tt) small_callback (unsure small_world) small_state tt next unsure_commit.1.2
       ∧ settled unsure_commit.1.1 (reread_state next)).
Proof.
  apply (@transactions_are_atomic latin1 unit (Ok tt) small_callback (unsure small_world)
           small_state tt unsure_commit.1.1 unsure_commit.1.2 (Fail (failure unsure_commit.2))).
  - exact (unsure_settled _ _ small_settled).
  - exact unsure_fails.
Defined.

(** The history of the small client's commit. *)
Definition small_commit : World * unit * res unit :=
  @FileStore_Within latin1 _ (Ok tt) small_callback (small_world, tt).

Lemma small_history : rtc (@store_step latin1) small_world small_commit.1.1.
Proof.
  unfold small_commit. generalize small_world as w. intros w. apply rtc_once.
  apply (@step_within latin1 w unit (Ok tt) small_callback tt). apply small_callback_client.
Qed.

Lemma persisted_evidence_is_permanent_witness :
  ∃ s', durable small_commit.1.1 s' ∧ extends small_state s' ∧ w_blobs small_world ⊆ w_blobs small_commit.1.1.
Proof.
  apply (@persisted_evidence_is_permanent latin1 _ _ _ small_durable). exact small_history.
Defined.

Definition small_key : string := releaseTrackKey "c" "t".

Lemma no_lost_updates_witness :
  ∃ s' current, durable small_commit.1.1 s' ∧ os_ReleaseTracks s' !! small_key = Some current
    ∧ (current = small_track ∨
       ∀ next, small_key = releaseTrackKey (rt_ContractID next) (rt_ID next) → next ≠ current →
         ∃ e, tx_SaveReleaseTrack (Ok tt) (rt_Generation small_track) next (begin_transaction s')
              = (begin_transaction s', Fail e)
           ∧ (validateID (rt_ContractID next) = Ok tt → validateID (rt_ID next) = Ok tt →
              ValidateReleaseTrack next = Ok tt → ValidateReleaseTrack current = Ok tt →
              e = ErrGenerationConflict))
    ∧ (small_key = releaseTrackKey (rt_ContractID current) (rt_ID current) → ∀ generation,
         ∃ r, tx_SaveReleaseTrack (Ok tt) generation current (begin_transaction s') = (begin_transaction s', r)
           ∧ (validateID (rt_ContractID current) = Ok tt → validateID (rt_ID current) = Ok tt →
              ValidateReleaseTrack current = Ok tt → r = Ok tt)).
Proof.
  apply (@no_lost_updates latin1 _ _ _ _ _ small_durable); [vm_compute; reflexivity|exact small_history].
Defined.
