(* ===== verification/CoordinateSafety.v ===== *)
(** * Coordinate on a file store

    application/release.go over internal/adapters/store/fs.go: what a
    successful [Coordinate] means for the directory — which persisted evidence
    it used, what it did to the track, and when. *)

From stdpp Require Import pretty.
From S2P Require Import Prelude GoString GoSha256 GoTime GoJson Identity Spec Snapshot SpecDiff.
From S2P Require Import Release.
From S2P Require Import Policy.
From S2P Require Import Review.
From S2P Require Import Records.
From S2P Require Import Ports.
From S2P Require Import StoreState.
From S2P Require Import StoreTx.
From S2P Require Import FileStore.
From S2P Require Import StoreInvariant.
From S2P Require Import ReleaseService.
From S2P Require Import Fixture.
From S2P Require Import StoreSafety.
From S2P Require Import StoreRuns.

(** Take a successful run of a state program apart. *)
Ltac st_inv :=
  repeat match goal with
  | H : (lift _ ≫= _) _ = (_, Ok _) |- _ => apply lift_bind_ok in H as (? & ? & H)
  | H : (gets _ ≫= _) _ = (_, Ok _) |- _ => rewrite gets_bind in H
  | H : (_ ≫= _) _ = (_, Ok _) |- _ => apply st_bind_ok in H as (? & ? & ? & H)
  | H : st_wrap _ _ _ = (_, Ok _) |- _ => apply st_wrap_ok in H
  | H : integrity _ _ = Ok _ |- _ => unfold integrity in H; apply wrap_err_ok in H
  | H : wrap_err _ _ = Ok _ |- _ => apply wrap_err_ok in H
  | H : throw_if _ _ = Ok _ |- _ => apply throw_if_ok_u in H
  | H : mret _ _ = (_, Ok _) |- _ => injection H as ??
  | H : lift _ _ = (_, Ok _) |- _ => injection H as ??
  end.

Section coordinate.
Context `{CaseTables, !CaseLaws}.

(** ** Reads of a settled store *)

Lemma load_settled_ok ctx w s w' s' :
  settled w s → loadOperationalStateLocked ctx w = (w', Ok s') → w' = w ∧ s' = s.
Proof. intros Hs Hl. destruct (load_settled _ _ _ _ _ Hs Hl) as [-> Hx]. auto. Qed.

Lemma read_revision ctx contract id w s w' r :
  settled w s → FileStore_ContractRevision ctx contract id w = (w', Ok r) →
  w' = w ∧ revisionForContract s contract id = Some r ∧ validateRevisionEvidence ctx (w_blobs w) r = Ok tt.
Proof.
  intros Hs Hr. unfold FileStore_ContractRevision in Hr. do 2 apply lift_bind_ok in Hr as (_ & _ & Hr).
  apply st_bind_ok in Hr as (w1 & s1 & [-> ->]%(load_settled_ok _ _ _ _ _ Hs) & Hr).
  apply lift_bind_ok in Hr as (r1 & Hr1 & Hr). st_inv. subst.
  destruct (revisionForContract s contract id) as [r2|]; [|done]. injection Hr1 as ->.
  match goal with Hv : validateRevisionEvidence _ _ _ = Ok ?u |- _ => destruct u end. by split_and!.
Qed.

Lemma read_evidence ctx contract track id w s w' ev :
  settled w s → FileStore_ReleaseEvidence ctx contract track id w = (w', Ok ev) →
  w' = w ∧ os_ReleaseAuthorizations s !! id = Some (re_Authorization ev)
  ∧ os_Reviews s !! ra_ReviewID (re_Authorization ev) = Some (re_Review ev)
  ∧ os_SyncRecords s !! ra_SyncRecordID (re_Authorization ev) = Some (re_SyncRecord ev).
Proof.
  intros Hs Hr. unfold FileStore_ReleaseEvidence in Hr. apply lift_bind_ok in Hr as (_ & _ & Hr).
  apply st_bind_ok in Hr as (w1 & s1 & [-> ->]%(load_settled_ok _ _ _ _ _ Hs) & Hr).
  apply lift_bind_ok in Hr as (a & Ha & Hr). apply lift_bind_ok in Hr as (_ & _ & Hr).
  apply lift_bind_ok in Hr as (review & Hrev & Hr). apply lift_bind_ok in Hr as (sync & Hsy & Hr). st_inv. subst.
  destruct (os_ReleaseAuthorizations s !! id) as [a'|] eqn:Ea; [|done]. injection Ha as ->.
  destruct (os_Reviews s !! _) as [r'|] eqn:Er; [|done]. injection Hrev as ->.
  destruct (os_SyncRecords s !! _) as [y'|] eqn:Ey; [|done]. injection Hsy as ->.
  by split_and!.
Qed.

(** ** The evidence of a command *)

(** The persisted records a command selects, and the decision they make. *)
Record selected (s : operationalState) (command : ReleaseCommand) (ev : ReleaseEvidence) (d : ReleaseDecision) : Prop := {
  se_authorization : os_ReleaseAuthorizations s !! rv_ID (rc_Review command) = Some (re_Authorization ev);
  se_review : os_Reviews s !! ra_ReviewID (re_Authorization ev) = Some (re_Review ev);
  se_sync : os_SyncRecords s !! ra_SyncRecordID (re_Authorization ev) = Some (re_SyncRecord ev);
  se_contract : ra_ContractID (re_Authorization ev) = rc_ContractID command;
  se_track : ra_TrackID (re_Authorization ev) = rc_TrackID command;
  se_candidate : ra_CandidateRevisionID (re_Authorization ev) = rc_RevisionID command;
  se_sync_revision : sy_RevisionID (re_SyncRecord ev) = rc_RevisionID command;
  se_truth : ∃ base cand sb sc,
    revisionForContract s (rc_ContractID command) (ra_BaselineRevisionID (re_Authorization ev)) = Some base
    ∧ revisionForContract s (rc_ContractID command) (rc_RevisionID command) = Some cand
    ∧ cv_ReviewSnapshot base = Some sb ∧ cv_ReviewSnapshot cand = Some sc
    ∧ truthful (rv_Report (re_Review ev)) sb sc;
  se_decision : ∃ canonical, CanonicalReviewJSON (rv_Report (re_Review ev)) = Ok canonical
    ∧ d = MkReleaseDecision (rc_RevisionID command) (rv_ID (re_Review ev)) (sha256Hex canonical)
            (rr_Verdict (rv_Report (re_Review ev))) (rc_Accepted command)
            (rr_EvaluatedAt (rv_Report (re_Review ev)));
  se_accepted : rc_Accepted command = true →
    rr_Verdict (rv_Report (re_Review ev)) = VerdictPass ∧ sy_Result (re_SyncRecord ev) = SyncResultSuccess;
}.

Lemma review_snapshot_ok r sn : revisionReviewSnapshot r = Ok sn → cv_ReviewSnapshot r = Some sn.
Proof.
  unfold revisionReviewSnapshot. destruct (cv_ReviewSnapshot r) as [sn'|]; [|done].
  intros Hs. do 3 apply seq_ok in Hs as [_ Hs]. by injection Hs as ->.
Qed.

Lemma evidence_selected ctx command w s w' ev d :
  settled w s → file_coordinate_evidence ctx command w = (w', Ok (ev, d)) →
  w' = w ∧ selected s command ev d.
Proof.
  intros Hs He. unfold file_coordinate_evidence, coordinate_evidence in He.
  apply lift_bind_ok in He as (_ & _ & He).
  apply st_bind_ok in He as (w1 & ev1 & Hev & He). apply st_wrap_ok in Hev.
  apply (read_evidence _ _ _ _ _ _ _ _ Hs) in Hev as (-> & Ha & Hr & Hsy).
  apply lift_bind_ok in He as (u & Hsel & He). destruct u.
  apply st_bind_ok in He as (w2 & base & Hb & He). apply st_wrap_ok in Hb.
  apply (read_revision _ _ _ _ _ _ _ Hs) in Hb as (-> & Hb & _).
  apply st_bind_ok in He as (w3 & cand & Hc & He). apply st_wrap_ok in Hc.
  apply (read_revision _ _ _ _ _ _ _ Hs) in Hc as (-> & Hc & _).
  do 3 apply lift_bind_ok in He as (_ & _ & He).
  apply lift_bind_ok in He as (sb & Hsb & He). apply lift_bind_ok in He as (sc & Hsc & He).
  apply lift_bind_ok in He as (_ & _ & He). apply lift_bind_ok in He as (u & Htruth & He). destruct u.
  apply lift_bind_ok in He as (d1 & Hd & He). injection He as <- <- <-. split; [done|].
  apply wrap_err_ok, review_snapshot_ok in Hsb, Hsc. apply wrap_err_ok in Htruth, Hd, Hsel.
  unfold releaseDecision in Hd. apply bind_ok in Hd as (canonical & Hcan & [= <-]).
  unfold validateSelectedReleaseEvidence in Hsel. apply seq_ok in Hsel as [_ Hsel].
  apply seq_ok in Hsel as [H1 Hsel]. apply seq_ok in Hsel as [H2 Hsel]. apply seq_ok in Hsel as [H3 Hacc].
  rewrite throw_if_ok in H1, H2, H3. bool_prop.
  match goal with E : ra_CandidateRevisionID _ = rc_RevisionID command |- _ => rename E into Ecand end.
  split; try done; try congruence.
  - exists base, cand, sb, sc. rewrite <-Ecand. split_and!; try done. by eapply accepted_truthful.
  - exists canonical. split; [done|]. f_equal. congruence.
  - intros E. rewrite E in Hacc. apply seq_ok in Hacc as [Hv Hy]. rewrite throw_if_ok in Hv, Hy. by bool_prop.
Qed.

(** ** The writes of a transition *)

Lemma if_bind_tracks (b : bool) c r o t t' u :
  (if b then mret tt else tx_bindRevisionOwner c r o) t = (t', Ok u) →
  os_ReleaseTracks (tx_state t') = os_ReleaseTracks (tx_state t)
  ∧ os_Publications (tx_state t') = os_Publications (tx_state t).
Proof.
  destruct b; [by intros [= <- _]|]. intros E. pose proof (tx_bind_quiet c r o t) as Hq. rewrite E in Hq.
  destruct Hq as [Hs _ _]. simpl in Hs. by rewrite Hs.
Qed.

Lemma save_track_ok ctx g tr t t' u :
  tx_SaveReleaseTrack ctx g tr t = (t', Ok u) →
  os_ReleaseTracks (tx_state t')
    = <[releaseTrackKey (rt_ContractID tr) (rt_ID tr) := tr]> (os_ReleaseTracks (tx_state t)).
Proof.
  intros Hs. unfold tx_SaveReleaseTrack in Hs. do 4 apply lift_bind_ok in Hs as (_ & _ & Hs).
  rewrite gets_bind in Hs. apply lift_bind_ok in Hs as (_ & _ & Hs). case_bool_decide as Hc.
  - injection Hs as <- _. by rewrite insert_id.
  - apply lift_bind_ok in Hs as (_ & _ & Hs).
    apply st_bind_ok in Hs as (t1 & [] & [E1 _]%if_bind_tracks & Hs).
    apply st_bind_ok in Hs as (t2 & [] & [E2 _]%if_bind_tracks & Hs).
    apply st_bind_ok in Hs as (t3 & [] & [= <-] & [= <- _]). simpl. by rewrite E2, E1.
Qed.

Lemma save_publication_ok ctx p t t' u :
  tx_SavePublication ctx p t = (t', Ok u) →
  os_ReleaseTracks (tx_state t') = os_ReleaseTracks (tx_state t)
  ∧ os_Publications (tx_state t') !! publicationKey (pb_ProjectID p) (pb_RevisionID p) = Some p.
Proof.
  intros Hs. unfold tx_SavePublication in Hs. do 5 apply lift_bind_ok in Hs as (_ & _ & Hs).
  apply st_bind_ok in Hs as (t1 & [] & [E1 _]%(if_bind_tracks false) & [= <- _]). simpl. split; [done|].
  apply lookup_insert_eq.
Qed.

Lemma append_ok ctx e t t' u :
  tx_AppendAuditEvent ctx e t = (t', Ok u) →
  os_ReleaseTracks (tx_state t') = os_ReleaseTracks (tx_state t)
  ∧ os_Publications (tx_state t') = os_Publications (tx_state t).
Proof.
  intros Hs. unfold tx_AppendAuditEvent in Hs. do 3 apply lift_bind_ok in Hs as (_ & _ & Hs).
  apply st_bind_ok in Hs as (t1 & [] & [<- <-]%if_bind_tracks & Hs). rewrite gets_bind in Hs.
  destruct (os_AuditEvents _ !! _); [|by injection Hs as <- _].
  apply lift_bind_ok in Hs as (equal & _ & Hs). by injection Hs as <- _.
Qed.

Lemma enqueue_ok ctx m t t' u :
  tx_Enqueue ctx m t = (t', Ok u) →
  os_ReleaseTracks (tx_state t') = os_ReleaseTracks (tx_state t)
  ∧ os_Publications (tx_state t') = os_Publications (tx_state t).
Proof.
  intros Hs. unfold tx_Enqueue in Hs. do 3 apply lift_bind_ok in Hs as (_ & _ & Hs).
  apply st_bind_ok in Hs as (t1 & [] & [<- <-]%if_bind_tracks & Hs). rewrite gets_bind in Hs.
  destruct (os_Outbox _ !! _); [|by injection Hs as <- _].
  apply lift_bind_ok in Hs as (equal & _ & Hs). by injection Hs as <- _.
Qed.

(** The public route of an authorization's candidate. *)
Definition route (a : ReleaseAuthorization) : Publication :=
  MkPublication (ra_ContractID a) (ra_CandidateRevisionID a) true (ra_PublicPath a) "".

Lemma record_transition_ok ctx now command a track next t t' u :
  record_transition (S:=operationalTransaction) ctx now command a track next t = (t', Ok u) →
  os_ReleaseTracks (tx_state t')
    = <[releaseTrackKey (rt_ContractID next) (rt_ID next) := next]> (os_ReleaseTracks (tx_state t))
  ∧ (rc_Accepted command = true → rt_CurrentRevisionID next = ra_CandidateRevisionID a →
     os_Publications (tx_state t') !! publicationKey (ra_ContractID a) (ra_CandidateRevisionID a) = Some (route a)).
Proof.
  intros Hr. unfold record_transition in Hr.
  apply st_bind_ok in Hr as (t1 & [] & Hs%st_wrap_ok%save_track_ok & Hr).
  apply st_bind_ok in Hr as (t2 & [] & Hp & Hr).
  apply st_bind_ok in Hr as (t3 & [] & [Ha1 Ha2]%st_wrap_ok%append_ok & [He1 He2]%st_wrap_ok%enqueue_ok).
  rewrite He1, Ha1, He2, Ha2. clear He1 Ha1 He2 Ha2. destruct (rc_Accepted command && bool_decide _) eqn:Hb.
  - apply st_wrap_ok, save_publication_ok in Hp as [-> Hp]. by split.
  - injection Hp as <-. split; [done|]. intros E1 E2. by rewrite E1, bool_decide_eq_true_2 in Hb.
Qed.

(** ** The callback *)

(** The review is not from the future and no exception it applied has expired. *)
Definition timely (report : ReviewReport) (clock : Time) : Prop :=
  IsZero clock = false ∧ t_ns (rr_EvaluatedAt report) ≤ t_ns clock + ReleaseReviewMaxFutureSkew
  ∧ ∀ c e, c ∈ elems (rr_Comparisons report) → e ∈ elems (pres_AppliedExceptions (cr_Policy c)) →
      t_ns clock < t_ns (pe_ExpiresAt e).

Lemma applied_exceptions_ok report now :
  validateAppliedExceptionsAtReleaseTime report now = Ok tt →
  ∀ c e, c ∈ elems (rr_Comparisons report) → e ∈ elems (pres_AppliedExceptions (cr_Policy c)) →
    t_ns now < t_ns (pe_ExpiresAt e).
Proof.
  unfold validateAppliedExceptionsAtReleaseTime. rewrite for_eachi_ok. intros Hall c e Hc He.
  apply list_elem_of_lookup in Hc as [n Hn]. apply Hall in Hn. rewrite for_eachi_ok in Hn.
  apply list_elem_of_lookup in He as [m Hm]. apply Hn, throw_if_ok in Hm. unfold Before in Hm. by bool_prop.
Qed.

Lemma temporal_check_ok (m : res unit) (s s' : operationalTransaction * coordination) u :
  temporal_check m s = (s', Ok u) → m = Ok tt ∧ s' = s.
Proof.
  unfold temporal_check. destruct m as [[]|e]; [by intros [= <- _]|]. intros Hc.
  apply st_bind_ok in Hc as (s1 & v & _ & Hc). done.
Qed.

(** What the transaction of a successful [Coordinate] did to the track. *)
Inductive considered (a : ReleaseAuthorization) (report : ReviewReport) (clock : Time) (track : ReleaseTrack)
    (d : ReleaseDecision) : ReleaseTrack → Prop :=
  | considered_before : rt_LastDecision track = Some d → considered a report clock track d track
  | considered_stale last :
      rt_LastDecision track = Some last → t_ns (rd_EvaluatedAt d) < t_ns (rd_EvaluatedAt last) →
      timely report clock → considered a report clock track d track
  | considered_now :
      newer track d → timely report clock → rt_CurrentRevisionID track = ra_BaselineRevisionID a →
      considered a report clock track d (apply_decision track d).

Lemma callback_outcome ctx clock command ev d t c t' c' :
  generations_ok (tx_state t) →
  ra_ContractID (re_Authorization ev) = rc_ContractID command → ra_TrackID (re_Authorization ev) = rc_TrackID command →
  coordinate_callback (S:=operationalTransaction) ctx clock command ev d (t, c) = ((t', c'), Ok tt) →
  let a := re_Authorization ev in
  ∃ track, os_ReleaseTracks (tx_state t) !! releaseTrackKey (ra_ContractID a) (ra_TrackID a) = Some track
    ∧ rt_ContractID track = ra_ContractID a ∧ rt_ID track = ra_TrackID a ∧ rt_BoundRef track = ra_BoundRef a
    ∧ considered a (rv_Report (re_Review ev)) clock track d (co_next c')
    ∧ os_ReleaseTracks (tx_state t')
      = <[releaseTrackKey (ra_ContractID a) (ra_TrackID a) := co_next c']> (os_ReleaseTracks (tx_state t))
    ∧ (co_next c' ≠ track → rc_Accepted command = true → rt_CurrentRevisionID (co_next c') = ra_CandidateRevisionID a →
       os_Publications (tx_state t') !! publicationKey (ra_ContractID a) (ra_CandidateRevisionID a) = Some (route a))
    ∧ co_temporalIntegrityFailure c' = co_temporalIntegrityFailure c.
Proof.
  intros Hg Hcon Htr Hc a. unfold coordinate_callback in Hc. fold a in Hcon, Htr, Hc. rewrite <-Hcon, <-Htr in Hc.
  apply st_bind_ok in Hc as ([t1 c1] & track & Hl & Hc). apply on_fst_ok in Hl as [Hl ->].
  apply st_wrap_ok in Hl. simpl in Hl. unfold tx_ReleaseTrack in Hl.
  do 3 apply lift_bind_ok in Hl as (_ & _ & Hl). rewrite gets_bind in Hl.
  destruct (os_ReleaseTracks (tx_state t) !! _) as [track'|] eqn:Etrack; [|done].
  injection Hl as <- Hl. apply bind_ok in Hl as (_ & _ & [= ->]).
  exists track. split; [done|]. specialize (Hg _ _ Etrack).
  apply lift_bind_ok in Hc as (_ & _ & Hc). apply lift_bind_ok in Hc as (u & Hauth & Hc). destruct u.
  apply lift_bind_ok in Hc as (_ & _ & Hc).
  unfold validateReleaseAuthorizationForTrack in Hauth. apply seq_ok in Hauth as [Ha1 Ha2].
  rewrite throw_if_ok in Ha1, Ha2. bool_prop.
  split; [done|]. split; [done|]. split; [done|].
  case_bool_decide as Hlast.
  { apply on_snd_ok in Hc as [[= <-] <-]. simpl. split; [by apply considered_before|].
    split; [by rewrite insert_id|done]. }
  apply st_bind_ok in Hc as (s1 & [] & [Hz ->]%temporal_check_ok & Hc).
  apply st_bind_ok in Hc as (s1 & [] & [Hskew ->]%temporal_check_ok & Hc).
  apply st_bind_ok in Hc as (s1 & [] & [Hexp ->]%temporal_check_ok & Hc).
  assert (timely (rv_Report (re_Review ev)) clock) as Htime.
  { rewrite throw_if_ok in Hz, Hskew. unfold After in Hskew. bool_prop. split; [done|]. split; [done|].
    intros cr e. exact (applied_exceptions_ok _ _ Hexp cr e). }
  destruct (ConsiderReleaseDecision track d) as [[next changed]|e] eqn:Econ.
  2: { apply st_bind_ok in Hc as (? & ? & _ & Hc). done. }
  apply consider_iff in Econ as (_ & _ & Hcons); [|done].
  apply st_bind_ok in Hc as ([t1 c2] & [] & [[= <-] ->]%on_snd_ok & Hc).
  destruct Hcons as [(_ & _ & ?)|(_ & _ & _ & [(-> & -> & last & El & Hlt)|(-> & Hnew & ->)])]; [done| |]; simpl in Hc.
  - injection Hc as <- <-. simpl. split; [by eapply considered_stale|]. split; [by rewrite insert_id|done].
  - apply lift_bind_ok in Hc as (u & Hbase & Hc). destruct u. apply throw_if_ok in Hbase. bool_prop.
    apply on_fst_ok in Hc as [[Htracks Hpub]%record_transition_ok ->]. simpl.
    split; [by apply considered_now|]. split; [|split; [by intros _; apply Hpub|done]].
    rewrite Htracks. simpl. by f_equal; f_equal.
Qed.

(** ** Reads change nothing *)

Definition reads {A} (m : io A) : Prop := ∀ w s w' r, settled w s → m w = (w', r) → w' = w.

Lemma reads_bind {A B} (m : io A) (f : A → io B) : reads m → (∀ a, reads (f a)) → reads (m ≫= f).
Proof.
  intros Hm Hf w s w' r Hs. unfold mbind, stM_bind. destruct (m w) as [w1 [a|e]] eqn:E.
  - rewrite (Hm _ _ _ _ Hs E). by apply (Hf a w s).
  - intros [= <- <-]. by apply (Hm _ _ _ _ Hs E).
Qed.
Lemma reads_lift {A} (r : res A) : reads (lift r).
Proof. by intros w s w' r' _ [= <- _]. Qed.
Lemma reads_ret {A} (a : A) : reads (mret a).
Proof. by intros w s w' r' _ [= <- _]. Qed.
Lemma reads_gets {A} (g : World → A) : reads (gets g).
Proof. by intros w s w' r' _ [= <- _]. Qed.
Lemma reads_wrap {A} (m : io A) f : reads m → reads (st_wrap m f).
Proof.
  intros Hm w s w' r Hs. unfold st_wrap. destruct (m w) as [w1 r1] eqn:E. intros [= <- _]. by apply (Hm _ _ _ _ Hs E).
Qed.
Lemma reads_load ctx : reads (loadOperationalStateLocked ctx).
Proof. intros w s w' r Hs Hl. by apply (load_settled _ _ _ _ _ Hs) in Hl as [-> _]. Qed.

Ltac reads_steps :=
  repeat first [apply reads_load|apply reads_lift|apply reads_ret|apply reads_gets|apply reads_wrap
               |apply reads_bind; [|intros ?]].

Lemma evidence_reads ctx command : reads (file_coordinate_evidence ctx command).
Proof.
  unfold file_coordinate_evidence, coordinate_evidence, ReadReleaseEvidence, file_evidence_reader,
    FileStore_ReleaseEvidence, ReadContractRevision, file_revision_reader, FileStore_ContractRevision.
  reads_steps.
Qed.

(** ** The kinds of errors *)

(** Errors of [Coordinate], by what went wrong. *)
Definition coordinate_error (kinds : list string) (e : error) : Prop :=
  ∃ kind cause, e = Classified kind "coordinate release" cause ∧ kind ∈ kinds.

Definition fails_with {W A} (kinds : list string) (m : stM W A) : Prop :=
  ∀ w w' e, m w = (w', Fail e) → coordinate_error kinds e.

Lemma fails_bind {W A B} kinds (m : stM W A) (f : A → stM W B) :
  fails_with kinds m → (∀ a, fails_with kinds (f a)) → fails_with kinds (m ≫= f).
Proof.
  intros Hm Hf w w' e. unfold mbind, stM_bind. destruct (m w) as [w1 [a|e1]] eqn:E; [apply Hf|].
  intros [= <- <-]. by apply (Hm _ _ _ E).
Qed.
Lemma fails_ret {W A} kinds (a : A) : fails_with (W:=W) kinds (mret a).
Proof. by intros w w' e. Qed.
Lemma fails_wrap {W A} kinds kind (m : stM W A) w :
  kind ∈ kinds → fails_with kinds (st_wrap m (λ e, wrapError kind "coordinate release" (w e))).
Proof.
  intros Hk s s' e. unfold st_wrap. destruct (m s) as [s1 [a|e1]]; simpl; [done|].
  intros [= <- <-]. by eexists _, _.
Qed.
Lemma fails_lift_wrap {W A} kinds kind (r : res A) w :
  kind ∈ kinds → fails_with (W:=W) kinds (lift (wrap_err r (λ e, wrapError kind "coordinate release" (w e)))).
Proof. intros Hk s s' e. unfold lift. destruct r; simpl; [done|]. intros [= <- <-]. by eexists _, _. Qed.

Lemma evidence_error ctx command :
  fails_with [ErrorValidation; ErrorIntegrity] (file_coordinate_evidence ctx command).
Proof.
  unfold file_coordinate_evidence, coordinate_evidence, integrity. apply fails_bind; [|intros ?].
  { intros w w' e. unfold lift, validateReleaseCommand.
    destruct (validate_identities _) as [[]|e1]; simpl; [|intros [= <- <-]; eexists _, _; split; [done|by left]].
    destruct (ValidateCanonicalPublicPath _ _ _) as [[]|e1]; simpl; [done|].
    intros [= <- <-]; eexists _, _; split; [done|by left]. }
  repeat first [apply fails_ret|apply fails_bind; [first [apply fails_wrap|apply fails_lift_wrap]; right; by left|intros ?]].
Qed.

(** The transaction of [Coordinate] on a durable store. *)
Lemma decision_transaction ctx clock command ev d w s w' c' r :
  durable w s → selected s command ev d →
  FileStore_Within ctx (coordinate_callback (S:=operationalTransaction) ctx clock command ev d) (w, no_coordination)
    = ((w', c'), r) →
  (∃ e, r = Fail e ∧ settled w' s) ∨
  (co_temporalIntegrityFailure c' = false
   ∧ (r = Ok tt ∨ ∃ e, r = Fail e ∧ Is "operational commit outcome unknown" e = true)
   ∧ let a := re_Authorization ev in
     ∃ track s', durable w' s' ∧ extends s s'
     ∧ os_ReleaseTracks s !! releaseTrackKey (ra_ContractID a) (ra_TrackID a) = Some track
     ∧ considered a (rv_Report (re_Review ev)) clock track d (co_next c')
     ∧ os_ReleaseTracks s' = <[releaseTrackKey (ra_ContractID a) (ra_TrackID a) := reread (co_next c')]> (os_ReleaseTracks s)
     ∧ (co_next c' ≠ track → rc_Accepted command = true → rt_CurrentRevisionID (co_next c') = ra_CandidateRevisionID a →
        os_Publications s' !! publicationKey (ra_ContractID a) (ra_CandidateRevisionID a) = Some (reread (route a)))).
Proof.
  intros Hd Hsel Hw. pose proof Hd as [Hset Hre Hg].
  destruct (within_durable ctx (coordinate_callback ctx clock command ev d) no_coordination w s Hd) as (s1 & Hd1 & He1 & _).
  { intros t. by destruct (client_evolves ctx _ t no_coordination (coordinate_client ctx clock command ev d)). }
  rewrite Hw in Hd1. simpl in Hd1.
  destruct (within_cases _ _ _ _ _ _ _ _ Hset Hw) as [_ [?|(next & Hc & Hs & Hr)]]; [by left|right].
  destruct Hc as (t & Hcb & -> & _).
  destruct (callback_outcome _ _ _ _ _ (begin_transaction s) _ _ _ Hg (se_contract _ _ _ _ Hsel) (se_track _ _ _ _ Hsel) Hcb)
    as (track & Htrack & _ & _ & _ & Hcons & Htracks & Hpub & Htemp).
  split; [done|]. split; [done|]. exists track, (reread_state (tx_state t)).
  assert (s1 = reread_state (tx_state t)) as ->.
  { destruct (du_settled _ _ Hd1) as [E1 _], Hs as [E2 _]. congruence. }
  split_and!; try done.
  - pose proof (f_equal os_ReleaseTracks Hre) as Etr. cbn [reread_state os_ReleaseTracks] in Etr |- *.
    rewrite Htracks, fmap_insert. by f_equal.
  - intros Hn Ha Hcur. cbn [reread_state os_Publications]. rewrite lookup_fmap, Hpub by done. done.
Qed.
End coordinate.

(** ** Properties *)

Section properties.
Context `{CaseTables, !CaseLaws}.

(** C4: a successful [Coordinate] on a durable file store used the persisted
    authorization, review and sync record the command selects — the review
    telling the truth about the two persisted snapshots, the decision carrying
    the digest of its canonical report, an acceptance having a passing report
    and a successful sync.  The store keeps all evidence; among its tracks only
    the authorized one may differ, and it is the returned track: unchanged
    when it already carried this decision (at any clock) or a newer one, else
    the decision applied to the authorized baseline while the review was not
    from the future and none of the exceptions it applied had expired; a
    revision that starts being served has its authorized public route. *)
Theorem coordinate_commits_the_decision ctx clock command w s w' result :
  durable w s → file_coordinate ctx clock command w = (w', Ok result) →
  ∃ ev d track s', selected s command ev d ∧ durable w' s' ∧ extends s s' ∧
    let a := re_Authorization ev in
    let key := releaseTrackKey (ra_ContractID a) (ra_TrackID a) in
    os_ReleaseTracks s !! key = Some track
    ∧ considered a (rv_Report (re_Review ev)) clock track d result
    ∧ os_ReleaseTracks s' = <[key := reread result]> (os_ReleaseTracks s)
    ∧ (result ≠ track → rc_Accepted command = true → rt_CurrentRevisionID result = ra_CandidateRevisionID a →
       os_Publications s' !! publicationKey (ra_ContractID a) (ra_CandidateRevisionID a) = Some (reread (route a))).
Proof.
  intros Hd Hc. unfold file_coordinate, Coordinate in Hc.
  apply st_bind_ok in Hc as (w1 & [ev d] & Hev & Hc).
  destruct (evidence_selected _ _ _ _ _ _ _ (du_settled _ _ Hd) Hev) as [-> Hsel].
  unfold commit_decision, Within, file_unit_of_work in Hc. cbn [fst snd] in Hc.
  destruct (FileStore_Within _ _ _) as [[w2 c2] r] eqn:Hw.
  destruct (decision_transaction _ _ _ _ _ _ _ _ _ _ Hd Hsel Hw) as [(e & -> & _)|(_ & Hr & Hall)]; [done|].
  destruct Hr as [->|(e & -> & _)]; [|done]. injection Hc as <- <-.
  destruct Hall as (track & s' & ? & ? & ? & ? & ? & ?). by exists ev, d, track, s'.
Qed.

(** Every error of [Coordinate] on a durable file store is classified, and
    a validation or integrity error — a malformed command, evidence that does
    not hold, an untimely review — means that nothing changed; a transaction
    error means the same unless it wraps [ErrCommitOutcomeUnknown], and then
    the store holds the old state or all of the new one. *)
Theorem coordinate_errors_are_classified ctx clock command w s w' e :
  durable w s → file_coordinate ctx clock command w = (w', Fail e) →
  coordinate_error [ErrorValidation; ErrorIntegrity] e ∧ settled w' s
  ∨ coordinate_error [ErrorTransaction] e
    ∧ (settled w' s ∨ Is "operational commit outcome unknown" e = true ∧ ∃ s', durable w' s' ∧ extends s s').
Proof.
  intros Hd Hc. unfold file_coordinate, Coordinate in Hc. unfold mbind at 1, stM_bind at 1 in Hc.
  change (@coordinate_evidence H World file_revision_reader file_evidence_reader ctx command w)
    with (file_coordinate_evidence ctx command w) in Hc.
  destruct (file_coordinate_evidence ctx command w) as [w1 [[ev d]|e1]] eqn:Hev.
  2: { injection Hc as <- <-. left. split; [by eapply evidence_error|].
       rewrite (evidence_reads _ _ _ _ _ _ (du_settled _ _ Hd) Hev). apply Hd. }
  destruct (evidence_selected _ _ _ _ _ _ _ (du_settled _ _ Hd) Hev) as [-> Hsel].
  unfold commit_decision, Within, file_unit_of_work in Hc. cbn [fst snd] in Hc.
  destruct (FileStore_Within _ _ _) as [[w2 c2] r] eqn:Hw.
  destruct (decision_transaction _ _ _ _ _ _ _ _ _ _ Hd Hsel Hw) as [(e' & -> & Hs)|(Ht & Hr & Hall)].
  - injection Hc as <- <-. destruct (co_temporalIntegrityFailure c2).
    + left. split; [eexists _, _; split; [done|set_solver]|done].
    + right. split; [eexists _, _; split; [done|set_solver]|by left].
  - destruct Hr as [->|(e' & -> & He)]; [done|]. rewrite Ht in Hc. injection Hc as <- <-. right.
    split; [eexists _, _; split; [done|set_solver]|right]. split; [done|].
    destruct Hall as (track & s' & ? & ? & _). by exists s'.
Qed.
End properties.

(** ** Witnesses *)

Definition sample_run : World * res ReleaseTrack :=
  @file_coordinate latin1 (Ok tt) evaluated_at fixture_command seeded_world.
(** The track that serves the authorized revision. *)
Definition sample_result : ReleaseTrack := Eval vm_compute in result_track sample_run.2.

Example sample_result_serves : rt_CurrentRevisionID sample_result = "revision-next".
Proof. reflexivity. Qed.

Lemma coordinate_commits_the_decision_witness :
  ∃ ev d track s', selected seeded_state fixture_command ev d ∧ durable sample_run.1 s' ∧ extends seeded_state s' ∧
    let a := re_Authorization ev in
    let key := releaseTrackKey (ra_ContractID a) (ra_TrackID a) in
    os_ReleaseTracks seeded_state !! key = Some track
    ∧ considered a (rv_Report (re_Review ev)) evaluated_at track d sample_result
    ∧ os_ReleaseTracks s' = <[key := reread sample_result]> (os_ReleaseTracks seeded_state)
    ∧ (sample_result ≠ track → rc_Accepted fixture_command = true →
       rt_CurrentRevisionID sample_result = ra_CandidateRevisionID a →
       os_Publications s' !! publicationKey (ra_ContractID a) (ra_CandidateRevisionID a) = Some (reread (route a))).
Proof.
  apply (@coordinate_commits_the_decision latin1 latin1_laws (Ok tt) evaluated_at fixture_command
           seeded_world seeded_state sample_run.1 sample_result).
  - exact seeded_durable.
  - apply (pair_ok sample_run). vm_compute. reflexivity.
Defined.

(** A command for a contract the store has no authorization of. *)
Definition stray_command : ReleaseCommand :=
  MkReleaseCommand "c" "t" "r2" true
    (MkContractReview "review" "" "" "" "" "" "" "" zero_report) (rc_SyncRecord fixture_command) "" "".
Definition stray_run : World * res ReleaseTrack :=
  @file_coordinate latin1 (Ok tt) evaluated_at stray_command small_world.

Lemma coordinate_errors_are_classified_witness :
  coordinate_error [ErrorValidation; ErrorIntegrity] (failure stray_run.2) ∧ settled stray_run.1 small_state
  ∨ coordinate_error [ErrorTransaction] (failure stray_run.2)
    ∧ (settled stray_run.1 small_state
       ∨ Is "operational commit outcome unknown" (failure stray_run.2) = true
         ∧ ∃ s', durable stray_run.1 s' ∧ extends small_state s').
Proof.
  apply (@coordinate_errors_are_classified latin1 latin1_laws (Ok tt) evaluated_at stray_command
           small_world small_state stray_run.1 (failure stray_run.2)).
  - exact small_durable.
  - apply (result_fail stray_run). vm_compute. reflexivity.
Defined.
