(* ===== verification/StoreMigration.v ===== *)
(** * Migrations of the file store

    internal/adapters/store/fs.go: what the migration of an older state keeps,
    which publication wins a contested public path, and how a directory of
    flat records can be locked out of its own migration. *)

From stdpp Require Import pretty.
From S2P Require Import Prelude GoString GoSha256 GoTime GoJson Identity Spec Snapshot SpecDiff.
From S2P Require Import Release.
From S2P Require Import Policy.
From S2P Require Import Review.
From S2P Require Import Records.
From S2P Require Import Ports.
From S2P Require Import StoreState.
From S2P Require Import StoreTx.
From S2P Require Import FileStore.
From S2P Require Import StoreInvariant.
From S2P Require Import ReleaseService.
From S2P Require Import Fixture.

(** ** Contested public paths *)

Lemma with_Public_idem b p : with_Public b (with_Public b p) = with_Public b p.
Proof. done. Qed.

Lemma elem_of_public_keys pubs path k :
  k ∈ public_keys pubs path ↔ ∃ p, pubs !! k = Some p ∧ pb_Public p = true ∧ pb_Path p = path.
Proof.
  unfold public_keys, sort_strings. rewrite sort_by_perm, list_elem_of_fmap. split.
  - intros ([k' p] & -> & [[Hp Hpath] Hin]%list_elem_of_filter). simpl in *.
    exists p. split; [by apply elem_of_map_to_list|done].
  - intros (p & Hk & Hp & Hpath). exists (k, p). split; [done|]. apply list_elem_of_filter.
    split; [done|]. by apply elem_of_map_to_list.
Qed.

Lemma elem_of_public_paths pubs path :
  path ∈ public_paths pubs ↔ ∃ k p, pubs !! k = Some p ∧ pb_Public p = true ∧ pb_Path p = path.
Proof.
  unfold public_paths, sort_strings. rewrite sort_by_perm, elem_of_remove_dups, list_elem_of_fmap. split.
  - intros (p & -> & [Hp Hin]%list_elem_of_filter). apply list_elem_of_fmap in Hin as ([k p'] & -> & Hin).
    exists k, p'. by apply elem_of_map_to_list in Hin.
  - intros (k & p & Hk & Hp & Hpath). exists p. split; [done|]. apply list_elem_of_filter. split; [done|].
    apply list_elem_of_fmap. exists (k, p). split; [done|]. by apply elem_of_map_to_list.
Qed.

(** The claimant of a contested path that keeps it. *)
Definition winner (current : gset string) (keys : list string) : option string :=
  match filter (λ key, key ∈ current) keys with
  | [w] => Some w
  | _ => None
  end.

(** A publication loses a contested path when it is not the winner. *)
Definition loses (pubs : gmap string Publication) (current : gset string) (path k : string) : bool :=
  let keys := public_keys pubs path in
  bool_decide (k ∈ keys) && negb (length keys <? 2)%nat
  && match winner current keys with
     | Some w => negb (bool_decide (k = w))
     | None => false
     end.

Lemma unpublish_lookup w keys m k :
  unpublish_others w keys m !! k
  = if decide (k ∈ keys ∧ k ≠ w) then with_Public false <$> m !! k else m !! k.
Proof.
  revert m. induction keys as [|x keys IH]; intros m.
  { case_decide as Hd; [by destruct Hd as [?%elem_of_nil _]|done]. }
  unfold unpublish_others in *. cbn [foldl]. rewrite IH. case_bool_decide as Hx.
  { subst x. repeat case_decide; try done; set_solver. }
  destruct (decide (k = x)) as [->|Hk].
  - rewrite lookup_alter_eq, (decide_True (P:=_ ∈ x :: keys ∧ _)) by set_solver.
    case_decide; [|done]. by destruct (m !! x).
  - rewrite lookup_alter_ne by done. repeat case_decide; try done; set_solver.
Qed.

(** One round of [reconcileLegacyPublications]. *)
Definition reconcile_path (pubs : gmap string Publication) (current : gset string)
    (publications : gmap string Publication) (publicPath : string) : res (gmap string Publication) :=
  let keys := public_keys pubs publicPath in
  if (length keys <? 2)%nat then mret publications
  else
    match filter (λ key, key ∈ current) keys with
    | [winner] => mret (unpublish_others winner keys publications)
    | _ => Fail (Errorf "legacy public path %q has no unique last-known-good publication" [EStr publicPath])
    end.

Lemma reconcile_path_ok pubs current m path m' :
  reconcile_path pubs current m path = Ok m' →
  ((length (public_keys pubs path) < 2)%nat ∨ is_Some (winner current (public_keys pubs path)))
  ∧ ∀ k, m' !! k = if loses pubs current path k then with_Public false <$> m !! k else m !! k.
Proof.
  unfold reconcile_path, loses, winner. destruct (length _ <? 2)%nat eqn:El.
  { intros [= <-]. apply Nat.ltb_lt in El. split; [by left|]. intros k. by rewrite andb_false_r. }
  destruct (filter _ _) as [|w [|? ?]]; [done| |done]. intros [= <-].
  split; [right; by eexists|]. intros k. rewrite unpublish_lookup.
  case_bool_decide; case_bool_decide; simpl; try (by rewrite decide_False by naive_solver); by rewrite decide_True.
Qed.

Lemma reconcile_fold pubs current l m m' :
  fold_res (reconcile_path pubs current) m l = Ok m' →
  (∀ path, path ∈ l → (length (public_keys pubs path) < 2)%nat ∨ is_Some (winner current (public_keys pubs path)))
  ∧ ∀ k, m' !! k = if existsb (λ path, loses pubs current path k) l then with_Public false <$> m !! k else m !! k.
Proof.
  revert m. induction l as [|path l IH]; intros m; simpl; [intros [= <-]; split; [set_solver|done]|].
  intros (m1 & [Hp Hm1]%reconcile_path_ok & [Hl Hm']%IH)%bind_ok. split.
  - intros path' [->|?]%elem_of_cons; auto.
  - intros k. rewrite Hm', Hm1. destruct (loses pubs current path k); simpl; [|done].
    destruct (existsb _ l); [|done]. by destruct (m !! k).
Qed.

(** Nothing but contested public flags changes, and every path ends with at
    most one publication. *)
Record reconciled (pubs pubs' : gmap string Publication) (current : gset string) : Prop := {
  rec_lookup : ∀ k, pubs' !! k = pubs !! k
    ∨ ∃ p, pubs !! k = Some p ∧ pubs' !! k = Some (with_Public false p) ∧ pb_Public p = true
        ∧ ∃ w q, w ≠ k ∧ w ∈ current ∧ pubs !! w = Some q ∧ pubs' !! w = Some q
            ∧ pb_Public q = true ∧ pb_Path q = pb_Path p;
  rec_unique : ∀ k1 k2 p1 p2, pubs' !! k1 = Some p1 → pubs' !! k2 = Some p2 →
    pb_Public p1 = true → pb_Public p2 = true → pb_Path p1 = pb_Path p2 → k1 = k2;
}.

Lemma winner_in current keys w : winner current keys = Some w → w ∈ keys ∧ w ∈ current.
Proof.
  unfold winner. destruct (filter _ _) as [|x [|? ?]] eqn:E; [done| |done]. intros [= ->].
  assert (w ∈ filter (λ key, key ∈ current) keys) as [? ?]%list_elem_of_filter by (rewrite E; by left). done.
Qed.

Lemma loses_path pubs current path k p :
  pubs !! k = Some p → loses pubs current path k = true → pb_Public p = true ∧ pb_Path p = path.
Proof.
  unfold loses. intros Hk Hl. bool_prop. match goal with Hin : k ∈ _ |- _ => apply elem_of_public_keys in Hin as (q & Hq & ? & ?) end.
  by rewrite Hk in Hq; injection Hq as <-.
Qed.

Lemma reconcile_ok pubs current m' :
  fold_res (reconcile_path pubs current) pubs (public_paths pubs) = Ok m' → reconciled pubs m' current.
Proof.
  intros [Hl Hm]%reconcile_fold.
  assert (∀ k path, loses pubs current path k = true → ∃ w, winner current (public_keys pubs path) = Some w ∧ k ≠ w
            ∧ k ∈ public_keys pubs path) as Hlose.
  { intros k path Hk. unfold loses in Hk. destruct (winner _ _) as [w|]; bool_prop; [|done]. by exists w. }
  assert (∀ k path w, winner current (public_keys pubs path) = Some w → loses pubs current path k = true → ∀ path', loses pubs current path' w = false) as Hwin.
  { intros k path w Hw Hk path'. destruct (loses pubs current path' w) eqn:E; [|done]. exfalso.
    destruct (winner_in _ _ _ Hw) as [(q & Hq & _ & Hp)%elem_of_public_keys _].
    destruct (loses_path _ _ _ _ _ Hq E) as [_ <-]. destruct (Hlose _ _ E) as (w' & Hw' & Hne & _). congruence. }
  split.
  - intros k. rewrite Hm. destruct (existsb _ _) eqn:E; [|by left]. apply existsb_exists in E as (path & _ & Hk).
    destruct (Hlose _ _ Hk) as (w & Hw & Hne & Hin). apply elem_of_public_keys in Hin as (p & Hp & Hpub & Hpath).
    right. exists p. rewrite Hp. split; [done|]. split; [done|]. split; [done|].
    destruct (winner_in _ _ _ Hw) as [(q & Hq & Hqpub & Hqpath)%elem_of_public_keys Hcur].
    exists w, q. split_and!; try done; [|congruence]. rewrite Hm.
    destruct (existsb _ _) eqn:E2; [|done]. apply existsb_exists in E2 as (path' & _ & Hl2).
    by rewrite (Hwin _ _ _ Hw Hk) in Hl2.
  - intros k1 k2 p1 p2 H1 H2 Hpub1 Hpub2 Hpath. destruct (decide (k1 = k2)) as [|Hne]; [done|exfalso].
    assert (∀ k p, m' !! k = Some p → pb_Public p = true →
      pubs !! k = Some p ∧ existsb (λ path, loses pubs current path k) (public_paths pubs) = false) as Hkeep.
    { intros k p Hk Hp. rewrite Hm in Hk. destruct (existsb _ _); [|done].
      destruct (pubs !! k); [|done]. injection Hk as <-. done. }
    destruct (Hkeep _ _ H1 Hpub1) as [Hp1 E1], (Hkeep _ _ H2 Hpub2) as [Hp2 E2].
    assert (k1 ∈ public_keys pubs (pb_Path p1)) as Hk1 by (apply elem_of_public_keys; eauto).
    assert (k2 ∈ public_keys pubs (pb_Path p1)) as Hk2 by (apply elem_of_public_keys; eauto).
    assert (pb_Path p1 ∈ public_paths pubs) as Hpp by (apply elem_of_public_paths; eauto).
    assert (2 ≤ length (public_keys pubs (pb_Path p1)))%nat as Hlen.
    { destruct (public_keys pubs (pb_Path p1)) as [|a [|b l]]; simpl; [set_solver| |lia]. set_solver. }
    destruct (Hl _ Hpp) as [?|[w Hw]]; [lia|].
    assert (∀ k, k ∈ public_keys pubs (pb_Path p1) →
      existsb (λ path, loses pubs current path k) (public_paths pubs) = false → k = w) as Hall.
    { intros k Hk Ek. destruct (decide (k = w)) as [|Hkw]; [done|]. exfalso. apply not_true_iff_false in Ek. apply Ek.
      apply existsb_exists. exists (pb_Path p1). split; [by apply list_elem_of_In|].
      unfold loses. rewrite Hw, bool_decide_eq_true_2, bool_decide_eq_false_2 by done. simpl.
      rewrite andb_true_r. apply negb_true_iff, Nat.ltb_ge. lia. }
    rewrite (Hall _ Hk1 E1), (Hall _ Hk2 E2) in Hne. done.
Qed.

(** ** Owners and keys of revisions *)

(** The same revision, claimed by a contract when nobody owned it. *)
Definition claimed (r r' : ContractRevision) : Prop :=
  r' = r ∨ cv_ContractID r = "" ∧ r' = with_owner (cv_ContractID r') r.

#[export] Instance claimed_preorder : PreOrder claimed.
Proof.
  split; [by left|]. intros r1 r2 r3 [->|[Hu E]] [->|[Hu' E']]; [by left|by right|by right|right].
  split; [done|]. rewrite E', E. done.
Qed.

(** Every revision comes from one, and every one is kept. *)
Definition revisions_claimed (m m' : gmap string ContractRevision) : Prop :=
  (∀ k' r', m' !! k' = Some r' → ∃ k r, m !! k = Some r ∧ claimed r r')
  ∧ ∀ k r, m !! k = Some r → ∃ k' r', m' !! k' = Some r' ∧ claimed r r'.

#[export] Instance revisions_claimed_preorder : PreOrder revisions_claimed.
Proof.
  split.
  - intros m. split; intros k r Hk; by exists k, r.
  - intros m1 m2 m3 [A1 B1] [A2 B2]. split.
    + intros k r Hk. destruct (A2 _ _ Hk) as (k2 & r2 & H2 & C2). destruct (A1 _ _ H2) as (k1 & r1 & H1 & C1).
      exists k1, r1. split; [done|by etrans].
    + intros k r Hk. destruct (B1 _ _ Hk) as (k2 & r2 & H2 & C2). destruct (B2 _ _ H2) as (k3 & r3 & H3 & C3).
      exists k3, r3. split; [done|by etrans].
Qed.

Lemma bind_claimed c r o s :
  revisions_claimed (os_Revisions s) (os_Revisions (bindRevisionOwner c r o s).1).
Proof.
  unfold bindRevisionOwner. case_bool_decide; [done|].
  destruct (os_Revisions s !! revisionKey c r) as [x|] eqn:Ek; [by case_match|].
  destruct (os_Revisions s !! r) as [x|] eqn:Er; [|done].
  case_bool_decide; [done|]. case_bool_decide as Hu; [|done]. simpl.
  assert (claimed x (with_owner c x)) as Hc by (right; by destruct x).
  split; intros k y Hk.
  - destruct (decide (k = revisionKey c r)) as [->|Hne].
    + rewrite lookup_insert_eq in Hk. injection Hk as <-. by exists r, x.
    + rewrite lookup_insert_ne in Hk by done. apply lookup_delete_Some in Hk as [_ Hk]. by exists k, y.
  - destruct (decide (k = r)) as [->|Hne].
    + rewrite Er in Hk. injection Hk as <-. exists (revisionKey c r), (with_owner c x). by rewrite lookup_insert_eq.
    + exists k, y. rewrite lookup_insert_ne by congruence. by rewrite lookup_delete_ne.
Qed.

Lemma bind_all_ok l s s' :
  bind_all l s = Ok s' →
  s' = with_Revisions (λ _, os_Revisions s') s ∧ revisions_claimed (os_Revisions s) (os_Revisions s').
Proof.
  unfold bind_all. revert s. induction l as [|[[c r] o] l IH]; intros s; cbn [fold_res].
  { intros [= <-]. by destruct s. }
  pose proof (bindRevisionOwner_quiet c r o s) as Hq. pose proof (bind_claimed c r o s) as Hc.
  destruct (bindRevisionOwner c r o s) as [s1 [b|e]]; cbn [fst] in Hq, Hc; [|done].
  intros (s2 & [= <-] & [Hs Hcl]%IH)%bind_ok. split; [rewrite Hs, Hq; by destruct s|by etrans].
Qed.

Lemma scope_ok s s' :
  scopeOperationalRevisions s = Ok s' →
  s' = with_Revisions (λ _, os_Revisions s') s
  ∧ (∀ k r, os_Revisions s' !! k = Some r → k = revisionStorageKey r ∧ ∃ k0, os_Revisions s !! k0 = Some r)
  ∧ (∀ k0 r, os_Revisions s !! k0 = Some r → ∃ r', os_Revisions s' !! revisionStorageKey r = Some r'
       ∧ (r' = r ∨ immutableRecordsEqual r' r = Ok true)).
Proof.
  unfold scopeOperationalRevisions. intros (m & Hm & [= <-])%bind_ok. split; [done|]. simpl.
  assert (∀ l m0, fold_res (λ (scoped : gmap string ContractRevision) (revision : ContractRevision),
      let key := revisionStorageKey revision in
      match scoped !! key with
      | Some existing =>
          equal ← immutableRecordsEqual existing revision;
          throw_if (negb equal) (Errorf "revision %q has conflicting records for contract %q"
            [EStr (cv_ID revision); EStr (cv_ContractID revision)]) ;;
          mret scoped
      | None => mret (<[key := revision]> scoped)
      end) m0 l = Ok m →
    m0 ⊆ m ∧ (∀ k r, m !! k = Some r → m0 !! k = Some r ∨ k = revisionStorageKey r ∧ r ∈ l)
    ∧ (∀ r, r ∈ l → ∃ r', m !! revisionStorageKey r = Some r' ∧ (r' = r ∨ immutableRecordsEqual r' r = Ok true))) as Hfold.
  { clear Hm. induction l as [|r l IH]; intros m0; cbn [fold_res].
    { intros [= ->]. split; [done|]. split; [by left|set_solver]. }
    intros (m1 & Hm1 & (Hsub & Hfrom & Hkept)%IH)%bind_ok.
    destruct (m0 !! revisionStorageKey r) as [x|] eqn:Ex.
    - apply bind_ok in Hm1 as (equal & Heq & Hm1). apply seq_ok in Hm1 as [Hb [= <-]]. apply throw_if_ok in Hb. bool_prop. subst equal.
      split; [done|]. split; [intros k y Hk; destruct (Hfrom k y Hk) as [?|[-> ?]]; [by left|right; split; [done|by right]]|].
      intros y [->|Hy]%elem_of_cons; [|auto]. exists x. split; [by eapply lookup_weaken|by right].
    - injection Hm1 as <-. split; [etrans; [by apply insert_subseteq|done]|]. split.
      + intros k y Hk. destruct (Hfrom k y Hk) as [Hi|[-> ?]]; [|right; split; [done|by right]].
        apply lookup_insert_Some in Hi as [[<- <-]|[_ ?]]; [right; split; [done|by left]|by left].
      + intros y [->|Hy]%elem_of_cons; [|auto]. exists r. split; [|by left].
        eapply lookup_weaken; [apply lookup_insert_eq|done]. }
  destruct (Hfold _ _ Hm) as (_ & Hfrom & Hkept). split.
  - intros k r Hk. destruct (Hfrom k r Hk) as [?|[-> Hin]]; [done|]. split; [done|].
    apply list_elem_of_fmap in Hin as ([k0 r0] & -> & Hin). exists k0. by apply elem_of_map_to_list.
  - intros k0 r Hk. apply Hkept, list_elem_of_fmap. exists (k0, r). split; [done|]. by apply elem_of_map_to_list.
Qed.

Lemma elem_of_current_publications s key :
  key ∈ current_publications s ↔ ∃ k t, os_ReleaseTracks s !! k = Some t ∧ rt_CurrentRevisionID t ≠ ""
    ∧ key = publicationKey (rt_ContractID t) (rt_CurrentRevisionID t).
Proof.
  unfold current_publications. rewrite elem_of_list_to_set, list_elem_of_fmap. split.
  - intros ([k t] & -> & [Hc Hin]%list_elem_of_filter). exists k, t. by apply elem_of_map_to_list in Hin.
  - intros (k & t & Hk & Hc & ->). exists (k, t). split; [done|]. apply list_elem_of_filter. split; [done|].
    by apply elem_of_map_to_list.
Qed.

(** Versions whose decisions were not bound to persisted evidence. *)
Definition unauthenticated (s : operationalState) : Prop :=
  os_Version s = legacyOperationalStateVersion ∨ os_Version s = decisionOperationalStateVersion.

Lemma version_step s s1 :
  (if (os_Version s =? legacyOperationalStateVersion) || (os_Version s =? decisionOperationalStateVersion)
   then strip_decisions s
   else if os_Version s =? authenticatedStateVersion then mret s
   else Fail (Errorf "cannot migrate operational state version %d" [EInt (os_Version s)])) = Ok s1 →
  (unauthenticated s ∧ s1 = MkOperationalState (os_Version s) (os_Revisions s) (os_Reviews s) (os_SyncRecords s)
     (legacy_track <$> os_ReleaseTracks s)
     ((λ track, newReleaseTrackAuthority (legacy_track track)) <$> os_ReleaseTracks s)
     ∅ (os_Publications s) (os_AuditEvents s) (os_Outbox s) (os_migratedRevisions s))
  ∨ (os_Version s = authenticatedStateVersion ∧ s1 = s).
Proof.
  destruct (_ || _) eqn:Hv.
  - unfold strip_decisions. intros (_ & [= <-])%seq_ok. left. split; [|done].
    apply orb_true_iff in Hv as [Hv|Hv]; bool_prop; [by left|by right].
  - destruct (os_Version s =? authenticatedStateVersion) eqn:Ha; [|done]. intros [= <-]. right. by bool_prop.
Qed.

Lemma reconcile_state_ok s s' :
  reconcileLegacyPublications s = Ok s' →
  s' = with_Publications (λ _, os_Publications s') s
  ∧ reconciled (os_Publications s) (os_Publications s') (current_publications s).
Proof.
  unfold reconcileLegacyPublications. intros (m & Hm & [= <-])%bind_ok. split; [done|]. simpl.
  by apply reconcile_ok.
Qed.

(** A track without the decision that led to it, and its authority. *)
Definition undecided (track : ReleaseTrack) : ReleaseTrack :=
  MkReleaseTrack (rt_ID track) (rt_ContractID track) (rt_BoundRef track) (rt_Mode track) (rt_Generation track)
    (rt_CurrentRevisionID track) "" None.
Definition empty_authority (track : ReleaseTrack) : releaseTrackAuthority :=
  MkReleaseTrackAuthority releaseTrackAuthorityVersion (rt_Generation track) false zero_decision.

(** C23: a migration to the current schema keeps what is proven and nothing
    else.  A track of an unauthenticated version keeps its identity, generation
    and served revision and loses its candidate and decision, with an empty
    authority; an authenticated version keeps tracks, authorities and
    authorizations as they are.  Reviews, syncs, audit events and messages are
    untouched.  Of publications that share a public path only the one a track
    currently serves stays public, and nothing else about any publication
    changes.  Every revision survives under the key of its contract, claimed by
    a contract only if nobody owned it. *)
Theorem migration_keeps_what_is_proven s s' :
  migrateOperationalStateToCurrent s = Ok s' →
  os_Version s' = operationalStateVersion
  ∧ (unauthenticated s ∧ os_ReleaseTracks s' = undecided <$> os_ReleaseTracks s
       ∧ os_ReleaseTrackAuthorities s' = empty_authority <$> os_ReleaseTracks s
       ∧ os_ReleaseAuthorizations s' = ∅
     ∨ os_Version s = authenticatedStateVersion ∧ os_ReleaseTracks s' = os_ReleaseTracks s
       ∧ os_ReleaseTrackAuthorities s' = os_ReleaseTrackAuthorities s
       ∧ os_ReleaseAuthorizations s' = os_ReleaseAuthorizations s)
  ∧ os_Reviews s' = os_Reviews s ∧ os_SyncRecords s' = os_SyncRecords s
  ∧ os_AuditEvents s' = os_AuditEvents s ∧ os_Outbox s' = os_Outbox s
  ∧ reconciled (os_Publications s) (os_Publications s') (current_publications s)
  ∧ (∀ k r', os_Revisions s' !! k = Some r' → k = revisionStorageKey r'
       ∧ ∃ k0 r, os_Revisions s !! k0 = Some r ∧ claimed r r')
  ∧ (∀ k0 r, os_Revisions s !! k0 = Some r → ∃ r1 r', claimed r r1
       ∧ os_Revisions s' !! revisionStorageKey r1 = Some r' ∧ (r' = r1 ∨ immutableRecordsEqual r' r1 = Ok true)).
Proof.
  unfold migrateOperationalStateToCurrent. intros Hm.
  apply bind_ok in Hm as (s1 & H1%version_step & Hm).
  apply bind_ok in Hm as (s2 & [E2 Hrec]%reconcile_state_ok & Hm).
  apply bind_ok in Hm as (s3 & [E3 Hcl]%wrap_err_ok%bind_all_ok & Hm).
  apply bind_ok in Hm as (s4 & (E4 & Hk4 & Hr4)%wrap_err_ok%scope_ok & [= <-]). cbn.
  assert (current_publications s1 = current_publications s) as Hcur.
  { destruct H1 as [[_ ->]|[_ ->]]; [|done]. apply set_eq. intros key. rewrite !elem_of_current_publications. cbn.
    setoid_rewrite lookup_fmap. split.
    - intros (k & t & (t0 & Ht & ->)%fmap_Some & Hc & ->). by exists k, t0.
    - intros (k & t & Ht & Hc & ->). exists k, (legacy_track t). by rewrite Ht. }
  rewrite Hcur in Hrec.
  assert (os_Revisions s2 = os_Revisions s ∧ os_Publications s1 = os_Publications s
    ∧ os_Reviews s1 = os_Reviews s ∧ os_SyncRecords s1 = os_SyncRecords s
    ∧ os_AuditEvents s1 = os_AuditEvents s ∧ os_Outbox s1 = os_Outbox s) as (Er & Ep & E5 & E6 & E7 & E8).
  { rewrite E2. by destruct H1 as [[_ ->]|[_ ->]]. }
  rewrite Er in Hcl. rewrite Ep in Hrec. destruct Hcl as [Hc1 Hc2].
  rewrite E4, E3. cbn. rewrite E2. cbn. rewrite E5, E6, E7, E8.
  split; [done|]. split.
  { destruct H1 as [[? ->]|[? ->]]; [left|by right]. cbn. split_and!; done. }
  do 4 (split; [done|]). split; [done|]. split.
  - intros k r' [Hk (k3 & H3)]%Hk4. split; [done|]. by apply (Hc1 k3).
  - intros k0 r Hk0. destruct (Hc2 _ _ Hk0) as (k3 & r1 & H3 & ?). destruct (Hr4 _ _ H3) as (r' & ? & ?).
    by exists r1, r'.
Qed.

(** ** A flat directory locked out of its own migration *)

(** A directory of flat records, as versions before state.json left it: one
    revision without an owner, with a blob and digests but no snapshot yet,
    and a publication that refers to it or not. *)
Definition flat_revision : ContractRevision :=
  MkContractRevision "revision-good" "" "source-main"
    (ContentAddressedBlobKey (bytes_of "contracttest baseline")) (sha256Hex (bytes_of "contracttest baseline")) ""
    None "refs/heads/main" "" "" "" "" "".
Definition flat_publication : Publication := MkPublication "contract" "revision-good" true "/contract/stable" "".
Definition flat_world (published : bool) : World :=
  MkWorld None None
    {[ContentAddressedBlobKey (bytes_of "contracttest baseline") := bytes_of "contracttest baseline"]}
    {["revision-good" := flat_revision]}
    (if published then {["contract-revision-good" := flat_publication]} else ∅) ∅ [].

(** The same revision completed with its snapshot. *)
Definition enriched_revision : ContractRevision :=
  let s := @NewContractSnapshot latin1 "contract" "revision-good" (bytes_of "contracttest baseline") empty_index in
  MkContractRevision "revision-good" "contract" "source-main"
    (ContentAddressedBlobKey (bytes_of "contracttest baseline")) (cs_SpecDigest s) (cs_ContractDigest s)
    (Some s) "refs/heads/main" "" "" "" "" "".

Definition missing_revision : error := Errorf "mutated revision %q is missing" [EStr "revision-good"].

(** There is a flat directory whose migration waits for an enrichment that can
    never be committed, because a flat publication refers to the revision.
    Loading collects the keys of the flat revisions before it moves a
    referenced revision to the key of its contract, so the check of the commit
    misses the old key: completing the revision fails, leaves the directory as
    it was, and so fails again; so does saving the publication.  Without the
    publication the same enrichment commits. *)
Theorem flat_migration_locks_out_enrichment :
  @FileStore_SaveRevision latin1 (Ok tt) enriched_revision (flat_world true) = (flat_world true, Fail missing_revision)
  ∧ @FileStore_SavePublication latin1 (Ok tt) flat_publication (flat_world true) = (flat_world true, Fail missing_revision)
  ∧ (@FileStore_SaveRevision latin1 (Ok tt) enriched_revision (flat_world false)).2 = Ok tt.
Proof. vm_compute. split_and!; reflexivity. Qed.

(** ** Witnesses *)

(** A version 2 state with a decision and two publications on one path. *)
Definition legacy_state : operationalState :=
  MkOperationalState decisionOperationalStateVersion
    {["r1" := MkContractRevision "r1" "" "src" "" "" "" None "main" "" "" "" "" "";
      "r2" := MkContractRevision "r2" "" "src" "" "" "" None "main" "" "" "" "" ""]}
    ∅ ∅
    {[releaseTrackKey "c" "t" := MkReleaseTrack "t" "c" "main" ReleaseModePinned 3 "r2" "r1" None]}
    ∅ ∅
    {[publicationKey "c" "r1" := MkPublication "c" "r1" true "/c" "";
      publicationKey "c" "r2" := MkPublication "c" "r2" true "/c" ""]} ∅ ∅ ∅.
Definition migrated_state : operationalState :=
  default newOperationalState (ok_value (migrateOperationalStateToCurrent legacy_state)).

Example migrated_public : (pb_Public <$> os_Publications migrated_state !! publicationKey "c" "r1") = Some false
  ∧ (pb_Public <$> os_Publications migrated_state !! publicationKey "c" "r2") = Some true.
Proof. vm_compute. done. Qed.

Lemma migration_keeps_what_is_proven_witness :
  os_Version migrated_state = operationalStateVersion
  ∧ (unauthenticated legacy_state ∧ os_ReleaseTracks migrated_state = undecided <$> os_ReleaseTracks legacy_state
       ∧ os_ReleaseTrackAuthorities migrated_state = empty_authority <$> os_ReleaseTracks legacy_state
       ∧ os_ReleaseAuthorizations migrated_state = ∅
     ∨ os_Version legacy_state = authenticatedStateVersion ∧ os_ReleaseTracks migrated_state = os_ReleaseTracks legacy_state
       ∧ os_ReleaseTrackAuthorities migrated_state = os_ReleaseTrackAuthorities legacy_state
       ∧ os_ReleaseAuthorizations migrated_state = os_ReleaseAuthorizations legacy_state)
  ∧ os_Reviews migrated_state = os_Reviews legacy_state ∧ os_SyncRecords migrated_state = os_SyncRecords legacy_state
  ∧ os_AuditEvents migrated_state = os_AuditEvents legacy_state ∧ os_Outbox migrated_state = os_Outbox legacy_state
  ∧ reconciled (os_Publications legacy_state) (os_Publications migrated_state) (current_publications legacy_state)
  ∧ (∀ k r', os_Revisions migrated_state !! k = Some r' → k = revisionStorageKey r'
       ∧ ∃ k0 r, os_Revisions legacy_state !! k0 = Some r ∧ claimed r r')
  ∧ (∀ k0 r, os_Revisions legacy_state !! k0 = Some r → ∃ r1 r', claimed r r1
       ∧ os_Revisions migrated_state !! revisionStorageKey r1 = Some r'
       ∧ (r' = r1 ∨ immutableRecordsEqual r' r1 = Ok true)).
Proof. apply migration_keeps_what_is_proven. vm_compute. reflexivity. Defined.
