(* ===== verification/StorePublic.v ===== *)
(** * Public routes and the availability of a file store

    internal/adapters/store/fs.go: what a public path is served from, and that
    a store which can be read can be written. *)

From stdpp Require Import pretty.
From S2P Require Import Prelude GoString GoSha256 GoTime GoJson Identity Spec Snapshot SpecDiff.
From S2P Require Import Release.
From S2P Require Import Policy.
From S2P Require Import Review.
From S2P Require Import Records.
From S2P Require Import Ports.
From S2P Require Import StoreState.
From S2P Require Import StoreTx.
From S2P Require Import FileStore.
From S2P Require Import StoreInvariant.
From S2P Require Import ReleaseService.
From S2P Require Import Fixture.
From S2P Require Import StoreSafety.
From S2P Require Import StoreRuns.
From S2P Require Import CoordinateSafety.

(** ** Unique public paths *)

Lemma claim_path_ok pubs owners key owners' :
  claim_path pubs owners key = Ok owners' →
  owners ⊆ owners' ∧ ∀ p, pubs !! key = Some p → pb_Public p = true → owners' !! pb_Path p = Some key.
Proof.
  unfold claim_path. destruct (pubs !! key) as [p|] eqn:Ep; [|intros [= <-]; done].
  destruct (pb_Public p) eqn:Epub; simpl; [|intros [= <-]; split; [done|intros ? [= <-]; congruence]].
  destruct (owners !! pb_Path p) eqn:Eo; [done|]. intros [= <-].
  split; [by apply insert_subseteq|]. intros ? [= <-] _. apply lookup_insert_eq.
Qed.

Lemma claim_all_ok pubs keys owners owners' :
  fold_res (claim_path pubs) owners keys = Ok owners' →
  owners ⊆ owners' ∧ ∀ key p, key ∈ keys → pubs !! key = Some p → pb_Public p = true → owners' !! pb_Path p = Some key.
Proof.
  revert owners. induction keys as [|k keys IH]; intros owners; cbn [fold_res].
  { intros [= <-]. split; [done|]. by intros key p ?%elem_of_nil. }
  intros (o1 & [Hs1 H1]%claim_path_ok & [Hs2 H2]%IH)%bind_ok. split; [by etrans|].
  intros key p [->|Hk]%elem_of_cons Hp Hpub; [|by apply H2]. eapply lookup_weaken; [by apply H1|done].
Qed.

Lemma unique_paths pubs :
  validateUniquePublicPaths pubs = Ok tt →
  ∀ k1 k2 p1 p2, pubs !! k1 = Some p1 → pubs !! k2 = Some p2 → pb_Public p1 = true → pb_Public p2 = true →
    pb_Path p1 = pb_Path p2 → k1 = k2.
Proof.
  unfold validateUniquePublicPaths. intros (owners & [_ Ho]%claim_all_ok & _)%bind_ok k1 k2 p1 p2 H1 H2 Hp1 Hp2 E.
  assert (∀ k p, pubs !! k = Some p → k ∈ sort_strings (map_to_list pubs).*1) as Hin.
  { intros k p Hk. unfold sort_strings. rewrite sort_by_perm. apply list_elem_of_fmap. exists (k, p).
    split; [done|]. by apply elem_of_map_to_list. }
  pose proof (Ho k1 p1 (Hin _ _ H1) H1 Hp1) as E1. pose proof (Ho k2 p2 (Hin _ _ H2) H2 Hp2) as E2.
  rewrite E in E1. congruence.
Qed.

Section public.
Context `{CaseTables, !CaseLaws}.

(** What loading a settled state has checked. *)
Lemma load_settled_valid ctx w s w' s' :
  settled w s → loadOperationalStateLocked ctx w = (w', Ok s') →
  w' = w ∧ s' = s ∧ ctx = Ok tt
  ∧ validateReleaseTrackAuthorities s = Ok tt ∧ validateOperationalReferences s = Ok tt.
Proof.
  intros Hset Hl. destruct (load_settled_ok _ _ _ _ _ Hset Hl) as [-> ->]. split; [done|]. split; [done|].
  destruct Hset as (Hs & Hv & Hm). unfold loadOperationalStateLocked in Hl.
  apply lift_bind_ok in Hl as ([] & -> & Hl). split; [done|].
  apply st_bind_ok in Hl as (w1 & m & (-> & -> & _)%loadMarker_ok & Hl). rewrite gets_bind, Hs, Hm in Hl.
  unfold load_versioned in Hl. rewrite Hv in Hl.
  cbn -[validateReleaseTrackAuthorities validateOperationalReferences] in Hl. unfold lift, stM_bind in Hl.
  destruct (validateReleaseTrackAuthorities s) as [[]|e]; [|done].
  by destruct (validateOperationalReferences s) as [[]|e].
Qed.

(** ** Intact evidence *)

(** What is claimed of a revision is on disk.  One that was saved without a spec
    has no evidence either; of every other the spec is on disk under its content
    address, and with review evidence it carries a valid snapshot of it. *)
Definition intact (blobs : gmap string (list Z)) (r : ContractRevision) : Prop :=
  (cv_SpecBlobKey r = "" ∧ has_review_evidence r = false) ∨
  ∃ data, blobs !! cv_SpecBlobKey r = Some data ∧ cv_SpecBlobKey r = ContentAddressedBlobKey data
    ∧ (has_review_evidence r = true →
       ∃ sn, cv_ReviewSnapshot r = Some sn ∧ snapshot_ok sn ∧ cs_ContractID sn = cv_ContractID r
         ∧ cs_RevisionID sn = cv_ID r ∧ cs_ContractDigest sn = cv_ContractDigest r
         ∧ cs_SpecDigest sn = sha256Hex data ∧ cv_SpecDigest r = sha256Hex data).

Lemma evidence_intact ctx blobs r : validateRevisionEvidence ctx blobs r = Ok tt → intact blobs r.
Proof.
  unfold validateRevisionEvidence. case_bool_decide as Ek; [intros Hb%throw_if_ok; by left|].
  intros [_ Hv]%seq_ok. right. destruct (blobs !! cv_SpecBlobKey r) as [data|]; [|done]. exists data. split; [done|].
  apply seq_ok in Hv as [Hk Hv]. apply throw_if_ok in Hk. bool_prop. split; [done|].
  intros Hev. apply seq_ok in Hv as [_ Hv]. rewrite Hev in Hv. cbn [negb] in Hv.
  apply seq_ok in Hv as [_ Hv]. destruct (cv_ReviewSnapshot r) as [sn|]; [|done]. exists sn. split; [done|].
  apply seq_ok in Hv as [Hsn%wrap_err_ok%ValidateContractSnapshot_ok Hv]. split; [done|].
  do 3 (apply seq_ok in Hv as [? Hv]). rewrite throw_if_ok in *. bool_prop.
  unfold ContentAddressedBlobKey in *. rewrite TrimPrefix_app in *. split_and!; congruence.
Qed.

(** ** Saving a publication *)

Lemma lookup_take_path key path pubs k :
  take_path key path pubs !! k
  = (λ q, if bool_decide (k = key) || negb (pb_Public q) || negb (bool_decide (pb_Path q = path))
          then q else with_Public false q) <$> pubs !! k.
Proof. unfold take_path. rewrite map_lookup_imap. by destruct (pubs !! k). Qed.

Lemma save_publication_state ctx p t t' u :
  tx_SavePublication ctx p t = (t', Ok u) → pb_Public p = true →
  let key := publicationKey (pb_ProjectID p) (pb_RevisionID p) in
  os_Publications (tx_state t') = <[key := p]> (take_path key (pb_Path p) (os_Publications (tx_state t))).
Proof.
  intros Hs Hp. unfold tx_SavePublication in Hs. do 5 apply lift_bind_ok in Hs as (_ & _ & Hs).
  apply st_bind_ok in Hs as (t1 & [] & [_ E1]%(if_bind_tracks false) & [= <- _]). cbn. by rewrite Hp, E1.
Qed.

(** ** A readable store is writable *)

Lemma for_each_intro {A} (f : A → res unit) l : (∀ x, f x = Ok tt) → for_each f l = Ok tt.
Proof. intros Hf. apply for_each_ok, Forall_forall. auto. Qed.

Lemma unchanged_evidence ctx blobs s : validateChangedReleaseEvidence ctx blobs s s = Ok tt.
Proof.
  unfold validateChangedReleaseEvidence. rewrite seq_ok, !for_map_ok. split; intros k x Hx; rewrite Hx;
    by rewrite bool_decide_eq_true_2.
Qed.

Lemma unchanged_commits ctx blobs s :
  os_Version s = operationalStateVersion → os_migratedRevisions s = ∅ →
  validateReleaseTrackAuthorities s = Ok tt → validateOperationalReferences s = Ok tt →
  validateOperationalState ctx blobs s s (os_migratedRevisions s) = Ok tt.
Proof.
  intros Hv Hm Ha Hr. unfold validateOperationalState. rewrite Hv, Ha, Hr, unchanged_evidence, Hm. done.
Qed.
End public.

(** ** Properties *)

Section properties.
Context `{CaseTables, !CaseLaws}.

(** C17: what a public path serves is intact.  When [PublicPublicationByPath]
    answers on a settled store it has changed nothing; the publication is
    public under that very path; its revision is persisted under its contract
    and intact: its spec is on disk under its content address unless it was saved
    without a spec, and a revision with review evidence always has its spec on
    disk and carries a valid snapshot with its digest; and no other
    publication of the state claims the path — a legacy record is used only
    when the state has none. *)
Theorem public_route_serves_intact_evidence ctx path w s w' p :
  settled w s → PublicPublicationByPath ctx path w = (w', Ok p) →
  w' = w ∧ pb_Public p = true ∧ pb_Path p = path
  ∧ (∃ r, revisionForContract s (pb_ProjectID p) (pb_RevisionID p) = Some r ∧ intact (w_blobs w) r)
  ∧ ((∃ key, os_Publications s !! key = Some p ∧
        ∀ k q, os_Publications s !! k = Some q → pb_Public q = true → pb_Path q = path → k = key)
     ∨ (∃ name, w_publications w !! name = Some p)
       ∧ ∀ k q, os_Publications s !! k = Some q → pb_Public q = true → pb_Path q ≠ path).
Proof.
  intros Hset Hp. unfold PublicPublicationByPath in Hp. do 2 apply lift_bind_ok in Hp as (_ & _ & Hp).
  apply st_bind_ok in Hp as (w1 & s1 & (-> & -> & _ & _ & Href)%(load_settled_valid _ _ _ _ _ Hset) & Hp).
  rewrite gets_bind in Hp. destruct (filter _ (path_candidates w s)) as [|q l] eqn:Ef; [done|].
  apply lift_bind_ok in Hp as ([] & Hev & [= <- <-]). split; [done|].
  assert (q ∈ filter (λ c, pb_Public c = true ∧ pb_Path c = path) (path_candidates w s)) as Hin by (rewrite Ef; by left).
  apply list_elem_of_filter in Hin as [[Hpub Hpath] Hin]. split; [done|]. split; [done|]. split.
  - unfold validatePublicationRevisionEvidence in Hev. destruct (revisionForContract s _ _) as [r|]; [|done].
    exists r. split; [done|]. by apply wrap_err_ok, evidence_intact in Hev.
  - destruct (references_evidence _ Href) as [Hu _]. unfold path_candidates in Ef. rewrite filter_app in Ef.
    destruct (filter _ (map_to_list (os_Publications s)).*2) as [|q' l'] eqn:Es.
    + right. simpl in Ef. split.
      * assert (q ∈ omap (λ name, w_publications w !! name) (sort_strings (map_to_list (w_publications w)).*1)) as Hq.
        { eapply (list_elem_of_filter (λ c, pb_Public c = true ∧ pb_Path c = path)). rewrite Ef. by left. }
        apply list_elem_of_omap in Hq as (name & _ & Hq). by exists name.
      * intros k x Hx Hxp Hxq. assert (x ∈ filter (λ c, pb_Public c = true ∧ pb_Path c = path) (map_to_list (os_Publications s)).*2) as Hc.
        { apply list_elem_of_filter. split; [done|]. apply list_elem_of_fmap. exists (k, x). split; [done|].
          by apply elem_of_map_to_list. }
        rewrite Es in Hc. by apply elem_of_nil in Hc.
    + left. injection Ef as <- _.
      assert (q' ∈ (map_to_list (os_Publications s)).*2) as Hq.
      { eapply (list_elem_of_filter (λ c, pb_Public c = true ∧ pb_Path c = path)). rewrite Es. by left. }
      apply list_elem_of_fmap in Hq as ([key x] & -> & Hq%elem_of_map_to_list). exists key. split; [done|].
      intros k y Hy Hyp Hyq. apply (unique_paths _ Hu k key y x); try done. simpl in *. congruence.
Qed.

(** Publishing takes a path over.  After a committed save of a public
    publication the store holds it; every other publication is what it was,
    but those under the same path are no longer public. *)
Theorem published_path_is_taken_over ctx p w s w' :
  settled w s → FileStore_SavePublication ctx p w = (w', Ok tt) → pb_Public p = true →
  ∃ s', settled w' s' ∧
    let key := publicationKey (pb_ProjectID p) (pb_RevisionID p) in
    os_Publications s' !! key = Some (reread p)
    ∧ ∀ k, k ≠ key → os_Publications s' !! k
        = (λ q, reread (if bool_decide (pb_Path q = pb_Path p) then with_Public false q else q))
            <$> os_Publications s !! k.
Proof.
  intros Hset Hs Hp. unfold FileStore_SavePublication, within_unit in Hs.
  destruct (FileStore_Within _ _ _) as [[w1 c1] r] eqn:Hw. injection Hs as -> ->.
  destruct (within_cases _ _ _ _ _ _ _ _ Hset Hw) as [_ [(e & ? & _)|(next & Hc & Hs' & _)]]; [done|].
  exists (reread_state next). split; [done|]. destruct Hc as (t & Hcb & -> & _).
  apply on_fst_ok in Hcb as [Hcb _]. pose proof (save_publication_state _ _ _ _ _ Hcb Hp) as E.
  cbv zeta. cbn [reread_state os_Publications begin_transaction tx_state] in E |- *. rewrite E. split.
  - by rewrite lookup_fmap, lookup_insert_eq.
  - intros k Hk. rewrite lookup_fmap, lookup_insert_ne, lookup_take_path by done.
    destruct (os_Publications s !! k) as [q|]; [|done]. cbn [fmap option_fmap option_map]. f_equal.
    rewrite (bool_decide_eq_false_2 (k = _)) by done. cbn [orb].
    destruct (pb_Public q) eqn:Eq; cbn [negb orb].
    + by case_bool_decide.
    + case_bool_decide; [|done]. f_equal. destruct q; simpl in *. by subst.
Qed.

(** A store that can be read can be written.  When a durable store loads,
    its state has a JSON encoding and the disk takes the next write, an empty
    transaction commits and leaves the store durable with the same state: no
    committed state is ever refused by a later commit. *)
Theorem readable_store_commits {C} w s (c : C) :
  durable w s → loadOperationalStateLocked (Ok tt) w = (w, Ok s) → encodes_state s = Ok tt →
  hd Written (w_writes w) = Written →
  ∃ w', FileStore_Within (Ok tt) (λ x, (x, Ok tt)) (w, c) = ((w', c), Ok tt) ∧ durable w' s ∧ same_records w w'.
Proof.
  intros [Hset Hre Hg] Hl He Hd.
  destruct (load_settled_valid _ _ _ _ _ Hset Hl) as (_ & _ & _ & Ha & Hr). pose proof Hset as (Hs & Hv & Hm).
  exists (set_state s (next_writes w)). split; [|split; [split; [done|done|done]|done]].
  unfold FileStore_Within. unfold mbind at 1, stM_bind at 1, lift at 1. rewrite Hl.
  unfold on_fst, commit, begin_transaction. cbn [fst snd]. rewrite gets_bind. cbn [tx_state tx_mutatedRevisions].
  assert (os_migratedRevisions s = ∅) as Hmig by (by rewrite <-Hre).
  unfold mbind at 1, stM_bind at 1, lift at 1. rewrite unchanged_commits by done.
  unfold mbind at 1, stM_bind at 1, lift at 1, validateCommittedReleaseTracks. cbn [tx_validatedReleaseTracks].
  rewrite bool_decide_eq_true_2 by done. cbn [negb throw_if].
  unfold publishCurrentOperationalState, publishOperationalState. rewrite Hv.
  unfold mbind at 1, stM_bind at 1, lift at 1. cbn [Z.eqb negb throw_if operationalStateVersion].
  unfold mbind at 1, stM_bind at 1. unfold mbind at 1, stM_bind at 1, lift at 1.
  unfold mbind at 1, stM_bind at 1, lift at 1. rewrite He. unfold durableAtomicWrite. rewrite Hd, Hre.
  unfold st_wrap, persistOperationalSchemaMarker.
  unfold mbind at 1, stM_bind at 1, lift at 1. unfold mbind at 1, stM_bind at 1.
  assert (loadOperationalSchemaMarker (Ok tt) (set_state s (next_writes w))
          = (set_state s (next_writes w), Ok (Some operationalStateVersion))) as ->.
  { unfold loadOperationalSchemaMarker. unfold mbind at 1, stM_bind at 1, lift at 1. rewrite gets_bind. cbn [w_marker set_state next_writes].
    by rewrite Hm. }
  done.
Qed.
End properties.

(** ** Witnesses *)

Definition served : World * res Publication := @PublicPublicationByPath latin1 (Ok tt) "/c" small_world.

Lemma public_route_serves_intact_evidence_witness :
  served.1 = small_world ∧ pb_Public (small_publication "r1") = true ∧ pb_Path (small_publication "r1") = "/c"
  ∧ (∃ r, revisionForContract small_state "c" "r1" = Some r ∧ @intact latin1 (w_blobs small_world) r)
  ∧ ((∃ key, os_Publications small_state !! key = Some (small_publication "r1") ∧
        ∀ k q, os_Publications small_state !! k = Some q → pb_Public q = true → pb_Path q = "/c" → k = key)
     ∨ (∃ name, w_publications small_world !! name = Some (small_publication "r1"))
       ∧ ∀ k q, os_Publications small_state !! k = Some q → pb_Public q = true → pb_Path q ≠ "/c").
Proof.
  apply (@public_route_serves_intact_evidence latin1 latin1_laws (Ok tt) "/c" small_world small_state
           served.1 (small_publication "r1")).
  - exact small_settled.
  - apply (pair_ok served). vm_compute. reflexivity.
Defined.

Definition takeover : World * res unit :=
  @FileStore_SavePublication latin1 (Ok tt) (small_publication "r2") small_world.

Lemma published_path_is_taken_over_witness :
  ∃ s', settled takeover.1 s' ∧
    let key := publicationKey "c" "r2" in
    os_Publications s' !! key = Some (reread (small_publication "r2"))
    ∧ ∀ k, k ≠ key → os_Publications s' !! k
        = (λ q, reread (if bool_decide (pb_Path q = pb_Path (small_publication "r2")) then with_Public false q else q))
            <$> os_Publications small_state !! k.
Proof.
  apply (@published_path_is_taken_over latin1 (Ok tt) (small_publication "r2") small_world small_state takeover.1).
  - exact small_settled.
  - apply (pair_ok takeover). vm_compute. reflexivity.
  - reflexivity.
Defined.

Lemma readable_store_commits_witness :
  ∃ w', @FileStore_Within latin1 unit (Ok tt) (λ x, (x, Ok tt)) (small_world, tt) = ((w', tt), Ok tt)
    ∧ durable w' small_state ∧ same_records small_world w'.
Proof.
  apply (@readable_store_commits latin1 unit small_world small_state tt).
  - exact small_durable.
  - vm_compute. reflexivity.
  - vm_compute. reflexivity.
  - vm_compute. reflexivity.
Defined.
