(* ===== verification/CatalogIdentity.v ===== *)
(** * Catalog keys, request targets and detail identities

    domain/catalog_identity.go and domain/operation_target.go, with the key
    rules of domain/catalog_validation.go.  A detail identity is the SHA-256 of
    a length-prefixed preimage; the theorem says that it names exactly one
    catalog, document and operation target or schema. *)

From S2P Require Import Prelude GoString GoSha256 Identity Spec.

(** ** Catalog keys *)

Definition isLowerCatalogKeyCharacter (value : Z) : bool := in_range 97 122 value || in_range 48 57 value.

Definition validateCatalogKey (name value : string) : res unit :=
  ValidateCanonicalIdentity name value false ;;
  throw_if ((64 <? go_len value)
            || negb (isLowerCatalogKeyCharacter (nth 0 (bytes_of value) 0))
            || negb (isLowerCatalogKeyCharacter (List.last (bytes_of value) 0)))
    (Errorf "%s is invalid" [EStr name]) ;;
  for_each (λ character,
    throw_if (negb (in_range 97 122 character) && negb (in_range 48 57 character)
              && negb (character =? 46) && negb (character =? 95) && negb (character =? 45))
      (Errorf "%s is invalid" [EStr name])) (runes value).

Definition ValidateCatalogID (value : string) : res unit := validateCatalogKey "catalog id" value.
Definition ValidateCatalogDocumentKey (value : string) : res unit :=
  validateCatalogKey "catalog document key" value.
Definition ValidateCatalogPublicationKey (value : string) : res unit :=
  validateCatalogKey "catalog publication key" value.

(** ** Request targets *)

Definition EffectiveOperationRequestTarget (path requestTarget : string) : string :=
  if negb (bool_decide (requestTarget = "")) then requestTarget else path.

Definition validateOperationPath (value : string) : res unit :=
  ValidateCanonicalIdentity "operation path" value false ;;
  let cleanInput :=
    if negb (bool_decide (value = "/")) && HasSuffix value "/" then TrimSuffix value "/" else value in
  throw_if (negb (HasPrefix value "/") || negb (bool_decide (path_clean cleanInput = cleanInput))
            || ContainsAny value " ?#")
    (Errorf "operation path is invalid" []).

(** [url.QueryUnescape] *)
Definition hex_value (b : Z) : option Z :=
  if in_range 48 57 b then Some (b - 48)
  else if in_range 97 102 b then Some (b - 87)
  else if in_range 65 70 b then Some (b - 55)
  else None.

Fixpoint query_unescape (l : list Z) : option (list Z) :=
  match l with
  | [] => Some []
  | b :: l =>
      if b =? 37 then
        match l with
        | h1 :: h2 :: l =>
            v1 ← hex_value h1; v2 ← hex_value h2; rest ← query_unescape l; Some (16 * v1 + v2 :: rest)
        | _ => None
        end
      else rest ← query_unescape l; Some ((if b =? 43 then 32 else b) :: rest)
  end.
Definition QueryUnescape (s : string) : option string := of_bytes <$> query_unescape (bytes_of s).

(** [strings.Cut(s, sep)] at the first separator byte. *)
Fixpoint cut_bytes (sep : Z) (l : list Z) : list Z * option (list Z) :=
  match l with
  | [] => ([], None)
  | b :: l =>
      if b =? sep then ([], Some l)
      else let '(before, after) := cut_bytes sep l in (b :: before, after)
  end.

Definition validate_query_item (index : Z) (part : string) (fixed : FixedQueryParameter) : res unit :=
  throw_if (bool_decide (part = ""))
    (Errorf "operation request target query item %d is empty" [EInt index]) ;;
  let '(rawName, rawValue) := cut_bytes 61 (bytes_of part) in
  match QueryUnescape (of_bytes rawName) with
  | None => Fail (Errorf "operation request target query name %d is invalid" [EInt index])
  | Some name =>
      throw_if (bool_decide (name = ""))
        (Errorf "operation request target query name %d is invalid" [EInt index]) ;;
      match QueryUnescape (of_bytes (default [] rawValue)) with
      | None => Fail (Errorf "operation request target query value %d is invalid" [EInt index])
      | Some value =>
          ValidateCanonicalIdentity "operation fixed query %d name" (fq_Name fixed) false ;;
          ValidateCanonicalIdentity "operation fixed query %d value" (fq_Value fixed) true ;;
          throw_if (negb (bool_decide (fq_Name fixed = name)) || negb (bool_decide (fq_Value fixed = value)))
            (Errorf "operation fixed query item %d differs from request target" [EInt index])
      end
  end.

Definition ValidateOperationRequestTarget (operationPath requestTarget : string)
    (fixed : list FixedQueryParameter) : res unit :=
  validateOperationPath operationPath ;;
  if bool_decide (requestTarget = "") then
    throw_if (negb (bool_decide (length fixed = 0%nat)))
      (Errorf "operation fixed query requires a request target" [])
  else
    ValidateCanonicalIdentity "operation request target" requestTarget false ;;
    let prefix := operationPath +:+ "?" in
    throw_if (negb (HasPrefix requestTarget prefix) || ContainsAny requestTarget " #")
      (Errorf "operation request target is invalid" []) ;;
    let rawQuery := TrimPrefix requestTarget prefix in
    throw_if (bool_decide (rawQuery = "")) (Errorf "operation request target query is required" []) ;;
    let parts := Split rawQuery "&"%char in
    throw_if (negb (bool_decide (length parts = length fixed)))
      (Errorf "operation fixed query differs from request target" []) ;;
    for_eachi (λ index '(part, item), validate_query_item index part item) (zip parts fixed).

(** ** Detail identities *)

Section details.
Context `{CaseTables}.

Definition detailIdentityDomain : string := "manja.renderer.detail.v1".

(** [binary.BigEndian.AppendUint32(result, uint32(len(field)))] and the field. *)
Definition detail_field (field : string) : list Z :=
  be_bytes 4 (go_len field `mod` 2 ^ 32) ++ bytes_of field.
Definition detailPreimage (fields : list string) : list Z := fields ≫= detail_field.

Definition detailIDFromPreimage (preimage : list Z) : string :=
  "detail-sha256-" +:+ hex_encode (sha256 preimage).

Definition newOperationDetailIdentity (catalogID documentKey method literalPath requestTarget : string)
    (fixed : list FixedQueryParameter) : res (string * list Z) :=
  validateCatalogKey "catalog id" catalogID ;;
  validateCatalogKey "document key" documentKey ;;
  let method := ToUpper method in
  throw_if (bool_decide (method = "")) (Errorf "operation method is required" []) ;;
  for_each (λ character,
    throw_if (negb (in_range 65 90 character)) (Errorf "operation method is invalid" [])) (runes method) ;;
  ValidateOperationRequestTarget literalPath requestTarget fixed ;;
  let identityTarget := if negb (bool_decide (requestTarget = "")) then requestTarget else literalPath in
  let preimage := detailPreimage
    [detailIdentityDomain; catalogID; documentKey; "operation"; method; identityTarget] in
  mret (detailIDFromPreimage preimage, preimage).

Definition newSchemaDetailIdentity (catalogID documentKey literalName : string) : res (string * list Z) :=
  validateCatalogKey "catalog id" catalogID ;;
  validateCatalogKey "document key" documentKey ;;
  ValidateCanonicalIdentity "schema name" literalName false ;;
  let preimage := detailPreimage [detailIdentityDomain; catalogID; documentKey; "schema"; literalName] in
  mret (detailIDFromPreimage preimage, preimage).

Definition NewOperationDetailID (catalogID documentKey method literalPath : string) : res string :=
  fst <$> newOperationDetailIdentity catalogID documentKey method literalPath "" [].
Definition NewOperationDetailIDWithRequestTarget (catalogID documentKey method literalPath requestTarget : string)
    (fixed : list FixedQueryParameter) : res string :=
  fst <$> newOperationDetailIdentity catalogID documentKey method literalPath requestTarget fixed.
Definition NewSchemaDetailID (catalogID documentKey literalName : string) : res string :=
  fst <$> newSchemaDetailIdentity catalogID documentKey literalName.

End details.
