(* ===== verification/SpecValidation.v ===== *)
(** * Specification validation (domain/spec_validation.go)

    [ValidateSpecIndex] is the check a parsed specification passes before it is
    normalised, compared or projected.  Its first part bounds the schema
    summaries: a depth-first walk that follows [Items] pointers, memoises the
    height of every pointer it has left and fails on a pointer it is still
    inside of.  [DiffSpecIndexes] (domain/specdiff.go) compares two validated
    indexes.

    An index comes with the heap its [Items] pointers point into. *)

From stdpp Require Import pretty.
From S2P Require Import Prelude GoString GoTime Identity Spec Snapshot SpecDiff CatalogIdentity.

#[export] Instance SchemaSummary_inhabited : Inhabited SchemaSummary := populate empty_summary.

Definition Heap := gmap ptr SchemaSummary.

(** ** What reflection shows of an index *)

#[export] Instance FixedQueryParameter_value : GoValue FixedQueryParameter := λ f, VStruct [
  exported "Name" (fq_Name f); exported "Value" (fq_Value f)].
#[export] Instance Facet_value : GoValue Facet := λ f, VStruct [
  exported "Name" (fc_Name f); exported "Value" (fc_Value f)].
#[export] Instance SchemaConstraint_value : GoValue SchemaConstraint := λ c, VStruct [
  exported "Name" (sc_Name c); exported "Value" (sc_Value c)].

Fixpoint reflect_summary (s : SchemaSummary) : gval :=
  VStruct [
    exported "Name" (ss_Name s); exported "Type" (ss_Type s); exported "Format" (ss_Format s);
    exported "Description" (ss_Description s); exported "Default" (ss_Default s);
    exported "Example" (ss_Example s); ("Enum", "", value_slice (ss_Enum s));
    ("Constraints", "", value_slice (ss_Constraints s));
    exported "Nullable" (ss_Nullable s); exported "Deprecated" (ss_Deprecated s);
    ("Properties", "", VSlice ((λ p, VStruct [
       exported "Name" (sp_Name p); exported "Required" (sp_Required p);
       ("Schema", "", reflect_summary (sp_Schema p));
       exported "Description" (sp_Description p)]) <$> ss_Properties s));
    ("Items", "", match ss_Items s with Some p => VRef p | None => VPointer None end);
    exported "JSON" (ss_JSON s)].
#[export] Instance SchemaSummary_value : GoValue SchemaSummary := reflect_summary.

#[export] Instance OperationParameter_value : GoValue OperationParameter := λ p, VStruct [
  exported "Name" (par_Name p); exported "In" (par_In p); exported "Required" (par_Required p);
  exported "Description" (par_Description p); exported "Schema" (par_Schema p);
  exported "Example" (par_Example p)].
#[export] Instance OperationMediaType_value : GoValue OperationMediaType := λ m, VStruct [
  exported "ContentType" (mt_ContentType m); exported "Schema" (mt_Schema m);
  exported "Example" (mt_Example m); exported "ExampleProvided" (mt_ExampleProvided m)].
#[export] Instance OperationRequestBody_value : GoValue OperationRequestBody := λ b, VStruct [
  exported "Description" (rb_Description b); exported "Required" (rb_Required b);
  ("MediaTypes", "", value_slice (rb_MediaTypes b))].
#[export] Instance OperationResponseHeader_value : GoValue OperationResponseHeader := λ h, VStruct [
  exported "Name" (rh_Name h); exported "Description" (rh_Description h);
  exported "Schema" (rh_Schema h); exported "Example" (rh_Example h)].
#[export] Instance OperationResponse_value : GoValue OperationResponse := λ r, VStruct [
  exported "Status" (rsp_Status r); exported "Description" (rsp_Description r);
  ("Headers", "", value_slice (rsp_Headers r)); ("MediaTypes", "", value_slice (rsp_MediaTypes r))].
#[export] Instance SecurityScheme_value : GoValue SecurityScheme := λ s, VStruct [
  exported "Name" (sec_Name s); exported "Type" (sec_Type s); exported "Description" (sec_Description s);
  exported "ParameterName" (sec_ParameterName s); exported "In" (sec_In s); exported "Scheme" (sec_Scheme s);
  exported "BearerFormat" (sec_BearerFormat s); exported "OpenIDConnectURL" (sec_OpenIDConnectURL s)].
#[export] Instance OperationSecurity_value : GoValue OperationSecurity := λ s, VStruct [
  exported "Name" (os_Name s); ("Scopes", "", value_slice (os_Scopes s));
  exported "Definition" (os_Definition s)].
#[export] Instance RequestSnippet_value : GoValue RequestSnippet := λ s, VStruct [
  exported "Label" (sn_Label s); exported "Language" (sn_Language s); exported "Code" (sn_Code s)].
#[export] Instance Operation_value : GoValue Operation := λ o, VStruct [
  exported "ID" (op_ID o); exported "Anchor" (op_Anchor o); exported "Title" (op_Title o);
  exported "Method" (op_Method o); exported "Path" (op_Path o);
  exported "RequestTarget" (op_RequestTarget o); ("FixedQuery", "", value_slice (op_FixedQuery o));
  exported "Summary" (op_Summary o); exported "Description" (op_Description o);
  ("Tags", "", value_slice (op_Tags o)); ("Facets", "", value_slice (op_Facets o));
  exported "Deprecated" (op_Deprecated o); ("Parameters", "", value_slice (op_Parameters o));
  ("RequestBody", "", value_pointer (op_RequestBody o)); ("Responses", "", value_slice (op_Responses o));
  ("Security", "", value_slice (op_Security o)); ("Snippets", "", value_slice (op_Snippets o))].
#[export] Instance SchemaExample_value : GoValue SchemaExample := λ e, VStruct [
  exported "JSON" (se_JSON e); exported "Example" (se_Example e); exported "Provided" (se_Provided e)].
#[export] Instance Schema_value : GoValue Schema := λ s, VStruct [
  exported "Name" (sch_Name s); exported "Description" (sch_Description s);
  exported "Summary" (sch_Summary s); exported "Example" (sch_Example s)].
#[export] Instance SearchDocument_value : GoValue SearchDocument := λ d, VStruct [
  exported "ID" (sd_ID d); exported "Title" (sd_Title d); exported "Description" (sd_Description d);
  exported "Href" (sd_Href d); exported "Kind" (sd_Kind d); exported "Method" (sd_Method d);
  exported "Path" (sd_Path d); exported "Section" (sd_Section d);
  ("Keywords", "", value_slice (sd_Keywords d))].
#[export] Instance PublicRoute_value : GoValue PublicRoute := λ r, VStruct [
  exported "Path" (pr_Path r); exported "Title" (pr_Title r); exported "Description" (pr_Description r)].
#[export] Instance DocsBrandingLogo_value : GoValue DocsBrandingLogo := λ l, VStruct [
  exported "Src" (bl_Src l); exported "Alt" (bl_Alt l); exported "HomeURL" (bl_HomeURL l)].
#[export] Instance DocsBranding_value : GoValue DocsBranding := λ b, VStruct [
  exported "DisplayName" (br_DisplayName b); exported "Logo" (br_Logo b); exported "Favicon" (br_Favicon b)].
#[export] Instance SpecServerVariable_value : GoValue SpecServerVariable := λ v, VStruct [
  exported "Name" (sv_Name v); exported "Default" (sv_Default v); exported "Description" (sv_Description v);
  ("Enum", "", value_slice (sv_Enum v))].
#[export] Instance SpecServer_value : GoValue SpecServer := λ s, VStruct [
  exported "URL" (srv_URL s); exported "Description" (srv_Description s);
  ("Variables", "", value_slice (srv_Variables s))].
#[export] Instance SpecContact_value : GoValue SpecContact := λ c, VStruct [
  exported "Name" (ct_Name c); exported "URL" (ct_URL c); exported "Email" (ct_Email c)].
#[export] Instance SpecLicense_value : GoValue SpecLicense := λ l, VStruct [
  exported "Name" (li_Name l); exported "URL" (li_URL l); exported "Identifier" (li_Identifier l)].
#[export] Instance SpecOverview_value : GoValue SpecOverview := λ o, VStruct [
  exported "Description" (ov_Description o); exported "TermsOfService" (ov_TermsOfService o);
  exported "Contact" (ov_Contact o); exported "License" (ov_License o);
  ("Servers", "", value_slice (ov_Servers o))].
#[export] Instance SpecDownload_value : GoValue SpecDownload := λ d, VStruct [
  ("JSON", "", value_slice (dl_JSON d)); exported "Filename" (dl_Filename d)].
#[export] Instance SpecIndex_value : GoValue SpecIndex := λ x, VStruct [
  exported "ProjectID" (ix_ProjectID x); exported "RevisionID" (ix_RevisionID x);
  exported "Title" (ix_Title x); exported "Version" (ix_Version x); exported "Branding" (ix_Branding x);
  exported "Overview" (ix_Overview x); exported "SpecDownload" (ix_SpecDownload x);
  ("Operations", "", value_slice (ix_Operations x)); ("Schemas", "", value_slice (ix_Schemas x));
  ("SecuritySchemes", "", value_slice (ix_SecuritySchemes x)); ("Search", "", value_slice (ix_Search x));
  ("PublicRoutes", "", value_slice (ix_PublicRoutes x));
  exported "ExampleSpecJSON" (ix_ExampleSpecJSON x)].

(** ** Schema summaries *)

Definition maxSpecSchemaSummaryDepth : Z := 64.
Definition maxSpecSchemaSummaryNodes : Z := 100000.

Record specSchemaSummaryValidator := MkSpecSchemaSummaryValidator {
  sv_active : gset ptr;
  sv_memoHeight : gmap ptr Z;
  sv_nodes : Z;
  sv_resourceLimits : bool;
}.

Abbreviation validating := (stM specSchemaSummaryValidator).

Definition count_node (v : specSchemaSummaryValidator) : specSchemaSummaryValidator :=
  MkSpecSchemaSummaryValidator (sv_active v) (sv_memoHeight v) (sv_nodes v + 1) (sv_resourceLimits v).
Definition enter (p : ptr) (v : specSchemaSummaryValidator) : specSchemaSummaryValidator :=
  MkSpecSchemaSummaryValidator ({[p]} ∪ sv_active v) (sv_memoHeight v) (sv_nodes v) (sv_resourceLimits v).
Definition leave (p : ptr) (v : specSchemaSummaryValidator) : specSchemaSummaryValidator :=
  MkSpecSchemaSummaryValidator (sv_active v ∖ {[p]}) (sv_memoHeight v) (sv_nodes v) (sv_resourceLimits v).
Definition memoise (p : ptr) (height : Z) (v : specSchemaSummaryValidator) : specSchemaSummaryValidator :=
  MkSpecSchemaSummaryValidator (sv_active v) (<[p:=height]> (sv_memoHeight v)) (sv_nodes v) (sv_resourceLimits v).

(** The pointer is left whether its value passed or not. *)
Definition leaving {A} (p : ptr) (m : validating A) : validating A := λ v,
  let '(v, r) := m v in (leave p v, r).

Section validator.
Context (heap : Heap).

Definition too_deep (prefix : string) : error :=
  Errorf "%s exceeds maximum schema summary depth %d" [EStr prefix; EInt maxSpecSchemaSummaryDepth].

Section nodes.
Context (validateValue : string → SchemaSummary → Z → validating Z).

Definition validatePointer (prefix : string) (schema : ptr) (depth : Z) : validating Z :=
  active ← gets sv_active;
  lift (throw_if (bool_decide (schema ∈ active)) (Errorf "%s contains a schema summary cycle" [EStr prefix])) ;;
  memo ← gets sv_memoHeight;
  match memo !! schema with
  | Some height =>
      lift (throw_if (maxSpecSchemaSummaryDepth <? depth + height - 1) (too_deep prefix)) ;;
      mret height
  | None =>
      modify (enter schema) ;;
      height ← leaving schema (validateValue prefix (heap !!! schema) depth);
      modify (memoise schema height) ;;
      mret height
  end.

Fixpoint validate_properties (prefix : string) (depth propertyIndex height : Z) (properties : list SchemaProperty) : validating Z :=
  match properties with
  | [] => mret height
  | property :: properties =>
      let propertyPrefix := prefix +:+ " property " +:+ pretty propertyIndex in
      lift (ValidateCanonicalIdentity (propertyPrefix +:+ " name") (sp_Name property) false) ;;
      propertyHeight ← validateValue (propertyPrefix +:+ " schema") (sp_Schema property) (depth + 1);
      validate_properties prefix depth (propertyIndex + 1)
        (if height <? 1 + propertyHeight then 1 + propertyHeight else height) properties
  end.
End nodes.

(** The fuel is the depth that is left: a value within the depth bound has
    some. *)
Fixpoint validateValue (fuel : nat) (prefix : string) (schema : SchemaSummary) (depth : Z) : validating Z :=
  lift (throw_if (maxSpecSchemaSummaryDepth <? depth) (too_deep prefix)) ;;
  modify count_node ;;
  resourceLimits ← gets sv_resourceLimits;
  nodes ← gets sv_nodes;
  lift (throw_if (resourceLimits && (maxSpecSchemaSummaryNodes <? nodes))
    (Errorf "%s exceeds maximum schema summary nodes %d" [EStr prefix; EInt maxSpecSchemaSummaryNodes])) ;;
  lift (validate_identities [
    (prefix +:+ " name", ss_Name schema, true);
    (prefix +:+ " type", ss_Type schema, true);
    (prefix +:+ " format", ss_Format schema, true)]) ;;
  match fuel with
  | O => lift (Fail (Errorf "out of fuel" []))
  | S fuel =>
      height ← validate_properties (validateValue fuel) prefix depth 0 1 (ss_Properties schema);
      match ss_Items schema with
      | None => mret height
      | Some items =>
          itemsHeight ← validatePointer (validateValue fuel) (prefix +:+ " items") items (depth + 1);
          mret (if height <? 1 + itemsHeight then 1 + itemsHeight else height)
      end
  end.

Definition validateRoot (prefix : string) (schema : SchemaSummary) : validating unit :=
  validateValue (Z.to_nat maxSpecSchemaSummaryDepth) prefix schema 1 ;; mret tt.

Definition validate_summaries (index : SpecIndex) : validating unit :=
  st_for_eachi (λ operationIndex operation,
    let prefix := "spec operation " +:+ pretty operationIndex in
    st_for_eachi (λ parameterIndex parameter,
      validateRoot (prefix +:+ " parameter " +:+ pretty parameterIndex +:+ " schema") (par_Schema parameter))
      (op_Parameters operation) ;;
    match op_RequestBody operation with
    | None => mret tt
    | Some body =>
        st_for_eachi (λ mediaIndex media,
          validateRoot (prefix +:+ " request media " +:+ pretty mediaIndex +:+ " schema") (mt_Schema media))
          (rb_MediaTypes body)
    end ;;
    st_for_eachi (λ responseIndex response,
      st_for_eachi (λ mediaIndex media,
        validateRoot (prefix +:+ " response " +:+ pretty responseIndex +:+ " media " +:+ pretty mediaIndex
                        +:+ " schema") (mt_Schema media))
        (rsp_MediaTypes response))
      (op_Responses operation))
    (ix_Operations index) ;;
  st_for_eachi (λ schemaIndex schema,
    validateRoot ("spec schema " +:+ pretty schemaIndex +:+ " summary") (sch_Summary schema))
    (ix_Schemas index).

Definition new_validator (resourceLimits : bool) : specSchemaSummaryValidator :=
  MkSpecSchemaSummaryValidator ∅ ∅ 0 resourceLimits.

Definition validateSpecIndexSchemaSummaries (index : SpecIndex) (resourceLimits : bool) : res unit :=
  (validate_summaries index (new_validator resourceLimits)).2.
End validator.

(** ** The index *)

Definition validateOperationFacets (prefix : string) (facets : list Facet) : res unit :=
  for_eachi (λ index facet,
    ValidateCanonicalIdentity (prefix +:+ " facet " +:+ pretty index +:+ " name") (fc_Name facet) false ;;
    ValidateCanonicalIdentity (prefix +:+ " facet " +:+ pretty index +:+ " value") (fc_Value facet) false ;;
    if index =? 0 then mret tt
    else
      let previous := nth (Z.to_nat (index - 1)) facets (MkFacet "" "") in
      throw_if ((fc_Name facet <? fc_Name previous)%string
                || bool_decide (fc_Name previous = fc_Name facet)
                   && negb (fc_Value previous <? fc_Value facet)%string)
        (Errorf "%s facets must be sorted and unique" [EStr prefix]))
    facets.

Definition validateOperationMediaTypeIdentities (prefix : string) (media : OperationMediaType) : res unit :=
  ValidateCanonicalIdentity (prefix +:+ " content type") (mt_ContentType media) false.

Definition validate_operation (operationIndex : Z) (operation : Operation) : res unit :=
  let prefix := "spec operation " +:+ pretty operationIndex in
  wrap_err (ValidateOperationRequestTarget (op_Path operation) (op_RequestTarget operation) (op_FixedQuery operation))
    (λ e, Errorf "%s: %w" [EStr prefix; EErr e]) ;;
  validate_identities [
    (prefix +:+ " id", op_ID operation, true);
    (prefix +:+ " anchor", op_Anchor operation, true);
    (prefix +:+ " method", op_Method operation, false);
    (prefix +:+ " path", op_Path operation, false)] ;;
  for_eachi (λ parameterIndex parameter,
    let parameterPrefix := prefix +:+ " parameter " +:+ pretty parameterIndex in
    ValidateCanonicalIdentity (parameterPrefix +:+ " name") (par_Name parameter) false ;;
    ValidateCanonicalIdentity (parameterPrefix +:+ " location") (par_In parameter) false)
    (op_Parameters operation) ;;
  validateOperationFacets prefix (op_Facets operation) ;;
  match op_RequestBody operation with
  | None => mret tt
  | Some body =>
      for_eachi (λ mediaIndex media,
        validateOperationMediaTypeIdentities (prefix +:+ " request media " +:+ pretty mediaIndex) media)
        (rb_MediaTypes body)
  end ;;
  for_eachi (λ responseIndex response,
    let responsePrefix := prefix +:+ " response " +:+ pretty responseIndex in
    ValidateCanonicalIdentity (responsePrefix +:+ " status") (rsp_Status response) false ;;
    for_eachi (λ mediaIndex media,
      validateOperationMediaTypeIdentities (responsePrefix +:+ " media " +:+ pretty mediaIndex) media)
      (rsp_MediaTypes response))
    (op_Responses operation) ;;
  for_eachi (λ securityIndex security,
    let securityPrefix := prefix +:+ " security " +:+ pretty securityIndex in
    ValidateCanonicalIdentity (securityPrefix +:+ " name") (os_Name security) false ;;
    for_eachi (λ scopeIndex scope,
      ValidateCanonicalIdentity (securityPrefix +:+ " scope " +:+ pretty scopeIndex) scope false)
      (os_Scopes security))
    (op_Security operation) ;;
  for_eachi (λ snippetIndex snippet,
    ValidateCanonicalIdentity (prefix +:+ " snippet " +:+ pretty snippetIndex +:+ " language")
      (sn_Language snippet) true)
    (op_Snippets operation).

Section index.
Context `{CaseTables}.

Definition validateSpecIndexSurfaceUniqueness (index : SpecIndex) : res unit :=
  for_unique
    (λ operation, (canonicalUpperSurfaceText (op_Method operation), TrimSpace (op_Path operation),
                   TrimSpace (EffectiveOperationRequestTarget (op_Path operation) (op_RequestTarget operation))))
    (λ operationIndex key, Errorf "spec operation %d duplicates canonical operation %s %s"
       [EInt operationIndex; EStr key.1.1; EStr key.2])
    (λ operationIndex operation,
      for_unique (λ parameter, (TrimSpace (par_Name parameter), canonicalLowerSurfaceText (par_In parameter)))
        (λ parameterIndex key,
           Errorf "spec operation %d parameter %d duplicates canonical parameter %s in %s"
             [EInt operationIndex; EInt parameterIndex; EStr key.1; EStr key.2])
        (λ _ _, mret tt) (op_Parameters operation) ;;
      for_unique (λ response, TrimSpace (rsp_Status response))
        (λ responseIndex status, Errorf "spec operation %d response %d duplicates status %s"
           [EInt operationIndex; EInt responseIndex; EStr status])
        (λ _ _, mret tt) (op_Responses operation))
    (ix_Operations index) ;;
  for_unique (λ schema, TrimSpace (sch_Name schema))
    (λ schemaIndex name, Errorf "spec schema %d duplicates schema %s" [EInt schemaIndex; EStr name])
    (λ _ _, mret tt) (ix_Schemas index).

Record ValidationOptions := MkValidationOptions {
  vo_ResourceLimits : bool;
}.

Definition ValidateSpecIndexWithOptions (heap : Heap) (index : SpecIndex) (options : ValidationOptions) : res unit :=
  validateSpecIndexSchemaSummaries heap index (vo_ResourceLimits options) ;;
  validateUTF8Shared (reflect_summary <$> heap) "spec index" index ;;
  let download := dl_JSON (ix_SpecDownload index) in
  throw_if (negb (bool_decide (length download = 0%nat)) && negb (valid_utf8 (of_bytes download)))
    (Errorf "spec index download JSON must contain valid UTF-8" []) ;;
  validate_identities [
    ("spec index project id", ix_ProjectID index, true);
    ("spec index revision id", ix_RevisionID index, true);
    ("spec download filename", dl_Filename (ix_SpecDownload index), true)] ;;
  for_eachi (λ serverIndex server,
    for_eachi (λ variableIndex variable,
      ValidateCanonicalIdentity
        ("spec server " +:+ pretty serverIndex +:+ " variable " +:+ pretty variableIndex +:+ " name")
        (sv_Name variable) false)
      (srv_Variables server))
    (ov_Servers (ix_Overview index)) ;;
  for_eachi validate_operation (ix_Operations index) ;;
  for_eachi (λ schemaIndex schema,
    ValidateCanonicalIdentity ("spec schema " +:+ pretty schemaIndex +:+ " name") (sch_Name schema) false)
    (ix_Schemas index) ;;
  for_eachi (λ searchIndex document,
    let prefix := "spec search document " +:+ pretty searchIndex in
    validate_identities [
      (prefix +:+ " id", sd_ID document, false);
      (prefix +:+ " href", sd_Href document, false);
      (prefix +:+ " kind", sd_Kind document, false);
      (prefix +:+ " method", sd_Method document, true);
      (prefix +:+ " path", sd_Path document, true);
      (prefix +:+ " section", sd_Section document, true)])
    (ix_Search index) ;;
  for_eachi (λ routeIndex route,
    ValidateCanonicalIdentity ("spec public route " +:+ pretty routeIndex +:+ " path") (pr_Path route) false)
    (ix_PublicRoutes index) ;;
  validateSpecIndexSurfaceUniqueness index.

Definition ValidateSpecIndex (heap : Heap) (index : SpecIndex) : res unit :=
  ValidateSpecIndexWithOptions heap index (MkValidationOptions true).

(** ** Comparing indexes *)

Definition DiffSpecIndexes (heap : Heap) (baseline candidate : SpecIndex) : res SpecDiff :=
  wrap_err (ValidateSpecIndex heap baseline) (λ e, Errorf "validate baseline spec index: %w" [EErr e]) ;;
  wrap_err (ValidateSpecIndex heap candidate) (λ e, Errorf "validate candidate spec index: %w" [EErr e]) ;;
  mret (diffValidatedContractSnapshots
    (NewContractSnapshot "diff-contract" (ix_RevisionID baseline) [] baseline)
    (NewContractSnapshot "diff-contract" (ix_RevisionID candidate) [] candidate)).
End index.

(** ** What the summary walk decides

    The reference: the tree a summary unfolds to has at most [n] levels, and
    every name in it is canonical. *)

Definition summary_names (s : SchemaSummary) : Prop :=
  canonical_opt (ss_Name s) ∧ canonical_opt (ss_Type s) ∧ canonical_opt (ss_Format s).

Section bounded.
Context (heap : Heap).

Fixpoint bounded (n : nat) (s : SchemaSummary) : Prop :=
  match n with
  | O => False
  | S n =>
      summary_names s
      ∧ Forall (λ p, canonical (sp_Name p) ∧ bounded n (sp_Schema p)) (ss_Properties s)
      ∧ ∀ p, ss_Items s = Some p → bounded n (heap !!! p)
  end.

Lemma bounded_mono n m s : bounded n s → (n ≤ m)%nat → bounded m s.
Proof.
  revert m s. induction n as [|n IH]; intros [|m] s Hb Hm; cbn in *; try done; [lia|].
  destruct Hb as (Hn & Hp & Hi). split; [done|split].
  - eapply Forall_impl; [exact Hp|]. intros p [? ?]. split; [done|]. eapply IH; [done|lia].
  - intros p Hp'. eapply IH; [by apply Hi|lia].
Qed.

(** [h] is the exact height. *)
Definition tall (s : SchemaSummary) (h : Z) : Prop := ∀ n : nat, bounded n s ↔ h ≤ Z.of_nat n.

Record memo_ok (v : specSchemaSummaryValidator) : Prop := {
  mo_limits : sv_resourceLimits v = false;
  mo_heights : ∀ p h, sv_memoHeight v !! p = Some h → tall (heap !!! p) h ∧ 1 ≤ h;
}.

(** [s] lies at or below every pointer the walk is inside of. *)
Definition below (active : gset ptr) (s : SchemaSummary) : Prop :=
  ∀ p, p ∈ active → ∀ n, bounded n (heap !!! p) → bounded n s.

(** What a walk of depth [depth] establishes of a tree with height predicate
    [fits]. *)
Definition decides (v : specSchemaSummaryValidator) (fuel : nat) (fits : nat → Prop) (r : specSchemaSummaryValidator * res Z) : Prop :=
  match r with
  | (v', Ok h) => memo_ok v' ∧ sv_active v' = sv_active v ∧ 1 ≤ h ≤ Z.of_nat fuel ∧ ∀ n : nat, fits n ↔ h ≤ Z.of_nat n
  | (_, Fail _) => ¬ fits fuel
  end.

Lemma below_child active s c :
  below active s → (∀ n, bounded (S n) s → bounded n c) → below active c.
Proof.
  intros Hb Hc p Hp n Hn. pose proof (Hb p Hp n Hn) as Hs. destruct n as [|n]; [done|].
  eapply bounded_mono; [by apply Hc|lia].
Qed.

Lemma below_property active s p :
  below active s → p ∈ ss_Properties s → below active (sp_Schema p).
Proof.
  intros Hb Hp. eapply below_child; [exact Hb|]. intros n (_ & Hps & _).
  rewrite Forall_forall in Hps. by apply Hps.
Qed.

Lemma never_below active s p :
  below active s → ss_Items s = Some p → p ∈ active → ∀ n, ¬ bounded n (heap !!! p).
Proof.
  intros Hb Hi Hp n. induction n as [|n IH]; [by intros []|].
  intros (_ & _ & Hs)%(Hb p Hp). by apply IH, Hs.
Qed.
End bounded.

Section walk.
Context (heap : Heap).
Notation bounded := (bounded heap).
Notation below := (below heap).
Notation decides := (decides heap).

(** A callback that decides the height of the values it is given. *)
Definition visits (fuel : nat) (active : gset ptr) (c : SchemaSummary)
    (visit : string → SchemaSummary → Z → validating Z) (depth : Z) : Prop :=
  ∀ prefix v, memo_ok heap v → sv_active v = active → below active c →
    decides v fuel (λ n, bounded n c) (visit prefix c depth v).

Lemma pointer_decides fuel active s p visit prefix depth v :
  ss_Items s = Some p → depth + Z.of_nat fuel = maxSpecSchemaSummaryDepth + 1 →
  (∀ active, visits fuel active (heap !!! p) visit depth) →
  memo_ok heap v → sv_active v = active → below active s →
  decides v fuel (λ n, bounded n (heap !!! p)) (validatePointer heap visit prefix p depth v).
Proof.
  unfold maxSpecSchemaSummaryDepth. intros Hi Hd Hv Hm <- Hb.
  unfold validatePointer, lift, gets, mbind, stM_bind. unfold throw_if at 1.
  case_bool_decide as Hp; [by eapply never_below|].
  destruct (sv_memoHeight v !! p) as [h|] eqn:E.
  - destruct (mo_heights _ _ Hm _ _ E) as [Ht Hh]. unfold throw_if, maxSpecSchemaSummaryDepth.
    destruct (64 <? depth + h - 1) eqn:Ed; cbn; [apply Z.ltb_lt in Ed|apply Z.ltb_ge in Ed].
    + rewrite (Ht fuel). lia.
    + split; [done|]. split; [done|]. split; [lia|done].
  - unfold modify, leaving. cbn.
    specialize (Hv ({[p]} ∪ sv_active v) prefix (enter p v)). destruct (visit prefix _ depth (enter p v)) as [v' r].
    assert (decides (enter p v) fuel (λ n, bounded n (heap !!! p)) (v', r)) as Hr.
    { apply Hv; [by destruct Hm|done|]. intros q [->%elem_of_singleton|Hq]%elem_of_union n Hn; [done|].
      pose proof (Hb q Hq n Hn) as Hs. destruct n as [|n]; [done|]. destruct Hs as (_ & _ & Hs).
      eapply bounded_mono; [by apply Hs|lia]. }
    destruct r as [h|e]; [|done]. cbn in Hr. destruct Hr as ([Hl Hmm] & Ha & Hh & Ht). split; [|split; [|done]].
    + split; [done|]. cbn. intros q k. destruct (decide (p = q)) as [<-|Hne].
      * rewrite lookup_insert_eq. intros [= <-]. split; [exact Ht|lia].
      * rewrite lookup_insert_ne by done. apply Hmm.
    + cbn. rewrite Ha. set_solver.
Qed.

Lemma properties_decide fuel active visit prefix depth l :
  Forall (λ p, below active (sp_Schema p) ∧ ∀ active, visits fuel active (sp_Schema p) visit (depth + 1)) l →
  ∀ i height v, memo_ok heap v → sv_active v = active → 1 ≤ height ≤ Z.of_nat (S fuel) →
  match validate_properties visit prefix depth i height l v with
  | (v', Ok h) =>
      memo_ok heap v' ∧ sv_active v' = active ∧ 1 ≤ h ≤ Z.of_nat (S fuel)
      ∧ ∀ n : nat, (height ≤ Z.of_nat (S n) ∧ Forall (λ p, canonical (sp_Name p) ∧ bounded n (sp_Schema p)) l) ↔ h ≤ Z.of_nat (S n)
  | (_, Fail _) => ¬ Forall (λ p, canonical (sp_Name p) ∧ bounded fuel (sp_Schema p)) l
  end.
Proof.
  induction 1 as [|p l [Hb Hv] Hl IH]; intros i height v Hm Ha Hh.
  { cbn. split; [done|]. split; [done|]. split; [done|]. intros n. rewrite Forall_nil. naive_solver. }
  cbn. unfold lift, mbind, stM_bind.
  destruct (ValidateCanonicalIdentity _ (sp_Name p) false) as [[]|e] eqn:Ec.
  2: { intros [[Hc _] _]%Forall_cons. rewrite (proj2 (ValidateCanonicalIdentity_required _ _) Hc) in Ec. done. }
  apply ValidateCanonicalIdentity_required in Ec.
  match goal with |- context [visit ?pre _ _ v] => specialize (Hv active pre v Hm Ha Hb) end.
  destruct (visit _ _ _ v) as [v1 [ph|e]].
  2: { intros [[_ Hc] _]%Forall_cons. done. }
  destruct Hv as (Hm1 & Ha1 & Hph & Ht).
  specialize (IH (i + 1) (if height <? 1 + ph then 1 + ph else height) v1 Hm1).
  assert (1 ≤ (if height <? 1 + ph then 1 + ph else height) ≤ Z.of_nat (S fuel)) as Hh'.
  { destruct (Z.ltb_spec height (1 + ph)); lia. }
  specialize (IH ltac:(congruence) Hh').
  destruct (validate_properties _ _ _ _ _ _ v1) as [v2 [h|e]].
  - destruct IH as (Hm2 & Ha2 & Hb2 & Hn). split; [done|]. split; [done|]. split; [done|].
    intros n. rewrite <-Hn, Forall_cons, (Ht n). destruct (Z.ltb_spec height (1 + ph)); naive_solver lia.
  - intros [_ Hc]%Forall_cons. done.
Qed.

Lemma names_decide prefix s :
  validate_identities [
    (prefix +:+ " name", ss_Name s, true);
    (prefix +:+ " type", ss_Type s, true);
    (prefix +:+ " format", ss_Format s, true)] = Ok tt ↔ summary_names s.
Proof. rewrite validate_identities_ok, !Forall_cons, Forall_nil. unfold summary_names. cbn. tauto. Qed.

Lemma validateValue_decides fuel : ∀ s depth, depth + Z.of_nat fuel = maxSpecSchemaSummaryDepth + 1 →
  ∀ active, visits fuel active s (validateValue heap fuel) depth.
Proof.
  unfold maxSpecSchemaSummaryDepth. induction fuel as [|fuel IH]; intros s depth Hd active prefix v Hm Ha Hb.
  all: cbn [validateValue]; unfold lift, modify, gets, mbind, stM_bind; unfold throw_if at 1, maxSpecSchemaSummaryDepth.
  { replace (64 <? depth) with true by (symmetry; apply Z.ltb_lt; lia). by intros []. }
  replace (64 <? depth) with false by (symmetry; apply Z.ltb_ge; lia).
  cbn [sv_resourceLimits sv_nodes count_node]. rewrite (mo_limits _ _ Hm). unfold throw_if. cbn [andb].
  destruct (validate_identities _) as [[]|e] eqn:En.
  2: { intros (Hn & _). by rewrite (proj2 (names_decide prefix s) Hn) in En. }
  apply names_decide in En.
  assert (memo_ok heap (count_node v)) as Hm0 by (by destruct Hm).
  assert (Forall (λ p, below active (sp_Schema p)
            ∧ ∀ active, visits fuel active (sp_Schema p) (validateValue heap fuel) (depth + 1)) (ss_Properties s)) as Hps.
  { apply Forall_forall. intros p Hp. split; [by eapply below_property|]. apply IH. unfold maxSpecSchemaSummaryDepth. lia. }
  pose proof (properties_decide fuel active _ prefix depth _ Hps 0 1 _ Hm0 Ha ltac:(lia)) as Hprops.
  destruct (validate_properties _ _ _ _ _ _ _) as [v1 [h1|e]].
  2: { intros (_ & Hp & _). done. }
  destruct Hprops as (Hm1 & Ha1 & Hh1 & Ht1).
  assert (∀ n : nat, bounded (S n) s ↔
    h1 ≤ Z.of_nat (S n) ∧ ∀ p, ss_Items s = Some p → bounded n (heap !!! p)) as Hs.
  { intros n. rewrite <-Ht1. cbn. split; [intros (_ & Hp & Hi)|intros [[_ Hp] Hi]]; split_and!; try done. lia. }
  destruct (ss_Items s) as [p|] eqn:Ei; cbn.
  - assert (depth + 1 + Z.of_nat fuel = maxSpecSchemaSummaryDepth + 1) as Hd' by (unfold maxSpecSchemaSummaryDepth; lia).
    rewrite <-Ha1 in Hb.
    pose proof (pointer_decides fuel _ s p (validateValue heap fuel) (prefix +:+ " items") (depth + 1) v1
      Ei Hd' ltac:(intros a; apply IH; exact Hd') Hm1 eq_refl Hb) as Hp.
    destruct (validatePointer _ _ _ _ _ _) as [v2 [h2|e]]; cbn in Hp.
    + destruct Hp as (Hm2 & Ha2 & Hh2 & Ht2).
      split; [done|]. split; [congruence|]. split; [destruct (Z.ltb_spec h1 (1 + h2)); lia|].
      intros [|n]; [cbn; destruct (Z.ltb_spec h1 (1 + h2)); lia|]. etrans; [apply Hs|].
      assert ((∀ q, Some p = Some q → bounded n (heap !!! q)) ↔ h2 ≤ Z.of_nat n) as ->.
      { rewrite <-Ht2. split; [auto|by intros ? ? [= <-]]. }
      destruct (Z.ltb_spec h1 (1 + h2)); lia.
    + intros [_ Hi]%Hs. by apply Hp, Hi.
  - split; [done|]. split; [congruence|]. split; [lia|].
    intros [|n]; [cbn; lia|]. etrans; [apply Hs|]. naive_solver.
Qed.

(** ** The roots *)

Definition summary_roots (index : SpecIndex) : list SchemaSummary :=
  (ix_Operations index ≫= λ operation,
    (par_Schema <$> op_Parameters operation)
    ++ (match op_RequestBody operation with
        | Some body => mt_Schema <$> rb_MediaTypes body
        | None => []
        end)
    ++ (op_Responses operation ≫= λ response, mt_Schema <$> rsp_MediaTypes response))
  ++ (sch_Summary <$> ix_Schemas index).

Definition within_depth (s : SchemaSummary) : Prop := bounded (Z.to_nat maxSpecSchemaSummaryDepth) s.

(** A walk that accepts exactly when each of the summaries [l] fits the depth
    bound. *)
Definition accepts (m : validating unit) (l : list SchemaSummary) : Prop :=
  ∀ v, memo_ok heap v → sv_active v = ∅ →
  match m v with
  | (v', Ok _) => memo_ok heap v' ∧ sv_active v' = ∅ ∧ Forall within_depth l
  | (_, Fail _) => ¬ Forall within_depth l
  end.

Lemma accepts_nil : accepts (mret tt) [].
Proof. intros v Hm Ha. split; [done|]. split; [done|]. by apply Forall_nil_2. Qed.

Lemma accepts_seq m k l1 l2 : accepts m l1 → accepts k l2 → accepts (m ;; k) (l1 ++ l2).
Proof.
  intros Hm Hk v Hv Ha. specialize (Hm v Hv Ha). unfold mbind, stM_bind.
  destruct (m v) as [v1 [[]|e]]; [|by rewrite Forall_app; intros [??]].
  destruct Hm as (Hv1 & Ha1 & Hl). specialize (Hk v1 Hv1 Ha1). destruct (k v1) as [v2 [[]|e]].
  - destruct Hk as (? & ? & ?). by rewrite Forall_app.
  - by rewrite Forall_app; intros [??].
Qed.

Lemma accepts_loop {A} (f : Z → A → validating unit) (g : A → list SchemaSummary) l :
  (∀ i x, accepts (f i x) (g x)) → ∀ i, accepts (st_for_eachi_from f i l) (l ≫= g).
Proof. intros Hf. induction l as [|x l IH]; intros i; [apply accepts_nil|]. by apply accepts_seq. Qed.

Lemma below_empty s : below ∅ s.
Proof. by intros p Hp%not_elem_of_empty. Qed.

Lemma accepts_root prefix s : accepts (validateRoot heap prefix s) [s].
Proof.
  intros v Hm Ha. unfold validateRoot, mbind, stM_bind, within_depth.
  assert (1 + Z.of_nat (Z.to_nat maxSpecSchemaSummaryDepth) = maxSpecSchemaSummaryDepth + 1) as Hroom by done.
  generalize dependent (Z.to_nat maxSpecSchemaSummaryDepth). intros room Hroom.
  pose proof (validateValue_decides room s 1 Hroom ∅ prefix v Hm Ha (below_empty s)) as Hs.
  destruct (validateValue _ _ _ _ _ _) as [v' [h|e]]; cbn [mret stM_ret decides] in *.
  - destruct Hs as (Hm' & Ha' & Hh & Ht). split; [done|]. split; [congruence|].
    apply Forall_cons_2; [apply Ht; lia|apply Forall_nil_2].
  - intros Hf%Forall_inv. exact (Hs Hf).
Qed.

Lemma accepts_map {A} (f : Z → A → string) (g : A → SchemaSummary) l :
  accepts (st_for_eachi (λ i x, validateRoot heap (f i x) (g x)) l) (g <$> l).
Proof.
  assert (g <$> l = l ≫= λ x, [g x]) as -> by (induction l; [done|cbn; by f_equal]).
  apply accepts_loop. intros i x. apply accepts_root.
Qed.

Lemma accepts_summaries index : accepts (validate_summaries heap index) (summary_roots index).
Proof.
  apply accepts_seq; [|apply (accepts_map (λ i _, _))].
  apply accepts_loop. intros i o. apply accepts_seq; [apply (accepts_map (λ i _, _))|].
  apply accepts_seq.
  - destruct (op_RequestBody o); [apply (accepts_map (λ i _, _))|apply accepts_nil].
  - apply accepts_loop. intros j r. apply (accepts_map (λ i _, _)).
Qed.

Lemma unlimited_exact index :
  validateSpecIndexSchemaSummaries heap index false = Ok tt
  ↔ Forall within_depth (summary_roots index).
Proof.
  unfold validateSpecIndexSchemaSummaries.
  assert (memo_ok heap (new_validator false)) as Hm by (split; [done|]; cbn; intros p h; by rewrite lookup_empty).
  pose proof (accepts_summaries index _ Hm eq_refl) as H. destruct (validate_summaries _ _ _) as [v [[]|e]]; cbn.
  - naive_solver.
  - naive_solver.
Qed.
End walk.

(** ** What the walk charges

    Every value node of the roots is charged, and every value node behind a
    pointer once, however many pointers share it. *)

Fixpoint weight (s : SchemaSummary) : Z :=
  1 + foldr (λ p n, weight (sp_Schema p) + n) 0 (ss_Properties s).

Fixpoint item_pointers (s : SchemaSummary) : list ptr :=
  foldr (λ p l, item_pointers (sp_Schema p) ++ l) (option_list (ss_Items s)) (ss_Properties s).

Section charges.
Context (heap : Heap).

(** Something to visit: a value in place, or a pointer. *)
Definition visit_weight (x : SchemaSummary + ptr) : Z :=
  match x with
  | inl s => weight s
  | inr _ => 0
  end.
Definition visit_pointers (x : SchemaSummary + ptr) : list ptr :=
  match x with
  | inl s => item_pointers s
  | inr p => [p]
  end.

Inductive meets (l : list (SchemaSummary + ptr)) : ptr → Prop :=
  | meets_here x p : x ∈ l → p ∈ visit_pointers x → meets l p
  | meets_next p q : meets l p → q ∈ item_pointers (heap !!! p) → meets l q.

Lemma meets_incl l k p : (∀ x p, x ∈ l → p ∈ visit_pointers x → meets k p) → meets l p → meets k p.
Proof. intros Hl. induction 1; [by eapply Hl|by eapply meets_next]. Qed.

Definition shared_weight (p : ptr) : Z := weight (heap !!! p).

Record charged (before : specSchemaSummaryValidator) (l : list (SchemaSummary + ptr)) (new : list ptr)
    (after : specSchemaSummaryValidator) : Prop := {
  cg_active : sv_active after = sv_active before;
  cg_nodup : NoDup new;
  cg_fresh : ∀ p, p ∈ new → p ∉ dom (sv_memoHeight before) ∧ p ∉ sv_active before;
  cg_memo : ∀ p, p ∈ dom (sv_memoHeight after) ↔ p ∈ dom (sv_memoHeight before) ∨ p ∈ new;
  cg_nodes : sv_nodes after = sv_nodes before + sumZ visit_weight l + sumZ shared_weight new;
  cg_here : ∀ x p, x ∈ l → p ∈ visit_pointers x → p ∈ dom (sv_memoHeight after);
  cg_next : ∀ p q, p ∈ new → q ∈ item_pointers (heap !!! p) → q ∈ dom (sv_memoHeight after);
  cg_meets : ∀ p, p ∈ new → meets l p;
}.

Lemma charged_nil v : charged v [] [] v.
Proof. split; cbn; try set_solver; try lia. apply NoDup_nil_2. Qed.

Lemma charged_app v l n v1 k m v2 : charged v l n v1 → charged v1 k m v2 → charged v (l ++ k) (n ++ m) v2.
Proof.
  intros [A1 D1 F1 M1 N1 H1 X1 R1] [A2 D2 F2 M2 N2 H2 X2 R2]. split.
  - congruence.
  - apply NoDup_app. split; [done|split; [|done]]. intros p Hp Hm. destruct (F2 p Hm) as [Hd _]. apply Hd, M1. by right.
  - intros p [Hp|Hp]%elem_of_app; [by apply F1|]. rewrite <-A1. split; [|by apply F2].
    intros Hd. destruct (F2 p Hp) as [Hd' _]. apply Hd', M1. by left.
  - intros p. rewrite M2, M1, elem_of_app. tauto.
  - rewrite N2, N1, !sumZ_app. lia.
  - intros x p [Hx|Hx]%elem_of_app Hp; [apply M2; left; by eapply H1|by eapply H2].
  - intros p q [Hp|Hp]%elem_of_app Hq; [apply M2; left; by eapply X1|by eapply X2].
  - intros p [Hp|Hp]%elem_of_app; (eapply meets_incl; [|by eauto]);
      intros x q Hx Hq; (eapply meets_here; [|exact Hq]); set_solver.
Qed.

(** A value is its own node, its properties' schemas and its item pointer. *)
Definition value_visits (s : SchemaSummary) : list (SchemaSummary + ptr) :=
  (inl <$> (sp_Schema <$> ss_Properties s)) ++ (inr <$> option_list (ss_Items s)).

Lemma value_visits_pointers s p : p ∈ item_pointers s ↔ ∃ x, x ∈ value_visits s ∧ p ∈ visit_pointers x.
Proof.
  unfold value_visits. destruct s as [? ? ? ? ? ? ? ? ? ? props items ?]. cbn.
  induction props as [|q props IH]; cbn.
  - destruct items as [i|]; cbn; [|set_solver].
    split; [intros Hp; exists (inr i); set_solver|]. by intros (x & ->%list_elem_of_singleton & Hp).
  - rewrite elem_of_app, IH. split.
    + intros [Hp|(x & Hx & Hp)]; [exists (inl (sp_Schema q)); set_solver|exists x; set_solver].
    + intros (x & [->|Hx]%elem_of_cons & Hp); [by left|]. right. by exists x.
Qed.

Lemma value_visits_weight s : sumZ visit_weight (value_visits s) = weight s - 1.
Proof.
  unfold value_visits. destruct s as [? ? ? ? ? ? ? ? ? ? props items ?]. cbn. rewrite sumZ_app.
  assert (sumZ visit_weight (inr <$> option_list items) = 0) as -> by (by destruct items).
  induction props as [|q props IH]; cbn in *; lia.
Qed.

Lemma charged_value v s n v' : charged (count_node v) (value_visits s) n v' → charged v [inl s] n v'.
Proof.
  intros [A D F M N H X R]. cbn in *. split; try done.
  - rewrite N, value_visits_weight. cbn. lia.
  - intros x p ->%list_elem_of_singleton (y & Hy & Hp)%value_visits_pointers. by eapply H.
  - intros p Hp. eapply meets_incl; [|by apply R]. intros x q Hx Hq.
    apply (meets_here _ (inl s)); [apply list_elem_of_here|]. apply value_visits_pointers. by exists x.
Qed.

Lemma charged_pointer v p n v' h :
  p ∉ dom (sv_memoHeight v) → p ∉ sv_active v →
  charged (enter p v) [inl (heap !!! p)] n v' → charged v [inr p] (p :: n) (memoise p h (leave p v')).
Proof.
  intros Hm Ha [A D F M N H X R]. cbn in *. split; cbn.
  - rewrite A. set_solver.
  - apply NoDup_cons. split; [|done]. intros Hp. destruct (F p Hp). set_solver.
  - intros q [->|Hq]%elem_of_cons; [done|]. destruct (F q Hq). set_solver.
  - intros q. rewrite dom_insert_L, elem_of_union, elem_of_singleton, M, elem_of_cons. tauto.
  - rewrite N. unfold shared_weight. lia.
  - intros x q ->%list_elem_of_singleton. cbn. rewrite dom_insert_L. set_solver.
  - intros q q' [->|Hq]%elem_of_cons Hq'; rewrite dom_insert_L; apply elem_of_union; right;
      [by eapply H; [apply list_elem_of_here|]|by eapply X].
  - assert (meets [inr p] p) as Hp by (apply (meets_here _ (inr p)); cbn; set_solver).
    intros q [->|Hq]%elem_of_cons; [done|]. eapply meets_incl; [|by apply R].
    intros x q' ->%list_elem_of_singleton Hq'. by eapply meets_next.
Qed.
End charges.

Section charging.
Context (heap : Heap).

Definition charges {A} (m : validating A) (l : list (SchemaSummary + ptr)) : Prop :=
  ∀ v v' a, m v = (v', Ok a) → ∃ n, charged heap v l n v'.

Lemma charges_lift {A} (r : res A) : charges (lift r) [].
Proof. intros v v' a [= <- _]. exists []. apply charged_nil. Qed.

Lemma charges_gets {A} (f : specSchemaSummaryValidator → A) : charges (gets f) [].
Proof. intros v v' a [= <- _]. exists []. apply charged_nil. Qed.

Lemma charges_bind {A B} (m : validating A) (k : A → validating B) l l' :
  charges m l → (∀ a, charges (k a) l') → charges (m ≫= k) (l ++ l').
Proof.
  intros Hm Hk v v' b. unfold mbind, stM_bind. destruct (m v) as [v1 [a|]] eqn:E; [|done].
  intros E'. destruct (Hm _ _ _ E) as [n Hn], (Hk _ _ _ _ E') as [n' Hn'].
  exists (n ++ n'). by eapply charged_app.
Qed.

(** A step that charges nothing before or after. *)
Lemma charges_before {A B} (m : validating A) (k : A → validating B) l :
  charges m [] → (∀ a, charges (k a) l) → charges (m ≫= k) l.
Proof. apply (charges_bind m k [] l). Qed.

Lemma charges_after {A B} (m : validating A) (k : A → validating B) l :
  charges m l → (∀ a, charges (k a) []) → charges (m ≫= k) l.
Proof. intros Hm Hk. rewrite <-(app_nil_r l). by apply charges_bind. Qed.

Lemma charges_ret {A} (a : A) : charges (mret a) [].
Proof. apply (charges_lift (Ok a)). Qed.

Hint Resolve charges_lift charges_gets charges_ret : core.

Lemma pointer_charges visit prefix p depth :
  (∀ prefix, charges (visit prefix (heap !!! p) depth) [inl (heap !!! p)]) →
  charges (validatePointer heap visit prefix p depth) [inr p].
Proof.
  intros Hv v v' h. unfold validatePointer, gets, lift, mbind, stM_bind, throw_if at 1, modify, leaving.
  case_bool_decide as Ha; [done|]. destruct (sv_memoHeight v !! p) as [k|] eqn:E.
  - destruct (throw_if _ _); [|done]. intros [= <- _]. exists []. apply elem_of_dom_2 in E.
    split; cbn; try set_solver; try lia; [apply NoDup_nil_2|].
    by intros x q ->%list_elem_of_singleton ->%list_elem_of_singleton.
  - destruct (visit _ _ _ _) as [v1 [h1|]] eqn:Ev; [|done]. intros [= <- _].
    destruct (Hv _ _ _ _ Ev) as [n Hn]. exists (p :: n). apply charged_pointer; [|done..].
    by apply not_elem_of_dom.
Qed.

Lemma properties_charge visit prefix depth l :
  Forall (λ p, ∀ prefix, charges (visit prefix (sp_Schema p) (depth + 1)) [inl (sp_Schema p)]) l →
  ∀ i height, charges (validate_properties visit prefix depth i height l) (inl <$> (sp_Schema <$> l)).
Proof.
  induction 1 as [|p l Hp Hl IH]; intros i height; cbn [validate_properties]; [apply charges_ret|].
  apply charges_before; [auto|intros _]. apply (charges_bind _ _ [_]); [apply Hp|]. intros h. apply IH.
Qed.

Lemma charges_count {A} (m : validating A) s :
  charges m (value_visits s) → charges (modify count_node ;; m) [inl s].
Proof. intros Hm v v' a E. destruct (Hm (count_node v) v' a E) as [n Hn]. exists n. by apply charged_value. Qed.

Lemma value_charges fuel : ∀ prefix s depth, charges (validateValue heap fuel prefix s depth) [inl s].
Proof.
  induction fuel as [|fuel IH]; intros prefix s depth; cbn [validateValue].
  all: apply charges_before; [auto|intros _]; apply charges_count.
  all: do 4 (apply charges_before; [auto|intros ?]); unfold value_visits.
  - unfold charges, lift. congruence.
  - apply charges_bind; [apply properties_charge, Forall_forall; auto|]. intros h1.
    destruct (ss_Items s); cbn; [|apply charges_ret].
    apply charges_after; [|intros; apply charges_ret]. apply pointer_charges. auto.
Qed.

Lemma root_charges prefix s : charges (validateRoot heap prefix s) [inl s].
Proof. apply charges_after; [apply value_charges|intros; apply charges_ret]. Qed.

Lemma charges_loop {A} (f : Z → A → validating unit) (g : A → list SchemaSummary) l :
  (∀ i x, charges (f i x) (inl <$> g x)) → ∀ i, charges (st_for_eachi_from f i l) (inl <$> (l ≫= g)).
Proof.
  intros Hf. induction l as [|x l IH]; intros i; [apply charges_ret|].
  cbn. rewrite fmap_app. apply charges_bind; [apply Hf|]. intros _. apply IH.
Qed.

Lemma charges_map {A} (f : Z → A → string) (g : A → SchemaSummary) l :
  charges (st_for_eachi (λ i x, validateRoot heap (f i x) (g x)) l) (inl <$> (g <$> l)).
Proof.
  assert (g <$> l = l ≫= λ x, [g x]) as -> by (induction l; [done|cbn; by f_equal]).
  apply charges_loop. intros i x. apply root_charges.
Qed.

Lemma summaries_charge index : charges (validate_summaries heap index) (inl <$> summary_roots index).
Proof.
  unfold summary_roots. rewrite fmap_app. apply charges_bind; [|intros _; apply (charges_map (λ i _, _))].
  apply charges_loop. intros i o. rewrite !fmap_app. apply charges_bind; [apply (charges_map (λ i _, _))|intros _].
  apply charges_bind; [|intros _].
  - destruct (op_RequestBody o); [apply (charges_map (λ i _, _))|apply charges_ret].
  - apply charges_loop. intros j r. apply (charges_map (λ i _, _)).
Qed.

(** What the walk charges in all. *)
Definition summary_nodes (index : SpecIndex) (shared : list ptr) : Z :=
  sumZ weight (summary_roots index) + sumZ (shared_weight heap) shared.

Lemma summaries_total index v :
  validate_summaries heap index (new_validator false) = (v, Ok tt) →
  ∃ shared, NoDup shared ∧ (∀ p, p ∈ shared ↔ meets heap (inl <$> summary_roots index) p)
    ∧ sv_nodes v = summary_nodes index shared.
Proof.
  intros E. destruct (summaries_charge index _ _ _ E) as [n [A D F M N H X R]]. exists n.
  cbn in *. setoid_rewrite dom_empty in M.
  assert (∀ p, p ∈ dom (sv_memoHeight v) ↔ p ∈ n) as Hn by (intros p; rewrite M; set_solver).
  split; [done|]. split.
  - intros p. split; [apply R|]. induction 1 as [x p Hx Hp|p q Hp IH Hq]; apply Hn; [by eapply H|by eapply X].
  - rewrite N. unfold summary_nodes. f_equal. clear. induction (summary_roots index); cbn in *; [done|lia].
Qed.
End charging.

(** ** The node budget only caps the walk *)

Definition limit (v : specSchemaSummaryValidator) : specSchemaSummaryValidator :=
  MkSpecSchemaSummaryValidator (sv_active v) (sv_memoHeight v) (sv_nodes v) true.

Section capping.
Context (heap : Heap).

(** Under the budget the walk is the unlimited walk as long as that stays
    within it, and an error otherwise. *)
Definition capped {A} (m : validating A) : Prop := ∀ v, sv_resourceLimits v = false →
  let '(v1, r) := m v in
  sv_resourceLimits v1 = false ∧ sv_nodes v ≤ sv_nodes v1
  ∧ (sv_nodes v1 ≤ maxSpecSchemaSummaryNodes → m (limit v) = (limit v1, r))
  ∧ (sv_nodes v ≤ maxSpecSchemaSummaryNodes → maxSpecSchemaSummaryNodes < sv_nodes v1 →
     ∃ v2 e, m (limit v) = (v2, Fail e)).

Lemma capped_lift {A} (r : res A) : capped (lift r).
Proof. intros v Hv. cbn. split_and!; [done|lia|done|lia]. Qed.

Lemma capped_gets {A} (f : specSchemaSummaryValidator → A) : (∀ v, f (limit v) = f v) → capped (gets f).
Proof. intros Hf v Hv. cbn. split_and!; [done|lia|intros _; unfold gets; by rewrite Hf|lia]. Qed.

Lemma capped_modify f :
  (∀ v, f (limit v) = limit (f v)) → (∀ v, sv_nodes (f v) = sv_nodes v) →
  (∀ v, sv_resourceLimits (f v) = sv_resourceLimits v) → capped (modify f).
Proof.
  intros Hf Hn Hr v Hv. cbn. rewrite Hn, Hr. split_and!; [done|lia| |lia].
  intros _. unfold modify. by rewrite Hf.
Qed.

Lemma capped_bind {A B} (m : validating A) (k : A → validating B) :
  capped m → (∀ a, capped (k a)) → capped (m ≫= k).
Proof.
  intros Hm Hk v Hv. specialize (Hm v Hv). unfold mbind, stM_bind. destruct (m v) as [v1 [a|e]].
  - destruct Hm as (Hv1 & Hn & Hle & Hgt). specialize (Hk a v1 Hv1). destruct (k a v1) as [v2 r].
    destruct Hk as (Hv2 & Hn2 & Hle2 & Hgt2). split; [done|]. split; [lia|]. split.
    + intros H2. rewrite Hle by lia. by apply Hle2.
    + intros Hs H2. destruct (decide (sv_nodes v1 ≤ maxSpecSchemaSummaryNodes)) as [H1|H1].
      * rewrite Hle by done. by apply Hgt2.
      * destruct Hgt as (v3 & e & ->); [done|lia|by eauto].
  - destruct Hm as (Hv1 & Hn & Hle & Hgt). split; [done|]. split; [done|]. split.
    + intros H1. by rewrite Hle.
    + intros Hs H1. destruct (Hgt Hs H1) as (v3 & e' & ->). by eauto.
Qed.

Lemma capped_leaving {A} p (m : validating A) : capped m → capped (leaving p m).
Proof.
  intros Hm v Hv. specialize (Hm v Hv). unfold leaving. destruct (m v) as [v1 r].
  destruct Hm as (Hv1 & Hn & Hle & Hgt). split; [done|]. split; [done|]. split.
  - intros H1. by rewrite Hle.
  - intros Hs H1. destruct (Hgt Hs H1) as (v2 & e & ->). by eauto.
Qed.

Lemma capped_node {A} err (m : validating A) :
  capped m →
  capped (modify count_node ;; resourceLimits ← gets sv_resourceLimits; nodes ← gets sv_nodes;
    lift (throw_if (resourceLimits && (maxSpecSchemaSummaryNodes <? nodes)) err) ;; m).
Proof.
  intros Hm v Hv. specialize (Hm (count_node v) Hv).
  unfold modify, gets, lift, mbind, stM_bind. cbn. rewrite Hv. cbn. destruct (m (count_node v)) as [v1 r].
  destruct Hm as (Hv1 & Hn & Hle & Hgt). cbn in Hn. split; [done|]. split; [lia|].
  destruct (Z.ltb_spec maxSpecSchemaSummaryNodes (sv_nodes v + 1)) as [Hb|Hb]; cbn.
  - split; [lia|by eauto].
  - split; [exact Hle|]. intros _. by apply Hgt.
Qed.

Lemma capped_ret {A} (a : A) : capped (mret a).
Proof. apply (capped_lift (Ok a)). Qed.

Hint Resolve capped_lift capped_gets capped_modify capped_leaving capped_ret : core.

Lemma capped_pointer visit prefix p depth :
  (∀ prefix, capped (visit prefix (heap !!! p) depth)) → capped (validatePointer heap visit prefix p depth).
Proof.
  intros Hv. unfold validatePointer. apply capped_bind; [auto|intros active].
  apply capped_bind; [auto|intros _]. apply capped_bind; [auto|intros memo].
  destruct (memo !! p); (apply capped_bind; [auto|intros ?]); [auto|].
  apply capped_bind; [auto|intros ?]. apply capped_bind; auto.
Qed.

Lemma capped_properties visit prefix depth l :
  (∀ prefix s, capped (visit prefix s (depth + 1))) →
  ∀ i height, capped (validate_properties visit prefix depth i height l).
Proof.
  intros Hv. induction l as [|p l IH]; intros i height; cbn [validate_properties]; [auto|].
  apply capped_bind; [auto|intros _]. apply capped_bind; auto.
Qed.

Lemma capped_value fuel : ∀ prefix s depth, capped (validateValue heap fuel prefix s depth).
Proof.
  induction fuel as [|fuel IH]; intros prefix s depth; cbn [validateValue].
  all: apply capped_bind; [auto|intros _]; apply capped_node; apply capped_bind; [auto|intros _]; [auto|..].
  all: apply capped_bind; [by apply capped_properties|intros h].
  all: destruct (ss_Items s); [apply capped_bind; [apply capped_pointer|]|]; auto.
Qed.

Lemma capped_loop {A} (f : Z → A → validating unit) l :
  (∀ i x, capped (f i x)) → ∀ i, capped (st_for_eachi_from f i l).
Proof. intros Hf. induction l as [|x l IH]; intros i; cbn; [auto|]. by apply capped_bind. Qed.

Lemma capped_summaries index : capped (validate_summaries heap index).
Proof.
  assert (∀ prefix s, capped (validateRoot heap prefix s)) as Hr.
  { intros prefix s. apply capped_bind; [apply capped_value|auto]. }
  apply capped_bind; [|intros _; apply capped_loop; auto].
  apply capped_loop. intros i o. apply capped_bind; [apply capped_loop; auto|intros _].
  apply capped_bind; [destruct (op_RequestBody o); [apply capped_loop|]; auto|intros _].
  apply capped_loop. intros j r. apply capped_loop. auto.
Qed.

(** The check without its traversal: depth, and the nodes charged. *)
Lemma summaries_exact index :
  validateSpecIndexSchemaSummaries heap index true = Ok tt ↔
  Forall (within_depth heap) (summary_roots index)
  ∧ ∃ shared, NoDup shared ∧ (∀ p, p ∈ shared ↔ meets heap (inl <$> summary_roots index) p)
      ∧ summary_nodes heap index shared ≤ maxSpecSchemaSummaryNodes.
Proof.
  rewrite <-unlimited_exact. unfold validateSpecIndexSchemaSummaries.
  pose proof (capped_summaries index (new_validator false) eq_refl) as Hc.
  change (limit (new_validator false)) with (new_validator true) in Hc.
  destruct (validate_summaries heap index (new_validator false)) as [v [[]|e]] eqn:E; cbn.
  - destruct Hc as (_ & _ & Hle & Hgt).
    destruct (summaries_total _ _ _ E) as (shared & Hnd & Hs & Hn). rewrite Hn in Hle, Hgt.
    destruct (decide (summary_nodes heap index shared ≤ maxSpecSchemaSummaryNodes)) as [Hb|Hb].
    + rewrite Hle by done. split; [|done]. intros _. split; [done|]. by exists shared.
    + destruct Hgt as (v2 & e & ->); [done|lia|]. split; [done|]. intros [_ (shared' & Hnd' & Hs' & Hb')].
      assert (shared ≡ₚ shared') as Hp by (apply NoDup_Permutation; [done..|]; intros p; by rewrite Hs, Hs').
      unfold summary_nodes in *. rewrite Hp in Hb. done.
  - destruct Hc as (_ & _ & Hle & Hgt). split; [|by intros [? _]].
    destruct (decide (sv_nodes v ≤ maxSpecSchemaSummaryNodes)) as [Hb|Hb]; [by rewrite Hle|].
    destruct Hgt as (v2 & e' & ->); [done|lia|done].
Qed.
End capping.
