(* ===== verification/IndexDiff.v ===== *)
(** * From indexes to comparisons (domain/spec_validation.go, domain/specdiff.go)

    What [ValidateSpecIndex] promises to its callers: which schema summaries it
    accepts, when the snapshot built from an accepted index is itself valid,
    and what [DiffSpecIndexes] then decides. *)

From stdpp Require Import pretty.
From S2P Require Import Prelude GoString GoTime Identity Spec Snapshot SpecDiff CatalogIdentity SpecValidation.

(** The route two operations are compared by. *)
Definition route `{CaseTables} (o : Operation) : string * string :=
  (canonicalUpperSurfaceText (op_Method o), TrimSpace (op_Path o)).

Section surface.
Context `{CaseTables, !CaseLaws}.

Lemma operation_surface_canonical i o :
  validate_operation i o = Ok tt → operation_canonical (surface_operation o).
Proof.
  unfold validate_operation, validateOperationMediaTypeIdentities.
  intros (_ & (Hids & (Hps & (_ & (_ & (Hrs & _)%seq_ok)%seq_ok)%seq_ok)%seq_ok)%seq_ok)%seq_ok.
  apply validate_identities_ok in Hids. do 2 apply Forall_cons in Hids as [_ Hids].
  apply Forall_cons in Hids as [Hm Hids]. apply Forall_cons in Hids as [Hp _]. cbn in *.
  split; [done|]. split; [done|]. cbn. split.
  - rewrite Forall_fmap. eapply (for_eachi_ok_Forall _ (λ p, parameter_canonical _)); [|exact Hps].
    intros j p. unfold parameter_canonical. cbn. by rewrite seq_ok, !ValidateCanonicalIdentity_required.
  - rewrite Forall_fmap. rewrite for_eachi_ok in Hrs. apply Forall_lookup. intros j r Hj.
    specialize (Hrs j r Hj). apply seq_ok in Hrs as [Hr _].
    by apply ValidateCanonicalIdentity_required in Hr.
Qed.

Lemma valid_index_operations heap idx options :
  ValidateSpecIndexWithOptions heap idx options = Ok tt →
  Forall (λ o, operation_canonical (surface_operation o)) (ix_Operations idx).
Proof.
  intros Hv. unfold ValidateSpecIndexWithOptions in Hv. do 5 apply seq_ok in Hv as [_ Hv].
  apply seq_ok in Hv as [Hops _]. apply Forall_lookup. intros i o Ho.
  rewrite for_eachi_ok in Hops. by eapply operation_surface_canonical, Hops.
Qed.

Lemma valid_index_revision heap idx options :
  ValidateSpecIndexWithOptions heap idx options = Ok tt → ix_RevisionID idx ≠ "" → canonical (ix_RevisionID idx).
Proof.
  intros Hv Hne. unfold ValidateSpecIndexWithOptions in Hv. do 3 apply seq_ok in Hv as [_ Hv].
  apply seq_ok in Hv as [Hids _]. apply validate_identities_ok in Hids.
  apply Forall_cons in Hids as [_ [Hr _]%Forall_cons]. cbn in Hr. by destruct Hr.
Qed.

(** What the index check says about the compatibility surface. *)
Lemma valid_index_surface heap idx options :
  ValidateSpecIndexWithOptions heap idx options = Ok tt →
  index_surface_ok idx ↔ NoDup (route <$> ix_Operations idx).
Proof.
  intros Hv. pose proof Hv as Hvalid. split; [by intros []|]. intros Hroutes.
  unfold ValidateSpecIndexWithOptions in Hv. do 5 apply seq_ok in Hv as [_ Hv].
  apply seq_ok in Hv as [_ Hv]. apply seq_ok in Hv as [Hnames Hv]. do 2 apply seq_ok in Hv as [_ Hv].
  unfold validateSpecIndexSurfaceUniqueness in Hv. apply seq_ok in Hv as [Hu Hs].
  apply for_unique_ok in Hu as [_ Hu]. apply for_unique_plain in Hs.
  assert (Forall canonical (sch_Name <$> ix_Schemas idx)) as Hcs.
  { rewrite Forall_fmap. eapply for_eachi_ok_Forall; [|exact Hnames].
    intros i s. apply ValidateCanonicalIdentity_required. }
  split; [|exact Hroutes|exact Hcs|].
  - apply Forall_lookup. intros i o Ho. split.
    + pose proof (valid_index_operations _ _ _ Hvalid) as Hall. rewrite Forall_lookup in Hall. by eapply Hall.
    + specialize (Hu i o Ho). apply seq_ok in Hu as [Hp Hst%for_unique_plain].
      apply for_unique_plain in Hp. split; cbn; by rewrite <-list_fmap_compose.
  - rewrite <-(fmap_fixed TrimSpace (sch_Name <$> ix_Schemas idx)); [by rewrite <-list_fmap_compose|].
    eapply Forall_impl; [exact Hcs|]. apply canonical_trim.
Qed.

Lemma snapshot_routes_distinct contractID revisionID raw idx :
  snapshot_ok (NewContractSnapshot contractID revisionID raw idx) →
  Forall (λ o, operation_canonical (surface_operation o)) (ix_Operations idx) →
  NoDup (route <$> ix_Operations idx).
Proof.
  intros [_ _ _ Hs _] Hc. apply su_operations_sorted in Hs.
  unfold NewContractSnapshot in Hs. cbn [cs_Operations] in Hs.
  rewrite normalizeContractOperations_eq, normalizeSnapshotOperations_eq in Hs. cbn [elems default] in Hs.
  apply strictly_sorted_iff in Hs as [_ Hn]. cbn in Hn. rewrite sort_by_perm in Hn.
  rewrite <-!list_fmap_compose in Hn. eapply NoDup_fmap_iff; [|exact Hn].
  intros o o' _ _. unfold route, operation_order, compose. cbn. split; congruence.
Qed.
End surface.

(** ** Sample indexes *)

(** Two vSphere actions on one path, told apart by a fixed query. *)
Definition action_operation (action : string) : Operation :=
  MkOperation "" "" "" "POST" "/network" ("/network?action=" +:+ action)
    [MkFixedQueryParameter "action" action] "" "" [] [] false [] None
    [MkOperationResponse "200" "" [] []] [] [].
Definition actions_index (revision : string) (actions : list string) : SpecIndex :=
  plain_index revision (action_operation <$> actions) [].

(** A summary whose item schema is itself. *)
Definition cyclic_summary : SchemaSummary :=
  MkSchemaSummary "Node" "" "" "" "" "" [] [] false false [] (Some 1%positive) "".
Definition cyclic_heap : Heap := {[1%positive := cyclic_summary]}.

Definition header_operation (schema : SchemaSummary) : Operation :=
  MkOperation "" "" "" "GET" "/nodes" "" [] "" "" [] [] false [] None
    [MkOperationResponse "200" "" [MkOperationResponseHeader "X-Node" "" schema ""] []] [] [].

(** ** Properties *)

Section properties.
Context `{CaseTables, !CaseLaws}.

(** C13: the memoised, cycle-cutting walk is the plain bound.  With the resource
    limits on, the check of the schema summaries accepts an index exactly when every parameter, request
    media, response media and schema summary unfolds to a tree of at most 64
    levels whose names are canonical, and the value nodes of these summaries
    together with those behind every pointer they meet, each pointer charged
    once, number at most 100000.  In particular the walk ends on cyclic
    summaries, and rejects them. *)
Theorem schema_summary_check_exact heap index :
  validateSpecIndexSchemaSummaries heap index true = Ok tt ↔
  Forall (within_depth heap) (summary_roots index)
  ∧ ∃ shared, NoDup shared ∧ (∀ p, p ∈ shared ↔ meets heap (inl <$> summary_roots index) p)
      ∧ summary_nodes heap index shared ≤ maxSpecSchemaSummaryNodes.
Proof. apply summaries_exact. Qed.

(** The snapshot of an accepted index passes its own validation exactly
    when no two operations share method and path: everything else the snapshot
    rules ask for is already checked on the index. *)
Theorem valid_index_snapshot_exact heap index options contractID revisionID raw :
  ValidateSpecIndexWithOptions heap index options = Ok tt → canonical contractID → canonical revisionID →
  ValidateContractSnapshot (NewContractSnapshot contractID revisionID raw index) = Ok tt
  ↔ NoDup (route <$> ix_Operations index).
Proof.
  intros Hv Hc Hr. rewrite ValidateContractSnapshot_ok, <-(valid_index_surface _ _ _ Hv). split.
  - intros Hs. apply (valid_index_surface _ _ _ Hv). eapply snapshot_routes_distinct; [exact Hs|].
    by eapply valid_index_operations.
  - intros Hs. by apply new_snapshot_ok.
Qed.

(** C28: comparing two accepted indexes decides compatibility.  When their
    operations have distinct routes and their comparison keys are unambiguous,
    the comparison of two indexes has no breaking change exactly when the
    candidate's surface is backward compatible with the baseline's. *)
Theorem index_comparison_decides_compatibility heap baseline candidate d :
  let surface index := NewContractSnapshot "diff-contract" (ix_RevisionID index) [] index in
  DiffSpecIndexes heap baseline candidate = Ok d →
  ix_RevisionID baseline ≠ "" → ix_RevisionID candidate ≠ "" →
  NoDup (route <$> ix_Operations baseline) → NoDup (route <$> ix_Operations candidate) →
  unambiguous (surface baseline) → unambiguous (surface candidate) →
  df_BreakingChanges d = None ↔ backward_compatible (surface baseline) (surface candidate).
Proof.
  intros surface Hd Hrb Hrc Hb Hc Hub Huc. unfold DiffSpecIndexes in Hd.
  rewrite !seq_ok, !wrap_err_ok in Hd. destruct Hd as (Hvb & Hvc & [= <-]).
  assert (canonical "diff-contract") as Hid by canonical_compute.
  apply breaking_none; [..|done|done]; (apply new_snapshot_ok; [done| |]).
  - by apply (valid_index_revision _ _ _ Hvb).
  - by apply (valid_index_surface _ _ _ Hvb).
  - by apply (valid_index_revision _ _ _ Hvc).
  - by apply (valid_index_surface _ _ _ Hvc).
Qed.
End properties.

Lemma valid_index_snapshot_exact_witness :
  @ValidateContractSnapshot latin1 (@NewContractSnapshot latin1 "contract-1" "rev-1" [] sample_index) = Ok tt.
Proof.
  apply (@valid_index_snapshot_exact latin1 latin1_laws ∅ sample_index (MkValidationOptions true));
    [vm_compute; reflexivity|canonical_compute|canonical_compute|decide_compute].
Defined.

Lemma index_comparison_decides_compatibility_witness :
  ¬ backward_compatible (@NewContractSnapshot latin1 "diff-contract" "rev-1" [] sample_index)
      (@NewContractSnapshot latin1 "diff-contract" "rev-2" [] next_index).
Proof.
  intros Hc.
  destruct (@DiffSpecIndexes latin1 ∅ sample_index next_index) as [d|] eqn:E; [|vm_compute in E; discriminate E].
  assert (df_BreakingChanges d = None) as Hn.
  { refine (proj2 (@index_comparison_decides_compatibility latin1 latin1_laws ∅ sample_index next_index d E
      _ _ _ _ base_unambiguous next_unambiguous) Hc); [done|done|decide_compute|decide_compute]. }
  vm_compute in E. injection E as <-. discriminate Hn.
Defined.

(** Fixed-query operations slip past the comparison.  The index check tells
    operations on one path apart by their request target, the comparison does
    not: the baseline below is accepted, its snapshot is invalid, and dropping
    one of its two actions yields no finding at all. *)
Theorem fixed_query_operations_escape_comparison :
  let baseline := actions_index "rev-1" ["reset"; "change"] in
  let candidate := actions_index "rev-2" ["change"] in
  @ValidateSpecIndex latin1 ∅ baseline = Ok tt
  ∧ is_ok (@ValidateContractSnapshot latin1 (@NewContractSnapshot latin1 "contract-1" "rev-1" [] baseline)) = false
  ∧ @DiffSpecIndexes latin1 ∅ baseline candidate = Ok (MkSpecDiff "rev-1" "rev-2" None None).
Proof. vm_compute. done. Qed.

(** Response header schemas are not checked.  A summary that closes into a
    cycle is rejected as a schema and accepted as the schema of a response
    header. *)
Theorem response_header_summaries_escape_validation :
  is_ok (@ValidateSpecIndex latin1 cyclic_heap
    (plain_index "rev-1" [] [MkSchema "Node" "" cyclic_summary (MkSchemaExample "" "" false)])) = false
  ∧ @ValidateSpecIndex latin1 cyclic_heap (plain_index "rev-1" [header_operation cyclic_summary] []) = Ok tt.
Proof. vm_compute. done. Qed.
