(* ===== verification/Services.v ===== *)
(** * Sync, check and read services (application/sync.go, check.go, revision.go,
    publication.go, identity.go)

    [Sync] fetches a specification, parses and validates it, writes its bytes
    as a blob and then, in one transaction, the revision with its contract
    snapshot and the record of the sync; a source or parser that fails is
    recorded instead.  [CheckService_Run] reviews a contract offline.  The
    services are stated against the ports: what a source, a parser, a cache and
    a clock answer are arguments. *)

From stdpp Require Import pretty.
From S2P Require Import Prelude GoString GoSha256 GoTime GoJson Identity Spec Snapshot SpecDiff.
From S2P Require Import Release.
From S2P Require Import Policy.
From S2P Require Import Review.
From S2P Require Import Records.
From S2P Require Import Ports ReleaseService SpecValidation.

(** [err.Error()] of an error a port answers with. *)
Class ErrorText := error_text : error → string.

Class Cache (K : Type) := DeleteCached : Ctx → string → stM K unit.

(** [errors.Join] *)
Definition errors_Join (e1 e2 : error) : error := Errorf "%w%w" [EErr e1; EErr e2].

(** [strings.ToValidUTF8(s, U+FFFD)]: each run of malformed bytes becomes one
    replacement character. *)
Fixpoint to_valid (in_run : bool) (segments : list (option Z * list Z)) : list Z :=
  match segments with
  | [] => []
  | (Some _, bytes) :: segments => bytes ++ to_valid false segments
  | (None, _) :: segments => (if in_run then [] else encode_rune RuneError) ++ to_valid true segments
  end.
Definition ToValidUTF8 (s : string) : string := of_bytes (to_valid false (decode (bytes_of s))).

(** The longest well-formed prefix of at most [boundary] bytes. *)
Fixpoint valid_prefix (boundary : nat) (summary : list Z) : list Z :=
  match boundary with
  | O => []
  | S smaller =>
      if valid_utf8 (of_bytes (take boundary summary)) then take boundary summary
      else valid_prefix smaller summary
  end.

Definition errorSummary `{ErrorText} (err : error) : string :=
  let summary := TrimSpace (ToValidUTF8 (error_text err)) in
  if 512 <? go_len summary then of_bytes (valid_prefix 512 (bytes_of summary)) else summary.

Definition firstNonEmpty (values : list string) : string :=
  default "" (head (filter (λ v, v ≠ "") values)).

(** ** What ports answer *)

Definition validatePortSpecFile (file : SpecFile) (requireComplete : bool) : res unit :=
  validate_identities [
    ("spec source id", sf_SourceID file, true);
    ("spec path", sf_Path file, negb requireComplete);
    ("spec format", sf_Format file, negb requireComplete)].

Definition validatePortRevision `{CaseTables} (revision : ContractRevision) (requireID : bool) : res unit :=
  validate_identities [
    ("revision id", cv_ID revision, negb requireID);
    ("revision contract id", cv_ContractID revision, true);
    ("revision source id", cv_SourceID revision, true);
    ("revision blob key", cv_SpecBlobKey revision, true);
    ("revision ref", cv_Ref revision, true);
    ("revision commit sha", cv_CommitSHA revision, true)] ;;
  for_each (λ '(name, value),
    throw_if (negb (valid_utf8 value)) (Errorf "%s must contain valid UTF-8" [EStr name])) [
    ("revision version", cv_Version revision);
    ("revision author name", cv_AuthorName revision);
    ("revision author email", cv_AuthorEmail revision);
    ("revision message", cv_Message revision)] ;;
  match cv_ReviewSnapshot revision with
  | Some snapshot =>
      wrap_err (ValidateContractSnapshot snapshot) (λ e, Errorf "revision review snapshot: %w" [EErr e])
  | None => mret tt
  end.

(** ** Sync *)

Record SyncCommand := MkSyncCommand {
  sc_ContractID : string;
  sc_SourceID : string;
  sc_Trigger : string;
}.

Record SyncResult := MkSyncResult {
  sres_Spec : SpecFile;
  sres_Revision : ContractRevision;
  sres_Index : SpecIndex;
  sres_Record : SyncRecord;
  sres_BlobKey : string;
}.

Definition validateSyncCommand (command : SyncCommand) : res unit :=
  wrap_err (validate_identities [
    ("contract id", sc_ContractID command, false);
    ("source id", sc_SourceID command, false);
    ("trigger", sc_Trigger command, true)]) (validationError "sync").

Definition validateSyncSourceOutput `{CaseTables} (spec : SpecFile) (revision : ContractRevision)
    (requireComplete : bool) : res unit :=
  validatePortSpecFile spec requireComplete ;;
  validatePortRevision revision requireComplete.

Definition canonicalRevisionRef (revision : ContractRevision) : string :=
  if bool_decide (cv_CommitSHA revision = "") then cv_Ref revision else cv_CommitSHA revision.

Definition syncRecordID (command : SyncCommand) (spec : SpecFile) (revision : ContractRevision)
    (sourceRef result : string) : string :=
  let value := Join [sc_ContractID command; sc_SourceID command; firstNonEmpty [sc_Trigger command; "manual"];
                     cv_ID revision; cv_CommitSHA revision; sourceRef; sf_Path spec; result] (of_bytes [0]) in
  "sync-" +:+ String.substring 0 24 (sha256Hex (bytes_of value)).

Definition successfulSyncRecord (command : SyncCommand) (spec : SpecFile) (revision : ContractRevision)
    (sourceRef : string) (startedAt finishedAt : Time) : SyncRecord :=
  MkSyncRecord (syncRecordID command spec revision sourceRef SyncResultSuccess)
    (sc_ContractID command) (firstNonEmpty [sc_SourceID command; cv_SourceID revision; sf_SourceID spec])
    (cv_ID revision) (firstNonEmpty [sc_Trigger command; "manual"]) sourceRef (cv_CommitSHA revision)
    (sf_Path spec) SyncResultSuccess "" startedAt finishedAt.

Definition failedSyncRecord `{ErrorText} (command : SyncCommand) (spec : SpecFile) (revision : ContractRevision)
    (startedAt finishedAt : Time) (cause : error) : SyncRecord :=
  MkSyncRecord (syncRecordID command spec revision (cv_Ref revision) SyncResultFailure)
    (sc_ContractID command) (firstNonEmpty [sc_SourceID command; cv_SourceID revision; sf_SourceID spec])
    (cv_ID revision) (firstNonEmpty [sc_Trigger command; "manual"]) (cv_Ref revision) (cv_CommitSHA revision)
    (sf_Path spec) SyncResultFailure (errorSummary cause) startedAt finishedAt.

(** [revision.ContractID = ...; revision.SourceID = ...] *)
Definition assign_source (command : SyncCommand) (revision : ContractRevision) : ContractRevision :=
  MkContractRevision (cv_ID revision) (sc_ContractID command) (sc_SourceID command) (cv_SpecBlobKey revision)
    (cv_SpecDigest revision) (cv_ContractDigest revision) (cv_ReviewSnapshot revision) (cv_Ref revision)
    (cv_CommitSHA revision) (cv_Version revision) (cv_AuthorName revision) (cv_AuthorEmail revision)
    (cv_Message revision).

Definition assign_snapshot (snapshot : ContractSnapshot) (revision : ContractRevision) : ContractRevision :=
  MkContractRevision (cv_ID revision) (cv_ContractID revision) (cv_SourceID revision) (cv_SpecBlobKey revision)
    (cs_SpecDigest snapshot) (cs_ContractDigest snapshot) (Some snapshot) (canonicalRevisionRef revision)
    (cv_CommitSHA revision) (cv_Version revision) (cv_AuthorName revision) (cv_AuthorEmail revision)
    (cv_Message revision).

Definition assign_blob (key : string) (revision : ContractRevision) : ContractRevision :=
  MkContractRevision (cv_ID revision) (cv_ContractID revision) (cv_SourceID revision) key
    (cv_SpecDigest revision) (cv_ContractDigest revision) (cv_ReviewSnapshot revision) (cv_Ref revision)
    (cv_CommitSHA revision) (cv_Version revision) (cv_AuthorName revision) (cv_AuthorEmail revision)
    (cv_Message revision).

Definition assign_index (projectID revisionID : string) (index : SpecIndex) : SpecIndex :=
  MkSpecIndex projectID revisionID (ix_Title index) (ix_Version index) (ix_Branding index) (ix_Overview index)
    (ix_SpecDownload index) (ix_Operations index) (ix_Schemas index) (ix_SecuritySchemes index)
    (ix_Search index) (ix_PublicRoutes index) (ix_ExampleSpecJSON index).

(** What the source and the parser answer: the fetch may name a revision even
    when it fails, and the pointers of a parsed index lie on a heap. *)
Record Sources := MkSources {
  src_Fetch : Ctx → SpecFile * ContractRevision * option error;
  src_Parse : Ctx → SpecFile → ContractRevision → res SpecIndex;
  src_heap : Heap;
}.

Section sync.
Context `{CaseTables, ErrorText}.
Context {W S K : Type} `{!OperationalStore S, !UnitOfWork W S, !SyncRecordReader W, !BlobStore W}.

Definition canonicalSyncRecord (ctx : Ctx) (attempted : SyncRecord) : stM W SyncRecord :=
  persisted ← ReadSyncRecord ctx (sy_ID attempted);
  lift (throw_if (negb (SameSyncEvidence persisted attempted))
    (Errorf "canonical sync evidence does not match logical replay identity" [])) ;;
  mret persisted.

(** [Within] for a callback that captures nothing. *)
Definition transact (ctx : Ctx) (callback : stM S unit) : stM W unit := λ w,
  let '((w, _), r) := Within (C:=unit) ctx (on_fst callback) (w, tt) in (w, r).

Definition recordFailure (ctx : Ctx) (record : SyncRecord) (kind operation : string) (cause : error)
    : stM W SyncResult :=
  st_wrap (transact ctx (SaveSyncRecord ctx record))
    (λ e, wrapError ErrorTransaction "record failed sync" (errors_Join cause e)) ;;
  st_wrap (canonicalSyncRecord ctx record)
    (λ e, wrapError ErrorIntegrity "load canonical failed sync evidence" (errors_Join cause e)) ;;
  lift (Fail (wrapError kind operation cause)).

(** The transaction of a successful sync. *)
Definition save_evidence (ctx : Ctx) (revision : ContractRevision) (record : SyncRecord) : stM S unit :=
  st_wrap (SaveRevision ctx revision) (λ e, Errorf "save revision: %w" [EErr e]) ;;
  st_wrap (SaveSyncRecord ctx record) (λ e, Errorf "save sync record: %w" [EErr e]).

(** Everything of [Sync] but the cache; [startedAt] and [finishedAt] are what
    the clock answers, first and second. *)
Definition sync_evidence (ctx : Ctx) (sources : Sources) (startedAt finishedAt : Time) (command : SyncCommand)
    : stM W SyncResult :=
  lift (validateSyncCommand command) ;;
  let '(spec, revision, failed) := src_Fetch sources ctx in
  lift (wrap_err (validateSyncSourceOutput spec revision (bool_decide (failed = None)))
    (λ e, validationError "sync" (Errorf "source output: %v" [EText e]))) ;;
  match failed with
  | Some err =>
      recordFailure ctx (failedSyncRecord command spec revision (ToUTC startedAt) (ToUTC finishedAt) err)
        ErrorSource "fetch source" err
  | None =>
      let sourceRef := cv_Ref revision in
      let revision := assign_source command revision in
      let spec := MkSpecFile (sc_SourceID command) (sf_Path spec) (sf_Format spec) (sf_Bytes spec) in
      match src_Parse sources ctx spec revision with
      | Fail err =>
          recordFailure ctx (failedSyncRecord command spec revision (ToUTC startedAt) (ToUTC finishedAt) err)
            ErrorParse "parse source" err
      | Ok index =>
          lift (wrap_err (ValidateSpecIndex (src_heap sources) index)
            (λ e, validationError "sync" (Errorf "parser output: %v" [EText e]))) ;;
          let index := assign_index (sc_ContractID command) (cv_ID revision) index in
          let snapshot := NewContractSnapshot (sc_ContractID command) (cv_ID revision) (sf_Bytes spec) index in
          let revision := assign_snapshot snapshot revision in
          blobKey ← st_wrap (PutBlob ctx (sf_Bytes spec)) (wrapError ErrorIntegrity "write spec blob");
          lift (throw_if (negb (BlobKey_Valid blobKey)
                          || negb (bool_decide (blobKey = ContentAddressedBlobKey (sf_Bytes spec))))
            (wrapError ErrorIntegrity "write spec blob"
               (Errorf "blob store returned a non-content-addressed key" []))) ;;
          let revision := assign_blob blobKey revision in
          let record := successfulSyncRecord command spec revision sourceRef (ToUTC startedAt) (ToUTC finishedAt) in
          st_wrap (transact ctx (save_evidence ctx revision record)) (wrapError ErrorTransaction "commit sync") ;;
          record ← st_wrap (canonicalSyncRecord ctx record)
            (wrapError ErrorIntegrity "load canonical sync evidence");
          mret (MkSyncResult spec revision index record blobKey)
      end
  end.

(** The stale cache entries of the contract; a failed deletion stops no other. *)
Definition invalidate `{!Cache K} (ctx : Ctx) (keys : list string) : stM K (option error) := λ k,
  let '(k, failed) := foldl (λ '(k, failed) key,
    match DeleteCached ctx key k with
    | (k, Ok _) => (k, failed)
    | (k, Fail e) =>
        let e := Errorf "invalidate %s: %w" [EStr key; EErr e] in
        (k, Some (match failed with Some failed => errors_Join failed e | None => e end))
    end) (k, None) keys in
  (k, Ok failed).

(** A result may come with the error of its cache. *)
Definition Sync (cache : option (Cache K)) (ctx : Ctx) (sources : Sources) (startedAt finishedAt : Time)
    (command : SyncCommand) : stM (W * K) (SyncResult * option error) :=
  result ← on_fst (sync_evidence ctx sources startedAt finishedAt command);
  match cache with
  | None => mret (result, None)
  | Some cache =>
      failed ← on_snd (invalidate ctx
        ["public:" +:+ sc_ContractID command;
         "search:" +:+ sc_ContractID command +:+ ":" +:+ cv_ID (sres_Revision result)]);
      mret (result, wrapError ErrorCache "invalidate sync cache entries" <$> failed)
  end.

(** ** Reading a revision's spec *)

Definition LoadSpec (ctx : Ctx) (revision : ContractRevision) : stM W (list Z) :=
  lift (wrap_err (ValidateCanonicalIdentity "revision id" (cv_ID revision) false)
    (validationError "load revision")) ;;
  let key := cv_SpecBlobKey revision in
  lift (throw_if (negb (BlobKey_Valid key))
    (wrapError ErrorIntegrity "load revision" (Errorf "revision has invalid blob key %q" [EStr key]))) ;;
  data ← st_wrap (GetBlob ctx key) (wrapError ErrorIntegrity "load revision blob");
  lift (throw_if (negb (bool_decide (ContentAddressedBlobKey data = key)))
    (wrapError ErrorIntegrity "load revision blob"
       (Errorf "blob content key %q does not match revision key %q" [EStr (ContentAddressedBlobKey data); EStr key]))) ;;
  mret data.

(** ** Resolving a public path *)

Definition PublicationByPath `{!PublicationReader W} (ctx : Ctx) (publicPath : string) : stM W Publication :=
  lift (wrap_err (ValidateCanonicalPublicPath "public path" publicPath false)
    (validationError "resolve public publication")) ;;
  publication ← ReadPublicPublicationByPath ctx publicPath;
  lift (wrap_err (validate_identities [
    ("publication contract id", pb_ProjectID publication, false);
    ("publication revision id", pb_RevisionID publication, false);
    ("publication hostname", pb_Hostname publication, true)])
    (wrapError ErrorIntegrity "validate public publication")) ;;
  lift (wrap_err (ValidateCanonicalPublicPath "publication path" (pb_Path publication) false)
    (wrapError ErrorIntegrity "validate public publication")) ;;
  lift (throw_if (negb (bool_decide (pb_Path publication = publicPath)))
    (wrapError ErrorIntegrity "validate public publication"
       (Errorf "returned path does not match requested path" []))) ;;
  lift (throw_if (negb (VisibleTo publication (MkActor true "" []))) ErrNotExist) ;;
  mret publication.
End sync.

(** ** Offline review *)

Record ReviewInputLocator := MkReviewInputLocator {
  ril_File : string;
  ril_GitRef : string;
}.

Record CheckRequest := MkCheckRequest {
  ckr_ContractID : string;
  ckr_SpecPath : string;
  ckr_Target : ReviewInputLocator;
  ckr_Candidate : ReviewInputLocator;
  ckr_Release : option ReviewInputLocator;
  ckr_Policy : EffectivePolicy;
  ckr_EvaluatedAt : Time;
  ckr_EngineVersion : string;
}.

Class ReviewInputLoader (I : Type) :=
  LoadInput : Ctx → string → ReviewInputLocator → stM I (SpecFile * ContractRevision).
Class ContractSnapshotBuilder (I : Type) :=
  BuildSnapshot : Ctx → string → SpecFile → ContractRevision → stM I ContractSnapshot.

Definition validateCheckLocator (role : string) (locator : ReviewInputLocator) : res unit :=
  let hasFile := negb (bool_decide (ril_File locator = "")) in
  let hasRef := negb (bool_decide (ril_GitRef locator = "")) in
  throw_if (negb hasFile && negb hasRef) (Errorf "%s locator is required" [EStr role]) ;;
  throw_if (hasFile && hasRef) (Errorf "%s locator must set exactly one of file or git ref" [EStr role]) ;;
  if hasFile then ValidateCanonicalIdentity (role +:+ " file") (ril_File locator) false
  else if hasRef then ValidateCanonicalIdentity (role +:+ " git ref") (ril_GitRef locator) false
  else mret tt.

Definition validateCheckRequest (request : CheckRequest) : res unit :=
  ValidateCanonicalIdentity "contract id" (ckr_ContractID request) false ;;
  ValidateCanonicalIdentity "spec path" (ckr_SpecPath request) false ;;
  validateCheckLocator "target" (ckr_Target request) ;;
  validateCheckLocator "candidate" (ckr_Candidate request) ;;
  match ckr_Release request with
  | Some release => validateCheckLocator "release" release
  | None => mret tt
  end ;;
  throw_if (bool_decide (length (ep_Layers (ckr_Policy request)) = 0%nat)) (Errorf "policy is required" []) ;;
  throw_if (IsZero (ckr_EvaluatedAt request)) (Errorf "evaluation time is required" []) ;;
  ValidateCanonicalIdentity "engine version" (ckr_EngineVersion request) false.

Section check.
Context `{CaseTables} {I : Type} `{!ReviewInputLoader I, !ContractSnapshotBuilder I}.

Definition loadSnapshot (ctx : Ctx) (request : CheckRequest) (role : string) (locator : ReviewInputLocator)
    : stM I ContractSnapshot :=
  input ← st_wrap (LoadInput ctx (ckr_SpecPath request) locator) (wrapError ErrorInput ("load " +:+ role));
  let '(file, revision) := input in
  lift (wrap_err (validatePortSpecFile file false) (wrapError ErrorInput ("validate " +:+ role +:+ " input"))) ;;
  lift (wrap_err (validatePortRevision revision true)
    (wrapError ErrorInput ("validate " +:+ role +:+ " revision"))) ;;
  lift (throw_if (negb (bool_decide (cv_ContractID revision = ""))
                  && negb (bool_decide (cv_ContractID revision = ckr_ContractID request)))
    (wrapError ErrorInput ("validate " +:+ role +:+ " revision")
       (Errorf "revision contract id does not match review contract id" []))) ;;
  snapshot ← st_wrap (BuildSnapshot ctx (ckr_ContractID request) file revision)
    (wrapError ErrorEvaluation ("build " +:+ role));
  lift (wrap_err (ValidateContractSnapshot snapshot)
    (wrapError ErrorEvaluation ("validate " +:+ role +:+ " snapshot"))) ;;
  lift (throw_if (negb (bool_decide (cs_ContractID snapshot = ckr_ContractID request))
                  || negb (bool_decide (cs_RevisionID snapshot = cv_ID revision)))
    (wrapError ErrorEvaluation ("validate " +:+ role +:+ " snapshot")
       (Errorf "snapshot identity does not match its review input" []))) ;;
  mret snapshot.

Definition CheckService_Run (ctx : Ctx) (request : CheckRequest) : stM I ReviewReport :=
  lift (validateCheckRequest request) ;;
  target ← loadSnapshot ctx request "target" (ckr_Target request);
  candidate ← loadSnapshot ctx request "candidate" (ckr_Candidate request);
  release ← match ckr_Release request with
            | Some locator => snapshot ← loadSnapshot ctx request "release" locator; mret (Some snapshot)
            | None => mret None
            end;
  lift (wrap_err (EvaluateReview (MkReviewRequest (ckr_ContractID request) target candidate release
                    (ckr_Policy request) (ckr_EvaluatedAt request) (ckr_EngineVersion request)))
    (wrapError ErrorEvaluation "evaluate review")).
End check.
