(* ===== verification/RevisionJson.v ===== *)
(** * The JSON of a revision determines it

    [immutableRecordsEqual] compares revisions by their JSON
    (internal/adapters/store/fs.go).  [revision_of_json] reads a record back;
    it inverts the encoder up to [reread], so two well-formed revisions with
    the same text are the same revision. *)

From S2P Require Import Prelude GoString GoSha256 GoTime GoJson Identity Spec Snapshot SpecDiff.
From S2P Require Import Release.
From S2P Require Import Policy.
From S2P Require Import Review.
From S2P Require Import Records.

(** ** Reading members *)

Fixpoint member (k : string) (l : list (string * json)) : option json :=
  match l with
  | [] => None
  | (k', j) :: l => if String.eqb k k' then Some j else member k l
  end.

Lemma member_app k l l' : member k (l ++ l') = match member k l with Some j => Some j | None => member k l' end.
Proof. induction l as [|[k' j] l IH]; simpl; [done|]. by destruct (String.eqb k k'). Qed.

Lemma member_field k k' j : member k (field k' j) = if String.eqb k k' then Some j else None.
Proof. done. Qed.

Lemma member_omit (empty : bool) k k' j :
  member k (omit_empty empty k' j) = if String.eqb k k' then if empty then None else Some j else None.
Proof. destruct empty; simpl; by destruct (String.eqb k k'). Qed.

Definition text (j : option json) : string := if j is Some (JString s) then reread_string s else "".
Definition truth (j : option json) : bool := if j is Some (JBool b) then b else false.
Definition items {A} (f : json → A) (j : option json) : slice A :=
  if j is Some (JArray l) then Some (f <$> l) else None.

Lemma reread_string_nil : reread_string "" = "".
Proof. done. Qed.

Lemma text_omit s : text (if bool_decide (s = "") then None else Some (JString s)) = reread_string s.
Proof. by case_bool_decide as E; [rewrite E|]. Qed.

Lemma items_slice {A B} (f : json → B) (g : A → json) (h : A → B) s :
  (∀ x, f (g x) = h x) → items f (Some (json_slice g s)) = fmap (M:=list) h <$> s.
Proof.
  intros Hf. destruct s as [l|]; [|done]. cbn [items json_slice fmap option_fmap option_map]. f_equal.
  rewrite <-list_fmap_compose. apply list_fmap_ext. intros ? x _. apply Hf.
Qed.

Lemma items_omit {A} (f : json → A) (g : A → json) (h : A → A) s :
  (∀ x, f (g x) = h x) →
  items f (if is_empty s then None else Some (json_slice g s)) = reread_omitted h s.
Proof.
  intros Hf. unfold is_empty, reread_omitted. rewrite gappend_None. destruct s as [[|x l]|]; [done| |done].
  exact (items_slice f g h (Some (x :: l)) Hf).
Qed.

Lemma truth_omit b : truth (if negb b then None else Some (JBool b)) = b.
Proof. by destruct b. Qed.

Lemma option_same {A} (o : option A) : match o with Some x => Some x | None => None end = o.
Proof. by destruct o. Qed.

Create HintDb json_members.
#[export] Hint Rewrite member_app member_field member_omit text_omit truth_omit @option_same : json_members.

(** Look up every member of an encoded record. *)
Ltac read_members :=
  repeat (autorewrite with json_members; cbn [String.eqb Ascii.eqb Bool.eqb member]).

(** ** The decoders *)

Definition members (j : json) : list (string * json) := if j is JObject l then l else [].

Definition parameter_of_json (j : json) : ContractParameter :=
  let l := members j in
  MkContractParameter (text (member "name" l)) (text (member "in" l)) (truth (member "required" l)).
Definition operation_of_json (j : json) : ContractOperation :=
  let l := members j in
  MkContractOperation (text (member "method" l)) (text (member "path" l))
    (items parameter_of_json (member "parameters" l)) (truth (member "requestBodyRequired" l))
    (items (λ j, text (Some j)) (member "responseStatuses" l)).
Definition snapshot_of_json (j : json) : ContractSnapshot :=
  let l := members j in
  MkContractSnapshot (text (member "contractId" l)) (text (member "revisionId" l))
    (text (member "specDigest" l)) (text (member "contractDigest" l))
    (items operation_of_json (member "operations" l)) (items (λ j, text (Some j)) (member "schemas" l)).
Definition revision_of_json (j : json) : ContractRevision :=
  let l := members j in
  MkContractRevision (text (member "ID" l)) (text (member "contractId" l)) (text (member "SourceID" l))
    (text (member "specBlobKey" l)) (text (member "specDigest" l)) (text (member "contractDigest" l))
    (snapshot_of_json <$> member "reviewSnapshot" l) (text (member "Ref" l)) (text (member "CommitSHA" l))
    (text (member "Version" l)) (text (member "AuthorName" l)) (text (member "AuthorEmail" l))
    (text (member "Message" l)).

Lemma parameter_read p : parameter_of_json (parameter_json p) = reread_parameter p.
Proof. unfold parameter_of_json, parameter_json, members. read_members. done. Qed.

Lemma operation_read o : operation_of_json (operation_json o) = reread_operation o.
Proof.
  unfold operation_of_json, operation_json, members. read_members. unfold reread_operation. f_equal.
  - apply items_omit, parameter_read.
  - by apply items_omit.
Qed.

Lemma snapshot_read s : snapshot_of_json (snapshot_json s) = reread_snapshot s.
Proof.
  unfold snapshot_of_json, snapshot_json, members. read_members. unfold reread_snapshot. f_equal.
  - apply items_slice, operation_read.
  - by apply items_slice.
Qed.

Lemma revision_read (r : ContractRevision) j : record_json r = Ok j → revision_of_json j = reread r.
Proof.
  intros [= <-]. unfold revision_of_json, members, omit_string. read_members.
  destruct (cv_ReviewSnapshot r) as [s|] eqn:E; read_members; unfold reread, revision_record; rewrite E; simpl;
    f_equal; by rewrite ?snapshot_read.
Qed.

(** ** Well-formed records *)

Lemma reread_string_fixed s : reread_string s = s → valid_utf8 s = true.
Proof. intros <-. apply valid_of_runes, runes_scalars. Qed.

Lemma fmap_fixed_inv {A} (f : A → A) (l : list A) : f <$> l = l → Forall (λ x, f x = x) l.
Proof. induction l as [|x l IH]; [done|]. cbn. intros [= E ?]. constructor; auto. Qed.

Lemma slice_fixed_inv {A} (f : A → A) (s : slice A) :
  fmap (M:=list) f <$> s = s → Forall (λ x, f x = x) (elems s).
Proof. destruct s as [l|]; [|done]. intros [= E]. by apply fmap_fixed_inv. Qed.

Lemma omitted_fixed_inv {A} (f : A → A) (s : slice A) :
  reread_omitted f s = s → Forall (λ x, f x = x) (elems s).
Proof.
  unfold reread_omitted. rewrite gappend_None. destruct s as [[|x l]|]; [done| |done]. simpl.
  intros [= E E']. constructor; [done|]. by apply fmap_fixed_inv.
Qed.

(** The fields of a record that reads back as itself are well-formed. *)
Ltac fixed_field f H := let E := fresh "E" in pose proof (f_equal f H) as E; cbn in E.

Lemma parameter_wf p : reread_parameter p = p → json_wf (parameter_json p) = true.
Proof.
  intros Hp. fixed_field cp_Name Hp. fixed_field cp_In Hp. apply reread_string_fixed in E, E0.
  apply json_wf_object. unfold wf_member. destruct (cp_Required p); repeat constructor; done.
Qed.

Lemma omit_empty_wf (empty : bool) k j :
  valid_utf8 k = true → json_wf j = true → Forall wf_member (omit_empty empty k j).
Proof. intros Hk Hj. destruct empty; repeat constructor; done. Qed.

Lemma field_wf k j : valid_utf8 k = true → json_wf j = true → Forall wf_member (field k j).
Proof. intros Hk Hj. by repeat constructor. Qed.

Lemma operation_wf o : reread_operation o = o → json_wf (operation_json o) = true.
Proof.
  intros Ho. fixed_field co_Method Ho. fixed_field co_Path Ho. fixed_field co_Parameters Ho.
  fixed_field co_ResponseStatuses Ho. apply reread_string_fixed in E, E0. apply omitted_fixed_inv in E1, E2.
  apply json_wf_object. rewrite !Forall_app. split_and!; [by apply field_wf..| | |]; apply omit_empty_wf; try done.
  - apply json_wf_slice. eapply Forall_impl; [exact E1|]. apply parameter_wf.
  - apply json_wf_slice. eapply Forall_impl; [exact E2|]. intros s. apply reread_string_fixed.
Qed.

Lemma snapshot_wf s : reread_snapshot s = s → json_wf (snapshot_json s) = true.
Proof.
  intros Hs. fixed_field cs_ContractID Hs. fixed_field cs_RevisionID Hs. fixed_field cs_SpecDigest Hs.
  fixed_field cs_ContractDigest Hs. fixed_field cs_Operations Hs. fixed_field cs_Schemas Hs.
  apply reread_string_fixed in E, E0, E1, E2. apply slice_fixed_inv in E3, E4.
  apply json_wf_object. rewrite !Forall_app. split_and!; apply field_wf; try done; apply json_wf_slice.
  - eapply Forall_impl; [exact E3|]. apply operation_wf.
  - eapply Forall_impl; [exact E4|]. intros x. apply reread_string_fixed.
Qed.

Lemma revision_wf (r : ContractRevision) j : reread r = r → record_json r = Ok j → json_wf j = true.
Proof.
  intros Hr Hj. injection Hj as <-. apply json_wf_object. unfold omit_string.
  fixed_field cv_ID Hr. fixed_field cv_ContractID Hr. fixed_field cv_SourceID Hr. fixed_field cv_SpecBlobKey Hr.
  fixed_field cv_SpecDigest Hr. fixed_field cv_ContractDigest Hr. fixed_field cv_Ref Hr. fixed_field cv_CommitSHA Hr.
  fixed_field cv_Version Hr. fixed_field cv_AuthorName Hr. fixed_field cv_AuthorEmail Hr. fixed_field cv_Message Hr.
  fixed_field cv_ReviewSnapshot Hr. repeat first [apply Forall_app_2|apply Forall_cons_2|apply field_wf|apply omit_empty_wf];
    try (by apply reread_string_fixed); try (split; [done|by apply reread_string_fixed]); try done.
  destruct (cv_ReviewSnapshot r) as [sn|]; [|done]. simpl in *. repeat constructor. apply snapshot_wf. congruence.
Qed.

(** Revisions as a decoder returns them, with the same JSON, are equal. *)
Lemma same_json_same_revision (r r' : ContractRevision) :
  reread r = r → reread r' = r' → immutableRecordsEqual r r' = Ok true → r = r'.
Proof.
  intros Hr Hr' He. unfold immutableRecordsEqual in He.
  apply bind_ok in He as (j & Hj%wrap_err_ok & He). apply bind_ok in He as (j' & Hj'%wrap_err_ok & [= He]).
  apply bool_decide_eq_true in He. apply render_inj in He as <-; [|by apply (revision_wf r)|by apply (revision_wf r')].
  apply revision_read in Hj, Hj'. congruence.
Qed.

(** A valid snapshot is what a decoder makes of it. *)
Lemma reread_compact {A} (f : A → A) (s : slice A) :
  compact s → Forall (λ x, f x = x) (elems s) → reread_omitted f s = s.
Proof.
  intros Hc Hf. unfold reread_omitted. rewrite gappend_None, (fmap_fixed _ _ Hf). destruct s as [[|x l]|]; [done..|].
  done.
Qed.

Lemma reread_slice {A} (f : A → A) (s : slice A) :
  Forall (λ x, f x = x) (elems s) → fmap (M:=list) f <$> s = s.
Proof. intros Hf. destruct s as [l|]; [|done]. simpl. by rewrite (fmap_fixed f l Hf). Qed.

Lemma canonical_reread s : canonical s → reread_string s = s.
Proof. intros Hs. by apply reread_string_valid, canonical_valid. Qed.

Section snapshots.
Context `{CaseTables}.

Lemma operation_reread o : operation_ok o → reread_operation o = o.
Proof.
  intros [Hm Hp _ Hps _ Hpc Hss _ Hsc]. unfold reread_operation. destruct o as [m p ps b ss]. cbn in *. f_equal.
  - by apply canonical_reread.
  - by apply canonical_reread.
  - apply reread_compact; [done|]. eapply Forall_impl; [exact Hps|]. intros [n i r] [Hn Hi _].
    unfold reread_parameter. cbn in *. by rewrite !canonical_reread.
  - apply reread_compact; [done|]. eapply Forall_impl; [exact Hss|]. intros s. apply canonical_reread.
Qed.

Lemma snapshot_reread s : snapshot_ok s → reread_snapshot s = s.
Proof.
  intros [Hc Hr Hsp [Ho _ _ Hs _ _] Hd]. unfold reread_snapshot. destruct s as [c r sd cd ops schemas]. cbn in *. f_equal.
  - by apply canonical_reread.
  - by apply canonical_reread.
  - by apply reread_string_valid, isLowerSHA256_valid.
  - subst cd. apply reread_string_valid, isLowerSHA256_valid, sha256Hex_lower.
  - apply reread_slice. eapply Forall_impl; [exact Ho|]. apply operation_reread.
  - apply reread_slice. eapply Forall_impl; [exact Hs|]. intros x. apply canonical_reread.
Qed.
End snapshots.
