(* ===== verification/ServiceSafety.v ===== *)
(** * Syncing into a file store

    application/sync.go over internal/adapters/store/fs.go: what a successful
    [Sync] leaves in the directory, what a failed one leaves, and when a
    failure is not recorded. *)

From stdpp Require Import pretty.
From S2P Require Import Prelude GoString GoSha256 GoTime GoJson Identity Spec Snapshot SpecDiff.
From S2P Require Import Release.
From S2P Require Import Policy.
From S2P Require Import Review.
From S2P Require Import Records.
From S2P Require Import Ports.
From S2P Require Import StoreState.
From S2P Require Import StoreTx.
From S2P Require Import FileStore.
From S2P Require Import StoreInvariant.
From S2P Require Import ReleaseService.
From S2P Require Import Fixture.
From S2P Require Import StoreSafety.
From S2P Require Import StoreRuns.
From S2P Require Import CoordinateSafety StorePublic SpecValidation Services RevisionJson.

Section file_sync.
Context `{CaseTables, !CaseLaws, ErrorText}.

Definition file_sync (ctx : Ctx) (sources : Sources) (startedAt finishedAt : Time) (command : SyncCommand) : io SyncResult :=
  sync_evidence (W:=World) (S:=operationalTransaction) ctx sources startedAt finishedAt command.

(** ** What the operations of the transaction leave *)

Lemma durable_revision w s k r : durable w s → os_Revisions s !! k = Some r → reread r = r.
Proof.
  intros [_ Hre _] Hr. pose proof (f_equal os_Revisions Hre) as E. cbn [reread_state os_Revisions] in E.
  rewrite <-E, lookup_fmap in Hr. apply fmap_Some in Hr as (x & _ & ->). apply reread_idem.
Qed.

(** A saved revision is stored as it was passed, whatever was there before. *)
Lemma save_revision_stored ctx r t t' u :
  (∀ k x, os_Revisions (tx_state t) !! k = Some x → reread x = x) → reread r = r → cv_ContractID r ≠ "" →
  tx_SaveRevision ctx r t = (t', Ok u) →
  os_Revisions (tx_state t') !! revisionStorageKey r = Some r.
Proof.
  intros Hs Hr Hc Hsave. unfold tx_SaveRevision in Hsave. do 5 apply lift_bind_ok in Hsave as (_ & _ & Hsave).
  rewrite gets_bind in Hsave. destruct (existing_revision (tx_state t) r) as [[k e]|] eqn:E.
  - apply existing_revision_ok in E as [He Hk]. apply lift_bind_ok in Hsave as (b & Heq & Hsave).
    destruct b.
    { injection Hsave as <- _. apply same_json_same_revision in Heq as ->; [|by eapply Hs|done].
      destruct Hk as [->|[_ ?]]; [done|congruence]. }
    destruct (negb _ && negb _); [done|]. apply lift_bind_ok in Hsave as (c & ->%cloneImmutableRecord_reread & Hsave).
    rewrite Hr in Hsave. apply st_bind_ok in Hsave as (t1 & ? & _ & Hsave).
    unfold put_Revision in Hsave. apply st_bind_ok in Hsave as (t2 & ? & [= <-] & [= <- _]). apply lookup_insert_eq.
  - apply lift_bind_ok in Hsave as (c & ->%cloneImmutableRecord_reread & Hsave). rewrite Hr in Hsave.
    unfold put_Revision in Hsave. apply st_bind_ok in Hsave as (t2 & ? & [= <-] & [= <- _]). apply lookup_insert_eq.
Qed.

Lemma save_revision_valid ctx r t t' u : tx_SaveRevision ctx r t = (t', Ok u) → ValidateContractRevision r = Ok tt.
Proof.
  intros Hs. unfold tx_SaveRevision in Hs. do 2 apply lift_bind_ok in Hs as (_ & _ & Hs).
  by apply lift_bind_ok in Hs as ([] & Hv & _).
Qed.

(** A valid revision reads back as itself. *)
Lemma valid_revision_reread r : ValidateContractRevision r = Ok tt → reread r = r.
Proof.
  unfold ValidateContractRevision. rewrite seq_ok, validateUTF8Strings_ok. intros [Hu Hv].
  do 2 apply seq_ok in Hv as [_ Hv]. destruct r as [id c src b sd cd sn rf cm v an ae m].
  cbn -[valid_utf8] in Hu. rewrite !andb_true_iff in Hu. destruct_and! Hu. unfold reread, revision_record. cbn in *.
  f_equal; try (by apply reread_string_valid). destruct sn as [sn|]; [|done]. cbn. f_equal.
  by apply wrap_err_ok, ValidateContractSnapshot_ok, snapshot_reread in Hv.
Qed.

(** ** The sync record of a transaction *)

Lemma save_sync_stored ctx r t t' u :
  tx_SaveSyncRecord ctx r t = (t', Ok u) →
  is_Some (os_SyncRecords (tx_state t') !! sy_ID r)
  ∧ (os_SyncRecords (tx_state t') = os_SyncRecords (tx_state t)
     ∨ os_SyncRecords (tx_state t) !! sy_ID r = None
       ∧ os_SyncRecords (tx_state t') = <[sy_ID r := r]> (os_SyncRecords (tx_state t))).
Proof.
  intros Hs. unfold tx_SaveSyncRecord in Hs. do 4 apply lift_bind_ok in Hs as (_ & _ & Hs).
  apply st_bind_ok in Hs as (t1 & [] & Hb & Hs).
  assert (os_SyncRecords (tx_state t1) = os_SyncRecords (tx_state t)) as E.
  { destruct (_ && _); [|by injection Hb as <-].
    pose proof (tx_bind_quiet (sy_ProjectID r) (sy_RevisionID r) ("sync record " +:+ sy_ID r) t) as Hq. rewrite Hb in Hq. destruct Hq as [Hq _ _]. simpl in Hq. by rewrite Hq. }
  rewrite gets_bind in Hs. destruct (os_SyncRecords (tx_state t1) !! sy_ID r) as [x|] eqn:Ex.
  - injection Hs as <- _. rewrite Ex, E. eauto.
  - injection Hs as <- _. cbn [tx_state put_SyncRecord os_SyncRecords]. rewrite lookup_insert_eq, <-E. eauto.
Qed.

Lemma put_ok ctx data w w' key :
  Put ctx data w = (w', Ok key) →
  key = ContentAddressedBlobKey data
  ∧ ∃ stored, w_blobs w' !! key = Some stored ∧ ContentAddressedBlobKey stored = ContentAddressedBlobKey data.
Proof.
  intros Hp. unfold Put in Hp. do 2 apply lift_bind_ok in Hp as (_ & _ & Hp). rewrite gets_bind in Hp.
  destruct (w_blobs w !! _) as [x|] eqn:Eb.
  - apply lift_bind_ok in Hp as (u & Hc & [= <- <-]). apply throw_if_ok_u in Hc. bool_prop. split; [done|]. by exists x.
  - apply st_bind_ok in Hp as (w1 & u & Hw & [= <- <-]). split; [done|]. exists data. split; [|done].
    apply durableAtomicWrite_cases in Hw as [[_ ->]|(e & ? & _)]; [|done]. apply lookup_insert_eq.
Qed.

Lemma put_durable ctx data w w' r s : durable w s → Put ctx data w = (w', r) → durable w' s ∧ w_blobs w ⊆ w_blobs w'.
Proof.
  intros [(?&?&?) ? ?] (Hs & Hm & Hb)%put_records. split; [|done]. split; [|done..]. split_and!; congruence.
Qed.

Lemma read_sync ctx id w s w' r :
  settled w s → FileStore_SyncRecord ctx id w = (w', Ok r) →
  w' = w ∧ (os_SyncRecords s !! id = Some r ∨ os_SyncRecords s !! id = None).
Proof.
  intros Hset Hr. unfold FileStore_SyncRecord in Hr. apply lift_bind_ok in Hr as (_ & _ & Hr).
  apply st_bind_ok in Hr as (w1 & s1 & [-> ->]%(load_settled_ok _ _ _ _ _ Hset) & Hr). rewrite gets_bind in Hr.
  destruct (os_SyncRecords s !! id) as [x|]; [|by injection Hr as <- _; auto].
  injection Hr as <- Hr. apply seq_ok in Hr as [_ [= ->]]. auto.
Qed.

(** Everything but the revisions and the sync records. *)
Record same_releases (s s' : operationalState) : Prop := {
  sa_reviews : os_Reviews s' = os_Reviews s;
  sa_tracks : os_ReleaseTracks s' = os_ReleaseTracks s;
  sa_authorizations : os_ReleaseAuthorizations s' = os_ReleaseAuthorizations s;
  sa_publications : os_Publications s' = os_Publications s;
  sa_audits : os_AuditEvents s' = os_AuditEvents s;
  sa_outbox : os_Outbox s' = os_Outbox s;
}.

#[local] Instance same_releases_preorder : PreOrder same_releases.
Proof. split; [by intros s|]. intros s1 s2 s3 [] []. split; congruence. Qed.

Lemma quiet_releases t t' :
  quiet t t' → same_releases (tx_state t) (tx_state t')
  ∧ os_SyncRecords (tx_state t') = os_SyncRecords (tx_state t).
Proof. intros [Hs _ _]. rewrite Hs. done. Qed.

Lemma reread_releases s s' : reread_state s = s → same_releases s s' → same_releases s (reread_state s').
Proof.
  intros Hre [F1 F2 F3 F4 F5 F6].
  pose proof (f_equal os_Reviews Hre) as E1. pose proof (f_equal os_ReleaseTracks Hre) as E2.
  pose proof (f_equal os_ReleaseAuthorizations Hre) as E3. pose proof (f_equal os_Publications Hre) as E4.
  pose proof (f_equal os_AuditEvents Hre) as E5. pose proof (f_equal os_Outbox Hre) as E6.
  cbn [reread_state os_Reviews os_ReleaseTracks os_ReleaseAuthorizations os_Publications os_AuditEvents os_Outbox] in *.
  split; cbn [reread_state os_Reviews os_ReleaseTracks os_ReleaseAuthorizations os_Publications os_AuditEvents os_Outbox];
    congruence.
Qed.

Lemma save_sync_releases ctx r t t' u :
  tx_SaveSyncRecord ctx r t = (t', Ok u) → same_releases (tx_state t) (tx_state t').
Proof.
  intros Hs. unfold tx_SaveSyncRecord in Hs. do 4 apply lift_bind_ok in Hs as (_ & _ & Hs).
  apply st_bind_ok in Hs as (t1 & [] & Hb & Hs).
  assert (same_releases (tx_state t) (tx_state t1)) as E.
  { destruct (_ && _); [|by injection Hb as <-].
    pose proof (tx_bind_quiet (sy_ProjectID r) (sy_RevisionID r) ("sync record " +:+ sy_ID r) t) as Hq.
    rewrite Hb in Hq. by apply quiet_releases in Hq as [? _]. }
  rewrite gets_bind in Hs. destruct (os_SyncRecords (tx_state t1) !! sy_ID r); injection Hs as <- _; [done|].
  etrans; [done|]. by split.
Qed.

(** A sync of a stored revision leaves the revisions alone. *)
Lemma save_sync_revisions ctx r t t' u x :
  os_Revisions (tx_state t) !! revisionKey (sy_ProjectID r) (sy_RevisionID r) = Some x →
  tx_SaveSyncRecord ctx r t = (t', Ok u) → os_Revisions (tx_state t') = os_Revisions (tx_state t).
Proof.
  intros Hx Hs. unfold tx_SaveSyncRecord in Hs. do 4 apply lift_bind_ok in Hs as (_ & _ & Hs).
  apply st_bind_ok in Hs as (t1 & [] & Hb & Hs).
  assert (os_Revisions (tx_state t1) = os_Revisions (tx_state t)) as E.
  { destruct (_ && _); [|by injection Hb as <-]. unfold tx_bindRevisionOwner, bindRevisionOwner in Hb.
    case_bool_decide; [done|]. rewrite Hx in Hb. destruct (_ || _); [done|]. by injection Hb as <-. }
  rewrite gets_bind in Hs. by destruct (os_SyncRecords (tx_state t1) !! sy_ID r); injection Hs as <- _.
Qed.


Lemma save_evidence_stored ctx revision record t t' u :
  (∀ k x, os_Revisions (tx_state t) !! k = Some x → reread x = x) → cv_ContractID revision ≠ "" →
  sy_ProjectID record = cv_ContractID revision → sy_RevisionID record = cv_ID revision →
  save_evidence (S:=operationalTransaction) ctx revision record t = (t', Ok u) →
  ValidateContractRevision revision = Ok tt ∧ reread revision = revision
  ∧ os_Revisions (tx_state t') !! revisionStorageKey revision = Some revision
  ∧ is_Some (os_SyncRecords (tx_state t') !! sy_ID record)
  ∧ same_releases (tx_state t) (tx_state t').
Proof.
  intros Hs Hc Hp Hr Hsave. unfold save_evidence in Hsave.
  apply st_bind_ok in Hsave as (t1 & [] & Hrev%st_wrap_ok & Hsync%st_wrap_ok).
  pose proof (save_revision_valid _ _ _ _ _ Hrev) as Hv. pose proof (valid_revision_reread _ Hv) as Hre.
  pose proof (SaveRevision_quiet ctx revision t) as Hq. cbn [SaveRevision SaveSyncRecord transaction_store] in Hrev, Hsync.
  rewrite Hrev in Hq. apply quiet_releases in Hq as [Hrel _].
  apply save_revision_stored in Hrev as Hst; [|done..]. split; [done|]. split; [done|]. split_and!.
  - assert (revisionStorageKey revision = revisionKey (sy_ProjectID record) (sy_RevisionID record)) as Ek.
    { unfold revisionStorageKey. by rewrite Hp, Hr. }
    rewrite (save_sync_revisions _ _ _ _ _ revision) by (rewrite <-?Ek; done). done.
  - by apply save_sync_stored in Hsync as [? _].
  - etrans; [done|]. by eapply save_sync_releases.
Qed.

(** The transactions of the service act only through the operations. *)
Lemma save_evidence_client ctx revision record :
  client (S:=operationalTransaction) (C:=unit) ctx (on_fst (save_evidence ctx revision record)).
Proof.
  apply client_on_fst, program_bind; [|intros ?]; apply program_wrap, program_effect; intros t; constructor.
Qed.


(** A transaction of the service on a durable store. *)
Lemma transact_durable ctx (callback : tx unit) w s w' r :
  durable w s → client (S:=operationalTransaction) (C:=unit) ctx (on_fst callback) →
  transact (W:=World) ctx callback w = (w', r) →
  w_blobs w' = w_blobs w ∧
  ((∃ e, r = Fail e ∧ durable w' s) ∨
   (∃ t, callback (begin_transaction s) = (t, Ok tt) ∧ durable w' (reread_state (tx_state t))
      ∧ extends s (reread_state (tx_state t))
      ∧ (r = Ok tt ∨ ∃ e, r = Fail e ∧ Is "operational commit outcome unknown" e = true))).
Proof.
  intros Hd Hcl Ht. unfold transact, Within, file_unit_of_work in Ht.
  destruct (FileStore_Within ctx (on_fst callback) (w, tt)) as [[w1 c1] r1] eqn:Hw. injection Ht as <- <-.
  destruct (within_durable ctx (on_fst callback) tt w s Hd) as (s1 & Hd1 & He1 & Hb).
  { intros t. by destruct (client_evolves ctx _ t tt Hcl). }
  rewrite Hw in Hd1, Hb. simpl in Hd1, Hb. split; [done|].
  destruct (within_cases _ _ _ _ _ _ _ _ (du_settled _ _ Hd) Hw) as [_ [(e & -> & Hs)|(next & Hc & Hs & Hr)]].
  - left. exists e. split; [done|]. destruct Hd as [_ ? ?]. by split.
  - right. destruct Hc as (t & Hcb & -> & _). apply on_fst_ok in Hcb as [Hcb _]. exists t.
    assert (s1 = reread_state (tx_state t)) as -> by (destruct (du_settled _ _ Hd1) as [? _], Hs as [? _]; congruence).
    by split_and!.
Qed.
(** ** Successful syncs *)

(** What the result of a sync says, and the store after it. *)
Record synced (command : SyncCommand) (s s' : operationalState) (blobs : gmap string (list Z)) (result : SyncResult) : Prop := {
  sd_revision : os_Revisions s' !! revisionStorageKey (sres_Revision result) = Some (sres_Revision result);
  sd_contract : cv_ContractID (sres_Revision result) = sc_ContractID command;
  sd_snapshot : cv_ReviewSnapshot (sres_Revision result)
    = Some (NewContractSnapshot (sc_ContractID command) (cv_ID (sres_Revision result))
              (sf_Bytes (sres_Spec result)) (sres_Index result));
  sd_intact : intact blobs (sres_Revision result);
  sd_blob : ∃ stored, blobs !! sres_BlobKey result = Some stored
    ∧ sres_BlobKey result = ContentAddressedBlobKey (sf_Bytes (sres_Spec result))
    ∧ ContentAddressedBlobKey stored = sres_BlobKey result;
  sd_record : os_SyncRecords s' !! sy_ID (sres_Record result) = Some (sres_Record result);
  sd_evidence : sy_Result (sres_Record result) = SyncResultSuccess
    ∧ sy_ProjectID (sres_Record result) = sc_ContractID command
    ∧ sy_RevisionID (sres_Record result) = cv_ID (sres_Revision result)
    ∧ sy_CommitSHA (sres_Record result) = cv_CommitSHA (sres_Revision result);
  sd_releases : same_releases s s';
}.

Lemma blob_key_inj l k : ContentAddressedBlobKey l = ContentAddressedBlobKey k → sha256Hex l = sha256Hex k.
Proof. intros E%(f_equal (λ s, TrimPrefix s "sha256:")). unfold ContentAddressedBlobKey in E. by rewrite !TrimPrefix_app in E. Qed.

Lemma snapshot_revision_intact blobs revision sn bytes stored :
  ValidateContractRevision revision = Ok tt → cv_ReviewSnapshot revision = Some sn →
  cs_ContractID sn = cv_ContractID revision → cs_RevisionID sn = cv_ID revision →
  cs_SpecDigest sn = sha256Hex bytes → cv_SpecDigest revision = cs_SpecDigest sn →
  cv_ContractDigest revision = cs_ContractDigest sn →
  cv_SpecBlobKey revision = ContentAddressedBlobKey bytes →
  blobs !! cv_SpecBlobKey revision = Some stored → ContentAddressedBlobKey stored = ContentAddressedBlobKey bytes →
  intact blobs revision.
Proof.
  intros Hv Hsn Hc Hr Hsp Hd Hcd Hk Hb Hst. right. exists stored. split; [done|]. split; [congruence|]. intros _.
  exists sn. unfold ValidateContractRevision in Hv. do 3 apply seq_ok in Hv as [_ Hv]. rewrite Hsn in Hv.
  apply wrap_err_ok, ValidateContractSnapshot_ok in Hv. apply blob_key_inj in Hst. split_and!; congruence.
Qed.

Lemma same_evidence_fields a b :
  SameSyncEvidence a b = true →
  sy_ID a = sy_ID b ∧ sy_Result a = sy_Result b ∧ sy_ProjectID a = sy_ProjectID b ∧ sy_RevisionID a = sy_RevisionID b
  ∧ sy_CommitSHA a = sy_CommitSHA b ∧ sy_ErrorSummary a = sy_ErrorSummary b.
Proof.
  unfold SameSyncEvidence. intros E%bool_decide_eq_true. destruct a, b. unfold without_times in E. cbn in *.
  by injection E as -> -> -> -> -> -> -> -> -> ->.
Qed.

(** Reading back the record a transaction stored. *)
Lemma canonical_record ctx record w s w' r :
  durable w s → is_Some (os_SyncRecords s !! sy_ID record) →
  canonicalSyncRecord (W:=World) ctx record w = (w', Ok r) →
  w' = w ∧ os_SyncRecords s !! sy_ID record = Some r ∧ SameSyncEvidence r record = true.
Proof.
  intros Hd [x Hx] Hr. unfold canonicalSyncRecord in Hr. apply st_bind_ok in Hr as (w1 & y & Hread & Hr).
  apply (read_sync _ _ _ _ _ _ (du_settled _ _ Hd)) in Hread as [-> Hy].
  apply lift_bind_ok in Hr as (u & He & [= <- <-]). apply throw_if_ok_u in He. apply negb_false_iff in He.
  split; [done|]. split; [|done]. by destruct Hy as [?|?]; [|congruence].
Qed.

Lemma sync_commits ctx sources t1 t2 command w s w' result :
  durable w s → file_sync ctx sources t1 t2 command w = (w', Ok result) →
  ∃ s', durable w' s' ∧ extends s s' ∧ w_blobs w ⊆ w_blobs w' ∧ synced command s s' (w_blobs w') result.
Proof.
  intros Hd Hs. unfold file_sync, sync_evidence in Hs. apply lift_bind_ok in Hs as ([] & Hcmd & Hs).
  destruct (src_Fetch sources ctx) as [[spec0 revision0] failed].
  apply lift_bind_ok in Hs as (_ & _ & Hs). destruct failed as [err|].
  { unfold recordFailure in Hs. do 2 apply st_bind_ok in Hs as (? & ? & _ & Hs). done. }
  destruct (src_Parse _ _ _ _) as [index0|err].
  2: { unfold recordFailure in Hs. do 2 apply st_bind_ok in Hs as (? & ? & _ & Hs). done. }
  apply lift_bind_ok in Hs as (_ & _ & Hs).
  apply st_bind_ok in Hs as (w1 & key & Hput%st_wrap_ok & Hs).
  destruct (put_durable _ _ _ _ _ _ Hd Hput) as [Hd1 Hb1]. apply put_ok in Hput as (-> & stored & Hst & Hkey).
  apply lift_bind_ok in Hs as (_ & _ & Hs). apply st_bind_ok in Hs as (w2 & u & Htr%st_wrap_ok & Hs).
  match type of Htr with transact _ (save_evidence _ ?r ?y) _ = _ => set (revision := r) in *; set (record := y) in * end.
  destruct (transact_durable _ _ _ _ _ _ Hd1 (save_evidence_client _ _ _) Htr)
    as [Hb2 [(e & ? & _)|(t & Hcb & Hd2 & He2 & _)]]; [done|].
  apply save_evidence_stored in Hcb as (Hv & Hre & Hrev & Hrec & Hrel).
  2: { intros k x. by eapply durable_revision. }
  2: { apply wrap_err_ok, validate_identities_ok in Hcmd. by apply Forall_inv in Hcmd as ?%canonical_nonempty. }
  2,3: done.
  apply st_bind_ok in Hs as (w3 & persisted & Hcan%st_wrap_ok & [= <- <-]).
  apply (canonical_record _ _ _ _ _ _ Hd2) in Hcan as (-> & Hper & Hsame).
  2: { cbn [reread_state os_SyncRecords]. rewrite lookup_fmap. by apply fmap_is_Some. }
  apply same_evidence_fields in Hsame as (Eid & Eres & Epr & Erv & Ecm & _).
  exists (reread_state (tx_state t)). split; [done|]. split; [done|]. split; [by rewrite Hb2|].
  split; cbn [sres_Revision sres_Record sres_Spec sres_Index sres_BlobKey].
  - cbn [reread_state os_Revisions]. rewrite lookup_fmap, Hrev. cbn [fmap option_fmap option_map]. by rewrite Hre.
  - done.
  - done.
  - rewrite Hb2. by eapply (snapshot_revision_intact _ revision).
  - rewrite Hb2. exists stored. by split_and!.
  - by rewrite Eid.
  - done.
  - apply reread_releases; [apply Hd|]. exact Hrel.
Qed.

(** ** Failed syncs *)

Lemma st_bind_fail {X A B} (m : stM X A) (f : A → stM X B) x x' e :
  (m ≫= f) x = (x', Fail e) → m x = (x', Fail e) ∨ ∃ x1 a, m x = (x1, Ok a) ∧ f a x1 = (x', Fail e).
Proof. unfold mbind, stM_bind. destruct (m x) as [x1 [a|e1]]; [right; eauto|intros [= -> ->]; by left]. Qed.







End file_sync.

(** ** A failure that is not recorded *)

Section lost.
Context `{CaseTables, ErrorText}.

Lemma conflicting_sync_fails ctx record t first :
  os_SyncRecords (tx_state t) !! sy_ID record = Some first → sy_Result record = SyncResultFailure →
  sy_ErrorSummary first ≠ sy_ErrorSummary record → ∀ t' u, tx_SaveSyncRecord ctx record t ≠ (t', Ok u).
Proof.
  intros Hf Hr Hsum t' u Hs. unfold tx_SaveSyncRecord in Hs. do 4 apply lift_bind_ok in Hs as (_ & _ & Hs).
  rewrite Hr in Hs. cbn [andb] in Hs. apply st_bind_ok in Hs as (t1 & [] & [= <-] & Hs). rewrite gets_bind, Hf in Hs.
  injection Hs as _ Hs. destruct u. apply throw_if_ok, negb_false_iff, same_evidence_fields in Hs. naive_solver.
Qed.

Lemma conflicting_transaction ctx record w s first :
  settled w s → os_SyncRecords s !! sy_ID record = Some first → sy_Result record = SyncResultFailure →
  sy_ErrorSummary first ≠ sy_ErrorSummary record →
  ∃ e, transact (W:=World) (S:=operationalTransaction) ctx (SaveSyncRecord ctx record) w = (w, Fail e).
Proof.
  intros Hset Hf Hr Hsum. unfold transact, Within, file_unit_of_work, FileStore_Within.
  destruct ((lift ctx ;; loadOperationalStateLocked ctx) w) as [w1 [previous|e]] eqn:El.
  2: { exists e. assert (w1 = w) as ->; [|done]. apply st_bind_fail in El as [El|(w2 & u & El1 & El)].
       - by injection El as -> _.
       - injection El1 as -> _. by apply (load_settled _ _ _ _ _ Hset) in El as [-> _]. }
  apply lift_bind_ok in El as (_ & _ & El). apply (load_settled_ok _ _ _ _ _ Hset) in El as [-> ->].
  unfold on_fst. cbn [fst snd SaveSyncRecord transaction_store].
  pose proof (conflicting_sync_fails ctx record (begin_transaction s) first Hf Hr Hsum) as Hno.
  destruct (tx_SaveSyncRecord ctx record (begin_transaction s)) as [t [u|e]]; [by destruct (Hno t u)|]. by exists e.
Qed.
End lost.

(** ** Properties *)

Section properties.
Context `{CaseTables, !CaseLaws, ErrorText} {K : Type}.

(** [Sync] on a file store. *)
Definition store_sync (cache : option (Cache K)) (ctx : Ctx) (sources : Sources) (startedAt finishedAt : Time)
    (command : SyncCommand) : stM (World * K) (SyncResult * option error) :=
  Sync (W:=World) (S:=operationalTransaction) cache ctx sources startedAt finishedAt command.

(** C29: a successful sync is complete evidence.  Whatever the source, the
    parser and the cache did, when [Sync] returns a result the store holds the
    very revision it returns, with the contract snapshot of the parsed index
    and intact: its spec is on disk under its content address.  The sync record
    of that revision is stored, all earlier evidence is kept, and tracks,
    reviews, authorizations and publications are untouched. *)
Theorem successful_sync_is_evidence cache ctx sources t1 t2 command w s k w' k' result warning :
  durable w s → store_sync cache ctx sources t1 t2 command (w, k) = ((w', k'), Ok (result, warning)) →
  ∃ s', durable w' s' ∧ extends s s' ∧ w_blobs w ⊆ w_blobs w' ∧ synced command s s' (w_blobs w') result.
Proof.
  intros Hd Hs. unfold store_sync, Sync in Hs.
  apply st_bind_ok in Hs as ([w1 k1] & r & [Hsync ->]%on_fst_ok & Hs).
  destruct (sync_commits _ _ _ _ _ _ _ _ _ Hd Hsync) as (s' & ? & ? & ? & ?).
  assert (w1 = w' ∧ r = result) as [-> ->]; [|by exists s'].
  destruct cache as [cache|]; [|by injection Hs as -> _ -> _].
  apply st_bind_ok in Hs as ([w2 k2] & failed & [_ ->]%on_snd_ok & Hs). by injection Hs as -> _ -> _.
Qed.


(** A second, different failure is lost.  The id of a sync record names
    contract, source, trigger, revision and result, not the error: when a
    source fails while the store already holds a failure of that name with
    another summary — a failed fetch usually names no revision, so every
    failure of a source has one name — the store refuses the record as a
    conflict.  Nothing is written, and the caller gets a transaction error
    instead of a source error. *)
Theorem second_failure_is_lost cache ctx sources t1 t2 command w s k spec revision err first :
  settled w s → validateSyncCommand command = Ok tt →
  src_Fetch sources ctx = (spec, revision, Some err) → validateSyncSourceOutput spec revision false = Ok tt →
  os_SyncRecords s !! syncRecordID command spec revision (cv_Ref revision) SyncResultFailure = Some first →
  sy_ErrorSummary first ≠ errorSummary err →
  ∃ conflict, store_sync cache ctx sources t1 t2 command (w, k)
    = ((w, k), Fail (Classified ErrorTransaction "record failed sync" (errors_Join err conflict))).
Proof.
  intros Hset Hc Hf Ho Hfirst Hsum. unfold store_sync, Sync, sync_evidence. rewrite Hc, Hf.
  assert (Some err ≠ None) as Hn by done. rewrite (bool_decide_eq_false_2 _ Hn), Ho.
  destruct (conflicting_transaction ctx (failedSyncRecord command spec revision (ToUTC t1) (ToUTC t2) err) w s first)
    as [e He]; [done..|]. exists e.
  unfold mbind, stM_bind, lift, on_fst, wrap_err, recordFailure, st_wrap. cbn [fst snd].
  unfold mbind, stM_bind. by rewrite He.
Qed.
End properties.

(** ** Witnesses *)

#[local] Instance format_text : ErrorText := λ e, if e is Errorf format _ then format else "".

Definition fetched (id : string) : SpecFile * ContractRevision :=
  (MkSpecFile "" "openapi.yaml" "yaml" small_spec,
   MkContractRevision id "" "" "" "" "" None "main" "" "" "" "" "").
Definition sync_command : SyncCommand := MkSyncCommand "c" "src" "manual".
Definition good_sources : Sources :=
  MkSources (λ _, (fetched "r3", None)) (λ _ _ _, Ok (plain_index "r3" [] [])) ∅.
Definition failing_sources (text : string) : Sources :=
  MkSources (λ _, (MkSpecFile "" "" "" [], MkContractRevision "" "" "" "" "" "" None "" "" "" "" "" "", Some (Errorf text [])))
    (λ _ _ _, Ok (plain_index "" [] [])) ∅.

Definition sample_sync (sources : Sources) (w : World) : World * unit * res (SyncResult * option error) :=
  @store_sync latin1 format_text unit None (Ok tt) sources evaluated_at evaluated_at sync_command (w, tt).

Definition good_run : World * unit * res (SyncResult * option error) := sample_sync good_sources small_world.

Lemma successful_sync_is_evidence_witness :
  ∃ result s', durable good_run.1.1 s' ∧ extends small_state s' ∧ w_blobs small_world ⊆ w_blobs good_run.1.1
    ∧ @synced latin1 sync_command small_state s' (w_blobs good_run.1.1) result.
Proof.
  destruct good_run.2 as [[result warning]|e] eqn:E; [|apply (f_equal is_ok) in E; vm_compute in E; discriminate E].
  exists result.
  apply (@successful_sync_is_evidence latin1 latin1_laws format_text unit None (Ok tt) good_sources evaluated_at
    evaluated_at sync_command small_world small_state tt good_run.1.1 good_run.1.2 result warning).
  - exact small_durable.
  - exact (run_ok good_run _ E).
Defined.

Definition failed_world : World := Eval vm_compute in (sample_sync (failing_sources "connection timed out") small_world).1.1.
Definition failed_state : operationalState := Eval vm_compute in default newOperationalState (w_state failed_world).




Lemma second_failure_is_lost_witness :
  ∃ conflict, @store_sync latin1 format_text unit None (Ok tt) (failing_sources "401 unauthorized") evaluated_at evaluated_at
      sync_command (failed_world, tt)
    = ((failed_world, tt), Fail (Classified ErrorTransaction "record failed sync"
        (errors_Join (Errorf "401 unauthorized" []) conflict))).
Proof.
  destruct (os_SyncRecords failed_state !! syncRecordID sync_command (MkSpecFile "" "" "" [])
    (MkContractRevision "" "" "" "" "" "" None "" "" "" "" "" "") "" SyncResultFailure) as [first|] eqn:E;
    [|vm_compute in E; discriminate E].
  apply (@second_failure_is_lost latin1 format_text unit None (Ok tt) (failing_sources "401 unauthorized") evaluated_at
    evaluated_at sync_command failed_world failed_state tt (MkSpecFile "" "" "" [])
    (MkContractRevision "" "" "" "" "" "" None "" "" "" "" "" "") (Errorf "401 unauthorized" []) first).
  - split; [reflexivity|split; reflexivity].
  - vm_compute. reflexivity.
  - reflexivity.
  - vm_compute. reflexivity.
  - exact E.
  - vm_compute in E. injection E as <-. vm_compute. discriminate.
Defined.
