(* ===== verification/EmbeddedJson.v ===== *)
(** * Embedded JSON (application/projection/embedded_json.go)

    Schemas and examples carry JSON text.  The projection stores it in one
    canonical form: object members sorted by key, numbers in plain decimal
    notation without redundant zeros, strings escaped as [json.Marshal] does.
    The text is read with [encoding/json]'s token decoder, whose grammar the
    first part of this file spells out. *)

From S2P Require Import Prelude GoString GoJson CatalogIdentity.

Definition projectionFailure (path class : string) : error :=
  let message := "projection[" +:+ path +:+ "]: " +:+ class in
  if 256 <? go_len message then Errorf "projection[source]: invalid_source" []
  else Errorf message [].

(** ** Reading tokens *)

Definition is_json_space (b : Z) : bool := (b =? 32) || (b =? 9) || (b =? 10) || (b =? 13).
Definition skip_space (l : list Z) : list Z := drop_while is_json_space l.

Definition is_digit (b : Z) : bool := in_range 48 57 b.

Fixpoint span_digits (l : list Z) : list Z * list Z :=
  match l with
  | b :: l' => if is_digit b then let '(ds, rest) := span_digits l' in (b :: ds, rest) else ([], l)
  | [] => ([], [])
  end.

(** [XXXX] of a [\uXXXX] escape. *)
Definition read_u4 (l : list Z) : option (Z * list Z) :=
  match l with
  | h1 :: h2 :: h3 :: h4 :: l =>
      v1 ← hex_value h1; v2 ← hex_value h2; v3 ← hex_value h3; v4 ← hex_value h4;
      Some (v1 * 4096 + v2 * 256 + v3 * 16 + v4, l)
  | _ => None
  end.

Definition simple_escape (c : Z) : option Z :=
  if (c =? 34) || (c =? 92) || (c =? 47) then Some c
  else if c =? 98 then Some 8
  else if c =? 102 then Some 12
  else if c =? 110 then Some 10
  else if c =? 114 then Some 13
  else if c =? 116 then Some 9
  else None.

(** A [\u] escape, the surrogate pairs of UTF-16 joined. *)
Definition read_unicode (l : list Z) : option (Z * list Z) :=
  '(u, l1) ← read_u4 l;
  if in_range 0xD800 0xDFFF u then
    match l1 with
    | 92 :: 117 :: l2 =>
        match read_u4 l2 with
        | Some (u2, l3) =>
            if (u <? 0xDC00) && in_range 0xDC00 0xDFFF u2
            then Some (0x10000 + (u - 0xD800) * 1024 + (u2 - 0xDC00), l3)
            else Some (RuneError, l1)
        | None => Some (RuneError, l1)
        end
    | _ => Some (RuneError, l1)
    end
  else Some (u, l1).

(** One character of a string, or [None] where the string is malformed. *)
Definition read_character (l : list Z) : option (Z * list Z) :=
  match l with
  | [] => None
  | b :: l1 =>
      if b <? 32 then None
      else if b =? 92 then
        match l1 with
        | [] => None
        | c :: l2 =>
            match simple_escape c with
            | Some r => Some (r, l2)
            | None => if c =? 117 then read_unicode l2 else None
            end
        end
      else let '(r, k) := decode1 l in Some (default RuneError r, drop k l)
  end.

(** The characters up to the closing quote, and what follows it. *)
Fixpoint read_string (fuel : nat) (l : list Z) : option (list Z * list Z) :=
  match fuel with
  | O => None
  | S fuel =>
      match l with
      | [] => None
      | b :: l1 =>
          if b =? 34 then Some ([], l1)
          else
            '(r, rest) ← read_character l;
            '(rs, rest) ← read_string fuel rest;
            Some (r :: rs, rest)
      end
  end.

Definition read_fraction (l : list Z) : option (list Z * list Z) :=
  match l with
  | b :: l1 =>
      if b =? 46 then
        let '(ds, rest) := span_digits l1 in
        if bool_decide (ds = []) then None else Some (46 :: ds, rest)
      else Some ([], l)
  | [] => Some ([], l)
  end.

Definition read_exponent (l : list Z) : option (list Z * list Z) :=
  match l with
  | b :: l1 =>
      if (b =? 101) || (b =? 69) then
        let '(sign, l2) :=
          match l1 with
          | c :: l2 => if (c =? 43) || (c =? 45) then ([c], l2) else ([], l1)
          | [] => ([], l1)
          end in
        let '(ds, rest) := span_digits l2 in
        if bool_decide (ds = []) then None else Some (b :: sign ++ ds, rest)
      else Some ([], l)
  | [] => Some ([], l)
  end.

(** The literal text of a number. *)
Definition read_number (l : list Z) : option (list Z * list Z) :=
  let '(sign, l1) :=
    match l with
    | b :: l1 => if b =? 45 then ([45], l1) else ([], l)
    | [] => ([], l)
    end in
  match l1 with
  | [] => None
  | b :: l2 =>
      let '(whole, l3) := if b =? 48 then ([48], l2) else span_digits l1 in
      if bool_decide (whole = []) then None
      else
        '(fraction, l4) ← read_fraction l3;
        '(exponent, l5) ← read_exponent l4;
        Some (sign ++ whole ++ fraction ++ exponent, l5)
  end.

Fixpoint read_word (word l : list Z) : option (list Z) :=
  match word, l with
  | [], _ => Some l
  | w :: word, b :: l => if b =? w then read_word word l else None
  | _ :: _, [] => None
  end.

(** ** Numbers *)

Definition maxEmbeddedJSONBytes : Z := 512 * 1024.

Definition digits_value (l : list Z) : Z := foldl (λ n b, 10 * n + (b - 48)) 0 l.

(** [strconv.ParseInt(s, 10, 32)] *)
Definition parse_int32 (l : list Z) : option Z :=
  let '(negative, ds) :=
    match l with
    | b :: ds => if b =? 45 then (true, ds) else if b =? 43 then (false, ds) else (false, l)
    | [] => (false, l)
    end in
  if bool_decide (ds = []) || negb (forallb is_digit ds) then None
  else
    let value := if negative : bool then - digits_value ds else digits_value ds in
    if in_range (-2147483648) 2147483647 value then Some value else None.

Definition is_zero_digit (b : Z) : bool := b =? 48.

(** [strings.TrimSuffix(mantissa, "0")] while the decimal point lies inside,
    on the reversed digits. *)
Fixpoint trim_zeros (decimalPosition : Z) (reversed : list Z) : list Z :=
  match reversed with
  | b :: rest =>
      if is_zero_digit b && (decimalPosition <? Z.of_nat (length reversed))
      then trim_zeros decimalPosition rest
      else reversed
  | [] => []
  end.

(** [strings.Repeat("0", int(n))] *)
Definition decimal_zeros (n : Z) : list Z := replicate (Z.to_nat n) 48.

(** The parts of an unsigned literal: mantissa digits, digits before the
    decimal point, exponent. *)
Definition unsigned_parts (input : list Z) : option (list Z * Z * Z) :=
  let '(mantissa, exponentText) :=
    match cut_bytes 101 input, cut_bytes 69 input with
    | (before, Some after), (before', Some after') =>
        if (length before <=? length before')%nat then (before, Some after) else (before', Some after')
    | (before, Some after), _ => (before, Some after)
    | _, (before', Some after') => (before', Some after')
    | _, _ => (input, None)
    end in
  exponent ← match exponentText with
             | Some text => parse_int32 text
             | None => Some 0
             end;
  let '(whole, fraction) := cut_bytes 46 mantissa in
  Some (whole ++ default [] fraction, Z.of_nat (length whole), exponent).

Definition number_parts (input : list Z) : option (bool * list Z * Z * Z) :=
  let '(negative, rest) :=
    match input with
    | b :: rest => if b =? 45 then (true, rest) else (false, input)
    | [] => (false, input)
    end in
  '(mantissa, integerDigits, exponent) ← unsigned_parts rest;
  Some (negative, mantissa, integerDigits, exponent).

Definition normalizeJSONNumber (input : list Z) (resourceLimits : bool) : option (list Z) :=
  '(negative, mantissa, integerDigits, exponent) ← number_parts input;
  if bool_decide (mantissa = []) || negb (forallb is_digit mantissa) then None
  else if forallb is_zero_digit mantissa then Some [48]
  else
    let trimmed := drop_while is_zero_digit mantissa in
    let leading := Z.of_nat (length mantissa) - Z.of_nat (length trimmed) in
    let decimalPosition := integerDigits - leading + exponent in
    let mantissa := reverse (trim_zeros decimalPosition (reverse trimmed)) in
    let len := Z.of_nat (length mantissa) in
    let predicted :=
      if decimalPosition <=? 0 then len + (2 - decimalPosition)
      else if len <=? decimalPosition then decimalPosition
      else len + 1 in
    if resourceLimits && (maxEmbeddedJSONBytes <? predicted) || (predicted <? 0) then None
    else
      Some ((if negative : bool then [45] else [])
        ++ (if decimalPosition <=? 0 then [48; 46] ++ decimal_zeros (- decimalPosition) ++ mantissa
            else if len <=? decimalPosition then mantissa ++ decimal_zeros (decimalPosition - len)
            else take (Z.to_nat decimalPosition) mantissa ++ 46 :: drop (Z.to_nat decimalPosition) mantissa)).

(** ** Values *)

(** The [kind] of the code is the constructor; an object's map is its members
    in the order they were read. *)
Inductive embeddedValue :=
  | EString (text : string)
  | ENumber (text : list Z)
  | ELiteral (text : list Z)
  | EArray (array : list embeddedValue)
  | EObject (object : list (string * embeddedValue)).

Section containers.
Context (decode : list Z → option (embeddedValue * list Z)).

Fixpoint decode_items (fuel : nat) (l : list Z) : option (list embeddedValue * list Z) :=
  match fuel with
  | O => None
  | S fuel =>
      '(value, rest) ← decode l;
      match skip_space rest with
      | b :: rest =>
          if b =? 44 then '(values, rest) ← decode_items fuel rest; Some (value :: values, rest)
          else if b =? 93 then Some ([value], rest)
          else None
      | [] => None
      end
  end.

Fixpoint decode_members (fuel : nat) (seen : gset string) (l : list Z) : option (list (string * embeddedValue) * list Z) :=
  match fuel with
  | O => None
  | S fuel =>
      match skip_space l with
      | b :: l =>
          if negb (b =? 34) then None
          else
            '(key, rest) ← read_string (S (length l)) l;
            let key := of_runes key in
            if bool_decide (key ∈ seen) then None
            else
              match skip_space rest with
              | b :: rest =>
                  if negb (b =? 58) then None
                  else
                    '(value, rest) ← decode rest;
                    match skip_space rest with
                    | b :: rest =>
                        if b =? 44 then
                          '(members, rest) ← decode_members fuel ({[key]} ∪ seen) rest;
                          Some ((key, value) :: members, rest)
                        else if b =? 125 then Some ([(key, value)], rest)
                        else None
                    | [] => None
                    end
              | [] => None
              end
      | [] => None
      end
  end.
End containers.

(** The next value at [depth]; the fuel is the nesting that is left. *)
Fixpoint decodeEmbeddedValue (resourceLimits : bool) (fuel : nat) (depth : Z) (l : list Z) : option (embeddedValue * list Z) :=
  match fuel with
  | O => None
  | S fuel =>
      let decode := decodeEmbeddedValue resourceLimits fuel (depth + 1) in
      match skip_space l with
      | [] => None
      | b :: l1 =>
          if b =? 123 then
            if 64 <=? depth then None
            else
              match skip_space l1 with
              | c :: rest => if c =? 125 then Some (EObject [], rest)
                             else '(members, rest) ← decode_members decode (S (length l1)) ∅ l1; Some (EObject members, rest)
              | [] => None
              end
          else if b =? 91 then
            if 64 <=? depth then None
            else
              match skip_space l1 with
              | c :: rest => if c =? 93 then Some (EArray [], rest)
                             else '(values, rest) ← decode_items decode (S (length l1)) l1; Some (EArray values, rest)
              | [] => None
              end
          else if b =? 34 then
            '(text, rest) ← read_string (S (length l1)) l1; Some (EString (of_runes text), rest)
          else if b =? 116 then rest ← read_word (bs "true") (b :: l1); Some (ELiteral (bs "true"), rest)
          else if b =? 102 then rest ← read_word (bs "false") (b :: l1); Some (ELiteral (bs "false"), rest)
          else if b =? 110 then rest ← read_word (bs "null") (b :: l1); Some (ELiteral (bs "null"), rest)
          else
            '(text, rest) ← read_number (b :: l1);
            number ← normalizeJSONNumber text resourceLimits;
            Some (ENumber number, rest)
      end
  end.

(** ** Writing values *)

Definition within_bytes (resourceLimits : bool) (output : list Z) : option (list Z) :=
  if resourceLimits && (maxEmbeddedJSONBytes <? Z.of_nat (length output)) then None else Some output.

(** The elements of a container, with commas between them; an element writes
    to the output it is given. *)
Fixpoint emit_seq (output : list Z) (elements : list (list Z → option (list Z))) : option (list Z) :=
  match elements with
  | [] => Some output
  | [element] => element output
  | element :: elements => output ← element output; emit_seq (output ++ [44]) elements
  end.

Fixpoint emitEmbeddedValue (resourceLimits : bool) (value : embeddedValue) (output : list Z) : option (list Z) :=
  output ← match value with
    | EString text => Some (output ++ render_string text)
    | ENumber text | ELiteral text => Some (output ++ text)
    | EArray array =>
        output ← emit_seq (output ++ [91]) (emitEmbeddedValue resourceLimits <$> array);
        Some (output ++ [93])
    | EObject object =>
        let members := sort_by (less_by (λ m, [KS m.1]))
          ((λ m, (m.1, emitEmbeddedValue resourceLimits m.2)) <$> object) in
        output ← emit_seq (output ++ [123])
          ((λ m output, m.2 (output ++ render_string m.1 ++ [58])) <$> members);
        Some (output ++ [125])
    end;
  within_bytes resourceLimits output.

Definition canonicalEmbeddedJSONWithResourceLimits (input : string) (resourceLimits : bool) : res string :=
  throw_if (negb (valid_utf8 input) || resourceLimits && (maxEmbeddedJSONBytes <? go_len input))
    (projectionFailure "embeddedJSON" "invalid_utf8") ;;
  match decodeEmbeddedValue resourceLimits 65 0 (bytes_of input) with
  | None => Fail (projectionFailure "embeddedJSON" "invalid_source")
  | Some (value, rest) =>
      throw_if (negb (bool_decide (skip_space rest = []))) (projectionFailure "embeddedJSON" "invalid_source") ;;
      match emitEmbeddedValue resourceLimits value [] with
      | None => Fail (projectionFailure "embeddedJSON" "invalid_source")
      | Some output =>
          throw_if (resourceLimits && (maxEmbeddedJSONBytes <? Z.of_nat (length output)))
            (projectionFailure "embeddedJSON" "invalid_source") ;;
          mret (of_bytes output)
      end
  end.

Definition canonicalEmbeddedJSON (input : string) : res string :=
  canonicalEmbeddedJSONWithResourceLimits input true.
