(* ===== verification/JsonNumbers.v ===== *)
(** * Canonical numbers (application/projection/embedded_json.go)

    [normalizeJSONNumber] writes a literal in plain decimal notation.  Its
    result depends only on the sign, the significant digits and the position of
    the decimal point, and those are determined by the number the literal
    denotes. *)

From S2P Require Import Prelude GoString CatalogIdentity EmbeddedJson.

(** ** Digits *)

Definition digits (l : list Z) : Prop := Forall (λ b, is_digit b = true) l.

Lemma is_digit_range b : is_digit b = true ↔ 48 ≤ b ≤ 57.
Proof. unfold is_digit, in_range. lia. Qed.

Lemma digits_value_snoc l b : digits_value (l ++ [b]) = 10 * digits_value l + (b - 48).
Proof. unfold digits_value. by rewrite foldl_app. Qed.

Lemma digits_value_app l k : digits_value (l ++ k) = digits_value l * 10 ^ Z.of_nat (length k) + digits_value k.
Proof.
  induction k as [|b k IH] using rev_ind; [rewrite app_nil_r; unfold digits_value; cbn; lia|].
  rewrite app_assoc, !digits_value_snoc, IH, length_app, Nat2Z.inj_add. cbn [length].
  rewrite Z.pow_add_r by lia. lia.
Qed.

Lemma digits_value_zeros n : digits_value (replicate n 48) = 0.
Proof.
  induction n as [|n IH]; [done|].
  change (replicate (S n) 48) with ([48] ++ replicate n 48). by rewrite digits_value_app, IH.
Qed.

Lemma digits_value_cons b l : digits_value (b :: l) = (b - 48) * 10 ^ Z.of_nat (length l) + digits_value l.
Proof. change (b :: l) with ([b] ++ l). rewrite digits_value_app. unfold digits_value at 1. cbn. lia. Qed.

Lemma digits_value_bound l : digits l → 0 ≤ digits_value l < 10 ^ Z.of_nat (length l).
Proof.
  induction 1 as [|b l Hb _ IH]; [by vm_compute|]. apply is_digit_range in Hb.
  rewrite digits_value_cons. cbn [length]. rewrite Nat2Z.inj_succ, Z.pow_succ_r by lia. nia.
Qed.

Lemma digits_value_inj l k :
  digits l → digits k → length l = length k → digits_value l = digits_value k → l = k.
Proof.
  intros Hl. revert k. induction Hl as [|b l Hb Hl IH]; intros [|c k] Hk E Ev; try done.
  apply Forall_cons in Hk as [Hc Hk]. cbn in E. apply eq_add_S in E. rewrite !digits_value_cons, E in Ev.
  pose proof (digits_value_bound l Hl). pose proof (digits_value_bound k Hk). rewrite E in *.
  apply is_digit_range in Hb, Hc.
  assert (b = c) as -> by nia. f_equal. apply IH; [done|done|lia].
Qed.

(** ** Significant digits *)

(** Digits without leading or trailing zeros. *)
Record significant (l : list Z) : Prop := {
  sg_digits : digits l;
  sg_first : ∃ b k, l = b :: k ∧ b ≠ 48;
  sg_last : ∃ b k, l = k ++ [b] ∧ b ≠ 48;
}.

Lemma significant_bounds l : significant l →
  10 ^ (Z.of_nat (length l) - 1) ≤ digits_value l < 10 ^ Z.of_nat (length l) ∧ digits_value l mod 10 ≠ 0.
Proof.
  intros [Hd (b & k & -> & Hb) (c & m & E & Hc)].
  pose proof (digits_value_bound _ Hd) as Hv. split; [split; [|lia]|].
  - apply Forall_cons in Hd as [Hb' Hk]. apply is_digit_range in Hb'.
    pose proof (digits_value_bound k Hk). rewrite digits_value_cons. cbn [length].
    replace (Z.of_nat (S (length k)) - 1) with (Z.of_nat (length k)) by lia. nia.
  - rewrite E in *. apply Forall_app in Hd as [_ Hc'%Forall_inv]. apply is_digit_range in Hc'.
    rewrite digits_value_snoc, Z.add_comm, Z.mul_comm, Z.mod_add, Z.mod_small; lia.
Qed.

(** Equal magnitudes have equal significant digits and scale. *)
Lemma significant_unique l k x y :
  significant l → significant k → 0 ≤ x → 0 ≤ y →
  digits_value l * 10 ^ x = digits_value k * 10 ^ y → l = k ∧ x = y.
Proof.
  intros Hl Hk Hx Hy E.
  destruct (significant_bounds l Hl) as [Bl Ml], (significant_bounds k Hk) as [Bk Mk].
  assert (∀ n m x y, 0 ≤ x → x < y → n mod 10 ≠ 0 → n * 10 ^ x = m * 10 ^ y → False) as Hlt.
  { clear. intros n m x y Hx Hlt Hn E. replace y with (x + ((y - x - 1) + 1)) in E by lia.
    rewrite Z.pow_add_r, Z.pow_add_r in E by lia.
    assert (n = (m * 10 ^ (y - x - 1)) * 10) as -> by nia. by rewrite Z.mod_mul in Hn by lia. }
  destruct (Z.lt_trichotomy x y) as [H|[->|H]].
  - by destruct (Hlt (digits_value l) (digits_value k) x y).
  - split; [|done]. assert (digits_value l = digits_value k) as Ev by nia.
    apply digits_value_inj; [apply Hl|apply Hk| |done].
    assert (∀ n a b : nat, (10 ^ (Z.of_nat a - 1) ≤ Z.of_nat n < 10 ^ Z.of_nat a) →
      (10 ^ (Z.of_nat b - 1) ≤ Z.of_nat n < 10 ^ Z.of_nat b) → (a ≤ b)%nat) as Hle.
    { clear. intros n a b Ha Hb. destruct (decide (a ≤ b)%nat) as [|Hab]; [done|].
      assert (10 ^ Z.of_nat b ≤ 10 ^ (Z.of_nat a - 1)) by (apply Z.pow_le_mono_r; lia). lia. }
    assert (0 ≤ digits_value l) as Hpos by (apply digits_value_bound, Hl).
    rewrite <-(Z2Nat.id _ Hpos) in Bl. rewrite <-Ev, <-(Z2Nat.id _ Hpos) in Bk.
    pose proof (Hle _ _ _ Bl Bk). pose proof (Hle _ _ _ Bk Bl). lia.
  - by destruct (Hlt (digits_value k) (digits_value l) y x).
Qed.

(** The mantissa without its outer zeros. *)
Definition strip_left (l : list Z) : list Z := drop_while is_zero_digit l.
Definition strip_right (l : list Z) : list Z := reverse (drop_while is_zero_digit (reverse l)).
Definition strip (l : list Z) : list Z := strip_right (strip_left l).

Lemma drop_while_zeros l : l = replicate (length l - length (drop_while is_zero_digit l)) 48 ++ drop_while is_zero_digit l.
Proof.
  induction l as [|b l IH]; [done|]. cbn. unfold is_zero_digit at 1 3. destruct (Z.eqb_spec b 48) as [->|Hb].
  - assert (length (drop_while is_zero_digit l) ≤ length l)%nat by (rewrite IH at 2; rewrite length_app; lia).
    replace (S (length l) - length (drop_while is_zero_digit l))%nat
      with (S (length l - length (drop_while is_zero_digit l)))%nat by lia.
    cbn. by f_equal.
  - cbn [length]. by rewrite Nat.sub_diag.
Qed.

Lemma drop_while_length l : (length (drop_while is_zero_digit l) ≤ length l)%nat.
Proof. rewrite (drop_while_zeros l) at 2. rewrite length_app. lia. Qed.

Lemma drop_while_first l b k : drop_while is_zero_digit l = b :: k → b ≠ 48.
Proof.
  induction l as [|c l IH]; [done|]. cbn. unfold is_zero_digit at 1.
  destruct (Z.eqb_spec c 48); [done|]. by intros [= <- _].
Qed.

Lemma drop_while_nil l : drop_while is_zero_digit l = [] ↔ forallb is_zero_digit l = true.
Proof. induction l as [|b l IH]; [done|]. cbn. destruct (is_zero_digit b); [done|]. split; done. Qed.

Lemma strip_right_spec l : l = strip_right l ++ replicate (length l - length (strip_right l)) 48.
Proof.
  unfold strip_right. rewrite length_reverse. rewrite <-(length_reverse l) at 1.
  apply (inj reverse). rewrite reverse_app, reverse_involutive, reverse_replicate. apply drop_while_zeros.
Qed.

Lemma strip_right_length l : (length (strip_right l) ≤ length l)%nat.
Proof. unfold strip_right. rewrite length_reverse. etrans; [apply drop_while_length|]. by rewrite length_reverse. Qed.

Lemma strip_left_digits l : digits l → digits (strip_left l).
Proof. intros H. rewrite (drop_while_zeros l) in H. by apply Forall_app in H as [_ H]. Qed.

Lemma strip_right_digits l : digits l → digits (strip_right l).
Proof. intros H. rewrite (strip_right_spec l) in H. by apply Forall_app in H as [H _]. Qed.

Lemma strip_significant l : digits l → forallb is_zero_digit l = false → significant (strip l).
Proof.
  intros Hd Hz. unfold strip. destruct (strip_left l) as [|b k] eqn:E.
  { apply drop_while_nil in E. congruence. }
  pose proof (drop_while_first _ _ _ E) as Hb.
  assert (strip_right (b :: k) ≠ []) as Hne.
  { unfold strip_right. intros En%(f_equal reverse). rewrite reverse_involutive in En.
    apply drop_while_nil in En. rewrite forallb_Forall in En.
    rewrite Forall_forall in En. assert (b ∈ reverse (b :: k)) as Hin by (apply elem_of_reverse; left).
    apply En in Hin. unfold is_zero_digit in Hin. lia. }
  pose proof (strip_right_spec (b :: k)) as Es. destruct (strip_right (b :: k)) as [|c m] eqn:Er; [done|].
  cbn [app] in Es. injection Es as <- _. split.
  - rewrite <-Er. apply strip_right_digits. rewrite <-E. by apply strip_left_digits.
  - by exists b, m.
  - unfold strip_right in Er. destruct (drop_while is_zero_digit (reverse (b :: k))) as [|c r] eqn:Ed; [done|].
    exists c, (reverse r). rewrite <-Er, reverse_cons. split; [done|]. by eapply drop_while_first.
Qed.

(** ** The text of a number *)

Definition predicted_length (sig : list Z) (decimalPosition : Z) : Z :=
  let len := Z.of_nat (length sig) in
  if decimalPosition <=? 0 then len + (2 - decimalPosition)
  else if len <=? decimalPosition then decimalPosition
  else len + 1.

Definition decimal_digits (sig : list Z) (decimalPosition : Z) : list Z :=
  let len := Z.of_nat (length sig) in
  if decimalPosition <=? 0 then [48; 46] ++ decimal_zeros (- decimalPosition) ++ sig
  else if len <=? decimalPosition then sig ++ decimal_zeros (decimalPosition - len)
  else take (Z.to_nat decimalPosition) sig ++ 46 :: drop (Z.to_nat decimalPosition) sig.

Definition decimal_text (negative : bool) (sig : list Z) (decimalPosition : Z) : list Z :=
  (if negative then [45] else []) ++ decimal_digits sig decimalPosition.

Lemma trim_zeros_spec dp r :
  ∃ j, trim_zeros dp r = replicate j 48 ++ drop_while is_zero_digit r
    ∧ (j = 0%nat ∨ Z.of_nat (length (trim_zeros dp r)) ≤ dp).
Proof.
  induction r as [|b r IH]; [by exists 0%nat; split; [|left]|]. cbn.
  destruct (is_zero_digit b) eqn:Eb; cbn [andb].
  - destruct (Z.ltb_spec dp (Z.of_nat (S (length r)))) as [Hlt|Hge]; [exact IH|].
    unfold is_zero_digit in Eb. apply Z.eqb_eq in Eb as ->.
    exists (S (length r - length (drop_while is_zero_digit r))). cbn. split; [|right; lia].
    f_equal. apply drop_while_zeros.
  - exists 0%nat. split; [done|by left].
Qed.

(** Trailing zeros left of the decimal point are written either way. *)
Lemma trimmed_text l dp :
  let m := reverse (trim_zeros dp (reverse l)) in
  strip_right l ≠ [] →
  decimal_digits m dp = decimal_digits (strip_right l) dp
  ∧ predicted_length m dp = predicted_length (strip_right l) dp.
Proof.
  intros m Hne. destruct (trim_zeros_spec dp (reverse l)) as (j & Ej & Hj).
  assert (m = strip_right l ++ replicate j 48) as Em.
  { unfold m. by rewrite Ej, reverse_app, reverse_replicate. }
  destruct Hj as [->|Hj]; [rewrite Em, app_nil_r; done|].
  rewrite <-length_reverse in Hj. fold m in Hj. rewrite Em in Hj |- *. clear Ej Em m.
  rewrite length_app, length_replicate in Hj. assert (0 < length (strip_right l))%nat by (by destruct (strip_right l); [|cbn; lia]).
  unfold decimal_digits, predicted_length. rewrite !length_app, !length_replicate.
  destruct (Z.leb_spec dp 0); [lia|]. destruct (Z.leb_spec (Z.of_nat (length (strip_right l) + j)) dp); [|lia].
  destruct (Z.leb_spec (Z.of_nat (length (strip_right l))) dp); [|lia].
  split; [|done]. rewrite <-app_assoc. f_equal. unfold decimal_zeros. rewrite <-replicate_add. f_equal. lia.
Qed.

(** The position of the decimal point before the first significant digit. *)
Definition point (mantissa : list Z) (integerDigits exponent : Z) : Z :=
  integerDigits - (Z.of_nat (length mantissa) - Z.of_nat (length (strip_left mantissa))) + exponent.

Lemma predicted_nonneg sig dp : 0 ≤ predicted_length sig dp.
Proof. unfold predicted_length. destruct (Z.leb_spec dp 0); [lia|]. destruct (Z.leb_spec (Z.of_nat (length sig)) dp); lia. Qed.

(** What the function computes. *)
Lemma normalize_eq input limits negative m i e :
  number_parts input = Some (negative, m, i, e) →
  normalizeJSONNumber input limits =
    if bool_decide (m = []) || negb (forallb is_digit m) then None
    else if forallb is_zero_digit m then Some [48]
    else if limits && (maxEmbeddedJSONBytes <? predicted_length (strip m) (point m i e)) then None
    else Some (decimal_text negative (strip m) (point m i e)).
Proof.
  intros E. unfold normalizeJSONNumber. rewrite E. cbn [mbind option_bind].
  destruct (bool_decide _ || _) eqn:Ed; [done|].
  destruct (forallb is_zero_digit m) eqn:Ez; [done|].
  fold (strip_left m). fold (point m i e).
  apply orb_false_iff in Ed as [_ Ed%negb_false_iff%forallb_Forall].
  destruct (strip_significant m Ed Ez) as [_ (b & k & Eb & _) _].
  destruct (trimmed_text (strip_left m) (point m i e)) as [Et Ep]; [by unfold strip in Eb; rewrite Eb|].
  fold (strip m) in Et, Ep. unfold predicted_length, decimal_digits in Et, Ep. cbv zeta in Et, Ep |- *.
  rewrite Et, Ep. pose proof (predicted_nonneg (strip m) (point m i e)) as Hp.
  unfold predicted_length in Hp |- *. cbv zeta in Hp |- *.
  rewrite (proj2 (Z.ltb_ge _ 0) Hp), orb_false_r. done.
Qed.

(** ** The number a literal denotes *)

(** [(n, x)] is the number [n * 10 ^ x]. *)
Definition literal_value (input : list Z) : option (Z * Z) :=
  '(negative, mantissa, integerDigits, exponent) ← number_parts input;
  let n := digits_value mantissa in
  Some (if negative : bool then - n else n, exponent - (Z.of_nat (length mantissa) - integerDigits)).

Definition same_number (a b : Z * Z) : Prop :=
  a.1 * 10 ^ (a.2 - Z.min a.2 b.2) = b.1 * 10 ^ (b.2 - Z.min a.2 b.2).

(** The scale of the significant digits of a literal. *)
Lemma literal_significant m i e :
  ∃ t, 0 ≤ t ∧ digits_value m = digits_value (strip m) * 10 ^ t
    ∧ point m i e = e - (Z.of_nat (length m) - i) + t + Z.of_nat (length (strip m)).
Proof.
  pose proof (drop_while_zeros m) as El. fold (strip_left m) in El.
  pose proof (strip_right_spec (strip_left m)) as Er. fold (strip m) in Er.
  pose proof (drop_while_length m) as Hl. fold (strip_left m) in Hl.
  pose proof (strip_right_length (strip_left m)) as Hr. fold (strip m) in Hr.
  exists (Z.of_nat (length (strip_left m) - length (strip m))). split; [lia|]. split; [|unfold point; lia].
  rewrite El at 1. rewrite digits_value_app, digits_value_zeros, Z.mul_0_l, Z.add_0_l. rewrite Er at 1.
  rewrite digits_value_app, digits_value_zeros, length_replicate. lia.
Qed.

Lemma all_zero_value m : digits m → forallb is_zero_digit m = true ↔ digits_value m = 0.
Proof.
  intros Hd. split.
  - intros Hz%drop_while_nil. rewrite (drop_while_zeros m), Hz, app_nil_r. apply digits_value_zeros.
  - intros Hv. destruct (forallb is_zero_digit m) eqn:Hz; [done|]. exfalso.
    destruct (significant_bounds _ (strip_significant m Hd Hz)) as [_ Hm].
    destruct (literal_significant m 0 0) as (t & Ht & E & _). rewrite Hv in E.
    symmetry in E. apply Z.mul_eq_0 in E as [E|E]; [by rewrite E in Hm|].
    pose proof (Z.pow_pos_nonneg 10 t). lia.
Qed.

(** ** The canonical text reads back *)

Lemma cut_bytes_app sep l r : sep ∉ l → cut_bytes sep (l ++ sep :: r) = (l, Some r).
Proof.
  induction l as [|b l IH]; intros Hs; cbn; [by rewrite Z.eqb_refl|].
  apply not_elem_of_cons in Hs as [Hb Hs]. destruct (Z.eqb_spec b sep); [congruence|]. by rewrite IH.
Qed.

Lemma cut_bytes_none sep l : sep ∉ l → cut_bytes sep l = (l, None).
Proof.
  induction l as [|b l IH]; intros Hs; cbn; [done|].
  apply not_elem_of_cons in Hs as [Hb Hs]. destruct (Z.eqb_spec b sep); [congruence|]. by rewrite IH.
Qed.

Lemma digits_not_elem b l : digits l → is_digit b = false → b ∉ l.
Proof. intros Hl Hb Hin. rewrite (proj1 (Forall_forall _ _) Hl b Hin) in Hb. done. Qed.

Lemma number_parts_sign negative w r :
  digits w → w ≠ [] → number_parts ((if negative : bool then [45] else []) ++ w ++ r)
  = '(m, i, e) ← unsigned_parts (w ++ r); Some (negative, m, i, e).
Proof.
  intros Hw Hne. destruct w as [|b w]; [done|].
  apply Forall_cons in Hw as [Hb _]. apply is_digit_range in Hb.
  unfold number_parts. destruct negative; [done|]. cbn [app].
  by destruct (Z.eqb_spec b 45); [lia|].
Qed.

Lemma unsigned_parts_whole w : digits w → unsigned_parts w = Some (w, Z.of_nat (length w), 0).
Proof.
  intros Hw. unfold unsigned_parts.
  rewrite !cut_bytes_none by (by apply digits_not_elem). cbn. by rewrite app_nil_r.
Qed.

Lemma unsigned_parts_fraction w f : digits w → digits f →
  unsigned_parts (w ++ 46 :: f) = Some (w ++ f, Z.of_nat (length w), 0).
Proof.
  intros Hw Hf. unfold unsigned_parts.
  assert (∀ c, is_digit c = false → c ≠ 46 → c ∉ w ++ 46 :: f) as Hn.
  { intros c Hc H46 [Hin|[Hin|Hin]%elem_of_cons]%elem_of_app; [by eapply (digits_not_elem c w)|done|].
    by eapply (digits_not_elem c f). }
  rewrite !(cut_bytes_none _ (w ++ 46 :: f)) by (by apply Hn).
  cbn [mbind option_bind]. by rewrite cut_bytes_app by (by apply digits_not_elem).
Qed.

Lemma strip_left_zeros n l : strip_left (replicate n 48 ++ l) = strip_left l.
Proof. induction n; [done|]. cbn. done. Qed.

Lemma strip_right_zeros l n : strip_right (l ++ replicate n 48) = strip_right l.
Proof.
  unfold strip_right. rewrite reverse_app, reverse_replicate. f_equal. apply strip_left_zeros.
Qed.

Lemma drop_while_nonzero b l : b ≠ 48 → drop_while is_zero_digit (b :: l) = b :: l.
Proof. intros Hb. cbn. unfold is_zero_digit. by destruct (Z.eqb_spec b 48). Qed.

Lemma strip_left_significant l : significant l → ∀ r, strip_left (l ++ r) = l ++ r.
Proof. intros [_ (b & k & -> & Hb) _] r. by apply drop_while_nonzero. Qed.

Lemma strip_right_significant l : significant l → strip_right l = l.
Proof.
  intros [_ _ (b & k & -> & Hb)]. unfold strip_right.
  by rewrite reverse_snoc, drop_while_nonzero, reverse_cons, reverse_involutive.
Qed.

Lemma digits_zeros n : digits (decimal_zeros n).
Proof. by apply Forall_replicate. Qed.

(** The parts of a canonical text: its digits, and where the point is. *)
Lemma decimal_parts negative sig dp : significant sig →
  ∃ m i, number_parts (decimal_text negative sig dp) = Some (negative, m, i, 0)
    ∧ digits m ∧ forallb is_zero_digit m = false ∧ m ≠ [] ∧ strip m = sig ∧ point m i 0 = dp.
Proof.
  intros Hs. pose proof (sg_digits _ Hs) as Hd.
  destruct (sg_first _ Hs) as (b & k & Eb & Hb).
  assert (∀ m, digits m → strip m = sig → forallb is_zero_digit m = false ∧ m ≠ []) as Hnz.
  { intros m Hm Es. assert (forallb is_zero_digit m = false) as Hz; [|by destruct m].
    destruct (forallb is_zero_digit m) eqn:Hz; [|done]. apply drop_while_nil in Hz.
    unfold strip, strip_left in Es. rewrite Hz in Es. by rewrite <-Es in Eb. }
  assert (strip_left sig = sig) as Esl by (rewrite <-(app_nil_r sig); by apply strip_left_significant).
  assert (strip sig = sig) as Ess by (unfold strip; rewrite Esl; by apply strip_right_significant).
  unfold decimal_text, decimal_digits. cbv zeta. destruct (Z.leb_spec dp 0) as [H0|H0].
  - assert (digits (decimal_zeros (- dp) ++ sig)) as Hf by (apply Forall_app; split; [apply digits_zeros|done]).
    exists ([48] ++ decimal_zeros (- dp) ++ sig), 1.
    assert (strip_left ([48] ++ decimal_zeros (- dp) ++ sig) = sig) as Esl'.
    { unfold decimal_zeros. rewrite app_assoc. change ([48] ++ replicate ?n 48) with (replicate (S n) 48).
      by rewrite strip_left_zeros. }
    assert (strip ([48] ++ decimal_zeros (- dp) ++ sig) = sig) as Est
      by (unfold strip; rewrite Esl'; by apply strip_right_significant).
    assert (digits [48]) as H48 by (repeat constructor).
    split; [|split; [by apply Forall_app|destruct (Hnz _ (proj2 (Forall_app _ _ _) (conj H48 Hf)) Est) as [??]]].
    + change ([48; 46] ++ decimal_zeros (- dp) ++ sig) with ([48] ++ 46 :: (decimal_zeros (- dp) ++ sig)).
      rewrite number_parts_sign by done. by rewrite unsigned_parts_fraction.
    + split_and!; [done|done|done|]. unfold point. rewrite Esl'. unfold decimal_zeros.
      rewrite !length_app, length_replicate. cbn [length]. lia.
  - destruct (Z.leb_spec (Z.of_nat (length sig)) dp) as [Hl|Hl].
    + assert (digits (sig ++ decimal_zeros (dp - Z.of_nat (length sig)))) as Hm
        by (apply Forall_app; split; [done|apply digits_zeros]).
      exists (sig ++ decimal_zeros (dp - Z.of_nat (length sig))), (Z.of_nat (length (sig ++ decimal_zeros (dp - Z.of_nat (length sig))))).
      assert (strip (sig ++ decimal_zeros (dp - Z.of_nat (length sig))) = sig) as Est.
      { unfold strip. rewrite strip_left_significant by done. unfold decimal_zeros.
        rewrite strip_right_zeros. by apply strip_right_significant. }
      destruct (Hnz _ Hm Est) as [Hz Hne]. split_and!; try done.
      * rewrite <-(app_nil_r (sig ++ _)) at 1. rewrite number_parts_sign by done.
        by rewrite app_nil_r, unsigned_parts_whole.
      * unfold point. rewrite strip_left_significant by done. unfold decimal_zeros.
        rewrite length_app, length_replicate. lia.
    + exists sig, dp. destruct (Hnz sig Hd Ess) as [Hz Hne]. split_and!; try done.
      * pose proof (take_drop (Z.to_nat dp) sig) as Etd. rewrite <-Etd in Hd. apply Forall_app in Hd as [Ht Hdr].
        assert (take (Z.to_nat dp) sig ≠ []) as Hne'.
        { rewrite Eb. destruct (Z.to_nat dp) eqn:E; [lia|done]. }
        rewrite number_parts_sign by done. rewrite unsigned_parts_fraction by done. cbn [mbind option_bind].
        rewrite Etd, length_take. do 3 f_equal. lia.
      * unfold point. rewrite Esl. lia.
Qed.

Lemma normalize_shape input limits out :
  normalizeJSONNumber input limits = Some out →
  ∃ negative m i e, number_parts input = Some (negative, m, i, e) ∧ digits m ∧ m ≠ []
    ∧ if forallb is_zero_digit m then out = [48]
      else out = decimal_text negative (strip m) (point m i e)
           ∧ limits && (maxEmbeddedJSONBytes <? predicted_length (strip m) (point m i e)) = false.
Proof.
  intros E. destruct (number_parts input) as [[[[negative m] i] e]|] eqn:Ep;
    [|by unfold normalizeJSONNumber in E; rewrite Ep in E].
  rewrite (normalize_eq _ _ _ _ _ _ Ep) in E. exists negative, m, i, e.
  destruct (bool_decide _ || _) eqn:Ed; [done|].
  apply orb_false_iff in Ed as [Hne%bool_decide_eq_false Hd%negb_false_iff%forallb_Forall].
  split; [done|]. split; [done|]. split; [done|].
  destruct (forallb is_zero_digit m); [congruence|]. destruct (_ && _); [done|]. by injection E as <-.
Qed.

Lemma normalize_idem input limits out :
  normalizeJSONNumber input limits = Some out → normalizeJSONNumber out limits = Some out.
Proof.
  intros (negative & m & i & e & _ & Hd & Hne & Hout)%normalize_shape.
  destruct (forallb is_zero_digit m) eqn:Hz; [by subst|]. destruct Hout as [-> Hlim].
  destruct (decimal_parts negative (strip m) (point m i e)) as (m' & i' & Ep & Hd' & Hz' & Hne' & Es & Epo).
  { by apply strip_significant. }
  rewrite (normalize_eq _ _ _ _ _ _ Ep), Hz', Es, Epo, Hlim, bool_decide_eq_false_2 by done.
  by rewrite (proj2 (forallb_Forall _ _) Hd').
Qed.

(** Canonical texts are equal exactly for the same number. *)
Lemma signed_scale (neg neg' : bool) (a b x y : Z) :
  0 < a → 0 < b → 0 ≤ x → 0 ≤ y →
  (if neg then - a else a) * 10 ^ x = (if neg' then - b else b) * 10 ^ y ↔
  neg = neg' ∧ a * 10 ^ x = b * 10 ^ y.
Proof.
  intros Ha Hb Hx Hy. pose proof (Z.pow_pos_nonneg 10 x). pose proof (Z.pow_pos_nonneg 10 y).
  destruct neg, neg'; (split; [intros E|intros [? E]]); try done; try (split; [done|]); nia.
Qed.

Lemma significant_positive l : significant l → 0 < digits_value l.
Proof.
  intros Hl. destruct (significant_bounds l Hl) as [[Hb _] _].
  destruct (sg_first l Hl) as (b & k & -> & _). cbn [length] in Hb.
  pose proof (Z.pow_pos_nonneg 10 (Z.of_nat (S (length k)) - 1)). lia.
Qed.

Lemma same_significant (neg neg' : bool) m m' i i' e e' :
  significant (strip m) → significant (strip m') →
  same_number (if neg then - digits_value m else digits_value m, e - (Z.of_nat (length m) - i))
    (if neg' then - digits_value m' else digits_value m', e' - (Z.of_nat (length m') - i'))
  ↔ neg = neg' ∧ strip m = strip m' ∧ point m i e = point m' i' e'.
Proof.
  intros Hs Hs'. destruct (literal_significant m i e) as (t & Ht & -> & ->).
  destruct (literal_significant m' i' e') as (t' & Ht' & -> & ->).
  generalize (e - (Z.of_nat (length m) - i)) as x, (e' - (Z.of_nat (length m') - i')) as y. intros x y.
  pose proof (significant_positive _ Hs) as Hp. pose proof (significant_positive _ Hs') as Hp'.
  unfold same_number. cbn [fst snd].
  assert (0 < digits_value (strip m) * 10 ^ t) by (pose proof (Z.pow_pos_nonneg 10 t); nia).
  assert (0 < digits_value (strip m') * 10 ^ t') by (pose proof (Z.pow_pos_nonneg 10 t'); nia).
  rewrite signed_scale by lia. rewrite <-!Z.mul_assoc, <-!Z.pow_add_r by lia. split.
  - intros [-> [Es Ex]%significant_unique]; [|done|done|lia|lia]. split; [done|]. split; [done|].
    rewrite Es. lia.
  - intros (-> & Es & Ex). rewrite Es in *. split; [done|]. f_equal. f_equal. lia.
Qed.

Lemma canonical_number_exact a b limits x y va vb :
  normalizeJSONNumber a limits = Some x → normalizeJSONNumber b limits = Some y →
  literal_value a = Some va → literal_value b = Some vb →
  x = y ↔ same_number va vb.
Proof.
  intros (neg & m & i & e & Ep & Hd & Hne & Hx)%normalize_shape
    (neg' & m' & i' & e' & Ep' & Hd' & Hne' & Hy)%normalize_shape.
  unfold literal_value. rewrite Ep, Ep'. cbn [mbind option_bind]. intros [= <-] [= <-].
  assert (∀ (n : bool) (v k : Z), 0 ≤ k → (if n : bool then - v else v) * 10 ^ k = 0 ↔ v = 0) as Hnz.
  { intros n v k Hk. pose proof (Z.pow_pos_nonneg 10 k). destruct n; nia. }
  assert (∀ (sig : list Z) (dp : Z) (n : bool), significant sig → [48] ≠ decimal_text n sig dp) as Hzt.
  { intros sig dp n Hs E. destruct (decimal_parts n sig dp Hs) as (k & j & Ek & _ & Hk & _ & _ & _).
    rewrite <-E in Ek. by injection Ek as _ <- _. }
  destruct (forallb is_zero_digit m) eqn:Hz, (forallb is_zero_digit m') eqn:Hz'.
  - subst. split; [|done]. intros _. apply all_zero_value in Hz, Hz'; [|done..]. unfold same_number. cbn [fst snd].
    rewrite Hz, Hz'. by destruct neg, neg'.
  - destruct Hy as [-> _]. subst x. pose proof (strip_significant _ Hd' Hz') as Hs. split; [by intros ?%Hzt|].
    unfold same_number. cbn [fst snd]. rewrite (proj1 (all_zero_value m Hd) Hz). intros E. exfalso.
    assert (digits_value m' = 0) as E0.
    { eapply (Hnz neg'); [|rewrite <-E; by destruct neg]. lia. }
    apply all_zero_value in E0; [congruence|done].
  - destruct Hx as [-> _]. subst y. pose proof (strip_significant _ Hd Hz) as Hs. split; [by intros ?%eq_sym%Hzt|].
    unfold same_number. cbn [fst snd]. rewrite (proj1 (all_zero_value m' Hd') Hz'). intros E. exfalso.
    assert (digits_value m = 0) as E0.
    { eapply (Hnz neg); [|rewrite E; by destruct neg']. lia. }
    apply all_zero_value in E0; [congruence|done].
  - destruct Hx as [-> _], Hy as [-> _].
    pose proof (strip_significant _ Hd Hz) as Hs. pose proof (strip_significant _ Hd' Hz') as Hs'.
    rewrite same_significant by done. split; [|by intros (-> & -> & ->)]. intros E.
    destruct (decimal_parts neg _ (point m i e) Hs) as (k & j & Ek & _ & _ & _ & <- & <-).
    destruct (decimal_parts neg' _ (point m' i' e') Hs') as (k' & j' & Ek' & _ & _ & _ & <- & <-).
    rewrite E, Ek' in Ek. by injection Ek as <- <- <-.
Qed.

(** ** The canonical text is a number token *)

(** What may follow a number. *)
Definition number_end (t : list Z) : Prop :=
  ∀ b r, t = b :: r → is_digit b = false ∧ b ≠ 46 ∧ b ≠ 101 ∧ b ≠ 69.

Lemma span_digits_app l t : digits l → (∀ b r, t = b :: r → is_digit b = false) → span_digits (l ++ t) = (l, t).
Proof.
  intros Hl Ht. induction Hl as [|b l Hb Hl IH]; cbn.
  - destruct t as [|b r]; [done|]. cbn. by rewrite (Ht b r).
  - by rewrite Hb, IH.
Qed.

Lemma read_fraction_end t : number_end t → read_fraction t = Some ([], t).
Proof.
  intros Ht. destruct t as [|b r]; [done|]. cbn. destruct (Ht b r) as (_ & H & _); [done|].
  by destruct (Z.eqb_spec b 46).
Qed.

Lemma read_exponent_end t : number_end t → read_exponent t = Some ([], t).
Proof.
  intros Ht. destruct t as [|b r]; [done|]. cbn. destruct (Ht b r) as (_ & _ & H1 & H2); [done|].
  by destruct (Z.eqb_spec b 101), (Z.eqb_spec b 69).
Qed.

Lemma read_fraction_digits f t : digits f → f ≠ [] → number_end t → read_fraction (46 :: f ++ t) = Some (46 :: f, t).
Proof.
  intros Hf Hne Ht. cbn. rewrite span_digits_app; [|done|intros b r E; by apply (Ht b r)].
  by rewrite bool_decide_eq_false_2.
Qed.

(** A sign, a whole part that is 0 or starts with another digit, and maybe a
    fraction. *)
Lemma read_number_app (negative : bool) w f t :
  digits w → (∃ b k, w = b :: k ∧ (b = 48 → k = [])) → digits f → number_end t →
  let text := (if negative then [45] else []) ++ w ++ (if decide (f = []) then [] else 46 :: f) in
  read_number (text ++ t) = Some (text, t).
Proof.
  intros Hw (b & k & -> & Hb) Hf Ht text.
  assert (read_fraction ((if decide (f = []) then [] else 46 :: f) ++ t)
          = Some (if decide (f = []) then [] else 46 :: f, t)) as Hfr.
  { destruct (decide (f = [])); [by apply read_fraction_end|by apply read_fraction_digits]. }
  assert (∀ b r, (if decide (f = []) then [] else 46 :: f) ++ t = b :: r → is_digit b = false) as Hend.
  { intros c r. destruct (decide (f = [])); [intros E; by apply (Ht c r)|by intros [= <- _]]. }
  pose proof (Forall_inv Hw) as Hb'. cbv beta in Hb'. apply is_digit_range in Hb'.
  unfold read_number, text. rewrite <-!app_assoc.
  assert ((if b =? 48 then ([48], k ++ (if decide (f = []) then [] else 46 :: f) ++ t)
           else span_digits ((b :: k) ++ (if decide (f = []) then [] else 46 :: f) ++ t))
          = (b :: k, (if decide (f = []) then [] else 46 :: f) ++ t)) as Hspan.
  { destruct (Z.eqb_spec b 48) as [->|Hne]; [by rewrite Hb|by apply span_digits_app]. }
  destruct negative; cbn [app] in *; [rewrite Z.eqb_refl|destruct (Z.eqb_spec b 45); [lia|]];
    rewrite Hspan; cbn [mbind option_bind]; rewrite bool_decide_eq_false_2 by done;
    rewrite Hfr; cbn [mbind option_bind]; rewrite read_exponent_end by done; cbn [mbind option_bind]; by rewrite app_nil_r.
Qed.

Lemma read_decimal_text negative sig dp t : significant sig → number_end t →
  read_number (decimal_text negative sig dp ++ t) = Some (decimal_text negative sig dp, t).
Proof.
  intros Hs Ht. pose proof (sg_digits _ Hs) as Hd. destruct (sg_first _ Hs) as (b & k & Eb & Hb).
  unfold decimal_text, decimal_digits. cbv zeta. destruct (Z.leb_spec dp 0) as [H0|H0].
  - pose proof (read_number_app negative [48] (decimal_zeros (- dp) ++ sig) t) as Hr. cbv zeta in Hr.
    rewrite decide_False in Hr by (rewrite Eb; by destruct (decimal_zeros (- dp))).
    apply Hr; [by repeat constructor|by exists 48, []|apply Forall_app; split; [apply digits_zeros|done]|done].
  - destruct (Z.leb_spec (Z.of_nat (length sig)) dp) as [Hl|Hl].
    + pose proof (read_number_app negative (sig ++ decimal_zeros (dp - Z.of_nat (length sig))) [] t) as Hr.
      cbv zeta in Hr. rewrite decide_True, app_nil_r in Hr by done. apply Hr; [| |by constructor|done].
      * apply Forall_app; split; [done|apply digits_zeros].
      * rewrite Eb. eexists b, _. split; [done|]. by intros ->.
    + pose proof (read_number_app negative (take (Z.to_nat dp) sig) (drop (Z.to_nat dp) sig) t) as Hr.
      cbv zeta in Hr. pose proof (take_drop (Z.to_nat dp) sig) as Etd.
      assert (drop (Z.to_nat dp) sig ≠ []) as Hne.
      { intros E%(f_equal length). rewrite length_drop in E. cbn in E. lia. }
      rewrite decide_False in Hr by done. rewrite <-Etd in Hd. apply Forall_app in Hd as [Hd1 Hd2].
      apply Hr; [done| |done|done]. rewrite Eb. destruct (Z.to_nat dp) eqn:E; [lia|].
      eexists b, _. split; [done|]. by intros ->.
Qed.

(** A text the normalisation produces is read back whole. *)
Lemma read_canonical_number input limits out t :
  normalizeJSONNumber input limits = Some out → number_end t → read_number (out ++ t) = Some (out, t).
Proof.
  intros (negative & m & i & e & _ & Hd & _ & Hout)%normalize_shape Ht.
  destruct (forallb is_zero_digit m) eqn:Hz.
  - subst. apply (read_number_app false [48] [] t); [by repeat constructor|by exists 48, []|by constructor|done].
  - destruct Hout as [-> _]. by apply read_decimal_text, Ht; apply strip_significant.
Qed.
