(* ===== verification/EmbeddedRoundtrip.v ===== *)
(** * Canonical embedded JSON reads back (application/projection/embedded_json.go)

    The canonical text of a value is read back as the same value, with its
    members sorted, so canonicalising it again changes nothing. *)

From S2P Require Import Prelude GoString GoJson CatalogIdentity EmbeddedJson JsonNumbers.

(** ** Strings *)

Lemma hex_value_range b v : hex_value b = Some v → 0 ≤ v < 16.
Proof. unfold hex_value, in_range. repeat case_match; intros [= <-]; bool_prop; lia. Qed.

Lemma hex_value_digit n : 0 ≤ n < 16 → hex_value (hex_digit n) = Some n.
Proof.
  intros Hn. unfold hex_value, hex_digit, in_range.
  destruct (Z.ltb_spec n 10); repeat case_match; bool_prop; try lia; f_equal; lia.
Qed.

Lemma read_u4_range l u rest : read_u4 l = Some (u, rest) → 0 ≤ u ≤ 0xFFFF.
Proof.
  destruct l as [|h1 [|h2 [|h3 [|h4 l]]]]; try done. cbn.
  destruct (hex_value h1) eqn:E1; [|done]. destruct (hex_value h2) eqn:E2; [|done].
  destruct (hex_value h3) eqn:E3; [|done]. destruct (hex_value h4) eqn:E4; [|done]. cbn. intros [= <- _].
  apply hex_value_range in E1, E2, E3, E4. lia.
Qed.

Lemma read_u4_hex4 r l : 0 ≤ r ≤ 0xFFFF → read_u4 (hex4 r ++ l) = Some (r, l).
Proof.
  intros Hr. unfold hex4, read_u4. cbn [app].
  rewrite !hex_value_digit by (apply Z.mod_pos_bound; lia). cbn [mbind option_bind]. do 2 f_equal.
  Z.to_euclidean_division_equations; lia.
Qed.

Lemma scalar_range r : is_scalar r = true ↔ 0 ≤ r < 0xD800 ∨ 0xE000 ≤ r ≤ 0x10FFFF.
Proof. unfold is_scalar. lia. Qed.

Lemma read_character_scalar l r rest : read_character l = Some (r, rest) → is_scalar r = true.
Proof.
  destruct l as [|b l]; [done|]. unfold read_character. destruct (b <? 32); [done|].
  destruct (b =? 92).
  - destruct l as [|c l]; [done|]. destruct (simple_escape c) as [s|] eqn:Es.
    { intros [= <- _]. unfold simple_escape in Es. apply scalar_range.
      repeat case_match; simplify_eq; bool_prop; lia. }
    destruct (c =? 117); [|done]. unfold read_unicode.
    destruct (read_u4 l) as [[u l1]|] eqn:Eu; [|done]. apply read_u4_range in Eu. cbn [mbind option_bind].
    unfold in_range. destruct ((0xD800 <=? u) && (u <=? 0xDFFF)) eqn:Hu.
    + repeat (case_match; try done); intros [= <- _]; try done.
      apply scalar_range. bool_prop. lia.
    + intros [= <- _]. apply scalar_range. bool_prop. lia.
  - destruct (decode1 (b :: l)) as [[s|] k] eqn:Ed; intros [= <- _]; [|done].
    by apply decode1_some in Ed as [? _].
Qed.

Lemma read_string_scalars fuel l rs rest : read_string fuel l = Some (rs, rest) → scalars rs.
Proof.
  revert l rs rest. induction fuel as [|fuel IH]; intros l rs rest; cbn; [done|].
  destruct l as [|b l]; [done|]. destruct (b =? 34); [intros [= <- _]; constructor|].
  destruct (read_character (b :: l)) as [[r l1]|] eqn:Er; [|done]. cbn [mbind option_bind].
  destruct (read_string fuel l1) as [[rs' l2]|] eqn:Es; [|done]. cbn [mbind option_bind]. intros [= <- _].
  constructor; [by eapply read_character_scalar|by eapply IH].
Qed.

(** An escaped character reads back. *)
Lemma read_character_escape r l : is_scalar r = true → read_character (escape_rune r ++ l) = Some (r, l).
Proof.
  intros Hr. unfold escape_rune. repeat (case_match; [bool_prop; subst; done|]). case_match.
  - assert (0 ≤ r ≤ 0xFFFF ∧ (r < 0xD800 ∨ 0xDFFF < r)) as [Hrange Hsur].
    { apply scalar_range in Hr. bool_prop. lia. }
    cbn [app read_character]. rewrite Z.eqb_refl. change (92 <? 32) with false. cbv iota.
    change (simple_escape 117) with (@None Z). cbv iota. rewrite Z.eqb_refl. unfold read_unicode.
    rewrite read_u4_hex4 by lia. cbn [mbind option_bind].
    replace (in_range 0xD800 0xDFFF r) with false by (symmetry; unfold in_range; lia). done.
  - bool_prop. destruct (encode_rune r) as [|b k] eqn:E;
      [by destruct (encode_rune_cons r) as (? & ? & ?); congruence|].
    assert (b ≠ 92 ∧ 32 ≤ b) as [Hb Hb'].
    { destruct (encode_rune_head _ _ _ Hr E) as [->|]; apply scalar_range in Hr; lia. }
    cbn [app read_character]. replace (b <? 32) with false by lia. replace (b =? 92) with false by lia.
    rewrite app_comm_cons, <-E, (decode1_encode _ _ Hr). cbn. by rewrite drop_app_length.
Qed.

Lemma read_string_escape rs t fuel : scalars rs → (length rs < fuel)%nat →
  read_string fuel ((rs ≫= escape_rune) ++ 34 :: t) = Some (rs, t).
Proof.
  intros Hrs. revert fuel. induction Hrs as [|r rs Hr Hrs IH]; intros [|fuel] Hf; cbn [length] in Hf; try lia; [done|].
  cbn [mbind list_bind]. rewrite <-app_assoc.
  destruct (escape_rune_head r Hr) as (b & k & E & Hb).
  pose proof (read_character_escape r ((rs ≫= escape_rune) ++ 34 :: t) Hr) as Hc.
  rewrite E in Hc |- *. cbn [app] in Hc |- *. cbn [read_string]. destruct (Z.eqb_spec b 34); [done|].
  rewrite Hc. cbn [mbind option_bind]. change (list_bind _ _ escape_rune rs) with (rs ≫= escape_rune).
  rewrite IH by lia. done.
Qed.

Lemma escape_length rs : scalars rs → (length rs ≤ length (rs ≫= escape_rune))%nat.
Proof.
  induction 1 as [|r rs Hr Hrs IH]; [done|].
  change ((r :: rs) ≫= escape_rune) with (escape_rune r ++ (rs ≫= escape_rune)). rewrite length_app.
  destruct (escape_rune_head r Hr) as (b & k & -> & _). cbn [length]. lia.
Qed.

Lemma render_runes rs : scalars rs → render_string (of_runes rs) = 34 :: (rs ≫= escape_rune) ++ [34].
Proof.
  intros Hrs. unfold render_string. by rewrite bytes_of_runes, (decode_encode _ Hrs), list_fmap_bind.
Qed.

(** ** Well-formed output *)

(** Bytes that are the encoding of characters. *)
Definition encoded (l : list Z) : Prop := ∃ rs, scalars rs ∧ l = encode rs.

Lemma encoded_app l k : encoded l → encoded k → encoded (l ++ k).
Proof.
  intros (rs & Hrs & ->) (ss & Hss & ->). exists (rs ++ ss). split; [by apply Forall_app|].
  unfold encode. by rewrite bind_app.
Qed.

Lemma encoded_nil : encoded [].
Proof. exists []. split; [constructor|done]. Qed.

Lemma encoded_ascii l : Forall (λ b, 0 ≤ b < 128) l → encoded l.
Proof.
  induction 1 as [|b l Hb Hl IH]; [apply encoded_nil|]. apply (encoded_app [b]); [|done].
  exists [b]. split; [repeat constructor; apply scalar_range; lia|].
  assert (is_scalar b = true) as Hs by (apply scalar_range; lia).
  unfold encode. cbn [mbind list_bind]. unfold encode_rune. rewrite Hs. cbn [negb].
  by destruct (Z.leb_spec b 127); [|lia].
Qed.

Lemma encoded_rune r : is_scalar r = true → encoded (encode_rune r).
Proof. intros Hr. exists [r]. split; [by repeat constructor|]. unfold encode. cbn. by rewrite app_nil_r. Qed.

Lemma hex_digit_ascii n : 0 ≤ n < 16 → 0 ≤ hex_digit n < 128.
Proof. unfold hex_digit. intros. case_match; lia. Qed.

Lemma encoded_escape r : is_scalar r = true → encoded (escape_rune r).
Proof.
  intros Hr. unfold escape_rune. repeat (case_match; [apply encoded_ascii; repeat constructor; lia|]).
  case_match; [|by apply encoded_rune]. apply encoded_ascii. unfold hex4.
  repeat (constructor; [try lia; apply hex_digit_ascii, Z.mod_pos_bound; lia|]). constructor.
Qed.

Lemma encoded_string rs : scalars rs → encoded (render_string (of_runes rs)).
Proof.
  intros Hrs. rewrite render_runes by done. apply (encoded_app [34]); [by apply encoded_ascii; repeat constructor|].
  apply encoded_app; [|by apply encoded_ascii; repeat constructor].
  induction Hrs as [|r rs Hr Hrs IH]; [apply encoded_nil|]. by apply encoded_app; [apply encoded_escape|].
Qed.

Lemma encoded_valid l : encoded l → valid_utf8 (of_bytes l) = true ∧ bytes_of (of_bytes l) = l.
Proof.
  intros (rs & Hrs & ->). split; [by apply valid_of_runes|]. by apply bytes_of_runes.
Qed.

(** ** Values *)

Section value_ind.
Context (P : embeddedValue → Prop).
Context (Hs : ∀ t, P (EString t)) (Hn : ∀ t, P (ENumber t)) (Hl : ∀ t, P (ELiteral t))
        (Ha : ∀ l, Forall P l → P (EArray l))
        (Ho : ∀ l, Forall (λ m : string * embeddedValue, P m.2) l → P (EObject l)).
Fixpoint value_ind' (v : embeddedValue) : P v :=
  match v with
  | EString t => Hs t
  | ENumber t => Hn t
  | ELiteral t => Hl t
  | EArray l =>
      Ha l ((fix go (l : list embeddedValue) : Forall P l :=
        match l with
        | [] => Forall_nil_2 _
        | x :: l => Forall_cons_2 _ _ _ (value_ind' x) (go l)
        end) l)
  | EObject l =>
      Ho l ((fix go (l : list (string * embeddedValue)) : Forall (λ m, P m.2) l :=
        match l with
        | [] => Forall_nil_2 _
        | x :: l => Forall_cons_2 _ _ _ (value_ind' x.2) (go l)
        end) l)
  end.
End value_ind.

Definition member_order {A} (m : string * A) : list okey := [KS m.1].

(** The value with the members of every object sorted. *)
Fixpoint sorted_value (v : embeddedValue) : embeddedValue :=
  match v with
  | EArray l => EArray (sorted_value <$> l)
  | EObject l => EObject (sort_by (less_by member_order) ((λ m, (m.1, sorted_value m.2)) <$> l))
  | _ => v
  end.

Definition member_text (m : string * list Z) : list Z := render_string m.1 ++ 58 :: m.2.

(** The canonical text. *)
Fixpoint text (v : embeddedValue) : list Z :=
  match v with
  | EString s => render_string s
  | ENumber t | ELiteral t => t
  | EArray l => 91 :: render_seq text l ++ [93]
  | EObject l =>
      123 :: render_seq member_text (sort_by (less_by member_order) ((λ m, (m.1, text m.2)) <$> l)) ++ [125]
  end.

Lemma insert_by_fmap {A B} (f : A → B) less less' x l :
  (∀ x y, less' (f x) (f y) = less x y) → insert_by less' (f x) (f <$> l) = f <$> insert_by less x l.
Proof. intros Hl. induction l as [|y l IH]; [done|]. cbn. rewrite Hl. destruct (less y x); [|done]. cbn. by f_equal. Qed.

Lemma sort_by_fmap {A B} (f : A → B) less less' l :
  (∀ x y, less' (f x) (f y) = less x y) → sort_by less' (f <$> l) = f <$> sort_by less l.
Proof. intros Hl. induction l as [|x l IH]; [done|]. cbn. rewrite IH. by apply insert_by_fmap. Qed.

Lemma sort_members {A B} (f : A → B) (l : list (string * A)) :
  sort_by (less_by member_order) ((λ m, (m.1, f m.2)) <$> l) = (λ m, (m.1, f m.2)) <$> sort_by (less_by member_order) l.
Proof. by apply sort_by_fmap. Qed.

Lemma render_seq_fmap {A B} (f : B → list Z) (g : A → B) l : render_seq f (g <$> l) = render_seq (λ x, f (g x)) l.
Proof. induction l as [|x [|y l] IH]; [done|done|]. cbn in *. by rewrite IH. Qed.

Lemma render_seq_ext {A} (f g : A → list Z) l : Forall (λ x, f x = g x) l → render_seq f l = render_seq g l.
Proof.
  induction 1 as [|x l Hx Hl IH]; [done|]. destruct l as [|y l]; [done|].
  rewrite !render_seq_cons. by rewrite Hx, IH.
Qed.

Lemma text_object l :
  text (EObject l) = 123 :: render_seq (λ m, member_text (m.1, text m.2)) (sort_by (less_by member_order) l) ++ [125].
Proof. cbn. by rewrite sort_members, render_seq_fmap. Qed.

Lemma text_sorted v : text (sorted_value v) = text v.
Proof.
  induction v as [t|t|t|l IH|l IH] using value_ind'; try done.
  - cbn [sorted_value text]. rewrite render_seq_fmap. do 2 f_equal. by apply render_seq_ext.
  - cbn [sorted_value]. rewrite !text_object, sort_by_idem, sort_members, render_seq_fmap. do 2 f_equal.
    apply render_seq_ext. cbn [fst snd]. apply sort_by_Forall. eapply Forall_impl; [exact IH|].
    by intros m ->.
Qed.

(** *** Writing *)

Lemma within_bytes_ok limits l o : within_bytes limits l = Some o ↔
  o = l ∧ (limits = true → Z.of_nat (length l) ≤ maxEmbeddedJSONBytes).
Proof.
  unfold within_bytes. destruct limits; cbn [andb].
  - destruct (Z.ltb_spec maxEmbeddedJSONBytes (Z.of_nat (length l))); split; [done|intros [_ H']; by specialize (H' eq_refl); lia| |].
    + intros [= <-]. by split.
    + by intros [-> _].
  - split; [intros [= <-]; by split|by intros [-> _]].
Qed.

(** An element writer that appends [f x] within the limit. *)
Definition appends (limits : bool) (w : list Z → option (list Z)) (t : list Z) : Prop :=
  ∀ output o, w output = Some o → o = output ++ t.
Definition succeeds (limits : bool) (w : list Z → option (list Z)) (t : list Z) : Prop :=
  ∀ output, (limits = true → Z.of_nat (length (output ++ t)) ≤ maxEmbeddedJSONBytes) → w output = Some (output ++ t).

Lemma emit_seq_appends limits {A} (w : A → list Z → option (list Z)) (f : A → list Z) l :
  Forall (λ x, appends limits (w x) (f x)) l → appends limits (λ output, emit_seq output (w <$> l)) (render_seq f l).
Proof.
  induction 1 as [|x l Hx Hl IH]; intros output o; cbn; [intros [= <-]; by rewrite app_nil_r|].
  destruct l as [|y l]; cbn in *; [by apply Hx|].
  destruct (w x output) as [o1|] eqn:E; [|done]. cbn. intros Eo. apply Hx in E as ->. apply IH in Eo as ->.
  by rewrite <-!app_assoc.
Qed.

Lemma emit_seq_succeeds limits {A} (w : A → list Z → option (list Z)) (f : A → list Z) l :
  Forall (λ x, succeeds limits (w x) (f x)) l → succeeds limits (λ output, emit_seq output (w <$> l)) (render_seq f l).
Proof.
  induction 1 as [|x l Hx Hl IH]; intros output Hlim; cbn; [by rewrite app_nil_r|].
  destruct l as [|y l]; cbn in *; [by apply Hx|].
  rewrite Hx; [cbn|intros H; specialize (Hlim H); rewrite !length_app in *; cbn in Hlim; lia].
  rewrite IH; [by rewrite <-!app_assoc|].
  intros H; specialize (Hlim H). rewrite !length_app in *. cbn in *. lia.
Qed.

Lemma emit_appends limits v : appends limits (emitEmbeddedValue limits v) (text v).
Proof.
  induction v as [t|t|t|l IH|l IH] using value_ind'; intros output o; cbn [emitEmbeddedValue].
  1-3: cbn [mbind option_bind]; by intros [-> _]%within_bytes_ok.
  - destruct (emit_seq _ _) as [o1|] eqn:E; [|done]. cbn [mbind option_bind].
    intros [-> _]%within_bytes_ok. apply (emit_seq_appends limits _ text _ IH) in E as ->.
    cbn. by rewrite <-!app_assoc.
  - change (λ m : string * (list Z → option (list Z)), [KS m.1]) with (@member_order (list Z → option (list Z))).
    rewrite sort_members, <-list_fmap_compose. unfold compose. cbn [fst snd].
    destruct (emit_seq _ _) as [o1|] eqn:E; [|done]. cbn [mbind option_bind].
    intros [-> _]%within_bytes_ok. rewrite text_object.
    apply (emit_seq_appends limits _ (λ m, member_text (m.1, text m.2))) in E as ->.
    + by rewrite <-!app_assoc.
    + apply sort_by_Forall. eapply Forall_impl; [exact IH|]. intros m Hm out o' Eo. apply Hm in Eo as ->.
      unfold member_text. cbn [fst snd]. by rewrite <-!app_assoc.
Qed.

Lemma emit_succeeds limits v : succeeds limits (emitEmbeddedValue limits v) (text v).
Proof.
  induction v as [t|t|t|l IH|l IH] using value_ind'; intros output Hlim; cbn [emitEmbeddedValue].
  1-3: cbn [mbind option_bind]; by apply within_bytes_ok.
  - rewrite (emit_seq_succeeds limits _ text _ IH); cbn [mbind option_bind].
    + apply within_bytes_ok. cbn. rewrite <-!app_assoc. by split.
    + intros H; specialize (Hlim H). cbn in *. rewrite !length_app in *. cbn in *. rewrite !length_app in *. cbn in *. lia.
  - change (λ m : string * (list Z → option (list Z)), [KS m.1]) with (@member_order (list Z → option (list Z))).
    rewrite sort_members, <-list_fmap_compose. unfold compose. cbn [fst snd]. rewrite text_object in Hlim |- *.
    rewrite (emit_seq_succeeds limits _ (λ m, member_text (m.1, text m.2))); cbn [mbind option_bind].
    + apply within_bytes_ok. rewrite <-!app_assoc. by split.
    + apply sort_by_Forall. eapply Forall_impl; [exact IH|]. intros m Hm out Ho. rewrite Hm.
      * unfold member_text. cbn [fst snd]. by rewrite <-!app_assoc.
      * intros H; specialize (Ho H). unfold member_text in Ho. cbn [fst snd] in Ho. rewrite !length_app in *. cbn in *. lia.
    + intros H; specialize (Hlim H). rewrite !length_app in *. cbn in *. rewrite !length_app in *. cbn in *. lia.
Qed.

(** *** Reading *)

Definition literal_words : list (list Z) := [bs "true"; bs "false"; bs "null"].

(** A value the decoder can produce with [n] levels of nesting left. *)
Fixpoint fits (limits : bool) (n : nat) (v : embeddedValue) : Prop :=
  match v with
  | EString s => valid_utf8 s = true
  | ENumber t => ∃ source, normalizeJSONNumber source limits = Some t
  | ELiteral t => t ∈ literal_words
  | EArray l =>
      match n with
      | O => False
      | S n => Forall (fits limits n) l
      end
  | EObject l =>
      match n with
      | O => False
      | S n => NoDup (fst <$> l) ∧ Forall (λ m, valid_utf8 m.1 = true ∧ fits limits n m.2) l
      end
  end.

Lemma decode_items_fits limits n decode fuel l vs rest :
  (∀ l v rest, decode l = Some (v, rest) → fits limits n v) →
  decode_items decode fuel l = Some (vs, rest) → Forall (fits limits n) vs.
Proof.
  intros Hd. revert l vs rest. induction fuel as [|fuel IH]; intros l vs rest; cbn; [done|].
  destruct (decode l) as [[v l1]|] eqn:E; [|done]. apply Hd in E. cbn [mbind option_bind].
  destruct (skip_space l1) as [|b l2]; [done|]. destruct (b =? 44).
  - destruct (decode_items decode fuel l2) as [[vs' l3]|] eqn:Ei; [|done]. cbn. intros [= <- _].
    constructor; [done|by eapply IH].
  - destruct (b =? 93); [|done]. intros [= <- _]. by repeat constructor.
Qed.

Lemma decode_members_fits limits n decode fuel seen l ms rest :
  (∀ l v rest, decode l = Some (v, rest) → fits limits n v) →
  decode_members decode fuel seen l = Some (ms, rest) →
  NoDup (fst <$> ms) ∧ (∀ k, k ∈ (fst <$> ms) → k ∉ seen)
  ∧ Forall (λ m, valid_utf8 m.1 = true ∧ fits limits n m.2) ms.
Proof.
  intros Hd. revert seen l ms rest. induction fuel as [|fuel IH]; intros seen l ms rest; cbn [decode_members]; [done|].
  destruct (skip_space l) as [|b l1]; [done|]. destruct (negb (b =? 34)); [done|].
  match goal with |- context [read_string ?f l1] => destruct (read_string f l1) as [[key l2]|] eqn:Ek; [|done] end.
  apply read_string_scalars, valid_of_runes in Ek. cbn [mbind option_bind].
  case_bool_decide as Hk; [done|]. destruct (skip_space l2) as [|c l3]; [done|].
  destruct (negb (c =? 58)); [done|]. destruct (decode l3) as [[v l4]|] eqn:Ev; [|done]. apply Hd in Ev.
  cbn [mbind option_bind]. destruct (skip_space l4) as [|d l5]; [done|]. destruct (d =? 44).
  - destruct (decode_members decode fuel _ l5) as [[ms' l6]|] eqn:Em; [|done]. cbn. intros [= <- _].
    destruct (IH _ _ _ _ Em) as (Hn & Hs & Hf). cbn. split; [|split].
    + constructor; [|done]. intros Hin. apply (Hs _ Hin). set_solver.
    + intros k [->|Hin]%elem_of_cons; [done|]. specialize (Hs k Hin). set_solver.
    + by constructor.
  - destruct (d =? 125); [|done]. intros [= <- _]. cbn. split; [|split].
    + apply NoDup_singleton.
    + by intros k ->%list_elem_of_singleton.
    + by repeat constructor.
Qed.

Lemma decode_fits limits n : ∀ depth l v rest, depth + Z.of_nat n = 64 →
  decodeEmbeddedValue limits (S n) depth l = Some (v, rest) → fits limits n v.
Proof.
  assert (∀ n depth l v rest, depth + Z.of_nat n = 64 →
    (∀ l v rest, decodeEmbeddedValue limits n (depth + 1) l = Some (v, rest) →
       ∃ n', n = S n' ∧ fits limits n' v) →
    decodeEmbeddedValue limits (S n) depth l = Some (v, rest) → fits limits n v) as Hstep.
  2: { induction n as [|n IH]; intros depth l v rest Hd; apply Hstep; [done|by intros|done|].
       intros l' v' rest' E. exists n. split; [done|]. eapply IH; [|exact E]. lia. }
  clear n. intros n depth l v rest Hd Hdec. cbn [decodeEmbeddedValue].
  destruct (skip_space l) as [|b l1]; [done|].
  destruct (b =? 123).
  { destruct (Z.leb_spec 64 depth); [done|]. destruct n as [|n]; [lia|].
    assert (∀ l v rest, decodeEmbeddedValue limits (S n) (depth + 1) l = Some (v, rest) → fits limits n v) as Hdec'.
    { intros l' v' rest' E. destruct (Hdec _ _ _ E) as (n' & [= <-] & ?). done. }
    destruct (skip_space l1) as [|c l2]; [done|]. destruct (c =? 125).
    - intros [= <- _]. split; constructor.
    - destruct (decode_members _ _ _ _) as [[ms l3]|] eqn:E; [|done]. cbn [mbind option_bind]. intros [= <- _].
      destruct (decode_members_fits limits n _ _ _ _ _ _ Hdec' E) as (? & _ & ?). done. }
  destruct (b =? 91).
  { destruct (Z.leb_spec 64 depth); [done|]. destruct n as [|n]; [lia|].
    assert (∀ l v rest, decodeEmbeddedValue limits (S n) (depth + 1) l = Some (v, rest) → fits limits n v) as Hdec'.
    { intros l' v' rest' E. destruct (Hdec _ _ _ E) as (n' & [= <-] & ?). done. }
    destruct (skip_space l1) as [|c l2]; [done|]. destruct (c =? 93).
    - intros [= <- _]. constructor.
    - destruct (decode_items _ _ _) as [[vs l3]|] eqn:E; [|done]. cbn [mbind option_bind]. intros [= <- _].
      by eapply decode_items_fits. }
  destruct (b =? 34).
  { match goal with |- context [read_string ?f l1] => destruct (read_string f l1) as [[key l2]|] eqn:Ek; [|done] end.
    cbn [mbind option_bind]. intros [= <- _]. destruct n; cbn; by eapply valid_of_runes, read_string_scalars. }
  assert (∀ w, w ∈ literal_words → fits limits n (ELiteral w)) as Hlit by (by destruct n).
  destruct (b =? 116).
  { destruct (read_word _ _); [|done]. intros [= <- _]. apply Hlit. unfold literal_words. set_solver. }
  destruct (b =? 102).
  { destruct (read_word _ _); [|done]. intros [= <- _]. apply Hlit. unfold literal_words. set_solver. }
  destruct (b =? 110).
  { destruct (read_word _ _); [|done]. intros [= <- _]. apply Hlit. unfold literal_words. set_solver. }
  destruct (read_number _) as [[t l2]|]; [|done]. cbn [mbind option_bind].
  destruct (normalizeJSONNumber t limits) as [t'|] eqn:En; [|done]. intros [= <- _].
  destruct n; by exists t.
Qed.

(** The first byte of a value. *)
Definition starts_value (b : Z) : Prop := is_json_space b = false ∧ b ≠ 93 ∧ b ≠ 125.

Lemma number_head source limits t : normalizeJSONNumber source limits = Some t →
  ∃ b k, t = b :: k ∧ (b = 45 ∨ 48 ≤ b ≤ 57).
Proof.
  intros (negative & m & i & e & _ & Hd & _ & Hout)%normalize_shape.
  destruct (forallb is_zero_digit m) eqn:Hz; [subst; eexists _, _; split; [done|lia]|]. destruct Hout as [-> _].
  pose proof (strip_significant m Hd Hz) as Hs. destruct (sg_first _ Hs) as (b & k & Eb & Hb).
  pose proof (sg_digits _ Hs) as Hsd. rewrite Eb in Hsd. apply Forall_inv in Hsd. apply is_digit_range in Hsd.
  unfold decimal_text. destruct negative; [eexists _, _; split; [done|lia]|]. cbn [app].
  unfold decimal_digits. rewrite Eb. cbv zeta. destruct (Z.leb_spec (point m i e) 0); [eexists _, _; split; [done|lia]|].
  case_match; [eexists _, _; split; [done|lia]|]. destruct (Z.to_nat (point m i e)) eqn:En; [lia|].
  eexists _, _. split; [done|lia].
Qed.

Lemma text_head limits n v : fits limits n v → ∃ b k, text v = b :: k ∧ starts_value b.
Proof.
  unfold starts_value. destruct v as [s|t|t|l|l]; intros Hf.
  - eexists _, _. split; [done|]. by vm_compute.
  - assert (∃ source, normalizeJSONNumber source limits = Some t) as [source Ht] by (by destruct n).
    destruct (number_head _ _ _ Ht) as (b & k & -> & Hb). exists b, k. split; [done|].
    unfold is_json_space. lia.
  - assert (t ∈ literal_words) as Ht by (by destruct n).
    unfold literal_words in Ht.
    repeat (apply elem_of_cons in Ht as [->|Ht]; [eexists _, _; split; [reflexivity|by vm_compute]|]).
    by apply elem_of_nil in Ht.
  - eexists _, _. split; [done|]. by vm_compute.
  - eexists _, _. split; [done|]. by vm_compute.
Qed.

Lemma skip_space_head b l : is_json_space b = false → skip_space (b :: l) = b :: l.
Proof. intros Hb. unfold skip_space. cbn. by rewrite Hb. Qed.

(** What may follow a value inside a container, or at the end. *)
Definition value_end (t : list Z) : Prop := t = [] ∨ ∃ b k, t = b :: k ∧ (b = 44 ∨ b = 93 ∨ b = 125).

Lemma value_number_end t : value_end t → number_end t.
Proof. intros [->|(b & k & -> & Hb)] c r; [done|]. intros [= <- <-]. unfold is_digit, in_range. lia. Qed.

(** A decoder that reads the text of [x] as [g x]. *)
Definition reads {A} (decode : list Z → option (embeddedValue * list Z)) (f : A → list Z) (g : A → embeddedValue) (x : A) : Prop :=
  ∀ t, value_end t → decode (f x ++ t) = Some (g x, t).

Lemma decode_items_text {A} decode (f : A → list Z) (g : A → embeddedValue) l t fuel :
  Forall (reads decode f g) l → l ≠ [] → (length l ≤ fuel)%nat →
  decode_items decode fuel (render_seq f l ++ 93 :: t) = Some (g <$> l, t).
Proof.
  intros Hl. revert fuel. induction Hl as [|x l Hx Hl IH]; [done|]. intros [|fuel] _ Hf; cbn [length] in Hf; [lia|].
  destruct l as [|y l].
  - cbn [render_seq decode_items]. rewrite Hx by (right; eexists _, _; split; [done|lia]). done.
  - rewrite render_seq_cons, <-app_assoc. cbn [decode_items app].
    rewrite Hx by (right; eexists _, _; split; [done|lia]). cbn [mbind option_bind].
    rewrite skip_space_head by done. cbv iota. rewrite Z.eqb_refl.
    rewrite IH by (try done; cbn [length] in *; lia). done.
Qed.

Lemma read_key k t : valid_utf8 k = true →
  ∃ l, render_string k ++ t = 34 :: l ∧ read_string (S (length l)) l = Some (runes k, t) ∧ of_runes (runes k) = k.
Proof.
  intros [Hrs Ek]%valid_runes. pose proof (render_runes _ Hrs) as E. rewrite <-Ek in E. rewrite E.
  eexists. cbn [app]. split; [by rewrite <-app_assoc|]. split; [|done].
  apply read_string_escape; [done|]. rewrite length_app. pose proof (escape_length _ Hrs). lia.
Qed.

Lemma decode_members_text {A} decode (f : A → list Z) (g : A → embeddedValue) (l : list (string * A)) t fuel seen :
  Forall (λ m, valid_utf8 m.1 = true ∧ reads decode f g m.2) l → NoDup (fst <$> l) →
  (∀ k, k ∈ (fst <$> l) → k ∉ seen) → l ≠ [] → (length l ≤ fuel)%nat →
  decode_members decode fuel seen (render_seq (λ m, member_text (m.1, f m.2)) l ++ 125 :: t)
  = Some ((λ m, (m.1, g m.2)) <$> l, t).
Proof.
  intros Hl. revert fuel seen. induction Hl as [|[k x] l [Hk Hx] Hl IH]; [done|].
  intros [|fuel] seen Hn Hs _ Hf; cbn [length] in Hf; [lia|]. cbn [fst snd] in *.
  apply NoDup_cons in Hn as [Hkl Hn].
  assert (∀ u, value_end u → decode_members decode (S fuel) seen (member_text (k, f x) ++ u)
    = match skip_space u with
      | b :: rest =>
          if b =? 44 then '(members, rest) ← decode_members decode fuel ({[k]} ∪ seen) rest;
                          Some ((k, g x) :: members, rest)
          else if b =? 125 then Some ([(k, g x)], rest) else None
      | [] => None
      end) as Hone.
  { intros u Hu. unfold member_text. cbn [fst snd]. rewrite <-app_assoc.
    destruct (read_key k ((58 :: f x) ++ u) Hk) as (l' & -> & Hr & Ek).
    cbn [decode_members]. rewrite skip_space_head by done. rewrite Z.eqb_refl. cbn [negb].
    rewrite Hr. cbn [mbind option_bind]. rewrite Ek.
    rewrite bool_decide_eq_false_2 by (apply Hs; left). cbn [app].
    rewrite skip_space_head by done. rewrite Z.eqb_refl. cbn [negb]. by rewrite Hx by done. }
  destruct l as [|y l].
  - change (render_seq (λ m, member_text (m.1, f m.2)) [(k, x)]) with (member_text (k, f x)).
    rewrite Hone by (right; eexists _, _; split; [done|lia]). by rewrite skip_space_head.
  - rewrite render_seq_cons, <-app_assoc. cbn [fst snd].
    rewrite Hone by (right; eexists _, _; split; [done|lia]). cbn [app].
    rewrite skip_space_head by done. rewrite Z.eqb_refl.
    rewrite IH; [done|done| |done|cbn [length] in *; lia].
    intros k' Hk'. apply not_elem_of_union. split; [|apply Hs; by right].
    intros ->%elem_of_singleton. done.
Qed.

Lemma render_seq_length {A} (f : A → list Z) l : (length l ≤ S (length (render_seq f l)))%nat.
Proof.
  induction l as [|x l IH]; [cbn; lia|]. destruct l as [|y l]; [cbn; lia|].
  rewrite render_seq_cons, length_app. cbn [length] in *. lia.
Qed.

Lemma render_seq_head {A} (f : A → list Z) l (P : Z → Prop) :
  l ≠ [] → Forall (λ x, ∃ b k, f x = b :: k ∧ P b) l → ∃ b k, render_seq f l = b :: k ∧ P b.
Proof.
  intros Hne Hl. destruct Hl as [|x l (b & k & E & Hb) Hl]; [done|].
  destruct l as [|y l]; [by exists b, k|]. rewrite render_seq_cons, E. by eexists _, _.
Qed.

Lemma decode_scalar limits fuel depth v t n : fits limits n v → value_end t →
  match v with EArray _ | EObject _ => False | _ => True end →
  decodeEmbeddedValue limits (S fuel) depth (text v ++ t) = Some (v, t).
Proof.
  intros Hf Ht Hv. destruct (text_head _ _ _ Hf) as (b & k & E & Hb & _).
  destruct v as [s|u|u|l|l]; try done; cbn [text] in *.
  - assert (valid_utf8 s = true) as Hs by (by destruct n).
    destruct (read_key s t Hs) as (l & -> & Hr & Es). cbn [decodeEmbeddedValue].
    rewrite skip_space_head by done. change (34 =? 123) with false. change (34 =? 91) with false.
    change (34 =? 34) with true. cbv iota. rewrite Hr. cbn [mbind option_bind]. by rewrite Es.
  - assert (∃ source, normalizeJSONNumber source limits = Some u) as [source Hu] by (by destruct n).
    destruct (number_head _ _ _ Hu) as (c & r & Eu & Hc). rewrite Eu in E. injection E as -> ->.
    pose proof (read_canonical_number _ _ _ t Hu (value_number_end t Ht)) as Hr.
    cbn [decodeEmbeddedValue]. rewrite Eu in Hr |- *. cbn [app] in Hr |- *. rewrite skip_space_head by done.
    repeat (match goal with |- context [b =? ?c] => replace (b =? c) with false by lia end). cbv iota.
    rewrite Hr. cbn [mbind option_bind]. rewrite <-Eu. by rewrite (normalize_idem _ _ _ Hu).
  - assert (u ∈ literal_words) as Hu by (by destruct n). unfold literal_words in Hu. clear E Hb Hf.
    repeat (apply elem_of_cons in Hu as [->|Hu]; [reflexivity|]). by apply elem_of_nil in Hu.
Qed.

Lemma sorted_scalar v : match v with EArray _ | EObject _ => False | _ => True end → sorted_value v = v.
Proof. by destruct v. Qed.

Lemma decode_array limits fuel depth l t :
  depth < 64 →
  Forall (λ v, (∃ b k, text v = b :: k ∧ starts_value b) ∧
    reads (decodeEmbeddedValue limits fuel (depth + 1)) text sorted_value v) l →
  decodeEmbeddedValue limits (S fuel) depth (text (EArray l) ++ t) = Some (sorted_value (EArray l), t).
Proof.
  intros Hd [Hhead Hl]%Forall_and. cbn [text decodeEmbeddedValue app]. rewrite skip_space_head by done.
  change (91 =? 123) with false. change (91 =? 91) with true. cbv iota. destruct (Z.leb_spec 64 depth); [lia|].
  rewrite <-app_assoc. cbn [app]. destruct (decide (l = [])) as [->|Hne]; [done|].
  destruct (render_seq_head text l _ Hne Hhead) as (b & k & E & Hb & Hb' & _).
  assert (skip_space (render_seq text l ++ 93 :: t) = render_seq text l ++ 93 :: t) as ->
    by (rewrite E; by apply skip_space_head).
  pose proof (decode_items_text _ _ _ l t (S (length (render_seq text l ++ 93 :: t))) Hl Hne) as Hi.
  pose proof (render_seq_length text l) as Hlen. rewrite length_app in *.
  rewrite E in Hi, Hlen |- *. cbn [app]. destruct (Z.eqb_spec b 93); [done|].
  cbn [app length] in *. rewrite Hi by lia. done.
Qed.

Lemma decode_object limits fuel depth l t :
  depth < 64 → NoDup (fst <$> l) →
  Forall (λ m, valid_utf8 m.1 = true ∧ reads (decodeEmbeddedValue limits fuel (depth + 1)) text sorted_value m.2) l →
  decodeEmbeddedValue limits (S fuel) depth (text (EObject l) ++ t) = Some (sorted_value (EObject l), t).
Proof.
  intros Hd Hn Hl. rewrite text_object. cbn [decodeEmbeddedValue app sorted_value]. rewrite sort_members.
  rewrite skip_space_head by done. change (123 =? 123) with true. cbv iota. destruct (Z.leb_spec 64 depth); [lia|].
  rewrite <-app_assoc. cbn [app].
  assert (NoDup (fst <$> sort_by (less_by member_order) l)) as Hn' by (by rewrite sort_by_perm).
  rewrite <-(sort_by_Forall _ (less_by member_order)) in Hl.
  set (k := sort_by (less_by member_order) l) in *. clearbody k. clear l Hn.
  destruct (decide (k = [])) as [->|Hne]; [done|]. set (f m := member_text (m.1, text m.2)).
  destruct (render_seq_head f k (λ b, b = 34) Hne) as (b & r & E & ->).
  { apply Forall_forall. intros m _. by eexists _, _. }
  assert (skip_space (render_seq f k ++ 125 :: t) = render_seq f k ++ 125 :: t) as ->
    by (rewrite E; by apply skip_space_head).
  pose proof (decode_members_text _ text sorted_value k t (S (length (render_seq f k ++ 125 :: t))) ∅ Hl Hn' ltac:(set_solver) Hne) as Hi.
  fold f in Hi. pose proof (render_seq_length f k) as Hlen. rewrite length_app in *.
  rewrite E in Hi, Hlen |- *. cbn [app length] in *. rewrite Hi by lia. done.
Qed.

Lemma decode_text limits n : ∀ v depth t, depth + Z.of_nat n = 64 → fits limits n v → value_end t →
  decodeEmbeddedValue limits (S n) depth (text v ++ t) = Some (sorted_value v, t).
Proof.
  induction n as [|n IH]; intros v depth t Hd Hf Ht.
  - destruct v; try done; by apply (decode_scalar limits 0 depth _ t 0).
  - destruct v as [s|u|u|l|l]; try (by apply (decode_scalar limits (S n) depth _ t (S n))).
    + apply decode_array; [lia|]. eapply Forall_impl; [exact Hf|]. intros v Hv.
      split; [by eapply text_head|]. intros t' Ht'. apply IH; [lia|done|done].
    + destruct Hf as [Hn Hf]. apply decode_object; [lia|done|]. eapply Forall_impl; [exact Hf|].
      intros m [Hk Hv]. split; [done|]. intros t' Ht'. apply IH; [lia|done|done].
Qed.

(** ** The whole text *)

Lemma encoded_number limits source t : normalizeJSONNumber source limits = Some t → encoded t.
Proof.
  intros (negative & m & i & e & _ & Hd & _ & Hout)%normalize_shape. apply encoded_ascii.
  assert (∀ l, digits l → Forall (λ b, 0 ≤ b < 128) l) as Hda.
  { intros l Hl. eapply Forall_impl; [exact Hl|]. cbv beta. intros b Hb%is_digit_range. lia. }
  destruct (forallb is_zero_digit m) eqn:Hz; [subst; by repeat constructor|]. destruct Hout as [-> _].
  pose proof (sg_digits _ (strip_significant m Hd Hz)) as Hs. unfold decimal_text.
  apply Forall_app. split; [destruct negative; by repeat constructor|]. unfold decimal_digits. cbv zeta.
  case_match; [|case_match].
  - apply (Forall_app _ [48; 46]). split; [by repeat constructor|]. apply Forall_app. split; apply Hda; [apply digits_zeros|done].
  - apply Forall_app. split; apply Hda; [done|apply digits_zeros].
  - apply Forall_app. split; [by apply Hda, Forall_take|]. constructor; [lia|]. by apply Hda, Forall_drop.
Qed.

Lemma encoded_seq {A} (f : A → list Z) l : Forall (λ x, encoded (f x)) l → encoded (render_seq f l).
Proof.
  induction 1 as [|x l Hx Hl IH]; [apply encoded_nil|]. destruct l as [|y l]; [done|].
  rewrite render_seq_cons. apply encoded_app; [done|]. apply (encoded_app [44]); [|done].
  apply encoded_ascii. by repeat constructor.
Qed.

Lemma encoded_valid_string s : valid_utf8 s = true → encoded (render_string s).
Proof. intros [Hs ->]%valid_runes. by apply encoded_string. Qed.

Lemma encoded_byte b : 0 ≤ b < 128 → encoded [b].
Proof. intros Hb. apply encoded_ascii, Forall_cons_2; [done|apply Forall_nil_2]. Qed.

Lemma encoded_text limits n : ∀ v, fits limits n v → encoded (text v).
Proof.
  assert (∀ n v, match v with EArray _ | EObject _ => False | _ => True end → fits limits n v → encoded (text v)) as Hscalar.
  { clear n. intros n [s|u|u|l|l] Hv Hf; try done.
    - apply encoded_valid_string. by destruct n.
    - assert (∃ source, normalizeJSONNumber source limits = Some u) as [source Hu] by (by destruct n).
      by eapply encoded_number.
    - assert (u ∈ literal_words) as Hu by (by destruct n). unfold literal_words in Hu.
      repeat (apply elem_of_cons in Hu as [->|Hu]; [apply encoded_ascii; by repeat constructor|]).
      by apply elem_of_nil in Hu. }
  induction n as [|n IH]; intros v Hf; destruct v as [s|u|u|l|l]; try done; try (by eapply Hscalar).
  - cbn [text]. apply (encoded_app [91]); [by apply encoded_byte|]. apply encoded_app; [|by apply encoded_byte].
    apply encoded_seq. eapply Forall_impl; [exact Hf|apply IH].
  - rewrite text_object. apply (encoded_app [123]); [by apply encoded_byte|]. apply encoded_app; [|by apply encoded_byte].
    apply encoded_seq. destruct Hf as [_ Hf]. apply sort_by_Forall. eapply Forall_impl; [exact Hf|].
    intros m [Hk Hv]. apply encoded_app; [by apply encoded_valid_string|].
    apply (encoded_app [58]); [by apply encoded_byte|by apply IH].
Qed.

(** What an accepted text denotes, and its canonical text. *)
Lemma canonical_embedded input limits out :
  canonicalEmbeddedJSONWithResourceLimits input limits = Ok out →
  ∃ v, fits limits 64 v ∧ out = of_bytes (text v)
    ∧ (limits = true → Z.of_nat (length (text v)) ≤ maxEmbeddedJSONBytes).
Proof.
  unfold canonicalEmbeddedJSONWithResourceLimits. intros [_ E]%seq_ok.
  destruct (decodeEmbeddedValue _ _ _ _) as [[v rest]|] eqn:Ed; [|done].
  apply seq_ok in E as [_ E]. destruct (emitEmbeddedValue limits v []) as [o|] eqn:Eo; [|done].
  apply seq_ok in E as [Hlen%throw_if_ok [= <-]]. exists v.
  apply emit_appends in Eo as ->. split; [|split; [done|]].
  - by eapply (decode_fits limits 64 0).
  - intros ->. cbn in Hlen. by apply Z.ltb_ge in Hlen.
Qed.

Lemma canonical_text_accepted limits v :
  fits limits 64 v → (limits = true → Z.of_nat (length (text v)) ≤ maxEmbeddedJSONBytes) →
  canonicalEmbeddedJSONWithResourceLimits (of_bytes (text v)) limits = Ok (of_bytes (text v)).
Proof.
  intros Hf Hlen. destruct (encoded_valid _ (encoded_text _ _ _ Hf)) as [Hv Hb].
  assert (limits && (maxEmbeddedJSONBytes <? Z.of_nat (length (text v))) = false) as Hl.
  { destruct limits; [|done]. by apply Z.ltb_ge, Hlen. }
  unfold canonicalEmbeddedJSONWithResourceLimits, go_len. rewrite <-bytes_of_length, Hb, Hv, Hl. cbn [negb orb].
  pose proof (decode_text limits 64 v 0 [] eq_refl Hf (or_introl eq_refl)) as Hd. rewrite app_nil_r in Hd.
  rewrite Hd. pose proof (emit_succeeds limits (sorted_value v) []) as He. rewrite text_sorted in He. cbn [app] in He.
  change (skip_space []) with (@nil Z). rewrite bool_decide_eq_true_2 by done.
  rewrite He by done. cbn [throw_if negb mbind res_bind]. by rewrite Hl.
Qed.

(** ** Properties *)

(** C14: canonicalisation is idempotent.  A canonical text is accepted and is
    its own canonical text: what the projection stores can be read, checked and
    stored again without changing a byte. *)
Theorem canonical_json_is_a_fixed_point input limits out :
  canonicalEmbeddedJSONWithResourceLimits input limits = Ok out →
  canonicalEmbeddedJSONWithResourceLimits out limits = Ok out.
Proof.
  intros (v & Hf & -> & Hlen)%canonical_embedded. by apply canonical_text_accepted.
Qed.

Definition sample_json : string :=
  of_bytes (bs "{ " ++ render_string "b" ++ bs " : [1.50e+3, -0, true], " ++ render_string "a" ++ bs ":{}}").

Lemma canonical_json_is_a_fixed_point_witness :
  let out := of_bytes (123 :: render_string "a" ++ bs ":{}," ++ render_string "b" ++ bs ":[1500,0,true]}") in
  canonicalEmbeddedJSONWithResourceLimits sample_json true = Ok out
  ∧ canonicalEmbeddedJSONWithResourceLimits out true = Ok out.
Proof.
  intros out. assert (canonicalEmbeddedJSONWithResourceLimits sample_json true = Ok out) as E
    by (vm_compute; reflexivity).
  split; [exact E|]. exact (canonical_json_is_a_fixed_point sample_json true out E).
Defined.

(** Canonical numbers identify numbers.  Two literals the normalisation
    accepts get the same text exactly when they denote the same number, however
    they spell sign, zeros, point and exponent. *)
Theorem canonical_numbers_identify a b limits x y va vb :
  normalizeJSONNumber a limits = Some x → normalizeJSONNumber b limits = Some y →
  literal_value a = Some va → literal_value b = Some vb →
  x = y ↔ same_number va vb.
Proof. apply canonical_number_exact. Qed.

Lemma canonical_numbers_identify_witness :
  normalizeJSONNumber (bs "1.50e+3") true = Some (bs "1500") ∧ same_number (150, 1) (1500, 0).
Proof.
  assert (normalizeJSONNumber (bs "1.50e+3") true = Some (bs "1500")) as E by (vm_compute; reflexivity).
  split; [exact E|].
  apply (canonical_numbers_identify (bs "1.50e+3") (bs "1500") true (bs "1500") (bs "1500") (150, 1) (1500, 0));
    first [exact E | vm_compute; reflexivity].
Defined.
