(* ===== verification/GoUrl.v ===== *)
(** * [net/url]

    [url.Parse] as far as the code looks at its result: the scheme, whether
    there is user information, the host, the path, the query and the fragment,
    and [URL.Query].  The address inside the brackets of a host is parsed by
    [net/netip]; whether it is accepted is the class [IPLiterals]. *)

From S2P Require Import Prelude GoString CatalogIdentity EmbeddedJson.

Class IPLiterals := ip_literal : list Z → bool.

Record URL := MkURL {
  u_Scheme : string;
  u_Host : string;
  u_User : bool;
  u_Path : string;
  u_RawQuery : string;
  u_Fragment : string;
}.

Definition is_alpha (b : Z) : bool := in_range 97 122 b || in_range 65 90 b.

(** [getScheme]: the letters before a colon; [None] when the colon comes first. *)
Fixpoint get_scheme (read : list Z) (l : list Z) : option (list Z * list Z) :=
  match l with
  | [] => Some ([], reverse read)
  | b :: rest =>
      let no_scheme := Some ([], reverse read ++ l) in
      if is_alpha b then get_scheme (b :: read) rest
      else if is_digit b || (b =? 43) || (b =? 45) || (b =? 46) then
        if bool_decide (read = []) then no_scheme else get_scheme (b :: read) rest
      else if b =? 58 then if bool_decide (read = []) then None else Some (reverse read, rest)
      else no_scheme
  end.

(** [unescape] of a path or a fragment: only escapes are decoded. *)
Fixpoint path_unescape (l : list Z) : option (list Z) :=
  match l with
  | [] => Some []
  | b :: l =>
      if b =? 37 then
        match l with
        | h1 :: h2 :: l =>
            v1 ← hex_value h1; v2 ← hex_value h2; rest ← path_unescape l; Some (16 * v1 + v2 :: rest)
        | _ => None
        end
      else rest ← path_unescape l; Some (b :: rest)
  end.

(** The ASCII bytes a host may hold as they are. *)
Definition host_byte (b : Z) : bool :=
  is_alpha b || is_digit b || existsb (Z.eqb b) (bytes_of "!$&'()*+,;=:[]<>-_.~") || (b =? 34).

(** [unescape] of a host: an escape must be of a byte outside ASCII, or [%25]. *)
Fixpoint host_unescape (l : list Z) : option (list Z) :=
  match l with
  | [] => Some []
  | b :: l =>
      if b =? 37 then
        match l with
        | h1 :: h2 :: l =>
            v1 ← hex_value h1; v2 ← hex_value h2;
            if (v1 <? 8) && negb ((h1 =? 50) && (h2 =? 53)) then None
            else rest ← host_unescape l; Some (16 * v1 + v2 :: rest)
        | _ => None
        end
      else if (b <? 128) && negb (host_byte b) then None
      else rest ← host_unescape l; Some (b :: rest)
  end.

(** An empty port or a colon and digits. *)
Definition validOptionalPort (l : list Z) : bool :=
  match l with
  | [] => true
  | b :: ds => (b =? 58) && forallb is_digit ds
  end.

(** What is before and after the last [sep]. *)
Definition cut_last (sep : Z) (l : list Z) : option (list Z * list Z) :=
  let '(after, before) := cut_bytes sep (reverse l) in
  (λ before, (reverse before, reverse after)) <$> before.

Section parse.
Context `{IPLiterals}.

(** [parseHost]: more than one colon is refused outside brackets. *)
Definition parseHost (host : list Z) : option (list Z) :=
  if bool_decide (91 ∈ host) then (if ip_literal host then Some host else None)
  else
    match cut_bytes 58 host with
    | (_, Some port) => if validOptionalPort (58 :: port) then host_unescape host else None
    | (_, None) => host_unescape host
    end.

(** [parseAuthority]; the user information itself is not looked at. *)
Definition parseAuthority (authority : list Z) : option (bool * list Z) :=
  match cut_last 64 authority with
  | None => host ← parseHost authority; Some (false, host)
  | Some (_, after) => host ← parseHost after; Some (true, host)
  end.

(** What follows the scheme, without the query. *)
Definition parse_rest (scheme rest : list Z) (query : list Z) : option URL :=
  let url user host path :=
    MkURL (of_bytes (ascii_lower <$> scheme)) (of_bytes host) user (of_bytes path) (of_bytes query) "" in
  let has_scheme := negb (bool_decide (scheme = [])) in
  let rooted := match rest with b :: _ => b =? 47 | [] => false end in
  if negb rooted && has_scheme then Some (url false [] [])
  else if negb rooted && bool_decide (58 ∈ (cut_bytes 47 rest).1) then None
  else
    match rest with
    | 47 :: 47 :: after =>
        if has_scheme || negb (match after with b :: _ => b =? 47 | [] => false end) then
          let '(authority, path) := cut_bytes 47 after in
          '(user, host) ← parseAuthority authority;
          path ← path_unescape (match path with Some path => 47 :: path | None => [] end);
          Some (url user host path)
        else path ← path_unescape rest; Some (url false [] path)
    | _ => path ← path_unescape rest; Some (url false [] path)
    end.

(** [parse], before the fragment is attached.  A lone [?] at the end is
    dropped, which leaves the empty query it would have anyway. *)
Definition parse_reference (l : list Z) : option URL :=
  if existsb (λ b, (b <? 32) || (b =? 127)) l then None
  else if bool_decide (l = [42]) then Some (MkURL "" "" false "*" "" "")
  else
    '(scheme, rest) ← get_scheme [] l;
    let '(rest, query) := cut_bytes 63 rest in
    parse_rest scheme rest (default [] query).

Definition url_Parse (raw : string) : option URL :=
  let '(reference, fragment) := cut_bytes 35 (bytes_of raw) in
  u ← parse_reference reference;
  fragment ← path_unescape (default [] fragment);
  Some (MkURL (u_Scheme u) (u_Host u) (u_User u) (u_Path u) (u_RawQuery u) (of_bytes fragment)).
End parse.

Definition IsAbs (u : URL) : bool := negb (bool_decide (u_Scheme u = "")).

(** [url.ParseQuery], its error dropped: a pair with a semicolon or a malformed
    escape is skipped.  The pairs in order of appearance; the code asks only
    for queries of a few pairs, and the limit on their number is not modelled. *)
Definition query_pair (part : list Z) : option (string * string) :=
  if bool_decide (59 ∈ part) || bool_decide (part = []) then None
  else
    let '(key, value) := cut_bytes 61 part in
    key ← query_unescape key;
    value ← query_unescape (default [] value);
    Some (of_bytes key, of_bytes value).
Definition URL_Query (u : URL) : list (string * string) :=
  omap query_pair (split_bytes 38 (bytes_of (u_RawQuery u))).

(** The values of a key, and the distinct keys. *)
Definition query_values (key : string) (query : list (string * string)) : list string :=
  (filter (λ kv, kv.1 = key) query).*2.
Definition query_keys (query : list (string * string)) : gset string := list_to_set query.*1.
