(* ===== verification/Projection.v ===== *)
(** * Projected documents (application/projection/model.go)

    The flat, ordinal-numbered view of a specification that catalogs are made
    of.  Slices keep their nilness because [encoding/json] shows it. *)

From S2P Require Import Prelude.

(** A reference to a node of the document's schema graph, by ordinal. *)
Definition SchemaRef : Type := Z.

Record Branding := MkBranding {
  pbra_DisplayName : string;
  pbra_LogoSrc : string;
  pbra_LogoAlt : string;
  pbra_LogoHomeHref : string;
  pbra_FaviconHref : string;
}.

Record Contact := MkContact {
  pcon_Name : string;
  pcon_URL : string;
  pcon_Email : string;
}.

Record License := MkLicense {
  plic_Name : string;
  plic_URL : string;
  plic_Identifier : string;
}.

Record TextRecord := MkTextRecord {
  ptr_Ordinal : Z;
  ptr_ID : string;
  ptr_Value : string;
}.

Record ServerVariable := MkServerVariable {
  psv_Ordinal : Z;
  psv_ID : string;
  psv_Name : string;
  psv_Default : string;
  psv_Description : string;
  psv_Enum : slice TextRecord;
}.

Record Server := MkServer {
  pser_Ordinal : Z;
  pser_ID : string;
  pser_URL : string;
  pser_Description : string;
  pser_Variables : slice ServerVariable;
}.

Record Overview := MkOverview {
  pove_Anchor : string;
  pove_Href : string;
  pove_HeadingID : string;
  pove_Heading : string;
  pove_HeadingLevel : Z;
  pove_Description : string;
  pove_TermsOfService : string;
  pove_SpecDownloadFilename : string;
  pove_Contact : Contact;
  pove_License : License;
  pove_Servers : slice Server;
}.

Record Landmark := MkLandmark {
  plan_ID : string;
  plan_Role : string;
}.

Record Heading := MkHeading {
  phea_ID : string;
  phea_Text : string;
  phea_Level : Z;
}.

Record SidebarItem := MkSidebarItem {
  psi_Ordinal : Z;
  psi_ID : string;
  psi_Anchor : string;
  psi_Href : string;
  psi_Label : string;
  psi_Method : string;
}.

Record SidebarSection := MkSidebarSection {
  pss_Ordinal : Z;
  pss_ID : string;
  pss_Kind : string;
  pss_Title : string;
  pss_Href : string;
  pss_Items : slice SidebarItem;
}.

Record FixedQueryParameter := MkFixedQueryParameter {
  pfqp_Name : string;
  pfqp_Value : string;
}.

Record OperationDirectory := MkOperationDirectory {
  pod_Ordinal : Z;
  pod_ID : string;
  pod_Anchor : string;
  pod_Href : string;
  pod_Method : string;
  pod_Path : string;
  pod_RequestTarget : string;
  pod_FixedQuery : slice FixedQueryParameter;
  pod_Title : string;
  pod_Deprecated : bool;
  pod_Sections : slice TextRecord;
}.

Record Example := MkExample {
  pexa_Ordinal : Z;
  pexa_ID : string;
  pexa_Text : string;
  pexa_Provided : bool;
}.

Record OperationParameter := MkOperationParameter {
  ppar_Ordinal : Z;
  ppar_ID : string;
  ppar_Name : string;
  ppar_In : string;
  ppar_Required : bool;
  ppar_Description : string;
  ppar_SchemaRef : SchemaRef;
  ppar_Examples : slice Example;
}.

Record MediaType := MkMediaType {
  pmt_Ordinal : Z;
  pmt_ID : string;
  pmt_ContentType : string;
  pmt_SchemaRef : SchemaRef;
  pmt_Examples : slice Example;
}.

Record RequestBody := MkRequestBody {
  prb_Description : string;
  prb_Required : bool;
  prb_MediaTypes : slice MediaType;
}.

Record ResponseHeader := MkResponseHeader {
  prh_Ordinal : Z;
  prh_ID : string;
  prh_Name : string;
  prh_Description : string;
  prh_SchemaRef : SchemaRef;
  prh_Examples : slice Example;
}.

Record Response := MkResponse {
  pres_Ordinal : Z;
  pres_ID : string;
  pres_Status : string;
  pres_Description : string;
  pres_Headers : slice ResponseHeader;
  pres_MediaTypes : slice MediaType;
}.

Record SecurityScheme := MkSecurityScheme {
  pssx_Name : string;
  pssx_Type : string;
  pssx_Description : string;
  pssx_ParameterName : string;
  pssx_In : string;
  pssx_Scheme : string;
  pssx_BearerFormat : string;
  pssx_OpenIDConnectURL : string;
}.

Record SecurityRequirement := MkSecurityRequirement {
  psr_Ordinal : Z;
  psr_ID : string;
  psr_Name : string;
  psr_Scopes : slice TextRecord;
  psr_Definition : SecurityScheme;
}.

Record CodeSample := MkCodeSample {
  pcs_Ordinal : Z;
  pcs_ID : string;
  pcs_Label : string;
  pcs_Language : string;
  pcs_Code : string;
}.

Record OperationDetail := MkOperationDetail {
  podx_Ordinal : Z;
  podx_ID : string;
  podx_Anchor : string;
  podx_Href : string;
  podx_HeadingID : string;
  podx_Heading : string;
  podx_HeadingLevel : Z;
  podx_Method : string;
  podx_Path : string;
  podx_RequestTarget : string;
  podx_FixedQuery : slice FixedQueryParameter;
  podx_Summary : string;
  podx_Description : string;
  podx_Deprecated : bool;
  podx_Tags : slice TextRecord;
  podx_Parameters : slice OperationParameter;
  podx_HasRequestBody : bool;
  podx_RequestBody : RequestBody;
  podx_Responses : slice Response;
  podx_Security : slice SecurityRequirement;
  podx_CodeSamples : slice CodeSample;
}.

Record SchemaDirectory := MkSchemaDirectory {
  psd_Ordinal : Z;
  psd_ID : string;
  psd_Anchor : string;
  psd_Href : string;
  psd_Name : string;
  psd_Title : string;
  psd_Description : string;
}.

Record SchemaDetail := MkSchemaDetail {
  psdx_Ordinal : Z;
  psdx_ID : string;
  psdx_Anchor : string;
  psdx_Href : string;
  psdx_HeadingID : string;
  psdx_Heading : string;
  psdx_HeadingLevel : Z;
  psdx_Description : string;
  psdx_SchemaRef : SchemaRef;
  psdx_ExampleSchemaJSON : string;
  psdx_Examples : slice Example;
}.

Record SchemaConstraint := MkSchemaConstraint {
  psc_Name : string;
  psc_Value : string;
}.

Record SchemaNodeProperty := MkSchemaNodeProperty {
  psnp_Ordinal : Z;
  psnp_ID : string;
  psnp_Name : string;
  psnp_Required : bool;
  psnp_Description : string;
  psnp_SchemaRef : SchemaRef;
}.

Record SchemaNodeItem := MkSchemaNodeItem {
  psni_Ordinal : Z;
  psni_ID : string;
  psni_SchemaRef : SchemaRef;
}.

Record SchemaNode := MkSchemaNode {
  psn_Ordinal : Z;
  psn_ID : string;
  psn_Name : string;
  psn_Type : string;
  psn_Format : string;
  psn_Description : string;
  psn_DefaultValue : string;
  psn_ExampleText : string;
  psn_Enum : slice string;
  psn_Constraints : slice SchemaConstraint;
  psn_Nullable : bool;
  psn_Deprecated : bool;
  psn_JSON : string;
  psn_Properties : slice SchemaNodeProperty;
  psn_Items : slice SchemaNodeItem;
}.

Record SearchRecord := MkSearchRecord {
  psrx_Ordinal : Z;
  psrx_ID : string;
  psrx_ResultID : string;
  psrx_Title : string;
  psrx_Description : string;
  psrx_Href : string;
  psrx_Kind : string;
  psrx_Method : string;
  psrx_Path : string;
  psrx_Section : string;
  psrx_Keywords : slice TextRecord;
}.

Record PublicRoute := MkPublicRoute {
  ppr_Ordinal : Z;
  ppr_Path : string;
  ppr_Title : string;
  ppr_Description : string;
}.

Record Document := MkDocument {
  pdoc_FormatVersion : Z;
  pdoc_ProjectID : string;
  pdoc_RevisionID : string;
  pdoc_Title : string;
  pdoc_APIVersion : string;
  pdoc_Branding : Branding;
  pdoc_Overview : Overview;
  pdoc_MainLandmark : Landmark;
  pdoc_OperationGroupHeading : Heading;
  pdoc_SchemaGroupHeading : Heading;
  pdoc_SidebarSections : slice SidebarSection;
  pdoc_Operations : slice OperationDirectory;
  pdoc_OperationDetails : slice OperationDetail;
  pdoc_Schemas : slice SchemaDirectory;
  pdoc_SchemaDetails : slice SchemaDetail;
  pdoc_SchemaNodes : slice SchemaNode;
  pdoc_Search : slice SearchRecord;
  pdoc_PublicRoutes : slice PublicRoute;
}.
