(* ===== verification/SchemaGraph.v ===== *)
(** * The schema graph (application/projection/schema_graph.go)

    A projection stores every schema once.  [internSchema] walks a schema
    summary, canonicalises its JSON, interns its parts and looks the resulting
    node up by the hash of its content; the graph is sorted when the document
    is complete.  The hash is a parameter, as the tests of the code pass one
    that collides. *)

From S2P Require Import Prelude GoString GoSha256 Spec SpecValidation EmbeddedJson Projection.

#[export] Instance SchemaNode_inhabited : Inhabited SchemaNode :=
  populate (MkSchemaNode 0 "" "" "" "" "" "" "" None None false false "" None None).

Definition maxSchemaGraphNodes : Z := 100000.
Definition maxSchemaGraphEdges : Z := 100000.
Definition schemaNodeDomain : list Z := bytes_of "manja.projection.schema-node.v3" ++ [0].

Record schemaNodeDraft := MkSchemaNodeDraft {
  sd_digest : list Z;
  sd_preimage : list Z;
  sd_node : SchemaNode;
}.

Record schemaGraphBuilder := MkSchemaGraphBuilder {
  sg_drafts : list schemaNodeDraft;
  sg_byDigest : gmap (list Z) SchemaRef;
  sg_edges : Z;
  sg_resourceLimits : bool;
}.

Definition newSchemaGraphBuilder (resourceLimits : bool) : schemaGraphBuilder :=
  MkSchemaGraphBuilder [] ∅ 0 resourceLimits.

(** What a build carries ([buildState] of build.go).  [bs_ctx] lists what the
    next looks at the context answer; it is not done when the list is over. *)
Record buildState := MkBuildState {
  bs_ctx : list (res unit);
  bs_resourceLimits : bool;
  bs_targets : gmap string string;
  bs_aliases : gmap string string;
  bs_schemaGraph : schemaGraphBuilder;
}.

Definition building := stM buildState.

Definition with_ctx (ctx : list (res unit)) (s : buildState) : buildState :=
  MkBuildState ctx (bs_resourceLimits s) (bs_targets s) (bs_aliases s) (bs_schemaGraph s).
Definition with_graph (graph : schemaGraphBuilder) (s : buildState) : buildState :=
  MkBuildState (bs_ctx s) (bs_resourceLimits s) (bs_targets s) (bs_aliases s) graph.

Definition checkpoint : building unit := λ s,
  match bs_ctx s with
  | [] => (s, Ok tt)
  | answer :: ctx => (with_ctx ctx s, answer)
  end.

(** ** Content *)

Definition uint32 (n : Z) : Z := n `mod` 2 ^ 32.

Definition appendSchemaUint64 (value : Z) : list Z := be_bytes 8 (value `mod` 2 ^ 64).
Definition appendSchemaUint32 (value : Z) : list Z := be_bytes 4 value.
Definition appendSchemaBool (value : bool) : list Z := if value then [1] else [0].
Definition appendSchemaString (value : string) : list Z := appendSchemaUint64 (go_len value) ++ bytes_of value.
Definition append_count {A} (l : list A) : list Z := appendSchemaUint64 (Z.of_nat (length l)).
Definition appendSchemaStrings (values : list string) : list Z := append_count values ++ (values ≫= appendSchemaString).

(** The digest of an interned node; every reference of a graph is in range. *)
Definition digest_of (drafts : list schemaNodeDraft) (ref : SchemaRef) : list Z :=
  default [] (sd_digest <$> drafts !! Z.to_nat ref).

Definition constraint_bytes (c : SchemaConstraint) : list Z :=
  appendSchemaString (psc_Name c) ++ appendSchemaString (psc_Value c).
Definition property_bytes (drafts : list schemaNodeDraft) (p : SchemaNodeProperty) : list Z :=
  appendSchemaUint32 (psnp_Ordinal p) ++ appendSchemaString (psnp_ID p) ++ appendSchemaString (psnp_Name p)
  ++ appendSchemaBool (psnp_Required p) ++ appendSchemaString (psnp_Description p)
  ++ digest_of drafts (psnp_SchemaRef p).
Definition item_bytes (drafts : list schemaNodeDraft) (i : SchemaNodeItem) : list Z :=
  appendSchemaUint32 (psni_Ordinal i) ++ appendSchemaString (psni_ID i) ++ digest_of drafts (psni_SchemaRef i).

Definition schemaNodePreimage (drafts : list schemaNodeDraft) (node : SchemaNode) : list Z :=
  schemaNodeDomain
  ++ ([psn_Name node; psn_Type node; psn_Format node; psn_Description node;
       psn_DefaultValue node; psn_ExampleText node; psn_JSON node] ≫= appendSchemaString)
  ++ appendSchemaStrings (elems (psn_Enum node))
  ++ append_count (elems (psn_Constraints node)) ++ (elems (psn_Constraints node) ≫= constraint_bytes)
  ++ appendSchemaBool (psn_Nullable node)
  ++ appendSchemaBool (psn_Deprecated node)
  ++ append_count (elems (psn_Properties node)) ++ (elems (psn_Properties node) ≫= property_bytes drafts)
  ++ append_count (elems (psn_Items node)) ++ (elems (psn_Items node) ≫= item_bytes drafts).

(** ** Interning *)

Definition node_edges (node : SchemaNode) : Z :=
  Z.of_nat (length (elems (psn_Properties node)) + length (elems (psn_Items node))).

Definition with_id (id : string) (n : SchemaNode) : SchemaNode :=
  MkSchemaNode (psn_Ordinal n) id (psn_Name n) (psn_Type n) (psn_Format n) (psn_Description n) (psn_DefaultValue n)
    (psn_ExampleText n) (psn_Enum n) (psn_Constraints n) (psn_Nullable n) (psn_Deprecated n) (psn_JSON n)
    (psn_Properties n) (psn_Items n).

Section graph.
Context (hasher : list Z → list Z) (heap : Heap).

(** The second half of [internSchema]: find the node, or add it. *)
Definition add_node (node : SchemaNode) (g : schemaGraphBuilder) : res (schemaGraphBuilder * SchemaRef) :=
  let preimage := schemaNodePreimage (sg_drafts g) node in
  let digest := hasher preimage in
  match sg_byDigest g !! digest with
  | Some existingRef =>
      throw_if (negb (bool_decide (sd_preimage <$> sg_drafts g !! Z.to_nat existingRef = Some preimage)))
        (projectionFailure "schemaNodes" "hash_collision") ;;
      mret (g, existingRef)
  | None =>
      throw_if (sg_resourceLimits g && (maxSchemaGraphNodes <=? Z.of_nat (length (sg_drafts g))))
        (projectionFailure "schemaNodes" "node_budget") ;;
      throw_if (sg_resourceLimits g && (maxSchemaGraphEdges <? sg_edges g + node_edges node))
        (projectionFailure "schemaNodes" "edge_budget") ;;
      let ref := uint32 (Z.of_nat (length (sg_drafts g))) in
      let node := with_id ("schema-node-" +:+ hex_encode digest) node in
      mret (MkSchemaGraphBuilder (sg_drafts g ++ [MkSchemaNodeDraft digest preimage node])
              (<[digest := ref]> (sg_byDigest g)) (sg_edges g + node_edges node) (sg_resourceLimits g), ref)
  end.

Definition intern_node (node : SchemaNode) : building SchemaRef := λ s,
  match add_node node (bs_schemaGraph s) with
  | Ok (g, ref) => (with_graph g s, Ok ref)
  | Fail e => (s, Fail e)
  end.

Section parts.
Context (internSchema : SchemaSummary → building SchemaRef).

Fixpoint intern_properties (sourceIndex : Z) (built : list SchemaNodeProperty) (properties : list SchemaProperty) :
    building (list SchemaNodeProperty) :=
  match properties with
  | [] => mret built
  | property :: properties =>
      lift (throw_if (bool_decide (sp_Name property ∈ psnp_Name <$> built))
        (projectionFailure "schema.properties" "duplicate_record")) ;;
      childRef ← internSchema (sp_Schema property);
      intern_properties (sourceIndex + 1)
        (built ++ [MkSchemaNodeProperty (uint32 sourceIndex) (sp_Name property) (sp_Name property)
                     (sp_Required property) (sp_Description property) childRef])
        properties
  end.

Definition intern_items (items : option ptr) : building (list SchemaNodeItem) :=
  match items with
  | None => mret []
  | Some items =>
      childRef ← internSchema (heap !!! items);
      mret [MkSchemaNodeItem 0 "items" childRef]
  end.
End parts.

Definition source_json (source : SchemaSummary) (resourceLimits : bool) : res string :=
  if bool_decide (ss_JSON source = "") then mret ""
  else canonicalEmbeddedJSONWithResourceLimits (ss_JSON source) resourceLimits.

Definition node_constraints (source : SchemaSummary) : list SchemaConstraint :=
  (λ c, MkSchemaConstraint (Spec.sc_Name c) (Spec.sc_Value c)) <$> ss_Constraints source.

(** The fuel bounds the levels of the summary. *)
Fixpoint internSchema (fuel : nat) (source : SchemaSummary) : building SchemaRef :=
  match fuel with
  | O => lift (Fail (Errorf "out of fuel" []))
  | S fuel =>
      checkpoint ;;
      resourceLimits ← gets (λ s, sg_resourceLimits (bs_schemaGraph s));
      canonicalJSON ← lift (source_json source resourceLimits);
      properties ← intern_properties (internSchema fuel) 0 [] (ss_Properties source);
      items ← intern_items (internSchema fuel) (ss_Items source);
      intern_node (MkSchemaNode 0 "" (ss_Name source) (ss_Type source) (ss_Format source) (ss_Description source)
        (ss_Default source) (ss_Example source) (Some (ss_Enum source)) (Some (node_constraints source))
        (ss_Nullable source) (ss_Deprecated source) canonicalJSON (Some properties) (Some items))
  end.
End graph.

(** ** The sorted graph *)

Definition graph_nodes (g : schemaGraphBuilder) : list SchemaNode := sd_node <$> sg_drafts g.

(** The drafts by the ID of their node; no two have the same. *)
Definition graph_order (g : schemaGraphBuilder) : list nat :=
  (sort_by (less_by (λ draft, [KS (psn_ID draft.2)])) (zip (seq 0 (length (sg_drafts g))) (graph_nodes g))).*1.

(** [remap], as a function of the old reference. *)
Definition graph_remap (g : schemaGraphBuilder) (ref : SchemaRef) : SchemaRef :=
  match list_find (λ old, Z.of_nat old = ref) (graph_order g) with
  | Some (ordinal, _) => uint32 (Z.of_nat ordinal)
  | None => 0
  end.

Definition each {A B} (f : A → B) (l : slice A) : slice B := (λ l : list A, f <$> l) <$> l.

Section remap.
Context (remap : SchemaRef → SchemaRef).

Definition remap_property (p : SchemaNodeProperty) : SchemaNodeProperty :=
  MkSchemaNodeProperty (psnp_Ordinal p) (psnp_ID p) (psnp_Name p) (psnp_Required p) (psnp_Description p)
    (remap (psnp_SchemaRef p)).
Definition remap_item (i : SchemaNodeItem) : SchemaNodeItem :=
  MkSchemaNodeItem (psni_Ordinal i) (psni_ID i) (remap (psni_SchemaRef i)).
Definition remap_node (ordinal : nat) (n : SchemaNode) : SchemaNode :=
  MkSchemaNode (uint32 (Z.of_nat ordinal)) (psn_ID n) (psn_Name n) (psn_Type n) (psn_Format n) (psn_Description n)
    (psn_DefaultValue n) (psn_ExampleText n) (psn_Enum n) (psn_Constraints n) (psn_Nullable n) (psn_Deprecated n)
    (psn_JSON n) (each remap_property (psn_Properties n)) (each remap_item (psn_Items n)).

Definition remap_parameter (p : OperationParameter) : OperationParameter :=
  MkOperationParameter (ppar_Ordinal p) (ppar_ID p) (ppar_Name p) (ppar_In p) (ppar_Required p) (ppar_Description p)
    (remap (ppar_SchemaRef p)) (ppar_Examples p).
Definition remap_media (m : MediaType) : MediaType :=
  MkMediaType (pmt_Ordinal m) (pmt_ID m) (pmt_ContentType m) (remap (pmt_SchemaRef m)) (pmt_Examples m).
Definition remap_header (h : ResponseHeader) : ResponseHeader :=
  MkResponseHeader (prh_Ordinal h) (prh_ID h) (prh_Name h) (prh_Description h) (remap (prh_SchemaRef h)) (prh_Examples h).
Definition remap_body (b : RequestBody) : RequestBody :=
  MkRequestBody (prb_Description b) (prb_Required b) (each remap_media (prb_MediaTypes b)).
Definition remap_response (r : Response) : Response :=
  MkResponse (pres_Ordinal r) (pres_ID r) (pres_Status r) (pres_Description r)
    (each remap_header (pres_Headers r)) (each remap_media (pres_MediaTypes r)).
Definition remap_operation (o : OperationDetail) : OperationDetail :=
  MkOperationDetail (podx_Ordinal o) (podx_ID o) (podx_Anchor o) (podx_Href o) (podx_HeadingID o) (podx_Heading o)
    (podx_HeadingLevel o) (podx_Method o) (podx_Path o) (podx_RequestTarget o) (podx_FixedQuery o) (podx_Summary o)
    (podx_Description o) (podx_Deprecated o) (podx_Tags o) (each remap_parameter (podx_Parameters o))
    (podx_HasRequestBody o) (remap_body (podx_RequestBody o)) (each remap_response (podx_Responses o))
    (podx_Security o) (podx_CodeSamples o).
Definition remap_schema (d : SchemaDetail) : SchemaDetail :=
  MkSchemaDetail (psdx_Ordinal d) (psdx_ID d) (psdx_Anchor d) (psdx_Href d) (psdx_HeadingID d) (psdx_Heading d)
    (psdx_HeadingLevel d) (psdx_Description d) (remap (psdx_SchemaRef d)) (psdx_ExampleSchemaJSON d) (psdx_Examples d).
End remap.

Definition sorted_nodes (g : schemaGraphBuilder) : list SchemaNode :=
  imap (λ ordinal old, remap_node (graph_remap g) ordinal (graph_nodes g !!! old)) (graph_order g).

Definition finalizeSchemaGraph (g : schemaGraphBuilder) (d : Document) : Document :=
  MkDocument (pdoc_FormatVersion d) (pdoc_ProjectID d) (pdoc_RevisionID d) (pdoc_Title d) (pdoc_APIVersion d)
    (pdoc_Branding d) (pdoc_Overview d) (pdoc_MainLandmark d) (pdoc_OperationGroupHeading d)
    (pdoc_SchemaGroupHeading d) (pdoc_SidebarSections d) (pdoc_Operations d)
    (each (remap_operation (graph_remap g)) (pdoc_OperationDetails d)) (pdoc_Schemas d)
    (each (remap_schema (graph_remap g)) (pdoc_SchemaDetails d))
    (Some (sorted_nodes g)) (pdoc_Search d) (pdoc_PublicRoutes d).
