(* ===== verification/ProjectionBuild.v ===== *)
(** * Building a projection (application/projection/build.go, anchors.go)

    The builder turns a specification index into the flat document a page is
    rendered from.  Every element gets an anchor; the builder claims each anchor
    once, resolves the references of search records and public routes against
    them and interns all schemas into one graph.

    The lists of an index stand for slices that are nil when empty.  [sort.Slice] is
    a stable sort here; it is not in Go, which matters only for search documents of
    one ID and routes of one path and title, and both are refused. *)

From S2P Require Import Prelude GoString GoSha256 Identity Spec CatalogIdentity SpecValidation EmbeddedJson GoUrl Projection.
From S2P Require Import SchemaGraph.

(** ** Anchors *)

(** [url.QueryEscape] *)
Definition upper_hex_digit (n : Z) : Z := if n <? 10 then 48 + n else 55 + n.
Definition query_escape_byte (b : Z) : list Z :=
  if is_alpha b || is_digit b || (b =? 45) || (b =? 95) || (b =? 46) || (b =? 126) then [b]
  else if b =? 32 then [43]
  else [37; upper_hex_digit (b / 16); upper_hex_digit (b `mod` 16)].
Definition QueryEscape (s : string) : string := of_bytes (bytes_of s ≫= query_escape_byte).

Definition asciiLowerOrDigit (value : Z) : bool := in_range 97 122 value || in_range 48 57 value.

Definition validSuppliedAnchor (value : string) : bool :=
  match runes value with
  | [] => false
  | r :: rest =>
      asciiLowerOrDigit r
      && forallb (λ r, (r <=? 0x7F) && (asciiLowerOrDigit r || existsb (Z.eqb r) (bytes_of "._~/-"))) rest
  end.

(** The loop of [slugASCII]; [written] is what the builder holds. *)
Fixpoint slug_runes (written : list Z) (rs : list Z) : list Z :=
  match rs with
  | [] => written
  | r :: rs =>
      if in_range 65 90 r then slug_runes (written ++ [r + 32]) rs
      else if in_range 97 122 r || in_range 48 57 r then slug_runes (written ++ [r]) rs
      else if bool_decide (written = []) || (List.last written 0 =? 45) then slug_runes written rs
      else slug_runes (written ++ [45]) rs
  end.
Definition slugASCII (value : string) : string := of_bytes (trim_by (Z.eqb 45) (slug_runes [] (runes value))).

Definition selectedHref (anchor : string) : string := "?selected=" +:+ QueryEscape anchor +:+ "#" +:+ anchor.

Definition recordID (kind : string) (parts : list string) : string :=
  kind +:+ "-" +:+ hex_encode (sha256 (bytes_of kind ++ [0] ++ (parts ≫= appendSchemaString))).

Definition operationAnchor `{CaseTables} (operationID supplied method operationPath : string) : res string :=
  if negb (bool_decide (supplied = "")) then
    throw_if (negb (bool_decide (supplied = TrimSpace supplied)) || negb (validSuppliedAnchor supplied))
      (projectionFailure "operation.anchor" "invalid_source") ;;
    mret supplied
  else
    let value := slugASCII operationID in
    let value := if bool_decide (value = "") then slugASCII (ToUpper method +:+ " " +:+ operationPath) else value in
    throw_if (bool_decide (value = "")) (projectionFailure "operation.anchor" "invalid_source") ;;
    mret ("operation-" +:+ value).

Section references.
Context `{IPLiterals}.

Definition parseSelectedReference (raw : string) : res string :=
  match url_Parse raw with
  | None => Fail (projectionFailure "navigation.href" "invalid_source")
  | Some reference =>
      throw_if (IsAbs reference || negb (bool_decide (u_Host reference = "")) || u_User reference
                || negb (bool_decide (u_Path reference = "")) || bool_decide (u_Fragment reference = "")
                || Contains raw "\")
        (projectionFailure "navigation.href" "invalid_source") ;;
      let query := URL_Query reference in
      let keys := size (query_keys query) in
      throw_if (1 <? keys)%nat (projectionFailure "navigation.href" "invalid_source") ;;
      throw_if ((keys =? 1)%nat && negb (bool_decide (query_values "selected" query = [u_Fragment reference])))
        (projectionFailure "navigation.href" "invalid_source") ;;
      mret (u_Fragment reference)
  end.

Definition canonicalPublicRoute (raw : string) (resolve : string → option string) : res string :=
  let failure := projectionFailure "publicRoutes.path" "invalid_source" in
  match url_Parse raw with
  | None => Fail failure
  | Some reference =>
      throw_if (IsAbs reference || negb (bool_decide (u_Host reference = "")) || u_User reference
                || Contains raw "\" || negb (bool_decide (TrimSpace raw = raw))) failure ;;
      if bool_decide (raw = "/") then mret raw
      else
        throw_if (bool_decide (u_Path reference = "") || negb (HasPrefix (u_Path reference) "/")
                  || negb (bool_decide (path_clean (u_Path reference) = u_Path reference))
                  || bool_decide (u_Fragment reference = "")) failure ;;
        let query := URL_Query reference in
        throw_if (negb (size (query_keys query) =? 1)%nat
                  || negb (bool_decide (query_values "selected" query = [u_Fragment reference]))) failure ;;
        match resolve (u_Fragment reference) with
        | None => Fail failure
        | Some anchor => mret (u_Path reference +:+ selectedHref anchor)
        end
  end.
End references.

(** ** Texts *)

Definition operationTitle `{CaseTables} (operation : Operation) : string :=
  if negb (bool_decide (TrimSpace (op_Title operation) = "")) then op_Title operation
  else if negb (bool_decide (TrimSpace (op_Summary operation) = "")) then op_Summary operation
  else if negb (bool_decide (TrimSpace (op_ID operation) = "")) then op_ID operation
  else TrimSpace (ToUpper (op_Method operation) +:+ " "
                  +:+ EffectiveOperationRequestTarget (op_Path operation) (op_RequestTarget operation)).

Fixpoint deduplicate_from (seen : gset string) (dropBlank : bool) (source : list string) : list string :=
  match source with
  | [] => []
  | value :: source =>
      if dropBlank && bool_decide (TrimSpace value = "") || bool_decide (value ∈ seen)
      then deduplicate_from seen dropBlank source
      else value :: deduplicate_from ({[value]} ∪ seen) dropBlank source
  end.
Definition deduplicateStrings (source : list string) (dropBlank : bool) : list string :=
  deduplicate_from ∅ dropBlank source.

Definition textRecords (kind : string) (source : list string) (dropBlank deduplicate : bool) : slice TextRecord :=
  let values := if deduplicate then deduplicateStrings source dropBlank else source in
  let values := if dropBlank then filter (λ value, TrimSpace value ≠ "") values else values in
  Some (imap (λ ordinal value, MkTextRecord (uint32 (Z.of_nat ordinal)) (recordID kind [value]) value) values).

Definition projectionFixedQuery (source : list Spec.FixedQueryParameter) : slice FixedQueryParameter :=
  match source with
  | [] => None
  | _ => Some ((λ item, MkFixedQueryParameter (Spec.fq_Name item) (Spec.fq_Value item)) <$> source)
  end.

Definition primary_example (provided : bool) (text : string) : slice Example :=
  Some (if provided then [MkExample 0 "primary" text true] else []).

(** ** The state of a build *)

Definition with_targets (targets : gmap string string) (s : buildState) : buildState :=
  MkBuildState (bs_ctx s) (bs_resourceLimits s) targets (bs_aliases s) (bs_schemaGraph s).
Definition with_aliases (aliases : gmap string string) (s : buildState) : buildState :=
  MkBuildState (bs_ctx s) (bs_resourceLimits s) (bs_targets s) aliases (bs_schemaGraph s).

Definition claimTarget (id kind : string) : building unit :=
  targets ← gets bs_targets;
  lift (throw_if (bool_decide (is_Some (targets !! id))) (projectionFailure "navigation.id" "duplicate_record")) ;;
  modify (with_targets (<[id := kind]> targets)).

(** The anchor and kind a reference leads to. *)
Definition resolve (s : buildState) (source : string) : option (string * string) :=
  let source := default source (bs_aliases s !! source) in
  kind ← bs_targets s !! source;
  if bool_decide (kind = "fixed") || bool_decide (kind = "operation-tag") then None else Some (source, kind).

(** Loops that build records and refuse a second record of one ID. *)
Section build_each.
Context {A B : Type} (id : B → string) (f : Z → list string → A → building B).
Fixpoint build_each_from (sourceIndex : Z) (seen : list string) (source : list A) : building (list B) :=
  match source with
  | [] => mret []
  | x :: source =>
      record ← f sourceIndex seen x;
      records ← build_each_from (sourceIndex + 1) (id record :: seen) source;
      mret (record :: records)
  end.
Definition build_each (source : list A) : building (list B) := build_each_from 0 [] source.
End build_each.

Definition refuse_duplicate (id : string) (seen : list string) (path : string) : building unit :=
  lift (throw_if (bool_decide (id ∈ seen)) (projectionFailure path "duplicate_record")).

Definition initial_targets : gmap string string := list_to_map [
  ("main-content", "fixed"); ("overview", "overview"); ("overview-heading", "fixed");
  ("operations-heading", "fixed"); ("schemas-heading", "fixed"); ("schemas", "fixed")].

Record indexedOperation := MkIndexedOperation {
  io_source : Operation;
  io_anchor : string;
}.

Record indexedSchema := MkIndexedSchema {
  is_source : Schema;
  is_anchor : string;
}.

(** ** The parts of a document *)

Section build.
Context `{CaseTables, IPLiterals} (hasher : list Z → list Z) (heap : Heap) (fuel : nat).
Notation intern := (internSchema hasher heap fuel).

Definition build_variable (serverID : string) (variableIndex : Z) (seen : list string) (variable : SpecServerVariable) :
    building ServerVariable :=
  checkpoint ;;
  let id := recordID "server-variable" [serverID; Spec.sv_Name variable] in
  refuse_duplicate id seen "overview.servers.variables" ;;
  mret (MkServerVariable (uint32 variableIndex) id (Spec.sv_Name variable) (Spec.sv_Default variable)
          (Spec.sv_Description variable) (textRecords "server-enum" (Spec.sv_Enum variable) false false)).

Definition build_server (sourceIndex : Z) (seen : list string) (source : SpecServer) : building Server :=
  checkpoint ;;
  let id := recordID "server" [srv_URL source] in
  refuse_duplicate id seen "overview.servers" ;;
  variables ← build_each psv_ID (build_variable id) (srv_Variables source);
  mret (MkServer (uint32 sourceIndex) id (srv_URL source) (srv_Description source) (Some variables)).

Definition buildOverview (index : SpecIndex) : building Overview :=
  let overview := ix_Overview index in
  servers ← build_each pser_ID build_server (ov_Servers overview);
  mret (MkOverview "overview" (selectedHref "overview") "overview-heading" (ix_Title index) 2
          (ov_Description overview) (ov_TermsOfService overview) (dl_Filename (ix_SpecDownload index))
          (MkContact (ct_Name (ov_Contact overview)) (ct_URL (ov_Contact overview)) (ct_Email (ov_Contact overview)))
          (MkLicense (li_Name (ov_License overview)) (li_URL (ov_License overview)) (li_Identifier (ov_License overview)))
          (Some servers)).

Fixpoint index_operations (source : list Operation) : building (list indexedOperation) :=
  match source with
  | [] => mret []
  | operation :: source =>
      checkpoint ;;
      anchor ← lift (operationAnchor (op_ID operation) (op_Anchor operation) (op_Method operation)
                       (EffectiveOperationRequestTarget (op_Path operation) (op_RequestTarget operation)));
      claimTarget anchor "operation" ;;
      operations ← index_operations source;
      mret (MkIndexedOperation operation anchor :: operations)
  end.
Definition indexOperations (source : list Operation) : building (list indexedOperation) :=
  operations ← index_operations source;
  mret (sort_by (less_by (λ o, [KS (io_anchor o)])) operations).

Definition claim_alias (legacy anchor : string) : building unit :=
  aliases ← gets bs_aliases;
  lift (throw_if (match aliases !! legacy with Some existing => negb (bool_decide (existing = anchor)) | None => false end)
    (projectionFailure "schemas.alias" "duplicate_record")) ;;
  targets ← gets bs_targets;
  lift (throw_if (match targets !! legacy with
                  | Some kind => negb (bool_decide (legacy = anchor)) && negb (bool_decide (kind = "schema"))
                  | None => false
                  end)
    (projectionFailure "schemas.alias" "duplicate_record")) ;;
  modify (with_aliases (<[legacy := anchor]> aliases)).

Fixpoint index_schemas (source : list Schema) : building (list indexedSchema) :=
  match source with
  | [] => mret []
  | schema :: source =>
      checkpoint ;;
      let anchor := "schema-" +:+ slugASCII (sch_Name schema) in
      lift (throw_if (bool_decide (anchor = "schema-")) (projectionFailure "schemas.anchor" "invalid_source")) ;;
      claimTarget anchor "schema" ;;
      claim_alias ("schema-" +:+ ToLower (sch_Name schema)) anchor ;;
      schemas ← index_schemas source;
      mret (MkIndexedSchema schema anchor :: schemas)
  end.
Definition indexSchemas (source : list Schema) : building (list indexedSchema) :=
  schemas ← index_schemas source;
  mret (sort_by (less_by (λ s, [KS (is_anchor s)])) schemas).

(** *** Operation details *)

Definition build_parameter (sourceIndex : Z) (seen : list string) (parameter : Spec.OperationParameter) :
    building OperationParameter :=
  checkpoint ;;
  schemaRef ← intern (par_Schema parameter);
  let id := recordID "parameter" [ToLower (par_In parameter); par_Name parameter] in
  refuse_duplicate id seen "operations.parameters" ;;
  mret (MkOperationParameter (uint32 sourceIndex) id (par_Name parameter) (par_In parameter) (par_Required parameter)
          (par_Description parameter) schemaRef
          (primary_example (negb (bool_decide (par_Example parameter = ""))) (par_Example parameter))).

Definition build_header (sourceIndex : Z) (seen : list string) (header : OperationResponseHeader) :
    building ResponseHeader :=
  checkpoint ;;
  schemaRef ← intern (rh_Schema header);
  let id := recordID "response-header" [ToLower (rh_Name header)] in
  refuse_duplicate id seen "operations.responses.headers" ;;
  mret (MkResponseHeader (uint32 sourceIndex) id (rh_Name header) (rh_Description header) schemaRef
          (primary_example (negb (bool_decide (rh_Example header = ""))) (rh_Example header))).
Definition buildResponseHeaders (source : list OperationResponseHeader) : building (list ResponseHeader) :=
  build_each prh_ID build_header source.

Definition build_media (sourceIndex : Z) (seen : list string) (media : OperationMediaType) : building MediaType :=
  checkpoint ;;
  refuse_duplicate (mt_ContentType media) seen "operations.mediaTypes" ;;
  schemaRef ← intern (mt_Schema media);
  mret (MkMediaType (uint32 sourceIndex) (mt_ContentType media) (mt_ContentType media) schemaRef
          (primary_example (mt_ExampleProvided media) (mt_Example media))).
Definition buildMediaTypes (source : list OperationMediaType) : building (list MediaType) :=
  build_each pmt_ID build_media source.

Definition build_response (sourceIndex : Z) (seen : list string) (response : OperationResponse) : building Response :=
  headers ← buildResponseHeaders (rsp_Headers response);
  media ← buildMediaTypes (rsp_MediaTypes response);
  refuse_duplicate (rsp_Status response) seen "operations.responses" ;;
  mret (MkResponse (uint32 sourceIndex) (rsp_Status response) (rsp_Status response) (rsp_Description response)
          (Some headers) (Some media)).

Definition build_security (sourceIndex : Z) (seen : list string) (requirement : OperationSecurity) :
    building SecurityRequirement :=
  refuse_duplicate (os_Name requirement) seen "operations.security" ;;
  let definition := os_Definition requirement in
  mret (MkSecurityRequirement (uint32 sourceIndex) (os_Name requirement) (os_Name requirement)
          (textRecords "scope" (os_Scopes requirement) false true)
          (MkSecurityScheme (sec_Name definition) (sec_Type definition) (sec_Description definition)
             (sec_ParameterName definition) (sec_In definition) (sec_Scheme definition)
             (sec_BearerFormat definition) (sec_OpenIDConnectURL definition))).

Definition build_sample (sourceIndex : Z) (seen : list string) (snippet : RequestSnippet) : building CodeSample :=
  let id := recordID "code-sample" [sn_Language snippet; sn_Label snippet] in
  refuse_duplicate id seen "operations.codeSamples" ;;
  mret (MkCodeSample (uint32 sourceIndex) id (sn_Label snippet) (sn_Language snippet) (sn_Code snippet)).

Definition build_body (body : option OperationRequestBody) : building RequestBody :=
  match body with
  | None => mret (MkRequestBody "" false (Some []))
  | Some body =>
      media ← buildMediaTypes (rb_MediaTypes body);
      mret (MkRequestBody (rb_Description body) (rb_Required body) (Some media))
  end.

Definition buildOperationDetail (ordinal : Z) (indexed : indexedOperation) : building OperationDetail :=
  let operation := io_source indexed in
  let anchor := io_anchor indexed in
  parameters ← build_each ppar_ID build_parameter (op_Parameters operation);
  requestBody ← build_body (op_RequestBody operation);
  responses ← build_each pres_ID build_response (op_Responses operation);
  security ← build_each psr_ID build_security (op_Security operation);
  codeSamples ← build_each pcs_ID build_sample (op_Snippets operation);
  mret (MkOperationDetail ordinal anchor anchor (selectedHref anchor) anchor (operationTitle operation) 3
          (op_Method operation) (op_Path operation) (op_RequestTarget operation)
          (projectionFixedQuery (op_FixedQuery operation)) (op_Summary operation) (op_Description operation)
          (op_Deprecated operation) (textRecords "tag" (op_Tags operation) true true) (Some parameters)
          (bool_decide (is_Some (op_RequestBody operation))) requestBody (Some responses) (Some security)
          (Some codeSamples)).

(** *** Operations and their sections *)

(** [sectionByID]; a section is appended to in place. *)
Definition sections := gmap string SidebarSection.

Definition add_item (item : SidebarItem) (section : SidebarSection) : SidebarSection :=
  MkSidebarSection (pss_Ordinal section) (pss_ID section) (pss_Kind section) (pss_Title section) (pss_Href section)
    (gappend (pss_Items section) [item]).

Definition join_section (item : SidebarItem) (sectionByID : sections) (tag : string) : building sections :=
  let sectionID := recordID "operation-tag" [tag] in
  section ← match sectionByID !! sectionID with
    | Some section => mret section
    | None =>
        claimTarget sectionID "operation-tag" ;;
        mret (MkSidebarSection 0 sectionID "operation-tag" tag ("?section=" +:+ QueryEscape sectionID) (Some []))
    end;
  mret (<[sectionID := add_item item section]> sectionByID).

Fixpoint join_sections (item : SidebarItem) (sectionByID : sections) (memberships : list string) : building sections :=
  match memberships with
  | [] => mret sectionByID
  | tag :: memberships =>
      sectionByID ← join_section item sectionByID tag;
      join_sections item sectionByID memberships
  end.

Definition operation_memberships (operation : Operation) : list string :=
  match deduplicateStrings (op_Tags operation) true with
  | [] => ["Untagged"]
  | tags => tags
  end.

Definition section_records (memberships : list string) : slice TextRecord :=
  Some (imap (λ membershipIndex tag,
    let sectionID := recordID "operation-tag" [tag] in
    MkTextRecord (uint32 (Z.of_nat membershipIndex)) (recordID "operation-section" [sectionID]) sectionID) memberships).

Fixpoint build_operations (operationIndex : Z) (sectionByID : sections) (source : list indexedOperation) :
    building (list (OperationDirectory * OperationDetail) * sections) :=
  match source with
  | [] => mret ([], sectionByID)
  | indexed :: source =>
      checkpoint ;;
      let operation := io_source indexed in
      let anchor := io_anchor indexed in
      let memberships := operation_memberships operation in
      sectionByID ← join_sections
        (MkSidebarItem (uint32 operationIndex) anchor anchor (selectedHref anchor) (operationTitle operation)
           (op_Method operation)) sectionByID memberships;
      let directory :=
        MkOperationDirectory (uint32 operationIndex) anchor anchor (selectedHref anchor) (op_Method operation)
          (op_Path operation) (op_RequestTarget operation) (projectionFixedQuery (op_FixedQuery operation))
          (operationTitle operation) (op_Deprecated operation) (section_records memberships) in
      detail ← buildOperationDetail (uint32 operationIndex) indexed;
      '(operations, sectionByID) ← build_operations (operationIndex + 1) sectionByID source;
      mret ((directory, detail) :: operations, sectionByID)
  end.

Definition buildOperations (source : list indexedOperation) :
    building (list OperationDirectory * list OperationDetail * list SidebarSection) :=
  '(operations, sectionByID) ← build_operations 0 ∅ source;
  mret (operations.*1, operations.*2, sort_by (less_by (λ s, [KS (pss_ID s)])) (map_to_list sectionByID).*2).

(** *** Schemas *)

Definition build_schema (sourceIndex : Z) (indexed : indexedSchema) :
    building (SchemaDirectory * SchemaDetail * SidebarItem) :=
  checkpoint ;;
  let schema := is_source indexed in
  let anchor := is_anchor indexed in
  schemaRef ← intern (sch_Summary schema);
  resourceLimits ← gets bs_resourceLimits;
  exampleSchemaJSON ← lift
    (if bool_decide (se_JSON (sch_Example schema) = "") then mret ""
     else canonicalEmbeddedJSONWithResourceLimits (se_JSON (sch_Example schema)) resourceLimits);
  let ordinal := uint32 sourceIndex in
  let href := selectedHref anchor in
  mret (MkSchemaDirectory ordinal anchor anchor href (sch_Name schema) (sch_Name schema) (sch_Description schema),
        MkSchemaDetail ordinal anchor anchor href anchor (sch_Name schema) 3 (sch_Description schema) schemaRef
          exampleSchemaJSON (primary_example (se_Provided (sch_Example schema)) (se_Example (sch_Example schema))),
        MkSidebarItem ordinal anchor anchor href (sch_Name schema) "").

Fixpoint build_schemas (sourceIndex : Z) (source : list indexedSchema) :
    building (list (SchemaDirectory * SchemaDetail * SidebarItem)) :=
  match source with
  | [] => mret []
  | indexed :: source =>
      record ← build_schema sourceIndex indexed;
      records ← build_schemas (sourceIndex + 1) source;
      mret (record :: records)
  end.

Definition buildSchemas (source : list indexedSchema) :
    building (list SchemaDirectory * list SchemaDetail * option SidebarSection) :=
  records ← build_schemas 0 source;
  mret (records.*1.*1, records.*1.*2,
        match source with
        | [] => None
        | _ => Some (MkSidebarSection 0 "schemas" "schemas" "Schemas" "?section=schemas" (Some records.*2))
        end).

(** *** Search records and public routes *)

Definition build_search_record (sourceIndex : Z) (seen : list string) (document : SearchDocument) : building SearchRecord :=
  checkpoint ;;
  refuse_duplicate (sd_ID document) seen "search.id" ;;
  target ← lift (parseSelectedReference (sd_Href document));
  resolved ← gets (λ s, resolve s target);
  let kind := ToLower (TrimSpace (sd_Kind document)) in
  let failure := projectionFailure "search.href" "invalid_source" in
  anchor ← lift
    match resolved with
    | Some (anchor, targetKind) =>
        throw_if (negb (bool_decide (kind = targetKind))
                  || negb (bool_decide (kind = "overview")) && negb (bool_decide (kind = "operation"))
                     && negb (bool_decide (kind = "schema"))) failure ;;
        mret anchor
    | None => Fail failure
    end;
  let resultID := recordID "search-result" [sd_ID document] in
  claimTarget resultID "search-result" ;;
  mret (MkSearchRecord (uint32 sourceIndex) (sd_ID document) resultID (sd_Title document) (sd_Description document)
          (selectedHref anchor) kind (sd_Method document) (sd_Path document) (sd_Section document)
          (textRecords "keyword" (sd_Keywords document) true true)).

Definition buildSearch (source : list SearchDocument) : building (list SearchRecord) :=
  build_each psrx_ID build_search_record (sort_by (less_by (λ d, [KS (sd_ID d)])) source).

Fixpoint build_routes (sourceIndex : Z) (seen : list string) (source : list Spec.PublicRoute) :
    building (list PublicRoute) :=
  match source with
  | [] => mret []
  | route :: source =>
      s ← gets id;
      canonical ← lift (canonicalPublicRoute (pr_Path route) (λ value, fst <$> resolve s value));
      let key := canonical +:+ of_bytes [0] +:+ pr_Title route in
      lift (throw_if (bool_decide (key ∈ seen)) (projectionFailure "publicRoutes" "duplicate_record")) ;;
      routes ← build_routes (sourceIndex + 1) (key :: seen) source;
      mret (MkPublicRoute (uint32 sourceIndex) canonical (pr_Title route) (pr_Description route) :: routes)
  end.
Definition buildPublicRoutes (source : list Spec.PublicRoute) : building (list PublicRoute) :=
  build_routes 0 [] (sort_by (less_by (λ r, [KS (pr_Path r); KS (pr_Title r)])) source).

(** ** The document *)

Definition number_section (ordinal : nat) (section : SidebarSection) : SidebarSection :=
  MkSidebarSection (uint32 (Z.of_nat ordinal)) (pss_ID section) (pss_Kind section) (pss_Title section) (pss_Href section)
    (pss_Items section).

Definition build (index : SpecIndex) : building Document :=
  overview ← buildOverview index;
  operations ← indexOperations (ix_Operations index);
  schemas ← indexSchemas (ix_Schemas index);
  '(operationDirectories, operationDetails, sections) ← buildOperations operations;
  '(schemaDirectories, schemaDetails, schemaSection) ← buildSchemas schemas;
  search ← buildSearch (ix_Search index);
  routes ← buildPublicRoutes (ix_PublicRoutes index);
  let branding := ix_Branding index in
  graph ← gets bs_schemaGraph;
  mret (finalizeSchemaGraph graph
    (MkDocument 2 (ix_ProjectID index) (ix_RevisionID index) (ix_Title index) (ix_Version index)
       (MkBranding (br_DisplayName branding) (bl_Src (br_Logo branding)) (bl_Alt (br_Logo branding))
          (bl_HomeURL (br_Logo branding)) (br_Favicon branding))
       overview (MkLandmark "main-content" "main") (MkHeading "operations-heading" "Operations" 2)
       (MkHeading "schemas-heading" "Schemas" 2)
       (Some (imap number_section (sections ++ option_list schemaSection)))
       (Some operationDirectories) (Some operationDetails) (Some schemaDirectories) (Some schemaDetails) (Some [])
       (Some search) (Some routes))).

(** The copy that is validated: the example and the download are not looked at. *)
Definition validation_copy (index : SpecIndex) : SpecIndex :=
  MkSpecIndex (ix_ProjectID index) (ix_RevisionID index) (ix_Title index) (ix_Version index) (ix_Branding index)
    (ix_Overview index) (MkSpecDownload [] (dl_Filename (ix_SpecDownload index))) (ix_Operations index) (ix_Schemas index)
    (ix_SecuritySchemes index) (ix_Search index) (ix_PublicRoutes index) "".

Definition as_failure {A} (m : res A) (path class : string) : res A := wrap_err m (λ _, projectionFailure path class).

Definition new_build (ctx : list (res unit)) (resourceLimits : bool) : buildState :=
  MkBuildState ctx resourceLimits initial_targets ∅ (newSchemaGraphBuilder resourceLimits).

Definition checked_build (index : SpecIndex) (resourceLimits : bool) : building Document :=
  checkpoint ;;
  lift (as_failure (ValidateCanonicalIdentity "projection project ID" (ix_ProjectID index) false) "projectId" "invalid_identity") ;;
  lift (as_failure (ValidateCanonicalIdentity "projection revision ID" (ix_RevisionID index) false) "revisionId" "invalid_identity") ;;
  lift (as_failure (ValidateSpecIndexWithOptions heap (validation_copy index) (MkValidationOptions resourceLimits)) "source" "invalid_source") ;;
  checkpoint ;;
  build index.

Definition buildWithSchemaHasher (ctx : list (res unit)) (index : SpecIndex) (resourceLimits : bool) : res Document :=
  (checked_build index resourceLimits (new_build ctx resourceLimits)).2.
End build.

Definition Build `{CaseTables, IPLiterals} (heap : Heap) (fuel : nat) (ctx : list (res unit)) (index : SpecIndex)
    (resourceLimits : bool) : res Document :=
  buildWithSchemaHasher sha256 heap fuel ctx index resourceLimits.
