(* ===== verification/CatalogModel.v ===== *)
(** * The catalog data model (application/catalog/model.go, bounds.go)

    What a compiled catalog snapshot holds: its identity, its directory of
    documents, operations and schemas, its search directory, its children and
    the manifest that names them by length and digest. *)

From S2P Require Import Prelude.
From S2P Require Spec.
From S2P Require Projection.

Definition SnapshotID : Type := string.

Abbreviation FixedQueryParameter := Spec.FixedQueryParameter.

Record CatalogPublication := MkCatalogPublication {
  cp_API : string;
  cp_Audience : string;
  cp_Channel : string;
  cp_ChannelName : string;
  cp_Version : string;
  cp_Latest : bool;
  cp_RepositoryURL : string;
  cp_Ref : string;
  cp_Commit : string;
  cp_SourcePath : string;
}.

Record Bounds := MkBounds {
  bd_Catalogs : Z;
  bd_Documents : Z;
  bd_Operations : Z;
  bd_Schemas : Z;
  bd_SourceBytes : Z;
  bd_KubernetesSourceBytes : Z;
  bd_SourceDocumentBytes : Z;
  bd_DirectoryBytes : Z;
  bd_SearchBytes : Z;
  bd_ProjectionBytes : Z;
  bd_SnapshotBytes : Z;
  bd_Children : Z;
  bd_DetailShardRecords : Z;
  bd_DetailShardBytes : Z;
  bd_SchemaNodeShardRecords : Z;
  bd_SchemaNodeShardBytes : Z;
  bd_PostingSegmentBytes : Z;
  bd_StartupCatalogBytes : Z;
  bd_StoredBytes : Z;
  bd_StagingBytes : Z;
}.

Record BudgetUsage := MkBudgetUsage {
  bu_Catalogs : Z;
  bu_Documents : Z;
  bu_Operations : Z;
  bu_Schemas : Z;
  bu_SourceBytes : Z;
  bu_Kubernetes : bool;
  bu_SourceDocumentBytes : Z;
  bu_DirectoryBytes : Z;
  bu_SearchBytes : Z;
  bu_ProjectionBytes : Z;
  bu_SnapshotBytes : Z;
  bu_Children : Z;
  bu_DetailShardRecords : Z;
  bu_DetailShardBytes : Z;
  bu_SchemaNodeShardRecords : Z;
  bu_SchemaNodeShardBytes : Z;
  bu_PostingSegmentBytes : Z;
  bu_StartupCatalogBytes : Z;
  bu_StoredBytes : Z;
  bu_StagingBytes : Z;
}.

Record CompilerVersions := MkCompilerVersions {
  cv_KinOpenAPIModule : string;
  cv_KinOpenAPIChecksum : string;
  cv_CompilerFormat : string;
  cv_ProjectionFormat : string;
  cv_SearchFormat : string;
  cv_PartitionPolicy : string;
}.

Record SourceIdentityV1 := MkSourceIdentityV1 {
  src_Role : string;
  src_DocumentKey : string;
  src_SourcePath : string;
  src_Length : Z;
  src_SHA256 : string;
}.

Record ChildIdentityV1 := MkChildIdentityV1 {
  ci_Path : string;
  ci_Kind : string;
  ci_Length : Z;
  ci_SHA256 : string;
}.

Record BrandingV1 := MkBrandingV1 {
  bra_DisplayName : string;
  bra_LogoSrc : string;
  bra_LogoAlt : string;
  bra_LogoHomeHref : string;
  bra_FaviconHref : string;
}.

Record SnapshotIdentityV1 := MkSnapshotIdentityV1 {
  sid_SchemaVersion : Z;
  sid_CatalogID : string;
  sid_CatalogTitle : string;
  sid_Branding : BrandingV1;
  sid_DefaultDocumentKey : string;
  sid_ProfileID : string;
  sid_RevisionKind : string;
  sid_RevisionID : string;
  sid_CommitSHA : string;
  sid_SourceManifestSHA256 : string;
  sid_ProfileAllowlistLength : Z;
  sid_ProfileAllowlistSHA256 : string;
  sid_Versions : CompilerVersions;
  sid_Bounds : Bounds;
  sid_Sources : slice SourceIdentityV1;
  sid_Children : slice ChildIdentityV1;
}.

Record ChildArtifact := MkChildArtifact {
  ch_Path : string;
  ch_Kind : string;
  ch_Length : Z;
  ch_SHA256 : string;
  ch_Bytes : list Z;
}.

Record ShardReferenceV1 := MkShardReferenceV1 {
  shr_Path : string;
  shr_FirstOrdinal : Z;
  shr_LastOrdinal : Z;
  shr_Records : Z;
  shr_Length : Z;
  shr_SHA256 : string;
}.

Record FacetV1 := MkFacetV1 {
  fct_Name : string;
  fct_Value : string;
}.

Record OperationDirectoryV1 := MkOperationDirectoryV1 {
  od_DetailID : string;
  od_OperationID : string;
  od_Method : string;
  od_Path : string;
  od_RequestTarget : string;
  od_FixedQuery : slice FixedQueryParameter;
  od_Title : string;
  od_Description : string;
  od_Href : string;
  od_DetailChild : string;
  od_Deprecated : bool;
  od_Tags : slice string;
  od_Facets : slice FacetV1;
}.

Record SchemaDirectoryV1 := MkSchemaDirectoryV1 {
  scd_DetailID : string;
  scd_Name : string;
  scd_Description : string;
  scd_Href : string;
  scd_DetailChild : string;
  scd_CanonicalSHA256 : string;
  scd_ProjectionSHA256 : string;
}.

Record SecuritySchemeDirectoryV1 := MkSecuritySchemeDirectoryV1 {
  ssd_Name : string;
  ssd_Anchor : string;
  ssd_Type : string;
  ssd_Description : string;
  ssd_ParameterName : string;
  ssd_In : string;
  ssd_Scheme : string;
  ssd_BearerFormat : string;
  ssd_OpenIDConnectURL : string;
}.

Record DocumentDirectoryV1 := MkDocumentDirectoryV1 {
  dd_Publication : option CatalogPublication;
  dd_Key : string;
  dd_SourcePath : string;
  dd_Title : string;
  dd_APIVersion : string;
  dd_Branding : BrandingV1;
  dd_Overview : Projection.Overview;
  dd_SourceChild : string;
  dd_SchemaNodeShards : slice ShardReferenceV1;
  dd_Operations : slice OperationDirectoryV1;
  dd_Schemas : slice SchemaDirectoryV1;
  dd_SecuritySchemes : slice SecuritySchemeDirectoryV1;
}.

Record CatalogArtifactV1 := MkCatalogArtifactV1 {
  ca_SchemaVersion : Z;
  ca_CatalogID : string;
  ca_Title : string;
  ca_Branding : BrandingV1;
  ca_DefaultDocumentKey : string;
  ca_ProfileID : string;
  ca_SearchChild : string;
  ca_Documents : slice DocumentDirectoryV1;
}.

Record CompiledSnapshot := MkCompiledSnapshot {
  cs_ID : SnapshotID;
  cs_Identity : SnapshotIdentityV1;
  cs_Directory : CatalogArtifactV1;
  cs_Children : slice ChildArtifact;
}.

Record DetailRecordV1 := MkDetailRecordV1 {
  dr_ID : string;
  dr_Kind : string;
  dr_Operation : option Projection.OperationDetail;
  dr_Schema : option Projection.SchemaDetail;
}.

Record DetailShardV1 := MkDetailShardV1 {
  dsh_SchemaVersion : Z;
  dsh_DocumentKey : string;
  dsh_Records : slice DetailRecordV1;
}.

Record SchemaNodeShardV1 := MkSchemaNodeShardV1 {
  sns_SchemaVersion : Z;
  sns_DocumentKey : string;
  sns_FirstOrdinal : Z;
  sns_Nodes : slice Projection.SchemaNode;
}.

Record DocumentArtifacts := MkDocumentArtifacts {
  da_Directory : DocumentDirectoryV1;
  da_Children : slice ChildArtifact;
  da_Usage : BudgetUsage;
}.

Record SearchSegmentReferenceV1 := MkSearchSegmentReferenceV1 {
  ssr_Path : string;
  ssr_Entries : Z;
  ssr_Postings : Z;
  ssr_Length : Z;
  ssr_SHA256 : string;
}.

Record SearchExactBucketReferenceV1 := MkSearchExactBucketReferenceV1 {
  seb_Prefix : string;
  seb_SearchSegmentReferenceV1 : SearchSegmentReferenceV1;
}.

Record SearchPostingRouteV1 := MkSearchPostingRouteV1 {
  spr_Key : string;
  spr_Segment : Z;
}.

Record SearchRecordSegmentReferenceV1 := MkSearchRecordSegmentReferenceV1 {
  srs_Path : string;
  srs_FirstRecord : Z;
  srs_Records : Z;
  srs_Length : Z;
  srs_SHA256 : string;
}.

Record SearchRankRecordV1 := MkSearchRankRecordV1 {
  srk_Title : string;
  srk_Kind : string;
}.

Record SearchDirectoryV1 := MkSearchDirectoryV1 {
  sdir_SchemaVersion : Z;
  sdir_SearchVersion : Z;
  sdir_ExactBuckets : slice SearchExactBucketReferenceV1;
  sdir_TokenRoutes : slice SearchPostingRouteV1;
  sdir_TrigramRoutes : slice SearchPostingRouteV1;
  sdir_PostingSegments : slice SearchSegmentReferenceV1;
  sdir_TrigramSegments : slice SearchSegmentReferenceV1;
  sdir_RecordSegments : slice SearchRecordSegmentReferenceV1;
  sdir_Ranks : slice SearchRankRecordV1;
}.

Record SearchExactMatchV1 := MkSearchExactMatchV1 {
  sem_Record : Z;
  sem_Priority : Z;
}.

Record SearchExactEntryV1 := MkSearchExactEntryV1 {
  see_Key : string;
  see_Matches : slice SearchExactMatchV1;
}.

Record SearchExactSegmentV1 := MkSearchExactSegmentV1 {
  ses_SchemaVersion : Z;
  ses_SearchVersion : Z;
  ses_Entries : slice SearchExactEntryV1;
}.

Record SearchPostingEntryV1 := MkSearchPostingEntryV1 {
  spe_Key : string;
  spe_Records : slice Z;
}.

Record SearchPostingSegmentV1 := MkSearchPostingSegmentV1 {
  sps_SchemaVersion : Z;
  sps_SearchVersion : Z;
  sps_Entries : slice SearchPostingEntryV1;
}.

Record SearchRecordV1 := MkSearchRecordV1 {
  sr_DetailID : string;
  sr_DocumentKey : string;
  sr_Kind : string;
  sr_Title : string;
  sr_Description : string;
  sr_Href : string;
  sr_OperationID : string;
  sr_Method : string;
  sr_Path : string;
  sr_SchemaName : string;
  sr_Occurrences : Z;
  sr_Documents : slice string;
}.

Record SearchRecordSegmentV1 := MkSearchRecordSegmentV1 {
  srsx_SchemaVersion : Z;
  srsx_SearchVersion : Z;
  srsx_FirstRecord : Z;
  srsx_Records : slice SearchRecordV1;
}.

Record SearchArtifacts := MkSearchArtifacts {
  sa_Directory : SearchDirectoryV1;
  sa_Children : slice ChildArtifact;
  sa_Usage : BudgetUsage;
}.

Record ManifestV1 := MkManifestV1 {
  mf_SchemaVersion : Z;
  mf_SnapshotID : SnapshotID;
  mf_Identity : SnapshotIdentityV1;
  mf_Children : slice ChildIdentityV1;
}.

(** [OperationDirectoryV1.EffectiveRequestTarget] *)
Definition EffectiveRequestTarget (operation : OperationDirectoryV1) : string :=
  if negb (bool_decide (od_RequestTarget operation = "")) then od_RequestTarget operation
  else od_Path operation.

(** ** Budgets *)

Definition DefaultBounds : Bounds := {|
  bd_Catalogs := 8; bd_Documents := 256; bd_Operations := 20000; bd_Schemas := 20000;
  bd_SourceBytes := Z.shiftl 64 20; bd_KubernetesSourceBytes := Z.shiftl 16 20;
  bd_SourceDocumentBytes := Z.shiftl 8 20;
  bd_DirectoryBytes := Z.shiftl 4 20; bd_SearchBytes := Z.shiftl 4 20;
  bd_ProjectionBytes := Z.shiftl 32 20; bd_SnapshotBytes := Z.shiftl 64 20;
  bd_Children := 1024; bd_DetailShardRecords := 256; bd_DetailShardBytes := Z.shiftl 2 20;
  bd_SchemaNodeShardRecords := 512; bd_SchemaNodeShardBytes := Z.shiftl 2 20;
  bd_PostingSegmentBytes := Z.shiftl 256 10;
  bd_StartupCatalogBytes := Z.shiftl 8 20;
  bd_StoredBytes := Z.shiftl 512 20; bd_StagingBytes := Z.shiftl 128 20;
|}.

(** What [Validate] compares, in its order: name, usage, limit. *)
Definition budget_checks (bounds : Bounds) (usage : BudgetUsage) : list (string * Z * Z) :=
  [("catalogs", bu_Catalogs usage, bd_Catalogs bounds);
   ("documents", bu_Documents usage, bd_Documents bounds);
   ("operations", bu_Operations usage, bd_Operations bounds);
   ("schemas", bu_Schemas usage, bd_Schemas bounds);
   ("source document", bu_SourceDocumentBytes usage, bd_SourceDocumentBytes bounds);
   ("directory", bu_DirectoryBytes usage, bd_DirectoryBytes bounds);
   ("search", bu_SearchBytes usage, bd_SearchBytes bounds);
   ("projection", bu_ProjectionBytes usage, bd_ProjectionBytes bounds);
   ("snapshot", bu_SnapshotBytes usage, bd_SnapshotBytes bounds);
   ("children", bu_Children usage, bd_Children bounds);
   ("detail records", bu_DetailShardRecords usage, bd_DetailShardRecords bounds);
   ("detail bytes", bu_DetailShardBytes usage, bd_DetailShardBytes bounds);
   ("schema node records", bu_SchemaNodeShardRecords usage, bd_SchemaNodeShardRecords bounds);
   ("schema node bytes", bu_SchemaNodeShardBytes usage, bd_SchemaNodeShardBytes bounds);
   ("posting segment", bu_PostingSegmentBytes usage, bd_PostingSegmentBytes bounds);
   ("startup catalog", bu_StartupCatalogBytes usage, bd_StartupCatalogBytes bounds);
   ("stored", bu_StoredBytes usage, bd_StoredBytes bounds);
   ("staging", bu_StagingBytes usage, bd_StagingBytes bounds)]
  ++ [if bu_Kubernetes usage then ("Kubernetes source", bu_SourceBytes usage, bd_KubernetesSourceBytes bounds)
      else ("source", bu_SourceBytes usage, bd_SourceBytes bounds)].

(** [Bounds.Validate] *)
Definition Bounds_Validate (bounds : Bounds) (usage : BudgetUsage) : res unit :=
  for_each (λ '(name, used, limit),
    throw_if (limit =? 0) (Errorf "%s budget is zero" [EStr name]) ;;
    throw_if (limit <? used) (Errorf "%s usage %d exceeds %d" [EStr name; EInt used; EInt limit]))
    (budget_checks bounds usage).
