(* ===== verification/CatalogPublication.v ===== *)
(** * Catalog publications (domain/catalog_publication.go)

    What a publisher says about a document: which branch or release of an API
    it describes, and which release is the latest.  Versions are compared by
    SemVer precedence on their text; CatalogVersions.v says what that means. *)

From S2P Require Import Prelude GoString Identity CatalogIdentity EmbeddedJson GoUrl Projection CatalogModel.

(** ** Versions *)

(** The submatches of [publicationVersionPattern]: the three numbers, the
    prerelease and the build metadata ([""] when absent). *)
Record version_groups := MkVersionGroups {
  vg_major : list Z;
  vg_minor : list Z;
  vg_patch : list Z;
  vg_prerelease : list Z;
  vg_build : list Z;
}.

(** [0|[1-9][0-9]*], as far as it goes. *)
Definition read_numeral (l : list Z) : option (list Z * list Z) :=
  match span_digits l with
  | ([], _) => None
  | (b :: ds, rest) => if (b =? 48) && negb (bool_decide (ds = [])) then None else Some (b :: ds, rest)
  end.

Definition identifier_byte (b : Z) : bool := is_digit b || is_alpha b || (b =? 45).

Fixpoint span_identifiers (l : list Z) : list Z * list Z :=
  match l with
  | b :: l' => if identifier_byte b || (b =? 46)
               then let '(taken, rest) := span_identifiers l' in (b :: taken, rest) else ([], l)
  | [] => ([], [])
  end.

(** [[0-9A-Za-z-]+(\\.[0-9A-Za-z-]+)*] *)
Definition read_identifiers (l : list Z) : option (list Z * list Z) :=
  let '(taken, rest) := span_identifiers l in
  if existsb (λ part, bool_decide (part = [])) (split_bytes 46 taken) then None else Some (taken, rest).

Definition expect (b : Z) (l : list Z) : option (list Z) :=
  match l with
  | b' :: rest => if b' =? b then Some rest else None
  | [] => None
  end.

(** An optional part behind its mark. *)
Definition read_marked (mark : Z) (l : list Z) : option (list Z * list Z) :=
  match expect mark l with
  | Some rest => read_identifiers rest
  | None => Some ([], l)
  end.

Definition FindStringSubmatch (version : string) : option version_groups :=
  '(major, rest) ← read_numeral (bytes_of version);
  rest ← expect 46 rest;
  '(minor, rest) ← read_numeral rest;
  rest ← expect 46 rest;
  '(patch, rest) ← read_numeral rest;
  '(prerelease, rest) ← read_marked 45 rest;
  '(build, rest) ← read_marked 43 rest;
  if bool_decide (rest = []) then Some (MkVersionGroups major minor patch prerelease build) else None.

(** [strings.Compare] *)
Definition strings_Compare (a b : string) : Z := if bool_decide (a = b) then 0 else if (a <? b)%string then -1 else 1.
Definition compare_bytes (a b : list Z) : Z := strings_Compare (of_bytes a) (of_bytes b).

Definition numericPublicationIdentifier (s : list Z) : bool := negb (bool_decide (s = [])) && forallb is_digit s.

Definition comparePublicationNumber (a b : list Z) : Z :=
  if (length a <? length b)%nat then -1
  else if (length b <? length a)%nat then 1
  else compare_bytes a b.

Fixpoint compare_identifiers (xp yp : list (list Z)) : Z :=
  match xp, yp with
  | x :: xp', y :: yp' =>
      let xn := numericPublicationIdentifier x in
      let yn := numericPublicationIdentifier y in
      if negb (Bool.eqb xn yn) then if xn then -1 else 1
      else
        let c := if xn then comparePublicationNumber x y else compare_bytes x y in
        if negb (c =? 0) then c else compare_identifiers xp' yp'
  | [], _ :: _ => -1
  | _, _ => 1
  end.

Definition ComparePublicationVersions (a b : string) : Z :=
  match FindStringSubmatch a, FindStringSubmatch b with
  | Some x, Some y =>
      let major := comparePublicationNumber (vg_major x) (vg_major y) in
      let minor := comparePublicationNumber (vg_minor x) (vg_minor y) in
      let patch := comparePublicationNumber (vg_patch x) (vg_patch y) in
      if negb (major =? 0) then major
      else if negb (minor =? 0) then minor
      else if negb (patch =? 0) then patch
      else if bool_decide (vg_prerelease x = vg_prerelease y) then 0
      else if bool_decide (vg_prerelease x = []) then 1
      else if bool_decide (vg_prerelease y = []) then -1
      else compare_identifiers (split_bytes 46 (vg_prerelease x)) (split_bytes 46 (vg_prerelease y))
  | _, _ => strings_Compare a b
  end.

(** ** Publications *)

Definition IsBranch (p : CatalogPublication) : bool :=
  bool_decide (cp_Channel p = "branch") || bool_decide (cp_Channel p = "next").

Definition BranchName (p : CatalogPublication) : string :=
  if negb (bool_decide (cp_ChannelName p = "")) then cp_ChannelName p else TrimPrefix (cp_Ref p) "refs/heads/".

(** [strings.Contains(strings.Split(version, "+")[0], "-")] *)
Definition has_prerelease (version : string) : bool :=
  Contains (of_bytes (cut_bytes 43 (bytes_of version)).1) "-".

(** A middle dot between spaces. *)
Definition label_separator : string := " " +:+ of_runes [0xB7] +:+ " ".

Definition Label (p : CatalogPublication) (apiVersion : string) : string :=
  if IsBranch p then BranchName p +:+ label_separator +:+ "API " +:+ apiVersion
  else
    (if has_prerelease (cp_Version p) then "pre-release " +:+ cp_Version p else "release " +:+ cp_Version p)
    +:+ (if cp_Latest p then label_separator +:+ "latest stable" else "").

Definition isLowerHex (value : string) (length : Z) : bool :=
  (go_len value =? length) && forallb is_lower_hex (runes value).

(** [^(?:[0-9a-f]{40}|[0-9a-f]{64})$] *)
Definition publicationCommitPattern (commit : string) : bool :=
  ((go_len commit =? 40) || (go_len commit =? 64)) && forallb is_lower_hex (bytes_of commit).

Definition validateCatalogSourcePath (name value : string) : res unit :=
  ValidateCanonicalIdentity name value false ;;
  throw_if (HasPrefix value "/" || Contains value "\" || bool_decide (value = ".")
            || negb (bool_decide (path_clean value = value)) || HasPrefix value "../")
    (Errorf "%s is invalid" [EStr name]).

Definition publication_identity (p : CatalogPublication) : string :=
  let channel := if IsBranch p then "branch" else cp_Channel p in
  cp_API p +:+ of_bytes [0] +:+ channel +:+ of_bytes [0] +:+ cp_Version p.

Section publication.
Context `{IPLiterals}.

(** [https] and a host, and nothing a reader would not follow. *)
Definition public_https (raw : string) : bool :=
  match url_Parse raw with
  | None => false
  | Some u =>
      bool_decide (u_Scheme u = "https") && negb (bool_decide (u_Host u = "")) && negb (u_User u)
      && bool_decide (u_RawQuery u = "") && bool_decide (u_Fragment u = "")
  end.

Definition validate_channel (p : CatalogPublication) : res unit :=
  if IsBranch p then
    throw_if (negb (HasPrefix (cp_Ref p) "refs/heads/") || (go_len (cp_Ref p) =? go_len "refs/heads/")
              || negb (bool_decide (cp_Version p = "")) || cp_Latest p)
      (Errorf "branch publication requires a branch ref and cannot declare a release version or latest" [])
  else if bool_decide (cp_Channel p = "release") then
    match FindStringSubmatch (cp_Version p) with
    | Some parts =>
        throw_if (negb (HasPrefix (cp_Ref p) "refs/tags/") || (go_len (cp_Ref p) =? go_len "refs/tags/"))
          (Errorf "release publication requires a tag and a SemVer version" []) ;;
        for_each (λ identifier,
          throw_if (numericPublicationIdentifier identifier && (1 <? length identifier)%nat
                    && (nth 0 identifier 0 =? 48))
            (Errorf "release prerelease identifiers cannot have leading zeroes" []))
          (split_bytes 46 (vg_prerelease parts)) ;;
        throw_if (cp_Latest p && negb (bool_decide (vg_prerelease parts = [])))
          (Errorf "latest publication must be a stable release" [])
    | None => Fail (Errorf "release publication requires a tag and a SemVer version" [])
    end
  else Fail (Errorf "publication channel must be branch or release (next is a legacy branch alias)" []).

Definition ValidateCatalogPublication (publication : option CatalogPublication) : res unit :=
  match publication with
  | None => mret tt
  | Some p =>
      throw_if ((128 <? go_len (cp_Version p)) || (2048 <? go_len (cp_RepositoryURL p)))
        (Errorf "publication version or repository URL is too long" []) ;;
      wrap_err (ValidateCatalogDocumentKey (cp_API p)) (λ e, Errorf "publication API: %w" [EErr e]) ;;
      throw_if (128 <? go_len (cp_ChannelName p)) (Errorf "publication channelName is too long" []) ;;
      (if bool_decide (cp_ChannelName p = "") then mret tt
       else
         ValidateCanonicalIdentity "publication channelName" (cp_ChannelName p) false ;;
         throw_if (negb (IsBranch p))
           (Errorf "publication channelName is only supported for branch publications" [])) ;;
      for_each (λ '(name, value),
        if bool_decide (name = "audience") && bool_decide (value = "") then mret tt
        else
          throw_if (512 <? go_len value) (Errorf "publication %s is too long" [EStr name]) ;;
          ValidateCanonicalIdentity ("publication " +:+ name) value false) [
        ("audience", cp_Audience p); ("ref", cp_Ref p); ("source path", cp_SourcePath p)] ;;
      validateCatalogSourcePath "publication source path" (cp_SourcePath p) ;;
      throw_if (negb (publicationCommitPattern (cp_Commit p)))
        (Errorf "publication commit must be a full lowercase Git object ID" []) ;;
      throw_if (ContainsAny (cp_Ref p) " ~^:?*[\" || Contains (cp_Ref p) ".." || HasSuffix (cp_Ref p) "/")
        (Errorf "invalid publication ref" []) ;;
      validate_channel p ;;
      throw_if (negb (bool_decide (cp_RepositoryURL p = "")) && negb (public_https (cp_RepositoryURL p)))
        (Errorf "publication repositoryURL must be a public HTTPS URL without credentials, query or fragment" [])
  end.

(** The first loop: every publication is valid, no identity repeats and no API
    has two latest publications.  It collects the latest of each API. *)
Definition register_publication (state : gset string * gmap string CatalogPublication)
    (publication : option CatalogPublication) : res (gset string * gmap string CatalogPublication) :=
  let '(seen, latest) := state in
  ValidateCatalogPublication publication ;;
  match publication with
  | None => mret (seen, latest)
  | Some p =>
      let identity := publication_identity p in
      throw_if (bool_decide (identity ∈ seen)) (Errorf "duplicate publication for API %q" [EStr (cp_API p)]) ;;
      if cp_Latest p then
        throw_if (bool_decide (is_Some (latest !! cp_API p)))
          (Errorf "multiple latest publications for API %q" [EStr (cp_API p)]) ;;
        mret ({[identity]} ∪ seen, <[cp_API p := p]> latest)
      else mret ({[identity]} ∪ seen, latest)
  end.

Definition check_latest (latest : gmap string CatalogPublication) (publication : option CatalogPublication) : res unit :=
  match publication with
  | None => mret tt
  | Some p =>
      if bool_decide (cp_Channel p = "release") && negb (has_prerelease (cp_Version p)) then
        match latest !! cp_API p with
        | Some l =>
            throw_if (0 <? ComparePublicationVersions (cp_Version p) (cp_Version l))
              (Errorf "latest publication is not the highest stable version for API %q" [EStr (cp_API p)])
        | None => mret tt
        end
      else mret tt
  end.

Definition ValidateCatalogPublicationSet (publications : list (option CatalogPublication)) : res unit :=
  '(_, latest) ← fold_res register_publication (∅, ∅) publications;
  for_each (check_latest latest) publications.
End publication.
