(* ===== verification/CatalogVersions.v ===== *)
(** * SemVer precedence and the latest release

    The specification of [ComparePublicationVersions] and
    [ValidateCatalogPublicationSet] (domain/catalog_publication.go): versions
    as numbers and identifiers with the precedence of SemVer 2.0, and what an
    accepted set of publications is. *)

From S2P Require Import Prelude GoString Identity CatalogIdentity EmbeddedJson JsonNumbers GoUrl Projection CatalogModel.
From S2P Require Import CatalogPublication.

(** ** Precedence *)

Inductive identifier :=
  | INumber (n : Z)
  | IText (text : list Z).

Record semver := MkSemver {
  sm_major : Z;
  sm_minor : Z;
  sm_patch : Z;
  sm_prerelease : list identifier;
}.

Section list_compare.
Context {A : Type} (compare : A → A → comparison).
(** The first difference decides, and a proper prefix is smaller. *)
Fixpoint list_compare (x y : list A) : comparison :=
  match x, y with
  | [], [] => Eq
  | [], _ :: _ => Lt
  | _ :: _, [] => Gt
  | a :: x, b :: y => match compare a b with Eq => list_compare x y | c => c end
  end.
End list_compare.

Definition bytes_compare : list Z → list Z → comparison := list_compare Z.compare.

(** Numbers by value, below texts, which go by their bytes. *)
Definition identifier_compare (x y : identifier) : comparison :=
  match x, y with
  | INumber m, INumber n => Z.compare m n
  | INumber _, IText _ => Lt
  | IText _, INumber _ => Gt
  | IText s, IText t => bytes_compare s t
  end.

(** A prerelease is below its release. *)
Definition prerelease_compare (x y : list identifier) : comparison :=
  match x, y with
  | [], [] => Eq
  | [], _ => Gt
  | _, [] => Lt
  | _, _ => list_compare identifier_compare x y
  end.

Definition then_compare (c c' : comparison) : comparison := match c with Eq => c' | _ => c end.

Definition semver_compare (a b : semver) : comparison :=
  then_compare (Z.compare (sm_major a) (sm_major b))
    (then_compare (Z.compare (sm_minor a) (sm_minor b))
       (then_compare (Z.compare (sm_patch a) (sm_patch b))
          (prerelease_compare (sm_prerelease a) (sm_prerelease b)))).

Definition sign (c : comparison) : Z := match c with Lt => -1 | Eq => 0 | Gt => 1 end.

(** What a matched version denotes. *)
Definition identifier_of (part : list Z) : identifier :=
  if numericPublicationIdentifier part then INumber (digits_value part) else IText part.
Definition semver_of (g : version_groups) : semver :=
  MkSemver (digits_value (vg_major g)) (digits_value (vg_minor g)) (digits_value (vg_patch g))
    (if bool_decide (vg_prerelease g = []) then [] else identifier_of <$> split_bytes 46 (vg_prerelease g)).

(** No numeric identifier of the prerelease has a leading zero, as SemVer asks. *)
Definition strict_version (version : string) (g : version_groups) : Prop :=
  FindStringSubmatch version = Some g
  ∧ Forall (λ part, numericPublicationIdentifier part && (1 <? length part)%nat && (nth 0 part 0 =? 48) = false)
      (split_bytes 46 (vg_prerelease g)).

(** ** Comparing texts *)

Lemma bytes_compare_refl l : bytes_compare l l = Eq.
Proof. induction l as [|b l IH]; [done|]. cbn. by rewrite Z.compare_refl. Qed.

Lemma bytes_compare_eq l k : bytes_compare l k = Eq → l = k.
Proof.
  revert k. induction l as [|b l IH]; intros [|c k]; try done. cbn.
  destruct (Z.compare_spec b c) as [->| |]; [|done..]. by intros ->%IH.
Qed.

Lemma ascii_compare_bytes a b : is_byte a → is_byte b → Ascii.compare (ascii_of a) (ascii_of b) = Z.compare a b.
Proof.
  intros Ha Hb. pose proof (byte_of_ascii_of a Ha) as Ea. pose proof (byte_of_ascii_of b Hb) as Eb.
  unfold byte_of in Ea, Eb. rewrite <-Ea at 2. rewrite <-Eb at 2. symmetry. apply N2Z.inj_compare.
Qed.

Lemma string_compare_bytes a b :
  Forall is_byte a → Forall is_byte b → String.compare (of_bytes a) (of_bytes b) = bytes_compare a b.
Proof.
  intros Ha. revert b. induction Ha as [|x a Hx Ha IH]; intros [|y b] Hb; [done..|].
  apply Forall_cons in Hb as [Hy Hb]. cbn. rewrite ascii_compare_bytes by done. by destruct (Z.compare x y); [apply IH|..].
Qed.

Lemma compare_bytes_sign a b :
  Forall is_byte a → Forall is_byte b → compare_bytes a b = sign (bytes_compare a b).
Proof.
  intros Ha Hb. unfold compare_bytes, strings_Compare. case_bool_decide as E.
  - apply (f_equal bytes_of) in E. rewrite !bytes_of_bytes in E by done. subst. by rewrite bytes_compare_refl.
  - unfold String.ltb. rewrite string_compare_bytes by done. destruct (bytes_compare a b) eqn:Ec; [|done..].
    apply bytes_compare_eq in Ec as ->. done.
Qed.

(** ** Comparing numerals *)

(** A numeral without a redundant zero. *)
Definition numeral (l : list Z) : Prop := digits l ∧ l ≠ [] ∧ (l = [48] ∨ nth 0 l 0 ≠ 48).

Lemma digits_bytes l : digits l → Forall is_byte l.
Proof. intros Hl. eapply Forall_impl; [exact Hl|]. intros b Hb%is_digit_range. unfold is_byte. lia. Qed.

Lemma same_length_compare l k :
  digits l → digits k → length l = length k → bytes_compare l k = Z.compare (digits_value l) (digits_value k).
Proof.
  intros Hl. revert k. induction Hl as [|b l Hb Hl IH]; intros [|c k] Hk E; [done..|].
  apply Forall_cons in Hk as [Hc Hk]. injection E as E. cbn [bytes_compare list_compare].
  rewrite !digits_value_cons, E. pose proof (digits_value_bound l Hl) as Bl. pose proof (digits_value_bound k Hk) as Bk.
  rewrite E in Bl. destruct (Z.compare_spec b c) as [->|Hlt|Hgt]; symmetry.
  - change (list_compare Z.compare l k) with (bytes_compare l k). rewrite (IH k Hk E).
    apply Z.add_compare_mono_l.
  - apply Z.compare_lt_iff. nia.
  - apply Z.compare_gt_iff. nia.
Qed.

Lemma numeral_lower l : numeral l → (2 ≤ length l)%nat → 10 ^ (Z.of_nat (length l) - 1) ≤ digits_value l.
Proof.
  intros (Hd & _ & [->|Hn]) Hl; [cbn in Hl; lia|]. destruct l as [|b l]; [cbn in Hl; lia|]. cbn in Hn.
  apply Forall_cons in Hd as [Hb%is_digit_range Hd]. pose proof (digits_value_bound l Hd).
  rewrite digits_value_cons. cbn [length]. replace (Z.of_nat (S (length l)) - 1) with (Z.of_nat (length l)) by lia. nia.
Qed.

Lemma shorter_numeral l k : numeral l → numeral k → (length l < length k)%nat → digits_value l < digits_value k.
Proof.
  intros Hl Hk Hlt. assert (length l ≠ 0)%nat by (destruct Hl as (_ & Hn & _), l; done).
  pose proof (numeral_lower k Hk ltac:(lia)). destruct Hl as [Hl _]. pose proof (digits_value_bound l Hl).
  assert (10 ^ Z.of_nat (length l) ≤ 10 ^ (Z.of_nat (length k) - 1)) by (apply Z.pow_le_mono_r; lia). lia.
Qed.

Lemma compare_number_sign l k :
  numeral l → numeral k → comparePublicationNumber l k = sign (Z.compare (digits_value l) (digits_value k)).
Proof.
  intros Hl Hk. unfold comparePublicationNumber.
  destruct (Nat.ltb_spec (length l) (length k)) as [Hlt|].
  { by rewrite (proj2 (Z.compare_lt_iff _ _) (shorter_numeral l k Hl Hk Hlt)). }
  destruct (Nat.ltb_spec (length k) (length l)) as [Hlt|].
  { by rewrite (proj2 (Z.compare_gt_iff _ _) (shorter_numeral k l Hk Hl Hlt)). }
  destruct Hl as [Hl _], Hk as [Hk _]. rewrite compare_bytes_sign by (by apply digits_bytes).
  by rewrite same_length_compare by (done || lia).
Qed.

(** ** Comparing prereleases *)

Definition part_ok (part : list Z) : Prop :=
  part ≠ [] ∧ Forall is_byte part ∧ (numericPublicationIdentifier part = true → numeral part).

Lemma numeral_value_inj l k : numeral l → numeral k → digits_value l = digits_value k → l = k.
Proof.
  intros Hl Hk E. destruct (Nat.lt_total (length l) (length k)) as [Hlt|[El|Hlt]].
  - pose proof (shorter_numeral l k Hl Hk Hlt). lia.
  - destruct Hl as [Hl _], Hk as [Hk _]. by apply digits_value_inj.
  - pose proof (shorter_numeral k l Hk Hl Hlt). lia.
Qed.

Lemma sign_zero c : sign c = 0 ↔ c = Eq.
Proof. by destruct c. Qed.

Lemma compare_identifiers_sign xp yp :
  Forall part_ok xp → Forall part_ok yp → xp ≠ yp →
  compare_identifiers xp yp = sign (list_compare identifier_compare (identifier_of <$> xp) (identifier_of <$> yp)).
Proof.
  intros Hx. revert yp. induction Hx as [|x xp (Hxn & Hxb & Hxd) Hx IH]; intros [|y yp] Hy Hne; [done..|].
  apply Forall_cons in Hy as [(Hyn & Hyb & Hyd) Hy]. cbn [compare_identifiers fmap list_fmap list_compare].
  unfold identifier_of at 1 2.
  destruct (numericPublicationIdentifier x) eqn:Ex, (numericPublicationIdentifier y) eqn:Ey; cbn [Bool.eqb negb identifier_compare];
    [|done..|].
  - rewrite compare_number_sign by auto. destruct (Z.compare_spec (digits_value x) (digits_value y)) as [E| |]; [|done..].
    apply numeral_value_inj in E as ->; auto. cbn. apply IH; [done|]. congruence.
  - rewrite compare_bytes_sign by done. destruct (bytes_compare x y) eqn:E; [|done..].
    apply bytes_compare_eq in E as ->. cbn. apply IH; [done|]. congruence.
Qed.

Fixpoint join_bytes (sep : Z) (parts : list (list Z)) : list Z :=
  match parts with
  | [] => []
  | [part] => part
  | part :: parts => part ++ sep :: join_bytes sep parts
  end.

Lemma split_bytes_cons sep l : ∃ w ws, split_bytes sep l = w :: ws.
Proof. induction l as [|b l (w & ws & IH)]; cbn; [eauto|]. rewrite IH. destruct (b =? sep); eauto. Qed.

Lemma join_split sep l : join_bytes sep (split_bytes sep l) = l.
Proof.
  induction l as [|b l IH]; [done|]. cbn. destruct (split_bytes_cons sep l) as (w & ws & E). rewrite E in IH |- *.
  destruct (Z.eqb_spec b sep) as [->|]; [cbn; by f_equal|]. destruct ws; cbn in *; by rewrite <-IH.
Qed.

Lemma split_bytes_inj sep l k : split_bytes sep l = split_bytes sep k → l = k.
Proof. intros E. by rewrite <-(join_split sep l), E, join_split. Qed.

Lemma split_bytes_Forall (P : Z → Prop) sep l : Forall P l → Forall (Forall P) (split_bytes sep l).
Proof.
  induction 1 as [|b l Hb Hl IH]; cbn; [by repeat constructor|]. destruct (b =? sep); [by constructor|].
  destruct (split_bytes sep l) as [|w ws]; [by repeat constructor|]. apply Forall_cons in IH as [? ?]. by repeat constructor.
Qed.

(** ** What a matched version looks like *)

Lemma span_digits_spec l ds rest : span_digits l = (ds, rest) → digits ds ∧ l = ds ++ rest.
Proof.
  revert ds. induction l as [|b l IH]; intros ds; cbn; [intros [= <- <-]; split; [by apply Forall_nil|done]|].
  destruct (is_digit b) eqn:Eb; [|intros [= <- <-]; split; [by apply Forall_nil|done]]. destruct (span_digits l) as [ds' rest'].
  intros [= <- <-]. destruct (IH ds' eq_refl) as [? ->]. split; [by apply Forall_cons|done].
Qed.

Lemma read_numeral_spec l d rest : read_numeral l = Some (d, rest) → numeral d ∧ l = d ++ rest.
Proof.
  unfold read_numeral. destruct (span_digits l) as [ds rest'] eqn:E. apply span_digits_spec in E as [Hd ->].
  destruct ds as [|b ds]; [done|]. destruct (_ && _) eqn:Ez; [done|]. intros [= <- <-]. split; [|done].
  split; [done|]. split; [done|]. destruct (Z.eqb_spec b 48) as [->|]; [left|by right].
  cbn in Ez. apply negb_false_iff, bool_decide_eq_true in Ez. by subst.
Qed.

Definition part_byte (b : Z) : bool := identifier_byte b || (b =? 46).

Lemma span_identifiers_spec l taken rest :
  span_identifiers l = (taken, rest) → l = taken ++ rest ∧ Forall (λ b, part_byte b = true) taken.
Proof.
  revert taken. induction l as [|b l IH]; intros taken; cbn; [by intros [= <- <-]|].
  change (identifier_byte b || (b =? 46)) with (part_byte b).
  destruct (part_byte b) eqn:Eb; [|by intros [= <- <-]]. destruct (span_identifiers l) as [t r]. intros [= <- <-].
  destruct (IH t eq_refl) as [-> ?]. split; [done|by constructor].
Qed.

Definition marked (mark : Z) (taken : list Z) : list Z := if bool_decide (taken = []) then [] else mark :: taken.

Lemma read_marked_spec mark l taken rest :
  read_marked mark l = Some (taken, rest) →
  l = marked mark taken ++ rest
  ∧ Forall (λ b, part_byte b = true) taken
  ∧ (taken = [] ∨ Forall (λ part, part ≠ []) (split_bytes 46 taken)).
Proof.
  unfold read_marked. destruct l as [|b l]; cbn; [intros [= <- <-]; auto|].
  destruct (Z.eqb_spec b mark) as [->|]; [|intros [= <- <-]; auto]. unfold read_identifiers.
  destruct (span_identifiers l) as [t r] eqn:E. apply span_identifiers_spec in E as [-> Ht].
  destruct (existsb _ _) eqn:Ee; [done|]. intros [= <- <-].
  assert (Hne : Forall (λ part, part ≠ []) (split_bytes 46 t)).
  { apply Forall_forall. intros part Hp ->. apply not_true_iff_false in Ee. apply Ee, existsb_exists.
    exists []. split; [by apply list_elem_of_In|done]. }
  split_and!; [|done|by right]. unfold marked. case_bool_decide as E; [|done].
  subst. cbn in Hne. by apply Forall_cons in Hne as [? _].
Qed.

Record parsed (version : string) (g : version_groups) : Prop := Parsed {
  ps_major : numeral (vg_major g);
  ps_minor : numeral (vg_minor g);
  ps_patch : numeral (vg_patch g);
  ps_bytes : Forall (λ b, part_byte b = true) (vg_prerelease g);
  ps_parts : vg_prerelease g = [] ∨ Forall (λ part, part ≠ []) (split_bytes 46 (vg_prerelease g));
  ps_text : bytes_of version
    = vg_major g ++ 46 :: vg_minor g ++ 46 :: vg_patch g ++ marked 45 (vg_prerelease g) ++ marked 43 (vg_build g);
}.

Lemma FindStringSubmatch_parsed version g : FindStringSubmatch version = Some g → parsed version g.
Proof.
  unfold FindStringSubmatch. intros ([major r1] & E1 & H)%bind_Some. cbn in H.
  apply bind_Some in H as (r2 & E2 & H). apply bind_Some in H as ([minor r3] & E3 & H). cbn in H.
  apply bind_Some in H as (r4 & E4 & H). apply bind_Some in H as ([patch r5] & E5 & H). cbn in H.
  apply bind_Some in H as ([pre r6] & E6 & H). cbn in H. apply bind_Some in H as ([build r7] & E7 & H). cbn in H.
  case_bool_decide as E8; [|done]. injection H as <-. subst.
  assert (Hexp : ∀ l r, expect 46 l = Some r → l = 46 :: r).
  { intros [|b l] r; cbn; [done|]. destruct (Z.eqb_spec b 46) as [->|]; [by intros [= ->]|done]. }
  apply Hexp in E2 as ->. apply Hexp in E4 as ->.
  apply read_numeral_spec in E1 as [? E1], E3 as [? ->], E5 as [? ->].
  apply read_marked_spec in E6 as (-> & ? & ?), E7 as (-> & _ & _).
  constructor; cbn; [done..|]. by rewrite E1, app_nil_r.
Qed.

Lemma part_byte_byte b : part_byte b = true → is_byte b ∧ b ≠ 43.
Proof. unfold part_byte, identifier_byte, is_digit, is_alpha, in_range, is_byte. intros H. bool_prop. lia. Qed.

(** ** Precedence of matched versions *)

Lemma strict_parts version g :
  strict_version version g → vg_prerelease g ≠ [] → Forall part_ok (split_bytes 46 (vg_prerelease g)).
Proof.
  intros [Hf Hs] Hne. apply FindStringSubmatch_parsed in Hf as [_ _ _ Hb [|Hp] _]; [done|].
  assert (Hy : Forall (Forall is_byte) (split_bytes 46 (vg_prerelease g))).
  { apply split_bytes_Forall. eapply Forall_impl; [exact Hb|]. intros b ?. by apply part_byte_byte. }
  rewrite Forall_forall in Hs, Hp, Hy |- *. intros part Hpart.
  split_and!; [by apply Hp|by apply Hy|]. specialize (Hs part Hpart). intros Hn. rewrite Hn in Hs. cbn [andb] in Hs.
  unfold numericPublicationIdentifier in Hn. apply andb_true_iff in Hn as [Hn Hd].
  split_and!; [by apply Forall_forall; intros b Hb'%list_elem_of_In; revert b Hb'; apply forallb_forall|by apply Hp|].
  apply andb_false_iff in Hs as [Hs|Hs]; [|right; lia].
  specialize (Hp part Hpart). destruct part as [|b [|c part]]; [done| |done].
  destruct (decide (b = 48)) as [->|]; [by left|by right].
Qed.

Lemma compare_number_zero l k :
  numeral l → numeral k → (comparePublicationNumber l k =? 0) = bool_decide (Z.compare (digits_value l) (digits_value k) = Eq).
Proof. intros Hl Hk. rewrite compare_number_sign by done. by destruct (Z.compare _ _). Qed.

Lemma list_compare_refl {A} (cmp : A → A → comparison) l : (∀ x, cmp x x = Eq) → list_compare cmp l l = Eq.
Proof. intros Hr. induction l as [|x l IH]; [done|]. cbn. by rewrite Hr. Qed.

Lemma prerelease_compare_refl l : prerelease_compare l l = Eq.
Proof.
  destruct l as [|i l]; [done|]. apply list_compare_refl. intros [n|t]; cbn; [apply Z.compare_refl|apply bytes_compare_refl].
Qed.

(** The third component and below, once the numbers agree. *)
Lemma compare_prereleases a b ga gb :
  strict_version a ga → strict_version b gb →
  (if bool_decide (vg_prerelease ga = vg_prerelease gb) then 0
   else if bool_decide (vg_prerelease ga = []) then 1
   else if bool_decide (vg_prerelease gb = []) then -1
   else compare_identifiers (split_bytes 46 (vg_prerelease ga)) (split_bytes 46 (vg_prerelease gb)))
  = sign (prerelease_compare (sm_prerelease (semver_of ga)) (sm_prerelease (semver_of gb))).
Proof.
  intros Ha Hb. cbn [semver_of sm_prerelease]. case_bool_decide as E.
  { rewrite E. by rewrite prerelease_compare_refl. }
  destruct (split_bytes_cons 46 (vg_prerelease ga)) as (wa & wsa & Ea).
  destruct (split_bytes_cons 46 (vg_prerelease gb)) as (wb & wsb & Eb).
  do 2 case_bool_decide; [congruence|rewrite Eb; done|rewrite Ea; done|].
  rewrite compare_identifiers_sign; [by rewrite Ea, Eb|by eapply strict_parts..|].
  intros Es. by apply split_bytes_inj in Es.
Qed.

Lemma compare_strict a b ga gb :
  strict_version a ga → strict_version b gb →
  ComparePublicationVersions a b = sign (semver_compare (semver_of ga) (semver_of gb)).
Proof.
  intros Ha Hb. pose proof (compare_prereleases a b ga gb Ha Hb) as Hp. unfold ComparePublicationVersions.
  destruct (FindStringSubmatch_parsed a ga (proj1 Ha)), (FindStringSubmatch_parsed b gb (proj1 Hb)).
  rewrite (proj1 Ha), (proj1 Hb), !compare_number_zero, !compare_number_sign by done.
  unfold semver_compare. rewrite Hp. cbn [semver_of sm_major sm_minor sm_patch].
  destruct (Z.compare (digits_value (vg_major ga)) _); [|done..].
  destruct (Z.compare (digits_value (vg_minor ga)) _); [|done..].
  by destruct (Z.compare (digits_value (vg_patch ga)) _).
Qed.

(** ** Stable releases *)

Lemma contains_dash l : Forall is_byte l → Contains (of_bytes l) "-" = bool_decide (45 ∈ l).
Proof.
  intros Hl. unfold Contains. induction Hl as [|b l Hb Hl IH]; [done|]. cbn [of_bytes String.index].
  assert (Ep : String.prefix "-" (String (ascii_of b) (of_bytes l)) = (b =? 45)).
  { cbn [String.prefix]. destruct (Ascii.ascii_dec "-"%char (ascii_of b)) as [E|E]; destruct (Z.eqb_spec b 45) as [->|Hn]; [| |done|].
    - by destruct (of_bytes l).
    - exfalso. apply Hn. rewrite <-(byte_of_ascii_of b Hb), <-E. done.
    - done. }
  rewrite Ep.
  destruct (Z.eqb_spec b 45) as [->|Hn].
  { by rewrite bool_decide_eq_true_2 by (by left). }
  rewrite (bool_decide_ext (45 ∈ b :: l) (45 ∈ l)) by set_solver. rewrite <-IH.
  by destruct (String.index 0 "-" (of_bytes l)).
Qed.

Lemma has_prerelease_parsed version g :
  parsed version g → has_prerelease version = negb (bool_decide (vg_prerelease g = [])).
Proof.
  intros [(Hma & _) (Hmi & _) (Hpa & _) Hb _ E]. unfold has_prerelease. rewrite E.
  set (core := vg_major g ++ 46 :: vg_minor g ++ 46 :: vg_patch g ++ marked 45 (vg_prerelease g)).
  assert (Hcore : ∀ b, b ∈ core → b ∈ vg_major g ∨ b ∈ vg_minor g ∨ b ∈ vg_patch g ∨ b = 46 ∨ b ∈ marked 45 (vg_prerelease g)).
  { intros b. unfold core. rewrite !elem_of_app, !elem_of_cons, !elem_of_app, !elem_of_cons. rewrite elem_of_app. tauto. }
  assert (Hmarked : ∀ b, b ∈ marked 45 (vg_prerelease g) → b = 45 ∨ part_byte b = true).
  { intros b. unfold marked. case_bool_decide; [by intros ?%elem_of_nil|]. intros [->|Hin]%elem_of_cons; [by left|right].
    rewrite Forall_forall in Hb. by apply Hb. }
  assert (Hbytes : Forall is_byte core).
  { apply Forall_forall. intros b [Hin|[Hin|[Hin|[->|Hin]]]]%Hcore; [| | |done|].
    1-3: by (eapply Forall_forall in Hin; [|by apply digits_bytes]).
    destruct (Hmarked b Hin) as [->|?%part_byte_byte]; [done|naive_solver]. }
  assert (Hno : 43 ∉ core).
  { intros [Hin|[Hin|[Hin|[|Hin]]]]%Hcore; [| | |done|]; [by apply (digits_not_elem 43 _) in Hin..|].
    by destruct (Hmarked 43 Hin). }
  assert (Ecut : (cut_bytes 43 (core ++ marked 43 (vg_build g))).1 = core).
  { unfold marked. case_bool_decide; [rewrite app_nil_r; by rewrite cut_bytes_none|by rewrite cut_bytes_app]. }
  replace (_ ++ _) with (core ++ marked 43 (vg_build g)) by (unfold core; by rewrite <-!app_assoc; cbn; rewrite <-!app_assoc; cbn; rewrite <-!app_assoc).
  rewrite Ecut, contains_dash by done. unfold core, marked. clear -Hma Hmi Hpa. destruct (decide (vg_prerelease g = [])) as [Ep|Ep].
  - rewrite (bool_decide_eq_true_2 (vg_prerelease g = [])), app_nil_r by done. apply bool_decide_eq_false_2.
    rewrite !elem_of_app, !elem_of_cons, !elem_of_app, !elem_of_cons.
    intros [Hin|[|[Hin|[|Hin]]]]; try done; by apply (digits_not_elem 45 _) in Hin.
  - rewrite (bool_decide_eq_false_2 (vg_prerelease g = [])) by done. apply bool_decide_eq_true_2. set_solver.
Qed.

(** ** Accepted sets of publications *)

Definition release_version (p : CatalogPublication) : option semver := semver_of <$> FindStringSubmatch (cp_Version p).

Definition published (ps : list (option CatalogPublication)) : list CatalogPublication := omap id ps.

Lemma published_some p ps : published (Some p :: ps) = p :: published ps.
Proof. done. Qed.
Lemma published_none ps : published (None :: ps) = published ps.
Proof. done. Qed.

Definition stable (p : CatalogPublication) (v : semver) : Prop :=
  cp_Channel p = "release" ∧ release_version p = Some v ∧ sm_prerelease v = [].

Section sets.
Context `{IPLiterals}.

(** Valid one by one, told apart by their identities, at most one latest of
    each API, and it is stable and no stable release of its API precedes it. *)
Record accepted_set (ps : list (option CatalogPublication)) : Prop := AcceptedSet {
  as_valid : Forall (λ p, ValidateCatalogPublication p = Ok tt) ps;
  as_distinct : NoDup (publication_identity <$> published ps);
  as_one_latest : NoDup (cp_API <$> filter (λ p, cp_Latest p = true) (published ps));
  as_highest : ∀ l p v, l ∈ published ps → cp_Latest l = true → p ∈ published ps → cp_API p = cp_API l → stable p v →
    ∃ w, stable l w ∧ semver_compare v w ≠ Gt;
}.

Lemma valid_release p :
  ValidateCatalogPublication (Some p) = Ok tt →
  (cp_Latest p = true → cp_Channel p = "release")
  ∧ (cp_Channel p = "release" →
     ∃ g, strict_version (cp_Version p) g ∧ (cp_Latest p = true → vg_prerelease g = [])).
Proof.
  intros Hv.
  assert (Hc : validate_channel p = Ok tt).
  { unfold ValidateCatalogPublication in Hv. apply bind_ok in Hv as (? & _ & Hv).
    do 7 apply bind_ok in Hv as (? & _ & Hv). apply bind_ok in Hv as ([] & Hc & _). done. }
  unfold validate_channel in Hc. destruct (IsBranch p) eqn:Eb.
  { apply throw_if_ok in Hc. split; intros E.
    - rewrite E, !orb_true_r in Hc. done.
    - unfold IsBranch in Eb. rewrite E in Eb. done. }
  case_bool_decide as Er; [|done]. split; [done|]. intros _.
  destruct (FindStringSubmatch (cp_Version p)) as [g|] eqn:Eg; [|done]. exists g.
  apply bind_ok in Hc as (? & _ & Hc). apply bind_ok in Hc as ([] & Hparts & Hc).
  rewrite for_each_ok in Hparts. apply throw_if_ok in Hc. split.
  - split; [done|]. eapply Forall_impl; [exact Hparts|]. intros part. by rewrite throw_if_ok.
  - intros El. rewrite El in Hc. cbn in Hc. by apply negb_false_iff, bool_decide_eq_true in Hc.
Qed.

Definition collect (state : gset string * gmap string CatalogPublication) (p : option CatalogPublication) :
    gset string * gmap string CatalogPublication :=
  match p with
  | None => state
  | Some p => ({[publication_identity p]} ∪ state.1, if cp_Latest p then <[cp_API p := p]> state.2 else state.2)
  end.

(** What [register_publication] asks of the state it meets. *)
Definition may_register (state : gset string * gmap string CatalogPublication) (p : option CatalogPublication) : Prop :=
  ValidateCatalogPublication p = Ok tt
  ∧ match p with
    | None => True
    | Some p => publication_identity p ∉ state.1 ∧ (cp_Latest p = true → state.2 !! cp_API p = None)
    end.
Definition registrable := fold_ok may_register collect.

Lemma register_one state p state' :
  register_publication state p = Ok state' ↔
  may_register state p ∧ state' = collect state p.
Proof.
  unfold may_register. destruct state as [seen latest]. unfold register_publication. rewrite bind_ok. destruct p as [p|]; cbn [collect fst snd].
  2: { split; [intros ([] & ? & [= <-]); done|intros ([? _] & ->); by exists tt]. }
  split.
  - intros ([] & Hv & Hc). apply bind_ok in Hc as ([] & Hi & Hc). apply throw_if_ok, bool_decide_eq_false in Hi.
    destruct (cp_Latest p); [|by injection Hc as <-]. apply bind_ok in Hc as ([] & Hl & [= <-]).
    apply throw_if_ok, bool_decide_eq_false, eq_None_not_Some in Hl. done.
  - intros ((Hv & Hi & Hl) & ->). exists tt. split; [done|]. cbn [fst] in Hi.
    rewrite (bool_decide_eq_false_2 _ Hi). cbn [throw_if mbind res_bind].
    destruct (cp_Latest p); [|done]. rewrite bool_decide_eq_false_2; [done|]. rewrite Hl by done. by intros [? ?].
Qed.

Lemma register_all state ps state' :
  fold_res register_publication state ps = Ok state' ↔ registrable state ps ∧ state' = foldl collect state ps.
Proof.
  apply fold_res_spec, register_one.
Qed.

Lemma registrable_spec state ps :
  registrable state ps ↔
  Forall (λ p, ValidateCatalogPublication p = Ok tt) ps
  ∧ NoDup (publication_identity <$> published ps)
  ∧ (∀ p, p ∈ published ps → publication_identity p ∉ state.1)
  ∧ NoDup (cp_API <$> filter (λ p, cp_Latest p = true) (published ps))
  ∧ (∀ p, p ∈ published ps → cp_Latest p = true → state.2 !! cp_API p = None).
Proof.
  revert state. unfold registrable. induction ps as [|[p|] ps IH]; intros [seen latest]; cbn [fold_ok]; unfold may_register.
  - split; [intros _|done]. split_and!; [by constructor..|by intros ? ?%elem_of_nil|by constructor|by intros ? ?%elem_of_nil].
  - cbn [collect]. rewrite IH, Forall_cons, published_some, fmap_cons. cbn [fst snd].
    rewrite NoDup_cons, filter_cons. setoid_rewrite elem_of_cons.
    destruct (cp_Latest p) eqn:El.
    + rewrite decide_True, fmap_cons, NoDup_cons by done. setoid_rewrite lookup_insert_None.
      setoid_rewrite elem_of_union. setoid_rewrite elem_of_singleton.
      assert (Hid : publication_identity p ∉ publication_identity <$> published ps
                    ↔ ∀ q, q ∈ published ps → publication_identity q ≠ publication_identity p).
      { rewrite list_elem_of_fmap. naive_solver. }
      assert (Hapi : cp_API p ∉ cp_API <$> filter (λ p, cp_Latest p = true) (published ps)
                     ↔ ∀ q, q ∈ published ps → cp_Latest q = true → cp_API p ≠ cp_API q).
      { rewrite list_elem_of_fmap. setoid_rewrite list_elem_of_filter. naive_solver. }
      rewrite Hid, Hapi. naive_solver.
    + rewrite decide_False by congruence.
      setoid_rewrite elem_of_union. setoid_rewrite elem_of_singleton.
      assert (Hid : publication_identity p ∉ publication_identity <$> published ps
                    ↔ ∀ q, q ∈ published ps → publication_identity q ≠ publication_identity p).
      { rewrite list_elem_of_fmap. naive_solver. }
      rewrite Hid. naive_solver.
  - cbn [collect]. rewrite IH, Forall_cons, published_none. naive_solver.
Qed.

Lemma collected_latest state ps api l :
  registrable state ps →
  (foldl collect state ps).2 !! api = Some l ↔
  state.2 !! api = Some l ∨ (l ∈ published ps ∧ cp_Latest l = true ∧ cp_API l = api).
Proof.
  unfold registrable. revert state. induction ps as [|p ps IH]; intros state; cbn [fold_ok foldl].
  { intros _. split; [by left|]. intros [?|[?%elem_of_nil ?]]; done. }
  intros ((_ & Hp) & Hr). rewrite (IH _ Hr). destruct p as [p|]; cbn [collect fst snd]; [|done].
  rewrite published_some, elem_of_cons. destruct Hp as [_ Hl]. destruct (cp_Latest p) eqn:El.
  2: { split; [intros [?|(? & ? & ?)]; auto|]. intros [?|([->|?] & ? & ?)]; [by auto|congruence|by auto]. }
  specialize (Hl eq_refl). rewrite lookup_insert_Some.
  split; [intros [[[<- <-]|[_ ?]]|(? & ? & ?)]; auto|].
  intros [E|([->|?] & ? & ?)]; [|by auto..]. left. right. split; [congruence|done].
Qed.

Lemma stable_spec p g v :
  cp_Channel p = "release" → strict_version (cp_Version p) g →
  stable p v ↔ v = semver_of g ∧ has_prerelease (cp_Version p) = false.
Proof.
  intros Hc [Hg _]. rewrite (has_prerelease_parsed _ g) by by apply FindStringSubmatch_parsed.
  unfold stable, release_version. rewrite Hg. cbn. rewrite negb_false_iff, bool_decide_eq_true.
  destruct (split_bytes_cons 46 (vg_prerelease g)) as (w & ws & E). split.
  - intros (_ & [= <-] & Hp). split; [done|]. cbn in Hp. case_bool_decide as Ep; [done|]. by rewrite E in Hp.
  - intros [-> Ep]. split_and!; [done..|]. cbn. by rewrite bool_decide_eq_true_2.
Qed.

Lemma sign_not_greater c : (0 <? sign c) = false ↔ c ≠ Gt.
Proof. by destruct c. Qed.

Lemma check_latest_ok latest p :
  ValidateCatalogPublication (Some p) = Ok tt →
  (∀ l, latest !! cp_API p = Some l → ValidateCatalogPublication (Some l) = Ok tt ∧ cp_Latest l = true) →
  check_latest latest (Some p) = Ok tt ↔
  ∀ l v, latest !! cp_API p = Some l → stable p v → ∃ w, stable l w ∧ semver_compare v w ≠ Gt.
Proof.
  intros Hp Hlatest. apply valid_release in Hp as [_ Hp]. unfold check_latest.
  case_bool_decide as Ec; [|split; [intros _ l v _ [? _]; done|done]]. destruct (Hp Ec) as (g & Hg & _).
  pose proof (stable_spec p g (semver_of g) Ec Hg) as Hs. cbn [andb].
  destruct (has_prerelease (cp_Version p)) eqn:Eh; cbn [negb].
  { split; [|done]. intros _ l v _ Hv. apply (stable_spec p g v Ec Hg) in Hv as [_ ?]. congruence. }
  destruct (latest !! cp_API p) as [l|]; [|split; [by intros ? ?|done]].
  destruct (Hlatest l eq_refl) as [Hl El]. apply valid_release in Hl as [Hc Hl].
  destruct (Hl (Hc El)) as (gl & Hgl & Epl). specialize (Hc El). specialize (Epl El).
  rewrite (compare_strict _ _ g gl Hg Hgl), throw_if_ok, sign_not_greater.
  assert (Hw : ∀ w, stable l w ↔ w = semver_of gl).
  { intros w. rewrite (stable_spec l gl w Hc Hgl), (has_prerelease_parsed _ gl) by by apply FindStringSubmatch_parsed, Hgl.
    rewrite Epl. naive_solver. }
  split.
  - intros Hcmp l' v [= <-] Hv. apply (stable_spec p g v Ec Hg) in Hv as [-> _]. exists (semver_of gl). by rewrite Hw.
  - intros Hall. destruct (Hall l (semver_of g) eq_refl) as (w & Hwl & ?); [by apply Hs|]. by apply Hw in Hwl as ->.
Qed.

Lemma elem_of_published p ps : p ∈ published ps ↔ Some p ∈ ps.
Proof. unfold published. rewrite list_elem_of_omap. naive_solver. Qed.

Lemma latest_spec ps :
  registrable (∅, ∅) ps →
  ∀ api l, (foldl collect (∅, ∅) ps).2 !! api = Some l ↔ l ∈ published ps ∧ cp_Latest l = true ∧ cp_API l = api.
Proof.
  intros Hr api l. rewrite (collected_latest _ _ _ _ Hr). cbn [snd]. split; [|by right].
  by intros [?%lookup_empty_Some|?].
Qed.

Lemma publication_set_ok ps : ValidateCatalogPublicationSet ps = Ok tt ↔ accepted_set ps.
Proof.
  unfold ValidateCatalogPublicationSet. rewrite bind_ok. setoid_rewrite register_all. split.
  - intros (state & [Hr ->] & Hc). pose proof (latest_spec ps Hr) as Hl. destruct (foldl collect (∅, ∅) ps) as [seen latest].
    cbn [snd] in Hl. apply for_each_ok in Hc. apply registrable_spec in Hr as (Hv & ? & _ & ? & _). constructor; [done..|].
    intros l p v Hin El Hpin%elem_of_published Eapi Hst. rewrite Forall_forall in Hv, Hc. specialize (Hc _ Hpin).
    rewrite (check_latest_ok latest p) in Hc; [|by apply Hv|intros l' (? & ? & ?)%Hl; by split; [apply Hv, elem_of_published|]].
    apply (Hc l v); [|done]. by apply Hl.
  - intros [Hv Hd Ho Hh].
    assert (Hr : registrable (∅, ∅) ps).
    { apply registrable_spec. split_and!; [done..|set_solver|done|]. intros. apply lookup_empty. }
    exists (foldl collect (∅, ∅) ps). split; [done|]. pose proof (latest_spec ps Hr) as Hl.
    destruct (foldl collect (∅, ∅) ps) as [seen latest]. cbn [snd] in Hl.
    apply for_each_ok, Forall_forall. intros [p|] Hin; [|done]. rewrite Forall_forall in Hv.
    apply check_latest_ok; [by apply Hv|intros l' (? & ? & ?)%Hl; by split; [apply Hv, elem_of_published|]|].
    intros l v (Hin' & ? & Eapi)%Hl Hst. by apply (Hh l p v); [| |apply elem_of_published| |].
Qed.
(** Publication sets are checked as they mean to be: a set is accepted
    exactly when every publication is valid, no two have the same identity,
    each API has at most one latest publication, and that one is a stable
    release that no stable release of the API exceeds in SemVer precedence. *)
Theorem publication_set_exact ps : ValidateCatalogPublicationSet ps = Ok tt ↔ accepted_set ps.
Proof. apply publication_set_ok. Qed.
End sets.

(** C34: Releases compare by SemVer precedence: for two versions of the form
    the code accepts, the text comparison agrees with comparing the numbers by
    value (whatever their length), a prerelease below its release, and
    prerelease identifiers one by one, numbers by value and below texts. *)
Theorem version_precedence_exact a b ga gb :
  strict_version a ga → strict_version b gb →
  ComparePublicationVersions a b = sign (semver_compare (semver_of ga) (semver_of gb)).
Proof. apply compare_strict. Qed.

Lemma version_precedence_exact_witness :
  ∃ ga gb, strict_version "1.10.0-rc.9+build" ga ∧ strict_version "1.10.0-rc.10" gb
    ∧ ComparePublicationVersions "1.10.0-rc.9+build" "1.10.0-rc.10" = -1
    ∧ sign (semver_compare (semver_of ga) (semver_of gb)) = -1.
Proof.
  set (a := "1.10.0-rc.9+build"). set (b := "1.10.0-rc.10").
  pose (ga := default (MkVersionGroups [] [] [] [] []) (FindStringSubmatch a)).
  pose (gb := default (MkVersionGroups [] [] [] [] []) (FindStringSubmatch b)).
  assert (Ha : strict_version a ga) by (split; [by vm_compute|]; vm_compute; by repeat constructor).
  assert (Hb : strict_version b gb) by (split; [by vm_compute|]; vm_compute; by repeat constructor).
  exists ga, gb. split_and!; [exact Ha|exact Hb|by vm_compute|].
  rewrite <-(version_precedence_exact a b ga gb Ha Hb). by vm_compute.
Defined.
