(* ===== verification/CatalogValidation.v ===== *)
(** * Catalog candidates and indexes (domain/catalog.go, domain/catalog_validation.go)

    What a catalog is before it is compiled: the candidate a source hands over
    (documents, support files, the revision they come from) and the index the
    parser makes of it.  The checks accept a candidate whose keys, paths,
    sizes and publications fit together, and an index whose detail pages all
    have their own address. *)

From stdpp Require Import pretty.
From S2P Require Import Prelude GoString GoSha256 Identity Spec CatalogIdentity SpecValidation EmbeddedJson GoUrl.
From S2P Require Import Projection CatalogModel CatalogPublication.

(** ** Data *)

Definition maxCatalogDocuments : Z := 256.
Definition maxCatalogSupportFiles : Z := 1024.
Definition maxCatalogDocumentBytes : Z := Z.shiftl 8 20.
Definition maxCatalogSourceBytes : Z := Z.shiftl 64 20.
Definition maxKubernetesSourceBytes : Z := Z.shiftl 16 20.

Definition CompatibilityProfileStrict : string := "strict-v1".
Definition CompatibilityProfileKubernetes : string := "kubernetes-v3-v1".
Definition CompatibilityProfileVMware : string := "vmware-vsphere-v1".
Definition CatalogRevisionFiles : string := "files".
Definition CatalogRevisionGit : string := "git".
Definition CatalogFormatJSON : string := "json".
Definition CatalogFormatYAML : string := "yaml".

Record CatalogRevision := MkCatalogRevision {
  cr_Kind : string;
  cr_ID : string;
  cr_CommitSHA : string;
  cr_ManifestDigest : string;
}.

Record CatalogDocument := MkCatalogDocument {
  cdoc_Publication : option CatalogPublication;
  cdoc_Key : string;
  cdoc_SourcePath : string;
  cdoc_Format : string;
  cdoc_Bytes : list Z;
}.

Record CatalogSupportFile := MkCatalogSupportFile {
  csf_SourcePath : string;
  csf_Bytes : list Z;
}.

Record CatalogCandidate := MkCatalogCandidate {
  cc_ID : string;
  cc_Title : string;
  cc_Branding : DocsBranding;
  cc_DefaultDocumentKey : string;
  cc_ProfileID : string;
  cc_Revision : CatalogRevision;
  cc_Documents : list CatalogDocument;
  cc_SupportFiles : list CatalogSupportFile;
}.

Record CatalogDocumentIndex := MkCatalogDocumentIndex {
  cdi_Key : string;
  cdi_SourcePath : string;
  cdi_Index : SpecIndex;
}.

Record CatalogIndex := MkCatalogIndex {
  ci_CatalogID : string;
  ci_RevisionID : string;
  ci_Title : string;
  ci_Branding : DocsBranding;
  ci_ProfileID : string;
  ci_Documents : list CatalogDocumentIndex;
}.

(** ** What reflection shows *)

#[export] Instance CatalogPublication_value : GoValue CatalogPublication := λ p, VStruct [
  exported "API" (cp_API p); exported "Audience" (cp_Audience p); exported "Channel" (cp_Channel p);
  exported "ChannelName" (cp_ChannelName p); exported "Version" (cp_Version p); exported "Latest" (cp_Latest p);
  exported "RepositoryURL" (cp_RepositoryURL p); exported "Ref" (cp_Ref p); exported "Commit" (cp_Commit p);
  exported "SourcePath" (cp_SourcePath p)].
#[export] Instance CatalogRevision_value : GoValue CatalogRevision := λ r, VStruct [
  exported "Kind" (cr_Kind r); exported "ID" (cr_ID r); exported "CommitSHA" (cr_CommitSHA r);
  exported "ManifestDigest" (cr_ManifestDigest r)].
#[export] Instance CatalogDocument_value : GoValue CatalogDocument := λ d, VStruct [
  ("Publication", "", value_pointer (cdoc_Publication d)); exported "Key" (cdoc_Key d);
  exported "SourcePath" (cdoc_SourcePath d); exported "Format" (cdoc_Format d);
  ("Bytes", "", value_slice (cdoc_Bytes d))].
#[export] Instance CatalogSupportFile_value : GoValue CatalogSupportFile := λ f, VStruct [
  exported "SourcePath" (csf_SourcePath f); ("Bytes", "", value_slice (csf_Bytes f))].
#[export] Instance CatalogCandidate_value : GoValue CatalogCandidate := λ c, VStruct [
  exported "ID" (cc_ID c); exported "Title" (cc_Title c); exported "Branding" (cc_Branding c);
  exported "DefaultDocumentKey" (cc_DefaultDocumentKey c); exported "ProfileID" (cc_ProfileID c);
  exported "Revision" (cc_Revision c); ("Documents", "", value_slice (cc_Documents c));
  ("SupportFiles", "", value_slice (cc_SupportFiles c))].
#[export] Instance CatalogDocumentIndex_value : GoValue CatalogDocumentIndex := λ d, VStruct [
  exported "Key" (cdi_Key d); exported "SourcePath" (cdi_SourcePath d); exported "Index" (cdi_Index d)].
#[export] Instance CatalogIndex_value : GoValue CatalogIndex := λ x, VStruct [
  exported "CatalogID" (ci_CatalogID x); exported "RevisionID" (ci_RevisionID x);
  exported "Title" (ci_Title x); exported "Branding" (ci_Branding x); exported "ProfileID" (ci_ProfileID x);
  ("Documents", "", value_slice (ci_Documents x))].

(** ** Candidates *)

Definition validateCatalogRevision (revision : CatalogRevision) : res unit :=
  ValidateCanonicalIdentity "catalog revision id" (cr_ID revision) false ;;
  throw_if (negb (isLowerSHA256 (cr_ManifestDigest revision)))
    (Errorf "catalog revision manifest digest must be lowercase SHA-256" []) ;;
  if bool_decide (cr_Kind revision = CatalogRevisionFiles) then
    throw_if (negb (bool_decide (cr_CommitSHA revision = "")))
      (Errorf "file catalog revision must not contain a commit SHA" [])
  else if bool_decide (cr_Kind revision = CatalogRevisionGit) then
    throw_if (negb (isLowerHex (cr_CommitSHA revision) 40) && negb (isLowerHex (cr_CommitSHA revision) 64))
      (Errorf "Git catalog revision commit SHA must be a full lowercase object ID" [])
  else Fail (Errorf "catalog revision kind %q is unsupported" [EStr (cr_Kind revision)]).

Definition validateCatalogDocument (index : Z) (document : CatalogDocument) (resourceLimits : bool) : res unit :=
  validateCatalogKey ("catalog document " +:+ pretty index +:+ " key") (cdoc_Key document) ;;
  validateCatalogSourcePath ("catalog document " +:+ pretty index +:+ " source path") (cdoc_SourcePath document) ;;
  throw_if (negb (bool_decide (cdoc_Format document = CatalogFormatJSON))
            && negb (bool_decide (cdoc_Format document = CatalogFormatYAML)))
    (Errorf "catalog document %d format %q is unsupported" [EInt index; EStr (cdoc_Format document)]) ;;
  throw_if (bool_decide (cdoc_Bytes document = []))
    (Errorf "catalog document %d bytes are required" [EInt index]) ;;
  throw_if (resourceLimits && (maxCatalogDocumentBytes <? Z.of_nat (length (cdoc_Bytes document))))
    (Errorf "catalog document %d exceeds %d bytes" [EInt index; EInt maxCatalogDocumentBytes]).

(** What the loops of the candidate check carry. *)
Record candidate_state := MkCandidateState {
  cs_keys : gset string;
  cs_paths : gset string;
  cs_totalBytes : Z;
}.

Section candidate.
Context `{IPLiterals}.

Definition candidate_document (resourceLimits : bool) (state : candidate_state) (item : Z * CatalogDocument) :
    res candidate_state :=
  let '(index, document) := item in
  wrap_err (ValidateCatalogPublication (cdoc_Publication document))
    (λ e, Errorf "document %q: %w" [EStr (cdoc_Key document); EErr e]) ;;
  validateCatalogDocument index document resourceLimits ;;
  throw_if (bool_decide (cdoc_Key document ∈ cs_keys state))
    (Errorf "catalog document key %q is duplicated" [EStr (cdoc_Key document)]) ;;
  throw_if (bool_decide (cdoc_SourcePath document ∈ cs_paths state))
    (Errorf "catalog document source path %q is duplicated" [EStr (cdoc_SourcePath document)]) ;;
  mret (MkCandidateState ({[cdoc_Key document]} ∪ cs_keys state) ({[cdoc_SourcePath document]} ∪ cs_paths state)
          (cs_totalBytes state + Z.of_nat (length (cdoc_Bytes document)))).

Definition candidate_support (resourceLimits : bool) (state : candidate_state) (item : Z * CatalogSupportFile) :
    res candidate_state :=
  let '(index, support) := item in
  validateCatalogSourcePath ("catalog support file " +:+ pretty index +:+ " source path") (csf_SourcePath support) ;;
  throw_if (bool_decide (csf_Bytes support = []))
    (Errorf "catalog support file %d bytes are required" [EInt index]) ;;
  throw_if (resourceLimits && (maxCatalogDocumentBytes <? Z.of_nat (length (csf_Bytes support))))
    (Errorf "catalog support file %d exceeds %d bytes" [EInt index; EInt maxCatalogDocumentBytes]) ;;
  throw_if (bool_decide (csf_SourcePath support ∈ cs_paths state))
    (Errorf "catalog source path %q is duplicated" [EStr (csf_SourcePath support)]) ;;
  mret (MkCandidateState (cs_keys state) ({[csf_SourcePath support]} ∪ cs_paths state)
          (cs_totalBytes state + Z.of_nat (length (csf_Bytes support)))).

Definition source_limit (candidate : CatalogCandidate) : Z :=
  if bool_decide (cc_ProfileID candidate = CompatibilityProfileKubernetes) then maxKubernetesSourceBytes
  else maxCatalogSourceBytes.

Definition ValidateCatalogCandidateWithOptions (candidate : CatalogCandidate) (options : ValidationOptions) : res unit :=
  let limits := vo_ResourceLimits options in
  validateUTF8Strings "catalog candidate" candidate ;;
  validateCatalogKey "catalog id" (cc_ID candidate) ;;
  ValidateCanonicalIdentity "catalog profile" (cc_ProfileID candidate) false ;;
  validateCatalogRevision (cc_Revision candidate) ;;
  throw_if (bool_decide (cc_Documents candidate = []))
    (Errorf "catalog requires at least one document" []) ;;
  throw_if (limits && (maxCatalogDocuments <? Z.of_nat (length (cc_Documents candidate))))
    (Errorf "catalog documents exceed %d" [EInt maxCatalogDocuments]) ;;
  documents ← fold_res (candidate_document limits) (MkCandidateState ∅ ∅ 0) (indexed (cc_Documents candidate));
  throw_if (limits && (maxCatalogSupportFiles <? Z.of_nat (length (cc_SupportFiles candidate))))
    (Errorf "catalog support files exceed %d" [EInt maxCatalogSupportFiles]) ;;
  ValidateCatalogPublicationSet (cdoc_Publication <$> cc_Documents candidate) ;;
  files ← fold_res (candidate_support limits) documents (indexed (cc_SupportFiles candidate));
  let limit := source_limit candidate in
  throw_if (limits && (limit <? cs_totalBytes files))
    (Errorf "catalog source bytes %d exceed %d" [EInt (cs_totalBytes files); EInt limit]) ;;
  if bool_decide (cc_DefaultDocumentKey candidate = "") then mret tt
  else
    validateCatalogKey "default document key" (cc_DefaultDocumentKey candidate) ;;
    throw_if (negb (bool_decide (cc_DefaultDocumentKey candidate ∈ cs_keys documents)))
      (Errorf "default document key %q does not exist" [EStr (cc_DefaultDocumentKey candidate)]).

Definition ValidateCatalogCandidate (candidate : CatalogCandidate) : res unit :=
  ValidateCatalogCandidateWithOptions candidate (MkValidationOptions true).
End candidate.

(** ** Indexes *)

Abbreviation identities := (gmap string (list Z)).

Definition registerDetailIdentity (known : identities) (identity : string) (preimage : list Z) : res identities :=
  throw_if (match known !! identity with
            | Some existing => negb (bool_decide (existing = preimage))
            | None => false
            end)
    (Errorf "detail identity collision for %s" [EStr identity]) ;;
  mret (<[identity := preimage]> known).

Section index.
Context `{CaseTables}.

Definition register_operation (catalogID documentKey : string) (known : identities) (operation : Operation) :
    res identities :=
  '(identity, preimage) ← newOperationDetailIdentity catalogID documentKey (op_Method operation) (op_Path operation)
                            (op_RequestTarget operation) (op_FixedQuery operation);
  registerDetailIdentity known identity preimage.

Definition register_schema (catalogID documentKey : string) (known : identities) (schema : Schema) : res identities :=
  '(identity, preimage) ← newSchemaDetailIdentity catalogID documentKey (sch_Name schema);
  registerDetailIdentity known identity preimage.

(** What the loop over the documents carries. *)
Record index_state := MkIndexState {
  is_keys : gset string;
  is_paths : gset string;
  is_identities : identities;
}.

Definition index_document (heap : Heap) (options : ValidationOptions) (catalogID : string) (state : index_state)
    (item : Z * CatalogDocumentIndex) : res index_state :=
  let '(documentIndex, document) := item in
  let prefix := "catalog index document " +:+ pretty documentIndex in
  validateCatalogKey (prefix +:+ " key") (cdi_Key document) ;;
  validateCatalogSourcePath (prefix +:+ " source path") (cdi_SourcePath document) ;;
  throw_if (bool_decide (cdi_Key document ∈ is_keys state))
    (Errorf "catalog index document key %q is duplicated" [EStr (cdi_Key document)]) ;;
  throw_if (bool_decide (cdi_SourcePath document ∈ is_paths state))
    (Errorf "catalog index source path %q is duplicated" [EStr (cdi_SourcePath document)]) ;;
  wrap_err (ValidateSpecIndexWithOptions heap (cdi_Index document) options)
    (λ e, Errorf "catalog document %q: %w" [EStr (cdi_Key document); EErr e]) ;;
  known ← fold_res (register_operation catalogID (cdi_Key document)) (is_identities state)
            (ix_Operations (cdi_Index document));
  known ← fold_res (register_schema catalogID (cdi_Key document)) known (ix_Schemas (cdi_Index document));
  mret (MkIndexState ({[cdi_Key document]} ∪ is_keys state) ({[cdi_SourcePath document]} ∪ is_paths state) known).

(** The hash of the detail identities is SHA-256, as [ValidateCatalogIndexWithOptions] passes it. *)
Definition ValidateCatalogIndexWithOptions (heap : Heap) (index : CatalogIndex) (options : ValidationOptions) : res unit :=
  validateUTF8Shared (reflect_summary <$> heap) "catalog index" index ;;
  validateCatalogKey "catalog index id" (ci_CatalogID index) ;;
  ValidateCanonicalIdentity "catalog index revision id" (ci_RevisionID index) false ;;
  ValidateCanonicalIdentity "catalog index profile" (ci_ProfileID index) false ;;
  throw_if (bool_decide (ci_Documents index = [])
            || vo_ResourceLimits options && (maxCatalogDocuments <? Z.of_nat (length (ci_Documents index))))
    (Errorf "catalog index document count is invalid" []) ;;
  fold_res (index_document heap options (ci_CatalogID index)) (MkIndexState ∅ ∅ ∅) (indexed (ci_Documents index)) ;;
  mret tt.

Definition ValidateCatalogIndex (heap : Heap) (index : CatalogIndex) : res unit :=
  ValidateCatalogIndexWithOptions heap index (MkValidationOptions true).
End index.
