(* ===== verification/CatalogChecks.v ===== *)
(** * What the catalog checks accept

    The specification of [ValidateCatalogCandidate] and of the detail addresses
    [ValidateCatalogIndex] (domain/catalog_validation.go) hands out. *)

From stdpp Require Import pretty.
From S2P Require Import Prelude GoString GoSha256 Identity Spec CatalogIdentity SpecValidation EmbeddedJson GoUrl.
From S2P Require Import Projection CatalogModel CatalogPublication CatalogVersions CatalogValidation.

(** ** Keys and paths *)

Definition key_rune (r : Z) : bool :=
  in_range 97 122 r || in_range 48 57 r || (r =? 46) || (r =? 95) || (r =? 45).

Record catalog_key (value : string) : Prop := CatalogKey {
  ck_canonical : canonical value;
  ck_length : go_len value ≤ 64;
  ck_first : isLowerCatalogKeyCharacter (nth 0 (bytes_of value) 0) = true;
  ck_last : isLowerCatalogKeyCharacter (List.last (bytes_of value) 0) = true;
  ck_runes : Forall (λ r, key_rune r = true) (runes value);
}.

Lemma validateCatalogKey_ok name value : validateCatalogKey name value = Ok tt ↔ catalog_key value.
Proof.
  unfold validateCatalogKey. rewrite !seq_ok, ValidateCanonicalIdentity_required, throw_if_ok, for_each_ok.
  rewrite !orb_false_iff, !negb_false_iff, Z.ltb_ge.
  assert (E : ∀ r, throw_if (negb (in_range 97 122 r) && negb (in_range 48 57 r)
              && negb (r =? 46) && negb (r =? 95) && negb (r =? 45)) (Errorf "%s is invalid" [EStr name]) = Ok tt
            ↔ key_rune r = true).
  { intros r. rewrite throw_if_ok, <-!negb_orb, negb_false_iff. done. }
  setoid_rewrite E. split; [intros (? & ((? & ?) & ?) & ?); by constructor|intros []; done].
Qed.

Record source_path (value : string) : Prop := SourcePath {
  spath_canonical : canonical value;
  spath_relative : HasPrefix value "/" = false;
  spath_slashes : Contains value "\" = false;
  spath_dot : value ≠ ".";
  spath_clean : path_clean value = value;
  spath_inside : HasPrefix value "../" = false;
}.

Lemma validateCatalogSourcePath_ok name value : validateCatalogSourcePath name value = Ok tt ↔ source_path value.
Proof.
  unfold validateCatalogSourcePath. rewrite seq_ok, ValidateCanonicalIdentity_required, throw_if_ok.
  rewrite !orb_false_iff, negb_false_iff, bool_decide_eq_true, bool_decide_eq_false.
  split; [intros (? & ((((? & ?) & ?) & ?) & ?)); by constructor|intros []; done].
Qed.

(** ** Candidates *)

Definition revision_ok (r : CatalogRevision) : Prop :=
  canonical (cr_ID r) ∧ isLowerSHA256 (cr_ManifestDigest r) = true
  ∧ ((cr_Kind r = CatalogRevisionFiles ∧ cr_CommitSHA r = "")
     ∨ (cr_Kind r = CatalogRevisionGit
        ∧ (isLowerHex (cr_CommitSHA r) 40 = true ∨ isLowerHex (cr_CommitSHA r) 64 = true))).

Lemma validateCatalogRevision_ok r : validateCatalogRevision r = Ok tt ↔ revision_ok r.
Proof.
  unfold validateCatalogRevision, revision_ok.
  rewrite !seq_ok, ValidateCanonicalIdentity_required, throw_if_ok, negb_false_iff.
  case_bool_decide as Ef; [|case_bool_decide as Eg].
  - rewrite throw_if_ok, negb_false_iff, bool_decide_eq_true, Ef. unfold CatalogRevisionFiles, CatalogRevisionGit. naive_solver.
  - rewrite throw_if_ok, andb_false_iff, !negb_false_iff. naive_solver.
  - naive_solver.
Qed.

Definition too_big (bytes : list Z) : Prop := maxCatalogDocumentBytes < Z.of_nat (length bytes).

Record document_ok (limits : bool) (d : CatalogDocument) : Prop := DocumentOk {
  do_key : catalog_key (cdoc_Key d);
  do_path : source_path (cdoc_SourcePath d);
  do_format : cdoc_Format d = CatalogFormatJSON ∨ cdoc_Format d = CatalogFormatYAML;
  do_bytes : cdoc_Bytes d ≠ [];
  do_size : limits = true → ¬ too_big (cdoc_Bytes d);
}.

Lemma limit_ok (limits : bool) bound n : limits && (bound <? n) = false ↔ (limits = true → ¬ bound < n).
Proof. destruct limits; cbn; [|naive_solver]. rewrite Z.ltb_ge. split; [lia|intros H; specialize (H eq_refl); lia]. Qed.

Lemma validateCatalogDocument_ok i limits d : validateCatalogDocument i d limits = Ok tt ↔ document_ok limits d.
Proof.
  unfold validateCatalogDocument.
  rewrite !seq_ok, validateCatalogKey_ok, validateCatalogSourcePath_ok, !throw_if_ok, limit_ok.
  rewrite andb_false_iff, !negb_false_iff, !bool_decide_eq_true, bool_decide_eq_false.
  split; [intros (? & ? & ? & ? & ?); by constructor|intros []; done].
Qed.

Record file_ok (limits : bool) (f : CatalogSupportFile) : Prop := FileOk {
  fo_path : source_path (csf_SourcePath f);
  fo_bytes : csf_Bytes f ≠ [];
  fo_size : limits = true → ¬ too_big (csf_Bytes f);
}.

Definition document_size (d : CatalogDocument) : Z := Z.of_nat (length (cdoc_Bytes d)).
Definition file_size (f : CatalogSupportFile) : Z := Z.of_nat (length (csf_Bytes f)).
Definition total (sizes : list Z) : Z := foldr Z.add 0 sizes.

Definition add_document (s : candidate_state) (d : CatalogDocument) : candidate_state :=
  MkCandidateState ({[cdoc_Key d]} ∪ cs_keys s) ({[cdoc_SourcePath d]} ∪ cs_paths s) (cs_totalBytes s + document_size d).
Definition add_file (s : candidate_state) (f : CatalogSupportFile) : candidate_state :=
  MkCandidateState (cs_keys s) ({[csf_SourcePath f]} ∪ cs_paths s) (cs_totalBytes s + file_size f).

Lemma foldl_total {A} (g : candidate_state → A → candidate_state) (size : A → Z) s l :
  (∀ s x, cs_totalBytes (g s x) = cs_totalBytes s + size x) →
  cs_totalBytes (foldl g s l) = cs_totalBytes s + total (size <$> l).
Proof.
  intros Hg. revert s. induction l as [|x l IH]; intros s; cbn [foldl fmap list_fmap total foldr]; [lia|].
  rewrite IH, Hg. unfold total. lia.
Qed.

Section candidate.
Context `{IPLiterals}.

Record candidate_ok (limits : bool) (c : CatalogCandidate) : Prop := CandidateOk {
  co_utf8 : utf8_clean (reflect_value c) = true;
  co_id : catalog_key (cc_ID c);
  co_profile : canonical (cc_ProfileID c);
  co_revision : revision_ok (cc_Revision c);
  co_nonempty : cc_Documents c ≠ [];
  co_documents : Forall (document_ok limits) (cc_Documents c);
  co_files : Forall (file_ok limits) (cc_SupportFiles c);
  co_keys : NoDup (cdoc_Key <$> cc_Documents c);
  co_paths : NoDup ((cdoc_SourcePath <$> cc_Documents c) ++ (csf_SourcePath <$> cc_SupportFiles c));
  co_publications : accepted_set (cdoc_Publication <$> cc_Documents c);
  co_default : cc_DefaultDocumentKey c = "" ∨ cc_DefaultDocumentKey c ∈ cdoc_Key <$> cc_Documents c;
  co_limits : limits = true →
    Z.of_nat (length (cc_Documents c)) ≤ maxCatalogDocuments
    ∧ Z.of_nat (length (cc_SupportFiles c)) ≤ maxCatalogSupportFiles
    ∧ total ((document_size <$> cc_Documents c) ++ (file_size <$> cc_SupportFiles c)) ≤ source_limit c;
}.

Definition document_fits (limits : bool) (s : candidate_state) (d : CatalogDocument) : Prop :=
  (ValidateCatalogPublication (cdoc_Publication d) = Ok tt ∧ document_ok limits d)
  ∧ cdoc_Key d ∉ cs_keys s ∧ cdoc_SourcePath d ∉ cs_paths s.
Definition file_fits (limits : bool) (s : candidate_state) (f : CatalogSupportFile) : Prop :=
  file_ok limits f ∧ csf_SourcePath f ∉ cs_paths s.

Lemma candidate_document_ok limits s item s' :
  candidate_document limits s item = Ok s' ↔ document_fits limits s item.2 ∧ s' = add_document s item.2.
Proof.
  destruct item as [i d]. unfold candidate_document, document_fits. cbn [snd].
  rewrite !seq_ok, wrap_err_ok, validateCatalogDocument_ok, !throw_if_ok, !bool_decide_eq_false.
  split; [intros (? & ? & ? & ? & [= <-]); done|intros (([? ?] & ? & ?) & ->); done].
Qed.

Lemma candidate_support_ok limits s item s' :
  candidate_support limits s item = Ok s' ↔ file_fits limits s item.2 ∧ s' = add_file s item.2.
Proof.
  destruct item as [i f]. unfold candidate_support, file_fits. cbn [snd].
  rewrite !seq_ok, validateCatalogSourcePath_ok, !throw_if_ok, limit_ok, !bool_decide_eq_false.
  split; [intros (? & ? & ? & ? & [= <-]); split; [split; [by constructor|done]|done]|intros (([] & ?) & ->); done].
Qed.

Lemma documents_fit limits l :
  fold_ok (document_fits limits) add_document (MkCandidateState ∅ ∅ 0) l ↔
  (Forall (λ d, ValidateCatalogPublication (cdoc_Publication d) = Ok tt) l ∧ Forall (document_ok limits) l)
  ∧ NoDup (cdoc_Key <$> l) ∧ NoDup (cdoc_SourcePath <$> l).
Proof.
  unfold document_fits. rewrite !fold_ok_and, !fold_ok_Forall.
  rewrite (fold_ok_fresh _ cdoc_Key cs_keys), (fold_ok_fresh _ cdoc_SourcePath cs_paths) by done. set_solver.
Qed.

Lemma files_fit limits s l :
  fold_ok (file_fits limits) add_file s l ↔
  Forall (file_ok limits) l ∧ NoDup (csf_SourcePath <$> l) ∧ ∀ f, f ∈ l → csf_SourcePath f ∉ cs_paths s.
Proof.
  unfold file_fits. rewrite fold_ok_and, fold_ok_Forall. by rewrite (fold_ok_fresh _ csf_SourcePath cs_paths).
Qed.

Definition documents_state (c : CatalogCandidate) : candidate_state :=
  foldl add_document (MkCandidateState ∅ ∅ 0) (cc_Documents c).
Definition sources_state (c : CatalogCandidate) : candidate_state :=
  foldl add_file (documents_state c) (cc_SupportFiles c).

Lemma documents_run limits c s :
  fold_res (candidate_document limits) (MkCandidateState ∅ ∅ 0) (indexed (cc_Documents c)) = Ok s ↔
  fold_ok (document_fits limits) add_document (MkCandidateState ∅ ∅ 0) (cc_Documents c) ∧ s = documents_state c.
Proof.
  rewrite (fold_res_spec (λ s x, document_fits limits s x.2) (λ s x, add_document s x.2)) by apply candidate_document_ok.
  by rewrite fold_ok_indexed, foldl_indexed.
Qed.

Lemma sources_run limits c s :
  fold_res (candidate_support limits) (documents_state c) (indexed (cc_SupportFiles c)) = Ok s ↔
  fold_ok (file_fits limits) add_file (documents_state c) (cc_SupportFiles c) ∧ s = sources_state c.
Proof.
  rewrite (fold_res_spec (λ s x, file_fits limits s x.2) (λ s x, add_file s x.2)) by apply candidate_support_ok.
  by rewrite fold_ok_indexed, foldl_indexed.
Qed.

Lemma documents_keys c key : key ∈ cs_keys (documents_state c) ↔ key ∈ cdoc_Key <$> cc_Documents c.
Proof. unfold documents_state. rewrite (foldl_seen _ cdoc_Key cs_keys) by done. set_solver. Qed.
Lemma documents_paths c path : path ∈ cs_paths (documents_state c) ↔ path ∈ cdoc_SourcePath <$> cc_Documents c.
Proof. unfold documents_state. rewrite (foldl_seen _ cdoc_SourcePath cs_paths) by done. set_solver. Qed.
Lemma sources_total c :
  cs_totalBytes (sources_state c) = total ((document_size <$> cc_Documents c) ++ (file_size <$> cc_SupportFiles c)).
Proof.
  unfold sources_state, documents_state. rewrite (foldl_total _ file_size), (foldl_total _ document_size) by done.
  cbn [cs_totalBytes]. generalize (file_size <$> cc_SupportFiles c). intros k. unfold total. rewrite foldr_app.
  induction (document_size <$> cc_Documents c) as [|n l IH]; cbn [foldr]; [lia|]. rewrite <-IH. lia.
Qed.

(** The two loops together: every part is fine on its own, and no key or path
    repeats across documents and support files. *)
Lemma sources_fit limits c :
  fold_ok (document_fits limits) add_document (MkCandidateState ∅ ∅ 0) (cc_Documents c)
  ∧ fold_ok (file_fits limits) add_file (documents_state c) (cc_SupportFiles c) ↔
  (Forall (λ d, ValidateCatalogPublication (cdoc_Publication d) = Ok tt) (cc_Documents c)
   ∧ Forall (document_ok limits) (cc_Documents c) ∧ Forall (file_ok limits) (cc_SupportFiles c))
  ∧ NoDup (cdoc_Key <$> cc_Documents c)
  ∧ NoDup ((cdoc_SourcePath <$> cc_Documents c) ++ (csf_SourcePath <$> cc_SupportFiles c)).
Proof.
  rewrite documents_fit, files_fit, NoDup_app. setoid_rewrite documents_paths.
  setoid_rewrite (list_elem_of_fmap csf_SourcePath). naive_solver.
Qed.

Lemma default_ok limits c :
  Forall (document_ok limits) (cc_Documents c) →
  (if bool_decide (cc_DefaultDocumentKey c = "") then mret tt
   else validateCatalogKey "default document key" (cc_DefaultDocumentKey c) ;;
        throw_if (negb (bool_decide (cc_DefaultDocumentKey c ∈ cs_keys (documents_state c))))
          (Errorf "default document key %q does not exist" [EStr (cc_DefaultDocumentKey c)])) = Ok tt ↔
  cc_DefaultDocumentKey c = "" ∨ cc_DefaultDocumentKey c ∈ cdoc_Key <$> cc_Documents c.
Proof.
  intros Hd. case_bool_decide as E; [naive_solver|].
  rewrite seq_ok, validateCatalogKey_ok, throw_if_ok, negb_false_iff, bool_decide_eq_true, documents_keys.
  split; [naive_solver|]. intros [|Hin]; [done|]. split; [|done].
  apply list_elem_of_fmap in Hin as (d & -> & Hin). rewrite Forall_forall in Hd. by apply Hd.
Qed.

(** C35: A candidate is accepted exactly when its parts fit together: its keys,
    paths, formats and revision are well formed, no document key and no source
    path (documents and support files together) repeats, its publications form
    an accepted set, the default document exists, and with limits on it stays
    within the document, file and byte counts. *)
Theorem candidate_check_exact c options :
  ValidateCatalogCandidateWithOptions c options = Ok tt ↔ candidate_ok (vo_ResourceLimits options) c.
Proof.
  destruct options as [limits]. unfold ValidateCatalogCandidateWithOptions. cbn [vo_ResourceLimits].
  rewrite !seq_ok, validateUTF8Strings_ok, validateCatalogKey_ok, ValidateCanonicalIdentity_required,
    validateCatalogRevision_ok, !throw_if_ok, limit_ok, bool_decide_eq_false, bind_ok.
  setoid_rewrite documents_run. split.
  - intros (? & ? & ? & ? & ? & Hnd & s & [Hd ->] & Hr). rewrite !seq_ok, throw_if_ok, limit_ok, publication_set_ok, bind_ok in Hr.
    destruct Hr as (Hnf & ? & s & [Hf ->]%sources_run & Hr). rewrite seq_ok, throw_if_ok, limit_ok, sources_total in Hr.
    destruct Hr as [Ht Hr]. destruct (proj1 (sources_fit limits c) (conj Hd Hf)) as ((_ & Hdocs & ?) & ? & ?).
    apply (default_ok limits) in Hr; [|done]. constructor; try done. intros ->. specialize (Hnd eq_refl).
    specialize (Hnf eq_refl). specialize (Ht eq_refl). lia.
  - intros []. assert (Hp : Forall (λ d, ValidateCatalogPublication (cdoc_Publication d) = Ok tt) (cc_Documents c)).
    { destruct co_publications0 as [Hp _ _ _]. by rewrite Forall_fmap in Hp. }
    destruct (proj2 (sources_fit limits c)) as [Hd Hf]; [done|].
    split_and!; [done..|naive_solver lia|]. exists (documents_state c). split; [done|].
    rewrite !seq_ok, throw_if_ok, limit_ok, publication_set_ok, bind_ok. split_and!; [naive_solver lia|done|].
    exists (sources_state c). split; [by apply sources_run|]. rewrite seq_ok, throw_if_ok, limit_ok, sources_total.
    split; [naive_solver lia|]. by apply (default_ok limits).
Qed.
End candidate.

(** A document one directory above the source tree. *)
Definition parent_candidate : CatalogCandidate :=
  MkCatalogCandidate "petstore" "Pets" (MkDocsBranding "" (MkDocsBrandingLogo "" "" "") "") "" CompatibilityProfileStrict
    (MkCatalogRevision CatalogRevisionFiles "rev-1" "" (sha256Hex []))
    [MkCatalogDocument None "pets" ".." CatalogFormatJSON [123; 125]] [].

(** The path rule refuses what starts with [../], but not [..] itself. *)
Lemma parent_directory_accepted `{IPLiterals} :
  ValidateCatalogCandidate parent_candidate = Ok tt
  ∧ is_ok (validateCatalogSourcePath "path" "../pets.json") = false.
Proof. by vm_compute. Qed.
