(* ===== verification/CatalogDetails.v ===== *)
(** * The addresses of an accepted catalog

    Every operation and every named schema of a catalog gets a detail address:
    the hash of what tells it apart.  [ValidateCatalogIndex]
    (domain/catalog_validation.go) keeps the preimages it has met, so that the
    addresses of an accepted index are distinct whatever the hash does. *)

From stdpp Require Import pretty.
From S2P Require Import Prelude GoString GoSha256 Identity Spec Snapshot CatalogIdentity SpecValidation IndexDiff EmbeddedJson.
From S2P Require Import JsonNumbers GoUrl Projection CatalogModel CatalogPublication CatalogValidation CatalogVersions CatalogChecks.

(** ** Preimages *)

Lemma be_bytes_mod n x y : be_bytes n x = be_bytes n y → x `mod` 2 ^ (8 * Z.of_nat n) = y `mod` 2 ^ (8 * Z.of_nat n).
Proof.
  induction n as [|n IH]; [by rewrite !Z.mod_1_r|]. cbn [be_bytes]. intros [= E En]. specialize (IH En).
  replace (8 * Z.of_nat (S n)) with (8 * Z.of_nat n + 8) by lia. rewrite Z.pow_add_r by lia.
  rewrite !Z.shiftr_div_pow2 in E by lia. change (2 ^ 8) with 256. rewrite !Z.rem_mul_r by lia. by rewrite IH, E.
Qed.

Definition short (field : string) : Prop := go_len field < 2 ^ 32.

Lemma detail_field_inj f f' l l' :
  short f → short f' → detail_field f ++ l = detail_field f' ++ l' → f = f' ∧ l = l'.
Proof.
  unfold short, detail_field. intros Hf Hf' E. rewrite <-!app_assoc in E.
  assert (Hn : ∀ s, 0 ≤ go_len s) by (intros s; unfold go_len; lia).
  apply app_inj_1 in E as [El E]; [|by rewrite !be_bytes_length].
  apply be_bytes_mod in El. change (8 * Z.of_nat 4) with 32 in El. pose proof (Hn f). pose proof (Hn f').
  rewrite !Z.mod_mod, !Z.mod_small in El by lia.
  apply app_inj_1 in E as [E ->]; [|rewrite !bytes_of_length; unfold go_len in El; lia].
  split; [by apply bytes_of_inj|done].
Qed.

Lemma detailPreimage_inj fs fs' :
  Forall short fs → Forall short fs' → detailPreimage fs = detailPreimage fs' → fs = fs'.
Proof.
  intros Hfs. revert fs'. induction Hfs as [|f fs Hf Hfs IH]; intros [|f' fs'] Hfs'; cbn; [done|done|done|].
  apply Forall_cons in Hfs' as [Hf' Hfs']. intros E. apply detail_field_inj in E as [-> E]; [|done..]. f_equal. by apply IH.
Qed.

(** ** Registered details *)

Section details.
Context `{CaseTables, !CaseLaws}.

Definition detail_address (fields : list string) : string := detailIDFromPreimage (detailPreimage fields).

(** The fields a detail address is the hash of. *)
Definition operation_fields (catalogID documentKey : string) (o : Operation) : list string :=
  [detailIdentityDomain; catalogID; documentKey; "operation"; ToUpper (op_Method o);
   EffectiveOperationRequestTarget (op_Path o) (op_RequestTarget o)].
Definition schema_fields (catalogID documentKey : string) (s : Schema) : list string :=
  [detailIdentityDomain; catalogID; documentKey; "schema"; sch_Name s].
Definition document_fields (catalogID : string) (d : CatalogDocumentIndex) : list (list string) :=
  (operation_fields catalogID (cdi_Key d) <$> ix_Operations (cdi_Index d))
  ++ (schema_fields catalogID (cdi_Key d) <$> ix_Schemas (cdi_Index d)).
Definition index_fields (index : CatalogIndex) : list (list string) :=
  ci_Documents index ≫= document_fields (ci_CatalogID index).

(** What the code computes for them. *)
Definition document_addresses (catalogID : string) (d : CatalogDocumentIndex) : list (res string) :=
  ((λ o, NewOperationDetailIDWithRequestTarget catalogID (cdi_Key d) (op_Method o) (op_Path o) (op_RequestTarget o)
           (op_FixedQuery o)) <$> ix_Operations (cdi_Index d))
  ++ ((λ s, NewSchemaDetailID catalogID (cdi_Key d) (sch_Name s)) <$> ix_Schemas (cdi_Index d)).
Definition index_addresses (index : CatalogIndex) : list (res string) :=
  ci_Documents index ≫= document_addresses (ci_CatalogID index).

Lemma operation_identity catalogID key o r :
  newOperationDetailIdentity catalogID key (op_Method o) (op_Path o) (op_RequestTarget o) (op_FixedQuery o) = Ok r →
  r = (detail_address (operation_fields catalogID key o), detailPreimage (operation_fields catalogID key o))
  ∧ ValidateOperationRequestTarget (op_Path o) (op_RequestTarget o) (op_FixedQuery o) = Ok tt.
Proof.
  unfold newOperationDetailIdentity. intros Hr. do 4 apply seq_ok in Hr as [_ Hr]. apply seq_ok in Hr as [Ht [= <-]].
  by split.
Qed.

Lemma schema_identity catalogID key s r :
  newSchemaDetailIdentity catalogID key (sch_Name s) = Ok r →
  r = (detail_address (schema_fields catalogID key s), detailPreimage (schema_fields catalogID key s)).
Proof. unfold newSchemaDetailIdentity. intros Hr. do 3 apply seq_ok in Hr as [_ Hr]. by injection Hr as <-. Qed.

(** [known'] keeps what [known] knows and knows the details [fields]. *)
Record learns (known : identities) (fields : list (list string)) (known' : identities) : Prop := Learns {
  ln_keeps : known ⊆ known';
  ln_knows : Forall (λ f, known' !! detail_address f = Some (detailPreimage f)) fields;
}.

Lemma learns_nil known : learns known [] known.
Proof. by constructor. Qed.
Lemma learns_app known fs known' fs' known'' :
  learns known fs known' → learns known' fs' known'' → learns known (fs ++ fs') known''.
Proof.
  intros [K1 F1] [K2 F2]. constructor; [by etransitivity|]. apply Forall_app. split; [|done].
  eapply Forall_impl; [exact F1|]. intros f Hf. cbn beta in *. by apply (lookup_weaken known').
Qed.

Lemma register_learns known f known' :
  registerDetailIdentity known (detail_address f) (detailPreimage f) = Ok known' → learns known [f] known'.
Proof.
  unfold registerDetailIdentity. intros [Hc [= <-]]%seq_ok. apply throw_if_ok in Hc.
  constructor; [|by constructor; [apply lookup_insert_eq|]].
  apply map_subseteq_spec. intros i p Hp. apply lookup_insert_Some.
  destruct (decide (detail_address f = i)) as [<-|]; [left|by right]. rewrite Hp in Hc.
  by apply negb_false_iff, bool_decide_eq_true in Hc as ->.
Qed.

Lemma fold_learns {A} (f : identities → A → res identities) (fields : A → list (list string)) l :
  (∀ known x known', f known x = Ok known' → learns known (fields x) known') →
  ∀ known known', fold_res f known l = Ok known' → learns known (l ≫= fields) known'.
Proof.
  intros Hf. induction l as [|x l IH]; intros known known'; cbn [fold_res].
  { intros [= <-]. apply learns_nil. }
  intros (k & Hx & Hl)%bind_ok. eapply learns_app; [by apply Hf|by apply IH].
Qed.

Lemma bind_singleton {A B} (f : A → B) l : (l ≫= λ x, [f x]) = f <$> l.
Proof. induction l as [|x l IH]; [done|]. cbn. by f_equal. Qed.

(** The part of an accepted document the addresses depend on. *)
Record document_accepted (heap : Heap) (options : ValidationOptions) (catalogID : string) (d : CatalogDocumentIndex) : Prop := DocumentAccepted {
  da_index : ValidateSpecIndexWithOptions heap (cdi_Index d) options = Ok tt;
  da_operations : Forall (λ o, ∃ r, newOperationDetailIdentity catalogID (cdi_Key d) (op_Method o) (op_Path o)
                                      (op_RequestTarget o) (op_FixedQuery o) = Ok r) (ix_Operations (cdi_Index d));
  da_schemas : Forall (λ s, ∃ r, newSchemaDetailIdentity catalogID (cdi_Key d) (sch_Name s) = Ok r)
                 (ix_Schemas (cdi_Index d));
}.

Lemma fold_res_each {A S} (f : S → A → res S) (P : A → Prop) l :
  (∀ s x s', f s x = Ok s' → P x) → ∀ s s', fold_res f s l = Ok s' → Forall P l.
Proof.
  intros Hf. induction l as [|x l IH]; intros s s'; cbn [fold_res]; [by constructor|].
  intros (k & Hx & Hl)%bind_ok. constructor; [by eapply Hf|by eapply IH].
Qed.

Lemma index_document_ok heap options catalogID s item s' :
  index_document heap options catalogID s item = Ok s' →
  document_accepted heap options catalogID item.2
  ∧ cdi_Key item.2 ∉ is_keys s ∧ is_keys s' = {[cdi_Key item.2]} ∪ is_keys s
  ∧ learns (is_identities s) (document_fields catalogID item.2) (is_identities s').
Proof.
  destruct item as [i d]. unfold index_document. cbn [snd].
  intros (_ & (_ & (Hk & (_ & (Hix & (k & Ho & (k' & Hs & [= <-])%bind_ok)%bind_ok)%seq_ok)%seq_ok)%seq_ok)%seq_ok)%seq_ok.
  apply throw_if_ok, bool_decide_eq_false in Hk. apply wrap_err_ok in Hix. split_and!; [|done|done|].
  - constructor; [done| |].
    + eapply fold_res_each; [|exact Ho]. intros ? o ?. unfold register_operation. intros (r & Hr & _)%bind_ok. by exists r.
    + eapply fold_res_each; [|exact Hs]. intros ? o ?. unfold register_schema. intros (r & Hr & _)%bind_ok. by exists r.
  - unfold document_fields. rewrite <-!bind_singleton. eapply learns_app; (eapply fold_learns; [|eassumption]).
    + intros known o known'. unfold register_operation. intros (r & [-> _]%operation_identity & Hr)%bind_ok.
      by apply register_learns.
    + intros known o known'. unfold register_schema. intros (r & ->%schema_identity & Hr)%bind_ok.
      by apply register_learns.
Qed.

Lemma index_documents_ok heap options catalogID l s s' :
  fold_res (index_document heap options catalogID) s l = Ok s' →
  Forall (document_accepted heap options catalogID) l.*2
  ∧ (NoDup (cdi_Key <$> l.*2) ∧ ∀ d, d ∈ l.*2 → cdi_Key d ∉ is_keys s)
  ∧ learns (is_identities s) (l.*2 ≫= document_fields catalogID) (is_identities s').
Proof.
  revert s. induction l as [|item l IH]; intros s; cbn [fold_res].
  { intros [= <-]. split_and!; [by constructor|by constructor|by intros ? ?%elem_of_nil|apply learns_nil]. }
  intros (k & (Hd & Hk & Ek & Hl)%index_document_ok & (? & (? & Hf) & ?)%IH)%bind_ok. rewrite Ek in Hf.
  cbn [fmap list_fmap]. split_and!; [by constructor| | |by eapply learns_app].
  - apply NoDup_cons. split; [|done]. intros (d & Ed & Hin)%list_elem_of_fmap. specialize (Hf d Hin). set_solver.
  - intros d [->|Hin]%elem_of_cons; [done|]. specialize (Hf d Hin). set_solver.
Qed.

(** ** Different operations have different fields *)

Lemma ContainsAny_not s chars b : ContainsAny s chars = false → b ∈ bytes_of chars → b ∉ bytes_of s.
Proof.
  intros Hc Hb Hin. apply not_true_iff_false in Hc. apply Hc, existsb_exists. exists b. split; [by apply list_elem_of_In|].
  apply existsb_exists. exists b. split; [by apply list_elem_of_In|apply Z.eqb_refl].
Qed.

(** The path is what comes before the question mark. *)
Lemma target_path path target fixed :
  ValidateOperationRequestTarget path target fixed = Ok tt →
  (cut_bytes 63 (bytes_of (EffectiveOperationRequestTarget path target))).1 = bytes_of path.
Proof.
  unfold ValidateOperationRequestTarget, EffectiveOperationRequestTarget. intros [Hp Ht]%seq_ok.
  assert (Hq : 63 ∉ bytes_of path).
  { unfold validateOperationPath in Hp. apply seq_ok in Hp as [_ Hp]. apply throw_if_ok, orb_false_iff in Hp as [_ Hp].
    apply (ContainsAny_not _ _ 63 Hp). vm_compute. set_solver. }
  case_bool_decide as E; cbn [negb]; [by rewrite cut_bytes_none|].
  apply seq_ok in Ht as [_ [Ht _]%seq_ok]. apply throw_if_ok, orb_false_iff in Ht as [Ht _]. apply negb_false_iff in Ht.
  rewrite (prefix_split _ _ Ht), !bytes_of_app, <-app_assoc. change (bytes_of "?") with [63]. cbn [app].
  by rewrite cut_bytes_app.
Qed.

Lemma target_canonical path target fixed :
  ValidateOperationRequestTarget path target fixed = Ok tt →
  canonical path ∧ canonical (EffectiveOperationRequestTarget path target).
Proof.
  unfold ValidateOperationRequestTarget, EffectiveOperationRequestTarget. intros [Hp Ht]%seq_ok.
  unfold validateOperationPath in Hp. apply seq_ok in Hp as [Hp%ValidateCanonicalIdentity_required _]. split; [done|].
  case_bool_decide as E; [done|]. cbn [negb]. by apply seq_ok in Ht as [Ht%ValidateCanonicalIdentity_required _].
Qed.

Definition surface_key (o : Operation) : string * string * string :=
  (canonicalUpperSurfaceText (op_Method o), TrimSpace (op_Path o),
   TrimSpace (EffectiveOperationRequestTarget (op_Path o) (op_RequestTarget o))).

Lemma operation_fields_key catalogID key o o' :
  canonical (op_Method o) → canonical (op_Method o') →
  ValidateOperationRequestTarget (op_Path o) (op_RequestTarget o) (op_FixedQuery o) = Ok tt →
  ValidateOperationRequestTarget (op_Path o') (op_RequestTarget o') (op_FixedQuery o') = Ok tt →
  operation_fields catalogID key o = operation_fields catalogID key o' ↔ surface_key o = surface_key o'.
Proof.
  intros Hm Hm' Ht Ht'. pose proof (target_path _ _ _ Ht) as Hp. pose proof (target_path _ _ _ Ht') as Hp'.
  apply target_canonical in Ht as [Hc Hct]. apply target_canonical in Ht' as [Hc' Hct'].
  unfold operation_fields, surface_key, canonicalUpperSurfaceText. rewrite !canonical_trim, !canonical_valid by done.
  cbn [negb]. split; [|by intros [= -> _ ->]]. intros [= -> E]. rewrite E in Hp |- *. rewrite Hp' in Hp.
  by apply bytes_of_inj in Hp as ->.
Qed.

Lemma document_fields_distinct heap options catalogID d :
  document_accepted heap options catalogID d → NoDup (document_fields catalogID d).
Proof.
  intros [Hv Hops Hschemas]. pose proof (valid_index_operations _ _ _ Hv) as Hcan.
  unfold ValidateSpecIndexWithOptions in Hv. do 9 apply seq_ok in Hv as [_ Hv].
  unfold validateSpecIndexSurfaceUniqueness in Hv. apply seq_ok in Hv as [[Hu _]%for_unique_ok [Hs _]%for_unique_ok].
  rewrite Forall_forall in Hops. rewrite Forall_forall in Hschemas. rewrite Forall_forall in Hcan. apply NoDup_app. split_and!.
  - eapply (NoDup_fmap_iff _ surface_key); [|exact Hu]. intros o o' Ho Ho'.
    destruct (Hops o Ho) as (r & [_ Ht]%operation_identity), (Hops o' Ho') as (r' & [_ Ht']%operation_identity).
    apply operation_fields_key; [by destruct (Hcan o Ho)|by destruct (Hcan o' Ho')|done..].
  - intros f (o & -> & _)%list_elem_of_fmap (s & E & _)%list_elem_of_fmap. done.
  - eapply (NoDup_fmap_iff _ (λ s, TrimSpace (sch_Name s))); [|exact Hs]. intros s s' Hin Hin'.
    assert (Hn : ∀ s, s ∈ ix_Schemas (cdi_Index d) → canonical (sch_Name s)).
    { intros t Hin''. destruct (Hschemas t Hin'') as (r & Hr). unfold newSchemaDetailIdentity in Hr.
      do 2 apply seq_ok in Hr as [_ Hr]. by apply seq_ok in Hr as [Hr%ValidateCanonicalIdentity_required _]. }
    rewrite !canonical_trim by auto. unfold schema_fields. split; [by intros [= ->]|by intros ->].
Qed.

Lemma document_fields_key catalogID d f : f ∈ document_fields catalogID d → f !! 2%nat = Some (cdi_Key d).
Proof. unfold document_fields. by intros [(o & -> & _)%list_elem_of_fmap|(s & -> & _)%list_elem_of_fmap]%elem_of_app. Qed.

Lemma documents_fields_distinct heap options catalogID l :
  Forall (document_accepted heap options catalogID) l → NoDup (cdi_Key <$> l) → NoDup (l ≫= document_fields catalogID).
Proof.
  induction 1 as [|d l Hd Hl IH]; [constructor|]. cbn [fmap list_fmap]. intros [Hk Hn]%NoDup_cons. cbn.
  apply NoDup_app. split_and!; [by eapply document_fields_distinct| |by apply IH].
  intros f Hf%document_fields_key (d' & Hf'%document_fields_key & Hin)%list_elem_of_bind. apply Hk.
  apply list_elem_of_fmap. exists d'. split; [congruence|done].
Qed.

Lemma index_addresses_ok heap options catalogID l :
  Forall (document_accepted heap options catalogID) l →
  l ≫= document_addresses catalogID = (λ f, Ok (detail_address f)) <$> (l ≫= document_fields catalogID).
Proof.
  induction 1 as [|d l [_ Ho Hs] Hl IH]; [done|]. cbn. rewrite fmap_app. f_equal; [|exact IH].
  unfold document_addresses, document_fields. rewrite fmap_app, <-!list_fmap_compose. f_equal; apply list_fmap_ext.
  - intros i o Hi. unfold NewOperationDetailIDWithRequestTarget, compose.
    destruct (proj1 (Forall_lookup _ _) Ho i o Hi) as (r & Hr). rewrite Hr. by apply operation_identity in Hr as [-> _].
  - intros i s Hi. unfold NewSchemaDetailID, compose.
    destruct (proj1 (Forall_lookup _ _) Hs i s Hi) as (r & Hr). rewrite Hr. by apply schema_identity in Hr as ->.
Qed.

(** The addresses tell apart whatever their preimages tell apart. *)
Lemma known_addresses_distinct known known' fields :
  learns known fields known' → Forall (Forall short) fields → NoDup fields → NoDup (detail_address <$> fields).
Proof.
  intros [_ Hk] Hs Hn. rewrite Forall_forall in Hk, Hs.
  eapply (NoDup_fmap_iff _ (λ f, f)); [|change (NoDup (map (λ f, f) fields)); by rewrite map_id].
  intros f f' Hf Hf'. split; [|by intros ->]. intros E. pose proof (Hk f Hf) as K. rewrite E, (Hk f' Hf') in K.
  injection K as K. symmetry. by apply detailPreimage_inj; [by apply Hs|by apply Hs|].
Qed.

(** C36: In an accepted catalog every detail page has its own address: the
    addresses the code computes for the operations and schemas of all documents
    are defined and pairwise distinct.  Texts are taken to be shorter than 2^32
    bytes.  No property of the hash is used, since the check refuses two details
    that collide. *)
Theorem detail_addresses_distinct heap index options :
  ValidateCatalogIndexWithOptions heap index options = Ok tt → Forall (Forall short) (index_fields index) →
  ∃ ids, index_addresses index = Ok <$> ids ∧ NoDup ids.
Proof.
  unfold ValidateCatalogIndexWithOptions. intros Hv Hs. do 5 apply seq_ok in Hv as [_ Hv].
  apply bind_ok in Hv as (s & Hv & _).
  apply index_documents_ok in Hv as (Hd & [Hn _] & Hl).
  rewrite indexed_values in Hd, Hn, Hl.
  exists (detail_address <$> index_fields index). split.
  - unfold index_addresses. rewrite (index_addresses_ok heap options) by done. by rewrite <-list_fmap_compose.
  - eapply known_addresses_distinct; [exact Hl|done|]. by eapply documents_fields_distinct.
Qed.
End details.

Definition actions_catalog : CatalogIndex :=
  let index := actions_index "rev-1" ["start"; "stop"] in
  MkCatalogIndex "network" "rev-1" "Network" (ix_Branding index) CompatibilityProfileStrict
    [MkCatalogDocumentIndex "actions" "actions.json" index].

Lemma detail_addresses_distinct_witness :
  ∃ ids, @index_addresses latin1 actions_catalog = Ok <$> ids ∧ NoDup ids ∧ length (@index_addresses latin1 actions_catalog) = 2%nat.
Proof.
  destruct (@detail_addresses_distinct latin1 latin1_laws ∅ actions_catalog (MkValidationOptions true)) as (ids & E & Hn).
  - by vm_compute.
  - repeat (apply Forall_cons; split; [repeat (apply Forall_cons; split; [by vm_compute|]); apply Forall_nil; done|]). by apply Forall_nil.
  - exists ids. split; [exact E|]. split; [exact Hn|]. by vm_compute.
Defined.
