(* ===== verification/SchemaGraphSafety.v ===== *)
(** * What the schema graph holds

    A graph node unfolds to a tree; the tree of a summary is read off the
    summary itself.  Interning is unfolding's inverse, and shares exactly the
    summaries with equal trees, whatever the hash. *)

From S2P Require Import Prelude GoString GoSha256 Identity Spec SpecValidation EmbeddedJson Projection SchemaGraph.
From S2P Require Import CatalogDetails.

(** ** Trees *)

Record node_label := MkNodeLabel {
  nl_Name : string;
  nl_Type : string;
  nl_Format : string;
  nl_Description : string;
  nl_DefaultValue : string;
  nl_ExampleText : string;
  nl_JSON : string;
  nl_Enum : list string;
  nl_Constraints : list SchemaConstraint;
  nl_Nullable : bool;
  nl_Deprecated : bool;
}.

(** A property: its name, whether it is required, its description, its schema. *)
Inductive schema_tree :=
  SchemaTree (label : node_label) (properties : list (string * bool * string * schema_tree)) (items : list schema_tree).

Definition label_of (n : SchemaNode) : node_label :=
  MkNodeLabel (psn_Name n) (psn_Type n) (psn_Format n) (psn_Description n) (psn_DefaultValue n) (psn_ExampleText n)
    (psn_JSON n) (elems (psn_Enum n)) (elems (psn_Constraints n)) (psn_Nullable n) (psn_Deprecated n).

Definition node_at (nodes : list SchemaNode) (ref : SchemaRef) : option SchemaNode :=
  if 0 <=? ref then nodes !! Z.to_nat ref else None.

Fixpoint unfold_node (nodes : list SchemaNode) (fuel : nat) (ref : SchemaRef) : option schema_tree :=
  match fuel with
  | O => None
  | S fuel =>
      n ← node_at nodes ref;
      properties ← mapM (λ p, t ← unfold_node nodes fuel (psnp_SchemaRef p);
                              Some (psnp_Name p, psnp_Required p, psnp_Description p, t)) (elems (psn_Properties n));
      items ← mapM (λ i, unfold_node nodes fuel (psni_SchemaRef i)) (elems (psn_Items n));
      Some (SchemaTree (label_of n) properties items)
  end.

Section sources.
Context (heap : Heap) (limits : bool).

Definition source_label (source : SchemaSummary) (json : string) : node_label :=
  MkNodeLabel (ss_Name source) (ss_Type source) (ss_Format source) (ss_Description source) (ss_Default source)
    (ss_Example source) json (ss_Enum source) (node_constraints source) (ss_Nullable source) (ss_Deprecated source).

Fixpoint canonical_tree (fuel : nat) (source : SchemaSummary) : option schema_tree :=
  match fuel with
  | O => None
  | S fuel =>
      match source_json source limits with
      | Fail _ => None
      | Ok json =>
          properties ← mapM (λ p, t ← canonical_tree fuel (sp_Schema p);
                                  Some (sp_Name p, sp_Required p, sp_Description p, t)) (ss_Properties source);
          items ← mapM (λ p, canonical_tree fuel (heap !!! p)) (option_list (ss_Items source));
          Some (SchemaTree (source_label source json) properties items)
      end
  end.
End sources.

(** ** Reading content back *)

(** [enc x] can be told from any [enc y] at the head of a list that fits in
    memory. *)
Definition short_bytes (l : list Z) : Prop := Z.of_nat (length l) < 2 ^ 64.
Definition reads {A} (P : A → Prop) (enc : A → list Z) : Prop := ∀ x y l l',
  P x → P y → short_bytes (enc x ++ l) → enc x ++ l = enc y ++ l' → x = y ∧ l = l'.

Lemma short_bytes_app l l' : short_bytes (l ++ l') → short_bytes l ∧ short_bytes l'.
Proof. unfold short_bytes. rewrite length_app. lia. Qed.

Lemma reads_uint64 x y l l' :
  0 ≤ x < 2 ^ 64 → 0 ≤ y < 2 ^ 64 → appendSchemaUint64 x ++ l = appendSchemaUint64 y ++ l' → x = y ∧ l = l'.
Proof.
  intros Hx Hy E. apply app_inj_1 in E as [E ->]; [|unfold appendSchemaUint64; by rewrite !be_bytes_length].
  apply be_bytes_mod in E. change (8 * Z.of_nat 8) with 64 in E. rewrite !Z.mod_mod, !Z.mod_small in E by lia. done.
Qed.

Lemma reads_string : reads (λ _, True) appendSchemaString.
Proof.
  intros x y l l' _ _ Hs E. pose proof (f_equal length E) as En. unfold appendSchemaString in E, En, Hs.
  rewrite <-!app_assoc in E. rewrite <-!app_assoc in En. rewrite <-!app_assoc in Hs. unfold short_bytes in Hs. rewrite !length_app, !bytes_of_length in En. rewrite !length_app, !bytes_of_length in Hs.
  unfold appendSchemaUint64 in En, Hs. rewrite !be_bytes_length in En. rewrite !be_bytes_length in Hs.
  apply reads_uint64 in E as [El E]; [|unfold go_len; lia..]. unfold go_len in El.
  apply app_inj_1 in E as [E ->]; [|rewrite !bytes_of_length; lia]. by apply bytes_of_inj in E.
Qed.

Lemma reads_bool : reads (λ _, True) appendSchemaBool.
Proof. intros [] [] l l' _ _ _ [=]; by subst. Qed.

Lemma reads_uint32 : reads (λ n, 0 ≤ n < 2 ^ 32) appendSchemaUint32.
Proof.
  intros x y l l' Hx Hy _ E. unfold appendSchemaUint32 in E.
  apply app_inj_1 in E as [E ->]; [|by rewrite !be_bytes_length].
  apply be_bytes_mod in E. change (8 * Z.of_nat 4) with 32 in E. rewrite !Z.mod_small in E by lia. done.
Qed.

Lemma reads_elements {A} (P : A → Prop) (enc : A → list Z) :
  reads P enc → ∀ xs ys l l', length xs = length ys → Forall P xs → Forall P ys →
  short_bytes ((xs ≫= enc) ++ l) → (xs ≫= enc) ++ l = (ys ≫= enc) ++ l' → xs = ys ∧ l = l'.
Proof.
  intros He. induction xs as [|x xs IH]; intros [|y ys] l l' El Hx Hy Hs E; [done|done|done|].
  apply Forall_cons in Hx as [Hx Hxs]. apply Forall_cons in Hy as [Hy Hys]. injection El as El.
  cbn in E, Hs. rewrite <-!app_assoc in E. rewrite <-!app_assoc in Hs. destruct (He _ _ _ _ Hx Hy Hs E) as [-> E'].
  apply short_bytes_app in Hs as [_ Hs]. by destruct (IH _ _ _ El Hxs Hys Hs E') as [-> ->].
Qed.

Lemma elements_length {A} (enc : A → list Z) xs :
  (∀ x, (1 ≤ length (enc x))%nat) → (length xs ≤ length (xs ≫= enc))%nat.
Proof.
  intros He. induction xs as [|x xs IH]; [done|]. cbn [length]. change ((x :: xs) ≫= enc) with (enc x ++ (xs ≫= enc)).
  rewrite length_app. specialize (He x). lia.
Qed.

Lemma reads_list {A} (P : A → Prop) (enc : A → list Z) :
  reads P enc → (∀ x, (1 ≤ length (enc x))%nat) → reads (Forall P) (λ xs, append_count xs ++ (xs ≫= enc)).
Proof.
  intros He H1 xs ys l l' Hx Hy Hs E. pose proof (f_equal length E) as En.
  rewrite <-!app_assoc in E. rewrite <-!app_assoc in En. rewrite <-!app_assoc in Hs. unfold short_bytes in Hs. pose proof Hs as Hs'.
  pose proof (elements_length enc xs H1). pose proof (elements_length enc ys H1).
  unfold append_count in E, En, Hs. rewrite !length_app in En. rewrite !length_app in Hs.
  unfold appendSchemaUint64 in En, Hs. rewrite !be_bytes_length in En. rewrite !be_bytes_length in Hs.
  apply reads_uint64 in E as [El E]; [|lia..].
  apply short_bytes_app in Hs' as [_ Hs']. by apply (reads_elements P enc He); [lia|..].
Qed.

Ltac read lem E Hs H :=
  apply lem in E as [H E]; [|first [exact I|done]..|exact Hs]; apply short_bytes_app in Hs as [_ Hs].

Lemma reads_constraint : reads (λ _, True) constraint_bytes.
Proof.
  intros [n v] [n' v'] l l' _ _ Hs E. unfold constraint_bytes in E, Hs. rewrite <-!app_assoc in E. rewrite <-!app_assoc in Hs. cbn [psc_Name psc_Value] in E, Hs.
  read reads_string E Hs En. read reads_string E Hs Ev. by subst.
Qed.

(** ** Content *)

Definition content (n : SchemaNode) : node_label * list SchemaNodeProperty * list SchemaNodeItem :=
  (label_of n, elems (psn_Properties n), elems (psn_Items n)).

(** References below [bound], and what numbering the parts gives. *)
Record node_shape (bound : nat) (n : SchemaNode) : Prop := NodeShape {
  ns_properties : ∀ k p, elems (psn_Properties n) !! k = Some p →
    psnp_Ordinal p = uint32 (Z.of_nat k) ∧ psnp_ID p = psnp_Name p ∧ 0 ≤ psnp_SchemaRef p < Z.of_nat bound;
  ns_items : ∀ i, i ∈ elems (psn_Items n) →
    psni_Ordinal i = 0 ∧ psni_ID i = "items" ∧ 0 ≤ psni_SchemaRef i < Z.of_nat bound;
}.

Lemma node_shape_le bound bound' n : node_shape bound n → (bound ≤ bound')%nat → node_shape bound' n.
Proof.
  intros [Hp Hi] Hb. constructor.
  - intros k p Hk. destruct (Hp k p Hk) as (? & ? & ?). split_and!; [done|done|lia..].
  - intros i Hin. destruct (Hi i Hin) as (? & ? & ?). split_and!; [done|done|lia..].
Qed.

Lemma uint32_bound n : 0 ≤ uint32 n < 2 ^ 32.
Proof. apply Z.mod_pos_bound. lia. Qed.

(** Drafts told apart by their digests. *)
Record digests_ok (drafts : list schemaNodeDraft) : Prop := DigestsOk {
  dg_length : ∀ i d, drafts !! i = Some d → length (sd_digest d) = 32%nat;
  dg_unique : ∀ i j d d', drafts !! i = Some d → drafts !! j = Some d' → sd_digest d = sd_digest d' → i = j;
}.

Definition in_range (drafts : list schemaNodeDraft) (ref : SchemaRef) : Prop := 0 ≤ ref < Z.of_nat (length drafts).

Lemma in_range_lookup drafts ref : in_range drafts ref → ∃ d, drafts !! Z.to_nat ref = Some d.
Proof. intros [? ?]. apply lookup_lt_is_Some_2. lia. Qed.

Section reading.
Context (drafts : list schemaNodeDraft) (Hdrafts : digests_ok drafts).

Lemma reads_digest : reads (in_range drafts) (digest_of drafts).
Proof.
  intros x y l l' Hx Hy _ E. destruct (in_range_lookup _ _ Hx) as [d Ed], (in_range_lookup _ _ Hy) as [d' Ed'].
  unfold digest_of in E. rewrite Ed, Ed' in E. cbn in E.
  apply app_inj_1 in E as [E ->]; [|by rewrite (dg_length _ Hdrafts _ _ Ed), (dg_length _ Hdrafts _ _ Ed')].
  split; [|done]. pose proof (dg_unique _ Hdrafts _ _ _ _ Ed Ed' E). destruct Hx, Hy. lia.
Qed.

Definition property_fits (p : SchemaNodeProperty) : Prop :=
  0 ≤ psnp_Ordinal p < 2 ^ 32 ∧ in_range drafts (psnp_SchemaRef p).
Definition item_fits (i : SchemaNodeItem) : Prop := 0 ≤ psni_Ordinal i < 2 ^ 32 ∧ in_range drafts (psni_SchemaRef i).

Lemma reads_property : reads property_fits (property_bytes drafts).
Proof.
  intros [o i n r d f] [o' i' n' r' d' f'] l l' [Ho Hr] [Ho' Hr'] Hs E. unfold property_bytes in E, Hs.
  rewrite <-!app_assoc in E. rewrite <-!app_assoc in Hs. cbn [psnp_Ordinal psnp_ID psnp_Name psnp_Required psnp_Description psnp_SchemaRef] in *. read reads_uint32 E Hs Eo. read reads_string E Hs Ei. read reads_string E Hs En.
  read reads_bool E Hs Eb. read reads_string E Hs Ed. read reads_digest E Hs Ef. by subst.
Qed.

Lemma reads_item : reads item_fits (item_bytes drafts).
Proof.
  intros [o i f] [o' i' f'] l l' [Ho Hr] [Ho' Hr'] Hs E. unfold item_bytes in E, Hs.
  rewrite <-!app_assoc in E. rewrite <-!app_assoc in Hs. cbn [psni_Ordinal psni_ID psni_SchemaRef] in *. read reads_uint32 E Hs Eo. read reads_string E Hs Ei. read reads_digest E Hs Ef.
  by subst.
Qed.

Lemma shape_fits n :
  node_shape (length drafts) n → Forall property_fits (elems (psn_Properties n)) ∧ Forall item_fits (elems (psn_Items n)).
Proof.
  intros [Hp Hi]. split.
  - apply Forall_lookup. intros k p (E & _ & ?)%Hp. split; [rewrite E; apply uint32_bound|done].
  - apply Forall_forall. intros i (E & _ & ?)%Hi. split; [lia|done].
Qed.

Lemma string_bytes_length s : (1 ≤ length (appendSchemaString s))%nat.
Proof. unfold appendSchemaString, appendSchemaUint64. rewrite length_app, be_bytes_length. lia. Qed.
Lemma constraint_bytes_length c : (1 ≤ length (constraint_bytes c))%nat.
Proof. unfold constraint_bytes. rewrite length_app. pose proof (string_bytes_length (psc_Name c)). lia. Qed.
Lemma property_bytes_length p : (1 ≤ length (property_bytes drafts p))%nat.
Proof. unfold property_bytes, appendSchemaUint32. rewrite length_app, be_bytes_length. lia. Qed.
Lemma item_bytes_length i : (1 ≤ length (item_bytes drafts i))%nat.
Proof. unfold item_bytes, appendSchemaUint32. rewrite length_app, be_bytes_length. lia. Qed.

Lemma preimage_content n n' :
  node_shape (length drafts) n → node_shape (length drafts) n' → short_bytes (schemaNodePreimage drafts n) →
  schemaNodePreimage drafts n = schemaNodePreimage drafts n' → content n = content n'.
Proof.
  intros Hn Hn' Hs E. destruct (shape_fits n Hn) as [Hp Hi], (shape_fits n' Hn') as [Hp' Hi'].
  unfold schemaNodePreimage in E, Hs. rewrite <-(app_nil_r (elems (psn_Items n) ≫= _)), <-(app_nil_r (elems (psn_Items n') ≫= _)) in E.
  rewrite <-(app_nil_r (elems (psn_Items n) ≫= _)) in Hs. apply app_inv_head in E.
  apply short_bytes_app in Hs as [_ Hs].
  apply (reads_elements _ _ reads_string) in E as [Es E]; [|done|by apply Forall_true..|exact Hs].
  apply short_bytes_app in Hs as [_ Hs]. unfold appendSchemaStrings in E, Hs.
  rewrite (app_assoc (append_count (elems (psn_Constraints n)))), (app_assoc (append_count (elems (psn_Properties n)))),
    (app_assoc (append_count (elems (psn_Items n)))) in E, Hs.
  rewrite (app_assoc (append_count (elems (psn_Constraints n')))), (app_assoc (append_count (elems (psn_Properties n')))),
    (app_assoc (append_count (elems (psn_Items n')))) in E.
  apply (reads_list _ _ reads_string string_bytes_length) in E as [Ee E]; [|by apply Forall_true..|exact Hs].
  apply short_bytes_app in Hs as [_ Hs].
  apply (reads_list _ _ reads_constraint constraint_bytes_length) in E as [Ec E]; [|by apply Forall_true..|exact Hs].
  apply short_bytes_app in Hs as [_ Hs]. read reads_bool E Hs En. read reads_bool E Hs Ed.
  apply (reads_list _ _ reads_property property_bytes_length) in E as [Ep E]; [|done..|exact Hs].
  apply short_bytes_app in Hs as [_ Hs].
  apply (reads_list _ _ reads_item item_bytes_length) in E as [Ei _]; [|done..|exact Hs].
  unfold content, label_of. injection Es as -> -> -> -> -> -> ->. by rewrite Ee, Ec, En, Ed, Ep, Ei.
Qed.
End reading.

(** ** The invariant of the graph *)

Lemma bind_cong {A B} (f g : A → list B) l : (∀ x, x ∈ l → f x = g x) → l ≫= f = l ≫= g.
Proof.
  induction l as [|x l IH]; intros E; [done|]. cbn. rewrite E by by left. f_equal. apply IH. intros y Hy. apply E. by right.
Qed.

Lemma digest_of_app drafts more ref : in_range drafts ref → digest_of (drafts ++ more) ref = digest_of drafts ref.
Proof. intros [? ?]. unfold digest_of. rewrite lookup_app_l; [done|lia]. Qed.

Lemma preimage_app drafts more n :
  node_shape (length drafts) n → schemaNodePreimage (drafts ++ more) n = schemaNodePreimage drafts n.
Proof.
  intros [Hp Hi]. unfold schemaNodePreimage.
  rewrite (bind_cong (property_bytes (drafts ++ more)) (property_bytes drafts)).
  - rewrite (bind_cong (item_bytes (drafts ++ more)) (item_bytes drafts)); [done|].
    intros i (_ & _ & ?)%Hi. unfold item_bytes. by rewrite digest_of_app.
  - intros p (k & Hk)%list_elem_of_lookup. apply Hp in Hk as (_ & _ & ?). unfold property_bytes. by rewrite digest_of_app.
Qed.

Lemma preimage_of_content drafts n n' :
  content n = content n' → schemaNodePreimage drafts n = schemaNodePreimage drafts n'.
Proof.
  unfold content, label_of, schemaNodePreimage.
  intros [= -> -> -> -> -> -> -> Ee Ec -> -> Ep Ei]. by rewrite Ee, Ec, Ep, Ei.
Qed.

Section graph.
Context (hasher : list Z → list Z) (Hhash : ∀ l, length (hasher l) = 32%nat).

Record draft_ok (drafts : list schemaNodeDraft) (i : nat) (d : schemaNodeDraft) : Prop := DraftOk {
  dr_digest : sd_digest d = hasher (sd_preimage d);
  dr_preimage : sd_preimage d = schemaNodePreimage drafts (sd_node d);
  dr_shape : node_shape i (sd_node d);
  dr_id : psn_ID (sd_node d) = "schema-node-" +:+ hex_encode (sd_digest d);
}.

Definition drafts_edges (drafts : list schemaNodeDraft) : Z := foldr Z.add 0 (node_edges ∘ sd_node <$> drafts).

Record graph_ok (g : schemaGraphBuilder) : Prop := GraphOk {
  go_drafts : ∀ i d, sg_drafts g !! i = Some d → draft_ok (sg_drafts g) i d;
  go_index : ∀ i d, sg_drafts g !! i = Some d → sg_byDigest g !! sd_digest d = Some (Z.of_nat i);
  go_known : ∀ digest ref, sg_byDigest g !! digest = Some ref →
    ∃ i d, ref = Z.of_nat i ∧ sg_drafts g !! i = Some d ∧ sd_digest d = digest;
  go_edges : sg_edges g = drafts_edges (sg_drafts g);
  go_limits : sg_resourceLimits g = true →
    Z.of_nat (length (sg_drafts g)) ≤ maxSchemaGraphNodes ∧ sg_edges g ≤ maxSchemaGraphEdges;
}.

(** What a machine can hold: 32-bit references and 64-bit lengths suffice. *)
Record memory_ok (g : schemaGraphBuilder) : Prop := MemoryOk {
  mm_references : Z.of_nat (length (sg_drafts g)) ≤ 2 ^ 32;
  mm_preimages : Forall (λ d, short_bytes (sd_preimage d)) (sg_drafts g);
}.

Definition grows (g g' : schemaGraphBuilder) : Prop :=
  (∃ more, sg_drafts g' = sg_drafts g ++ more) ∧ sg_resourceLimits g' = sg_resourceLimits g.

#[export] Instance grows_preorder : PreOrder grows.
Proof.
  split.
  - intros g. split; [by exists []; rewrite app_nil_r|done].
  - intros g1 g2 g3 [[m1 E1] L1] [[m2 E2] L2]. split; [|congruence]. exists (m1 ++ m2). by rewrite E2, E1, app_assoc.
Qed.

Lemma memory_grows g g' : grows g g' → memory_ok g' → memory_ok g.
Proof.
  intros [[more E] _] [Hr Hp]. rewrite E in Hr, Hp. rewrite length_app in Hr. apply Forall_app in Hp as [Hp _].
  constructor; [lia|done].
Qed.

Lemma graph_digests g : graph_ok g → digests_ok (sg_drafts g).
Proof.
  intros [Hd Hi _ _ _]. constructor.
  - intros i d Hl. destruct (Hd i d Hl) as [-> _ _ _]. apply Hhash.
  - intros i j d d' Hl Hl' E. pose proof (Hi i d Hl) as K. rewrite E, (Hi j d' Hl') in K. injection K as K. lia.
Qed.

Lemma new_graph_ok limits : graph_ok (newSchemaGraphBuilder limits).
Proof.
  constructor; cbn; [by intros ? ? ?|by intros ? ? ?| |done|done]. intros digest ref. by rewrite lookup_empty.
Qed.

(** What [add_node] establishes. *)
Record added (g : schemaGraphBuilder) (node : SchemaNode) (g' : schemaGraphBuilder) (ref : SchemaRef) : Prop := Added {
  ad_graph : graph_ok g';
  ad_grows : grows g g';
  ad_node : ∃ n, node_at (graph_nodes g') ref = Some n ∧ content n = content node;
  ad_range : in_range (sg_drafts g') ref;
}.

Lemma draft_node g ref d : 0 ≤ ref → sg_drafts g !! Z.to_nat ref = Some d → node_at (graph_nodes g) ref = Some (sd_node d).
Proof.
  intros Hr Hd. unfold node_at, graph_nodes. rewrite list_lookup_fmap, Hd. by destruct (Z.leb_spec 0 ref); [|lia].
Qed.

Lemma add_existing g node ref :
  graph_ok g → memory_ok g → node_shape (length (sg_drafts g)) node →
  sg_byDigest g !! hasher (schemaNodePreimage (sg_drafts g) node) = Some ref →
  sd_preimage <$> sg_drafts g !! Z.to_nat ref = Some (schemaNodePreimage (sg_drafts g) node) →
  added g node g ref.
Proof.
  intros Hg [_ Hm] Hn Hk Hp. destruct (go_known _ Hg _ _ Hk) as (i & d & -> & Hd & _). rewrite Nat2Z.id, Hd in Hp.
  injection Hp as Hp. pose proof (go_drafts _ Hg i d Hd) as [_ Ep Hs _].
  assert (Hi : (i < length (sg_drafts g))%nat) by (by eapply lookup_lt_Some).
  constructor; [done|done| |unfold in_range; lia]. exists (sd_node d).
  split; [apply draft_node; [lia|by rewrite Nat2Z.id]|].
  apply (preimage_content (sg_drafts g)); [by apply graph_digests|by eapply node_shape_le; [exact Hs|lia]|done| |congruence].
  rewrite <-Ep. by eapply Forall_lookup_1 in Hm.
Qed.

Lemma drafts_edges_app l l' : drafts_edges (l ++ l') = drafts_edges l + drafts_edges l'.
Proof.
  unfold drafts_edges. rewrite fmap_app. induction (node_edges ∘ sd_node <$> l) as [|x xs IH]; cbn [app foldr]; [done|].
  rewrite IH. lia.
Qed.

Definition with_draft (g : schemaGraphBuilder) (node : SchemaNode) : schemaGraphBuilder :=
  let preimage := schemaNodePreimage (sg_drafts g) node in
  let digest := hasher preimage in
  MkSchemaGraphBuilder
    (sg_drafts g ++ [MkSchemaNodeDraft digest preimage (with_id ("schema-node-" +:+ hex_encode digest) node)])
    (<[digest := Z.of_nat (length (sg_drafts g))]> (sg_byDigest g)) (sg_edges g + node_edges node) (sg_resourceLimits g).

Lemma with_draft_grows g node : grows g (with_draft g node).
Proof. split; [by eexists|done]. Qed.

Lemma with_draft_ok g node :
  graph_ok g → node_shape (length (sg_drafts g)) node →
  sg_byDigest g !! hasher (schemaNodePreimage (sg_drafts g) node) = None →
  (sg_resourceLimits g = true → Z.of_nat (length (sg_drafts g)) < maxSchemaGraphNodes
    ∧ sg_edges g + node_edges node ≤ maxSchemaGraphEdges) →
  graph_ok (with_draft g node).
Proof.
  intros Hg Hn Hf Hl. set (digest := hasher (schemaNodePreimage (sg_drafts g) node)) in *.
  set (n := with_id ("schema-node-" +:+ hex_encode digest) node).
  set (d0 := MkSchemaNodeDraft digest (schemaNodePreimage (sg_drafts g) node) n).
  assert (Hcase : ∀ i d, sg_drafts (with_draft g node) !! i = Some d →
            sg_drafts g !! i = Some d ∨ i = length (sg_drafts g) ∧ d = d0).
  { intros i d Hd. apply lookup_app_Some in Hd as [?|[Hi Hd]]; [by left|right].
    apply list_lookup_singleton_Some in Hd as [Hi' <-]. split; [lia|done]. }
  assert (Hsh : node_shape (length (sg_drafts g)) n) by (destruct Hn as [Hp Hi]; by constructor).
  constructor.
  - intros i d [Hd|[-> ->]]%Hcase.
    + pose proof (go_drafts _ Hg i d Hd) as [E1 E2 E3 E4]. constructor; [done| |done|done]. rewrite E2. symmetry.
      apply preimage_app. eapply node_shape_le; [exact E3|]. apply Nat.lt_le_incl. by eapply lookup_lt_Some.
    + constructor; [done| |done|done]. cbn [d0 sd_preimage sd_node]. etransitivity; [|symmetry; by apply preimage_app].
      by apply preimage_of_content.
  - intros i d [Hd|[-> ->]]%Hcase; cbn [with_draft sg_byDigest]; fold digest; [|apply lookup_insert_eq].
    rewrite lookup_insert_ne; [by apply Hg|]. intros E. pose proof (go_index _ Hg i d Hd) as K. rewrite <-E in K.
    discriminate (eq_trans (eq_sym K) Hf).
  - intros dg ref. cbn [with_draft sg_byDigest]. fold digest. intros [[<- <-]|[_ Hk]]%lookup_insert_Some.
    + exists (length (sg_drafts g)), d0. split_and!; [done| |done]. cbn [with_draft sg_drafts]. by rewrite lookup_app_r, Nat.sub_diag.
    + destruct (go_known _ Hg _ _ Hk) as (i & d & -> & Hd & <-). exists i, d. split_and!; [done| |done].
      cbn [with_draft sg_drafts]. by apply lookup_app_l_Some.
  - cbn [with_draft sg_edges sg_drafts]. rewrite drafts_edges_app, (go_edges _ Hg). f_equal.
    symmetry. apply Z.add_0_r.
  - cbn [with_draft sg_edges sg_drafts sg_resourceLimits]. intros E. rewrite length_app. cbn [length].
    destruct (Hl E). lia.
Qed.

Lemma add_node_added g node g' ref :
  graph_ok g → memory_ok g' → node_shape (length (sg_drafts g)) node → add_node hasher node g = Ok (g', ref) →
  added g node g' ref.
Proof.
  intros Hg Hm Hn. unfold add_node. destruct (sg_byDigest g !! _) as [existing|] eqn:Ek.
  { intros [Hp [= <- <-]]%seq_ok. apply throw_if_ok, negb_false_iff, bool_decide_eq_true in Hp. by apply add_existing. }
  intros [Hb1 [Hb2 [= <- <-]]%seq_ok]%seq_ok. apply throw_if_ok in Hb1, Hb2.
  pose proof (mm_references _ Hm) as Hr. cbn [sg_drafts] in Hr. rewrite length_app in Hr. cbn [length] in Hr.
  assert (Eu : uint32 (Z.of_nat (length (sg_drafts g))) = Z.of_nat (length (sg_drafts g))) by (apply Z.mod_small; lia).
  rewrite Eu in Hm |- *. change (added g node (with_draft g node) (Z.of_nat (length (sg_drafts g)))).
  assert (graph_ok (with_draft g node)) as Hg'.
  { apply with_draft_ok; [done..|]. intros El. rewrite El in Hb1, Hb2. cbn in Hb1, Hb2.
    apply Z.leb_gt in Hb1. apply Z.ltb_ge in Hb2. lia. }
  constructor; [done|apply with_draft_grows| |].
  - eexists. split; [apply draft_node; [lia|]|].
    + rewrite Nat2Z.id. cbn [with_draft sg_drafts]. by rewrite lookup_app_r, Nat.sub_diag.
    + done.
  - unfold in_range. cbn [with_draft sg_drafts]. rewrite length_app. cbn [length]. lia.
Qed.
End graph.

(** ** Unfolding *)

Lemma node_at_app nodes more ref n : node_at nodes ref = Some n → node_at (nodes ++ more) ref = Some n.
Proof. unfold node_at. destruct (0 <=? ref); [|done]. by apply lookup_app_l_Some. Qed.

Lemma mapM_impl {A B} (f g : A → option B) l ts :
  (∀ x t, f x = Some t → g x = Some t) → mapM f l = Some ts → mapM g l = Some ts.
Proof. rewrite !mapM_Some. intros Hfg Hl. eapply Forall2_impl; [exact Hl|]. auto. Qed.

Definition node_property (unfold : SchemaRef → option schema_tree) (p : SchemaNodeProperty) :=
  t ← unfold (psnp_SchemaRef p); Some (psnp_Name p, psnp_Required p, psnp_Description p, t).
Definition node_item (unfold : SchemaRef → option schema_tree) (i : SchemaNodeItem) := unfold (psni_SchemaRef i).

Lemma unfold_node_S nodes fuel ref t :
  unfold_node nodes (S fuel) ref = Some t ↔
  ∃ n properties items, node_at nodes ref = Some n
    ∧ mapM (node_property (unfold_node nodes fuel)) (elems (psn_Properties n)) = Some properties
    ∧ mapM (node_item (unfold_node nodes fuel)) (elems (psn_Items n)) = Some items
    ∧ t = SchemaTree (label_of n) properties items.
Proof.
  cbn [unfold_node]. change (λ p : SchemaNodeProperty, _) with (node_property (unfold_node nodes fuel)).
  change (λ i : SchemaNodeItem, _) with (node_item (unfold_node nodes fuel)). split.
  - intros (n & ? & (ps & ? & (its & ? & [= <-])%bind_Some)%bind_Some)%bind_Some. by exists n, ps, its.
  - intros (n & ps & its & -> & Hp & Hi & ->). cbn. rewrite Hp. cbn. by rewrite Hi.
Qed.

Lemma unfold_app nodes more fuel ref t :
  unfold_node nodes fuel ref = Some t → unfold_node (nodes ++ more) fuel ref = Some t.
Proof.
  revert ref t. induction fuel as [|fuel IH]; [done|]. intros ref t (n & ps & its & Hn & Hp & Hi & ->)%unfold_node_S.
  apply unfold_node_S. exists n, ps, its. split_and!; [by apply node_at_app| | |done].
  - eapply mapM_impl; [|exact Hp]. intros p tp. unfold node_property. intros (t & Ht & [= <-])%bind_Some. by rewrite (IH _ _ Ht).
  - eapply mapM_impl; [|exact Hi]. intros i ti. apply IH.
Qed.

Lemma unfold_content nodes fuel ref n n' properties items :
  node_at nodes ref = Some n → content n = content n' →
  mapM (node_property (unfold_node nodes fuel)) (elems (psn_Properties n')) = Some properties →
  mapM (node_item (unfold_node nodes fuel)) (elems (psn_Items n')) = Some items →
  unfold_node nodes (S fuel) ref = Some (SchemaTree (label_of n') properties items).
Proof.
  intros Hn. unfold content. intros [= ? ? ? ? ? ? ? ? ? ? ? Ep Ei] Hp Hi. apply unfold_node_S. exists n, properties, items.
  rewrite Ep, Ei. split_and!; [done..|]. unfold label_of. congruence.
Qed.

(** ** Interning reads back *)

Section interning.
Context (hasher : list Z → list Z) (Hhash : ∀ l, length (hasher l) = 32%nat) (heap : Heap).
Notation graph s := (bs_schemaGraph s).
Notation graph_ok := (graph_ok hasher).

Definition graph_grows (s s' : buildState) : Prop := grows (graph s) (graph s').
#[export] Instance graph_grows_preorder : PreOrder graph_grows.
Proof. split; [intros s; unfold graph_grows; reflexivity|intros s1 s2 s3; unfold graph_grows; apply transitivity]. Qed.

Notation only_grows := (keeps graph_grows).

Lemma run_grows {A} (m : building A) s s' r : only_grows m → m s = (s', r) → grows (graph s) (graph s').
Proof. intros Hm E. specialize (Hm s). by rewrite E in Hm. Qed.
Lemma only_grows_checkpoint : only_grows checkpoint.
Proof. intros s. unfold checkpoint, graph_grows. by destruct (bs_ctx s). Qed.

Lemma only_grows_node node : only_grows (intern_node hasher node).
Proof.
  intros s. unfold graph_grows, intern_node, add_node. cbn zeta. destruct (sg_byDigest (graph s) !! _).
  - destruct (throw_if _ _); cbn; reflexivity.
  - unfold throw_if. destruct (_ && (maxSchemaGraphNodes <=? _)); cbn; [reflexivity|].
    destruct (_ && _); cbn; [reflexivity|]. split; [by eexists|done].
Qed.

Lemma only_grows_properties intern i built l :
  (∀ source, only_grows (intern source)) → only_grows (intern_properties intern i built l).
Proof.
  intros Hi. revert i built. induction l as [|p l IH]; intros i built; cbn [intern_properties]; keeps_tac; [apply Hi|apply IH].
Qed.

Lemma only_grows_items intern items : (∀ source, only_grows (intern source)) → only_grows (intern_items heap intern items).
Proof. intros Hi. unfold intern_items. keeps_tac. apply Hi. Qed.

Lemma internSchema_grows fuel source : only_grows (internSchema hasher heap fuel source).
Proof.
  revert source. induction fuel as [|fuel IH]; intros source; cbn [internSchema]; keeps_tac;
    [apply only_grows_checkpoint|by apply only_grows_properties|by apply only_grows_items|apply only_grows_node].
Qed.

(** [ref] is where [g'], grown from [g], keeps [tree]. *)
Record kept (g : schemaGraphBuilder) (tree : option schema_tree) (fuel : nat) (g' : schemaGraphBuilder) (ref : SchemaRef) : Prop := Kept {
  kp_graph : graph_ok g';
  kp_range : in_range (sg_drafts g') ref;
  kp_tree : ∃ t, tree = Some t ∧ unfold_node (graph_nodes g') fuel ref = Some t;
}.

Definition keeps_trees (limits : bool) (fuel : nat) (intern : SchemaSummary → building SchemaRef) : Prop :=
  ∀ source s s' ref, intern source s = (s', Ok ref) → graph_ok (graph s) → memory_ok (graph s') →
    sg_resourceLimits (graph s) = limits →
    kept (graph s) (canonical_tree heap limits fuel source) fuel (graph s') ref.

Lemma grows_nodes g g' fuel ref t :
  grows g g' → unfold_node (graph_nodes g) fuel ref = Some t → unfold_node (graph_nodes g') fuel ref = Some t.
Proof. intros [[more E] _] Ht. unfold graph_nodes. rewrite E, fmap_app. by apply unfold_app. Qed.

Lemma grows_range g g' ref : grows g g' → in_range (sg_drafts g) ref → in_range (sg_drafts g') ref.
Proof. intros [[more E] _] [? ?]. unfold in_range. rewrite E, length_app. lia. Qed.

Definition source_property limits fuel (p : SchemaProperty) :=
  t ← canonical_tree heap limits fuel (sp_Schema p); Some (sp_Name p, sp_Required p, sp_Description p, t).

(** The properties [built] by the loop from position [i] on. *)
Record properties_kept (limits : bool) (fuel : nat) (l : list SchemaProperty) (i : Z) (g' : schemaGraphBuilder)
    (built : list SchemaNodeProperty) : Prop := PropertiesKept {
  pk_shape : ∀ k p, built !! k = Some p →
    psnp_Ordinal p = uint32 (i + Z.of_nat k) ∧ psnp_ID p = psnp_Name p ∧ in_range (sg_drafts g') (psnp_SchemaRef p);
  pk_trees : ∃ ts, mapM (source_property limits fuel) l = Some ts
    ∧ mapM (node_property (unfold_node (graph_nodes g') fuel)) built = Some ts;
}.

Lemma properties_keep limits fuel intern l :
  keeps_trees limits fuel intern → (∀ source, only_grows (intern source)) →
  ∀ i built s s' ps, intern_properties intern i built l s = (s', Ok ps) → graph_ok (graph s) → memory_ok (graph s') →
    sg_resourceLimits (graph s) = limits →
    graph_ok (graph s') ∧ ∃ new, ps = built ++ new ∧ properties_kept limits fuel l i (graph s') new.
Proof.
  intros Hk Hgrow. induction l as [|p l IH]; intros i built s s' ps; cbn [intern_properties].
  { intros [= <- <-] Hg _ _. split; [done|]. exists []. split; [by rewrite app_nil_r|]. constructor; [by intros ? ? ?|by exists []]. }
  intros (_ & _ & (s1 & ref & Hi & Hr)%st_bind_ok)%lift_bind_ok Hg Hm Hl.
  pose proof (run_grows _ _ _ _ (only_grows_properties _ _ _ _ Hgrow) Hr) as Hg1.
  pose proof (run_grows _ _ _ _ (Hgrow (sp_Schema p)) Hi) as Hg0.
  destruct (Hk _ _ _ _ Hi Hg (memory_grows _ _ Hg1 Hm) Hl) as [Hok Hrange (t & Ht & Hu)].
  destruct (IH _ _ _ _ _ Hr Hok Hm) as (Hok' & new & -> & [Hs (ts & Hts & Hus)]).
  { by destruct Hg0 as [_ ->]. }
  split; [done|]. exists (MkSchemaNodeProperty (uint32 i) (sp_Name p) (sp_Name p) (sp_Required p) (sp_Description p) ref :: new).
  split; [by rewrite <-app_assoc|]. constructor.
  - intros [|k] q; cbn [lookup list_lookup].
    + intros [= <-]. rewrite Z.add_0_r. split_and!; [done|done|by eapply grows_range].
    + intros Hq. destruct (Hs k q Hq) as (-> & ? & ?). split_and!; [f_equal; lia|done|done].
  - exists ((sp_Name p, sp_Required p, sp_Description p, t) :: ts). split; apply mapM_Some; constructor.
    + unfold source_property. by rewrite Ht.
    + by apply mapM_Some.
    + unfold node_property. cbn. by rewrite (grows_nodes _ _ _ _ _ Hg1 Hu).
    + by apply mapM_Some.
Qed.

Lemma items_keep limits fuel intern items s s' its :
  keeps_trees limits fuel intern → intern_items heap intern items s = (s', Ok its) →
  graph_ok (graph s) → memory_ok (graph s') → sg_resourceLimits (graph s) = limits →
  graph_ok (graph s')
  ∧ (∀ i, i ∈ its → psni_Ordinal i = 0 ∧ psni_ID i = "items" ∧ in_range (sg_drafts (graph s')) (psni_SchemaRef i))
  ∧ ∃ ts, mapM (λ p, canonical_tree heap limits fuel (heap !!! p)) (option_list items) = Some ts
      ∧ mapM (node_item (unfold_node (graph_nodes (graph s')) fuel)) its = Some ts.
Proof.
  intros Hk. destruct items as [p|]; cbn [intern_items option_list].
  - intros (s1 & ref & Hi & [= <- <-])%st_bind_ok Hg Hm Hl. destruct (Hk _ _ _ _ Hi Hg Hm Hl) as [Hok Hr (t & Ht & Hu)].
    split; [done|]. split; [by intros i ->%list_elem_of_singleton|]. exists [t]. cbn. unfold node_item. cbn. by rewrite Ht, Hu.
  - intros [= <- <-] Hg _ _. split; [done|]. split; [by intros i ?%elem_of_nil|by exists []].
Qed.

Lemma checkpoint_ok s s' u : checkpoint s = (s', Ok u) → graph s' = graph s.
Proof. unfold checkpoint. destruct (bs_ctx s); by intros [= <- _]. Qed.

Lemma grows_length g g' : grows g g' → (length (sg_drafts g) ≤ length (sg_drafts g'))%nat.
Proof. intros [[more E] _]. rewrite E, length_app. lia. Qed.

Lemma internSchema_keeps limits fuel : keeps_trees limits fuel (internSchema hasher heap fuel).
Proof.
  induction fuel as [|fuel IH]; [by intros source s s' ref|]. intros source s s' ref. cbn [internSchema canonical_tree].
  intros (s0 & u & H0%checkpoint_ok & Hr)%st_bind_ok Hg Hm Hl. unfold gets at 1 in Hr. apply st_bind_ok in Hr as (? & ? & [= <- <-] & Hr). rewrite H0, Hl in Hr.
  apply lift_bind_ok in Hr as (json & Hj & Hr). apply st_bind_ok in Hr as (s1 & ps & Hps & Hr).
  apply st_bind_ok in Hr as (s2 & its & Hits & Hr). rewrite <-H0 in Hg, Hl |- *. clear H0.
  pose proof (run_grows _ _ _ _ (only_grows_properties _ _ _ _ (internSchema_grows fuel)) Hps) as G1.
  pose proof (run_grows _ _ _ _ (only_grows_items _ _ (internSchema_grows fuel)) Hits) as G2.
  pose proof (run_grows _ _ _ _ (only_grows_node _) Hr) as G3.
  pose proof (memory_grows _ _ G3 Hm) as M2. pose proof (memory_grows _ _ G2 M2) as M1.
  destruct (properties_keep _ _ _ _ IH (internSchema_grows fuel) _ _ _ _ _ Hps Hg M1 Hl) as (Hg1 & new & -> & [Hshape (ts & Hts & Hus)]).
  destruct (items_keep _ _ _ _ _ _ _ IH Hits Hg1 M2) as (Hg2 & Hishape & (us & Hui & Huu)).
  { destruct G1 as [_ ->]. done. }
  unfold intern_node in Hr. destruct (add_node _ _ _) as [[g' r']|] eqn:Ea; [|done]. injection Hr as <- <-. cbn [bs_schemaGraph with_graph] in *.
  apply add_node_added in Ea as [Hg' Hgrow (n & Hn & Hc) Hrange]; [|done..|].
  - constructor; [done|done|]. rewrite Hj. unfold source_property in Hts.
    exists (SchemaTree (source_label source json) ts us). split.
    + change (λ p : SchemaProperty, _) with (source_property limits fuel). unfold source_property. rewrite Hts. cbn. by rewrite Hui.
    + pose proof (unfold_content (graph_nodes g') fuel r' n _ ts us Hn Hc) as Hu. cbn [psn_Properties psn_Items elems default from_option] in Hu.
      rewrite Hu; [done| |].
      * eapply mapM_impl; [|exact Hus]. intros p tp. unfold node_property. intros (t & Ht & [= <-])%bind_Some.
        by rewrite (grows_nodes _ _ _ _ _ Hgrow (grows_nodes _ _ _ _ _ G2 Ht)).
      * eapply mapM_impl; [|exact Huu]. intros i ti. by apply grows_nodes.
  - constructor; cbn [psn_Properties psn_Items elems default from_option].
    + intros k p Hk. destruct (Hshape k p Hk) as (-> & ? & Hp). apply (grows_range _ _ _ G2) in Hp as [? ?]. split_and!; [done|done|lia..].
    + intros i Hi. destruct (Hishape i Hi) as (? & ? & [? ?]). split_and!; [done|done|lia..].
Qed.

(** ** Builds *)

(** The states of a build: it interns schemas one after another and does other
    things that leave the graph alone; the log lists what was interned. *)
Inductive built (limits : bool) (fuel : nat) : buildState → list (SchemaSummary * SchemaRef) → Prop :=
  | built_new s : graph s = newSchemaGraphBuilder limits → built limits fuel s []
  | built_intern s log source s' ref :
      built limits fuel s log → internSchema hasher heap fuel source s = (s', Ok ref) →
      built limits fuel s' (log ++ [(source, ref)])
  | built_other s log s' : built limits fuel s log → graph s' = graph s → built limits fuel s' log.

Lemma built_keeps limits fuel s log :
  built limits fuel s log → memory_ok (graph s) →
  (graph_ok (graph s) ∧ sg_resourceLimits (graph s) = limits)
  ∧ Forall (λ e, in_range (sg_drafts (graph s)) e.2
      ∧ ∃ t, canonical_tree heap limits fuel e.1 = Some t ∧ unfold_node (graph_nodes (graph s)) fuel e.2 = Some t) log.
Proof.
  induction 1 as [s E|s log source s' ref _ IH Hr|s log s' _ IH E]; intros Hm.
  - rewrite E. split; [|constructor]. split; [apply new_graph_ok|done].
  - pose proof (run_grows _ _ _ _ (internSchema_grows fuel source) Hr) as G.
    destruct (IH (memory_grows _ _ G Hm)) as [[Hg Hl] Hlog].
    destruct (internSchema_keeps limits fuel _ _ _ _ Hr Hg Hm Hl) as [Hok Hrange Htree].
    split; [split; [done|by rewrite <-Hl; apply G]|]. apply Forall_app. split; [|by apply Forall_singleton].
    eapply Forall_impl; [exact Hlog|]. intros [s0 r0] (Hr0 & t & Ht & Hu). cbn in *.
    split; [by eapply grows_range|]. exists t. split; [done|by eapply grows_nodes].
  - rewrite E in Hm |- *. by apply IH.
Qed.
End interning.

(** ** Equal trees share their node *)

Section sharing.
Context (hasher : list Z → list Z) (Hhash : ∀ l, length (hasher l) = 32%nat).
Context (g : schemaGraphBuilder) (Hg : graph_ok hasher g).

Lemma node_at_draft ref n :
  node_at (graph_nodes g) ref = Some n →
  ∃ i d, ref = Z.of_nat i ∧ sg_drafts g !! i = Some d ∧ n = sd_node d.
Proof.
  unfold node_at, graph_nodes. destruct (Z.leb_spec 0 ref); [|done]. rewrite list_lookup_fmap.
  intros (d & Hd & ->)%fmap_Some. exists (Z.to_nat ref), d. split_and!; [lia|done|done].
Qed.

Lemma same_content ref ref' n n' :
  node_at (graph_nodes g) ref = Some n → node_at (graph_nodes g) ref' = Some n' → content n = content n' → ref = ref'.
Proof.
  intros (i & d & -> & Hd & ->)%node_at_draft (j & d' & -> & Hd' & ->)%node_at_draft E. f_equal.
  eapply (dg_unique _ (graph_digests _ Hhash _ Hg)); [exact Hd|exact Hd'|].
  destruct (go_drafts _ _ Hg i d Hd) as [-> -> _ _], (go_drafts _ _ Hg j d' Hd') as [-> -> _ _].
  f_equal. by apply preimage_of_content.
Qed.

Lemma node_at_shape ref n : node_at (graph_nodes g) ref = Some n → node_shape (length (sg_drafts g)) n.
Proof.
  intros (i & d & -> & Hd & ->)%node_at_draft. destruct (go_drafts _ _ Hg i d Hd) as [_ _ Hs _].
  eapply node_shape_le; [exact Hs|]. apply Nat.lt_le_incl. by eapply lookup_lt_Some.
Qed.

Lemma mapM_same {A B} (f : A → option B) l k ts (P : nat → A → Prop) :
  (∀ i x y t, P i x → P i y → f x = Some t → f y = Some t → x = y) →
  (∀ i x, l !! i = Some x → P i x) → (∀ i x, k !! i = Some x → P i x) →
  mapM f l = Some ts → mapM f k = Some ts → l = k.
Proof.
  intros Hf Hl Hk. rewrite !mapM_Some. revert k ts P Hf Hl Hk. induction l as [|x l IH]; intros k ts P Hf Hl Hk F1 F2.
  - apply Forall2_nil_inv_l in F1 as ->. by apply Forall2_nil_inv_r in F2 as ->.
  - apply Forall2_cons_inv_l in F1 as (t & ts' & Ht & F1 & ->). apply Forall2_cons_inv_r in F2 as (y & k' & Hy & F2 & ->).
    rewrite (Hf 0%nat x y t (Hl 0%nat x eq_refl) (Hk 0%nat y eq_refl) Ht Hy). f_equal.
    apply (IH k' ts' (λ i, P (S i))); [intros i; apply Hf|intros i; apply (Hl (S i))|intros i; apply (Hk (S i))|done|done].
Qed.

Lemma unfold_inj fuel ref ref' t :
  unfold_node (graph_nodes g) fuel ref = Some t → unfold_node (graph_nodes g) fuel ref' = Some t → ref = ref'.
Proof.
  revert ref ref' t. induction fuel as [|fuel IH]; [done|]. intros ref ref' t.
  intros (n & ps & its & Hn & Hp & Hi & ->)%unfold_node_S (n' & ps' & its' & Hn' & Hp' & Hi' & E)%unfold_node_S.
  assert (El : label_of n = label_of n') by (injection E; intros; unfold label_of; congruence).
  injection E as _ _ _ _ _ _ _ _ _ _ _ <- <-.
  eapply same_content; [exact Hn|exact Hn'|]. unfold content. rewrite <-El.
  destruct (node_at_shape _ _ Hn) as [Sp Si], (node_at_shape _ _ Hn') as [Sp' Si']. f_equal; [f_equal|].
  - eapply (mapM_same _ _ _ _ (λ k p, psnp_Ordinal p = uint32 (Z.of_nat k) ∧ psnp_ID p = psnp_Name p)); [| | |exact Hp|exact Hp'].
    + intros k [o1 i1 n1 r1 d1 f1] [o2 i2 n2 r2 d2 f2] q [E1 E2] [E3 E4]. unfold node_property. cbn in *.
      intros (u & Hu & [= <-])%bind_Some (u' & Hu' & [= -> -> -> ->])%bind_Some. f_equal; [congruence..|by eapply IH].
    + intros k p Hk. by destruct (Sp k p Hk) as (? & ? & _).
    + intros k p Hk. by destruct (Sp' k p Hk) as (? & ? & _).
  - eapply (mapM_same _ _ _ _ (λ _ i, psni_Ordinal i = 0 ∧ psni_ID i = "items")); [| | |exact Hi|exact Hi'].
    + intros k [o1 i1 f1] [o2 i2 f2] q [E1 E2] [E3 E4]. unfold node_item. cbn in *. intros Hu Hu'.
      f_equal; [congruence..|by eapply IH].
    + intros k i Hk. destruct (Si i) as (? & ? & _); [by eapply list_elem_of_lookup_2|done].
    + intros k i Hk. destruct (Si' i) as (? & ? & _); [by eapply list_elem_of_lookup_2|done].
Qed.
End sharing.

(** ** The sorted graph *)

Section sorted.
Context (hasher : list Z → list Z) (Hhash : ∀ l, length (hasher l) = 32%nat).
Context (g : schemaGraphBuilder) (Hg : graph_ok hasher g) (Hm : memory_ok g).

Lemma graph_nodes_length : length (graph_nodes g) = length (sg_drafts g).
Proof. apply length_fmap. Qed.

Lemma graph_order_perm : graph_order g ≡ₚ seq 0 (length (sg_drafts g)).
Proof.
  unfold graph_order. rewrite sort_by_perm. rewrite fst_zip; [done|]. rewrite length_seq, graph_nodes_length. lia.
Qed.

Lemma graph_remap_spec ref :
  in_range (sg_drafts g) ref →
  ∃ k, (k < length (sg_drafts g))%nat ∧ graph_order g !! k = Some (Z.to_nat ref) ∧ graph_remap g ref = Z.of_nat k.
Proof.
  intros [Hr0 Hr]. unfold graph_remap. destruct (list_find _ (graph_order g)) as [[k old]|] eqn:E.
  - apply list_find_Some in E as (Hk & <- & _). exists k. apply lookup_lt_Some in Hk as Hlt.
    rewrite graph_order_perm, length_seq in Hlt. rewrite Nat2Z.id. split_and!; [done|done|].
    destruct Hm as [Hr' _]. apply Z.mod_small. lia.
  - exfalso. apply list_find_None in E. rewrite Forall_forall in E. apply (E (Z.to_nat ref)); [|lia].
    rewrite graph_order_perm, elem_of_seq. lia.
Qed.

Lemma graph_remap_inj ref ref' :
  in_range (sg_drafts g) ref → in_range (sg_drafts g) ref' → graph_remap g ref = graph_remap g ref' → ref = ref'.
Proof.
  intros H1 H2. destruct (graph_remap_spec _ H1) as (k & _ & Hk & ->), (graph_remap_spec _ H2) as (k' & _ & Hk' & ->).
  intros E%Nat2Z.inj. subst. rewrite Hk in Hk'. injection Hk' as E. destruct H1, H2. lia.
Qed.

Lemma sorted_node_at ref n :
  node_at (graph_nodes g) ref = Some n →
  ∃ k, node_at (sorted_nodes g) (graph_remap g ref) = Some (remap_node (graph_remap g) k n).
Proof.
  intros Hn. assert (Hr : in_range (sg_drafts g) ref).
  { apply node_at_draft in Hn as (i & d & -> & Hd%lookup_lt_Some & _). split; lia. }
  destruct (graph_remap_spec _ Hr) as (k & _ & Hk & ->). exists k.
  unfold node_at in Hn |- *. destruct (Z.leb_spec 0 ref); [|done]. destruct (Z.leb_spec 0 (Z.of_nat k)); [|lia].
  unfold sorted_nodes. rewrite list_lookup_imap, Nat2Z.id, Hk. cbn. by rewrite (list_lookup_total_correct _ _ _ Hn).
Qed.

Lemma mapM_fmap {A B C} (h : A → B) (f : A → option C) (f' : B → option C) l ts :
  (∀ x t, x ∈ l → f x = Some t → f' (h x) = Some t) → mapM f l = Some ts → mapM f' (h <$> l) = Some ts.
Proof.
  rewrite !mapM_Some. intros Hf Hl. apply Forall2_fmap_l. revert Hf. induction Hl as [|x t l ts Hx Hl IH]; intros Hf; constructor.
  - by apply Hf; [left|].
  - apply IH. intros y u Hy. apply Hf. by right.
Qed.

Lemma elems_each {A B} (f : A → B) (l : slice A) : elems (each f l) = f <$> elems l.
Proof. by destruct l. Qed.

Lemma sorted_unfold fuel ref t :
  unfold_node (graph_nodes g) fuel ref = Some t → unfold_node (sorted_nodes g) fuel (graph_remap g ref) = Some t.
Proof.
  revert ref t. induction fuel as [|fuel IH]; [done|]. intros ref t (n & ps & its & Hn & Hp & Hi & ->)%unfold_node_S.
  destruct (sorted_node_at _ _ Hn) as (k & Hk). apply unfold_node_S.
  exists (remap_node (graph_remap g) k n), ps, its. cbn [remap_node psn_Properties psn_Items]. rewrite !elems_each.
  split_and!; [done| | |done].
  - eapply mapM_fmap; [|exact Hp]. intros p u _. unfold node_property. cbn. intros (v & Hv & [= <-])%bind_Some.
    by rewrite (IH _ _ Hv).
  - eapply mapM_fmap; [|exact Hi]. intros i u _. apply IH.
Qed.

Lemma sorted_nodes_length : length (sorted_nodes g) = length (sg_drafts g).
Proof. unfold sorted_nodes. by rewrite length_imap, graph_order_perm, length_seq. Qed.

Lemma sorted_ordinals k n : sorted_nodes g !! k = Some n → psn_Ordinal n = Z.of_nat k.
Proof.
  intros Hk. apply lookup_lt_Some in Hk as Hlt. rewrite sorted_nodes_length in Hlt.
  unfold sorted_nodes in Hk. rewrite list_lookup_imap in Hk. apply fmap_Some in Hk as (old & _ & ->).
  destruct Hm as [Hr _]. apply Z.mod_small. lia.
Qed.

(** The nodes' parts are nodes of the graph. *)
Lemma sorted_references k n :
  sorted_nodes g !! k = Some n →
  Forall (λ p, 0 ≤ psnp_SchemaRef p < Z.of_nat (length (sorted_nodes g))) (elems (psn_Properties n))
  ∧ Forall (λ i, 0 ≤ psni_SchemaRef i < Z.of_nat (length (sorted_nodes g))) (elems (psn_Items n)).
Proof.
  rewrite sorted_nodes_length. unfold sorted_nodes. rewrite list_lookup_imap. intros (old & Hold & ->)%fmap_Some.
  assert (Hs : node_shape (length (sg_drafts g)) (graph_nodes g !!! old)).
  { apply list_elem_of_lookup_2 in Hold. rewrite graph_order_perm, elem_of_seq in Hold.
    destruct (lookup_lt_is_Some_2 (sg_drafts g) old) as [d Hd]; [lia|].
    apply (node_at_shape hasher g Hg (Z.of_nat old)). unfold node_at, graph_nodes.
    destruct (Z.leb_spec 0 (Z.of_nat old)); [|lia]. rewrite Nat2Z.id, list_lookup_fmap, Hd. cbn. f_equal. symmetry.
    apply list_lookup_total_correct. by rewrite list_lookup_fmap, Hd. }
  assert (Hb : ∀ ref, in_range (sg_drafts g) ref → 0 ≤ graph_remap g ref < Z.of_nat (length (sg_drafts g))).
  { intros ref Hr. destruct (graph_remap_spec _ Hr) as (j & ? & _ & ->). lia. }
  cbn [remap_node psn_Properties psn_Items]. rewrite !elems_each. split; apply Forall_fmap, Forall_forall.
  - intros p (j & Hj)%list_elem_of_lookup. apply Hs in Hj as (_ & _ & ?). by apply Hb.
  - intros i Hi. apply Hs in Hi as (_ & _ & ?). by apply Hb.
Qed.
End sorted.
