(* ===== verification/SchemaGraphRuns.v ===== *)
(** * Schema graphs of whole builds

    What the sorted graph of a build is to a reader of the document, its
    budgets, and when interning ends. *)

From S2P Require Import Prelude GoString GoSha256 Identity Spec SpecValidation IndexDiff EmbeddedJson Projection.
From S2P Require Import SchemaGraph SchemaGraphSafety.

(** ** Interning ends *)

Section ending.
Context (hasher : list Z → list Z) (heap : Heap).

Definition out_of_fuel : error := Errorf "out of fuel" [].
Definition ends {A} (r : res A) : Prop := r ≠ Fail out_of_fuel.

(** [m] ends whatever it is run on, if the context does. *)
Definition always_ends {A} (m : building A) : Prop := ∀ s,
  Forall ends (bs_ctx s) → ends (m s).2 ∧ Forall ends (bs_ctx (m s).1).

Lemma always_ends_bind {A B} (m : building A) (f : A → building B) :
  always_ends m → (∀ a, always_ends (f a)) → always_ends (m ≫= f).
Proof.
  intros Hm Hf s Hs. unfold mbind, stM_bind. destruct (Hm s Hs) as [He Hc]. destruct (m s) as [s1 [a|e]]; [by apply Hf|].
  split; [|done]. cbn in *. unfold ends in *. congruence.
Qed.
Lemma always_ends_lift {A} (r : res A) : ends r → always_ends (lift r).
Proof. by intros Hr s Hs. Qed.
Lemma always_ends_ret {A} (a : A) : always_ends (mret a).
Proof. by intros s Hs. Qed.
Lemma always_ends_gets {A} (f : buildState → A) : always_ends (gets f).
Proof. by intros s Hs. Qed.
Lemma always_ends_checkpoint : always_ends checkpoint.
Proof.
  intros s Hs. unfold checkpoint. destruct (bs_ctx s) as [|r ctx] eqn:E; cbn; [by rewrite E|].
  by apply Forall_cons in Hs.
Qed.

Lemma ends_throw_if b e : e ≠ out_of_fuel → ends (throw_if b e).
Proof. unfold ends, throw_if. destruct b; congruence. Qed.
Lemma ends_bind {A B} (m : res A) (f : A → res B) : ends m → (∀ a, ends (f a)) → ends (m ≫= f).
Proof. unfold ends. intros Hm Hf. destruct m; cbn; [apply Hf|congruence]. Qed.

Ltac ends_tac :=
  repeat first
    [ apply ends_throw_if; by vm_compute
    | apply ends_bind; [|intros ?]
    | progress case_match
    | by intros ?
    | by vm_compute ].

Lemma embedded_ends input limits : ends (canonicalEmbeddedJSONWithResourceLimits input limits).
Proof. unfold canonicalEmbeddedJSONWithResourceLimits. ends_tac. Qed.

Lemma source_json_ends source limits : ends (source_json source limits).
Proof. unfold source_json. case_bool_decide; [done|apply embedded_ends]. Qed.

Lemma always_ends_node node : always_ends (intern_node hasher node).
Proof.
  intros s Hs. unfold intern_node. assert (He : ends (add_node hasher node (bs_schemaGraph s))).
  { unfold add_node. ends_tac. }
  destruct (add_node _ _ _) as [[g r]|e]; cbn; [done|]. split; [|done]. unfold ends in *. congruence.
Qed.

Lemma always_ends_properties intern i built l :
  Forall (λ p, always_ends (intern (sp_Schema p))) l → always_ends (intern_properties intern i built l).
Proof.
  intros Hl. revert i built. induction Hl as [|p l Hp Hl IH]; intros i built; cbn [intern_properties]; [apply always_ends_ret|].
  apply always_ends_bind; [apply always_ends_lift, ends_throw_if; by vm_compute|intros _].
  apply always_ends_bind; [done|intros ref; apply IH].
Qed.

Lemma internSchema_ends n source : bounded heap n source → always_ends (internSchema hasher heap n source).
Proof.
  revert source. induction n as [|n IH]; [done|]. intros source (_ & Hp & Hi). cbn [internSchema].
  apply always_ends_bind; [apply always_ends_checkpoint|intros _].
  apply always_ends_bind; [apply always_ends_gets|intros limits].
  apply always_ends_bind; [apply always_ends_lift, source_json_ends|intros json].
  apply always_ends_bind.
  { apply always_ends_properties. eapply Forall_impl; [exact Hp|]. intros p [_ ?]. by apply IH. }
  intros ps. apply always_ends_bind; [|intros its; apply always_ends_node].
  destruct (ss_Items source) as [p|]; cbn; [|apply always_ends_ret].
  apply always_ends_bind; [by apply IH, Hi|intros ref; apply always_ends_ret].
Qed.

Lemma building_bind_cong {A B} (m m' : building A) (f f' : A → building B) :
  (∀ s, m s = m' s) → (∀ a s, f a s = f' a s) → ∀ s, (m ≫= f) s = (m' ≫= f') s.
Proof. intros Hm Hf s. unfold mbind, stM_bind. rewrite Hm. by destruct (m' s) as [s1 [a|e]]. Qed.

Lemma properties_more_fuel f f' i built l :
  Forall (λ p, ∀ s, f (sp_Schema p) s = f' (sp_Schema p) s) l →
  ∀ s, intern_properties f i built l s = intern_properties f' i built l s.
Proof.
  intros Hl. revert i built. induction Hl as [|p l Hp Hl IH]; intros i built s; cbn [intern_properties]; [done|].
  unfold mbind, stM_bind, lift. destruct (throw_if _ _); [|done]. rewrite Hp. by destruct (f' (sp_Schema p) s) as [s1 [r|e]].
Qed.

Lemma internSchema_more_fuel n m source s :
  bounded heap n source → (n ≤ m)%nat → internSchema hasher heap m source s = internSchema hasher heap n source s.
Proof.
  revert m source s. induction n as [|n IH]; [done|]. intros [|m] source s (_ & Hp & Hi) Hm; [lia|]. cbn [internSchema].
  revert s. do 3 (apply building_bind_cong; [done|intros ?]).
  apply building_bind_cong.
  { apply properties_more_fuel. eapply Forall_impl; [exact Hp|]. intros p [_ ?] s1. apply IH; [done|lia]. }
  intros ps. apply building_bind_cong; [|done]. destruct (ss_Items source) as [p|]; [|done].
  apply building_bind_cong; [|done]. intros s1. apply IH; [by apply Hi|lia].
Qed.
End ending.

(** ** Properties *)

Section properties.
Context (hasher : list Z → list Z) (heap : Heap).

(** C31: The schema graph reads back.  Whatever schemas a build interns, in any
    order, with a hash of 32 bytes and as long as the graph fits into memory
    ([memory_ok]), the sorted graph of the document unfolds, at the renumbered
    reference of each, to exactly the tree of that schema: its fields, its
    canonical JSON, its properties in order and its items. *)
Theorem schema_graph_reads_back limits fuel s log source ref :
  (∀ l, length (hasher l) = 32%nat) → built hasher heap limits fuel s log → memory_ok (bs_schemaGraph s) →
  (source, ref) ∈ log →
  ∃ t, canonical_tree heap limits fuel source = Some t
    ∧ unfold_node (sorted_nodes (bs_schemaGraph s)) fuel (graph_remap (bs_schemaGraph s) ref) = Some t.
Proof.
  intros Hh Hb Hm Hin. destruct (built_keeps hasher Hh heap limits fuel s log Hb Hm) as [[Hg _] Hlog].
  rewrite Forall_forall in Hlog. destruct (Hlog _ Hin) as (_ & t & Ht & Hu). exists t. split; [done|].
  by eapply sorted_unfold.
Qed.

(** C32: Sharing is exact.  Two interned schemas have the same node in the
    document if and only if they have the same canonical tree, as long as the
    graph fits into memory; this needs no property of the hash beyond its
    length, because a collision is refused. *)
Theorem equal_schemas_share_their_node limits fuel s log e e' :
  (∀ l, length (hasher l) = 32%nat) → built hasher heap limits fuel s log → memory_ok (bs_schemaGraph s) →
  e ∈ log → e' ∈ log →
  graph_remap (bs_schemaGraph s) e.2 = graph_remap (bs_schemaGraph s) e'.2
  ↔ canonical_tree heap limits fuel e.1 = canonical_tree heap limits fuel e'.1.
Proof.
  intros Hh Hb Hm Hin Hin'. destruct (built_keeps hasher Hh heap limits fuel s log Hb Hm) as [[Hg _] Hlog].
  rewrite Forall_forall in Hlog. destruct (Hlog _ Hin) as (Hr & t & -> & Hu), (Hlog _ Hin') as (Hr' & t' & -> & Hu'). split.
  - intros E%(graph_remap_inj _ Hm); [|done..]. rewrite E in Hu. congruence.
  - intros [= <-]. f_equal. by eapply (unfold_inj hasher Hh).
Qed.

(** The graph stays within its budgets and is closed: with limits on, at
    most 100,000 nodes and 100,000 edges; nodes are numbered by their position,
    and every property and item refers to a node of the graph. *)
Theorem schema_graph_within_bounds fuel s log :
  (∀ l, length (hasher l) = 32%nat) → built hasher heap true fuel s log → memory_ok (bs_schemaGraph s) →
  let nodes := sorted_nodes (bs_schemaGraph s) in
  Z.of_nat (length nodes) ≤ maxSchemaGraphNodes
  ∧ drafts_edges (sg_drafts (bs_schemaGraph s)) ≤ maxSchemaGraphEdges
  ∧ ∀ k n, nodes !! k = Some n → psn_Ordinal n = Z.of_nat k
      ∧ Forall (λ p, 0 ≤ psnp_SchemaRef p < Z.of_nat (length nodes)) (elems (psn_Properties n))
      ∧ Forall (λ i, 0 ≤ psni_SchemaRef i < Z.of_nat (length nodes)) (elems (psn_Items n)).
Proof.
  intros Hh Hb Hm. destruct (built_keeps hasher Hh heap true fuel s log Hb Hm) as [[Hg Hl] _].
  destruct (go_limits _ _ Hg Hl) as [Hn He]. rewrite (go_edges _ _ Hg) in He. cbn zeta. split_and!; [|done|].
  - by rewrite sorted_nodes_length.
  - intros k n Hk. split; [by apply (sorted_ordinals _ Hm)|]. by apply (sorted_references hasher _ Hg Hm k).
Qed.

(** C33: Interning ends.  For a summary within the depth the index check allows,
    fuel for its levels decides the result: more changes nothing, and the walk
    never stops for lack of it. *)
Theorem interning_ends n m source s :
  bounded heap n source → (n ≤ m)%nat → Forall ends (bs_ctx s) →
  internSchema hasher heap m source s = internSchema hasher heap n source s
  ∧ ends (internSchema hasher heap n source s).2.
Proof. intros Hb Hm Hs. split; [by apply internSchema_more_fuel|]. by apply internSchema_ends. Qed.
End properties.

(** A list of pets, the pet also on its own. *)
Definition pet_summary : SchemaSummary :=
  MkSchemaSummary "" "string" "" "" "" "" [] [] false false [] None "{}".
Definition pets_summary : SchemaSummary :=
  MkSchemaSummary "Pets" "object" "" "" "" "" [] [] false false [MkSchemaProperty "first" true pet_summary ""] (Some 1%positive) "".
Definition pet_heap : Heap := {[1%positive := pet_summary]}.

Definition empty_build : buildState := MkBuildState [] true ∅ ∅ (newSchemaGraphBuilder true).
Definition pets_run := internSchema sha256 pet_heap 3 pets_summary empty_build.
Definition pet_run := internSchema sha256 pet_heap 3 pet_summary pets_run.1.

Lemma run_result {S A} (p : S * res A) a : p.2 = Ok a → p = (p.1, Ok a).
Proof. destruct p as [s r]. cbn. by intros ->. Qed.

Lemma pets_built : built sha256 pet_heap true 3 pet_run.1 [(pets_summary, 1); (pet_summary, 0)].
Proof.
  assert (E1 : pets_run.2 = Ok (1 : SchemaRef)) by (vm_compute; reflexivity).
  assert (E2 : pet_run.2 = Ok (0 : SchemaRef)) by (vm_compute; reflexivity).
  apply run_result in E1. apply run_result in E2. unfold pets_run at 1 in E1. unfold pet_run at 1 in E2.
  exact (built_intern _ _ _ _ pets_run.1 [(pets_summary, 1)] pet_summary _ _
    (built_intern _ _ _ _ empty_build [] pets_summary _ _ (built_new _ _ _ _ empty_build eq_refl) E1) E2).
Qed.

Lemma pets_memory : memory_ok (bs_schemaGraph pet_run.1).
Proof.
  constructor; [by vm_compute|].
  assert (E : forallb (λ d, Z.of_nat (length (sd_preimage d)) <? 2 ^ 64) (sg_drafts (bs_schemaGraph pet_run.1)) = true)
    by (vm_compute; reflexivity).
  apply Forall_forall. intros d Hd%list_elem_of_In. rewrite forallb_forall in E. by apply Z.ltb_lt, E.
Qed.

Lemma schema_graph_reads_back_witness :
  ∃ t, canonical_tree pet_heap true 3 pets_summary = Some t
    ∧ unfold_node (sorted_nodes (bs_schemaGraph pet_run.1)) 3 (graph_remap (bs_schemaGraph pet_run.1) 1) = Some t.
Proof.
  apply (schema_graph_reads_back sha256 pet_heap true 3 pet_run.1 [(pets_summary, 1); (pet_summary, 0)]).
  - apply sha256_length.
  - apply pets_built.
  - apply pets_memory.
  - by left.
Defined.

Lemma equal_schemas_share_their_node_witness :
  graph_remap (bs_schemaGraph pet_run.1) 1 = graph_remap (bs_schemaGraph pet_run.1) 0
  ↔ canonical_tree pet_heap true 3 pets_summary = canonical_tree pet_heap true 3 pet_summary.
Proof.
  apply (equal_schemas_share_their_node sha256 pet_heap true 3 pet_run.1 [(pets_summary, 1); (pet_summary, 0)]
    (pets_summary, 1) (pet_summary, 0)).
  - apply sha256_length.
  - apply pets_built.
  - apply pets_memory.
  - by left.
  - by right; left.
Defined.

Lemma schema_graph_within_bounds_witness :
  Z.of_nat (length (sorted_nodes (bs_schemaGraph pet_run.1))) = 2
  ∧ drafts_edges (sg_drafts (bs_schemaGraph pet_run.1)) ≤ maxSchemaGraphEdges.
Proof.
  split; [by vm_compute|].
  apply (schema_graph_within_bounds sha256 pet_heap 3 pet_run.1 [(pets_summary, 1); (pet_summary, 0)]
           sha256_length pets_built pets_memory).
Defined.

Lemma interning_ends_witness :
  bounded pet_heap 2 pets_summary ∧ internSchema sha256 pet_heap 64 pets_summary empty_build = internSchema sha256 pet_heap 2 pets_summary empty_build.
Proof.
  assert (Hp : bounded pet_heap 1 pet_summary).
  { split; [split_and!; apply (ValidateCanonicalIdentity_optional ""); by vm_compute|]. split; [constructor|done]. }
  assert (Hb : bounded pet_heap 2 pets_summary).
  { split; [split_and!; apply (ValidateCanonicalIdentity_optional ""); by vm_compute|]. split; [|by intros p [= <-]].
    apply Forall_singleton. split; [apply (ValidateCanonicalIdentity_required ""); by vm_compute|exact Hp]. }
  split; [exact Hb|]. apply (interning_ends sha256 pet_heap 2 64 pets_summary empty_build Hb); [lia|constructor].
Defined.

(** A cyclic response header never projects.  The index check does not look at
    the schemas of response headers: there is an index, with one operation whose
    header schema contains itself, that is accepted, and interning that schema,
    which the build does next, never ends: no amount of fuel is enough. *)
Theorem cyclic_header_never_projects :
  @ValidateSpecIndex latin1 cyclic_heap (plain_index "rev-1" [header_operation cyclic_summary] []) = Ok tt
  ∧ ∀ hasher fuel graph, let s := MkBuildState [] true ∅ ∅ graph in
      internSchema hasher cyclic_heap fuel cyclic_summary s = (s, Fail out_of_fuel).
Proof.
  split; [by vm_compute|]. intros hasher fuel graph s. induction fuel as [|fuel IH]; [done|].
  cbn [internSchema cyclic_summary ss_Properties ss_Items intern_properties intern_items].
  change (cyclic_heap !!! 1%positive) with cyclic_summary.
  unfold mbind, stM_bind, checkpoint, gets, lift, mret, stM_ret. cbn [bs_ctx s source_json]. fold s.
  change (source_json cyclic_summary _) with (@Ok string ""). cbn. fold s. by rewrite IH.
Qed.
