(* ===== verification/ProjectionTrace.v ===== *)
(** * What a built document shows

    Every schema reference of a built document leads to the schema it was built
    from: the references a build makes are logged, and the log is what the
    sorted graph reads back (SchemaGraphSafety). *)

From S2P Require Import Prelude GoString GoSha256 Identity Spec CatalogIdentity SpecValidation EmbeddedJson GoUrl Projection.
From S2P Require Import SchemaGraph ProjectionBuild SchemaGraphSafety.

(** ** Logs *)

(** [tracks R m P]: a successful [m] takes the state along [R], which logs some
    entries, and [P] holds of its answer and whatever log contains them. *)
Section tracks.
Context {S X : Type} (R : S → list X → S → Prop).

Class LogRelation : Prop := {
  log_nil s : R s [] s;
  log_app s l s' l' s'' : R s l s' → R s' l' s'' → R s (l ++ l') s'';
}.

Definition tracks {A} (m : stM S A) (P : A → list X → Prop) : Prop := ∀ s s' a,
  m s = (s', Ok a) → ∃ l, R s l s' ∧ ∀ log, l ⊆ log → P a log.

Context `{!LogRelation}.

Lemma tracks_bind {A B} (m : stM S A) (f : A → stM S B) P Q :
  tracks m P → (∀ a, tracks (f a) (λ b log, P a log → Q b log)) → tracks (m ≫= f) Q.
Proof.
  intros Hm Hf s s' b (s1 & a & H1 & H2)%st_bind_ok. destruct (Hm _ _ _ H1) as (l1 & R1 & P1), (Hf _ _ _ _ H2) as (l2 & R2 & P2).
  exists (l1 ++ l2). split; [by eapply log_app|]. intros log Hlog. apply P2; [set_solver|]. apply P1. set_solver.
Qed.
Lemma tracks_ret {A} (a : A) (P : A → list X → Prop) : (∀ log, P a log) → tracks (mret a) P.
Proof. intros HP s s' b [= <- <-]. exists []. split; [apply log_nil|by intros]. Qed.
Lemma tracks_lift {A} (r : res A) (P : A → list X → Prop) : (∀ a log, r = Ok a → P a log) → tracks (lift r) P.
Proof. intros HP s s' b [= <- ->]. exists []. split; [apply log_nil|by intros; apply HP]. Qed.
Lemma tracks_gets {A} (g : S → A) (P : A → list X → Prop) : (∀ a log, P a log) → tracks (gets g) P.
Proof. intros HP s s' b [= <- <-]. exists []. split; [apply log_nil|by intros]. Qed.
Lemma tracks_weaken {A} (m : stM S A) (P Q : A → list X → Prop) : (∀ a log, P a log → Q a log) → tracks m P → tracks m Q.
Proof. intros HPQ Hm s s' a H1. destruct (Hm _ _ _ H1) as (l & ? & ?). exists l. split; [done|auto]. Qed.
End tracks.

(** ** What records show

    [K schema ref] says that [ref] stands for [schema]. *)

Section shows.
Context (K : SchemaSummary → SchemaRef → Prop).

Definition parameter_shows (p : Spec.OperationParameter) (r : OperationParameter) : Prop :=
  ppar_Name r = par_Name p ∧ ppar_In r = par_In p ∧ ppar_Required r = par_Required p
  ∧ K (par_Schema p) (ppar_SchemaRef r).
Definition media_shows (m : OperationMediaType) (r : MediaType) : Prop :=
  pmt_ContentType r = mt_ContentType m ∧ K (mt_Schema m) (pmt_SchemaRef r).
Definition header_shows (h : OperationResponseHeader) (r : ResponseHeader) : Prop :=
  prh_Name r = rh_Name h ∧ K (rh_Schema h) (prh_SchemaRef r).
Definition response_shows (x : OperationResponse) (r : Response) : Prop :=
  pres_Status r = rsp_Status x
  ∧ Forall2 header_shows (rsp_Headers x) (elems (pres_Headers r))
  ∧ Forall2 media_shows (rsp_MediaTypes x) (elems (pres_MediaTypes r)).
Definition body_shows (b : option OperationRequestBody) (has : bool) (r : RequestBody) : Prop :=
  match b with
  | None => has = false
  | Some b => has = true ∧ prb_Required r = rb_Required b ∧ Forall2 media_shows (rb_MediaTypes b) (elems (prb_MediaTypes r))
  end.
Record operation_shows (o : Operation) (d : OperationDetail) : Prop := OperationShows {
  os_method : podx_Method d = op_Method o;
  os_path : podx_Path d = op_Path o;
  os_target : podx_RequestTarget d = op_RequestTarget o;
  os_deprecated : podx_Deprecated d = op_Deprecated o;
  os_parameters : Forall2 parameter_shows (op_Parameters o) (elems (podx_Parameters d));
  os_body : body_shows (op_RequestBody o) (podx_HasRequestBody d) (podx_RequestBody d);
  os_responses : Forall2 response_shows (op_Responses o) (elems (podx_Responses d));
}.
Definition schema_shows (s : Schema) (d : SchemaDetail) : Prop :=
  psdx_Heading d = sch_Name s ∧ psdx_Description d = sch_Description s ∧ K (sch_Summary s) (psdx_SchemaRef d).
End shows.

(** Renumbering the references. *)
Section renumbered.
Context (K K' : SchemaSummary → SchemaRef → Prop) (remap : SchemaRef → SchemaRef).
Context (HK : ∀ s r, K s r → K' s (remap r)).

Lemma Forall2_each {A B} (P Q : A → B → Prop) (f : B → B) l (r : slice B) :
  (∀ x y, P x y → Q x (f y)) → Forall2 P l (elems r) → Forall2 Q l (elems (each f r)).
Proof. intros HPQ Hl. rewrite elems_each. apply Forall2_fmap_r. eapply Forall2_impl; [exact Hl|done]. Qed.

Lemma remap_media_shows m r : media_shows K m r → media_shows K' m (remap_media remap r).
Proof. intros [? ?]. split; [done|by apply HK]. Qed.

Lemma remap_response_shows x r : response_shows K x r → response_shows K' x (remap_response remap r).
Proof.
  intros (? & Hh & Hm). split; [done|]. split.
  - eapply Forall2_each; [|exact Hh]. intros h y [? ?]. split; [done|by apply HK].
  - eapply Forall2_each; [|exact Hm]. apply remap_media_shows.
Qed.

Lemma remap_operation_shows o d : operation_shows K o d → operation_shows K' o (remap_operation remap d).
Proof.
  intros [? ? ? ? Hp Hb Hr]. constructor; [done..| | |].
  - eapply Forall2_each; [|exact Hp]. intros p y (? & ? & ? & ?). split_and!; [done..|by apply HK].
  - cbn. unfold body_shows in *. destruct (op_RequestBody o); [|done]. destruct Hb as (? & ? & Hb). split_and!; [done..|].
    eapply Forall2_each; [|exact Hb]. apply remap_media_shows.
  - eapply Forall2_each; [|exact Hr]. apply remap_response_shows.
Qed.

Lemma remap_schema_shows s d : schema_shows K s d → schema_shows K' s (remap_schema remap d).
Proof. intros (? & ? & ?). split_and!; [done..|by apply HK]. Qed.
End renumbered.

Section tracing.
Context `{CaseTables, IPLiterals} (hasher : list Z → list Z) (Hhash : ∀ l, length (hasher l) = 32%nat).
Context (heap : Heap) (fuel : nat) (limits : bool).
Notation graph s := (bs_schemaGraph s).
Notation intern := (internSchema hasher heap fuel).

Definition interned := list (SchemaSummary * SchemaRef).
Definition traced (s : buildState) (new : interned) (s' : buildState) : Prop :=
  ∀ log, built hasher heap limits fuel s log → built hasher heap limits fuel s' (log ++ new).

#[export] Instance traced_log : LogRelation traced.
Proof.
  split.
  - intros s log Hb. by rewrite app_nil_r.
  - intros s l s' l' s'' H1 H2 log Hb. rewrite app_assoc. apply H2, H1, Hb.
Qed.

Notation traces := (tracks traced).

(** A step that leaves the graph alone. *)
Lemma traces_quiet {A} (m : building A) (P : A → interned → Prop) :
  (∀ s, graph (m s).1 = graph s) → (∀ a log, P a log) → traces m P.
Proof.
  intros Hm HP s s' a Hr. exists []. split; [|by intros]. intros log Hb. rewrite app_nil_r.
  apply (built_other _ _ _ _ s); [done|]. specialize (Hm s). by rewrite Hr in Hm.
Qed.

Lemma traces_intern source (P : SchemaRef → interned → Prop) :
  (∀ ref log, (source, ref) ∈ log → P ref log) → traces (intern source) P.
Proof.
  intros HP s s' ref Hr. exists [(source, ref)]. split; [intros log Hb; by eapply built_intern|].
  intros log Hlog. apply HP, Hlog. by left.
Qed.

Lemma traces_checkpoint (P : unit → interned → Prop) : (∀ u log, P u log) → traces checkpoint P.
Proof. apply traces_quiet. intros s. unfold checkpoint. by destruct (bs_ctx s). Qed.

Lemma traces_claim id kind (P : unit → interned → Prop) : (∀ u log, P u log) → traces (claimTarget id kind) P.
Proof. apply traces_quiet. intros s. unfold claimTarget, mbind, stM_bind, gets, lift. by destruct (throw_if _ _). Qed.

Lemma traces_each {A B} (id : B → string) (f : Z → list string → A → building B) (P : A → B → interned → Prop) l :
  (∀ i seen x, traces (f i seen x) (P x)) → traces (build_each id f l) (λ records log, Forall2 (λ x r, P x r log) l records).
Proof.
  intros Hf. unfold build_each. generalize 0 ([] : list string). induction l as [|x l IH]; intros i seen; cbn [build_each_from].
  { apply tracks_ret; [apply _|]. by constructor. }
  eapply tracks_bind; [apply _|apply Hf|intros r]. eapply tracks_bind; [apply _|apply IH|intros records].
  apply tracks_ret; [apply _|]. by constructor.
Qed.

(** ** The parts of a build *)

Definition logged (log : interned) (source : SchemaSummary) (ref : SchemaRef) : Prop := (source, ref) ∈ log.

Ltac trace_step :=
  match goal with
  | |- tracks _ (mbind _ _) _ => eapply tracks_bind; [apply _| |intros ?]
  | |- tracks _ (mret _) _ => apply tracks_ret; [apply _|intros log]
  | |- tracks _ (refuse_duplicate _ _ _) _ => apply tracks_lift; [apply _|by intros; exact I]
  | |- tracks _ (lift _) _ => apply tracks_lift; [apply _|by intros; exact I]
  | |- tracks _ (gets _) _ => apply tracks_gets; [apply _|by intros; exact I]
  | |- tracks _ (claimTarget _ _) _ => apply traces_claim; by intros; exact I
  | |- tracks _ checkpoint _ => apply traces_checkpoint; by intros; exact I
  | |- tracks _ (intern _) _ => apply traces_intern; intros ref log Hlog; exact Hlog
  end.

Lemma traces_parameter i seen p : traces (build_parameter hasher heap fuel i seen p) (λ r log, parameter_shows (logged log) p r).
Proof. unfold build_parameter. repeat trace_step. intros _ Hlog _. by split_and!. Qed.

Lemma traces_header i seen h : traces (build_header hasher heap fuel i seen h) (λ r log, header_shows (logged log) h r).
Proof. unfold build_header. repeat trace_step. intros _ Hlog _. by split_and!. Qed.

Lemma traces_media i seen m : traces (build_media hasher heap fuel i seen m) (λ r log, media_shows (logged log) m r).
Proof. unfold build_media. repeat trace_step. intros Hlog _ _. by split_and!. Qed.

Lemma traces_response i seen x : traces (build_response hasher heap fuel i seen x) (λ r log, response_shows (logged log) x r).
Proof.
  unfold build_response. trace_step; [apply traces_each, traces_header|]. trace_step; [apply traces_each, traces_media|].
  repeat trace_step. intros _ Hm Hh. by split_and!.
Qed.

Lemma traces_body b : traces (build_body hasher heap fuel b) (λ r log, body_shows (logged log) b (bool_decide (is_Some b)) r).
Proof.
  destruct b as [b|]; cbn [build_body]; [|by trace_step]. trace_step; [apply traces_each, traces_media|].
  trace_step. intros Hm. split; [by apply bool_decide_eq_true_2|done].
Qed.

Lemma traces_quiet_each {A B} (id : B → string) (f : Z → list string → A → building B) l :
  (∀ i seen x, traces (f i seen x) (λ _ _, True)) → traces (build_each id f l) (λ _ _, True).
Proof. intros Hf. eapply tracks_weaken; [|apply (traces_each id f (λ _ _ _, True)), Hf]. done. Qed.

Lemma traces_detail ordinal indexed :
  traces (buildOperationDetail hasher heap fuel ordinal indexed) (λ d log, operation_shows (logged log) (io_source indexed) d).
Proof.
  unfold buildOperationDetail. trace_step; [apply traces_each, traces_parameter|]. trace_step; [apply traces_body|].
  trace_step; [apply traces_each, traces_response|].
  trace_step; [apply traces_quiet_each; intros; unfold build_security; by repeat trace_step|].
  trace_step; [apply traces_quiet_each; intros; unfold build_sample; by repeat trace_step|].
  trace_step. intros _ _ Hr Hb Hp. by constructor.
Qed.

Lemma traces_join item m tags : traces (join_sections item m tags) (λ _ _, True).
Proof.
  revert m. induction tags as [|tag tags IH]; intros m; cbn [join_sections]; [by trace_step|].
  eapply (tracks_bind _ _ _ (λ _ _, True)); [|intros m'; eapply tracks_weaken; [|apply IH]; done].
  unfold join_section. eapply (tracks_bind _ _ _ (λ _ _, True)); [|intros section; by trace_step].
  destruct (m !! _); [by trace_step|]. trace_step; [trace_step|by trace_step].
Qed.

Lemma traces_operations i m l :
  traces (build_operations hasher heap fuel i m l)
    (λ r log, Forall2 (λ o d, operation_shows (logged log) (io_source o) d.2) l r.1).
Proof.
  revert i m. induction l as [|o l IH]; intros i m; cbn [build_operations]; [trace_step; by constructor|].
  trace_step; [trace_step|]. trace_step; [apply traces_join|]. trace_step; [apply traces_detail|].
  trace_step; [apply IH|]. destruct a2 as [operations m']. trace_step. intros Hl Hd _ _. by constructor.
Qed.

Lemma traces_schema i s :
  traces (build_schema hasher heap fuel i s) (λ x log, schema_shows (logged log) (is_source s) x.1.2).
Proof.
  unfold build_schema. trace_step; [trace_step|]. trace_step; [trace_step|]. trace_step; [trace_step|].
  trace_step; [trace_step|]. trace_step. intros _ _ Hlog _. by split_and!.
Qed.

Lemma traces_schemas i l :
  traces (build_schemas hasher heap fuel i l) (λ r log, Forall2 (λ s x, schema_shows (logged log) (is_source s) x.1.2) l r).
Proof.
  revert i. induction l as [|s l IH]; intros i; cbn [build_schemas]; [trace_step; by constructor|].
  trace_step; [apply traces_schema|]. trace_step; [apply IH|]. trace_step. intros Hl Hs. by constructor.
Qed.

(** The indexing loops keep every operation and every schema. *)
Lemma traces_index_operations l : traces (index_operations l) (λ r _, io_source <$> r = l).
Proof.
  induction l as [|o l IH]; cbn [index_operations]; [by trace_step|]. trace_step; [trace_step|].
  trace_step; [trace_step|]. trace_step; [trace_step|]. trace_step; [apply IH|].
  trace_step. intros Hl _ _ _. cbn. by rewrite Hl.
Qed.

Lemma traces_alias legacy anchor : traces (claim_alias legacy anchor) (λ _ _, True).
Proof.
  apply traces_quiet; [|done]. intros s. unfold claim_alias, mbind, stM_bind, gets, lift.
  destruct (throw_if _ _); [|done]. by destruct (throw_if _ _).
Qed.

Lemma traces_index_schemas l : traces (index_schemas l) (λ r _, is_source <$> r = l).
Proof.
  induction l as [|s l IH]; cbn [index_schemas]; [by trace_step|]. trace_step; [trace_step|].
  trace_step; [trace_step|]. trace_step; [trace_step|]. trace_step; [apply traces_alias|].
  trace_step; [apply IH|]. trace_step. intros Hl _ _ _ _. cbn. by rewrite Hl.
Qed.

Lemma traces_overview index : traces (buildOverview index) (λ _ _, True).
Proof.
  assert (Hv : ∀ id i seen v, traces (build_variable id i seen v) (λ _ _, True)).
  { intros. unfold build_variable. by repeat trace_step. }
  assert (Hs : ∀ i seen x, traces (build_server i seen x) (λ _ _, True)).
  { intros. unfold build_server. trace_step; [trace_step|]. trace_step; [trace_step|].
    trace_step; [apply traces_quiet_each, Hv|]. by trace_step. }
  unfold buildOverview. trace_step; [apply traces_quiet_each, Hs|]. by trace_step.
Qed.

Lemma traces_search l : traces (buildSearch l) (λ _ _, True).
Proof.
  apply traces_quiet_each. intros. unfold build_search_record. trace_step; [trace_step|]. trace_step; [trace_step|].
  trace_step; [trace_step|]. trace_step; [trace_step|].
  trace_step; [trace_step|]. trace_step; [trace_step|by trace_step].
Qed.

Lemma traces_routes l : traces (buildPublicRoutes l) (λ _ _, True).
Proof.
  unfold buildPublicRoutes. generalize (sort_by (less_by (λ r, [KS (pr_Path r); KS (pr_Title r)])) l).
  generalize 0 ([] : list string). intros i seen k. revert i seen. induction k as [|r k IH]; intros i seen; cbn [build_routes].
  { by trace_step. }
  trace_step; [trace_step|]. trace_step; [trace_step|].
  trace_step; [trace_step|]. trace_step; [apply IH|by trace_step].
Qed.

(** ** The document *)

(** [d] shows the operations and schemas of [index], each once. *)
Definition document_shows (K : SchemaSummary → SchemaRef → Prop) (index : SpecIndex) (d : Document) : Prop :=
  (∃ operations, operations ≡ₚ ix_Operations index
     ∧ Forall2 (operation_shows K) operations (elems (pdoc_OperationDetails d)))
  ∧ ∃ schemas, schemas ≡ₚ ix_Schemas index ∧ Forall2 (schema_shows K) schemas (elems (pdoc_SchemaDetails d)).

(** The schema whose tree the graph of [d] has at [ref]. *)
Definition graph_shows (d : Document) (source : SchemaSummary) (ref : SchemaRef) : Prop :=
  ∃ t, canonical_tree heap limits fuel source = Some t
    ∧ unfold_node (elems (pdoc_SchemaNodes d)) fuel ref = Some t.

Lemma finalized_shows K K' g index d :
  (∀ s r, K s r → K' s (graph_remap g r)) → document_shows K index d → document_shows K' index (finalizeSchemaGraph g d).
Proof.
  intros HK [(ops & Hops & Ho) (schemas & Hschemas & Hs)]. split.
  - exists ops. split; [done|]. cbn. eapply Forall2_each; [|exact Ho]. by apply remap_operation_shows.
  - exists schemas. split; [done|]. cbn. eapply Forall2_each; [|exact Hs]. by apply remap_schema_shows.
Qed.

(** What a successful build leaves: a log of interned schemas and the document
    before its graph is sorted. *)
Lemma build_logged index s s' d :
  build hasher heap fuel index s = (s', Ok d) → built hasher heap limits fuel s [] →
  ∃ log draft, built hasher heap limits fuel s' log ∧ d = finalizeSchemaGraph (graph s') draft
    ∧ document_shows (logged log) index draft.
Proof.
  intros Hr Hb. unfold build in Hr. apply st_bind_ok in Hr as (s1 & overview & H1 & Hr).
  apply st_bind_ok in Hr as (s2 & ops & H2 & Hr). apply st_bind_ok in Hr as (s3 & schemas & H3 & Hr).
  apply st_bind_ok in Hr as (s4 & [[dirs details] secs] & H4 & Hr). apply st_bind_ok in Hr as (s5 & [[sdirs sdetails] sec] & H5 & Hr).
  apply st_bind_ok in Hr as (s6 & search & H6 & Hr). apply st_bind_ok in Hr as (s7 & routes & H7 & Hr).
  injection Hr as <- <-.
  apply traces_overview in H1 as (l1 & R1 & _).
  apply st_bind_ok in H2 as (s2' & ops' & H2 & [= -> <-]). apply traces_index_operations in H2 as (l2 & R2 & Eo).
  apply st_bind_ok in H3 as (s3' & schemas' & H3 & [= -> <-]). apply traces_index_schemas in H3 as (l3 & R3 & Es).
  apply st_bind_ok in H4 as (s4' & [ops m] & H4 & [= -> <- <- <-]). apply traces_operations in H4 as (l4 & R4 & Ho).
  apply st_bind_ok in H5 as (s5' & records & H5 & [= -> <- <- <-]). apply traces_schemas in H5 as (l5 & R5 & Hs).
  apply traces_search in H6 as (l6 & R6 & _). apply traces_routes in H7 as (l7 & R7 & _).
  specialize (Eo l2 ltac:(done)). specialize (Es l3 ltac:(done)).
  set (log := l1 ++ l2 ++ l3 ++ l4 ++ l5 ++ l6 ++ l7). exists log. eexists. split; [|split; [reflexivity|]].
  - apply R1, R2, R3, R4, R5, R6, R7 in Hb. cbn [app] in Hb. by rewrite <-!app_assoc in Hb.
  - specialize (Ho log ltac:(set_solver)). specialize (Hs log ltac:(set_solver)). split; cbn [pdoc_OperationDetails pdoc_SchemaDetails elems default from_option].
    + exists (io_source <$> sort_by (less_by (λ o, [KS (io_anchor o)])) ops'). split; [by rewrite sort_by_perm, Eo|].
      apply Forall2_fmap. exact Ho.
    + exists (is_source <$> sort_by (less_by (λ s, [KS (is_anchor s)])) schemas'). split; [by rewrite sort_by_perm, Es|].
      rewrite <-list_fmap_compose. apply Forall2_fmap. exact Hs.
Qed.
End tracing.
