(* ===== verification/ProjectionNavigation.v ===== *)
(** * Anchors of a built document

    The builder claims the ID of every element once, so IDs are distinct, and
    what a search record or a public route leads to is an element of the page. *)

From S2P Require Import Prelude GoString GoSha256 Identity Spec CatalogIdentity SpecValidation EmbeddedJson GoUrl Projection.
From S2P Require Import SchemaGraph ProjectionBuild SchemaGraphSafety ProjectionTrace.

(** ** Claims *)

Definition claims := list (string * string).

Record claimed (s : buildState) (l : claims) (s' : buildState) : Prop := Claimed {
  cl_distinct : NoDup l.*1;
  cl_fresh : ∀ id, id ∈ l.*1 → bs_targets s !! id = None;
  cl_targets : ∀ id kind, bs_targets s' !! id = Some kind ↔ (id, kind) ∈ l ∨ bs_targets s !! id = Some kind;
}.

Lemma claimed_nil s s' : bs_targets s' = bs_targets s → claimed s [] s'.
Proof. intros E. constructor; [constructor|by intros ? ?%elem_of_nil|]. intros id kind. rewrite E, elem_of_nil. tauto. Qed.

Lemma claimed_app s l s' l' s'' : claimed s l s' → claimed s' l' s'' → claimed s (l ++ l') s''.
Proof.
  intros [D1 F1 T1] [D2 F2 T2].
  assert (Hnew : ∀ id, id ∈ l'.*1 → id ∉ l.*1 ∧ bs_targets s !! id = None).
  { intros id Hid. specialize (F2 id Hid). split.
    - intros ([i k] & -> & Hin)%list_elem_of_fmap. cbn in F2.
      assert (bs_targets s' !! i = Some k) by (apply T1; by left). congruence.
    - apply eq_None_not_Some. intros [k Hk]. assert (bs_targets s' !! id = Some k) by (apply T1; by right). congruence. }
  constructor.
  - rewrite fmap_app. apply NoDup_app. split_and!; [done| |done]. intros id Hid Hid'. by destruct (Hnew id Hid').
  - intros id. rewrite fmap_app, elem_of_app. intros [?|?]; [by apply F1|by apply Hnew].
  - intros id kind. rewrite T2, T1, elem_of_app. tauto.
Qed.

Lemma claimed_one id kind s s' u : claimTarget id kind s = (s', Ok u) → claimed s [(id, kind)] s'.
Proof.
  unfold claimTarget. intros (s1 & t & [= <- <-] & (? & Hc & [= <- _])%lift_bind_ok)%st_bind_ok.
  apply throw_if_ok_u, bool_decide_eq_false, eq_None_not_Some in Hc. constructor.
  - apply NoDup_singleton.
  - by intros ? ->%list_elem_of_singleton.
  - intros id' kind'. cbn [with_targets bs_targets]. rewrite lookup_insert_Some, list_elem_of_singleton. split.
    + intros [[-> ->]|[_ ?]]; [by left|by right].
    + intros [[= -> ->]|E]; [by left|right]. split; [congruence|done].
Qed.

(** What claims nothing. *)
Definition unclaiming (s s' : buildState) : Prop := bs_targets s' = bs_targets s.
#[export] Instance unclaiming_preorder : PreOrder unclaiming.
Proof. split; [done|]. intros s1 s2 s3. unfold unclaiming. congruence. Qed.

Lemma run_unclaiming {A} (m : building A) s s' r : keeps unclaiming m → m s = (s', r) → unclaiming s s'.
Proof. intros Hm E. specialize (Hm s). by rewrite E in Hm. Qed.

Lemma unclaiming_checkpoint : keeps unclaiming checkpoint.
Proof. intros s. unfold checkpoint. by destruct (bs_ctx s). Qed.

Lemma unclaiming_each {A B} (id : B → string) (f : Z → list string → A → building B) l :
  (∀ i seen x, keeps unclaiming (f i seen x)) → keeps unclaiming (build_each id f l).
Proof.
  intros Hf. unfold build_each. generalize 0 ([] : list string). induction l as [|x l IH]; intros i seen; cbn [build_each_from];
    keeps_tac; [apply Hf|apply IH].
Qed.

Section navigation.
Context `{CaseTables, IPLiterals} (hasher : list Z → list Z) (heap : Heap) (fuel : nat).
Notation intern := (internSchema hasher heap fuel).

Lemma unclaiming_intern n source : keeps unclaiming (internSchema hasher heap n source).
Proof.
  assert (Hp : ∀ f i b l, (∀ x, keeps unclaiming (f x)) → keeps unclaiming (intern_properties f i b l)).
  { intros f i b l Hf. revert i b. induction l as [|p l IH]; intros i b; cbn [intern_properties]; keeps_tac; [apply Hf|apply IH]. }
  revert source. induction n as [|n IH]; intros source; cbn [internSchema]; unfold intern_items; keeps_tac;
    [apply unclaiming_checkpoint|by apply Hp|apply IH|..].
  all: intros s; unfold intern_node; by destruct (add_node _ _ _) as [[g r]|].
Qed.

Ltac unclaim := keeps_tac; try apply unclaiming_checkpoint; try apply unclaiming_intern.

Lemma unclaiming_overview index : keeps unclaiming (buildOverview index).
Proof.
  unfold buildOverview. keeps_tac. apply unclaiming_each. intros. unfold build_server, refuse_duplicate. unclaim.
  apply unclaiming_each. intros. unfold build_variable, refuse_duplicate. unclaim.
Qed.

Lemma unclaiming_media l : keeps unclaiming (buildMediaTypes hasher heap fuel l).
Proof. apply unclaiming_each. intros. unfold build_media, refuse_duplicate. unclaim. Qed.

Lemma unclaiming_detail ordinal o : keeps unclaiming (buildOperationDetail hasher heap fuel ordinal o).
Proof.
  unfold buildOperationDetail, build_body. keeps_tac; try apply unclaiming_media; apply unclaiming_each; intros.
  - unfold build_parameter, refuse_duplicate. unclaim.
  - unfold build_response, refuse_duplicate. unclaim; [|apply unclaiming_media].
    apply unclaiming_each. intros. unfold build_header, refuse_duplicate. unclaim.
  - unfold build_security, refuse_duplicate. unclaim.
  - unfold build_sample, refuse_duplicate. unclaim.
Qed.

Lemma unclaiming_schemas i l : keeps unclaiming (build_schemas hasher heap fuel i l).
Proof. revert i. induction l as [|s l IH]; intros i; cbn [build_schemas]; unfold build_schema; unclaim. apply IH. Qed.

(** ** What each stage claims *)

Lemma claimed_run {A} (m : building A) s s' r : keeps unclaiming m → m s = (s', r) → claimed s [] s'.
Proof. intros Hm E. by eapply claimed_nil, run_unclaiming. Qed.
Lemma claimed_checkpoint s s' r : checkpoint s = (s', r) → claimed s [] s'.
Proof. apply claimed_run, unclaiming_checkpoint. Qed.
Lemma claimed_kept s l s' id kind : claimed s l s' → bs_targets s !! id = Some kind → bs_targets s' !! id = Some kind.
Proof. intros [_ _ Ht] E. apply Ht. by right. Qed.

Definition operation_claim (o : indexedOperation) : string * string := (io_anchor o, "operation").
Definition schema_claim (x : indexedSchema) : string * string := (is_anchor x, "schema").
Definition tag_claim (id : string) : string * string := (id, "operation-tag").
Definition result_claim (r : SearchRecord) : string * string := (psrx_ResultID r, "search-result").

Lemma operations_claimed l s s' ops :
  index_operations l s = (s', Ok ops) → claimed s (operation_claim <$> ops) s'.
Proof.
  revert s s' ops. induction l as [|o l IH]; intros s s' ops; cbn [index_operations]; [by intros [= <- <-]; apply claimed_nil|].
  intros (s1 & ? & H1%claimed_checkpoint & (anchor & ? & (s2 & ? & H2%claimed_one & (s3 & ops' & H3%IH & [= <- <-])%st_bind_ok)%st_bind_ok)%lift_bind_ok)%st_bind_ok.
  exact (claimed_app _ _ _ _ _ H1 (claimed_app _ _ _ _ _ H2 H3)).
Qed.

Lemma alias_claimed legacy anchor s s' u : claim_alias legacy anchor s = (s', Ok u) → claimed s [] s'.
Proof.
  unfold claim_alias. intros (s1 & al & [= <- <-] & (? & _ & (s2 & t & [= <- <-] & (? & _ & [= <- _])%lift_bind_ok)%st_bind_ok)%lift_bind_ok)%st_bind_ok.
  by apply claimed_nil.
Qed.

Lemma schemas_claimed l s s' schemas :
  index_schemas l s = (s', Ok schemas) → claimed s (schema_claim <$> schemas) s'.
Proof.
  revert s s' schemas. induction l as [|x l IH]; intros s s' schemas; cbn [index_schemas]; [by intros [= <- <-]; apply claimed_nil|].
  intros (s1 & ? & H1%claimed_checkpoint & (? & ? & (s2 & ? & H2%claimed_one & (s3 & ? & H3%alias_claimed & (s4 & ? & H4%IH & [= <- <-])%st_bind_ok)%st_bind_ok)%st_bind_ok)%lift_bind_ok)%st_bind_ok.
  exact (claimed_app _ _ _ _ _ H1 (claimed_app _ _ _ _ _ H2 (claimed_app _ _ _ _ _ H3 H4))).
Qed.

(** *** Sections *)

#[local] Opaque recordID.

Definition keys {A} (m : gmap string A) : list string := (map_to_list m).*1.
Definition sections_ok (m : sections) : Prop :=
  map_Forall (λ id section, pss_ID section = id ∧ pss_Kind section = "operation-tag") m.

Lemma keys_insert {A} (m : gmap string A) k x y : m !! k = Some y → keys (<[k := x]> m) ≡ₚ keys m.
Proof.
  intros Hk. apply NoDup_Permutation; [apply NoDup_fst_map_to_list..|]. intros id. unfold keys.
  rewrite !list_elem_of_fmap. setoid_rewrite list_elem_of_In. split; intros ([i z] & -> & Hi); cbn in *.
  all: rewrite <-list_elem_of_In in Hi; apply elem_of_map_to_list in Hi.
  - apply lookup_insert_Some in Hi as [[<- <-]|[_ Hi]]; eexists (_, _); (split; [reflexivity|]); by apply list_elem_of_In, elem_of_map_to_list.
  - destruct (decide (k = i)) as [<-|Hn]; eexists (_, _); (split; [reflexivity|]); apply list_elem_of_In, elem_of_map_to_list.
    + by rewrite lookup_insert_eq.
    + by rewrite lookup_insert_ne.
Qed.

Lemma join_section_claimed item m tag s s' m' :
  join_section item m tag s = (s', Ok m') → sections_ok m →
  sections_ok m' ∧ ∃ ids, claimed s (tag_claim <$> ids) s' ∧ keys m' ≡ₚ keys m ++ ids.
Proof.
  unfold join_section. intros (s1 & section & H1 & [= <- <-])%st_bind_ok Hm.
  destruct (m !! _) as [old|] eqn:E.
  - injection H1 as <- <-. split.
    + apply map_Forall_insert_2; [|done]. by apply Hm in E.
    + exists []. split; [by apply claimed_nil|]. rewrite app_nil_r. by eapply keys_insert.
  - apply st_bind_ok in H1 as (s2 & ? & Hc%claimed_one & [= <- <-]). split.
    + by apply map_Forall_insert_2.
    + exists [recordID "operation-tag" [tag]]. split; [done|]. unfold keys. rewrite map_to_list_insert by done.
      cbn. by rewrite Permutation_cons_append.
Qed.

Lemma join_sections_claimed item tags m s s' m' :
  join_sections item m tags s = (s', Ok m') → sections_ok m →
  sections_ok m' ∧ ∃ ids, claimed s (tag_claim <$> ids) s' ∧ keys m' ≡ₚ keys m ++ ids.
Proof.
  revert m s. induction tags as [|tag tags IH]; intros m s; cbn [join_sections].
  - intros [= <- <-] Hm. split; [done|]. exists []. split; [by apply claimed_nil|by rewrite app_nil_r].
  - intros (s1 & m1 & H1 & H2)%st_bind_ok Hm. destruct (join_section_claimed _ _ _ _ _ _ H1 Hm) as (Hm1 & ids & C1 & K1).
    destruct (IH _ _ H2 Hm1) as (Hm' & ids' & C2 & K2). split; [done|]. exists (ids ++ ids'). split.
    + rewrite fmap_app. by eapply claimed_app.
    + by rewrite K2, K1, app_assoc.
Qed.

Lemma detail_anchor ordinal o s s' d :
  buildOperationDetail hasher heap fuel ordinal o s = (s', Ok d) → podx_Anchor d = io_anchor o.
Proof.
  unfold buildOperationDetail. intros (? & ? & _ & (? & ? & _ & (? & ? & _ & (? & ? & _ & (? & ? & _ & [= _ <-])%st_bind_ok)%st_bind_ok)%st_bind_ok)%st_bind_ok)%st_bind_ok.
  done.
Qed.

Lemma build_operations_claimed l i m s s' ops m' :
  build_operations hasher heap fuel i m l s = (s', Ok (ops, m')) → sections_ok m →
  sections_ok m' ∧ podx_Anchor <$> ops.*2 = io_anchor <$> l
  ∧ ∃ ids, claimed s (tag_claim <$> ids) s' ∧ keys m' ≡ₚ keys m ++ ids.
Proof.
  revert i m s ops. induction l as [|o l IH]; intros i m s ops; cbn [build_operations].
  - intros [= <- <- <-] Hm. split_and!; [done..|]. exists []. split; [by apply claimed_nil|by rewrite app_nil_r].
  - intros (s1 & ? & H1%claimed_checkpoint & (s2 & m2 & H2 & (s3 & d & H3 & (s4 & [ops' m4] & H4 & [= <- <- <-])%st_bind_ok)%st_bind_ok)%st_bind_ok)%st_bind_ok Hm.
    destruct (join_sections_claimed _ _ _ _ _ _ H2 Hm) as (Hm2 & ids & C2 & K2).
    destruct (IH _ _ _ _ H4 Hm2) as (Hm4 & Ea & ids' & C4 & K4). split_and!; [done| |].
    + cbn. by rewrite (detail_anchor _ _ _ _ _ H3), Ea.
    + exists (ids ++ ids'). split; [|by rewrite K4, K2, app_assoc]. rewrite fmap_app.
      assert (C3 : claimed s2 [] s3) by (eapply claimed_run, H3; apply unclaiming_detail).
      exact (claimed_app _ _ _ _ _ H1 (claimed_app _ _ _ _ _ C2 (claimed_app _ _ _ _ _ C3 C4))).
Qed.

(** *** Search records and public routes *)

(** A record leads to an element of its kind. *)
Definition record_leads (leads : string → string → Prop) (r : SearchRecord) : Prop :=
  ∃ anchor, psrx_Href r = selectedHref anchor ∧ leads anchor (psrx_Kind r)
    ∧ psrx_Kind r ∈ ["overview"; "operation"; "schema"].
(** A route is the root or leads to an element. *)
Definition route_leads (leads : string → string → Prop) (r : PublicRoute) : Prop :=
  ppr_Path r = "/" ∨ ∃ path anchor kind, HasPrefix path "/" = true ∧ ppr_Path r = path +:+ selectedHref anchor
    ∧ leads anchor kind ∧ kind ∉ ["fixed"; "operation-tag"].

Definition target_of (s : buildState) (anchor kind : string) : Prop := bs_targets s !! anchor = Some kind.

Lemma resolve_target s source anchor kind :
  resolve s source = Some (anchor, kind) → target_of s anchor kind ∧ kind ∉ ["fixed"; "operation-tag"].
Proof.
  unfold resolve, target_of. intros (k & Hk & Ek)%bind_Some. destruct (bool_decide (k = "fixed")) eqn:E1; [done|].
  destruct (bool_decide (k = "operation-tag")) eqn:E2; [done|]. injection Ek as <- <-. split; [done|].
  apply bool_decide_eq_false in E1, E2. set_solver.
Qed.

Lemma record_claimed i seen x s s' r :
  build_search_record i seen x s = (s', Ok r) → claimed s [result_claim r] s' ∧ record_leads (target_of s') r.
Proof.
  unfold build_search_record.
  intros (s1 & ? & H1%claimed_checkpoint & (? & ? & (target & ? & (s2 & resolved & [= <- <-] & (anchor & Ha & (s3 & ? & H2%claimed_one & [= <- <-])%st_bind_ok)%lift_bind_ok)%st_bind_ok)%lift_bind_ok)%lift_bind_ok)%st_bind_ok.
  split; [exact (claimed_app _ _ _ _ _ H1 H2)|]. exists anchor. split; [done|]. cbn [psrx_Kind].
  destruct (resolve s1 target) as [[a k]|] eqn:E; [|done]. apply resolve_target in E as [E _].
  apply bind_ok in Ha as (? & Hk%throw_if_ok_u & [= ->]).
  apply orb_false_iff in Hk as [Hk%negb_false_iff%bool_decide_eq_true Hs]. split; [|].
  - rewrite Hk. eapply claimed_kept; [exact H2|done].
  - revert Hs. generalize (ToLower (TrimSpace (sd_Kind x))). intros kind. rewrite !andb_false_iff, !negb_false_iff, !bool_decide_eq_true.
    set_solver.
Qed.

Lemma search_claimed l s s' records :
  buildSearch l s = (s', Ok records) → claimed s (result_claim <$> records) s' ∧ Forall (record_leads (target_of s')) records.
Proof.
  unfold buildSearch, build_each. generalize (sort_by (less_by (λ d, [KS (sd_ID d)])) l). intros k.
  generalize 0 ([] : list string). revert s s' records. induction k as [|x k IH]; intros s s' records i seen; cbn [build_each_from].
  - intros [= <- <-]. split; [by apply claimed_nil|constructor].
  - intros (s1 & r & [C1 L1]%record_claimed & (s2 & rs & [C2 L2]%IH & [= <- <-])%st_bind_ok)%st_bind_ok.
    split; [exact (claimed_app _ _ _ _ _ C1 C2)|]. constructor; [|done].
    destruct L1 as (anchor & Hh & Ht & Hk). exists anchor. split_and!; [done| |done]. by eapply claimed_kept.
Qed.

Lemma canonical_route_leads raw s canonical :
  canonicalPublicRoute raw (λ value, fst <$> resolve s value) = Ok canonical →
  canonical = "/" ∨ ∃ path anchor kind, HasPrefix path "/" = true ∧ canonical = path +:+ selectedHref anchor
    ∧ target_of s anchor kind ∧ kind ∉ ["fixed"; "operation-tag"].
Proof.
  unfold canonicalPublicRoute. destruct (url_Parse raw) as [reference|]; [|done]. intros (? & _ & E)%bind_ok.
  case_bool_decide as Er; [injection E as <-; by left|]. apply bind_ok in E as (? & Hp%throw_if_ok_u & (? & _ & E)%bind_ok).
  destruct (resolve s (u_Fragment reference)) as [[anchor kind]|] eqn:Ek; [|done]. injection E as <-. right.
  apply resolve_target in Ek. exists (u_Path reference), anchor, kind. split; [|done].
  repeat apply orb_false_iff in Hp as [Hp ?]. by apply negb_false_iff.
Qed.

Lemma routes_lead l s s' routes :
  buildPublicRoutes l s = (s', Ok routes) → s' = s ∧ Forall (route_leads (target_of s)) routes.
Proof.
  unfold buildPublicRoutes. generalize (sort_by (less_by (λ r, [KS (pr_Path r); KS (pr_Title r)])) l). intros k.
  generalize 0 ([] : list string). revert s' routes. induction k as [|x k IH]; intros s' routes i seen; cbn [build_routes].
  - intros [= <- <-]. split; [done|constructor].
  - intros (s1 & ? & [= <- <-] & (canonical & Hc%canonical_route_leads & (? & _ & (s2 & rs & [-> L]%IH & [= <- <-])%st_bind_ok)%lift_bind_ok)%lift_bind_ok)%st_bind_ok.
    split; [done|]. by constructor.
Qed.

(** ** The document *)

(** The elements of a document that have an ID of their own, with their kinds. *)
Definition document_targets (d : Document) : claims :=
  map_to_list initial_targets
  ++ ((λ x, (podx_Anchor x, "operation")) <$> elems (pdoc_OperationDetails d))
  ++ ((λ x, (psdx_Anchor x, "schema")) <$> elems (pdoc_SchemaDetails d))
  ++ ((λ x, (pss_ID x, pss_Kind x)) <$> filter (λ x, pss_Kind x = "operation-tag") (elems (pdoc_SidebarSections d)))
  ++ ((λ x, (psrx_ResultID x, "search-result")) <$> elems (pdoc_Search d)).
Definition is_target (d : Document) (anchor kind : string) : Prop := (anchor, kind) ∈ document_targets d.

Record navigable (d : Document) : Prop := Navigable {
  nv_distinct : NoDup (document_targets d).*1;
  nv_search : Forall (record_leads (is_target d)) (elems (pdoc_Search d));
  nv_routes : Forall (route_leads (is_target d)) (elems (pdoc_PublicRoutes d));
}.

Lemma leads_weaken (P Q : string → string → Prop) :
  (∀ a k, P a k → Q a k) → (∀ r, record_leads P r → record_leads Q r) ∧ (∀ r, route_leads P r → route_leads Q r).
Proof.
  intros HPQ. split.
  - intros r (a & ? & ? & ?). exists a. auto.
  - intros r [?|(p & a & k & ? & ? & ? & ?)]; [by left|right]. exists p, a, k. auto.
Qed.

Lemma claimed_navigable s l s' d :
  claimed s l s' → bs_targets s = initial_targets → document_targets d ≡ₚ map_to_list initial_targets ++ l →
  Forall (record_leads (target_of s')) (elems (pdoc_Search d)) → Forall (route_leads (target_of s')) (elems (pdoc_PublicRoutes d)) →
  navigable d.
Proof.
  intros [Hd Hf Ht] Es Hp Hs Hr.
  assert (HPQ : ∀ a k, target_of s' a k → is_target d a k).
  { intros a k Hk. unfold is_target. rewrite Hp, elem_of_app, elem_of_map_to_list, <-Es. apply Ht in Hk. tauto. }
  destruct (leads_weaken _ _ HPQ) as [Wr Wp]. constructor; [|by eapply Forall_impl..].
  rewrite Hp, fmap_app. apply NoDup_app. split_and!; [apply NoDup_fst_map_to_list| |done].
  intros id ([i k] & -> & Hk)%list_elem_of_fmap Hid. cbn in Hid. apply elem_of_map_to_list in Hk. apply Hf in Hid. rewrite Es in Hid. congruence.
Qed.

Lemma schemas_anchors i l s s' rs :
  build_schemas hasher heap fuel i l s = (s', Ok rs) → psdx_Anchor <$> rs.*1.*2 = is_anchor <$> l.
Proof.
  revert i s s' rs. induction l as [|x l IH]; intros i s s' rs; cbn [build_schemas]; [by intros [= _ <-]|].
  intros (s1 & r & H1 & (s2 & rs' & H2%IH & [= _ <-])%st_bind_ok)%st_bind_ok. cbn. rewrite H2. f_equal.
  unfold build_schema in H1.
  apply st_bind_ok in H1 as (? & ? & _ & (? & ? & _ & (? & ? & _ & (? & _ & [= _ <-])%lift_bind_ok)%st_bind_ok)%st_bind_ok).
  done.
Qed.

Lemma filter_none {A} (P : A → Prop) `{!∀ x, Decision (P x)} l : Forall (λ x, ¬ P x) l → filter P l = [].
Proof. induction 1; [done|]. by rewrite filter_cons_False. Qed.
Lemma filter_every {A} (P : A → Prop) `{!∀ x, Decision (P x)} l : Forall P l → filter P l = l.
Proof. induction 1 as [|x l Hx _ IH]; [done|]. by rewrite filter_cons_True, IH. Qed.

Lemma sections_targets (m : sections) (rest : list SidebarSection) :
  sections_ok m → Forall (λ x, pss_Kind x ≠ "operation-tag") rest →
  (λ x, (pss_ID x, pss_Kind x)) <$> filter (λ x, pss_Kind x = "operation-tag")
    (imap number_section (sort_by (less_by (λ x, [KS (pss_ID x)])) (map_to_list m).*2 ++ rest)) ≡ₚ tag_claim <$> keys m.
Proof.
  intros Hm Hr.
  assert (Hn : ∀ (f : nat → SidebarSection → SidebarSection) l, (∀ k x, pss_ID (f k x) = pss_ID x ∧ pss_Kind (f k x) = pss_Kind x) →
    (λ x, (pss_ID x, pss_Kind x)) <$> filter (λ x, pss_Kind x = "operation-tag") (imap f l)
    = (λ x, (pss_ID x, pss_Kind x)) <$> filter (λ x, pss_Kind x = "operation-tag") l).
  { intros f l. revert f. induction l as [|x l IH]; intros f Hf; [done|]. rewrite imap_cons, !filter_cons.
    destruct (Hf 0%nat x) as [Ei Ek]. rewrite Ek. case_decide; cbn; rewrite ?Ei, ?Ek, IH by (intros; apply Hf); done. }
  rewrite Hn by done. rewrite filter_app, (filter_none _ rest), app_nil_r by done.
  rewrite sort_by_perm. unfold keys. rewrite filter_every.
  - rewrite <-!list_fmap_compose. apply reflexive_eq, list_fmap_ext. intros k [i x] Hk%list_elem_of_lookup_2.
    apply elem_of_map_to_list, Hm in Hk as [? ?]. cbn. unfold tag_claim. by f_equal.
  - apply Forall_fmap, Forall_forall. intros [i x] Hk. by apply elem_of_map_to_list, Hm in Hk as [? ?].
Qed.

Lemma fmap_kind {A} (f : A → string) (kind : string) (l : list A) : (λ x, (f x, kind)) <$> l = (λ a, (a, kind)) <$> (f <$> l).
Proof. by rewrite <-list_fmap_compose. Qed.

Lemma build_navigable index s s' d :
  build hasher heap fuel index s = (s', Ok d) → bs_targets s = initial_targets → navigable d.
Proof.
  intros Hr Hs. unfold build in Hr. apply st_bind_ok in Hr as (s1 & overview & H1 & Hr).
  apply st_bind_ok in Hr as (s2 & ops & H2 & Hr). apply st_bind_ok in Hr as (s3 & schemas & H3 & Hr).
  apply st_bind_ok in Hr as (s4 & [[dirs details] secs] & H4 & Hr). apply st_bind_ok in Hr as (s5 & [[sdirs sdetails] sec] & H5 & Hr).
  apply st_bind_ok in Hr as (s6 & search & H6 & Hr). apply st_bind_ok in Hr as (s7 & routes & H7 & Hr).
  injection Hr as <- <-.
  apply st_bind_ok in H2 as (s2' & ops' & H2 & [= -> <-]). apply st_bind_ok in H3 as (s3' & schemas' & H3 & [= -> <-]).
  apply st_bind_ok in H4 as (s4' & [ops m] & H4 & [= -> <- <- <-]). apply st_bind_ok in H5 as (s5' & records & H5 & [= -> <- <- <-]).
  assert (C1 : claimed s [] s1) by (eapply claimed_run, H1; apply unclaiming_overview).
  apply operations_claimed in H2. apply schemas_claimed in H3.
  destruct (build_operations_claimed _ _ _ _ _ _ _ H4) as (Hm & Ea & ids & C4 & K4); [apply map_Forall_empty|].
  assert (C5 : claimed s4 [] s5) by (eapply claimed_run, H5; apply unclaiming_schemas).
  apply schemas_anchors in H5. apply search_claimed in H6 as [C6 L6]. apply routes_lead in H7 as [-> L7].
  pose proof (claimed_app _ _ _ _ _ C1 (claimed_app _ _ _ _ _ H2 (claimed_app _ _ _ _ _ H3 (claimed_app _ _ _ _ _ C4
    (claimed_app _ _ _ _ _ C5 C6))))) as C. cbn [app] in C.
  eapply (claimed_navigable _ _ _ _ C Hs); [|exact L6|exact L7].
  unfold document_targets. apply Permutation_app_head. cbn [finalizeSchemaGraph pdoc_OperationDetails pdoc_SchemaDetails
    pdoc_SidebarSections pdoc_Search]. rewrite !elems_each. cbn [elems default from_option id].
  rewrite <-!list_fmap_compose. change (compose _ (remap_operation _)) with (λ x, (podx_Anchor x, "operation")).
  change (compose _ (remap_schema _)) with (λ x, (psdx_Anchor x, "schema")).
  rewrite sections_targets, K4.
  - repeat apply Permutation_app; [| |done|done].
    + rewrite list_fmap_compose, (fmap_kind podx_Anchor), Ea, <-(fmap_kind io_anchor). by rewrite sort_by_perm.
    + rewrite !list_fmap_compose, (fmap_kind psdx_Anchor), H5, <-(fmap_kind is_anchor). by rewrite sort_by_perm.
  - done.
  - by destruct (sort_by _ schemas'); [|apply Forall_singleton].
Qed.
End navigation.
