(* ===== verification/ProjectionRuns.v ===== *)
(** * Properties of building a projection

    The theorems of ProjectionTrace and ProjectionNavigation put together, for
    the whole build with its checks. *)

From S2P Require Import Prelude GoString GoSha256 Identity Spec CatalogIdentity SpecValidation EmbeddedJson GoUrl Projection.
From S2P Require Import SchemaGraph ProjectionBuild IndexDiff Snapshot SchemaGraphSafety SchemaGraphRuns ProjectionTrace ProjectionNavigation.

Section runs.
Context `{CaseTables, IPLiterals} (hasher : list Z → list Z) (heap : Heap) (fuel : nat).

Lemma checked_build_ok index limits s s' d :
  checked_build hasher heap fuel index limits s = (s', Ok d) →
  ∃ s0, build hasher heap fuel index s0 = (s', Ok d)
    ∧ bs_targets s0 = bs_targets s ∧ bs_aliases s0 = bs_aliases s ∧ bs_schemaGraph s0 = bs_schemaGraph s.
Proof.
  unfold checked_build. intros (s1 & ? & H1 & (? & ? & (? & ? & (? & ? & (s2 & ? & H2 & Hb)%st_bind_ok)%lift_bind_ok)%lift_bind_ok)%lift_bind_ok)%st_bind_ok.
  exists s2. split; [exact Hb|].
  assert (Hc : ∀ s s' u, checkpoint s = (s', Ok u) →
    bs_targets s' = bs_targets s ∧ bs_aliases s' = bs_aliases s ∧ bs_schemaGraph s' = bs_schemaGraph s).
  { intros s3 s4 u. unfold checkpoint. destruct (bs_ctx s3); intros E; inversion E; by subst. }
  destruct (Hc _ _ _ H1) as (? & ? & ?), (Hc _ _ _ H2) as (? & ? & ?). split_and!; congruence.
Qed.

(** C37: A built document shows its index.  Whatever index, hash of 32 bytes and
    context, a successful build of a graph that fits into memory lists every operation and every schema of the index once;
    each parameter, response header, request and response media and schema is
    listed in order with its name, flags and location, and the node its
    reference leads to in the document's graph unfolds to exactly the tree of
    the schema it was given. *)
Theorem built_document_shows_index ctx index limits d :
  (∀ l, length (hasher l) = 32%nat) →
  buildWithSchemaHasher hasher heap fuel ctx index limits = Ok d →
  memory_ok (bs_schemaGraph (checked_build hasher heap fuel index limits (new_build ctx limits)).1) →
  document_shows (graph_shows heap fuel limits d) index d.
Proof.
  unfold buildWithSchemaHasher. intros Hh Hd Hm. set (s' := (checked_build _ _ _ _ _ _).1) in Hm. apply run_result in Hd.
  fold s' in Hd. apply checked_build_ok in Hd as (s0 & Hb & _ & _ & Hg).
  assert (Hnew : built hasher heap limits fuel s0 []) by (by apply built_new).
  destruct (build_logged hasher Hh heap fuel limits index s0 s' d Hb Hnew) as (log & draft & Hl & -> & Hshows).
  destruct (built_keeps hasher Hh heap limits fuel s' log Hl Hm) as [[Hok _] Htrees]. rewrite Forall_forall in Htrees.
  eapply finalized_shows; [|exact Hshows]. intros source ref Hin. destruct (Htrees _ Hin) as (_ & t & Ht & Hu).
  exists t. split; [exact Ht|]. cbn. by eapply sorted_unfold.
Qed.

(** C38: A built document can be navigated.  The fixed elements, operations,
    schemas, tag sections and search results of a built document have pairwise
    distinct IDs, every search record leads to the overview, an operation or a
    schema of the document, of the kind the record says, and every public route
    is the root or a rooted path whose selection is an element of the document. *)
Theorem built_document_navigable ctx index limits d :
  buildWithSchemaHasher hasher heap fuel ctx index limits = Ok d → navigable d.
Proof.
  unfold buildWithSchemaHasher. intros (s0 & Hb & Ht & _)%run_result%checked_build_ok. by eapply build_navigable.
Qed.
End runs.

(** ** Samples *)

Definition site_index (operations : list Operation) (schemas : list Schema) (search : list SearchDocument)
    (routes : list Spec.PublicRoute) : SpecIndex :=
  MkSpecIndex "pets" "rev-1" "Pets" "1" (MkDocsBranding "" (MkDocsBrandingLogo "" "" "") "")
    (MkSpecOverview "" "" (MkSpecContact "" "" "") (MkSpecLicense "" "" "") [])
    (MkSpecDownload [] "") operations schemas [] search routes "".

Definition pets_site : SpecIndex :=
  site_index
    [MkOperation "listPets" "" "" "GET" "/pets" "" [] "" "" ["pets"] [] false
       [Spec.MkOperationParameter "limit" "query" false "" pet_summary ""] None
       [MkOperationResponse "200" "" [MkOperationResponseHeader "X-Total" "" pet_summary ""]
          [MkOperationMediaType "application/json" pets_summary "" false]] [] []]
    [MkSchema "Pets" "" pets_summary (MkSchemaExample "" "" false)]
    [MkSearchDocument "s1" "List" "" "?selected=operation-listpets#operation-listpets" "operation" "" "" "" []]
    [Spec.MkPublicRoute "/" "Home" ""].

Definition no_ip : IPLiterals := λ _, false.
Notation pets_build := (@buildWithSchemaHasher latin1 no_ip sha256 pet_heap 3 [] pets_site true).

Lemma pets_build_ok : is_ok pets_build = true.
Proof. vm_compute. reflexivity. Qed.


Notation pets_graph := (bs_schemaGraph (@checked_build latin1 no_ip sha256 pet_heap 3 pets_site true (new_build [] true)).1).
Lemma pets_graph_memory : memory_ok pets_graph.
Proof.
  assert (Hl : Z.of_nat (length (sg_drafts pets_graph)) ≤ 2 ^ 32) by (apply Z.leb_le; vm_compute; reflexivity).
  assert (Hs : forallb (λ x, Z.of_nat (length (sd_preimage x)) <? 2 ^ 64) (sg_drafts pets_graph) = true) by (vm_compute; reflexivity).
  refine (MemoryOk _ Hl _). apply Forall_forall. intros x Hx%list_elem_of_In. rewrite forallb_forall in Hs. by apply Z.ltb_lt, Hs.
Qed.

Lemma built_document_shows_index_witness :
  ∃ d, pets_build = Ok d ∧ document_shows (graph_shows pet_heap 3 true d) pets_site d.
Proof.
  pose proof pets_build_ok as Hok. destruct pets_build as [d|] eqn:E; [|discriminate]. exists d. split; [reflexivity|].
  exact (@built_document_shows_index latin1 no_ip sha256 pet_heap 3 [] pets_site true d sha256_length E pets_graph_memory).
Defined.

Lemma built_document_navigable_witness : ∃ d, pets_build = Ok d ∧ navigable d.
Proof.
  pose proof pets_build_ok as Hok. destruct pets_build as [d|] eqn:E; [|discriminate]. exists d. split; [reflexivity|].
  exact (@built_document_navigable latin1 no_ip sha256 pet_heap 3 [] pets_site true d E).
Defined.

(** [latin1] and the Kelvin sign, whose lower case is the letter k. *)
Definition kelvin : CaseTables := {|
  upper_table := @upper_table latin1;
  lower_table r := if r =? 0x212A then 107 else @lower_table latin1 r;
|}.

(** A search record that selects the first schema. *)
Definition hijacked_site : SpecIndex :=
  site_index []
    [MkSchema "fo k" "" pet_summary (MkSchemaExample "" "" false);
     MkSchema ("fo-" +:+ of_runes [0x212A]) "" pets_summary (MkSchemaExample "" "" false)]
    [MkSearchDocument "s1" "first" "" "?selected=schema-fo-k#schema-fo-k" "schema" "" "" "" []] [].

(** A legacy alias takes the anchor of another schema.  The check of aliases
    lets an alias equal the anchor of a schema, even of another one; the
    references to that anchor then lead to the schema with the alias.  Here the
    search record names the anchor of the first schema and the built record
    leads to the second. *)
Theorem alias_takes_anchor :
  (λ d, ((λ x, (psdx_Heading x, psdx_Anchor x)) <$> elems (pdoc_SchemaDetails d), psrx_Href <$> elems (pdoc_Search d)))
    <$> @buildWithSchemaHasher kelvin no_ip sha256 pet_heap 3 [] hijacked_site true
  = Ok ([("fo-" +:+ of_runes [0x212A], "schema-fo"); ("fo k", "schema-fo-k")], ["?selected=schema-fo#schema-fo"]).
Proof. vm_compute. reflexivity. Qed.
