(* ===== verification/CatalogRuntime.v ===== *)
(** * The route table of mounted catalogs (application/catalog/runtime.go)

    A [Runtime] publishes immutable route tables: every mount serves a verified
    snapshot, remembers at most one previous snapshot, or is tombstoned.  The
    transitions compare-and-swap on the generation and on the snapshot the
    caller expects, hand the complete next table to a [persist] callback and
    publish it only when the callback succeeds.  [W] is the world the callback
    acts on.  The writer lock makes each operation one step. *)

From S2P Require Import Prelude GoString.
From S2P Require Import CatalogIdentity.
From S2P Require Import CatalogModel.
From S2P Require Projection.

(** ** Data *)

Abbreviation ErrInvalidMount := (Errorf "catalog: invalid mount" []).
Abbreviation ErrInvalidSnapshot := (Errorf "catalog: invalid runtime snapshot" []).
Abbreviation ErrStaleSnapshot := (Errorf "catalog: stale snapshot" []).
Abbreviation ErrStaleGeneration := (Errorf "catalog: stale configuration generation" []).
Abbreviation ErrMountUnavailable := (Errorf "catalog: mount unavailable" []).
Abbreviation ErrMountWithdrawn := (Errorf "catalog: mount withdrawn" []).
Abbreviation ErrInvalidTombstone := (Errorf "catalog: invalid mount tombstone" []).
Abbreviation ErrRuntimeBusy := (Errorf "catalog: runtime has active admissions" []).

Definition TombstoneWithdrawn : string := "withdrawn".
Definition TombstoneDeleted : string := "deleted".

Record MountTombstone := MkMountTombstone {
  tb_State : string;
  tb_CatalogID : string;
  tb_SnapshotID : SnapshotID;
}.

#[export] Instance tombstone_eq_dec : EqDecision MountTombstone.
Proof. solve_decision. Defined.

Record RuntimeSnapshot := MkRuntimeSnapshot {
  rs_ID : SnapshotID;
  rs_Location : string;
  rs_Directory : CatalogArtifactV1;
  rs_Search : SearchDirectoryV1;
  rs_Manifest : ManifestV1;
}.

Record MountState := MkMountState {
  ms_Active : RuntimeSnapshot;
  ms_Previous : option RuntimeSnapshot;
}.

Record RouteTable := MkRouteTable {
  tbl_Generation : Z;
  tbl_Mounts : gmap string MountState;
  tbl_Tombstones : gmap string MountTombstone;
}.

Record MountActivation := MkMountActivation {
  ma_Generation : Z;
  ma_ActiveID : SnapshotID;
  ma_PreviousID : SnapshotID;
  ma_Changed : bool;
}.

Record Runtime := MkRuntime {
  rn_table : RouteTable;
  rn_refs : gmap SnapshotID Z;
}.

Definition NewRuntime (generation : Z) : Runtime := MkRuntime (MkRouteTable generation ∅ ∅) ∅.

Definition store_table (table : RouteTable) (runtime : Runtime) : Runtime :=
  MkRuntime table (rn_refs runtime).

Definition with_mounts (f : gmap string MountState → gmap string MountState) (table : RouteTable) : RouteTable :=
  MkRouteTable (tbl_Generation table) (f (tbl_Mounts table)) (tbl_Tombstones table).
Definition with_tombstones (f : gmap string MountTombstone → gmap string MountTombstone) (table : RouteTable)
    : RouteTable :=
  MkRouteTable (tbl_Generation table) (tbl_Mounts table) (f (tbl_Tombstones table)).

Definition catalog_of (snapshot : RuntimeSnapshot) : string := ca_CatalogID (rs_Directory snapshot).

(** ** Copies *)

(** [append([]T(nil), s...)]: an empty slice comes back nil. *)
Definition clone_slice {A} (s : slice A) : slice A := gappend None (elems s).

(** The same with a copy made of every element. *)
Definition clone_each {A B} (f : A → B) (s : slice A) : slice B := gappend None (f <$> elems s).

Definition cloneServer (server : Projection.Server) : Projection.Server :=
  Projection.MkServer (Projection.pser_Ordinal server) (Projection.pser_ID server)
    (Projection.pser_URL server) (Projection.pser_Description server)
    (clone_each (λ variable,
       Projection.MkServerVariable (Projection.psv_Ordinal variable) (Projection.psv_ID variable)
         (Projection.psv_Name variable) (Projection.psv_Default variable) (Projection.psv_Description variable)
         (clone_slice (Projection.psv_Enum variable))) (Projection.pser_Variables server)).

Definition cloneOverview (overview : Projection.Overview) : Projection.Overview :=
  Projection.MkOverview (Projection.pove_Anchor overview) (Projection.pove_Href overview)
    (Projection.pove_HeadingID overview) (Projection.pove_Heading overview)
    (Projection.pove_HeadingLevel overview) (Projection.pove_Description overview)
    (Projection.pove_TermsOfService overview) (Projection.pove_SpecDownloadFilename overview)
    (Projection.pove_Contact overview) (Projection.pove_License overview)
    (clone_each cloneServer (Projection.pove_Servers overview)).

Definition cloneOperation (operation : OperationDirectoryV1) : OperationDirectoryV1 :=
  MkOperationDirectoryV1 (od_DetailID operation) (od_OperationID operation) (od_Method operation)
    (od_Path operation) (od_RequestTarget operation) (od_FixedQuery operation) (od_Title operation)
    (od_Description operation) (od_Href operation) (od_DetailChild operation) (od_Deprecated operation)
    (clone_slice (od_Tags operation)) (clone_slice (od_Facets operation)).

Definition cloneDocument (document : DocumentDirectoryV1) : DocumentDirectoryV1 :=
  MkDocumentDirectoryV1 (dd_Publication document) (dd_Key document) (dd_SourcePath document)
    (dd_Title document) (dd_APIVersion document) (dd_Branding document)
    (cloneOverview (dd_Overview document)) (dd_SourceChild document)
    (clone_slice (dd_SchemaNodeShards document))
    (clone_each cloneOperation (dd_Operations document))
    (clone_slice (dd_Schemas document)) (clone_slice (dd_SecuritySchemes document)).

Definition cloneRuntimeSnapshot (source : RuntimeSnapshot) : RuntimeSnapshot :=
  let directory := rs_Directory source in
  let search := rs_Search source in
  let manifest := rs_Manifest source in
  let identity := mf_Identity manifest in
  MkRuntimeSnapshot (rs_ID source) (rs_Location source)
    (MkCatalogArtifactV1 (ca_SchemaVersion directory) (ca_CatalogID directory) (ca_Title directory)
       (ca_Branding directory) (ca_DefaultDocumentKey directory) (ca_ProfileID directory)
       (ca_SearchChild directory) (clone_each cloneDocument (ca_Documents directory)))
    (MkSearchDirectoryV1 (sdir_SchemaVersion search) (sdir_SearchVersion search)
       (clone_slice (sdir_ExactBuckets search)) (clone_slice (sdir_TokenRoutes search))
       (clone_slice (sdir_TrigramRoutes search)) (clone_slice (sdir_PostingSegments search))
       (clone_slice (sdir_TrigramSegments search)) (clone_slice (sdir_RecordSegments search))
       (clone_slice (sdir_Ranks search)))
    (MkManifestV1 (mf_SchemaVersion manifest) (mf_SnapshotID manifest)
       (MkSnapshotIdentityV1 (sid_SchemaVersion identity) (sid_CatalogID identity) (sid_CatalogTitle identity)
          (sid_Branding identity) (sid_DefaultDocumentKey identity) (sid_ProfileID identity)
          (sid_RevisionKind identity) (sid_RevisionID identity) (sid_CommitSHA identity)
          (sid_SourceManifestSHA256 identity) (sid_ProfileAllowlistLength identity)
          (sid_ProfileAllowlistSHA256 identity) (sid_Versions identity) (sid_Bounds identity)
          (clone_slice (sid_Sources identity)) (clone_slice (sid_Children identity)))
       (clone_slice (mf_Children manifest))).

Definition cloneMountState (state : MountState) : MountState :=
  MkMountState (cloneRuntimeSnapshot (ms_Active state)) (cloneRuntimeSnapshot <$> ms_Previous state).

Definition cloneRouteTable (source : RouteTable) : RouteTable :=
  MkRouteTable (tbl_Generation source) (cloneMountState <$> tbl_Mounts source) (tbl_Tombstones source).

(** ** Validation *)

Definition validateRuntimeMount (value : string) : res unit :=
  if bool_decide (value = "/") then mret tt
  else
    throw_if (bool_decide (value = "") || negb (HasPrefix value "/") || HasSuffix value "/"
              || ContainsAny value "\?#" || negb (bool_decide (path_clean value = value)))
      (Errorf "%w: %q" [EErr ErrInvalidMount; EStr value]) ;;
    for_each (λ character,
      throw_if (is_control character)
        (Errorf "%w: %q contains control characters" [EErr ErrInvalidMount; EStr value])) (runes value).

Definition snapshot_prefix : string := "snapshot-sha256-".

Definition validateRuntimeSnapshot (value : RuntimeSnapshot) : res unit :=
  let digest := TrimPrefix (rs_ID value) snapshot_prefix in
  throw_if (negb (HasPrefix (rs_ID value) snapshot_prefix) || negb (go_len digest =? 64)
            || bool_decide (rs_Location value = "") || negb (ca_SchemaVersion (rs_Directory value) =? 1)
            || negb (sdir_SchemaVersion (rs_Search value) =? 1))
    (Errorf "%w: %q" [EErr ErrInvalidSnapshot; EStr (rs_ID value)]) ;;
  for_each (λ character,
    throw_if (negb (is_lower_hex character))
      (Errorf "%w: %q" [EErr ErrInvalidSnapshot; EStr (rs_ID value)])) (runes digest).

Definition validateTombstoneState (value : string) : res unit :=
  throw_if (negb (bool_decide (value = TombstoneWithdrawn)) && negb (bool_decide (value = TombstoneDeleted)))
    (Errorf "%w: state %q" [EErr ErrInvalidTombstone; EStr value]).

Definition zero_branding : BrandingV1 := MkBrandingV1 "" "" "" "" "".
Definition zero_versions : CompilerVersions := MkCompilerVersions "" "" "" "" "" "".
Definition zero_bounds : Bounds := MkBounds 0 0 0 0 0 0 0 0 0 0 0 0 0 0 0 0 0 0 0 0.
Definition zero_identity : SnapshotIdentityV1 :=
  MkSnapshotIdentityV1 0 "" "" zero_branding "" "" "" "" "" "" 0 "" zero_versions zero_bounds None None.
Definition zero_manifest : ManifestV1 := MkManifestV1 0 "" zero_identity None.
Definition catalog_artifact (version : Z) (catalogID : string) : CatalogArtifactV1 :=
  MkCatalogArtifactV1 version catalogID "" zero_branding "" "" "" None.
Definition search_directory (version : Z) : SearchDirectoryV1 :=
  MkSearchDirectoryV1 version 0 None None None None None None None.

Definition validateRuntimeTombstone (value : MountTombstone) : res unit :=
  validateTombstoneState (tb_State value) ;;
  throw_if (negb (HasPrefix (tb_SnapshotID value) snapshot_prefix))
    (Errorf "%w: snapshot %q" [EErr ErrInvalidTombstone; EStr (tb_SnapshotID value)]) ;;
  wrap_err (validateRuntimeSnapshot
      (MkRuntimeSnapshot (tb_SnapshotID value) "tombstone" (catalog_artifact 1 "") (search_directory 1) zero_manifest))
    (λ _, Errorf "%w: snapshot %q" [EErr ErrInvalidTombstone; EStr (tb_SnapshotID value)]) ;;
  wrap_err (ValidateCatalogID (tb_CatalogID value))
    (λ e, Errorf "%w: catalog identity: %v" [EErr ErrInvalidTombstone; EText e]).

(** ** Reads *)

Definition Table (runtime : Runtime) : RouteTable := cloneRouteTable (rn_table runtime).
Definition MountNames (runtime : Runtime) : list string := (map_to_list (tbl_Mounts (rn_table runtime))).*1.
Definition HasMount (runtime : Runtime) (mount : string) : bool :=
  bool_decide (is_Some (tbl_Mounts (rn_table runtime) !! mount)).
Definition ReferenceCount (runtime : Runtime) (snapshot : SnapshotID) : Z :=
  default 0 (rn_refs runtime !! snapshot).

Definition check_generation (current : RouteTable) (generation : Z) : res unit :=
  throw_if (negb (tbl_Generation current =? generation))
    (Errorf "%w: expected %d, current %d" [EErr ErrStaleGeneration; EInt generation; EInt (tbl_Generation current)]).
Definition check_not_withdrawn (current : RouteTable) (mount : string) : res unit :=
  throw_if (bool_decide (is_Some (tbl_Tombstones current !! mount)))
    (Errorf "%w: mount %q" [EErr ErrMountWithdrawn; EStr mount]).

Definition stale_mount (mount : string) (expected current : SnapshotID) : error :=
  Errorf "%w: mount %q expected %q, current %q" [EErr ErrStaleSnapshot; EStr mount; EStr expected; EStr current].
Definition inactive_mount (mount : string) : error :=
  Errorf "%w: mount %q has no active snapshot" [EErr ErrStaleSnapshot; EStr mount].

Definition CheckMount (runtime : Runtime) (mount : string) (expectedOld : SnapshotID) (generation : Z) : res unit :=
  validateRuntimeMount mount ;;
  let current := rn_table runtime in
  check_generation current generation ;;
  check_not_withdrawn current mount ;;
  match tbl_Mounts current !! mount with
  | Some state =>
      throw_if (negb (bool_decide (rs_ID (ms_Active state) = expectedOld)))
        (stale_mount mount expectedOld (rs_ID (ms_Active state)))
  | None => throw_if (negb (bool_decide (expectedOld = ""))) (inactive_mount mount)
  end.

(** ** Transitions *)

Definition previous_id (state : MountState) : SnapshotID := from_option rs_ID "" (ms_Previous state).

Section transitions.
Context {W : Type}.

(** [if persist != nil { if err := persist(cloneRouteTable(next)); ... } }] and
    [runtime.table.Store(next)]. *)
Definition persist_and_store (persist : option (RouteTable → stM W unit)) (next : RouteTable)
    : stM (Runtime * W) unit :=
  match persist with
  | Some f => on_snd (f (cloneRouteTable next))
  | None => mret tt
  end ;;
  on_fst (modify (store_table next)).

Definition current_table : stM (Runtime * W) RouteTable := gets (λ s, rn_table s.1).

Definition activateMountDurably (mount : string) (expectedOld : SnapshotID) (generation : Z)
    (candidate : RuntimeSnapshot) (persist : option (RouteTable → stM W unit)) (cloneResult : bool)
    : stM (Runtime * W) (MountActivation * option RouteTable) :=
  lift (validateRuntimeMount mount) ;;
  lift (validateRuntimeSnapshot candidate) ;;
  current ← current_table;
  lift (check_generation current generation) ;;
  lift (check_not_withdrawn current mount) ;;
  let install (previous : option RuntimeSnapshot) :=
    let nextState := MkMountState (cloneRuntimeSnapshot candidate) previous in
    let next := with_mounts <[mount := nextState]> (cloneRouteTable current) in
    persist_and_store persist next ;;
    mret (MkMountActivation (tbl_Generation next) (rs_ID (ms_Active nextState)) (previous_id nextState) true,
          if cloneResult then Some (cloneRouteTable next) else None) in
  match tbl_Mounts current !! mount with
  | Some state =>
      lift (throw_if (negb (bool_decide (rs_ID (ms_Active state) = expectedOld)))
        (stale_mount mount expectedOld (rs_ID (ms_Active state)))) ;;
      if bool_decide (rs_ID candidate = rs_ID (ms_Active state)) then
        mret (MkMountActivation (tbl_Generation current) (rs_ID (ms_Active state)) (previous_id state) false,
              if cloneResult then Some (cloneRouteTable current) else None)
      else install (Some (cloneRuntimeSnapshot (ms_Active state)))
  | None =>
      lift (throw_if (negb (bool_decide (expectedOld = ""))) (inactive_mount mount)) ;;
      install None
  end.

Definition ActivateMountDurably (mount : string) (expectedOld : SnapshotID) (generation : Z)
    (candidate : RuntimeSnapshot) (persist : option (RouteTable → stM W unit))
    : stM (Runtime * W) (option RouteTable) :=
  result ← activateMountDurably mount expectedOld generation candidate persist true;
  mret result.2.
Definition ActivateMountDurablyBounded (mount : string) (expectedOld : SnapshotID) (generation : Z)
    (candidate : RuntimeSnapshot) (persist : option (RouteTable → stM W unit))
    : stM (Runtime * W) MountActivation :=
  result ← activateMountDurably mount expectedOld generation candidate persist false;
  mret result.1.
Definition ActivateMount (mount : string) (expectedOld : SnapshotID) (generation : Z)
    (candidate : RuntimeSnapshot) : stM (Runtime * W) (option RouteTable) :=
  ActivateMountDurably mount expectedOld generation candidate None.

Definition ReplaceRoutes (expectedGeneration nextGeneration : Z) (routes : gmap string RuntimeSnapshot)
    : stM (Runtime * W) unit :=
  lift (throw_if (nextGeneration <=? expectedGeneration)
    (Errorf "%w: next generation %d must exceed %d"
       [EErr ErrStaleGeneration; EInt nextGeneration; EInt expectedGeneration])) ;;
  lift (for_map (λ mount snapshot, validateRuntimeMount mount ;; validateRuntimeSnapshot snapshot) routes) ;;
  let validated := (λ snapshot, MkMountState (cloneRuntimeSnapshot snapshot) None) <$> routes in
  current ← current_table;
  lift (check_generation current expectedGeneration) ;;
  lift (for_map (λ mount _,
    throw_if (bool_decide (is_Some (tbl_Tombstones current !! mount)))
      (Errorf "%w: mount %q requires explicit reauthorization" [EErr ErrMountWithdrawn; EStr mount])) validated) ;;
  on_fst (modify (store_table (MkRouteTable nextGeneration validated (tbl_Tombstones current)))).

(** The tombstone with the identity of the active snapshot filled in. *)
Definition complete_tombstone (tombstone : MountTombstone) (active : RuntimeSnapshot) : MountTombstone :=
  MkMountTombstone (tb_State tombstone)
    (if bool_decide (tb_CatalogID tombstone = "") then catalog_of active else tb_CatalogID tombstone)
    (if bool_decide (tb_SnapshotID tombstone = "") then rs_ID active else tb_SnapshotID tombstone).

Definition WithdrawMountDurably (mount : string) (expectedActive : SnapshotID) (generation : Z)
    (tombstone : MountTombstone) (persist : option (RouteTable → stM W unit))
    : stM (Runtime * W) RouteTable :=
  lift (validateRuntimeMount mount) ;;
  lift (validateTombstoneState (tb_State tombstone)) ;;
  current ← current_table;
  lift (check_generation current generation) ;;
  match tbl_Mounts current !! mount with
  | None =>
      match tbl_Tombstones current !! mount with
      | Some existing =>
          if bool_decide (existing = tombstone) then mret (cloneRouteTable current)
          else lift (Fail (Errorf "%w: mount %q" [EErr ErrMountWithdrawn; EStr mount]))
      | None => lift (Fail (inactive_mount mount))
      end
  | Some state =>
      lift (throw_if (negb (bool_decide (rs_ID (ms_Active state) = expectedActive)))
        (stale_mount mount expectedActive (rs_ID (ms_Active state)))) ;;
      let tombstone := complete_tombstone tombstone (ms_Active state) in
      lift (validateRuntimeTombstone tombstone) ;;
      lift (throw_if (negb (bool_decide (tb_SnapshotID tombstone = rs_ID (ms_Active state)))
                      || negb (bool_decide (tb_CatalogID tombstone = catalog_of (ms_Active state))))
        (Errorf "%w: mount %q identity does not match active snapshot" [EErr ErrInvalidTombstone; EStr mount])) ;;
      let next := with_tombstones <[mount := tombstone]> (with_mounts (delete mount) (cloneRouteTable current)) in
      persist_and_store persist next ;;
      mret (cloneRouteTable next)
  end.

Definition ReauthorizeMountDurably (mount : string) (generation : Z) (candidate : RuntimeSnapshot)
    (persist : option (RouteTable → stM W unit)) : stM (Runtime * W) RouteTable :=
  lift (validateRuntimeMount mount) ;;
  lift (validateRuntimeSnapshot candidate) ;;
  current ← current_table;
  lift (check_generation current generation) ;;
  match tbl_Tombstones current !! mount with
  | None => lift (Fail (Errorf "%w: mount %q is not tombstoned" [EErr ErrMountUnavailable; EStr mount]))
  | Some tombstone =>
      lift (throw_if (bool_decide (is_Some (tbl_Mounts current !! mount)))
        (Errorf "%w: mount %q still has an active snapshot" [EErr ErrStaleSnapshot; EStr mount])) ;;
      lift (throw_if (negb (bool_decide (tb_CatalogID tombstone = catalog_of candidate)))
        (Errorf "%w: mount %q catalog changed from %q to %q"
           [EErr ErrInvalidTombstone; EStr mount; EStr (tb_CatalogID tombstone); EStr (catalog_of candidate)])) ;;
      lift (throw_if (bool_decide (tb_SnapshotID tombstone = rs_ID candidate))
        (Errorf "%w: mount %q reuses tombstoned snapshot %q"
           [EErr ErrInvalidTombstone; EStr mount; EStr (rs_ID candidate)])) ;;
      let next := with_mounts <[mount := MkMountState (cloneRuntimeSnapshot candidate) None]>
                    (with_tombstones (delete mount) (cloneRouteTable current)) in
      persist_and_store persist next ;;
      mret (cloneRouteTable next)
  end.

Definition fallbackMountDurably (mount : string) (corrupt : SnapshotID) (generation : Z) (usePrevious : bool)
    (persist : option (RouteTable → stM W unit)) : stM (Runtime * W) RouteTable :=
  lift (validateRuntimeMount mount) ;;
  current ← current_table;
  lift (check_generation current generation) ;;
  let stale := Errorf "%w: mount %q no longer serves %q" [EErr ErrStaleSnapshot; EStr mount; EStr corrupt] in
  match tbl_Mounts current !! mount with
  | None => lift (Fail stale)
  | Some state =>
      lift (throw_if (negb (bool_decide (rs_ID (ms_Active state) = corrupt))) stale) ;;
      let next :=
        with_mounts
          (match usePrevious, ms_Previous state with
           | true, Some previous => <[mount := MkMountState (cloneRuntimeSnapshot previous) None]>
           | _, _ => delete mount
           end) (cloneRouteTable current) in
      persist_and_store persist next ;;
      mret (cloneRouteTable next)
  end.

Definition FallbackMountDurably (mount : string) (corrupt : SnapshotID) (generation : Z)
    (persist : option (RouteTable → stM W unit)) : stM (Runtime * W) RouteTable :=
  fallbackMountDurably mount corrupt generation true persist.
Definition DisableMountDurably (mount : string) (corrupt : SnapshotID) (generation : Z)
    (persist : option (RouteTable → stM W unit)) : stM (Runtime * W) RouteTable :=
  fallbackMountDurably mount corrupt generation false persist.

(** Every check of [RestoreTable]. *)
Definition validateRestoredTable (table : RouteTable) : res unit :=
  for_map (λ mount state,
    validateRuntimeMount mount ;;
    validateRuntimeSnapshot (ms_Active state) ;;
    match ms_Previous state with
    | Some previous => validateRuntimeSnapshot previous
    | None => mret tt
    end ;;
    throw_if (bool_decide (is_Some (tbl_Tombstones table !! mount)))
      (Errorf "%w: mount %q has active snapshot and tombstone" [EErr ErrInvalidTombstone; EStr mount]))
    (tbl_Mounts table) ;;
  for_map (λ mount tombstone, validateRuntimeMount mount ;; validateRuntimeTombstone tombstone)
    (tbl_Tombstones table).

Definition RestoreTable (table : option RouteTable) : stM (Runtime * W) unit :=
  match table with
  | None => lift (Fail (Errorf "%w: route table is nil" [EErr ErrInvalidSnapshot]))
  | Some table =>
      lift (validateRestoredTable table) ;;
      busy ← gets (λ s, negb (bool_decide (rn_refs s.1 = ∅)));
      lift (throw_if busy ErrRuntimeBusy) ;;
      on_fst (modify (store_table (cloneRouteTable table)))
  end.

End transitions.

(** ** Admissions *)

Record Admission := MkAdmission {
  ad_Mount : string;
  ad_Snapshot : RuntimeSnapshot;
  ad_once : bool;
}.

Definition set_refs (f : gmap SnapshotID Z → gmap SnapshotID Z) (runtime : Runtime) : Runtime :=
  MkRuntime (rn_table runtime) (f (rn_refs runtime)).

Definition AdmitSnapshot (mount : string) (id : SnapshotID) : stM Runtime Admission :=
  lift (validateRuntimeMount mount) ;;
  table ← gets rn_table;
  match tbl_Mounts table !! mount with
  | None =>
      lift (check_not_withdrawn table mount) ;;
      lift (Fail (Errorf "%w: %q" [EErr ErrMountUnavailable; EStr mount]))
  | Some state =>
      let unavailable := Errorf "%w: snapshot %q at %q" [EErr ErrMountUnavailable; EStr id; EStr mount] in
      selected ← lift
        (if negb (bool_decide (id = "")) && negb (bool_decide (id = rs_ID (ms_Active state))) then
           match ms_Previous state with
           | Some previous => if bool_decide (rs_ID previous = id) then mret previous else Fail unavailable
           | None => Fail unavailable
           end
         else mret (ms_Active state));
      let selected := cloneRuntimeSnapshot selected in
      modify (set_refs (λ refs, <[rs_ID selected := wrap64 (default 0 (refs !! rs_ID selected) + 1)]> refs)) ;;
      mret (MkAdmission mount selected false)
  end.

Definition Admit (mount : string) : stM Runtime Admission := AdmitSnapshot mount "".

(** The closure [admission.release]. *)
Definition release_reference (id : SnapshotID) (refs : gmap SnapshotID Z) : gmap SnapshotID Z :=
  if default 0 (refs !! id) <=? 1 then delete id refs
  else <[id := default 0 (refs !! id) - 1]> refs.

(** [Admission.Release], whose [sync.Once] runs the closure at most once. *)
Definition Admission_Release (admission : Admission) : stM Runtime Admission :=
  if ad_once admission then mret admission
  else
    modify (set_refs (release_reference (rs_ID (ad_Snapshot admission)))) ;;
    mret (MkAdmission (ad_Mount admission) (ad_Snapshot admission) true).
