(* ===== verification/CatalogDisk.v ===== *)
(** * The data directory of a catalog server

    What the directory of internal/adapters/catalogstore holds (routes.json,
    the activation journal, archived journals, published snapshots, staging and
    quarantine), how the durable records are encoded, and the file operations.
    Every operation on the disk, and every look at the context, has a [fate]:
    it happens, it fails, or it happens and still reports an error.  A crash
    is a tail of failures followed by a new process. *)

From S2P Require Import Prelude GoString GoJson.
From S2P Require Import CatalogModel.
From S2P Require Ports.

(** ** Durable records (activation.go) *)

Record durableMountV1 := MkDurableMountV1 {
  dm_CatalogID : string;
  dm_Active : SnapshotID;
  dm_Previous : SnapshotID;
}.

Record durableTombstoneV1 := MkDurableTombstoneV1 {
  dt_State : string;
  dt_CatalogID : string;
  dt_SnapshotID : SnapshotID;
}.

Record durableRouteTableV1 := MkDurableRouteTableV1 {
  drt_SchemaVersion : Z;
  drt_Generation : Z;
  drt_Mounts : option (gmap string durableMountV1);
  drt_Tombstones : gmap string durableTombstoneV1;
}.

Record activationJournalV1 := MkActivationJournalV1 {
  aj_SchemaVersion : Z;
  aj_Mount : string;
  aj_CatalogID : string;
  aj_Candidate : SnapshotID;
  aj_ExpectedOld : SnapshotID;
  aj_Generation : Z;
  aj_Operation : string;
  aj_Tombstone : option durableTombstoneV1;
}.

(** *** Their JSON *)

(** A map: its keys in order. *)
Definition json_map {A} (f : A → json) (m : gmap string A) : json :=
  JObject ((λ kv, (kv.1, f kv.2)) <$> sort_by (less_by (λ kv, [KS kv.1])) (map_to_list m)).

(** What a decoder makes of the keys and values that were written; malformed
    text has become the replacement character. *)
Definition reread_map {A} (f : A → A) (m : gmap string A) : gmap string A :=
  list_to_map ((λ kv, (reread_string kv.1, f kv.2)) <$> reverse (sort_by (less_by (λ kv, [KS kv.1])) (map_to_list m))).

Definition mount_json (m : durableMountV1) : json :=
  JObject (omit_string "catalogId" (dm_CatalogID m) ++ field "active" (JString (dm_Active m))
    ++ omit_string "previous" (dm_Previous m)).
Definition reread_mount (m : durableMountV1) : durableMountV1 :=
  MkDurableMountV1 (reread_string (dm_CatalogID m)) (reread_string (dm_Active m)) (reread_string (dm_Previous m)).

Definition tombstone_json (t : durableTombstoneV1) : json :=
  JObject (field "state" (JString (dt_State t)) ++ field "catalogId" (JString (dt_CatalogID t))
    ++ field "snapshotId" (JString (dt_SnapshotID t))).
Definition reread_tombstone (t : durableTombstoneV1) : durableTombstoneV1 :=
  MkDurableTombstoneV1 (reread_string (dt_State t)) (reread_string (dt_CatalogID t)) (reread_string (dt_SnapshotID t)).

(** [json.Marshal] and what [json.Decoder] reads back. *)
Class DurableRecord (A : Type) := {
  durable_json : A → json;
  durable_reread : A → A;
}.

#[export] Instance durable_routes : DurableRecord durableRouteTableV1 := {|
  durable_json t := JObject (field "schemaVersion" (JInt (drt_SchemaVersion t))
    ++ field "generation" (JInt (drt_Generation t))
    ++ field "mounts" (from_option (json_map mount_json) JNull (drt_Mounts t))
    ++ omit_empty (bool_decide (drt_Tombstones t = ∅)) "tombstones" (json_map tombstone_json (drt_Tombstones t)));
  durable_reread t := MkDurableRouteTableV1 (drt_SchemaVersion t) (drt_Generation t)
    (reread_map reread_mount <$> drt_Mounts t) (reread_map reread_tombstone (drt_Tombstones t));
|}.

#[export] Instance durable_journal : DurableRecord activationJournalV1 := {|
  durable_json j := JObject (field "schemaVersion" (JInt (aj_SchemaVersion j))
    ++ field "mount" (JString (aj_Mount j)) ++ omit_string "catalogId" (aj_CatalogID j)
    ++ field "candidate" (JString (aj_Candidate j)) ++ omit_string "expectedOld" (aj_ExpectedOld j)
    ++ field "generation" (JInt (aj_Generation j)) ++ omit_string "operation" (aj_Operation j)
    ++ from_option (λ t, field "tombstone" (tombstone_json t)) [] (aj_Tombstone j));
  durable_reread j := MkActivationJournalV1 (aj_SchemaVersion j) (reread_string (aj_Mount j))
    (reread_string (aj_CatalogID j)) (reread_string (aj_Candidate j)) (reread_string (aj_ExpectedOld j))
    (aj_Generation j) (reread_string (aj_Operation j)) (reread_tombstone <$> aj_Tombstone j);
|}.

(** The bytes of the file that holds a record. *)
Definition Marshal {A} `{DurableRecord A} (x : A) : list Z := render (durable_json x).
Definition data_len (data : list Z) : Z := Z.of_nat (length data).

(** [decodeStrict] on a file that holds [x]: the re-encoded value must be the
    bytes read. *)
Definition decodeStrict {A} `{DurableRecord A} (x : A) : res A :=
  let result := durable_reread x in
  throw_if (negb (bool_decide (Marshal result = Marshal x))) (Errorf "non-canonical JSON" []) ;;
  mret result.

(** ** The disk *)

Inductive fate :=
  | Done
  | Failed
  | Unsure.

(** Files by their path below the directory. *)
Abbreviation tree := (gmap string (list Z)).

Record Disk := MkDisk {
  dk_routes : option durableRouteTableV1;
  dk_journal : option activationJournalV1;
  dk_archive : gmap string activationJournalV1;
  dk_snapshots : gmap string tree;
  dk_staging : gmap positive tree;
  dk_quarantine : gmap string tree;
  dk_fates : list fate;
}.

Abbreviation io := (stM Disk).

Definition put_routes (x : durableRouteTableV1) (d : Disk) : Disk :=
  MkDisk (Some x) (dk_journal d) (dk_archive d) (dk_snapshots d) (dk_staging d) (dk_quarantine d) (dk_fates d).
Definition put_journal (x : option activationJournalV1) (d : Disk) : Disk :=
  MkDisk (dk_routes d) x (dk_archive d) (dk_snapshots d) (dk_staging d) (dk_quarantine d) (dk_fates d).
Definition upd_archive f (d : Disk) : Disk :=
  MkDisk (dk_routes d) (dk_journal d) (f (dk_archive d)) (dk_snapshots d) (dk_staging d) (dk_quarantine d) (dk_fates d).
Definition upd_snapshots f (d : Disk) : Disk :=
  MkDisk (dk_routes d) (dk_journal d) (dk_archive d) (f (dk_snapshots d)) (dk_staging d) (dk_quarantine d) (dk_fates d).
Definition upd_staging f (d : Disk) : Disk :=
  MkDisk (dk_routes d) (dk_journal d) (dk_archive d) (dk_snapshots d) (f (dk_staging d)) (dk_quarantine d) (dk_fates d).
Definition upd_quarantine f (d : Disk) : Disk :=
  MkDisk (dk_routes d) (dk_journal d) (dk_archive d) (dk_snapshots d) (dk_staging d) (f (dk_quarantine d)) (dk_fates d).
Definition put_fates l (d : Disk) : Disk :=
  MkDisk (dk_routes d) (dk_journal d) (dk_archive d) (dk_snapshots d) (dk_staging d) (dk_quarantine d) l.

(** ** File operations *)

Definition io_error : error := Errorf "input/output error" [].
Definition Canceled : error := Errorf "context canceled" [].

Definition next_fate : io fate := λ d, (put_fates (tail (dk_fates d)) d, Ok (hd Done (dk_fates d))).

(** A read, or a sync: it changes nothing. *)
Definition examine (e : error) : io unit :=
  f ← next_fate;
  match f with
  | Done => mret tt
  | Failed | Unsure => lift (Fail e)
  end.
Definition ctx_Err : io unit := examine Canceled.
Definition inspect : io unit := examine io_error.
Definition SyncDirectory : io unit := examine io_error.

(** An operation that changes the directory. *)
Definition attempt (change : Disk → Disk) : io unit :=
  f ← next_fate;
  match f with
  | Done => modify change
  | Failed => lift (Fail io_error)
  | Unsure => modify change ;; lift (Fail io_error)
  end.

(** [DurableAtomicWrite]: the rename has happened when only the directory could
    not be confirmed. *)
Definition DurableAtomicWrite (filePath : string) (change : Disk → Disk) : io unit :=
  f ← next_fate;
  match f with
  | Done => modify change
  | Failed => lift (Fail io_error)
  | Unsure =>
      modify change ;;
      lift (Fail (Errorf "%w: confirm atomic replacement of %q: %v"
        [EErr Ports.ErrCommitOutcomeUnknown; EStr filePath; EText io_error]))
  end.

(** [defer func() { if failed { _ = cleanup() } }()] *)
Definition with_cleanup {A} (body : io A) (cleanup : io unit) : io A := λ d,
  match body d with
  | (d, Ok a) => (d, Ok a)
  | (d, Fail e) => ((cleanup d).1, Fail e)
  end.

(** *** Files of a tree *)

Inductive lookup_result :=
  | Regular (data : list Z)
  | Missing
  | NotRegular.

(** Is one path a directory above the other? *)
Definition above (parent child : string) : bool := HasPrefix child (parent +:+ "/").

Definition lookup_file (files : tree) (path : string) : lookup_result :=
  match files !! path with
  | Some data => Regular data
  | None =>
      if bool_decide (path = ".") || existsb (λ kv, above path kv.1 || above kv.1 path) (map_to_list files)
      then NotRegular else Missing
  end.

(** May a new file be created under this path? *)
Definition creatable (files : tree) (path : string) : bool :=
  match lookup_file files path with
  | Missing => true
  | Regular _ | NotRegular => false
  end.

Definition tree_bytes (files : tree) : Z := total data_len files.

(** ** Lemmas: a strict decoder accepts only valid text *)

(** Malformed text is re-encoded differently. *)
Lemma reread_prefix s t1 t2 :
  render_string (reread_string s) ++ t1 = render_string s ++ t2 → reread_string s = s.
Proof.
  intros Heq. apply reread_string_valid. revert Heq.
  unfold render_string, reread_string. rewrite bytes_of_runes, decode_encode by apply runes_scalars.
  unfold runes, valid_utf8. generalize (decode (bytes_of s)) as segs. intros segs [= Heq].
  revert Heq. rewrite <-!app_assoc. induction segs as [|seg segs IH]; simpl; [done|].
  destruct seg as [[r|] bs]; unfold escape_seg at 1 3; simpl.
  - rewrite <-!app_assoc. intros Heq%app_inv_head. by apply IH.
  - intros Heq. discriminate Heq.
Qed.

(** The first two members of an object. *)
Lemma render_two kv1 kv2 l : ∃ t,
  render (JObject (kv1 :: kv2 :: l)) = 123 :: render_member kv1 ++ 44 :: render_member kv2 ++ t.
Proof.
  change (render (JObject (kv1 :: kv2 :: l))) with (123 :: render_seq render_member (kv1 :: kv2 :: l) ++ [125]).
  rewrite render_seq_cons. exists ((if l is _ :: _ then 44 :: render_seq render_member l else []) ++ [125]).
  destruct l as [|kv3 l];
    [change (render_seq render_member [kv2]) with (render_member kv2)|rewrite render_seq_cons];
    generalize (render_member kv1), (render_member kv2); intros l1 l2;
    [simpl|generalize (render_seq render_member (kv3 :: l)); intros l3; simpl];
    do 2 (rewrite <-?app_assoc; simpl); done.
Qed.

Lemma reread_journal_mount j j' : decodeStrict (A:=activationJournalV1) j = Ok j' →
  j' = durable_reread j ∧ aj_Mount j' = aj_Mount j.
Proof.
  unfold decodeStrict. intros Hd. go_inv. split; [done|]. simpl. revert Hok.
  unfold Marshal, durable_json, durable_journal, durable_reread, field.
  match goal with |- render (JObject ?l1) = render (JObject ?l2) → _ => remember l1 as l1' eqn:E1; remember l2 as l2' eqn:E2 end.
  simpl in E1, E2. subst l1' l2'.
  match goal with |- render (JObject (?a1 :: ?b1 :: ?l1)) = render (JObject (?a2 :: ?b2 :: ?l2)) → _ =>
    destruct (render_two a1 b1 l1) as [t1 ->]; destruct (render_two a2 b2 l2) as [t2 ->] end.
  intros [= Heq]. apply (reread_prefix _ t1 t2). unfold render_string.
  rewrite <-!app_assoc in Heq. rewrite <-!app_comm_cons, <-!app_assoc.
  apply app_inv_head in Heq. injection Heq as Heq. simpl. by f_equal.
Qed.
