(* ===== verification/CatalogStore.v ===== *)
(** * The snapshot store (internal/adapters/catalogstore: store.go, publish.go,
    preflight.go)

    Snapshots are directories named by the digest of their identity.  [Publish]
    checks the children against their declared lengths and digests, writes them
    to a staging directory and renames it into place; [Preflight] verifies
    every byte of a published snapshot before it may be served.  The JSON codec
    of the artifacts (internal/adapters/catalogjson) is an argument, the class
    [SnapshotCodec]: nothing proved here depends on how it decodes. *)

From S2P Require Import Prelude GoString GoSha256.
From S2P Require Import CatalogModel.
From S2P Require Import CatalogRuntime.
From S2P Require Import CatalogDisk.

Definition MaxSnapshotBytes : Z := Z.shiftl 64 20.
Definition MaxStagingBytes : Z := Z.shiftl 128 20.
Definition MaxStoredBytes : Z := Z.shiftl 512 20.

Definition ErrCorruptSnapshot : error := Errorf "catalogstore: corrupt snapshot" [].
Definition ErrTransientSnapshot : error := Errorf "catalogstore: snapshot temporarily unavailable" [].
Definition ErrStorageBudget : error := Errorf "catalogstore: storage budget exceeded" [].

Record Materialization := MkMaterialization {
  mat_ID : SnapshotID;
  mat_Location : string;
  mat_Bytes : Z;
}.

Definition corrupt (format : string) (args : list earg) : error := Errorf format (EErr ErrCorruptSnapshot :: args).
Definition transient (format : string) (args : list earg) : error := Errorf format (EErr ErrTransientSnapshot :: args).

(** ** Paths *)

Definition validSnapshotID (id : SnapshotID) : bool :=
  let digest := TrimPrefix id snapshot_prefix in
  HasPrefix id snapshot_prefix && (go_len digest =? 64) && forallb is_lower_hex (runes digest).

(** [filepath.Join] of a root that is already clean. *)
Definition path_join (root child : string) : string := path_clean (root +:+ "/" +:+ child).

(** The answer is the path below [root]; [filepath.Rel] gives that child back. *)
Definition safeChildPath (root child : string) : res string :=
  throw_if (bool_decide (child = "") || HasPrefix child "/" || Contains child "\"
            || negb (bool_decide (path_clean child = child)) || HasPrefix child "../"
            || bool_decide (child = ".."))
    (corrupt "%w: unsafe child path %q" [EStr child]) ;;
  mret child.

(** ** The codec of the artifacts *)

Class SnapshotCodec := {
  DecodeManifestWithResourceLimits : list Z → bool → res ManifestV1;
  DecodeCatalogWithResourceLimits : list Z → bool → res CatalogArtifactV1;
  DecodeSearchDirectoryWithResourceLimits : list Z → bool → res SearchDirectoryV1;
  ValidateCatalogManifest : CatalogArtifactV1 → ManifestV1 → res unit;
  ValidateSearchManifest : SearchDirectoryV1 → ManifestV1 → res unit;
}.

Section store.
Context `{SnapshotCodec} (root : string) (resourceLimits : bool).

Definition snapshotPath (id : SnapshotID) : res string :=
  throw_if (negb (validSnapshotID id)) (corrupt "%w: invalid snapshot ID %q" [EStr id]) ;;
  mret (path_join root ("snapshots/" +:+ id)).

(** ** Reading *)

Definition classifyRead (path : string) (missing : bool) (e : error) : error :=
  if missing then corrupt "%w: required child %q is missing" [EStr path]
  else transient "%w: read %q: %v" [EStr path; EText e].

Definition snapshot_files (id : SnapshotID) : io tree := gets (λ d, default ∅ (dk_snapshots d !! id)).

Definition to_int64 (z : Z) : Z := if z <? 2 ^ 63 then z else z - 2 ^ 64.

(** The bytes [io.LimitReader(file, int64(length)+1)] lets through. *)
Definition limited_bytes (data : list Z) (length : Z) : list Z :=
  let limit := to_int64 (wrap64 (to_int64 length + 1)) in
  take (Z.to_nat (Z.min limit (data_len data))) data.

(** [readBounded] of a file of a snapshot, its error classified by [path]. *)
Definition read_bounded (id : SnapshotID) (file path : string) (maximum : Z) : io (list Z) :=
  files ← snapshot_files id;
  match lookup_file files file with
  | Missing => st_wrap inspect (classifyRead path false) ;; lift (Fail (classifyRead path true io_error))
  | NotRegular => st_wrap (inspect ;; lift (Fail io_error)) (classifyRead path false)
  | Regular data =>
      st_wrap (inspect ;; inspect) (classifyRead path false) ;;
      let data := if 0 <? maximum then limited_bytes data maximum else data in
      lift (throw_if ((0 <? maximum) && (maximum <? data_len data))
        (classifyRead path false (Errorf "file exceeds %d bytes" [EInt maximum]))) ;;
      mret data
  end.

Definition verifyFile (id : SnapshotID) (path : string) (length : Z) (digest : string) : io unit :=
  files ← snapshot_files id;
  match lookup_file files path with
  | Missing => st_wrap inspect (classifyRead path false) ;; lift (Fail (classifyRead path true io_error))
  | NotRegular => st_wrap (inspect ;; lift (Fail io_error)) (classifyRead path false)
  | Regular data =>
      st_wrap inspect (classifyRead path false) ;;
      st_wrap inspect (λ e, transient "%w: stream %q: %v" [EStr path; EText e]) ;;
      let read := limited_bytes data length in
      lift (throw_if (negb (data_len read =? length) || negb (bool_decide (hex_encode (sha256 read) = digest)))
        (corrupt "%w: child %q length or digest changed" [EStr path]))
  end.

(** The loop of [Preflight] over the declared children. *)
Fixpoint verify_children (location : string) (id : SnapshotID) (children : list ChildIdentityV1)
    (verified : gmap string ChildIdentityV1) : io (gmap string ChildIdentityV1) :=
  match children with
  | [] => mret verified
  | child :: children =>
      st_wrap ctx_Err (λ e, transient "%w: %v" [EText e]) ;;
      childPath ← lift (safeChildPath location (ci_Path child));
      verifyFile id childPath (ci_Length child) (ci_SHA256 child) ;;
      verify_children location id children (<[ci_Path child := child]> verified)
  end.

Definition declared (children : gmap string ChildIdentityV1) (path what : string) : res ChildIdentityV1 :=
  match children !! path with
  | Some child => mret child
  | None => Fail (corrupt what [])
  end.

Definition Preflight (id : SnapshotID) : io RuntimeSnapshot :=
  location ← lift (snapshotPath id);
  let manifestLimit := if resourceLimits then Z.shiftl 4 20 else 0 in
  manifestBytes ← read_bounded id "manifest.json" "manifest.json" manifestLimit;
  manifest ← lift (wrap_err (DecodeManifestWithResourceLimits manifestBytes resourceLimits)
    (λ e, corrupt "%w: decode manifest: %v" [EText e]));
  lift (throw_if (negb (bool_decide (mf_SnapshotID manifest = id))) (corrupt "%w: decode manifest: %v" [])) ;;
  children ← verify_children location id (elems (mf_Children manifest)) ∅;
  catalogIdentity ← lift (declared children "catalog.json" "%w: catalog.json is undeclared");
  catalogBytes ← read_bounded id "catalog.json" "catalog.json" (to_int64 (ci_Length catalogIdentity));
  directory ← lift (wrap_err (DecodeCatalogWithResourceLimits catalogBytes resourceLimits)
    (λ e, corrupt "%w: decode catalog: %v" [EText e]));
  lift (wrap_err (ValidateCatalogManifest directory manifest)
    (λ e, corrupt "%w: catalog references: %v" [EText e])) ;;
  searchIdentity ← lift (declared children (ca_SearchChild directory) "%w: search directory is undeclared");
  searchBytes ← read_bounded id (ca_SearchChild directory) (ca_SearchChild directory)
    (to_int64 (ci_Length searchIdentity));
  search ← lift (wrap_err (DecodeSearchDirectoryWithResourceLimits searchBytes resourceLimits)
    (λ e, corrupt "%w: decode search directory: %v" [EText e]));
  lift (wrap_err (ValidateSearchManifest search manifest)
    (λ e, corrupt "%w: search references: %v" [EText e])) ;;
  mret (MkRuntimeSnapshot id location directory search manifest).

Definition ReadChild (snapshot : RuntimeSnapshot) (childPath : string) : io (list Z * ChildIdentityV1) :=
  ctx_Err ;;
  match find (λ child, bool_decide (ci_Path child = childPath)) (elems (mf_Children (rs_Manifest snapshot))) with
  | None => lift (Fail (corrupt "%w: child %q is undeclared" [EStr childPath]))
  | Some identity =>
      path ← lift (safeChildPath (rs_Location snapshot) childPath);
      data ← read_bounded (rs_ID snapshot) path childPath (to_int64 (ci_Length identity));
      lift (throw_if (negb (data_len data =? ci_Length identity)
                      || negb (bool_decide (hex_encode (sha256 data) = ci_SHA256 identity)))
        (corrupt "%w: child %q length or digest changed" [EStr childPath])) ;;
      mret (data, identity)
  end.

(** ** Publishing *)

(** The loop over the sorted children; the answer is their total size. *)
Fixpoint check_children (finalPath : string) (previous : option string) (total : Z)
    (children : list ChildArtifact) : res Z :=
  match children with
  | [] => mret total
  | child :: children =>
      throw_if (bool_decide (previous = Some (ch_Path child)))
        (corrupt "%w: duplicate child %q" [EStr (ch_Path child)]) ;;
      safeChildPath finalPath (ch_Path child) ;;
      throw_if (negb (ch_Length child =? data_len (ch_Bytes child))
                || negb (bool_decide (ch_SHA256 child = hex_encode (sha256 (ch_Bytes child))))
                || (ch_Length child =? 0))
        (corrupt "%w: child %q bytes differ from identity" [EStr (ch_Path child)]) ;;
      let total := wrap64 (total + ch_Length child) in
      throw_if (resourceLimits && (MaxSnapshotBytes <? total))
        (Errorf "%w: snapshot is %d bytes" [EErr ErrStorageBudget; EInt total]) ;;
      check_children finalPath (Some (ch_Path child)) total children
  end.

(** [os.MkdirAll]; directories without files are not part of a tree. *)
Definition make_directories : io unit := attempt (λ d, d).

Definition MkdirTemp : io positive :=
  name ← gets (λ d, fresh (dom (dk_staging d)));
  attempt (upd_staging <[name := ∅]>) ;;
  mret name.

(** [writeImmutableFile] into a staging directory; a failure may leave the file
    incomplete, which nothing reads. *)
Definition writeImmutableFile (staging : positive) (path : string) (data : list Z) : io unit :=
  files ← gets (λ d, default ∅ (dk_staging d !! staging));
  if creatable files path then attempt (upd_staging (alter <[path := data]> staging))
  else inspect ;; lift (Fail io_error).

Fixpoint write_children (stagingPath : string) (staging : positive) (children : list ChildArtifact) : io unit :=
  match children with
  | [] => mret tt
  | child :: children =>
      ctx_Err ;;
      path ← lift (safeChildPath stagingPath (ch_Path child));
      st_wrap (writeImmutableFile staging path (ch_Bytes child))
        (λ e, transient "%w: write child %q: %v" [EStr (ch_Path child); EText e]) ;;
      write_children stagingPath staging children
  end.

(** [DurableRenameNew(stagingPath, finalPath)] *)
Definition DurableRenameNew (staging : positive) (id : SnapshotID) : io unit :=
  inspect ;;
  existing ← gets (λ d, dk_snapshots d !! id);
  lift (throw_if (bool_decide (is_Some existing)) (Errorf "file already exists" [])) ;;
  attempt (λ d, upd_snapshots <[id := default ∅ (dk_staging d !! staging)]> (upd_staging (delete staging) d)) ;;
  st_wrap SyncDirectory (λ e, Errorf "confirm immutable directory publication: %w" [EErr e]).

Definition remove_staging (staging : positive) : io unit := attempt (upd_staging (delete staging)).

Definition directoryBytes (trees : list tree) : Z := sumZ tree_bytes trees.

(** Everything after the staging directory exists. *)
Definition fill_and_publish (staging : positive) (id : SnapshotID) (finalPath : string)
    (children : list ChildArtifact) (total : Z) : io Materialization :=
  write_children (path_join root "staging") staging children ;;
  st_wrap SyncDirectory (λ e, transient "%w: sync staging: %v" [EText e]) ;;
  st_wrap (make_directories) (λ e, transient "%w: create snapshots directory: %v" [EText e]) ;;
  st_wrap (DurableRenameNew staging id) (λ e, transient "%w: publish immutable snapshot: %v" [EText e]) ;;
  mret (MkMaterialization id finalPath total).

Definition Publish (snapshot : CompiledSnapshot) : io Materialization :=
  ctx_Err ;;
  finalPath ← lift (snapshotPath (cs_ID snapshot));
  let children := sort_by (less_by (λ child, [KS (ch_Path child)])) (elems (cs_Children snapshot)) in
  total ← lift (check_children finalPath None 0 children);
  lift (throw_if (bool_decide (length children = 0%nat)) (corrupt "%w: snapshot has no children" [])) ;;
  st_wrap inspect (λ e, transient "%w: inspect immutable destination: %v" [EText e]) ;;
  existing ← gets (λ d, bool_decide (is_Some (dk_snapshots d !! cs_ID snapshot)));
  if (existing : bool) then
    verified ← Preflight (cs_ID snapshot);
    mret (MkMaterialization (cs_ID snapshot) (rs_Location verified) total)
  else
    st_wrap inspect (λ e, transient "%w: inspect staging: %v" [EText e]) ;;
    stagingBytes ← gets (λ d, directoryBytes (map_to_list (dk_staging d)).*2);
    st_wrap inspect (λ e, transient "%w: inspect snapshots: %v" [EText e]) ;;
    storedBytes ← gets (λ d, directoryBytes (map_to_list (dk_snapshots d)).*2);
    lift (throw_if (resourceLimits && ((MaxStagingBytes <? wrap64 (stagingBytes + total))
                                       || (MaxStoredBytes <? wrap64 (storedBytes + total))))
      (Errorf "%w: staging=%d stored=%d candidate=%d"
         [EErr ErrStorageBudget; EInt stagingBytes; EInt storedBytes; EInt total])) ;;
    st_wrap (make_directories) (λ e, transient "%w: create staging: %v" [EText e]) ;;
    staging ← st_wrap MkdirTemp (λ e, transient "%w: create staging candidate: %v" [EText e]);
    with_cleanup (fill_and_publish staging (cs_ID snapshot) finalPath children total) (remove_staging staging).

End store.
