(* ===== verification/Activation.v ===== *)
(** * Activation of catalogs (internal/adapters/catalogstore: activation.go,
    recovery.go, gc.go)

    The coordinator owns the data directory.  A transition of the route table
    writes a journal, then the complete next table, then publishes it in memory
    and removes the journal; a later start finishes or archives what a crash
    left behind.  The state is the runtime in memory and the disk.  The commit
    mutex makes each operation one step; the inter-process lock and the test
    hooks (nil in production) are not modelled.  Go ranges over maps in random
    order; the model takes the order of [map_to_list]. *)

From stdpp Require Import pretty.
From S2P Require Import Prelude GoString GoSha256 GoJson.
From S2P Require Import CatalogIdentity.
From S2P Require Import CatalogModel.
From S2P Require Import CatalogRuntime.
From S2P Require Import CatalogDisk.
From S2P Require Import CatalogStore.

Record ActivationReceipt := MkActivationReceipt {
  ar_Mount : string;
  ar_SnapshotID : SnapshotID;
  ar_PreviousID : SnapshotID;
  ar_Generation : Z;
  ar_Location : string;
}.

Record WithdrawalReceipt := MkWithdrawalReceipt {
  wr_Mount : string;
  wr_State : string;
  wr_SnapshotID : SnapshotID;
  wr_Generation : Z;
}.

Definition ErrActivationPending : error := Errorf "catalogstore: activation recovery pending" [].
Definition ErrActivationIdentity : error := Errorf "catalogstore: activation identity mismatch" [].

Definition maxDurableRouteTableBytes : Z := Z.shiftl 1 20.
Definition maxActivationJournalBytes : Z := Z.shiftl 16 10.
Definition maxDurableMounts : Z := 64.
Definition maxArchivedActivationJournals : Z := 16.

Definition activationOperationWithdraw : string := "withdraw".
Definition activationOperationReauthorize : string := "reauthorize".

(** What an admission callback answers; it does not touch the disk. *)
Definition ActivationAdmission : Type := res unit.

Abbreviation coordinated := (stM (Runtime * Disk)).
Abbreviation on_disk := on_snd (only parsing).
Definition runtime_table : coordinated RouteTable := gets (λ s, Table s.1).

(** ** Encoding *)

Definition durableTombstone (value : MountTombstone) : durableTombstoneV1 :=
  MkDurableTombstoneV1 (tb_State value) (tb_CatalogID value) (tb_SnapshotID value).
Definition runtimeTombstone (value : durableTombstoneV1) : MountTombstone :=
  MkMountTombstone (dt_State value) (dt_CatalogID value) (dt_SnapshotID value).

Definition durable_mount (state : MountState) : durableMountV1 :=
  MkDurableMountV1 (catalog_of (ms_Active state)) (rs_ID (ms_Active state)) (previous_id state).

Definition persisted_table (table : RouteTable) : durableRouteTableV1 :=
  MkDurableRouteTableV1 1 (tbl_Generation table) (Some (durable_mount <$> tbl_Mounts table))
    (durableTombstone <$> tbl_Tombstones table).

Definition table_too_large (size : Z) : error :=
  Errorf "%w: route table is %d bytes, maximum is %d" [EErr ErrStorageBudget; EInt size; EInt maxDurableRouteTableBytes].

(** The table to be written, when its text fits. *)
Definition encodeRouteTableWithResourceLimits (table : RouteTable) (resourceLimits : bool) : res durableRouteTableV1 :=
  throw_if (resourceLimits
            && (maxDurableMounts <? Z.of_nat (size (tbl_Mounts table)) + Z.of_nat (size (tbl_Tombstones table))))
    (Errorf "%w: route mounts exceed %d" [EErr ErrStorageBudget; EInt maxDurableMounts]) ;;
  let persisted := persisted_table table in
  let size := data_len (Marshal persisted) in
  throw_if (resourceLimits && (maxDurableRouteTableBytes <? size)) (table_too_large size) ;;
  mret persisted.

Definition encodeActivationJournal (journal : activationJournalV1) : res activationJournalV1 :=
  let size := data_len (Marshal journal) in
  throw_if (maxActivationJournalBytes <? size)
    (Errorf "%w: activation journal is %d bytes, maximum is %d"
       [EErr ErrStorageBudget; EInt size; EInt maxActivationJournalBytes]) ;;
  mret journal.
Definition validateActivationJournalSize (journal : activationJournalV1) : res unit :=
  encodeActivationJournal journal ;; mret tt.

(** ** Validation of what is read back *)

Definition validActivationMount (value : string) : bool :=
  if bool_decide (value = "/") then true
  else if bool_decide (value = "") || negb (HasPrefix value "/") || HasSuffix value "/"
          || ContainsAny value "\\?#" || negb (bool_decide (path_clean value = value)) then false
  else forallb (λ character, negb (is_control character)) (runes value).

Definition validateDurableTombstone (tombstone : durableTombstoneV1) : res unit :=
  throw_if (negb (bool_decide (dt_State tombstone = TombstoneWithdrawn))
            && negb (bool_decide (dt_State tombstone = TombstoneDeleted)))
    (Errorf "state %q is invalid" [EStr (dt_State tombstone)]) ;;
  throw_if (negb (validSnapshotID (dt_SnapshotID tombstone)))
    (Errorf "snapshot %q is invalid" [EStr (dt_SnapshotID tombstone)]) ;;
  wrap_err (ValidateCatalogID (dt_CatalogID tombstone)) (λ e, Errorf "catalog identity: %w" [EErr e]).

Definition validate_optional_catalog (catalogID : string) : res unit :=
  if bool_decide (catalogID = "") then mret tt
  else wrap_err (ValidateCatalogID catalogID) (λ e, Errorf "catalog identity: %w" [EErr e]).

Definition validate_durable_mount (protectedMount mount : string) (entry : durableMountV1) : res unit :=
  throw_if (negb (validActivationMount mount)) (Errorf "mount %q is invalid" [EStr mount]) ;;
  if bool_decide (mount = protectedMount) then mret tt
  else
    throw_if (negb (validSnapshotID (dm_Active entry)))
      (Errorf "active snapshot %q is invalid" [EStr (dm_Active entry)]) ;;
    (if bool_decide (dm_Previous entry = "") then mret tt
     else
       throw_if (negb (validSnapshotID (dm_Previous entry)))
         (Errorf "previous snapshot %q is invalid" [EStr (dm_Previous entry)]) ;;
       throw_if (bool_decide (dm_Previous entry = dm_Active entry))
         (Errorf "active and previous snapshots are identical" [])) ;;
    validate_optional_catalog (dm_CatalogID entry).

Definition validateDurableRouteTableExceptWithResourceLimits (table : durableRouteTableV1) (protectedMount : string)
    (resourceLimits : bool) : res unit :=
  match drt_Mounts table with
  | None => Fail (Errorf "mounts are missing" [])
  | Some mounts =>
      throw_if (resourceLimits
                && (maxDurableMounts <? Z.of_nat (size mounts) + Z.of_nat (size (drt_Tombstones table))))
        (Errorf "mounts exceed %d" [EInt maxDurableMounts]) ;;
      for_map (validate_durable_mount protectedMount) mounts ;;
      for_map (λ mount tombstone,
        throw_if (negb (validActivationMount mount)) (Errorf "tombstone mount %q is invalid" [EStr mount]) ;;
        if bool_decide (mount = protectedMount) then mret tt
        else wrap_err (validateDurableTombstone tombstone)
               (λ e, Errorf "tombstone %q: %w" [EStr mount; EErr e])) (drt_Tombstones table)
  end.

Definition journalOperation (journal : activationJournalV1) : string :=
  if bool_decide (aj_Operation journal = "") then "activate" else aj_Operation journal.

Definition validateActivationJournal (journal : activationJournalV1) : res unit :=
  throw_if (negb (validActivationMount (aj_Mount journal)))
    (Errorf "mount %q is invalid" [EStr (aj_Mount journal)]) ;;
  let operation := journalOperation journal in
  throw_if (negb (bool_decide (operation = "activate"))
            && negb (bool_decide (operation = activationOperationWithdraw))
            && negb (bool_decide (operation = activationOperationReauthorize)))
    (Errorf "operation %q is invalid" [EStr operation]) ;;
  throw_if (negb (bool_decide (operation = activationOperationWithdraw)) && negb (validSnapshotID (aj_Candidate journal)))
    (Errorf "candidate snapshot %q is invalid" [EStr (aj_Candidate journal)]) ;;
  throw_if (negb (bool_decide (aj_ExpectedOld journal = "")) && negb (validSnapshotID (aj_ExpectedOld journal)))
    (Errorf "expected old snapshot %q is invalid" [EStr (aj_ExpectedOld journal)]) ;;
  validate_optional_catalog (aj_CatalogID journal) ;;
  if bool_decide (operation = activationOperationWithdraw) then
    match aj_Tombstone journal with
    | None => Fail (Errorf "withdrawal tombstone is missing" [])
    | Some tombstone =>
        validateDurableTombstone tombstone ;;
        throw_if (negb (bool_decide (aj_CatalogID journal = dt_CatalogID tombstone)))
          (Errorf "withdrawal catalog identity does not match tombstone" []) ;;
        throw_if (negb (bool_decide (aj_ExpectedOld journal = dt_SnapshotID tombstone)))
          (Errorf "withdrawal expected snapshot does not match tombstone" []) ;;
        throw_if (negb (bool_decide (aj_Candidate journal = "")))
          (Errorf "withdrawal candidate must be empty" [])
    end
  else if bool_decide (operation = activationOperationReauthorize) then
    throw_if (bool_decide (is_Some (aj_Tombstone journal)))
      (Errorf "reauthorization journal must not carry tombstone" []) ;;
    throw_if (bool_decide (aj_ExpectedOld journal = ""))
      (Errorf "reauthorization expected snapshot is missing" []) ;;
    throw_if (bool_decide (aj_Candidate journal = aj_ExpectedOld journal))
      (Errorf "reauthorization candidate reuses expected snapshot" [])
  else
    throw_if (bool_decide (is_Some (aj_Tombstone journal)))
      (Errorf "activation journal must not carry tombstone" []).

(** ** Durable state files *)

(** [readDurableState]: nothing when the file does not exist. *)
Definition readDurableState {A} `{DurableRecord A} (file : Disk → option A) (limit : Z) : io (option A) :=
  inspect ;;
  content ← gets file;
  match content with
  | None => mret None
  | Some x =>
      inspect ;;
      lift (throw_if ((0 <? limit) && (limit <? data_len (Marshal x)))
        (Errorf "state exceeds %d bytes" [EInt limit])) ;;
      mret (Some x)
  end.

Definition writeJournal (journal : activationJournalV1) : io unit :=
  data ← lift (encodeActivationJournal journal);
  st_wrap (DurableAtomicWrite "activation-journal.json" (put_journal (Some data)))
    (λ e, Errorf "catalogstore: persist activation journal: %w" [EErr e]).

Definition removeJournal : io unit :=
  journal ← gets dk_journal;
  st_wrap (attempt (put_journal None)) (λ e, Errorf "catalogstore: remove activation journal: %w" [EErr e]) ;;
  match journal with
  | None => mret tt
  | Some _ => st_wrap SyncDirectory (λ e, Errorf "catalogstore: confirm journal removal: %w" [EErr e])
  end.

Definition rejectPendingJournal : io unit :=
  st_wrap inspect (λ e, Errorf "catalogstore: inspect activation journal: %w" [EErr e]) ;;
  journal ← gets dk_journal;
  lift (throw_if (bool_decide (is_Some journal)) ErrActivationPending).

Fixpoint remove_archived (names : list string) : io unit :=
  match names with
  | [] => mret tt
  | name :: names => attempt (upd_archive (delete name)) ;; remove_archived names
  end.

Definition trimArchivedJournals : io unit :=
  inspect ;;
  files ← gets (λ d, sort_strings (map_to_list (dk_archive d)).*1);
  let count := Z.of_nat (length files) in
  if count <=? maxArchivedActivationJournals then mret tt
  else
    remove_archived (take (Z.to_nat (count - maxArchivedActivationJournals)) files) ;;
    SyncDirectory.

(** [now] is [time.Now().UTC().UnixNano()]. *)
Definition archive_name (now : Z) (data : list Z) : string :=
  pretty now +:+ "-" +:+ hex_encode (take 8 (sha256 data)) +:+ ".json".

Definition archiveJournal (now : Z) (journal : activationJournalV1) : io unit :=
  make_directories ;;
  let name := archive_name now (Marshal journal) in
  DurableAtomicWrite name (upd_archive <[name := journal]>) ;;
  trimArchivedJournals ;;
  removeJournal.

Section coordinator.
Context `{SnapshotCodec} (root : string) (resourceLimits : bool).

Definition encodeRouteTable (table : RouteTable) : res durableRouteTableV1 :=
  encodeRouteTableWithResourceLimits table resourceLimits.

Definition writeRouteTableBytes (persisted : durableRouteTableV1) : io unit :=
  let size := data_len (Marshal persisted) in
  lift (throw_if (resourceLimits && (maxDurableRouteTableBytes <? size)) (table_too_large size)) ;;
  st_wrap (DurableAtomicWrite "routes.json" (put_routes persisted))
    (λ e, Errorf "catalogstore: persist route table: %w" [EErr e]).

Definition writeRouteTable (table : RouteTable) : io unit :=
  persisted ← lift (encodeRouteTable table);
  writeRouteTableBytes persisted.

(** ** Bounds checked before anything is published *)

(** The part of a candidate that a durable table shows. *)
Definition bounds_snapshot (candidate : CompiledSnapshot) : RuntimeSnapshot :=
  MkRuntimeSnapshot (cs_ID candidate) "" (catalog_artifact 0 (ca_CatalogID (cs_Directory candidate)))
    (search_directory 0) zero_manifest.

Definition validateActivationBounds (runtime : Runtime) (mount : string) (expectedOld : SnapshotID)
    (generation : Z) (candidate : CompiledSnapshot) : res unit :=
  CheckMount runtime mount expectedOld generation ;;
  if bool_decide (cs_ID candidate = expectedOld) then mret tt
  else
    let current := Table runtime in
    let next := MkMountState (bounds_snapshot candidate) (ms_Active <$> tbl_Mounts current !! mount) in
    encodeRouteTable (with_mounts <[mount := next]> current) ;;
    mret tt.

Definition validateWithdrawalBounds (runtime : Runtime) (mount : string) (expectedActive : SnapshotID)
    (generation : Z) (tombstone : MountTombstone) : res unit :=
  CheckMount runtime mount expectedActive generation ;;
  encodeRouteTable (with_tombstones <[mount := tombstone]> (with_mounts (delete mount) (Table runtime))) ;;
  mret tt.

Definition not_tombstoned (mount : string) : error :=
  Errorf "%w: mount %q is not tombstoned" [EErr ErrMountUnavailable; EStr mount].

Definition validateReauthorizationBounds (runtime : Runtime) (mount : string) (generation : Z)
    (candidate : CompiledSnapshot) : res unit :=
  let current := Table runtime in
  check_generation current generation ;;
  throw_if (bool_decide (tbl_Tombstones current !! mount = None)) (not_tombstoned mount) ;;
  encodeRouteTable (with_mounts <[mount := MkMountState (bounds_snapshot candidate) None]>
    (with_tombstones (delete mount) current)) ;;
  mret tt.

(** ** Garbage collection *)

Definition retained_snapshots (table : RouteTable) : gset SnapshotID :=
  list_to_set ((map_to_list (tbl_Mounts table)) ≫= λ kv,
    rs_ID (ms_Active kv.2) :: option_list (rs_ID <$> ms_Previous kv.2)).

Fixpoint collect_entries (retained : SnapshotID → bool) (entries : list string) (changed : bool) : io bool :=
  match entries with
  | [] => mret changed
  | id :: entries =>
      ctx_Err ;;
      if retained id then collect_entries retained entries changed
      else
        st_wrap (attempt (upd_snapshots (delete id)))
          (λ e, Errorf "catalogstore: remove unreferenced snapshot %q: %w" [EStr id; EErr e]) ;;
        collect_entries retained entries true
  end.

Definition garbageCollectLocked : coordinated unit :=
  runtime ← gets fst;
  let keep := retained_snapshots (Table runtime) in
  on_disk (
    st_wrap inspect (λ e, Errorf "catalogstore: inspect snapshots for garbage collection: %w" [EErr e]) ;;
    entries ← gets (λ d, sort_strings (map_to_list (dk_snapshots d)).*1);
    changed ← collect_entries
      (λ id, bool_decide (id ∈ keep) || negb (ReferenceCount runtime id =? 0)) entries false;
    if (changed : bool) then
      st_wrap SyncDirectory (λ e, Errorf "catalogstore: confirm garbage collection: %w" [EErr e])
    else mret tt).

Definition GarbageCollect : coordinated unit := garbageCollectLocked.

(** ** Transitions *)

(** [store.Publish], retried once after a collection when the budget is spent. *)
Definition publish_or_collect (candidate : CompiledSnapshot) : coordinated Materialization := λ s,
  match on_disk (Publish root resourceLimits candidate) s with
  | (s, Ok materialization) => (s, Ok materialization)
  | (s, Fail e) =>
      if Is "catalogstore: storage budget exceeded" e then
        (garbageCollectLocked ;; on_disk (Publish root resourceLimits candidate)) s
      else (s, Fail e)
  end.

(** The [persist] callback of [Withdraw] and [Reauthorize]. *)
Definition persist_transition (journal : activationJournalV1) (table : RouteTable) : io unit :=
  ctx_Err ;;
  data ← lift (encodeRouteTable table);
  writeJournal journal ;;
  ctx_Err ;;
  writeRouteTableBytes data.

(** The [persist] callback of [ActivateAdmitted]. *)
Definition persist_activation (journal : activationJournalV1) (admitted : option ActivationAdmission)
    (table : RouteTable) : io unit :=
  ctx_Err ;;
  data ← lift (encodeRouteTable table);
  lift (default (mret tt) admitted) ;;
  ctx_Err ;;
  writeJournal journal ;;
  ctx_Err ;;
  writeRouteTableBytes data.

Definition catalog_changed (mount before after : string) : error :=
  Errorf "%w: mount %q catalog changed from %q to %q" [EErr ErrActivationIdentity; EStr mount; EStr before; EStr after].

Definition Withdraw (mount : string) (expectedActive : SnapshotID) (generation : Z) (state : string)
    : coordinated WithdrawalReceipt :=
  on_disk ctx_Err ;;
  on_disk rejectPendingJournal ;;
  current ← runtime_table;
  match tbl_Mounts current !! mount with
  | None => lift (Fail (inactive_mount mount))
  | Some active =>
      let tombstone := MkMountTombstone state (catalog_of (ms_Active active)) (rs_ID (ms_Active active)) in
      let journal := MkActivationJournalV1 1 mount (tb_CatalogID tombstone) "" expectedActive generation
        activationOperationWithdraw (Some (durableTombstone tombstone)) in
      lift (validateActivationJournalSize journal) ;;
      runtime ← gets fst;
      lift (validateWithdrawalBounds runtime mount expectedActive generation tombstone) ;;
      WithdrawMountDurably mount expectedActive generation tombstone (Some (persist_transition journal)) ;;
      on_disk removeJournal ;;
      mret (MkWithdrawalReceipt mount state (tb_SnapshotID tombstone) generation)
  end.

Definition reauthorization_journal (mount catalogID : string) (candidate expectedOld : SnapshotID) (generation : Z)
    : activationJournalV1 :=
  MkActivationJournalV1 1 mount catalogID candidate expectedOld generation activationOperationReauthorize None.

Definition Reauthorize (mount : string) (generation : Z) (candidate : CompiledSnapshot)
    : coordinated ActivationReceipt :=
  on_disk ctx_Err ;;
  on_disk rejectPendingJournal ;;
  current ← runtime_table;
  match tbl_Tombstones current !! mount with
  | None => lift (Fail (not_tombstoned mount))
  | Some tombstone =>
      let catalogID := ca_CatalogID (cs_Directory candidate) in
      lift (throw_if (negb (bool_decide (catalogID = "")) && negb (bool_decide (tb_CatalogID tombstone = catalogID)))
        (catalog_changed mount (tb_CatalogID tombstone) catalogID)) ;;
      lift (validateActivationJournalSize
        (reauthorization_journal mount catalogID (cs_ID candidate) (tb_SnapshotID tombstone) generation)) ;;
      runtime ← gets fst;
      lift (validateReauthorizationBounds runtime mount generation candidate) ;;
      materialization ← publish_or_collect candidate;
      verified ← on_disk (Preflight root resourceLimits (cs_ID candidate));
      on_disk ctx_Err ;;
      current ← runtime_table;
      match tbl_Tombstones current !! mount with
      | None => lift (Fail (not_tombstoned mount))
      | Some tombstone =>
          lift (throw_if (negb (bool_decide (tb_CatalogID tombstone = catalog_of verified)))
            (catalog_changed mount (tb_CatalogID tombstone) (catalog_of verified))) ;;
          let journal := reauthorization_journal mount (catalog_of verified) (cs_ID candidate)
            (tb_SnapshotID tombstone) generation in
          ReauthorizeMountDurably mount generation verified (Some (persist_transition journal)) ;;
          on_disk removeJournal ;;
          mret (MkActivationReceipt mount (cs_ID candidate) "" generation (mat_Location materialization))
      end
  end.

Definition activation_journal (mount catalogID : string) (candidate expectedOld : SnapshotID) (generation : Z)
    : activationJournalV1 :=
  MkActivationJournalV1 1 mount catalogID candidate expectedOld generation "" None.

Definition ActivateAdmitted (mount : string) (expectedOld : SnapshotID) (generation : Z)
    (candidate : CompiledSnapshot) (quiesce admitted : option ActivationAdmission) : coordinated ActivationReceipt :=
  on_disk ctx_Err ;;
  on_disk rejectPendingJournal ;;
  lift (validateActivationJournalSize
    (activation_journal mount (ca_CatalogID (cs_Directory candidate)) (cs_ID candidate) expectedOld generation)) ;;
  runtime ← gets fst;
  lift (validateActivationBounds runtime mount expectedOld generation candidate) ;;
  materialization ← publish_or_collect candidate;
  verified ← on_disk (Preflight root resourceLimits (cs_ID candidate));
  on_disk ctx_Err ;;
  runtime ← gets fst;
  lift (CheckMount runtime mount expectedOld generation) ;;
  lift (match tbl_Mounts (Table runtime) !! mount with
        | Some state =>
            throw_if (negb (bool_decide (catalog_of (ms_Active state) = catalog_of verified)))
              (catalog_changed mount (catalog_of (ms_Active state)) (catalog_of verified))
        | None => mret tt
        end) ;;
  lift (default (mret tt) quiesce) ;;
  lift (if bool_decide (cs_ID candidate = expectedOld) then default (mret tt) admitted else mret tt) ;;
  let journal := activation_journal mount (catalog_of verified) (cs_ID candidate) expectedOld generation in
  activation ← ActivateMountDurablyBounded mount expectedOld generation verified
    (Some (persist_activation journal admitted));
  on_disk removeJournal ;;
  mret (MkActivationReceipt mount (cs_ID candidate) (ma_PreviousID activation) (ma_Generation activation)
    (mat_Location materialization)).

Definition Activate (mount : string) (expectedOld : SnapshotID) (generation : Z) (candidate : CompiledSnapshot)
    : coordinated ActivationReceipt :=
  ActivateAdmitted mount expectedOld generation candidate None None.

(** ** Quarantine and corruption *)

(** [os.Rename] refuses to replace a directory, unless the source is missing. *)
Definition rename_to_quarantine (id : string) : io bool :=
  source ← gets (λ d, dk_snapshots d !! id);
  destination ← gets (λ d, dk_quarantine d !! id);
  match source with
  | None => inspect ;; mret false
  | Some files =>
      match destination with
      | None => attempt (λ d, upd_quarantine <[id := files]> (upd_snapshots (delete id) d)) ;; mret true
      | Some _ => inspect ;; lift (Fail (Errorf "file exists" []))
      end
  end.

Definition quarantine (id : SnapshotID) : io unit :=
  lift (snapshotPath root id) ;;
  st_wrap make_directories (λ e, Errorf "catalogstore: create quarantine: %w" [EErr e]) ;;
  moved ← st_wrap (rename_to_quarantine id)
    (λ e, Errorf "catalogstore: quarantine %q: %w" [EStr id; EErr e]);
  if (moved : bool) then
    let confirm := st_wrap SyncDirectory (λ e, Errorf "catalogstore: confirm quarantine %q: %w" [EStr id; EErr e]) in
    confirm ;; confirm
  else mret tt.

Definition is_corrupt (e : error) : bool := Is "catalogstore: corrupt snapshot" e.

(** [if _, err := m; errors.Is(err, ErrCorruptSnapshot) { ... }]: a transient
    error stops, a corrupt snapshot is an answer. *)
Definition verdict {A} (m : io A) (failed : error → error) : io (option A) := λ d,
  match m d with
  | (d, Ok a) => (d, Ok (Some a))
  | (d, Fail e) => if is_corrupt e then (d, Ok None) else (d, Fail (failed e))
  end.

Definition HandleCorruption (mount : string) (snapshotID : SnapshotID) : coordinated unit :=
  on_disk ctx_Err ;;
  table ← runtime_table;
  let stale := Errorf "%w: mount %q no longer serves %q" [EErr ErrStaleSnapshot; EStr mount; EStr snapshotID] in
  match tbl_Mounts table !! mount with
  | None => lift (Fail stale)
  | Some state =>
      lift (throw_if (negb (bool_decide (rs_ID (ms_Active state) = snapshotID))) stale) ;;
      on_disk rejectPendingJournal ;;
      match ms_Previous state with
      | Some previous =>
          verified ← on_disk (verdict (Preflight root resourceLimits (rs_ID previous)) (λ e, e));
          match verified with
          | None =>
              DisableMountDurably mount snapshotID (tbl_Generation table) (Some writeRouteTable) ;;
              on_disk (quarantine (rs_ID previous))
          | Some _ =>
              FallbackMountDurably mount snapshotID (tbl_Generation table) (Some writeRouteTable) ;;
              mret tt
          end
      | None =>
          DisableMountDurably mount snapshotID (tbl_Generation table) (Some writeRouteTable) ;;
          mret tt
      end ;;
      on_disk (quarantine snapshotID)
  end.

(** ** Recovery *)

Fixpoint remove_staged (names : list positive) : io unit :=
  match names with
  | [] => mret tt
  | name :: names =>
      st_wrap (remove_staging name) (λ e, Errorf "catalogstore: remove incomplete staging: %w" [EErr e]) ;;
      remove_staged names
  end.

Definition removeIncompleteStaging : io unit :=
  st_wrap inspect (λ e, Errorf "catalogstore: inspect staging: %w" [EErr e]) ;;
  names ← gets (λ d, (map_to_list (dk_staging d)).*1);
  remove_staged names.

(** [Preflight] of a snapshot that the table binds to a catalog. *)
Definition preflight_bound (id : SnapshotID) (catalogID : string) : io RuntimeSnapshot :=
  snapshot ← Preflight root resourceLimits id;
  lift (throw_if (negb (bool_decide (catalogID = "")) && negb (bool_decide (catalog_of snapshot = catalogID)))
    (corrupt "%w: active catalog %q differs from route catalog %q"
       [EStr (catalog_of snapshot); EStr catalogID])) ;;
  mret snapshot.

(** One mount of the loop of [restoreDurableRoutes]: its state, if it keeps
    one, and whether the table was repaired. *)
Definition restore_mount (mount : string) (entry : durableMountV1) : io (option MountState * bool) :=
  active ← verdict (preflight_bound (dm_Active entry) (dm_CatalogID entry))
    (λ e, Errorf "catalogstore: preflight active mount %q: %w" [EStr mount; EErr e]);
  match active with
  | None =>
      quarantine (dm_Active entry) ;;
      if bool_decide (dm_Previous entry = "") then mret (None, true)
      else
        previous ← verdict (Preflight root resourceLimits (dm_Previous entry))
          (λ e, Errorf "catalogstore: preflight fallback mount %q: %w" [EStr mount; EErr e]);
        match previous with
        | None => quarantine (dm_Previous entry) ;; mret (None, true)
        | Some previous =>
            if bool_decide (dm_CatalogID entry = "") then mret (None, true)
            else if negb (bool_decide (catalog_of previous = dm_CatalogID entry)) then
              quarantine (dm_Previous entry) ;; mret (None, true)
            else mret (Some (MkMountState previous None), true)
        end
  | Some active =>
      if bool_decide (dm_Previous entry = "") then mret (Some (MkMountState active None), false)
      else
        previous ← verdict (Preflight root resourceLimits (dm_Previous entry))
          (λ e, Errorf "catalogstore: preflight previous mount %q: %w" [EStr mount; EErr e]);
        match previous with
        | None => quarantine (dm_Previous entry) ;; mret (Some (MkMountState active None), true)
        | Some previous =>
            if (negb (bool_decide (dm_CatalogID entry = ""))
                && negb (bool_decide (catalog_of previous = dm_CatalogID entry)))
               || negb (bool_decide (catalog_of previous = catalog_of active))
            then quarantine (dm_Previous entry) ;; mret (Some (MkMountState active None), true)
            else mret (Some (MkMountState active (Some previous)), false)
        end
  end.

Fixpoint restore_mounts (protectedMount : string) (entries : list (string * durableMountV1))
    (table : RouteTable) (repaired : bool) : io (RouteTable * bool) :=
  match entries with
  | [] => mret (table, repaired)
  | (mount, entry) :: entries =>
      if bool_decide (mount = protectedMount) then restore_mounts protectedMount entries table repaired
      else
        lift (throw_if (bool_decide (is_Some (tbl_Tombstones table !! mount)))
          (corrupt "%w: mount %q has active snapshot and tombstone" [EStr mount])) ;;
        '(state, changed) ← restore_mount mount entry;
        restore_mounts protectedMount entries
          (match state with
           | Some state => with_mounts <[mount := state]> table
           | None => table
           end) (repaired || changed)
  end.

Definition restore_runtime (table : RouteTable) : coordinated unit :=
  st_wrap (RestoreTable (Some table)) (λ e, corrupt "%w: restore runtime routes: %v" [EText e]).

(** The tombstone of a withdrawal journal, already validated. *)
Definition journal_tombstone (journal : activationJournalV1) : MountTombstone :=
  runtimeTombstone (default (MkDurableTombstoneV1 "" "" "") (aj_Tombstone journal)).

(** The tables of [routes.json], with the tombstone of an unfinished withdrawal
    put in place. *)
Definition restored_tombstones (persisted : durableRouteTableV1) (protected : option activationJournalV1)
    (protectedMount : string) : gmap string MountTombstone :=
  let read := delete protectedMount (runtimeTombstone <$> drt_Tombstones persisted) in
  match protected with
  | Some journal =>
      if bool_decide (protectedMount = "") then read else <[protectedMount := journal_tombstone journal]> read
  | None => read
  end.

Definition protected_mount (persisted : durableRouteTableV1) (protected : option activationJournalV1) : string :=
  match protected with
  | Some journal => if drt_Generation persisted =? aj_Generation journal then aj_Mount journal else ""
  | None => ""
  end.

Definition restoreDurableRoutes (protectedWithdrawal : option activationJournalV1) : coordinated unit :=
  data ← on_disk (st_wrap
    (readDurableState dk_routes (if resourceLimits then maxDurableRouteTableBytes else 0))
    (λ e, corrupt "%w: read durable routes: %v" [EText e]));
  match data with
  | None =>
      match protectedWithdrawal with
      | None => mret tt
      | Some journal =>
          let table := MkRouteTable (aj_Generation journal) ∅ {[aj_Mount journal := journal_tombstone journal]} in
          on_disk (st_wrap (writeRouteTable table)
            (λ e, Errorf "catalogstore: persist withdrawal recovery: %w" [EErr e])) ;;
          restore_runtime table
      end
  | Some data =>
      persisted ← lift (wrap_err (decodeStrict data) (λ e, corrupt "%w: invalid durable routes: %v" [EText e]));
      lift (throw_if (negb (drt_SchemaVersion persisted =? 1)) (corrupt "%w: invalid durable routes: %v" [])) ;;
      let protectedMount := protected_mount persisted protectedWithdrawal in
      lift (wrap_err (validateDurableRouteTableExceptWithResourceLimits persisted protectedMount resourceLimits)
        (λ e, corrupt "%w: invalid durable routes: %v" [EText e])) ;;
      let tombstones := restored_tombstones persisted protectedWithdrawal protectedMount in
      '(table, repaired) ← on_disk (restore_mounts protectedMount
        (map_to_list (default ∅ (drt_Mounts persisted)))
        (MkRouteTable (drt_Generation persisted) ∅ tombstones) (negb (bool_decide (protectedMount = ""))));
      (if (repaired : bool) then
         on_disk (st_wrap (writeRouteTable table)
           (λ e, Errorf "catalogstore: persist recovered fallback routes: %w" [EErr e]))
       else mret tt) ;;
      restore_runtime table
  end.

(** Has the journaled transition already reached the table? *)
Definition journal_completed (journal : activationJournalV1) (table : RouteTable) : res bool :=
  let catalog_matches (state : MountState) :=
    throw_if (negb (bool_decide (aj_CatalogID journal = ""))
              && negb (bool_decide (catalog_of (ms_Active state) = aj_CatalogID journal)))
      (corrupt "%w: activation journal catalog %q differs from active catalog %q"
         [EStr (aj_CatalogID journal); EStr (catalog_of (ms_Active state))]) in
  let mounted := tbl_Mounts table !! aj_Mount journal in
  let tombstoned := tbl_Tombstones table !! aj_Mount journal in
  if bool_decide (journalOperation journal = activationOperationWithdraw) then
    match aj_Tombstone journal with
    | None => Fail (corrupt "%w: withdrawal journal has no tombstone" [])
    | Some tombstone =>
        mret (bool_decide (mounted = None) && bool_decide (tombstoned = Some (runtimeTombstone tombstone)))
    end
  else
    match mounted with
    | None => mret false
    | Some state =>
        if negb (bool_decide (rs_ID (ms_Active state) = aj_Candidate journal)) then mret false
        else if bool_decide (journalOperation journal = activationOperationReauthorize) then
          if bool_decide (is_Some (ms_Previous state)) then mret false
          else
            throw_if (bool_decide (is_Some tombstoned))
              (corrupt "%w: completed reauthorization still has tombstone" []) ;;
            catalog_matches state ;;
            mret true
        else catalog_matches state ;; mret true
    end.

(** The snapshot the journal's [ExpectedOld] is compared with. *)
Definition journal_current (journal : activationJournalV1) (table : RouteTable) : SnapshotID :=
  if bool_decide (journalOperation journal = activationOperationReauthorize) then
    from_option tb_SnapshotID "" (tbl_Tombstones table !! aj_Mount journal)
  else from_option (λ state, rs_ID (ms_Active state)) "" (tbl_Mounts table !! aj_Mount journal).

(** The candidate of a journal, verified again. *)
Definition journal_candidate (journal : activationJournalV1) : io RuntimeSnapshot :=
  verified ← Preflight root resourceLimits (aj_Candidate journal);
  lift (throw_if (negb (bool_decide (aj_CatalogID journal = ""))
                  && negb (bool_decide (catalog_of verified = aj_CatalogID journal)))
    (corrupt "%w: activation candidate catalog %q differs from journal catalog %q"
       [EStr (catalog_of verified); EStr (aj_CatalogID journal)])) ;;
  mret verified.

Definition replay_journal (journal : activationJournalV1) (table : RouteTable) : coordinated unit :=
  if bool_decide (journalOperation journal = activationOperationWithdraw) then
    st_wrap (WithdrawMountDurably (aj_Mount journal) (aj_ExpectedOld journal) (aj_Generation journal)
        (journal_tombstone journal) (Some writeRouteTable))
      (λ e, Errorf "catalogstore: recover withdrawal: %w" [EErr e]) ;;
    mret tt
  else if bool_decide (journalOperation journal = activationOperationReauthorize) then
    verified ← on_disk (journal_candidate journal);
    st_wrap (ReauthorizeMountDurably (aj_Mount journal) (aj_Generation journal) verified (Some writeRouteTable))
      (λ e, Errorf "catalogstore: recover reauthorization: %w" [EErr e]) ;;
    mret tt
  else
    verified ← on_disk (journal_candidate journal);
    lift (match tbl_Mounts table !! aj_Mount journal with
          | Some state =>
              throw_if (bool_decide (rs_ID (ms_Active state) = aj_ExpectedOld journal)
                        && negb (bool_decide (catalog_of (ms_Active state) = catalog_of verified)))
                (corrupt "%w: activation candidate catalog %q differs from active catalog %q"
                   [EStr (catalog_of verified); EStr (catalog_of (ms_Active state))])
          | None => mret tt
          end) ;;
    st_wrap (ActivateMountDurablyBounded (aj_Mount journal) (aj_ExpectedOld journal) (aj_Generation journal)
        verified (Some writeRouteTable))
      (λ e, Errorf "catalogstore: recover activation: %w" [EErr e]) ;;
    mret tt.

Definition recoverJournal (now : Z) (journalBytes journal : activationJournalV1) : coordinated unit :=
  table ← runtime_table;
  completed ← lift (journal_completed journal table);
  if (completed : bool) then on_disk removeJournal
  else if negb (tbl_Generation table =? aj_Generation journal)
          || negb (bool_decide (journal_current journal table = aj_ExpectedOld journal)) then
    on_disk (st_wrap (archiveJournal now journalBytes)
      (λ e, Errorf "catalogstore: archive stale journal: %w" [EErr e]))
  else
    replay_journal journal table ;;
    on_disk removeJournal.

Definition recover (now : Z) : coordinated unit :=
  on_disk removeIncompleteStaging ;;
  content ← on_disk (st_wrap (readDurableState dk_journal maxActivationJournalBytes)
    (λ e, corrupt "%w: read activation journal: %v" [EText e]));
  match content with
  | None => restoreDurableRoutes None
  | Some journalBytes =>
      journal ← lift (wrap_err (decodeStrict journalBytes)
        (λ e, corrupt "%w: invalid activation journal: %v" [EText e]));
      lift (throw_if (negb (aj_SchemaVersion journal =? 1)) (corrupt "%w: invalid activation journal: %v" [])) ;;
      lift (wrap_err (validateActivationJournal journal)
        (λ e, corrupt "%w: invalid activation journal: %v" [EText e])) ;;
      restoreDurableRoutes
        (if bool_decide (journalOperation journal = activationOperationWithdraw) then Some journal else None) ;;
      recoverJournal now journalBytes journal
  end.

(** With a runtime that is not nil and the lock acquired. *)
Definition OpenActivationCoordinatorWithResourceLimits (now : Z) : coordinated unit :=
  recover now ;;
  GarbageCollect.

End coordinator.
