(* ===== verification/CatalogSafety.v ===== *)
(** * What the activation coordinator guarantees

    Runs of a catalog server: operations of the coordinator with any file
    failures, admissions, damaged snapshots, crashes and restarts. *)

From S2P Require Import Prelude GoString GoJson.
From S2P Require Import CatalogIdentity.
From S2P Require Import CatalogModel.
From S2P Require Import CatalogRuntime.
From S2P Require Import CatalogDisk.
From S2P Require Import CatalogStore.
From S2P Require Import Activation.

(** ** Operations that leave the state directory alone *)

Definition same_state (d d' : Disk) : Prop := dk_routes d' = dk_routes d ∧ dk_journal d' = dk_journal d.

#[export] Instance same_state_preorder : PreOrder same_state.
Proof. split; [done|]. intros d1 d2 d3 [H1 H2] [H3 H4]. split; congruence. Qed.

(** An operation on the disk that does not touch routes.json or the journal. *)
Abbreviation stateless := (keeps same_state).

Create HintDb disk.

Lemma stateless_examine e : stateless (examine e).
Proof. intros d. unfold examine, next_fate, mbind, stM_bind. by destruct (hd Done (dk_fates d)). Qed.
Lemma stateless_attempt f : (∀ d, same_state d (f d)) → stateless (attempt f).
Proof.
  intros Hf d. unfold attempt, next_fate, mbind, stM_bind, modify.
  destruct (hd Done (dk_fates d)); simpl; [..|]; try done; by (etrans; [|apply Hf]).
Qed.
Lemma stateless_write path f : (∀ d, same_state d (f d)) → stateless (DurableAtomicWrite path f).
Proof.
  intros Hf d. unfold DurableAtomicWrite, next_fate, mbind, stM_bind, modify.
  destruct (hd Done (dk_fates d)); simpl; [..|]; try done; by (etrans; [|apply Hf]).
Qed.
#[export] Hint Resolve stateless_examine : disk.
#[export] Hint Extern 2 (keeps same_state (attempt _)) => (apply stateless_attempt; done) : disk.
#[export] Hint Extern 2 (keeps same_state (DurableAtomicWrite _ _)) => (apply stateless_write; done) : disk.
#[export] Hint Extern 2 (keeps same_state (inspect)) => (apply stateless_examine) : disk.
#[export] Hint Extern 2 (keeps same_state (ctx_Err)) => (apply stateless_examine) : disk.
#[export] Hint Extern 2 (keeps same_state (SyncDirectory)) => (apply stateless_examine) : disk.
#[export] Hint Extern 2 (keeps same_state (snapshot_files _)) => (apply (keeps_gets _)) : disk.

Ltac stateless_tac := keeps_tac; auto with disk.

Section stateless.
Context `{SnapshotCodec} (root : string) (resourceLimits : bool).

Lemma stateless_read_bounded id file path maximum : stateless (read_bounded id file path maximum).
Proof. unfold read_bounded. stateless_tac. Qed.
Lemma stateless_verifyFile id path length digest : stateless (verifyFile id path length digest).
Proof. unfold verifyFile. stateless_tac. Qed.
#[local] Hint Resolve stateless_read_bounded stateless_verifyFile : disk.
Lemma stateless_verify_children location id children verified :
  stateless (verify_children location id children verified).
Proof.
  revert verified. induction children as [|child children IH]; intros verified; simpl; stateless_tac.
Qed.
#[local] Hint Resolve stateless_verify_children : disk.
Lemma stateless_Preflight id : stateless (Preflight root resourceLimits id).
Proof. unfold Preflight. stateless_tac. Qed.
#[local] Hint Resolve stateless_Preflight : disk.

Lemma stateless_cleanup {A} (body : io A) cleanup :
  stateless body → stateless cleanup → stateless (with_cleanup body cleanup).
Proof.
  intros Hb Hc d. unfold with_cleanup. specialize (Hb d).
  destruct (body d) as [d' [a|e]]; simpl in *; [done|]. by etrans; [|apply Hc].
Qed.
Lemma stateless_write_children path staging children : stateless (write_children path staging children).
Proof.
  induction children as [|child children IH]; simpl; [stateless_tac|].
  unfold writeImmutableFile. stateless_tac.
Qed.
#[local] Hint Resolve stateless_write_children : disk.
Lemma stateless_fill staging id finalPath children total :
  stateless (fill_and_publish root staging id finalPath children total).
Proof. unfold fill_and_publish, make_directories, DurableRenameNew. stateless_tac. Qed.
Lemma stateless_Publish candidate : stateless (Publish root resourceLimits candidate).
Proof.
  unfold Publish, make_directories, MkdirTemp. stateless_tac.
  apply stateless_cleanup; [apply stateless_fill|]. unfold remove_staging. auto with disk.
Qed.
Lemma stateless_quarantine id : stateless (quarantine root id).
Proof. unfold quarantine, make_directories, rename_to_quarantine. stateless_tac. Qed.
Lemma stateless_collect_entries retained entries changed : stateless (collect_entries retained entries changed).
Proof. revert changed. induction entries as [|id entries IH]; intros changed; simpl; stateless_tac. Qed.
Lemma stateless_verdict {A} (m : io A) failed : stateless m → stateless (verdict m failed).
Proof.
  intros Hm d. unfold verdict. specialize (Hm d). destruct (m d) as [d' [a|e]]; simpl in *; [done|].
  by destruct (is_corrupt e).
Qed.
Lemma stateless_remove_staged names : stateless (remove_staged names).
Proof. induction names as [|name names IH]; simpl; [stateless_tac|]. unfold remove_staging. stateless_tac. Qed.
Lemma stateless_removeIncompleteStaging : stateless removeIncompleteStaging.
Proof. unfold removeIncompleteStaging. stateless_tac. apply stateless_remove_staged. Qed.
Lemma stateless_remove_archived names : stateless (remove_archived names).
Proof. induction names as [|name names IH]; simpl; stateless_tac. Qed.
Lemma stateless_trim : stateless trimArchivedJournals.
Proof. unfold trimArchivedJournals. stateless_tac. apply stateless_remove_archived. Qed.
Lemma stateless_readDurableState {A} `{DurableRecord A} (file : Disk → option A) limit :
  stateless (readDurableState file limit).
Proof. unfold readDurableState. stateless_tac. Qed.
(** A file of the state directory is read as it is. *)
Lemma readDurableState_ok {A} `{DurableRecord A} (file : Disk → option A) limit d d' a :
  (∀ d1 d2, same_state d1 d2 → file d2 = file d1) →
  readDurableState file limit d = (d', Ok a) → a = file d.
Proof.
  intros Hfile. unfold readDurableState. rewrite st_bind_ok. intros (d1 & [] & E1 & Hr).
  rewrite gets_bind in Hr. assert (file d1 = file d) as <-.
  { apply Hfile. pose proof (stateless_examine io_error d) as Hs. unfold inspect in E1. by rewrite E1 in Hs. }
  destruct (file d1) as [x|]; [|by injection Hr].
  apply st_bind_ok in Hr as (d2 & [] & _ & Hr). apply lift_bind_ok in Hr as ([] & _ & Hr). by injection Hr.
Qed.
Lemma stateless_restore_mount mount entry : stateless (restore_mount root resourceLimits mount entry).
Proof.
  unfold restore_mount, preflight_bound. 
  repeat first [keeps_step | apply stateless_verdict | apply stateless_quarantine | apply stateless_Preflight].
Qed.
Lemma stateless_restore_mounts protectedMount entries table repaired :
  stateless (restore_mounts root resourceLimits protectedMount entries table repaired).
Proof.
  revert table repaired. induction entries as [|[mount entry] entries IH]; intros table repaired; simpl;
    repeat first [keeps_step | apply IH | apply stateless_restore_mount].
Qed.
End stateless.
#[export] Hint Resolve stateless_Preflight stateless_Publish stateless_quarantine stateless_collect_entries
  stateless_verdict stateless_removeIncompleteStaging stateless_trim stateless_readDurableState
  stateless_restore_mount : disk.

(** ** Preserved predicates *)

Abbreviation preserves P m := (hoare P m (λ _, P) P).

Section preserves.
Context {S : Type} (P : S → Prop).

Lemma preserves_bind {A B} (m : stM S A) (f : A → stM S B) :
  preserves P m → (∀ a, preserves P (f a)) → preserves P (m ≫= f).
Proof. intros Hm Hf. by eapply hoare_bind. Qed.
Lemma preserves_lift {A} (r : res A) : preserves P (lift r).
Proof. by apply hoare_lift. Qed.
Lemma preserves_ret {A} (a : A) : preserves P (mret a).
Proof. by apply hoare_ret. Qed.
Lemma preserves_lift_bind {A B} (r : res A) (f : A → stM S B) :
  (∀ a, r = Ok a → preserves P (f a)) → preserves P (lift r ≫= f).
Proof. intros Hf s Hs. unfold mbind, stM_bind, lift. destruct r as [a|e]; [by apply (Hf a)|done]. Qed.
Lemma preserves_gets_bind {A B} (g : S → A) (f : A → stM S B) :
  (∀ s, P s → preserves P (f (g s))) → preserves P (gets g ≫= f).
Proof. intros Hf s Hs. by apply (Hf s Hs). Qed.
Lemma preserves_gets {A} (g : S → A) : preserves P (gets g).
Proof. by intros s Hs. Qed.
Lemma preserves_wrap {A} (m : stM S A) w : preserves P m → preserves P (st_wrap m w).
Proof. apply hoare_wrap. Qed.
Lemma preserves_modify f : (∀ s, P s → P (f s)) → preserves P (modify f).
Proof. intros Hf. by apply hoare_modify. Qed.
Lemma preserves_keeps {A} R (m : stM S A) : keeps R m → (∀ s s', R s s' → P s → P s') → preserves P m.
Proof. apply hoare_keeps. Qed.
End preserves.

Lemma preserves_on_snd {S D A} (P : S * D → Prop) (Q : D → Prop) (m : stM D A) :
  (∀ s d, P (s, d) → Q d) → (∀ s d d', P (s, d) → Q d' → P (s, d')) →
  preserves Q m → preserves P (on_snd m).
Proof.
  intros H1 H2 Hm [s d] Hs. unfold on_snd. simpl. specialize (Hm d (H1 s d Hs)).
  destruct (m d) as [d' [a|e]]; by eapply H2.
Qed.

(** One step of a preservation proof; calls are left over. *)
Ltac preserves_step :=
  match goal with
  | |- hoare _ (mbind _ (lift _)) _ _ => apply preserves_lift_bind; intros ??
  | |- hoare _ (mbind _ (gets _)) _ _ => apply preserves_gets_bind; intros ??
  | |- hoare _ (mbind _ _) _ _ => apply preserves_bind; [|intros ?]
  | |- hoare _ (mret _) _ _ => apply preserves_ret
  | |- hoare _ (lift _) _ _ => apply preserves_lift
  | |- hoare _ (gets _) _ _ => apply preserves_gets
  | |- hoare _ (st_wrap _ _) _ _ => apply preserves_wrap
  | |- hoare _ (match _ with _ => _ end) _ _ => case_match
  end.

(** ** Tombstones hold *)

Definition sealed_table (m : string) (table : RouteTable) : Prop :=
  is_Some (tbl_Tombstones table !! m) ∧ tbl_Mounts table !! m = None.

(** routes.json tombstones the mount and no journal is going to serve it. *)
Definition sealed_disk (m : string) (d : Disk) : Prop :=
  (∃ p, dk_routes d = Some p ∧ is_Some (drt_Tombstones p !! m))
  ∧ ∀ j, dk_journal d = Some j → aj_Mount j = m → journalOperation j = activationOperationWithdraw.

Definition sealed (m : string) (s : Runtime * Disk) : Prop := sealed_table m (rn_table s.1) ∧ sealed_disk m s.2.

Section sealed.
Context `{SnapshotCodec} (root : string) (resourceLimits : bool) (m : string).

Lemma sealed_same_state d d' : same_state d d' → sealed_disk m d → sealed_disk m d'.
Proof. intros [E1 E2] [Hp Hj]. split; by rewrite ?E1, ?E2. Qed.
Lemma sealed_stateless {A} (op : io A) : stateless op → preserves (sealed_disk m) op.
Proof. intros Hop. eapply preserves_keeps; [exact Hop|apply sealed_same_state]. Qed.
Lemma sealed_on_disk {A} (op : io A) : preserves (sealed_disk m) op → preserves (sealed m) (on_disk op).
Proof. apply preserves_on_snd; [by intros s d [_ ?]|by intros s d d' [? _] ?]. Qed.

Lemma sealed_clone table : sealed_table m table → sealed_table m (cloneRouteTable table).
Proof. intros [Ht Hm]. split; simpl; [done|]. by rewrite lookup_fmap, Hm. Qed.

Lemma sealed_attempt f : (∀ d, sealed_disk m d → sealed_disk m (f d)) → preserves (sealed_disk m) (attempt f).
Proof.
  intros Hf d Hd. unfold attempt, next_fate, mbind, stM_bind, modify.
  destruct (hd Done (dk_fates d)); simpl; by try apply Hf.
Qed.
Lemma sealed_write path f :
  (∀ d, sealed_disk m d → sealed_disk m (f d)) → preserves (sealed_disk m) (DurableAtomicWrite path f).
Proof.
  intros Hf d Hd. unfold DurableAtomicWrite, next_fate, mbind, stM_bind, modify.
  destruct (hd Done (dk_fates d)); simpl; by try apply Hf.
Qed.

Lemma sealed_removeJournal : preserves (sealed_disk m) removeJournal.
Proof.
  unfold removeJournal. repeat preserves_step; try (apply sealed_stateless; by auto with disk).
  apply sealed_attempt. intros d [Hp _]. by split.
Qed.
Lemma sealed_writeJournal j :
  (aj_Mount j = m → journalOperation j = activationOperationWithdraw) → preserves (sealed_disk m) (writeJournal j).
Proof.
  intros Hj. unfold writeJournal. apply preserves_lift_bind. intros data Hdata.
  unfold encodeActivationJournal in Hdata. go_inv.
  apply preserves_wrap, sealed_write. intros d [Hp _]. split; [done|]. by intros j [= <-].
Qed.
Lemma sealed_write_table table :
  sealed_table m table → preserves (sealed_disk m) (writeRouteTable resourceLimits table).
Proof.
  intros [Ht _]. unfold writeRouteTable, writeRouteTableBytes. apply preserves_lift_bind. intros p Hp.
  unfold encodeRouteTable, encodeRouteTableWithResourceLimits in Hp. go_inv.
  apply preserves_lift_bind. intros _ _. apply preserves_wrap, sealed_write. intros d [_ Hj]. split; [|done].
  eexists. split; [done|]. simpl. rewrite lookup_fmap. by apply fmap_is_Some.
Qed.

(** A callback that writes tables in which the mount is still sealed. *)
Definition seals (persist : option (RouteTable → io unit)) : Prop :=
  ∀ f table, persist = Some f → sealed_table m table → preserves (sealed_disk m) (f table).

Lemma seals_write : seals (Some (writeRouteTable resourceLimits)).
Proof. intros f table [= <-]. apply sealed_write_table. Qed.
Lemma sealed_write_bytes table p : encodeRouteTable resourceLimits table = Ok p →
  sealed_table m table → preserves (sealed_disk m) (writeRouteTableBytes resourceLimits p).
Proof.
  intros Hp Ht d Hd. pose proof (sealed_write_table table Ht d Hd) as Hw.
  unfold writeRouteTable in Hw. by rewrite Hp in Hw.
Qed.
Lemma seals_transition j :
  (aj_Mount j = m → journalOperation j = activationOperationWithdraw) → seals (Some (persist_transition resourceLimits j)).
Proof.
  intros Hj f table [= <-] Ht. unfold persist_transition.
  repeat preserves_step; try (apply sealed_stateless; by auto with disk).
  - by apply sealed_writeJournal.
  - by eapply sealed_write_bytes.
Qed.
Lemma seals_activation j admitted :
  aj_Mount j ≠ m → seals (Some (persist_activation resourceLimits j admitted)).
Proof.
  intros Hj f table [= <-] Ht. unfold persist_activation.
  repeat preserves_step; try (apply sealed_stateless; by auto with disk).
  - by apply sealed_writeJournal.
  - by eapply sealed_write_bytes.
Qed.

(** *** The transitions of the runtime *)

Lemma sealed_persist_and_store persist next :
  seals persist → sealed_table m next → preserves (sealed m) (persist_and_store persist next).
Proof.
  intros Hp Hn. unfold persist_and_store. apply preserves_bind.
  - destruct persist as [f|]; [|apply preserves_ret].
    by apply sealed_on_disk, (Hp f); [|apply sealed_clone].
  - intros _ [rt d] [_ Hd]. by split.
Qed.

Lemma sealed_insert table mount state :
  mount ≠ m → sealed_table m table → sealed_table m (with_mounts <[mount := state]> table).
Proof. intros Hm [Ht HM]. split; [done|]. simpl. by rewrite lookup_insert_ne. Qed.
Lemma sealed_delete table mount : sealed_table m table → sealed_table m (with_mounts (delete mount) table).
Proof. intros [Ht HM]. split; [done|]. simpl. by apply lookup_delete_None; right. Qed.

Ltac at_table := unfold current_table; apply preserves_gets_bind; intros [rt d] [Htable Hdisk]; simpl in *.

Lemma not_withdrawn_ne table mount u :
  sealed_table m table → check_not_withdrawn table mount = Ok u → mount ≠ m.
Proof. intros [Ht _] Hc ->. unfold check_not_withdrawn in Hc. go_inv. contradiction. Qed.

Lemma sealed_activate mount expectedOld generation candidate persist cloneResult :
  (mount ≠ m → seals persist) →
  preserves (sealed m) (activateMountDurably mount expectedOld generation candidate persist cloneResult).
Proof.
  intros Hp. unfold activateMountDurably. do 2 (apply preserves_lift_bind; intros _ _). at_table.
  apply preserves_lift_bind; intros _ _. apply preserves_lift_bind; intros u Hu.
  apply not_withdrawn_ne in Hu; [|done].
  destruct (tbl_Mounts (rn_table rt) !! mount) as [state|]; apply preserves_lift_bind; intros _ _;
    [destruct (bool_decide _); [apply preserves_ret|]|];
    (apply preserves_bind; [|intros ?; apply preserves_ret]);
    apply sealed_persist_and_store; [by apply Hp| |by apply Hp|];
    by apply sealed_insert, sealed_clone.
Qed.

Lemma sealed_withdraw mount expectedActive generation tombstone persist :
  (mount ≠ m → seals persist) →
  preserves (sealed m) (WithdrawMountDurably mount expectedActive generation tombstone persist).
Proof.
  intros Hp. unfold WithdrawMountDurably. do 2 (apply preserves_lift_bind; intros _ _). at_table.
  apply preserves_lift_bind; intros _ _.
  destruct (tbl_Mounts (rn_table rt) !! mount) as [state|] eqn:Es; [|repeat preserves_step].
  assert (mount ≠ m) as Hne by (intros ->; destruct Htable; congruence).
  do 3 (apply preserves_lift_bind; intros _ _). apply preserves_bind; [|intros ?; apply preserves_ret].
  apply sealed_persist_and_store; [by apply Hp|].
  destruct (sealed_delete _ mount (sealed_clone _ Htable)) as [Ht HM].
  split; simpl in *; [|done]. by rewrite lookup_insert_ne.
Qed.

Lemma sealed_reauthorize mount generation candidate persist :
  mount ≠ m → seals persist → preserves (sealed m) (ReauthorizeMountDurably mount generation candidate persist).
Proof.
  intros Hne Hp. unfold ReauthorizeMountDurably. do 2 (apply preserves_lift_bind; intros _ _). at_table.
  apply preserves_lift_bind; intros _ _.
  destruct (tbl_Tombstones (rn_table rt) !! mount) as [tombstone|]; [|apply preserves_lift].
  do 3 (apply preserves_lift_bind; intros _ _). apply preserves_bind; [|intros ?; apply preserves_ret].
  apply sealed_persist_and_store; [done|]. apply sealed_insert; [done|].
  destruct (sealed_clone _ Htable) as [Ht HM]. split; simpl in *; [|done]. by rewrite lookup_delete_ne.
Qed.

Lemma sealed_fallback mount corrupt generation usePrevious persist :
  seals persist → preserves (sealed m) (fallbackMountDurably mount corrupt generation usePrevious persist).
Proof.
  intros Hp. unfold fallbackMountDurably. apply preserves_lift_bind; intros _ _. at_table.
  apply preserves_lift_bind; intros _ _.
  destruct (tbl_Mounts (rn_table rt) !! mount) as [state|] eqn:Es; [|apply preserves_lift].
  assert (mount ≠ m) as Hne by (intros ->; destruct Htable; congruence).
  apply preserves_lift_bind; intros _ _. apply preserves_bind; [|intros ?; apply preserves_ret].
  apply sealed_persist_and_store; [done|].
  destruct usePrevious; [destruct (ms_Previous state)|];
    (apply sealed_insert; [done|] || apply sealed_delete); by apply sealed_clone.
Qed.

Lemma sealed_replace expected next routes : preserves (sealed m) (ReplaceRoutes expected next routes).
Proof.
  unfold ReplaceRoutes. do 2 (apply preserves_lift_bind; intros _ _). at_table.
  apply preserves_lift_bind; intros _ _. apply preserves_lift_bind; intros u Hu.
  intros s [Hs Hd]. split; [|done]. split; simpl; [by destruct Htable|].
  destruct u. apply eq_None_not_Some. intros Hin. destruct Hin as [x Hx].
  eapply for_map_ok in Hu; [|exact Hx]. go_inv. by destruct Htable.
Qed.

(** *** The operations of the coordinator *)

Lemma sealed_collect : preserves (sealed m) garbageCollectLocked.
Proof.
  unfold garbageCollectLocked. apply preserves_gets_bind; intros [rt d] _.
  apply sealed_on_disk, sealed_stateless. stateless_tac.
Qed.

Lemma sealed_publish candidate : preserves (sealed m) (publish_or_collect root resourceLimits candidate).
Proof.
  intros s Hs. unfold publish_or_collect.
  assert (preserves (sealed m) (on_disk (Publish root resourceLimits candidate))) as Hpub
    by (apply sealed_on_disk, sealed_stateless, stateless_Publish).
  pose proof (Hpub s Hs) as Hp. destruct (on_disk (Publish root resourceLimits candidate) s) as [s' [a|e]]; [done|].
  destruct (Is _ e); [|done]. revert s' Hp. apply preserves_bind; [apply sealed_collect|done].
Qed.

Ltac coordinated_step :=
  first
  [ preserves_step
  | apply sealed_on_disk, sealed_removeJournal
  | apply sealed_on_disk, sealed_stateless; by (stateless_tac || auto with disk)
  | apply sealed_publish ].

Lemma stateless_rejectPending : stateless rejectPendingJournal.
Proof. unfold rejectPendingJournal. stateless_tac. Qed.
#[local] Hint Resolve stateless_rejectPending : disk.

Lemma sealed_Withdraw mount expectedActive generation state :
  preserves (sealed m) (Withdraw resourceLimits mount expectedActive generation state).
Proof.
  unfold Withdraw, runtime_table.
  repeat first [coordinated_step | apply sealed_withdraw; intros ?; apply seals_transition; by intros].
Qed.

Lemma sealed_Reauthorize mount generation candidate :
  mount ≠ m → preserves (sealed m) (Reauthorize root resourceLimits mount generation candidate).
Proof.
  intros Hne. unfold Reauthorize, runtime_table.
  repeat first [coordinated_step | apply sealed_reauthorize; [done|apply seals_transition; by intros]].
Qed.

Lemma sealed_ActivateAdmitted mount expectedOld generation candidate quiesce admitted :
  preserves (sealed m) (ActivateAdmitted root resourceLimits mount expectedOld generation candidate quiesce admitted).
Proof.
  unfold ActivateAdmitted, ActivateMountDurablyBounded.
  repeat first [coordinated_step | apply sealed_activate; intros ?; by apply seals_activation].
Qed.

Lemma sealed_HandleCorruption mount id : preserves (sealed m) (HandleCorruption root resourceLimits mount id).
Proof.
  unfold HandleCorruption, runtime_table, DisableMountDurably, FallbackMountDurably.
  repeat first [coordinated_step | apply sealed_fallback, seals_write].
Qed.

(** *** A restart *)

Lemma restored_mounts_sealed protectedMount entries table repaired :
  sealed_table m table →
  hoare (sealed_disk m) (restore_mounts root resourceLimits protectedMount entries table repaired)
    (λ result d, sealed_table m result.1 ∧ sealed_disk m d) (sealed_disk m).
Proof.
  revert table repaired. induction entries as [|[mount entry] entries IH]; intros table repaired Ht; simpl.
  { by apply hoare_ret. }
  destruct (bool_decide (mount = protectedMount)); [by apply IH|].
  intros d Hd. unfold mbind at 1, stM_bind at 1, lift at 1.
  destruct (throw_if _ _) as [u|e] eqn:Eu; [|done]. go_inv.
  assert (mount ≠ m) as Hne by (intros ->; destruct Ht as [? _]; done).
  revert d Hd. eapply hoare_bind; [apply sealed_stateless, stateless_restore_mount|].
  intros [state changed]. apply IH. destruct state; [by apply sealed_insert|done].
Qed.

Lemma reread_map_is_Some {A} (f : A → A) (M : gmap string A) :
  valid_utf8 m = true → is_Some (M !! m) → is_Some (reread_map f M !! m).
Proof.
  intros Hv [x Hx]. unfold reread_map.
  apply not_eq_None_Some. rewrite <-not_elem_of_list_to_map. intros Hn. apply Hn.
  rewrite <-list_fmap_compose, list_elem_of_fmap. exists (m, x). simpl. rewrite reread_string_valid by done.
  split; [done|]. rewrite elem_of_reverse, sort_by_elem_of. by apply elem_of_map_to_list.
Qed.

Abbreviation sealed_files := (λ s : Runtime * Disk, sealed_disk m s.2).

Lemma sealed_files_on_disk {A} (op : io A) : preserves (sealed_disk m) op → preserves sealed_files (on_disk op).
Proof. by apply preserves_on_snd. Qed.

Lemma sealed_restore_runtime table : sealed_table m table →
  hoare sealed_files (restore_runtime table) (λ _, sealed m) sealed_files.
Proof.
  intros Ht. apply hoare_wrap. intros [rt d] Hd. unfold RestoreTable, mbind, stM_bind, lift, gets.
  destruct (validateRestoredTable table); [|done]. destruct (throw_if _ _); [|done].
  split; [by apply sealed_clone|done].
Qed.

Lemma restored_tombstones_sealed persisted protected :
  m ≠ "" → is_Some (drt_Tombstones persisted !! m) →
  is_Some (restored_tombstones persisted protected (protected_mount persisted protected) !! m).
Proof.
  intros Hm Hp. unfold restored_tombstones, protected_mount.
  destruct protected as [j|]; [|rewrite lookup_delete_ne by done; rewrite lookup_fmap; by apply fmap_is_Some].
  destruct (_ =? _); [|rewrite bool_decide_true by done].
  - case_bool_decide as Ej; [rewrite Ej|destruct (decide (aj_Mount j = m)) as [->|Hj]].
    + rewrite lookup_delete_ne by done. rewrite lookup_fmap. by apply fmap_is_Some.
    + rewrite lookup_insert_eq. eauto.
    + rewrite lookup_insert_ne, lookup_delete_ne by done. rewrite lookup_fmap. by apply fmap_is_Some.
  - rewrite lookup_delete_ne by done. rewrite lookup_fmap. by apply fmap_is_Some.
Qed.

Lemma sealed_restoreDurableRoutes protected :
  m ≠ "" → valid_utf8 m = true →
  hoare sealed_files (restoreDurableRoutes root resourceLimits protected) (λ _, sealed m) sealed_files.
Proof.
  intros Hm Hv [rt d] Hd. unfold restoreDurableRoutes. cbv zeta.
  destruct Hd as [(p & Hp & Ht) Hj]. cbn [fst snd] in Hp, Hj.
  (* what is read is what routes.json holds *)
  assert (hoare (λ s : Runtime * Disk, sealed_disk m s.2 ∧ dk_routes s.2 = Some p)
    (on_disk (st_wrap (readDurableState dk_routes (if resourceLimits then maxDurableRouteTableBytes else 0))
      (λ e, corrupt "%w: read durable routes: %v" [EText e])))
    (λ data s, data = Some p ∧ sealed_disk m s.2) sealed_files) as Hread.
  { intros [rt' d'] [Hd' Hp']. cbn [fst snd] in Hd', Hp'. unfold on_snd, st_wrap. cbn [fst snd].
    set (limit := if resourceLimits then _ else _).
    pose proof (sealed_stateless _ (stateless_readDurableState dk_routes limit) d' Hd') as Hs.
    destruct (readDurableState dk_routes limit d') as [d1 [a|e]] eqn:Er; [|done].
    apply readDurableState_ok in Er; [by rewrite Er, Hp'|by intros d2 d3 [? _]]. }
  specialize (Hread (rt, d)). unfold mbind at 1, stM_bind at 1.
  destruct (on_disk _ (rt, d)) as [s [data|e]]; [|apply Hread; split; [split; [by exists p|done]|done]].
  destruct Hread as [-> Hs]; [split; [split; [by exists p|done]|done]|].
  revert s Hs.
  assert (∀ (f : _ → coordinated unit), (∀ persisted, persisted = durable_reread p →
      hoare sealed_files (f persisted) (λ _, sealed m) sealed_files) →
    hoare sealed_files (lift (wrap_err (decodeStrict p)
      (λ e, corrupt "%w: invalid durable routes: %v" [EText e])) ≫= f) (λ _, sealed m) sealed_files) as Hdec.
  { intros f Hf. eapply hoare_bind; [apply (hoare_lift _ _ (λ a s, a = durable_reread p ∧ sealed_disk m s.2))|].
    - intros a s Ha Hs. unfold decodeStrict in Ha. by go_inv.
    - done.
    - intros a s [-> Hs]. by apply Hf. }
  apply Hdec. intros persisted ->.
  eapply hoare_bind; [by apply (hoare_lift _ _ (λ _, sealed_files))|]. intros ?.
  eapply hoare_bind; [by apply (hoare_lift _ _ (λ _, sealed_files))|]. intros ?.
  eapply (hoare_bind _ (λ result s, sealed_table m result.1 ∧ sealed_disk m s.2)).
  - intros [rt' d'] Hd'. unfold on_snd. cbn [fst snd].
    match goal with |- context [restore_mounts _ _ ?pm ?es ?tb ?rp] =>
      pose proof (restored_mounts_sealed pm es tb rp) as Hr end.
    specialize (Hr (conj (restored_tombstones_sealed (durable_reread p) _ Hm
      (reread_map_is_Some reread_tombstone _ Hv Ht)) eq_refl) d' Hd').
    by destruct (restore_mounts _ _ _ _ _ _ d') as [d'' [result|e]].
  - intros [table repaired]. apply hoare_pure. intros Htable. simpl in Htable.
    apply (hoare_bind _ (λ _, sealed_files)); [|intros ?; by apply sealed_restore_runtime].
    destruct repaired; [|by apply hoare_ret].
    apply sealed_files_on_disk, hoare_wrap. by apply sealed_write_table.
Qed.

Lemma sealed_recoverJournal now journalBytes j :
  (aj_Mount j = m → journalOperation j = activationOperationWithdraw) →
  preserves (sealed m) (recoverJournal root resourceLimits now journalBytes j).
Proof.
  intros Hj. unfold recoverJournal, runtime_table. apply preserves_gets_bind. intros s0 _.
  apply preserves_lift_bind. intros completed _. destruct completed.
  { apply sealed_on_disk, sealed_removeJournal. }
  case_match.
  { apply sealed_on_disk, hoare_wrap. unfold archiveJournal, make_directories.
    repeat first [preserves_step | apply sealed_removeJournal | apply sealed_stateless; by auto with disk]. }
  apply preserves_bind; [|intros ?; apply sealed_on_disk, sealed_removeJournal].
  assert (∀ c, stateless (journal_candidate root resourceLimits c)) as Hc
    by (intros c; unfold journal_candidate; stateless_tac).
  unfold replay_journal, ActivateMountDurablyBounded.
  destruct (bool_decide (journalOperation j = activationOperationWithdraw)) eqn:Ew; go_inv;
    repeat first [preserves_step | apply sealed_on_disk, sealed_stateless, Hc
      | apply sealed_withdraw; intros ?; apply seals_write
      | apply sealed_reauthorize; [by intros E; apply Ew, Hj|apply seals_write]
      | apply sealed_activate; intros ?; apply seals_write ].
Qed.

Lemma sealed_open now :
  m ≠ "" → valid_utf8 m = true →
  hoare sealed_files (OpenActivationCoordinatorWithResourceLimits root resourceLimits now) (λ _, sealed m) sealed_files.
Proof.
  intros Hm Hv.
  assert (∀ A (op : coordinated A), preserves (sealed m) op → hoare (sealed m) op (λ _, sealed m) sealed_files) as Hweak.
  { intros A op Hop. eapply hoare_conseq; [exact Hop|done..|by intros s [_ ?]]. }
  unfold OpenActivationCoordinatorWithResourceLimits.
  eapply hoare_bind; [|intros ?; apply Hweak, sealed_collect].
  unfold recover. eapply hoare_bind.
  { apply sealed_files_on_disk, sealed_stateless. auto with disk. }
  intros ?.
  eapply (hoare_bind _ (λ content s, sealed_disk m s.2
    ∧ ∀ j, content = Some j → aj_Mount j = m → journalOperation j = activationOperationWithdraw)).
  { intros [rt d] Hd. cbn [fst snd] in Hd. unfold on_snd, st_wrap. cbn [fst snd].
    pose proof (sealed_stateless _ (stateless_readDurableState dk_journal maxActivationJournalBytes) d Hd) as Hs.
    destruct (readDurableState dk_journal maxActivationJournalBytes d) as [d1 [content|e]] eqn:Er; [|done].
    apply readDurableState_ok in Er; [|by intros d2 d3 [_ ?]]. split; [done|]. subst content. apply Hd. }
  intros [bytes|].
  2: { eapply hoare_conseq; [by apply sealed_restoreDurableRoutes|by intros s [? _]|done..]. }
  intros s [Hs Hj]. revert s Hs. specialize (Hj bytes eq_refl).
  eapply (hoare_bind _ (λ j s, sealed_disk m s.2 ∧ (aj_Mount j = m → journalOperation j = activationOperationWithdraw))).
  { apply hoare_lift; [|done]. intros j s Hdec Hs. split; [done|]. apply wrap_err_ok, reread_journal_mount in Hdec.
    destruct Hdec as [-> E]. rewrite E. intros Hm'. specialize (Hj Hm').
    assert (aj_Operation bytes = activationOperationWithdraw) as Eo
      by (revert Hj; unfold journalOperation; by case_bool_decide).
    unfold journalOperation. cbn [aj_Operation durable_reread durable_journal]. by rewrite Eo. }
  intros j s [Hs Hj']. revert s Hs.
  eapply hoare_bind; [by apply (hoare_lift _ _ (λ _, sealed_files))|]. intros ?.
  eapply hoare_bind; [by apply (hoare_lift _ _ (λ _, sealed_files))|]. intros ?.
  eapply hoare_bind; [by apply sealed_restoreDurableRoutes|]. intros ?.
  by apply Hweak, sealed_recoverJournal.
Qed.
End sealed.
