(* ===== verification/CatalogRuns.v ===== *)
(** * Runs of a catalog server

    A process may be down.  Its operations meet arbitrary file failures, the
    environment may damage snapshot files between them, and a crash loses the
    memory; the next process opens the directory again. *)

From S2P Require Import Prelude GoString GoJson.
From S2P Require Import CatalogIdentity.
From S2P Require Import CatalogModel.
From S2P Require Import CatalogRuntime.
From S2P Require Import CatalogDisk.
From S2P Require Import CatalogStore.
From S2P Require Import Activation.
From S2P Require Import CatalogSafety.

Inductive catalog_event :=
  | EvActivate (mount : string) (expectedOld : SnapshotID) (generation : Z) (candidate : CompiledSnapshot)
      (quiesce admitted : option ActivationAdmission)
  | EvWithdraw (mount : string) (expectedActive : SnapshotID) (generation : Z) (state : string)
  | EvReauthorize (mount : string) (generation : Z) (candidate : CompiledSnapshot)
  | EvCorruption (mount : string) (id : SnapshotID)
  | EvCollect
  | EvReplaceRoutes (expected next : Z) (routes : gmap string RuntimeSnapshot)
  | EvAdmit (mount : string) (id : SnapshotID)
  | EvRelease (admission : Admission)
  | EvCrash
  | EvOpen (generation now : Z)
  | EvFiles (snapshots : gmap string tree) (staging : gmap positive tree) (quarantined : gmap string tree)
  | EvFates (fates : list fate).

Definition catalog_system : Type := option Runtime * Disk.

Section runs.
Context `{SnapshotCodec} (root : string) (resourceLimits : bool).

Definition running {A} (op : coordinated A) (s : catalog_system) : catalog_system :=
  match s.1 with
  | Some runtime => let s' := (op (runtime, s.2)).1 in (Some s'.1, s'.2)
  | None => s
  end.

Definition open_process (generation now : Z) (s : catalog_system) : catalog_system :=
  match s.1 with
  | Some _ => s
  | None =>
      match OpenActivationCoordinatorWithResourceLimits root resourceLimits now (NewRuntime generation, s.2) with
      | ((runtime, d), Ok _) => (Some runtime, d)
      | ((_, d), Fail _) => (None, d)
      end
  end.

Definition catalog_step (s : catalog_system) (event : catalog_event) : catalog_system :=
  match event with
  | EvActivate mount expectedOld generation candidate quiesce admitted =>
      running (ActivateAdmitted root resourceLimits mount expectedOld generation candidate quiesce admitted) s
  | EvWithdraw mount expectedActive generation state =>
      running (Withdraw resourceLimits mount expectedActive generation state) s
  | EvReauthorize mount generation candidate =>
      running (Reauthorize root resourceLimits mount generation candidate) s
  | EvCorruption mount id => running (HandleCorruption root resourceLimits mount id) s
  | EvCollect => running GarbageCollect s
  | EvReplaceRoutes expected next routes => running (ReplaceRoutes expected next routes) s
  | EvAdmit mount id => running (on_fst (AdmitSnapshot mount id)) s
  | EvRelease admission => running (on_fst (Admission_Release admission)) s
  | EvCrash => (None, s.2)
  | EvOpen generation now => open_process generation now s
  | EvFiles snapshots staging quarantined =>
      (s.1, upd_snapshots (λ _, snapshots) (upd_staging (λ _, staging) (upd_quarantine (λ _, quarantined) s.2)))
  | EvFates fates => (s.1, put_fates fates s.2)
  end.

Definition run_catalog (events : list catalog_event) (s : catalog_system) : catalog_system :=
  foldl catalog_step s events.

(** ** What a successful callback has written *)

Lemma write_ok path f d d' u : DurableAtomicWrite path f d = (d', Ok u) → d' = f (put_fates (tail (dk_fates d)) d).
Proof.
  unfold DurableAtomicWrite, next_fate, mbind, stM_bind, modify, lift.
  destruct (hd Done (dk_fates d)); by intros [= <- _].
Qed.

Lemma writeJournal_ok j d d' u : writeJournal j d = (d', Ok u) →
  dk_journal d' = Some j ∧ dk_routes d' = dk_routes d.
Proof.
  unfold writeJournal. rewrite lift_bind_ok. intros (j' & Hj & Hw). unfold encodeActivationJournal in Hj. go_inv.
  apply st_wrap_ok in Hw. by apply write_ok in Hw as ->.
Qed.

Lemma writeRouteTableBytes_ok p d d' u : writeRouteTableBytes resourceLimits p d = (d', Ok u) →
  dk_routes d' = Some p ∧ dk_journal d' = dk_journal d.
Proof.
  unfold writeRouteTableBytes. rewrite lift_bind_ok. intros ([] & _ & Hw).
  apply st_wrap_ok in Hw. by apply write_ok in Hw as ->.
Qed.

Lemma encodeRouteTable_ok table p : encodeRouteTable resourceLimits table = Ok p → p = persisted_table table.
Proof. unfold encodeRouteTable, encodeRouteTableWithResourceLimits. intros Hp. by go_inv. Qed.

Lemma examine_ok e d d' u : examine e d = (d', Ok u) → same_state d d'.
Proof. intros He. pose proof (stateless_examine e d) as Hs. by rewrite He in Hs. Qed.

Lemma persist_transition_ok j table d d' u :
  persist_transition resourceLimits j table d = (d', Ok u) →
  dk_routes d' = Some (persisted_table table) ∧ dk_journal d' = Some j.
Proof.
  unfold persist_transition. rewrite st_bind_ok. intros (d1 & [] & _ & Hr).
  apply lift_bind_ok in Hr as (p & Hp%encodeRouteTable_ok & Hr). subst p.
  apply st_bind_ok in Hr as (d2 & [] & Hj%writeJournal_ok & Hr).
  apply st_bind_ok in Hr as (d3 & [] & Hc%examine_ok & Hr).
  apply writeRouteTableBytes_ok in Hr as [Hp ->]. split; [done|]. destruct Hc as [_ ->]. by destruct Hj.
Qed.

Lemma persist_and_store_ok {W} persist next (s s' : Runtime * W) u :
  persist_and_store persist next s = (s', Ok u) →
  s'.1 = store_table next s.1
  ∧ match persist with
    | Some f => f (cloneRouteTable next) s.2 = (s'.2, Ok tt)
    | None => s'.2 = s.2
    end.
Proof.
  unfold persist_and_store. rewrite st_bind_ok. destruct s as [rt w]. intros ([rt1 w1] & [] & Hp & [= <- _]).
  destruct persist as [f|]; [|by injection Hp as -> ->].
  apply on_snd_ok in Hp as [Hp ->]. done.
Qed.

(** A successful withdrawal seals the mount. *)
Lemma Withdraw_seals mount expectedActive generation state s s' receipt :
  Withdraw resourceLimits mount expectedActive generation state s = (s', Ok receipt) → sealed mount s'.
Proof.
  unfold Withdraw, runtime_table. rewrite st_bind_ok. intros (s1 & [] & _ & Hr).
  apply st_bind_ok in Hr as (s2 & [] & _ & Hr). rewrite gets_bind in Hr.
  destruct (tbl_Mounts (Table s2.1) !! mount) as [active|] eqn:Ea; [|done]. simpl in Hr.
  apply lift_bind_ok in Hr as ([] & _ & Hr). rewrite gets_bind in Hr.
  apply lift_bind_ok in Hr as ([] & _ & Hr).
  apply st_bind_ok in Hr as (s3 & table & Hw & Hr).
  apply st_bind_ok in Hr as (s4 & [] & Hrm & [= <- _]).
  assert (sealed mount s3) as Hs3.
  { revert Hw. unfold WithdrawMountDurably, current_table. do 2 (rewrite lift_bind_ok; intros ([] & _ & Hw); revert Hw).
    rewrite gets_bind, lift_bind_ok. intros ([] & _ & Hw).
    destruct (tbl_Mounts (rn_table s2.1) !! mount) as [state'|] eqn:Es;
      [|simpl in Ea; rewrite lookup_fmap, Es in Ea; done].
    do 3 (apply lift_bind_ok in Hw as ([] & _ & Hw)).
    apply st_bind_ok in Hw as (s5 & [] & Hp & [= <- _]).
    apply persist_and_store_ok in Hp as [Hrt Hp]. apply persist_transition_ok in Hp as [Hroutes Hj].
    assert (sealed_table mount (rn_table s5.1)) as Hsealed.
    { rewrite Hrt. split; simpl; [rewrite lookup_insert_eq; eauto|apply lookup_delete_eq]. }
    split; [done|]. split.
    - eexists. split; [exact Hroutes|]. simpl. rewrite fmap_insert, lookup_insert_eq. eauto.
    - intros j. rewrite Hj. by intros [= <-] _. }
  pose proof (sealed_on_disk mount _ (sealed_removeJournal mount) s3 Hs3) as Hs4. by rewrite Hrm in Hs4.
Qed.

(** ** Withdrawn mounts *)

Definition sealed_system (m : string) (s : catalog_system) : Prop :=
  (∀ runtime, s.1 = Some runtime → sealed_table m (rn_table runtime)) ∧ sealed_disk m s.2.

Definition reauthorizes (m : string) (event : catalog_event) : Prop :=
  ∃ generation candidate, event = EvReauthorize m generation candidate.

Lemma sealed_running {A} m (op : coordinated A) s :
  preserves (sealed m) op → sealed_system m s → sealed_system m (running op s).
Proof.
  intros Hop [Ht Hd]. unfold running. destruct s as [[runtime|] d]; simpl in *; [|done].
  specialize (Hop (runtime, d) (conj (Ht _ eq_refl) Hd)).
  destruct (op (runtime, d)) as [[runtime' d'] [a|e]]; destruct Hop as [Hs Hd']; (split; [|done]);
    by intros ? [= <-].
Qed.

Lemma sealed_refs {A} m (op : stM Runtime A) :
  (∀ runtime, rn_table (op runtime).1 = rn_table runtime) → preserves (sealed m) (on_fst op).
Proof.
  intros Hop [runtime d] [Ht Hd]. unfold on_fst. simpl. specialize (Hop runtime).
  destruct (op runtime) as [runtime' [a|e]]; simpl in *; (split; [|done]); simpl; by rewrite Hop.
Qed.

Lemma AdmitSnapshot_table mount id runtime : rn_table (AdmitSnapshot mount id runtime).1 = rn_table runtime.
Proof.
  unfold AdmitSnapshot, mbind, stM_bind, lift, gets, modify. destruct (validateRuntimeMount mount); [|done].
  destruct (tbl_Mounts _ !! mount) as [state|]; [|by destruct (check_not_withdrawn _ _)].
  by destruct (if _ && _ then _ else _).
Qed.
Lemma Release_table admission runtime : rn_table (Admission_Release admission runtime).1 = rn_table runtime.
Proof. unfold Admission_Release. by destruct (ad_once admission). Qed.

Lemma sealed_step m s event :
  m ≠ "" → valid_utf8 m = true → ¬ reauthorizes m event →
  sealed_system m s → sealed_system m (catalog_step s event).
Proof.
  intros Hm Hv Hev Hs.
  destruct event; simpl; try (apply sealed_running; [|done]).
  - apply sealed_ActivateAdmitted.
  - apply sealed_Withdraw.
  - apply sealed_Reauthorize. intros ->. apply Hev. by eexists _, _.
  - apply sealed_HandleCorruption.
  - apply sealed_collect.
  - apply sealed_replace.
  - apply sealed_refs. intros runtime. apply AdmitSnapshot_table.
  - apply sealed_refs. intros runtime. apply Release_table.
  - destruct Hs. by split.
  - unfold open_process. destruct s as [[runtime|] d]; simpl; [done|]. destruct Hs as [_ Hd].
    pose proof (sealed_open root resourceLimits m now Hm Hv (NewRuntime generation, d) Hd) as Ho.
    destruct (OpenActivationCoordinatorWithResourceLimits _ _ _ _) as [[runtime d'] [a|e]].
    + destruct Ho as [Hs' Hd']. split; [by intros ? [= <-]|done].
    + by split.
  - destruct Hs as [Ht [Hp Hj]]. by split.
  - destruct Hs as [Ht [Hp Hj]]. by split.
Qed.
End runs.

(** ** A server to try the theorems on *)

Definition refusing_codec : SnapshotCodec := {|
  DecodeManifestWithResourceLimits _ _ := Fail io_error;
  DecodeCatalogWithResourceLimits _ _ := Fail io_error;
  DecodeSearchDirectoryWithResourceLimits _ _ := Fail io_error;
  ValidateCatalogManifest _ _ := Fail io_error;
  ValidateSearchManifest _ _ := Fail io_error;
|}.

Definition example_id (c : ascii) : SnapshotID := snapshot_prefix +:+ of_bytes (repeat (byte_of c) 64).
Definition example_snapshot (c : ascii) : RuntimeSnapshot :=
  MkRuntimeSnapshot (example_id c) "/srv/snapshots" (catalog_artifact 1 "payments") (search_directory 1) zero_manifest.
Definition empty_disk : Disk := MkDisk None None ∅ ∅ ∅ ∅ [].
Definition serving_runtime : Runtime :=
  MkRuntime (MkRouteTable 7 {[ "/payments" := MkMountState (example_snapshot "a") None ]} ∅) ∅.
Definition candidate_b : CompiledSnapshot :=
  MkCompiledSnapshot (example_id "b") zero_identity (catalog_artifact 1 "payments") None.

Section withdrawn.
Context `{SnapshotCodec} (root : string) (resourceLimits : bool).

Lemma Withdraw_valid_mount mount expectedActive generation state s s' receipt :
  Withdraw resourceLimits mount expectedActive generation state s = (s', Ok receipt) →
  validateRuntimeMount mount = Ok tt.
Proof.
  unfold Withdraw, runtime_table. rewrite st_bind_ok. intros (s1 & [] & _ & Hr).
  apply st_bind_ok in Hr as (s2 & [] & _ & Hr). rewrite gets_bind in Hr.
  destruct (tbl_Mounts (Table s2.1) !! mount) as [active|] eqn:Ea; [|done]. simpl in Hr.
  apply lift_bind_ok in Hr as ([] & _ & Hr). rewrite gets_bind in Hr.
  apply lift_bind_ok in Hr as ([] & Hb & _). unfold validateWithdrawalBounds, CheckMount in Hb. by go_inv.
Qed.

Lemma valid_mount_nonempty mount : validateRuntimeMount mount = Ok tt → mount ≠ "".
Proof. by intros Hv ->. Qed.

(** C6: once [Withdraw] has answered without error, the mount, which is valid
    UTF-8, stays withdrawn through any sequence of other operations, file failures, damaged snapshot
    files, crashes and restarts, until it is reauthorized: routes.json keeps
    the tombstone, and a running server neither mounts it nor admits a request
    to any of its snapshots. *)
Theorem withdrawn_mount_stays_withdrawn mount expectedActive generation state runtime d s' receipt events :
  valid_utf8 mount = true →
  Withdraw resourceLimits mount expectedActive generation state (runtime, d) = (s', Ok receipt) →
  Forall (λ event, ¬ reauthorizes mount event) events →
  let s := run_catalog root resourceLimits events (Some s'.1, s'.2) in
  (∃ p, dk_routes s.2 = Some p ∧ is_Some (drt_Tombstones p !! mount))
  ∧ ∀ runtime', s.1 = Some runtime' →
      tbl_Mounts (rn_table runtime') !! mount = None
      ∧ ∀ id, ∃ e, (AdmitSnapshot mount id runtime').2 = Fail e ∧ Is "catalog: mount withdrawn" e = true.
Proof.
  intros Hv Hw Hev. cbv zeta.
  pose proof (Withdraw_valid_mount _ _ _ _ _ _ _ Hw) as Hmount.
  pose proof (valid_mount_nonempty _ Hmount) as Hne.
  assert (sealed_system mount (Some s'.1, s'.2)) as Hs.
  { apply Withdraw_seals in Hw as [Ht Hd]. split; [|done]. by intros ? [= <-]. }
  revert Hs. generalize (Some s'.1, s'.2). induction Hev as [|event events Hevent _ IH]; intros s Hs.
  - destruct Hs as [Ht [Hp _]]. split; [done|]. intros runtime' Hr. destruct (Ht _ Hr) as [[tombstone Htomb] HM].
    split; [done|]. intros id. simpl in Hr. simpl. unfold AdmitSnapshot, mbind, stM_bind, lift, gets.
    rewrite Hmount, HM. unfold check_not_withdrawn. rewrite bool_decide_true by eauto. eexists. split; [done|].
    reflexivity.
  - apply IH. by apply sealed_step.
Qed.
End withdrawn.

Definition withdrawn_server : (Runtime * Disk) * res WithdrawalReceipt :=
  Withdraw true "/payments" (example_id "a") 7 TombstoneWithdrawn (serving_runtime, empty_disk).
Definition stray_events : list catalog_event :=
  [EvActivate "/payments" "" 7 candidate_b None None; EvFates [Done; Failed]; EvCrash; EvOpen 0 1; EvFates [];
   EvOpen 0 2; EvActivate "/payments" (example_id "a") 7 candidate_b None None; EvAdmit "/payments" ""].

Lemma withdrawn_mount_stays_withdrawn_witness :
  let s := run_catalog (H:=refusing_codec) "/srv" true stray_events (Some withdrawn_server.1.1, withdrawn_server.1.2) in
  is_Some s.1
  ∧ ((∃ p, dk_routes s.2 = Some p ∧ is_Some (drt_Tombstones p !! "/payments"))
     ∧ ∀ runtime', s.1 = Some runtime' →
      tbl_Mounts (rn_table runtime') !! "/payments" = None
      ∧ ∀ id, ∃ e, (AdmitSnapshot "/payments" id runtime').2 = Fail e ∧ Is "catalog: mount withdrawn" e = true).
Proof.
  split.
  { apply (bool_decide_unpack _). vm_compute. exact I. }
  apply (withdrawn_mount_stays_withdrawn (H:=refusing_codec) "/srv" true "/payments" (example_id "a") 7 TombstoneWithdrawn
    serving_runtime empty_disk withdrawn_server.1
    (MkWithdrawalReceipt "/payments" TombstoneWithdrawn (example_id "a") 7)).
  - vm_compute. reflexivity.
  - vm_compute. reflexivity.
  - repeat constructor; by intros (? & ? & [=]).
Defined.
