(* ===== verification/CatalogCollect.v ===== *)
(** * Admissions and garbage collection

    The reference counts of the runtime are the admissions not yet released,
    and a collection removes exactly the snapshots that neither a mount nor an
    admission uses. *)

From S2P Require Import Prelude GoString.
From S2P Require Import CatalogModel.
From S2P Require Import CatalogRuntime.
From S2P Require Import CatalogDisk.
From S2P Require Import CatalogStore.
From S2P Require Import Activation.
From S2P Require Import CatalogSafety.
From S2P Require Import CatalogRuns.

(** ** Transitions leave the counts alone *)

Definition same_refs {W} (s s' : Runtime * W) : Prop := rn_refs s'.1 = rn_refs s.1.

#[export] Instance same_refs_preorder {W} : PreOrder (same_refs (W:=W)).
Proof. split; [done|]. intros s1 s2 s3 H1 H2. unfold same_refs in *. congruence. Qed.

Abbreviation refless := (keeps same_refs).

Lemma refless_on_snd {W A} (op : stM W A) : refless (on_snd (S:=Runtime) op).
Proof. intros [rt w]. unfold on_snd. simpl. by destruct (op w). Qed.
Lemma refless_store {W} table : refless (on_fst (C:=W) (modify (store_table table))).
Proof. by intros [rt w]. Qed.
Lemma refless_persist {W} (persist : option (RouteTable → stM W unit)) next :
  refless (persist_and_store persist next).
Proof.
  unfold persist_and_store. apply keeps_bind; [apply _|case_match; [apply refless_on_snd|apply keeps_ret; apply _]|].
  intros _. apply refless_store.
Qed.

Create HintDb refs.
#[export] Hint Extern 2 (keeps same_refs (on_snd _)) => apply refless_on_snd : refs.
#[export] Hint Extern 2 (keeps same_refs (on_fst (modify (store_table _)))) => apply refless_store : refs.
#[export] Hint Extern 2 (keeps same_refs (persist_and_store _ _)) => apply refless_persist : refs.
#[export] Hint Extern 2 (keeps same_refs current_table) => (apply (keeps_gets _)) : refs.
#[export] Hint Extern 2 (keeps same_refs runtime_table) => (apply (keeps_gets _)) : refs.
Ltac refless_tac := keeps_tac; auto with refs.

Section refless_runtime.
Context {W : Type}.
Implicit Types persist : option (RouteTable → stM W unit).
Lemma refless_activate mount expectedOld generation candidate persist cloneResult :
  refless (activateMountDurably mount expectedOld generation candidate persist cloneResult).
Proof. unfold activateMountDurably. refless_tac. Qed.
Lemma refless_withdraw mount expectedActive generation tombstone persist :
  refless (WithdrawMountDurably mount expectedActive generation tombstone persist).
Proof. unfold WithdrawMountDurably. refless_tac. Qed.
Lemma refless_reauthorize mount generation candidate persist :
  refless (ReauthorizeMountDurably mount generation candidate persist).
Proof. unfold ReauthorizeMountDurably. refless_tac. Qed.
Lemma refless_fallback mount corrupt generation usePrevious persist :
  refless (fallbackMountDurably mount corrupt generation usePrevious persist).
Proof. unfold fallbackMountDurably. refless_tac. Qed.
Lemma refless_replace expected next routes : refless (ReplaceRoutes (W:=W) expected next routes).
Proof. unfold ReplaceRoutes. refless_tac. Qed.
End refless_runtime.
#[export] Hint Resolve refless_activate refless_withdraw refless_reauthorize refless_fallback refless_replace : refs.

Section refless_coordinator.
Context `{SnapshotCodec} (root : string) (resourceLimits : bool).
Lemma refless_collect : refless garbageCollectLocked.
Proof. unfold garbageCollectLocked. refless_tac. Qed.
Lemma refless_publish candidate : refless (publish_or_collect root resourceLimits candidate).
Proof.
  intros s. unfold publish_or_collect.
  pose proof (refless_on_snd (Publish root resourceLimits candidate) s) as Hp.
  destruct (on_disk (Publish root resourceLimits candidate) s) as [s' [a|e]]; [done|].
  destruct (Is _ e); [|done]. etrans; [exact Hp|].
  apply keeps_bind; [apply _|apply refless_collect|intros _; apply refless_on_snd].
Qed.
Hint Resolve refless_collect refless_publish : refs.
Lemma refless_Activate mount expectedOld generation candidate quiesce admitted :
  refless (ActivateAdmitted root resourceLimits mount expectedOld generation candidate quiesce admitted).
Proof. unfold ActivateAdmitted, ActivateMountDurablyBounded. refless_tac. Qed.
Lemma refless_Withdraw mount expectedActive generation state :
  refless (Withdraw resourceLimits mount expectedActive generation state).
Proof. unfold Withdraw. refless_tac. Qed.
Lemma refless_Reauthorize mount generation candidate :
  refless (Reauthorize root resourceLimits mount generation candidate).
Proof. unfold Reauthorize. refless_tac. Qed.
Lemma refless_HandleCorruption mount id : refless (HandleCorruption root resourceLimits mount id).
Proof. unfold HandleCorruption, DisableMountDurably, FallbackMountDurably. refless_tac. Qed.
End refless_coordinator.

(** ** Outstanding admissions *)

Section admissions.
Context `{SnapshotCodec} (root : string) (resourceLimits : bool).

(** Neither an admission nor a release, and the process goes on. *)
Definition keeps_process (event : catalog_event) : bool :=
  match event with
  | EvAdmit _ _ | EvRelease _ | EvCrash | EvOpen _ _ => false
  | _ => true
  end.

(** [serving s l]: the server got into [s] with the admissions [l] still
    outstanding, fewer than [2^64] at any time. *)
Inductive serving : Runtime * Disk → list Admission → Prop :=
  | serving_new generation d : serving (NewRuntime generation, d) []
  | serving_opened generation now d d' runtime u :
      OpenActivationCoordinatorWithResourceLimits root resourceLimits now (NewRuntime generation, d)
        = ((runtime, d'), Ok u) →
      serving (runtime, d') []
  | serving_admit runtime d l mount id runtime' admission :
      serving (runtime, d) l → Z.of_nat (length l) < max_uint64 →
      AdmitSnapshot mount id runtime = (runtime', Ok admission) → serving (runtime', d) (admission :: l)
  | serving_refuse runtime d l mount id runtime' e :
      serving (runtime, d) l → AdmitSnapshot mount id runtime = (runtime', Fail e) → serving (runtime', d) l
  | serving_release runtime d l1 admission l2 runtime' released :
      serving (runtime, d) (l1 ++ admission :: l2) →
      Admission_Release admission runtime = (runtime', Ok released) → serving (runtime', d) (l1 ++ l2)
  | serving_again runtime d l admission runtime' released :
      serving (runtime, d) l → ad_once admission = true →
      Admission_Release admission runtime = (runtime', Ok released) → serving (runtime', d) l
  | serving_step runtime d l event runtime' d' :
      serving (runtime, d) l → keeps_process event = true →
      catalog_step root resourceLimits (Some runtime, d) event = (Some runtime', d') → serving (runtime', d') l.

Definition outstanding (id : SnapshotID) (l : list Admission) : Z :=
  sumZ (λ admission, if bool_decide (rs_ID (ad_Snapshot admission) = id) then 1 else 0) l.

Lemma outstanding_nonneg id l : 0 ≤ outstanding id l.
Proof. apply sumZ_nonneg. intros a _. by case_bool_decide. Qed.
Lemma outstanding_cons id a l :
  outstanding id (a :: l) = (if bool_decide (rs_ID (ad_Snapshot a) = id) then 1 else 0) + outstanding id l.
Proof. done. Qed.
Lemma outstanding_nonzero id l :
  outstanding id l ≠ 0 ↔ ∃ admission, admission ∈ l ∧ rs_ID (ad_Snapshot admission) = id.
Proof.
  induction l as [|a l IH]; [by split; [|intros (? & ?%not_elem_of_nil & _)]|].
  rewrite outstanding_cons. setoid_rewrite elem_of_cons. pose proof (outstanding_nonneg id l).
  case_bool_decide as Ea; split.
  - intros _. exists a. by split; [left|].
  - lia.
  - rewrite Z.add_0_l, IH. intros (x & Hx & Ex). exists x. by split; [right|].
  - rewrite Z.add_0_l, IH. intros (x & [->|Hx] & Ex); [done|by exists x].
Qed.

(** The counts are exact, and there is no entry for a snapshot nobody uses. *)
Definition counted (refs : gmap SnapshotID Z) (l : list Admission) : Prop :=
  (∀ id, refs !! id = if outstanding id l =? 0 then None else Some (outstanding id l))
  ∧ Forall (λ admission, ad_once admission = false) l.

Lemma outstanding_le id l : outstanding id l ≤ Z.of_nat (length l).
Proof.
  induction l as [|a l IH]; [done|]. unfold outstanding in *. simpl in *. case_bool_decide; lia.
Qed.
Lemma outstanding_app id l1 l2 : outstanding id (l1 ++ l2) = outstanding id l1 + outstanding id l2.
Proof. apply sumZ_app. Qed.

Lemma counted_default refs l id : counted refs l → default 0 (refs !! id) = outstanding id l.
Proof. intros [Hc _]. rewrite Hc. destruct (Z.eqb_spec (outstanding id l) 0) as [->|]; done. Qed.

Lemma clone_id snapshot : rs_ID (cloneRuntimeSnapshot snapshot) = rs_ID snapshot.
Proof. done. Qed.

Lemma counted_admit runtime l mount id runtime' admission :
  counted (rn_refs runtime) l → Z.of_nat (length l) < max_uint64 →
  AdmitSnapshot mount id runtime = (runtime', Ok admission) → counted (rn_refs runtime') (admission :: l).
Proof.
  intros Hc Hlen. unfold AdmitSnapshot. rewrite lift_bind_ok. intros ([] & _ & Ha).
  rewrite gets_bind in Ha. destruct (tbl_Mounts (rn_table runtime) !! mount) as [state|].
  2: { apply lift_bind_ok in Ha as (? & _ & Ha). done. }
  apply lift_bind_ok in Ha as (selected & _ & Ha).
  apply st_bind_ok in Ha as (rt1 & u & [= <- _] & [= <- <-]). cbn [rn_refs set_refs].
  rewrite (counted_default _ _ _ Hc). destruct Hc as [Hc Honce].
  pose proof (outstanding_nonneg (rs_ID selected) l). pose proof (outstanding_le (rs_ID selected) l).
  split; [|by constructor]. intros j. rewrite outstanding_cons. cbn [ad_Snapshot].
  change (rs_ID (cloneRuntimeSnapshot selected)) with (rs_ID selected).
  case_bool_decide as Ej.
  - subst j. rewrite lookup_insert_eq. unfold wrap64. rewrite Z.mod_small by (unfold max_uint64 in Hlen; lia).
    destruct (Z.eqb_spec (1 + outstanding (rs_ID selected) l) 0); [lia|]. f_equal. lia.
  - rewrite lookup_insert_ne by done. rewrite Z.add_0_l. apply Hc.
Qed.

Lemma counted_release runtime l1 admission l2 runtime' released :
  counted (rn_refs runtime) (l1 ++ admission :: l2) →
  Admission_Release admission runtime = (runtime', Ok released) → counted (rn_refs runtime') (l1 ++ l2).
Proof.
  intros Hc. pose proof Hc as [Hl Honce]. apply Forall_app in Honce as [Ho1 [Ho2 Ho3]%Forall_cons].
  unfold Admission_Release. rewrite Ho2. intros [= <- _]. cbn [rn_refs set_refs].
  split; [|by apply Forall_app]. intros j. unfold release_reference.
  rewrite (counted_default _ _ _ Hc).
  assert (outstanding j (l1 ++ admission :: l2)
    = outstanding j (l1 ++ l2) + (if bool_decide (rs_ID (ad_Snapshot admission) = j) then 1 else 0)) as Ej
    by (rewrite !outstanding_app, outstanding_cons; lia).
  pose proof (outstanding_nonneg j (l1 ++ l2)).
  case_bool_decide as Eid; [subst j|].
  - destruct (Z.leb_spec (outstanding (rs_ID (ad_Snapshot admission)) (l1 ++ admission :: l2)) 1) as [Hle|Hgt].
    + rewrite lookup_delete_eq. by destruct (Z.eqb_spec (outstanding (rs_ID (ad_Snapshot admission)) (l1 ++ l2)) 0); [|lia].
    + rewrite lookup_insert_eq. destruct (Z.eqb_spec (outstanding (rs_ID (ad_Snapshot admission)) (l1 ++ l2)) 0); [lia|].
      f_equal. lia.
  - rewrite Z.add_0_r in Ej. destruct (_ <=? 1).
    + rewrite lookup_delete_ne by done. by rewrite Hl, Ej.
    + rewrite lookup_insert_ne by done. by rewrite Hl, Ej.
Qed.

Lemma refless_step event runtime d runtime' d' :
  keeps_process event = true →
  catalog_step root resourceLimits (Some runtime, d) event = (Some runtime', d') →
  rn_refs runtime' = rn_refs runtime.
Proof.
  assert (∀ A (op : coordinated A), refless op →
    running op (Some runtime, d) = (Some runtime', d') → rn_refs runtime' = rn_refs runtime) as Hrun.
  { intros A op Hop. unfold running. simpl. intros [= <- _]. apply (Hop (runtime, d)). }
  destruct event; simpl; intros Hk; try done; try (by intros [= <- _]); apply Hrun.
  - apply refless_Activate.
  - apply refless_Withdraw.
  - apply refless_Reauthorize.
  - apply refless_HandleCorruption.
  - apply refless_collect.
  - apply refless_replace.
Qed.

Lemma Open_refs now generation d s u :
  OpenActivationCoordinatorWithResourceLimits root resourceLimits now (NewRuntime generation, d) = (s, Ok u) →
  rn_refs s.1 = ∅.
Proof.
  intros Ho. pose proof (_ : PreOrder (same_refs (W:=Disk))).
  assert (refless (OpenActivationCoordinatorWithResourceLimits root resourceLimits now)) as Hr.
  { unfold OpenActivationCoordinatorWithResourceLimits, recover, restoreDurableRoutes, recoverJournal,
      replay_journal, restore_runtime, RestoreTable, ActivateMountDurablyBounded, GarbageCollect.
    refless_tac; apply refless_collect. }
  specialize (Hr (NewRuntime generation, d)). by rewrite Ho in Hr.
Qed.

Lemma serving_counted s l : serving s l → counted (rn_refs s.1) l.
Proof.
  induction 1 as [generation d|generation now d d' runtime u Ho|runtime d l mount id runtime' admission _ IH Hlen Ha
    |runtime d l mount id runtime' e _ IH Ha|runtime d l1 admission l2 runtime' released _ IH Hr
    |runtime d l admission runtime' released _ IH Honce Hr|runtime d l event runtime' d' _ IH Hk Hs]; simpl in *.
  - split; [by intros id; rewrite lookup_empty|constructor].
  - apply Open_refs in Ho. simpl in Ho. rewrite Ho. split; [by intros id; rewrite lookup_empty|constructor].
  - by eapply counted_admit.
  - unfold AdmitSnapshot, mbind, stM_bind, lift, gets, modify in Ha.
    destruct (validateRuntimeMount mount); [|by simplify_eq].
    destruct (tbl_Mounts _ !! mount); [|destruct (check_not_withdrawn _ _); by simplify_eq].
    destruct (if _ && _ then _ else _); simpl in Ha; by simplify_eq.
  - by eapply counted_release.
  - unfold Admission_Release in Hr. rewrite Honce in Hr. by injection Hr as <- _.
  - by rewrite (refless_step _ _ _ _ _ Hk Hs).
Qed.
End admissions.

(** ** Collection *)

(** A mount serves the snapshot or may fall back to it. *)
Definition mounted_snapshot (table : RouteTable) (id : SnapshotID) : Prop :=
  ∃ mount state, tbl_Mounts table !! mount = Some state
    ∧ (rs_ID (ms_Active state) = id ∨ rs_ID <$> ms_Previous state = Some id).

Lemma retained_spec table id :
  id ∈ retained_snapshots (cloneRouteTable table) ↔ mounted_snapshot table id.
Proof.
  unfold retained_snapshots, mounted_snapshot. rewrite elem_of_list_to_set, list_elem_of_bind. split.
  - intros ([mount state] & Hid & Hm%elem_of_map_to_list). simpl in *.
    rewrite lookup_fmap, fmap_Some in Hm. destruct Hm as (state' & Hm & ->).
    exists mount, state'. split; [done|]. simpl in Hid. apply elem_of_cons in Hid as [->|Hid]; [by left|right].
    destruct (ms_Previous state') as [previous|]; simpl in *; [|by apply not_elem_of_nil in Hid].
    by apply list_elem_of_singleton in Hid as ->.
  - intros (mount & state & Hm & Hid). exists (mount, cloneMountState state). simpl. split.
    + destruct Hid as [->|Hid]; [by left|right]. destruct (ms_Previous state) as [previous|]; [|done].
      injection Hid as <-. by left.
    + apply elem_of_map_to_list. simpl. by rewrite lookup_fmap, Hm.
Qed.

(** What a collection may change: snapshots that are not retained disappear. *)
Definition collected (retained : SnapshotID → bool) (d d' : Disk) : Prop :=
  dk_routes d' = dk_routes d ∧ dk_journal d' = dk_journal d ∧ dk_archive d' = dk_archive d
  ∧ dk_staging d' = dk_staging d ∧ dk_quarantine d' = dk_quarantine d
  ∧ ∀ id, dk_snapshots d' !! id = dk_snapshots d !! id
          ∨ dk_snapshots d' !! id = None ∧ retained id = false.

Lemma collected_refl retained d : collected retained d d.
Proof. repeat split. by left. Qed.
Lemma collected_trans retained d1 d2 d3 :
  collected retained d1 d2 → collected retained d2 d3 → collected retained d1 d3.
Proof.
  intros (E1 & E2 & E3 & E4 & E5 & Hs) (F1 & F2 & F3 & F4 & F5 & Ht).
  do 5 (split; [congruence|]). intros id. destruct (Ht id) as [->|?]; [done|by right].
Qed.
#[local] Instance collected_preorder retained : PreOrder (collected retained).
Proof. split; [intros d; apply collected_refl|intros ???; apply collected_trans]. Qed.

Lemma examine_collected retained e : keeps (collected retained) (examine e).
Proof.
  intros d. unfold examine, next_fate, mbind, stM_bind. destruct (hd Done (dk_fates d)); repeat split; by left.
Qed.
Lemma attempt_delete_collected retained id :
  retained id = false → keeps (collected retained) (attempt (upd_snapshots (delete id))).
Proof.
  intros Hid d. unfold attempt, next_fate, mbind, stM_bind, modify.
  destruct (hd Done (dk_fates d)); (do 5 (split; [done|])); intros j; simpl; try (by left);
    (destruct (decide (id = j)) as [->|]; [right; by rewrite lookup_delete_eq|left; by rewrite lookup_delete_ne]).
Qed.

Lemma collect_entries_collected retained entries changed :
  keeps (collected retained) (collect_entries retained entries changed).
Proof.
  revert changed. induction entries as [|id entries IH]; intros changed; simpl; [apply (keeps_ret _)|].
  apply (keeps_bind _); [apply examine_collected|intros _]. destruct (retained id) eqn:Er; [apply IH|].
  apply (keeps_bind _); [|intros _; apply IH]. by apply (keeps_wrap _), attempt_delete_collected.
Qed.

Lemma collect_entries_done retained entries changed d d' changed' :
  collect_entries retained entries changed d = (d', Ok changed') →
  ∀ id, id ∈ entries → retained id = false → dk_snapshots d' !! id = None.
Proof.
  revert changed d. induction entries as [|x entries IH]; intros changed d Hc id Hin Hr;
    [by apply not_elem_of_nil in Hin|]. simpl in Hc.
  apply st_bind_ok in Hc as (d1 & [] & _ & Hc).
  apply elem_of_cons in Hin as [->|Hin]; [|destruct (retained x)].
  - rewrite Hr in Hc. apply st_bind_ok in Hc as (d2 & [] & Ha%st_wrap_ok & Hc).
    assert (dk_snapshots d2 !! x = None) as Hn.
    { revert Ha. unfold attempt, next_fate, mbind, stM_bind, modify, lift.
      destruct (hd Done (dk_fates d1)); intros [= <-]; simpl. apply lookup_delete_eq. }
    pose proof (collect_entries_collected retained entries true d2) as Hk. rewrite Hc in Hk.
    destruct Hk as (_ & _ & _ & _ & _ & Hs). destruct (Hs x) as [E|[E _]]; [by simpl in E; rewrite E|done].
  - by eapply IH.
  - apply st_bind_ok in Hc as (d2 & [] & _ & Hc). by eapply IH.
Qed.

Section collection.
Context `{SnapshotCodec} (root : string) (resourceLimits : bool).

Definition in_use (runtime : Runtime) (id : SnapshotID) : bool :=
  bool_decide (id ∈ retained_snapshots (Table runtime)) || negb (ReferenceCount runtime id =? 0).

Lemma garbageCollect_collected runtime d s r :
  GarbageCollect (runtime, d) = (s, r) →
  s.1 = runtime ∧ collected (in_use runtime) d s.2
  ∧ (r = Ok tt → ∀ id, in_use runtime id = false → dk_snapshots s.2 !! id = None).
Proof.
  unfold GarbageCollect, garbageCollectLocked. rewrite gets_bind. cbn [fst].
  set (body := (_ ;; _) : io unit). intros Hg.
  assert (keeps (collected (in_use runtime)) body) as Hk.
  { unfold body. apply (keeps_bind _); [apply (keeps_wrap _), examine_collected|intros _].
    apply (keeps_bind _); [apply (keeps_gets _)|intros entries].
    apply (keeps_bind _); [apply collect_entries_collected|intros [|]];
      [apply (keeps_wrap _), examine_collected|apply (keeps_ret _)]. }
  unfold on_snd in Hg. simpl in Hg. specialize (Hk d). destruct (body d) as [d' r'] eqn:Eb.
  injection Hg as <- <-. split; [done|]. split; [done|]. intros -> id Hid. cbn [snd].
  revert Eb. unfold body. rewrite st_bind_ok. intros (d1 & [] & E1%st_wrap_ok & Hb).
  rewrite gets_bind in Hb. apply st_bind_ok in Hb as (d2 & changed & Hc & Hb).
  assert (dk_snapshots d' = dk_snapshots d2) as ->.
  { destruct changed; [|by injection Hb as <-]. apply st_wrap_ok in Hb. revert Hb.
    unfold SyncDirectory, examine, next_fate, mbind, stM_bind, lift.
    destruct (hd Done (dk_fates d2)); by intros [= <-]. }
  destruct (dk_snapshots d1 !! id) as [files|] eqn:Ef.
  - eapply collect_entries_done; [exact Hc| |exact Hid]. unfold sort_strings. rewrite sort_by_elem_of.
    apply list_elem_of_fmap. exists (id, files). split; [done|]. by apply elem_of_map_to_list.
  - pose proof (collect_entries_collected (in_use runtime) (sort_strings (map_to_list (dk_snapshots d1)).*1) false d1) as Hs.
    unfold in_use in Hs. cbn zeta in Hc. rewrite Hc in Hs. destruct Hs as (_ & _ & _ & _ & _ & Hs).
    cbn [fst] in Hs. destruct (Hs id) as [->|[? _]]; done.
Qed.

(** C9: in a server with the outstanding admissions [l], a collection changes
    nothing but the snapshots, whatever fails: the snapshot of every mount, the
    one it may fall back to and the snapshot of every outstanding admission
    keep their files, and when it answers without error every other snapshot
    is gone. *)
Theorem collection_spares_snapshots_in_use runtime d l s r :
  serving root resourceLimits (runtime, d) l →
  GarbageCollect (runtime, d) = (s, r) →
  let used id := mounted_snapshot (rn_table runtime) id
                 ∨ ∃ admission, admission ∈ l ∧ rs_ID (ad_Snapshot admission) = id in
  s.1 = runtime
  ∧ s.2 = put_fates (dk_fates s.2) (upd_snapshots (λ _, dk_snapshots s.2) d)
  ∧ (∀ id, used id → dk_snapshots s.2 !! id = dk_snapshots d !! id)
  ∧ (∀ id, dk_snapshots s.2 !! id = dk_snapshots d !! id ∨ dk_snapshots s.2 !! id = None)
  ∧ (r = Ok tt → ∀ id, is_Some (dk_snapshots s.2 !! id) → used id).
Proof.
  intros Hs Hg. cbv zeta. apply serving_counted in Hs. cbn [fst] in Hs.
  apply garbageCollect_collected in Hg as (Hrt & (E1 & E2 & E3 & E4 & E5 & Hsn) & Hok).
  assert (∀ id, in_use runtime id = true ↔ mounted_snapshot (rn_table runtime) id
    ∨ ∃ admission, admission ∈ l ∧ rs_ID (ad_Snapshot admission) = id) as Huse.
  { intros id. unfold in_use. rewrite orb_true_iff, bool_decide_eq_true, negb_true_iff, Z.eqb_neq.
    unfold Table. rewrite retained_spec. unfold ReferenceCount. rewrite (counted_default _ _ _ Hs).
    by rewrite outstanding_nonzero. }
  split; [done|]. split.
  { destruct s as [rt d']. cbn [snd] in *. destruct d, d'. simpl in *. by subst. }
  split; [|split].
  - intros id Hid. apply Huse in Hid. destruct (Hsn id) as [?|[_ Hn]]; [done|]. congruence.
  - intros id. destruct (Hsn id) as [?|[? _]]; [by left|by right].
  - intros Hr id [files Hf]. apply Huse. destruct (in_use runtime id) eqn:Eu; [done|].
    by rewrite (Hok Hr id Eu) in Hf.
Qed.
End collection.

Section collection_example.
#[local] Existing Instance refusing_codec.

Definition example_files : tree := {[ "manifest.json" := [123; 125] ]}.
Definition stocked_disk : Disk :=
  upd_snapshots (λ _, {[ example_id "a" := example_files; example_id "b" := example_files;
                         example_id "c" := example_files ]}) empty_disk.
Definition process_of (s : catalog_system) : Runtime * Disk := (default (NewRuntime 0) s.1, s.2).
Definition routed (generation : Z) (c : ascii) (s : Runtime * Disk) : Runtime * Disk :=
  process_of (catalog_step "/srv" true (Some s.1, s.2)
    (EvReplaceRoutes generation (generation + 1) {[ "/payments" := example_snapshot c ]})).
Definition server_1 : Runtime * Disk := routed 7 "a" (NewRuntime 7, stocked_disk).
Definition admission_a : Admission := MkAdmission "/payments" (example_snapshot "a") false.
Definition server_2 : Runtime * Disk := ((AdmitSnapshot "/payments" "" server_1.1).1, server_1.2).
Definition server_3 : Runtime * Disk := routed 8 "b" server_2.
Definition collected_server : (Runtime * Disk) * res unit := GarbageCollect server_3.

Lemma collection_spares_snapshots_in_use_witness :
  (dk_snapshots collected_server.1.2 !! example_id "a" = Some example_files
   ∧ dk_snapshots collected_server.1.2 !! example_id "c" = None)
  ∧ let used id := mounted_snapshot (rn_table server_3.1) id
                 ∨ ∃ admission, admission ∈ [admission_a] ∧ rs_ID (ad_Snapshot admission) = id in
  collected_server.1.1 = server_3.1
  ∧ collected_server.1.2
    = put_fates (dk_fates collected_server.1.2) (upd_snapshots (λ _, dk_snapshots collected_server.1.2) server_3.2)
  ∧ (∀ id, used id → dk_snapshots collected_server.1.2 !! id = dk_snapshots server_3.2 !! id)
  ∧ (∀ id, dk_snapshots collected_server.1.2 !! id = dk_snapshots server_3.2 !! id
           ∨ dk_snapshots collected_server.1.2 !! id = None)
  ∧ (collected_server.2 = Ok tt → ∀ id, is_Some (dk_snapshots collected_server.1.2 !! id) → used id).
Proof.
  split; [split; vm_compute; reflexivity|].
  apply (collection_spares_snapshots_in_use "/srv" true server_3.1 server_3.2 [admission_a] collected_server.1
    collected_server.2).
  - eapply (serving_step _ _ server_2.1 server_2.2 [admission_a]
      (EvReplaceRoutes 8 9 {[ "/payments" := example_snapshot "b" ]})); [|reflexivity|vm_compute; reflexivity].
    eapply (serving_admit _ _ server_1.1 server_2.2 [] "/payments" ""); [|vm_compute; reflexivity|vm_compute; reflexivity].
    eapply (serving_step _ _ (NewRuntime 7) stocked_disk []
      (EvReplaceRoutes 7 8 {[ "/payments" := example_snapshot "a" ]})); [|reflexivity|vm_compute; reflexivity].
    apply serving_new.
  - vm_compute. reflexivity.
Defined.
End collection_example.
