(* ===== verification/CatalogRecovery.v ===== *)
(** * Crash recovery of catalog activations

    Whatever fails during a transition, the next start finds either the table
    before it or the complete table after it, and removes the journal. *)

From S2P Require Import Prelude GoString GoJson Identity.
From S2P Require Import CatalogIdentity.
From S2P Require Import CatalogModel.
From S2P Require Import CatalogRuntime.
From S2P Require Import CatalogDisk.
From S2P Require Import CatalogStore.
From S2P Require Import Activation.
From S2P Require Import CatalogSafety.
From S2P Require Import CatalogRuns.
From S2P Require Import CatalogCollect.

(** ** Calm disks: nothing fails *)

Definition calm (d : Disk) : Prop := dk_fates d = [].

Lemma bind_run {S A B} (m : stM S A) (f : A → stM S B) s s' a :
  m s = (s', Ok a) → (m ≫= f) s = f a s'.
Proof. intros E. unfold mbind, stM_bind. by rewrite E. Qed.
Lemma lift_run {S A B} (r : res A) (f : A → stM S B) s a : r = Ok a → (lift r ≫= f) s = f a s.
Proof. by intros ->. Qed.
Lemma wrap_run {S A} (m : stM S A) w s s' a : m s = (s', Ok a) → st_wrap m w s = (s', Ok a).
Proof. intros E. by apply st_wrap_ok. Qed.
Lemma on_disk_run {A} (op : io A) (rt : Runtime) d d' a : op d = (d', Ok a) → on_disk op (rt, d) = ((rt, d'), Ok a).
Proof. intros E. by apply on_snd_ok. Qed.

Lemma put_fates_id d : calm d → put_fates [] d = d.
Proof. unfold calm. destruct d; simpl; by intros ->. Qed.
Lemma examine_calm e d : calm d → examine e d = (d, Ok tt).
Proof.
  intros Hd. unfold examine, next_fate, mbind, stM_bind. unfold calm in Hd. rewrite Hd. simpl.
  by rewrite (put_fates_id d Hd).
Qed.
Lemma inspect_calm d : calm d → inspect d = (d, Ok tt).
Proof. apply examine_calm. Qed.
Lemma ctx_calm d : calm d → ctx_Err d = (d, Ok tt).
Proof. apply examine_calm. Qed.
Lemma sync_calm d : calm d → SyncDirectory d = (d, Ok tt).
Proof. apply examine_calm. Qed.
Lemma attempt_calm f d : calm d → attempt f d = (f d, Ok tt).
Proof.
  intros Hd. unfold attempt, next_fate, mbind, stM_bind, modify. unfold calm in Hd. rewrite Hd. simpl.
  by rewrite (put_fates_id d Hd).
Qed.
Lemma write_calm path f d : calm d → DurableAtomicWrite path f d = (f d, Ok tt).
Proof.
  intros Hd. unfold DurableAtomicWrite, next_fate, mbind, stM_bind, modify. unfold calm in Hd. rewrite Hd. simpl.
  by rewrite (put_fates_id d Hd).
Qed.

(** ** Verification of a snapshot reads its files only *)

(** [op] changes nothing but the fates, and what it answers without error it
    answers again on any calm disk with the same files of [id]. *)
Definition reader {A} (id : SnapshotID) (op : io A) : Prop :=
  ∀ d, (∃ l, (op d).1 = put_fates l d)
  ∧ ∀ a, (op d).2 = Ok a → ∀ d0, calm d0 → dk_snapshots d0 !! id = dk_snapshots d !! id → op d0 = (d0, Ok a).

Section reader.
Context (id : SnapshotID).

Lemma reader_bind {A B} (op : io A) (f : A → io B) :
  reader id op → (∀ a, reader id (f a)) → reader id (op ≫= f).
Proof.
  intros Hop Hf d. destruct (Hop d) as [[l El] Ho]. unfold mbind, stM_bind.
  destruct (op d) as [d1 [a|e]] eqn:E; simpl in El; subst d1; [|split; [by exists l|done]].
  destruct (Hf a (put_fates l d)) as [[l' El'] Hf'].
  split; [exists l'; by rewrite El'|]. intros b Hb d0 Hd0 Es.
  rewrite (Ho a eq_refl d0 Hd0 Es). by apply Hf'.
Qed.
Lemma reader_ret {A} (a : A) : reader id (mret a).
Proof. intros d. split; [exists (dk_fates d); by destruct d|]. by intros a' [= <-] d0. Qed.
Lemma reader_lift {A} (r : res A) : reader id (lift r).
Proof. intros d. split; [exists (dk_fates d); by destruct d|]. intros a' Hr d0 _ _. unfold lift in *. by simpl in Hr; rewrite Hr. Qed.
Lemma reader_wrap {A} (op : io A) w : reader id op → reader id (st_wrap op w).
Proof.
  intros Hop d. destruct (Hop d) as [Hl Ho]. unfold st_wrap. destruct (op d) as [d1 [a|e]]; simpl in *; split; try done.
  intros a' [= <-] d0 Hd0 Es. by rewrite (Ho a eq_refl d0 Hd0 Es).
Qed.
Lemma reader_examine e : reader id (examine e).
Proof.
  intros d. unfold examine, next_fate, mbind, stM_bind. split.
  - exists (tail (dk_fates d)). by destruct (hd Done (dk_fates d)).
  - intros [] _ d0 Hd0 _. by apply examine_calm.
Qed.
Lemma reader_files : reader id (snapshot_files id).
Proof.
  intros d. split; [exists (dk_fates d); by destruct d|]. intros a [= <-] d0 _ Es. unfold snapshot_files, gets.
  by rewrite Es.
Qed.
End reader.

Ltac reader_step :=
  match goal with
  | |- reader _ (mbind _ _) => apply reader_bind; [|intros ?]
  | |- reader _ (mret _) => apply reader_ret
  | |- reader _ (lift _) => apply reader_lift
  | |- reader _ (st_wrap _ _) => apply reader_wrap
  | |- reader _ (examine _) => apply reader_examine
  | |- reader _ inspect => apply reader_examine
  | |- reader _ ctx_Err => apply reader_examine
  | |- reader _ (snapshot_files _) => apply reader_files
  | |- reader _ (match _ with _ => _ end) => case_match
  end.

Section preflight.
Context `{SnapshotCodec} (root : string) (resourceLimits : bool).

Lemma reader_read_bounded id file path maximum : reader id (read_bounded id file path maximum).
Proof. unfold read_bounded. repeat reader_step. Qed.
Lemma reader_verify_children location id children verified :
  reader id (verify_children location id children verified).
Proof.
  revert verified. induction children as [|child children IH]; intros verified; simpl; [reader_step|].
  unfold verifyFile. repeat first [reader_step | apply IH].
Qed.
Lemma reader_Preflight id : reader id (Preflight root resourceLimits id).
Proof.
  unfold Preflight. repeat first [reader_step | apply reader_read_bounded | apply reader_verify_children].
Qed.

(** The files of [id] on [d] verify as [snapshot]. *)
Definition preflights (d : Disk) (id : SnapshotID) (snapshot : RuntimeSnapshot) : Prop :=
  ∀ d0, calm d0 → dk_snapshots d0 !! id = dk_snapshots d !! id →
    Preflight root resourceLimits id d0 = (d0, Ok snapshot).

Lemma Preflight_ok id d d' snapshot : Preflight root resourceLimits id d = (d', Ok snapshot) →
  (∃ l, d' = put_fates l d) ∧ preflights d id snapshot.
Proof.
  intros Hp. destruct (reader_Preflight id d) as [Hl Ho]. rewrite Hp in Hl, Ho. simpl in *.
  split; [done|]. intros d0. by apply Ho.
Qed.
Lemma preflights_calm d id snapshot :
  calm d → preflights d id snapshot → Preflight root resourceLimits id d = (d, Ok snapshot).
Proof. intros Hd Hp. by apply Hp. Qed.
Lemma preflights_same d d' id snapshot :
  dk_snapshots d' !! id = dk_snapshots d !! id → preflights d id snapshot → preflights d' id snapshot.
Proof. intros E Hp d0 Hd0 E0. apply Hp; congruence. Qed.

Lemma read_bounded_present id file path maximum d d' data :
  read_bounded id file path maximum d = (d', Ok data) → is_Some (dk_snapshots d !! id).
Proof.
  unfold read_bounded, snapshot_files. rewrite gets_bind.
  destruct (dk_snapshots d !! id) as [files|] eqn:E; [eauto|]. simpl.
  assert (lookup_file ∅ file = Missing ∨ lookup_file ∅ file = NotRegular) as [Hl|Hl]
    by (unfold lookup_file; rewrite lookup_empty; case_match; eauto).
  - rewrite Hl, st_bind_ok. by intros (? & ? & _ & ?).
  - rewrite Hl. intros Hw%st_wrap_ok. apply st_bind_ok in Hw as (? & ? & _ & ?). done.
Qed.

Definition preflight_facts (d : Disk) (id : SnapshotID) (snapshot : RuntimeSnapshot) : Prop :=
  rs_ID snapshot = id ∧ validSnapshotID id = true ∧ rs_Location snapshot = path_join root ("snapshots/" +:+ id)
  ∧ is_Some (dk_snapshots d !! id)
  ∧ (∃ data, DecodeCatalogWithResourceLimits data resourceLimits = Ok (rs_Directory snapshot))
  ∧ ∃ data, DecodeSearchDirectoryWithResourceLimits data resourceLimits = Ok (rs_Search snapshot).

Lemma preflights_facts d id snapshot : preflights d id snapshot → preflight_facts d id snapshot.
Proof.
  intros Hp. specialize (Hp (put_fates [] d) eq_refl eq_refl). unfold preflight_facts.
  change (dk_snapshots d) with (dk_snapshots (put_fates [] d)). revert Hp. generalize (put_fates [] d). clear d. intros d.
  unfold Preflight. rewrite lift_bind_ok. intros (location & Hl & Hp).
  unfold snapshotPath in Hl. go_inv.
  apply st_bind_ok in Hp as (d1 & bytes & Hm%read_bounded_present & Hp).
  apply lift_bind_ok in Hp as (manifest & _ & Hp). apply lift_bind_ok in Hp as ([] & _ & Hp).
  apply st_bind_ok in Hp as (d2 & children & _ & Hp). apply lift_bind_ok in Hp as (ci & _ & Hp).
  apply st_bind_ok in Hp as (d3 & cbytes & _ & Hp). apply lift_bind_ok in Hp as (directory & Hd%wrap_err_ok & Hp).
  apply lift_bind_ok in Hp as ([] & _ & Hp). apply lift_bind_ok in Hp as (si & _ & Hp).
  apply st_bind_ok in Hp as (d4 & sbytes & _ & Hp). apply lift_bind_ok in Hp as (search & Hs%wrap_err_ok & Hp).
  apply lift_bind_ok in Hp as ([] & _ & [= _ <-]). simpl. repeat split; eauto.
Qed.
End preflight.

(** What the codec checks of every artifact it decodes
    (catalogjson.validateCatalog and validateSearchDirectory). *)
Class CodecLaws `{SnapshotCodec} : Prop := {
  decoded_catalog data limits directory :
    DecodeCatalogWithResourceLimits data limits = Ok directory →
    ca_SchemaVersion directory = 1 ∧ ValidateCatalogID (ca_CatalogID directory) = Ok tt;
  decoded_search data limits search :
    DecodeSearchDirectoryWithResourceLimits data limits = Ok search → sdir_SchemaVersion search = 1;
}.

(** ** Text *)

Lemma catalog_id_text id : ValidateCatalogID id = Ok tt → valid_utf8 id = true ∧ id ≠ "".
Proof.
  unfold ValidateCatalogID, validateCatalogKey, ValidateCanonicalIdentity. intros Hv.
  apply seq_ok in Hv as [Hv _]. apply seq_ok in Hv as [Hu Hv]. go_inv. split; [done|].
  intros ->. by vm_compute in Hv.
Qed.

Lemma lower_hex_valid s : forallb is_lower_hex (runes s) = true → valid_utf8 s = true.
Proof.
  unfold runes, valid_utf8. induction (decode (bytes_of s)) as [|[r bs] segs IH]; [done|]. simpl.
  intros [Hr Hl]%andb_true_iff. destruct r as [r|]; [by apply IH|by vm_compute in Hr].
Qed.

Lemma snapshot_id_text id : validSnapshotID id = true → valid_utf8 id = true ∧ id ≠ "".
Proof.
  unfold validSnapshotID. intros Hv. go_inv. split; [|intros ->; discriminate].
  rewrite (prefix_split snapshot_prefix id) by done. by apply valid_app; [|apply lower_hex_valid].
Qed.

Lemma path_clean_nonempty p : path_clean p ≠ "".
Proof. unfold path_clean. repeat case_match; go_inv; try done. Qed.

Lemma mounts_agree mount : validActivationMount mount = true ↔ validateRuntimeMount mount = Ok tt.
Proof.
  assert (ContainsAny mount "\\?#" = ContainsAny mount "\?#") as E.
  { assert (∀ b, existsb (Z.eqb b) (bytes_of "\\?#") = existsb (Z.eqb b) (bytes_of "\?#")) as Eb
      by (intros b; simpl; by destruct (b =? _)).
    unfold ContainsAny. induction (bytes_of mount) as [|b l IH]; [done|]. cbn [existsb]. by rewrite Eb, IH. }
  unfold validActivationMount, validateRuntimeMount. rewrite E. case_bool_decide; [done|].
  rewrite seq_ok, throw_if_ok, for_each_ok.
  destruct (_ || _); [naive_solver|]. rewrite forallb_Forall.
  split; intros Hf; [split; [done|]|destruct Hf as [_ Hf]]; (eapply Forall_impl; [exact Hf|]); simpl;
    intros x; rewrite throw_if_ok, negb_true_iff; done.
Qed.

Section recovery.
Context `{SnapshotCodec} `{!CodecLaws} (root : string) (resourceLimits : bool).
Abbreviation verifies := (preflights root resourceLimits).

(** ** Sound tables: everything they name verifies *)

Definition sound_snapshot (d : Disk) (snapshot : RuntimeSnapshot) : Prop :=
  ∃ verified, verifies d (rs_ID snapshot) verified ∧ catalog_of verified = catalog_of snapshot.

Definition sound_state (d : Disk) (state : MountState) : Prop :=
  sound_snapshot d (ms_Active state)
  ∧ ∀ previous, ms_Previous state = Some previous →
      sound_snapshot d previous ∧ catalog_of previous = catalog_of (ms_Active state)
      ∧ rs_ID previous ≠ rs_ID (ms_Active state).

Record sound (d : Disk) (table : RouteTable) : Prop := {
  sound_mounts mount state : tbl_Mounts table !! mount = Some state →
    (validateRuntimeMount mount = Ok tt ∧ valid_utf8 mount = true)
    ∧ tbl_Tombstones table !! mount = None ∧ sound_state d state;
  sound_tombstones mount tombstone : tbl_Tombstones table !! mount = Some tombstone →
    (validateRuntimeMount mount = Ok tt ∧ valid_utf8 mount = true) ∧ validateRuntimeTombstone tombstone = Ok tt;
  sound_fits : encodeRouteTable resourceLimits table = Ok (persisted_table table);
}.

(** Memory and directory agree and no transition is pending. *)
Definition settled (s : Runtime * Disk) : Prop :=
  dk_journal s.2 = None ∧ dk_routes s.2 = Some (persisted_table (rn_table s.1)) ∧ sound s.2 (rn_table s.1).

Lemma verified_valid d id verified : verifies d id verified →
  validateRuntimeSnapshot verified = Ok tt ∧ rs_ID verified = id ∧ validSnapshotID id = true
  ∧ ValidateCatalogID (catalog_of verified) = Ok tt.
Proof.
  intros (Hid & Hv & Hl & _ & [data Hd%decoded_catalog] & [data' Hs%decoded_search])%preflights_facts.
  destruct Hd as [Hd Hc]. split; [|done].
  unfold validSnapshotID in Hv. apply andb_true_iff in Hv as [[Hp Hlen]%andb_true_iff Hhex].
  unfold validateRuntimeSnapshot. rewrite Hid, Hl, Hd, Hs, seq_ok, throw_if_ok, for_each_ok. split.
  - rewrite Hp, Hlen. simpl. rewrite !orb_false_r. apply bool_decide_eq_false, path_clean_nonempty.
  - rewrite forallb_Forall in Hhex. eapply Forall_impl; [exact Hhex|]. simpl. by intros x ->.
Qed.

Lemma sound_snapshot_facts d snapshot : sound_snapshot d snapshot →
  validSnapshotID (rs_ID snapshot) = true ∧ ValidateCatalogID (catalog_of snapshot) = Ok tt.
Proof. intros (verified & (_ & _ & ? & Hc)%verified_valid & E). by rewrite <-E. Qed.

Lemma tombstone_facts tombstone : validateRuntimeTombstone tombstone = Ok tt →
  validSnapshotID (tb_SnapshotID tombstone) = true ∧ ValidateCatalogID (tb_CatalogID tombstone) = Ok tt
  ∧ (tb_State tombstone = TombstoneWithdrawn ∨ tb_State tombstone = TombstoneDeleted).
Proof.
  unfold validateRuntimeTombstone, validateTombstoneState. intros Hv.
  apply seq_ok in Hv as [Hs%throw_if_ok Hv]. apply seq_ok in Hv as [_ Hv].
  apply seq_ok in Hv as [Hid%wrap_err_ok Hc%wrap_err_ok]. split; [|split; [done|]].
  - unfold validateRuntimeSnapshot in Hid. apply seq_ok in Hid as [Hid%throw_if_ok Hf%for_each_ok].
    apply orb_false_iff in Hid as [[[[Hp Hlen]%orb_false_iff _]%orb_false_iff _]%orb_false_iff _].
    apply negb_false_iff in Hp, Hlen. unfold validSnapshotID. cbn [rs_ID] in *. rewrite Hp, Hlen. simpl.
    rewrite forallb_Forall. eapply Forall_impl; [exact Hf|]. intros x. rewrite throw_if_ok. apply negb_false_iff.
  - apply andb_false_iff in Hs as [Hs|Hs]; go_inv; eauto.
Qed.

(** ** What a sound table becomes on disk *)

Lemma reread_map_id {A} (f : A → A) (M : gmap string A) :
  (∀ k x, M !! k = Some x → valid_utf8 k = true ∧ f x = x) → reread_map f M = M.
Proof.
  intros Hm. unfold reread_map.
  assert (∀ l : list (string * A), (∀ kv, kv ∈ l → M !! kv.1 = Some kv.2) → (λ kv : string * A, (reread_string kv.1, f kv.2)) <$> l = l) as Hid.
  { induction l as [|[k x] l IH]; intros Hl; [done|]. simpl.
    destruct (Hm k x) as [Hk Hx]; [apply (Hl (k, x)); by left|]. rewrite reread_string_valid, Hx by done. f_equal.
    apply IH. intros kv Hkv. apply Hl. by right. }
  rewrite Hid by (intros [k x] Hkv; rewrite elem_of_reverse, sort_by_elem_of in Hkv; by apply elem_of_map_to_list).
  rewrite <-(list_to_map_to_list M) at 2. apply list_to_map_proper.
  - rewrite reverse_Permutation, sort_by_perm. apply NoDup_fst_map_to_list.
  - by rewrite reverse_Permutation, sort_by_perm.
Qed.

Lemma previous_id_facts d state : sound_state d state →
  valid_utf8 (previous_id state) = true
  ∧ (previous_id state = "" ↔ ms_Previous state = None)
  ∧ (previous_id state ≠ "" → validSnapshotID (previous_id state) = true
     ∧ previous_id state ≠ rs_ID (ms_Active state)).
Proof.
  intros [_ Hp]. unfold previous_id. destruct (ms_Previous state) as [previous|]; [|done]. simpl.
  destruct (Hp previous eq_refl) as ([Hv _]%sound_snapshot_facts & _ & Hne).
  destruct (snapshot_id_text _ Hv) as [Hu Hn]. done.
Qed.

Lemma mount_text d state : sound_state d state → reread_mount (durable_mount state) = durable_mount state.
Proof.
  intros Hs. unfold reread_mount, durable_mount. simpl.
  destruct (previous_id_facts _ _ Hs) as [Hp _]. destruct Hs as [Ha _].
  apply sound_snapshot_facts in Ha as [[Hi _]%snapshot_id_text [Hc _]%catalog_id_text].
  by rewrite !reread_string_valid.
Qed.

Lemma tombstone_text tombstone : validateRuntimeTombstone tombstone = Ok tt →
  reread_tombstone (durableTombstone tombstone) = durableTombstone tombstone.
Proof.
  intros ([Hi _]%snapshot_id_text & [Hc _]%catalog_id_text & Hs)%tombstone_facts.
  unfold reread_tombstone, durableTombstone. simpl. rewrite !reread_string_valid; [done..|].
  by destruct Hs as [-> | ->].
Qed.

Lemma routes_text d table : sound d table → decodeStrict (persisted_table table) = Ok (persisted_table table).
Proof.
  intros Hs. unfold decodeStrict.
  assert (durable_reread (persisted_table table) = persisted_table table) as ->.
  { unfold persisted_table. cbn [durable_reread durable_routes drt_Mounts drt_Tombstones drt_SchemaVersion drt_Generation].
    f_equal; [simpl; f_equal|]; apply reread_map_id; intros k x; rewrite lookup_fmap, fmap_Some;
      intros (y & Hy & ->).
    - destruct (sound_mounts _ _ Hs k y Hy) as ([_ Hk] & _ & Hy'). split; [done|]. by eapply mount_text.
    - destruct (sound_tombstones _ _ Hs k y Hy) as ([_ Hk] & Hy'). split; [done|]. by apply tombstone_text. }
  by rewrite bool_decide_true.
Qed.

Lemma encode_facts table p : encodeRouteTable resourceLimits table = Ok p →
  (resourceLimits = true → Z.of_nat (size (tbl_Mounts table)) + Z.of_nat (size (tbl_Tombstones table)) ≤ maxDurableMounts
     ∧ data_len (Marshal (persisted_table table)) ≤ maxDurableRouteTableBytes).
Proof.
  unfold encodeRouteTable, encodeRouteTableWithResourceLimits. intros Hp ->. go_inv. simpl in *. go_inv. lia.
Qed.

Lemma valid_mount_nonempty' mount : validateRuntimeMount mount = Ok tt → mount ≠ "".
Proof. by intros Hv ->. Qed.

Lemma optional_catalog id : ValidateCatalogID id = Ok tt → validate_optional_catalog id = Ok tt.
Proof. unfold validate_optional_catalog. intros ->. by case_bool_decide. Qed.

Lemma durable_tombstone_valid tombstone : validateRuntimeTombstone tombstone = Ok tt →
  validateDurableTombstone (durableTombstone tombstone) = Ok tt.
Proof.
  intros (Hi & Hc & Hs)%tombstone_facts. unfold validateDurableTombstone, durableTombstone. simpl.
  rewrite Hi, Hc. by destruct Hs as [-> | ->].
Qed.

Lemma routes_valid d table protectedMount : sound d table →
  validateDurableRouteTableExceptWithResourceLimits (persisted_table table) protectedMount resourceLimits = Ok tt.
Proof.
  intros Hs. unfold validateDurableRouteTableExceptWithResourceLimits, persisted_table. cbn [drt_Mounts drt_Tombstones].
  rewrite !seq_ok, throw_if_ok, !for_map_ok. split; [|split].
  - rewrite !map_size_fmap. destruct resourceLimits eqn:El; [|done]. simpl. apply Z.ltb_ge.
    apply (encode_facts table (persisted_table table)); [|done]. rewrite El. pose proof (sound_fits _ _ Hs) as Hf.
    by rewrite El in Hf.
  - intros mount entry. rewrite lookup_fmap, fmap_Some. intros (state & Hm & ->).
    destruct (sound_mounts _ _ Hs _ _ Hm) as ([Hv _] & _ & Hstate). unfold validate_durable_mount.
    rewrite (proj2 (mounts_agree mount) Hv). simpl. case_bool_decide; [done|].
    destruct (previous_id_facts _ _ Hstate) as (_ & _ & Hp). destruct Hstate as [Ha _].
    apply sound_snapshot_facts in Ha as [Hi Hc]. rewrite Hi, (optional_catalog _ Hc). simpl.
    case_bool_decide as E; [done|]. destruct (Hp E) as [-> Hne]. by rewrite bool_decide_false.
  - intros mount entry. rewrite lookup_fmap, fmap_Some. intros (tombstone & Hm & ->).
    destruct (sound_tombstones _ _ Hs _ _ Hm) as ([Hv _] & Ht).
    rewrite (proj2 (mounts_agree mount) Hv). simpl. case_bool_decide; [done|]. by rewrite durable_tombstone_valid.
Qed.

(** *** Reading it back *)

Lemma read_calm {A} `{DurableRecord A} (file : Disk → option A) limit d :
  calm d → (∀ x, file d = Some x → 0 < limit → data_len (Marshal x) ≤ limit) →
  readDurableState file limit d = (d, Ok (file d)).
Proof.
  intros Hd Hlimit. unfold readDurableState. rewrite (bind_run _ _ _ _ _ (inspect_calm _ Hd)), gets_bind.
  destruct (file d) as [x|] eqn:Ex; [|done]. rewrite (bind_run _ _ _ _ _ (inspect_calm _ Hd)).
  rewrite (lift_run _ _ _ tt); [done|]. apply throw_if_ok. specialize (Hlimit x eq_refl).
  destruct (Z.ltb_spec 0 limit); [simpl; apply Z.ltb_ge; lia|done].
Qed.

Lemma sound_clone d table : sound d table → sound d (cloneRouteTable table) ∧
  persisted_table (cloneRouteTable table) = persisted_table table.
Proof.
  intros Hs.
  assert (persisted_table (cloneRouteTable table) = persisted_table table) as Hp.
  { unfold persisted_table. simpl. f_equal. f_equal. rewrite <-map_fmap_compose. apply map_fmap_ext.
    intros k x _. unfold durable_mount, previous_id. simpl. by destruct (ms_Previous x). }
  split; [|done]. constructor.
  - intros mount state. simpl. rewrite lookup_fmap, fmap_Some. intros (state' & Hm & ->).
    destruct (sound_mounts _ _ Hs _ _ Hm) as (Hv & Ht & Ha & Hprev). split; [done|]. split; [done|].
    split; [done|]. simpl. intros previous. destruct (ms_Previous state') as [p|]; [|done]. simpl. intros [= <-].
    by apply (Hprev p).
  - apply (sound_tombstones _ _ Hs).
  - pose proof (sound_fits _ _ Hs) as Hf. unfold encodeRouteTable, encodeRouteTableWithResourceLimits in *.
    simpl. rewrite map_size_fmap, Hp. done.
Qed.

(** *** One mount *)

Lemma verdict_run {A} (op : io A) failed d d' a : op d = (d', Ok a) → verdict op failed d = (d', Ok (Some a)).
Proof. intros E. unfold verdict. by rewrite E. Qed.

Lemma restore_mount_sound d mount state : calm d → sound_state d state →
  ∃ state', restore_mount root resourceLimits mount (durable_mount state) d = (d, Ok (Some state', false))
    ∧ durable_mount state' = durable_mount state ∧ sound_state d state'
    ∧ validateRuntimeSnapshot (ms_Active state') = Ok tt
    ∧ ∀ previous, ms_Previous state' = Some previous → validateRuntimeSnapshot previous = Ok tt.
Proof.
  intros Hd Hs. pose proof (previous_id_facts _ _ Hs) as (_ & Hnone & _).
  destruct Hs as [(active & Hact & Ec) Hprev].
  pose proof (verified_valid _ _ _ Hact) as (Hva & Hia & _ & Hca).
  destruct (catalog_id_text _ Hca) as [_ Hne].
  unfold restore_mount, durable_mount. cbn [dm_Active dm_CatalogID dm_Previous].
  assert (preflight_bound root resourceLimits (rs_ID (ms_Active state)) (catalog_of (ms_Active state)) d = (d, Ok active)) as Hb.
  { unfold preflight_bound. rewrite (bind_run _ _ _ _ _ (preflights_calm _ _ _ _ _ Hd Hact)), (lift_run _ _ _ tt); [done|].
    apply throw_if_ok. rewrite (bool_decide_true _ Ec). apply andb_false_r. }
  rewrite (bind_run _ _ _ _ _ (verdict_run _ _ _ _ _ Hb)).
  destruct (ms_Previous state) as [previous|] eqn:Ep.
  - destruct (Hprev previous eq_refl) as ((verified & Hver & Ecv) & Ecc & Hid).
    pose proof (verified_valid _ _ _ Hver) as (Hvv & Hiv & Hidv & _).
    unfold previous_id in *. rewrite Ep in *. simpl in Hnone. cbn [from_option].
    rewrite bool_decide_false by (rewrite Hnone; done).
    rewrite (bind_run _ _ _ _ _ (verdict_run _ _ _ _ _ (preflights_calm _ _ _ _ _ Hd Hver))).
    rewrite (bool_decide_true (catalog_of verified = _)) by congruence.
    rewrite (bool_decide_true (catalog_of verified = _)) by congruence. rewrite andb_false_r. simpl.
    eexists. split; [done|]. unfold previous_id. simpl. rewrite Hia, Hiv, Ec. split; [done|].
    split; [|split; [done|]].
    + split; [by exists active; simpl; rewrite Hia|]. intros p [= <-]. simpl. rewrite Hiv, Hia.
      split; [by exists verified; rewrite Hiv|]. split; [congruence|done].
    + by intros p [= <-].
  - unfold previous_id in *. rewrite Ep in *. simpl. eexists. split; [done|]. unfold previous_id. simpl.
    rewrite Hia, Ec. split; [done|]. split; [|split; [done|by intros]].
    split; [by exists active; simpl; rewrite Hia|by intros].
Qed.

(** *** The whole table *)

Definition valid_state (state : MountState) : Prop :=
  validateRuntimeSnapshot (ms_Active state) = Ok tt
  ∧ ∀ previous, ms_Previous state = Some previous → validateRuntimeSnapshot previous = Ok tt.
Definition restored_state (d : Disk) (state : MountState) : Prop := sound_state d state ∧ valid_state state.

Lemma restore_mounts_sound d pm entries table repaired :
  calm d → NoDup entries.*1 →
  (∀ mount entry, (mount, entry) ∈ entries → ∃ state, entry = durable_mount state ∧ sound_state d state) →
  (∀ mount entry, (mount, entry) ∈ entries → mount ≠ pm → tbl_Tombstones table !! mount = None) →
  ∃ table', restore_mounts root resourceLimits pm entries table repaired d = (d, Ok (table', repaired))
    ∧ tbl_Tombstones table' = tbl_Tombstones table ∧ tbl_Generation table' = tbl_Generation table
    ∧ (∀ k, durable_mount <$> tbl_Mounts table' !! k =
        match (if decide (k = pm) then None else (list_to_map entries : gmap string durableMountV1) !! k) with
        | Some entry => Some entry
        | None => durable_mount <$> tbl_Mounts table !! k
        end)
    ∧ (∀ k state, tbl_Mounts table' !! k = Some state → tbl_Mounts table !! k = Some state ∨ restored_state d state).
Proof.
  intros Hd. revert table repaired. induction entries as [|[mount entry] entries IH]; intros table repaired Hnd He Ht.
  { exists table. simpl. split; [done|]. split; [done|]. split; [done|]. split; [|by left].
    intros k. by destruct (decide _). }
  simpl in Hnd. apply NoDup_cons in Hnd as [Hn Hnd].
  assert (∀ k e, (k, e) ∈ entries → k ≠ mount) as Hne.
  { intros k e Hin ->. apply Hn, list_elem_of_fmap. by exists (mount, e). }
  simpl. case_bool_decide as Epm.
  - destruct (IH table repaired Hnd) as (table' & Hr & Et & Eg & Hk & Hs).
    { intros k e Hin. apply (He k e). by right. }
    { intros k e Hin. apply (Ht k e). by right. }
    exists table'. split; [done|]. split; [done|]. split; [done|]. split; [|done].
    intros k. rewrite Hk. destruct (decide (k = pm)); [done|]. by rewrite lookup_insert_ne by congruence.
  - destruct (He mount entry) as (state & -> & Hstate); [by left|].
    destruct (restore_mount_sound d mount state Hd Hstate) as (state' & Hrun & Ed & Hs' & Hv & Hvp).
    rewrite (lift_run _ _ _ tt).
    2: { apply throw_if_ok, bool_decide_eq_false. rewrite (Ht mount (durable_mount state)); [by intros [? ?]|by left|done]. }
    rewrite (bind_run _ _ _ _ _ Hrun). rewrite orb_false_r.
    destruct (IH (with_mounts <[mount:=state']> table) repaired Hnd) as (table' & Hr & Et & Eg & Hk & Hs).
    { intros k e Hin. apply (He k e). by right. }
    { intros k e Hin. apply (Ht k e). by right. }
    exists table'. split; [done|]. split; [done|]. split; [done|]. split.
    + intros k. rewrite Hk. destruct (decide (k = mount)) as [->|Hkm].
      * rewrite (decide_False (P:=mount = pm)) by done. rewrite lookup_insert_eq.
        assert ((list_to_map entries : gmap string durableMountV1) !! mount = None) as ->
          by (by apply not_elem_of_list_to_map_1).
        simpl. rewrite ?lookup_insert_eq. simpl. by rewrite Ed, decide_False by done.
      * simpl. rewrite !lookup_insert_ne by done. done.
    + intros k st Hst. destruct (Hs k st Hst) as [Hin|]; [|by right]. simpl in Hin.
      destruct (decide (k = mount)) as [->|Hkm]; [|rewrite lookup_insert_ne in Hin by done; by left].
      rewrite lookup_insert_eq in Hin. injection Hin as <-. by right.
Qed.

Lemma restore_runtime_run table runtime d : rn_refs runtime = ∅ →
  (∀ mount state, tbl_Mounts table !! mount = Some state →
     validateRuntimeMount mount = Ok tt ∧ tbl_Tombstones table !! mount = None ∧ valid_state state) →
  (∀ mount tombstone, tbl_Tombstones table !! mount = Some tombstone →
     validateRuntimeMount mount = Ok tt ∧ validateRuntimeTombstone tombstone = Ok tt) →
  restore_runtime table (runtime, d) = ((MkRuntime (cloneRouteTable table) ∅, d), Ok tt).
Proof.
  intros Hrefs Hm Ht. unfold restore_runtime. apply wrap_run. unfold RestoreTable.
  rewrite (lift_run _ _ _ tt).
  2: { unfold validateRestoredTable. rewrite seq_ok, !for_map_ok. split.
    - intros mount state Hs. destruct (Hm _ _ Hs) as (Hv & Hn & Ha & Hp). rewrite Hv, Ha, Hn. simpl.
      destruct (ms_Previous state) as [previous|]; [|done]. by rewrite Hp.
    - intros mount tombstone Hs. destruct (Ht _ _ Hs) as [-> Hv]. done. }
  rewrite gets_bind. cbn [fst]. rewrite Hrefs, (lift_run _ _ _ tt) by done.
  unfold on_fst, modify. simpl. unfold store_table. by rewrite Hrefs.
Qed.

(** What [routes.json] becomes when the withdrawal of [protected] is unfinished. *)
Definition finish_withdrawal (protected : option activationJournalV1) (table : RouteTable) : RouteTable :=
  match protected with
  | Some j => with_tombstones <[aj_Mount j := journal_tombstone j]> (with_mounts (delete (aj_Mount j)) table)
  | None => table
  end.

(** A start on a calm disk restores a sound table, and finishes the withdrawal
    of a journal of the same generation. *)
Lemma restore_sound d table protected runtime :
  calm d → rn_refs runtime = ∅ → dk_routes d = Some (persisted_table table) → sound d table →
  (∀ j, protected = Some j → aj_Generation j = tbl_Generation table ∧ sound d (finish_withdrawal protected table)) →
  let final := persisted_table (finish_withdrawal protected table) in
  ∃ table', restoreDurableRoutes root resourceLimits protected (runtime, d)
      = ((MkRuntime table' ∅, if protected is Some _ then put_routes final d else d), Ok tt)
    ∧ persisted_table table' = final ∧ sound d table'.
Proof.
  intros Hd Hrefs Hroutes Hs Hp. cbv zeta.
  unfold restoreDurableRoutes. cbv zeta.
  assert (readDurableState dk_routes (if resourceLimits then maxDurableRouteTableBytes else 0) d
    = (d, Ok (Some (persisted_table table)))) as Hread.
  { rewrite read_calm; [by rewrite Hroutes|done|]. rewrite Hroutes. intros x [= <-].
    destruct resourceLimits eqn:El; [|done]. intros _. pose proof (sound_fits _ _ Hs) as Hf.
    apply encode_facts in Hf as [_ ?]; done. }
  rewrite (bind_run _ _ _ _ _ (on_disk_run _ _ _ _ _ (wrap_run _ _ _ _ _ Hread))).
  rewrite (lift_run _ _ _ (persisted_table table)) by (by rewrite (routes_text _ _ Hs)).
  rewrite (lift_run _ _ _ tt) by done.
  set (pm := protected_mount (persisted_table table) protected).
  rewrite (lift_run _ _ _ tt) by (by rewrite (routes_valid _ _ _ Hs)).
  set (tombs := restored_tombstones (persisted_table table) protected pm).
  assert (pm = from_option aj_Mount "" protected) as Epm.
  { unfold pm, protected_mount. destruct protected as [j|]; [|done].
    destruct (Hp j eq_refl) as [-> _]. simpl. by rewrite Z.eqb_refl. }
  assert (tombs = tbl_Tombstones (finish_withdrawal protected table)) as Etombs.
  { unfold tombs, restored_tombstones. cbn [drt_Tombstones persisted_table].
    assert (runtimeTombstone <$> (durableTombstone <$> tbl_Tombstones table) = tbl_Tombstones table) as ->
      by (rewrite <-map_fmap_compose; apply map_fmap_id' || (rewrite map_fmap_ext with (f2 := id); [apply map_fmap_id|by intros ? []])).
    destruct protected as [j|].
    - destruct (Hp j eq_refl) as [_ Hf]. rewrite bool_decide_false.
      + simpl. rewrite Epm. simpl. by rewrite insert_delete_eq.
      + rewrite Epm. simpl. destruct (sound_tombstones _ _ Hf (aj_Mount j) (journal_tombstone j)) as [[Hv _] _].
        * simpl. apply lookup_insert_eq.
        * by apply valid_mount_nonempty'.
    - simpl. rewrite Epm. simpl. apply delete_id.
      destruct (tbl_Tombstones table !! "") as [t|] eqn:Et; [|done].
      by destruct (sound_tombstones _ _ Hs _ _ Et) as [[? _] _]. }
  destruct (restore_mounts_sound d pm (map_to_list (durable_mount <$> tbl_Mounts table))
    (MkRouteTable (tbl_Generation table) ∅ tombs) (negb (bool_decide (pm = "")))) as (table' & Hrun & Et & Eg & Hk & Hst).
  { done. }
  { apply NoDup_fst_map_to_list. }
  { intros mount entry Hin%elem_of_map_to_list. rewrite lookup_fmap, fmap_Some in Hin.
    destruct Hin as (state & Hm & ->). exists state. split; [done|]. by apply (sound_mounts _ _ Hs) in Hm as (_ & _ & ?). }
  { intros mount entry Hin%elem_of_map_to_list Hne. rewrite lookup_fmap, fmap_Some in Hin.
    destruct Hin as (state & Hm & ->). simpl. rewrite Etombs.
    apply (sound_mounts _ _ Hs) in Hm as (_ & Hn & _). rewrite Epm in Hne. destruct protected as [j|]; [|done].
    simpl in *. by rewrite lookup_insert_ne. }
  rewrite (bind_run _ _ _ _ _ (on_disk_run _ _ _ _ _ Hrun)).
  assert (sound d (finish_withdrawal protected table)) as Hfinal
    by (destruct protected as [j|]; [by apply (Hp j)|done]).
  assert (∀ k, durable_mount <$> tbl_Mounts table' !! k
    = durable_mount <$> tbl_Mounts (finish_withdrawal protected table) !! k) as Hmounts.
  { intros k. rewrite Hk, list_to_map_to_list. simpl. rewrite lookup_empty.
    destruct protected as [j|]; rewrite Epm; simpl.
    - destruct (decide (k = aj_Mount j)) as [->|Hkj]; [by rewrite lookup_delete_eq|].
      rewrite lookup_delete_ne, lookup_fmap by done. by destruct (tbl_Mounts table !! k).
    - destruct (decide (k = "")) as [->|]; [|rewrite lookup_fmap; by destruct (tbl_Mounts table !! k)].
      destruct (tbl_Mounts table !! "") as [st|] eqn:Es; [|done].
      by destruct (sound_mounts _ _ Hs _ _ Es) as ([? _] & _). }
  assert (persisted_table table' = persisted_table (finish_withdrawal protected table)) as Hper.
  { unfold persisted_table. rewrite Eg, Et. simpl. rewrite Etombs. f_equal; [by destruct protected|].
    f_equal. apply map_eq. intros k. rewrite !lookup_fmap. apply Hmounts. }
  assert (∀ mount state, tbl_Mounts table' !! mount = Some state →
    (validateRuntimeMount mount = Ok tt ∧ valid_utf8 mount = true) ∧ tbl_Tombstones table' !! mount = None
    ∧ restored_state d state) as Hm'.
  { intros mount state Hm. destruct (Hst _ _ Hm) as [Hn|Hr]; [simpl in Hn; by rewrite lookup_empty in Hn|].
    pose proof (Hmounts mount) as E. rewrite Hm in E. symmetry in E. apply fmap_Some in E as (st & Hm2 & _).
    destruct (sound_mounts _ _ Hfinal _ _ Hm2) as (Hv & Hn & _). rewrite Et. simpl. rewrite Etombs. done. }
  assert (∀ mount tombstone, tbl_Tombstones table' !! mount = Some tombstone →
    (validateRuntimeMount mount = Ok tt ∧ valid_utf8 mount = true) ∧ validateRuntimeTombstone tombstone = Ok tt) as Ht'.
  { rewrite Et. simpl. rewrite Etombs. apply (sound_tombstones _ _ Hfinal). }
  assert (sound d table') as Hs'.
  { constructor; [|done|].
    - intros mount state Hm. destruct (Hm' _ _ Hm) as (? & ? & ? & _). done.
    - pose proof (sound_fits _ _ Hfinal) as Hf.
      unfold encodeRouteTable, encodeRouteTableWithResourceLimits in *. rewrite Hper.
      assert (size (tbl_Mounts table') = size (tbl_Mounts (finish_withdrawal protected table))) as ->.
      { rewrite <-(map_size_fmap durable_mount), <-(map_size_fmap durable_mount (tbl_Mounts (finish_withdrawal _ _))).
        f_equal. apply map_eq. intros k. rewrite !lookup_fmap. apply Hmounts. }
      rewrite Et. simpl. rewrite Etombs. done. }
  exists (cloneRouteTable table').
  destruct (sound_clone _ _ Hs') as [Hsc Hpc]. rewrite Hpc, Hper.
  split; [|done].
  rewrite (bind_run _ _ _ (runtime, if protected is Some _ then put_routes (persisted_table (finish_withdrawal protected table)) d else d) tt).
  - rewrite (restore_runtime_run table'); [by destruct protected|done| |].
    + intros mount state Hm. by destruct (Hm' _ _ Hm) as ([? _] & ? & _ & ?).
    + intros mount tombstone Hm. by destruct (Ht' _ _ Hm) as [[? _] ?].
  - destruct protected as [j|]; rewrite Epm; simpl.
    + assert (bool_decide (aj_Mount j = "") = false) as ->.
      { apply bool_decide_eq_false. destruct (sound_tombstones _ _ Hfinal (aj_Mount j) (journal_tombstone j)) as [[Hv _] _].
        - simpl. apply lookup_insert_eq.
        - by apply valid_mount_nonempty'. }
      simpl. apply on_disk_run, wrap_run. unfold writeRouteTable, writeRouteTableBytes.
      rewrite (lift_run _ _ _ _ (sound_fits _ _ Hs')), Hper. cbn zeta.
      rewrite (lift_run _ _ _ tt).
      2: { apply throw_if_ok. destruct resourceLimits eqn:El; [|done]. simpl. apply Z.ltb_ge.
           pose proof (sound_fits _ _ Hfinal) as Hf. apply encode_facts in Hf as [_ ?]; done. }
      apply wrap_run, write_calm, Hd.
    + done.
Qed.

(** ** Calm runs of the helpers *)

Lemma remove_staged_calm names d : calm d → ∃ st, remove_staged names d = (upd_staging (λ _, st) d, Ok tt).
Proof.
  revert d. induction names as [|name names IH]; intros d Hd; simpl.
  { exists (dk_staging d). by destruct d. }
  unfold remove_staging.
  rewrite (bind_run _ _ _ _ _ (wrap_run _ _ _ _ _ (attempt_calm _ _ Hd))).
  destruct (IH (upd_staging (delete name) d) Hd) as (st & ->). by exists st.
Qed.
Lemma removeIncompleteStaging_calm d : calm d →
  ∃ st, removeIncompleteStaging d = (upd_staging (λ _, st) d, Ok tt).
Proof.
  intros Hd. unfold removeIncompleteStaging.
  rewrite (bind_run _ _ _ _ _ (wrap_run _ _ _ _ _ (inspect_calm _ Hd))), gets_bind. by apply remove_staged_calm.
Qed.
Lemma removeJournal_calm d : calm d → removeJournal d = (put_journal None d, Ok tt).
Proof.
  intros Hd. unfold removeJournal. rewrite gets_bind.
  rewrite (bind_run _ _ _ _ _ (wrap_run _ _ _ _ _ (attempt_calm _ _ Hd))).
  destruct (dk_journal d); [|done]. by apply wrap_run, sync_calm.
Qed.
Lemma writeRouteTable_calm table d : calm d → encodeRouteTable resourceLimits table = Ok (persisted_table table) →
  writeRouteTable resourceLimits table d = (put_routes (persisted_table table) d, Ok tt).
Proof.
  intros Hd Hf. unfold writeRouteTable, writeRouteTableBytes. rewrite (lift_run _ _ _ _ Hf). cbn zeta.
  rewrite (lift_run _ _ _ tt); [by apply wrap_run, write_calm|]. apply throw_if_ok.
  pose proof (encode_facts _ _ Hf) as He. destruct resourceLimits; [|done]. simpl. apply Z.ltb_ge. by apply He.
Qed.

Lemma collect_calm runtime d : calm d →
  ∃ snapshots, GarbageCollect (runtime, d) = ((runtime, upd_snapshots (λ _, snapshots) d), Ok tt).
Proof.
  intros Hd. destruct (GarbageCollect (runtime, d)) as [s r] eqn:Eg.
  assert (∀ retained entries changed d, calm d → ∃ sn b, collect_entries retained entries changed d
    = (upd_snapshots (λ _, sn) d, Ok b)) as Hc.
  { clear. intros retained entries. induction entries as [|id entries IH]; intros changed d Hd; simpl.
    - exists (dk_snapshots d), changed. by destruct d.
    - rewrite (bind_run _ _ _ _ _ (ctx_calm _ Hd)). destruct (retained id); [by apply IH|].
      rewrite (bind_run _ _ _ _ _ (wrap_run _ _ _ _ _ (attempt_calm _ _ Hd))).
      destruct (IH true (upd_snapshots (delete id) d) Hd) as (sn & b & ->). by exists sn, b. }
  unfold GarbageCollect, garbageCollectLocked in Eg. rewrite gets_bind in Eg. cbn [fst] in Eg.
  set (retained := λ id, _ || _) in Eg.
  destruct (Hc retained (sort_strings (map_to_list (dk_snapshots d)).*1) false d Hd) as (sn & b & Ec).
  exists sn. rewrite <-Eg. apply on_disk_run.
  rewrite (bind_run _ _ _ _ _ (wrap_run _ _ _ _ _ (inspect_calm _ Hd))), gets_bind, (bind_run _ _ _ _ _ Ec).
  destruct b; [|done]. by apply wrap_run, sync_calm.
Qed.

(** ** Transitions under way *)

Definition next_withdrawn (mount : string) (tombstone : MountTombstone) (table : RouteTable) : RouteTable :=
  with_tombstones <[mount := tombstone]> (with_mounts (delete mount) (cloneRouteTable table)).
Definition next_reauthorized (mount : string) (candidate : RuntimeSnapshot) (table : RouteTable) : RouteTable :=
  with_mounts <[mount := MkMountState (cloneRuntimeSnapshot candidate) None]>
    (with_tombstones (delete mount) (cloneRouteTable table)).
Definition next_activated (mount : string) (candidate : RuntimeSnapshot) (table : RouteTable) : RouteTable :=
  with_mounts <[mount := MkMountState (cloneRuntimeSnapshot candidate)
    (cloneRuntimeSnapshot <$> (ms_Active <$> tbl_Mounts table !! mount))]> (cloneRouteTable table).

(** [underway d table j next]: the journal [j] takes [table] to [next]. *)
Inductive underway (d : Disk) (table : RouteTable) : activationJournalV1 → RouteTable → Prop :=
  | underway_withdraw mount state tombstone :
      tbl_Mounts table !! mount = Some state → validateRuntimeTombstone tombstone = Ok tt →
      tb_SnapshotID tombstone = rs_ID (ms_Active state) → tb_CatalogID tombstone = catalog_of (ms_Active state) →
      underway d table
        (MkActivationJournalV1 1 mount (tb_CatalogID tombstone) "" (tb_SnapshotID tombstone)
           (tbl_Generation table) activationOperationWithdraw (Some (durableTombstone tombstone)))
        (next_withdrawn mount tombstone table)
  | underway_reauthorize mount tombstone candidate verified :
      tbl_Tombstones table !! mount = Some tombstone → tbl_Mounts table !! mount = None →
      verifies d candidate verified → tb_CatalogID tombstone = catalog_of verified →
      tb_SnapshotID tombstone ≠ candidate →
      underway d table
        (reauthorization_journal mount (catalog_of verified) candidate (tb_SnapshotID tombstone) (tbl_Generation table))
        (next_reauthorized mount verified table)
  | underway_activate mount candidate verified :
      (validateRuntimeMount mount = Ok tt ∧ valid_utf8 mount = true) → tbl_Tombstones table !! mount = None →
      verifies d candidate verified →
      (∀ state, tbl_Mounts table !! mount = Some state →
         rs_ID (ms_Active state) ≠ candidate ∧ catalog_of (ms_Active state) = catalog_of verified) →
      underway d table
        (activation_journal mount (catalog_of verified) candidate
           (from_option (λ state, rs_ID (ms_Active state)) "" (tbl_Mounts table !! mount)) (tbl_Generation table))
        (next_activated mount verified table).

Lemma sound_verified d id verified : verifies d id verified → sound_snapshot d (cloneRuntimeSnapshot verified).
Proof. intros Hv. exists verified. split; [|done]. simpl. by apply verified_valid in Hv as Hf; destruct Hf as (_ & -> & _). Qed.

Lemma underway_sound d table j next :
  underway d table j next → sound d table → encodeRouteTable resourceLimits next = Ok (persisted_table next) →
  sound d next.
Proof.
  intros Hu Hs Hf. pose proof (proj1 (sound_clone _ _ Hs)) as Hc.
  pose proof (sound_mounts _ _ Hc) as Hms. pose proof (sound_tombstones _ _ Hs) as Hts.
  destruct Hu as [mount state tombstone Hm Ht Ei Ec|mount tombstone candidate verified Ht Hm Hv Ec Hne
    |mount candidate verified Hmount Ht Hv Hst]; (constructor; [..|exact Hf]);
    cbn [next_withdrawn next_reauthorized next_activated tbl_Mounts tbl_Tombstones with_mounts with_tombstones].
  - intros k st. destruct (decide (k = mount)) as [->|Hk]; [by rewrite lookup_delete_eq|].
    rewrite lookup_delete_ne, lookup_insert_ne by done. apply Hms.
  - intros k t. destruct (decide (k = mount)) as [->|Hk].
    + rewrite lookup_insert_eq. intros [= <-]. split; [|done]. by apply (sound_mounts _ _ Hs) in Hm as [? _].
    + rewrite lookup_insert_ne by done. apply Hts.
  - intros k st. destruct (decide (k = mount)) as [->|Hk].
    + rewrite lookup_insert_eq, lookup_delete_eq. intros [= <-].
      apply Hts in Ht as [Hmv _]. split; [done|]. split; [done|].
      split; [by apply sound_verified in Hv|by intros].
    + rewrite lookup_insert_ne, lookup_delete_ne by done. apply Hms.
  - intros k t. destruct (decide (k = mount)) as [->|Hk]; [by rewrite lookup_delete_eq|].
    rewrite lookup_delete_ne by done. apply Hts.
  - intros k st. destruct (decide (k = mount)) as [->|Hk].
    + rewrite lookup_insert_eq. intros [= <-]. split; [done|]. split; [done|].
      split; [by apply sound_verified in Hv|]. simpl. intros previous.
      destruct (tbl_Mounts table !! mount) as [state|] eqn:Em; [|done]. simpl. intros [= <-].
      destruct (sound_mounts _ _ Hs _ _ Em) as (_ & _ & Ha & _). destruct (Hst _ eq_refl) as [Hne Ec].
      pose proof (verified_valid _ _ _ Hv) as (_ & Hid & _). simpl. split; [|by rewrite Hid].
      destruct Ha as (v & Hv' & Ev). by exists v.
    + rewrite lookup_insert_ne by done. apply Hms.
  - apply Hts.
Qed.

(** The journal of a transition under way is valid and comes back as written. *)
Lemma underway_journal d table j next :
  underway d table j next → sound d table →
  decodeStrict j = Ok j ∧ aj_SchemaVersion j = 1 ∧ validateActivationJournal j = Ok tt
  ∧ aj_Generation j = tbl_Generation table.
Proof.
  intros Hu Hs.
  assert (valid_utf8 (aj_Mount j) = true ∧ validateRuntimeMount (aj_Mount j) = Ok tt) as [Hmt Hmv].
  { destruct Hu as [mount state tombstone Hm Ht Ei Ec|mount tombstone candidate verified Ht Hm Hv Ec Hne
      |mount candidate verified [? ?] Ht Hv Hst]; simpl; [|..|done].
    - by apply (sound_mounts _ _ Hs) in Hm as [[? ?] _].
    - by apply (sound_tombstones _ _ Hs) in Ht as [[? ?] _]. }
  assert (validActivationMount (aj_Mount j) = true) as Hma by (by apply mounts_agree).
  assert (∀ id verified, verifies d id verified → valid_utf8 id = true ∧ validSnapshotID id = true
    ∧ valid_utf8 (catalog_of verified) = true ∧ ValidateCatalogID (catalog_of verified) = Ok tt) as Hver.
  { intros id verified (_ & _ & Hi & Hc)%verified_valid. destruct (snapshot_id_text _ Hi), (catalog_id_text _ Hc). done. }
  assert (∀ x, durable_reread x = x → decodeStrict (A:=activationJournalV1) x = Ok x) as Hdec.
  { intros x E. unfold decodeStrict. rewrite E. by rewrite bool_decide_true. }
  destruct Hu as [mount state tombstone Hm Ht Ei Ec|mount tombstone candidate verified Ht Hm Hv Ec Hne
    |mount candidate verified _ Ht Hv Hst]; simpl in Hmt, Hma.
  - pose proof (tombstone_facts _ Ht) as (Hi & Hc & _).
    destruct (snapshot_id_text _ Hi) as [Hiu Hin], (catalog_id_text _ Hc) as [Hcu _].
    split; [|split; [done|split; [|done]]].
    + apply Hdec. cbn [durable_reread durable_journal aj_SchemaVersion aj_Mount aj_CatalogID aj_Candidate aj_ExpectedOld
        aj_Generation aj_Operation aj_Tombstone fmap option_fmap option_map].
      rewrite (tombstone_text _ Ht), !reread_string_valid by done. done.
    + unfold validateActivationJournal. cbn [aj_Mount aj_CatalogID aj_Candidate aj_ExpectedOld aj_Tombstone].
      change (journalOperation _) with activationOperationWithdraw. rewrite Hma, Hi, (optional_catalog _ Hc).
      rewrite durable_tombstone_valid by done. simpl. rewrite andb_false_r, !bool_decide_true by done. done.
  - destruct (Hver _ _ Hv) as (Hiu & Hi & Hcu & Hc).
    pose proof (proj2 (sound_tombstones _ _ Hs _ _ Ht)) as (Hti & _)%tombstone_facts.
    destruct (snapshot_id_text _ Hti) as [Htu Htn].
    split; [|split; [done|split; [|done]]].
    + apply Hdec. cbn [durable_reread durable_journal reauthorization_journal aj_SchemaVersion aj_Mount aj_CatalogID
        aj_Candidate aj_ExpectedOld aj_Generation aj_Operation aj_Tombstone fmap option_fmap option_map].
      rewrite !reread_string_valid by done. done.
    + unfold validateActivationJournal, reauthorization_journal. cbn [aj_Mount aj_CatalogID aj_Candidate aj_ExpectedOld aj_Tombstone].
      change (journalOperation _) with activationOperationReauthorize. rewrite Hma, Hi, Hti, (optional_catalog _ Hc).
      simpl. rewrite andb_false_r. simpl. rewrite !bool_decide_false by done. done.
  - destruct (Hver _ _ Hv) as (Hiu & Hi & Hcu & Hc).
    set (old := from_option _ _ _).
    assert (valid_utf8 old = true ∧ (old = "" ∨ validSnapshotID old = true)) as [Hou Hov].
    { unfold old. destruct (tbl_Mounts table !! mount) as [state|] eqn:Em; [|by split; [|left]]. simpl.
      destruct (sound_mounts _ _ Hs _ _ Em) as (_ & _ & [Ho _]%sound_snapshot_facts & _).
      split; [by apply snapshot_id_text|by right]. }
    split; [|split; [done|split; [|done]]].
    + apply Hdec. cbn [durable_reread durable_journal activation_journal aj_SchemaVersion aj_Mount aj_CatalogID
        aj_Candidate aj_ExpectedOld aj_Generation aj_Operation aj_Tombstone fmap option_fmap option_map].
      rewrite !reread_string_valid by done. done.
    + unfold validateActivationJournal, activation_journal. cbn [aj_Mount aj_CatalogID aj_Candidate aj_ExpectedOld aj_Tombstone].
      change (journalOperation _) with "activate". rewrite Hma, Hi, (optional_catalog _ Hc). simpl.
      destruct Hov as [-> | ->]; simpl; rewrite ?andb_false_r; done.
Qed.
End recovery.
