(* ===== verification/CatalogCrash.v ===== *)
(** * Crash atomicity of catalog activations

    A start on a calm disk finishes the transition whose journal it finds. *)

From S2P Require Import Prelude GoString GoJson Identity.
From S2P Require Import CatalogIdentity.
From S2P Require Import CatalogModel.
From S2P Require Import CatalogRuntime.
From S2P Require Import CatalogDisk.
From S2P Require Import CatalogStore.
From S2P Require Import Activation.
From S2P Require Import CatalogSafety.
From S2P Require Import CatalogRuns.
From S2P Require Import CatalogCollect.
From S2P Require Import CatalogRecovery.

Section crash.
Context `{SnapshotCodec} `{!CodecLaws} (root : string) (resourceLimits : bool).
Abbreviation verifies := (preflights root resourceLimits).
Abbreviation sound := (sound root resourceLimits).
Abbreviation underway := (underway root resourceLimits).

(** ** A start *)

Lemma sound_used d d' table : sound d table →
  (∀ id, mounted_snapshot table id → dk_snapshots d' !! id = dk_snapshots d !! id) → sound d' table.
Proof.
  intros Hs Hd. constructor; [|apply (sound_tombstones _ _ _ _ Hs)|apply (sound_fits _ _ _ _ Hs)].
  intros mount state Hm. destruct (sound_mounts _ _ _ _ Hs _ _ Hm) as (Hv & Ht & (active & Ha & Ec) & Hp).
  split; [done|]. split; [done|]. split.
  - exists active. split; [|done]. eapply preflights_same; [|exact Ha]. apply Hd. exists mount, state. by split; [|left].
  - intros previous Ep. destruct (Hp previous Ep) as ((verified & Hver & Ev) & ? & ?). split; [|done].
    exists verified. split; [|done]. eapply preflights_same; [|exact Hver]. apply Hd. exists mount, state.
    split; [done|]. right. by rewrite Ep.
Qed.
Lemma sound_same d d' table : dk_snapshots d' = dk_snapshots d → sound d table → sound d' table.
Proof. intros E Hs. apply (sound_used d); [done|]. intros id _. by rewrite E. Qed.

(** Two tables that are written alike. *)
Lemma persisted_eq t1 t2 : persisted_table t1 = persisted_table t2 →
  tbl_Generation t1 = tbl_Generation t2 ∧ tbl_Tombstones t1 = tbl_Tombstones t2
  ∧ ∀ k, durable_mount <$> tbl_Mounts t1 !! k = durable_mount <$> tbl_Mounts t2 !! k.
Proof.
  intros [= Eg Em Et]. split; [done|]. split.
  - apply map_eq. intros k. pose proof (f_equal (.!! k) Et) as E. simpl in E. rewrite !lookup_fmap in E.
    destruct (tbl_Tombstones t1 !! k) as [[]|], (tbl_Tombstones t2 !! k) as [[]|]; simpl in E; try done.
    by injection E as -> -> ->.
  - intros k. pose proof (f_equal (.!! k) Em) as E. simpl in E. by rewrite !lookup_fmap in E.
Qed.

(** The table a replayed transition is applied to is the one that was read. *)
Lemma persisted_map f t1 t2 :
  persisted_table t1 = persisted_table t2 →
  (∀ t, tbl_Generation (f t) = tbl_Generation t) →
  (∀ t1 t2, tbl_Tombstones t1 = tbl_Tombstones t2 → tbl_Tombstones (f t1) = tbl_Tombstones (f t2)) →
  (∀ t1 t2, (∀ k, durable_mount <$> tbl_Mounts t1 !! k = durable_mount <$> tbl_Mounts t2 !! k) →
     ∀ k, durable_mount <$> tbl_Mounts (f t1) !! k = durable_mount <$> tbl_Mounts (f t2) !! k) →
  persisted_table (f t1) = persisted_table (f t2).
Proof.
  intros (Eg & Et & Em)%persisted_eq Hg Ht Hm. unfold persisted_table. rewrite !Hg, Eg, (Ht t1 t2 Et).
  do 2 f_equal. apply map_eq. intros k. rewrite !lookup_fmap. by apply Hm.
Qed.

Lemma persisted_clone table : persisted_table (cloneRouteTable table) = persisted_table table.
Proof.
  unfold persisted_table. simpl. f_equal. f_equal. rewrite <-map_fmap_compose. apply map_fmap_ext.
  intros k x _. unfold durable_mount, previous_id. simpl. by destruct (ms_Previous x).
Qed.

Lemma encode_persisted t1 t2 : persisted_table t1 = persisted_table t2 →
  encodeRouteTable resourceLimits t1 = encodeRouteTable resourceLimits t2.
Proof.
  intros E. unfold encodeRouteTable, encodeRouteTableWithResourceLimits. rewrite E.
  assert (size (tbl_Mounts t1) = size (tbl_Mounts t2)) as ->.
  { rewrite <-(map_size_fmap durable_mount (tbl_Mounts t1)), <-(map_size_fmap durable_mount (tbl_Mounts t2)).
    f_equal. apply map_eq. intros k. rewrite !lookup_fmap. by apply persisted_eq in E as (_ & _ & ->). }
  by apply persisted_eq in E as (_ & -> & _).
Qed.

Lemma persist_run {W} (f : RouteTable → stM W unit) next (rt : Runtime) w w' :
  f (cloneRouteTable next) w = (w', Ok tt) →
  persist_and_store (Some f) next (rt, w) = ((store_table next rt, w'), Ok tt).
Proof.
  intros Hf. unfold persist_and_store.
  assert (on_snd (f (cloneRouteTable next)) (rt, w) = ((rt, w'), Ok tt)) as Hr by (by apply on_snd_ok).
  by rewrite (bind_run _ _ _ _ _ Hr).
Qed.

(** Writing a table that fits, as replays do. *)
Lemma replay_write table next (runtime : Runtime) d :
  calm d → persisted_table table = persisted_table next →
  encodeRouteTable resourceLimits next = Ok (persisted_table next) →
  persist_and_store (Some (writeRouteTable resourceLimits)) table (runtime, d)
    = ((store_table table runtime, put_routes (persisted_table next) d), Ok tt).
Proof.
  intros Hd E Hf. apply persist_run. rewrite writeRouteTable_calm, persisted_clone; [by rewrite E|done|].
  rewrite <-E, <-persisted_clone in Hf. rewrite <-Hf. apply encode_persisted. by rewrite !persisted_clone.
Qed.

Lemma journal_candidate_calm j verified d : calm d → verifies d (aj_Candidate j) verified →
  aj_CatalogID j = catalog_of verified → journal_candidate root resourceLimits j d = (d, Ok verified).
Proof.
  intros Hd Hv E. unfold journal_candidate.
  rewrite (bind_run _ _ _ _ _ (preflights_calm _ _ _ _ _ Hd Hv)), (lift_run _ _ _ tt); [done|].
  apply throw_if_ok. rewrite E, (bool_decide_true (catalog_of verified = catalog_of verified)) by done. apply andb_false_r.
Qed.

(** ** Replaying a transition *)

Lemma reauthorize_run {W} mount generation verified tombstone persist (runtime : Runtime) (w : W) s' :
  let table := rn_table runtime in
  tbl_Generation table = generation →
  validateRuntimeMount mount = Ok tt → validateRuntimeSnapshot verified = Ok tt →
  tbl_Tombstones table !! mount = Some tombstone → tbl_Mounts table !! mount = None →
  tb_CatalogID tombstone = catalog_of verified → tb_SnapshotID tombstone ≠ rs_ID verified →
  persist_and_store persist (next_reauthorized mount verified table) (runtime, w) = (s', Ok tt) →
  ReauthorizeMountDurably mount generation verified persist (runtime, w)
    = (s', Ok (cloneRouteTable (next_reauthorized mount verified table))).
Proof.
  intros table <- Hm Hv Ht Hn Ec Hne Hp. unfold ReauthorizeMountDurably, current_table.
  rewrite (lift_run _ _ _ _ Hm), (lift_run _ _ _ _ Hv), gets_bind. cbn [fst]. fold table.
  rewrite (lift_run _ _ _ tt) by (unfold check_generation; by rewrite Z.eqb_refl).
  rewrite Ht, Hn, (lift_run _ _ _ tt) by done. rewrite (lift_run _ _ _ tt) by (by rewrite bool_decide_true).
  rewrite (lift_run _ _ _ tt) by (by rewrite bool_decide_false).
  by rewrite (bind_run _ _ _ _ _ Hp).
Qed.

Lemma activate_run {W} mount expectedOld generation verified persist (runtime : Runtime) (w : W) s' :
  let table := rn_table runtime in
  expectedOld = from_option (λ state, rs_ID (ms_Active state)) "" (tbl_Mounts table !! mount) →
  tbl_Generation table = generation →
  validateRuntimeMount mount = Ok tt → validateRuntimeSnapshot verified = Ok tt →
  tbl_Tombstones table !! mount = None →
  (∀ state, tbl_Mounts table !! mount = Some state → rs_ID (ms_Active state) ≠ rs_ID verified) →
  persist_and_store persist (next_activated mount verified table) (runtime, w) = (s', Ok tt) →
  ∃ activation, ActivateMountDurablyBounded mount expectedOld generation verified persist (runtime, w)
    = (s', Ok activation).
Proof.
  intros table -> <- Hm Hv Ht Hne Hp. unfold ActivateMountDurablyBounded, activateMountDurably, current_table.
  assert (∀ A B (m : stM (Runtime * W) A) (f : A → stM (Runtime * W) B) s s' b,
    (∃ a, m s = (s', Ok a) ∧ f a s' = (s', Ok b)) → (m ≫= f) s = (s', Ok b)) as Hb
    by (intros ? ? ? ? ? ? ? (a & Ea & Ef); by rewrite (bind_run _ _ _ _ _ Ea)).
  unfold next_activated in Hp.
  destruct (tbl_Mounts table !! mount) as [state|] eqn:Em; cbn [from_option fmap option_fmap option_map] in Hp |- *;
    eexists; apply Hb; eexists (_, _); (split; [|done]);
    rewrite (lift_run _ _ _ _ Hm), (lift_run _ _ _ _ Hv), gets_bind; cbn [fst]; fold table;
    rewrite (lift_run _ _ _ tt) by (unfold check_generation; by rewrite Z.eqb_refl);
    rewrite (lift_run _ _ _ tt) by (unfold check_not_withdrawn; by rewrite Ht);
    rewrite Em, (lift_run _ _ _ tt) by (by rewrite ?bool_decide_true).
  - rewrite bool_decide_false by (intros E; by apply (Hne state eq_refl)). by rewrite (bind_run _ _ _ _ _ Hp).
  - by rewrite (bind_run _ _ _ _ _ Hp).
Qed.

(** The tables that a replayed transition leads to are written alike. *)
Lemma persisted_reauthorized mount verified t1 t2 : persisted_table t1 = persisted_table t2 →
  persisted_table (next_reauthorized mount verified t1) = persisted_table (next_reauthorized mount verified t2).
Proof.
  intros E. apply (persisted_map (λ t, with_mounts <[mount := MkMountState (cloneRuntimeSnapshot verified) None]>
    (with_tombstones (delete mount) t))).
  - by rewrite !persisted_clone.
  - done.
  - simpl. by intros ? ? ->.
  - simpl. intros u1 u2 Hu k. destruct (decide (k = mount)) as [->|]; [by rewrite !lookup_insert_eq|].
    by rewrite !lookup_insert_ne.
Qed.

Lemma persisted_activated mount verified t1 t2 : persisted_table t1 = persisted_table t2 →
  persisted_table (next_activated mount verified t1) = persisted_table (next_activated mount verified t2).
Proof.
  intros E. pose proof (persisted_eq _ _ E) as (Eg & Et & Em). unfold next_activated.
  unfold persisted_table. simpl. rewrite Eg, Et. do 2 f_equal. apply map_eq. intros k. rewrite !lookup_fmap.
  destruct (decide (k = mount)) as [->|].
  - rewrite !lookup_insert_eq. simpl. unfold durable_mount, previous_id. simpl. do 2 f_equal.
    specialize (Em mount). destruct (tbl_Mounts t1 !! mount), (tbl_Mounts t2 !! mount); simpl in *; try done.
    by injection Em.
  - rewrite !lookup_insert_ne by done. rewrite <-(persisted_clone t1), <-(persisted_clone t2) in E.
    by apply persisted_eq in E as (_ & _ & ->).
Qed.

Lemma underway_same d d' table j next : dk_snapshots d' = dk_snapshots d → underway d table j next → underway d' table j next.
Proof. intros E []; econstructor; try done; (eapply preflights_same; [|done]); by rewrite E. Qed.

Lemma persisted_withdrawn mount tombstone t1 t2 : persisted_table t1 = persisted_table t2 →
  persisted_table (next_withdrawn mount tombstone t1) = persisted_table (next_withdrawn mount tombstone t2).
Proof.
  intros E. apply (persisted_map (λ t, with_tombstones <[mount := tombstone]> (with_mounts (delete mount) t))).
  - by rewrite !persisted_clone.
  - done.
  - simpl. by intros ? ? ->.
  - simpl. intros u1 u2 Hu k. destruct (decide (k = mount)) as [->|]; [by rewrite !lookup_delete_eq|].
    by rewrite !lookup_delete_ne.
Qed.

Lemma underway_alike d table j next table' :
  underway d table j next → persisted_table table' = persisted_table table →
  ∃ next', underway d table' j next' ∧ persisted_table next' = persisted_table next.
Proof.
  intros Hu E. pose proof (persisted_eq _ _ E) as (Eg & Et & Em).
  assert (∀ mount state, tbl_Mounts table !! mount = Some state → ∃ state', tbl_Mounts table' !! mount = Some state'
    ∧ rs_ID (ms_Active state) = rs_ID (ms_Active state') ∧ catalog_of (ms_Active state) = catalog_of (ms_Active state')) as Hto.
  { intros mount state Hs. specialize (Em mount). rewrite Hs in Em. destruct (tbl_Mounts table' !! mount) as [state'|]; [|done].
    exists state'. split; [done|]. by injection Em. }
  destruct Hu as [mount state tombstone Hm Ht Ei Ec|mount tombstone candidate verified Ht Hm Hv Ec Hne
    |mount candidate verified Hmount Ht Hv Hst].
  - destruct (Hto _ _ Hm) as (state' & Hm' & Ei' & Ec'). exists (next_withdrawn mount tombstone table').
    split; [|by apply persisted_withdrawn]. rewrite <-Eg. by eapply underway_withdraw; [|..|rewrite Ei|rewrite Ec].
  - exists (next_reauthorized mount verified table'). split; [|by apply persisted_reauthorized].
    rewrite <-Eg. eapply underway_reauthorize; try done; [by rewrite Et|].
    specialize (Em mount). rewrite Hm in Em. by destruct (tbl_Mounts table' !! mount).
  - exists (next_activated mount verified table'). split; [|by apply persisted_activated]. rewrite <-Eg.
    assert (from_option (λ state, rs_ID (ms_Active state)) "" (tbl_Mounts table !! mount)
      = from_option (λ state, rs_ID (ms_Active state)) "" (tbl_Mounts table' !! mount)) as ->.
    { specialize (Em mount). destruct (tbl_Mounts table' !! mount), (tbl_Mounts table !! mount); simpl in *; try done. by injection Em. }
    apply underway_activate; try done; [by rewrite Et|]. intros state' Hs'. specialize (Em mount). rewrite Hs' in Em.
    destruct (tbl_Mounts table !! mount) as [state|]; [|done]. destruct (Hst _ eq_refl) as [Hn Hc]. injection Em as Ec Ei _.
    by rewrite Ei, Ec.
Qed.

(** The transition of a journal, applied to the table in memory. *)
Lemma replay_run d table j next :
  calm d → sound d table → underway d table j next → sound d next → journalOperation j ≠ activationOperationWithdraw →
  replay_journal root resourceLimits j (cloneRouteTable table) (MkRuntime table ∅, d)
    = ((MkRuntime next ∅, put_routes (persisted_table next) d), Ok tt).
Proof.
  intros Hd Hs Hu Hnext Hop. pose proof (sound_fits _ _ _ _ Hnext) as Hf.
  pose proof (replay_write next next (MkRuntime table ∅) d Hd eq_refl Hf) as Hw.
  destruct Hu as [mount state tombstone Hm Ht Ei Ec|mount tombstone candidate verified Ht Hm Hv Ec Hne
    |mount candidate verified [Hmount _] Ht Hv Hst]; [by destruct Hop|..];
    pose proof (verified_valid _ _ _ _ _ Hv) as (Hvalid & Hid & _ & Hcid);
    unfold replay_journal; rewrite bool_decide_false by done; set (j := _ : activationJournalV1) in *.
  - rewrite (bool_decide_true (journalOperation j = activationOperationReauthorize)) by done.
    rewrite (bind_run _ _ _ _ _ (on_disk_run _ _ _ _ _ (journal_candidate_calm j verified d Hd Hv eq_refl))).
    by rewrite (bind_run _ _ _ _ _ (wrap_run _ _ _ _ _ (reauthorize_run mount (aj_Generation j) verified tombstone _
      (MkRuntime table ∅) d _ eq_refl (proj1 (proj1 (sound_tombstones _ _ _ _ Hs _ _ Ht))) Hvalid
      Ht Hm Ec (λ e, Hne (eq_trans e Hid)) Hw))).
  - rewrite (bool_decide_false (journalOperation j = activationOperationReauthorize)) by done.
    rewrite (bind_run _ _ _ _ _ (on_disk_run _ _ _ _ _ (journal_candidate_calm j verified d Hd Hv eq_refl))).
    rewrite (lift_run _ _ _ tt).
    2: { cbn [aj_Mount j activation_journal tbl_Mounts cloneRouteTable]. rewrite lookup_fmap.
         destruct (tbl_Mounts table !! mount) as [state|] eqn:Es; [|done]. cbn [fmap option_fmap option_map].
         destruct (Hst _ eq_refl) as [_ Ecv]. apply throw_if_ok.
         rewrite (bool_decide_true (catalog_of _ = catalog_of _)); [apply andb_false_r|exact Ecv]. }
    destruct (activate_run mount (aj_ExpectedOld j) (aj_Generation j) verified _ (MkRuntime table ∅) d _
      eq_refl eq_refl Hmount Hvalid Ht ltac:(intros state Es; destruct (Hst _ Es) as [Hn _]; congruence) Hw)
      as [activation Hrun].
    by rewrite (bind_run _ _ _ _ _ (wrap_run _ _ _ _ _ Hrun)).
Qed.

Lemma journal_before d table j next :
  underway d table j next → journalOperation j ≠ activationOperationWithdraw →
  journal_completed j (cloneRouteTable table) = Ok false
  ∧ tbl_Generation (cloneRouteTable table) = aj_Generation j
  ∧ journal_current j (cloneRouteTable table) = aj_ExpectedOld j.
Proof.
  intros Hu Hop.
  destruct Hu as [mount state tombstone Hm Ht Ei Ec|mount tombstone candidate verified Ht Hm Hv Ec Hne
    |mount candidate verified Hmount Ht Hv Hst]; [by destruct Hop|..]; (split; [|split; [done|]]).
  - unfold journal_completed. simpl. by rewrite lookup_fmap, Hm.
  - unfold journal_current. simpl. by rewrite Ht.
  - unfold journal_completed. rewrite bool_decide_false by done.
    cbn [aj_Mount activation_journal aj_Candidate tbl_Mounts cloneRouteTable]. rewrite lookup_fmap.
    destruct (tbl_Mounts table !! mount) as [state|]; [|done]. cbn [fmap option_fmap option_map].
    destruct (Hst _ eq_refl) as [Hn _]. by rewrite bool_decide_false.
  - unfold journal_current. simpl. rewrite lookup_fmap. by destruct (tbl_Mounts table !! mount).
Qed.

Lemma journal_after d table j next table' :
  sound d table → underway d table j next → persisted_table table' = persisted_table next → sound d table' →
  journal_completed j (cloneRouteTable table') = Ok true.
Proof.
  intros Hs Hu E Hs'. pose proof (persisted_eq _ _ E) as (Eg & Et & Em).
  destruct Hu as [mount state tombstone Hm Ht Ei Ec|mount tombstone candidate verified Ht Hm Hv Ec Hne
    |mount candidate verified Hmount Ht Hv Hst]; specialize (Em mount); simpl in Em, Et.
  - rewrite lookup_delete_eq in Em. unfold journal_completed. rewrite bool_decide_true by done.
    cbn [aj_Mount aj_Tombstone tbl_Mounts tbl_Tombstones cloneRouteTable]. rewrite lookup_fmap, Et, lookup_insert_eq.
    destruct (tbl_Mounts table' !! mount); [done|]. simpl. rewrite bool_decide_true; [done|by destruct tombstone].
  - rewrite lookup_insert_eq in Em. unfold journal_completed. rewrite bool_decide_false by done.
    cbn [aj_Mount aj_Candidate aj_CatalogID reauthorization_journal tbl_Mounts tbl_Tombstones cloneRouteTable].
    rewrite lookup_fmap, Et, lookup_delete_eq. destruct (tbl_Mounts table' !! mount) as [state'|] eqn:Es; [|done].
    cbn [fmap option_fmap option_map]. injection Em as Ecat Ei Ep.
    pose proof (verified_valid _ _ _ _ _ Hv) as (_ & Hid & _).
    change (rs_ID (ms_Active (cloneMountState state'))) with (rs_ID (ms_Active state')).
    change (catalog_of (ms_Active (cloneMountState state'))) with (catalog_of (ms_Active state')).
    rewrite (bool_decide_true (rs_ID _ = candidate)) by (rewrite Ei; exact Hid). cbn [negb].
    rewrite bool_decide_true by done.
    assert (ms_Previous state' = None) as Hp.
    { destruct (sound_mounts _ _ _ _ Hs' _ _ Es) as (_ & _ & (_ & [Hn _] & _)%previous_id_facts).
      apply Hn. by rewrite Ep. }
    cbn [ms_Previous cloneMountState]. rewrite Hp. cbn [fmap option_fmap option_map].
    rewrite (bool_decide_true (catalog_of _ = catalog_of _)) by exact Ecat. by rewrite andb_false_r.
  - rewrite lookup_insert_eq in Em. unfold journal_completed. rewrite bool_decide_false by done.
    cbn [aj_Mount aj_Candidate aj_CatalogID activation_journal tbl_Mounts tbl_Tombstones cloneRouteTable].
    rewrite lookup_fmap. destruct (tbl_Mounts table' !! mount) as [state'|] eqn:Es; [|done].
    cbn [fmap option_fmap option_map]. injection Em as Ecat Ei Ep.
    pose proof (verified_valid _ _ _ _ _ Hv) as (_ & Hid & _).
    change (rs_ID (ms_Active (cloneMountState state'))) with (rs_ID (ms_Active state')).
    change (catalog_of (ms_Active (cloneMountState state'))) with (catalog_of (ms_Active state')).
    rewrite (bool_decide_true (rs_ID _ = candidate)) by (rewrite Ei; exact Hid). cbn [negb].
    rewrite bool_decide_false by done.
    rewrite (bool_decide_true (catalog_of _ = catalog_of _)) by exact Ecat. by rewrite andb_false_r.
Qed.

(** ** A start *)

(** What [routes.json] says; without the file a process starts at [g]. *)
Definition shows (g : Z) (d : Disk) (table : RouteTable) : Prop :=
  dk_routes d = Some (persisted_table table) ∨ dk_routes d = None ∧ table = MkRouteTable g ∅ ∅.

(** Memory and directory agree and no transition is pending. *)
Definition settled (g : Z) (s : Runtime * Disk) : Prop :=
  dk_journal s.2 = None ∧ shows g s.2 (rn_table s.1) ∧ sound s.2 (rn_table s.1).

(** A journal that a start can read, of a transition from [table] to [next]. *)
Record pending (g : Z) (d : Disk) (table : RouteTable) (j : activationJournalV1) (next : RouteTable) : Prop := {
  pending_journal : dk_journal d = Some j;
  pending_size : data_len (Marshal j) ≤ maxActivationJournalBytes;
  pending_underway : underway d table j next;
  pending_next : sound d next;
  pending_routes : shows g d table ∨ dk_routes d = Some (persisted_table next);
}.

Definition restarted (g : Z) (table : RouteTable) (s : Runtime * Disk) : Prop :=
  rn_refs s.1 = ∅ ∧ persisted_table (rn_table s.1) = persisted_table table ∧ settled g s ∧ calm s.2.

Lemma restarted_intro g table table' d : calm d → persisted_table table' = persisted_table table →
  shows g d table' → sound d table' → restarted g table (MkRuntime table' ∅, put_journal None d).
Proof. intros Hd E Hr Hs. do 2 (split; [done|]). split; [|done]. split; [done|]. split; [done|]. by apply (sound_same d). Qed.

Lemma restore_idle g d table : calm d → shows g d table → sound d table →
  ∃ table', restoreDurableRoutes root resourceLimits None (NewRuntime g, d) = ((MkRuntime table' ∅, d), Ok tt)
    ∧ persisted_table table' = persisted_table table ∧ sound d table' ∧ shows g d table'.
Proof.
  intros Hd Hr Hs. destruct (Hr) as [Er|[Er ->]].
  - destruct (restore_sound root resourceLimits d table None (NewRuntime g) Hd eq_refl Er Hs) as (table' & Hrun & Ep & Hs'); [done|].
    exists table'. do 3 (split; [done|]). left. simpl in Ep. by rewrite Ep.
  - exists (MkRouteTable g ∅ ∅). split; [|split; [done|split; [done|by right]]].
    unfold restoreDurableRoutes.
    rewrite (bind_run _ _ _ _ _ (on_disk_run _ _ _ _ _ (wrap_run _ _ _ _ _ (read_calm dk_routes _ d Hd
      ltac:(by rewrite Er))))). by rewrite Er.
Qed.

Lemma recover_idle g now d table : calm d → dk_journal d = None → shows g d table → sound d table →
  ∃ s, recover root resourceLimits now (NewRuntime g, d) = (s, Ok tt) ∧ restarted g table s.
Proof.
  intros Hd Hj Hr Hs. unfold recover.
  destruct (removeIncompleteStaging_calm d Hd) as [st Hst].
  rewrite (bind_run _ _ _ _ _ (on_disk_run _ _ _ _ _ Hst)).
  set (d1 := upd_staging (λ _, st) d).
  rewrite (bind_run _ _ _ _ _ (on_disk_run _ _ _ _ _ (wrap_run _ _ _ _ _ (read_calm dk_journal _ d1 Hd
    ltac:(by rewrite (Hj : dk_journal d1 = None)))))). rewrite (Hj : dk_journal d1 = None).
  destruct (restore_idle g d1 table Hd Hr (sound_same d d1 table eq_refl Hs)) as (table' & Hrun & Ep & Hs' & Hr').
  exists (MkRuntime table' ∅, d1). done.
Qed.

Lemma recoverJournal_done j now runtime d : calm d → journal_completed j (cloneRouteTable (rn_table runtime)) = Ok true →
  recoverJournal root resourceLimits now j j (runtime, d) = ((runtime, put_journal None d), Ok tt).
Proof.
  intros Hd Hc. unfold recoverJournal, runtime_table. rewrite gets_bind, (lift_run _ _ _ _ Hc).
  by apply on_disk_run, removeJournal_calm.
Qed.

Lemma recover_pending g now d table j next : calm d → sound d table → pending g d table j next →
  ∃ s, recover root resourceLimits now (NewRuntime g, d) = (s, Ok tt) ∧ restarted g next s.
Proof.
  intros Hd Hs [Hj Hsize Hu Hn Hr]. unfold recover.
  destruct (underway_journal _ _ _ _ _ _ Hu Hs) as (Hdec & Hver & Hval & Hgen).
  destruct (removeIncompleteStaging_calm d Hd) as [st Hst].
  rewrite (bind_run _ _ _ _ _ (on_disk_run _ _ _ _ _ Hst)).
  set (d1 := upd_staging (λ _, st) d).
  assert (sound d1 table) as Hs1 by (by apply (sound_same d)).
  assert (sound d1 next) as Hn1 by (by apply (sound_same d)).
  assert (underway d1 table j next) as Hu1 by (by apply (underway_same d)).
  assert (shows g d1 table ∨ dk_routes d1 = Some (persisted_table next)) as Hr1 by done.
  assert (calm d1) as Hd1 by done. clear Hst Hs Hn Hu Hr Hd. assert (dk_journal d1 = Some j) as Hj1 by done. clearbody d1.
  rewrite (bind_run _ _ _ _ _ (on_disk_run _ _ _ _ _ (wrap_run _ _ _ _ _ (read_calm dk_journal maxActivationJournalBytes d1 Hd1
    ltac:(rewrite Hj1; by intros x [= <-]))))). rewrite Hj1.
  rewrite (lift_run _ _ _ j) by (by rewrite Hdec). rewrite (lift_run _ _ _ tt) by (by rewrite Hver).
  rewrite (lift_run _ _ _ tt) by (by rewrite Hval). case_bool_decide as Hop.
  - (* a withdrawal: [restoreDurableRoutes] finishes it *)
    assert (∃ d2 table', restoreDurableRoutes root resourceLimits (Some j) (NewRuntime g, d1)
        = ((MkRuntime table' ∅, d2), Ok tt) ∧ persisted_table table' = persisted_table next ∧ sound d2 table'
        ∧ calm d2 ∧ dk_routes d2 = Some (persisted_table next) ∧ sound d2 table ∧ underway d2 table j next)
      as (d2 & table' & Hrun & Ep & Hs' & Hd2 & Er2 & Hs2 & Hu2).
    { pose proof Hu1 as Hu.
      destruct Hu1 as [mount state tombstone Hm Ht Ei Ec|mount tombstone candidate verified Ht Hm Hv Ec Hne
        |mount candidate verified Hmount Ht Hv Hst]; [|done..].
      set (j := MkActivationJournalV1 _ _ _ _ _ _ _ _) in *. set (next := next_withdrawn _ _ _) in *.
      assert (∃ base, dk_routes d1 = Some (persisted_table base) ∧ sound d1 base ∧ tbl_Generation base = tbl_Generation table
        ∧ finish_withdrawal (Some j) base = finish_withdrawal (Some j) (cloneRouteTable table)) as (base & Er & Hsb & Eg & Ef).
      { destruct Hr1 as [[Er|[Er ->]]|Er].
        - exists (cloneRouteTable table). rewrite persisted_clone. do 2 (split; [done || apply sound_clone, Hs1|]). done.
        - by simpl in Hm; rewrite lookup_empty in Hm.
        - exists next. do 3 (split; [done|]). unfold finish_withdrawal, next, next_withdrawn. simpl.
          unfold with_tombstones, with_mounts. simpl. f_equal; [by rewrite delete_delete_eq|by rewrite insert_insert_eq]. }
      assert (finish_withdrawal (Some j) base = next) as Efn.
      { rewrite Ef. unfold next, next_withdrawn, finish_withdrawal. simpl. unfold journal_tombstone. simpl. by destruct tombstone. }
      destruct (restore_sound root resourceLimits d1 base (Some j) (NewRuntime g) Hd1 eq_refl Er Hsb) as (table' & Hrun & Ep & Hs').
      { intros ? [= <-]. rewrite Efn. done. }
      rewrite Efn in Hrun, Ep. exists (put_routes (persisted_table next) d1), table'.
      split_and!; try done; solve [by apply (sound_same d1) | by apply (underway_same d1)]. }
    rewrite (bind_run _ _ _ _ _ Hrun).
    rewrite (recoverJournal_done j now (MkRuntime table' ∅) d2 Hd2 (journal_after _ _ _ _ _ Hs2 Hu2 Ep Hs')).
    eexists. split; [done|]. apply restarted_intro; try done. left. by rewrite Ep.
  - destruct Hr1 as [Hr1|Er1].
    + destruct (restore_idle g d1 table Hd1 Hr1 Hs1) as (table' & Hrun & Ep & Hs' & Hr').
      rewrite (bind_run _ _ _ _ _ Hrun). unfold recoverJournal, runtime_table. rewrite gets_bind. cbn [fst]. unfold Table.
      cbn [rn_table]. destruct (underway_alike _ _ _ _ _ Hu1 Ep) as (next' & Hu' & Ep').
      destruct (journal_before _ _ _ _ Hu' Hop) as (Hc & Hg & Hcur).
      assert (sound d1 next') as Hn'.
      { apply (underway_sound _ _ _ _ _ _ Hu' Hs'). pose proof (sound_fits _ _ _ _ Hn1) as Hf.
        rewrite (encode_persisted _ _ Ep'), Hf. by rewrite Ep'. }
      rewrite (lift_run _ _ _ _ Hc). cbn iota. rewrite Hg, Hcur, Z.eqb_refl, bool_decide_true by done. cbn [negb orb].
      rewrite (bind_run _ _ _ _ _ (replay_run _ _ _ _ Hd1 Hs' Hu' Hn' Hop)), (on_disk_run _ _ _ _ _ (removeJournal_calm (put_routes (persisted_table next') d1) Hd1)).
      eexists. split; [done|]. apply restarted_intro; try done; [left; by rewrite Ep'|by apply (sound_same d1)].
    + destruct (restore_idle g d1 next Hd1 (or_introl Er1) Hn1) as (table' & Hrun & Ep & Hs' & Hr').
      rewrite (bind_run _ _ _ _ _ Hrun).
      rewrite (recoverJournal_done j now (MkRuntime table' ∅) d1 Hd1 (journal_after _ _ _ _ _ Hs1 Hu1 Ep Hs')).
      eexists. split; [done|]. by apply restarted_intro.
Qed.

(** [OpenActivationCoordinator] of a new process, once nothing fails. *)
Definition restart (g now : Z) (d : Disk) : (Runtime * Disk) * res unit :=
  OpenActivationCoordinatorWithResourceLimits root resourceLimits now (NewRuntime g, put_fates [] d).

Lemma open_restarted g now d table s :
  recover root resourceLimits now (NewRuntime g, d) = (s, Ok tt) → restarted g table s →
  ∃ s', OpenActivationCoordinatorWithResourceLimits root resourceLimits now (NewRuntime g, d) = (s', Ok tt)
    ∧ restarted g table s'.
Proof.
  intros Hr (Hrefs & Ep & (Hj & Hsh & Hs) & Hd). unfold OpenActivationCoordinatorWithResourceLimits.
  rewrite (bind_run _ _ _ _ _ Hr). destruct s as [runtime d1]. simpl in *.
  destruct (collect_calm runtime d1 Hd) as [sn Hg]. rewrite Hg.
  destruct (garbageCollect_collected _ _ _ _ Hg) as (_ & (_ & _ & _ & _ & _ & Hsn) & _). simpl in Hsn.
  eexists. split; [done|]. do 2 (split; [done|]). split; [|done]. split; [done|]. split; [done|].
  apply (sound_used d1); [done|]. intros id Hid. simpl. destruct (Hsn id) as [?|[_ Hn]]; [done|].
  unfold in_use in Hn. rewrite bool_decide_true in Hn; [done|]. by apply retained_spec.
Qed.

Lemma restart_idle g now d table : dk_journal d = None → shows g d table → sound d table →
  ∃ s, restart g now d = (s, Ok tt) ∧ restarted g table s.
Proof.
  intros Hj Hsh Hs. destruct (recover_idle g now (put_fates [] d) table) as (s & Hr & Hs'); try done.
  { by apply (sound_same d). }
  by eapply open_restarted.
Qed.
Lemma restart_pending g now d table j next : sound d table → pending g d table j next →
  ∃ s, restart g now d = (s, Ok tt) ∧ restarted g next s.
Proof.
  intros Hs [Hj Hsize Hu Hn Hr]. destruct (recover_pending g now (put_fates [] d) table j next) as (s & Hrec & Hs'); try done.
  { by apply (sound_same d). }
  { constructor; try done; [by apply (underway_same d)|by apply (sound_same d)]. }
  by eapply open_restarted.
Qed.
End crash.
