(* ===== verification/CatalogTransitions.v ===== *)
(** * Transitions of the route table under file failures

    Whatever fails while a mount is activated, withdrawn or reauthorized, the
    directory is left before the transition, after it, or with a journal from
    which the next start completes it. *)

From S2P Require Import Prelude GoString GoSha256 GoJson Identity.
From S2P Require Import CatalogIdentity.
From S2P Require Import CatalogModel.
From S2P Require Import CatalogRuntime.
From S2P Require Import CatalogDisk.
From S2P Require Import CatalogStore.
From S2P Require Import Activation.
From S2P Require Import CatalogSafety.
From S2P Require Import CatalogRuns.
From S2P Require Import CatalogCollect.
From S2P Require Import CatalogRecovery.
From S2P Require Import CatalogCrash.

(** ** Operations that leave the directory as it is *)

Definition quiet (d d' : Disk) : Prop := ∃ l, d' = put_fates l d.
#[export] Instance quiet_preorder : PreOrder quiet.
Proof. split; [intros d; exists (dk_fates d); by destruct d|]. intros d1 d2 d3 [l ->] [l' ->]. by exists l'. Qed.

Lemma quiet_examine e : keeps quiet (examine e).
Proof. intros d. unfold examine, next_fate, mbind, stM_bind. exists (tail (dk_fates d)). by destruct (hd Done (dk_fates d)). Qed.

(** A change that happens, or not, or happens and is reported as an error. *)
Lemma hoare_write path f (P Q : Disk → Prop) :
  (∀ d d', quiet d d' → P d → P d') → (∀ d, P d → Q (f d)) →
  hoare P (DurableAtomicWrite path f) (λ _, Q) (λ d, P d ∨ Q d).
Proof.
  intros HP HQ d Hd. unfold DurableAtomicWrite, next_fate, mbind, stM_bind, modify, lift.
  assert (P (put_fates (tail (dk_fates d)) d)) as Hd' by (eapply HP; [by eexists|done]).
  destruct (hd Done (dk_fates d)); simpl; auto.
Qed.
Lemma hoare_attempt f (P Q : Disk → Prop) :
  (∀ d d', quiet d d' → P d → P d') → (∀ d, P d → Q (f d)) →
  hoare P (attempt f) (λ _, Q) (λ d, P d ∨ Q d).
Proof.
  intros HP HQ d Hd. unfold attempt, next_fate, mbind, stM_bind, modify, lift.
  assert (P (put_fates (tail (dk_fates d)) d)) as Hd' by (eapply HP; [by eexists|done]).
  destruct (hd Done (dk_fates d)); simpl; auto.
Qed.
Lemma hoare_examine e (P : Disk → Prop) :
  (∀ d d', quiet d d' → P d → P d') → hoare P (examine e) (λ _, P) P.
Proof. intros HP. by apply (hoare_keeps quiet); [apply quiet_examine|]. Qed.

(** ** Publishing does not touch the snapshots that are there *)

Definition grown (d d' : Disk) : Prop := same_state d d'
  ∧ ∀ id, is_Some (dk_snapshots d !! id) → dk_snapshots d' !! id = dk_snapshots d !! id.
#[export] Instance grown_preorder : PreOrder grown.
Proof.
  split; [done|]. intros d1 d2 d3 [S1 H1] [S2 H2]. split; [by etrans|]. intros id Hid.
  by rewrite H2, H1; [|..|rewrite H1].
Qed.

Lemma grown_quiet {A} (op : io A) : keeps quiet op → keeps grown op.
Proof. intros Hop d. by destruct (Hop d) as [l ->]. Qed.
Lemma grown_attempt f : (∀ d, grown d (f d)) → keeps grown (attempt f).
Proof.
  intros Hf d. unfold attempt, next_fate, mbind, stM_bind, modify.
  destruct (hd Done (dk_fates d)); simpl; [..|]; try done; by (etrans; [|apply Hf]).
Qed.

#[local] Hint Extern 2 (keeps grown inspect) => (apply grown_quiet, quiet_examine) : disk.
#[local] Hint Extern 2 (keeps grown ctx_Err) => (apply grown_quiet, quiet_examine) : disk.
#[local] Hint Extern 2 (keeps grown SyncDirectory) => (apply grown_quiet, quiet_examine) : disk.
#[local] Hint Extern 2 (keeps grown (attempt _)) => (apply grown_attempt; done) : disk.

Section publish.
Context `{SnapshotCodec} (root : string) (resourceLimits : bool).

Lemma quiet_Preflight id : keeps quiet (Preflight root resourceLimits id).
Proof. intros d. apply (reader_Preflight root resourceLimits id d). Qed.

Lemma grown_rename staging id : keeps grown (DurableRenameNew staging id).
Proof.
  unfold DurableRenameNew. apply (keeps_bind _); [auto with disk|intros _]. apply keeps_bind_gets. intros d.
  destruct (dk_snapshots d !! id) as [files|] eqn:E; [done|].
  rewrite (lift_run _ _ _ tt) by done. unfold mbind, stM_bind at 1.
  assert (grown d ((attempt (λ d, upd_snapshots <[id := default ∅ (dk_staging d !! staging)]> (upd_staging (delete staging) d))) d).1) as Ha.
  { unfold attempt, next_fate, mbind, stM_bind, modify.
    destruct (hd Done (dk_fates d)); (split; [done|]); simpl; intros j [x Hx]; try done;
      (destruct (decide (j = id)) as [->|]; [by pose proof (eq_trans (eq_sym E) Hx)|by rewrite lookup_insert_ne]). }
  destruct (attempt _ d) as [d' [[]|e]]; [|done]. etrans; [exact Ha|].
  apply (keeps_wrap _). auto with disk.
Qed.

Lemma grown_write_children path staging children : keeps grown (write_children path staging children).
Proof.
  induction children as [|child children IH]; simpl; [keeps_tac|].
  unfold writeImmutableFile. keeps_tac; auto with disk.
Qed.
Lemma grown_fill staging id finalPath children total :
  keeps grown (fill_and_publish root staging id finalPath children total).
Proof.
  unfold fill_and_publish, make_directories. keeps_tac; auto using grown_write_children, grown_rename with disk.
Qed.
Lemma grown_Publish candidate : keeps grown (Publish root resourceLimits candidate).
Proof.
  unfold Publish, make_directories, MkdirTemp. keeps_tac; auto using grown_quiet, quiet_Preflight with disk.
  intros d. unfold with_cleanup.
  match goal with |- context [fill_and_publish ?r ?s ?i ?p ?c ?t d] => pose proof (grown_fill s i p c t d) as Hf end.
  destruct (fill_and_publish _ _ _ _ _ _ d) as [d' [?|?]]; [done|]. etrans; [exact Hf|].
  unfold remove_staging. by apply grown_attempt.
Qed.
End publish.

Section transitions.
Context `{SnapshotCodec} `{!CodecLaws} (root : string) (resourceLimits : bool).
Abbreviation verifies := (preflights root resourceLimits).
Abbreviation sound := (sound root resourceLimits).
Abbreviation underway := (underway root resourceLimits).
Abbreviation settled := (settled root resourceLimits).
Abbreviation pending := (pending root resourceLimits).

(** ** Persisting the next table *)

Section commit.
Context (g : Z) (table : RouteTable).

(** The directory before a transition, and with its journal. *)
Definition unchanged (d : Disk) : Prop := dk_journal d = None ∧ shows g d table ∧ sound d table.
Definition journaled (j : activationJournalV1) (next : RouteTable) (d : Disk) : Prop :=
  pending g d table j next ∧ sound d table.

Lemma unchanged_quiet d d' : quiet d d' → unchanged d → unchanged d'.
Proof. intros [l ->] (? & ? & ?). split; [done|]. split; [done|]. by apply (sound_same _ _ d). Qed.
Lemma underway_quiet d d' j next : quiet d d' → underway d table j next → underway d' table j next.
Proof. intros [l ->]. by apply underway_same. Qed.
Lemma journaled_quiet j next d d' : quiet d d' → journaled j next d → journaled j next d'.
Proof.
  intros [l ->] [[] ?]. split; [|by apply (sound_same _ _ d)]. constructor; try done.
  - by apply (underway_same _ _ d).
  - by apply (sound_same _ _ d).
Qed.

Lemma hoare_persist_tail j next :
  encodeRouteTable resourceLimits next = Ok (persisted_table next) →
  hoare (λ d, unchanged d ∧ underway d table j next)
    (writeJournal j ;; ctx_Err ;; writeRouteTableBytes resourceLimits (persisted_table next))
    (λ _ d, journaled j next d ∧ dk_routes d = Some (persisted_table next))
    (λ d, unchanged d ∨ journaled j next d).
Proof.
  intros Hf. apply (hoare_bind _ (λ _, journaled j next)).
  - unfold writeJournal. apply (hoare_bind _ (λ j' d, (j' = j ∧ data_len (Marshal j) ≤ maxActivationJournalBytes)
      ∧ unchanged d ∧ underway d table j next)).
    + apply hoare_lift; [|by intros s [? _]; left]. intros j' d He Hd. split; [|done].
      unfold encodeActivationJournal in He. go_inv. done.
    + intros j'. apply hoare_pure. intros [-> Hsize]. apply hoare_wrap.
      eapply hoare_conseq; [apply (hoare_write _ _ (λ d, unchanged d ∧ underway d table j next) (journaled j next))|..].
      * intros d d' Hq [Hu Hj]. split; [by eapply unchanged_quiet|by eapply underway_quiet].
      * intros d [(Hn & Hsh & Hs) Hu]. split; [|by apply (sound_same _ _ d)]. constructor; try done.
        -- by apply (underway_same _ _ d).
        -- apply (sound_same _ _ d); [done|]. by eapply underway_sound.
        -- by left.
      * done.
      * done.
      * intros d [[? _]|?]; [by left|by right].
  - intros _. apply (hoare_bind _ (λ _, journaled j next)).
    + eapply hoare_conseq; [apply (hoare_examine _ (journaled j next) (journaled_quiet j next))|done|done|by right].
    + intros _. unfold writeRouteTableBytes. cbv zeta. apply (hoare_bind _ (λ _, journaled j next)).
      * apply hoare_lift; [done|by right].
      * intros _. apply hoare_wrap.
        eapply hoare_conseq; [apply (hoare_write _ _ (journaled j next)
          (λ d, journaled j next d ∧ dk_routes d = Some (persisted_table next)))|..].
        -- apply journaled_quiet.
        -- intros d [[] ?]. split; [|done]. split; [|by apply (sound_same _ _ d)]. constructor; try done.
           ++ by apply (underway_same _ _ d).
           ++ by apply (sound_same _ _ d).
           ++ by right.
        -- done.
        -- done.
        -- intros d [?|[? _]]; by right.
Qed.

(** The two callbacks. *)
Definition persists (persist : RouteTable → io unit) (j : activationJournalV1) (next : RouteTable) : Prop :=
  hoare (λ d, unchanged d ∧ underway d table j next) (persist (cloneRouteTable next))
    (λ _ d, journaled j next d ∧ dk_routes d = Some (persisted_table next))
    (λ d, unchanged d ∨ journaled j next d).

Lemma start_quiet j next d d' : quiet d d' →
  unchanged d ∧ underway d table j next → unchanged d' ∧ underway d' table j next.
Proof. intros Hq [? ?]. split; [by eapply unchanged_quiet|by eapply underway_quiet]. Qed.

Lemma hoare_ctx j next {A} (m : io A) Q :
  hoare (λ d, unchanged d ∧ underway d table j next) m Q (λ d, unchanged d ∨ journaled j next d) →
  hoare (λ d, unchanged d ∧ underway d table j next) (ctx_Err ;; m) Q (λ d, unchanged d ∨ journaled j next d).
Proof.
  intros Hm. apply (hoare_bind _ (λ _ d, unchanged d ∧ underway d table j next)); [|intros _; exact Hm].
  eapply hoare_conseq; [apply (hoare_examine _ _ (start_quiet j next))|done|done|]. intros d [? _]. by left.
Qed.

Lemma hoare_encode j next {A} (f : durableRouteTableV1 → io A) Q :
  (encodeRouteTable resourceLimits next = Ok (persisted_table next) →
   hoare (λ d, unchanged d ∧ underway d table j next) (f (persisted_table next)) Q (λ d, unchanged d ∨ journaled j next d)) →
  hoare (λ d, unchanged d ∧ underway d table j next) (data ← lift (encodeRouteTable resourceLimits (cloneRouteTable next)); f data) Q
    (λ d, unchanged d ∨ journaled j next d).
Proof.
  intros Hf d Hd. destruct (encodeRouteTable resourceLimits (cloneRouteTable next)) as [data|e] eqn:Ee; [|left; apply Hd].
  pose proof Ee as Ep%encodeRouteTable_ok. rewrite (encode_persisted _ _ _ (persisted_clone next)) in Ee.
  rewrite Ep, persisted_clone in *. rewrite (lift_run _ _ _ (persisted_table next)) by done. by apply Hf.
Qed.

Lemma persists_transition j next : persists (persist_transition resourceLimits j) j next.
Proof. apply hoare_ctx, hoare_encode. intros Hf. by apply hoare_persist_tail. Qed.

Lemma persists_activation j admitted next : persists (persist_activation resourceLimits j admitted) j next.
Proof.
  apply hoare_ctx, hoare_encode. intros Hf. apply (hoare_bind _ (λ _ d, unchanged d ∧ underway d table j next)).
  - apply hoare_lift; [done|]. intros d [? _]. by left.
  - intros _. apply hoare_ctx. by apply hoare_persist_tail.
Qed.
End commit.

(** ** Committing a transition *)

(** What a call of the coordinator is asked to do, and the complete table that
    does it: a prepared snapshot is known by its id. *)
Inductive transition :=
  | TActivate (mount : string) (expectedOld : SnapshotID) (generation : Z) (candidate : CompiledSnapshot)
      (quiesce admitted : option ActivationAdmission)
  | TWithdraw (mount : string) (expectedActive : SnapshotID) (generation : Z) (state : string)
  | TReauthorize (mount : string) (generation : Z) (candidate : CompiledSnapshot).

Definition transition_mount (t : transition) : string :=
  match t with
  | TActivate mount _ _ _ _ _ | TWithdraw mount _ _ _ | TReauthorize mount _ _ => mount
  end.

Definition run_transition (t : transition) : coordinated unit :=
  match t with
  | TActivate mount expectedOld generation candidate quiesce admitted =>
      ActivateAdmitted root resourceLimits mount expectedOld generation candidate quiesce admitted ;; mret tt
  | TWithdraw mount expectedActive generation state =>
      Withdraw resourceLimits mount expectedActive generation state ;; mret tt
  | TReauthorize mount generation candidate => Reauthorize root resourceLimits mount generation candidate ;; mret tt
  end.

Inductive completes (table : RouteTable) : transition → RouteTable → Prop :=
  | completes_activate mount expectedOld generation candidate quiesce admitted verified :
      rs_ID verified = cs_ID candidate →
      completes table (TActivate mount expectedOld generation candidate quiesce admitted)
        (next_activated mount verified table)
  | completes_active mount expectedOld generation candidate quiesce admitted state :
      tbl_Mounts table !! mount = Some state → rs_ID (ms_Active state) = cs_ID candidate →
      completes table (TActivate mount expectedOld generation candidate quiesce admitted) table
  | completes_withdraw mount expectedActive generation name state :
      tbl_Mounts table !! mount = Some state → rs_ID (ms_Active state) = expectedActive →
      completes table (TWithdraw mount expectedActive generation name)
        (next_withdrawn mount (MkMountTombstone name (catalog_of (ms_Active state)) (rs_ID (ms_Active state))) table)
  | completes_reauthorize mount generation candidate verified :
      rs_ID verified = cs_ID candidate → is_Some (tbl_Tombstones table !! mount) →
      completes table (TReauthorize mount generation candidate) (next_reauthorized mount verified table).

Section outcome.
Context (g : Z) (runtime : Runtime) (t : transition).
Abbreviation table := (rn_table runtime).

Definition untouched (s : Runtime * Disk) : Prop := s.1 = runtime ∧ unchanged g table s.2.
Definition committed (s : Runtime * Disk) : Prop := ∃ j next, completes table t next ∧ rn_table s.1 = next
  ∧ journaled g table j next s.2 ∧ dk_routes s.2 = Some (persisted_table next).
Definition succeeded (s : Runtime * Disk) : Prop := ∃ next, completes table t next ∧ rn_table s.1 = next ∧ settled g s.
Definition failed (s : Runtime * Disk) : Prop :=
  untouched s ∨ succeeded s
  ∨ ∃ j next, completes table t next ∧ (rn_table s.1 = table ∨ rn_table s.1 = next) ∧ journaled g table j next s.2.

Lemma hoare_on_snd {S D A} (φ : S → Prop) (P : D → Prop) (m : stM D A) Q E :
  hoare P m Q E → hoare (λ s, φ s.1 ∧ P s.2) (on_snd m) (λ a s, φ s.1 ∧ Q a s.2) (λ s, φ s.1 ∧ E s.2).
Proof.
  intros Hm [s d] [Hs Hd]. specialize (Hm d Hd). unfold on_snd. simpl in *. by destruct (m d) as [d' [a|e]].
Qed.

Lemma hoare_persist_and_store j next persist : persists g table persist j next → completes table t next →
  hoare (λ s, untouched s ∧ underway s.2 table j next) (persist_and_store (Some persist) next)
    (λ _, committed) failed.
Proof.
  intros Hp Hc. unfold persist_and_store.
  apply (hoare_bind _ (λ _ s, s.1 = runtime ∧ journaled g table j next s.2 ∧ dk_routes s.2 = Some (persisted_table next))).
  - eapply hoare_conseq; [apply (hoare_on_snd (λ rt, rt = runtime)), Hp|..].
    + by intros s [[? ?] ?].
    + done.
    + intros s [Hs [Hu|Hj]]; [left; by split|]. right; right. exists j, next. rewrite Hs. auto.
  - intros _ [rt d] (Hr & Hj & Hroutes). simpl in *. exists j, next. done.
Qed.

Lemma hoare_remove_disk j next :
  hoare (λ d, journaled g table j next d ∧ dk_routes d = Some (persisted_table next)) removeJournal
    (λ _ d, unchanged g next d)
    (λ d, journaled g table j next d ∨ unchanged g next d).
Proof.
  unfold removeJournal. apply (hoare_bind _ (λ _ d, journaled g table j next d ∧ dk_routes d = Some (persisted_table next)));
    [by apply hoare_gets|intros content].
  apply (hoare_bind _ (λ _, unchanged g next)).
  - apply hoare_wrap. eapply hoare_conseq; [apply (hoare_attempt _ (λ d, journaled g table j next d
      ∧ dk_routes d = Some (persisted_table next)) (unchanged g next))|..].
    + intros d d' Hq [Hj Hr]. split; [by eapply journaled_quiet|]. destruct Hq as [l ->]. done.
    + intros d [[[] _] Hr]. split; [done|]. split; [by left|]. by apply (sound_same _ _ d).
    + done.
    + done.
    + intros d [[? _]|?]; auto.
  - intros _. destruct content; [|by apply hoare_ret].
    apply hoare_wrap. eapply hoare_conseq; [apply (hoare_examine _ _ (unchanged_quiet g next))|done|done|auto].
Qed.

Lemma hoare_remove : hoare committed (on_disk removeJournal) (λ _, succeeded) failed.
Proof.
  intros s (j & next & Hc & Hrt & Hs).
  pose proof (hoare_on_snd (λ rt, rn_table rt = next) _ _ _ _ (hoare_remove_disk j next) s (conj Hrt Hs)) as Hr.
  destruct (on_disk removeJournal s) as [s' [a|e]]; destruct Hr as [Hrt' Hs'].
  - exists next. split; [done|]. split; [done|]. destruct Hs' as (? & ? & ?). by unfold settled; rewrite Hrt'.
  - destruct Hs' as [Hj|Hu]; [right; right; exists j, next; auto|right; left].
    exists next. split; [done|]. split; [done|]. destruct Hu as (? & ? & ?). by unfold settled; rewrite Hrt'.
Qed.

Lemma hoare_lift_bind {S A B} (P : S → Prop) (r : res A) (f : A → stM S B) Q E :
  (∀ a, r = Ok a → hoare P (f a) Q E) → (∀ s, P s → E s) → hoare P (lift r ≫= f) Q E.
Proof.
  intros Hf HE s Hs. destruct r as [a|e]; [|by apply HE]. rewrite (lift_run _ _ _ a) by done. by apply Hf.
Qed.
Lemma hoare_gets_bind {S A B} (P : S → Prop) (get : S → A) (f : A → stM S B) a Q E :
  (∀ s, P s → get s = a) → hoare P (f a) Q E → hoare P (gets get ≫= f) Q E.
Proof. intros Ha Hf s Hs. rewrite gets_bind, (Ha s Hs). by apply Hf. Qed.

Lemma hoare_fact {S A} (φ : Prop) (P : S → Prop) (m : stM S A) Q E :
  (∀ s, P s → φ) → (φ → hoare P m Q E) → hoare P m Q E.
Proof. intros Hφ Hm s Hs. by apply Hm; [eapply Hφ|]. Qed.

Lemma untouched_table s : untouched s → rn_table s.1 = table.
Proof. by intros [-> _]. Qed.
Lemma untouched_failed s : untouched s → failed s.
Proof. by left. Qed.

Lemma hoare_withdraw mount expectedActive generation name state :
  t = TWithdraw mount expectedActive generation name → tbl_Mounts table !! mount = Some state →
  let tombstone := MkMountTombstone name (catalog_of (ms_Active state)) (rs_ID (ms_Active state)) in
  let j := MkActivationJournalV1 1 mount (tb_CatalogID tombstone) "" expectedActive generation
    activationOperationWithdraw (Some (durableTombstone tombstone)) in
  hoare untouched
    (WithdrawMountDurably mount expectedActive generation tombstone (Some (persist_transition resourceLimits j)))
    (λ _, committed) failed.
Proof.
  intros Et Hm tombstone j. unfold WithdrawMountDurably, current_table.
  apply hoare_lift_bind; [intros [] Hmount|apply untouched_failed].
  apply hoare_lift_bind; [intros [] Hstate|apply untouched_failed].
  apply (hoare_gets_bind _ _ _ table); [apply untouched_table|].
  apply hoare_lift_bind; [intros [] Hgen|apply untouched_failed]. rewrite Hm.
  apply hoare_lift_bind; [intros [] Hid|apply untouched_failed]. cbv zeta.
  assert (complete_tombstone tombstone (ms_Active state) = tombstone) as ->
    by (unfold complete_tombstone; by destruct (bool_decide (tb_CatalogID _ = "")), (bool_decide (tb_SnapshotID _ = ""))).
  apply hoare_lift_bind; [intros [] Hvalid|apply untouched_failed].
  apply hoare_lift_bind; [intros [] _|apply untouched_failed].
  unfold check_generation in Hgen. go_inv.
  change (with_tombstones _ _) with (next_withdrawn mount tombstone table).
  assert (∀ d, underway d table j (next_withdrawn mount tombstone table)) as Hu.
  { intros d. unfold j. rewrite <-Hgen, <-Hid. by apply (underway_withdraw _ _ _ _ mount state tombstone). }
  apply (hoare_bind _ (λ _, committed)); [|intros []; by apply hoare_ret].
  eapply hoare_conseq; [apply (hoare_persist_and_store j)|..]; try done.
  - apply persists_transition.
  - rewrite Et. by eapply completes_withdraw.
Qed.

Lemma hoare_reauthorize mount generation candidate verified tombstone :
  t = TReauthorize mount generation candidate → tbl_Tombstones table !! mount = Some tombstone →
  let j := reauthorization_journal mount (catalog_of verified) (cs_ID candidate) (tb_SnapshotID tombstone) generation in
  hoare (λ s, untouched s ∧ verifies s.2 (cs_ID candidate) verified)
    (ReauthorizeMountDurably mount generation verified (Some (persist_transition resourceLimits j)))
    (λ _, committed) failed.
Proof.
  intros Et Ht j. assert (∀ s, untouched s ∧ verifies s.2 (cs_ID candidate) verified → failed s) as Hfail
    by (intros s [? _]; by left).
  unfold ReauthorizeMountDurably, current_table.
  apply hoare_lift_bind; [intros [] Hmount|done]. apply hoare_lift_bind; [intros [] Hvalid|done].
  apply (hoare_gets_bind _ _ _ table); [intros s [? _]; by apply untouched_table|].
  apply hoare_lift_bind; [intros [] Hgen|done]. rewrite Ht.
  apply hoare_lift_bind; [intros [] Hnone|done]. apply hoare_lift_bind; [intros [] Hcat|done].
  apply hoare_lift_bind; [intros [] Hne|done]. unfold check_generation in Hgen. cbv zeta. go_inv.
  assert (tbl_Mounts table !! mount = None) as Hn by (apply eq_None_not_Some; by intros ?).
  apply (hoare_bind _ (λ _, committed)); [|intros []; by apply hoare_ret].
  apply (hoare_fact (rs_ID verified = cs_ID candidate)); [by intros s [_ (_ & ? & _)%verified_valid]|intros Hvid].
  eapply hoare_conseq; [apply (hoare_persist_and_store j (next_reauthorized mount verified table))|..]; try done.
  - apply persists_transition.
  - rewrite Et. by apply completes_reauthorize.
  - simpl. intros s' [? ?]. split; [done|]. unfold j. rewrite <-Hgen. apply underway_reauthorize; try done.
    intros E. apply Hne. congruence.
Qed.

Lemma hoare_activate mount expectedOld generation candidate quiesce admitted verified :
  t = TActivate mount expectedOld generation candidate quiesce admitted → valid_utf8 mount = true →
  (∀ state, tbl_Mounts table !! mount = Some state → catalog_of (ms_Active state) = catalog_of verified) →
  let j := activation_journal mount (catalog_of verified) (cs_ID candidate) expectedOld generation in
  hoare (λ s, untouched s ∧ verifies s.2 (cs_ID candidate) verified)
    (ActivateMountDurablyBounded mount expectedOld generation verified (Some (persist_activation resourceLimits j admitted)))
    (λ _ s, committed s ∨ untouched s ∧ completes table t table) failed.
Proof.
  intros Et Hutf Hcat j. assert (∀ s, untouched s ∧ verifies s.2 (cs_ID candidate) verified → failed s) as Hfail
    by (intros s [? _]; by left).
  apply (hoare_fact (rs_ID verified = cs_ID candidate)); [by intros s [_ (_ & ? & _)%verified_valid]|intros Hvid].
  unfold ActivateMountDurablyBounded, activateMountDurably, current_table.
  apply (hoare_bind _ (λ _ s, committed s ∨ untouched s ∧ completes table t table)); [|intros ?; by apply hoare_ret].
  apply hoare_lift_bind; [intros [] Hmount|done]. apply hoare_lift_bind; [intros [] Hvalid|done].
  apply (hoare_gets_bind _ _ _ table); [intros s [? _]; by apply untouched_table|].
  apply hoare_lift_bind; [intros [] Hgen|done]. apply hoare_lift_bind; [intros [] Hnt|done]. cbv zeta.
  unfold check_generation in Hgen. unfold check_not_withdrawn in Hnt. go_inv.
  assert (tbl_Tombstones table !! mount = None) as Htn by (apply eq_None_not_Some; by intros ?).
  assert ((∀ state, tbl_Mounts table !! mount = Some state → rs_ID (ms_Active state) ≠ cs_ID candidate) →
    expectedOld = from_option (λ state, rs_ID (ms_Active state)) "" (tbl_Mounts table !! mount) →
    hoare (λ s, untouched s ∧ verifies s.2 (cs_ID candidate) verified)
      (persist_and_store (Some (persist_activation resourceLimits j admitted)) (next_activated mount verified table))
      (λ _, committed) failed) as Hcommit.
  { intros Hnew Hold. eapply hoare_conseq; [apply (hoare_persist_and_store j)|..]; try done.
    - apply persists_activation.
    - rewrite Et. by apply completes_activate.
    - simpl. intros s [? ?]. split; [done|]. unfold j. rewrite <-Hgen, Hold. apply underway_activate; try done.
      intros state Es. split; [by apply Hnew|by apply Hcat]. }
  unfold next_activated in Hcommit. destruct (tbl_Mounts table !! mount) as [state|] eqn:Em; simpl in Hcommit.
  - apply hoare_lift_bind; [intros [] Hid|done]. go_inv. case_bool_decide as Esame.
    + apply hoare_ret. intros s [? _]. right. split; [done|]. rewrite Et. eapply completes_active; [done|congruence].
    + apply (hoare_bind _ (λ _, committed)); [|intros []; apply hoare_ret; by left].
      apply Hcommit; [|done]. intros ? [= <-]. congruence.
  - apply hoare_lift_bind; [intros [] Hid|done]. go_inv.
    apply (hoare_bind _ (λ _, committed)); [|intros []; apply hoare_ret; by left]. by apply Hcommit.
Qed.

Lemma hoare_quiet {A} (op : io A) : keeps quiet op → hoare untouched (on_disk op) (λ _, untouched) untouched.
Proof.
  intros Hop. eapply hoare_conseq; [apply (hoare_on_snd (λ rt, rt = runtime) (unchanged g table) op
    (λ _, unchanged g table) (unchanged g table)), (hoare_keeps quiet); [exact Hop|apply unchanged_quiet]|..]; done.
Qed.

Lemma hoare_finish :
  hoare (λ s, committed s ∨ untouched s ∧ completes table t table) (on_disk removeJournal) (λ _, succeeded) failed.
Proof.
  intros s [Hs|[Hs Hc]]; [by apply hoare_remove|]. destruct s as [rt d]. destruct Hs as [Hrt Hu]. simpl in Hrt, Hu. subst rt.
  assert (hoare (unchanged g table) removeJournal (λ _, unchanged g table) (unchanged g table)) as Hr.
  { unfold removeJournal. intros d' Hd'. rewrite gets_bind, (proj1 Hd').
    revert d' Hd'. apply (hoare_bind _ (λ _, unchanged g table)); [|intros _; by apply hoare_ret].
    apply hoare_wrap. eapply hoare_conseq; [apply (hoare_attempt _ _ (unchanged g table)
      (unchanged_quiet g table))|done|done|by intros d' [?|?]].
    intros d' (Hj & Hsh & Hs). split; [done|]. split; [done|]. by apply (sound_same _ _ d'). }
  pose proof (hoare_on_snd (λ rt, rt = runtime) _ _ _ _ Hr (runtime, d) (conj eq_refl Hu)) as Hx.
  destruct (on_disk removeJournal (runtime, d)) as [s' [a|e]]; destruct Hx as [Hrt Hu']; [|by left].
  exists table. split; [done|]. rewrite Hrt. split; [done|]. unfold settled. by rewrite Hrt.
Qed.

(** *** Publishing the candidate *)

Lemma untouched_grown d d' : grown d d' → unchanged g table d → unchanged g table d'.
Proof.
  intros [[Er Ej] Hsn] (Hj & Hsh & Hs). split; [congruence|]. split; [unfold shows in *; by rewrite Er|].
  apply (sound_used _ _ d); [done|]. intros id (mount & state & Hm & Hid). apply Hsn.
  destruct (sound_mounts _ _ _ _ Hs _ _ Hm) as (_ & _ & (active & Ha & _) & Hp).
  apply preflights_facts in Ha as (_ & _ & _ & Ha & _). destruct Hid as [<-|Hid]; [done|].
  destruct (ms_Previous state) as [previous|]; [|done]. injection Hid as <-.
  destruct (Hp previous eq_refl) as ((verified & Hv & _) & _). by apply preflights_facts in Hv as (_ & _ & _ & ? & _).
Qed.

Lemma hoare_collect : hoare untouched garbageCollectLocked (λ _, untouched) untouched.
Proof.
  intros [rt d] [Hrt Hu]. simpl in Hrt, Hu. subst rt.
  destruct (garbageCollectLocked (runtime, d)) as [s r] eqn:Eg.
  destruct (garbageCollect_collected _ _ _ _ Eg) as (Hrt & (Er & Ej & _ & _ & _ & Hsn) & _).
  assert (untouched s) as Hs; [|by destruct r]. split; [done|].
  destruct Hu as (Hj & Hsh & Hs). split; [congruence|]. split; [unfold shows in *; by rewrite Er|].
  apply (sound_used _ _ d); [done|]. intros id Hid. destruct (Hsn id) as [?|[_ Hn]]; [done|].
  unfold in_use in Hn. rewrite bool_decide_true in Hn; [done|]. by apply retained_spec.
Qed.

Lemma hoare_publish candidate :
  hoare untouched (publish_or_collect root resourceLimits candidate) (λ _, untouched) untouched.
Proof.
  assert (hoare untouched (on_disk (Publish root resourceLimits candidate)) (λ _, untouched) untouched) as Hp.
  { eapply hoare_conseq; [apply (hoare_on_snd (λ rt, rt = runtime) (unchanged g table) (Publish root resourceLimits candidate)
      (λ _, unchanged g table) (unchanged g table)), (hoare_keeps grown); [apply grown_Publish|apply untouched_grown]|..]; done. }
  intros s Hs. pose proof (Hp s Hs) as Hs'. unfold publish_or_collect.
  destruct (on_disk (Publish root resourceLimits candidate) s) as [s' [m|e]]; [done|].
  destruct (Is _ e); [|done]. revert s' Hs'. apply (hoare_bind _ (λ _, untouched)); [apply hoare_collect|by intros _].
Qed.

Lemma hoare_Preflight id :
  hoare untouched (on_disk (Preflight root resourceLimits id)) (λ verified s, untouched s ∧ verifies s.2 id verified) untouched.
Proof.
  intros [rt d] Hs. pose proof (hoare_quiet _ (quiet_Preflight root resourceLimits id) (rt, d) Hs) as Hq.
  unfold on_snd in *. simpl in *. destruct (Preflight root resourceLimits id d) as [d' [v|e]] eqn:Ep; [|done].
  split; [done|]. apply Preflight_ok in Ep as [[l ->] Hv]. by apply (preflights_same _ _ d).
Qed.

Lemma hoare_begin {A} (m : coordinated A) Q :
  hoare untouched m Q failed → hoare untouched (on_disk ctx_Err ;; on_disk rejectPendingJournal ;; m) Q failed.
Proof.
  intros Hm. apply (hoare_bind _ (λ _, untouched)).
  { eapply hoare_conseq; [apply hoare_quiet, quiet_examine|done|done|apply untouched_failed]. }
  intros _. apply (hoare_bind _ (λ _, untouched)); [|by intros _].
  eapply hoare_conseq; [apply hoare_quiet|done|done|apply untouched_failed].
  unfold rejectPendingJournal. keeps_tac. apply quiet_examine.
Qed.

Lemma hoare_ready {A} (m : coordinated A) candidate verified Q :
  hoare (λ s, untouched s ∧ verifies s.2 candidate verified) m Q failed →
  hoare (λ s, untouched s ∧ verifies s.2 candidate verified) (on_disk ctx_Err ;; m) Q failed.
Proof.
  intros Hm s Hs. pose proof (hoare_quiet _ (quiet_examine Canceled) s (proj1 Hs)) as Hq.
  unfold mbind, stM_bind. destruct s as [rt d]. unfold on_snd in *. simpl in *.
  destruct (quiet_examine Canceled d) as [l Hl]. unfold ctx_Err in *.
  destruct (examine Canceled d) as [d' [[]|e]]; [|by left]. apply (Hm (rt, d')). split; [done|].
  simpl in Hl. subst d'. apply (preflights_same _ _ d); [done|apply Hs].
Qed.

(** *** The calls *)

Lemma untouched_Table s : untouched s → Table s.1 = Table runtime.
Proof. by intros [-> _]. Qed.

Lemma mounts_Table mount : tbl_Mounts (Table runtime) !! mount = cloneMountState <$> tbl_Mounts table !! mount.
Proof. unfold Table. simpl. by rewrite lookup_fmap. Qed.

Lemma hoare_receipt {A} (r : A) : hoare succeeded (mret r) (λ _, succeeded) failed.
Proof. by apply hoare_ret. Qed.

Lemma hoare_Withdraw mount expectedActive generation name : t = TWithdraw mount expectedActive generation name →
  hoare untouched (Withdraw resourceLimits mount expectedActive generation name) (λ _, succeeded) failed.
Proof.
  intros Et. apply hoare_begin. unfold runtime_table.
  apply (hoare_gets_bind _ _ _ (Table runtime)); [apply untouched_Table|]. rewrite mounts_Table.
  destruct (tbl_Mounts table !! mount) as [state|] eqn:Em; cbn [fmap option_fmap option_map];
    [|apply hoare_lift; [done|apply untouched_failed]]. cbv zeta.
  apply hoare_lift_bind; [intros [] _|apply untouched_failed].
  apply (hoare_gets_bind _ _ _ runtime); [by intros s [? _]|].
  apply hoare_lift_bind; [intros [] _|apply untouched_failed].
  apply (hoare_bind _ (λ _, committed)); [exact (hoare_withdraw mount expectedActive generation name state Et Em)|intros _].
  apply (hoare_bind _ (λ _, succeeded)); [apply hoare_remove|intros _; apply hoare_receipt].
Qed.

Lemma hoare_verified {A} candidate (f : Materialization → RuntimeSnapshot → coordinated A) Q :
  (∀ materialization verified,
     hoare (λ s, untouched s ∧ verifies s.2 (cs_ID candidate) verified) (f materialization verified) Q failed) →
  hoare untouched (materialization ← publish_or_collect root resourceLimits candidate;
    verified ← on_disk (Preflight root resourceLimits (cs_ID candidate)); on_disk ctx_Err ;; f materialization verified) Q failed.
Proof.
  intros Hf. apply (hoare_bind _ (λ _, untouched)).
  { eapply hoare_conseq; [apply hoare_publish|done|done|apply untouched_failed]. }
  intros materialization. apply (hoare_bind _ (λ verified s, untouched s ∧ verifies s.2 (cs_ID candidate) verified)).
  { eapply hoare_conseq; [apply hoare_Preflight|done|done|apply untouched_failed]. }
  intros verified. apply hoare_ready, Hf.
Qed.

Lemma hoare_Reauthorize mount generation candidate : t = TReauthorize mount generation candidate →
  hoare untouched (Reauthorize root resourceLimits mount generation candidate) (λ _, succeeded) failed.
Proof.
  intros Et. apply hoare_begin. unfold runtime_table.
  apply (hoare_gets_bind _ _ _ (Table runtime)); [apply untouched_Table|]. unfold Table at 1. cbn [tbl_Tombstones cloneRouteTable].
  destruct (tbl_Tombstones table !! mount) as [tombstone|] eqn:Em; [|apply hoare_lift; [done|apply untouched_failed]]. cbv zeta.
  do 2 (apply hoare_lift_bind; [intros [] _|apply untouched_failed]).
  apply (hoare_gets_bind _ _ _ runtime); [by intros s [? _]|].
  apply hoare_lift_bind; [intros [] _|apply untouched_failed].
  apply hoare_verified. intros materialization verified.
  assert (∀ s, untouched s ∧ verifies s.2 (cs_ID candidate) verified → failed s) as Hfail by (intros s [? _]; by left).
  apply (hoare_gets_bind _ _ _ (Table runtime)); [intros s [? _]; by apply untouched_Table|].
  unfold Table at 1. cbn [tbl_Tombstones cloneRouteTable]. rewrite Em.
  apply hoare_lift_bind; [intros [] _|done].
  apply (hoare_bind _ (λ _, committed)); [by apply hoare_reauthorize|intros _].
  apply (hoare_bind _ (λ _, succeeded)); [apply hoare_remove|intros _; apply hoare_receipt].
Qed.

Lemma hoare_Activate mount expectedOld generation candidate quiesce admitted :
  t = TActivate mount expectedOld generation candidate quiesce admitted → valid_utf8 mount = true →
  hoare untouched (ActivateAdmitted root resourceLimits mount expectedOld generation candidate quiesce admitted)
    (λ _, succeeded) failed.
Proof.
  intros Et Hutf. apply hoare_begin.
  apply hoare_lift_bind; [intros [] _|apply untouched_failed].
  apply (hoare_gets_bind _ _ _ runtime); [by intros s [? _]|].
  apply hoare_lift_bind; [intros [] _|apply untouched_failed].
  apply hoare_verified. intros materialization verified.
  assert (∀ s, untouched s ∧ verifies s.2 (cs_ID candidate) verified → failed s) as Hfail by (intros s [? _]; by left).
  apply (hoare_gets_bind _ _ _ runtime); [by intros s [[? _] _]|].
  apply hoare_lift_bind; [intros [] _|done]. rewrite mounts_Table.
  apply hoare_lift_bind; [intros [] Hcat|done].
  assert (∀ state, tbl_Mounts table !! mount = Some state → catalog_of (ms_Active state) = catalog_of verified) as Hc.
  { intros state Es. rewrite Es in Hcat. simpl in Hcat. apply throw_if_ok in Hcat. by apply negb_false_iff, bool_decide_eq_true in Hcat. }
  do 2 (apply hoare_lift_bind; [intros [] _|done]). cbv zeta.
  apply (hoare_bind _ (λ _ s, committed s ∨ untouched s ∧ completes table t table)); [by eapply hoare_activate|intros activation].
  apply (hoare_bind _ (λ _, succeeded)); [apply hoare_finish|intros _; apply hoare_receipt].
Qed.

Lemma hoare_transition : valid_utf8 (transition_mount t) = true →
  hoare untouched (run_transition t) (λ _, succeeded) failed.
Proof.
  intros Hutf.
  assert (∀ A (m : coordinated A), hoare untouched m (λ _, succeeded) failed →
    hoare untouched (m ;; mret tt) (λ _, succeeded) failed) as Hunit.
  { intros A m Hm. apply (hoare_bind _ (λ _, succeeded)); [done|intros _; apply hoare_receipt]. }
  destruct t eqn:Et; simpl in Hutf |- *; apply Hunit.
  - by eapply hoare_Activate.
  - by eapply hoare_Withdraw.
  - by eapply hoare_Reauthorize.
Qed.
End outcome.

(** C3: activation, withdrawal and reauthorization are atomic under crashes.
    Start where memory and directory agree, for a mount that is valid UTF-8, and
    let any of the operations on the directory fail, take effect and still fail, or never happen because the
    process died.  The next process then opens the directory without error,
    removes the journal, and serves the table of before or the complete next
    one; and when the call has answered without error it serves the table that
    the call left in memory. *)
Theorem transitions_are_crash_atomic t g now runtime d s r :
  valid_utf8 (transition_mount t) = true → settled g (runtime, d) →
  run_transition t (runtime, d) = (s, r) →
  let old := rn_table runtime in
  ∃ s', restart root resourceLimits g now s.2 = (s', Ok tt) ∧ settled g s'
    ∧ match r with
      | Ok _ => completes old t (rn_table s.1) ∧ persisted_table (rn_table s'.1) = persisted_table (rn_table s.1)
      | Fail _ => persisted_table (rn_table s'.1) = persisted_table old
          ∨ ∃ next, completes old t next ∧ persisted_table (rn_table s'.1) = persisted_table next
      end.
Proof.
  intros Hutf Hs Hrun. cbv zeta. pose proof (hoare_transition g runtime t Hutf (runtime, d) (conj eq_refl Hs)) as Hr.
  rewrite Hrun in Hr.
  assert (succeeded g runtime t s → ∃ s', restart root resourceLimits g now s.2 = (s', Ok tt) ∧ settled g s'
    ∧ completes (rn_table runtime) t (rn_table s.1) ∧ persisted_table (rn_table s'.1) = persisted_table (rn_table s.1)) as Hok.
  { intros (next & Hc & <- & Hj & Hsh & Hsound). 
    destruct (restart_idle _ _ g now _ _ Hj Hsh Hsound) as (s' & Hre & (_ & Ep & Hset & _)). by exists s'. }
  destruct r as [u|e]; [by apply Hok|]. destruct Hr as [[_ (Hj & Hsh & Hsound)]|[(s' & H1 & H2 & Hc & Ep)%Hok|(j & next & Hc & _ & Hp & Hsound)]].
  - destruct (restart_idle _ _ g now _ _ Hj Hsh Hsound) as (s' & Hre & (_ & Ep & Hset & _)). exists s'. auto.
  - exists s'. split; [done|]. split; [done|]. right. by exists (rn_table s.1).
  - destruct (restart_pending _ _ g now _ _ _ _ Hsound Hp) as (s' & Hre & (_ & Ep & Hset & _)).
    exists s'. split; [done|]. split; [done|]. right. by exists next.
Qed.
End transitions.

(** ** An activation that is cut short *)

Section example.

Definition example_child (path : string) (data : list Z) : ChildArtifact :=
  MkChildArtifact path "" (data_len data) (hex_encode (sha256 data)) data.
Definition declare (child : ChildArtifact) : ChildIdentityV1 :=
  MkChildIdentityV1 (ch_Path child) (ch_Kind child) (ch_Length child) (ch_SHA256 child).
Definition example_children : list ChildArtifact := [example_child "catalog.json" [99]; example_child "search.json" [115]].
Definition example_catalog : CatalogArtifactV1 :=
  MkCatalogArtifactV1 1 "payments" "" zero_branding "" "" "search.json" None.
Definition example_manifest : ManifestV1 :=
  MkManifestV1 1 (example_id "b") zero_identity (Some (declare <$> example_children)).
Definition example_candidate : CompiledSnapshot :=
  MkCompiledSnapshot (example_id "b") zero_identity example_catalog
    (Some (example_child "manifest.json" [109] :: example_children)).

(** A codec that knows three one-byte files. *)
#[local] Instance example_codec : SnapshotCodec := {|
  DecodeManifestWithResourceLimits data _ := if bool_decide (data = [109]) then Ok example_manifest else Fail io_error;
  DecodeCatalogWithResourceLimits data _ := if bool_decide (data = [99]) then Ok example_catalog else Fail io_error;
  DecodeSearchDirectoryWithResourceLimits data _ := if bool_decide (data = [115]) then Ok (search_directory 1) else Fail io_error;
  ValidateCatalogManifest _ _ := Ok tt;
  ValidateSearchManifest _ _ := Ok tt;
|}.
#[local] Instance example_laws : CodecLaws.
Proof.
  split; intros data limits x; simpl; (case_bool_decide; [|done]); intros [= <-]; [|done]. split; vm_compute; reflexivity.
Qed.

Definition example_activation : transition := TActivate "/payments" "" 7 example_candidate None None.
(** The process dies before routes.json is written. *)
Definition dying_disk (k : nat) : Disk := put_fates (repeat Done k ++ repeat Failed 40) empty_disk.
Definition interrupted : (Runtime * Disk) * res unit :=
  run_transition "/srv" true example_activation (NewRuntime 7, dying_disk 36).
Definition reopened : (Runtime * Disk) * res unit := restart "/srv" true 7 1 interrupted.1.2.

Lemma transitions_are_crash_atomic_witness :
  (bool_decide (is_Some (dk_journal interrupted.1.2)) && bool_decide (dk_routes interrupted.1.2 = None)
   && bool_decide (is_Some (tbl_Mounts (rn_table reopened.1.1) !! "/payments"))) = true
  ∧ ∃ s', restart "/srv" true 7 1 interrupted.1.2 = (s', Ok tt) ∧ settled "/srv" true 7 s'
    ∧ match interrupted.2 with
      | Ok _ => completes (MkRouteTable 7 ∅ ∅) example_activation (rn_table interrupted.1.1)
          ∧ persisted_table (rn_table s'.1) = persisted_table (rn_table interrupted.1.1)
      | Fail _ => persisted_table (rn_table s'.1) = persisted_table (MkRouteTable 7 ∅ ∅)
          ∨ ∃ next, completes (MkRouteTable 7 ∅ ∅) example_activation next
              ∧ persisted_table (rn_table s'.1) = persisted_table next
      end.
Proof.
  split; [vm_compute; reflexivity|].
  apply (transitions_are_crash_atomic "/srv" true example_activation 7 1 (NewRuntime 7) (dying_disk 36)).
  - vm_compute. reflexivity.
  - split; [reflexivity|]. split; [by right|]. split.
    + intros mount state E. simpl in E. by rewrite lookup_empty in E.
    + intros mount tombstone E. simpl in E. by rewrite lookup_empty in E.
    + vm_compute. reflexivity.
  - unfold interrupted. by destruct (run_transition _ _ _ _).
Defined.
End example.
