(* ===== verification/CatalogQuarantine.v ===== *)
(** * A snapshot that is quarantined twice

    Snapshots are named by their content, so a quarantined one may be published
    and damaged again.  [quarantine] cannot move it then, and no start succeeds
    while a mount serves it. *)

From S2P Require Import Prelude GoString GoSha256 GoJson.
From S2P Require Import CatalogModel.
From S2P Require Import CatalogRuntime.
From S2P Require Import CatalogDisk.
From S2P Require Import CatalogStore.
From S2P Require Import Activation.
From S2P Require Import CatalogSafety.
From S2P Require Import CatalogRuns.
From S2P Require Import CatalogRecovery.
From S2P Require Import CatalogCrash.
From S2P Require Import CatalogTransitions.

Section quarantine.
Context `{SnapshotCodec} (root : string) (resourceLimits : bool).

Section damaged.
Context (id : SnapshotID) (files : tree).

(** The snapshot is in both places. *)
Definition stuck (d : Disk) : Prop := dk_snapshots d !! id = Some files ∧ is_Some (dk_quarantine d !! id).
(** Its files do not verify. *)
Definition unverifiable : Prop :=
  ∀ d, calm d → dk_snapshots d !! id = Some files → ∃ e, (Preflight root resourceLimits id d).2 = Fail e.
Hypothesis Hdamaged : unverifiable.

Lemma stuck_quiet d d' : quiet d d' → stuck d → stuck d'.
Proof. by intros [l ->]. Qed.
Lemma hoare_stuck_quiet {A} (op : io A) : keeps quiet op → hoare stuck op (λ _, stuck) stuck.
Proof. intros Hop. apply (hoare_keeps quiet); [done|apply stuck_quiet]. Qed.

Lemma stuck_Preflight : hoare stuck (Preflight root resourceLimits id) (λ _ _, False) stuck.
Proof.
  intros d Hd. pose proof (hoare_stuck_quiet _ (quiet_Preflight root resourceLimits id) d Hd) as Hq.
  destruct (Preflight root resourceLimits id d) as [d' [v|e]] eqn:Ep; [|done].
  apply Preflight_ok in Ep as [_ Hp].
  destruct (Hdamaged (put_fates [] d) eq_refl (proj1 Hd)) as [e He].
  by rewrite (Hp (put_fates [] d) eq_refl eq_refl) in He.
Qed.

Lemma stuck_attempt f : (∀ d, stuck d → stuck (f d)) → hoare stuck (attempt f) (λ _, stuck) stuck.
Proof.
  intros Hf. eapply hoare_conseq; [apply (hoare_attempt f stuck stuck stuck_quiet Hf)|done|done|by intros d [?|?]].
Qed.

Lemma stuck_rename other : hoare stuck (rename_to_quarantine other) (λ _ d, stuck d ∧ other ≠ id) stuck.
Proof.
  intros d Hd. unfold rename_to_quarantine. rewrite !gets_bind.
  assert (∀ (m : io bool), hoare stuck m (λ _ d, stuck d ∧ other ≠ id) stuck →
    match m d with (d', Ok _) => stuck d' ∧ other ≠ id | (d', Fail _) => stuck d' end) as Hat by (intros m Hm; by apply Hm).
  destruct (dk_snapshots d !! other) as [moved|] eqn:Es; [destruct (dk_quarantine d !! other) as [q|] eqn:Eq|].
  - apply Hat. apply (hoare_bind _ (λ _, stuck)); [apply hoare_stuck_quiet, quiet_examine|intros _]. by apply hoare_lift.
  - assert (other ≠ id) as Hne by (intros ->; destruct Hd as [_ [? Hq]]; by pose proof (eq_trans (eq_sym Hq) Eq)).
    apply Hat. apply (hoare_bind _ (λ _, stuck)); [|intros _; by apply hoare_ret].
    apply stuck_attempt. intros d' [Hs Hq]. split; simpl; [by rewrite lookup_delete_ne|by rewrite lookup_insert_ne].
  - assert (other ≠ id) as Hne by (intros ->; destruct Hd as [Hs _]; by pose proof (eq_trans (eq_sym Hs) Es)).
    apply Hat. apply (hoare_bind _ (λ _, stuck)); [apply hoare_stuck_quiet, quiet_examine|intros _]. by apply hoare_ret.
Qed.

Lemma stuck_quarantine other : hoare stuck (quarantine root other) (λ _ d, stuck d ∧ other ≠ id) stuck.
Proof.
  unfold quarantine, make_directories.
  apply (hoare_bind _ (λ _, stuck)); [by apply hoare_lift|intros _].
  apply (hoare_bind _ (λ _, stuck)); [apply hoare_wrap; by apply stuck_attempt|intros _].
  apply (hoare_bind _ (λ _ d, stuck d ∧ other ≠ id)); [apply hoare_wrap, stuck_rename|intros [|]]; [|by apply hoare_ret].
  assert (hoare (λ d, stuck d ∧ other ≠ id) (st_wrap SyncDirectory (λ e, Errorf "catalogstore: confirm quarantine %q: %w" [EStr other; EErr e]))
    (λ _ d, stuck d ∧ other ≠ id) stuck) as Hsync.
  { apply hoare_wrap. eapply hoare_conseq; [apply (hoare_examine _ (λ d, stuck d ∧ other ≠ id))|done|done|by intros d [? _]].
    intros d d' Hq [Hd Hne]. split; [by eapply stuck_quiet|done]. }
  cbv zeta. apply (hoare_bind _ (λ _ d, stuck d ∧ other ≠ id)); [exact Hsync|by intros _].
Qed.

(** *** The loop over the mounts *)

Lemma stuck_verdict {A} (op : io A) failed Q : hoare stuck op Q stuck →
  hoare stuck (verdict op failed) (λ a d, if a is Some a then Q a d else stuck d) stuck.
Proof.
  intros Hop d Hd. specialize (Hop d Hd). unfold verdict. destruct (op d) as [d' [a|e]]; [done|].
  by destruct (is_corrupt e).
Qed.

Lemma stuck_preflight_bound other catalogID :
  hoare stuck (preflight_bound root resourceLimits other catalogID) (λ _ d, stuck d ∧ other ≠ id) stuck.
Proof.
  unfold preflight_bound. apply (hoare_bind _ (λ _ d, stuck d ∧ other ≠ id)).
  - destruct (decide (other = id)) as [->|Hne].
    + eapply hoare_conseq; [apply stuck_Preflight|done|by intros|done].
    + eapply hoare_conseq; [apply hoare_stuck_quiet, quiet_Preflight|done|by intros|done].
  - intros snapshot. apply (hoare_bind _ (λ _ d, stuck d ∧ other ≠ id)); [apply hoare_lift; [done|by intros d [? _]]|].
    intros _. by apply hoare_ret.
Qed.

(** A mount that serves the snapshot cannot be restored. *)
Lemma stuck_restore_mount mount entry :
  hoare stuck (restore_mount root resourceLimits mount entry) (λ _ d, stuck d ∧ dm_Active entry ≠ id) stuck.
Proof.
  assert (∀ d, stuck d ∧ dm_Active entry ≠ id → stuck d) as Hw by (by intros d [? _]).
  assert (∀ other (r : option MountState * bool), dm_Active entry ≠ id →
    hoare stuck (quarantine root other ;; mret r) (λ _ d, stuck d ∧ dm_Active entry ≠ id) stuck) as Hquar.
  { intros other r Hne. apply (hoare_bind _ (λ _, stuck)); [|intros _; by apply hoare_ret].
    eapply hoare_conseq; [apply stuck_quarantine|done|by intros _ d [? _]|done]. }
  assert (∀ (op : io RuntimeSnapshot) failed (f : option RuntimeSnapshot → io (option MountState * bool)), keeps quiet op →
    (∀ a, dm_Active entry ≠ id → hoare stuck (f a) (λ _ d, stuck d ∧ dm_Active entry ≠ id) stuck) →
    dm_Active entry ≠ id → hoare stuck (verdict op failed ≫= f) (λ _ d, stuck d ∧ dm_Active entry ≠ id) stuck) as Hnext.
  { intros op failed f Hop Hf Hne. apply (hoare_bind _ (λ _, stuck)); [|intros a; by apply Hf].
    eapply hoare_conseq; [apply (stuck_verdict op failed (λ _, stuck)), hoare_stuck_quiet, Hop|done|by intros [a|] d|done]. }
  unfold restore_mount.
  apply (hoare_bind _ (λ a d, stuck d ∧ (a ≠ None → dm_Active entry ≠ id))).
  { eapply hoare_conseq; [apply stuck_verdict, stuck_preflight_bound|done| |done].
    intros [a|] d; [by intros [? ?]|by intros]. }
  intros [active|].
  - intros d [Hd Hne]. specialize (Hne ltac:(done)). revert d Hd. case_bool_decide.
    { apply hoare_ret. done. }
    apply Hnext; [apply quiet_Preflight| |done]. clear Hne. intros [previous|] Hne; [case_match|]; auto.
    by apply hoare_ret.
  - apply (hoare_bind _ (λ _ d, stuck d ∧ dm_Active entry ≠ id)).
    { eapply hoare_conseq; [apply stuck_quarantine|by intros d [? _]|done|done]. }
    intros _ d [Hd Hne]. revert d Hd. case_bool_decide; [by apply hoare_ret|].
    apply Hnext; [apply quiet_Preflight| |done]. clear Hne. intros [previous|] Hne; [|by apply Hquar].
    case_bool_decide; [by apply hoare_ret|]. case_match; [by apply Hquar|by apply hoare_ret].
Qed.

Lemma stuck_restore_mounts entries table repaired mount entry :
  (mount, entry) ∈ entries → mount ≠ "" → dm_Active entry = id →
  hoare stuck (restore_mounts root resourceLimits "" entries table repaired) (λ _ _, False) stuck.
Proof.
  intros Hin Hne He. revert table repaired. induction entries as [|[k x] entries IH]; intros table repaired;
    [by apply not_elem_of_nil in Hin|]. simpl. apply elem_of_cons in Hin. case_bool_decide as Ek.
  - destruct Hin as [[= -> ->]|Hin]; [done|]. by apply IH.
  - apply (hoare_bind _ (λ _, stuck)); [by apply hoare_lift|intros _].
    apply (hoare_bind _ (λ _ d, stuck d ∧ dm_Active x ≠ id)).
    { eapply hoare_conseq; [apply stuck_restore_mount|done|done|done]. }
    intros [state changed]. destruct Hin as [[= -> ->]|Hin]; [by intros d [_ ?]|].
    eapply hoare_conseq; [by apply IH|by intros d [? _]|done|done].
Qed.

(** *** The start *)

(** Nothing is pending, and a mount of routes.json serves the snapshot. *)
Definition blocked (p : durableRouteTableV1) (d : Disk) : Prop :=
  stuck d ∧ dk_journal d = None ∧ dk_routes d = Some p.
Definition served (p : durableRouteTableV1) : Prop :=
  ∃ mounts mount entry, drt_Mounts (durable_reread p) = Some mounts ∧ mounts !! mount = Some entry ∧ mount ≠ ""
    ∧ dm_Active entry = id.

Lemma blocked_same p d d' : same_state d d' → stuck d' → blocked p d → blocked p d'.
Proof. intros [Er Ej] Hs (_ & Hj & Hr). split; [done|]. split; congruence. Qed.

Lemma hoare_blocked {A} p (op : io A) (Q : A → Disk → Prop) :
  hoare stuck op Q stuck → (∀ a d, Q a d → stuck d) → stateless op →
  hoare (blocked p) op (λ a d, Q a d ∧ blocked p d) (blocked p).
Proof.
  intros Hop HQ Hsame d Hd. specialize (Hop d (proj1 Hd)). specialize (Hsame d).
  destruct (op d) as [d' [a|e]]; simpl in *; [split; [done|]|]; (eapply blocked_same; [done|..|exact Hd]); eauto.
Qed.
Lemma hoare_blocked_quiet {A} p (op : io A) : keeps quiet op → hoare (blocked p) op (λ _, blocked p) (blocked p).
Proof. intros Hop. apply (hoare_keeps quiet); [done|]. by intros d d' [l ->]. Qed.

Lemma blocked_read {A} `{DurableRecord A} p (file : Disk → option A) limit content :
  (∀ d, blocked p d → file d = content) →
  hoare (blocked p) (readDurableState file limit) (λ a d, a = content ∧ blocked p d) (blocked p).
Proof.
  intros Hf. unfold readDurableState. apply (hoare_bind _ (λ _, blocked p)); [apply hoare_blocked_quiet, quiet_examine|intros _].
  intros d Hd. rewrite gets_bind, (Hf d Hd). destruct content as [x|]; [|done].
  revert d Hd. apply (hoare_bind _ (λ _, blocked p)); [apply hoare_blocked_quiet, quiet_examine|intros _].
  apply (hoare_bind _ (λ _, blocked p)); [by apply hoare_lift|intros _]. by apply hoare_ret.
Qed.

Lemma blocked_remove_staged p names : hoare (blocked p) (remove_staged names) (λ _, blocked p) (blocked p).
Proof.
  induction names as [|name names IH]; simpl; [by apply hoare_ret|].
  apply (hoare_bind _ (λ _, blocked p)); [|by intros _]. apply hoare_wrap. unfold remove_staging.
  eapply hoare_conseq; [apply (hoare_attempt _ (blocked p) (blocked p))|done|done|by intros d [?|?]]; [|done].
  by intros d d' [l ->].
Qed.

Lemma hoare_disk {A} P (op : io A) Q E :
  hoare P op Q E → hoare (λ s : Runtime * Disk, P s.2) (on_disk op) (λ a s, Q a s.2) (λ s, E s.2).
Proof. intros Hop [rt d] Hd. specialize (Hop d Hd). unfold on_snd. simpl. by destruct (op d) as [d' [a|e]]. Qed.

Lemma blocked_restore p : served p →
  hoare (λ s : Runtime * Disk, blocked p s.2) (restoreDurableRoutes root resourceLimits None)
    (λ _ _, False) (λ s, blocked p s.2).
Proof.
  intros (mounts & mount & entry & Em & Ee & Hne & Ea). unfold restoreDurableRoutes.
  apply (hoare_bind _ (λ a s, a = Some p ∧ blocked p s.2)).
  { apply (hoare_disk (blocked p) _ (λ a d, a = Some p ∧ blocked p d)), hoare_wrap, blocked_read. by intros d (_ & _ & ?). }
  intros data. apply hoare_pure. intros ->.
  apply hoare_lift_bind; [intros persisted Hp%wrap_err_ok|done].
  apply hoare_lift_bind; [intros [] _|done]. cbv zeta.
  apply hoare_lift_bind; [intros [] _|done]. unfold decodeStrict in Hp.
  apply seq_ok in Hp as [_ Hp].
  assert (persisted = durable_reread p) as -> by (by injection Hp). change (protected_mount _ None) with "". rewrite Em.
  apply (hoare_bind _ (λ _ _, False)); [|intros [table repaired]; by intros s []].
  eapply hoare_conseq; [apply (hoare_disk (blocked p) _ (λ _ d, False ∧ blocked p d) (blocked p))|done|by intros a s [[] _]|done].
  apply (hoare_blocked p _ (λ _ _, False)); [|done|apply stateless_restore_mounts].
  apply (stuck_restore_mounts _ _ _ mount entry); [by apply elem_of_map_to_list|done|done].
Qed.

Lemma blocked_open p generation now d : served p → blocked p d →
  ∃ s e, OpenActivationCoordinatorWithResourceLimits root resourceLimits now (NewRuntime generation, d) = (s, Fail e)
    ∧ blocked p s.2.
Proof.
  intros Hserved Hd.
  assert (hoare (λ s : Runtime * Disk, blocked p s.2)
    (OpenActivationCoordinatorWithResourceLimits root resourceLimits now) (λ _ _, False) (λ s, blocked p s.2)) as Ho.
  { unfold OpenActivationCoordinatorWithResourceLimits. apply (hoare_bind _ (λ _ _, False)); [|by intros [] s []].
    unfold recover. apply (hoare_bind _ (λ _ s, blocked p s.2)).
    { apply (hoare_disk (blocked p) _ (λ _, blocked p) (blocked p)). unfold removeIncompleteStaging. apply (hoare_bind _ (λ _, blocked p)).
      - apply hoare_wrap, hoare_blocked_quiet, quiet_examine.
      - intros _ d' Hd'. rewrite gets_bind. by apply blocked_remove_staged. }
    intros _. apply (hoare_bind _ (λ a s, a = None ∧ blocked p s.2)).
    { apply (hoare_disk (blocked p) _ (λ a d, a = None ∧ blocked p d)), hoare_wrap, blocked_read. by intros d' (_ & ? & _). }
    intros content. apply hoare_pure. intros ->. by apply blocked_restore. }
  specialize (Ho (NewRuntime generation, d) Hd).
  destruct (OpenActivationCoordinatorWithResourceLimits _ _ _ _) as [s [u|e]]; [done|]. by exists s, e.
Qed.
End damaged.

(** C21: a snapshot that was quarantined, published again (its name is the
    digest of its content) and damaged again cannot be quarantined a second
    time, so no process can open the directory as long as a mount of
    routes.json serves it: every start fails, however the file operations
    behave, and leaves things as they are for the next one. *)
Theorem requarantined_snapshot_blocks_every_start id files p starts d :
  unverifiable id files → blocked id files p d → served id p →
  let open (d : Disk) '(generation, now, fates) :=
    (OpenActivationCoordinatorWithResourceLimits root resourceLimits now (NewRuntime generation, put_fates fates d)).1.2 in
  let d' := foldl open d starts in
  blocked id files p d'
  ∧ ∀ generation now fates, ∃ s e,
      OpenActivationCoordinatorWithResourceLimits root resourceLimits now (NewRuntime generation, put_fates fates d')
        = (s, Fail e).
Proof.
  intros Hu Hb Hs open d'.
  assert (blocked id files p d') as Hd'.
  { unfold d'. clear d'. revert d Hb. induction starts as [|[[generation now] fates] starts IH]; intros d Hb; [done|].
    simpl. apply IH. destruct (blocked_open id files Hu p generation now (put_fates fates d) Hs Hb) as (s & e & -> & ?). done. }
  split; [done|]. intros generation now fates.
  destruct (blocked_open id files Hu p generation now (put_fates fates d') Hs Hd') as (s & e & ? & _). by exists s, e.
Qed.
End quarantine.

(** ** Damaged twice *)

Section example.
#[local] Existing Instance example_codec.

(** Someone overwrites a file of the snapshot and the process dies. *)
Definition damage (d : Disk) : Disk :=
  upd_snapshots (alter (λ files : tree, <["catalog.json" := [0]]> files) (example_id "b")) d.
Definition activate_example (s : Runtime * Disk) : Runtime * Disk :=
  (run_transition "/srv" true example_activation s).1.
Definition restarted_once : (Runtime * Disk) * res unit :=
  restart "/srv" true 7 1 (damage (activate_example (NewRuntime 7, empty_disk)).2).
Definition damaged_again : Disk := damage (activate_example restarted_once.1).2.
Definition damaged_files : tree := default ∅ (dk_snapshots damaged_again !! example_id "b").
Definition damaged_routes : durableRouteTableV1 :=
  default (MkDurableRouteTableV1 0 0 None ∅) (dk_routes damaged_again).

Definition damaged_mounts : gmap string durableMountV1 := default ∅ (drt_Mounts (durable_reread damaged_routes)).
Definition damaged_entry : durableMountV1 := default (MkDurableMountV1 "" "" "") (damaged_mounts !! "/payments").

Lemma found {A} (o : option A) (x : A) : bool_decide (is_Some o) = true → o = Some (default x o).
Proof. intros Ho%bool_decide_eq_true. by destruct o; [|destruct Ho]. Qed.
Lemma damaged_found : dk_snapshots damaged_again !! example_id "b" = Some damaged_files.
Proof. apply found. vm_compute. reflexivity. Qed.

Lemma requarantined_snapshot_blocks_every_start_witness :
  (restarted_once.2 = Ok tt ∧ dk_quarantine empty_disk = ∅)
  ∧ let open (d : Disk) '(generation, now, fates) :=
    (OpenActivationCoordinatorWithResourceLimits "/srv" true now (NewRuntime generation, put_fates fates d)).1.2 in
  let d' := foldl open damaged_again [(7, 2, []); (8, 3, [Done; Done; Failed])] in
  blocked (example_id "b") damaged_files damaged_routes d'
  ∧ ∀ generation now fates, ∃ s e,
      OpenActivationCoordinatorWithResourceLimits "/srv" true now (NewRuntime generation, put_fates fates d') = (s, Fail e).
Proof.
  split; [split; [vm_compute; reflexivity|reflexivity]|].
  apply (requarantined_snapshot_blocks_every_start "/srv" true (example_id "b") damaged_files damaged_routes
    [(7, 2, []); (8, 3, [Done; Done; Failed])] damaged_again).
  - intros d Hd Hf.
    assert (dk_snapshots damaged_again !! example_id "b" = dk_snapshots d !! example_id "b") as Es
      by (rewrite Hf; apply damaged_found).
    destruct (reader_Preflight "/srv" true (example_id "b") d) as [_ Hr].
    destruct (Preflight "/srv" true (example_id "b") d) as [d' [v|e]]; [|by exists e]. exfalso.
    pose proof (f_equal snd (Hr v eq_refl damaged_again eq_refl Es)) as E. vm_compute in E. discriminate E.
  - split; [split|split].
    + apply damaged_found.
    + apply (bool_decide_unpack _). vm_compute. exact I.
    + apply eq_None_not_Some, (bool_decide_unpack _). vm_compute. exact I.
    + apply found. vm_compute. reflexivity.
  - exists damaged_mounts, "/payments", damaged_entry. split; [apply found; vm_compute; reflexivity|].
    split; [apply found; vm_compute; reflexivity|]. split; [discriminate|vm_compute; reflexivity].
Defined.
End example.
