(* ===== verification/ByteCache.v ===== *)
(** * The byte cache

    [ByteCache] of application/catalog/cache.go: a size-bounded LRU of decoded
    child artifacts with single-flight loading.  The cache object is a record,
    the [*cacheFlight] objects live in a heap inside it, [container/list]
    elements carry an identity of their own, and the [capacityChanged] channel
    is its number: a channel with another number than the current one is
    closed.  Each function is a critical section of the mutex; the goroutines
    around them are the subject of [CacheRuns]. *)

From S2P Require Import Prelude.
From S2P Require Import GoString.
From S2P Require Import GoSha256.

Definition ErrChildLengthMismatch : error := Errorf "catalog: child length mismatch" [].
Definition ErrChildDigestMismatch : error := Errorf "catalog: child digest mismatch" [].
Definition ErrChildDecodedWeightExceeded : error :=
  Errorf "catalog: child decoded weight exceeds reservation" [].
Definition ErrCacheFlightTooLarge : error := Errorf "catalog: cache flight reservation exceeds limit" [].
Definition ErrCacheFlightPanic : error := Errorf "catalog: cache flight panicked" [].

Record CacheKey := MkCacheKey { ck_SnapshotID : string; ck_Digest : list Z }.
#[export] Instance CacheKey_eq_dec : EqDecision CacheKey.
Proof. solve_decision. Defined.
#[export] Instance CacheKey_countable : Countable CacheKey.
Proof.
  refine (inj_countable' (λ k, (ck_SnapshotID k, ck_Digest k)) (λ p, MkCacheKey p.1 p.2) _).
  by intros [].
Defined.

Record CacheLimits := MkCacheLimits {
  cl_Entries : Z; cl_Bytes : Z; cl_FlightEntries : Z; cl_FlightBytes : Z
}.

Record CacheStats := MkCacheStats {
  cs_Entries : Z; cs_Bytes : Z; cs_Hits : Z; cs_Misses : Z; cs_Bypassed : Z; cs_Waiters : Z;
  cs_InFlightEntries : Z; cs_InFlightBytes : Z; cs_PeakInFlightEntries : Z; cs_PeakInFlightBytes : Z
}.

(** How a call of a loader or decoder ends: it returns or it panics. *)
Inductive called (A : Type) :=
  | Returned (a : A)
  | Panicked (text : string).
Arguments Returned {_} _.
Arguments Panicked {_} _.

Definition DecodedWeightV1 (stringBytes sliceCapacityBytes fixedDTOBytes : Z) : res Z :=
  if (max_uint64 - sliceCapacityBytes <? stringBytes)
     || (max_uint64 - fixedDTOBytes <? wrap64 (stringBytes + sliceCapacityBytes))
  then Fail (Errorf "catalog: decoded cache weight overflow" [])
  else Ok (wrap64 (wrap64 (stringBytes + sliceCapacityBytes) + fixedDTOBytes)).

Section byte_cache.
Context {V : Type}.

(** A value of type [any]: [None] is nil. *)
Definition any : Type := option V.

Definition ChildDecoder : Type := list Z → called (res (any * Z)).

Record cacheEntry := MkCacheEntry { ce_key : CacheKey; ce_value : any; ce_weight : Z }.

Record cacheFlight := MkCacheFlight {
  cf_done : bool;
  cf_cancelled : bool;
  cf_waiters : Z;
  cf_reservation : Z;
  cf_value : any;
  cf_err : option error
}.

Record ByteCache := MkByteCache {
  bc_limits : CacheLimits;
  bc_entries : gmap CacheKey nat;
  bc_lru : list (nat * cacheEntry);
  bc_flights : gmap CacheKey nat;
  bc_bytes : Z;
  bc_hits : Z;
  bc_misses : Z;
  bc_bypass : Z;
  bc_waiters : Z;
  bc_flightEntries : Z;
  bc_flightBytes : Z;
  bc_peakFlightEntries : Z;
  bc_peakFlightBytes : Z;
  bc_capacityChanged : nat;
  bc_heap : gmap nat cacheFlight;
  bc_next : nat
}.

(** Assignments to groups of fields. *)
Definition set_store (entries : gmap CacheKey nat) (lru : list (nat * cacheEntry)) (bytes : Z)
    (c : ByteCache) : ByteCache :=
  MkByteCache (bc_limits c) entries lru (bc_flights c) bytes (bc_hits c) (bc_misses c) (bc_bypass c)
    (bc_waiters c) (bc_flightEntries c) (bc_flightBytes c) (bc_peakFlightEntries c)
    (bc_peakFlightBytes c) (bc_capacityChanged c) (bc_heap c) (bc_next c).
Definition set_counters (hits misses bypass waiters : Z) (c : ByteCache) : ByteCache :=
  MkByteCache (bc_limits c) (bc_entries c) (bc_lru c) (bc_flights c) (bc_bytes c) hits misses bypass
    waiters (bc_flightEntries c) (bc_flightBytes c) (bc_peakFlightEntries c)
    (bc_peakFlightBytes c) (bc_capacityChanged c) (bc_heap c) (bc_next c).
Definition set_usage (entries bytes peakEntries peakBytes : Z) (c : ByteCache) : ByteCache :=
  MkByteCache (bc_limits c) (bc_entries c) (bc_lru c) (bc_flights c) (bc_bytes c) (bc_hits c)
    (bc_misses c) (bc_bypass c) (bc_waiters c) entries bytes peakEntries peakBytes
    (bc_capacityChanged c) (bc_heap c) (bc_next c).
Definition set_flights (flights : gmap CacheKey nat) (c : ByteCache) : ByteCache :=
  MkByteCache (bc_limits c) (bc_entries c) (bc_lru c) flights (bc_bytes c) (bc_hits c)
    (bc_misses c) (bc_bypass c) (bc_waiters c) (bc_flightEntries c) (bc_flightBytes c)
    (bc_peakFlightEntries c) (bc_peakFlightBytes c) (bc_capacityChanged c) (bc_heap c) (bc_next c).
Definition set_heap (capacityChanged : nat) (heap : gmap nat cacheFlight) (next : nat)
    (c : ByteCache) : ByteCache :=
  MkByteCache (bc_limits c) (bc_entries c) (bc_lru c) (bc_flights c) (bc_bytes c) (bc_hits c)
    (bc_misses c) (bc_bypass c) (bc_waiters c) (bc_flightEntries c) (bc_flightBytes c)
    (bc_peakFlightEntries c) (bc_peakFlightBytes c) capacityChanged heap next.

Definition NewByteCache (limits : CacheLimits) : ByteCache :=
  let flightEntries := if cl_FlightEntries limits =? 0 then cl_Entries limits else cl_FlightEntries limits in
  let flightBytes := if cl_FlightBytes limits =? 0 then cl_Bytes limits else cl_FlightBytes limits in
  MkByteCache (MkCacheLimits (cl_Entries limits) (cl_Bytes limits) flightEntries flightBytes)
    ∅ [] ∅ 0 0 0 0 0 0 0 0 0 0 ∅ 0.
Definition NewDetailCache : ByteCache :=
  NewByteCache (MkCacheLimits 128 (Z.shiftl 64 20) 8 (Z.shiftl 64 20)).
Definition NewSearchCache : ByteCache :=
  NewByteCache (MkCacheLimits 64 (Z.shiftl 8 20) 8 (Z.shiftl 8 20)).

(** [container/list]: the value of an element, [Remove], [MoveToFront]. *)
Definition lru_value (el : nat) (l : list (nat * cacheEntry)) : option cacheEntry :=
  snd <$> find (λ p, bool_decide (p.1 = el)) l.
Definition lru_remove (el : nat) (l : list (nat * cacheEntry)) : list (nat * cacheEntry) :=
  filter (λ p, p.1 ≠ el) l.
Definition lru_move_to_front (el : nat) (l : list (nat * cacheEntry)) : list (nat * cacheEntry) :=
  match lru_value el l with
  | Some e => (el, e) :: lru_remove el l
  | None => l
  end.

(** ** Load *)

(** What one pass of Load's loop under the mutex decides. *)
Inductive attempt :=
  | Hit (value : any)
  | Refused (e : error)
  | AwaitCapacity (changed : nat)
  | AwaitFlight (flight : nat) (started : bool).

Definition start_flight (key : CacheKey) (reservation : Z) (c : ByteCache) : ByteCache :=
  let flight := bc_next c in
  let entries := wrap64 (bc_flightEntries c + 1) in
  let bytes := wrap64 (bc_flightBytes c + reservation) in
  set_usage entries bytes
    (if bc_peakFlightEntries c <? entries then entries else bc_peakFlightEntries c)
    (if bc_peakFlightBytes c <? bytes then bytes else bc_peakFlightBytes c)
    (set_flights (<[key := flight]> (bc_flights c))
      (set_heap (bc_capacityChanged c)
        (<[flight := MkCacheFlight false false 0 reservation None None]> (bc_heap c))
        (S flight) c)).

Definition set_waiters (waiters : Z) (flight : cacheFlight) : cacheFlight :=
  MkCacheFlight (cf_done flight) (cf_cancelled flight) waiters (cf_reservation flight)
    (cf_value flight) (cf_err flight).

(** [flight.waiters++; cache.waiters++] *)
Definition add_waiter (flight : nat) (c : ByteCache) : ByteCache :=
  set_counters (bc_hits c) (bc_misses c) (bc_bypass c) (wrap64 (bc_waiters c + 1))
    (set_heap (bc_capacityChanged c)
      (alter (λ fl, set_waiters (wrap64 (cf_waiters fl + 1)) fl) flight (bc_heap c)) (bc_next c) c).

Definition load_attempt (c : ByteCache) (key : CacheKey) (reservation : Z) (missRecorded : bool)
    : ByteCache * attempt :=
  match bc_entries c !! key with
  | Some element =>
      let value := default None (ce_value <$> lru_value element (bc_lru c)) in
      (set_store (bc_entries c) (lru_move_to_front element (bc_lru c)) (bc_bytes c)
         (set_counters (wrap64 (bc_hits c + 1)) (bc_misses c) (bc_bypass c) (bc_waiters c) c),
       Hit value)
  | None =>
      let c := if missRecorded then c
        else set_counters (bc_hits c) (wrap64 (bc_misses c + 1)) (bc_bypass c) (bc_waiters c) c in
      let limits := bc_limits c in
      match bc_flights c !! key with
      | Some flight => (add_waiter flight c, AwaitFlight flight false)
      | None =>
          if (cl_FlightBytes limits <? reservation) || (cl_FlightEntries limits =? 0)
             || (cl_FlightBytes limits =? 0)
          then (c, Refused (Errorf "%w: %d bytes, limits %d entries and %d bytes"
                     [EErr ErrCacheFlightTooLarge; EInt reservation;
                      EInt (cl_FlightEntries limits); EInt (cl_FlightBytes limits)]))
          else if (cl_FlightEntries limits <=? bc_flightEntries c)
                  || (wrap64 (cl_FlightBytes limits - reservation) <? bc_flightBytes c)
          then (c, AwaitCapacity (bc_capacityChanged c))
          else (add_waiter (bc_next c) (start_flight key reservation c), AwaitFlight (bc_next c) true)
      end
  end.

(** The checks before the loop; a context is its error once it is done. *)
Definition load_contract (ctx : option error) (key : CacheKey) (expectedLength maximumDecodedWeight : Z)
    (loader : bool) (decoder : option ChildDecoder) : res Z :=
  (match ctx with Some e => Fail e | None => Ok tt end) ;;
  throw_if (bool_decide (ck_SnapshotID key = "") || (expectedLength =? 0) || negb loader
            || match decoder with None => true | Some _ => false end)
    (Errorf "catalog: cache load contract is incomplete" []) ;;
  throw_if (max_uint64 - expectedLength <? maximumDecodedWeight)
    (Errorf "catalog: cache flight reservation overflow" []) ;;
  Ok (wrap64 (expectedLength + maximumDecodedWeight)).

(** ** The flight goroutine *)

Definition flight_panic (text : string) : error :=
  Errorf "%w: %v" [EErr ErrCacheFlightPanic; EStr text].

Definition execute (key : CacheKey) (expectedLength maximumDecodedWeight : Z)
    (loaded : called (res (list Z))) (decoder : ChildDecoder) : any * Z * option error :=
  match loaded with
  | Panicked text => (None, 0, Some (flight_panic text))
  | Returned (Fail err) => (None, 0, Some err)
  | Returned (Ok data) =>
      let len := Z.of_nat (length data) in
      if negb (len =? expectedLength) then
        (None, 0, Some (Errorf "%w: got %d, want %d" [EErr ErrChildLengthMismatch; EInt len; EInt expectedLength]))
      else if negb (bool_decide (sha256 data = ck_Digest key)) then (None, 0, Some ErrChildDigestMismatch)
      else match decoder data with
      | Panicked text => (None, 0, Some (flight_panic text))
      | Returned (Fail err) => (None, 0, Some err)
      | Returned (Ok (value, decodedWeight)) =>
          if maximumDecodedWeight <? decodedWeight then
            (value, 0, Some (Errorf "%w: got %d, reserved %d"
               [EErr ErrChildDecodedWeightExceeded; EInt decodedWeight; EInt maximumDecodedWeight]))
          else if max_uint64 - len <? decodedWeight then
            (value, 0, Some (Errorf "catalog: decoded cache weight overflow" []))
          else (value, wrap64 (len + decodedWeight), None)
      end
  end.

(** The eviction loop of [admit]; [None] when the fuel is not enough. *)
Fixpoint evict_loop (fuel : nat) (c : ByteCache) : option ByteCache :=
  match fuel with
  | O => None
  | S fuel =>
      if (cl_Entries (bc_limits c) <? Z.of_nat (size (bc_entries c)))
         || (cl_Bytes (bc_limits c) <? bc_bytes c)
      then match last (bc_lru c) with
        | None => Some c
        | Some (oldest, cached) =>
            evict_loop fuel
              (set_store (delete (ce_key cached) (bc_entries c)) (lru_remove oldest (bc_lru c))
                 (wrap64 (bc_bytes c - ce_weight cached)) c)
        end
      else Some c
  end.

Definition place (entry : cacheEntry) (c : ByteCache) : ByteCache :=
  match bc_entries c !! ce_key entry with
  | Some existing =>
      let prior := default 0 (ce_weight <$> lru_value existing (bc_lru c)) in
      set_store (bc_entries c) ((existing, entry) :: lru_remove existing (bc_lru c))
        (wrap64 (wrap64 (bc_bytes c - prior) + ce_weight entry)) c
  | None =>
      let element := bc_next c in
      set_store (<[ce_key entry := element]> (bc_entries c)) ((element, entry) :: bc_lru c)
        (wrap64 (bc_bytes c + ce_weight entry))
        (set_heap (bc_capacityChanged c) (bc_heap c) (S element) c)
  end.

Definition admit_entry (entry : cacheEntry) (c : ByteCache) : ByteCache :=
  let c := place entry c in
  default c (evict_loop (S (length (bc_lru c))) c).

Definition signalCapacityChanged (c : ByteCache) : ByteCache :=
  set_heap (S (bc_capacityChanged c)) (bc_heap c) (bc_next c) c.

Definition owns_flight (c : ByteCache) (key : CacheKey) (flight : nat) : bool :=
  bool_decide (bc_flights c !! key = Some flight).

Definition complete (c : ByteCache) (key : CacheKey) (flight : nat) (value : any) (weight : Z)
    (err : option error) : ByteCache :=
  let value := if err then None else value in
  let weight := if err then 0 else weight in
  let ownsFlight := owns_flight c key flight in
  let reservation := default 0 (cf_reservation <$> bc_heap c !! flight) in
  let c := if ownsFlight then set_flights (delete key (bc_flights c)) c else c in
  let c := set_usage (wrap64 (bc_flightEntries c - 1)) (wrap64 (bc_flightBytes c - reservation))
             (bc_peakFlightEntries c) (bc_peakFlightBytes c) c in
  let c := signalCapacityChanged c in
  let c :=
    if negb (bool_decide (is_Some err)) && ownsFlight then
      if (cl_Bytes (bc_limits c) <? weight) || (cl_Entries (bc_limits c) =? 0) || (cl_Bytes (bc_limits c) =? 0)
      then set_counters (bc_hits c) (bc_misses c) (wrap64 (bc_bypass c + 1)) (bc_waiters c) c
      else admit_entry (MkCacheEntry key value weight) c
    else c in
  set_heap (bc_capacityChanged c)
    (alter (λ fl, MkCacheFlight true true (cf_waiters fl) (cf_reservation fl) value err) flight (bc_heap c))
    (bc_next c) c.

Definition cancel_flight (fl : cacheFlight) : cacheFlight :=
  MkCacheFlight (cf_done fl) true (cf_waiters fl) (cf_reservation fl) (cf_value fl) (cf_err fl).

(** [delete(cache.flights, key); flight.cancel()] *)
Definition cancel_at (key : CacheKey) (flight : nat) (c : ByteCache) : ByteCache :=
  set_heap (bc_capacityChanged c) (alter cancel_flight flight (bc_heap c)) (bc_next c)
    (set_flights (delete key (bc_flights c)) c).

(** The guarded decrements of [cache.waiters] and [flight.waiters]. *)
Definition drop_waiter (flight : nat) (c : ByteCache) : ByteCache :=
  let decrement n := if 0 <? n then wrap64 (n - 1) else n in
  set_counters (bc_hits c) (bc_misses c) (bc_bypass c) (decrement (bc_waiters c))
    (set_heap (bc_capacityChanged c)
      (alter (λ fl, set_waiters (decrement (cf_waiters fl)) fl) flight (bc_heap c)) (bc_next c) c).

Definition releaseWaiter (c : ByteCache) (key : CacheKey) (flight : nat) : ByteCache :=
  let c := drop_waiter flight c in
  if bool_decide (cf_waiters <$> bc_heap c !! flight = Some 0) && owns_flight c key flight
  then cancel_at key flight c else c.

(** ** EvictSnapshot and Stats *)

(** One iteration of each [range] loop of EvictSnapshot. *)
Definition evict_entry (snapshot : string) (c : ByteCache) (kv : CacheKey * nat) : ByteCache :=
  if bool_decide (ck_SnapshotID kv.1 = snapshot) then
    set_store (delete kv.1 (bc_entries c)) (lru_remove kv.2 (bc_lru c))
      (wrap64 (bc_bytes c - default 0 (ce_weight <$> lru_value kv.2 (bc_lru c)))) c
  else c.
Definition evict_flight (snapshot : string) (c : ByteCache) (kv : CacheKey * nat) : ByteCache :=
  if bool_decide (ck_SnapshotID kv.1 = snapshot) then
    cancel_at kv.1 kv.2 c
  else c.
Definition EvictSnapshot (c : ByteCache) (snapshot : string) : ByteCache :=
  let c := foldl (evict_entry snapshot) c (map_to_list (bc_entries c)) in
  foldl (evict_flight snapshot) c (map_to_list (bc_flights c)).

Definition Stats (c : ByteCache) : CacheStats :=
  MkCacheStats (Z.of_nat (size (bc_entries c))) (bc_bytes c) (bc_hits c) (bc_misses c) (bc_bypass c)
    (bc_waiters c) (bc_flightEntries c) (bc_flightBytes c) (bc_peakFlightEntries c) (bc_peakFlightBytes c).

End byte_cache.
Arguments any : clear implicits.
Arguments ChildDecoder : clear implicits.
Arguments cacheEntry : clear implicits.
Arguments cacheFlight : clear implicits.
Arguments ByteCache : clear implicits.
Arguments attempt : clear implicits.

(** ** The store: map and LRU list agree, and stay within the limits *)

Section store.
Context {V : Type}.
Implicit Types (c : ByteCache V) (l : list (nat * cacheEntry V)).

Definition lru_index l : list (CacheKey * nat) := (λ p, (ce_key p.2, p.1)) <$> l.
Definition lru_weight l : Z := sumZ (λ p, ce_weight p.2) l.

(** The map and the list hold the same elements and [bytes] is their weight. *)
Record linked c : Prop := {
  ln_index : map_to_list (bc_entries c) ≡ₚ lru_index (bc_lru c);
  ln_ids : NoDup (bc_lru c).*1;
  ln_fresh : ∀ p, p ∈ bc_lru c → (p.1 < bc_next c)%nat;
  ln_weights : ∀ p, p ∈ bc_lru c → 0 ≤ ce_weight p.2;
  ln_bytes : bc_bytes c = lru_weight (bc_lru c)
}.

Definition within_limits c : Prop :=
  Z.of_nat (size (bc_entries c)) ≤ cl_Entries (bc_limits c) ∧ bc_bytes c ≤ cl_Bytes (bc_limits c).

(** What a store operation does not touch. *)
Definition same_flights c c' : Prop :=
  bc_limits c' = bc_limits c ∧ bc_flights c' = bc_flights c ∧ bc_heap c' = bc_heap c
  ∧ bc_waiters c' = bc_waiters c ∧ bc_flightEntries c' = bc_flightEntries c
  ∧ bc_flightBytes c' = bc_flightBytes c ∧ bc_peakFlightEntries c' = bc_peakFlightEntries c
  ∧ bc_peakFlightBytes c' = bc_peakFlightBytes c
  ∧ bc_capacityChanged c' = bc_capacityChanged c ∧ (bc_next c ≤ bc_next c')%nat.

#[export] Instance same_flights_preorder : PreOrder (@same_flights).
Proof.
  split.
  - intros c. by unfold same_flights.
  - intros a b c. unfold same_flights. intuition (congruence || lia).
Qed.

Lemma lru_value_Some el e l : lru_value el l = Some e → (el, e) ∈ l.
Proof.
  unfold lru_value. intros ([el' e'] & Hf & ->)%fmap_Some.
  apply find_some in Hf as [Hin Heq]. simpl in *. case_bool_decide; [|done]. subst.
  by apply list_elem_of_In.
Qed.

Lemma lru_value_elem el e l : NoDup l.*1 → (el, e) ∈ l → lru_value el l = Some e.
Proof.
  intros Hnd Hin. destruct (lru_value el l) as [e'|] eqn:E.
  - apply lru_value_Some in E. f_equal.
    assert ((el, e') = (el, e)) by (apply (NoDup_fmap_inj fst l); done). congruence.
  - unfold lru_value in E. apply fmap_None in E.
    eapply find_none in E; [|by apply list_elem_of_In]. simpl in E. by case_bool_decide.
Qed.

Lemma lru_remove_elem el l p : p ∈ lru_remove el l ↔ p ∈ l ∧ p.1 ≠ el.
Proof. unfold lru_remove. rewrite list_elem_of_filter. tauto. Qed.

Lemma lru_remove_ids el l : NoDup l.*1 → NoDup (lru_remove el l).*1.
Proof. intros H. eapply sublist_NoDup; [done|]. apply fmap_sublist, sublist_filter. Qed.

Lemma lru_remove_fresh el l : el ∉ l.*1 → lru_remove el l = l.
Proof.
  unfold lru_remove. induction l as [|p l IH]; [done|]. simpl. intros [Hp Hl]%not_elem_of_cons.
  rewrite filter_cons, decide_True by congruence. by rewrite IH.
Qed.

Lemma lru_remove_perm el e l : NoDup l.*1 → (el, e) ∈ l → l ≡ₚ (el, e) :: lru_remove el l.
Proof.
  induction l as [|[el' e'] l IH]; intros Hnd Hin; [by apply elem_of_nil in Hin|].
  apply NoDup_cons in Hnd as [Hni Hnd]. unfold lru_remove. rewrite filter_cons.
  apply elem_of_cons in Hin as [[= <- <-]|Hin]; simpl.
  - rewrite decide_False by auto. f_equiv.
    fold (lru_remove el l). by rewrite lru_remove_fresh.
  - rewrite decide_True.
    + fold (lru_remove el l). rewrite (IH Hnd Hin) at 1. apply Permutation_swap.
    + intros ->. apply Hni. by apply (list_elem_of_fmap_2 fst _ (el, e)).
Qed.

Lemma linked_entry c k el : linked c →
  (bc_entries c !! k = Some el ↔ ∃ e, (el, e) ∈ bc_lru c ∧ ce_key e = k).
Proof.
  intros Hl. rewrite <-elem_of_map_to_list, (ln_index _ Hl). unfold lru_index.
  rewrite list_elem_of_fmap. split.
  - intros ([el' e] & [= -> ->] & Hin). eauto.
  - intros (e & Hin & <-). by exists (el, e).
Qed.

Lemma linked_size c : linked c → Z.of_nat (size (bc_entries c)) = Z.of_nat (length (bc_lru c)).
Proof.
  intros Hl. rewrite <-length_map_to_list, (ln_index _ Hl). unfold lru_index. by rewrite length_fmap.
Qed.

Lemma linked_bytes_nonneg c : linked c → 0 ≤ bc_bytes c.
Proof. intros Hl. rewrite (ln_bytes _ Hl). apply sumZ_nonneg. apply (ln_weights _ Hl). Qed.

Lemma linked_weight c el e : linked c → (el, e) ∈ bc_lru c → 0 ≤ ce_weight e ≤ bc_bytes c.
Proof.
  intros Hl Hin. split; [apply (ln_weights _ Hl _ Hin)|]. rewrite (ln_bytes _ Hl).
  by apply (sumZ_elem (λ p : nat * cacheEntry V, ce_weight p.2) _ (el, e)); [apply (ln_weights _ Hl)|].
Qed.

(** Dropping one element from both, as the eviction loops do. *)
Lemma linked_drop c el e : linked c → (el, e) ∈ bc_lru c →
  linked (set_store (delete (ce_key e) (bc_entries c)) (lru_remove el (bc_lru c)) (bc_bytes c - ce_weight e) c).
Proof.
  intros Hl Hin. pose proof (lru_remove_perm el e _ (ln_ids _ Hl) Hin) as Hp. constructor; simpl.
  - assert (He : bc_entries c !! ce_key e = Some el) by (apply linked_entry; eauto).
    pose proof (ln_index _ Hl) as Hi. rewrite <-(map_to_list_delete _ _ _ He) in Hi.
    unfold lru_index in *. rewrite Hp in Hi. simpl in Hi. by apply Permutation_cons_inv in Hi.
  - apply lru_remove_ids, Hl.
  - intros p [Hp' _]%lru_remove_elem. by apply (ln_fresh _ Hl).
  - intros p [Hp' _]%lru_remove_elem. by apply (ln_weights _ Hl).
  - rewrite (ln_bytes _ Hl). unfold lru_weight. rewrite Hp at 1. simpl. lia.
Qed.

Lemma linked_place c entry : linked c → 0 ≤ ce_weight entry → bc_bytes c + ce_weight entry ≤ max_uint64 →
  linked (place entry c) ∧ same_flights c (place entry c)
  ∧ bc_entries (place entry c) !! ce_key entry = fst <$> head (bc_lru (place entry c))
  ∧ snd <$> head (bc_lru (place entry c)) = Some entry
  ∧ (∀ p, p ∈ bc_lru (place entry c) → p ∈ bc_lru c ∨ p.2 = entry)
  ∧ bc_bytes (place entry c) ≤ bc_bytes c + ce_weight entry.
Proof.
  intros Hl Hw Hb. pose proof (linked_bytes_nonneg _ Hl) as Hb0. unfold place, max_uint64 in *.
  destruct (bc_entries c !! ce_key entry) as [el|] eqn:E.
  - apply linked_entry in E as (e & Hin & He); [|done].
    rewrite (lru_value_elem el e) by (done || apply Hl). simpl.
    pose proof (linked_weight _ _ _ Hl Hin) as We. unfold wrap64.
    rewrite (Z.mod_small (bc_bytes c - _)), Z.mod_small by lia.
    pose proof (linked_drop _ _ _ Hl Hin) as Hd.
    assert (Hk : bc_entries c !! ce_key e = Some el) by (apply linked_entry; eauto).
    split_and!; [|by unfold same_flights|simpl; by rewrite <-He, Hk|done| |simpl; lia].
    + constructor; simpl.
      * pose proof (ln_index _ Hd) as Hi. simpl in Hi.
        rewrite <-(map_to_list_delete _ _ _ Hk), Hi. unfold lru_index. simpl. by rewrite He.
      * apply NoDup_cons. split; [|apply lru_remove_ids, Hl].
        intros (p & Hp & Hp2)%list_elem_of_fmap. apply lru_remove_elem in Hp2. by destruct Hp2.
      * intros p [->|Hp]%elem_of_cons; [apply (ln_fresh _ Hl _ Hin)|].
        apply (ln_fresh _ Hd). done.
      * intros p [->|Hp]%elem_of_cons; [done|]. apply (ln_weights _ Hd). done.
      * pose proof (ln_bytes _ Hd) as Hy. simpl in Hy. unfold lru_weight in *. simpl. lia.
    + simpl. intros p [->|Hp]%elem_of_cons; [by right|]. apply lru_remove_elem in Hp. left. apply Hp.
  - simpl. unfold wrap64. rewrite Z.mod_small by lia.
    split_and!; [| |simpl; by rewrite lookup_insert_eq|done| |simpl; lia].
    + constructor; simpl.
      * rewrite map_to_list_insert by done. unfold lru_index. simpl. rewrite (ln_index _ Hl). done.
      * apply NoDup_cons. split; [|apply Hl]. intros (p & Hp & Hp2)%list_elem_of_fmap.
        apply (ln_fresh _ Hl) in Hp2. lia.
      * intros p [->|Hp]%elem_of_cons; simpl; [lia|]. apply (ln_fresh _ Hl) in Hp. lia.
      * intros p [->|Hp]%elem_of_cons; [done|]. by apply (ln_weights _ Hl).
      * pose proof (ln_bytes _ Hl) as Hy. unfold lru_weight in *. simpl. lia.
    + unfold same_flights. simpl. auto 20 with lia.
    + simpl. intros p [->|Hp]%elem_of_cons; auto.
Qed.

(** ** Eviction

    The declarative reading of [admit]'s loop: the elements kept are the longest
    prefix of the list, most recently used first, that fits the limits. *)
Definition fits (limits : CacheLimits) l : Prop :=
  Z.of_nat (length l) ≤ cl_Entries limits ∧ lru_weight l ≤ cl_Bytes limits.

Definition longest_fitting (limits : CacheLimits) l l' : Prop :=
  l' `prefix_of` l ∧ fits limits l'
  ∧ ∀ k, k `prefix_of` l → fits limits k → k `prefix_of` l'.

Lemma fits_within c : linked c → (fits (bc_limits c) (bc_lru c) ↔ within_limits c).
Proof. intros Hl. unfold fits, within_limits. by rewrite (linked_size _ Hl), (ln_bytes _ Hl). Qed.

Lemma lru_remove_last el e l : NoDup (l ++ [(el, e)]).*1 → lru_remove el (l ++ [(el, e)]) = l.
Proof.
  rewrite fmap_app. intros (_ & Hd & _)%NoDup_app. unfold lru_remove. rewrite filter_app.
  rewrite (filter_cons _ (el, e) []), decide_False by (simpl; tauto). rewrite filter_nil, app_nil_r.
  apply lru_remove_fresh. intros Hin. apply (Hd el Hin). simpl. by left.
Qed.

Lemma prefix_snoc_inv {A} (k l : list A) x : k `prefix_of` l ++ [x] → k = l ++ [x] ∨ k `prefix_of` l.
Proof.
  intros [t Ht]. destruct t as [|y t _] using rev_ind.
  - left. by rewrite app_nil_r in Ht.
  - right. rewrite app_assoc in Ht. apply app_inj_tail in Ht as [-> _]. by exists t.
Qed.

Lemma evict_loop_ends c n :
  linked c → 0 ≤ cl_Entries (bc_limits c) → 0 ≤ cl_Bytes (bc_limits c) →
  bc_bytes c ≤ max_uint64 → (length (bc_lru c) < n)%nat →
  ∃ c', evict_loop n c = Some c' ∧ linked c' ∧ same_flights c c' ∧ bc_next c' = bc_next c
    ∧ longest_fitting (bc_limits c) (bc_lru c) (bc_lru c').
Proof.
  revert c. induction n as [|n IH]; intros c Hl He Hb Hm Hn; [lia|]. simpl.
  destruct ((cl_Entries (bc_limits c) <? _) || (cl_Bytes (bc_limits c) <? _)) eqn:Eg.
  - destruct (bc_lru c) as [|[el e] l _] eqn:El using rev_ind; simpl.
    { pose proof (linked_size _ Hl) as Hs. pose proof (ln_bytes _ Hl) as Hy.
      rewrite El in *. unfold lru_weight in Hy. simpl in *. lia. }
    rewrite last_snoc. assert (Hin : (el, e) ∈ bc_lru c) by (rewrite El; set_solver).
    pose proof (linked_weight _ _ _ Hl Hin). pose proof (linked_drop _ _ _ Hl Hin) as Hd.
    rewrite El in Hd. pose proof (ln_ids _ Hl) as Hids. rewrite El in Hids.
    rewrite (lru_remove_last el e l Hids) in *.
    unfold wrap64. unfold max_uint64 in Hm. rewrite Z.mod_small by lia.
    destruct (IH _ Hd) as (c' & -> & Hl' & Hsame & Hnext & Hpre & Hfit & Hlong); simpl in *; [done|done|unfold max_uint64; lia| |].
    { rewrite length_app in Hn. simpl in Hn. lia. }
    exists c'. split; [done|]. split; [done|]. split; [by etrans; [|done]|]. split; [done|].
    split; [by apply prefix_app_r|]. split; [done|]. intros k [->|Hk]%prefix_snoc_inv Hf; [|by apply Hlong].
    exfalso. rewrite <-El in Hf. apply fits_within in Hf as [??]; [|done]. lia.
  - exists c. do 4 (split; [done|]). split; [done|]. split; [|by intros].
    apply fits_within; [done|]. unfold within_limits. lia.
Qed.

Lemma admit_entry_spec c entry :
  linked c → within_limits c → 0 ≤ ce_weight entry ≤ cl_Bytes (bc_limits c) →
  1 ≤ cl_Entries (bc_limits c) → 2 * cl_Bytes (bc_limits c) ≤ max_uint64 →
  linked (admit_entry entry c) ∧ within_limits (admit_entry entry c) ∧ same_flights c (admit_entry entry c)
  ∧ longest_fitting (bc_limits c) (bc_lru (place entry c)) (bc_lru (admit_entry entry c))
  ∧ ∃ el, bc_entries (admit_entry entry c) !! ce_key entry = Some el ∧ head (bc_lru (admit_entry entry c)) = Some (el, entry).
Proof.
  intros Hl [Hwe Hwb] Hw He Hm. unfold admit_entry.
  destruct (linked_place c entry Hl) as (Hp & Hsame & Hkey & Hhead & _ & Hb); [lia|lia|].
  pose proof Hsame as (Elim & _).
  destruct (evict_loop_ends (place entry c) (S (length (bc_lru (place entry c)))) Hp)
    as (c' & -> & Hl' & Hs' & _ & Hlong); [rewrite ?Elim; lia..|lia|]. simpl.
  pose proof Hs' as (Elim' & _). rewrite Elim in *. pose proof Hlong as (Hpre & Hfit & Hmax).
  split_and!; [done| |by etrans|done|].
  { apply fits_within; [done|]. by rewrite Elim'. }
  destruct (bc_lru (place entry c)) as [|[el e'] l]; simpl in Hhead; [done|]. injection Hhead as ->.
  assert (H1 : [(el, entry)] `prefix_of` bc_lru c').
  { apply Hmax; [by exists l|]. split; [simpl; lia|unfold lru_weight; simpl; lia]. }
  destruct H1 as [k Hk]. exists el. rewrite Hk. split; [|done].
  apply linked_entry; [done|]. exists entry. rewrite Hk. split; [by left|done].
Qed.

Lemma evict_loop_fuel n m c c' : evict_loop n c = Some c' → (n ≤ m)%nat → evict_loop m c = Some c'.
Proof.
  revert m c. induction n as [|n IH]; intros m c; simpl; [done|]. destruct m as [|m]; [lia|]. simpl.
  destruct (_ || _); [|done]. destruct (last (bc_lru c)) as [[]|]; [|done]. intros H Hm. apply IH; [done|lia].
Qed.

(** What the end of a flight does to the flights, whatever happens in the store. *)
Lemma evict_loop_same_flights n c c' : evict_loop n c = Some c' → same_flights c c'.
Proof.
  revert c. induction n as [|n IH]; intros c; simpl; [done|].
  destruct (_ || _); [|by intros [= ->]]. destruct (last (bc_lru c)) as [[]|]; [|by intros [= ->]].
  intros H%IH. done.
Qed.

Lemma admit_entry_same_flights entry c : same_flights c (admit_entry entry c).
Proof.
  assert (Hp : same_flights c (place entry c)).
  { unfold place. destruct (_ !! _); [done|]. unfold same_flights. simpl. auto 20 with lia. }
  unfold admit_entry. destruct (evict_loop _ _) as [c'|] eqn:E; simpl; [|done].
  etrans; [done|]. by eapply evict_loop_same_flights.
Qed.

Definition finish_flight (value : any V) (err : option error) (fl : cacheFlight V) : cacheFlight V :=
  MkCacheFlight true true (cf_waiters fl) (cf_reservation fl) (if err then None else value) err.

Lemma complete_view c key f v w err fl : bc_heap c !! f = Some fl →
  let c' := complete c key f v w err in
  bc_limits c' = bc_limits c
  ∧ bc_flights c' = (if owns_flight c key f then delete key (bc_flights c) else bc_flights c)
  ∧ bc_heap c' = alter (finish_flight v err) f (bc_heap c)
  ∧ bc_waiters c' = bc_waiters c
  ∧ bc_flightEntries c' = wrap64 (bc_flightEntries c - 1)
  ∧ bc_flightBytes c' = wrap64 (bc_flightBytes c - cf_reservation fl)
  ∧ bc_peakFlightEntries c' = bc_peakFlightEntries c
  ∧ bc_peakFlightBytes c' = bc_peakFlightBytes c
  ∧ bc_capacityChanged c' = S (bc_capacityChanged c)
  ∧ (bc_next c ≤ bc_next c')%nat.
Proof.
  intros Hf. unfold complete. rewrite Hf. simpl.
  set (c1 := signalCapacityChanged _).
  assert (H : ∀ c2, same_flights c1 c2 → let c' := set_heap (bc_capacityChanged c2)
     (alter (finish_flight v err) f (bc_heap c2)) (bc_next c2) c2 in
    bc_limits c' = bc_limits c1 ∧ bc_flights c' = bc_flights c1
    ∧ bc_heap c' = alter (finish_flight v err) f (bc_heap c1)
    ∧ bc_waiters c' = bc_waiters c1 ∧ bc_flightEntries c' = bc_flightEntries c1
    ∧ bc_flightBytes c' = bc_flightBytes c1 ∧ bc_peakFlightEntries c' = bc_peakFlightEntries c1
    ∧ bc_peakFlightBytes c' = bc_peakFlightBytes c1
    ∧ bc_capacityChanged c' = bc_capacityChanged c1 ∧ (bc_next c1 ≤ bc_next c')%nat).
  { intros c2 (?&?&->&?&?&?&?&?&?&?). simpl. auto 20. }
  assert (Hc1 : bc_limits c1 = bc_limits c
    ∧ bc_flights c1 = (if owns_flight c key f then delete key (bc_flights c) else bc_flights c)
    ∧ bc_heap c1 = bc_heap c ∧ bc_waiters c1 = bc_waiters c
    ∧ bc_peakFlightEntries c1 = bc_peakFlightEntries c ∧ bc_peakFlightBytes c1 = bc_peakFlightBytes c
    ∧ bc_flightEntries c1 = wrap64 (bc_flightEntries c - 1)
    ∧ bc_flightBytes c1 = wrap64 (bc_flightBytes c - cf_reservation fl)
    ∧ bc_capacityChanged c1 = S (bc_capacityChanged c) ∧ bc_next c1 = bc_next c).
  { unfold c1, signalCapacityChanged. destruct (owns_flight c key f); simpl; by split_and!. }
  destruct Hc1 as (E1&E2&E3&E4&E5&E6&E7&E8&E9&E10).
  rewrite <-E1, <-E2, <-E3, <-E4, <-E5, <-E6, <-E7, <-E8, <-E9, <-E10.
  destruct (negb _ && _); [|exact (H c1 (reflexivity _))].
  destruct (_ || _); [by refine (H (set_counters _ _ _ _ c1) _)|].
  exact (H _ (admit_entry_same_flights _ c1)).
Qed.

(** MoveToFront keeps the elements. *)
Lemma lru_move_to_front_perm el l : NoDup l.*1 → lru_move_to_front el l ≡ₚ l.
Proof.
  intros Hnd. unfold lru_move_to_front. destruct (lru_value el l) as [e|] eqn:E; [|done].
  symmetry. apply lru_remove_perm; [done|]. by apply lru_value_Some.
Qed.

Lemma linked_reorder c l : linked c → l ≡ₚ bc_lru c →
  linked (set_store (bc_entries c) l (bc_bytes c) c).
Proof.
  intros Hl Hp. constructor; simpl.
  - rewrite (ln_index _ Hl). unfold lru_index. by rewrite Hp.
  - rewrite Hp. apply Hl.
  - intros p. rewrite Hp. apply Hl.
  - intros p. rewrite Hp. apply Hl.
  - rewrite (ln_bytes _ Hl). unfold lru_weight. by rewrite Hp.
Qed.

(** ** EvictSnapshot *)

Lemma evict_entry_linked snapshot c k el : linked c → bc_bytes c ≤ max_uint64 → bc_entries c !! k = Some el →
  linked (evict_entry snapshot c (k, el)) ∧ same_flights c (evict_entry snapshot c (k, el))
  ∧ bc_bytes (evict_entry snapshot c (k, el)) ≤ bc_bytes c
  ∧ bc_entries (evict_entry snapshot c (k, el))
    = (if bool_decide (ck_SnapshotID k = snapshot) then delete k (bc_entries c) else bc_entries c)
  ∧ (∀ p, p ∈ bc_lru (evict_entry snapshot c (k, el)) → p ∈ bc_lru c).
Proof.
  intros Hl Hm Hk. unfold evict_entry, max_uint64 in *. simpl. case_bool_decide; [|by split_and!].
  apply linked_entry in Hk as (e & Hin & <-); [|done].
  rewrite (lru_value_elem el e) by (done || apply Hl). simpl.
  pose proof (linked_weight _ _ _ Hl Hin). unfold wrap64. rewrite Z.mod_small by lia.
  split_and!; [by apply linked_drop|done|simpl; lia|done|].
  simpl. intros p Hp%lru_remove_elem. apply Hp.
Qed.

Lemma evict_entries_linked snapshot (l : list (CacheKey * nat)) c :
  linked c → bc_bytes c ≤ max_uint64 → NoDup l.*1 → (∀ kv, kv ∈ l → bc_entries c !! kv.1 = Some kv.2) →
  let c' := foldl (evict_entry snapshot) c l in
  linked c' ∧ same_flights c c' ∧ bc_bytes c' ≤ bc_bytes c
  ∧ (∀ k el, bc_entries c' !! k = Some el ↔ bc_entries c !! k = Some el ∧ ¬ (k ∈ l.*1 ∧ ck_SnapshotID k = snapshot))
  ∧ (∀ p, p ∈ bc_lru c' → p ∈ bc_lru c).
Proof.
  revert c. induction l as [|[k el] l IH]; intros c Hl Hm Hnd Hin; simpl.
  { split_and!; try done. intros. rewrite elem_of_nil. tauto. }
  apply NoDup_cons in Hnd as [Hni Hnd].
  destruct (evict_entry_linked snapshot c k el Hl Hm) as (Hl1 & Hs1 & Hb1 & He1 & Hr1).
  { apply (Hin (k, el)). by left. }
  destruct (IH (evict_entry snapshot c (k, el)) Hl1 ltac:(lia) Hnd) as (Hl2 & Hs2 & Hb2 & He2 & Hr2).
  { intros [k' el'] Hkv. rewrite He1. assert (k' ≠ k).
    { intros ->. apply Hni. by apply (list_elem_of_fmap_2 fst _ (k, el')). }
    simpl. case_bool_decide; [rewrite lookup_delete_ne by done|]; apply (Hin (k', el')); by right. }
  split_and!; [done|by etrans|lia| |eauto].
  intros k' el'. rewrite He2, He1. simpl. rewrite elem_of_cons. case_bool_decide.
  - rewrite lookup_delete_Some. split; [intros [[Hne Hk] Hn]; split; [done|]; intros [[->|?] ?]; auto|].
    intros [Hk Hn]. split; [split; [intros <-; auto|done]|]. intros [? ?]. auto.
  - split; intros [Hk Hn]; (split; [done|]); intros [? ?]; [|by auto].
    destruct H0 as [->|?]; auto.
Qed.

Lemma evict_entries_size c c' : linked c → linked c' →
  (∀ k el, bc_entries c' !! k = Some el → bc_entries c !! k = Some el) →
  (size (bc_entries c') ≤ size (bc_entries c))%nat.
Proof. intros _ _ H. by apply map_subseteq_size, map_subseteq_spec. Qed.

End store.
