(* ===== verification/CacheRuns.v ===== *)
(** * Concurrent use of the byte cache

    The goroutines around [ByteCache]: each call of [Load] is a thread whose
    position is one of the points between two critical sections of
    application/catalog/cache.go, and each started flight is a goroutine that
    ends with [complete].  [perform] takes one action of the system; contexts
    may be cancelled and snapshots evicted at any time.  The theorems say that
    the limits hold in every reachable state, that a value is only served when
    it was decoded from bytes with the key's digest, that abandoned flights are
    cancelled and that every call of [Load] returns. *)

From S2P Require Import Prelude.
From S2P Require Import GoString.
From S2P Require Import GoSha256.
From S2P Require Import ByteCache.

Section system.
Context {V : Type}.

(** ** The system *)

(** The arguments of a call of Load; [rq_loader] says that the loader is not
    nil, what it returns is part of the action that ends the flight. *)
Record request := MkRequest {
  rq_key : CacheKey;
  rq_expectedLength : Z;
  rq_maximumDecodedWeight : Z;
  rq_loader : bool;
  rq_decoder : option (ChildDecoder V)
}.

Definition rq_reservation (rq : request) : Z := wrap64 (rq_expectedLength rq + rq_maximumDecodedWeight rq).

(** Where a call of Load stands. *)
Inductive position :=
  | Checking (missRecorded : bool)
  | Locking (missRecorded : bool)
  | AwaitingCapacity (changed : nat)
  | AwaitingFlight (flight : nat)
  | Finished (result : res (any V)).

Record load := MkLoad { ld_request : request; ld_context : option error; ld_at : position }.

Record system := MkSystem {
  sy_cache : ByteCache V;
  sy_loads : gmap nat load;
  sy_running : gmap nat request
}.

Inductive action :=
  | Arrive (i : nat) (rq : request) (ctx : option error)
  | Cancel (i : nat) (e : error)
  | Evict (snapshot : string)
  | Proceed (i : nat) (by_context : bool)
  | Finish (flight : nat) (loaded : called (res (list Z))).

(** One step of a call of Load: the cache, the new position and whether a
    flight was started.  [by_context] chooses the branch of a select. *)
Definition proceed (by_context : bool) (c : ByteCache V) (l : load)
    : option (ByteCache V * position * bool) :=
  let rq := ld_request l in
  match ld_at l, by_context with
  | Checking missRecorded, false =>
      match ld_context l with
      | Some e => Some (c, Finished (Fail e), false)
      | None => Some (c, Locking missRecorded, false)
      end
  | Locking missRecorded, false =>
      match load_attempt c (rq_key rq) (rq_reservation rq) missRecorded with
      | (c, Hit value) => Some (c, Finished (Ok value), false)
      | (c, Refused e) => Some (c, Finished (Fail e), false)
      | (c, AwaitCapacity changed) => Some (c, AwaitingCapacity changed, false)
      | (c, AwaitFlight flight started) => Some (c, AwaitingFlight flight, started)
      end
  | AwaitingCapacity changed, true =>
      match ld_context l with
      | Some e => Some (c, Finished (Fail e), false)
      | None => None
      end
  | AwaitingCapacity changed, false =>
      if bool_decide (changed = bc_capacityChanged c) then None else Some (c, Checking true, false)
  | AwaitingFlight flight, true =>
      match ld_context l with
      | Some e => Some (releaseWaiter c (rq_key rq) flight, Finished (Fail e), false)
      | None => None
      end
  | AwaitingFlight flight, false =>
      match bc_heap c !! flight with
      | Some fl =>
          if cf_done fl then
            Some (releaseWaiter c (rq_key rq) flight,
                  Finished (match cf_err fl with Some e => Fail e | None => Ok (cf_value fl) end), false)
          else None
      | None => None
      end
  | _, _ => None
  end.

Definition set_load (i : nat) (l : load) (at_ : position) (loads : gmap nat load) : gmap nat load :=
  <[i := MkLoad (ld_request l) (ld_context l) at_]> loads.

Definition perform (a : action) (s : system) : option system :=
  match a with
  | Arrive i rq ctx =>
      match sy_loads s !! i with
      | Some _ => None
      | None =>
          let at_ := match load_contract ctx (rq_key rq) (rq_expectedLength rq)
                             (rq_maximumDecodedWeight rq) (rq_loader rq) (rq_decoder rq) with
                     | Fail e => Finished (Fail e)
                     | Ok _ => Checking false
                     end in
          Some (MkSystem (sy_cache s) (<[i := MkLoad rq ctx at_]> (sy_loads s)) (sy_running s))
      end
  | Cancel i e =>
      l ← sy_loads s !! i;
      let ctx := match ld_context l with Some e => Some e | None => Some e end in
      Some (MkSystem (sy_cache s) (<[i := MkLoad (ld_request l) ctx (ld_at l)]> (sy_loads s)) (sy_running s))
  | Evict snapshot =>
      Some (MkSystem (EvictSnapshot (sy_cache s) snapshot) (sy_loads s) (sy_running s))
  | Proceed i by_context =>
      l ← sy_loads s !! i;
      '(c, at_, started) ← proceed by_context (sy_cache s) l;
      Some (MkSystem c (set_load i l at_ (sy_loads s))
              (if (started : bool) then <[bc_next (sy_cache s) := ld_request l]> (sy_running s) else sy_running s))
  | Finish flight loaded =>
      rq ← sy_running s !! flight;
      decoder ← rq_decoder rq;
      let '(value, weight, err) :=
        execute (rq_key rq) (rq_expectedLength rq) (rq_maximumDecodedWeight rq) loaded decoder in
      Some (MkSystem (complete (sy_cache s) (rq_key rq) flight value weight err) (sy_loads s)
              (delete flight (sy_running s)))
  end.

Fixpoint run (actions : list action) (s : system) : option system :=
  match actions with
  | [] => Some s
  | a :: actions => perform a s ≫= run actions
  end.

Definition start (limits : CacheLimits) : system := MkSystem (NewByteCache limits) ∅ ∅.

(** ** Typing of the inputs *)

Definition limits_typed (limits : CacheLimits) : Prop :=
  0 ≤ cl_Entries limits ∧ 0 ≤ cl_Bytes limits ∧ 2 * cl_Bytes limits ≤ max_uint64
  ∧ is_uint64 (cl_FlightEntries limits) ∧ is_uint64 (cl_FlightBytes limits).

Definition request_typed (rq : request) : Prop :=
  is_uint64 (rq_expectedLength rq) ∧ is_uint64 (rq_maximumDecodedWeight rq)
  ∧ ∀ d data v w, rq_decoder rq = Some d → d data = Returned (Ok (v, w)) → is_uint64 w.

Definition action_typed (a : action) (s : system) : Prop :=
  match a with
  | Arrive _ rq _ => request_typed rq ∧ Z.of_nat (size (sy_loads s)) < max_uint64
  | _ => True
  end.

Inductive reachable (limits : CacheLimits) : system → Prop :=
  | reachable_start : reachable limits (start limits)
  | reachable_step a s s' : reachable limits s → action_typed a s → perform a s = Some s' → reachable limits s'.

(** The loads that wait on a flight, and the contribution of each. *)
Definition awaited (l : load) : option nat :=
  match ld_at l with AwaitingFlight f => Some f | _ => None end.
Definition waits_on (f : nat) (l : load) : Z := if bool_decide (awaited l = Some f) then 1 else 0.
Definition waits (l : load) : Z := if awaited l then 1 else 0.

End system.
Arguments request : clear implicits.
Arguments position : clear implicits.
Arguments load : clear implicits.
Arguments system : clear implicits.
Arguments action : clear implicits.

(** ** Counting the loads that wait *)

Section waiting.
Context {V : Type}.
Implicit Types (c : ByteCache V) (loads : gmap nat (load V)) (running : gmap nat (request V)).

Definition issued loads (rq : request V) : Prop := ∃ i l, loads !! i = Some l ∧ ld_request l = rq.

Definition requests_kept loads loads' : Prop := ∀ rq, issued loads rq → issued loads' rq.

Lemma requests_kept_insert loads i l l' :
  loads !! i = Some l → ld_request l' = ld_request l → requests_kept loads (<[i:=l']> loads).
Proof.
  intros Hi Hr rq (j & lj & Hj & <-). destruct (decide (i = j)) as [->|Hne].
  - exists j, l'. rewrite lookup_insert_eq. split; congruence.
  - exists j, lj. by rewrite lookup_insert_ne.
Qed.

Lemma requests_kept_fresh loads i l' : loads !! i = None → requests_kept loads (<[i:=l']> loads).
Proof.
  intros Hi rq (j & lj & Hj & <-). exists j, lj. rewrite lookup_insert_ne by congruence. done.
Qed.

Lemma waits_on_range f (l : load V) : 0 ≤ waits_on f l ≤ 1.
Proof. unfold waits_on. case_bool_decide; lia. Qed.

Lemma waits_range (l : load V) : 0 ≤ waits l ≤ 1.
Proof. unfold waits. destruct (awaited l); lia. Qed.

Lemma waits_on_le f (l : load V) : waits_on f l ≤ waits l.
Proof. unfold waits_on, waits. case_bool_decide as E; [by rewrite E|]. destruct (awaited l); lia. Qed.

Lemma waiting_bound loads f :
  0 ≤ total (waits_on f) loads ≤ total waits loads ∧ total waits loads ≤ Z.of_nat (size loads).
Proof.
  split_and!.
  - apply total_nonneg. intros. apply waits_on_range.
  - apply total_le. intros. apply waits_on_le.
  - rewrite <-total_size. apply total_le. intros. apply waits_range.
Qed.

Lemma waits_on_insert loads i l l' f :
  loads !! i = Some l → total (waits_on f) (<[i:=l']> loads) = total (waits_on f) loads - waits_on f l + waits_on f l'.
Proof. apply total_insert. Qed.

Lemma waits_on_lookup loads i l f :
  loads !! i = Some l → waits_on f l ≤ total (waits_on f) loads.
Proof. intros. eapply total_lookup; [|done]. intros. apply waits_on_range. Qed.

(** ** The invariant of the flights *)

Record flight_ok c loads running (f : nat) (fl : cacheFlight V) : Prop := {
  fo_old : (f < bc_next c)%nat;
  fo_running : cf_done fl = false ↔ is_Some (running !! f);
  fo_waiters : cf_waiters fl = total (waits_on f) loads
}.

Record flights_ok c loads running : Prop := {
  fs_heap : ∀ f fl, bc_heap c !! f = Some fl → flight_ok c loads running f fl;
  fs_running : ∀ f rq, running !! f = Some rq → is_Some (bc_heap c !! f);
  fs_reserved : ∀ f rq fl, running !! f = Some rq → bc_heap c !! f = Some fl → cf_reservation fl = rq_reservation rq;
  fs_issued : ∀ f rq, running !! f = Some rq → is_Some (rq_decoder rq) ∧ issued loads rq;
  fs_flights : ∀ k f, bc_flights c !! k = Some f → ∃ rq, running !! f = Some rq ∧ rq_key rq = k;
  fs_owner : ∀ f rq fl, running !! f = Some rq → bc_heap c !! f = Some fl →
    (bc_flights c !! rq_key rq = Some f ↔ cf_cancelled fl = false);
  fs_waiters : bc_waiters c = total waits loads;
  fs_awaited : ∀ i l f, loads !! i = Some l → awaited l = Some f →
    is_Some (bc_heap c !! f) ∧ ∀ rq, running !! f = Some rq → rq_key rq = rq_key (ld_request l)
}.

(** A running flight that nobody waits for is cancelled; [but] exempts one. *)
Definition attended (but : option nat) c running : Prop :=
  ∀ f rq fl, but ≠ Some f → running !! f = Some rq → bc_heap c !! f = Some fl →
    cf_cancelled fl = false → 1 ≤ cf_waiters fl.

(** Steps that touch neither flights nor waiting loads. *)
Lemma flights_ok_idle c c' loads loads' running :
  flights_ok c loads running → same_flights c c' → requests_kept loads loads' →
  (∀ f, total (waits_on f) loads' = total (waits_on f) loads) → total waits loads' = total waits loads →
  (∀ i l f, loads' !! i = Some l → awaited l = Some f →
    ∃ l0, loads !! i = Some l0 ∧ awaited l0 = Some f ∧ ld_request l0 = ld_request l) →
  flights_ok c' loads' running.
Proof.
  intros [] (El & Ef & Eh & Ew & _ & _ & _ & _ & _ & En) Hk Hon Hw Ha.
  constructor; rewrite ?Ef, ?Eh, ?Ew; try done.
  - intros f fl Hf. destruct (fs_heap0 f fl Hf). constructor; [lia|done|]. by rewrite Hon.
  - intros f rq Hf. destruct (fs_issued0 f rq Hf). auto.
  - congruence.
  - intros i l f Hi Hl. destruct (Ha i l f Hi Hl) as (l0 & H0 & H1 & <-). eauto.
Qed.

(** [add_waiter] for a load that starts to wait. *)
Lemma flights_ok_join c loads running i l l' f rq :
  flights_ok c loads running → Z.of_nat (size loads) ≤ max_uint64 →
  loads !! i = Some l → awaited l = None → awaited l' = Some f → ld_request l' = ld_request l →
  running !! f = Some rq → rq_key rq = rq_key (ld_request l) →
  flights_ok (add_waiter f c) (<[i:=l']> loads) running
  ∧ ∀ but, attended but c running ∨ but = None ∧ attended (Some f) c running → attended but (add_waiter f c) running.
Proof.
  intros [] Hsz Hi Hl Hl' Hrq Hf Hkey.
  assert (Hon : ∀ g, total (waits_on g) (<[i:=l']> loads) = total (waits_on g) loads + if decide (g = f) then 1 else 0).
  { intros g. rewrite (waits_on_insert _ _ l) by done. unfold waits_on. rewrite Hl, Hl'.
    rewrite bool_decide_false by done. destruct (decide (g = f)) as [->|].
    - rewrite bool_decide_true by done. lia.
    - rewrite bool_decide_false by congruence. lia. }
  assert (Hw : total waits (<[i:=l']> loads) = total waits loads + 1).
  { rewrite (total_insert _ _ _ l) by done. unfold waits. rewrite Hl, Hl'. lia. }
  pose proof (waiting_bound (<[i:=l']> loads) f) as [Hb1 Hb2].
  rewrite map_size_insert_Some in Hb2 by eauto. rewrite Hw in Hb2.
  pose proof (waiting_bound loads f) as [Hb3 _].
  assert (Hwrap : ∀ z, 0 ≤ z → z ≤ total waits loads → wrap64 (z + 1) = z + 1).
  { intros z ??. unfold wrap64, max_uint64 in *. apply Z.mod_small. lia. }
  split.
  2: { intros but Ha g rq' fl Hg Hr. simpl. rewrite lookup_alter_Some.
    intros [(<- & fl0 & Hfl & ->)|(Hne & Hfl)]; simpl.
    - intros _. rewrite (fo_waiters _ _ _ _ _ (fs_heap0 _ _ Hfl)), Hwrap; lia.
    - destruct Ha as [Ha|[-> Ha]]; eapply Ha; eauto; congruence. }
  constructor; simpl; try done.
  - intros g fl. rewrite lookup_alter_Some. intros [(<- & fl0 & Hfl & ->)|(Hne & Hfl)];
      destruct (fs_heap0 _ _ Hfl) as [? ? Hwt]; constructor; simpl; try done.
    + rewrite Hon, decide_True, Hwt by done. apply Hwrap; lia.
    + rewrite Hon, decide_False, Hwt by congruence. lia.
  - intros g rq' Hg. apply lookup_alter_is_Some. eauto.
  - intros g rq' fl Hg. rewrite lookup_alter_Some. intros [(<- & fl0 & Hfl & ->)|(Hne & Hfl)]; simpl; eauto.
  - intros g rq' Hg. destruct (fs_issued0 g rq' Hg). split; [done|]. by eapply requests_kept_insert.
  - intros g rq' fl Hg. rewrite lookup_alter_Some. intros [(<- & fl0 & Hfl & ->)|(Hne & Hfl)]; simpl; eauto.
  - rewrite fs_waiters0, Hw, Hwrap; [done|lia|lia].
  - intros j lj g Hj Hg. rewrite lookup_alter_is_Some.
    apply lookup_insert_Some in Hj as [[<- <-]|[Hne Hj]]; [|eauto].
    assert (g = f) as -> by congruence. split; [eauto|]. intros rq' ?. congruence.
Qed.

(** Detaching and cancelling a flight, as [releaseWaiter] and [EvictSnapshot] do. *)
Lemma flights_ok_cancel c loads running k f :
  flights_ok c loads running → bc_flights c !! k = Some f →
  flights_ok (cancel_at k f c) loads running
  ∧ ∀ but, attended but c running ∨ but = None ∧ attended (Some f) c running → attended but (cancel_at k f c) running.
Proof.
  intros [] Hk. destruct (fs_flights0 k f Hk) as (rq0 & Hrq0 & <-). split.
  2: { intros but Ha g rq fl Hg Hr. simpl. rewrite lookup_alter_Some.
    intros [(<- & fl0 & Hfl & ->)|(Hne & Hfl)]; simpl; [done|].
    destruct Ha as [Ha|[-> Ha]]; eapply Ha; eauto; congruence. }
  constructor; simpl; try done.
  - intros g fl. rewrite lookup_alter_Some. intros [(<- & fl0 & Hfl & ->)|(Hne & Hfl)];
      destruct (fs_heap0 _ _ Hfl); by constructor.
  - intros g rq Hg. apply lookup_alter_is_Some. eauto.
  - intros g rq fl Hg. rewrite lookup_alter_Some. intros [(<- & fl0 & Hfl & ->)|(Hne & Hfl)]; simpl; eauto.
  - intros k' f'. rewrite lookup_delete_Some. intros [_ ?]. eauto.
  - intros g rq fl Hg. rewrite lookup_alter_Some, lookup_delete_Some.
    intros [(<- & fl0 & Hfl & ->)|(Hne & Hfl)]; simpl.
    + assert (rq = rq0) as -> by congruence. naive_solver.
    + rewrite <-(fs_owner0 _ _ _ Hg Hfl). split; [by intros []|]. intros H. split; [|done]. congruence.
  - intros i l g Hi Hg. rewrite lookup_alter_is_Some. eauto.
Qed.

(** [releaseWaiter] for a load that stops waiting. *)
Lemma flights_ok_leave c loads running i l l' f :
  flights_ok c loads running → Z.of_nat (size loads) ≤ max_uint64 →
  loads !! i = Some l → awaited l = Some f → awaited l' = None → ld_request l' = ld_request l →
  flights_ok (releaseWaiter c (rq_key (ld_request l)) f) (<[i:=l']> loads) running
  ∧ (attended None c running → attended None (releaseWaiter c (rq_key (ld_request l)) f) running).
Proof.
  intros Hok Hsz Hi Hl Hl' Hrq. pose proof Hok as [].
  assert (Hon : ∀ g, total (waits_on g) (<[i:=l']> loads) = total (waits_on g) loads - if decide (g = f) then 1 else 0).
  { intros g. rewrite (waits_on_insert _ _ l) by done. unfold waits_on. rewrite Hl, Hl'.
    rewrite (bool_decide_false (None = Some g)) by done. destruct (decide (g = f)) as [->|].
    - rewrite bool_decide_true by done. lia.
    - rewrite bool_decide_false by congruence. lia. }
  assert (Hw : total waits (<[i:=l']> loads) = total waits loads - 1).
  { rewrite (total_insert _ _ _ l) by done. unfold waits. rewrite Hl, Hl'. lia. }
  pose proof (waiting_bound loads f) as [Hb1 Hb2].
  assert (Hone : 1 ≤ total (waits_on f) loads).
  { pose proof (waits_on_lookup loads i l f Hi) as H. unfold waits_on at 1 in H.
    rewrite bool_decide_true in H by done. done. }
  assert (Hdec : ∀ z, 1 ≤ z → z ≤ total waits loads → (if 0 <? z then wrap64 (z - 1) else z) = z - 1).
  { intros z ??. unfold wrap64, max_uint64 in *. rewrite (proj2 (Z.ltb_lt 0 z)) by lia. apply Z.mod_small. lia. }
  destruct (fs_awaited0 i l f Hi Hl) as [[fl0 Hf0] Hkey].
  pose proof (fs_heap0 f fl0 Hf0) as [Hold Hrun Hwt].
  unfold releaseWaiter. set (c1 := drop_waiter f c).
  assert (Hc1 : bc_heap c1 !! f = Some (set_waiters (cf_waiters fl0 - 1) fl0)).
  { simpl. rewrite lookup_alter_eq, Hf0. simpl. by rewrite Hwt, Hdec by lia. }
  assert (Hc1' : ∀ g, g ≠ f → bc_heap c1 !! g = bc_heap c !! g) by (intros; simpl; by rewrite lookup_alter_ne).
  assert (Hok1 : flights_ok c1 (<[i:=l']> loads) running).
  { constructor; try done.
    - intros g fl Hfl. change (bc_next c1) with (bc_next c). destruct (decide (g = f)) as [->|Hne].
      + rewrite Hc1 in Hfl. injection Hfl as <-. constructor; simpl; try done. rewrite Hon, decide_True by done. lia.
      + rewrite Hc1' in Hfl by done. destruct (fs_heap0 g fl Hfl). constructor; try done.
        rewrite Hon, decide_False by done. lia.
    - intros g rq Hg. simpl. apply lookup_alter_is_Some. eauto.
    - intros g rq fl Hg Hfl. destruct (decide (g = f)) as [->|Hne].
      + rewrite Hc1 in Hfl. injection Hfl as <-. simpl. eauto.
      + rewrite Hc1' in Hfl by done. eauto.
    - intros g rq Hg. destruct (fs_issued0 g rq Hg). split; [done|]. by eapply requests_kept_insert.
    - intros g rq fl Hg Hfl. change (bc_flights c1) with (bc_flights c). destruct (decide (g = f)) as [->|Hne].
      + rewrite Hc1 in Hfl. injection Hfl as <-. simpl. eauto.
      + rewrite Hc1' in Hfl by done. eauto.
    - simpl. rewrite fs_waiters0, Hw, Hdec by lia. done.
    - intros j lj g [[<- <-]|[Hne Hj]]%lookup_insert_Some Hg; [congruence|]. simpl.
      rewrite lookup_alter_is_Some. eauto. }
  assert (Hat1 : attended None c running → attended (Some f) c1 running).
  { intros Ha g rq fl Hg Hr. rewrite Hc1' by congruence. by eapply Ha. }
  rewrite Hc1. simpl. destruct (bool_decide (Some _ = Some 0)) eqn:Ez; simpl.
  - destruct (owns_flight c1 (rq_key (ld_request l)) f) eqn:Eo.
    + apply bool_decide_eq_true in Eo. destruct (flights_ok_cancel _ _ _ _ _ Hok1 Eo) as [H1 H2].
      split; [done|]. intros Ha. apply H2. auto.
    + split; [done|]. intros Ha. apply bool_decide_eq_false in Eo. intros g rq fl _ Hr Hfl Hc.
      destruct (decide (g = f)) as [->|]; [|exact (Hat1 Ha g rq fl ltac:(congruence) Hr Hfl Hc)].
      exfalso. apply Eo. destruct Hok1 as [_ _ _ _ _ Hown _ _]. specialize (Hown f rq fl Hr Hfl) as [_ Hown].
      rewrite <-(Hkey rq Hr). auto.
  - split; [done|]. intros Ha g rq fl _ Hr Hfl Hc.
    destruct (decide (g = f)) as [->|]; [|exact (Hat1 Ha g rq fl ltac:(congruence) Hr Hfl Hc)].
    apply bool_decide_eq_false in Ez. rewrite Hc1 in Hfl. injection Hfl as <-. simpl in *. 
    assert (cf_waiters fl0 - 1 ≠ 0) by congruence. lia.
Qed.

(** [start_flight] for an issued request, before anybody waits on it. *)
Lemma flights_ok_start c loads running rq :
  flights_ok c loads running → attended None c running → bc_flights c !! rq_key rq = None →
  is_Some (rq_decoder rq) → issued loads rq →
  flights_ok (start_flight (rq_key rq) (rq_reservation rq) c) loads (<[bc_next c := rq]> running)
  ∧ attended (Some (bc_next c)) (start_flight (rq_key rq) (rq_reservation rq) c) (<[bc_next c := rq]> running).
Proof.
  intros [] Ha Hk Hd Hi.
  assert (Hh : bc_heap c !! bc_next c = None).
  { apply eq_None_not_Some. intros [fl Hfl]. apply fs_heap0, fo_old in Hfl. lia. }
  assert (Hr : ∀ g rq', running !! g = Some rq' → g ≠ bc_next c).
  { intros g rq' Hg ->. destruct (fs_running0 _ _ Hg). congruence. }
  split.
  2: { intros g rq' fl Hne Hg Hfl. simpl in Hfl. rewrite lookup_insert_ne in Hg by congruence.
    rewrite lookup_insert_ne in Hfl by congruence. by apply (Ha g rq'). }
  constructor; simpl; try done.
  - intros f fl [[<- <-]|[Hne Hf]]%lookup_insert_Some; constructor; simpl.
    + lia.
    + rewrite lookup_insert_eq. split; by eauto.
    + symmetry. apply Z.le_antisymm; [|apply waiting_bound].
      rewrite <-(sumZ_zero (map_to_list loads)). apply sumZ_le. intros [i l] Hl%elem_of_map_to_list.
      simpl. unfold waits_on. case_bool_decide as E; [|done]. destruct (fs_awaited0 _ _ _ Hl E) as [[] _]. congruence.
    + apply fs_heap0, fo_old in Hf. simpl in Hf. lia.
    + rewrite lookup_insert_ne by done. by apply fs_heap0 in Hf as [].
    + by apply fs_heap0 in Hf as [].
  - intros f rq' [[<- <-]|[Hne Hf]]%lookup_insert_Some; [by rewrite lookup_insert_eq|].
    rewrite lookup_insert_ne by done. eauto.
  - intros f rq' fl [[<- <-]|[Hne Hf]]%lookup_insert_Some.
    + rewrite lookup_insert_eq. by intros [= <-].
    + rewrite lookup_insert_ne by done. eauto.
  - intros f rq' [[<- <-]|[Hne Hf]]%lookup_insert_Some; eauto.
  - intros k f [[<- <-]|[Hne Hf]]%lookup_insert_Some.
    + rewrite lookup_insert_eq. eauto.
    + destruct (fs_flights0 _ _ Hf) as (rq' & Hrq' & <-). exists rq'.
      rewrite lookup_insert_ne by (intros <-; by eapply Hr). done.
  - intros f rq' fl [[<- <-]|[Hne Hf]]%lookup_insert_Some.
    + rewrite !lookup_insert_eq. intros [= <-]. done.
    + rewrite (lookup_insert_ne (bc_heap c)) by done. intros Hfl. rewrite <-(fs_owner0 _ _ _ Hf Hfl).
      rewrite lookup_insert_Some. split; [intros [[_ ?]|[_ ?]]; [congruence|done]|].
      intros Hf'. right. split; [|done]. congruence.
  - intros i l f Hl Hf. destruct (fs_awaited0 _ _ _ Hl Hf) as [[fl Hfl] Hkey].
    rewrite !lookup_insert_ne by congruence. eauto.
Qed.

(** [complete] for a running flight. *)
Lemma flights_ok_complete c loads running f rq v w err :
  flights_ok c loads running → running !! f = Some rq →
  flights_ok (complete c (rq_key rq) f v w err) loads (delete f running)
  ∧ (attended None c running → attended None (complete c (rq_key rq) f v w err) (delete f running)).
Proof.
  intros [] Hf. destruct (fs_running0 _ _ Hf) as [fl0 Hfl0].
  destruct (complete_view c (rq_key rq) f v w err fl0 Hfl0) as (_ & Ef & Eh & Ew & _ & _ & _ & _ & _ & En).
  revert Ef Eh Ew En. generalize (complete c (rq_key rq) f v w err). intros c' Ef Eh Ew En.
  assert (Hfl : ∀ k g, g ≠ f → bc_flights c' !! k = Some g ↔ bc_flights c !! k = Some g).
  { intros k g Hne. rewrite Ef. unfold owns_flight. case_bool_decide; [|done].
    rewrite lookup_delete_Some. split; [by intros []|]. intros Hk. split; [|done]. congruence. }
  split.
  2: { intros Ha g rq' fl _ Hg. rewrite Eh. apply lookup_delete_Some in Hg as [Hne Hg].
    rewrite lookup_alter_ne by done. by apply Ha with rq'. }
  constructor; rewrite ?Eh, ?Ew; try done.
  - intros g fl. rewrite lookup_alter_Some. intros [(<- & fl' & Hfl' & ->)|(Hne & Hfl')];
      destruct (fs_heap0 _ _ Hfl'); constructor; simpl; try lia; try done.
    + rewrite lookup_delete_eq. split; [done|]. by intros [].
    + by rewrite lookup_delete_ne.
  - intros g rq' [Hne Hg]%lookup_delete_Some. apply lookup_alter_is_Some. eauto.
  - intros g rq' fl [Hne Hg]%lookup_delete_Some. rewrite lookup_alter_ne by done. eauto.
  - intros g rq' [Hne Hg]%lookup_delete_Some. eauto.
  - intros k g Hk. assert (g ≠ f).
    { intros ->. rewrite Ef in Hk. unfold owns_flight in Hk. case_bool_decide as E.
      - apply lookup_delete_Some in Hk as [Hne Hk]. destruct (fs_flights0 _ _ Hk) as (? & ? & ?). congruence.
      - destruct (fs_flights0 _ _ Hk) as (? & ? & <-). congruence. }
    apply Hfl in Hk; [|done]. destruct (fs_flights0 _ _ Hk) as (rq' & ? & ?). exists rq'. by rewrite lookup_delete_ne.
  - intros g rq' fl [Hne Hg]%lookup_delete_Some. rewrite lookup_alter_ne, Hfl by done. eauto.
  - intros i l g Hl Hg. destruct (fs_awaited0 _ _ _ Hl Hg) as [? Hkey]. rewrite lookup_alter_is_Some.
    split; [done|]. intros rq' [_ ?]%lookup_delete_Some. eauto.
Qed.
End waiting.

(** ** The whole invariant *)

Section invariant.
Context {V : Type}.
Implicit Types (c : ByteCache V) (loads : gmap nat (load V)) (running : gmap nat (request V)).

(** A value decoded, by the decoder of some call for this key, from bytes of
    the announced length whose SHA-256 is the digest of the key. *)
Definition authentic loads (key : CacheKey) (v : any V) : Prop :=
  ∃ rq d data w, issued loads rq ∧ rq_key rq = key ∧ rq_decoder rq = Some d
    ∧ Z.of_nat (length data) = rq_expectedLength rq ∧ sha256 data = ck_Digest key
    ∧ d data = Returned (Ok (v, w)) ∧ w ≤ rq_maximumDecodedWeight rq.

(** What a flight for this key made of the bytes its loader delivered. *)
Definition flight_result loads (key : CacheKey) (v : any V) (err : option error) : Prop :=
  ∃ rq d loaded v0 w, issued loads rq ∧ rq_key rq = key ∧ rq_decoder rq = Some d
    ∧ execute key (rq_expectedLength rq) (rq_maximumDecodedWeight rq) loaded d = (v0, w, err)
    ∧ v = (if err then None else v0).

Definition request_contract (rq : request V) : res Z :=
  load_contract None (rq_key rq) (rq_expectedLength rq) (rq_maximumDecodedWeight rq) (rq_loader rq) (rq_decoder rq).

Definition too_large (limits : CacheLimits) (rq : request V) (e : error) : Prop :=
  (cl_FlightBytes limits < rq_reservation rq ∨ cl_FlightEntries limits = 0 ∨ cl_FlightBytes limits = 0)
  ∧ e = Errorf "%w: %d bytes, limits %d entries and %d bytes"
          [EErr ErrCacheFlightTooLarge; EInt (rq_reservation rq);
           EInt (cl_FlightEntries limits); EInt (cl_FlightBytes limits)].

(** Why a call of Load returned what it did. *)
Definition explained (limits : CacheLimits) loads (l : load V) (r : res (any V)) : Prop :=
  match r with
  | Ok v => authentic loads (rq_key (ld_request l)) v
  | Fail e =>
      ld_context l = Some e ∨ request_contract (ld_request l) = Fail e
      ∨ too_large limits (ld_request l) e ∨ flight_result loads (rq_key (ld_request l)) None (Some e)
  end.

Definition admitted (rq : request V) : Prop := request_contract rq = Ok (rq_reservation rq).

Definition load_ok c loads running (l : load V) : Prop :=
  match ld_at l with
  | Checking _ | Locking _ => admitted (ld_request l)
  | AwaitingCapacity changed =>
      admitted (ld_request l) ∧ (changed ≤ bc_capacityChanged c)%nat
      ∧ (changed = bc_capacityChanged c → running ≠ ∅)
  | AwaitingFlight f => ∀ fl, bc_heap c !! f = Some fl → cf_done fl = true →
      flight_result loads (rq_key (ld_request l)) (cf_value fl) (cf_err fl)
  | Finished r => explained (bc_limits c) loads l r
  end.

Record usage_ok c running : Prop := {
  us_entries : bc_flightEntries c = Z.of_nat (size running);
  us_bytes : bc_flightBytes c = total rq_reservation running;
  us_positive : ∀ f rq, running !! f = Some rq → 1 ≤ rq_reservation rq;
  us_entries_bound : bc_flightEntries c ≤ bc_peakFlightEntries c ≤ cl_FlightEntries (bc_limits c);
  us_bytes_bound : bc_flightBytes c ≤ bc_peakFlightBytes c ≤ cl_FlightBytes (bc_limits c)
}.

Record coherent (limits : CacheLimits) (s : system V) : Prop := {
  ch_limits : bc_limits (sy_cache s) = limits;
  ch_linked : linked (sy_cache s);
  ch_within : within_limits (sy_cache s);
  ch_cached : ∀ p, p ∈ bc_lru (sy_cache s) → authentic (sy_loads s) (ce_key p.2) (ce_value p.2);
  ch_usage : usage_ok (sy_cache s) (sy_running s);
  ch_flights : flights_ok (sy_cache s) (sy_loads s) (sy_running s);
  ch_attended : attended None (sy_cache s) (sy_running s);
  ch_typed : ∀ rq, issued (sy_loads s) rq → request_typed rq;
  ch_loads : ∀ i l, sy_loads s !! i = Some l → load_ok (sy_cache s) (sy_loads s) (sy_running s) l;
  ch_size : Z.of_nat (size (sy_loads s)) ≤ max_uint64
}.

(** *** What the pieces do to the store *)

Definition store_like c c' : Prop :=
  bc_limits c' = bc_limits c ∧ bc_entries c' = bc_entries c ∧ bc_bytes c' = bc_bytes c
  ∧ bc_lru c' ≡ₚ bc_lru c ∧ (bc_next c ≤ bc_next c')%nat.

Lemma linked_like c c' : linked c → store_like c c' → linked c'.
Proof.
  intros [Hi Hids Hfr Hw Hb] (_ & Ee & Eb & Hp & Hn). constructor.
  - rewrite Ee, Hi. unfold lru_index. by rewrite Hp.
  - by rewrite Hp.
  - intros p. rewrite Hp. intros Hin%Hfr. lia.
  - intros p. rewrite Hp. apply Hw.
  - rewrite Eb, Hb. unfold lru_weight. by rewrite Hp.
Qed.

Lemma within_like c c' : within_limits c → store_like c c' → within_limits c'.
Proof. unfold within_limits. by intros ? (-> & -> & -> & _). Qed.

Lemma releaseWaiter_like c key f : store_like c (releaseWaiter c key f).
Proof. unfold releaseWaiter. destruct (_ && _); by split_and!. Qed.

Lemma load_attempt_cases c key r m c' a : linked c → load_attempt c key r m = (c', a) →
  store_like c c' ∧
  match a with
  | Hit v => same_flights c c' ∧ ∃ p, p ∈ bc_lru c ∧ ce_key p.2 = key ∧ ce_value p.2 = v
  | Refused e => same_flights c c'
      ∧ (cl_FlightBytes (bc_limits c) < r ∨ cl_FlightEntries (bc_limits c) = 0 ∨ cl_FlightBytes (bc_limits c) = 0)
      ∧ e = Errorf "%w: %d bytes, limits %d entries and %d bytes"
          [EErr ErrCacheFlightTooLarge; EInt r; EInt (cl_FlightEntries (bc_limits c)); EInt (cl_FlightBytes (bc_limits c))]
  | AwaitCapacity changed => same_flights c c' ∧ changed = bc_capacityChanged c
      ∧ r ≤ cl_FlightBytes (bc_limits c) ∧ cl_FlightEntries (bc_limits c) ≠ 0
      ∧ (cl_FlightEntries (bc_limits c) ≤ bc_flightEntries c
         ∨ wrap64 (cl_FlightBytes (bc_limits c) - r) < bc_flightBytes c)
  | AwaitFlight f false => ∃ c1, same_flights c c1 ∧ c' = add_waiter f c1 ∧ bc_flights c !! key = Some f
  | AwaitFlight f true => ∃ c1, same_flights c c1 ∧ bc_next c1 = bc_next c ∧ f = bc_next c
      ∧ c' = add_waiter f (start_flight key r c1) ∧ bc_flights c !! key = None
      ∧ r ≤ cl_FlightBytes (bc_limits c) ∧ bc_flightEntries c < cl_FlightEntries (bc_limits c)
      ∧ bc_flightBytes c ≤ wrap64 (cl_FlightBytes (bc_limits c) - r)
  end.
Proof.
  intros Hl. unfold load_attempt. destruct (bc_entries c !! key) as [el|] eqn:Ee.
  - intros [= <- <-]. apply linked_entry in Ee as (e & Hin & He); [|done].
    split; [split_and!; simpl; try done; apply lru_move_to_front_perm, Hl|]. split; [done|].
    exists (el, e). rewrite (lru_value_elem el e) by (done || apply Hl). done.
  - set (c1 := if m then c else _).
    assert (H1 : same_flights c c1 ∧ store_like c c1 ∧ bc_next c1 = bc_next c) by (unfold c1; destruct m; by split_and!).
    destruct H1 as (Hs & Hst & Hn). clearbody c1. pose proof Hs as (El & Ef & _ & _ & Efe & Efb & _ & _ & Ec & _).
    rewrite El, Ef, Efe, Efb, Ec, Hn. destruct (bc_flights c !! key) as [f|] eqn:Ek.
    { intros [= <- <-]. split; [done|]. eauto. }
    destruct (_ || _ || _) eqn:Eb1; [intros [= <- <-]; split; [done|]; split_and!; [done|lia|done]|].
    destruct ((_ <=? _) || _) eqn:Eb2; intros Heq; apply pair_equal_spec in Heq as [<- <-].
    + split; [done|]. split_and!; [done|done|lia|lia|lia].
    + split; [destruct Hst as (?&?&?&?&?); split_and!; simpl; try done; lia|].
      exists c1. split_and!; try done; lia.
Qed.

(** *** Monotonicity in the calls issued *)

Lemma authentic_mono loads loads' key v : requests_kept loads loads' → authentic loads key v → authentic loads' key v.
Proof. intros Hk (rq & d & data & w & Hi & H). exists rq, d, data, w. auto. Qed.

Lemma flight_result_mono loads loads' key v err :
  requests_kept loads loads' → flight_result loads key v err → flight_result loads' key v err.
Proof. intros Hk (rq & d & data & v0 & w & Hi & H). exists rq, d, data, v0, w. auto. Qed.

Lemma explained_mono limits loads loads' l r :
  requests_kept loads loads' → explained limits loads l r → explained limits loads' l r.
Proof.
  intros Hk. destruct r as [v|e]; simpl; [by apply authentic_mono|].
  intros [?|[?|[?|?]]]; eauto using flight_result_mono.
Qed.

Lemma execute_authentic loads key rq d loaded v w :
  issued loads rq → rq_key rq = key → rq_decoder rq = Some d →
  execute key (rq_expectedLength rq) (rq_maximumDecodedWeight rq) loaded d = (v, w, None) →
  authentic loads key v.
Proof.
  intros Hi Hk Hd. unfold execute. destruct loaded as [[data|]|]; try done.
  destruct (negb (_ =? _)) eqn:E1; [done|]. destruct (negb (bool_decide _)) eqn:E2; [done|].
  destruct (d data) as [[[v0 w0]|]|] eqn:E3; try done.
  destruct (_ <? w0) eqn:E4; [done|]. destruct (_ - _ <? w0) eqn:E5; [done|].
  intros [= -> _]. bool_prop. exists rq, d, data, w0. split_and!; try done; try lia; congruence.
Qed.

Lemma execute_weight (rq : request V) d loaded (v : any V) w (err : option error) :
  execute (rq_key rq) (rq_expectedLength rq) (rq_maximumDecodedWeight rq) loaded d = (v, w, err) → 0 ≤ w.
Proof.
  unfold execute. destruct loaded as [[data|]|]; try (intros [= <- <- <-]; lia).
  destruct (negb (_ =? _)); [intros [= <- <- <-]; lia|]. destruct (negb (bool_decide _)); [intros [= <- <- <-]; lia|].
  destruct (d data) as [[[v0 w0]|]|]; try (intros [= <- <- <-]; lia).
  destruct (_ <? w0); [intros [= <- <- <-]; lia|]. destruct (_ - _ <? w0); [intros [= <- <- <-]; lia|].
  intros [= <- <- <-]. unfold wrap64. by apply Z.mod_pos_bound.
Qed.

Lemma flight_result_value loads key v : flight_result loads key v None → authentic loads key v.
Proof. intros (rq & d & loaded & v0 & w & Hi & Hk & Hd & He & ->). by eapply execute_authentic. Qed.

(** The contract check makes a reservation positive, without overflow. *)
Lemma admitted_facts (rq : request V) : admitted rq → request_typed rq →
  1 ≤ rq_reservation rq ∧ is_Some (rq_decoder rq).
Proof.
  unfold admitted, request_contract, load_contract, request_typed, is_uint64.
  intros H ([He1 He2] & [Hm1 Hm2] & _). simpl in H. go_inv.
  destruct (rq_decoder rq); [|done]. split; [|done].
  unfold rq_reservation, wrap64, max_uint64 in *. rewrite Z.mod_small by lia. lia.
Qed.

Lemma load_contract_ok ctx (rq : request V) r :
  load_contract ctx (rq_key rq) (rq_expectedLength rq) (rq_maximumDecodedWeight rq) (rq_loader rq) (rq_decoder rq) = Ok r →
  admitted rq.
Proof.
  destruct ctx; [done|]. intros H. unfold admitted, request_contract. rewrite H. f_equal.
  unfold load_contract in H. go_inv. done.
Qed.

Lemma load_contract_fail ctx (rq : request V) e :
  load_contract ctx (rq_key rq) (rq_expectedLength rq) (rq_maximumDecodedWeight rq) (rq_loader rq) (rq_decoder rq) = Fail e →
  ctx = Some e ∨ request_contract rq = Fail e.
Proof. destruct ctx; [intros [= ->]; by left|]. by right. Qed.

(** What an unaffected load keeps. *)
Lemma load_ok_mono c c' loads loads' running running' l :
  load_ok c loads running l → requests_kept loads loads' → bc_limits c' = bc_limits c →
  (bc_capacityChanged c ≤ bc_capacityChanged c')%nat →
  (bc_capacityChanged c' = bc_capacityChanged c → running ≠ ∅ → running' ≠ ∅) →
  (∀ f fl', awaited l = Some f → bc_heap c' !! f = Some fl' → cf_done fl' = true →
    (∃ fl, bc_heap c !! f = Some fl ∧ cf_done fl = true ∧ cf_value fl = cf_value fl' ∧ cf_err fl = cf_err fl')
    ∨ flight_result loads' (rq_key (ld_request l)) (cf_value fl') (cf_err fl')) →
  load_ok c' loads' running' l.
Proof.
  unfold load_ok, awaited. intros Hl Hk Elim Hcap Hrun Hheap. destruct (ld_at l); try done.
  - destruct Hl as (? & Hle & Hr). split_and!; [done|lia|]. intros ->. apply Hrun; [lia|]. apply Hr. lia.
  - intros fl' Hfl' Hd. destruct (Hheap _ _ eq_refl Hfl' Hd) as [(fl & Hfl & Hdone & <- & <-)|]; [|done].
    eapply flight_result_mono; eauto.
  - rewrite Elim. by eapply explained_mono.
Qed.

(** *** The accounting of the running flights *)

Lemma usage_ok_same c c' running : usage_ok c running → bc_limits c' = bc_limits c →
  bc_flightEntries c' = bc_flightEntries c → bc_flightBytes c' = bc_flightBytes c →
  bc_peakFlightEntries c' = bc_peakFlightEntries c → bc_peakFlightBytes c' = bc_peakFlightBytes c →
  usage_ok c' running.
Proof. intros [] El E1 E2 E3 E4. by constructor; rewrite ?El, ?E1, ?E2, ?E3, ?E4. Qed.

Lemma usage_ok_start c running rq : usage_ok c running → limits_typed (bc_limits c) →
  running !! bc_next c = None → 1 ≤ rq_reservation rq ≤ cl_FlightBytes (bc_limits c) →
  bc_flightEntries c < cl_FlightEntries (bc_limits c) →
  bc_flightBytes c ≤ wrap64 (cl_FlightBytes (bc_limits c) - rq_reservation rq) →
  usage_ok (start_flight (rq_key rq) (rq_reservation rq) c) (<[bc_next c := rq]> running).
Proof.
  intros [He Hb Hpos Hbe Hbb] (_ & _ & _ & [? Hle] & [? Hlb]) Hf Hr Hlt Hfit. unfold max_uint64, wrap64 in *.
  rewrite Z.mod_small in Hfit by lia.
  assert (0 ≤ total rq_reservation running).
  { apply total_nonneg. intros f rq' Hf'. apply Hpos in Hf'. lia. }
  assert (0 ≤ Z.of_nat (size running)) by lia.
  constructor; simpl; unfold wrap64; rewrite ?Z.mod_small by lia.
  - rewrite map_size_insert_None by done. lia.
  - rewrite total_insert_fresh by done. lia.
  - intros f rq' [[<- <-]|[_ ?]]%lookup_insert_Some; [lia|eauto].
  - destruct (_ <? _) eqn:E; lia.
  - destruct (_ <? _) eqn:E; lia.
Qed.

Lemma usage_ok_complete c running f rq fl v w err : usage_ok c running → limits_typed (bc_limits c) →
  running !! f = Some rq → bc_heap c !! f = Some fl → cf_reservation fl = rq_reservation rq →
  usage_ok (complete c (rq_key rq) f v w err) (delete f running).
Proof.
  intros [He Hb Hpos Hbe Hbb] (_ & _ & _ & [? Hle] & [? Hlb]) Hf Hfl Hres.
  destruct (complete_view c (rq_key rq) f v w err fl Hfl) as (El & _ & _ & _ & E1 & E2 & E3 & E4 & _).
  revert El E1 E2 E3 E4. generalize (complete c (rq_key rq) f v w err). intros c' El E1 E2 E3 E4.
  assert (Hp : ∀ f rq, running !! f = Some rq → 0 ≤ rq_reservation rq) by (intros g rq' Hg; apply Hpos in Hg; lia).
  pose proof (total_lookup rq_reservation running f rq Hp Hf). pose proof (Hpos _ _ Hf).
  assert (size running ≠ 0%nat) by (intros E; apply map_size_empty_inv in E; subst; by rewrite lookup_empty in Hf).
  unfold max_uint64, wrap64 in *. rewrite Hres, Z.mod_small in E2 by lia. rewrite Z.mod_small in E1 by lia.
  constructor; rewrite ?El, ?E1, ?E2, ?E3, ?E4.
  - rewrite map_size_delete_Some by eauto. lia.
  - rewrite (total_delete _ _ _ rq) by done. lia.
  - intros g rq' [_ ?]%lookup_delete_Some. eauto.
  - lia.
  - lia.
Qed.

End invariant.

(** ** Every action preserves the invariant *)

Section preservation.
Context {V : Type}.
Implicit Types (s : system V) (l : load V).

Lemma same_flights_done (c c' : ByteCache V) loads' l :
  bc_heap c' = bc_heap c → ∀ f fl', awaited l = Some f → bc_heap c' !! f = Some fl' → cf_done fl' = true →
  (∃ fl, bc_heap c !! f = Some fl ∧ cf_done fl = true ∧ cf_value fl = cf_value fl' ∧ cf_err fl = cf_err fl')
  ∨ flight_result loads' (rq_key (ld_request l)) (cf_value fl') (cf_err fl').
Proof. intros -> f fl' _ Hf Hd. left. by exists fl'. Qed.

(** A call arrives, is cancelled or moves on without touching the flights. *)
Lemma coherent_idle limits s i l' c' :
  coherent limits s →
  match sy_loads s !! i with
  | Some l => awaited l = awaited l' ∧ ld_request l = ld_request l'
  | None => awaited l' = None ∧ request_typed (ld_request l') ∧ Z.of_nat (size (sy_loads s)) < max_uint64
  end →
  same_flights (sy_cache s) c' → store_like (sy_cache s) c' →
  (let loads' := <[i:=l']> (sy_loads s) in
   requests_kept (sy_loads s) loads' → load_ok c' loads' (sy_running s) l') →
  coherent limits (MkSystem c' (<[i:=l']> (sy_loads s)) (sy_running s)).
Proof.
  intros [] Hi Hs Hst Hl'. destruct s as [c loads running]. simpl in *.
  assert (Hkept : requests_kept loads (<[i:=l']> loads)).
  { destruct (loads !! i) as [l|] eqn:E; [|by apply requests_kept_fresh].
    eapply requests_kept_insert; [done|]. symmetry. apply Hi. }
  pose proof Hs as (El & Ef & Eh & Ew & E1 & E2 & E3 & E4 & Ec & En).
  constructor; simpl; try done.
  - congruence.
  - by eapply linked_like.
  - by eapply within_like.
  - destruct Hst as (_ & _ & _ & Hp & _). intros p. rewrite Hp. intros Hin. eapply authentic_mono; eauto.
  - by eapply usage_ok_same.
  - assert (Hon : ∀ g, match loads !! i with Some l => g l = g l' | None => g l' = 0 end →
      total g (<[i:=l']> loads) = total g loads).
    { intros g Hg. destruct (loads !! i) as [l|] eqn:E.
      - rewrite (total_insert _ _ _ l) by done. lia.
      - rewrite total_insert_fresh by done. lia. }
    eapply flights_ok_idle; try done.
    + intros f. apply Hon. unfold waits_on. destruct (loads !! i) as [l|].
      * by destruct Hi as [-> _].
      * by destruct Hi as [-> _].
    + apply Hon. unfold waits. destruct (loads !! i) as [l|]; by destruct Hi as [-> _].
    + intros j lj f [[<- <-]|[Hne Hj]]%lookup_insert_Some Hf; [|eauto].
      destruct (loads !! i) as [l|]; [|destruct Hi; congruence]. destruct Hi as [Ha Hr]. exists l. by rewrite Ha.
  - intros f rq fl Hne Hr. rewrite Eh. exact (ch_attended0 f rq fl Hne Hr).
  - intros rq (j & lj & [[<- <-]|[Hne Hj]]%lookup_insert_Some & <-).
    + destruct (loads !! i) as [l|] eqn:E; [|by destruct Hi as (_ & ? & _)].
      destruct Hi as [_ <-]. apply ch_typed0. by exists i, l.
    + apply ch_typed0. by exists j, lj.
  - intros j lj [[<- <-]|[Hne Hj]]%lookup_insert_Some; [by apply Hl'|].
    eapply load_ok_mono; eauto; [lia|]. exact (same_flights_done c c' _ _ Eh).
  - destruct (loads !! i) as [l|] eqn:E.
    + by rewrite map_size_insert_Some by eauto.
    + rewrite map_size_insert_None by done. destruct Hi as (_ & _ & ?). lia.
Qed.

(** A call joins the flight of its key, running already or just started. *)
Lemma coherent_join limits s i l f rq c1 running' :
  coherent limits s → sy_loads s !! i = Some l → awaited l = None →
  store_like (sy_cache s) c1 → bc_limits c1 = limits →
  (bc_capacityChanged c1 = bc_capacityChanged (sy_cache s)) →
  (∀ g fl, bc_heap c1 !! g = Some fl → cf_done fl = true → bc_heap (sy_cache s) !! g = Some fl) →
  (sy_running s ≠ ∅ → running' ≠ ∅) →
  usage_ok c1 running' → flights_ok c1 (sy_loads s) running' →
  attended None c1 running' ∨ attended (Some f) c1 running' →
  running' !! f = Some rq → rq_key rq = rq_key (ld_request l) →
  coherent limits (MkSystem (add_waiter f c1) (set_load i l (AwaitingFlight f) (sy_loads s)) running').
Proof.
  intros [] Hi Ha Hst El Ec Hheap Hrun Hu Hf Hat Hrq Hkey. destruct s as [c loads running]. simpl in *. unfold set_load.
  set (l' := MkLoad (ld_request l) (ld_context l) (AwaitingFlight f)).
  destruct (flights_ok_join c1 loads running' i l l' f rq Hf ch_size0 Hi Ha eq_refl eq_refl Hrq Hkey) as [Hf' Hat'].
  assert (Hkept : requests_kept loads (<[i:=l']> loads)) by by eapply requests_kept_insert.
  assert (Hst' : store_like c (add_waiter f c1)) by (destruct Hst as (?&?&?&?&?); by split_and!).
  assert (Hheap' : ∀ g fl', bc_heap (add_waiter f c1) !! g = Some fl' → cf_done fl' = true →
    ∃ fl, bc_heap c !! g = Some fl ∧ cf_done fl = true ∧ cf_value fl = cf_value fl' ∧ cf_err fl = cf_err fl').
  { intros g fl'. simpl. rewrite lookup_alter_Some. intros [(<- & fl & Hfl & ->)|[Hne Hfl]] Hd; simpl in *; eauto 10. }
  constructor; simpl; try done.
  - by eapply linked_like.
  - by eapply within_like.
  - destruct Hst as (_ & _ & _ & Hp & _). intros p. rewrite Hp. intros Hin. eapply authentic_mono; eauto.
  - by eapply usage_ok_same.
  - apply Hat'. destruct Hat; auto.
  - intros rq' (j & lj & [[<- <-]|[Hne Hj]]%lookup_insert_Some & <-); apply ch_typed0; [by exists i, l|by exists j, lj].
  - intros j lj [[<- <-]|[Hne Hj]]%lookup_insert_Some.
    + unfold load_ok. simpl. intros fl Hfl Hd. exfalso.
      assert (cf_done fl = false); [|congruence]. destruct Hf' as [Hh _ _ _ _ _ _ _].
      destruct (Hh f fl Hfl) as [_ Hdone _]. apply Hdone. eauto.
    + apply (load_ok_mono c _ loads _ running); [eauto|done|simpl; congruence|simpl; lia|by auto|].
      intros g fl' _ Hg Hd. left. by apply Hheap'.
  - by rewrite map_size_insert_Some by eauto.
Qed.

(** A call leaves its flight with a result. *)
Lemma coherent_leave limits s i l f r :
  coherent limits s → sy_loads s !! i = Some l → awaited l = Some f → explained limits (sy_loads s) l r →
  coherent limits (MkSystem (releaseWaiter (sy_cache s) (rq_key (ld_request l)) f)
                     (set_load i l (Finished r) (sy_loads s)) (sy_running s)).
Proof.
  intros [] Hi Ha Hr. destruct s as [c loads running]. simpl in *. unfold set_load.
  set (l' := MkLoad (ld_request l) (ld_context l) (Finished r)).
  destruct (flights_ok_leave c loads running i l l' f ch_flights0 ch_size0 Hi Ha eq_refl eq_refl) as [Hf' Hat'].
  assert (Hkept : requests_kept loads (<[i:=l']> loads)) by by eapply requests_kept_insert.
  pose proof (releaseWaiter_like c (rq_key (ld_request l)) f) as Hst.
  assert (Hheap' : ∀ g fl', bc_heap (releaseWaiter c (rq_key (ld_request l)) f) !! g = Some fl' → cf_done fl' = true →
    ∃ fl, bc_heap c !! g = Some fl ∧ cf_done fl = true ∧ cf_value fl = cf_value fl' ∧ cf_err fl = cf_err fl').
  { intros g fl'. unfold releaseWaiter. destruct (_ && _); simpl; rewrite lookup_alter_Some.
    - intros [(<- & fl1 & Hfl1 & ->)|[Hne Hfl1]]; apply lookup_alter_Some in Hfl1 as [(_ & fl & Hfl & ->)|[_ Hfl]];
        simpl; eauto 10.
    - intros [(<- & fl & Hfl & ->)|[Hne Hfl]] Hd; simpl in *; eauto 10. }
  assert (Hcap : bc_capacityChanged (releaseWaiter c (rq_key (ld_request l)) f) = bc_capacityChanged c
     ∧ bc_limits (releaseWaiter c (rq_key (ld_request l)) f) = bc_limits c
     ∧ usage_ok (releaseWaiter c (rq_key (ld_request l)) f) running).
  { unfold releaseWaiter. destruct (_ && _); split_and!; try done; by eapply usage_ok_same. }
  destruct Hcap as (Ec & El & Hu).
  revert Hf' Hat' Hst Hheap' Ec El Hu. generalize (releaseWaiter c (rq_key (ld_request l)) f).
  intros c' Hf' Hat' Hst Hheap' Ec El Hu.
  constructor; simpl; try done.
  - congruence.
  - by eapply linked_like.
  - by eapply within_like.
  - destruct Hst as (_ & _ & _ & Hp & _). intros p. rewrite Hp. intros Hin. eapply authentic_mono; eauto.
  - by apply Hat'.
  - intros rq' (j & lj & [[<- <-]|[Hne Hj]]%lookup_insert_Some & <-); apply ch_typed0; [by exists i, l|by exists j, lj].
  - intros j lj [[<- <-]|[Hne Hj]]%lookup_insert_Some.
    + unfold load_ok. simpl. rewrite El, ch_limits0. by eapply explained_mono.
    + apply (load_ok_mono c _ loads _ running); [eauto|done|done|lia|by auto|].
      intros g fl' _ Hg Hd. left. by apply Hheap'.
  - by rewrite map_size_insert_Some by eauto.
Qed.

Lemma flights_ok_same (c c' : ByteCache V) loads running :
  same_flights c c' → flights_ok c loads running → flights_ok c' loads running.
Proof.
  intros Hs Hf. eapply flights_ok_idle; [exact Hf|done|by intros ??|done|done|]. intros i l f Hi Ha. by exists l.
Qed.

Lemma attended_same (c c' : ByteCache V) but running :
  same_flights c c' → attended but c running → attended but c' running.
Proof. intros (_ & _ & Eh & _) Ha f rq fl Hne Hr. rewrite Eh. exact (Ha f rq fl Hne Hr). Qed.

(** One step of a call of Load. *)
Lemma proceed_coherent limits s s' i b :
  limits_typed limits → coherent limits s → perform (Proceed i b) s = Some s' → coherent limits s'.
Proof.
  intros Hlim Hs. pose proof Hs as []. destruct s as [c loads running]. simpl in *.
  destruct (loads !! i) as [l|] eqn:Hi; [|done]. simpl.
  pose proof (ch_loads0 i l Hi) as Hl. unfold load_ok in Hl.
  assert (Hidle : ∀ at_ c', awaited l = None → awaited (MkLoad (ld_request l) (ld_context l) at_) = None →
    same_flights c c' → store_like c c' →
    (∀ loads', requests_kept loads loads' → load_ok c' loads' running (MkLoad (ld_request l) (ld_context l) at_)) →
    coherent limits (MkSystem c' (set_load i l at_ loads) running)).
  { intros at_ c' Ha Ha' Hsf Hst Hok. apply (coherent_idle limits (MkSystem c loads running)); simpl; try done.
    - rewrite Hi. split; [congruence|done].
    - intros Hk. by apply Hok. }
  assert (Hlike : store_like c c) by done.
  unfold proceed. destruct (ld_at l) as [m|m|ch|f|r] eqn:Eat; destruct b; try done; simpl.
  - destruct (ld_context l) as [e|] eqn:Ectx; intros [= <-]; apply Hidle; try done; try (unfold awaited; by rewrite Eat).
    intros loads' _. unfold load_ok. simpl. by left.
  - destruct (load_attempt c (rq_key (ld_request l)) (rq_reservation (ld_request l)) m) as [c' a] eqn:Ea.
    apply load_attempt_cases in Ea as [Hst Ha]; [|done].
    destruct a as [v|e|ch|f started].
    + destruct Ha as (Hsf & p & Hp & Hk & <-). intros [= <-]. apply Hidle; try done; [unfold awaited; by rewrite Eat|].
      intros loads' Hkept. unfold load_ok. simpl. rewrite <-Hk. eapply authentic_mono; eauto.
    + destruct Ha as (Hsf & Hbig & ->). intros [= <-]. apply Hidle; try done; [unfold awaited; by rewrite Eat|].
      intros loads' Hkept. unfold load_ok. simpl. destruct Hst as (-> & _). right. right. left. done.
    + destruct Ha as (Hsf & -> & Hr & Hne & Hfull). intros [= <-].
      apply Hidle; try done; [unfold awaited; by rewrite Eat|].
      intros loads' Hkept. unfold load_ok. simpl. pose proof Hsf as (_&_&_&_&_&_&_&_&->&_).
      split_and!; [done|lia|]. intros _ ->.
      destruct ch_usage0 as [He Hb Hpos Hbe Hbb]. rewrite map_size_empty in He. rewrite total_empty in Hb.
      destruct Hlim as (_ & _ & _ & [??] & [??]). subst limits. unfold wrap64 in Hfull.
      pose proof (Z.mod_pos_bound (cl_FlightBytes (bc_limits c) - rq_reservation (ld_request l)) (2 ^ 64)). lia.
    + destruct started.
      * destruct Ha as (c1 & Hsf & Hn1 & -> & -> & Hk & Hr & Hlt & Hfit). intros [= <-].
        pose proof Hsf as (El1 & Ef1 & Eh1 & Ew1 & Ee1 & Eb1 & Ep1 & Ep2 & Ec1 & _).
        assert (Hiss : issued loads (ld_request l)) by by exists i, l.
        assert (Hf1 : flights_ok c1 loads running).
        { by eapply flights_ok_same. }
        assert (Hat1 : attended None c1 running) by by eapply attended_same.
        destruct (admitted_facts _ Hl (ch_typed0 _ Hiss)) as [Hpos Hdec].
        destruct (flights_ok_start c1 loads running (ld_request l) Hf1 Hat1) as [Hf2 Hat2]; try done; [congruence|].
        rewrite Hn1 in *.
        apply (coherent_join limits (MkSystem c loads running) i l _ (ld_request l)); simpl; try done.
        -- unfold awaited. by rewrite Eat.
        -- congruence.
        -- intros g fl [[<- <-]|[Hne Hg]]%lookup_insert_Some; [done|]. congruence.
        -- intros _. apply insert_non_empty.
        -- rewrite <-Hn1. apply usage_ok_start; rewrite ?El1, ?Ee1, ?Eb1; try done; [|by subst limits|].
           ++ by eapply usage_ok_same.
           ++ rewrite Hn1. apply eq_None_not_Some. intros [rq Hrq]. destruct ch_flights0 as [Hh Hr1 _ _ _ _ _ _].
              destruct (Hr1 _ _ Hrq) as [fl Hfl]. destruct (Hh _ _ Hfl). lia.
        -- by right.
        -- by rewrite lookup_insert_eq.
      * destruct Ha as (c1 & Hsf & -> & Hk). intros [= <-].
        pose proof Hsf as (El1 & Ef1 & Eh1 & Ew1 & Ee1 & Eb1 & Ep1 & Ep2 & Ec1 & _).
        destruct (fs_flights _ _ _ ch_flights0 _ _ Hk) as (rq & Hrq & Hkey).
        apply (coherent_join limits (MkSystem c loads running) i l f rq); simpl; try done.
        -- unfold awaited. by rewrite Eat.
        -- congruence.
        -- intros g fl. by rewrite Eh1.
        -- by eapply usage_ok_same.
        -- by eapply flights_ok_same.
        -- left. by eapply attended_same.
  - destruct (ld_context l) as [e|] eqn:Ectx; [|done]. intros [= <-].
    apply Hidle; try done; [unfold awaited; by rewrite Eat|]. intros loads' _. unfold load_ok. simpl. by left.
  - case_bool_decide; [done|]. intros [= <-].
    apply Hidle; try done; [unfold awaited; by rewrite Eat|]. intros loads' _. apply Hl.
  - destruct (ld_context l) as [e|] eqn:Ectx; [|done]. intros [= <-].
    apply (coherent_leave limits (MkSystem c loads running)); [done|done|unfold awaited; by rewrite Eat|]. by left.
  - destruct (bc_heap c !! f) as [fl|] eqn:Ef; [|done]. destruct (cf_done fl) eqn:Ed; [|done]. intros [= <-].
    apply (coherent_leave limits (MkSystem c loads running)); [done|done|unfold awaited; by rewrite Eat|].
    specialize (Hl fl eq_refl Ed). destruct (cf_err fl) as [e|]; simpl.
    + right. right. right. destruct Hl as (rq & d & loaded & v0 & w & H). exists rq, d, loaded, v0, w. intuition.
    + by apply flight_result_value.
Qed.

(** What the end of a flight stores. *)
Lemma complete_store limits c loads (rq : request V) d f loaded v w err :
  limits_typed limits → bc_limits c = limits → linked c → within_limits c →
  (∀ p, p ∈ bc_lru c → authentic loads (ce_key p.2) (ce_value p.2)) →
  issued loads rq → rq_decoder rq = Some d → request_typed rq →
  execute (rq_key rq) (rq_expectedLength rq) (rq_maximumDecodedWeight rq) loaded d = (v, w, err) →
  linked (complete c (rq_key rq) f v w err) ∧ within_limits (complete c (rq_key rq) f v w err)
  ∧ ∀ p, p ∈ bc_lru (complete c (rq_key rq) f v w err) → authentic loads (ce_key p.2) (ce_value p.2).
Proof.
  intros (He & Hb & Hm & _ & _) El Hl Hw Hca Hiss Hd Hty Hex. unfold complete.
  set (c1 := signalCapacityChanged _).
  assert (H1 : store_like c c1) by (unfold c1; destruct (owns_flight _ _ _); by split_and!).
  assert (Hlk1 : linked c1) by by eapply linked_like.
  assert (Hwi1 : within_limits c1) by by eapply within_like.
  destruct H1 as (El1 & _ & _ & Hp1 & _). rewrite <-Hp1 in Hca || setoid_rewrite <-Hp1 in Hca.
  clearbody c1.
  assert (Hset : ∀ c2, linked c2 → within_limits c2 → (∀ p, p ∈ bc_lru c2 → authentic loads (ce_key p.2) (ce_value p.2)) →
    ∀ heap, let c3 := set_heap (bc_capacityChanged c2) heap (bc_next c2) c2 in
    linked c3 ∧ within_limits c3 ∧ ∀ p, p ∈ bc_lru c3 → authentic loads (ce_key p.2) (ce_value p.2)).
  { intros c2 [] ?? heap. split_and!; [|done|done]. by constructor. }
  destruct (negb _ && _) eqn:E1; [|by apply Hset].
  destruct (_ || _ || _) eqn:E2; [apply Hset; [|done|done]; by destruct Hlk1|].
  assert (err = None) as ->.
  { destruct err; [|done]. by rewrite bool_decide_true in E1 by eauto. }
  pose proof (execute_weight _ _ _ _ _ _ Hex) as Hw0.
  rewrite El1, El in E2. pose proof Hwi1 as [_ Hby]. rewrite El1, El in Hby.
  destruct (admit_entry_spec c1 (MkCacheEntry (rq_key rq) v w)) as (Hl2 & Hw2 & _ & (Hpre & _) & _);
    rewrite ?El1, ?El; simpl; try done; try lia.
  apply Hset; [done|done|]. intros p Hp.
  destruct (linked_place c1 (MkCacheEntry (rq_key rq) v w)) as (_ & _ & _ & _ & Hsub & _); simpl; try done; [lia|].
  destruct (Hsub p) as [?| ->]; [|by apply Hca|by eapply execute_authentic].
  destruct Hpre as [k ->]. apply elem_of_app. by left.
Qed.

(** A flight ends. *)
Lemma finish_coherent limits s s' f loaded :
  limits_typed limits → coherent limits s → perform (Finish f loaded) s = Some s' → coherent limits s'.
Proof.
  intros Hlim Hs. pose proof Hs as []. destruct s as [c loads running]. simpl in *.
  destruct (running !! f) as [rq|] eqn:Hf; [|done]. simpl.
  destruct (rq_decoder rq) as [d|] eqn:Hd; [|done]. simpl.
  destruct (execute _ _ _ loaded d) as [[v w] err] eqn:Eex. intros [= <-].
  destruct (fs_running _ _ _ ch_flights0 _ _ Hf) as [fl Hfl].
  pose proof (fs_reserved _ _ _ ch_flights0 _ _ _ Hf Hfl) as Hres.
  destruct (fs_issued _ _ _ ch_flights0 _ _ Hf) as [_ Hiss].
  destruct (complete_view c (rq_key rq) f v w err fl Hfl) as (El & Ef & Eh & Ew & _ & _ & _ & _ & Ec & _).
  destruct (flights_ok_complete c loads running f rq v w err ch_flights0 Hf) as [Hf' Hat'].
  pose proof (usage_ok_complete c running f rq fl v w err ch_usage0) as Hu.
  rewrite ch_limits0 in Hu. specialize (Hu Hlim Hf Hfl Hres).
  destruct (complete_store limits c loads rq d f loaded v w err) as (Hlk & Hwi & Hca); try done.
  { apply (ch_typed0 _ Hiss). }
  revert El Ef Eh Ew Ec Hf' Hat' Hu Hlk Hwi Hca. generalize (complete c (rq_key rq) f v w err).
  intros c' El Ef Eh Ew Ec Hf' Hat' Hu Hlk Hwi Hca.
  constructor; simpl; try done.
  - congruence.
  - by apply Hat'.
  - intros i l Hi. apply (load_ok_mono c _ loads _ running); [eauto|by intros ??|done|lia|intros; lia|].
    intros g fl' Hg. rewrite Eh, lookup_alter_Some.
    intros [(<- & fl0 & Hfl0 & ->)|[Hne Hfl0]] Hdone; [right|left; by exists fl'].
    exists rq, d, loaded, v, w. simpl.
    pose proof (proj2 (fs_awaited _ _ _ ch_flights0 _ _ _ Hi Hg) rq Hf) as Hk. rewrite <-Hk. done.
Qed.

(** A snapshot is evicted: what cancelling flights leaves alone. *)
Definition outcomes_kept (c c' : ByteCache V) : Prop := ∀ f fl',
  bc_heap c' !! f = Some fl' → cf_done fl' = true →
  ∃ fl, bc_heap c !! f = Some fl ∧ cf_done fl = true ∧ cf_value fl = cf_value fl' ∧ cf_err fl = cf_err fl'.

Record cancel_like (c c' : ByteCache V) : Prop := {
  cn_store : store_like c c';
  cn_usage : bc_flightEntries c' = bc_flightEntries c ∧ bc_flightBytes c' = bc_flightBytes c
    ∧ bc_peakFlightEntries c' = bc_peakFlightEntries c ∧ bc_peakFlightBytes c' = bc_peakFlightBytes c;
  cn_capacity : bc_capacityChanged c' = bc_capacityChanged c;
  cn_outcomes : outcomes_kept c c'
}.

#[export] Instance cancel_like_preorder : PreOrder cancel_like.
Proof.
  split.
  - intros c. constructor; [done|done|done|]. intros f fl Hf Hd. by exists fl.
  - intros a b c [(?&?&?&Hp1&?) (?&?&?&?) ? Ho1] [(?&?&?&Hp2&?) (?&?&?&?) ? Ho2].
    constructor; [split_and!; [congruence|congruence|congruence|by rewrite Hp2|lia]|split_and!; congruence|congruence|].
    intros f fl Hf Hd. destruct (Ho2 f fl Hf Hd) as (fl2 & Hf2 & Hd2 & <- & <-). by apply Ho1.
Qed.

Lemma cancel_at_like k f (c : ByteCache V) : cancel_like c (cancel_at k f c).
Proof.
  constructor; [by split_and!|done|done|]. intros g fl'. simpl. rewrite lookup_alter_Some.
  intros [(<- & fl & Hfl & ->)|[Hne Hfl]] Hd; simpl in *; eauto 10.
Qed.

Lemma evict_flights_ok snapshot (l : list (CacheKey * nat)) (c : ByteCache V) loads running :
  flights_ok c loads running → attended None c running → NoDup l.*1 →
  (∀ kv, kv ∈ l → bc_flights c !! kv.1 = Some kv.2) →
  let c' := foldl (evict_flight snapshot) c l in
  flights_ok c' loads running ∧ attended None c' running ∧ cancel_like c c'.
Proof.
  revert c. induction l as [|[k f] l IH]; intros c Hf Ha Hnd Hin; simpl; [done|].
  apply NoDup_cons in Hnd as [Hni Hnd].
  assert (Hk : bc_flights c !! k = Some f) by (apply (Hin (k, f)); by left).
  unfold evict_flight at 2 4 6. simpl. case_bool_decide.
  - destruct (flights_ok_cancel c loads running k f Hf Hk) as [Hf' Ha'].
    destruct (IH (cancel_at k f c)) as (H1 & H2 & H3); [done|by apply Ha'; left|done| |].
    + intros [k' f'] Hkv. simpl. assert (k' ≠ k).
      { intros ->. apply Hni. by apply (list_elem_of_fmap_2 fst _ (k, f')). }
      rewrite lookup_delete_ne by done. apply (Hin (k', f')). by right.
    + split_and!; [done|done|]. etrans; [apply cancel_at_like|done].
  - apply IH; try done. intros kv Hkv. apply Hin. by right.
Qed.

Lemma evict_coherent limits s snapshot : limits_typed limits →
  coherent limits s → coherent limits (MkSystem (EvictSnapshot (sy_cache s) snapshot) (sy_loads s) (sy_running s)).
Proof.
  intros (_ & Hb0 & Hb & _) []. destruct s as [c loads running]. simpl in *. unfold EvictSnapshot.
  assert (Hby : bc_bytes c ≤ max_uint64) by (destruct ch_within0; subst; lia).
  destruct (evict_entries_linked snapshot (map_to_list (bc_entries c)) c ch_linked0 Hby)
    as (Hl & Hsame & Hle & Hent & Hsub).
  { apply NoDup_fst_map_to_list. }
  { intros [k el]. by rewrite elem_of_map_to_list. }
  revert Hl Hsame Hle Hent Hsub. generalize (foldl (evict_entry snapshot) c (map_to_list (bc_entries c))).
  intros c1 Hl Hsame Hle Hent Hsub.
  destruct (evict_flights_ok snapshot (map_to_list (bc_flights c1)) c1 loads running) as (Hf & Ha & [Hst (E1&E2&E3&E4) Ec Ho]).
  { by eapply flights_ok_same. } { by eapply attended_same. } { apply NoDup_fst_map_to_list. }
  { intros [k f]. by rewrite elem_of_map_to_list. }
  revert Hf Ha Hst E1 E2 E3 E4 Ec Ho. generalize (foldl (evict_flight snapshot) c1 (map_to_list (bc_flights c1))).
  intros c2 Hf Ha Hst E1 E2 E3 E4 Ec Ho.
  pose proof Hsame as (El1 & _ & Eh1 & _ & D1 & D2 & D3 & D4 & Ec1 & _). pose proof Hst as (El2 & _ & _ & Hp2 & _).
  constructor; simpl; try done.
  - congruence.
  - by eapply linked_like.
  - eapply within_like; [|done]. destruct ch_within0. split; rewrite El1; [|lia].
    assert (size (bc_entries c1) ≤ size (bc_entries c))%nat; [|lia].
    apply (evict_entries_size _ _ ch_linked0 Hl). intros k el [? _]%Hent. done.
  - intros p. rewrite Hp2. eauto.
  - eapply usage_ok_same; [done|congruence..].
  - intros i l Hi. apply (load_ok_mono c _ loads _ running); [eauto|by intros ??|congruence|lia|by auto|].
    intros f fl' _ Hfl Hd. left. rewrite <-Eh1. by apply Ho.
Qed.

Lemma evict_capacity (c : ByteCache V) snapshot :
  bc_capacityChanged (EvictSnapshot c snapshot) = bc_capacityChanged c.
Proof.
  unfold EvictSnapshot.
  assert (H1 : ∀ (l : list (CacheKey * nat)) (c : ByteCache V), bc_capacityChanged (foldl (evict_entry snapshot) c l) = bc_capacityChanged c).
  { intros l. induction l as [|kv l IH]; intros c1; simpl; [done|]. rewrite IH. unfold evict_entry. by case_bool_decide. }
  assert (H2 : ∀ (l : list (CacheKey * nat)) (c : ByteCache V), bc_capacityChanged (foldl (evict_flight snapshot) c l) = bc_capacityChanged c).
  { intros l. induction l as [|kv l IH]; intros c1; simpl; [done|]. rewrite IH. unfold evict_flight. by case_bool_decide. }
  by rewrite H2, H1.
Qed.

(** ** The invariant holds in every reachable state *)

Definition effective (limits : CacheLimits) : CacheLimits := bc_limits (NewByteCache (V:=V) limits).

Lemma coherent_start limits : limits_typed (effective limits) → coherent (effective limits) (start (V:=V) limits).
Proof.
  intros (? & ? & ? & [? ?] & [? ?]). constructor; simpl; try done.
  - constructor; simpl; [by rewrite map_to_list_empty|apply NoDup_nil_2|intros p []%elem_of_nil..|done].
  - intros p []%elem_of_nil.
  - intros rq (i & l & Hi & _). done.
Qed.

Lemma perform_coherent limits a s s' :
  limits_typed limits → coherent limits s → action_typed a s → perform a s = Some s' → coherent limits s'.
Proof.
  intros Hlim Hs Ha Hp. destruct a as [i rq ctx|i e|snapshot|i b|f loaded].
  - simpl in *. destruct (sy_loads s !! i) as [l|] eqn:Hi; [done|]. injection Hp as <-.
    apply coherent_idle; try done; rewrite ?Hi; simpl.
    + destruct Ha. by destruct (load_contract _ _ _ _ _ _).
    + cbv zeta. intros _. unfold load_ok. simpl.
      destruct (load_contract _ _ _ _ _ _) as [r|e] eqn:E; simpl.
      * apply load_contract_ok in E. done.
      * apply load_contract_fail in E as [?|?]; [by left|by right; left].
  - simpl in *. destruct (sy_loads s !! i) as [l|] eqn:Hi; [|done]. simpl in Hp. injection Hp as <-.
    apply coherent_idle; try done; [by rewrite Hi|]. cbv zeta. intros Hk.
    pose proof (ch_loads _ _ Hs i l Hi) as Hl. unfold load_ok in *. simpl.
    destruct (ld_at l) as [m|m|ch|f|[v|err]]; try done.
    + intros fl Hfl Hd. eapply flight_result_mono; eauto.
    + by eapply authentic_mono.
    + destruct Hl as [Hctx|[?|[?|?]]]; [left; simpl; by rewrite Hctx|by right; left|by right; right; left|].
      right. right. right. by eapply flight_result_mono.
  - injection Hp as <-. by apply evict_coherent.
  - by eapply proceed_coherent.
  - by eapply finish_coherent.
Qed.

End preservation.
