(* ===== verification/CacheSafety.v ===== *)
(** * What concurrent users of the byte cache may rely on

    The theorems about [CacheRuns]: the limits, the authenticity of what is
    served, single flights, eviction, and that every call of Load returns. *)

From S2P Require Import Prelude.
From S2P Require Import GoString.
From S2P Require Import GoSha256.
From S2P Require Import ByteCache.
From S2P Require Import CacheRuns.

Section theorems.
Context {V : Type}.
Implicit Types (s : system V) (l : load V).

Lemma reachable_coherent limits s :
  limits_typed (effective (V:=V) limits) → reachable limits s → coherent (effective (V:=V) limits) s.
Proof.
  intros Hlim. induction 1; [by apply coherent_start|]. by eapply perform_coherent.
Qed.

(** ** A measure that every step of a call or flight decreases *)

(** Not yet on a flight. *)
Definition undecided l : Z :=
  match ld_at l with
  | Checking _ | Locking _ | AwaitingCapacity _ => 1
  | AwaitingFlight _ | Finished _ => 0
  end.

(** The steps a call can take before some flight starts or ends. *)
Definition steps_left (capacityChanged : nat) l : Z :=
  match ld_at l with
  | AwaitingCapacity changed => if bool_decide (changed = capacityChanged) then 1 else 4
  | Checking _ => 3
  | Locking _ => 2
  | AwaitingFlight _ => 1
  | Finished _ => 0
  end.

Definition remaining s : Z :=
  let n := Z.of_nat (size (sy_loads s)) in
  total undecided (sy_loads s) * (4 * n + 6) + Z.of_nat (size (sy_running s)) * (4 * n + 1)
  + total (steps_left (bc_capacityChanged (sy_cache s))) (sy_loads s).

Definition internal (a : action V) : bool :=
  match a with
  | Proceed _ _ | Finish _ _ => true
  | _ => false
  end.

Definition arrival (a : action V) : bool :=
  match a with Arrive _ _ _ => true | _ => false end.

Lemma steps_left_range cap l : 0 ≤ steps_left cap l ≤ 4.
Proof. unfold steps_left. destruct (ld_at l); try lia. case_bool_decide; lia. Qed.

Lemma undecided_range l : 0 ≤ undecided l ≤ 1.
Proof. unfold undecided. destruct (ld_at l); lia. Qed.

Lemma steps_left_bound cap (loads : gmap nat (load V)) :
  0 ≤ total (steps_left cap) loads ≤ 4 * Z.of_nat (size loads).
Proof.
  split; [apply total_nonneg; intros; apply steps_left_range|].
  rewrite <-total_size. unfold total. induction (map_to_list loads) as [|[i l] k IH]; simpl; [lia|].
  pose proof (steps_left_range cap l). lia.
Qed.

Lemma remaining_nonneg s : 0 ≤ remaining s.
Proof.
  unfold remaining. pose proof (steps_left_bound (bc_capacityChanged (sy_cache s)) (sy_loads s)).
  assert (0 ≤ total undecided (sy_loads s)) by (apply total_nonneg; intros; apply undecided_range). nia.
Qed.

(** A step of a call keeps the channel, and its new position is smaller or it
    has decided for a flight or a result. *)
Lemma proceed_progress b (c : ByteCache V) l c' at_ started : proceed b c l = Some (c', at_, started) →
  let l' := MkLoad (ld_request l) (ld_context l) at_ in
  bc_capacityChanged c' = bc_capacityChanged c
  ∧ (undecided l' < undecided l
     ∨ undecided l' = undecided l ∧ started = false
       ∧ steps_left (bc_capacityChanged c) l' < steps_left (bc_capacityChanged c) l).
Proof.
  assert (Hrel : ∀ k f, bc_capacityChanged (releaseWaiter c k f) = bc_capacityChanged c).
  { intros. unfold releaseWaiter. by destruct (_ && _). }
  unfold proceed, undecided, steps_left. destruct l as [rq ctx pos]. simpl.
  destruct pos as [m|m|ch|f|r], b; try done.
  - destruct ctx; intros [= <- <- <-]; simpl; (split; [done|]); [left|right]; lia.
  - unfold load_attempt. destruct (bc_entries c !! rq_key rq); [intros [= <- <- <-]; simpl; split; [done|left; lia]|].
    destruct m; simpl; (destruct (bc_flights c !! rq_key rq); [intros [= <- <- <-]; simpl; split; [done|left; lia]|]);
      (destruct (_ || _ || _); [intros [= <- <- <-]; simpl; split; [done|left; lia]|]);
      (destruct ((_ <=? _) || _); intros [= <- <- <-]; simpl; (split; [done|]);
        [right; rewrite bool_decide_true by done|left]; lia).
  - destruct ctx; intros [= <- <- <-]; simpl. split; [done|left; lia].
  - case_bool_decide; intros [= <- <- <-]; simpl. split; [done|right; lia].
  - destruct ctx; intros [= <- <- <-]; simpl. split; [apply Hrel|right; lia].
  - destruct (bc_heap c !! f) as [fl|]; [|done]. destruct (cf_done fl); intros [= <- <- <-]; simpl.
    split; [apply Hrel|right; lia].
Qed.

Lemma internal_decreases limits s a s' :
  coherent limits s → internal a = true → perform a s = Some s' → remaining s' < remaining s.
Proof.
  intros Hs Ha. destruct a as [| | |i b|f loaded]; try done; clear Ha; simpl.
  - destruct (sy_loads s !! i) as [l|] eqn:Hi; [|done]. simpl.
    destruct (proceed b (sy_cache s) l) as [[[c' at_] started]|] eqn:Hp; [|done]. intros [= <-].
    apply proceed_progress in Hp as [Hcap Hp]. unfold remaining. simpl. unfold set_load.
    rewrite map_size_insert_Some by eauto. rewrite Hcap.
    rewrite !(total_insert _ _ _ l) by done.
    set (l' := MkLoad _ _ _) in *. pose proof (steps_left_range (bc_capacityChanged (sy_cache s)) l').
    pose proof (steps_left_range (bc_capacityChanged (sy_cache s)) l).
    assert (size (sy_loads s) ≠ 0%nat) by (intros E; apply map_size_empty_inv in E; by rewrite E in Hi).
    pose proof (undecided_range l). pose proof (undecided_range l').
    destruct Hp as [?|(Eu & -> & ?)]; [|rewrite Eu; lia].
    assert (undecided l = 1 ∧ undecided l' = 0) as [-> ->] by lia.
    assert (∃ k, 0 ≤ k ≤ 1 ∧ Z.of_nat (size (if started then <[bc_next (sy_cache s):=ld_request l]> (sy_running s) else sy_running s))
      = Z.of_nat (size (sy_running s)) + k) as (k & Hk & ->).
    { destruct started; [|exists 0; lia]. rewrite map_size_insert.
      destruct (sy_running s !! _); simpl; [exists 0|exists 1]; lia. }
    assert (k = 0 ∨ k = 1) as [->| ->] by lia; lia.
  - destruct (sy_running s !! f) as [rq|] eqn:Hf; [|done]. simpl. destruct (rq_decoder rq) as [d|]; [|done]. simpl.
    destruct (execute _ _ _ _ _) as [[v w] err]. intros [= <-].
    generalize (complete (sy_cache s) (rq_key rq) f v w err). intros c'. unfold remaining. simpl.
    rewrite map_size_delete_Some by eauto.
    assert (size (sy_running s) ≠ 0%nat) by (intros E; apply map_size_empty_inv in E; by rewrite E in Hf).
    pose proof (steps_left_bound (bc_capacityChanged c') (sy_loads s)).
    pose proof (steps_left_bound (bc_capacityChanged (sy_cache s)) (sy_loads s)).
    assert (∃ r, Z.of_nat (size (sy_running s)) = r + 1 ∧ Z.of_nat (pred (size (sy_running s))) = r) as (r & -> & ->).
    { exists (Z.of_nat (size (sy_running s)) - 1). lia. }
    lia.
Qed.

(** ** Progress *)

(** Some step is possible as long as a call has not returned. *)
Lemma progress limits s i l : coherent limits s → sy_loads s !! i = Some l → (∀ r, ld_at l ≠ Finished r) →
  ∃ a s', internal a = true ∧ perform a s = Some s'.
Proof.
  intros Hs Hi Hl. pose proof (ch_flights _ _ Hs) as Hflights. pose proof (ch_loads _ _ Hs) as Hloads.
  destruct s as [c loads running]. simpl in *.
  assert (Hgo : ∀ a, internal a = true → is_Some (perform a (MkSystem c loads running)) →
    ∃ a s', internal a = true ∧ perform a (MkSystem c loads running) = Some s') by (intros a Ha [s' Hs']; eauto).
  assert (Hrun : running ≠ ∅ → ∃ a s', internal a = true ∧ perform a (MkSystem c loads running) = Some s').
  { intros Hne. apply map_choose in Hne as (f & rq & Hf).
    destruct (fs_issued _ _ _ Hflights _ _ Hf) as [[d Hd] _].
    apply (Hgo (Finish f (Panicked ""))); [done|]. simpl. rewrite Hf. simpl. rewrite Hd. simpl. eauto. }
  assert (Hstep : is_Some (proceed false c l) → ∃ a s', internal a = true ∧ perform a (MkSystem c loads running) = Some s').
  { intros [[[c' at_] st] Hp]. apply (Hgo (Proceed i false)); [done|]. simpl. rewrite Hi. simpl. rewrite Hp. simpl. eauto. }
  pose proof (Hloads i l Hi) as Hok. unfold load_ok in Hok. unfold proceed in Hstep.
  destruct (ld_at l) as [m|m|ch|f|r] eqn:Eat; [| | | |by destruct (Hl r)].
  - apply Hstep. by destruct (ld_context l).
  - apply Hstep. by destruct (load_attempt _ _ _ _) as [c' []].
  - destruct (decide (ch = bc_capacityChanged c)) as [E|E]; [by apply Hrun, Hok|].
    apply Hstep. by rewrite bool_decide_false.
  - destruct (fs_awaited _ _ _ Hflights i l f Hi) as [[fl Hfl] _]; [unfold awaited; by rewrite Eat|].
    rewrite Hfl in Hstep. destruct (cf_done fl) eqn:Ed; [by apply Hstep|].
    apply Hrun. intros ->. destruct (fs_heap _ _ _ Hflights f fl Hfl) as [_ Hr _].
    destruct (proj1 Hr Ed) as [rq Hrq]. done.
Qed.

(** Cancelling a context or evicting a snapshot leaves the measure. *)
Lemma environment_keeps limits s a s' : limits_typed limits → coherent limits s →
  internal a = false → arrival a = false → perform a s = Some s' → remaining s' = remaining s.
Proof.
  intros Hlim Hs Ha Hb. destruct a as [|i e|snapshot| |]; try done; clear Ha Hb; simpl.
  - destruct (sy_loads s !! i) as [l|] eqn:Hi; [|done]. intros [= <-]. unfold remaining. simpl.
    rewrite map_size_insert_Some by eauto. rewrite !(total_insert _ _ _ l) by done.
    set (l' := MkLoad _ _ _).
    assert (undecided l' = undecided l) as -> by done.
    assert (steps_left (bc_capacityChanged (sy_cache s)) l' = steps_left (bc_capacityChanged (sy_cache s)) l) as -> by done.
    rewrite !Z.sub_add. done.
  - intros [= <-]. unfold remaining. simpl. by rewrite evict_capacity.
Qed.

(** The states after an execution without new calls. *)
Lemma run_coherent limits actions s s' : limits_typed limits → coherent limits s →
  Forall (λ a, arrival a = false) actions → run actions s = Some s' →
  coherent limits s' ∧ Z.of_nat (length (filter (λ a, internal a = true) actions)) ≤ remaining s - remaining s'.
Proof.
  intros Hlim Hs Ha. revert s Hs. induction Ha as [|a actions Ha _ IH]; intros s Hs; simpl.
  { intros [= <-]. split; [done|]. simpl. lia. }
  destruct (perform a s) as [s1|] eqn:Hp; [|done]. simpl. intros Hr.
  assert (H1 : coherent limits s1) by (eapply perform_coherent; eauto; by destruct a).
  destruct (IH s1 H1 Hr) as [H2 H3]. split; [done|]. rewrite filter_cons.
  destruct (internal a) eqn:Ei.
  - rewrite decide_True by done. pose proof (internal_decreases _ _ _ _ Hs Ei Hp). simpl. lia.
  - rewrite decide_False by done. pose proof (environment_keeps _ _ _ _ Hlim Hs Ei Ha Hp). lia.
Qed.

Definition returned l : bool := match ld_at l with Finished _ => true | _ => false end.

(** ** Cancelled flights stay cancelled, and store nothing *)

Definition cancelled (f : nat) (c : ByteCache V) : Prop :=
  ∃ fl, bc_heap c !! f = Some fl ∧ cf_cancelled fl = true.

Lemma cancelled_alter f g (c c' : ByteCache V) (h : cacheFlight V → cacheFlight V) :
  bc_heap c' = alter h g (bc_heap c) → (∀ fl, cf_cancelled fl = true → cf_cancelled (h fl) = true) →
  cancelled f c → cancelled f c'.
Proof.
  intros Eh Hh (fl & Hfl & Hc). unfold cancelled. rewrite Eh. destruct (decide (g = f)) as [->|].
  - exists (h fl). rewrite lookup_alter_eq, Hfl. auto.
  - exists fl. by rewrite lookup_alter_ne.
Qed.

Lemma cancelled_releaseWaiter f (c : ByteCache V) key g : cancelled f c → cancelled f (releaseWaiter c key g).
Proof.
  intros Hc. unfold releaseWaiter.
  assert (H1 : cancelled f (drop_waiter g c)) by by eapply cancelled_alter.
  destruct (_ && _); [|done]. by eapply cancelled_alter.
Qed.

Lemma cancelled_load_attempt f (c : ByteCache V) key r m : bc_heap c !! bc_next c = None →
  cancelled f c → cancelled f (load_attempt c key r m).1.
Proof.
  intros Hn Hc. unfold load_attempt. destruct (bc_entries c !! key); [done|].
  set (c1 := if m then c else _).
  assert (H1 : cancelled f c1 ∧ bc_heap c1 !! bc_next c1 = None) by (unfold c1; by destruct m).
  destruct H1 as [H1 Hn1]. clearbody c1. destruct (bc_flights c1 !! key) as [g|].
  - by eapply cancelled_alter.
  - destruct (_ || _ || _); [done|]. destruct (_ || _); [done|].
    eapply (cancelled_alter f (bc_next c1) (start_flight key r c1)); [done|done|].
    destruct H1 as (fl & Hfl & Hd). exists fl. simpl. rewrite lookup_insert_ne by congruence. done.
Qed.

Lemma cancelled_perform limits a s s' f : coherent limits s → perform a s = Some s' →
  cancelled f (sy_cache s) → cancelled f (sy_cache s').
Proof.
  intros Hs. destruct a as [i rq ctx|i e|snapshot|i b|g loaded]; simpl.
  - destruct (sy_loads s !! i); [done|]. by intros [= <-].
  - destruct (sy_loads s !! i); [|done]. by intros [= <-].
  - intros [= <-] Hc. simpl. unfold EvictSnapshot.
    assert (H1 : ∀ (l : list (CacheKey * nat)) (c : ByteCache V), bc_heap (foldl (evict_entry snapshot) c l) = bc_heap c).
    { intros l. induction l as [|kv l IH]; intros c; simpl; [done|]. rewrite IH. unfold evict_entry. by case_bool_decide. }
    set (c1 := foldl (evict_entry snapshot) _ _).
    assert (Hc1 : cancelled f c1) by (unfold cancelled, c1; rewrite H1; done).
    generalize (map_to_list (bc_flights c1)). clearbody c1. intros l. revert c1 Hc1.
    induction l as [|kv l IH]; intros c1 Hc1; simpl; [done|]. apply IH. unfold evict_flight.
    case_bool_decide; [|done]. by eapply cancelled_alter.
  - destruct (sy_loads s !! i) as [l|]; [|done]. simpl.
    destruct (proceed b (sy_cache s) l) as [[[c' at_] st]|] eqn:Ep; [|done]. intros [= <-] Hc. simpl.
    assert (Hn : bc_heap (sy_cache s) !! bc_next (sy_cache s) = None).
    { apply eq_None_not_Some. intros [fl Hfl]. destruct (fs_heap _ _ _ (ch_flights _ _ Hs) _ _ Hfl). lia. }
    pose proof (λ m, cancelled_load_attempt f (sy_cache s) (rq_key (ld_request l)) (rq_reservation (ld_request l)) m Hn Hc) as Hla.
    pose proof (λ g, cancelled_releaseWaiter f (sy_cache s) (rq_key (ld_request l)) g Hc) as Hrw.
    unfold proceed in Ep. destruct (ld_at l) as [m|m|ch|g|r], b; try done.
    + by destruct (ld_context l); injection Ep as <- _ _.
    + specialize (Hla m). destruct (load_attempt _ _ _ _) as [c1 []]; by injection Ep as <- _ _.
    + by destruct (ld_context l); [injection Ep as <- _ _|].
    + by case_bool_decide; [|injection Ep as <- _ _].
    + by destruct (ld_context l); [injection Ep as <- _ _|].
    + destruct (bc_heap _ !! g) as [fl|]; [|done]. by destruct (cf_done fl); [injection Ep as <- _ _|].
  - destruct (sy_running s !! g) as [rq|] eqn:Hg; [|done]. simpl. destruct (rq_decoder rq) as [d|]; [|done]. simpl.
    destruct (execute _ _ _ _ _) as [[v w] err]. intros [= <-] (fl & Hfl & Hd).
    destruct (fs_running _ _ _ (ch_flights _ _ Hs) _ _ Hg) as [flg Hflg].
    destruct (complete_view (sy_cache s) (rq_key rq) g v w err flg Hflg) as (_ & _ & Eh & _).
    unfold cancelled. change (sy_cache _) with (complete (sy_cache s) (rq_key rq) g v w err). rewrite Eh.
    destruct (decide (g = f)) as [->|]; [|exists fl; by rewrite lookup_alter_ne].
    eexists. rewrite lookup_alter_eq, Hfl. done.
Qed.

(** A cancelled flight ends without touching the store. *)
Lemma cancelled_finish limits s f rq fl v w err : coherent limits s →
  sy_running s !! f = Some rq → bc_heap (sy_cache s) !! f = Some fl → cf_cancelled fl = true →
  bc_lru (complete (sy_cache s) (rq_key rq) f v w err) = bc_lru (sy_cache s).
Proof.
  intros Hs Hf Hfl Hc. unfold complete.
  assert (owns_flight (sy_cache s) (rq_key rq) f = false) as ->; [|by rewrite andb_false_r].
  apply bool_decide_eq_false. rewrite (fs_owner _ _ _ (ch_flights _ _ Hs) _ _ _ Hf Hfl). congruence.
Qed.

(** The entries of the other keys, most recently used first. *)
Definition others (key : CacheKey) (l : list (nat * cacheEntry V)) : list (nat * cacheEntry V) :=
  filter (λ p, ce_key p.2 ≠ key) l.

Lemma filter_ext_in {A} (P Q : A → Prop) `{∀ x, Decision (P x), ∀ x, Decision (Q x)} (l : list A) :
  (∀ x, x ∈ l → P x ↔ Q x) → filter P l = filter Q l.
Proof.
  induction l as [|x l IH]; intros Hl; [done|]. rewrite !filter_cons, IH by (intros y Hy; apply Hl; by right).
  destruct (Hl x ltac:(by left)). repeat case_decide; tauto || done.
Qed.

Lemma place_lru (entry : cacheEntry V) (c : ByteCache V) : linked c →
  ∃ el, bc_lru (place entry c) = (el, entry) :: others (ce_key entry) (bc_lru c).
Proof.
  intros Hl. unfold place, others. destruct (bc_entries c !! ce_key entry) as [el|] eqn:E; simpl.
  - exists el. f_equal. unfold lru_remove. apply filter_ext_in. intros [el' e] Hin. simpl. split; intros Hne Heq; apply Hne.
    + assert (bc_entries c !! ce_key e = Some el') by (apply linked_entry; eauto). congruence.
    + subst el'. apply linked_entry in E as (e' & Hin' & <-); [|done].
      pose proof (lru_value_elem el e _ (ln_ids _ Hl) Hin) as H1. pose proof (lru_value_elem el e' _ (ln_ids _ Hl) Hin') as H2. congruence.
  - exists (bc_next c). f_equal. symmetry. rewrite (filter_ext_in _ (λ _, True)).
    { generalize (bc_lru c). intros l. induction l as [|p l IH]; [done|]. rewrite filter_cons, decide_True by done. by f_equal. }
    intros [el e] Hin. split; [done|]. intros _ Heq. simpl in Heq.
    assert (bc_entries c !! ce_key entry = Some el) by (apply linked_entry; eauto). congruence.
Qed.

Lemma load_attempt_hit (c : ByteCache V) el e reservation missRecorded : linked c → (el, e) ∈ bc_lru c →
  (load_attempt c (ce_key e) reservation missRecorded).2 = Hit (ce_value e).
Proof.
  intros Hl Hin. unfold load_attempt.
  assert (bc_entries c !! ce_key e = Some el) as -> by (apply linked_entry; eauto).
  rewrite (lru_value_elem el e); [done|apply Hl|done].
Qed.

(** What [complete] does to the store. *)
Lemma complete_admits limits s (rq : request V) f fl v w :
  limits_typed (effective (V:=V) limits) → coherent (effective (V:=V) limits) s →
  bc_heap (sy_cache s) !! f = Some fl → 0 ≤ w →
  let c := sy_cache s in
  let c' := complete (sy_cache s) (rq_key rq) f v w None in
  let entry := MkCacheEntry (rq_key rq) v w in
  if owns_flight c (rq_key rq) f && (w <=? cl_Bytes limits) && (1 <=? cl_Entries limits) && (1 <=? cl_Bytes limits)
  then ∃ el, head (bc_lru c') = Some (el, entry)
    ∧ longest_fitting (effective (V:=V) limits) ((el, entry) :: others (rq_key rq) (bc_lru c)) (bc_lru c')
    ∧ ∀ reservation missRecorded, (load_attempt c' (rq_key rq) reservation missRecorded).2 = Hit v
  else bc_lru c' = bc_lru c ∧ bc_entries c' = bc_entries c.
Proof.
  intros (He & Hb & Hm & _) Hs Hfl Hw. pose proof (ch_linked _ _ Hs) as Hl. pose proof (ch_within _ _ Hs) as Hwi.
  pose proof (ch_limits _ _ Hs) as El. destruct s as [c loads running]. simpl in *. unfold complete. cbv zeta.
  set (c1 := signalCapacityChanged _).
  assert (H1 : store_like c c1 ∧ bc_lru c1 = bc_lru c) by (unfold c1; destruct (owns_flight _ _ _); (split; [by split_and!|done])).
  destruct H1 as [Hst Hlru]. assert (Hl1 : linked c1) by by eapply linked_like.
  assert (Hwi1 : within_limits c1) by by eapply within_like.
  destruct Hst as (El1 & Ee1 & _). clearbody c1. rewrite El1, El.
  rewrite (bool_decide_false (is_Some None)) by (by intros []). 
  destruct (owns_flight c (rq_key rq) f); simpl; [|done]. rewrite ?El1, ?El.
  change (cl_Bytes (effective (V:=V) limits)) with (cl_Bytes limits).
  change (cl_Entries (effective (V:=V) limits)) with (cl_Entries limits).
  destruct (w <=? cl_Bytes limits) eqn:E1; simpl.
  2: { rewrite (proj2 (Z.ltb_lt (cl_Bytes limits) w)) by lia. done. }
  rewrite (proj2 (Z.ltb_ge (cl_Bytes limits) w)) by lia. simpl.
  destruct (1 <=? cl_Entries limits) eqn:E2; simpl.
  2: { rewrite (proj2 (Z.eqb_eq (cl_Entries limits) 0)) by lia. done. }
  rewrite (proj2 (Z.eqb_neq (cl_Entries limits) 0)) by lia. simpl.
  destruct (1 <=? cl_Bytes limits) eqn:E3; simpl.
  2: { rewrite (proj2 (Z.eqb_eq (cl_Bytes limits) 0)) by lia. done. }
  rewrite (proj2 (Z.eqb_neq (cl_Bytes limits) 0)) by lia. simpl.
  set (entry := MkCacheEntry (rq_key rq) v w).
  destruct (admit_entry_spec c1 entry Hl1 Hwi1) as (Hl2 & _ & _ & Hlong & el & Hel & Hhead);
    rewrite ?El1, ?El; simpl; try lia.
  rewrite El1, El in Hlong. destruct (place_lru entry c1 Hl1) as (el' & Hpl). rewrite Hpl, Hlru in Hlong.
  exists el. pose proof Hlong as (Hpre & _ & _).
  assert (el' = el) as ->.
  { destruct (bc_lru (admit_entry entry c1)) as [|p k]; [done|]. injection Hhead as ->.
    destruct Hpre as [t Ht]. by injection Ht as -> _. }
  split_and!; [done|done|]. intros reservation m.
  apply (load_attempt_hit _ el entry); [by destruct Hl2|]. simpl.
  destruct (bc_lru (admit_entry entry c1)) as [|p k]; [done|]. injection Hhead as ->. by left.
Qed.

(** What the second loop of [EvictSnapshot] leaves. *)
Lemma evict_flights_entries snapshot (k : list (CacheKey * nat)) (c : ByteCache V) :
  bc_entries (foldl (evict_flight snapshot) c k) = bc_entries c.
Proof.
  revert c. induction k as [|kv k IH]; intros c; simpl; [done|]. rewrite IH. unfold evict_flight. by case_bool_decide.
Qed.

Lemma evict_flights_flights snapshot (c : ByteCache V) k f :
  bc_flights (foldl (evict_flight snapshot) c (map_to_list (bc_flights c))) !! k = Some f
  ↔ bc_flights c !! k = Some f ∧ ck_SnapshotID k ≠ snapshot.
Proof.
  assert (H : ∀ (l : list (CacheKey * nat)) (c : ByteCache V),
    bc_flights (foldl (evict_flight snapshot) c l) !! k = Some f
    ↔ bc_flights c !! k = Some f ∧ ¬ (k ∈ l.*1 ∧ ck_SnapshotID k = snapshot)).
  { intros l. induction l as [|[k' f'] l IH]; intros c1; simpl.
    { rewrite elem_of_nil. tauto. }
    rewrite IH, elem_of_cons. unfold evict_flight. simpl. case_bool_decide as E; simpl.
    - rewrite lookup_delete_Some. destruct (decide (k' = k)) as [->|]; intuition.
    - destruct (decide (k' = k)) as [->|]; intuition. }
  rewrite H. split; intros [Hk Hn]; (split; [done|]).
  - intros <-. apply Hn. split; [|done]. apply list_elem_of_fmap. exists (k, f). by rewrite elem_of_map_to_list.
  - by intros [_ ?].
Qed.

Lemma cancelled_run limits actions s s' f : limits_typed limits → coherent limits s →
  Forall (λ a, arrival a = false) actions → run actions s = Some s' →
  cancelled f (sy_cache s) → coherent limits s' ∧ cancelled f (sy_cache s').
Proof.
  intros Hlim Hs Ha. revert s Hs. induction Ha as [|a actions Ha _ IH]; intros s Hs; simpl; [by intros [= <-]|].
  destruct (perform a s) as [s1|] eqn:Hp; [|done]. simpl. intros Hr Hc.
  apply (IH s1); [|done|by eapply cancelled_perform]. eapply perform_coherent; eauto. by destruct a.
Qed.

(** ** The theorems *)

(** C20: in every reachable state of any number of concurrent loads the cache
    holds at most the configured entries and bytes, its byte count is the
    weight of what it holds, the running flights stay within their limits and
    are counted exactly, in entries, bytes and peaks, and the waiters reported
    are the calls that wait on a flight: no counter ever wraps. *)
Theorem cache_stays_within_limits limits s :
  limits_typed (effective (V:=V) limits) → reachable limits s →
  let st := Stats (sy_cache s) in
  (cs_Entries st = Z.of_nat (length (bc_lru (sy_cache s))) ∧ cs_Entries st ≤ cl_Entries limits)
  ∧ (cs_Bytes st = lru_weight (bc_lru (sy_cache s)) ∧ 0 ≤ cs_Bytes st ≤ cl_Bytes limits)
  ∧ (cs_InFlightEntries st = Z.of_nat (size (sy_running s))
     ∧ cs_InFlightEntries st ≤ cs_PeakInFlightEntries st ≤ cl_FlightEntries (effective (V:=V) limits))
  ∧ (cs_InFlightBytes st = total rq_reservation (sy_running s)
     ∧ cs_InFlightBytes st ≤ cs_PeakInFlightBytes st ≤ cl_FlightBytes (effective (V:=V) limits))
  ∧ cs_Waiters st = total waits (sy_loads s).
Proof.
  intros Hlim Hs%reachable_coherent; [|done]. destruct Hs as [El Hl [He Hb] _ [U1 U2 _ U3 U4] Hf _ _ _ _]. simpl.
  rewrite El in *. simpl in He, Hb. pose proof (linked_bytes_nonneg _ Hl).
  pose proof (linked_size _ Hl). pose proof (ln_bytes _ Hl). pose proof (fs_waiters _ _ _ Hf).
  split_and!; first [done|lia|apply U3|apply U4].
Qed.

(** C19: whatever a call of Load returned is explained: a value was decoded, by
    the decoder of a call for the same key, from bytes of the announced length
    whose SHA-256 is the key's digest; an error is that of the call's context,
    a broken contract, a reservation no flight can have, or the failure of a
    flight for the same key. *)
Theorem served_values_match_their_digest limits s i l r :
  limits_typed (effective (V:=V) limits) → reachable limits s →
  sy_loads s !! i = Some l → ld_at l = Finished r →
  match r with
  | Ok v => authentic (sy_loads s) (rq_key (ld_request l)) v
  | Fail e =>
      ld_context l = Some e ∨ request_contract (ld_request l) = Fail e
      ∨ too_large (effective (V:=V) limits) (ld_request l) e
      ∨ flight_result (sy_loads s) (rq_key (ld_request l)) None (Some e)
  end.
Proof.
  intros Hlim Hs%reachable_coherent Hi Hr; [|done]. pose proof (ch_loads _ _ Hs i l Hi) as Hl.
  unfold load_ok in Hl. rewrite Hr, (ch_limits _ _ Hs) in Hl. by destruct r.
Qed.

(** C18: no call of Load waits for ever.  From any reachable state, whatever
    contexts are cancelled and snapshots evicted meanwhile, the calls and
    flights take at most [remaining s] steps, and as long as one call has not
    returned some call or flight can take a step: no wake-up is lost, however
    the waiting for capacity and for flights interleaves. *)
Theorem every_load_returns limits s actions s' :
  limits_typed (effective (V:=V) limits) → reachable limits s →
  Forall (λ a, arrival a = false) actions → run actions s = Some s' →
  Z.of_nat (length (filter (λ a, internal a = true) actions)) ≤ remaining s
  ∧ (map_Forall (λ _ l, returned l = true) (sy_loads s')
     ∨ ∃ a s'', internal a = true ∧ perform a s' = Some s'').
Proof.
  intros Hlim Hs%reachable_coherent Ha Hr; [|done].
  destruct (run_coherent _ _ _ _ Hlim Hs Ha Hr) as [Hs' Hn]. pose proof (remaining_nonneg s'). split; [lia|].
  destruct (decide (map_Forall (λ _ l, returned l = true) (sy_loads s'))) as [|Hnot]; [by left|right].
  apply map_not_Forall in Hnot as (i & l & Hi & Hl); [|apply _].
  apply (progress _ s' i l Hs' Hi). intros r E. apply Hl. unfold returned. by rewrite E.
Qed.

(** Single flights: a key has at most one running flight that calls can
    join, it has somebody waiting on it, its count of waiters is exact, and a
    running flight that everybody left or whose snapshot was evicted has been
    cancelled and can no longer be joined. *)
Theorem flights_are_shared_and_attended limits s f rq :
  limits_typed (effective (V:=V) limits) → reachable limits s → sy_running s !! f = Some rq →
  ∃ fl, bc_heap (sy_cache s) !! f = Some fl
    ∧ cf_waiters fl = total (waits_on f) (sy_loads s)
    ∧ (if cf_cancelled fl then bc_flights (sy_cache s) !! rq_key rq ≠ Some f
       else bc_flights (sy_cache s) !! rq_key rq = Some f ∧ 1 ≤ cf_waiters fl
         ∧ ∀ g rq' fl', sy_running s !! g = Some rq' → rq_key rq' = rq_key rq →
             bc_heap (sy_cache s) !! g = Some fl' → cf_cancelled fl' = false → g = f).
Proof.
  intros Hlim Hs%reachable_coherent Hf; [|done]. pose proof (ch_flights _ _ Hs) as Hfl.
  destruct (fs_running _ _ _ Hfl _ _ Hf) as [fl Hh]. exists fl. split; [done|].
  destruct (fs_heap _ _ _ Hfl _ _ Hh) as [_ _ Hw]. split; [done|].
  pose proof (fs_owner _ _ _ Hfl f rq fl Hf Hh) as Ho. destruct (cf_cancelled fl) eqn:Ec.
  - intros H%Ho. congruence.
  - assert (Hown : bc_flights (sy_cache s) !! rq_key rq = Some f) by by apply Ho.
    split_and!; [done|by apply (ch_attended _ _ Hs f rq fl)|].
    intros g rq' fl' Hg Hk Hfl' Hc. apply (fs_owner _ _ _ Hfl g rq' fl' Hg Hfl') in Hc. rewrite Hk in Hc. congruence.
Qed.

(** C26: a successful flight that still owns its key puts its value at the front
    of the cache when its weight fits.  Behind it the entries of all other keys
    stay in the order of their use, but for the least recently used ones: the
    cache is the longest run from the front that the limits allow.  The next
    call for the key is a hit with that value.  Otherwise the store is left as
    it was. *)
Theorem completed_flight_is_cached limits s f rq d loaded v w s' :
  limits_typed (effective (V:=V) limits) → reachable limits s → sy_running s !! f = Some rq →
  rq_decoder rq = Some d →
  execute (rq_key rq) (rq_expectedLength rq) (rq_maximumDecodedWeight rq) loaded d = (v, w, None) →
  perform (Finish f loaded) s = Some s' →
  let c := sy_cache s in
  let c' := sy_cache s' in
  let entry := MkCacheEntry (rq_key rq) v w in
  if owns_flight c (rq_key rq) f && (w <=? cl_Bytes limits) && (1 <=? cl_Entries limits) && (1 <=? cl_Bytes limits)
  then ∃ el, head (bc_lru c') = Some (el, entry)
    ∧ longest_fitting (effective (V:=V) limits) ((el, entry) :: others (rq_key rq) (bc_lru c)) (bc_lru c')
    ∧ ∀ reservation missRecorded, (load_attempt c' (rq_key rq) reservation missRecorded).2 = Hit v
  else bc_lru c' = bc_lru c ∧ bc_entries c' = bc_entries c.
Proof.
  intros Hlim Hs%reachable_coherent Hf Hd Hex; [|done]. simpl. rewrite Hf. simpl. rewrite Hd. simpl. rewrite Hex.
  intros [= <-]. destruct (fs_running _ _ _ (ch_flights _ _ Hs) _ _ Hf) as [fl Hfl].
  pose proof (complete_admits limits s rq f fl v w Hlim Hs Hfl (execute_weight _ _ _ _ _ _ Hex)) as H.
  exact H.
Qed.

(** Evicting a snapshot removes exactly its entries and detaches and
    cancels exactly its flights; and a flight that was running for it then can
    end at any later time without storing anything. *)
Theorem evicted_snapshot_is_gone limits s snapshot s' :
  limits_typed (effective (V:=V) limits) → reachable limits s → perform (Evict snapshot) s = Some s' →
  (∀ k el, bc_entries (sy_cache s') !! k = Some el ↔ bc_entries (sy_cache s) !! k = Some el ∧ ck_SnapshotID k ≠ snapshot)
  ∧ (∀ k f, bc_flights (sy_cache s') !! k = Some f ↔ bc_flights (sy_cache s) !! k = Some f ∧ ck_SnapshotID k ≠ snapshot)
  ∧ ∀ f rq, sy_running s !! f = Some rq → ck_SnapshotID (rq_key rq) = snapshot →
      ∀ actions s1 loaded s2, Forall (λ a, arrival a = false) actions → run actions s' = Some s1 →
        sy_running s1 !! f = Some rq → perform (Finish f loaded) s1 = Some s2 →
        bc_lru (sy_cache s2) = bc_lru (sy_cache s1).
Proof.
  intros Hlim Hs%reachable_coherent Hp; [|done].
  assert (Hs' : coherent (effective (V:=V) limits) s') by by apply (perform_coherent _ (Evict snapshot) s).
  injection Hp as <-. simpl in *.
  destruct (evict_entries_linked snapshot (map_to_list (bc_entries (sy_cache s))) (sy_cache s)) as (_ & Hsame & _ & Hent & _).
  { apply (ch_linked _ _ Hs). } { pose proof (ch_within _ _ Hs) as [_ Hb]. rewrite (ch_limits _ _ Hs) in Hb. destruct Hlim as (_&?&?&_). lia. }
  { apply NoDup_fst_map_to_list. } { intros [k el]. by rewrite elem_of_map_to_list. }
  destruct Hsame as (_ & Efl & _).
  split; [|split].
  - intros k el. unfold EvictSnapshot. rewrite evict_flights_entries, Hent, list_elem_of_fmap.
    split; intros [Hk Hn]; (split; [done|]).
    + intros E. apply Hn. split; [|done]. exists (k, el). by rewrite elem_of_map_to_list.
    + by intros [_ ?].
  - intros k f. unfold EvictSnapshot. by rewrite evict_flights_flights, Efl.
  - intros f rq Hf Hk actions s1 loaded s2 Ha Hr Hf1.
    pose proof (ch_flights _ _ Hs') as Hfl'. simpl in Hfl'. destruct (fs_running _ _ _ Hfl' _ _ Hf) as [fl Hfl].
    assert (Hc : cf_cancelled fl = true).
    { apply not_false_iff_true. intros E. apply (fs_owner _ _ _ Hfl' _ _ _ Hf Hfl) in E.
      unfold EvictSnapshot in E. apply evict_flights_flights in E as [_ E]. done. }
    destruct (cancelled_run _ _ _ _ f Hlim Hs' Ha Hr) as [Hs1 (fl1 & Hfl1 & Hc1)]; [by exists fl|].
    simpl. rewrite Hf1. simpl. destruct (rq_decoder rq) as [d|]; [|done]. simpl.
    destruct (execute _ _ _ _ _) as [[v w] err]. intros [= <-]. by eapply cancelled_finish.
Qed.

(** The eviction loop ends after at most as many iterations as there are
    elements, whatever the fuel beyond that, and keeps exactly the longest run
    of most recently used elements that fits the limits. *)
Theorem eviction_ends_with_the_longest_fitting_prefix (c : ByteCache V) :
  linked c → 0 ≤ cl_Entries (bc_limits c) → 0 ≤ cl_Bytes (bc_limits c) → bc_bytes c ≤ max_uint64 →
  ∃ c', (∀ fuel, (length (bc_lru c) < fuel)%nat → evict_loop fuel c = Some c')
    ∧ longest_fitting (bc_limits c) (bc_lru c) (bc_lru c') ∧ linked c' ∧ within_limits c'.
Proof.
  intros Hl He Hb Hm. destruct (evict_loop_ends c (S (length (bc_lru c))) Hl He Hb Hm) as (c' & Hc & Hl' & Hs & _ & Hlong); [lia|].
  exists c'. split_and!; [|done|done|].
  - intros fuel Hf. apply (evict_loop_fuel (S (length (bc_lru c)))); [done|lia].
  - apply fits_within; [done|]. destruct Hs as (-> & _). apply Hlong.
Qed.

End theorems.

(** ** A concrete run

    Two calls share a flight for one key while a third waits for capacity; then
    the flight delivers and all return. *)

Definition request_ok {V} (a : action V) : Prop :=
  match a with Arrive _ rq _ => request_typed rq | _ => True end.

Lemma perform_size {V} (a : action V) s s' : perform a s = Some s' →
  (size (sy_loads s') ≤ S (size (sy_loads s)))%nat.
Proof.
  destruct a as [i rq ctx|i e|snapshot|i b|f loaded]; simpl.
  - destruct (sy_loads s !! i) eqn:E; [done|]. intros [= <-]. simpl. by rewrite map_size_insert_None.
  - destruct (sy_loads s !! i) eqn:E; [|done]. intros [= <-]. simpl. rewrite map_size_insert_Some by eauto. lia.
  - intros [= <-]. simpl. lia.
  - destruct (sy_loads s !! i) eqn:E; [|done]. simpl. destruct (proceed _ _ _) as [[[? ?] ?]|]; [|done].
    intros [= <-]. simpl. unfold set_load. rewrite map_size_insert_Some by eauto. lia.
  - destruct (sy_running s !! f); [|done]. simpl. destruct (rq_decoder _); [|done]. simpl.
    destruct (execute _ _ _ _ _) as [[v w] err]. intros [= <-]. simpl. lia.
Qed.

Lemma reachable_run {V} limits (actions : list (action V)) s s' :
  reachable limits s → Forall request_ok actions →
  Z.of_nat (size (sy_loads s)) + Z.of_nat (length actions) < max_uint64 →
  run actions s = Some s' → reachable limits s'.
Proof.
  intros Hs Ha. revert s Hs. induction Ha as [|a actions Ha _ IH]; intros s Hs Hsz; simpl; [by intros [= <-]|].
  destruct (perform a s) as [s1|] eqn:Hp; [|done]. simpl. pose proof (perform_size a s s1 Hp) as Hsize.
  apply IH; [|simpl in Hsz; lia]. eapply reachable_step; [done| |done].
  destruct a; simpl in *; try done. split; [done|lia].
Qed.

Definition demo_limits : CacheLimits := MkCacheLimits 2 40 0 0.
Definition demo_data : list Z := bytes_of "abc".
Definition demo_digest : list Z := Eval vm_compute in sha256 (bytes_of "abc").
Definition demo_decoder : ChildDecoder string := λ data, Returned (Ok (Some (hex_encode data), 7)).
Definition demo_request (snapshot : string) (weight : Z) : request string :=
  MkRequest (MkCacheKey snapshot demo_digest) 3 weight true (Some demo_decoder).
Definition demo_joining : list (action string) :=
  [Arrive 0 (demo_request "one" 10) None; Arrive 1 (demo_request "one" 10) None;
   Arrive 2 (demo_request "two" 30) None;
   Proceed 0 false; Proceed 0 false; Proceed 1 false; Proceed 1 false; Proceed 2 false; Proceed 2 false].
Definition demo_serving : list (action string) :=
  [Finish 0 (Returned (Ok demo_data)); Proceed 0 false; Proceed 1 false].
Definition demo_busy : system string :=
  Eval vm_compute in default (start demo_limits) (run demo_joining (start demo_limits)).
Definition demo_served : system string :=
  Eval vm_compute in default (start demo_limits) (run demo_serving demo_busy).

Definition demo_finished : system string :=
  Eval vm_compute in default (start demo_limits) (perform (Finish 0 (Returned (Ok demo_data))) demo_busy).
Definition demo_evicted : system string :=
  Eval vm_compute in default (start demo_limits) (perform (Evict "one") demo_served).

Lemma demo_limits_typed : limits_typed (effective (V:=string) demo_limits).
Proof. unfold limits_typed, is_uint64, max_uint64. simpl. lia. Qed.

Lemma demo_request_typed snapshot weight : 0 ≤ weight ≤ 100 → request_typed (demo_request snapshot weight).
Proof.
  intros Hw. unfold request_typed, is_uint64, max_uint64. simpl. split_and!; try lia.
  intros d data v w [= <-]. unfold demo_decoder. by intros [= _ <-].
Qed.

Lemma demo_busy_reachable : reachable demo_limits demo_busy.
Proof.
  apply (reachable_run demo_limits demo_joining (start demo_limits)).
  - constructor.
  - unfold demo_joining. rewrite !Forall_cons, Forall_nil.
    split_and!; try exact I; apply demo_request_typed; lia.
  - unfold max_uint64. vm_compute. done.
  - vm_compute. reflexivity.
Qed.

Lemma demo_serving_runs : run demo_serving demo_busy = Some demo_served.
Proof. vm_compute. reflexivity. Qed.

Lemma demo_served_reachable : reachable demo_limits demo_served.
Proof.
  apply (reachable_run demo_limits demo_serving demo_busy).
  - apply demo_busy_reachable.
  - by repeat constructor.
  - unfold max_uint64. vm_compute. done.
  - apply demo_serving_runs.
Qed.

Lemma cache_stays_within_limits_witness :
  reachable demo_limits demo_busy ∧ bc_flightBytes (sy_cache demo_busy) = 13
  ∧ cs_InFlightBytes (Stats (sy_cache demo_busy)) = total rq_reservation (sy_running demo_busy).
Proof.
  split_and!; [apply demo_busy_reachable|reflexivity|].
  apply (cache_stays_within_limits demo_limits demo_busy demo_limits_typed demo_busy_reachable).
Defined.

Lemma served_values_match_their_digest_witness :
  authentic (sy_loads demo_served) (MkCacheKey "one" demo_digest) (Some "616263").
Proof.
  exact (served_values_match_their_digest demo_limits demo_served 1
    (MkLoad (demo_request "one" 10) None (Finished (Ok (Some "616263")))) (Ok (Some "616263"))
    demo_limits_typed demo_served_reachable eq_refl eq_refl).
Defined.

Lemma every_load_returns_witness :
  reachable demo_limits demo_busy
  ∧ (map_Forall (λ _ l, returned l = true) (sy_loads demo_served)
     ∨ ∃ a s'', internal a = true ∧ perform a demo_served = Some s'').
Proof.
  split; [apply demo_busy_reachable|].
  apply (every_load_returns demo_limits demo_busy demo_serving demo_served demo_limits_typed demo_busy_reachable).
  - by repeat constructor.
  - apply demo_serving_runs.
Defined.

Lemma flights_are_shared_and_attended_witness :
  ∃ fl, bc_heap (sy_cache demo_busy) !! 0%nat = Some fl ∧ cf_waiters fl = 2.
Proof.
  destruct (flights_are_shared_and_attended demo_limits demo_busy 0 (demo_request "one" 10)
    demo_limits_typed demo_busy_reachable eq_refl) as (fl & Hfl & Hw & _).
  exists fl. split; [exact Hfl|exact Hw].
Defined.

Lemma completed_flight_is_cached_witness :
  perform (Finish 0 (Returned (Ok demo_data))) demo_busy = Some demo_finished
  ∧ ∃ el, head (bc_lru (sy_cache demo_finished)) = Some (el, MkCacheEntry (MkCacheKey "one" demo_digest) (Some "616263") 10).
Proof.
  assert (E : perform (Finish 0 (Returned (Ok demo_data))) demo_busy = Some demo_finished) by (vm_compute; reflexivity).
  assert (Hex : execute (rq_key (demo_request "one" 10)) 3 10 (Returned (Ok demo_data)) demo_decoder = (Some "616263", 10, None))
    by (vm_compute; reflexivity).
  split; [exact E|].
  pose proof (completed_flight_is_cached demo_limits demo_busy 0 (demo_request "one" 10) demo_decoder
    (Returned (Ok demo_data)) (Some "616263") 10 demo_finished demo_limits_typed demo_busy_reachable eq_refl eq_refl Hex E) as H.
  assert (Hc : owns_flight (sy_cache demo_busy) (rq_key (demo_request "one" 10)) 0 && (10 <=? cl_Bytes demo_limits)
    && (1 <=? cl_Entries demo_limits) && (1 <=? cl_Bytes demo_limits) = true) by (vm_compute; reflexivity).
  cbv zeta in H. rewrite Hc in H. destruct H as (el & H & _). exists el. exact H.
Defined.

Lemma evicted_snapshot_is_gone_witness :
  perform (Evict "one") demo_served = Some demo_evicted
  ∧ ∀ k el, bc_entries (sy_cache demo_evicted) !! k = Some el
    ↔ bc_entries (sy_cache demo_served) !! k = Some el ∧ ck_SnapshotID k ≠ "one".
Proof.
  assert (E : perform (Evict "one") demo_served = Some demo_evicted) by (vm_compute; reflexivity).
  split; [exact E|].
  exact (proj1 (evicted_snapshot_is_gone demo_limits demo_served "one" demo_evicted
    demo_limits_typed demo_served_reachable E)).
Defined.

Lemma eviction_ends_with_the_longest_fitting_prefix_witness :
  ∃ c', evict_loop 5 (sy_cache demo_served) = Some c' ∧ within_limits c'.
Proof.
  destruct (eviction_ends_with_the_longest_fitting_prefix (sy_cache demo_served)) as (c' & Hev & _ & _ & Hw).
  - apply (ch_linked _ _ (reachable_coherent _ _ demo_limits_typed demo_served_reachable)).
  - simpl. lia.
  - simpl. lia.
  - unfold max_uint64. simpl. lia.
  - exists c'. split; [apply Hev; simpl; lia|exact Hw].
Defined.
