(* ===== verification/SearchText.v ===== *)
(** * Search text (application/catalog/normalize.go, search_model.go)

    How queries and indexed texts are normalised and cut into tokens, words and
    trigrams.  NFKC normalisation and case folding are golang.org/x/text; they
    and the letter and digit tables of [unicode] are the class [SearchTables]. *)

From S2P Require Import Prelude GoString GoSha256 EmbeddedJson.

Class SearchTables := {
  nfkc_string : string → string;   (* norm.NFKC.String *)
  fold_string : string → string;   (* cases.Fold().String *)
  is_letter : Z → bool;            (* unicode.IsLetter *)
  is_decimal : Z → bool;           (* unicode.IsDigit *)
  is_lower : Z → bool;             (* unicode.IsLower *)
  is_upper : Z → bool;             (* unicode.IsUpper *)
}.

Definition maxSearchQueryBytes : Z := 256.
Definition maxSearchQueryScalars : Z := 128.
Definition maxSearchQueryTokens : Z := 8.
Definition maxSearchSnippetScalars : nat := 320.
Definition maxSearchIndexedDescriptionScalars : nat := 4096.

Definition ErrInvalidQuery : error := Errorf "invalid_query" [].
Definition invalid_query (format : string) : error := Errorf format [EErr ErrInvalidQuery].

Record normalizedSearchQuery := MkNormalizedSearchQuery {
  nq_Exact : string;
  nq_Tokens : list string;
}.

(** The characters that join the parts of a path or an identifier. *)
Definition joins_parts (r : Z) : bool := existsb (Z.eqb r) (bytes_of "/{}.:_-").

Section text.
Context `{SearchTables}.

Definition token_rune (r : Z) : bool := is_letter r || is_decimal r || joins_parts r.
Definition tokenizeSearchText (value : string) : list string :=
  of_runes <$> split_runs (λ r, negb (token_rune r)) [] (runes value).

Definition normalizeSearchExact (input : string) : res string :=
  throw_if (negb (valid_utf8 input) || (maxSearchQueryBytes <? go_len input))
    (invalid_query "%w: encoding or byte limit") ;;
  throw_if (existsb is_control (runes input)) (invalid_query "%w: control character") ;;
  let value := fold_string (nfkc_string (TrimSpace input)) in
  throw_if (bool_decide (value = "") || (maxSearchQueryBytes <? go_len value)
            || (maxSearchQueryScalars <? Z.of_nat (length (runes value))))
    (invalid_query "%w: normalized limit") ;;
  mret value.

Definition tokenizeNormalizedSearchExact (exact : string) : res normalizedSearchQuery :=
  let tokens := tokenizeSearchText exact in
  throw_if (bool_decide (tokens = []) || (maxSearchQueryTokens <? Z.of_nat (length tokens)))
    (invalid_query "%w: token count") ;;
  mret (MkNormalizedSearchQuery exact tokens).

Definition normalizeSearchQuery (input : string) : res normalizedSearchQuery :=
  exact ← normalizeSearchExact input;
  tokenizeNormalizedSearchExact exact.

(** ** Indexed texts *)

Definition sanitizeSearchText (value : string) : string :=
  of_runes ((λ r, if is_control r then 32 else r) <$> runes value).

Definition searchSnippet (value : string) : string :=
  let value := Join (Fields (sanitizeSearchText value)) " " in
  if (length (runes value) <=? maxSearchSnippetScalars)%nat then value
  else of_runes (take maxSearchSnippetScalars (runes value)).

Definition searchIndexedDescription (value : string) : string :=
  let value := sanitizeSearchText value in
  let rs := runes value in
  if (length rs <=? maxSearchIndexedDescriptionScalars)%nat then value
  else of_runes (take maxSearchIndexedDescriptionScalars rs).

(** The byte after the last of a few ASCII separators, as [LastIndexAny] finds it. *)
Fixpoint after_last (separator : Z → bool) (l : list Z) : option (list Z) :=
  match l with
  | [] => None
  | b :: l =>
      match after_last separator l with
      | Some rest => Some rest
      | None => if separator b then Some l else None
      end
  end.
Definition shortSchemaName (value : string) : string :=
  match after_last (λ b, existsb (Z.eqb b) (bytes_of ".:/")) (bytes_of value) with
  | Some (b :: rest) => of_bytes (b :: rest)
  | _ => value
  end.

(** A word of an identifier ends before a rune that is no letter or digit,
    between lower and upper case, between letters and digits, and before the
    last capital of a run that a lower-case letter follows. *)
Definition word_boundary (previous character : Z) (next : option Z) : bool :=
  is_lower previous && is_upper character
  || negb (Bool.eqb (is_decimal previous) (is_decimal character))
  || match next with
     | Some next => is_upper previous && is_upper character && is_lower next
     | None => false
     end.

(** The loop of [splitSearchIndexWords]; [word] is the reversed word since
    [start], empty when there is none. *)
Fixpoint split_words (word : list Z) (rs : list Z) : list (list Z) :=
  let flush := match word with [] => [] | _ => [reverse word] end in
  match rs with
  | [] => flush
  | r :: rs =>
      if negb (is_letter r) && negb (is_decimal r) then flush ++ split_words [] rs
      else
        match word with
        | [] => split_words [r] rs
        | previous :: _ =>
            if word_boundary previous r (head rs) then flush ++ split_words [r] rs
            else split_words (r :: word) rs
        end
  end.
Definition splitSearchIndexWords (value : string) : list string := of_runes <$> split_words [] (runes value).

Definition value_tokens (value : string) : list string :=
  let value := nfkc_string (sanitizeSearchText value) in
  filter (λ piece, piece ≠ "") (fold_string <$> splitSearchIndexWords value)
  ++ filter (λ token, token ≠ "") (tokenizeSearchText (fold_string value)).
Definition searchTokenSet (values : list string) : list string :=
  sort_strings (elements (list_to_set (C := gset string) (values ≫= value_tokens))).

Definition searchTrigrams (value : string) : list string :=
  let rs := runes value in
  if (length rs <? 3)%nat then []
  else
    let count := (length rs - 2)%nat in
    let positions := 0%nat :: (if (1 <? count)%nat then [(count / 2)%nat] else [])
                     ++ (if (2 <? count)%nat then [(count - 1)%nat] else []) in
    sort_strings (elements (list_to_set (C := gset string)
      ((λ position, of_runes (take 3 (drop position rs))) <$> positions))).

(** [strings.FieldsFunc] on the joining characters. *)
Definition name_parts (value : string) : list string :=
  of_segs <$> split_runs (λ seg, match seg.1 with Some r => joins_parts r | None => false end) [] (decode (bytes_of value)).

Fixpoint operation_aliases (seen : gset string) (values : list string) : list string :=
  match values with
  | [] => []
  | value :: values =>
      let parts := name_parts value in
      let alias := TrimSpace (List.last parts "") in
      if (length parts <? 2)%nat || (length (runes alias) <? 4)%nat then operation_aliases seen values
      else
        match normalizeSearchExact alias with
        | Fail _ => operation_aliases seen values
        | Ok normalized =>
            if bool_decide (normalized ∈ seen) then operation_aliases seen values
            else alias :: operation_aliases ({[normalized]} ∪ seen) values
        end
  end.
Definition searchOperationAliases (values : list string) : list string := operation_aliases ∅ values.
End text.

(** ** The ASCII part of the tables, for samples *)

Definition ascii_tables : SearchTables := {|
  nfkc_string s := s;
  fold_string s := of_runes (ascii_lower <$> runes s);
  is_letter r := in_range 97 122 r || in_range 65 90 r;
  is_decimal r := in_range 48 57 r;
  is_lower r := in_range 97 122 r;
  is_upper r := in_range 65 90 r;
|}.

Example token_set_sample :
  @searchTokenSet ascii_tables ["listUserPets"; "GET /pets/{id}"]
  = ["/pets/{id}"; "get"; "id"; "list"; "listuserpets"; "pets"; "user"].
Proof. vm_compute. reflexivity. Qed.
Example trigrams_sample : searchTrigrams "petstore" = ["ore"; "pet"; "sto"].
Proof. vm_compute. reflexivity. Qed.
