(* ===== verification/CatalogChildren.v ===== *)
(** * Children of a snapshot (application/catalog/identity.go, partition.go, search_model.go)

    A child artifact is a path, a kind and bytes with their digest.  Four loops
    of the compiler cut a list of records into children that stay within a
    number of bytes; [chunks] is that loop. *)

From S2P Require Import Prelude GoString GoSha256 CatalogModel.

Definition newChild (pathValue kind : string) (data : list Z) : res ChildArtifact :=
  throw_if (bool_decide (pathValue = "") || HasPrefix pathValue "/" || Contains pathValue "\"
            || negb (bool_decide (path_clean pathValue = pathValue)) || HasPrefix pathValue "../")
    (Errorf "child path %q is invalid" [EStr pathValue]) ;;
  throw_if (bool_decide (kind = "") || bool_decide (data = []))
    (Errorf "child %q kind and bytes are required" [EStr pathValue]) ;;
  mret (MkChildArtifact pathValue kind (Z.of_nat (length data)) (hex_encode (sha256 data)) data).

Definition content_path (prefix : string) (data : list Z) : string :=
  prefix +:+ "/" +:+ hex_encode (sha256 data) +:+ ".json".

Definition contentAddressedChild (prefix kind : string) (data : list Z) : res ChildArtifact :=
  newChild (content_path prefix data) kind data.

Fixpoint child_identities (previous : option string) (children : list ChildArtifact) : res (list ChildIdentityV1) :=
  match children with
  | [] => mret []
  | child :: children =>
      throw_if (bool_decide (previous = Some (ch_Path child))) (Errorf "child path %q is duplicated" [EStr (ch_Path child)]) ;;
      result ← child_identities (Some (ch_Path child)) children;
      mret (MkChildIdentityV1 (ch_Path child) (ch_Kind child) (ch_Length child) (ch_SHA256 child) :: result)
  end.
Definition childIdentities (children : list ChildArtifact) : res (list ChildIdentityV1) :=
  child_identities None (sort_by (less_by (λ child, [KS (ch_Path child)])) children).

(** [for _, x := range l { ...; result = append(result, ...) }] *)
Section collect.
Context {A B : Type} (f : A → res (list B)).
Fixpoint collect (l : list A) : res (list B) :=
  match l with
  | [] => mret []
  | x :: l => part ← f x; rest ← collect l; mret (part ++ rest)
  end.
End collect.

(** ** Cutting records into children

    [encode start records] is the child of a run of records, [admits taken x]
    whether the run may take another one; a record that is too large alone is
    an error. *)

Section chunks.
Context {A B : Type}.
Context (encode : nat → list A → list Z) (admits : list A → A → bool) (limit : Z).
Context (too_large : nat → A → error) (no_progress : error).
(** What is made of a run: its number, its first record, the records and the bytes. *)
Context (emit : nat → nat → list A → list Z → res B).

Fixpoint take_chunk (start : nat) (taken : list A) (encoded : list Z) (records : list A) :
    res (list A * list Z * list A) :=
  match records with
  | [] => mret (taken, encoded, [])
  | x :: rest =>
      if negb (admits taken x) then mret (taken, encoded, records)
      else
        let candidate := encode start (taken ++ [x]) in
        if limit <? Z.of_nat (length candidate) then
          match taken with
          | [] => Fail (too_large start x)
          | _ => mret (taken, encoded, records)
          end
        else take_chunk start (taken ++ [x]) candidate rest
  end.

(** The fuel is the number of records: every run takes one. *)
Fixpoint chunks (fuel : nat) (number start : nat) (records : list A) : res (list B) :=
  match records with
  | [] => mret []
  | _ =>
      match fuel with
      | O => Fail no_progress
      | S fuel =>
          '(taken, encoded, rest) ← take_chunk start [] [] records;
          throw_if (bool_decide (length taken = 0%nat) || bool_decide (encoded = [])) no_progress ;;
          part ← emit number start taken encoded;
          parts ← chunks fuel (S number) (start + length taken)%nat rest;
          mret (part :: parts)
      end
  end.
Definition cut_records (records : list A) : res (list B) := chunks (length records) 0 0 records.
End chunks.
