(* ===== verification/SearchIndex.v ===== *)
(** * The search index of a catalog (application/catalog/search_model.go)

    The records of a catalog, and for every exact key, token and trigram the
    records it occurs in, cut into segments that are children of the snapshot. *)

From S2P Require Import Prelude GoString GoSha256 GoJson CatalogModel SearchText CatalogChildren.

Definition searchVersion : Z := 1.
Definition maxSearchPostingsPerSegment : Z := 2000.
Definition maxSearchRecordSegmentBytes : Z := Z.shiftl 64 10.

(** ** [json.Marshal] of the artifacts *)

Definition int_field (k : string) (z : Z) : list (string * json) := field k (JInt z).
Definition text_field (k s : string) : list (string * json) := field k (JString s).

Definition exact_match_json (m : SearchExactMatchV1) : json :=
  JObject (int_field "record" (sem_Record m) ++ int_field "priority" (sem_Priority m)).
Definition exact_entry_json (e : SearchExactEntryV1) : json :=
  JObject (text_field "key" (see_Key e) ++ field "matches" (json_slice exact_match_json (see_Matches e))).
Definition exact_segment_json (s : SearchExactSegmentV1) : json :=
  JObject (int_field "schemaVersion" (ses_SchemaVersion s) ++ int_field "searchVersion" (ses_SearchVersion s)
    ++ field "entries" (json_slice exact_entry_json (ses_Entries s))).
Definition posting_entry_json (e : SearchPostingEntryV1) : json :=
  JObject (text_field "key" (spe_Key e) ++ field "records" (json_slice JInt (spe_Records e))).
Definition posting_segment_json (s : SearchPostingSegmentV1) : json :=
  JObject (int_field "schemaVersion" (sps_SchemaVersion s) ++ int_field "searchVersion" (sps_SearchVersion s)
    ++ field "entries" (json_slice posting_entry_json (sps_Entries s))).
Definition search_record_json (r : SearchRecordV1) : json :=
  JObject (text_field "detailId" (sr_DetailID r) ++ text_field "documentKey" (sr_DocumentKey r)
    ++ text_field "kind" (sr_Kind r) ++ text_field "title" (sr_Title r) ++ text_field "description" (sr_Description r)
    ++ text_field "href" (sr_Href r) ++ text_field "operationId" (sr_OperationID r) ++ text_field "method" (sr_Method r)
    ++ text_field "path" (sr_Path r) ++ text_field "schemaName" (sr_SchemaName r)
    ++ int_field "occurrences" (sr_Occurrences r) ++ field "documents" (json_slice JString (sr_Documents r))).
Definition record_segment_json (s : SearchRecordSegmentV1) : json :=
  JObject (int_field "schemaVersion" (srsx_SchemaVersion s) ++ int_field "searchVersion" (srsx_SearchVersion s)
    ++ int_field "firstRecord" (srsx_FirstRecord s) ++ field "records" (json_slice search_record_json (srsx_Records s))).
Definition reference_fields (r : SearchSegmentReferenceV1) : list (string * json) :=
  text_field "path" (ssr_Path r) ++ int_field "entries" (ssr_Entries r) ++ int_field "postings" (ssr_Postings r)
  ++ int_field "length" (ssr_Length r) ++ text_field "sha256" (ssr_SHA256 r).
Definition exact_bucket_json (b : SearchExactBucketReferenceV1) : json :=
  JObject (text_field "prefix" (seb_Prefix b) ++ reference_fields (seb_SearchSegmentReferenceV1 b)).
Definition route_json (r : SearchPostingRouteV1) : json :=
  JObject (text_field "key" (spr_Key r) ++ int_field "segment" (spr_Segment r)).
Definition record_reference_json (r : SearchRecordSegmentReferenceV1) : json :=
  JObject (text_field "path" (srs_Path r) ++ int_field "firstRecord" (srs_FirstRecord r)
    ++ int_field "records" (srs_Records r) ++ int_field "length" (srs_Length r) ++ text_field "sha256" (srs_SHA256 r)).
Definition rank_json (r : SearchRankRecordV1) : json :=
  JObject (text_field "t" (srk_Title r) ++ omit_string "k" (srk_Kind r)).
Definition search_directory_json (d : SearchDirectoryV1) : json :=
  JObject (int_field "schemaVersion" (sdir_SchemaVersion d) ++ int_field "searchVersion" (sdir_SearchVersion d)
    ++ field "exactBuckets" (json_slice exact_bucket_json (sdir_ExactBuckets d))
    ++ field "tokenRoutes" (json_slice route_json (sdir_TokenRoutes d))
    ++ field "trigramRoutes" (json_slice route_json (sdir_TrigramRoutes d))
    ++ field "postingSegments" (json_slice (λ r, JObject (reference_fields r)) (sdir_PostingSegments d))
    ++ field "trigramSegments" (json_slice (λ r, JObject (reference_fields r)) (sdir_TrigramSegments d))
    ++ field "recordSegments" (json_slice record_reference_json (sdir_RecordSegments d))
    ++ field "ranks" (json_slice rank_json (sdir_Ranks d))).

(** ** Usage *)

Definition no_usage : BudgetUsage := MkBudgetUsage 0 0 0 0 0 false 0 0 0 0 0 0 0 0 0 0 0 0 0 0.
Definition search_usage (children bytes largest : Z) : BudgetUsage :=
  MkBudgetUsage 0 0 0 0 0 false 0 0 bytes 0 0 children 0 0 0 0 largest 0 0 0.

Definition addSearchChildUsage (usage : BudgetUsage) (child : ChildArtifact) : BudgetUsage :=
  search_usage (wrap64 (bu_Children usage + 1)) (wrap64 (bu_SearchBytes usage + ch_Length child))
    (Z.max (bu_PostingSegmentBytes usage) (ch_Length child)).
Definition mergeSearchUsage (total next : BudgetUsage) : BudgetUsage :=
  search_usage (wrap64 (bu_Children total + bu_Children next)) (wrap64 (bu_SearchBytes total + bu_SearchBytes next))
    (Z.max (bu_PostingSegmentBytes total) (bu_PostingSegmentBytes next)).
Definition children_usage (children : list ChildArtifact) : BudgetUsage := foldl addSearchChildUsage no_usage children.

(** ** Segments *)

Definition uint32 (z : Z) : Z := z `mod` 2 ^ 32.

Definition contentAddressedSearchChild (directoryName kind : string) (encoded : list Z) : res ChildArtifact :=
  newChild (content_path ("search/" +:+ directoryName) encoded) kind encoded.

Definition searchSegmentReference (child : ChildArtifact) (entries postings : Z) : SearchSegmentReferenceV1 :=
  MkSearchSegmentReferenceV1 (ch_Path child) entries postings (ch_Length child) (ch_SHA256 child).

(** *** Exact keys, by the hexadecimal digits of their digest *)

Record exactSearchEntry := MkExactSearchEntry {
  ex_entry : SearchExactEntryV1;
  ex_digest : string;
}.

Definition exact_segment (entries : list SearchExactEntryV1) : SearchExactSegmentV1 :=
  MkSearchExactSegmentV1 1 searchVersion (Some entries).

(** The sum of 64-bit lengths, an error when it overflows. *)
Fixpoint sum_entries (total : Z) (first : bool) (entries : list exactSearchEntry) : res Z :=
  match entries with
  | [] => mret total
  | candidate :: entries =>
      let encoded := Z.of_nat (length (render (exact_entry_json (ex_entry candidate)))) in
      let total := if first then total else wrap64 (total + 1) in
      throw_if (max_uint64 - total <? encoded) (Errorf "exact search segment size overflows" []) ;;
      sum_entries (total + encoded) false entries
  end.
Definition exactSearchSegmentSize (entries : list exactSearchEntry) : res Z :=
  let empty := Z.of_nat (length (render (exact_segment_json (exact_segment [])))) in
  throw_if (empty <? 2) (Errorf "exact search segment envelope is invalid" []) ;;
  sum_entries (empty - 2) true entries.

Definition exactSearchArtifact : Type := SearchExactBucketReferenceV1 * ChildArtifact.

Definition entry_matches (e : SearchExactEntryV1) : Z := Z.of_nat (length (elems (see_Matches e))).
Definition count_exact (entries : list SearchExactEntryV1) : Z :=
  foldl (λ count e, uint32 (count + uint32 (entry_matches e))) 0 entries.

Definition hex_digits : list ascii := String.list_ascii_of_string "0123456789abcdef".
Definition digit_at (digest : string) (i : nat) : option ascii := String.get i digest.

Definition sort_entries (entries : list exactSearchEntry) : list exactSearchEntry :=
  sort_by (less_by (λ e, [KS (see_Key (ex_entry e))])) entries.

(** One segment of the entries, already sorted. *)
Definition exact_artifact (prefix : string) (entries : list exactSearchEntry) (segmentLimit : Z) : res exactSearchArtifact :=
  let plainEntries := ex_entry <$> entries in
  let encoded := render (exact_segment_json (exact_segment plainEntries)) in
  throw_if (segmentLimit <? Z.of_nat (length encoded)) (Errorf "exact search bucket %q exceeds segment bytes" [EStr prefix]) ;;
  child ← contentAddressedSearchChild "exact" "search-exact" encoded;
  mret (MkSearchExactBucketReferenceV1 prefix
          (searchSegmentReference child (uint32 (Z.of_nat (length plainEntries))) (count_exact plainEntries)), child).

Section emit.
Context (segmentLimit : Z).

(** [emit]; [levels] is how many of the 64 digits the prefix does not have. *)
Fixpoint emit_exact (levels : nat) (prefix : string) (entries : list exactSearchEntry) : res (list exactSearchArtifact) :=
  let entries := sort_entries entries in
  estimated ← exactSearchSegmentSize entries;
  if estimated <=? segmentLimit then
    artifact ← exact_artifact prefix entries segmentLimit;
    mret [artifact]
  else
    match levels with
    | O =>
        Fail match entries with
             | [candidate] => Errorf "exact search entry %q exceeds segment bytes" [EStr (see_Key (ex_entry candidate))]
             | _ => Errorf "exact search bucket %q exceeds segment bytes" [EStr prefix]
             end
    | S levels =>
        let position := String.length prefix in
        for_each (λ candidate,
          throw_if (negb match digit_at (ex_digest candidate) position with
                         | Some c => bool_decide (c ∈ hex_digits)
                         | None => false
                         end)
            (Errorf "exact search digest for %q is invalid" [EStr (see_Key (ex_entry candidate))])) entries ;;
        collect (λ nibble,
          let childEntries := filter (λ e, digit_at (ex_digest e) position = Some nibble) entries in
          if bool_decide (childEntries = []) then mret []
          else emit_exact levels (prefix +:+ String nibble EmptyString) childEntries) hex_digits
    end.
End emit.

(** The matches of a key, by priority and record. *)
Definition exact_entry (key : string) (byRecord : gmap Z Z) : exactSearchEntry :=
  MkExactSearchEntry
    (MkSearchExactEntryV1 key (Some (sort_by (less_by (λ m, [KZ (sem_Priority m); KZ (sem_Record m)]))
       ((λ rp, MkSearchExactMatchV1 rp.1 rp.2) <$> map_to_list byRecord))))
    (hex_encode (sha256 (bytes_of key))).

Definition first_digit (digest : string) : string := String.substring 0 1 digest.

Definition bucket_prefixes (entries : list exactSearchEntry) : list string :=
  sort_strings (elements (list_to_set (C := gset string) ((λ e, first_digit (ex_digest e)) <$> entries))).

Definition buildExactSearchSegments (matches : gmap string (gmap Z Z)) (segmentLimit : Z) :
    res (list SearchExactBucketReferenceV1 * list ChildArtifact * BudgetUsage) :=
  let entries := (λ kv, exact_entry kv.1 kv.2) <$> map_to_list matches in
  artifacts ← collect (λ prefix,
    emit_exact segmentLimit 63 prefix (filter (λ e, first_digit (ex_digest e) = prefix) entries)) (bucket_prefixes entries);
  let usage := children_usage artifacts.*2 in
  let artifacts := sort_by (less_by (λ a : exactSearchArtifact, [KS (seb_Prefix a.1); KS (ch_Path a.2)])) artifacts in
  mret (artifacts.*1, artifacts.*2, usage).

(** *** Postings of tokens and trigrams *)

Definition posting_records (e : SearchPostingEntryV1) : Z := Z.of_nat (length (elems (spe_Records e))).
Definition posting_count (entries : list SearchPostingEntryV1) : Z := foldr Z.add 0 (posting_records <$> entries).

Definition posting_segment (entries : list SearchPostingEntryV1) : SearchPostingSegmentV1 :=
  MkSearchPostingSegmentV1 1 searchVersion (Some entries).

Definition posting_admits (taken : list SearchPostingEntryV1) (entry : SearchPostingEntryV1) : bool :=
  match taken with
  | [] => true
  | _ => posting_count taken + posting_records entry <=? maxSearchPostingsPerSegment
  end.

Record postingPart := MkPostingPart {
  pp_routes : list SearchPostingRouteV1;
  pp_reference : SearchSegmentReferenceV1;
  pp_child : ChildArtifact;
}.

Definition posting_part (directoryName kind : string) (number start : nat) (entries : list SearchPostingEntryV1)
    (encoded : list Z) : res postingPart :=
  throw_if (65535 <=? Z.of_nat number) (Errorf "search posting segment ordinal overflow" []) ;;
  child ← contentAddressedSearchChild directoryName kind encoded;
  mret (MkPostingPart ((λ e, MkSearchPostingRouteV1 (spe_Key e) (Z.of_nat number)) <$> entries)
          (searchSegmentReference child (uint32 (Z.of_nat (length entries))) (uint32 (posting_count entries))) child).

Definition posting_entries (postings : gmap string (list Z)) : list SearchPostingEntryV1 :=
  sort_by (less_by (λ e, [KS (spe_Key e)]))
    ((λ kv, MkSearchPostingEntryV1 kv.1 (Some kv.2)) <$> map_to_list postings).

Definition buildPostingSearchSegments (directoryName kind : string) (postings : gmap string (list Z)) (segmentLimit : Z) :
    res (list SearchPostingRouteV1 * list SearchSegmentReferenceV1 * list ChildArtifact * BudgetUsage) :=
  parts ← cut_records (λ _ entries, render (posting_segment_json (posting_segment entries))) posting_admits segmentLimit
    (λ _ entry, Errorf "search posting %q exceeds segment bytes" [EStr (spe_Key entry)])
    (Errorf "search posting partition made no progress" [])
    (posting_part directoryName kind) (posting_entries postings);
  mret (parts ≫= pp_routes, pp_reference <$> parts, pp_child <$> parts, children_usage (pp_child <$> parts)).

(** *** Records *)

Definition record_segment (start : nat) (records : list SearchRecordV1) : SearchRecordSegmentV1 :=
  MkSearchRecordSegmentV1 1 searchVersion (uint32 (Z.of_nat start)) (Some records).

Definition record_part (number start : nat) (records : list SearchRecordV1) (encoded : list Z) :
    res (SearchRecordSegmentReferenceV1 * ChildArtifact) :=
  child ← contentAddressedSearchChild "records" "search-record" encoded;
  mret (MkSearchRecordSegmentReferenceV1 (ch_Path child) (uint32 (Z.of_nat start)) (uint32 (Z.of_nat (length records)))
          (ch_Length child) (ch_SHA256 child), child).

Definition buildSearchRecordSegments (records : list SearchRecordV1) (segmentLimit : Z) :
    res (list SearchRecordSegmentReferenceV1 * list ChildArtifact * BudgetUsage) :=
  parts ← cut_records (λ start records, render (record_segment_json (record_segment start records))) (λ _ _, true) segmentLimit
    (λ _ record, Errorf "search record %q exceeds segment bytes" [EStr (sr_DetailID record)])
    (Errorf "search record partition made no progress" []) record_part records;
  mret (parts.*1, parts.*2, children_usage parts.*2).

(** ** The records of a catalog *)

Record searchExactKey := MkSearchExactKey {
  ek_value : string;
  ek_priority : Z;
}.

Record searchBuildRecord := MkSearchBuildRecord {
  sb_record : SearchRecordV1;
  sb_tokens : list string;
  sb_exact : list searchExactKey;
}.

Definition operationAliasExactKeys (aliases : list string) : list searchExactKey :=
  (λ alias, MkSearchExactKey alias 2) <$> aliases.

Section build.
Context `{SearchTables}.

Definition operation_builder (documentKey : string) (operation : OperationDirectoryV1) : searchBuildRecord :=
  let requestTarget := EffectiveRequestTarget operation in
  let aliases := searchOperationAliases [od_OperationID operation; requestTarget] in
  let values := [od_Title operation; od_OperationID operation; od_Method operation; od_Path operation; requestTarget;
                 documentKey; searchIndexedDescription (od_Description operation)]
                ++ aliases ++ elems (od_Tags operation)
                ++ (elems (od_Facets operation) ≫= λ facet, [fct_Name facet; fct_Value facet]) in
  MkSearchBuildRecord
    (MkSearchRecordV1 (od_DetailID operation) documentKey "operation" (od_Title operation)
       (searchSnippet (od_Description operation)) (od_Href operation) (od_OperationID operation) (od_Method operation)
       requestTarget "" 1 (Some [documentKey]))
    (searchTokenSet values)
    ([MkSearchExactKey (od_DetailID operation) 1; MkSearchExactKey (od_OperationID operation) 2;
      MkSearchExactKey requestTarget 2; MkSearchExactKey (od_Method operation +:+ " " +:+ requestTarget) 2]
     ++ operationAliasExactKeys aliases).

(** A schema and the document it occurs in. *)
Definition schemaSearchOccurrence : Type := string * SchemaDirectoryV1.

Definition nul : string := of_bytes [0].
Definition schema_group_key (profileID : string) (schema : SchemaDirectoryV1) : string :=
  let key := scd_Name schema +:+ nul +:+ scd_CanonicalSHA256 schema +:+ nul +:+ scd_ProjectionSHA256 schema +:+ nul +:+ profileID in
  if bool_decide (scd_CanonicalSHA256 schema = "") || bool_decide (scd_ProjectionSHA256 schema = "")
  then key +:+ nul +:+ scd_DetailID schema else key.

Definition catalog_occurrences (directory : CatalogArtifactV1) : list schemaSearchOccurrence :=
  elems (ca_Documents directory) ≫= λ document, (λ schema, (dd_Key document, schema)) <$> elems (dd_Schemas document).

Definition group_occurrences (profileID : string) (occurrences : list schemaSearchOccurrence) :
    gmap string (list schemaSearchOccurrence) :=
  foldl (λ groups occurrence,
    let key := schema_group_key profileID occurrence.2 in
    <[key := default [] (groups !! key) ++ [occurrence]]> groups) ∅ occurrences.

Definition group_builder (occurrences : list schemaSearchOccurrence) : list searchBuildRecord :=
  match sort_by (less_by (λ o, [KS o.1; KS (scd_DetailID o.2)])) occurrences with
  | [] => []
  | ((documentKey, schema) :: _) as occurrences =>
      let name := scd_Name schema in
      [MkSearchBuildRecord
         (MkSearchRecordV1 (scd_DetailID schema) documentKey "schema" name (searchSnippet (scd_Description schema))
            (scd_Href schema) "" "" "" name (uint32 (Z.of_nat (length occurrences))) (Some occurrences.*1))
         (searchTokenSet ([name; shortSchemaName name; searchIndexedDescription (scd_Description schema)] ++ occurrences.*1))
         ([MkSearchExactKey name 2; MkSearchExactKey (shortSchemaName name) 2]
          ++ ((λ o, MkSearchExactKey (scd_DetailID o.2) 1) <$> occurrences))]
  end.

Definition search_builders (directory : CatalogArtifactV1) : list searchBuildRecord :=
  let operations := elems (ca_Documents directory) ≫= λ document,
    operation_builder (dd_Key document) <$> elems (dd_Operations document) in
  let groups := group_occurrences (ca_ProfileID directory) (catalog_occurrences directory) in
  let schemas := sort_strings (map_to_list groups).*1 ≫= λ key, group_builder (default [] (groups !! key)) in
  sort_by (less_by (λ b, [KS (sr_DetailID (sb_record b))])) (operations ++ schemas).

(** ** Postings *)

Record searchPostings := MkSearchPostings {
  sp_exact : gmap string (gmap Z Z);
  sp_tokens : gmap string (list Z);
  sp_trigrams : gmap string (list Z);
}.

Definition appendUniqueRecord (records : list Z) (value : Z) : list Z :=
  if bool_decide (last records = Some value) then records else records ++ [value].

(** One exact key of a record: its best priority is kept. *)
Definition add_exact (recordID : Z) (detailID : string) (matches : gmap string (gmap Z Z)) (key : searchExactKey) :
    res (gmap string (gmap Z Z)) :=
  match normalizeSearchExact (ek_value key) with
  | Fail e => if bool_decide (ek_value key = detailID) then Fail e else mret matches
  | Ok normalized =>
      let byRecord := default ∅ (matches !! normalized) in
      let better := match byRecord !! recordID with
                    | Some priority => ek_priority key <? priority
                    | None => true
                    end in
      mret (<[normalized := if better then <[recordID := ek_priority key]> byRecord else byRecord]> matches)
  end.

Definition add_token (recordID : Z) (postings : gmap string (list Z)) (token : string) : gmap string (list Z) :=
  <[token := default [] (postings !! token) ++ [recordID]]> postings.
Definition add_trigram (recordID : Z) (postings : gmap string (list Z)) (trigram : string) : gmap string (list Z) :=
  <[trigram := appendUniqueRecord (default [] (postings !! trigram)) recordID]> postings.

Fixpoint add_postings (index : Z) (postings : searchPostings) (builders : list searchBuildRecord) : res searchPostings :=
  match builders with
  | [] => mret postings
  | builder :: builders =>
      let recordID := uint32 index in
      matches ← fold_res (add_exact recordID (sr_DetailID (sb_record builder))) (sp_exact postings) (sb_exact builder);
      add_postings (index + 1)
        (MkSearchPostings matches (foldl (add_token recordID) (sp_tokens postings) (sb_tokens builder))
           (foldl (add_trigram recordID) (sp_trigrams postings) (sb_tokens builder ≫= searchTrigrams))) builders
  end.

Definition no_postings : searchPostings := MkSearchPostings ∅ ∅ ∅.

(** ** The artifacts *)

Definition buildSearchArtifacts (directory : CatalogArtifactV1) (bounds : Bounds) (resourceLimits : bool) : res SearchArtifacts :=
  let builders := search_builders directory in
  let records := sb_record <$> builders in
  let ranks := (λ record, MkSearchRankRecordV1 (sr_Title record) (sr_Kind record)) <$> records in
  postings ← add_postings 0 no_postings builders;
  let limit := bd_PostingSegmentBytes bounds in
  '(exactBuckets, exactChildren, exactUsage) ← buildExactSearchSegments (sp_exact postings) limit;
  '(tokenRoutes, postingReferences, postingChildren, postingUsage) ←
    buildPostingSearchSegments "postings" "search-posting" (sp_tokens postings) limit;
  '(trigramRoutes, trigramReferences, trigramChildren, trigramUsage) ←
    buildPostingSearchSegments "trigrams" "search-trigram" (sp_trigrams postings) limit;
  '(recordReferences, recordChildren, recordUsage) ←
    buildSearchRecordSegments records (Z.min limit maxSearchRecordSegmentBytes);
  let usage := foldl mergeSearchUsage no_usage [exactUsage; postingUsage; trigramUsage; recordUsage] in
  let directoryValue := MkSearchDirectoryV1 1 searchVersion (Some exactBuckets) (Some tokenRoutes) (Some trigramRoutes)
    (Some postingReferences) (Some trigramReferences) (Some recordReferences) (Some ranks) in
  directoryChild ← newChild "search/directory.json" "search-directory" (render (search_directory_json directoryValue));
  let children := exactChildren ++ postingChildren ++ trigramChildren ++ recordChildren ++ [directoryChild] in
  let usage := search_usage (wrap64 (bu_Children usage + 1)) (wrap64 (bu_SearchBytes usage + ch_Length directoryChild))
    (bu_PostingSegmentBytes usage) in
  throw_if (resourceLimits && (bd_SearchBytes bounds <? bu_SearchBytes usage))
    (Errorf "search usage %d exceeds %d" [EInt (bu_SearchBytes usage); EInt (bd_SearchBytes bounds)]) ;;
  mret (MkSearchArtifacts directoryValue (Some (sort_by (less_by (λ c, [KS (ch_Path c)])) children)) usage).

Definition BuildSearchArtifacts (directory : CatalogArtifactV1) (bounds : Bounds) : res SearchArtifacts :=
  buildSearchArtifacts directory bounds true.
Definition BuildSearchArtifactsWithoutResourceLimits (directory : CatalogArtifactV1) (bounds : Bounds) : res SearchArtifacts :=
  buildSearchArtifacts directory bounds false.
End build.
