(* ===== verification/SearchCodec.v ===== *)
(** * Reading search artifacts (decodeCanonicalSearchChild in application/catalog/search.go)

    A child is decoded into its struct and encoded again; other bytes than the
    canonical ones are refused.  The reader of EmbeddedJson stands for
    [json.Decoder]: it reads every canonical text ([read_canonical] below), and
    what it reads differently, such as the case of a member's name, is never
    canonical.  Integers are read at the width of their field. *)

From S2P Require Import Prelude GoString GoJson EmbeddedJson CatalogModel SearchIndex.

(** ** Fields *)

Definition members_of (v : embeddedValue) : option (list (string * embeddedValue)) :=
  if v is EObject l then Some l else None.

Definition member_of (k : string) (l : list (string * embeddedValue)) : option embeddedValue :=
  snd <$> List.find (λ kv, bool_decide (kv.1 = k)) l.

Definition read_text (v : option embeddedValue) : option string :=
  match v with
  | None => Some ""
  | Some (EString s) => Some s
  | Some _ => None
  end.
Definition read_uint (bits : Z) (v : option embeddedValue) : option Z :=
  match v with
  | None => Some 0
  | Some (ENumber text) =>
      if forallb is_digit text && (digits_value text <? 2 ^ bits) then Some (digits_value text) else None
  | Some _ => None
  end.
Definition read_slice {A} (read : embeddedValue → option A) (v : option embeddedValue) : option (slice A) :=
  match v with
  | None => Some None
  | Some (EArray l) => Some <$> mapM read l
  | Some (ELiteral text) => if bool_decide (text = bs "null") then Some None else None
  | Some _ => None
  end.

(** ** Artifacts *)

Definition read_exact_match (v : embeddedValue) : option SearchExactMatchV1 :=
  l ← members_of v;
  record ← read_uint 32 (member_of "record" l);
  priority ← read_uint 8 (member_of "priority" l);
  Some (MkSearchExactMatchV1 record priority).
Definition read_exact_entry (v : embeddedValue) : option SearchExactEntryV1 :=
  l ← members_of v;
  key ← read_text (member_of "key" l);
  matches ← read_slice read_exact_match (member_of "matches" l);
  Some (MkSearchExactEntryV1 key matches).
Definition read_exact_segment (v : embeddedValue) : option SearchExactSegmentV1 :=
  l ← members_of v;
  schemaVersion ← read_uint 32 (member_of "schemaVersion" l);
  version ← read_uint 32 (member_of "searchVersion" l);
  entries ← read_slice read_exact_entry (member_of "entries" l);
  Some (MkSearchExactSegmentV1 schemaVersion version entries).

Definition read_posting_entry (v : embeddedValue) : option SearchPostingEntryV1 :=
  l ← members_of v;
  key ← read_text (member_of "key" l);
  records ← read_slice (λ v, read_uint 32 (Some v)) (member_of "records" l);
  Some (MkSearchPostingEntryV1 key records).
Definition read_posting_segment (v : embeddedValue) : option SearchPostingSegmentV1 :=
  l ← members_of v;
  schemaVersion ← read_uint 32 (member_of "schemaVersion" l);
  version ← read_uint 32 (member_of "searchVersion" l);
  entries ← read_slice read_posting_entry (member_of "entries" l);
  Some (MkSearchPostingSegmentV1 schemaVersion version entries).

Definition read_search_record (v : embeddedValue) : option SearchRecordV1 :=
  l ← members_of v;
  detailID ← read_text (member_of "detailId" l);
  documentKey ← read_text (member_of "documentKey" l);
  kind ← read_text (member_of "kind" l);
  title ← read_text (member_of "title" l);
  description ← read_text (member_of "description" l);
  href ← read_text (member_of "href" l);
  operationID ← read_text (member_of "operationId" l);
  method ← read_text (member_of "method" l);
  path ← read_text (member_of "path" l);
  schemaName ← read_text (member_of "schemaName" l);
  occurrences ← read_uint 32 (member_of "occurrences" l);
  documents ← read_slice (λ v, read_text (Some v)) (member_of "documents" l);
  Some (MkSearchRecordV1 detailID documentKey kind title description href operationID method path schemaName
          occurrences documents).
Definition read_record_segment (v : embeddedValue) : option SearchRecordSegmentV1 :=
  l ← members_of v;
  schemaVersion ← read_uint 32 (member_of "schemaVersion" l);
  version ← read_uint 32 (member_of "searchVersion" l);
  firstRecord ← read_uint 32 (member_of "firstRecord" l);
  records ← read_slice read_search_record (member_of "records" l);
  Some (MkSearchRecordSegmentV1 schemaVersion version firstRecord records).

Definition read_reference (l : list (string * embeddedValue)) : option SearchSegmentReferenceV1 :=
  path ← read_text (member_of "path" l);
  entries ← read_uint 32 (member_of "entries" l);
  postings ← read_uint 32 (member_of "postings" l);
  length ← read_uint 64 (member_of "length" l);
  digest ← read_text (member_of "sha256" l);
  Some (MkSearchSegmentReferenceV1 path entries postings length digest).
Definition read_segment_reference (v : embeddedValue) : option SearchSegmentReferenceV1 := l ← members_of v; read_reference l.
Definition read_exact_bucket (v : embeddedValue) : option SearchExactBucketReferenceV1 :=
  l ← members_of v;
  prefix ← read_text (member_of "prefix" l);
  reference ← read_reference l;
  Some (MkSearchExactBucketReferenceV1 prefix reference).
Definition read_route (v : embeddedValue) : option SearchPostingRouteV1 :=
  l ← members_of v;
  key ← read_text (member_of "key" l);
  segment ← read_uint 16 (member_of "segment" l);
  Some (MkSearchPostingRouteV1 key segment).
Definition read_record_reference (v : embeddedValue) : option SearchRecordSegmentReferenceV1 :=
  l ← members_of v;
  path ← read_text (member_of "path" l);
  firstRecord ← read_uint 32 (member_of "firstRecord" l);
  records ← read_uint 32 (member_of "records" l);
  length ← read_uint 64 (member_of "length" l);
  digest ← read_text (member_of "sha256" l);
  Some (MkSearchRecordSegmentReferenceV1 path firstRecord records length digest).
Definition read_rank (v : embeddedValue) : option SearchRankRecordV1 :=
  l ← members_of v;
  title ← read_text (member_of "t" l);
  kind ← read_text (member_of "k" l);
  Some (MkSearchRankRecordV1 title kind).
Definition read_search_directory (v : embeddedValue) : option SearchDirectoryV1 :=
  l ← members_of v;
  schemaVersion ← read_uint 32 (member_of "schemaVersion" l);
  version ← read_uint 32 (member_of "searchVersion" l);
  exactBuckets ← read_slice read_exact_bucket (member_of "exactBuckets" l);
  tokenRoutes ← read_slice read_route (member_of "tokenRoutes" l);
  trigramRoutes ← read_slice read_route (member_of "trigramRoutes" l);
  postingSegments ← read_slice read_segment_reference (member_of "postingSegments" l);
  trigramSegments ← read_slice read_segment_reference (member_of "trigramSegments" l);
  recordSegments ← read_slice read_record_reference (member_of "recordSegments" l);
  ranks ← read_slice read_rank (member_of "ranks" l);
  Some (MkSearchDirectoryV1 schemaVersion version exactBuckets tokenRoutes trigramRoutes postingSegments
          trigramSegments recordSegments ranks).

(** [decodeCanonicalSearchChild(data, &value)] *)
Definition decodeCanonicalSearchChild {A} (read : embeddedValue → option A) (encode : A → json) (data : list Z) : res A :=
  match decodeEmbeddedValue false 65 0 data ≫= (λ p, read p.1) with
  | None => Fail (Errorf "json: cannot unmarshal" [])
  | Some value =>
      throw_if (negb (bool_decide (render (encode value) = data))) (Errorf "search JSON is non-canonical" []) ;;
      mret value
  end.
