(* ===== verification/SearchQuery.v ===== *)
(** * Searching a catalog (application/catalog/search.go)

    A query is normalised; records whose exact keys equal it come first, then
    records that have all its tokens, as prefixes or, for a token no key starts
    with, nearly.  Segments are loaded on demand within a budget.

    The parent context and the one with the deadline are the lists of the
    answers their [Err] gives, the time a search takes is left out.  A child is
    loaded from the snapshot or by a loader that may fail. *)

From S2P Require Import Prelude GoString GoSha256 CatalogIdentity CatalogModel CatalogRuntime SearchText CatalogChildren SearchIndex SearchCodec.

Definition maxSearchSegments : Z := 16.
Definition maxSearchRecordSegments : Z := 20.
Definition maxSearchTokenSegments : Z := 8.
Definition maxSearchDecodedBytes : Z := Z.shiftl 2 20.
Definition maxSearchPostings : Z := 10000.
Definition maxSearchResults : nat := 20.
Definition maxSearchFuzzyTokenRoutes : nat := 8.

Definition ErrQueryTooBroad : error := Errorf "query_too_broad" [].
Definition ErrSearchDeadline : error := Errorf "search_deadline" [].
Definition too_broad (format : string) : error := Errorf format [EErr ErrQueryTooBroad].
Definition DeadlineExceeded : string := "context deadline exceeded".

(** ** Binary search *)

(** [sort.Search(n, f)]: the loop over [i] and [j]; it halves the range, so [n]
    steps suffice. *)
Fixpoint search_between (steps : nat) (f : nat → bool) (i j : nat) : nat :=
  match steps with
  | O => i
  | S steps =>
      if (i <? j)%nat then
        let h := ((i + j) / 2)%nat in
        if f h then search_between steps f i h else search_between steps f (S h) j
      else i
  end.
Definition sort_Search (n : nat) (f : nat → bool) : nat := search_between n f 0 n.

(** [l[i].key >= key] *)
Definition key_from {A} (key_of : A → string) (l : list A) (key : string) (i : nat) : bool :=
  match l !! i with
  | Some x => negb (key_of x <? key)%string
  | None => true
  end.

(** ** Routes *)

(** The run of routes from here whose keys have a prefix. *)
Fixpoint with_prefix (prefix : string) (routes : list SearchPostingRouteV1) : list SearchPostingRouteV1 :=
  match routes with
  | [] => []
  | route :: routes => if HasPrefix (spr_Key route) prefix then route :: with_prefix prefix routes else []
  end.

Definition postingRoutes (routes : list SearchPostingRouteV1) (key : string) (allowPrefix : bool) : list SearchPostingRouteV1 :=
  let start := sort_Search (length routes) (key_from spr_Key routes key) in
  match routes !! start with
  | Some route =>
      if bool_decide (spr_Key route = key) then [route]
      else if allowPrefix then with_prefix key (drop start routes) else []
  | None => []
  end.

Definition exactPostingRoute (routes : list SearchPostingRouteV1) (key : string) : option SearchPostingRouteV1 :=
  head (postingRoutes routes key false).

(** *** Near keys *)

Definition row_cell (row : list Z) (i : nat) : Z := row !!! i.

(** One cell: [i] and [j] count from 1. *)
Definition distance_cell (left right : list Z) (previousPrevious previous current : list Z) (i j : nat) : Z :=
  let cost := if bool_decide (left !! (i - 1)%nat = right !! (j - 1)%nat) then 0 else 1 in
  let value := Z.min (Z.min (row_cell previous j + 1) (row_cell current (j - 1) + 1)) (row_cell previous (j - 1) + cost) in
  if (1 <? i)%nat && (1 <? j)%nat && bool_decide (left !! (i - 1)%nat = right !! (j - 2)%nat)
     && bool_decide (left !! (i - 2)%nat = right !! (j - 1)%nat)
  then Z.min value (row_cell previousPrevious (j - 2) + 1) else value.

Definition distance_row (left right : list Z) (rows : list Z * list Z) (i : nat) : list Z * list Z :=
  let '(previousPrevious, previous) := rows in
  let current := foldl (λ current j, current ++ [distance_cell left right previousPrevious previous current i j])
                   [Z.of_nat i] (seq 1 (length right)) in
  (previous, current).

Definition boundedDamerauLevenshtein (left right : list Z) (limit : Z) : Z * bool :=
  let difference := Z.of_nat (length left) - Z.of_nat (length right) in
  if (limit <? difference) || (difference <? - limit) then (limit + 1, false)
  else
    let rows := foldl (distance_row left right)
      (replicate (S (length right)) 0, Z.of_nat <$> seq 0 (S (length right))) (seq 1 (length left)) in
    let distance := row_cell rows.2 (length right) in
    (distance, distance <=? limit).

(** A route and its distance, of the routes with the first rune of the token. *)
Definition near_routes (token : list Z) (maxDistance : Z) (routes : list SearchPostingRouteV1) : list (SearchPostingRouteV1 * Z) :=
  omap (λ route,
    let candidate := runes (spr_Key route) in
    let difference := Z.of_nat (length candidate) - Z.of_nat (length token) in
    if (maxDistance <? difference) || (difference <? - maxDistance) then None
    else let '(distance, matched) := boundedDamerauLevenshtein token candidate maxDistance in
         if matched then Some (route, distance) else None) routes.

Definition fuzzyPostingRoutes (routes : list SearchPostingRouteV1) (token : string) (limit : nat) : list SearchPostingRouteV1 :=
  let tokenRunes := runes token in
  if (length tokenRunes <? 4)%nat || bool_decide (limit = 0%nat) then []
  else
    let maxDistance := if (8 <=? length tokenRunes)%nat then 2 else 1 in
    let first := of_runes (take 1 tokenRunes) in
    let start := sort_Search (length routes) (key_from spr_Key routes first) in
    let matches := near_routes tokenRunes maxDistance (with_prefix first (drop start routes)) in
    take limit (sort_by (less_by (λ m, [KZ m.2; KS (spr_Key m.1)])) matches).*1.

(** ** Sets of records, as sorted lists *)

Section merge.
Context (left : Z) (lefts : list Z) (union_with : list Z → list Z).
Fixpoint union_right (right : list Z) : list Z :=
  match right with
  | [] => left :: lefts
  | y :: right' =>
      if left <? y then left :: union_with right
      else if y <? left then y :: union_right right'
      else left :: union_with right'
  end.
End merge.
Fixpoint unionRecordIDs (left right : list Z) : list Z :=
  match left with
  | [] => right
  | x :: lefts => union_right x lefts (unionRecordIDs lefts) right
  end.

Section meet.
Context (left : Z) (intersect_with : list Z → list Z).
Fixpoint intersect_right (right : list Z) : list Z :=
  match right with
  | [] => []
  | y :: right' =>
      if left <? y then intersect_with right
      else if y <? left then intersect_right right'
      else left :: intersect_with right'
  end.
End meet.
Fixpoint intersectRecordIDs (left right : list Z) : list Z :=
  match left with
  | [] => []
  | x :: lefts => intersect_right x (intersectRecordIDs lefts) right
  end.

Fixpoint deduplicate_after (previous : Z) (values : list Z) : list Z :=
  match values with
  | [] => []
  | value :: values =>
      if value =? previous then deduplicate_after previous values else value :: deduplicate_after value values
  end.
Definition deduplicateRecordIDs (values : list Z) : list Z :=
  match values with
  | [] => []
  | value :: values => value :: deduplicate_after value values
  end.

(** ** The exact bucket of a digest *)

(** The most specific prefix, tried from the longest. *)
Fixpoint bucket_from (buckets : list SearchExactBucketReferenceV1) (digestHex : string) (length_ : nat) :
    option SearchExactBucketReferenceV1 :=
  match length_ with
  | O => None
  | S shorter =>
      let prefix := String.substring 0 length_ digestHex in
      match buckets !! sort_Search (length buckets) (key_from seb_Prefix buckets prefix) with
      | Some bucket => if bool_decide (seb_Prefix bucket = prefix) then Some bucket else bucket_from buckets digestHex shorter
      | None => bucket_from buckets digestHex shorter
      end
  end.
Definition exactSearchBucket (buckets : list SearchExactBucketReferenceV1) (digestHex : string) :
    option SearchExactBucketReferenceV1 :=
  bucket_from buckets digestHex (String.length digestHex).

(** ** The service *)

Record searchLoadReceipt := MkSearchLoadReceipt {
  lr_postings : Z;
  lr_segments : Z;
  lr_recordSegments : Z;
  lr_bytes : Z;
  lr_loaded : gset string;
}.
Definition empty_receipt : searchLoadReceipt := MkSearchLoadReceipt 0 0 0 0 ∅.

Record searchState := MkSearchState {
  ss_parent : list (res unit);
  ss_bounded : list (res unit);
  ss_receipt : searchLoadReceipt;
}.
Abbreviation searching := (stM searchState).

Definition with_receipt (receipt : searchLoadReceipt) (s : searchState) : searchState :=
  MkSearchState (ss_parent s) (ss_bounded s) receipt.

(** [ctx.Err()] and [searchContext.Err()] *)
Definition parent_err : searching unit := λ s,
  match ss_parent s with
  | [] => (s, Ok tt)
  | answer :: rest => (MkSearchState rest (ss_bounded s) (ss_receipt s), answer)
  end.
Definition bounded_err : searching unit := λ s,
  match ss_bounded s with
  | [] => (s, Ok tt)
  | answer :: rest => (MkSearchState (ss_parent s) rest (ss_receipt s), answer)
  end.

Definition searchError {A} (err : error) : searching A := λ s,
  match parent_err s with
  | (s, Fail e) => (s, Fail e)
  | (s, Ok _) =>
      match bounded_err s with
      | (s, Fail e) => (s, Fail (if Is DeadlineExceeded e then ErrSearchDeadline else err))
      | (s, Ok _) => (s, Fail err)
      end
  end.
(** [if err != nil { return searchError(ctx, searchContext, err) }] *)
Definition or_search_error {A} (m : searching A) : searching A := λ s,
  match m s with
  | (s, Ok a) => (s, Ok a)
  | (s, Fail e) => searchError e s
  end.
(** [x, err := m] *)
Definition attempt {A} (m : searching A) : searching (res A) := λ s, let '(s, r) := m s in (s, Ok r).

Record searchRecordSegmentCacheEntry := MkSearchRecordSegmentCacheEntry {
  rc_reference : SearchRecordSegmentReferenceV1;
  rc_segment : SearchRecordSegmentV1;
}.

(** A loader of children: path, kind, length and digest. *)
Definition childLoader : Type := string → string → Z → string → searching ChildArtifact.

Record SearchService := MkSearchService {
  sv_catalogID : string;
  sv_snapshotID : SnapshotID;
  sv_directory : SearchDirectoryV1;
  sv_children : option (gmap string ChildArtifact);
  sv_recordSegments : gmap string searchRecordSegmentCacheEntry;
  sv_child : option childLoader;
}.

#[export] Instance record_reference_eq_dec : EqDecision SearchRecordSegmentReferenceV1.
Proof. solve_decision. Defined.

Definition verifySearchChild (child : ChildArtifact) (length_ : Z) (digest : string) : res unit :=
  throw_if (negb (ch_Length child =? length_) || negb (Z.of_nat (length (ch_Bytes child)) =? length_)
            || negb (bool_decide (ch_SHA256 child = digest)))
    (Errorf "search child %q metadata differs" [EStr (ch_Path child)]) ;;
  throw_if (negb (bool_decide (hex_encode (sha256 (ch_Bytes child)) = digest)))
    (Errorf "search child %q digest differs" [EStr (ch_Path child)]).

Definition searchChild (service : SearchService) : childLoader := λ pathValue kind length_ digest,
  match sv_children service with
  | Some children =>
      match children !! pathValue with
      | Some child =>
          lift (throw_if (negb (bool_decide (ch_Kind child = kind))) (Errorf "search child %q is missing" [EStr pathValue])) ;;
          lift (verifySearchChild child length_ digest) ;;
          mret child
      | None => lift (Fail (Errorf "search child %q is missing" [EStr pathValue]))
      end
  | None =>
      match sv_child service with
      | Some load => load pathValue kind length_ digest
      | None => lift (Fail (Errorf "search child loader is unavailable" []))
      end
  end.

(** ** Budgets *)

Definition reserveSearchReference (reference : SearchSegmentReferenceV1) (maxSegments : Z) : searching unit :=
  receipt ← gets ss_receipt;
  if bool_decide (ssr_Path reference ∈ lr_loaded receipt) then mret tt
  else
    lift (throw_if (maxSegments <? lr_segments receipt + 1) (too_broad "%w: decoded segments")) ;;
    lift (throw_if (maxSearchDecodedBytes <? wrap64 (lr_bytes receipt + ssr_Length reference)) (too_broad "%w: decoded bytes")) ;;
    lift (throw_if (maxSearchPostings <? wrap64 (lr_postings receipt + ssr_Postings reference)) (too_broad "%w: postings")) ;;
    modify (with_receipt (MkSearchLoadReceipt (wrap64 (lr_postings receipt + ssr_Postings reference)) (lr_segments receipt + 1)
      (lr_recordSegments receipt) (wrap64 (lr_bytes receipt + ssr_Length reference)) ({[ssr_Path reference]} ∪ lr_loaded receipt))).

Definition reserveSearchRecordReference (reference : SearchRecordSegmentReferenceV1) : searching unit :=
  receipt ← gets ss_receipt;
  if bool_decide (srs_Path reference ∈ lr_loaded receipt) then mret tt
  else
    lift (throw_if (maxSearchRecordSegments <? lr_recordSegments receipt + 1) (too_broad "%w: decoded record segments")) ;;
    lift (throw_if (maxSearchDecodedBytes <? wrap64 (lr_bytes receipt + srs_Length reference)) (too_broad "%w: decoded record bytes")) ;;
    modify (with_receipt (MkSearchLoadReceipt (lr_postings receipt) (lr_segments receipt + 1) (lr_recordSegments receipt + 1)
      (wrap64 (lr_bytes receipt + srs_Length reference)) ({[srs_Path reference]} ∪ lr_loaded receipt))).

Definition countExactMatches (entries : list SearchExactEntryV1) : Z := count_exact entries.
Definition countPostingRecords (entries : list SearchPostingEntryV1) : Z :=
  foldl (λ count e, uint32 (count + uint32 (posting_records e))) 0 entries.

(** ** Loading *)

Definition loadExactMatches (service : SearchService) (key : string) : searching (list SearchExactMatchV1) :=
  let digestHex := hex_encode (sha256 (bytes_of key)) in
  match exactSearchBucket (elems (sdir_ExactBuckets (sv_directory service))) digestHex with
  | None => mret []
  | Some bucket =>
      let reference := seb_SearchSegmentReferenceV1 bucket in
      reserveSearchReference reference maxSearchSegments ;;
      child ← searchChild service (ssr_Path reference) "search-exact" (ssr_Length reference) (ssr_SHA256 reference);
      bounded_err ;;
      segment ← lift (wrap_err (decodeCanonicalSearchChild read_exact_segment exact_segment_json (ch_Bytes child))
        (λ e, Errorf "decode exact search segment %q: %w" [EStr (ssr_Path reference); EErr e]));
      let entries := elems (ses_Entries segment) in
      lift (throw_if (negb (ses_SchemaVersion segment =? 1) || negb (ses_SearchVersion segment =? searchVersion)
                      || negb (Z.of_nat (length entries) =? ssr_Entries reference)
                      || negb (countExactMatches entries =? ssr_Postings reference))
        (Errorf "exact search segment %q is invalid" [EStr (ssr_Path reference)])) ;;
      mret match entries !! sort_Search (length entries) (key_from see_Key entries key) with
           | Some entry => if bool_decide (see_Key entry = key) then elems (see_Matches entry) else []
           | None => []
           end
  end.

Definition load_posting_segment (service : SearchService) (kind : string) (reference : SearchSegmentReferenceV1) :
    searching (list SearchPostingEntryV1) :=
  bounded_err ;;
  child ← searchChild service (ssr_Path reference) kind (ssr_Length reference) (ssr_SHA256 reference);
  segment ← lift (wrap_err (decodeCanonicalSearchChild read_posting_segment posting_segment_json (ch_Bytes child))
    (λ e, Errorf "decode posting search segment %q: %w" [EStr (ssr_Path reference); EErr e]));
  let entries := elems (sps_Entries segment) in
  lift (throw_if (negb (sps_SchemaVersion segment =? 1) || negb (sps_SearchVersion segment =? searchVersion)
                  || negb (Z.of_nat (length entries) =? ssr_Entries reference)
                  || negb (countPostingRecords entries =? ssr_Postings reference))
    (Errorf "posting search segment %q is invalid" [EStr (ssr_Path reference)])) ;;
  mret entries.

Fixpoint load_posting_segments (service : SearchService) (kind : string) (result : gmap string (list Z))
    (references : list SearchSegmentReferenceV1) : searching (gmap string (list Z)) :=
  match references with
  | [] => mret result
  | reference :: references =>
      entries ← load_posting_segment service kind reference;
      load_posting_segments service kind
        (foldl (λ result entry, <[spe_Key entry := elems (spe_Records entry)]> result) result entries) references
  end.

(** The segments of some ordinals, in order. *)
Definition posting_references (references : list SearchSegmentReferenceV1) (ordinals : gset Z) :
    res (list SearchSegmentReferenceV1) :=
  throw_if (existsb (λ ordinal, Z.of_nat (length references) <=? ordinal) (elements ordinals))
    (Errorf "search posting segment ordinal is invalid" []) ;;
  mret (omap (λ ordinal, references !! Z.to_nat ordinal) (sort_by (less_by (λ ordinal, [KZ ordinal])) (elements ordinals))).

Definition loadPostingEntries (service : SearchService) (references : list SearchSegmentReferenceV1) (ordinals : gset Z)
    (kind : string) : searching (gmap string (list Z)) :=
  ordered ← lift (posting_references references ordinals);
  st_for_each (λ reference, reserveSearchReference reference maxSearchSegments) ordered ;;
  load_posting_segments service kind ∅ ordered.

Record routeGroup := MkRouteGroup {
  rg_keys : list string;
  rg_prefix : bool;
  rg_fuzzy : bool;
}.

(** The routes of a token: the keys it begins, or near keys. *)
Definition token_routes (routes : list SearchPostingRouteV1) (token : string) : option (routeGroup * list SearchPostingRouteV1) :=
  match postingRoutes routes token true with
  | [] =>
      match fuzzyPostingRoutes routes token maxSearchFuzzyTokenRoutes with
      | [] => None
      | near => Some (MkRouteGroup (spr_Key <$> near) false true, near)
      end
  | (route :: rest) as matched =>
      let single := bool_decide (rest = []) && bool_decide (spr_Key route = token) in
      Some (MkRouteGroup (spr_Key <$> matched) (negb single) false, matched)
  end.

(** The records of the groups so far, and whether a prefix or near key was used. *)
Fixpoint intersect_groups (entries : gmap string (list Z)) (candidates : option (list Z)) (prefix fuzzy : bool)
    (groups : list routeGroup) : list Z * bool * bool :=
  match groups with
  | [] => (default [] candidates, prefix, fuzzy)
  | group :: groups =>
      let found := foldl (λ found key, unionRecordIDs found (default [] (entries !! key))) [] (rg_keys group) in
      let candidates := match candidates with None => found | Some candidates => intersectRecordIDs candidates found end in
      let prefix := prefix || rg_prefix group in
      let fuzzy := fuzzy || rg_fuzzy group in
      match candidates with
      | [] => ([], prefix, fuzzy)
      | _ => intersect_groups entries (Some candidates) prefix fuzzy groups
      end
  end.

Definition loadRankedCandidateIDs (service : SearchService) (tokens : list string) : searching (list Z * bool * bool) :=
  let directory := sv_directory service in
  match mapM (token_routes (elems (sdir_TokenRoutes directory))) tokens with
  | None => mret ([], false, false)
  | Some groups =>
      let ordinals : gset Z := list_to_set (groups ≫= λ g, spr_Segment <$> g.2) in
      lift (throw_if (maxSearchTokenSegments <? Z.of_nat (size ordinals)) (too_broad "%w: posting segment fanout")) ;;
      entries ← loadPostingEntries service (elems (sdir_PostingSegments directory)) ordinals "search-posting";
      mret (intersect_groups entries None false false groups.*1)
  end.

(** ** Records *)

Definition decodeSearchRecordSegment (child : ChildArtifact) (reference : SearchRecordSegmentReferenceV1) :
    res SearchRecordSegmentV1 :=
  segment ← wrap_err (decodeCanonicalSearchChild read_record_segment record_segment_json (ch_Bytes child))
    (λ e, Errorf "decode search record segment %q: %w" [EStr (srs_Path reference); EErr e]);
  throw_if (negb (srsx_SchemaVersion segment =? 1) || negb (srsx_SearchVersion segment =? searchVersion)
            || negb (srsx_FirstRecord segment =? srs_FirstRecord reference)
            || negb (Z.of_nat (length (elems (srsx_Records segment))) =? srs_Records reference))
    (Errorf "search record segment %q is invalid" [EStr (srs_Path reference)]) ;;
  mret segment.

(** The index of the record segment of a record. *)
Definition record_segment_index (references : list SearchRecordSegmentReferenceV1) (recordID : Z) : res nat :=
  let index := sort_Search (length references)
    (λ i, match references !! i with
          | Some reference => recordID <? srs_FirstRecord reference + srs_Records reference
          | None => true
          end) in
  match references !! index with
  | Some reference =>
      throw_if (recordID <? srs_FirstRecord reference) (Errorf "search record ordinal %d is invalid" [EInt recordID]) ;;
      mret index
  | None => Fail (Errorf "search record ordinal %d is invalid" [EInt recordID])
  end.

Definition load_record_segment (service : SearchService) (reference : SearchRecordSegmentReferenceV1) :
    searching SearchRecordSegmentV1 :=
  bounded_err ;;
  child ← searchChild service (srs_Path reference) "search-record" (srs_Length reference) (srs_SHA256 reference);
  match sv_recordSegments service !! srs_Path reference with
  | Some cached =>
      if bool_decide (rc_reference cached = reference) then mret (rc_segment cached)
      else lift (decodeSearchRecordSegment child reference)
  | None => lift (decodeSearchRecordSegment child reference)
  end.

(** [byID]: the records of a segment under their ordinals. *)
Definition add_segment_records (byID : gmap Z SearchRecordV1) (segment : SearchRecordSegmentV1) : gmap Z SearchRecordV1 :=
  (foldl (λ '(byID, offset) record,
    (<[uint32 (srsx_FirstRecord segment + uint32 offset) := record]> byID, offset + 1)) (byID, 0) (elems (srsx_Records segment))).1.

Fixpoint load_record_segments (service : SearchService) (byID : gmap Z SearchRecordV1)
    (references : list SearchRecordSegmentReferenceV1) : searching (gmap Z SearchRecordV1) :=
  match references with
  | [] => mret byID
  | reference :: references =>
      segment ← load_record_segment service reference;
      load_record_segments service (add_segment_records byID segment) references
  end.

Definition loadSearchRecords (service : SearchService) (recordIDs : list Z) : searching (list SearchRecordV1) :=
  match recordIDs with
  | [] => mret []
  | _ =>
      let references := elems (sdir_RecordSegments (sv_directory service)) in
      indexes ← lift (collect (λ recordID, index ← record_segment_index references recordID; mret [index]) recordIDs);
      let ordered := omap (λ index, references !! index)
        (sort_by (less_by (λ index, [KZ (Z.of_nat index)])) (elements (list_to_set (C := gset nat) indexes))) in
      st_for_each reserveSearchRecordReference ordered ;;
      byID ← load_record_segments service ∅ ordered;
      lift (collect (λ recordID,
        match byID !! recordID with
        | Some record => mret [record]
        | None => Fail (Errorf "search record ordinal %d is missing" [EInt recordID])
        end) recordIDs)
  end.

(** ** Ranking *)

Definition SearchMatchFuzzy : Z := 2.
Definition SearchMatchPrefix : Z := 3.
Definition SearchMatchExactToken : Z := 4.
Definition SearchMatchExactIdentity : Z := 5.

Record rankedSearchID := MkRankedSearchID {
  rk_recordID : Z;
  rk_kind : Z;
  rk_priority : Z;
  rk_quality : Z;
  rk_title : bool;
  rk_text : string;
}.

Definition searchKindPriority (kind : string) : Z :=
  if bool_decide (kind = "operation") then 0 else if bool_decide (kind = "schema") then 1 else 2.

Definition ranked_before (left right : rankedSearchID) : bool :=
  if negb (rk_quality left =? rk_quality right) then rk_quality right <? rk_quality left
  else if negb (rk_priority left =? rk_priority right) then
    if rk_priority left =? 0 then false
    else if rk_priority right =? 0 then true
    else rk_priority left <? rk_priority right
  else if negb (rk_kind left =? rk_kind right) then rk_kind left <? rk_kind right
  else if negb (Bool.eqb (rk_title left) (rk_title right)) then rk_title left
  else if negb (go_len (rk_text left) =? go_len (rk_text right)) then go_len (rk_text left) <? go_len (rk_text right)
  else rk_recordID left <? rk_recordID right.

Record SearchResult := MkSearchResult {
  sres_CatalogID : string;
  sres_SnapshotID : SnapshotID;
  sres_SearchVersion : Z;
  sres_Query : string;
  sres_Results : list SearchRecordV1;
  sres_MatchQualities : list Z;
  sres_PostingsScanned : Z;
  sres_SegmentsDecoded : Z;
  sres_BytesDecoded : Z;
}.

Section search.
Context `{SearchTables}.

Fixpoint rank_candidates (ranks : list SearchRankRecordV1) (exact : string) (priority quality : gmap Z Z)
    (candidateIDs : list Z) : searching (list rankedSearchID) :=
  match candidateIDs with
  | [] => mret []
  | recordID :: candidateIDs =>
      or_search_error bounded_err ;;
      rank ← lift match ranks !! Z.to_nat recordID with
        | Some rank => mret rank
        | None => Fail (Errorf "search rank record ordinal %d is invalid" [EInt recordID])
        end;
      let title := match normalizeSearchExact (srk_Title rank) with Ok title => title | Fail _ => "" end in
      ranked ← rank_candidates ranks exact priority quality candidateIDs;
      mret (MkRankedSearchID recordID (searchKindPriority (srk_Kind rank)) (default 0 (priority !! recordID))
              (default 0 (quality !! recordID)) (bool_decide (title = exact)) (srk_Title rank) :: ranked)
  end.

(** The candidates of the tokens, merged with the exact matches. *)
Record candidateState := MkCandidateState {
  cd_IDs : list Z;
  cd_quality : gmap Z Z;
}.

Definition raise_quality (quality : Z) (qualities : gmap Z Z) (recordID : Z) : gmap Z Z :=
  if default 0 (qualities !! recordID) <? quality then <[recordID := quality]> qualities else qualities.

Definition merge_tokens (found : bool) (state : candidateState) (outcome : res (list Z * bool * bool)) :
    searching candidateState :=
  match outcome with
  | Fail e => if negb found || negb (Is "query_too_broad" e) then searchError e else mret state
  | Ok (tokenCandidates, anyPrefix, anyFuzzy) =>
      let quality := if anyFuzzy then SearchMatchFuzzy else if anyPrefix then SearchMatchPrefix else SearchMatchExactToken in
      let qualities := foldl (raise_quality quality) (cd_quality state) tokenCandidates in
      let merged := unionRecordIDs (cd_IDs state) tokenCandidates in
      if maxSearchPostings <? Z.of_nat (length merged) then
        if found then mret (MkCandidateState (cd_IDs state) qualities)
        else lift (Fail (too_broad "%w: candidate records"))
      else mret (MkCandidateState merged qualities)
  end.
Definition merge_candidates (service : SearchService) (exact : string) (found : bool) (state : candidateState) :
    searching candidateState :=
  match tokenizeNormalizedSearchExact exact with
  | Fail e => if found then mret state else lift (Fail e)
  | Ok normalized => outcome ← attempt (loadRankedCandidateIDs service (nq_Tokens normalized)); merge_tokens found state outcome
  end.

Definition exact_candidates (matches : list SearchExactMatchV1) : candidateState :=
  MkCandidateState
    (deduplicateRecordIDs (sort_by (less_by (λ recordID, [KZ recordID])) (sem_Record <$> matches)))
    (foldl (λ qualities recordID, <[recordID := SearchMatchExactIdentity]> qualities) ∅ (sem_Record <$> matches)).
Definition exact_priorities (matches : list SearchExactMatchV1) : gmap Z Z :=
  foldl (λ priorities m, <[sem_Record m := sem_Priority m]> priorities) ∅ matches.

(** The first results; exact ones only when all together are too much to load. *)
Definition selected_results (service : SearchService) (found : bool) (base : searchLoadReceipt) (ranked : list rankedSearchID)
    (selectedIDs : list Z) (outcome : res (list SearchRecordV1)) : searching (list Z * list SearchRecordV1) :=
  match outcome with
  | Ok results => mret (selectedIDs, results)
  | Fail e =>
      if found && Is "query_too_broad" e then
        let selectedIDs := take maxSearchResults (rk_recordID <$> filter (λ m, rk_quality m = SearchMatchExactIdentity) ranked) in
        modify (with_receipt base) ;;
        results ← or_search_error (loadSearchRecords service selectedIDs);
        mret (selectedIDs, results)
      else searchError e
  end.
Definition load_selected (service : SearchService) (found : bool) (ranked : list rankedSearchID) :
    searching (list Z * list SearchRecordV1) :=
  base ← gets ss_receipt;
  let selectedIDs := take maxSearchResults (rk_recordID <$> ranked) in
  outcome ← attempt (loadSearchRecords service selectedIDs);
  selected_results service found base ranked selectedIDs outcome.

(** [SearchCanonical]; the query is a canonical one. *)
Definition SearchCanonical (service : SearchService) (snapshot : SnapshotID) (exact : string) : searching SearchResult :=
  parent_err ;;
  lift (throw_if (negb (bool_decide (snapshot = sv_snapshotID service))) (Errorf "search snapshot %q is not active" [EStr snapshot])) ;;
  lift (throw_if (bool_decide (exact = "")) (invalid_query "%w: canonical query is empty")) ;;
  modify (with_receipt empty_receipt) ;;
  exactMatches ← or_search_error (loadExactMatches service exact);
  let found := negb (bool_decide (exactMatches = [])) in
  state ← merge_candidates service exact found (exact_candidates exactMatches);
  lift (throw_if (maxSearchPostings <? Z.of_nat (length (cd_IDs state))) (too_broad "%w: candidate records")) ;;
  ranked ← rank_candidates (elems (sdir_Ranks (sv_directory service))) exact (exact_priorities exactMatches)
    (cd_quality state) (cd_IDs state);
  '(selectedIDs, results) ← load_selected service found (sort_by ranked_before ranked);
  receipt ← gets ss_receipt;
  mret (MkSearchResult (sv_catalogID service) (sv_snapshotID service) searchVersion exact results
          ((λ recordID, default 0 (cd_quality state !! recordID)) <$> selectedIDs)
          (lr_postings receipt) (lr_segments receipt) (lr_bytes receipt)).

Definition CanonicalizeSearchQuery (input : string) : res string := normalizeSearchExact input.

Definition Search (service : SearchService) (snapshot : SnapshotID) (query : string) : searching SearchResult :=
  parent_err ;;
  lift (throw_if (negb (bool_decide (snapshot = sv_snapshotID service))) (Errorf "search snapshot %q is not active" [EStr snapshot])) ;;
  canonical ← lift (CanonicalizeSearchQuery query);
  SearchCanonical service snapshot canonical.
End search.

(** ** Making a service *)

Fixpoint check_buckets (previous : option string) (buckets : list SearchExactBucketReferenceV1) : res unit :=
  match buckets with
  | [] => Ok tt
  | bucket :: buckets =>
      let prefix := seb_Prefix bucket in
      throw_if (bool_decide (prefix = "") || (64 <? go_len prefix) || negb (forallb is_lower_hex (bytes_of prefix))
                || match previous with Some previous => negb (previous <? prefix)%string | None => false end)
        (Errorf "search exact buckets are invalid" []) ;;
      check_buckets (Some prefix) buckets
  end.
Fixpoint check_routes (segments : Z) (previous : option string) (routes : list SearchPostingRouteV1) : res unit :=
  match routes with
  | [] => mret tt
  | route :: routes =>
      let key := spr_Key route in
      throw_if (bool_decide (key = "") || (segments <=? spr_Segment route)
                || match previous with Some previous => negb (previous <? key)%string | None => false end)
        (Errorf "search posting routes are invalid" []) ;;
      check_routes segments (Some key) routes
  end.
(** [next] is one past the records of the segment before. *)
Fixpoint check_record_references (next : option Z) (references : list SearchRecordSegmentReferenceV1) : res unit :=
  match references with
  | [] => mret tt
  | reference :: references =>
      throw_if ((srs_Records reference =? 0)
                || match next with Some next => negb (next =? srs_FirstRecord reference) | None => false end)
        (Errorf "search record segments are invalid" []) ;;
      check_record_references (Some (srs_FirstRecord reference + srs_Records reference)) references
  end.

Definition validateSearchDirectory (value : SearchDirectoryV1) : res unit :=
  check_buckets None (elems (sdir_ExactBuckets value)) ;;
  check_routes (Z.of_nat (length (elems (sdir_PostingSegments value)))) None (elems (sdir_TokenRoutes value)) ;;
  check_routes (Z.of_nat (length (elems (sdir_TrigramSegments value)))) None (elems (sdir_TrigramRoutes value)) ;;
  check_record_references None (elems (sdir_RecordSegments value)) ;;
  throw_if (negb (foldl (λ count r, wrap64 (count + srs_Records r)) 0 (elems (sdir_RecordSegments value))
                  =? Z.of_nat (length (elems (sdir_Ranks value)))))
    (Errorf "search rank records are invalid" []) ;;
  for_each (λ rank,
    throw_if (bool_decide (srk_Title rank = "")) (Errorf "search rank record title is empty" []) ;;
    throw_if (negb (bool_decide (srk_Kind rank ∈ [""; "operation"; "schema"]))) (Errorf "search rank record kind is invalid" []))
    (elems (sdir_Ranks value)).

Definition newSearchService (catalogID : string) (snapshotID : SnapshotID) (directory : SearchDirectoryV1)
    (child : option childLoader) : res SearchService :=
  throw_if (negb (sdir_SchemaVersion directory =? 1) || negb (sdir_SearchVersion directory =? searchVersion))
    (Errorf "search directory version is unsupported" []) ;;
  validateSearchDirectory directory ;;
  mret (MkSearchService catalogID snapshotID directory None ∅ child).

(** [prepareSearchRecordSegments] *)
Definition prepareSearchRecordSegments (children : gmap string ChildArtifact) (references : list SearchRecordSegmentReferenceV1) :
    res (gmap string searchRecordSegmentCacheEntry) :=
  fold_res (λ (segments : gmap string searchRecordSegmentCacheEntry) reference,
    match children !! srs_Path reference with
    | Some child =>
        throw_if (negb (bool_decide (ch_Kind child = "search-record"))) (Errorf "search child %q is missing" [EStr (srs_Path reference)]) ;;
        verifySearchChild child (srs_Length reference) (srs_SHA256 reference) ;;
        segment ← decodeSearchRecordSegment child reference;
        mret (<[srs_Path reference := MkSearchRecordSegmentCacheEntry reference segment]> segments)
    | None => Fail (Errorf "search child %q is missing" [EStr (srs_Path reference)])
    end) ∅ references.

Definition children_by_path (children : list ChildArtifact) : res (gmap string ChildArtifact) :=
  fold_res (λ (known : gmap string ChildArtifact) child,
    throw_if (bool_decide (is_Some (known !! ch_Path child))) (Errorf "search child path %q is duplicated" [EStr (ch_Path child)]) ;;
    mret (<[ch_Path child := child]> known)) ∅ children.

Definition NewSearchService (snapshot : CompiledSnapshot) : res SearchService :=
  children ← children_by_path (elems (cs_Children snapshot));
  directoryChild ← match children !! ca_SearchChild (cs_Directory snapshot) with
    | Some child => Ok child
    | None => Fail (Errorf "search directory child is missing" [])
    end;
  throw_if (negb (bool_decide (ch_Kind directoryChild = "search-directory"))) (Errorf "search directory child is missing" []) ;;
  verifySearchChild directoryChild (ch_Length directoryChild) (ch_SHA256 directoryChild) ;;
  directory ← wrap_err (decodeCanonicalSearchChild read_search_directory search_directory_json (ch_Bytes directoryChild))
    (λ e, Errorf "decode search directory: %w" [EErr e]);
  throw_if (negb (sdir_SchemaVersion directory =? 1) || negb (sdir_SearchVersion directory =? searchVersion))
    (Errorf "search directory version is unsupported" []) ;;
  validateSearchDirectory directory ;;
  service ← newSearchService (ca_CatalogID (cs_Directory snapshot)) (cs_ID snapshot) directory None;
  segments ← prepareSearchRecordSegments children (elems (sdir_RecordSegments directory));
  mret (MkSearchService (sv_catalogID service) (sv_snapshotID service) (sv_directory service) (Some children) segments None).
