(* ===== verification/SearchLists.v ===== *)
(** * Sorted lists of the search index

    Binary search finds the first element from a key on, the merges of sorted
    record lists are their union and intersection, and routes and buckets are
    found by key, prefix and longest prefix. *)

From S2P Require Import Prelude GoString CatalogModel SearchText SearchIndex SearchQuery.

(** ** Binary search *)

Lemma search_between_spec (f : nat → bool) steps i j :
  (j - i ≤ steps)%nat → (i ≤ j)%nat → (∀ k k', (k ≤ k')%nat → f k = true → f k' = true) →
  (∀ k, (k < i)%nat → f k = false) → (∀ k, (j ≤ k)%nat → f k = true) →
  let r := search_between steps f i j in
  (i ≤ r ≤ j)%nat ∧ (∀ k, (k < r)%nat → f k = false) ∧ (∀ k, (r ≤ k)%nat → f k = true).
Proof.
  intros Hs Hij Hmono. revert i j Hs Hij. induction steps as [|steps IH]; intros i j Hs Hij Hlo Hhi; cbn [search_between]; cbv zeta.
  { replace j with i in * by lia. split_and!; auto with lia. }
  destruct (Nat.ltb_spec i j); [|replace j with i in * by lia; split_and!; auto with lia].
  assert (Hmid : (i ≤ (i + j) / 2 < j)%nat).
  { split; [apply Nat.div_le_lower_bound|apply Nat.Div0.div_lt_upper_bound]; lia. }
  generalize dependent ((i + j) / 2)%nat. intros h Hmid. destruct (f h) eqn:E.
  - destruct (IH i h) as (? & ? & ?); [lia..|done|by intros k Hk; eapply Hmono|]. split_and!; [lia|lia|done|done].
  - destruct (IH (S h) j) as (? & ? & ?); [lia..| |done|split_and!; [lia|lia|done|done]].
    intros k Hk. destruct (f k) eqn:Ek; [|done]. rewrite (Hmono k h ltac:(lia) Ek) in E. done.
Qed.

Lemma sort_Search_spec (f : nat → bool) n :
  (∀ k k', (k ≤ k')%nat → f k = true → f k' = true) → (∀ k, (n ≤ k)%nat → f k = true) →
  let r := sort_Search n f in
  (r ≤ n)%nat ∧ (∀ k, (k < r)%nat → f k = false) ∧ (∀ k, (r ≤ k)%nat → f k = true).
Proof.
  intros Hmono Hn. destruct (search_between_spec f n 0 n) as ([_ ?] & ? & ?); [lia|lia|done|lia|done|]. by split_and!.
Qed.

(** ** Strings in order *)

Lemma string_ltb_irrefl s : (s <? s)%string = false.
Proof. apply (okey_ltb_irrefl (KS s)). Qed.
Lemma string_ltb_trans s t u : (s <? t)%string = true → (t <? u)%string = true → (s <? u)%string = true.
Proof. apply (okey_ltb_trans (KS s) (KS t) (KS u)). Qed.
Lemma string_ltb_total s t : s ≠ t → (s <? t)%string = false → (t <? s)%string = true.
Proof. intros Hne. apply (okey_ltb_total (KS s) (KS t)). congruence. Qed.
Lemma string_ltb_asym s t : (s <? t)%string = true → (t <? s)%string = false.
Proof.
  intros H1. destruct (t <? s)%string eqn:H2; [|done]. pose proof (string_ltb_trans _ _ _ H1 H2) as H3.
  by rewrite string_ltb_irrefl in H3.
Qed.

Section keys.
Context {A : Type} (key_of : A → string).
Notation sorted := (StronglySorted (λ x y, key_of x <? key_of y = true)%string).

Lemma sorted_lookup l i j x y :
  sorted l → l !! i = Some x → l !! j = Some y → (i < j)%nat → (key_of x <? key_of y)%string = true.
Proof.
  intros Hs. revert i j. induction Hs as [|z l Hs IH Hz]; intros i j; [done|]. destruct i as [|i], j as [|j]; cbn; try lia.
  - intros [= ->] Hy _. rewrite Forall_forall in Hz. by apply Hz, list_elem_of_lookup_2 with j.
  - intros Hx Hy ?. eapply IH; eauto with lia.
Qed.

Lemma key_from_mono l key i j : sorted l → (i ≤ j)%nat → key_from key_of l key i = true → key_from key_of l key j = true.
Proof.
  intros Hs Hij. unfold key_from. destruct (l !! i) as [x|] eqn:Ex; [|by rewrite (lookup_ge_None_2 l j) by (apply lookup_ge_None in Ex; lia)].
  destruct (l !! j) as [y|] eqn:Ey; [|done]. destruct (decide (i = j)) as [->|Hne]; [congruence|].
  pose proof (sorted_lookup l i j x y Hs Ex Ey ltac:(lia)) as Hxy. rewrite !negb_true_iff. intros Hx.
  destruct (key_of y <? key)%string eqn:Hy; [|done].
  pose proof (string_ltb_trans _ _ _ Hxy Hy). congruence.
Qed.

(** The first element whose key is not below [key]. *)
Lemma find_key_spec l key :
  sorted l →
  let r := sort_Search (length l) (key_from key_of l key) in
  (r ≤ length l)%nat ∧ (∀ k x, l !! k = Some x → (k < r)%nat ↔ (key_of x <? key)%string = true).
Proof.
  intros Hs. destruct (sort_Search_spec (key_from key_of l key) (length l)) as (Hr & Hlo & Hhi).
  - intros k k'. by apply key_from_mono.
  - intros k Hk. unfold key_from. by rewrite lookup_ge_None_2.
  - split; [done|]. intros k x Hx. destruct (decide (k < sort_Search (length l) (key_from key_of l key))%nat) as [Hk|Hk].
    + split; [|done]. intros _. apply Hlo in Hk. unfold key_from in Hk. rewrite Hx in Hk. by apply negb_false_iff.
    + split; [done|]. intros Hlt. specialize (Hhi k ltac:(lia)). unfold key_from in Hhi. rewrite Hx, Hlt in Hhi. done.
Qed.

Lemma sorted_inj l x y : sorted l → x ∈ l → y ∈ l → key_of x = key_of y → x = y.
Proof.
  intros Hs [i Hi]%list_elem_of_lookup [j Hj]%list_elem_of_lookup E.
  destruct (lt_eq_lt_dec i j) as [[Hij| ->]|Hij]; [|congruence|];
    [pose proof (sorted_lookup l i j x y Hs Hi Hj Hij) as K|pose proof (sorted_lookup l j i y x Hs Hj Hi Hij) as K];
    rewrite E, string_ltb_irrefl in K; done.
Qed.

(** Looking a key up finds its element, if there is one. *)
Lemma find_key l key x : sorted l → x ∈ l → key_of x = key →
  l !! sort_Search (length l) (key_from key_of l key) = Some x.
Proof.
  intros Hs Hx E. destruct (find_key_spec l key Hs) as [Hr Hk]. set (r := sort_Search _ _) in *.
  apply list_elem_of_lookup in Hx as [i Hi]. assert (Hri : (r ≤ i)%nat).
  { destruct (decide (i < r)%nat) as [Hlt|]; [|lia]. apply (Hk i x Hi) in Hlt. by rewrite E, string_ltb_irrefl in Hlt. }
  apply lookup_lt_Some in Hi as Hli. destruct (lookup_lt_is_Some_2 l r ltac:(lia)) as [y Hy].
  destruct (decide (r = i)) as [->|Hne]; [done|].
  pose proof (sorted_lookup l r i y x Hs Hy Hi ltac:(lia)) as Hyx. rewrite E in Hyx. apply (Hk r y Hy) in Hyx. lia.
Qed.
Lemma find_key_some l key x : l !! sort_Search (length l) (key_from key_of l key) = Some x → x ∈ l.
Proof. apply list_elem_of_lookup_2. Qed.
End keys.

(** ** Sets of records *)

Notation ascending := (StronglySorted Z.lt).

Lemma union_spec left_ right_ :
  ascending left_ → ascending right_ →
  ascending (unionRecordIDs left_ right_) ∧ ∀ x, x ∈ unionRecordIDs left_ right_ ↔ x ∈ left_ ∨ x ∈ right_.
Proof.
  intros Hl. revert right_. induction Hl as [|x l Hl IHl Hx]; intros right_ Hr; cbn [unionRecordIDs]; [set_solver|].
  induction Hr as [|y r Hr IHr Hy]; cbn [union_right]; [split; [by constructor|set_solver]|].
  rewrite Forall_forall in Hx, Hy. destruct (Z.ltb_spec x y); [|destruct (Z.ltb_spec y x)].
  - destruct (IHl (y :: r)) as [S1 E1]; [by constructor; [|apply Forall_forall]|]. split; [|set_solver].
    constructor; [done|]. apply Forall_forall. intros z [Hz|[->|Hz]%elem_of_cons]%E1; [by apply Hx|done|]. apply Hy in Hz. lia.
  - destruct IHr as [S1 E1]. split; [|set_solver]. constructor; [done|].
    apply Forall_forall. intros z [[->|Hz]%elem_of_cons|Hz]%E1; [done| |by apply Hy]. apply Hx in Hz. lia.
  - assert (x = y) as -> by lia. destruct (IHl r Hr) as [S1 E1]. split; [|set_solver]. constructor; [done|].
    apply Forall_forall. intros z [Hz|Hz]%E1; auto.
Qed.

Lemma intersect_spec left_ right_ :
  ascending left_ → ascending right_ →
  ascending (intersectRecordIDs left_ right_) ∧ ∀ x, x ∈ intersectRecordIDs left_ right_ ↔ x ∈ left_ ∧ x ∈ right_.
Proof.
  intros Hl. revert right_. induction Hl as [|x l Hl IHl Hx]; intros right_ Hr; cbn [intersectRecordIDs]; [split; [constructor|set_solver]|].
  induction Hr as [|y r Hr IHr Hy]; cbn [intersect_right]; [split; [constructor|set_solver]|].
  rewrite Forall_forall in Hx, Hy. destruct (Z.ltb_spec x y); [|destruct (Z.ltb_spec y x)].
  - destruct (IHl (y :: r)) as [S1 E1]; [by constructor; [|apply Forall_forall]|]. split; [done|]. intros z. rewrite E1.
    rewrite !elem_of_cons. split; [tauto|]. intros [[->|?] [->|Hz]]; try lia; [|auto..]. apply Hy in Hz. lia.
  - destruct IHr as [S1 E1]. split; [done|]. intros z. rewrite E1, !elem_of_cons. split; [tauto|].
    intros [[->|Hz] [->|?]]; try lia; [auto|apply Hx in Hz; lia|auto].
  - assert (x = y) as -> by lia. destruct (IHl r Hr) as [S1 E1]. split.
    + constructor; [done|]. apply Forall_forall. intros z [Hz _]%E1. auto.
    + intros z. rewrite elem_of_cons, E1. rewrite (elem_of_cons l), (elem_of_cons r). split; [tauto|]. intros [[->|Hz] [Ez|Hz']]; auto.
Qed.

Lemma union_all_spec (found : string → list Z) keys acc :
  ascending acc → (∀ key, key ∈ keys → ascending (found key)) →
  let r := foldl (λ acc key, unionRecordIDs acc (found key)) acc keys in
  ascending r ∧ ∀ x, x ∈ r ↔ x ∈ acc ∨ ∃ key, key ∈ keys ∧ x ∈ found key.
Proof.
  revert acc. induction keys as [|key keys IH]; intros acc Ha Hf; cbn [foldl].
  { split; [done|]. set_solver. }
  destruct (union_spec acc (found key)) as [Su Eu]; [done|by apply Hf; left|].
  destruct (IH _ Su) as [Sr Er]; [by intros k Hk; apply Hf; right|]. split; [done|]. intros x. rewrite Er, Eu. set_solver.
Qed.

(** ** Prefixes *)

Lemma ltb_cons a s b t :
  (String a s <? String b t)%string
  = match Ascii.compare a b with Lt => true | Eq => (s <? t)%string | Gt => false end.
Proof. unfold String.ltb. cbn. by destruct (Ascii.compare a b). Qed.
Lemma ascii_compare_refl a : Ascii.compare a a = Eq.
Proof. apply N.compare_refl. Qed.
Lemma ascii_compare_eq a b : Ascii.compare a b = Eq → a = b.
Proof. apply Ascii.compare_eq_iff. Qed.

Lemma prefix_not_below s p : HasPrefix s p = true → (s <? p)%string = false.
Proof.
  unfold HasPrefix. revert s. induction p as [|a p IH]; intros s; [by destruct s|]. destruct s as [|b s]; [done|]. cbn.
  destruct (Ascii.ascii_dec a b) as [->|]; [|done]. rewrite ltb_cons, ascii_compare_refl. apply IH.
Qed.

(** What lies between a prefix and a string with it has it too. *)
Lemma prefix_between p s t :
  HasPrefix t p = true → (s <? p)%string = false → (s <? t)%string = true → HasPrefix s p = true.
Proof.
  unfold HasPrefix. revert s t. induction p as [|a p IH]; intros s t; [by destruct s|]. destruct t as [|b t]; [done|]. cbn.
  destruct (Ascii.ascii_dec a b) as [->|]; [|done]. destruct s as [|c s]; [done|]. rewrite !ltb_cons.
  destruct (Ascii.compare c b) eqn:E; [|done..]. apply ascii_compare_eq in E as ->. cbn.
  destruct (Ascii.ascii_dec b b); [apply IH|done].
Qed.

Section routes.
Notation sorted := (StronglySorted (λ x y, spr_Key x <? spr_Key y = true)%string).

Lemma with_prefix_spec p routes route :
  sorted routes → Forall (λ r, (spr_Key r <? p)%string = false) routes →
  route ∈ with_prefix p routes ↔ route ∈ routes ∧ HasPrefix (spr_Key route) p = true.
Proof.
  intros Hs. induction Hs as [|r routes Hs IH Hr]; intros Hp; cbn [with_prefix]; [set_solver|].
  apply Forall_cons in Hp as [Hrp Hp]. destruct (HasPrefix (spr_Key r) p) eqn:E.
  - rewrite !elem_of_cons, IH by done. split; [|tauto]. intros [->|?]; tauto.
  - rewrite elem_of_cons. split; [by intros ?%elem_of_nil|]. intros [[->|Hin] Hpre]; [congruence|].
    rewrite Forall_forall in Hr. apply Hr in Hin. by rewrite (prefix_between p (spr_Key r) (spr_Key route)) in E.
Qed.

Lemma drop_sorted n routes : sorted routes → sorted (drop n routes).
Proof.
  intros Hs. revert n. induction Hs as [|r routes Hs IH Hr]; intros [|n]; cbn; [constructor..| |apply IH]. by constructor.
Qed.

(** The routes whose keys start with [p]. *)
Lemma prefix_routes_spec p routes route :
  sorted routes →
  route ∈ with_prefix p (drop (sort_Search (length routes) (key_from spr_Key routes p)) routes)
  ↔ route ∈ routes ∧ HasPrefix (spr_Key route) p = true.
Proof.
  intros Hs. destruct (find_key_spec spr_Key routes p Hs) as [_ Hk]. set (start := sort_Search _ _) in *.
  rewrite with_prefix_spec; [|by apply drop_sorted|].
  - split; [intros [[i Hi]%list_elem_of_lookup ?]; rewrite lookup_drop in Hi; split; [by eapply list_elem_of_lookup_2|done]|]. intros [[i Hi]%list_elem_of_lookup Hp]. split; [|done].
    apply list_elem_of_lookup. exists (i - start)%nat. rewrite lookup_drop. apply prefix_not_below in Hp.
    destruct (decide (i < start)%nat) as [Hlt|Hge]; [apply (Hk i route Hi) in Hlt; congruence|].
    by replace (start + (i - start))%nat with i by lia.
  - apply Forall_forall. intros r [i Hi]%list_elem_of_lookup. rewrite lookup_drop in Hi.
    destruct (spr_Key r <? p)%string eqn:E; [|done]. apply (Hk _ r Hi) in E. lia.
Qed.

(** A key that is indexed leads to its route, another one to the routes it begins. *)
Lemma postingRoutes_spec routes key route :
  sorted routes →
  route ∈ postingRoutes routes key true ↔
  route ∈ routes ∧ if decide (key ∈ spr_Key <$> routes) then spr_Key route = key else HasPrefix (spr_Key route) key = true.
Proof.
  intros Hs. unfold postingRoutes. case_decide as Hkey.
  - apply list_elem_of_fmap in Hkey as (r & -> & Hr). rewrite (find_key spr_Key routes (spr_Key r) r) by done.
    rewrite bool_decide_true by done. rewrite list_elem_of_singleton. split; [by intros ->|]. intros [? ?].
    by eapply (sorted_inj spr_Key).
  - rewrite <-(prefix_routes_spec key routes route Hs). destruct (routes !! _) as [r|] eqn:Er.
    + rewrite bool_decide_false; [done|]. intros <-. apply Hkey, list_elem_of_fmap. exists r. split; [done|].
      by eapply list_elem_of_lookup_2.
    + rewrite drop_ge; [done|]. by apply lookup_ge_None.
Qed.
End routes.
