(* ===== verification/SearchDistance.v ===== *)
(** * The distance of near keys

    [boundedDamerauLevenshtein] fills a table row by row; its reference is the
    least number of edits, where an edit inserts, deletes or replaces a rune or
    swaps two neighbours, and nothing is edited twice. *)

From S2P Require Import Prelude GoString CatalogModel SearchText SearchIndex SearchQuery SearchLists.

Inductive edits : list Z → list Z → nat → Prop :=
  | edits_nil : edits [] [] 0
  | edits_keep a l r n : edits l r n → edits (a :: l) (a :: r) n
  | edits_replace a b l r n : edits l r n → edits (a :: l) (b :: r) (S n)
  | edits_delete a l r n : edits l r n → edits (a :: l) r (S n)
  | edits_insert b l r n : edits l r n → edits l (b :: r) (S n)
  | edits_swap a b l r n : edits l r n → edits (a :: b :: l) (b :: a :: r) (S n).

Lemma edits_app l r n l' r' n' : edits l r n → edits l' r' n' → edits (l ++ l') (r ++ r') (n + n').
Proof. intros H1 H2. induction H1; cbn; [done|by constructor..]. Qed.

Lemma edits_reverse l r n : edits l r n → edits (reverse l) (reverse r) n.
Proof.
  induction 1 as [|a l r n _ IH|a b l r n _ IH|a l r n _ IH|b l r n _ IH|a b l r n _ IH]; rewrite ?reverse_cons.
  - constructor.
  - rewrite <-(Nat.add_0_r n). apply edits_app; [done|]. repeat constructor.
  - rewrite <-Nat.add_1_r. apply edits_app; [done|]. repeat constructor.
  - rewrite <-(app_nil_r (reverse r)), <-Nat.add_1_r. apply edits_app; [done|]. repeat constructor.
  - rewrite <-(app_nil_r (reverse l)), <-Nat.add_1_r. apply edits_app; [done|]. repeat constructor.
  - rewrite <-!app_assoc, <-Nat.add_1_r. apply edits_app; [done|]. apply edits_swap. constructor.
Qed.

Lemma edits_length l r n : edits l r n → (length l ≤ length r + n ∧ length r ≤ length l + n)%nat.
Proof. induction 1; cbn; lia. Qed.

Lemma edits_inserts r : edits [] r (length r).
Proof. induction r; cbn; by constructor. Qed.
Lemma edits_deletes l : edits l [] (length l).
Proof. induction l; cbn; by constructor. Qed.

(** The last edit. *)
Inductive last_edit (l : list Z) (a : Z) (r : list Z) (b : Z) (n : nat) : Prop :=
  | last_keep : a = b → edits l r n → last_edit l a r b n
  | last_replace m : n = S m → edits l r m → last_edit l a r b n
  | last_delete m : n = S m → edits l (r ++ [b]) m → last_edit l a r b n
  | last_insert m : n = S m → edits (l ++ [a]) r m → last_edit l a r b n
  | last_swap l' r' m : n = S m → l = l' ++ [b] → r = r' ++ [a] → edits l' r' m → last_edit l a r b n.

Lemma edits_last l a r b n : edits (l ++ [a]) (r ++ [b]) n → last_edit l a r b n.
Proof.
  intros H%edits_reverse. rewrite !reverse_snoc in H.
  assert (Hr : ∀ x y m, edits (reverse x) (reverse y) m → edits x y m).
  { intros x y m E%edits_reverse. by rewrite !reverse_involutive in E. }
  remember (a :: reverse l) as x eqn:Ex. remember (b :: reverse r) as y eqn:Ey. destruct H as [|c x y n H|c d x y n H|c x y n H|d x y n H|c d x y n H].
  - done.
  - injection Ex as -> ->. injection Ey as -> ->. by apply last_keep; [|apply Hr].
  - injection Ex as -> ->. injection Ey as -> ->. by eapply last_replace; [|apply Hr].
  - injection Ex as -> ->. subst y. eapply last_delete; [done|apply Hr]. by rewrite reverse_snoc.
  - injection Ey as -> ->. subst x. eapply last_insert; [done|apply Hr]. by rewrite reverse_snoc.
  - injection Ex as -> E1. injection Ey as -> E2. eapply (last_swap _ _ _ _ _ (reverse x) (reverse y)); [done| | |by apply edits_reverse].
    + by rewrite <-(reverse_involutive l), <-E1, reverse_cons.
    + by rewrite <-(reverse_involutive r), <-E2, reverse_cons.
Qed.

(** ** Cells *)

Definition least (P : nat → Prop) (v : Z) : Prop := (∃ n, v = Z.of_nat n ∧ P n) ∧ ∀ n, P n → v ≤ Z.of_nat n.

Lemma least_min (P Q R : nat → Prop) v w : least P v → least Q w → (∀ n, R n ↔ P n ∨ Q n) → least R (Z.min v w).
Proof.
  intros [(n & -> & Hn) Hv] [(m & -> & Hm) Hw] HR. split.
  - destruct (Z.min_spec (Z.of_nat n) (Z.of_nat m)) as [[? ->]|[? ->]]; [exists n|exists m]; (split; [done|]); apply HR; auto.
  - intros k [Hk|Hk]%HR; [apply Hv in Hk|apply Hw in Hk]; lia.
Qed.
Lemma least_succ (P : nat → Prop) v : least P v → least (λ n, ∃ m, n = S m ∧ P m) (v + 1).
Proof.
  intros [(n & -> & Hn) Hv]. split.
  - exists (S n). split; [lia|]. by exists n.
  - intros k (m & -> & Hm). apply Hv in Hm. lia.
Qed.
Lemma least_below (P R : nat → Prop) v :
  least P v → (∀ n, P n → R n) → (∀ n, R n → ∃ m, (m ≤ n)%nat ∧ P m) → least R v.
Proof.
  intros [(n & -> & Hn) Hv] HP HR. split; [exists n; split; [done|by apply HP]|].
  intros k (m & ? & Hm)%HR. apply Hv in Hm. lia.
Qed.

Section table.
Context (left_ right_ : list Z).

Definition cell_ok (i j : nat) (v : Z) : Prop := least (edits (take i left_) (take j right_)) v.

Lemma cell_column j : (j ≤ length right_)%nat → cell_ok 0 j (Z.of_nat j).
Proof.
  intros Hj. split.
  - exists j. split; [done|]. rewrite <-(length_take_le right_ j) at 2 by done. apply edits_inserts.
  - intros n [_ Hn]%edits_length. rewrite (length_take_le right_ j Hj), take_0 in Hn. cbn in Hn. lia.
Qed.
Lemma cell_row i : (i ≤ length left_)%nat → cell_ok i 0 (Z.of_nat i).
Proof.
  intros Hi. split.
  - exists i. split; [done|]. rewrite <-(length_take_le left_ i) at 2 by done. apply edits_deletes.
  - intros n [Hn _]%edits_length. rewrite (length_take_le left_ i Hi), take_0 in Hn. cbn in Hn. lia.
Qed.

Lemma cell_step i j a b vj wj dj sj :
  left_ !! i = Some a → right_ !! j = Some b →
  cell_ok i (S j) vj → cell_ok (S i) j wj → cell_ok i j dj →
  (∀ i' j', i = S i' → j = S j' → left_ !! i' = Some b → right_ !! j' = Some a → cell_ok i' j' sj) →
  let value := Z.min (Z.min (vj + 1) (wj + 1)) (dj + (if decide (a = b) then 0 else 1)) in
  let swaps := match i, j with S i', S j' => left_ !! i' = Some b ∧ right_ !! j' = Some a | _, _ => False end in
  (swaps → cell_ok (S i) (S j) (Z.min value (sj + 1))) ∧ (¬ swaps → cell_ok (S i) (S j) value).
Proof.
  intros Ha Hb Hv Hw Hd Hs value swaps. unfold cell_ok in *.
  rewrite (take_S_r _ _ _ Ha) in Hw |- *. rewrite (take_S_r _ _ _ Hb) in Hv |- *.
  set (l := take i left_) in *. set (r := take j right_) in *.
  set (P := λ n, (∃ m, n = S m ∧ edits l (r ++ [b]) m) ∨ (∃ m, n = S m ∧ edits (l ++ [a]) r m)
    ∨ (if decide (a = b) then edits l r n else ∃ m, n = S m ∧ edits l r m)).
  assert (HP : least P value).
  { unfold value. eapply (least_min (λ n, (∃ m, n = S m ∧ edits l (r ++ [b]) m) ∨ ∃ m, n = S m ∧ edits (l ++ [a]) r m)
      (λ n, if decide (a = b) then edits l r n else ∃ m, n = S m ∧ edits l r m)); [|case_decide|intros n; unfold P; tauto].
    - eapply least_min; [by apply least_succ|by apply least_succ|by intros n].
    - by rewrite Z.add_0_r.
    - by apply least_succ. }
  assert (Hto : ∀ n, P n → edits (l ++ [a]) (r ++ [b]) n).
  { intros n [(m & -> & Hm)|[(m & -> & Hm)|Hm]].
    - rewrite <-Nat.add_1_r, <-(app_nil_r (r ++ [b])). apply edits_app; [done|repeat constructor].
    - rewrite <-Nat.add_1_r, <-(app_nil_r (l ++ [a])). apply edits_app; [done|repeat constructor].
    - case_decide as E; [subst b; rewrite <-(Nat.add_0_r n)|destruct Hm as (m & -> & Hm); rewrite <-Nat.add_1_r];
        (apply edits_app; [done|repeat constructor]). }
  assert (Hfrom : ∀ n, edits (l ++ [a]) (r ++ [b]) n → (∃ m, (m ≤ n)%nat ∧ P m) ∨
    ∃ l' r' m, n = S m ∧ l = l' ++ [b] ∧ r = r' ++ [a] ∧ edits l' r' m).
  { intros n [E Hn|m -> Hm|m -> Hm|m -> Hm|l' r' m -> -> -> Hm]%edits_last.
    - left. exists n. split; [lia|]. unfold P. rewrite decide_True by done. auto.
    - left. unfold P. case_decide; [exists m; split; [lia|auto]|exists (S m); split; [lia|]]. right; right. by exists m.
    - left. exists (S m). split; [lia|]. left. by exists m.
    - left. exists (S m). split; [lia|]. right; left. by exists m.
    - right. by exists l', r', m. }
  assert (Hlast : ∀ (k : list Z) h c k', take h k = k' ++ [c] → (h ≤ length k)%nat →
    ∃ h', h = S h' ∧ k !! h' = Some c ∧ k' = take h' k).
  { intros k h c k' E Hh. destruct h as [|h]; [by destruct k'|]. exists h. split; [done|].
    destruct (lookup_lt_is_Some_2 k h ltac:(lia)) as [x Hx]. rewrite (take_S_r _ _ _ Hx) in E.
    apply app_inj_tail in E as [-> ->]. done. }
  apply lookup_lt_Some in Ha as Hla. apply lookup_lt_Some in Hb as Hlb. split.
  - intros Hsw. unfold swaps in Hsw. destruct i as [|i']; [done|]. destruct j as [|j']; [done|]. destruct Hsw as [H1 H2].
    specialize (Hs i' j' eq_refl eq_refl H1 H2). subst l r. rewrite (take_S_r _ _ _ H1), (take_S_r _ _ _ H2) in *.
    set (Q := λ n, ∃ m, n = S m ∧ edits (take i' left_) (take j' right_) m).
    apply (least_below (λ n, P n ∨ Q n)).
    + eapply least_min; [exact HP|by apply least_succ|by intros n].
    + intros n [?|(m & -> & Hm)]; [by apply Hto|]. rewrite <-!app_assoc, <-Nat.add_1_r. apply edits_app; [done|].
      apply edits_swap. constructor.
    + intros n [(m & ? & ?)|(l' & r' & m & -> & El & Er & Hm)]%Hfrom; [by exists m; auto|].
      apply app_inj_tail in El as [<- _]. apply app_inj_tail in Er as [<- _]. exists (S m). split; [lia|]. right. by exists m.
  - intros Hsw. apply (least_below P); [done|done|].
    intros n [?|(l' & r' & m & -> & El & Er & Hm)]%Hfrom; [done|]. destruct Hsw.
    apply Hlast in El as (i' & -> & ? & _); [|lia]. apply Hlast in Er as (j' & -> & ? & _); [|lia]. done.
Qed.

(** ** Rows *)

Definition row_ok (i : nat) (row : list Z) : Prop :=
  length row = S (length right_) ∧ ∀ j, (j ≤ length right_)%nat → cell_ok i j (row_cell row j).

Lemma distance_cell_ok i j pp p current :
  (i < length left_)%nat → (j < length right_)%nat → row_ok i p → (∀ i', i = S i' → row_ok i' pp) →
  cell_ok (S i) j (row_cell current j) →
  cell_ok (S i) (S j) (distance_cell left_ right_ pp p current (S i) (S j)).
Proof.
  intros Hi Hj [_ Hp] Hpp Hc.
  destruct (lookup_lt_is_Some_2 left_ i Hi) as [a Ha], (lookup_lt_is_Some_2 right_ j Hj) as [b Hb].
  destruct (cell_step i j a b _ _ _ (row_cell pp (j - 1)) Ha Hb (Hp (S j) ltac:(lia)) Hc (Hp j ltac:(lia))) as [Hyes Hno].
  { intros i' j' -> -> _ _. rewrite Nat.sub_succ, Nat.sub_0_r. apply (Hpp i' eq_refl). lia. }
  unfold distance_cell. rewrite !Nat.sub_succ, !Nat.sub_0_r, Ha, Hb.
  replace (if bool_decide (Some a = Some b) then 0 else 1) with (if decide (a = b) then 0 else 1)
    by (case_decide; case_bool_decide; congruence).
  destruct i as [|i']; [apply Hno; by intros []|]. destruct j as [|j']; [apply Hno; by intros []|].
  rewrite !Nat.sub_succ, !Nat.sub_0_r in *. destruct (_ && _) eqn:E.
  - apply Hyes. apply andb_true_iff in E as [[_ E1%bool_decide_eq_true]%andb_true_iff E2%bool_decide_eq_true].
    by rewrite E1, E2.
  - apply Hno. intros [E1 E2]. rewrite E1, E2 in E. by rewrite !bool_decide_true in E by done.
Qed.

Lemma distance_row_ok i pp p :
  (i < length left_)%nat → row_ok i p → (∀ i', i = S i' → row_ok i' pp) →
  row_ok (S i) (distance_row left_ right_ (pp, p) (S i)).2.
Proof.
  intros Hi Hp Hpp. cbn [distance_row snd].
  assert (Hk : ∀ k, (k ≤ length right_)%nat →
    let current := foldl (λ current j, current ++ [distance_cell left_ right_ pp p current (S i) j]) [Z.of_nat (S i)] (seq 1 k) in
    length current = S k ∧ ∀ j, (j ≤ k)%nat → cell_ok (S i) j (row_cell current j)).
  { induction k as [|k IH]; intros Hle current.
    - split; [done|]. intros j Hj. replace j with 0%nat by lia. by apply cell_row.
    - subst current. rewrite seq_S, foldl_snoc. cbn [Nat.add]. destruct (IH ltac:(lia)) as [Hl Hcells].
      set (c := foldl _ _ _) in *. rewrite length_app, Hl. split; [cbn; lia|]. intros j Hj.
      unfold row_cell in *. destruct (decide (j = S k)) as [->|Hne].
      + rewrite lookup_total_app_r by lia. rewrite Hl, Nat.sub_diag. cbn. apply distance_cell_ok; auto with lia.
      + rewrite lookup_total_app_l by lia. apply Hcells. lia. }
  apply Hk. done.
Qed.

Lemma distance_rows_ok i :
  (i ≤ length left_)%nat →
  let rows := foldl (distance_row left_ right_) (replicate (S (length right_)) 0, Z.of_nat <$> seq 0 (S (length right_))) (seq 1 i) in
  row_ok i rows.2 ∧ ∀ i', i = S i' → row_ok i' rows.1.
Proof.
  induction i as [|i IH]; intros Hi rows; subst rows.
  - split; [|done]. change (row_ok 0 (Z.of_nat <$> seq 0 (S (length right_)))).
    split; [by rewrite length_fmap, length_seq|]. intros j Hj. unfold row_cell.
    rewrite (list_lookup_total_correct _ j (Z.of_nat j)); [by apply cell_column|].
    rewrite list_lookup_fmap, lookup_seq_lt by lia. done.
  - rewrite (seq_S i 1), foldl_snoc. destruct (IH ltac:(lia)) as [Hp Hpp]. destruct (foldl _ _ _) as [pp p]. cbn [fst snd] in *.
    split; [by apply distance_row_ok|]. by intros i' [= ->].
Qed.
End table.

(** The least number of edits, when it is within the limit. *)
Lemma bounded_distance_exact l r limit :
  let '(distance, within) := boundedDamerauLevenshtein l r limit in
  (within = true ↔ ∃ n, Z.of_nat n ≤ limit ∧ edits l r n) ∧ (within = true → least (edits l r) distance).
Proof.
  unfold boundedDamerauLevenshtein. destruct (_ || _) eqn:E.
  - split; [|done]. split; [done|]. intros (n & Hn & He%edits_length).
    apply orb_true_iff in E as [E%Z.ltb_lt|E%Z.ltb_lt]; lia.
  - destruct (distance_rows_ok l r (length l) ltac:(done)) as [[_ Hrow] _]. specialize (Hrow (length r) ltac:(done)).
    unfold cell_ok in Hrow. rewrite !firstn_all in Hrow. set (d := row_cell _ _) in *. split; [|done].
    rewrite Z.leb_le. destruct Hrow as [(n & En & Hn) Hmin]. split.
    + intros Hd. exists n. split; [lia|done].
    + intros (m & Hm & He%Hmin). lia.
Qed.

(** ** Near keys *)

Lemma least_unique P v w : least P v → least P w → v = w.
Proof. intros [(n & -> & Hn) Hv] [(m & -> & Hm) Hw]. apply Hv in Hm. apply Hw in Hn. lia. Qed.

Lemma near_routes_spec token limit routes r d :
  (r, d) ∈ near_routes token limit routes ↔ r ∈ routes ∧ least (edits token (runes (spr_Key r))) d ∧ d ≤ limit.
Proof.
  unfold near_routes. rewrite list_elem_of_omap.
  assert (Hone : ∀ r d, (let '(distance, within) := boundedDamerauLevenshtein token (runes (spr_Key r)) limit in
    if within then Some (r, distance) else None) = Some (r, d) ↔ least (edits token (runes (spr_Key r))) d ∧ d ≤ limit).
  { clear. intros r d. pose proof (bounded_distance_exact token (runes (spr_Key r)) limit) as H.
    destruct (boundedDamerauLevenshtein _ _ _) as [d' within]. destruct H as [Hw Hd]. split.
    - destruct within; [|done]. intros [= <-]. split; [by apply Hd|]. destruct (proj1 Hw eq_refl) as (n & Hn & He).
      destruct (Hd eq_refl) as [_ Hmin]. apply Hmin in He. lia.
    - intros [Hl Hle]. destruct (Hl) as [(n & -> & Hn) _]. destruct within.
      + by rewrite (least_unique _ _ _ (Hd eq_refl) Hl).
      + destruct Hw as [_ Hw]. discriminate Hw. by exists n. }
  split.
  - intros (r' & Hin & E). destruct (_ || _); [done|]. assert (r' = r) as ->.
    { destruct (boundedDamerauLevenshtein _ _ _) as [? []]; congruence. }
    split; [done|]. by apply Hone.
  - intros (Hin & Hl & Hd). exists r. split; [done|]. destruct (_ || _) eqn:E; [|by apply Hone].
    destruct Hl as [(n & -> & Hn%edits_length) _]. apply orb_true_iff in E as [E%Z.ltb_lt|E%Z.ltb_lt]; lia.
Qed.

Definition near_order : SearchPostingRouteV1 * Z → list okey := λ m, [KZ m.2; KS (spr_Key m.1)].
Definition max_distance (token : string) : Z := if (8 <=? length (runes token))%nat then 2 else 1.
(** A route that begins like the token and is few edits away. *)
Definition near (routes : list SearchPostingRouteV1) (token : string) (r : SearchPostingRouteV1) (d : Z) : Prop :=
  r ∈ routes ∧ HasPrefix (spr_Key r) (of_runes (take 1 (runes token))) = true
  ∧ least (edits (runes token) (runes (spr_Key r))) d ∧ d ≤ max_distance token.

(** C39: The keys a misspelt token is taken for.  For a token of at least four
    runes [fuzzyPostingRoutes] returns the nearest keys of the index, at most
    [limit] of them (the keys of the index are in order): keys with the token's
    first rune whose distance, the least
    number of insertions, deletions, replacements and swaps of neighbours, is at
    most 1, or 2 from eight runes on; a near key that is left out is no nearer
    than any that is returned. *)
Theorem near_keys_exact routes token limit :
  StronglySorted (λ x y, spr_Key x <? spr_Key y = true)%string routes → (4 ≤ length (runes token))%nat → (0 < limit)%nat →
  let result := fuzzyPostingRoutes routes token limit in
  (length result ≤ limit)%nat
  ∧ (∀ r, r ∈ result → ∃ d, near routes token r d)
  ∧ (∀ r d, near routes token r d → r ∉ result →
       length result = limit ∧ ∀ r', r' ∈ result → ∃ d', near routes token r' d' ∧ le_key near_order (r', d') (r, d)).
Proof.
  intros Hs Ht Hlimit result. subst result. unfold fuzzyPostingRoutes.
  destruct (Nat.ltb_spec (length (runes token)) 4); [lia|]. rewrite bool_decide_false by lia. cbn [orb].
  set (matches := near_routes _ _ _).
  assert (Hm : ∀ r d, (r, d) ∈ matches ↔ near routes token r d).
  { intros r d. unfold matches. rewrite near_routes_spec, prefix_routes_spec by done. unfold near, max_distance. tauto. }
  clearbody matches. set (ordered := sort_by _ matches).
  assert (Ho : ∀ r d, (r, d) ∈ ordered ↔ near routes token r d) by (intros; unfold ordered; by rewrite sort_by_elem_of).
  pose proof (sort_by_sorted near_order matches) as Hord. change (sort_by _ matches) with ordered in Hord. clearbody ordered. rewrite <-fmap_take. split_and!.
  - rewrite length_fmap, length_take. lia.
  - intros r ([r' d] & -> & Hin)%list_elem_of_fmap. exists d. apply Ho. rewrite <-(take_drop limit ordered), elem_of_app. by left.
  - intros r d Hr Hout. apply Ho in Hr. rewrite <-(take_drop limit ordered) in Hr, Hord. apply elem_of_app in Hr as [Hr|Hr].
    { destruct Hout. apply list_elem_of_fmap. by exists (r, d). }
    split.
    + rewrite length_fmap, length_take. apply list_elem_of_lookup in Hr as [i Hi]. rewrite lookup_drop in Hi.
      apply lookup_lt_Some in Hi. lia.
    + intros r' ([r1 d'] & -> & Hin)%list_elem_of_fmap. exists d'. split.
      * apply Ho. rewrite <-(take_drop limit ordered), elem_of_app. by left.
      * by apply (StronglySorted_app_1_elem_of _ _ _ _ _ Hord).
Qed.

Definition near_routes_sample : list SearchPostingRouteV1 :=
  (λ key, MkSearchPostingRouteV1 key 0) <$> ["paste"; "pest"; "pet"; "pets"; "post"; "store"].

(** Two swapped letters: one edit. *)
Lemma near_keys_exact_witness :
  let result := fuzzyPostingRoutes near_routes_sample "pset" 8 in
  spr_Key <$> result = ["pest"; "pet"]
  ∧ (length result ≤ 8)%nat ∧ (∀ r, r ∈ result → ∃ d, near near_routes_sample "pset" r d)
  ∧ (∀ r d, near near_routes_sample "pset" r d → r ∉ result →
       length result = 8%nat ∧ ∀ r', r' ∈ result → ∃ d', near near_routes_sample "pset" r' d' ∧ le_key near_order (r', d') (r, d)).
Proof.
  split; [by vm_compute|].
  apply (near_keys_exact near_routes_sample "pset" 8); [by repeat constructor|by vm_compute; lia|lia].
Defined.
