(* ===== verification/SearchSizes.v ===== *)
(** * The sizes of the search segments

    [exactSearchSegmentSize] adds up what a segment of exact keys will take
    without encoding it, so that a bucket that is too large is split first. *)

From S2P Require Import Prelude GoString GoSha256 GoJson CatalogModel SearchText CatalogChildren SearchIndex.

Definition entry_size (e : SearchExactEntryV1) : Z := Z.of_nat (length (render (exact_entry_json e))).
Definition segment_size (entries : list SearchExactEntryV1) : Z :=
  Z.of_nat (length (render (exact_segment_json (exact_segment entries)))).

(** The entries of a list with the commas between them. *)
Definition joined_size (entries : list SearchExactEntryV1) : Z :=
  Z.of_nat (length (render_seq render (exact_entry_json <$> entries))).

Lemma joined_size_cons e entries :
  joined_size (e :: entries) = entry_size e + (if entries is [] then 0 else 1 + joined_size entries).
Proof.
  unfold joined_size, entry_size. destruct entries as [|e' entries]; [cbn; lia|].
  cbn [fmap list_fmap]. rewrite render_seq_cons, length_app. cbn [length fmap list_fmap]. lia.
Qed.

(** What stands around the entries of a segment. *)
Definition envelope : list Z := render (exact_segment_json (exact_segment [])).

Lemma segment_text l :
  render (exact_segment_json (exact_segment l))
  = take (length envelope - 2) envelope ++ render_seq render (exact_entry_json <$> l) ++ [93; 125].
Proof.
  assert (E : render (exact_segment_json (exact_segment l))
    = take (length envelope - 2) envelope ++ (render_seq render (exact_entry_json <$> l) ++ [93]) ++ [125]) by reflexivity.
  by rewrite E, <-app_assoc.
Qed.

Lemma segment_size_joined entries : segment_size entries = segment_size [] + joined_size entries.
Proof.
  unfold segment_size, joined_size. rewrite (segment_text entries), !length_app.
  assert (length (take (length envelope - 2) envelope) + 2 = length (render (exact_segment_json (exact_segment []))))%nat by (vm_compute; reflexivity).
  cbn [length]. lia.
Qed.

Lemma sum_entries_exact entries total first :
  0 ≤ total → total + (if first : bool then 0 else 1) + joined_size (ex_entry <$> entries) ≤ max_uint64 →
  sum_entries total first entries
  = Ok (total + (if entries is [] then 0 else (if first then 0 else 1) + joined_size (ex_entry <$> entries))).
Proof.
  revert total first. induction entries as [|e entries IH]; intros total first Ht Hmax.
  { cbn [sum_entries]. unfold mret, res_ret. f_equal. lia. }
  rewrite fmap_cons, joined_size_cons in *. cbn [sum_entries].
  fold (entry_size (ex_entry e)). set (size := entry_size (ex_entry e)) in *.
  assert (0 ≤ size) by (unfold size, entry_size; lia).
  assert (Hrest : 0 ≤ joined_size (ex_entry <$> entries)) by (unfold joined_size; lia).
  set (rest := match ex_entry <$> entries with [] => 0 | _ :: _ => _ end) in *.
  assert (0 ≤ rest) by (unfold rest; revert Hrest; clear; destruct (ex_entry <$> entries); lia).
  assert (Ew : (if first then total else wrap64 (total + 1)) = total + (if first then 0 else 1)).
  { destruct first; [lia|]. unfold wrap64, max_uint64 in *. assert (0 ≤ total + 1 < 2 ^ 64) by lia. by rewrite Z.mod_small. }
  rewrite Ew. set (carry := if first then 0 else 1) in *. assert (0 ≤ carry) by (unfold carry; destruct first; lia).
  destruct (Z.ltb_spec (max_uint64 - (total + carry)) size); [lia|]. cbn [throw_if mbind res_bind].
  destruct entries as [|e' entries].
  - cbn [sum_entries]. unfold mret, res_ret, rest. cbn [fmap list_fmap]. f_equal. lia.
  - change rest with (1 + joined_size (ex_entry <$> e' :: entries)) in *. rewrite IH; [f_equal; lia|lia|]. lia.
Qed.

(** The estimate lacks the two brackets of the list of entries. *)
Lemma estimate_two_short entries :
  entries ≠ [] → segment_size (ex_entry <$> entries) ≤ max_uint64 →
  exactSearchSegmentSize entries = Ok (segment_size (ex_entry <$> entries) - 2).
Proof.
  intros Hne Hmax. unfold exactSearchSegmentSize. fold (segment_size []). rewrite (segment_size_joined (ex_entry <$> entries)) in *.
  assert (segment_size [] = 50) as E50 by (vm_compute; reflexivity). rewrite E50 in *. change (50 <? 2) with false. cbn [throw_if mbind res_bind].
  rewrite sum_entries_exact by (cbv iota; lia). destruct entries as [|e entries]; [done|]. f_equal. cbv iota. lia.
Qed.

(** C40: A bucket of exact keys that is at most two bytes too large ends the build.
    The estimate of its size leaves out the two brackets of its list, so it is
    not split by the next digit of the digests, and the segment is then refused,
    whatever parts it could be split into. *)
Theorem full_bucket_not_split segmentLimit levels prefix entries :
  entries ≠ [] → segment_size (ex_entry <$> sort_entries entries) ≤ max_uint64 →
  segmentLimit < segment_size (ex_entry <$> sort_entries entries) ≤ segmentLimit + 2 →
  emit_exact segmentLimit levels prefix entries
  = Fail (Errorf "exact search bucket %q exceeds segment bytes" [EStr prefix]).
Proof.
  intros Hne Hmax [Hlow Hhigh].
  destruct levels as [|levels]; cbn [emit_exact]; (rewrite estimate_two_short; [|by intros ?%sort_by_nil|done]); cbn [mbind res_bind];
    (destruct (Z.leb_spec (segment_size (ex_entry <$> sort_entries entries) - 2) segmentLimit); [|lia]);
    unfold exact_artifact; fold (segment_size (ex_entry <$> sort_entries entries));
    by (destruct (Z.ltb_spec segmentLimit (segment_size (ex_entry <$> sort_entries entries))); [|lia]).
Qed.

(** Two keys in segments of 103 and 127 bytes, of 181 together: the build fails
    with a limit of 180 bytes and succeeds with 178. *)
Definition hot_entries : list exactSearchEntry :=
  [exact_entry "pet" {[1 := 1; 2 := 2]}; exact_entry "store" {[3 := 1]}].

Lemma full_bucket_not_split_witness :
  emit_exact 180 64 "" hot_entries = Fail (Errorf "exact search bucket %q exceeds segment bytes" [EStr ""])
  ∧ is_ok (emit_exact 178 64 "" hot_entries) = true.
Proof.
  split; [|by vm_compute].
  assert (segment_size (ex_entry <$> sort_entries hot_entries) = 181) as E by (vm_compute; reflexivity).
  apply (full_bucket_not_split 180 64 "" hot_entries); [done|rewrite E; unfold max_uint64; lia|rewrite E; lia].
Defined.
