(* ===== verification/SearchRoundtrip.v ===== *)
(** * Search artifacts read back

    [decodeCanonicalSearchChild] returns the artifact whose encoding it is
    given, when texts are well formed and integers within their width. *)

From stdpp Require Import pretty.
From S2P Require Import Prelude GoString GoJson EmbeddedJson JsonNumbers EmbeddedRoundtrip CatalogModel SearchIndex SearchCodec.

(** ** Integers *)

Lemma pretty_char_value d : (d < 10)%N → byte_of (pretty_N_char d) = 48 + Z.of_N d.
Proof.
  intros Hd. assert (d ∈ [0;1;2;3;4;5;6;7;8;9]%N) as Hin.
  { destruct (decide (d ∈ [0;1;2;3;4;5;6;7;8;9]%N)) as [|Hn]; [done|]. exfalso. apply Hn.
    rewrite !elem_of_cons. lia. }
  clear Hd. repeat (apply elem_of_cons in Hin as [->|Hin]; [by vm_compute|]). by apply elem_of_nil in Hin.
Qed.

(** The digits of a positive number. *)
Lemma pretty_go_digits x s : (0 < x)%N →
  ∃ b k, bytes_of (pretty_N_go x s) = b :: k ++ bytes_of s ∧ digits (b :: k) ∧ b ≠ 48 ∧ digits_value (b :: k) = Z.of_N x.
Proof.
  revert s. induction (N.lt_wf_0 x) as [x _ IH]; intros s Hx. rewrite pretty_N_go_step by done.
  assert (x `mod` 10 < 10)%N as Hm by (apply N.mod_lt; lia). pose proof (pretty_char_value _ Hm) as Hc.
  set (c := pretty_N_char _) in *. assert (is_digit (byte_of c) = true) as Hd by (apply is_digit_range; rewrite Hc; revert Hm; generalize (x `mod` 10)%N; lia).
  pose proof (N.div_mod x 10) as Hdm. destruct (decide (x `div` 10 = 0)%N) as [E|Hne].
  - rewrite E, pretty_N_go_0. exists (byte_of c), []. split; [done|]. split; [by repeat constructor|].
    cbn. split; lia.
  - destruct (IH (x `div` 10)%N) with (s := String c s) as (b & k & E & Hk & Hb & Hv);
      [apply N.div_lt; lia|lia|].
    exists b, (k ++ [byte_of c]). rewrite E. split; [cbn; by rewrite <-app_assoc|].
    split; [rewrite app_comm_cons; apply Forall_app; split; [done|by repeat constructor]|]. split; [done|].
    rewrite app_comm_cons, digits_value_snoc, Hv, Hc. lia.
Qed.

Definition natural (w : list Z) (z : Z) : Prop :=
  digits w ∧ (∃ b k, w = b :: k ∧ (b = 48 → k = [])) ∧ digits_value w = z.

Lemma pretty_natural z : 0 ≤ z → natural (bs (pretty z)) z.
Proof.
  intros Hz. destruct z as [|p|p]; [| |lia].
  - split; [by repeat constructor|]. split; [by exists 48, []|done].
  - unfold bs. change (pretty (Z.pos p)) with (pretty (N.pos p)). unfold pretty, pretty_N.
    rewrite decide_False by done. destruct (pretty_go_digits (N.pos p) "" ltac:(lia)) as (b & k & E & Hd & Hb & Hv).
    rewrite app_nil_r in E. rewrite E. split; [done|]. split; [by exists b, k|done].
Qed.

Lemma trim_zeros_long dp l : Z.of_nat (length l) ≤ dp → trim_zeros dp l = l.
Proof. intros Hl. destruct l as [|b l]; [done|]. cbn [trim_zeros]. destruct (Z.ltb_spec dp (Z.of_nat (length (b :: l)))); [lia|]. by rewrite andb_false_r. Qed.

Lemma natural_normal w z : natural w z → normalizeJSONNumber w false = Some w.
Proof.
  intros (Hd & (b & k & -> & Hb) & _). unfold normalizeJSONNumber, number_parts.
  pose proof (Forall_inv Hd) as Hb'. cbv beta in Hb'. apply is_digit_range in Hb' as Hr.
  destruct (Z.eqb_spec b 45); [lia|]. rewrite unsigned_parts_whole by done. cbn [mbind option_bind].
  rewrite bool_decide_eq_false_2 by done. rewrite (proj2 (forallb_Forall _ _) Hd). cbn [negb orb].
  destruct (Z.eq_dec b 48) as [->|Hne].
  - by rewrite (Hb eq_refl).
  - unfold forallb at 1, is_zero_digit at 1. destruct (Z.eqb_spec b 48); [done|]. cbn [andb].
    rewrite drop_while_nonzero by done.
    replace (Z.of_nat (length (b :: k)) - (Z.of_nat (length (b :: k)) - Z.of_nat (length (b :: k))) + 0)
      with (Z.of_nat (length (b :: k))) by lia.
    rewrite trim_zeros_long, reverse_involutive by (rewrite length_reverse; lia).
    cbv zeta. cbn [length]. destruct (Z.leb_spec (Z.of_nat (S (length k))) 0); [lia|]. rewrite Z.leb_refl.
    cbn [andb orb]. destruct (Z.ltb_spec (Z.of_nat (S (length k))) 0); [lia|].
    rewrite Z.sub_diag. cbn. by rewrite app_nil_r.
Qed.

Lemma natural_reads w z t : natural w z → number_end t → read_number (w ++ t) = Some (w, t).
Proof.
  intros (Hd & Hb & _) Ht. pose proof (read_number_app false w [] t Hd Hb ltac:(constructor) Ht) as H.
  cbv zeta in H. rewrite decide_True, app_nil_r in H by done. exact H.
Qed.

(** ** Values *)

(** The value the decoder reads from the text of [j]. *)
Fixpoint value_of (j : json) : embeddedValue :=
  match j with
  | JNull => ELiteral (bs "null")
  | JBool b => ELiteral (bs (if b then "true" else "false"))
  | JInt z => ENumber (bs (pretty z))
  | JString s => EString s
  | JArray l => EArray (value_of <$> l)
  | JObject l => EObject ((λ kv, (kv.1, value_of kv.2)) <$> l)
  end.

(** Values with well-formed texts, natural numbers, distinct member names and
    at most [n] levels. *)
Fixpoint readable (n : nat) (j : json) : Prop :=
  match j with
  | JNull | JBool _ => True
  | JInt z => 0 ≤ z
  | JString s => valid_utf8 s = true
  | JArray l => match n with O => False | S n => Forall (readable n) l end
  | JObject l =>
      match n with
      | O => False
      | S n => NoDup (fst <$> l) ∧ Forall (λ kv, valid_utf8 kv.1 = true ∧ readable n kv.2) l
      end
  end.

Lemma readable_head n j : readable n j → ∃ b k, render j = b :: k ∧ starts_value b.
Proof.
  unfold starts_value. destruct j as [|b|z|s|l|l]; cbn [render]; intros H; try (eexists _, _; split; [reflexivity|by vm_compute]).
  - destruct b; eexists _, _; (split; [reflexivity|by vm_compute]).
  - assert (0 ≤ z) as Hz by (by destruct n). destruct (pretty_natural z Hz) as (Hd & (b & k & E & _) & _). exists b, k. split; [done|].
    rewrite E in Hd. apply Forall_inv in Hd. apply is_digit_range in Hd. unfold is_json_space. lia.
Qed.

Lemma render_scalar n j depth t : readable n j → value_end t → match j with JArray _ | JObject _ => False | _ => True end →
  decodeEmbeddedValue false (S n) depth (render j ++ t) = Some (value_of j, t).
Proof.
  intros Hj Ht Hs. destruct j as [|b|z|s|l|l]; try done; cbn [render value_of].
  - destruct b; [apply (decode_scalar false n depth (ELiteral (bs "true")) t n)|apply (decode_scalar false n depth (ELiteral (bs "false")) t n)];
      try done; destruct n; cbn; unfold literal_words; set_solver.
  - assert (natural (bs (pretty z)) z) as Hz by (apply pretty_natural; by destruct n).
    apply (decode_scalar false n depth (ENumber (bs (pretty z))) t n); [|done..].
    destruct n; exists (bs (pretty z)); by eapply natural_normal.
  - apply (decode_scalar false n depth (EString s) t n); [by destruct n|done..].
Qed.

Lemma render_array n fuel depth l t : depth < 64 → Forall (readable n) l →
  Forall (reads (decodeEmbeddedValue false fuel (depth + 1)) render value_of) l →
  decodeEmbeddedValue false (S fuel) depth (render (JArray l) ++ t) = Some (value_of (JArray l), t).
Proof.
  intros Hd Hj Hl. cbn [render value_of decodeEmbeddedValue app]. rewrite skip_space_head by done.
  change (91 =? 123) with false. change (91 =? 91) with true. cbv iota. destruct (Z.leb_spec 64 depth); [lia|].
  rewrite <-app_assoc. cbn [app]. destruct (decide (l = [])) as [->|Hne]; [done|].
  assert (Forall (λ j, ∃ b k, render j = b :: k ∧ starts_value b) l) as Hhead.
  { eapply Forall_impl; [exact Hj|]. intros j. apply readable_head. }
  destruct (render_seq_head render l _ Hne Hhead) as (b & k & E & Hb & Hb' & _).
  assert (skip_space (render_seq render l ++ 93 :: t) = render_seq render l ++ 93 :: t) as ->
    by (rewrite E; by apply skip_space_head).
  pose proof (decode_items_text _ _ _ l t (S (length (render_seq render l ++ 93 :: t))) Hl Hne) as Hi.
  pose proof (render_seq_length render l) as Hlen. rewrite length_app in *.
  rewrite E in Hi, Hlen |- *. cbn [app]. destruct (Z.eqb_spec b 93); [done|].
  cbn [app length] in *. rewrite Hi by lia. done.
Qed.

Lemma render_object fuel depth l t : depth < 64 → NoDup (fst <$> l) →
  Forall (λ m, valid_utf8 m.1 = true ∧ reads (decodeEmbeddedValue false fuel (depth + 1)) render value_of m.2) l →
  decodeEmbeddedValue false (S fuel) depth (render (JObject l) ++ t) = Some (value_of (JObject l), t).
Proof.
  intros Hd Hn Hl. cbn [render value_of decodeEmbeddedValue app]. rewrite skip_space_head by done.
  change (123 =? 123) with true. cbv iota. destruct (Z.leb_spec 64 depth); [lia|].
  rewrite <-app_assoc. cbn [app]. destruct (decide (l = [])) as [->|Hne]; [done|].
  change (λ kv : string * json, render_string kv.1 ++ 58 :: render kv.2) with (λ m : string * json, member_text (m.1, render m.2)).
  set (f := λ m : string * json, member_text (m.1, render m.2)).
  destruct (render_seq_head f l (λ b, b = 34) Hne) as (b & r & E & ->).
  { apply Forall_forall. intros m _. by eexists _, _. }
  assert (skip_space (render_seq f l ++ 125 :: t) = render_seq f l ++ 125 :: t) as ->
    by (rewrite E; by apply skip_space_head).
  pose proof (decode_members_text _ render value_of l t (S (length (render_seq f l ++ 125 :: t))) ∅ Hl Hn ltac:(set_solver) Hne) as Hi.
  fold f in Hi. pose proof (render_seq_length f l) as Hlen. rewrite length_app in *.
  rewrite E in Hi, Hlen |- *. cbn [app length] in *. rewrite Hi by lia. done.
Qed.

Lemma decode_render n : ∀ j depth t, depth + Z.of_nat n = 64 → readable n j → value_end t →
  decodeEmbeddedValue false (S n) depth (render j ++ t) = Some (value_of j, t).
Proof.
  induction n as [|n IH]; intros j depth t Hd Hj Ht; destruct j as [|b|z|s|l|l]; try done; try (by apply render_scalar).
  - apply (render_array n); [lia|done|]. eapply Forall_impl; [exact Hj|]. intros j Hj' t' Ht'. apply IH; [lia|done|done].
  - destruct Hj as [Hn Hj]. apply render_object; [lia|done|]. eapply Forall_impl; [exact Hj|].
    intros m [Hk Hv]. split; [done|]. intros t' Ht'. apply IH; [lia|done|done].
Qed.

(** ** Fields *)

Definition fits_uint (bits z : Z) : Prop := 0 ≤ z < 2 ^ bits.

Lemma read_uint_value bits z : fits_uint bits z → read_uint bits (Some (value_of (JInt z))) = Some z.
Proof.
  intros [Hz Hb]. destruct (pretty_natural z Hz) as (Hd & _ & Hv). cbn [value_of read_uint].
  rewrite (proj2 (forallb_Forall _ _) Hd), Hv. by destruct (Z.ltb_spec z (2 ^ bits)); [|lia].
Qed.
Lemma read_text_value s : read_text (Some (value_of (JString s))) = Some s.
Proof. done. Qed.
Lemma members_value l : members_of (value_of (JObject l)) = Some ((λ kv, (kv.1, value_of kv.2)) <$> l).
Proof. done. Qed.

(** An artifact of at most [n] levels that reads back from its encoding. *)
Definition codec {A} (n : nat) (encode : A → json) (read : embeddedValue → option A) (a : A) : Prop :=
  ∀ m, readable (n + m) (encode a) ∧ read (value_of (encode a)) = Some a.

Lemma slice_codec {A} n (encode : A → json) read (s : slice A) :
  Forall (codec n encode read) (elems s) →
  ∀ m, readable (S n + m) (json_slice encode s) ∧ read_slice read (Some (value_of (json_slice encode s))) = Some s.
Proof.
  intros Hs m. destruct s as [l|]; [|done]. change (elems (Some l)) with l in Hs. cbn [json_slice readable value_of read_slice Nat.add]. split.
  - apply Forall_fmap. eapply Forall_impl; [exact Hs|]. intros a Ha. apply Ha.
  - assert (mapM read (value_of <$> (encode <$> l)) = Some l) as ->; [|done].
    apply mapM_Some. clear -Hs. induction Hs as [|a k Ha Hs IH]; [constructor|]. constructor; [|done].
    by destruct (Ha 0%nat) as [_ ->].
Qed.

Lemma slice_codecs {A n} {ok : A → Prop} {encode : A → json} {read} :
  (∀ a, ok a → codec n encode read a) → ∀ s, Forall ok (elems s) →
  ∀ m, readable (S n + m) (json_slice encode s) ∧ read_slice read (Some (value_of (json_slice encode s))) = Some s.
Proof. intros Hc s Hs. apply slice_codec. eapply Forall_impl; [exact Hs|exact Hc]. Qed.

(** An object of fields with distinct names: each field is readable and read. *)
Lemma readable_object n l :
  NoDup (fst <$> l) → Forall (λ kv, valid_utf8 kv.1 = true ∧ readable n kv.2) l → readable (S n) (JObject l).
Proof. by split. Qed.
Lemma readable_int n z : 0 ≤ z → readable n (JInt z).
Proof. by destruct n. Qed.
Lemma readable_text n s : valid_utf8 s = true → readable n (JString s).
Proof. by destruct n. Qed.

(** Split a codec of an object into its fields, whose names are closed. *)
Ltac object_split :=
  split;
  [ cbn [Nat.add]; apply readable_object; [by apply (bool_decide_unpack _); vm_compute|];
    repeat (apply Forall_cons; split; [split; [by vm_compute|cbn [snd]]|]); [..|by apply Forall_nil]
  | ].
Ltac object_codec := intros m; object_split.

(** Look a field up and read it. *)
Ltac field_step :=
  cbn -[value_of json_slice read_uint read_text read_slice];
  repeat match goal with
  | |- context [bool_decide (?a = ?b :> string)] =>
      let c := eval vm_compute in (bool_decide (a = b)) in change (bool_decide (a = b)) with c; cbv iota
  end;
  cbn -[value_of json_slice read_uint read_text read_slice].
Ltac reader := rewrite members_value; field_step; repeat (first
  [ rewrite read_uint_value by done
  | rewrite read_text_value
  | match goal with H : ∀ m, readable _ _ ∧ read_slice _ _ = Some _ |- _ => rewrite (proj2 (H 0%nat)) end ]; field_step).

Definition ok_match (m : SearchExactMatchV1) : Prop := fits_uint 32 (sem_Record m) ∧ fits_uint 8 (sem_Priority m).
Lemma exact_match_codec m : ok_match m → codec 1 exact_match_json read_exact_match m.
Proof.
  destruct m as [record priority]. intros [H1 H2]; cbn in H1, H2. object_codec.
  - apply readable_int. apply H1.
  - apply readable_int. apply H2.
  - unfold read_exact_match, exact_match_json. by reader.
Qed.

Definition ok_exact_entry (e : SearchExactEntryV1) : Prop := valid_utf8 (see_Key e) = true ∧ Forall ok_match (elems (see_Matches e)).
Lemma exact_entry_codec e : ok_exact_entry e → codec 3 exact_entry_json read_exact_entry e.
Proof.
  destruct e as [key matches]. intros [H1 H2]; cbn [see_Key see_Matches] in H1, H2.
  pose proof (slice_codecs exact_match_codec matches H2) as Hm.
  object_codec; [by apply readable_text|apply Hm|].
  unfold read_exact_entry, exact_entry_json. by reader.
Qed.

Definition versions_ok (schema version : Z) : Prop := fits_uint 32 schema ∧ fits_uint 32 version.

Definition ok_exact_segment (s : SearchExactSegmentV1) : Prop :=
  versions_ok (ses_SchemaVersion s) (ses_SearchVersion s) ∧ Forall ok_exact_entry (elems (ses_Entries s)).
Lemma exact_segment_codec s : ok_exact_segment s → codec 5 exact_segment_json read_exact_segment s.
Proof.
  destruct s as [schema version entries]. intros [[H1 H2] H3]; cbn [ses_SchemaVersion ses_SearchVersion ses_Entries] in *.
  pose proof (slice_codecs exact_entry_codec entries H3) as Hm.
  object_codec; [apply readable_int, H1|apply readable_int, H2|apply Hm|].
  unfold read_exact_segment, exact_segment_json. by reader.
Qed.

Lemma record_codec z : fits_uint 32 z → codec 0 JInt (λ v, read_uint 32 (Some v)) z.
Proof. intros Hz m. split; [apply readable_int, Hz|by apply read_uint_value]. Qed.
Lemma text_codec s : valid_utf8 s = true → codec 0 JString (λ v, read_text (Some v)) s.
Proof. intros Hs m. split; [by apply readable_text|done]. Qed.

Definition ok_posting_entry (e : SearchPostingEntryV1) : Prop :=
  valid_utf8 (spe_Key e) = true ∧ Forall (fits_uint 32) (elems (spe_Records e)).
Lemma posting_entry_codec e : ok_posting_entry e → codec 2 posting_entry_json read_posting_entry e.
Proof.
  destruct e as [key records]. intros [H1 H2]; cbn [spe_Key spe_Records] in *.
  pose proof (slice_codecs record_codec records H2) as Hm.
  object_codec; [by apply readable_text|apply Hm|].
  unfold read_posting_entry, posting_entry_json. by reader.
Qed.
Definition ok_posting_segment (s : SearchPostingSegmentV1) : Prop :=
  versions_ok (sps_SchemaVersion s) (sps_SearchVersion s) ∧ Forall ok_posting_entry (elems (sps_Entries s)).
Lemma posting_segment_codec s : ok_posting_segment s → codec 4 posting_segment_json read_posting_segment s.
Proof.
  destruct s as [schema version entries]. intros [[H1 H2] H3]; cbn [sps_SchemaVersion sps_SearchVersion sps_Entries] in *.
  pose proof (slice_codecs posting_entry_codec entries H3) as Hm.
  object_codec; [apply readable_int, H1|apply readable_int, H2|apply Hm|].
  unfold read_posting_segment, posting_segment_json. by reader.
Qed.

Definition ok_texts (l : list string) : Prop := Forall (λ s, valid_utf8 s = true) l.
Definition ok_record (r : SearchRecordV1) : Prop :=
  ok_texts [sr_DetailID r; sr_DocumentKey r; sr_Kind r; sr_Title r; sr_Description r; sr_Href r; sr_OperationID r;
            sr_Method r; sr_Path r; sr_SchemaName r]
  ∧ fits_uint 32 (sr_Occurrences r) ∧ ok_texts (elems (sr_Documents r)).
Lemma search_record_codec r : ok_record r → codec 2 search_record_json read_search_record r.
Proof.
  destruct r as [s1 s2 s3 s4 s5 s6 s7 s8 s9 s10 n documents]. intros (H1 & H2 & H3).
  cbn [sr_DetailID sr_DocumentKey sr_Kind sr_Title sr_Description sr_Href sr_OperationID sr_Method sr_Path sr_SchemaName sr_Occurrences sr_Documents] in *.
  unfold ok_texts in H1. rewrite !Forall_cons in H1. pose proof (slice_codecs text_codec documents H3) as Hm.
  object_codec; [apply readable_text; cbn; tauto..|apply readable_int, H2|apply Hm|].
  unfold read_search_record, search_record_json. by reader.
Qed.
Definition ok_record_segment (s : SearchRecordSegmentV1) : Prop :=
  versions_ok (srsx_SchemaVersion s) (srsx_SearchVersion s) ∧ fits_uint 32 (srsx_FirstRecord s)
  ∧ Forall ok_record (elems (srsx_Records s)).
Lemma record_segment_codec s : ok_record_segment s → codec 4 record_segment_json read_record_segment s.
Proof.
  destruct s as [schema version first records]. intros ([H1 H2] & H3 & H4).
  cbn [srsx_SchemaVersion srsx_SearchVersion srsx_FirstRecord srsx_Records] in *.
  pose proof (slice_codecs search_record_codec records H4) as Hm.
  object_codec; [apply readable_int, H1|apply readable_int, H2|apply readable_int, H3|apply Hm|].
  unfold read_record_segment, record_segment_json. by reader.
Qed.

Definition ok_reference (r : SearchSegmentReferenceV1) : Prop :=
  ok_texts [ssr_Path r; ssr_SHA256 r] ∧ fits_uint 32 (ssr_Entries r) ∧ fits_uint 32 (ssr_Postings r) ∧ fits_uint 64 (ssr_Length r).
Definition reference_json (r : SearchSegmentReferenceV1) : json := JObject (reference_fields r).
Lemma reference_codec r : ok_reference r → codec 1 reference_json read_segment_reference r.
Proof.
  destruct r as [path entries postings size digest]. intros (H1 & H2 & H3 & H4).
  cbn [ssr_Path ssr_SHA256 ssr_Entries ssr_Postings ssr_Length] in *. unfold ok_texts in H1. rewrite !Forall_cons in H1.
  object_codec; [apply readable_text; tauto|apply readable_int, H2|apply readable_int, H3|apply readable_int, H4|apply readable_text; tauto|].
  unfold read_segment_reference, reference_json, reference_fields, read_reference. by reader.
Qed.
Definition ok_bucket (b : SearchExactBucketReferenceV1) : Prop :=
  valid_utf8 (seb_Prefix b) = true ∧ ok_reference (seb_SearchSegmentReferenceV1 b).
Lemma exact_bucket_codec b : ok_bucket b → codec 1 exact_bucket_json read_exact_bucket b.
Proof.
  destruct b as [prefix [path entries postings size digest]]. intros (H0 & H1 & H2 & H3 & H4).
  cbn [seb_Prefix seb_SearchSegmentReferenceV1 ssr_Path ssr_SHA256 ssr_Entries ssr_Postings ssr_Length] in *.
  unfold ok_texts in H1. rewrite !Forall_cons in H1.
  object_codec; [apply readable_text; tauto..|apply readable_int, H2|apply readable_int, H3|apply readable_int, H4|apply readable_text; tauto|].
  unfold read_exact_bucket, exact_bucket_json, reference_fields, read_reference. by reader.
Qed.
Definition ok_route (r : SearchPostingRouteV1) : Prop := valid_utf8 (spr_Key r) = true ∧ fits_uint 16 (spr_Segment r).
Lemma route_codec r : ok_route r → codec 1 route_json read_route r.
Proof.
  destruct r as [key segment]. intros [H1 H2]; cbn [spr_Key spr_Segment] in *.
  object_codec; [by apply readable_text|apply readable_int, H2|]. unfold read_route, route_json. by reader.
Qed.
Definition ok_record_reference (r : SearchRecordSegmentReferenceV1) : Prop :=
  ok_texts [srs_Path r; srs_SHA256 r] ∧ fits_uint 32 (srs_FirstRecord r) ∧ fits_uint 32 (srs_Records r) ∧ fits_uint 64 (srs_Length r).
Lemma record_reference_codec r : ok_record_reference r → codec 1 record_reference_json read_record_reference r.
Proof.
  destruct r as [path first records size digest]. intros (H1 & H2 & H3 & H4).
  cbn [srs_Path srs_SHA256 srs_FirstRecord srs_Records srs_Length] in *. unfold ok_texts in H1. rewrite !Forall_cons in H1.
  object_codec; [apply readable_text; tauto|apply readable_int, H2|apply readable_int, H3|apply readable_int, H4|apply readable_text; tauto|].
  unfold read_record_reference, record_reference_json. by reader.
Qed.
Definition ok_rank (r : SearchRankRecordV1) : Prop := ok_texts [srk_Title r; srk_Kind r].
Lemma rank_codec r : ok_rank r → codec 1 rank_json read_rank r.
Proof.
  destruct r as [title kind]. unfold ok_rank, ok_texts. rewrite !Forall_cons; cbn [srk_Title srk_Kind]. intros (H1 & H2 & _).
  intros m. unfold rank_json, omit_string, omit_empty, text_field, field. cbn [srk_Title srk_Kind app]. case_bool_decide as Hk.
  - subst kind. object_split; [by apply readable_text|]. unfold read_rank. by reader.
  - object_split; [by apply readable_text..|]. unfold read_rank. by reader.
Qed.

Definition ok_directory (d : SearchDirectoryV1) : Prop :=
  versions_ok (sdir_SchemaVersion d) (sdir_SearchVersion d)
  ∧ Forall ok_bucket (elems (sdir_ExactBuckets d))
  ∧ Forall ok_route (elems (sdir_TokenRoutes d)) ∧ Forall ok_route (elems (sdir_TrigramRoutes d))
  ∧ Forall ok_reference (elems (sdir_PostingSegments d)) ∧ Forall ok_reference (elems (sdir_TrigramSegments d))
  ∧ Forall ok_record_reference (elems (sdir_RecordSegments d)) ∧ Forall ok_rank (elems (sdir_Ranks d)).
Lemma search_directory_codec d : ok_directory d → codec 3 search_directory_json read_search_directory d.
Proof.
  destruct d as [schema version buckets routes trigrams postings trigram_segments records ranks].
  intros ([H1 H2] & Hb & Hr & Ht & Hp & Hg & Hs & Hk).
  cbn [sdir_SchemaVersion sdir_SearchVersion sdir_ExactBuckets sdir_TokenRoutes sdir_TrigramRoutes sdir_PostingSegments
    sdir_TrigramSegments sdir_RecordSegments sdir_Ranks] in *.
  pose proof (slice_codecs exact_bucket_codec _ Hb) as Cb. pose proof (slice_codecs route_codec _ Hr) as Cr.
  pose proof (slice_codecs route_codec _ Ht) as Ct. pose proof (slice_codecs reference_codec _ Hp) as Cp.
  pose proof (slice_codecs reference_codec _ Hg) as Cg. pose proof (slice_codecs record_reference_codec _ Hs) as Cs.
  pose proof (slice_codecs rank_codec _ Hk) as Ck.
  object_codec; [apply readable_int, H1|apply readable_int, H2|apply Cb|apply Cr|apply Ct|apply Cp|apply Cg|apply Cs|apply Ck|].
  unfold read_search_directory, search_directory_json. change (λ r, JObject (reference_fields r)) with reference_json.
  by reader.
Qed.

(** ** The round trip *)

Lemma decode_encoded {A} n (encode : A → json) read a :
  codec n encode read a → (n ≤ 64)%nat → decodeCanonicalSearchChild read encode (render (encode a)) = Ok a.
Proof.
  intros Hc Hn. destruct (Hc (64 - n)%nat) as [Hr Hread]. replace (n + (64 - n))%nat with 64%nat in Hr by lia.
  unfold decodeCanonicalSearchChild. rewrite <-(app_nil_r (render (encode a))) at 1.
  rewrite (decode_render 64) by (done || by left). cbn [mbind option_bind fst]. rewrite Hread.
  by rewrite bool_decide_eq_true_2.
Qed.
