(* ===== verification/SearchSegments.v ===== *)
(** * The segments of a search index

    What the builder leaves in the children and references: every exact key in
    a bucket whose prefix its digest has, every posting in the segment of its
    route, every record in the segment of its ordinal. *)

From S2P Require Import Prelude GoString GoSha256 GoJson CatalogModel SearchText CatalogChildren SearchIndex SearchLists.

(** ** Children *)

Definition child_of (p kind : string) (data : list Z) : ChildArtifact :=
  MkChildArtifact p kind (Z.of_nat (length data)) (hex_encode (sha256 data)) data.

Lemma newChild_ok p kind data c : newChild p kind data = Ok c → c = child_of p kind data.
Proof. unfold newChild. intros H. by res_simpl. Qed.

Definition segment_child (directoryName kind : string) (data : list Z) : ChildArtifact :=
  child_of (content_path ("search/" +:+ directoryName) data) kind data.
Lemma contentAddressedSearchChild_ok directoryName kind data c :
  contentAddressedSearchChild directoryName kind data = Ok c → c = segment_child directoryName kind data.
Proof. apply newChild_ok. Qed.

Lemma collect_ok {A B} (f : A → res (list B)) l parts : collect f l = Ok parts → ∀ y, y ∈ parts ↔ ∃ x part, x ∈ l ∧ f x = Ok part ∧ y ∈ part.
Proof.
  revert parts. induction l as [|x l IH]; intros parts; cbn [collect]; intros H; res_simpl.
  { intros y. set_solver. }
  intros y. specialize (IH _ Hok0 y). rewrite elem_of_app, IH. split.
  - intros [Hy|(x' & p & ? & ? & ?)]; [exists x, a; set_solver|exists x', p; set_solver].
  - intros (x' & p & [->|Hx]%elem_of_cons & E & Hy); [left; congruence|right; eauto].
Qed.
Lemma collect_each {A B} (f : A → res (list B)) l parts x : collect f l = Ok parts → x ∈ l → ∃ part, f x = Ok part.
Proof.
  revert parts. induction l as [|x' l IH]; intros parts; cbn [collect]; intros H; [by intros ?%elem_of_nil|]. res_simpl.
  intros [->|Hx]%elem_of_cons; eauto.
Qed.

(** ** Runs of records *)

Lemma elem_of_concat {A} (runs : list (list A)) x : x ∈ concat runs ↔ ∃ run, run ∈ runs ∧ x ∈ run.
Proof. induction runs as [|run runs IH]; cbn; [set_solver|]. rewrite elem_of_app, IH. set_solver. Qed.


Section runs.
Context {A B : Type} (encode : nat → list A → list Z) (admits : list A → A → bool) (limit : Z).
Context (too_large : nat → A → error) (no_progress : error) (emit : nat → nat → list A → list Z → res B).

Lemma take_chunk_ok start taken encoded records taken' encoded' rest :
  take_chunk encode admits limit too_large start taken encoded records = Ok (taken', encoded', rest) →
  (taken ≠ [] → encoded = encode start taken ∧ Z.of_nat (length encoded) ≤ limit) →
  (∃ more, taken' = taken ++ more ∧ records = more ++ rest)
  ∧ (taken' ≠ [] → encoded' = encode start taken' ∧ Z.of_nat (length encoded') ≤ limit).
Proof.
  revert taken encoded. induction records as [|x records IH]; intros taken encoded H Hinv; cbn [take_chunk] in H.
  { cbv [mret res_ret] in H. injection H as <- <- <-. split; [by exists []; rewrite app_nil_r|done]. }
  assert (Hstop : Ok (taken, encoded, x :: records) = Ok (taken', encoded', rest) →
    (∃ more, taken' = taken ++ more ∧ x :: records = more ++ rest)
    ∧ (taken' ≠ [] → encoded' = encode start taken' ∧ Z.of_nat (length encoded') ≤ limit)).
  { intros [= <- <- <-]. split; [by exists []; rewrite app_nil_r|done]. }
  destruct (admits taken x); cbn [negb] in H; [|by apply Hstop].
  cbv zeta in H. destruct (Z.ltb_spec limit (Z.of_nat (length (encode start (taken ++ [x]))))).
  - destruct taken; [done|]. by apply Hstop.
  - apply IH in H; [|done]. destruct H as [(more & -> & ->) Hinv']. split; [|done]. exists (x :: more). by rewrite <-app_assoc.
Qed.

(** The runs are the records in order; each is emitted with its number and the
    number of its first record, and its bytes are within the limit. *)
Record cut_into (number start : nat) (records : list A) (parts : list B) (runs : list (list A)) : Prop := {
  cut_concat : concat runs = records;
  cut_length : length runs = length parts;
  cut_run : ∀ i run, runs !! i = Some run →
    run ≠ [] ∧ Z.of_nat (length (encode (start + length (concat (take i runs))) run)) ≤ limit
    ∧ ∃ part, parts !! i = Some part
      ∧ emit (number + i) (start + length (concat (take i runs))) run (encode (start + length (concat (take i runs))) run) = Ok part;
}.

Lemma chunks_ok fuel number start records parts :
  chunks encode admits limit too_large no_progress emit fuel number start records = Ok parts →
  ∃ runs, cut_into number start records parts runs.
Proof.
  revert number start records parts. induction fuel as [|fuel IH]; intros number start records parts H.
  { destruct records; [|done]. cbn [chunks] in H. res_simpl. exists []. by split. }
  destruct records as [|x records]; cbn [chunks] in H; res_simpl; [exists []; by split|].
  destruct a as [[taken encoded] rest]. res_simpl. apply take_chunk_ok in Hok as [(more & -> & E) Hinv]; [|done]. cbn [app] in *.
  bool_prop. destruct (decide (more = [])) as [->|Hne]; [done|]. destruct (Hinv Hne) as [-> Hlim].
  apply IH in Hok2 as [runs [Hc Hl Hr]]. exists (more :: runs). split.
  - cbn [concat]. by rewrite Hc.
  - cbn [length]. by rewrite Hl.
  - intros [|i] run Hrun; cbn [lookup list_lookup] in Hrun.
    + injection Hrun as <-. cbn [take concat length]. rewrite !Nat.add_0_r. split; [done|]. split; [done|]. by exists a.
    + destruct (Hr i run Hrun) as (? & Hlim' & part & Hp & Hemit). cbn [take concat]. rewrite length_app.
      replace (number + S i)%nat with (S number + i)%nat by lia.
      rewrite Nat.add_assoc. split; [done|]. split; [done|]. by exists part.
Qed.

Lemma cut_records_ok records parts :
  cut_records encode admits limit too_large no_progress emit records = Ok parts → ∃ runs, cut_into 0 0 records parts runs.
Proof. apply chunks_ok. Qed.
End runs.

(** ** Postings and records *)

Definition posting_data (run : list SearchPostingEntryV1) : list Z := render (posting_segment_json (posting_segment run)).
Definition posting_reference (directoryName kind : string) (run : list SearchPostingEntryV1) : SearchSegmentReferenceV1 :=
  searchSegmentReference (segment_child directoryName kind (posting_data run))
    (uint32 (Z.of_nat (length run))) (uint32 (posting_count run)).

Record posting_layout (directoryName kind : string) (limit : Z) (entries : list SearchPostingEntryV1)
    (routes : list SearchPostingRouteV1) (references : list SearchSegmentReferenceV1) (children : list ChildArtifact)
    (runs : list (list SearchPostingEntryV1)) : Prop := {
  pl_concat : concat runs = entries;
  pl_references : references = posting_reference directoryName kind <$> runs;
  pl_run : ∀ i run, runs !! i = Some run →
    Z.of_nat i < 65535 ∧ Z.of_nat (length (posting_data run)) ≤ limit
    ∧ segment_child directoryName kind (posting_data run) ∈ children;
  pl_routes : ∀ r, r ∈ routes ↔ ∃ i run e, runs !! i = Some run ∧ e ∈ run ∧ r = MkSearchPostingRouteV1 (spe_Key e) (Z.of_nat i);
}.

Lemma buildPostingSearchSegments_ok directoryName kind postings limit routes references children usage :
  buildPostingSearchSegments directoryName kind postings limit = Ok (routes, references, children, usage) →
  ∃ runs, posting_layout directoryName kind limit (posting_entries postings) routes references children runs.
Proof.
  unfold buildPostingSearchSegments. intros H. apply bind_ok in H as (parts & H & E). cbv [mret res_ret] in E.
  injection E as <- <- <- <-. apply cut_records_ok in H as [runs [Hc Hl Hr]].
  assert (Hpart : ∀ i run, runs !! i = Some run → Z.of_nat i < 65535 ∧ parts !! i = Some (MkPostingPart
    ((λ e, MkSearchPostingRouteV1 (spe_Key e) (Z.of_nat i)) <$> run) (posting_reference directoryName kind run)
    (segment_child directoryName kind (posting_data run)))).
  { intros i run Hrun. destruct (Hr i run Hrun) as (_ & _ & part & Hp & Hemit). unfold posting_part in Hemit. res_simpl.
    apply contentAddressedSearchChild_ok in Hok0 as ->.
    bool_prop. split; [lia|]. done. }
  exists runs. split; [done| | |].
  - apply list_eq. intros i. rewrite !list_lookup_fmap. destruct (runs !! i) as [run|] eqn:E.
    + by rewrite (proj2 (Hpart _ _ E)).
    + apply lookup_ge_None in E. by rewrite lookup_ge_None_2 by lia.
  - intros i run E. destruct (Hpart _ _ E) as [Hi Hp]. split; [done|]. destruct (Hr _ _ E) as (_ & Hlim & _). split; [done|].
    apply list_elem_of_fmap. eexists. split; [|by eapply list_elem_of_lookup_2]. done.
  - intros r. rewrite list_elem_of_bind. split.
    + intros (part & Hin & Hr'). apply list_elem_of_lookup in Hr' as [i Hi].
      destruct (lookup_lt_is_Some_2 runs i) as [run E]; [rewrite Hl; by eapply lookup_lt_Some|].
      destruct (Hpart _ _ E) as [_ Hp]. rewrite Hi in Hp. injection Hp as ->. cbn [pp_routes] in Hin.
      apply list_elem_of_fmap in Hin as (e & -> & He). by exists i, run, e.
    + intros (i & run & e & E & He & ->). destruct (Hpart _ _ E) as [_ Hp]. eexists. split; [|by eapply list_elem_of_lookup_2].
      cbn [pp_routes]. apply list_elem_of_fmap. by exists e.
Qed.

Definition record_data (start : nat) (run : list SearchRecordV1) : list Z := render (record_segment_json (record_segment start run)).
Definition record_reference (start : nat) (run : list SearchRecordV1) : SearchRecordSegmentReferenceV1 :=
  let child := segment_child "records" "search-record" (record_data start run) in
  MkSearchRecordSegmentReferenceV1 (ch_Path child) (uint32 (Z.of_nat start)) (uint32 (Z.of_nat (length run)))
    (ch_Length child) (ch_SHA256 child).
Definition run_start {A} (runs : list (list A)) (i : nat) : nat := length (concat (take i runs)).

Record record_layout (limit : Z) (records : list SearchRecordV1) (references : list SearchRecordSegmentReferenceV1)
    (children : list ChildArtifact) (runs : list (list SearchRecordV1)) : Prop := {
  rl_concat : concat runs = records;
  rl_references : references = imap (λ i run, record_reference (run_start runs i) run) runs;
  rl_run : ∀ i run, runs !! i = Some run →
    run ≠ [] ∧ Z.of_nat (length (record_data (run_start runs i) run)) ≤ limit
    ∧ segment_child "records" "search-record" (record_data (run_start runs i) run) ∈ children;
}.

Lemma buildSearchRecordSegments_ok records limit references children usage :
  buildSearchRecordSegments records limit = Ok (references, children, usage) →
  ∃ runs, record_layout limit records references children runs.
Proof.
  unfold buildSearchRecordSegments. intros H. apply bind_ok in H as (parts & H & E). cbv [mret res_ret] in E.
  injection E as <- <- <-. apply cut_records_ok in H as [runs [Hc Hl Hr]].
  assert (Hpart : ∀ i run, runs !! i = Some run → parts !! i = Some (record_reference (run_start runs i) run,
    segment_child "records" "search-record" (record_data (run_start runs i) run))).
  { intros i run Hrun. destruct (Hr i run Hrun) as (_ & _ & part & Hp & Hemit). unfold record_part in Hemit. res_simpl.
    by apply contentAddressedSearchChild_ok in Hok as ->. }
  exists runs. split; [done| |].
  - apply list_eq. intros i. rewrite list_lookup_fmap, list_lookup_imap. destruct (runs !! i) as [run|] eqn:E.
    + by rewrite (Hpart _ _ E).
    + apply lookup_ge_None in E. by rewrite lookup_ge_None_2 by lia.
  - intros i run E. destruct (Hr _ _ E) as (? & ? & _). split; [done|]. split; [done|].
    apply list_elem_of_fmap. eexists. split; [|by eapply list_elem_of_lookup_2, Hpart]. done.
Qed.

(** ** Exact keys *)

Definition exact_data (es : list SearchExactEntryV1) : list Z := render (exact_segment_json (exact_segment es)).
Definition exact_reference (es : list SearchExactEntryV1) : SearchSegmentReferenceV1 :=
  searchSegmentReference (segment_child "exact" "search-exact" (exact_data es)) (uint32 (Z.of_nat (length es))) (count_exact es).
Notation by_key := (StronglySorted (λ x y, see_Key x <? see_Key y = true)%string).

(** The bucket of a prefix holds, in order, the entries whose digest has it. *)
Definition exact_bucket (all : list exactSearchEntry) (limit : Z) (b : SearchExactBucketReferenceV1) (child : ChildArtifact) : Prop :=
  ∃ es, by_key es
  ∧ (∀ e, e ∈ es ↔ ∃ x, x ∈ all ∧ ex_entry x = e ∧ HasPrefix (ex_digest x) (seb_Prefix b) = true)
  ∧ child = segment_child "exact" "search-exact" (exact_data es) ∧ Z.of_nat (length (exact_data es)) ≤ limit
  ∧ seb_SearchSegmentReferenceV1 b = exact_reference es.

Record exact_layout (all : list exactSearchEntry) (limit : Z) (artifacts : list exactSearchArtifact) : Prop := {
  el_bucket : ∀ a, a ∈ artifacts → exact_bucket all limit a.1 a.2;
  el_found : ∀ x, x ∈ all → ∃ a, a ∈ artifacts ∧ HasPrefix (ex_digest x) (seb_Prefix a.1) = true;
}.

Lemma has_prefix_snoc d p c :
  HasPrefix d (p +:+ String c EmptyString) = true ↔ HasPrefix d p = true ∧ digit_at d (String.length p) = Some c.
Proof.
  unfold HasPrefix, digit_at. revert d. induction p as [|a p IH]; intros d.
  - change ("" +:+ String c "") with (String c ""). destruct d as [|b d]; [cbn; naive_solver|]. cbn.
    destruct (Ascii.ascii_dec c b) as [->|Hne]; [by destruct d|]. naive_solver.
  - change (String a p +:+ String c "") with (String a (p +:+ String c "")). destruct d as [|b d]; [cbn; naive_solver|]. cbn.
    destruct (Ascii.ascii_dec a b) as [->|]; [apply IH|naive_solver].
Qed.

Lemma sorted_by_key (es : list exactSearchEntry) :
  NoDup ((λ x, see_Key (ex_entry x)) <$> es) → by_key (ex_entry <$> sort_entries es).
Proof.
  intros Hn. pose proof (sort_by_strict (λ e, [KS (see_Key (ex_entry e))]) es) as Hs.
  rewrite (NoDup_fmap_iff _ (λ x, see_Key (ex_entry x))) in Hs; [|intros x y _ _; cbn; split; [intros [= E]; exact E|by intros ->]]. specialize (Hs Hn).
  unfold sort_entries. unfold strictly_sorted in Hs. induction Hs as [|x l Hl IH Hx]; [constructor|]. constructor; [done|].
  apply Forall_fmap. eapply Forall_impl; [exact Hx|]. intros y. unfold less_by. cbn.
  case_decide as E; [done|]. done.
Qed.

Lemma exact_artifact_ok prefix es limit a :
  exact_artifact prefix es limit = Ok a →
  a = (MkSearchExactBucketReferenceV1 prefix (exact_reference (ex_entry <$> es)),
       segment_child "exact" "search-exact" (exact_data (ex_entry <$> es)))
  ∧ Z.of_nat (length (exact_data (ex_entry <$> es))) ≤ limit.
Proof.
  unfold exact_artifact. intros H. res_simpl. apply contentAddressedSearchChild_ok in Hok0 as ->. bool_prop. done.
Qed.

Lemma emit_exact_ok all limit levels prefix entries artifacts :
  emit_exact limit levels prefix entries = Ok artifacts →
  (∀ x, x ∈ entries ↔ x ∈ all ∧ HasPrefix (ex_digest x) prefix = true) →
  NoDup ((λ x, see_Key (ex_entry x)) <$> entries) →
  (∀ a, a ∈ artifacts → exact_bucket all limit a.1 a.2)
  ∧ ∀ x, x ∈ entries → ∃ a, a ∈ artifacts ∧ HasPrefix (ex_digest x) (seb_Prefix a.1) = true.
Proof.
  revert prefix entries artifacts. induction levels as [|levels IH]; intros prefix entries artifacts H He Hn;
    cbn [emit_exact] in H; cbv zeta in H; (apply bind_ok in H as (estimated & _ & H));
    (destruct (estimated <=? limit);
      [apply bind_ok in H as (a & Ha & H); apply exact_artifact_ok in Ha as [-> Hlim]; cbv [mret res_ret] in H; injection H as <-|]).
  1,3: split;
    [ intros a ->%list_elem_of_singleton; exists (ex_entry <$> sort_entries entries); split; [by apply sorted_by_key|];
      split; [|done]; intros e; rewrite list_elem_of_fmap; cbn [fst seb_Prefix];
      setoid_rewrite (sort_by_elem_of _ entries); setoid_rewrite He; naive_solver
    | intros x Hx; eexists; split; [by left|]; by apply He ].
  - done.
  - apply seq_ok in H as [Hdigits H]. rewrite for_each_ok, Forall_forall in Hdigits.
    set (position := String.length prefix) in *. set (sorted := sort_entries entries) in *.
    assert (Hsorted : ∀ x, x ∈ sorted ↔ x ∈ entries) by (intros; apply sort_by_elem_of).
    assert (Hchild : ∀ nibble part, (if bool_decide (filter (λ e, digit_at (ex_digest e) position = Some nibble) sorted = []) then mret []
        else emit_exact limit levels (prefix +:+ String nibble "") (filter (λ e, digit_at (ex_digest e) position = Some nibble) sorted)) = Ok part →
      (∀ a, a ∈ part → exact_bucket all limit a.1 a.2)
      ∧ ∀ x, x ∈ entries → digit_at (ex_digest x) position = Some nibble → ∃ a, a ∈ part ∧ HasPrefix (ex_digest x) (seb_Prefix a.1) = true).
    { intros nibble part Hp. case_bool_decide as Ef.
      - cbv [mret res_ret] in Hp. injection Hp as <-. split; [by intros a ?%elem_of_nil|]. intros x Hx Hd.
        assert (x ∈ filter (λ e, digit_at (ex_digest e) position = Some nibble) sorted) as Hin
          by (apply list_elem_of_filter; by rewrite Hsorted). rewrite Ef in Hin. by apply elem_of_nil in Hin.
      - apply IH in Hp as [H1 H2].
        + split; [done|]. intros x Hx Hd. apply H2. apply list_elem_of_filter. by rewrite Hsorted.
        + intros x. rewrite list_elem_of_filter, Hsorted, He, has_prefix_snoc. tauto.
        + eapply sublist_NoDup; [|apply fmap_sublist, sublist_filter]. unfold sorted, sort_entries. by rewrite sort_by_perm. }
    split.
    + intros a Ha. apply (collect_ok _ _ _ H) in Ha as (nibble & part & _ & Hp & Ha). by apply Hchild in Hp as [H1 _]; apply H1.
    + intros x Hx. assert (Hd := Hdigits x ltac:(by apply Hsorted)). apply throw_if_ok, negb_false_iff in Hd.
      destruct (digit_at (ex_digest x) position) as [c|] eqn:Ec; [|done]. apply bool_decide_eq_true in Hd.
      destruct (collect_each _ _ _ c H Hd) as [part Hp]. destruct (Hchild c part Hp) as [_ H2].
      destruct (H2 x Hx Ec) as (a & Ha & ?). exists a. split; [|done]. apply (collect_ok _ _ _ H). by exists c, part.
Qed.

Lemma first_digit_prefix d d' : d ≠ "" → d' ≠ "" → first_digit d = first_digit d' ↔ HasPrefix d (first_digit d') = true.
Proof.
  unfold first_digit, HasPrefix. destruct d as [|a d], d' as [|b d']; try done. intros _ _. cbn.
  destruct d, d'; cbn; destruct (Ascii.ascii_dec b a); naive_solver.
Qed.

Definition exact_entries (matches : gmap string (gmap Z Z)) : list exactSearchEntry :=
  (λ kv, exact_entry kv.1 kv.2) <$> map_to_list matches.
Lemma exact_entries_spec matches x : x ∈ exact_entries matches ↔ ∃ k m, matches !! k = Some m ∧ x = exact_entry k m.
Proof.
  unfold exact_entries. rewrite list_elem_of_fmap. split.
  - intros ([k m] & -> & Hin%elem_of_map_to_list). by exists k, m.
  - intros (k & m & Hin & ->). exists (k, m). split; [done|]. by apply elem_of_map_to_list.
Qed.
Lemma exact_entries_keys matches : NoDup ((λ x, see_Key (ex_entry x)) <$> exact_entries matches).
Proof.
  unfold exact_entries. rewrite <-list_fmap_compose. apply (NoDup_fst_map_to_list matches).
Qed.
Lemma exact_digest k m : ex_digest (exact_entry k m) = hex_encode (sha256 (bytes_of k)).
Proof. done. Qed.

Lemma buildExactSearchSegments_ok matches limit buckets children usage :
  (∀ k : string, hex_encode (sha256 (bytes_of k)) ≠ "") →
  buildExactSearchSegments matches limit = Ok (buckets, children, usage) →
  ∃ artifacts, exact_layout (exact_entries matches) limit artifacts ∧ buckets = artifacts.*1 ∧ children = artifacts.*2.
Proof.
  intros Hhex. unfold buildExactSearchSegments. intros H. apply bind_ok in H as (artifacts & H & E). cbv [mret res_ret] in E.
  fold (exact_entries matches) in H. set (all := exact_entries matches) in *. injection E as <- <- <-.
  assert (Hne : ∀ x, x ∈ all → ex_digest x ≠ "").
  { intros x (k & m & _ & ->)%exact_entries_spec. rewrite exact_digest. apply Hhex. }
  assert (Hpre : ∀ p, p ∈ bucket_prefixes all ↔ ∃ x, x ∈ all ∧ first_digit (ex_digest x) = p).
  { intros p. unfold bucket_prefixes. unfold sort_strings. rewrite sort_by_elem_of, elem_of_elements, elem_of_list_to_set, list_elem_of_fmap.
    split; intros (x & E & Hx); exists x; by split. }
  assert (Hpart : ∀ p part, p ∈ bucket_prefixes all → emit_exact limit 63 p (filter (λ e, first_digit (ex_digest e) = p) all) = Ok part →
    (∀ a, a ∈ part → exact_bucket all limit a.1 a.2)
    ∧ ∀ x, x ∈ all → first_digit (ex_digest x) = p → ∃ a, a ∈ part ∧ HasPrefix (ex_digest x) (seb_Prefix a.1) = true).
  { intros p part (y & Hy & <-)%Hpre Hp. apply (emit_exact_ok all) in Hp as [H1 H2].
    - split; [done|]. intros x Hx Hd. apply H2. by apply list_elem_of_filter.
    - intros x. rewrite list_elem_of_filter. split.
      + intros [E Hx]. split; [done|]. by apply first_digit_prefix; auto.
      + intros [Hx E]. split; [|done]. by apply first_digit_prefix in E; auto.
    - eapply sublist_NoDup; [|apply fmap_sublist, sublist_filter]. apply exact_entries_keys. }
  eexists. split; [|done]. split.
  - intros a Ha. rewrite sort_by_elem_of in Ha. apply (collect_ok _ _ _ H) in Ha as (p & part & Hin & Hp & Ha).
    by apply (Hpart p part Hin) in Hp as [H1 _]; apply H1.
  - intros x Hx. assert (Hin : first_digit (ex_digest x) ∈ bucket_prefixes all) by (apply Hpre; by exists x).
    destruct (collect_each _ _ _ _ H Hin) as [part Hp]. destruct (Hpart _ part Hin Hp) as [_ H2].
    destruct (H2 x Hx eq_refl) as (a & Ha & ?). exists a. split; [|done]. rewrite sort_by_elem_of. apply (collect_ok _ _ _ H). by eexists _, part.
Qed.
