(* ===== verification/SearchIndexed.v ===== *)
(** * What the search index records of a catalog

    The texts of the records and keys are well formed, the postings of a key
    are the records that have it, in order, and the priority of an exact key is
    its best one. *)

From S2P Require Import Prelude GoString GoSha256 GoJson CatalogModel SearchText CatalogChildren SearchIndex SearchLists SearchRoundtrip.

(** The text packages keep UTF-8 well formed. *)
Class SearchLaws `{SearchTables} : Prop := {
  nfkc_valid s : valid_utf8 s = true → valid_utf8 (nfkc_string s) = true;
  fold_valid s : valid_utf8 s = true → valid_utf8 (fold_string s) = true;
}.

Section texts.
Context `{SearchLaws}.

Lemma split_runs_each {A} (P : A → Prop) p run l : Forall P run → Forall P l → Forall (Forall P) (split_runs p run l).
Proof.
  intros Hr Hl. revert run Hr. induction Hl as [|x l Hx Hl IH]; intros run Hr; cbn.
  - destruct run; [constructor|]. repeat constructor. by rewrite reverse_Permutation.
  - destruct (p x).
    + destruct run; [by apply IH|]. constructor; [by rewrite reverse_Permutation|by apply IH].
    + apply IH. by constructor.
Qed.

Lemma tokenize_valid s : ok_texts (tokenizeSearchText s).
Proof.
  unfold ok_texts, tokenizeSearchText. apply Forall_fmap. eapply Forall_impl; [apply (split_runs_each (λ r, is_scalar r = true))|].
  - constructor.
  - apply runes_scalars.
  - intros rs. apply valid_of_runes.
Qed.

Lemma split_words_scalars word rs : scalars word → scalars rs → Forall scalars (split_words word rs).
Proof.
  intros Hw Hr. revert word Hw. induction Hr as [|r rs Hr Hrs IH]; intros word Hw; cbn [split_words].
  - destruct word; [constructor|]. repeat constructor. by rewrite reverse_Permutation.
  - assert (Hflush : ∀ l, Forall scalars l → Forall scalars (match word with [] => [] | _ => [reverse word] end ++ l)).
    { intros l Hl. destruct word; [done|]. constructor; [|done]. by rewrite reverse_Permutation. }
    assert (scalars [r]) by (apply Forall_cons; by split).
    destruct (_ && _); [apply Hflush, IH; constructor|]. destruct word as [|p word]; [by apply IH|].
    destruct (word_boundary _ _ _); [by apply Hflush, IH|apply IH; by apply Forall_cons].
Qed.

Lemma sanitize_valid s : valid_utf8 (sanitizeSearchText s) = true.
Proof.
  apply valid_of_runes. apply Forall_fmap. eapply Forall_impl; [apply runes_scalars|]. intros r Hr. cbn. by destruct (is_control r).
Qed.
Lemma snippet_valid s : valid_utf8 (searchSnippet s) = true.
Proof.
  unfold searchSnippet. cbv zeta. case_match; [apply Join_Fields_valid, sanitize_valid|].
  apply valid_of_runes, Forall_take, runes_scalars.
Qed.

Lemma token_set_valid values : ok_texts (searchTokenSet values).
Proof.
  unfold ok_texts, searchTokenSet, sort_strings. apply sort_by_Forall, Forall_forall.
  intros token. rewrite elem_of_elements, elem_of_list_to_set, list_elem_of_bind. intros (value & Ht & _).
  unfold value_tokens in Ht. cbv zeta in Ht. apply elem_of_app in Ht as [Ht|Ht]; apply list_elem_of_filter in Ht as [_ Ht].
  - apply list_elem_of_fmap in Ht as (piece & -> & Hp). apply fold_valid. unfold splitSearchIndexWords in Hp.
    apply list_elem_of_fmap in Hp as (rs & -> & Hrs). apply valid_of_runes.
    assert (Forall scalars (split_words [] (runes (nfkc_string (sanitizeSearchText value))))) as Hw
      by (apply split_words_scalars; [constructor|apply runes_scalars]).
    rewrite Forall_forall in Hw. by apply Hw.
  - pose proof (tokenize_valid (fold_string (nfkc_string (sanitizeSearchText value)))) as Hv. unfold ok_texts in Hv.
    rewrite Forall_forall in Hv. by apply Hv.
Qed.
Lemma token_set_NoDup values : NoDup (searchTokenSet values).
Proof. unfold searchTokenSet, sort_strings. rewrite sort_by_perm. apply NoDup_elements. Qed.

Lemma trigrams_valid s : ok_texts (searchTrigrams s).
Proof.
  unfold ok_texts, searchTrigrams. case_match; [constructor|]. unfold sort_strings. apply sort_by_Forall, Forall_forall.
  intros t. rewrite elem_of_elements, elem_of_list_to_set, list_elem_of_fmap. intros (p & -> & _).
  apply valid_of_runes, Forall_take, Forall_drop, runes_scalars.
Qed.

Lemma normalize_valid s key : normalizeSearchExact s = Ok key → valid_utf8 key = true.
Proof.
  unfold normalizeSearchExact. cbv zeta. intros H'. res_simpl. apply orb_false_iff in Hok as [Hv%negb_false_iff _].
  by apply fold_valid, nfkc_valid, TrimSpace_valid.
Qed.
End texts.

(** ** The records *)

Definition operation_texts (o : OperationDirectoryV1) : Prop :=
  ok_texts [od_DetailID o; od_Title o; od_OperationID o; od_Method o; EffectiveRequestTarget o; od_Href o].
Definition schema_texts (s : SchemaDirectoryV1) : Prop := ok_texts [scd_DetailID s; scd_Name s; scd_Href s].
(** The catalog's texts are well-formed UTF-8, as everything read from JSON is. *)
Definition directory_texts (d : CatalogArtifactV1) : Prop :=
  ∀ document, document ∈ elems (ca_Documents d) →
    valid_utf8 (dd_Key document) = true ∧ Forall operation_texts (elems (dd_Operations document))
    ∧ Forall schema_texts (elems (dd_Schemas document)).

(** What holds of every record of an index. *)
Definition builder_ok (b : searchBuildRecord) : Prop :=
  ok_record (sb_record b) ∧ ok_texts (sb_tokens b) ∧ NoDup (sb_tokens b) ∧ Forall (λ k, fits_uint 8 (ek_priority k)) (sb_exact b).

Lemma uint32_fits z : fits_uint 32 (uint32 z).
Proof. unfold fits_uint, uint32. apply Z.mod_pos_bound. lia. Qed.

Section records.
Context `{SearchLaws}.

Lemma operation_builder_ok key o : valid_utf8 key = true → operation_texts o → builder_ok (operation_builder key o).
Proof.
  intros Hk Ho. unfold operation_texts, ok_texts in Ho. rewrite !Forall_cons in Ho. destruct Ho as (?&?&?&?&?&?&_).
  split_and!.
  - split; [|split; [done|by repeat constructor]]. cbn. unfold ok_texts. repeat (apply Forall_cons; split); try done. apply snippet_valid.
  - apply token_set_valid.
  - apply token_set_NoDup.
  - cbn. repeat (apply Forall_cons; split; [done|]). apply Forall_fmap, Forall_forall. by intros ? _.
Qed.

Definition occurrence_ok (o : schemaSearchOccurrence) : Prop := valid_utf8 o.1 = true ∧ schema_texts o.2.

Lemma group_builder_ok occurrences : Forall occurrence_ok occurrences → Forall builder_ok (group_builder occurrences).
Proof.
  intros Ho. unfold group_builder.
  match goal with |- context [sort_by ?f occurrences] =>
    assert (Forall occurrence_ok (sort_by f occurrences)) as Hs by (by apply sort_by_Forall); revert Hs; generalize (sort_by f occurrences)
  end. intros l Hs.
  destruct l as [|[key schema] rest]; [constructor|]. cbv zeta. apply Forall_cons; split; [|constructor].
  pose proof (Forall_inv Hs) as [Hk Ht]. cbn in Hk, Ht. unfold schema_texts, ok_texts in Ht. rewrite !Forall_cons in Ht. destruct Ht as (?&?&?&_).
  assert (ok_texts ((key, schema) :: rest).*1) as Hkeys.
  { apply Forall_fmap. eapply Forall_impl; [exact Hs|]. by intros o [? _]. }
  split_and!.
  - split; [|split; [apply uint32_fits|done]]. cbn. unfold ok_texts. repeat (apply Forall_cons; split); try done. apply snippet_valid.
  - apply token_set_valid.
  - apply token_set_NoDup.
  - cbn. repeat (apply Forall_cons; split; [done|]). apply Forall_fmap, Forall_forall. by intros ? _.
Qed.

Lemma group_occurrences_in profile occurrences key o :
  o ∈ default [] (group_occurrences profile occurrences !! key) → o ∈ occurrences.
Proof.
  unfold group_occurrences. assert (∀ groups : gmap string (list schemaSearchOccurrence),
    o ∈ default [] (foldl (λ groups occurrence, let key := schema_group_key profile occurrence.2 in
      <[key := default [] (groups !! key) ++ [occurrence]]> groups) groups occurrences !! key) →
    o ∈ default [] (groups !! key) ∨ o ∈ occurrences) as Hf.
  { induction occurrences as [|x l IH]; intros groups; cbn [foldl]; [by left|]. intros [Hin|?]%IH; [|right; by right].
    cbv zeta in Hin. destruct (decide (schema_group_key profile x.2 = key)) as [<-|Hne].
    - rewrite lookup_insert_eq in Hin. cbn [default] in Hin. apply elem_of_app in Hin as [?| ->%list_elem_of_singleton]; [by left|right; by left].
    - rewrite lookup_insert_ne in Hin by done. by left. }
  intros [Hin|?]%Hf; [|done]. rewrite lookup_empty in Hin. by apply elem_of_nil in Hin.
Qed.

Lemma search_builders_ok d : directory_texts d → Forall builder_ok (search_builders d).
Proof.
  intros Hd. unfold search_builders. cbv zeta. apply sort_by_Forall, Forall_app. split.
  - apply Forall_forall. intros b (document & Hb & Hin)%list_elem_of_bind. apply list_elem_of_fmap in Hb as (o & -> & Ho).
    destruct (Hd document Hin) as (? & Hops & _). rewrite Forall_forall in Hops. apply operation_builder_ok; auto.
  - apply Forall_forall. intros b (key & Hb & _)%list_elem_of_bind. revert b Hb. apply Forall_forall, group_builder_ok, Forall_forall.
    intros o Ho%group_occurrences_in. unfold catalog_occurrences in Ho. apply list_elem_of_bind in Ho as (document & Ho & Hin).
    apply list_elem_of_fmap in Ho as (schema & -> & Hs). destruct (Hd document Hin) as (? & _ & Hss). rewrite Forall_forall in Hss.
    split; [done|]. by apply Hss.
Qed.
End records.

(** ** The postings *)

Section postings.
Context `{SearchLaws}.

(** The priorities a record gives an exact key, and the best of them. *)
Definition key_priorities (keys : list searchExactKey) (key : string) : list Z :=
  omap (λ k, match normalizeSearchExact (ek_value k) with
             | Ok normalized => if decide (normalized = key) then Some (ek_priority k) else None
             | Fail _ => None
             end) keys.
Definition best (priorities : list Z) : option Z :=
  foldl (λ best p, Some (match best with None => p | Some q => if p <? q then p else q end)) None priorities.
Definition identity_priority (b : searchBuildRecord) (key : string) : option Z := best (key_priorities (sb_exact b) key).

Lemma best_snoc l p : best (l ++ [p]) = Some (match best l with None => p | Some q => if p <? q then p else q end).
Proof. unfold best. by rewrite foldl_app. Qed.
Lemma best_spec l p : best l = Some p ↔ p ∈ l ∧ ∀ q, q ∈ l → p ≤ q.
Proof.
  revert p. induction l as [|x l IH] using rev_ind; intros p; [split; [done|by intros [?%elem_of_nil _]]|].
  rewrite best_snoc. setoid_rewrite elem_of_app. setoid_rewrite list_elem_of_singleton. destruct (best l) as [q|] eqn:E.
  - destruct (proj1 (IH q) eq_refl) as [Hq Hmin]. destruct (Z.ltb_spec x q) as [Hx|Hx].
    + split; [intros [= <-]; split; [by right|]; intros y [Hy%Hmin| ->]; lia|].
      intros [[Hp| ->] Hle]; [|done]. f_equal. apply Hmin in Hp. specialize (Hle x ltac:(by right)). lia.
    + split; [intros [= <-]; split; [by left|]; intros y [Hy%Hmin| ->]; lia|].
      intros [Hp Hle]. f_equal. specialize (Hle q ltac:(by left)). destruct Hp as [Hp%Hmin| ->]; lia.
  - assert (l = []) as ->.
    { destruct l as [|y l] using rev_ind; [done|]. by rewrite best_snoc in E. }
    split; [intros [= <-]; split; [by right|]; by intros y [?%elem_of_nil| ->]|]. intros [[?%elem_of_nil| ->] _]; done.
Qed.

Lemma key_priorities_snoc keys k key :
  key_priorities (keys ++ [k]) key
  = key_priorities keys key ++ match normalizeSearchExact (ek_value k) with
                               | Ok normalized => if decide (normalized = key) then [ek_priority k] else []
                               | Fail _ => []
                               end.
Proof. unfold key_priorities. rewrite omap_app. cbn. destruct (normalizeSearchExact _); [case_decide|]; done. Qed.

(** The keys of one record added to the matches of the records before it. *)
Lemma add_exact_ok recordID detail matches keys matches' :
  (∀ key, matches !! key ≫= (.!! recordID) = None) →
  fold_res (add_exact recordID detail) matches keys = Ok matches' →
  (∀ key, matches' !! key ≫= (.!! recordID) = best (key_priorities keys key))
  ∧ (∀ key r, r ≠ recordID → matches' !! key ≫= (.!! r) = matches !! key ≫= (.!! r))
  ∧ (∀ key, is_Some (matches' !! key) → is_Some (matches !! key) ∨ valid_utf8 key = true).
Proof.
  intros Hnone. revert matches'. induction keys as [|k keys IH] using rev_ind; intros matches' Hf.
  { injection Hf as <-. split; [done|]. split; [done|]. by left. }
  rewrite fold_res_app in Hf. apply bind_ok in Hf as (m & Hm & Hf). destruct (IH m Hm) as (H1 & H2 & H3). clear IH Hm.
  cbn [fold_res] in Hf. apply bind_ok in Hf as (m' & Hk & [= <-]). unfold add_exact in Hk.
  setoid_rewrite key_priorities_snoc. destruct (normalizeSearchExact (ek_value k)) as [normalized|e] eqn:En.
  2: { case_bool_decide; [done|]. injection Hk as <-. setoid_rewrite app_nil_r. done. }
  cbv zeta in Hk. injection Hk as <-. set (byRecord := default ∅ (m !! normalized)).
  assert (Hby : ∀ r, byRecord !! r = m !! normalized ≫= (.!! r)).
  { intros r. unfold byRecord. destruct (m !! normalized); [done|]. apply lookup_empty. }
  split; [|split].
  - intros key. case_decide as Ek.
    + subst key. rewrite lookup_insert_eq. cbn [mbind option_bind]. rewrite best_snoc, <-H1, <-Hby.
      destruct (byRecord !! recordID) as [q|] eqn:Eq; [|by rewrite lookup_insert_eq].
      destruct (ek_priority k <? q); [by rewrite lookup_insert_eq|done].
    + rewrite lookup_insert_ne, app_nil_r by done. apply H1.
  - intros key r Hr. destruct (decide (normalized = key)) as [<-|Hne].
    + rewrite lookup_insert_eq, <-H2, <-Hby by done. cbn [mbind option_bind]. case_match; [|done]. by rewrite lookup_insert_ne.
    + rewrite lookup_insert_ne by done. by apply H2.
  - intros key Hkey. destruct (decide (normalized = key)) as [<-|Hne]; [right; by eapply normalize_valid|].
    rewrite lookup_insert_ne in Hkey by done. by apply H3.
Qed.

(** The records that have a token. *)
Definition has_token (builders : list searchBuildRecord) (token : string) (x : Z) : Prop :=
  ∃ i b, x = Z.of_nat i ∧ builders !! i = Some b ∧ token ∈ sb_tokens b.
Definition has_identity (builders : list searchBuildRecord) (key : string) (x p : Z) : Prop :=
  ∃ i b, x = Z.of_nat i ∧ builders !! i = Some b ∧ identity_priority b key = Some p.

Record indexes (builders : list searchBuildRecord) (postings : searchPostings) : Prop := {
  ix_exact : ∀ key x p, sp_exact postings !! key ≫= (.!! x) = Some p ↔ has_identity builders key x p;
  ix_exact_texts : ∀ key, is_Some (sp_exact postings !! key) → valid_utf8 key = true;
  ix_tokens : ∀ token l, sp_tokens postings !! token = Some l →
    l ≠ [] ∧ ascending l ∧ ∀ x, x ∈ l ↔ has_token builders token x;
  ix_tokens_none : ∀ token, sp_tokens postings !! token = None → ∀ x, ¬ has_token builders token x;
  ix_trigram_texts : ∀ key, is_Some (sp_trigrams postings !! key) → valid_utf8 key = true;
}.

Lemma add_tokens_ok recordID m tokens token : NoDup tokens →
  foldl (add_token recordID) m tokens !! token
  = if decide (token ∈ tokens) then Some (default [] (m !! token) ++ [recordID]) else m !! token.
Proof.
  intros Hn. revert m. induction Hn as [|t tokens Ht Hn IH]; intros m; cbn [foldl]; [by rewrite decide_False by apply not_elem_of_nil|].
  rewrite IH. unfold add_token. destruct (decide (t = token)) as [->|Hne].
  - rewrite decide_False, decide_True by (done || by left). by rewrite lookup_insert_eq.
  - rewrite lookup_insert_ne by done. destruct (decide (token ∈ tokens)) as [Hin|Hin].
    + by rewrite decide_True by (by right).
    + rewrite decide_False; [done|]. by intros [->|?]%elem_of_cons.
Qed.

Lemma add_trigrams_texts recordID (m : gmap string (list Z)) trigrams key : ok_texts trigrams →
  is_Some (foldl (add_trigram recordID) m trigrams !! key) → is_Some (m !! key) ∨ valid_utf8 key = true.
Proof.
  intros Ht. revert m. induction Ht as [|t trigrams Hv Ht IH]; intros m; cbn [foldl]; [by left|].
  intros [Hk|?]%IH; [|by right]. unfold add_trigram in Hk. destruct (decide (t = key)) as [<-|Hne]; [by right|].
  rewrite lookup_insert_ne in Hk by done. by left.
Qed.

Lemma has_token_snoc builders b token x :
  has_token (builders ++ [b]) token x ↔ has_token builders token x ∨ (x = Z.of_nat (length builders) ∧ token ∈ sb_tokens b).
Proof.
  unfold has_token. split.
  - intros (i & b' & -> & Hi & Ht). apply lookup_app_Some in Hi as [Hi|[Hle Hi]]; [left; by exists i, b'|right].
    destruct (i - length builders)%nat eqn:Ei; [|done]. injection Hi as ->. split; [f_equal; lia|done].
  - intros [(i & b' & -> & Hi & Ht)|[-> Ht]]; [exists i, b'; split; [done|]; split; [by apply lookup_app_l_Some|done]|].
    exists (length builders), b. split; [done|]. split; [by apply list_lookup_middle|done].
Qed.
Lemma has_identity_snoc builders b key x p :
  has_identity (builders ++ [b]) key x p ↔ has_identity builders key x p ∨ (x = Z.of_nat (length builders) ∧ identity_priority b key = Some p).
Proof.
  unfold has_identity. split.
  - intros (i & b' & -> & Hi & Ht). apply lookup_app_Some in Hi as [Hi|[Hle Hi]]; [left; by exists i, b'|right].
    destruct (i - length builders)%nat eqn:Ei; [|done]. injection Hi as ->. split; [f_equal; lia|done].
  - intros [(i & b' & -> & Hi & Ht)|[-> Ht]]; [exists i, b'; split; [done|]; split; [by apply lookup_app_l_Some|done]|].
    exists (length builders), b. split; [done|]. split; [by apply list_lookup_middle|done].
Qed.
Lemma has_token_bound builders token x : has_token builders token x → 0 ≤ x < Z.of_nat (length builders).
Proof. intros (i & b & -> & Hi%lookup_lt_Some & _). lia. Qed.
Lemma has_identity_bound builders key x p : has_identity builders key x p → 0 ≤ x < Z.of_nat (length builders).
Proof. intros (i & b & -> & Hi%lookup_lt_Some & _). lia. Qed.

Lemma no_postings_index : indexes [] no_postings.
Proof.
  split; cbn.
  - intros key x p. rewrite lookup_empty. split; [done|]. intros (i & b & _ & Hi & _). done.
  - intros key. rewrite lookup_empty. by intros [? ?].
  - intros token l. by rewrite lookup_empty.
  - intros token _ x (i & b & _ & Hi & _). done.
  - intros key. rewrite lookup_empty. by intros [? ?].
Qed.

Lemma ascending_snoc l x : ascending l → (∀ y, y ∈ l → y < x) → ascending (l ++ [x]).
Proof.
  intros Hl Hx. induction Hl as [|y l Hl IH Hy]; cbn; [by repeat constructor|]. constructor.
  - apply IH. intros z Hz. apply Hx. by right.
  - apply Forall_app. split; [done|]. repeat constructor. apply Hx. by left.
Qed.

Lemma add_posting_index builders b postings matches :
  indexes builders postings → builder_ok b → uint32 (Z.of_nat (length builders)) = Z.of_nat (length builders) →
  let recordID := uint32 (Z.of_nat (length builders)) in
  fold_res (add_exact recordID (sr_DetailID (sb_record b))) (sp_exact postings) (sb_exact b) = Ok matches →
  indexes (builders ++ [b])
    (MkSearchPostings matches (foldl (add_token recordID) (sp_tokens postings) (sb_tokens b))
       (foldl (add_trigram recordID) (sp_trigrams postings) (sb_tokens b ≫= searchTrigrams))).
Proof.
  intros [Ie It Ik In Ig] (_ & Htexts & Hnodup & _) -> recordID Hm. subst recordID.
  apply add_exact_ok in Hm as (H1 & H2 & H3).
  2: { intros key. destruct (_ ≫= _) as [p|] eqn:E; [|done]. apply Ie, has_identity_bound in E. lia. }
  split; cbn [sp_exact sp_tokens sp_trigrams].
  - intros key x p. rewrite has_identity_snoc. destruct (decide (x = Z.of_nat (length builders))) as [->|Hne].
    + rewrite H1. split; [by right|]. intros [Hi%has_identity_bound|[_ Hi]]; [lia|done].
    + rewrite H2, Ie by done. naive_solver.
  - intros key [Hk|Hk]%H3; [by apply It|done].
  - intros token l. rewrite add_tokens_ok by done. setoid_rewrite has_token_snoc. case_decide as Hin; intros El.
    + injection El as <-. split; [by destruct (default [] _)|]. destruct (sp_tokens postings !! token) as [l|] eqn:E; cbn [default].
      * destruct (Ik _ _ E) as (_ & Hs & Hx). split.
        -- apply ascending_snoc; [done|]. intros y Hy%Hx%has_token_bound. lia.
        -- intros x. rewrite elem_of_app, list_elem_of_singleton, Hx. tauto.
      * cbn. split; [by repeat constructor|]. intros x. rewrite list_elem_of_singleton. pose proof (In _ E x). tauto.
    + destruct (Ik _ _ El) as (? & ? & Hx). split; [done|]. split; [done|]. intros x. rewrite Hx. tauto.
  - intros token. rewrite add_tokens_ok by done. case_decide as Hin; [done|]. intros E x. rewrite has_token_snoc. pose proof (In _ E x). tauto.
  - intros key [Hk|Hk]%add_trigrams_texts; [by apply Ig|done|]. apply Forall_forall. intros t (token & Ht & _)%list_elem_of_bind.
    pose proof (trigrams_valid token) as Hv. unfold ok_texts in Hv. rewrite Forall_forall in Hv. by apply Hv.
Qed.

Lemma add_postings_index done_ todo postings postings' :
  indexes done_ postings → Forall builder_ok todo → Z.of_nat (length (done_ ++ todo)) ≤ 2 ^ 32 →
  add_postings (Z.of_nat (length done_)) postings todo = Ok postings' → indexes (done_ ++ todo) postings'.
Proof.
  intros Hi Hb. revert done_ postings Hi. induction Hb as [|b todo Hb Htodo IH]; intros done_ postings Hi Hlen Hadd; cbn [add_postings] in Hadd.
  { injection Hadd as <-. by rewrite app_nil_r. }
  apply bind_ok in Hadd as (matches & Hm & Hadd). rewrite length_app in Hlen. cbn [length] in Hlen.
  assert (uint32 (Z.of_nat (length done_)) = Z.of_nat (length done_)) as Hu by (unfold uint32; apply Z.mod_small; lia).
  pose proof (add_posting_index _ _ _ _ Hi Hb Hu Hm) as Hi'.
  replace (done_ ++ b :: todo) with ((done_ ++ [b]) ++ todo) by (by rewrite <-app_assoc).
  eapply IH; [exact Hi'| |].
  - rewrite !length_app. cbn [length]. lia.
  - rewrite length_app. cbn [length]. by replace (Z.of_nat (length done_ + 1)) with (Z.of_nat (length done_) + 1) by lia.
Qed.
End postings.
