(* ===== verification/SearchBuilt.v ===== *)
(** * A built search index

    What [BuildSearchArtifacts] leaves: a directory whose encoding reads back,
    buckets, postings and records in segments that are children of the
    snapshot, over the postings of the catalog's records. *)

From S2P Require Import Prelude GoString GoSha256 GoJson Identity CatalogModel SearchText CatalogChildren SearchIndex SearchLists SearchRoundtrip SearchSegments SearchIndexed.

(** ** Texts of the references *)

Lemma digest_valid l : valid_utf8 (hex_encode (sha256 l)) = true.
Proof. apply isLowerSHA256_valid, sha256Hex_lower. Qed.

Lemma path_valid directoryName data : valid_utf8 directoryName = true → valid_utf8 (content_path ("search/" +:+ directoryName) data) = true.
Proof. intros Hd. unfold content_path. repeat apply valid_app; try done. apply digest_valid. Qed.

Lemma digest_bytes l : Forall (λ b, is_lower_hex b = true) (bytes_of (hex_encode (sha256 l))).
Proof.
  pose proof (hex_bytes_lower _ (sha256_bytes l)) as Hl. unfold hex_encode.
  rewrite bytes_of_bytes by (eapply Forall_impl; [exact Hl|]; naive_solver). eapply Forall_impl; [exact Hl|]. by intros b [? _].
Qed.
Lemma digest_nonempty l : hex_encode (sha256 l) ≠ "".
Proof.
  intros E. apply (f_equal bytes_of) in E. unfold hex_encode in E.
  rewrite bytes_of_bytes in E by (eapply Forall_impl; [apply hex_bytes_lower, sha256_bytes|]; naive_solver).
  apply (f_equal length) in E. rewrite hex_bytes_length, sha256_length in E. done.
Qed.
Lemma first_digit_valid l : valid_utf8 (first_digit (hex_encode (sha256 l))) = true.
Proof.
  pose proof (digest_bytes l) as Hb. unfold first_digit. destruct (hex_encode (sha256 l)) as [|a s]; [done|].
  cbn [bytes_of] in Hb. apply Forall_inv in Hb. cbn. replace (String.substring 0 0 s) with "" by (by destruct s).
  destruct (runes_ascii [byte_of a]) as [_ Hv].
  - apply Forall_singleton. unfold is_lower_hex, in_range in Hb. lia.
  - replace (of_bytes [byte_of a]) with (of_bytes (bytes_of (String a ""))) in Hv by done. by rewrite of_bytes_of in Hv.
Qed.

Lemma emit_exact_prefix limit levels prefix entries artifacts :
  valid_utf8 prefix = true → emit_exact limit levels prefix entries = Ok artifacts →
  ∀ a, a ∈ artifacts → valid_utf8 (seb_Prefix a.1) = true.
Proof.
  revert prefix entries artifacts. induction levels as [|levels IH]; intros prefix entries artifacts Hv H;
    cbn [emit_exact] in H; cbv zeta in H; (apply bind_ok in H as (estimated & _ & H));
    (destruct (estimated <=? limit);
      [apply bind_ok in H as (a & Ha & H); apply exact_artifact_ok in Ha as [-> Hlim]; cbv [mret res_ret] in H; injection H as <-|]).
  1,3: by intros a ->%list_elem_of_singleton.
  - done.
  - apply seq_ok in H as [_ H]. intros a Ha. apply (collect_ok _ _ _ H) in Ha as (nibble & part & Hin & Hp & Ha).
    case_bool_decide; [cbv [mret res_ret] in Hp; injection Hp as <-; by apply elem_of_nil in Ha|].
    eapply IH; [|exact Hp|done]. apply valid_app; [done|].
    assert (Forall (λ c, valid_utf8 (String c "") = true) hex_digits) as Hd by (by repeat constructor).
    rewrite Forall_forall in Hd. by apply Hd.
Qed.

Lemma exact_prefixes matches limit buckets children usage :
  buildExactSearchSegments matches limit = Ok (buckets, children, usage) → ∀ b, b ∈ buckets → valid_utf8 (seb_Prefix b) = true.
Proof.
  unfold buildExactSearchSegments. intros H. apply bind_ok in H as (artifacts & H & E). cbv [mret res_ret] in E.
  injection E as <- _ _. intros b (a & -> & Ha)%list_elem_of_fmap. rewrite sort_by_elem_of in Ha.
  apply (collect_ok _ _ _ H) in Ha as (p & part & Hin & Hp & Ha). eapply emit_exact_prefix; [|exact Hp|done].
  fold (exact_entries matches) in Hin. unfold bucket_prefixes, sort_strings in Hin. rewrite sort_by_elem_of, elem_of_elements, elem_of_list_to_set in Hin.
  apply list_elem_of_fmap in Hin as (x & -> & (k & m & _ & ->)%exact_entries_spec). rewrite exact_digest. apply first_digit_valid.
Qed.

(** ** The index *)

Section built.
Context `{SearchLaws}.

Definition rank_of (b : searchBuildRecord) : SearchRankRecordV1 := MkSearchRankRecordV1 (sr_Title (sb_record b)) (sr_Kind (sb_record b)).
Definition directory_child (d : SearchDirectoryV1) : ChildArtifact :=
  child_of "search/directory.json" "search-directory" (render (search_directory_json d)).

Record built (builders : list searchBuildRecord) (limit : Z) (d : SearchDirectoryV1) (children : list ChildArtifact)
    (postings : searchPostings) (artifacts : list exactSearchArtifact) (runs : list (list SearchPostingEntryV1))
    (record_runs : list (list SearchRecordV1)) : Prop := {
  bi_index : indexes builders postings;
  bi_builders : Forall builder_ok builders;
  bi_length : Z.of_nat (length builders) ≤ 2 ^ 32;
  bi_limit : limit < 2 ^ 32;
  bi_versions : sdir_SchemaVersion d = 1 ∧ sdir_SearchVersion d = 1;
  bi_exact : exact_layout (exact_entries (sp_exact postings)) limit artifacts;
  bi_buckets : sdir_ExactBuckets d = Some artifacts.*1;
  bi_exact_children : ∀ a, a ∈ artifacts → a.2 ∈ children;
  bi_tokens : posting_layout "postings" "search-posting" limit (posting_entries (sp_tokens postings))
    (elems (sdir_TokenRoutes d)) (elems (sdir_PostingSegments d)) children runs;
  bi_records : record_layout limit (sb_record <$> builders) (elems (sdir_RecordSegments d)) children record_runs;
  bi_ranks : elems (sdir_Ranks d) = rank_of <$> builders;
  bi_directory : directory_child d ∈ children;
  bi_directory_ok : ok_directory d;
}.

Lemma data_fits limit (data : list Z) : Z.of_nat (length data) ≤ limit → limit < 2 ^ 32 → fits_uint 64 (Z.of_nat (length data)).
Proof. unfold fits_uint. intros. assert (2 ^ 32 < 2 ^ 64) by (by apply Z.ltb_lt). lia. Qed.

Lemma count_exact_fits entries : fits_uint 32 (count_exact entries).
Proof.
  unfold count_exact. induction entries as [|e entries IH] using rev_ind; [done|]. rewrite foldl_app. cbn. apply uint32_fits.
Qed.

Lemma exact_bucket_ok all limit b child :
  exact_bucket all limit b child → valid_utf8 (seb_Prefix b) = true → limit < 2 ^ 32 → ok_bucket b.
Proof.
  intros (es & _ & _ & _ & Hlen & Er) Hp Hlimit. split; [done|]. rewrite Er. split_and!.
  - cbn. unfold ok_texts. repeat (apply Forall_cons; split); [by apply path_valid|apply digest_valid|constructor].
  - apply uint32_fits.
  - apply count_exact_fits.
  - by eapply data_fits.
Qed.

Lemma posting_reference_ok directoryName kind limit run :
  valid_utf8 directoryName = true → Z.of_nat (length (posting_data run)) ≤ limit → limit < 2 ^ 32 →
  ok_reference (posting_reference directoryName kind run).
Proof.
  intros Hd Hlen Hlimit. split_and!.
  - cbn. unfold ok_texts. repeat (apply Forall_cons; split); [by apply path_valid|apply digest_valid|constructor].
  - apply uint32_fits.
  - apply uint32_fits.
  - by eapply data_fits.
Qed.

Lemma posting_layout_ok directoryName kind limit entries routes references children runs :
  valid_utf8 directoryName = true → limit < 2 ^ 32 → Forall (λ e, valid_utf8 (spe_Key e) = true) entries →
  posting_layout directoryName kind limit entries routes references children runs →
  Forall ok_route routes ∧ Forall ok_reference references.
Proof.
  intros Hd Hlimit Htexts [Hc Href Hrun Hroutes]. split.
  - apply Forall_forall. intros r (i & run & e & Hi & He & ->)%Hroutes. split; cbn.
    + rewrite Forall_forall in Htexts. apply Htexts. rewrite <-Hc. apply elem_of_concat. exists run.
      split; [by eapply list_elem_of_lookup_2|done].
    + destruct (Hrun _ _ Hi) as (? & _). split; [lia|]. assert (65535 < 2 ^ 16) by (by apply Z.ltb_lt). lia.
  - rewrite Href. apply Forall_fmap, Forall_forall. intros run [i Hi]%list_elem_of_lookup. destruct (Hrun _ _ Hi) as (_ & ? & _).
    by eapply posting_reference_ok.
Qed.

Lemma record_layout_ok limit records references children runs :
  limit < 2 ^ 32 → record_layout limit records references children runs → Forall ok_record_reference references.
Proof.
  intros Hlimit [_ Href Hrun]. rewrite Href. apply Forall_forall. intros r [i Hi]%list_elem_of_lookup.
  rewrite list_lookup_imap in Hi. destruct (runs !! i) as [run|] eqn:E; [|done]. injection Hi as <-.
  destruct (Hrun _ _ E) as (_ & ? & _). split_and!.
  - cbn. unfold ok_texts. repeat (apply Forall_cons; split); [by apply path_valid|apply digest_valid|constructor].
  - apply uint32_fits.
  - apply uint32_fits.
  - by eapply data_fits.
Qed.

Lemma posting_entries_spec m e : e ∈ posting_entries m ↔ ∃ k l, m !! k = Some l ∧ e = MkSearchPostingEntryV1 k (Some l).
Proof.
  unfold posting_entries. rewrite sort_by_elem_of, list_elem_of_fmap. split.
  - intros ([k l] & -> & Hin%elem_of_map_to_list). by exists k, l.
  - intros (k & l & Hin & ->). exists (k, l). split; [done|]. by apply elem_of_map_to_list.
Qed.
Lemma posting_texts m : (∀ k, is_Some (m !! k) → valid_utf8 k = true) → Forall (λ e, valid_utf8 (spe_Key e) = true) (posting_entries m).
Proof. intros Hm. apply Forall_forall. intros e (k & l & Hk & ->)%posting_entries_spec. apply Hm. by exists l. Qed.

Lemma token_text builders postings token :
  Forall builder_ok builders → indexes builders postings → is_Some (sp_tokens postings !! token) → valid_utf8 token = true.
Proof.
  intros Hb Hi [l Hl]. destruct (ix_tokens _ _ Hi _ _ Hl) as (Hne & _ & Hx). destruct l as [|x l]; [done|].
  destruct (proj1 (Hx x) ltac:(by left)) as (i & b & _ & Hin%list_elem_of_lookup_2 & Ht).
  rewrite Forall_forall in Hb. destruct (Hb b Hin) as (_ & Htexts & _). unfold ok_texts in Htexts. rewrite Forall_forall in Htexts. by apply Htexts.
Qed.

Lemma built_index directory bounds limits artifacts :
  directory_texts directory → Z.of_nat (length (search_builders directory)) ≤ 2 ^ 32 → bd_PostingSegmentBytes bounds < 2 ^ 32 →
  buildSearchArtifacts directory bounds limits = Ok artifacts →
  ∃ postings exact runs record_runs,
    built (search_builders directory) (bd_PostingSegmentBytes bounds) (sa_Directory artifacts) (elems (sa_Children artifacts))
      postings exact runs record_runs.
Proof.
  intros Htexts Hlen Hlimit Hb. unfold buildSearchArtifacts in Hb. cbv zeta in Hb.
  pose proof (search_builders_ok directory Htexts) as Hok. set (builders := search_builders directory) in *. clearbody builders.
  apply bind_ok in Hb as (postings & Hp & Hb). apply bind_ok in Hb as ([[buckets exactChildren] exactUsage] & He & Hb).
  apply bind_ok in Hb as ([[[routes references] postingChildren] postingUsage] & Ht & Hb).
  apply bind_ok in Hb as ([[[trigramRoutes trigramReferences] trigramChildren] trigramUsage] & Hg & Hb).
  apply bind_ok in Hb as ([[recordReferences recordChildren] recordUsage] & Hr & Hb).
  apply bind_ok in Hb as (directoryChild & Hd & Hb). apply seq_ok in Hb as [_ Hb]. cbv [mret res_ret] in Hb. injection Hb as <-.
  apply newChild_ok in Hd. cbn [sa_Directory sa_Children].
  assert (Hindex : indexes builders postings) by (by apply (add_postings_index [] builders no_postings postings no_postings_index)).
  pose proof (exact_prefixes _ _ _ _ _ He) as Hprefixes.
  apply buildExactSearchSegments_ok in He as (exact & Hexact & -> & ->); [|intros; apply digest_nonempty].
  apply buildPostingSearchSegments_ok in Ht as [runs Ht]. apply buildPostingSearchSegments_ok in Hg as [trigram_runs Hg].
  apply buildSearchRecordSegments_ok in Hr as [record_runs Hr].
  set (all := exact.*2 ++ postingChildren ++ trigramChildren ++ recordChildren ++ [directoryChild]) in *.
  exists postings, exact, runs, record_runs. cbn [elems from_option id sdir_SchemaVersion sdir_SearchVersion sdir_ExactBuckets sdir_TokenRoutes
    sdir_TrigramRoutes sdir_PostingSegments sdir_TrigramSegments sdir_RecordSegments sdir_Ranks].
  destruct Ht as [Hc Href Hrun Hroutes].
  assert (Htok : posting_layout "postings" "search-posting" (bd_PostingSegmentBytes bounds) (posting_entries (sp_tokens postings)) routes
    references (sort_by (less_by (λ c, [KS (ch_Path c)])) all) runs).
  { split; [done..| |done]. intros i run E. destruct (Hrun _ _ E) as (? & ? & ?). split_and!; [done..|].
    rewrite sort_by_elem_of. unfold all. set_solver. }
  assert (Hrec : record_layout (bd_PostingSegmentBytes bounds) (sb_record <$> builders) recordReferences
    (sort_by (less_by (λ c, [KS (ch_Path c)])) all) record_runs).
  { destruct Hr as [Hc' Hre Hru]. split; [done|done|]. intros i run E. destruct (Hru _ _ E) as (? & ? & ?). split_and!; [done|lia|].
    rewrite sort_by_elem_of. unfold all. set_solver. }
  split; cbn [elems from_option id sdir_SchemaVersion sdir_SearchVersion sdir_ExactBuckets sdir_TokenRoutes
    sdir_TrigramRoutes sdir_PostingSegments sdir_TrigramSegments sdir_RecordSegments sdir_Ranks]; try done.
  - intros a Ha. rewrite sort_by_elem_of. unfold all. apply elem_of_app. left. apply list_elem_of_fmap. by exists a.
  - by rewrite <-list_fmap_compose.
  - rewrite sort_by_elem_of. unfold directory_child. rewrite <-Hd. unfold all. set_solver.
  - destruct (posting_layout_ok "postings" "search-posting" (bd_PostingSegmentBytes bounds) (posting_entries (sp_tokens postings)) routes
      references (sort_by (less_by (λ c, [KS (ch_Path c)])) all) runs) as [Hr1 Hr2]; [done|done| |done|].
    { apply posting_texts. intros k. by eapply token_text. }
    destruct (posting_layout_ok "trigrams" "search-trigram" _ _ _ _ _ _ eq_refl Hlimit (posting_texts _ (ix_trigram_texts _ _ Hindex)) Hg) as [Hg1 Hg2].
    split_and!; cbn [elems from_option id sdir_SchemaVersion sdir_SearchVersion sdir_ExactBuckets sdir_TokenRoutes
      sdir_TrigramRoutes sdir_PostingSegments sdir_TrigramSegments sdir_RecordSegments sdir_Ranks]; try done.
    + apply Forall_fmap, Forall_forall. intros a Ha. eapply exact_bucket_ok; [by apply Hexact| |done].
      apply Hprefixes, list_elem_of_fmap. by exists a.
    + by eapply record_layout_ok.
    + rewrite <-list_fmap_compose. apply Forall_fmap. eapply Forall_impl; [exact Hok|]. intros b (Hbr & _).
      destruct Hbr as [Hbr _]. unfold ok_texts in Hbr. rewrite !Forall_cons in Hbr. unfold ok_rank, ok_texts. cbn.
      repeat (apply Forall_cons; split); [tauto|tauto|constructor].
Qed.
End built.
