(* ===== verification/SearchServe.v ===== *)
(** * Serving a search index

    A service of a snapshot that holds a built index loads exactly the segments
    the builder made, so a look-up of an exact key answers with the records
    that have it. *)

From S2P Require Import Prelude GoString GoSha256 GoJson CatalogIdentity CatalogModel CatalogRuntime EmbeddedRoundtrip SearchText CatalogChildren SearchIndex SearchCodec SearchQuery SearchLists SearchRoundtrip SearchSegments SearchIndexed SearchBuilt.

(** ** The directory and the children *)

Notation by_prefix := (StronglySorted (λ x y, seb_Prefix x <? seb_Prefix y = true)%string).
Notation by_route := (StronglySorted (λ x y, spr_Key x <? spr_Key y = true)%string).

Lemma check_buckets_ok previous buckets :
  check_buckets previous buckets = Ok tt →
  by_prefix buckets ∧ Forall (λ b, seb_Prefix b ≠ "") buckets
  ∧ (∀ p, previous = Some p → Forall (λ b, (p <? seb_Prefix b)%string = true) buckets).
Proof.
  revert previous. induction buckets as [|b buckets IH]; intros previous H; cbn [check_buckets] in H.
  { split; [constructor|]. split; [constructor|]. intros. constructor. }
  cbv zeta in H. apply seq_ok in H as [Hb H]. apply throw_if_ok in Hb. apply IH in H as (Hs & Hne & Hlt).
  specialize (Hlt _ eq_refl). rewrite !orb_false_iff in Hb. destruct Hb as [[[Hb1 _] _] Hb2]. apply bool_decide_eq_false in Hb1.
  split; [by constructor|]. split; [by constructor|]. intros p ->. apply negb_false_iff in Hb2.
  constructor; [done|]. eapply Forall_impl; [exact Hlt|]. intros b' Hb'. by eapply string_ltb_trans.
Qed.

Lemma check_routes_ok segments previous routes :
  check_routes segments previous routes = Ok tt →
  by_route routes ∧ Forall (λ r, spr_Segment r < segments) routes
  ∧ (∀ p, previous = Some p → Forall (λ r, (p <? spr_Key r)%string = true) routes).
Proof.
  revert previous. induction routes as [|r routes IH]; intros previous H; cbn [check_routes] in H.
  { split; [constructor|]. split; [constructor|]. intros. constructor. }
  cbv zeta in H. apply seq_ok in H as [Hb H]. apply throw_if_ok in Hb. apply IH in H as (Hs & Hne & Hlt).
  specialize (Hlt _ eq_refl). rewrite !orb_false_iff in Hb. destruct Hb as [[_ Hb1] Hb2]. apply Z.leb_gt in Hb1.
  split; [by constructor|]. split; [by constructor|]. intros p ->. apply negb_false_iff in Hb2.
  constructor; [done|]. eapply Forall_impl; [exact Hlt|]. intros r' Hr'. by eapply string_ltb_trans.
Qed.

Lemma children_by_path_ok children known :
  children_by_path children = Ok known → ∀ c, c ∈ children → known !! ch_Path c = Some c.
Proof.
  unfold children_by_path.
  assert (∀ known0 : gmap string ChildArtifact, fold_res (λ known child,
      throw_if (bool_decide (is_Some (known !! ch_Path child))) (Errorf "search child path %q is duplicated" [EStr (ch_Path child)]) ;;
      mret (<[ch_Path child := child]> known)) known0 children = Ok known →
    (∀ p c, known0 !! p = Some c → known !! p = Some c) ∧ ∀ c, c ∈ children → known !! ch_Path c = Some c) as Hf.
  { induction children as [|c children IH]; intros known0 H; cbn [fold_res] in H.
    { injection H as <-. split; [done|]. by intros c ?%elem_of_nil. }
    apply bind_ok in H as (known1 & H1 & H). apply seq_ok in H1 as [Hd H1]. apply throw_if_ok, bool_decide_eq_false in Hd.
    injection H1 as <-. destruct (IH _ H) as [Hkeep Hin]. split.
    - intros p c' Hp. apply Hkeep. rewrite lookup_insert_ne; [done|]. intros <-. apply Hd. by exists c'.
    - intros c' [->|Hc]%elem_of_cons; [|by apply Hin]. apply Hkeep. by rewrite lookup_insert_eq. }
  intros H. by apply Hf in H as [_ ?].
Qed.

(** What a service over a directory and some children has. *)
Record serves (d : SearchDirectoryV1) (children : list ChildArtifact) (service : SearchService) : Prop := {
  se_directory : sv_directory service = d;
  se_children : ∃ known, sv_children service = Some known ∧ (∀ c, c ∈ children → known !! ch_Path c = Some c)
    ∧ ∀ path cached, sv_recordSegments service !! path = Some cached →
        path = srs_Path (rc_reference cached) ∧ ∃ child, known !! path = Some child
        ∧ decodeSearchRecordSegment child (rc_reference cached) = Ok (rc_segment cached);
  se_buckets : by_prefix (elems (sdir_ExactBuckets d)) ∧ Forall (λ b, seb_Prefix b ≠ "") (elems (sdir_ExactBuckets d));
  se_routes : by_route (elems (sdir_TokenRoutes d));
}.

Lemma prepare_ok known references segments :
  prepareSearchRecordSegments known references = Ok segments →
  ∀ path cached, segments !! path = Some cached →
    path = srs_Path (rc_reference cached) ∧ ∃ child, known !! path = Some child
    ∧ decodeSearchRecordSegment child (rc_reference cached) = Ok (rc_segment cached).
Proof.
  unfold prepareSearchRecordSegments. set (step := λ (segments : gmap string searchRecordSegmentCacheEntry) reference, _).
  set (Q := λ (segments : gmap string searchRecordSegmentCacheEntry), ∀ path cached, segments !! path = Some cached →
    path = srs_Path (rc_reference cached) ∧ ∃ child, known !! path = Some child
    ∧ decodeSearchRecordSegment child (rc_reference cached) = Ok (rc_segment cached)).
  assert (∀ segments0, Q segments0 → fold_res step segments0 references = Ok segments → Q segments) as Hf.
  { induction references as [|r references IH]; intros segments0 HQ H; cbn [fold_res] in H; [by injection H as <-|].
    apply bind_ok in H as (segments1 & H1 & H). eapply IH; [|exact H]. unfold step in H1.
    destruct (known !! srs_Path r) as [child|] eqn:Ek; [|done]. apply seq_ok in H1 as [_ H1]. apply seq_ok in H1 as [_ H1].
    apply bind_ok in H1 as (segment & Hd & [= <-]). intros path cached. destruct (decide (srs_Path r = path)) as [<-|Hne].
    - rewrite lookup_insert_eq. intros [= <-]. split; [done|]. by exists child.
    - rewrite lookup_insert_ne by done. apply HQ. }
  apply Hf. intros path cached. by rewrite lookup_empty.
Qed.

Lemma NewSearchService_ok snapshot service d children :
  NewSearchService snapshot = Ok service →
  (∀ c, c ∈ children → c ∈ elems (cs_Children snapshot)) → ca_SearchChild (cs_Directory snapshot) = "search/directory.json" →
  directory_child d ∈ children → ok_directory d →
  serves d children service ∧ sv_snapshotID service = cs_ID snapshot ∧ sv_catalogID service = ca_CatalogID (cs_Directory snapshot).
Proof.
  intros H Hin Hpath Hdir Hok. unfold NewSearchService in H. apply bind_ok in H as (known & Hk & H).
  pose proof (children_by_path_ok _ _ Hk) as Hknown. rewrite Hpath in H.
  assert (known !! "search/directory.json" = Some (directory_child d)) as Ed by (by apply (Hknown (directory_child d)), Hin).
  rewrite Ed in H. cbn [mbind res_bind] in H. apply seq_ok in H as [_ H]. apply seq_ok in H as [_ H].
  change (ch_Bytes (directory_child d)) with (render (search_directory_json d)) in H.
  rewrite (decode_encoded 3) in H by (by apply search_directory_codec || lia). cbn [wrap_err mbind res_bind] in H.
  apply seq_ok in H as [_ H]. apply seq_ok in H as [Hv H]. apply bind_ok in H as (service0 & Hs & H).
  apply bind_ok in H as (segments & Hp & H). cbv [mret res_ret] in H. injection H as <-.
  unfold newSearchService in Hs. apply seq_ok in Hs as [_ Hs]. apply seq_ok in Hs as [_ Hs]. injection Hs as <-.
  split; [|done]. unfold validateSearchDirectory in Hv. apply seq_ok in Hv as [Hb Hv]. apply seq_ok in Hv as [Ht _].
  apply check_buckets_ok in Hb as (? & ? & _). apply check_routes_ok in Ht as (? & _ & _). split; [done| |done|done].
  exists known. split; [done|]. split; [by intros c Hc; apply Hknown, Hin|]. by apply (prepare_ok _ _ _ Hp).
Qed.

(** ** The bucket of a digest *)

Lemma prefix_substring d p : HasPrefix d p = true ↔ (String.length p ≤ String.length d)%nat ∧ String.substring 0 (String.length p) d = p.
Proof.
  unfold HasPrefix. revert d. induction p as [|a p IH]; intros d.
  - split; [intros _; split; [cbn; lia|by destruct d]|by destruct d].
  - destruct d as [|b d]; cbn; [split; [done|lia]|]. destruct (Ascii.ascii_dec a b) as [->|Hne].
    + rewrite IH. split; [intros [? ->]; split; [lia|done]|]. intros [? [= E]]. split; [lia|done].
    + split; [done|]. intros [_ [= E _]]. congruence.
Qed.
Lemma substring_length d n : (n ≤ String.length d)%nat → String.length (String.substring 0 n d) = n.
Proof. revert d. induction n as [|n IH]; intros [|a d]; cbn; intros ?; try lia. rewrite IH; lia. Qed.

Lemma bucket_from_ok buckets digest n b :
  (n ≤ String.length digest)%nat → bucket_from buckets digest n = Some b → b ∈ buckets ∧ HasPrefix digest (seb_Prefix b) = true.
Proof.
  induction n as [|n IH]; intros Hn; cbn [bucket_from]; [done|]. cbv zeta.
  set (prefix := String.substring 0 (S n) digest).
  destruct (buckets !! _) as [b'|] eqn:E; [|apply IH; lia]. case_bool_decide as Ep; [|apply IH; lia]. intros [= <-].
  split; [by eapply list_elem_of_lookup_2|]. apply prefix_substring. rewrite Ep. unfold prefix. rewrite substring_length by done. done.
Qed.
Lemma bucket_from_none buckets digest n b :
  by_prefix buckets → bucket_from buckets digest n = None → b ∈ buckets → seb_Prefix b ≠ "" → HasPrefix digest (seb_Prefix b) = true →
  (n < String.length (seb_Prefix b))%nat.
Proof.
  intros Hs. induction n as [|n IH]; intros H Hb Hne Hp.
  { destruct (seb_Prefix b); [done|]. cbn. lia. }
  cbn [bucket_from] in H. cbv zeta in H. set (prefix := String.substring 0 (S n) digest) in *.
  assert (bucket_from buckets digest n = None ∧ seb_Prefix b ≠ prefix) as [Hnone Hdiff].
  { destruct (decide (seb_Prefix b = prefix)) as [E|Hd].
    - rewrite (find_key seb_Prefix buckets prefix b Hs Hb E) in H. by rewrite bool_decide_eq_true_2 in H.
    - split; [|done]. destruct (buckets !! _) as [b'|]; [|done]. by case_bool_decide. }
  pose proof (IH Hnone Hb Hne Hp) as Hlt. destruct (decide (String.length (seb_Prefix b) = S n)) as [El|]; [|lia].
  exfalso. apply Hdiff. apply prefix_substring in Hp as [_ Hp]. unfold prefix. by rewrite <-El.
Qed.

(** ** Sizes *)

Lemma render_seq_elem {A} (f : A → list Z) l x : x ∈ l → (length (f x) ≤ length (render_seq f l))%nat.
Proof.
  induction l as [|y l IH]; [by intros ?%elem_of_nil|]. intros Hx. destruct l as [|z l].
  { apply list_elem_of_singleton in Hx as ->. done. }
  rewrite render_seq_cons, length_app. cbn [length]. apply elem_of_cons in Hx as [->|Hx]; [lia|]. apply IH in Hx. lia.
Qed.
(** A list is no longer than the text of an object that has it as a field. *)
Lemma field_length {A} (f : A → json) k l fields :
  (k, json_slice f (Some l)) ∈ fields → (length l ≤ length (render (JObject fields)))%nat.
Proof.
  intros Hin. cbn [render length]. rewrite length_app.
  pose proof (render_seq_elem (λ kv, render_string kv.1 ++ 58 :: render kv.2) fields _ Hin) as H. cbn [fst snd] in H.
  rewrite length_app in H. cbn [length render json_slice] in H. rewrite length_app in H. cbn [length] in H.
  pose proof (render_seq_length render (f <$> l)) as Hl. rewrite length_fmap in Hl. lia.
Qed.

Lemma uint32_small limit (n m : nat) : (n ≤ m)%nat → Z.of_nat m ≤ limit → limit < 2 ^ 32 → uint32 (Z.of_nat n) = Z.of_nat n.
Proof. intros. unfold uint32. apply Z.mod_small. lia. Qed.

(** ** Loading *)

Definition too_broad_error (e : error) : Prop := Is "query_too_broad" e = true.

Lemma find_child d children service directoryName kind data s :
  serves d children service → segment_child directoryName kind data ∈ children →
  let child := segment_child directoryName kind data in
  searchChild service (ch_Path child) kind (ch_Length child) (ch_SHA256 child) s = (s, Ok child).
Proof.
  intros [_ (known & Ek & Hknown & _) _ _] Hin child. unfold searchChild. rewrite Ek, (Hknown child Hin).
  rewrite bool_decide_eq_true_2 by done. cbn [negb throw_if]. unfold verifySearchChild.
  assert (ch_Length child =? ch_Length child = true) as -> by apply Z.eqb_refl.
  assert (Z.of_nat (length (ch_Bytes child)) =? ch_Length child = true) as -> by apply Z.eqb_refl.
  by rewrite !bool_decide_eq_true_2 by done.
Qed.

(** A state in which the contexts never answer with an error. *)
Definition silent (s : searchState) : Prop := ss_parent s = [] ∧ ss_bounded s = [].
Lemma bounded_err_silent s : silent s → bounded_err s = (s, Ok tt).
Proof. intros [_ E]. unfold bounded_err. by rewrite E. Qed.
Lemma parent_err_silent s : silent s → parent_err s = (s, Ok tt).
Proof. intros [E _]. unfold parent_err. by rewrite E. Qed.

Lemma reserve_answers reference limit s s' r :
  silent s → reserveSearchReference reference limit s = (s', r) →
  silent s' ∧ (r = Ok tt ∨ ∃ e, r = Fail e ∧ too_broad_error e).
Proof.
  intros Hs. unfold reserveSearchReference, too_broad. rewrite gets_bind. unfold mbind, stM_bind, mret, stM_ret, lift, modify, throw_if.
  repeat case_match; intros; simplify_eq/=; (split; [exact Hs|]); (by left) || (right; eexists; split; [done|reflexivity]).
Qed.

(** ** Budgets *)

(** What loading takes of the budget of a search: segments, segments of records,
    bytes and postings. *)
Record cost := MkCost { co_segments : Z; co_records : Z; co_bytes : Z; co_postings : Z }.
Definition add_cost (c c' : cost) : cost :=
  MkCost (co_segments c + co_segments c') (co_records c + co_records c') (co_bytes c + co_bytes c') (co_postings c + co_postings c').
Definition le_cost (c c' : cost) : Prop :=
  co_segments c ≤ co_segments c' ∧ co_records c ≤ co_records c' ∧ co_bytes c ≤ co_bytes c' ∧ co_postings c ≤ co_postings c'.
Definition no_cost : cost := MkCost 0 0 0 0.
Definition free (c : cost) : Prop := le_cost no_cost c.
Ltac cost_lia := unfold free, le_cost, no_cost, add_cost in *; cbn [co_segments co_records co_bytes co_postings] in *; lia.
(** What may be left when the last segments of postings are loaded: the budget
    of segments is not looked at for records. *)
Definition left_over (last : bool) (c : cost) : Prop := free c ∧ (last = true → co_segments c = 0).

(** A state with so much of its budget left. *)
Record room (s : searchState) (c : cost) : Prop := {
  ro_segments : co_segments c = 0 ∨ lr_segments (ss_receipt s) + co_segments c ≤ maxSearchSegments;
  ro_records : lr_recordSegments (ss_receipt s) + co_records c ≤ maxSearchRecordSegments;
  ro_bytes : 0 ≤ lr_bytes (ss_receipt s) ∧ lr_bytes (ss_receipt s) + co_bytes c ≤ maxSearchDecodedBytes;
  ro_postings : 0 ≤ lr_postings (ss_receipt s) ∧ lr_postings (ss_receipt s) + co_postings c ≤ maxSearchPostings;
}.
(** Where there is room for the cost, the step succeeds and leaves the rest. *)
Definition spends {A} (last : bool) (c : cost) (s s' : searchState) (r : res A) : Prop :=
  ∀ rest, left_over last rest → room s (add_cost c rest) → is_ok r = true ∧ room s' rest.

Lemma room_le s c c' : room s c' → free c → le_cost c c' → room s c.
Proof. intros [] (? & ? & ? & ?) (? & ? & ? & ?). unfold no_cost in *. cbn in *. split; lia. Qed.
Lemma add_cost_free c c' : free c → free c' → free (add_cost c c').
Proof. cost_lia. Qed.
Lemma add_cost_assoc c1 c2 c3 : add_cost c1 (add_cost c2 c3) = add_cost (add_cost c1 c2) c3.
Proof. unfold add_cost. cbn. f_equal; lia. Qed.
Lemma left_over_add last c c' : left_over last c → left_over last c' → left_over last (add_cost c c').
Proof. intros [? H1] [? H2]. split; [by apply add_cost_free|]. intros E. specialize (H1 E). specialize (H2 E). cost_lia. Qed.
Lemma spends_le {A} last c c' s s' (r : res A) : spends last c s s' r → free c → le_cost c c' → spends last c' s s' r.
Proof.
  intros Hs Hf Hc rest Hl Hr. apply Hs; [done|]. eapply room_le; [exact Hr|apply add_cost_free; [done|apply Hl]|cost_lia].
Qed.
Lemma spends_ok {A} last s (a : A) c : free c → spends last c s s (Ok a).
Proof. intros Hc rest [Hf _] Hr. split; [done|]. eapply room_le; [exact Hr|done|cost_lia]. Qed.
Lemma spends_then {A B} last c c' s s1 s2 (a : A) (r : res B) :
  left_over last c' → spends last c s s1 (Ok a) → spends last c' s1 s2 r → spends last (add_cost c c') s s2 r.
Proof.
  intros Hc H1 H2 rest Hf Hr. apply H2; [done|]. rewrite <-add_cost_assoc in Hr. by apply (H1 (add_cost c' rest)); [apply left_over_add|].
Qed.
Lemma spends_fail {A B} last c c' s s1 s2 e (r : res B) :
  left_over last c' → spends (A:=A) last c s s1 (Fail e) → spends last (add_cost c c') s s2 r.
Proof.
  intros Hc H1 rest Hf Hr. rewrite <-add_cost_assoc in Hr. destruct (H1 (add_cost c' rest)) as [? _]; [by apply left_over_add|done|done].
Qed.
(** Only whether it succeeds counts, and after a failure there was no room. *)
Lemma spends_as {A B} last c s s' (r : res A) (r' : res B) : is_ok r = is_ok r' → spends last c s s' r → spends last c s s' r'.
Proof. intros E Hs rest Hf Hr. rewrite <-E. by apply Hs. Qed.
Lemma spends_never {A B} last c s s1 s2 e (r : res B) : spends (A:=A) last c s s1 (Fail e) → spends last c s s2 r.
Proof. intros Hs rest Hf Hr. by destruct (Hs rest Hf Hr). Qed.

Definition reference_cost (reference : SearchSegmentReferenceV1) : cost := MkCost 1 0 (ssr_Length reference) (ssr_Postings reference).
Definition record_cost (reference : SearchRecordSegmentReferenceV1) : cost := MkCost 0 1 (srs_Length reference) 0.

Lemma wrap64_small z bound : 0 ≤ z ≤ bound → bound < 2 ^ 64 → wrap64 z = z.
Proof. intros. unfold wrap64. apply Z.mod_small. lia. Qed.

Lemma reserve_spends reference s s' r :
  0 ≤ ssr_Length reference → 0 ≤ ssr_Postings reference → reserveSearchReference reference maxSearchSegments s = (s', r) →
  spends false (reference_cost reference) s s' r.
Proof.
  intros Hl Hp H rest [Hfree _] [H1 H2 H3 H4]. unfold free, le_cost, no_cost, add_cost, reference_cost in *. cbn [co_segments co_records co_bytes co_postings] in *.
  assert (maxSearchDecodedBytes < 2 ^ 64) by done. assert (maxSearchPostings < 2 ^ 64) by done.
  unfold reserveSearchReference in H. rewrite gets_bind in H. case_bool_decide.
  - injection H as <- <-. split; [done|]. split; lia.
  - destruct (Z.ltb_spec maxSearchSegments (lr_segments (ss_receipt s) + 1)); [lia|]. cbn [throw_if] in H.
    unfold mbind at 1, stM_bind at 1, lift at 1 in H. rewrite (wrap64_small (lr_bytes _ + _) maxSearchDecodedBytes) in H by lia.
    destruct (Z.ltb_spec maxSearchDecodedBytes (lr_bytes (ss_receipt s) + ssr_Length reference)); [lia|]. cbn [throw_if] in H.
    unfold mbind at 1, stM_bind at 1, lift at 1 in H. rewrite (wrap64_small (lr_postings _ + _) maxSearchPostings) in H by lia.
    destruct (Z.ltb_spec maxSearchPostings (lr_postings (ss_receipt s) + ssr_Postings reference)); [lia|]. cbn [throw_if] in H.
    unfold mbind, stM_bind, lift, modify in H. injection H as <- <-. split; [done|]. split; cbn; lia.
Qed.

Lemma reserve_record_spends reference s s' r :
  0 ≤ srs_Length reference → reserveSearchRecordReference reference s = (s', r) → spends true (record_cost reference) s s' r.
Proof.
  intros Hl H rest [Hfree Hnone] [H1 H2 H3 H4]. specialize (Hnone eq_refl). unfold free, le_cost, no_cost, add_cost, record_cost in *. cbn [co_segments co_records co_bytes co_postings] in *.
  assert (maxSearchDecodedBytes < 2 ^ 64) by done.
  unfold reserveSearchRecordReference in H. rewrite gets_bind in H. case_bool_decide.
  - injection H as <- <-. split; [done|]. split; lia.
  - destruct (Z.ltb_spec maxSearchRecordSegments (lr_recordSegments (ss_receipt s) + 1)); [lia|]. cbn [throw_if] in H.
    unfold mbind at 1, stM_bind at 1, lift at 1 in H. rewrite (wrap64_small (lr_bytes _ + _) maxSearchDecodedBytes) in H by lia.
    destruct (Z.ltb_spec maxSearchDecodedBytes (lr_bytes (ss_receipt s) + srs_Length reference)); [lia|]. cbn [throw_if] in H.
    unfold mbind, stM_bind, lift, modify in H. injection H as <- <-. split; [done|]. split; cbn; lia.
Qed.

(** *** Costs of lists *)

Definition total_cost (l : list cost) : cost := foldr add_cost no_cost l.
Lemma total_cost_cons c l : total_cost (c :: l) = add_cost c (total_cost l).
Proof. done. Qed.
Lemma total_cost_free l : Forall free l → free (total_cost l).
Proof. induction 1 as [|c l Hc Hl IH]; [done|]. by apply add_cost_free. Qed.

Lemma total_cost_left last l : Forall (left_over last) l → left_over last (total_cost l).
Proof. induction 1 as [|c l Hc Hl IH]; [done|]. by apply left_over_add. Qed.

Lemma each_spends {A} last (f : A → searching unit) (cost_of : A → cost) l s s' r :
  (∀ x, x ∈ l → left_over last (cost_of x)) → (∀ x s s' r, x ∈ l → f x s = (s', r) → spends last (cost_of x) s s' r) →
  st_for_each f l s = (s', r) → spends last (total_cost (cost_of <$> l)) s s' r.
Proof.
  revert s. induction l as [|x l IH]; intros s Hfree Hf H; cbn [st_for_each] in H; [injection H as <- <-; by apply spends_ok|].
  assert (left_over last (total_cost (cost_of <$> l))) as Hl by (apply total_cost_left, Forall_fmap, Forall_forall; intros y Hy; apply Hfree; by right).
  unfold mbind, stM_bind in H. destruct (f x s) as [s1 r1] eqn:E. apply Hf in E; [|left]. change (total_cost (cost_of <$> x :: l)) with (add_cost (cost_of x) (total_cost (cost_of <$> l))).
  destruct r1 as [[]|e]; [|injection H as <- <-; by eapply spends_fail].
  eapply spends_then; [done|exact E|]. eapply IH; [..|exact H]; intros y **; [apply Hfree|eapply Hf; [|done]]; by right.
Qed.

(** The greatest of some costs. *)
Definition greatest_cost (l : list cost) : cost :=
  foldr (λ c m, MkCost (Z.max (co_segments c) (co_segments m)) (Z.max (co_records c) (co_records m))
                  (Z.max (co_bytes c) (co_bytes m)) (Z.max (co_postings c) (co_postings m))) no_cost l.
Lemma greatest_cost_free l : free (greatest_cost l).
Proof. induction l as [|c l IH]; [done|]. cbn [greatest_cost foldr]. fold (greatest_cost l). cost_lia. Qed.
Lemma greatest_cost_member l c : c ∈ l → le_cost c (greatest_cost l).
Proof.
  induction l as [|c' l IH]; [by intros ?%elem_of_nil|]. cbn [greatest_cost foldr]. fold (greatest_cost l).
  intros [->|Hin]%elem_of_cons; [|apply IH in Hin]; cost_lia.
Qed.

Lemma le_cost_refl c : le_cost c c.
Proof. cost_lia. Qed.
Lemma le_cost_trans c1 c2 c3 : le_cost c1 c2 → le_cost c2 c3 → le_cost c1 c3.
Proof. cost_lia. Qed.
Lemma total_cost_submseteq l l' : Forall free l' → l ⊆+ l' → le_cost (total_cost l) (total_cost l').
Proof.
  intros Hf Hs. revert Hf. induction Hs as [|c l l' Hs IH|c c' l|c l l' Hs IH|l1 l2 l3 H1 IH1 H2 IH2]; intros Hf; rewrite ?total_cost_cons.
  - apply le_cost_refl.
  - apply Forall_cons in Hf as [_ Hf]. specialize (IH Hf). cost_lia.
  - cost_lia.
  - apply Forall_cons in Hf as [Hc Hf]. specialize (IH Hf). cost_lia.
  - eapply le_cost_trans; [apply IH1|by apply IH2]. apply Forall_forall. intros x Hx. rewrite Forall_forall in Hf. apply Hf. by eapply elem_of_submseteq.
Qed.

(** What loading the largest bucket of exact keys takes, all segments of
    postings, and all segments of records. *)
Definition exact_cost (d : SearchDirectoryV1) : cost :=
  greatest_cost ((λ b, reference_cost (seb_SearchSegmentReferenceV1 b)) <$> elems (sdir_ExactBuckets d)).
Definition postings_cost (d : SearchDirectoryV1) : cost := total_cost (reference_cost <$> elems (sdir_PostingSegments d)).
Definition records_cost (d : SearchDirectoryV1) : cost := total_cost (record_cost <$> elems (sdir_RecordSegments d)).

(** Some of the elements of a list, by their indexes. *)
Lemma lookup_snoc_other {A} (l : list A) x i : i ≠ length l → (l ++ [x]) !! i = l !! i.
Proof.
  intros Hne. destruct (decide (i < length l)%nat); [by apply lookup_app_l|]. rewrite !lookup_ge_None_2; [done|lia|rewrite length_app; cbn; lia].
Qed.
Lemma omap_lookup_submseteq {A} (l : list A) (indexes : list nat) : NoDup indexes → omap (λ i, l !! i) indexes ⊆+ l.
Proof.
  revert indexes. induction l as [|x l IH] using rev_ind; intros indexes Hn.
  { replace (omap (λ i, ([] : list A) !! i) indexes) with (@nil A); [done|]. induction indexes as [|i indexes IH]; [done|]. cbn.
    apply NoDup_cons in Hn as [_ Hn]. by apply IH. }
  destruct (decide (length l ∈ indexes)) as [Hin|Hout].
  - apply elem_of_Permutation in Hin as [rest Hp]. rewrite Hp in Hn. apply NoDup_cons in Hn as [Hout Hn]. rewrite Hp. cbn [omap list_omap].
    rewrite list_lookup_middle by done. rewrite <-Permutation_cons_append. apply submseteq_skip.
    replace (omap (λ i, (l ++ [x]) !! i) rest) with (omap (λ i, l !! i) rest); [by apply IH|]. clear -Hout.
    induction rest as [|i rest IH]; [done|]. cbn [omap list_omap]. apply not_elem_of_cons in Hout as [Hne Hout]. rewrite IH by done.
    by rewrite lookup_snoc_other by congruence.
  - trans l; [|by apply submseteq_inserts_r]. replace (omap (λ i, (l ++ [x]) !! i) indexes) with (omap (λ i, l !! i) indexes); [by apply IH|]. clear -Hout.
    induction indexes as [|i rest IH]; [done|]. cbn [omap list_omap]. apply not_elem_of_cons in Hout as [Hne Hout]. rewrite IH by done.
    by rewrite lookup_snoc_other by congruence.
Qed.

(** *** Exact keys *)

Section exact.
Context `{SearchLaws}.
Context builders limit d children postings artifacts runs record_runs
  (Hbuilt : built builders limit d children postings artifacts runs record_runs).
Context (service : SearchService) (Hserves : serves d children service).

(** The matches of a key: the records that have it, best priorities first. *)
Definition match_order (m : SearchExactMatchV1) : list okey := [KZ (sem_Priority m); KZ (sem_Record m)].
Definition identity_matches (key : string) (ms : list SearchExactMatchV1) : Prop :=
  (∀ m, m ∈ ms ↔ has_identity builders key (sem_Record m) (sem_Priority m)) ∧ strictly_sorted match_order ms.

Lemma exact_entry_matches key m :
  sp_exact postings !! key = Some m → identity_matches key (elems (see_Matches (ex_entry (exact_entry key m)))).
Proof.
  intros Hk. cbn [exact_entry ex_entry see_Matches elems from_option id].
  assert (Hspec : ∀ x, x ∈ (λ rp, MkSearchExactMatchV1 rp.1 rp.2) <$> map_to_list m ↔ m !! sem_Record x = Some (sem_Priority x)).
  { intros x. rewrite list_elem_of_fmap. split.
    - intros ([r p] & -> & Hin%elem_of_map_to_list). done.
    - intros Hx. exists (sem_Record x, sem_Priority x). split; [by destruct x|]. by apply elem_of_map_to_list. }
  split.
  - intros x. rewrite sort_by_elem_of, Hspec. rewrite <-(ix_exact _ _ (bi_index _ _ _ _ _ _ _ _ Hbuilt)), Hk. done.
  - apply sort_by_strict. rewrite <-list_fmap_compose. apply NoDup_fmap; [|apply NoDup_map_to_list].
    intros [r p] [r' p'] E. cbn in E. by injection E as -> ->.
Qed.

Lemma exact_match_ranges key m x :
  sp_exact postings !! key = Some m → x ∈ elems (see_Matches (ex_entry (exact_entry key m))) → ok_match x.
Proof.
  intros Hk Hx. destruct (exact_entry_matches key m Hk) as [Hm _]. apply Hm in Hx.
  pose proof (has_identity_bound _ _ _ _ Hx) as Hb. pose proof (bi_length _ _ _ _ _ _ _ _ Hbuilt) as Hlen.
  split; [unfold fits_uint; lia|]. destruct Hx as (i & b & _ & Hi%list_elem_of_lookup_2 & Hbest).
  apply best_spec in Hbest as [Hin _]. unfold key_priorities in Hin. apply list_elem_of_omap in Hin as (k & Hk' & Ek).
  pose proof (bi_builders _ _ _ _ _ _ _ _ Hbuilt) as Hok. rewrite Forall_forall in Hok. destruct (Hok b Hi) as (_ & _ & _ & Hf).
  rewrite Forall_forall in Hf. specialize (Hf k Hk'). destruct (normalizeSearchExact _); [|done]. case_decide; [|done]. by injection Ek as <-.
Qed.

Lemma exact_entries_texts es :
  (∀ e, e ∈ es → ∃ x, x ∈ exact_entries (sp_exact postings) ∧ ex_entry x = e) → ok_exact_segment (exact_segment es).
Proof.
  intros Hes. split; [done|]. cbn. apply Forall_forall. intros e (x & (key & m & Hk & ->)%exact_entries_spec & <-)%Hes. split.
  - apply (ix_exact_texts _ _ (bi_index _ _ _ _ _ _ _ _ Hbuilt)). by exists m.
  - apply Forall_forall. intros x Hx. by eapply exact_match_ranges.
Qed.

Lemma exact_reference_free es : free (reference_cost (exact_reference es)).
Proof.
  pose proof (count_exact_fits es) as Hc. unfold fits_uint in Hc. unfold exact_reference, reference_cost. cbn [searchSegmentReference ssr_Length ssr_Postings segment_child child_of ch_Length]. cost_lia.
Qed.
Lemma loadExactMatches_answer key s s' r :
  silent s → loadExactMatches service key s = (s', r) →
  silent s' ∧ spends false (exact_cost d) s s' r ∧ ((∃ ms, r = Ok ms ∧ identity_matches key ms) ∨ ∃ e, r = Fail e ∧ too_broad_error e).
Proof.
  intros Hs Hl. unfold loadExactMatches in Hl. cbv zeta in Hl. set (digest := hex_encode (sha256 (bytes_of key))) in *.
  pose proof Hserves as Hserves'. destruct Hserves as [Hd Hchildren [Hsorted Hnonempty] _]. rewrite Hd in Hl. clear Hchildren.
  pose proof (bi_exact _ _ _ _ _ _ _ _ Hbuilt) as [Hbucket Hfound]. pose proof (bi_buckets _ _ _ _ _ _ _ _ Hbuilt) as Eb.
  rewrite Eb in Hl, Hsorted, Hnonempty. cbn [elems from_option id] in *.
  assert (Hindexed : ∀ x p, has_identity builders key x p → ∃ m, sp_exact postings !! key = Some m).
  { intros x p Hx. apply (ix_exact _ _ (bi_index _ _ _ _ _ _ _ _ Hbuilt)) in Hx.
    destruct (sp_exact postings !! key) as [m|]; [by exists m|done]. }
  destruct (exactSearchBucket artifacts.*1 digest) as [b|] eqn:Eexact.
  2: { injection Hl as <- <-. split; [done|]. split; [apply spends_ok, greatest_cost_free|].
    left. exists []. split; [done|]. split; [|constructor]. intros x.
    split; [by intros ?%elem_of_nil|]. intros Hx. exfalso. destruct (Hindexed _ _ Hx) as [m Hm].
    destruct (Hfound (exact_entry key m)) as (a & Ha & Hp); [apply exact_entries_spec; by exists key, m|].
    rewrite exact_digest in Hp. fold digest in Hp. unfold exactSearchBucket in Eexact.
    assert (a.1 ∈ artifacts.*1) as Hin by (apply list_elem_of_fmap; by exists a).
    rewrite Forall_forall in Hnonempty. pose proof (bucket_from_none _ _ _ _ Hsorted Eexact Hin (Hnonempty _ Hin) Hp).
    apply prefix_substring in Hp as [? _]. lia. }
  unfold exactSearchBucket in Eexact. apply bucket_from_ok in Eexact as [Hin Hprefix]; [|lia].
  apply list_elem_of_fmap in Hin as ([b' child] & -> & Ha). cbn [fst] in *.
  destruct (Hbucket _ Ha) as (es & Hes & Hmem & Echild & Hlen & Eref). cbn [fst snd] in *. rewrite Eref in Hl.
  pose proof Ha as Hartifact. apply (bi_exact_children _ _ _ _ _ _ _ _ Hbuilt) in Ha. cbn [snd] in Ha. rewrite Echild in Ha.
  set (data := exact_data es) in *. set (child' := segment_child "exact" "search-exact" data) in *.
  assert (le_cost (reference_cost (exact_reference es)) (exact_cost d)) as Hcost.
  { apply greatest_cost_member. rewrite Eb. apply list_elem_of_fmap. exists b'. split; [by rewrite Eref|].
    apply list_elem_of_fmap. exact (ex_intro _ (b', child) (conj eq_refl Hartifact)). }
  pose proof (exact_reference_free es) as Hfree.
  unfold mbind at 1, stM_bind at 1 in Hl. destruct (reserveSearchReference _ _ s) as [s1 r1] eqn:Er.
  assert (spends false (exact_cost d) s s1 r1) as Hspends.
  { eapply spends_le; [apply reserve_spends; [apply Hfree..|exact Er]|exact Hfree|exact Hcost]. }
  destruct (reserve_answers _ _ _ _ _ Hs Er) as [Hs1 [->|(e & -> & He)]].
  2: { injection Hl as <- <-. split; [done|]. split; [exact Hspends|]. right. by exists e. }
  assert (searchChild service (ssr_Path (exact_reference es)) "search-exact" (ssr_Length (exact_reference es)) (ssr_SHA256 (exact_reference es)) s1
    = (s1, Ok child')) as Ec by exact (find_child d children service "exact" "search-exact" data s1 Hserves' Ha).
  unfold mbind at 1, stM_bind at 1 in Hl. rewrite Ec in Hl. clear Ec.
  unfold mbind at 1, stM_bind at 1 in Hl. rewrite (bounded_err_silent s1 Hs1) in Hl.
  assert (decodeCanonicalSearchChild read_exact_segment exact_segment_json (ch_Bytes child') = Ok (exact_segment es)) as Ed.
  { apply (decode_encoded 5); [|lia]. apply exact_segment_codec, exact_entries_texts. intros e He. apply Hmem in He as (x & H1 & H2 & _). exists x. exact (conj H1 H2). }
  rewrite Ed in Hl. unfold mbind at 1, stM_bind at 1 in Hl. unfold lift at 1, wrap_err in Hl. cbn [exact_segment ses_Entries ses_SchemaVersion ses_SearchVersion elems from_option id] in Hl.
  assert ((1 =? 1) = true) as E1 by done. assert ((searchVersion =? searchVersion) = true) as E2 by done.
  assert ((Z.of_nat (length es) =? ssr_Entries (exact_reference es)) = true) as E3.
  { apply Z.eqb_eq. cbn. symmetry. eapply (uint32_small limit _ (length data)); [|done|apply (bi_limit _ _ _ _ _ _ _ _ Hbuilt)].
    apply (field_length exact_entry_json "entries"). do 2 right. left. }
  assert ((countExactMatches es =? ssr_Postings (exact_reference es)) = true) as E4 by apply Z.eqb_refl.
  rewrite E1, E2, E3, E4 in Hl. cbn [negb orb throw_if mbind stM_bind lift mret stM_ret] in Hl. injection Hl as <- <-.
  split; [done|]. split; [exact Hspends|]. left. eexists. split; [done|].
  destruct (sp_exact postings !! key) as [m|] eqn:Hm.
  - rewrite (find_key see_Key es key (ex_entry (exact_entry key m)) Hes).
    + rewrite bool_decide_eq_true_2 by done. by apply exact_entry_matches.
    + apply Hmem. exists (exact_entry key m).
      refine (conj _ (conj eq_refl Hprefix)). apply exact_entries_spec. exists key, m. exact (conj Hm eq_refl).
    + done.
  - assert (Hnone : identity_matches key []).
    { split; [|constructor]. intros x. split; [by intros ?%elem_of_nil|]. intros Hx. destruct (Hindexed _ _ Hx). discriminate. }
    destruct (es !! _) as [e|] eqn:Ee; [|done]. case_bool_decide as Ek; [|done]. exfalso.
    apply list_elem_of_lookup_2, Hmem in Ee as (x & (k & m & Hk & ->)%exact_entries_spec & <- & _). cbn in Ek. congruence.
Qed.
End exact.
