(* ===== verification/SearchTokens.v ===== *)
(** * Searching the tokens of an index

    The records that have every token of a query: a token is a key itself, or
    the keys it begins, or near keys. *)

From S2P Require Import Prelude GoString GoSha256 GoJson CatalogIdentity CatalogModel CatalogRuntime SearchText CatalogChildren SearchIndex SearchCodec SearchQuery SearchLists SearchRoundtrip SearchSegments SearchIndexed SearchBuilt SearchServe.

Lemma uint32_add a b : uint32 (uint32 a + uint32 b) = uint32 (a + b).
Proof. unfold uint32. by rewrite <-Z.add_mod by lia. Qed.
Lemma count_postings run : countPostingRecords run = uint32 (posting_count run).
Proof.
  unfold countPostingRecords, posting_count.
  assert (∀ a, foldl (λ count e, uint32 (count + uint32 (posting_records e))) (uint32 a) run = uint32 (a + foldr Z.add 0 (posting_records <$> run))) as Hf.
  { induction run as [|e run IH]; intros a; cbn [foldl foldr fmap list_fmap]; [by rewrite Z.add_0_r|].
    rewrite uint32_add, IH. f_equal. lia. }
  apply (Hf 0).
Qed.

Section tokens.
Context `{SearchLaws}.
Context builders limit d children postings artifacts runs record_runs
  (Hbuilt : built builders limit d children postings artifacts runs record_runs).
Context (service : SearchService) (Hserves : serves d children service).
Let Hindex : indexes builders postings := bi_index _ _ _ _ _ _ _ _ Hbuilt.
Let Hlayout := bi_tokens _ _ _ _ _ _ _ _ Hbuilt.
Notation routes := (elems (sdir_TokenRoutes d)).

(** ** Keys and their segments *)

Definition indexed (key : string) : Prop := ∃ x, has_token builders key x.

Lemma indexed_postings key : indexed key ↔ is_Some (sp_tokens postings !! key).
Proof.
  split.
  - intros [x Hx]. destruct (sp_tokens postings !! key) as [l|] eqn:E; [done|]. by destruct (ix_tokens_none _ _ Hindex _ E x).
  - intros [l Hl]. destruct (ix_tokens _ _ Hindex _ _ Hl) as (Hne & _ & Hx). destruct l as [|x l]; [done|]. exists x. apply Hx. left.
Qed.

Lemma run_entry i run e : runs !! i = Some run → e ∈ run → ∃ l, sp_tokens postings !! spe_Key e = Some l ∧ e = MkSearchPostingEntryV1 (spe_Key e) (Some l).
Proof.
  intros Hi He. assert (e ∈ posting_entries (sp_tokens postings)) as (k & l & Hk & ->)%posting_entries_spec; [|by exists l].
  rewrite <-(pl_concat _ _ _ _ _ _ _ _ Hlayout). apply elem_of_concat. exists run. split; [by eapply list_elem_of_lookup_2|done].
Qed.

Lemma route_key key : key ∈ spr_Key <$> routes ↔ indexed key.
Proof.
  rewrite indexed_postings, list_elem_of_fmap. split.
  - intros (r & -> & (i & run & e & Hi & He & ->)%(pl_routes _ _ _ _ _ _ _ _ Hlayout)). cbn. destruct (run_entry _ _ _ Hi He) as (l & -> & _). done.
  - intros [l Hl]. assert (MkSearchPostingEntryV1 key (Some l) ∈ concat runs) as (run & [i Hi]%list_elem_of_lookup & He)%elem_of_concat.
    { rewrite (pl_concat _ _ _ _ _ _ _ _ Hlayout). apply posting_entries_spec. by exists key, l. }
    exists (MkSearchPostingRouteV1 key (Z.of_nat i)). split; [done|]. apply (pl_routes _ _ _ _ _ _ _ _ Hlayout).
    by exists i, run, (MkSearchPostingEntryV1 key (Some l)).
Qed.

(** The keys a token is looked up under. *)
Definition stands_for (token key : string) : Prop :=
  (indexed token ∧ key = token)
  ∨ (¬ indexed token ∧ indexed key ∧ HasPrefix key token = true)
  ∨ (¬ indexed token ∧ (∀ k, indexed k → HasPrefix k token = false)
     ∧ key ∈ spr_Key <$> fuzzyPostingRoutes routes token maxSearchFuzzyTokenRoutes).

Definition token_keys (token : string) : list string :=
  match token_routes routes token with
  | Some (group, _) => rg_keys group
  | None => []
  end.

Lemma token_keys_spec token key : key ∈ token_keys token ↔ stands_for token key.
Proof.
  pose proof (se_routes _ _ _ Hserves) as Hs. pose proof (postingRoutes_spec routes token) as Hp.
  unfold token_keys, token_routes, stands_for.
  assert (Hempty : postingRoutes routes token true = [] → ¬ indexed token ∧ ∀ k, indexed k → HasPrefix k token = false).
  { intros E. rewrite <-route_key. split.
    - intros Ht. apply list_elem_of_fmap in Ht as (r & Et & Hr). specialize (Hp r Hs). rewrite E in Hp.
      destruct Hp as [_ Hp]. rewrite decide_True in Hp by (apply list_elem_of_fmap; by exists r). by destruct (proj1 (elem_of_nil r) (Hp (conj Hr (eq_sym Et)))).
    - intros k Hk. apply route_key, list_elem_of_fmap in Hk as (r & -> & Hr). specialize (Hp r Hs). rewrite E in Hp. destruct Hp as [_ Hp].
      destruct (HasPrefix (spr_Key r) token) eqn:Epre; [|done]. exfalso. case_decide as Hd.
      + apply list_elem_of_fmap in Hd as (r' & Et & Hr'). pose proof (postingRoutes_spec routes token r' Hs) as [_ Hp'].
        rewrite E, decide_True in Hp' by (apply list_elem_of_fmap; by exists r').
        by destruct (proj1 (elem_of_nil r') (Hp' (conj Hr' (eq_sym Et)))).
      + by destruct (proj1 (elem_of_nil r) (Hp (conj Hr eq_refl))). }
  destruct (postingRoutes routes token true) as [|r rest] eqn:E.
  - destruct (Hempty eq_refl) as [Hn Hall].
    assert (key ∈ spr_Key <$> fuzzyPostingRoutes routes token maxSearchFuzzyTokenRoutes ↔
      (indexed token ∧ key = token) ∨ (¬ indexed token ∧ indexed key ∧ HasPrefix key token = true)
      ∨ (¬ indexed token ∧ (∀ k, indexed k → HasPrefix k token = false)
         ∧ key ∈ spr_Key <$> fuzzyPostingRoutes routes token maxSearchFuzzyTokenRoutes)) as <-.
    { split; [by auto|]. intros [[? _]|[(_ & Hk & Hpre)|(_ & _ & ?)]]; [done| |done]. rewrite (Hall _ Hk) in Hpre. done. }
    by destruct (fuzzyPostingRoutes routes token maxSearchFuzzyTokenRoutes).
  - cbn [rg_keys]. rewrite list_elem_of_fmap. setoid_rewrite Hp; [|done]. clear Hempty. case_decide as Hd.
    + rewrite route_key in Hd. split.
      * intros (r' & -> & Hr & ->). by left.
      * intros [[_ ->]|[[? _]|[? _]]]; [|done|done]. apply route_key, list_elem_of_fmap in Hd as (r' & -> & Hr). by exists r'.
    + rewrite route_key in Hd. split.
      * intros (r' & -> & Hr & Hpre). right. left. split; [done|]. split; [|done]. apply route_key, list_elem_of_fmap. by exists r'.
      * intros [[? _]|[(_ & Hk & Hpre)|(_ & Hall & _)]]; [done| |].
        -- apply route_key, list_elem_of_fmap in Hk as (r' & -> & Hr). by exists r'.
        -- exfalso. pose proof (Hp r Hs) as [Hp' _]. destruct (Hp' ltac:(by left)) as [Hr Hpre].
           rewrite Hall in Hpre; [done|]. apply route_key, list_elem_of_fmap. by exists r.
Qed.

(** ** Loading the segments *)

Notation references := (elems (sdir_PostingSegments d)).
Notation reference_of := (posting_reference "postings" "search-posting").

Lemma omap_references (l : list Z) :
  omap (λ ordinal, references !! Z.to_nat ordinal) l = reference_of <$> omap (λ ordinal, runs !! Z.to_nat ordinal) l.
Proof.
  rewrite (pl_references _ _ _ _ _ _ _ _ Hlayout). induction l as [|o l IH]; [done|]. cbn [omap list_omap]. rewrite list_lookup_fmap.
  destruct (runs !! Z.to_nat o); cbn [fmap option_fmap option_map list_fmap]; [f_equal|]; apply IH.
Qed.

Lemma posting_references_ok (ordinals : gset Z) :
  (∀ o, o ∈ ordinals → ∃ i run, o = Z.of_nat i ∧ runs !! i = Some run) →
  ∃ ordered, posting_references references ordinals = Ok (reference_of <$> ordered)
    ∧ (∀ run, run ∈ ordered → run ∈ runs)
    ∧ (∀ i run, Z.of_nat i ∈ ordinals → runs !! i = Some run → run ∈ ordered)
    ∧ reference_of <$> ordered ⊆+ references.
Proof.
  intros Ho. set (sorted := sort_by (less_by (λ ordinal, [KZ ordinal])) (elements ordinals)).
  assert (Hsorted : ∀ o, o ∈ sorted ↔ o ∈ ordinals) by (intros; unfold sorted; by rewrite sort_by_elem_of, elem_of_elements).
  exists (omap (λ ordinal, runs !! Z.to_nat ordinal) sorted). split; [|split; [|split]].
  - unfold posting_references. fold sorted.
    assert (existsb (λ ordinal, Z.of_nat (length references) <=? ordinal) (elements ordinals) = false) as ->.
    { apply not_true_iff_false. rewrite existsb_exists. intros (o & Hin & Hle). apply list_elem_of_In, elem_of_elements, Ho in Hin as (i & run & -> & Hi).
      apply lookup_lt_Some in Hi. apply Z.leb_le in Hle. rewrite (pl_references _ _ _ _ _ _ _ _ Hlayout), length_fmap in Hle. lia. }
    cbn [throw_if mbind res_bind]. unfold mret, res_ret. f_equal. apply omap_references.
  - intros run (o & _ & Hi)%list_elem_of_omap. by eapply list_elem_of_lookup_2.
  - intros i run Hin Hi. apply list_elem_of_omap. exists (Z.of_nat i). split; [by apply Hsorted|]. by rewrite Nat2Z.id.
  - rewrite <-omap_references. replace (omap (λ ordinal, references !! Z.to_nat ordinal) sorted) with (omap (λ i, references !! i) (Z.to_nat <$> sorted)).
    2: { generalize sorted. intros l. induction l as [|o l IH]; [done|]. cbn [fmap list_fmap omap list_omap]. by rewrite <-IH. }
    apply omap_lookup_submseteq. apply (NoDup_fmap_2_strong Z.to_nat).
    + intros x y (i & ? & -> & _)%Hsorted%Ho (j & ? & -> & _)%Hsorted%Ho. rewrite !Nat2Z.id. by intros ->.
    + unfold sorted. rewrite sort_by_perm. apply NoDup_elements.
Qed.

Lemma run_segment_ok i run : runs !! i = Some run → ok_posting_segment (posting_segment run).
Proof.
  intros Hi. split; [done|]. cbn. apply Forall_forall. intros e He. destruct (run_entry _ _ _ Hi He) as (l & Hl & ->). split; cbn.
  - eapply token_text; [apply (bi_builders _ _ _ _ _ _ _ _ Hbuilt)|exact Hindex|]. by exists l.
  - apply Forall_forall. intros x Hx. destruct (ix_tokens _ _ Hindex _ _ Hl) as (_ & _ & Hspec). apply Hspec, has_token_bound in Hx.
    pose proof (bi_length _ _ _ _ _ _ _ _ Hbuilt). unfold fits_uint. lia.
Qed.

Lemma load_posting_segment_answer i run s :
  silent s → runs !! i = Some run → load_posting_segment service "search-posting" (reference_of run) s = (s, Ok run).
Proof.
  intros Hs Hi. destruct (pl_run _ _ _ _ _ _ _ _ Hlayout _ _ Hi) as (_ & Hlen & Hin).
  set (data := posting_data run) in *. set (child := segment_child "postings" "search-posting" data) in *.
  unfold load_posting_segment. unfold mbind at 1, stM_bind at 1. rewrite (bounded_err_silent s Hs).
  assert (searchChild service (ssr_Path (reference_of run)) "search-posting" (ssr_Length (reference_of run)) (ssr_SHA256 (reference_of run)) s
    = (s, Ok child)) as Ec by exact (find_child d children service "postings" "search-posting" data s Hserves Hin).
  unfold mbind at 1, stM_bind at 1. rewrite Ec. clear Ec.
  assert (decodeCanonicalSearchChild read_posting_segment posting_segment_json (ch_Bytes child) = Ok (posting_segment run)) as Ed.
  { apply (decode_encoded 4); [|lia]. eapply posting_segment_codec, run_segment_ok, Hi. }
  rewrite Ed. unfold mbind at 1, stM_bind at 1. unfold lift at 1, wrap_err.
  cbn [posting_segment sps_Entries sps_SchemaVersion sps_SearchVersion elems from_option id].
  assert ((1 =? 1) = true) as E1 by done. assert ((searchVersion =? searchVersion) = true) as E2 by done.
  assert ((Z.of_nat (length run) =? ssr_Entries (reference_of run)) = true) as E3.
  { apply Z.eqb_eq. cbn. symmetry. eapply (uint32_small limit _ (length data)); [|done|apply (bi_limit _ _ _ _ _ _ _ _ Hbuilt)].
    apply (field_length posting_entry_json "entries"). do 2 right. left. }
  assert ((countPostingRecords run =? ssr_Postings (reference_of run)) = true) as E4 by (apply Z.eqb_eq, count_postings).
  by rewrite E1, E2, E3, E4.
Qed.

(** The loaded entries are postings of the index, all those of the segments. *)
Definition loaded (ordered : list (list SearchPostingEntryV1)) (entries : gmap string (list Z)) : Prop :=
  ∀ run e, run ∈ ordered → e ∈ run → entries !! spe_Key e = sp_tokens postings !! spe_Key e.

Lemma insert_entries run entries key :
  (foldl (λ result entry, <[spe_Key entry := elems (spe_Records entry)]> result) entries run : gmap string (list Z)) !! key
  = match last (filter (λ e, spe_Key e = key) run) with Some e => Some (elems (spe_Records e)) | None => entries !! key end.
Proof.
  induction run as [|e run IH] using rev_ind; [done|]. rewrite foldl_app, filter_app. cbn [foldl].
  rewrite filter_cons. case_decide as Hk.
  - subst key. rewrite lookup_insert_eq. rewrite filter_nil, last_snoc. done.
  - rewrite lookup_insert_ne by done. by rewrite filter_nil, app_nil_r.
Qed.

Lemma load_posting_segments_answer ordered entries s s' r :
  silent s → (∀ run, run ∈ ordered → run ∈ runs) →
  load_posting_segments service "search-posting" entries (reference_of <$> ordered) s = (s', r) →
  s' = s ∧ ∃ entries', r = Ok entries' ∧ loaded ordered entries'
    ∧ ∀ key, entries' !! key = entries !! key ∨ entries' !! key = sp_tokens postings !! key.
Proof.
  intros Hs. revert entries. induction ordered as [|run ordered IH]; intros entries Hin H'; cbn [fmap list_fmap load_posting_segments] in H'.
  { injection H' as <- <-. split; [done|]. exists entries. split; [done|]. split; [by intros ? ? ?%elem_of_nil|by left]. }
  destruct (proj1 (list_elem_of_lookup _ _) (Hin run ltac:(by left))) as [i Hi].
  unfold mbind at 1, stM_bind at 1 in H'. rewrite (load_posting_segment_answer i run s Hs Hi) in H'.
  apply IH in H' as (-> & entries' & -> & Hl & Hkeep); [|intros run' Hr; apply Hin; by right].
  split; [done|]. exists entries'. split; [done|].
  assert (Hkey : ∀ key, foldl (λ result entry, <[spe_Key entry := elems (spe_Records entry)]> result) entries run !! key
      = entries !! key ∧ (∀ e, e ∈ run → spe_Key e ≠ key)
    ∨ foldl (λ result entry, <[spe_Key entry := elems (spe_Records entry)]> result) entries run !! key = sp_tokens postings !! key).
  { intros key. rewrite insert_entries. destruct (last _) as [e|] eqn:El.
    - right. apply last_Some_elem_of, list_elem_of_filter in El as [<- He]. destruct (run_entry _ _ _ Hi He) as (l & -> & ->). done.
    - left. split; [done|]. intros e He E. apply last_None in El.
      assert (e ∈ filter (λ e, spe_Key e = key) run) as Hf by (by apply list_elem_of_filter). rewrite El in Hf. by apply elem_of_nil in Hf. }
  split.
  - intros run' e Hr He. apply elem_of_cons in Hr as [->|Hr]; [|by eapply Hl].
    destruct (Hkeep (spe_Key e)) as [E|E]; [|done]. rewrite E. destruct (Hkey (spe_Key e)) as [[_ Hno]|?]; [by destruct (Hno e He)|done].
  - intros key. destruct (Hkeep key) as [->|?]; [|by right]. destruct (Hkey key) as [[? _]|?]; [by left|by right].
Qed.

Lemma reserve_all_answers (refs : list SearchSegmentReferenceV1) s s' r :
  silent s → st_for_each (λ reference, reserveSearchReference reference maxSearchSegments) refs s = (s', r) →
  silent s' ∧ (r = Ok tt ∨ ∃ e, r = Fail e ∧ too_broad_error e).
Proof.
  revert s. induction refs as [|reference refs IH]; intros s Hs H'; cbn [st_for_each] in H'; [injection H' as <- <-; by auto|].
  unfold mbind, stM_bind in H'. destruct (reserveSearchReference _ _ s) as [s1 r1] eqn:E.
  destruct (reserve_answers _ _ _ _ _ Hs E) as [Hs1 [->|(e & -> & He)]]; [by eapply IH|].
  injection H' as <- <-. split; [done|]. right. by exists e.
Qed.

Lemma postings_cost_free : Forall free (reference_cost <$> references).
Proof.
  rewrite (pl_references _ _ _ _ _ _ _ _ Hlayout), <-list_fmap_compose. apply Forall_fmap, Forall_forall. intros run _.
  pose proof (uint32_fits (posting_count run)) as Hf. unfold fits_uint in Hf. unfold free, le_cost, no_cost. cbn. lia.
Qed.

Lemma loadPostingEntries_answer (ordinals : gset Z) s s' r :
  silent s → (∀ o, o ∈ ordinals → ∃ i run, o = Z.of_nat i ∧ runs !! i = Some run) →
  loadPostingEntries service references ordinals "search-posting" s = (s', r) →
  silent s' ∧ spends false (postings_cost d) s s' r ∧ ((∃ entries, r = Ok entries ∧ ∀ i run e, Z.of_nat i ∈ ordinals → runs !! i = Some run → e ∈ run →
                  entries !! spe_Key e = sp_tokens postings !! spe_Key e)
               ∨ ∃ e, r = Fail e ∧ too_broad_error e).
Proof.
  intros Hs Ho H'. unfold loadPostingEntries in H'. destruct (posting_references_ok ordinals Ho) as (ordered & Er & Hsub & Hall & Hsome).
  rewrite Er in H'. unfold mbind at 1, stM_bind at 1, lift in H'. unfold mbind at 1, stM_bind at 1 in H'.
  destruct (st_for_each _ _ s) as [s1 r1] eqn:E. pose proof postings_cost_free as Hfree.
  assert (∀ reference, reference ∈ references → free (reference_cost reference)) as Hfrees.
  { intros reference Hr. rewrite Forall_forall in Hfree. by apply Hfree, list_elem_of_fmap_2. }
  assert (spends false (postings_cost d) s s1 r1) as Hspends.
  { assert (∀ reference, reference ∈ reference_of <$> ordered → free (reference_cost reference)) as Hordered.
    { intros reference Hr. eapply Hfrees, elem_of_submseteq; [exact Hr|done]. }
    eapply spends_le; [eapply each_spends; [| |exact E]| |].
    - intros reference Hr. split; [by apply Hordered|done].
    - intros reference s0 s2 r2 Hr. apply reserve_spends; eapply elem_of_submseteq in Hr; try exact Hsome; by apply Hfrees in Hr as (_ & _ & ? & ?).
    - apply total_cost_free, Forall_fmap, Forall_forall, Hordered.
    - apply total_cost_submseteq; [done|]. by apply fmap_submseteq. }
  destruct (reserve_all_answers _ _ _ _ Hs E) as [Hs1 [->|(e & -> & He)]].
  - apply load_posting_segments_answer in H' as (-> & entries & -> & Hl & _); [|done..]. split; [done|]. split; [exact Hspends|]. left. exists entries. split; [done|].
    intros i run e Hin Hi He. by eapply Hl; [eapply Hall|].
  - injection H' as <- <-. split; [done|]. split; [exact Hspends|]. right. by exists e.
Qed.

(** ** The records that have every token *)

Definition group_matches (group : routeGroup) (x : Z) : Prop := ∃ key, key ∈ rg_keys group ∧ has_token builders key x.

Lemma posting_of_key (entries : gmap string (list Z)) key :
  entries !! key = sp_tokens postings !! key →
  ascending (default [] (entries !! key)) ∧ ∀ x, x ∈ default [] (entries !! key) ↔ has_token builders key x.
Proof.
  intros ->. destruct (sp_tokens postings !! key) as [l|] eqn:E; cbn [from_option id].
  - by destruct (ix_tokens _ _ Hindex _ _ E) as (_ & ? & ?).
  - split; [constructor|]. intros x. pose proof (ix_tokens_none _ _ Hindex _ E x). split; [by intros ?%elem_of_nil|done].
Qed.

Lemma intersect_groups_spec entries candidates prefix fuzzy groups ids prefix' fuzzy' :
  (∀ g key, g ∈ groups → key ∈ rg_keys g → entries !! key = sp_tokens postings !! key) →
  match candidates with Some l => ascending l | None => groups ≠ [] end →
  intersect_groups entries candidates prefix fuzzy groups = (ids, prefix', fuzzy') →
  ascending ids
  ∧ (∀ x, x ∈ ids ↔ match candidates with Some l => x ∈ l | None => True end ∧ Forall (λ g, group_matches g x) groups)
  ∧ (ids ≠ [] → prefix' = prefix || existsb rg_prefix groups ∧ fuzzy' = fuzzy || existsb rg_fuzzy groups).
Proof.
  revert candidates prefix fuzzy. induction groups as [|g groups IH]; intros candidates prefix fuzzy He Hc H'; cbn [intersect_groups] in H'.
  { destruct candidates as [l|]; [|done]. injection H' as <- <- <-. split; [done|]. split; [|by rewrite !orb_false_r].
    intros x. cbn [from_option id]. rewrite Forall_nil. tauto. }
  cbv zeta in H'.
  destruct (union_all_spec (λ key, default [] (entries !! key)) (rg_keys g) []) as [Hs Hfound]; [constructor| |].
  { intros key Hkey. by apply posting_of_key, (He g); [left|]. }
  set (found := foldl _ [] (rg_keys g)) in *.
  assert (Hg : ∀ x, x ∈ found ↔ group_matches g x).
  { intros x. rewrite Hfound. unfold group_matches. split.
    - intros [?%elem_of_nil|(key & Hkey & Hx)]; [done|]. exists key. split; [done|]. apply posting_of_key in Hx; [done|]. apply (He g); [left|done].
    - intros (key & Hkey & Hx). right. exists key. split; [done|]. apply posting_of_key; [|done]. apply (He g); [left|done]. }
  clearbody found. set (here := match candidates with None => found | Some candidates => intersectRecordIDs candidates found end) in *.
  assert (Hhere : ascending here ∧ ∀ x, x ∈ here ↔ match candidates with Some l => x ∈ l | None => True end ∧ group_matches g x).
  { unfold here. destruct candidates as [l|].
    - destruct (intersect_spec l found Hc Hs) as [? Hi]. split; [done|]. intros x. by rewrite Hi, Hg.
    - split; [done|]. intros x. rewrite Hg. tauto. }
  clearbody here. destruct Hhere as [Hh Hx]. destruct here as [|y here].
  - injection H' as <- <- <-. split; [constructor|]. split; [|done]. intros x. rewrite Forall_cons. specialize (Hx x).
    split; [by intros ?%elem_of_nil|]. intros [? [? _]]. by apply Hx.
  - apply IH in H' as (? & Hi & Hf); [|intros g' key Hg'; apply He; by right|done]. split; [done|]. split.
    + intros x. rewrite Hi, Hx, Forall_cons. tauto.
    + intros Hne. destruct (Hf Hne) as [-> ->]. cbn [existsb]. by rewrite !orb_assoc.
Qed.

(** The records that have every token of a query. *)
Definition token_match (tokens : list string) (x : Z) : Prop :=
  Forall (λ token, ∃ key, stands_for token key ∧ has_token builders key x) tokens.

Lemma token_routes_segments token group rs r :
  token_routes routes token = Some (group, rs) → r ∈ rs → r ∈ routes.
Proof.
  pose proof (se_routes _ _ _ Hserves) as Hs. unfold token_routes. intros Ht Hr.
  destruct (postingRoutes routes token true) as [|r0 rest] eqn:E.
  - destruct (fuzzyPostingRoutes routes token maxSearchFuzzyTokenRoutes) as [|near nears] eqn:Ef; [done|]. injection Ht as <- <-.
    rewrite <-Ef in Hr. unfold fuzzyPostingRoutes in Hr. cbv zeta in Hr. destruct (_ || _); [by apply elem_of_nil in Hr|].
    rewrite <-fmap_take in Hr. apply list_elem_of_fmap in Hr as ([r' n] & -> & Hin).
    assert ((r', n) ∈ sort_by (less_by (λ m : SearchPostingRouteV1 * Z, [KZ m.2; KS (spr_Key m.1)]))
      (near_routes (runes token) (if (8 <=? length (runes token))%nat then 2 else 1)
        (with_prefix (of_runes (take 1 (runes token))) (drop (sort_Search (length routes) (key_from spr_Key routes (of_runes (take 1 (runes token))))) routes)))) as Hin'.
    { eapply subseteq_take; exact Hin. }
    rewrite sort_by_elem_of in Hin'. unfold near_routes in Hin'. apply list_elem_of_omap in Hin' as (r'' & Hw & Eo). cbv zeta in Eo.
    apply (prefix_routes_spec _ _ _ Hs) in Hw as [Hw _]. destruct (_ || _); [done|]. destruct (boundedDamerauLevenshtein _ _ _) as [? []]; [|done].
    by injection Eo as <- <-.
  - injection Ht as <- <-. rewrite <-E in Hr. by apply (postingRoutes_spec routes token r Hs) in Hr as [? _].
Qed.

Lemma token_routes_keys token group rs key :
  token_routes routes token = Some (group, rs) → key ∈ rg_keys group → ∃ r, r ∈ rs ∧ spr_Key r = key.
Proof.
  unfold token_routes. intros Ht Hk. destruct (postingRoutes routes token true) as [|r0 rest].
  - destruct (fuzzyPostingRoutes _ _ _) as [|near nears]; [done|]. injection Ht as <- <-.
    change (key ∈ spr_Key <$> near :: nears) in Hk. apply list_elem_of_fmap in Hk as (r & -> & ?). by exists r.
  - injection Ht as <- <-. change (key ∈ spr_Key <$> r0 :: rest) in Hk. apply list_elem_of_fmap in Hk as (r & -> & ?). by exists r.
Qed.

(** How well a record matches: all tokens are keys, all begin keys, or some
    stand for near keys. *)
Definition begins_key (token : string) : Prop := ∃ key, indexed key ∧ HasPrefix key token = true.
#[local] Instance indexed_dec token : Decision (indexed token).
Proof. destruct (decide (is_Some (sp_tokens postings !! token))) as [Hi|Hn]; [left|right]; by rewrite indexed_postings. Qed.
#[local] Instance begins_key_dec token : Decision (begins_key token).
Proof.
  destruct (existsb (λ r, HasPrefix (spr_Key r) token) routes) eqn:E; [left|right].
  - apply existsb_exists in E as (r & Hr%list_elem_of_In & Hp). exists (spr_Key r). split; [|done]. apply route_key, list_elem_of_fmap. by exists r.
  - intros (key & Hk & Hp). apply route_key, list_elem_of_fmap in Hk as (r & -> & Hr). apply not_true_iff_false in E. apply E, existsb_exists.
    exists r. split; [by apply list_elem_of_In|done].
Qed.
Definition token_quality (tokens : list string) (quality : Z) : Prop :=
  (quality = SearchMatchExactToken ∧ Forall indexed tokens)
  ∨ (quality = SearchMatchPrefix ∧ ¬ Forall indexed tokens ∧ Forall begins_key tokens)
  ∨ (quality = SearchMatchFuzzy ∧ ¬ Forall begins_key tokens).

Lemma token_routes_flags token group rs :
  token_routes routes token = Some (group, rs) →
  (indexed token → rg_prefix group = false) ∧ (rg_prefix group = true ↔ ¬ indexed token ∧ begins_key token)
  ∧ (rg_fuzzy group = true ↔ ¬ begins_key token).
Proof.
  pose proof (se_routes _ _ _ Hserves) as Hs. pose proof (postingRoutes_spec routes token) as Hp. unfold token_routes. intros Ht.
  assert (Hbegin : begins_key token ↔ postingRoutes routes token true ≠ []).
  { split.
    - intros (key & Hk & Hpre) E. apply route_key, list_elem_of_fmap in Hk as (r & -> & Hr).
      assert (∃ r', r' ∈ postingRoutes routes token true) as [r' Hr'].
      { setoid_rewrite Hp; [|done]. case_decide as Hd.
        - apply list_elem_of_fmap in Hd as (r' & -> & ?). by exists r'.
        - by exists r. }
      rewrite E in Hr'. by apply elem_of_nil in Hr'.
    - intros Hne. destruct (postingRoutes routes token true) as [|r rest] eqn:E; [done|].
      destruct (proj1 (Hp r Hs) ltac:(by left)) as [Hr Hk]. exists (spr_Key r). split; [apply route_key, list_elem_of_fmap; by exists r|].
      case_decide; [|done]. rewrite Hk. unfold HasPrefix. apply prefix_substring. split; [lia|]. clear. induction token as [|a t IH]; [done|]. cbn. by f_equal. }
  destruct (postingRoutes routes token true) as [|r rest] eqn:E.
  - destruct (fuzzyPostingRoutes _ _ _) as [|near nears]; [done|]. injection Ht as <- _. cbn [rg_prefix rg_fuzzy]. split_and!; [done| |].
    + split; [done|]. intros [_ Hb]. by apply Hbegin in Hb.
    + split; [|done]. intros _ Hb. by apply Hbegin in Hb.
  - injection Ht as <- _. cbn [rg_prefix rg_fuzzy].
    assert (Hb : begins_key token) by (by apply Hbegin).
    assert (Hsingle : bool_decide (rest = []) && bool_decide (spr_Key r = token) = true ↔ indexed token).
    { rewrite andb_true_iff, !bool_decide_eq_true, <-route_key. split.
      - intros [_ Ek]. apply list_elem_of_fmap. exists r. split; [done|]. apply (Hp r Hs). left.
      - intros Hd. apply list_elem_of_fmap in Hd as (r' & Et & Hr').
        unfold postingRoutes in E. rewrite (find_key spr_Key routes token r' Hs Hr' (eq_sym Et)) in E.
        rewrite bool_decide_eq_true_2 in E by done. injection E as <- <-. done. }
    split_and!.
    + intros Hi. apply negb_false_iff. by apply Hsingle.
    + rewrite negb_true_iff, <-not_true_iff_false, Hsingle. tauto.
    + split; [done|]. by intros ?.
Qed.

Lemma loadRankedCandidateIDs_answer tokens s s' r :
  silent s → tokens ≠ [] → loadRankedCandidateIDs service tokens s = (s', r) →
  silent s' ∧ (Z.of_nat (length references) ≤ maxSearchTokenSegments → spends false (postings_cost d) s s' r) ∧ ((∃ ids prefix fuzzy, r = Ok (ids, prefix, fuzzy) ∧ ascending ids ∧ (∀ x, x ∈ ids ↔ token_match tokens x)
                  ∧ (ids ≠ [] → token_quality tokens (if fuzzy : bool then SearchMatchFuzzy else if prefix : bool then SearchMatchPrefix else SearchMatchExactToken)))
               ∨ ∃ e, r = Fail e ∧ too_broad_error e).
Proof.
  intros Hs Hne H'. unfold loadRankedCandidateIDs in H'. cbv zeta in H'. rewrite (se_directory _ _ _ Hserves) in H'.
  destruct (mapM (token_routes routes) tokens) as [groups|] eqn:Em.
  2: { injection H' as <- <-. split; [done|]. split; [intros _; apply spends_ok, total_cost_free, postings_cost_free|].
    left. exists [], false, false. split; [done|]. split; [constructor|]. split; [|done]. intros x.
    split; [by intros ?%elem_of_nil|]. intros Hx. exfalso. apply mapM_None in Em. apply Exists_exists in Em as (token & Ht & Et).
    unfold token_match in Hx. rewrite Forall_forall in Hx. destruct (Hx token Ht) as (key & Hk & _). apply token_keys_spec in Hk.
    unfold token_keys in Hk. rewrite Et in Hk. by apply elem_of_nil in Hk. }
  apply mapM_Some in Em. set (ordinals := list_to_set (groups ≫= λ g, spr_Segment <$> g.2) : gset Z) in *.
  assert (Hgroup : ∀ g, g ∈ groups → ∃ token, token ∈ tokens ∧ token_routes routes token = Some g).
  { intros g [i Hi]%list_elem_of_lookup. destruct (Forall2_lookup_r _ _ _ _ _ Em Hi) as (token & Ht & E). exists token. split; [by eapply list_elem_of_lookup_2|done]. }
  assert (Hord : ∀ o, o ∈ ordinals ↔ ∃ g r, g ∈ groups ∧ r ∈ g.2 ∧ o = spr_Segment r).
  { intros o. unfold ordinals. rewrite elem_of_list_to_set, list_elem_of_bind. setoid_rewrite list_elem_of_fmap. naive_solver. }
  assert (Hsegments : ∀ o, o ∈ ordinals → ∃ i run, o = Z.of_nat i ∧ runs !! i = Some run).
  { intros o ([g rs] & rt & Hg & Hr & ->)%Hord. destruct (Hgroup _ Hg) as (token & _ & Et).
    apply (token_routes_segments _ _ _ _ Et) in Hr. apply (pl_routes _ _ _ _ _ _ _ _ Hlayout) in Hr as (i & run & e & Hi & _ & ->). by exists i, run. }
  assert (size ordinals ≤ length references)%nat as Hsize.
  { rewrite (pl_references _ _ _ _ _ _ _ _ Hlayout), length_fmap. rewrite <-(length_seq (length runs) 0), <-(length_fmap Z.of_nat).
    unfold size, set_size. cbn. apply submseteq_length, NoDup_submseteq; [apply NoDup_elements|].
    intros o (i & run & -> & Hi%lookup_lt_Some)%elem_of_elements%Hsegments. apply list_elem_of_fmap_2, elem_of_seq. lia. }
  unfold mbind at 1, stM_bind at 1, lift in H'. destruct (Z.ltb_spec maxSearchTokenSegments (Z.of_nat (size ordinals))); cbn [throw_if] in H'.
  { injection H' as <- <-. split; [done|]. split; [intros Hfew; lia|]. right. eexists. split; [done|reflexivity]. }
  unfold mbind at 1, stM_bind at 1 in H'. destruct (loadPostingEntries _ _ _ _ s) as [s1 r1] eqn:El.
  apply loadPostingEntries_answer in El as (Hs1 & Hspends & [(entries & -> & Hentries)|(e & -> & He)]); [| |done..].
  2: { injection H' as <- <-. split; [done|]. split; [by intros _|]. right. by exists e. }
  destruct (intersect_groups entries None false false groups.*1) as [[ids prefix] fuzzy] eqn:Ei. injection H' as <- <-.
  assert (Hgne : groups.*1 ≠ []).
  { intros E. apply fmap_nil_inv in E as ->. apply Forall2_nil_inv_r in Em. done. }
  apply intersect_groups_spec in Ei as (Hasc & Hids & Hflags); [| |done].
  2: { intros g key Hg Hk. apply list_elem_of_fmap in Hg as ([g' rs] & -> & Hg). cbn [fst] in Hk. destruct (Hgroup _ Hg) as (token & _ & Et).
    destruct (token_routes_keys _ _ _ _ Et Hk) as (rt & Hr & <-). pose proof (token_routes_segments _ _ _ _ Et Hr) as Hin.
    apply (pl_routes _ _ _ _ _ _ _ _ Hlayout) in Hin as (i & run & e & Hi & He & ->). cbn [spr_Key]. eapply Hentries; [|done..].
    apply Hord. by eexists (g', rs), _. }
  split; [done|]. split; [by intros _|]. left. exists ids, prefix, fuzzy. split; [done|]. split; [done|].
  assert (Hforall : ∀ (P : string → Prop) (Q : routeGroup → Prop), (∀ token g rs, token_routes routes token = Some (g, rs) → P token ↔ Q g) →
    Forall P tokens ↔ Forall Q groups.*1).
  { intros P Q HPQ. clear -Em HPQ. induction Em as [|token [g rs] tokens groups Et Em IH]; [by split; constructor|].
    cbn [fmap list_fmap fst]. by rewrite !Forall_cons, IH, (HPQ _ _ _ Et). }
  split.
  - intros x. rewrite Hids. unfold token_match. rewrite (Hforall _ (λ g, group_matches g x)); [tauto|].
    intros token g rs Et. unfold group_matches. setoid_rewrite <-token_keys_spec. unfold token_keys. by rewrite Et.
  - intros Hids'. destruct (Hflags Hids') as [-> ->]. cbn [orb].
    assert (Hexists : ∀ (P : string → Prop) (f : routeGroup → bool), (∀ token g rs, token_routes routes token = Some (g, rs) → P token ↔ f g = true) →
      existsb f groups.*1 = true ↔ Exists P tokens).
    { intros P f HPf. rewrite existsb_exists. setoid_rewrite <-list_elem_of_In. rewrite <-Exists_exists. clear -Em HPf.
      induction Em as [|token [g rs] tokens groups Et Em IH]; [by rewrite !Exists_nil|].
      cbn [fmap list_fmap fst]. by rewrite !Exists_cons, IH, (HPf _ _ _ Et). }
    assert (Hf : existsb rg_fuzzy groups.*1 = true ↔ Exists (not ∘ begins_key) tokens)
      by (apply Hexists; intros token g rs Et; symmetry; by apply (token_routes_flags _ _ _ Et)).
    assert (Hp : existsb rg_prefix groups.*1 = true ↔ Exists (λ token, ¬ indexed token ∧ begins_key token) tokens)
      by (apply Hexists; intros token g rs Et; symmetry; by apply (token_routes_flags _ _ _ Et)).
    destruct (existsb rg_fuzzy groups.*1).
    { right. right. split; [done|]. by apply Exists_not_Forall, Hf. }
    assert (Hbegins : Forall begins_key tokens).
    { destruct (decide (Forall begins_key tokens)) as [|Hn]; [done|]. apply not_Forall_Exists in Hn; [|apply _]. by apply Hf in Hn. }
    destruct (existsb rg_prefix groups.*1).
    { right. left. split; [done|]. split; [|done]. apply Exists_not_Forall. eapply Exists_impl; [by apply Hp|]. by intros token [? _]. }
    left. split; [done|]. destruct (decide (Forall indexed tokens)) as [|Hn]; [done|]. apply not_Forall_Exists in Hn; [|apply _].
    exfalso. destruct Hp as [_ Hp]. discriminate Hp. apply Exists_exists in Hn as (token & Ht & Hn). apply Exists_exists. exists token.
    split; [done|]. split; [done|]. rewrite Forall_forall in Hbegins. by apply Hbegins.
Qed.
End tokens.
