(* ===== verification/SearchRecords.v ===== *)
(** * Loading the records of an index

    A record is found in the segment of its ordinal. *)

From S2P Require Import Prelude GoString GoSha256 GoJson CatalogIdentity CatalogModel CatalogRuntime SearchText CatalogChildren SearchIndex SearchCodec SearchQuery SearchLists SearchRoundtrip SearchSegments SearchIndexed SearchBuilt SearchServe.

(** ** Where the runs start *)

Section starts.
Context {A : Type} (runs : list (list A)).

Lemma run_start_S i run : runs !! i = Some run → run_start runs (S i) = (run_start runs i + length run)%nat.
Proof.
  intros Hi. unfold run_start. rewrite (take_S_r _ _ _ Hi), concat_app, length_app. cbn. by rewrite app_nil_r.
Qed.
Lemma run_start_mono i j : (i ≤ j)%nat → (run_start runs i ≤ run_start runs j)%nat.
Proof.
  induction 1 as [|j _ IH]; [done|]. etrans; [exact IH|]. destruct (runs !! j) as [run|] eqn:E; [rewrite (run_start_S _ _ E); lia|].
  apply lookup_ge_None in E. unfold run_start. rewrite !take_ge by lia. done.
Qed.
Lemma run_start_end i : (length runs ≤ i)%nat → run_start runs i = length (concat runs).
Proof. intros Hi. unfold run_start. by rewrite take_ge. Qed.
Lemma run_start_le i : (run_start runs i ≤ length (concat runs))%nat.
Proof. rewrite <-(run_start_end (Nat.max i (length runs))) by lia. apply run_start_mono. lia. Qed.
Lemma run_lookup i run j : runs !! i = Some run → (j < length run)%nat → concat runs !! (run_start runs i + j)%nat = run !! j.
Proof.
  intros Hi Hj. unfold run_start.
  assert (concat runs = concat (take i runs) ++ run ++ concat (drop (S i) runs)) as ->
    by (rewrite <-(take_drop_middle _ _ _ Hi) at 1; by rewrite concat_app).
  rewrite lookup_app_r by lia. rewrite lookup_app_l; [|lia]. f_equal. lia.
Qed.
End starts.

Section records.
Context `{SearchLaws}.
Context builders limit d children postings artifacts runs record_runs
  (Hbuilt : built builders limit d children postings artifacts runs record_runs).
Context (service : SearchService) (Hserves : serves d children service).
Let Hlayout := bi_records _ _ _ _ _ _ _ _ Hbuilt.
Notation records := (sb_record <$> builders).
Notation references := (elems (sdir_RecordSegments d)).
Notation start_of := (run_start record_runs).
Definition segment_reference (ir : nat * list SearchRecordV1) : SearchRecordSegmentReferenceV1 :=
  record_reference (start_of ir.1) ir.2.

Lemma record_total : length (concat record_runs) = length builders.
Proof. by rewrite (rl_concat _ _ _ _ _ Hlayout), length_fmap. Qed.

Lemma run_bounds i run : record_runs !! i = Some run →
  run ≠ [] ∧ uint32 (Z.of_nat (start_of i)) = Z.of_nat (start_of i) ∧ uint32 (Z.of_nat (length run)) = Z.of_nat (length run)
  ∧ (start_of i + length run ≤ length builders)%nat.
Proof.
  intros Hi. destruct (rl_run _ _ _ _ _ Hlayout _ _ Hi) as (Hne & Hlen & _). split; [done|].
  pose proof (run_start_le record_runs (S i)) as Hle. rewrite (run_start_S _ _ _ Hi), record_total in Hle.
  pose proof (bi_length _ _ _ _ _ _ _ _ Hbuilt). assert (0 < length run)%nat by (destruct run; [done|cbn; lia]).
  split; [unfold uint32; apply Z.mod_small; lia|]. split; [|done].
  eapply (uint32_small limit _ (length (record_data (start_of i) run))); [|done|apply (bi_limit _ _ _ _ _ _ _ _ Hbuilt)].
  apply (field_length search_record_json "records"). do 3 right. left.
Qed.

Lemma reference_lookup i : references !! i = (λ run, segment_reference (i, run)) <$> record_runs !! i.
Proof. rewrite (rl_references _ _ _ _ _ Hlayout), list_lookup_imap. by destruct (record_runs !! i). Qed.

(** The segment of a record's ordinal. *)
Lemma record_segment_index_ok id : 0 ≤ id < Z.of_nat (length builders) →
  ∃ i run, record_segment_index references id = Ok i ∧ record_runs !! i = Some run
    ∧ (start_of i ≤ Z.to_nat id < start_of i + length run)%nat.
Proof.
  intros Hid. unfold record_segment_index. set (f := λ i, match references !! i with Some _ => _ | None => true end).
  assert (Hf : ∀ i, f i = true ↔ (length record_runs ≤ i)%nat ∨ (Z.to_nat id < start_of (S i))%nat).
  { intros i. unfold f. rewrite reference_lookup. destruct (record_runs !! i) as [run|] eqn:E; cbn [fmap option_fmap option_map].
    - destruct (run_bounds _ _ E) as (_ & E1 & E2 & _). cbn [segment_reference record_reference srs_FirstRecord srs_Records fst snd]. rewrite E1, E2, (run_start_S _ _ _ E), Z.ltb_lt.
      apply lookup_lt_Some in E. lia.
    - apply lookup_ge_None in E. split; [by left|done]. }
  assert (Hlen : length references = length record_runs) by (by rewrite (rl_references _ _ _ _ _ Hlayout), length_imap).
  destruct (sort_Search_spec f (length references)) as (Hr & Hlo & Hhi).
  { intros k k' Hk. rewrite !Hf. pose proof (run_start_mono record_runs (S k) (S k') ltac:(lia)). lia. }
  { intros k Hk. apply Hf. left. lia. }
  set (i := sort_Search (length references) f) in *. cbv zeta. clearbody i.
  destruct (record_runs !! i) as [run|] eqn:E.
  - rewrite reference_lookup, E. cbn [fmap option_fmap option_map]. destruct (run_bounds _ _ E) as (_ & E1 & E2 & _).
    assert (start_of i ≤ Z.to_nat id)%nat as Hstart.
    { destruct i as [|i']; [change (start_of 0) with 0%nat; lia|]. assert (f i' = false) as Hfalse by (apply Hlo; lia).
      apply not_true_iff_false in Hfalse. rewrite Hf in Hfalse. lia. }
    exists i, run. cbn [segment_reference record_reference srs_FirstRecord srs_Records fst snd]. rewrite E1. destruct (Z.ltb_spec id (Z.of_nat (start_of i))); [lia|]. split; [done|]. split; [done|].
    split; [done|]. specialize (Hhi i ltac:(lia)). apply Hf in Hhi. rewrite (run_start_S _ _ _ E) in Hhi. apply lookup_lt_Some in E. lia.
  - exfalso. apply lookup_ge_None in E. destruct (decide (length record_runs = 0)%nat) as [E0|Hne].
    + pose proof record_total. apply length_zero_iff_nil in E0. rewrite E0 in *. cbn in *. lia.
    + assert (f (pred (length record_runs)) = false) as Hfalse by (apply Hlo; lia). apply not_true_iff_false in Hfalse.
      rewrite Hf, Nat.succ_pred, run_start_end, record_total in Hfalse by lia. lia.
Qed.

(** ** Loading segments *)

Lemma record_segment_ok i run : record_runs !! i = Some run → ok_record_segment (record_segment (start_of i) run).
Proof.
  intros Hi. split; [done|]. split; [apply uint32_fits|]. cbn. apply Forall_forall. intros r Hr.
  assert (r ∈ records) as Hin.
  { rewrite <-(rl_concat _ _ _ _ _ Hlayout). apply elem_of_concat. exists run. split; [by eapply list_elem_of_lookup_2|done]. }
  apply list_elem_of_fmap in Hin as (b & -> & Hb). pose proof (bi_builders _ _ _ _ _ _ _ _ Hbuilt) as Hok.
  rewrite Forall_forall in Hok. by destruct (Hok b Hb) as [? _].
Qed.

Lemma decode_record_segment i run : record_runs !! i = Some run →
  decodeSearchRecordSegment (segment_child "records" "search-record" (record_data (start_of i) run)) (segment_reference (i, run))
  = Ok (record_segment (start_of i) run).
Proof.
  intros Hi. unfold decodeSearchRecordSegment.
  assert (decodeCanonicalSearchChild read_record_segment record_segment_json
    (ch_Bytes (segment_child "records" "search-record" (record_data (start_of i) run))) = Ok (record_segment (start_of i) run)) as Ed.
  { apply (decode_encoded 4); [|lia]. by apply record_segment_codec, record_segment_ok. }
  rewrite Ed. cbn [wrap_err mbind res_bind record_segment srsx_SchemaVersion srsx_SearchVersion srsx_FirstRecord srsx_Records elems from_option id].
  destruct (run_bounds _ _ Hi) as (_ & E1 & E2 & _).
  assert ((1 =? 1) = true) as Ea by done. assert ((searchVersion =? searchVersion) = true) as Eb by done.
  assert ((uint32 (Z.of_nat (start_of i)) =? srs_FirstRecord (segment_reference (i, run))) = true) as Ec by (apply Z.eqb_refl).
  assert ((Z.of_nat (length run) =? srs_Records (segment_reference (i, run))) = true) as Ee by (apply Z.eqb_eq; cbn; by rewrite E2).
  by rewrite Ea, Eb, Ec, Ee.
Qed.

Lemma load_record_segment_answer i run s : silent s → record_runs !! i = Some run →
  load_record_segment service (segment_reference (i, run)) s = (s, Ok (record_segment (start_of i) run)).
Proof.
  intros Hs Hi. destruct (rl_run _ _ _ _ _ Hlayout _ _ Hi) as (_ & _ & Hin).
  unfold load_record_segment. unfold mbind at 1, stM_bind at 1. rewrite (bounded_err_silent s Hs).
  unfold mbind at 1, stM_bind at 1.
  assert (searchChild service (srs_Path (segment_reference (i, run))) "search-record" (srs_Length (segment_reference (i, run)))
    (srs_SHA256 (segment_reference (i, run))) s = (s, Ok (segment_child "records" "search-record" (record_data (start_of i) run)))) as Ec
    by exact (find_child d children service "records" "search-record" _ s Hserves Hin).
  rewrite Ec. clear Ec. destruct (se_children _ _ _ Hserves) as (known & _ & Hknown & Hcached).
  destruct (sv_recordSegments service !! srs_Path (segment_reference (i, run))) as [cached|] eqn:E.
  - case_bool_decide as Er; [|unfold lift; by rewrite decode_record_segment].
    destruct (Hcached _ _ E) as (_ & child & Hchild & Hdecode). rewrite Er in Hdecode.
    assert (Some child = Some (segment_child "records" "search-record" (record_data (start_of i) run))) as [= ->].
    { rewrite <-Hchild. exact (Hknown _ Hin). }
    rewrite (decode_record_segment _ _ Hi) in Hdecode. injection Hdecode as <-. done.
  - unfold lift. by rewrite decode_record_segment.
Qed.

(** The records under their ordinals: only those of the index. *)
Definition placed (byID : gmap Z SearchRecordV1) : Prop :=
  ∀ z r, byID !! z = Some r → 0 ≤ z ∧ records !! Z.to_nat z = Some r.

Lemma add_segment_records_ok byID i run : record_runs !! i = Some run → placed byID →
  let byID' := add_segment_records byID (record_segment (start_of i) run) in
  placed byID' ∧ (∀ z, is_Some (byID !! z) → is_Some (byID' !! z))
  ∧ ∀ j, (j < length run)%nat → is_Some (byID' !! Z.of_nat (start_of i + j)).
Proof.
  intros Hi Hp. destruct (run_bounds _ _ Hi) as (_ & E1 & E2 & Hend). pose proof (bi_length _ _ _ _ _ _ _ _ Hbuilt) as Hlen.
  unfold add_segment_records. cbn [record_segment srsx_FirstRecord srsx_Records elems from_option id]. rewrite E1.
  assert (∀ prefix rest, run = prefix ++ rest → ∀ byID0, placed byID0 →
    let byID' := (foldl (λ '(byID, offset) record, (<[uint32 (Z.of_nat (start_of i) + uint32 offset) := record]> byID, offset + 1))
      (byID0, Z.of_nat (length prefix)) rest).1 in
    placed byID' ∧ (∀ z, is_Some (byID0 !! z) → is_Some (byID' !! z))
    ∧ ∀ j, (length prefix ≤ j < length run)%nat → is_Some (byID' !! Z.of_nat (start_of i + j))) as Hf.
  { intros prefix rest. revert prefix. induction rest as [|r rest IH]; intros prefix Erun byID0 Hp0; cbn [foldl].
    { split; [done|]. split; [done|]. intros j Hj. rewrite Erun, app_nil_r in Hj. lia. }
    assert (Hn : (length prefix < length run)%nat) by (rewrite Erun, length_app; cbn; lia).
    assert (uint32 (Z.of_nat (start_of i) + uint32 (Z.of_nat (length prefix))) = Z.of_nat (start_of i + length prefix)) as ->.
    { unfold uint32. rewrite Z.add_mod_idemp_r by lia. rewrite Z.mod_small; lia. }
    destruct (IH (prefix ++ [r]) ltac:(by rewrite Erun, <-app_assoc)
      (<[Z.of_nat (start_of i + length prefix) := r]> byID0)) as (H1 & H2 & H3).
    { intros z r'. destruct (decide (Z.of_nat (start_of i + length prefix) = z)) as [<-|Hne].
      - rewrite lookup_insert_eq. intros [= <-]. split; [lia|]. rewrite Nat2Z.id, <-(rl_concat _ _ _ _ _ Hlayout).
        rewrite (run_lookup _ _ _ _ Hi Hn), Erun. by apply list_lookup_middle.
      - rewrite lookup_insert_ne by done. apply Hp0. }
    rewrite length_app in H1, H2, H3. cbn [length] in H1, H2, H3.
    replace (Z.of_nat (length prefix + 1)) with (Z.of_nat (length prefix) + 1) in H1, H2, H3 by lia.
    assert (Hins : ∀ z, is_Some (byID0 !! z) → is_Some (<[Z.of_nat (start_of i + length prefix) := r]> byID0 !! z)).
    { intros z Hz. destruct (decide (Z.of_nat (start_of i + length prefix) = z)) as [<-|Hne]; [by rewrite lookup_insert_eq|by rewrite lookup_insert_ne]. }
    split; [done|]. split; [by intros z Hz; apply H2, Hins|]. intros j Hj.
    destruct (decide (j = length prefix)) as [->|Hne]; [apply H2; by rewrite lookup_insert_eq|apply H3; lia]. }
  destruct (Hf [] run eq_refl byID Hp) as (H1 & H2 & H3). split; [done|]. split; [done|]. intros j Hj. apply H3. cbn. lia.
Qed.

Lemma load_record_segments_answer segments byID s :
  silent s → (∀ ir, ir ∈ segments → record_runs !! ir.1 = Some ir.2) → placed byID →
  ∃ byID', load_record_segments service byID (segment_reference <$> segments) s = (s, Ok byID') ∧ placed byID'
    ∧ (∀ z, is_Some (byID !! z) → is_Some (byID' !! z))
    ∧ ∀ i run j, (i, run) ∈ segments → (j < length run)%nat → is_Some (byID' !! Z.of_nat (start_of i + j)).
Proof.
  intros Hs. revert byID. induction segments as [|[i run] segments IH]; intros byID Hin Hp; cbn [fmap list_fmap load_record_segments].
  { exists byID. split; [done|]. split; [done|]. split; [done|]. by intros ? ? ? ?%elem_of_nil. }
  pose proof (Hin (i, run) ltac:(by left)) as Hi. cbn [fst snd] in Hi.
  destruct (add_segment_records_ok byID i run Hi Hp) as (Hp' & Hkeep & Hnew).
  destruct (IH _ ltac:(intros ir Hir; apply Hin; by right) Hp') as (byID' & E & Hp'' & Hkeep' & Hnew').
  exists byID'. split; [|split; [done|]].
  - unfold mbind at 1, stM_bind at 1. by rewrite (load_record_segment_answer i run s Hs Hi).
  - split; [by intros z Hz; apply Hkeep', Hkeep|]. intros i' run' j [[= -> ->]|Hir]%elem_of_cons Hj; [by apply Hkeep', Hnew|by eapply Hnew'].
Qed.

Lemma reserve_record_answers reference s s' r :
  silent s → reserveSearchRecordReference reference s = (s', r) →
  silent s' ∧ (r = Ok tt ∨ ∃ e, r = Fail e ∧ too_broad_error e).
Proof.
  intros Hs. unfold reserveSearchRecordReference, too_broad. rewrite gets_bind. unfold mbind, stM_bind, mret, stM_ret, lift, modify, throw_if.
  repeat case_match; intros; simplify_eq/=; (split; [exact Hs|]); (by left) || (right; eexists; split; [done|reflexivity]).
Qed.
Lemma reserve_records_answers (refs : list SearchRecordSegmentReferenceV1) s s' r :
  silent s → st_for_each reserveSearchRecordReference refs s = (s', r) →
  silent s' ∧ (r = Ok tt ∨ ∃ e, r = Fail e ∧ too_broad_error e).
Proof.
  revert s. induction refs as [|reference refs IH]; intros s Hs H'; cbn [st_for_each] in H'; [injection H' as <- <-; by auto|].
  unfold mbind, stM_bind in H'. destruct (reserveSearchRecordReference _ s) as [s1 r1] eqn:E.
  destruct (reserve_record_answers _ _ _ _ Hs E) as [Hs1 [->|(e & -> & He)]]; [by eapply IH|].
  injection H' as <- <-. split; [done|]. right. by exists e.
Qed.

(** ** The records of some ordinals *)

Lemma collect_of {A B} (f : A → res (list B)) (g : A → list B) l :
  (∀ x, x ∈ l → f x = Ok (g x)) → collect f l = Ok (l ≫= g).
Proof.
  induction l as [|x l IH]; intros Hf; [done|]. cbn [collect]. rewrite Hf by left. cbn [mbind res_bind].
  rewrite IH; [done|]. intros y Hy. apply Hf. by right.
Qed.

Lemma records_cost_free : Forall free (record_cost <$> references).
Proof.
  apply Forall_fmap, Forall_forall. intros reference [i Hi]%list_elem_of_lookup. rewrite reference_lookup in Hi.
  destruct (record_runs !! i) as [run|]; [|done]. injection Hi as <-. unfold free, le_cost, no_cost. cbn. lia.
Qed.

Lemma loadSearchRecords_answer ids s s' r :
  silent s → (∀ x, x ∈ ids → 0 ≤ x < Z.of_nat (length builders)) → loadSearchRecords service ids s = (s', r) →
  silent s' ∧ spends true (records_cost d) s s' r ∧ ((∃ found, r = Ok found ∧ Forall2 (λ x record, records !! Z.to_nat x = Some record) ids found)
               ∨ ∃ e, r = Fail e ∧ too_broad_error e).
Proof.
  intros Hs Hids H'. unfold loadSearchRecords in H'. destruct ids as [|x0 ids0].
  { injection H' as <- <-. split; [done|]. split; [apply spends_ok, total_cost_free, records_cost_free|].
    left. by exists []. }
  set (ids := x0 :: ids0) in *. rewrite (se_directory _ _ _ Hserves) in H'. cbv zeta in H'.
  set (index_of := λ x, match record_segment_index references x with Ok i => i | Fail _ => 0%nat end).
  assert (Hindex : ∀ x, x ∈ ids → ∃ run, record_segment_index references x = Ok (index_of x) ∧ record_runs !! index_of x = Some run
    ∧ (start_of (index_of x) ≤ Z.to_nat x < start_of (index_of x) + length run)%nat).
  { intros x Hx. destruct (record_segment_index_ok x (Hids x Hx)) as (i & run & E & ? & ?). exists run. unfold index_of. by rewrite E. }
  unfold mbind at 1, stM_bind at 1, lift at 1 in H'.
  rewrite (collect_of _ (λ x, [index_of x])) in H' by (intros x Hx; destruct (Hindex x Hx) as (run & -> & _); done).
  set (indexes := ids ≫= λ x, [index_of x]) in *.
  assert (Hmem : ∀ i, i ∈ indexes ↔ ∃ x, x ∈ ids ∧ i = index_of x).
  { intros i. unfold indexes. rewrite list_elem_of_bind. setoid_rewrite list_elem_of_singleton. naive_solver. }
  set (sorted := sort_by (less_by (λ index, [KZ (Z.of_nat index)])) (elements (list_to_set indexes : gset nat))) in *.
  assert (Hsorted : ∀ i, i ∈ sorted ↔ i ∈ indexes) by (intros; unfold sorted; by rewrite sort_by_elem_of, elem_of_elements, elem_of_list_to_set).
  set (segments := omap (λ i, (λ run, (i, run)) <$> record_runs !! i) sorted).
  assert (Esegments : omap (λ index, references !! index) sorted = segment_reference <$> segments).
  { unfold segments. generalize sorted. intros l. induction l as [|i l IH]; [done|]. cbn [omap list_omap]. rewrite reference_lookup.
    destruct (record_runs !! i); cbn [fmap option_fmap option_map list_fmap]; [f_equal|]; apply IH. }
  assert (omap (λ index, references !! index) sorted ⊆+ references) as Hsome.
  { apply omap_lookup_submseteq. unfold sorted. rewrite sort_by_perm. apply NoDup_elements. }
  rewrite Esegments in H', Hsome.
  unfold mbind at 1, stM_bind at 1 in H'. destruct (st_for_each _ _ s) as [s1 r1] eqn:Er.
  pose proof records_cost_free as Hfree.
  assert (∀ reference, reference ∈ references → free (record_cost reference)) as Hfrees.
  { intros reference Hr. rewrite Forall_forall in Hfree. by apply Hfree, list_elem_of_fmap_2. }
  assert (spends true (records_cost d) s s1 r1) as Hspends.
  { assert (∀ reference, reference ∈ segment_reference <$> segments → free (record_cost reference)) as Hordered.
    { intros reference Hr. eapply Hfrees, elem_of_submseteq; [exact Hr|done]. }
    eapply spends_le; [eapply each_spends; [| |exact Er]| |].
    - intros reference Hr. split; [by apply Hordered|done].
    - intros reference s0 s2 r2 Hr. apply reserve_record_spends; eapply elem_of_submseteq in Hr; try exact Hsome; by apply Hfrees in Hr as (_ & _ & ? & ?).
    - apply total_cost_free, Forall_fmap, Forall_forall, Hordered.
    - apply total_cost_submseteq; [done|]. by apply fmap_submseteq. }
  destruct (reserve_records_answers _ _ _ _ Hs Er) as [Hs1 [->|(e & -> & He)]].
  2: { injection H' as <- <-. split; [done|]. split; [exact Hspends|]. right. by exists e. }
  destruct (load_record_segments_answer segments ∅ s1 Hs1) as (byID & Eb & Hplaced & _ & Hloaded).
  { intros [i run] (i' & _ & Ei)%list_elem_of_omap. cbn [fst snd]. destruct (record_runs !! i') eqn:Ei'; [|done]. by injection Ei as <- <-. }
  { intros z rec. by rewrite lookup_empty. }
  unfold mbind at 1, stM_bind at 1 in H'. rewrite Eb in H'.
  assert (Hfound : ∀ x, x ∈ ids → ∃ record, byID !! x = Some record ∧ records !! Z.to_nat x = Some record).
  { intros x Hx. destruct (Hindex x Hx) as (run & _ & Hrun & Hb). specialize (Hids x Hx).
    assert (is_Some (byID !! x)) as [record Erec].
    { replace x with (Z.of_nat (start_of (index_of x) + (Z.to_nat x - start_of (index_of x)))) by lia. eapply (Hloaded _ run); [|lia].
      apply list_elem_of_omap. exists (index_of x). rewrite Hrun. split; [|done]. apply Hsorted, Hmem. by exists x. }
    exists record. split; [done|]. by apply Hplaced. }
  unfold lift in H'. rewrite (collect_of _ (λ x, option_list (byID !! x))) in H' by (intros x Hx; by destruct (Hfound x Hx) as (record & -> & _)).
  assert (Forall2 (λ x record, records !! Z.to_nat x = Some record) ids (ids ≫= λ x, option_list (byID !! x))) as Hall.
  { revert Hfound. generalize ids. intros l Hfound. induction l as [|x l IH]; [constructor|].
    destruct (Hfound x ltac:(by left)) as (record & Ex & Erec). cbn [mbind list_bind]. rewrite Ex. cbn [option_list app].
    constructor; [done|]. apply IH. intros y Hy. apply Hfound. by right. }
  injection H' as <- <-. split; [done|]. split; [exact Hspends|]. left. eexists. split; [done|]. exact Hall.
Qed.
End records.
