(* ===== verification/SearchRanking.v ===== *)
(** * Ranking the answers of a search

    The candidates of a query are the records it identifies and those that have
    its tokens; the answer is the first twenty by quality, priority, kind, title
    and ordinal. *)

From S2P Require Import Prelude GoString GoSha256 GoJson CatalogIdentity CatalogModel CatalogRuntime SearchText CatalogChildren SearchIndex SearchCodec SearchQuery SearchLists SearchRoundtrip SearchSegments SearchIndexed SearchBuilt SearchServe SearchTokens SearchRecords.

(** ** Sorted ordinals *)

Lemma lex_Z x y l l' : lex_ltb (KZ x :: l) (KZ y :: l') = if x =? y then lex_ltb l l' else x <? y.
Proof. cbn [lex_ltb]. destruct (Z.eqb_spec x y) as [->|Hne]; [by rewrite decide_True|]. rewrite decide_False; [done|]. by intros [= ?]. Qed.
Lemma le_key_Z x y : le_key (λ z, [KZ z]) x y → x ≤ y.
Proof. unfold le_key, less_by. rewrite lex_Z. destruct (Z.eqb_spec y x); [lia|]. by destruct (Z.ltb_spec y x). Qed.

Lemma deduplicate_after_spec previous l :
  StronglySorted (le_key (λ z, [KZ z])) l → Forall (λ x, previous ≤ x) l →
  ascending (deduplicate_after previous l) ∧ Forall (λ x, previous < x) (deduplicate_after previous l)
  ∧ ∀ x, x ∈ deduplicate_after previous l ↔ x ∈ l ∧ x ≠ previous.
Proof.
  intros Hs. revert previous. induction Hs as [|y l Hs IH Hy]; intros previous Hp; cbn [deduplicate_after].
  { split; [constructor|]. split; [constructor|]. intros x. split; [by intros ?%elem_of_nil|by intros [?%elem_of_nil _]]. }
  apply Forall_cons in Hp as [Hle Hp].
  assert (Hyl : Forall (λ x, y ≤ x) l).
  { eapply Forall_impl; [exact Hy|]. intros x. apply le_key_Z. }
  destruct (Z.eqb_spec y previous) as [->|Hne].
  - destruct (IH previous Hp) as (H1 & H2 & H3). split; [done|]. split; [done|]. intros x. rewrite H3, elem_of_cons. naive_solver.
  - destruct (IH y Hyl) as (H1 & H2 & H3). split; [by constructor|]. split.
    + constructor; [lia|]. eapply Forall_impl; [exact H2|]. cbn. lia.
    + intros x. rewrite !elem_of_cons, H3. split.
      * intros [->|[? _]]; [by split; [left|]|]. rewrite Forall_forall in Hyl. split; [by right|]. intros ->. specialize (Hyl previous ltac:(done)). lia.
      * intros [[->|?] ?]; [by left|]. destruct (decide (x = y)); [by left|by right].
Qed.
Lemma deduplicate_spec l :
  let sorted := deduplicateRecordIDs (sort_by (less_by (λ z, [KZ z])) l) in
  ascending sorted ∧ ∀ x, x ∈ sorted ↔ x ∈ l.
Proof.
  pose proof (sort_by_sorted (λ z, [KZ z]) l) as Hs. pose proof (sort_by_elem_of (less_by (λ z, [KZ z])) l) as Hm.
  revert Hs Hm. generalize (sort_by (less_by (λ z : Z, [KZ z])) l). intros l' Hs Hm. cbv zeta.
  enough (ascending (deduplicateRecordIDs l') ∧ ∀ x, x ∈ deduplicateRecordIDs l' ↔ x ∈ l') as [Ha He].
  { split; [done|]. intros x. by rewrite He, Hm. }
  clear Hm l. rename l' into l. destruct l as [|x l]; cbn [deduplicateRecordIDs]; [by split; [constructor|]|].
  inversion_clear Hs as [|? ? Hl Hx].
  assert (Hxl : Forall (λ y, x ≤ y) l).
  { eapply Forall_impl; [exact Hx|]. intros y. apply le_key_Z. }
  destruct (deduplicate_after_spec x l Hl Hxl) as (H1 & H2 & H3). split; [by constructor|]. intros y. rewrite !elem_of_cons, H3.
  destruct (decide (y = x)); naive_solver.
Qed.

Lemma ascending_NoDup l : ascending l → NoDup l.
Proof.
  induction 1 as [|x l Hl IH Hx]; constructor; [|done]. intros Hin. rewrite Forall_forall in Hx. specialize (Hx x Hin). lia.
Qed.

Lemma ascending_length l n : ascending l → (∀ x, x ∈ l → 0 ≤ x < Z.of_nat n) → (length l ≤ n)%nat.
Proof.
  intros Ha%ascending_NoDup Hb. rewrite <-(length_seq n 0), <-(length_fmap Z.of_nat). apply submseteq_length, NoDup_submseteq; [done|].
  intros x Hx%Hb. apply list_elem_of_fmap. exists (Z.to_nat x). split; [lia|]. apply elem_of_seq. lia.
Qed.

(** ** Indexes within the budget of a search *)

(** So little is in the index that no query is too broad for it: few segments
    and records, and the largest bucket with all postings and records within
    the bytes and postings a search may decode. *)
Record within_budget (d : SearchDirectoryV1) : Prop := {
  wb_segments : Z.of_nat (length (elems (sdir_PostingSegments d))) ≤ maxSearchTokenSegments;
  wb_records : Z.of_nat (length (elems (sdir_RecordSegments d))) ≤ maxSearchRecordSegments;
  wb_ranks : Z.of_nat (length (elems (sdir_Ranks d))) ≤ maxSearchPostings;
  wb_bytes : co_bytes (exact_cost d) + co_bytes (postings_cost d) + co_bytes (records_cost d) ≤ maxSearchDecodedBytes;
  wb_postings : co_postings (exact_cost d) + co_postings (postings_cost d) ≤ maxSearchPostings;
}.

Lemma postings_cost_counts l :
  co_segments (total_cost (reference_cost <$> l)) = Z.of_nat (length l) ∧ co_records (total_cost (reference_cost <$> l)) = 0.
Proof.
  induction l as [|x l [IH1 IH2]]; [done|].
  rewrite fmap_cons, total_cost_cons. set (rest := total_cost (reference_cost <$> l)) in *. cbn [add_cost reference_cost co_segments co_records length]. lia.
Qed.
Lemma records_cost_counts l :
  co_segments (total_cost (record_cost <$> l)) = 0 ∧ co_records (total_cost (record_cost <$> l)) = Z.of_nat (length l)
  ∧ co_postings (total_cost (record_cost <$> l)) = 0.
Proof.
  induction l as [|x l (IH1 & IH2 & IH3)]; [done|].
  rewrite fmap_cons, total_cost_cons. set (rest := total_cost (record_cost <$> l)) in *.
  cbn [add_cost record_cost co_segments co_records co_postings length]. lia.
Qed.
Lemma exact_cost_counts d : co_segments (exact_cost d) ≤ 1 ∧ co_records (exact_cost d) ≤ 0.
Proof.
  unfold exact_cost. induction (elems (sdir_ExactBuckets d)) as [|b l IH]; [done|]. rewrite fmap_cons. cbn [greatest_cost foldr co_segments co_records reference_cost].
  fold (greatest_cost ((λ b, reference_cost (seb_SearchSegmentReferenceV1 b)) <$> l)). lia.
Qed.

Lemma budget_room s d :
  within_budget d → ss_receipt s = empty_receipt → room s (add_cost (exact_cost d) (add_cost (postings_cost d) (records_cost d))).
Proof.
  intros [H1 H2 H3 H4 H5] Er. destruct (exact_cost_counts d) as [E1 E2].
  destruct (postings_cost_counts (elems (sdir_PostingSegments d))) as [P1 P2]. destruct (records_cost_counts (elems (sdir_RecordSegments d))) as (R1 & R2 & R3).
  fold (postings_cost d) in P1, P2. fold (records_cost d) in R1, R2, R3.
  split; rewrite Er; cbn [empty_receipt lr_segments lr_recordSegments lr_bytes lr_postings add_cost co_segments co_records co_bytes co_postings];
    unfold maxSearchTokenSegments, maxSearchSegments in *; lia.
Qed.

(** ** The order of the answers *)

Definition rank_order (m : rankedSearchID) : list okey :=
  [KZ (- rk_quality m); KZ (if rk_priority m =? 0 then 1 else 0); KZ (rk_priority m); KZ (rk_kind m); KZ (if rk_title m then 0 else 1);
   KZ (go_len (rk_text m)); KZ (rk_recordID m)].

Lemma ranked_before_order x y : ranked_before x y = less_by rank_order x y.
Proof.
  unfold ranked_before, less_by, rank_order. rewrite !lex_Z.
  destruct (Z.eqb_spec (rk_quality x) (rk_quality y)) as [Eq|Hq]; cbn [negb].
  2: { destruct (Z.eqb_spec (- rk_quality x) (- rk_quality y)); [lia|]. destruct (Z.ltb_spec (rk_quality y) (rk_quality x)); destruct (Z.ltb_spec (- rk_quality x) (- rk_quality y)); lia || done. }
  rewrite Eq, Z.eqb_refl. destruct (Z.eqb_spec (rk_priority x) (rk_priority y)) as [Ep|Hp]; cbn [negb].
  2: { destruct (Z.eqb_spec (rk_priority x) 0) as [E0|]; destruct (Z.eqb_spec (rk_priority y) 0) as [E1|]; try lia; done. }
  rewrite Ep, Z.eqb_refl. destruct (rk_kind x =? rk_kind y); cbn [negb]; [|done].
  destruct (rk_title x), (rk_title y); cbn [Bool.eqb negb]; try done; rewrite !lex_Z || idtac; cbn [Z.eqb];
    try (destruct (go_len (rk_text x) =? go_len (rk_text y)); cbn [negb]; [|done];
         rewrite ?lex_Z; destruct (Z.eqb_spec (rk_recordID x) (rk_recordID y)) as [->|]; [by rewrite Z.ltb_irrefl|done]).
Qed.
Lemma sort_by_ext {A} (f g : A → A → bool) l : (∀ x y, f x y = g x y) → sort_by f l = sort_by g l.
Proof.
  intros Hfg. induction l as [|x l IH]; [done|]. cbn [sort_by]. rewrite IH. generalize (sort_by g l). intros l'.
  induction l' as [|y l' IH']; [done|]. cbn [insert_by]. rewrite Hfg. by destruct (g y x); [rewrite IH'|].
Qed.
Lemma ranked_sorted l : sort_by ranked_before l = sort_by (less_by rank_order) l.
Proof. apply sort_by_ext, ranked_before_order. Qed.
Lemma rank_order_inj x y : rank_order x = rank_order y → rk_recordID x = rk_recordID y.
Proof. unfold rank_order. intros E. by injection E. Qed.

Lemma StronglySorted_filter' {A} (R : A → A → Prop) (P : A → Prop) `{∀ x, Decision (P x)} l : StronglySorted R l → StronglySorted R (filter P l).
Proof.
  induction 1 as [|x l Hl IH Hx]; [constructor|]. rewrite filter_cons. case_decide; [|done]. constructor; [done|].
  apply Forall_forall. intros y [_ Hy]%list_elem_of_filter. rewrite Forall_forall in Hx. by apply Hx.
Qed.

(** ** Errors in a silent state *)

Lemma searchError_silent {A} e s s' (r : res A) : silent s → searchError e s = (s', r) → s' = s ∧ r = Fail e.
Proof. intros Hs. unfold searchError. rewrite (parent_err_silent s Hs), (bounded_err_silent s Hs). by intros [= <- <-]. Qed.
Lemma or_search_error_silent {A} (m : searching A) s s1 s' (r r1 : res A) :
  m s = (s1, r1) → silent s1 → or_search_error m s = (s', r) → s' = s1 ∧ r = r1.
Proof.
  intros Em Hs. unfold or_search_error. rewrite Em. destruct r1 as [a|e]; [by intros [= <- <-]|]. by apply searchError_silent.
Qed.

(** ** What a query asks for *)

Section query.
Context `{SearchTables}.
Context (builders : list searchBuildRecord) (query : string).

(** The priority with which the query identifies a record. *)
Definition identity_at (x : Z) : option Z :=
  if x <? 0 then None else b ← builders !! Z.to_nat x; identity_priority b query.
Definition identified (x : Z) : Prop := is_Some (identity_at x).
Lemma identity_at_spec x p : identity_at x = Some p ↔ has_identity builders query x p.
Proof.
  unfold identity_at, has_identity. destruct (Z.ltb_spec x 0) as [Hneg|Hpos].
  { split; [done|]. intros (i & b & -> & _). lia. }
  split.
  - destruct (builders !! Z.to_nat x) as [b|] eqn:E; [|done]. intros Hp. exists (Z.to_nat x), b. split; [lia|]. done.
  - intros (i & b & -> & Hi & Hp). by rewrite Nat2Z.id, Hi.
Qed.

(** What a record is ranked by; [quality] is the one of the records that only
    have the tokens. *)
Definition rank_at (x : Z) : SearchRankRecordV1 := from_option rank_of (MkSearchRankRecordV1 "" "") (builders !! Z.to_nat x).
Definition rank_record (quality x : Z) : rankedSearchID :=
  MkRankedSearchID x (searchKindPriority (srk_Kind (rank_at x))) (default 0 (identity_at x))
    (if identity_at x then SearchMatchExactIdentity else quality)
    (bool_decide (match normalizeSearchExact (srk_Title (rank_at x)) with Ok title => title | Fail _ => "" end = query))
    (srk_Title (rank_at x)).
Definition best_twenty (quality : Z) (candidates : list Z) : list Z :=
  take maxSearchResults (rk_recordID <$> sort_by (less_by rank_order) (rank_record quality <$> candidates)).

Lemma rank_record_inj quality l : NoDup l → ∀ x y, x ∈ rank_record quality <$> l → y ∈ rank_record quality <$> l → rank_order x = rank_order y → x = y.
Proof.
  intros _ x y (i & -> & _)%list_elem_of_fmap (j & -> & _)%list_elem_of_fmap E. apply rank_order_inj in E. cbn in E. by subst.
Qed.

(** The best of the identified ones are the identified ones of the best. *)
Lemma best_identified quality l : NoDup l → quality ≠ SearchMatchExactIdentity →
  filter (λ m, rk_quality m = SearchMatchExactIdentity) (sort_by (less_by rank_order) (rank_record quality <$> l))
  = sort_by (less_by rank_order) (rank_record quality <$> filter (λ x, is_Some (identity_at x)) l).
Proof.
  intros Hn Hq. apply sort_by_unique.
  - apply rank_record_inj, NoDup_filter, Hn.
  - apply StronglySorted_filter', sort_by_sorted.
  - rewrite sort_by_perm. clear Hn. induction l as [|x l IH]; [done|]. rewrite fmap_cons, !filter_cons. cbn [rank_record rk_quality].
    destruct (identity_at x) as [p|] eqn:E.
    + rewrite !decide_True by (done || by exists p). by rewrite fmap_cons, IH.
    + rewrite !decide_False by (done || by intros [? [=]]). done.
Qed.
Lemma best_twenty_sub quality l x : x ∈ best_twenty quality l → x ∈ l.
Proof.
  unfold best_twenty. intros Hx. assert (x ∈ rk_recordID <$> sort_by (less_by rank_order) (rank_record quality <$> l)) as Hx' by (by eapply subseteq_take).
  apply list_elem_of_fmap in Hx' as (m & -> & Hm). rewrite sort_by_elem_of in Hm. by apply list_elem_of_fmap in Hm as (y & -> & ?).
Qed.
End query.

(** ** Maps filled from a list *)

Lemma insert_all_lookup {A V} (f : A → Z) (g : A → V) l (m : gmap Z V) x v :
  (∀ k, k ∈ l → f k = x → g k = v) → (∃ k, k ∈ l ∧ f k = x) → foldl (λ m k, <[f k := g k]> m) m l !! x = Some v.
Proof.
  induction l as [|k l IH] using rev_ind; [by intros _ (k & ?%elem_of_nil & _)|]. intros Hv (k' & Hk & Ek). rewrite foldl_app. cbn [foldl].
  destruct (decide (f k = x)) as [Ex|Hne].
  - rewrite Ex, lookup_insert_eq. f_equal. apply Hv; [|done]. apply elem_of_app. right. left.
  - rewrite lookup_insert_ne by done. apply IH.
    + intros j Hj. apply Hv, elem_of_app. by left.
    + exists k'. split; [|done]. apply elem_of_app in Hk as [?| ->%list_elem_of_singleton]; done.
Qed.
Lemma insert_all_none {A V} (f : A → Z) (g : A → V) l (m : gmap Z V) x :
  (∀ k, k ∈ l → f k ≠ x) → foldl (λ m k, <[f k := g k]> m) m l !! x = m !! x.
Proof.
  revert m. induction l as [|k l IH]; intros m Hl; [done|]. cbn [foldl]. rewrite IH by (intros j Hj; apply Hl; by right).
  apply lookup_insert_ne, Hl. left.
Qed.

Lemma raise_all quality T qualities x : 0 < quality →
  default 0 (foldl (raise_quality quality) qualities T !! x)
  = if decide (x ∈ T) then Z.max (default 0 (qualities !! x)) quality else default 0 (qualities !! x).
Proof.
  intros Hq. revert qualities. induction T as [|y T IH]; intros qualities; cbn [foldl]; [by rewrite decide_False by apply not_elem_of_nil|].
  rewrite IH. assert (default 0 (raise_quality quality qualities y !! x) = if decide (x = y) then Z.max (default 0 (qualities !! x)) quality else default 0 (qualities !! x)) as ->.
  { unfold raise_quality. destruct (decide (x = y)) as [->|Hne].
    - destruct (Z.ltb_spec (default 0 (qualities !! y)) quality); [rewrite lookup_insert_eq; cbn; lia|lia].
    - destruct (_ <? _); [by rewrite lookup_insert_ne|done]. }
  destruct (decide (x = y)) as [->|Hne].
  - rewrite (decide_True (P := y ∈ y :: T)) by left. case_decide; lia.
  - destruct (decide (x ∈ T)) as [Hin|Hin]; [by rewrite decide_True by (by right)|]. rewrite decide_False; [done|].
    by intros [->|?]%elem_of_cons.
Qed.

(** ** The candidates *)

Section ranking.
Context `{SearchLaws}.
Context builders limit d children postings artifacts runs record_runs
  (Hbuilt : built builders limit d children postings artifacts runs record_runs).
Context (service : SearchService) (Hserves : serves d children service).
Context (query : string).
Notation identity_at := (identity_at builders query).
Notation identified := (identified builders query).

(** An index so small that a search cannot look at too much of it. *)
Definition few : Prop :=
  Z.of_nat (length (elems (sdir_PostingSegments d))) ≤ maxSearchTokenSegments ∧ Z.of_nat (length builders) ≤ maxSearchPostings.

(** The records that have the tokens of the query, if it can be cut. *)
Definition has_tokens (x : Z) : Prop :=
  match tokenizeNormalizedSearchExact query with
  | Ok normalized => token_match builders d (nq_Tokens normalized) x
  | Fail _ => False
  end.
(** The quality of the records that only have the tokens. *)
Definition tokens_quality (quality : Z) : Prop :=
  match tokenizeNormalizedSearchExact query with
  | Ok normalized => token_quality builders (nq_Tokens normalized) quality
  | Fail _ => False
  end.

(** The records an answer is chosen from: those the query identifies and those
    that have its tokens, or the former alone when the others are too many. *)
Record candidates_of (candidates : list Z) (quality : Z) : Prop := {
  ca_ascending : ascending candidates;
  ca_sound : ∀ x, x ∈ candidates → identified x ∨ has_tokens x;
  ca_identified : ∀ x, identified x → x ∈ candidates;
  ca_tokens : (∀ x, ¬ identified x) → ∀ x, has_tokens x → x ∈ candidates;
  ca_quality : ∀ x, x ∈ candidates → ¬ identified x → tokens_quality quality;
}.

Lemma token_quality_values tokens quality : token_quality builders tokens quality → quality = 4 ∨ quality = 3 ∨ quality = 2.
Proof. intros [[-> _]|[[-> _]|[-> _]]]; auto. Qed.

Lemma identified_bound x : identified x → 0 ≤ x < Z.of_nat (length builders).
Proof. intros [p Hp%identity_at_spec%has_identity_bound]. done. Qed.
Lemma postings_cost_ok : free (postings_cost d).
Proof. eapply total_cost_free, postings_cost_free, Hbuilt. Qed.
Lemma has_tokens_bound x : has_tokens x → 0 ≤ x < Z.of_nat (length builders).
Proof.
  unfold has_tokens. destruct (tokenizeNormalizedSearchExact query) as [normalized|] eqn:E; [|done]. intros Ht. unfold tokenizeNormalizedSearchExact in E. cbv zeta in E.
  apply seq_ok in E as [E1 [= <-]]. apply throw_if_ok, orb_false_iff in E1 as [E1%bool_decide_eq_false _]. cbn in Ht. unfold token_match in Ht.
  destruct (tokenizeSearchText query) as [|token tokens]; [done|]. apply Forall_inv in Ht as (key & _ & Hk). by eapply has_token_bound.
Qed.
Lemma candidate_bound candidates quality x : candidates_of candidates quality → x ∈ candidates → 0 ≤ x < Z.of_nat (length builders).
Proof.
  intros Hc Hx. by destruct (ca_sound _ _ Hc x Hx) as [?%identified_bound|?%has_tokens_bound].
Qed.

Section matches.
Context (ms : list SearchExactMatchV1) (Hms : identity_matches builders query ms).
Notation found := (negb (bool_decide (ms = []))).

Lemma match_identity m : m ∈ ms ↔ identity_at (sem_Record m) = Some (sem_Priority m).
Proof. by rewrite identity_at_spec, (proj1 Hms). Qed.
Lemma match_of x p : identity_at x = Some p → MkSearchExactMatchV1 x p ∈ ms.
Proof. intros E. by apply match_identity. Qed.
Lemma identified_in x : x ∈ sem_Record <$> ms ↔ identified x.
Proof.
  rewrite list_elem_of_fmap. split; [intros (m & -> & Hm%match_identity); by eexists|]. intros [p Hp%match_of]. by exists (MkSearchExactMatchV1 x p).
Qed.
Lemma found_spec : found = false ↔ ∀ x, ¬ identified x.
Proof.
  rewrite negb_false_iff, bool_decide_eq_true. setoid_rewrite <-identified_in. split; [intros ->; by intros x ?%elem_of_nil|].
  intros Hx. destruct ms as [|m l]; [done|]. destruct (Hx (sem_Record m)). left.
Qed.

Lemma exact_priorities_ok x : exact_priorities ms !! x = identity_at x.
Proof.
  unfold exact_priorities. destruct (identity_at x) as [p|] eqn:E.
  - apply insert_all_lookup; [|exists (MkSearchExactMatchV1 x p); split; [by apply match_of|done]].
    intros m Hm%match_identity <-. congruence.
  - rewrite insert_all_none; [apply lookup_empty|]. intros m Hm%match_identity <-. congruence.
Qed.
Lemma exact_candidates_ok :
  ascending (cd_IDs (exact_candidates ms)) ∧ (∀ x, x ∈ cd_IDs (exact_candidates ms) ↔ identified x)
  ∧ ∀ x, default 0 (cd_quality (exact_candidates ms) !! x) = if identity_at x then SearchMatchExactIdentity else 0.
Proof.
  destruct (deduplicate_spec (sem_Record <$> ms)) as [Ha He]. split; [exact Ha|]. split; [intros x; rewrite <-identified_in; apply He|].
  intros x. cbn [exact_candidates cd_quality]. destruct (identity_at x) as [p|] eqn:E.
  - rewrite (insert_all_lookup (λ y, y) (λ _, SearchMatchExactIdentity) (sem_Record <$> ms) ∅ x SearchMatchExactIdentity); [done|done|].
    exists x. split; [|done]. apply identified_in. by exists p.
  - rewrite (insert_all_none (λ y, y) (λ _, SearchMatchExactIdentity) (sem_Record <$> ms) ∅ x); [by rewrite lookup_empty|].
    intros y Hy%identified_in ->. destruct Hy as [? Hy]. congruence.
Qed.

Definition merged_ok (state : candidateState) (quality : Z) : Prop :=
  candidates_of (cd_IDs state) quality ∧ quality ≠ SearchMatchExactIdentity
  ∧ ∀ x, x ∈ cd_IDs state → default 0 (cd_quality state !! x) = if identity_at x then SearchMatchExactIdentity else quality.

(** The identified records alone. *)
Lemma identified_only qualities :
  found = true ∨ (∀ x, ¬ has_tokens x) →
  (∀ x, identified x → default 0 (qualities !! x) = SearchMatchExactIdentity) →
  merged_ok (MkCandidateState (cd_IDs (exact_candidates ms)) qualities) 0.
Proof.
  intros Hf Hq. destruct exact_candidates_ok as (Ha & He & _). split; [|split; [done|]].
  - split; cbn [cd_IDs].
    + done.
    + intros x Hx%He. by left.
    + intros x Hx. by apply He.
    + intros Hn x Hx. destruct Hf as [Hf|Hf]; [|by destruct (Hf x Hx)]. apply found_spec in Hn. congruence.
    + intros x Hx%He Hn. done.
  - intros x Hx%He. cbn [cd_quality]. rewrite (Hq x Hx). destruct Hx as [p Hp]. by rewrite Hp.
Qed.

Lemma merge_candidates_answer s s' r :
  silent s → merge_candidates service query found (exact_candidates ms) s = (s', r) →
  silent s'
  ∧ ((∃ state quality, r = Ok state ∧ merged_ok state quality ∧ (few → spends false (postings_cost d) s s' r))
     ∨ ∃ e, r = Fail e ∧ ((too_broad_error e ∧ (few → spends false (postings_cost d) s s' r))
                          ∨ ((∀ x, ¬ identified x) ∧ tokenizeNormalizedSearchExact query = Fail e))).
Proof.
  intros Hs H'. destruct exact_candidates_ok as (Ha & He & Hqual). unfold merge_candidates in H'.
  assert (Hid : ∀ x, identified x → default 0 (cd_quality (exact_candidates ms) !! x) = SearchMatchExactIdentity).
  { intros x [p Hp]. by rewrite Hqual, Hp. }
  destruct (tokenizeNormalizedSearchExact query) as [normalized|e] eqn:Et.
  2: { destruct found eqn:Ef; injection H' as <- <-; (split; [done|]).
    - left. exists (exact_candidates ms), 0. split; [done|]. split; [|intros _; apply spends_ok, postings_cost_ok].
      apply identified_only; [|exact Hid]. right. intros x. unfold has_tokens. rewrite Et. intros [].
    - right. exists e. split; [done|]. right. split; [|done]. by apply found_spec. }
  assert (Htokens : nq_Tokens normalized ≠ []).
  { unfold tokenizeNormalizedSearchExact in Et. cbv zeta in Et. apply seq_ok in Et as [E1 [= <-]].
    by apply throw_if_ok, orb_false_iff in E1 as [E1%bool_decide_eq_false _]. }
  unfold mbind at 1, stM_bind at 1, attempt in H'. destruct (loadRankedCandidateIDs service (nq_Tokens normalized) s) as [s1 outcome] eqn:El.
  destruct (loadRankedCandidateIDs_answer _ _ _ _ _ _ _ _ Hbuilt service Hserves _ _ _ _ Hs Htokens El)
    as (Hs1 & Hspends & [(T & prefix & fuzzy & -> & HaT & HT & HqT)|(e & -> & Hbroad)]); cbn [merge_tokens] in H'.
  2: { unfold too_broad_error in Hbroad. rewrite Hbroad in H'. cbn [negb] in H'. rewrite orb_false_r in H'. destruct found eqn:Ef; cbn [negb] in H'.
    - injection H' as <- <-. split; [done|]. left. exists (exact_candidates ms), 0. split; [done|].
      split; [apply identified_only; [|exact Hid]; by left|]. intros [Hfew _]. by eapply spends_never, Hspends.
    - apply searchError_silent in H' as [-> ->]; [|done]. split; [done|]. right. exists e. split; [done|]. left. split; [done|].
      intros [Hfew _]. by eapply spends_never, Hspends. }
  cbv zeta in H'. set (quality := if fuzzy : bool then SearchMatchFuzzy else if prefix : bool then SearchMatchPrefix else SearchMatchExactToken) in *.
  assert (Hvalues : 0 < quality < SearchMatchExactIdentity) by (unfold quality; destruct fuzzy, prefix; done).
  set (qualities := foldl (raise_quality quality) (cd_quality (exact_candidates ms)) T) in *.
  assert (Hraised : ∀ x, default 0 (qualities !! x) = if identity_at x then SearchMatchExactIdentity else if decide (x ∈ T) then quality else 0).
  { intros x. unfold qualities. rewrite raise_all by lia. rewrite Hqual. destruct (identity_at x); case_decide; try done; lia. }
  assert (Hidr : ∀ x, identified x → default 0 (qualities !! x) = SearchMatchExactIdentity).
  { intros x [p Hp]. by rewrite Hraised, Hp. }
  destruct (union_spec (cd_IDs (exact_candidates ms)) T Ha HaT) as [Hu Hin].
  assert (Hhas : ∀ x, has_tokens x ↔ x ∈ T) by (intros x; unfold has_tokens; by rewrite Et, HT).
  assert (Hfewer : few → Z.of_nat (length (unionRecordIDs (cd_IDs (exact_candidates ms)) T)) ≤ maxSearchPostings).
  { intros [_ Hlen]. apply ascending_length with (n := length builders) in Hu; [lia|].
    intros x [Hx%He|Hx%Hhas]%Hin; [by apply identified_bound|by apply has_tokens_bound]. }
  destruct (Z.ltb_spec maxSearchPostings (Z.of_nat (length (unionRecordIDs (cd_IDs (exact_candidates ms)) T)))) as [Ebig|Ebig] in H'.
  { destruct found eqn:Ef.
    - injection H' as <- <-. split; [done|]. left. eexists _, 0. split; [done|].
      split; [apply identified_only; [|exact Hidr]; by left|]. intros Hfew. specialize (Hfewer Hfew). lia.
    - injection H' as <- <-. split; [done|]. right. eexists. split; [done|]. left. split; [reflexivity|].
      intros Hfew. specialize (Hfewer Hfew). lia. }
  injection H' as <- <-. split; [done|]. left. eexists _, quality. split; [done|].
  split; [|intros [Hfew _]; eapply spends_as; [|by apply Hspends]; done].
  split; [|split; [lia|]].
  - split; cbn [cd_IDs].
    + done.
    + intros x [Hx%He|Hx%Hhas]%Hin; [by left|by right].
    + intros x Hx%He. apply Hin. by left.
    + intros _ x Hx%Hhas. apply Hin. by right.
    + intros x Hx Hn. unfold tokens_quality. rewrite Et. apply HqT. apply Hin in Hx as [Hx%He|Hx]; [done|]. intros ->. by apply elem_of_nil in Hx.
  - intros x Hx. cbn [cd_quality cd_IDs] in *. rewrite Hraised. destruct (identity_at x) as [p|] eqn:Ep; [done|].
    apply Hin in Hx as [[p Hp]%He|Hx]; [congruence|]. by rewrite decide_True.
Qed.

(** ** The answer *)

Lemma rank_candidates_ok qualities quality ids s :
  silent s →
  (∀ x, x ∈ ids → 0 ≤ x < Z.of_nat (length builders)) →
  (∀ x, x ∈ ids → default 0 (qualities !! x) = if identity_at x then SearchMatchExactIdentity else quality) →
  rank_candidates (rank_of <$> builders) query (exact_priorities ms) qualities ids s = (s, Ok (rank_record builders query quality <$> ids)).
Proof.
  intros Hs Hb Hq. induction ids as [|x ids IH]; [done|]. cbn [rank_candidates].
  assert (or_search_error bounded_err s = (s, Ok tt)) as Eb by (unfold or_search_error; by rewrite bounded_err_silent).
  unfold mbind at 1, stM_bind at 1. rewrite Eb.
  specialize (Hb x ltac:(by left)) as Hx. destruct (lookup_lt_is_Some_2 builders (Z.to_nat x) ltac:(lia)) as [b Ex].
  rewrite list_lookup_fmap, Ex. unfold mbind at 1, stM_bind at 1, lift at 1. cbn [fmap option_fmap option_map]. cbv [mret res_ret]. cbv zeta.
  unfold mbind at 1, stM_bind at 1. rewrite IH by (intros y Hy; apply Hb || apply Hq; by right).
  unfold stM_ret. rewrite fmap_cons. do 3 f_equal. unfold rank_record, rank_at. rewrite Ex. cbn [from_option].
  by rewrite exact_priorities_ok, Hq by left.
Qed.

(** The answer of a query: the twenty best of its candidates. *)
Definition answers (result : SearchResult) : Prop :=
  sres_SnapshotID result = sv_snapshotID service ∧ sres_Query result = query
  ∧ ∃ candidates quality, candidates_of candidates quality
    ∧ Forall2 (λ x record, (sb_record <$> builders) !! Z.to_nat x = Some record)
        (best_twenty builders query quality candidates) (sres_Results result)
    ∧ sres_MatchQualities result
      = (λ x, if identity_at x then SearchMatchExactIdentity else quality) <$> best_twenty builders query quality candidates.

Lemma load_twenty state quality s s' r :
  silent s → merged_ok state quality →
  load_selected service found (sort_by ranked_before (rank_record builders query quality <$> cd_IDs state)) s = (s', r) →
  silent s' ∧ spends true (records_cost d) s s' r ∧ ((∃ candidates results, r = Ok (best_twenty builders query quality candidates, results) ∧ candidates_of candidates quality
                  ∧ (∀ x, x ∈ candidates → x ∈ cd_IDs state)
                  ∧ Forall2 (λ x record, (sb_record <$> builders) !! Z.to_nat x = Some record) (best_twenty builders query quality candidates) results)
               ∨ ∃ e, r = Fail e ∧ too_broad_error e).
Proof.
  intros Hs (Hc & Hq & _) H'. unfold load_selected in H'. rewrite gets_bind in H'. cbv zeta in H'. rewrite ranked_sorted in H'.
  change (take maxSearchResults (rk_recordID <$> sort_by (less_by rank_order) (rank_record builders query quality <$> cd_IDs state)))
    with (best_twenty builders query quality (cd_IDs state)) in H'.
  assert (Hload : ∀ candidates s0 s1 r1, silent s0 → candidates_of candidates quality →
    loadSearchRecords service (best_twenty builders query quality candidates) s0 = (s1, r1) → _) by
    (intros candidates s0 s1 r1 Hs0 Hc0; apply (loadSearchRecords_answer _ _ _ _ _ _ _ _ Hbuilt service Hserves _ _ _ _ Hs0);
     intros x Hx; eapply (candidate_bound _ _ _ Hc0), best_twenty_sub, Hx).
  unfold mbind at 1, stM_bind at 1, attempt in H'. destruct (loadSearchRecords service _ s) as [s1 outcome] eqn:El.
  destruct (Hload _ _ _ _ Hs Hc El) as (Hs1 & Hspends & [(records & -> & Hr)|(e & -> & Hbroad)]); cbn [selected_results] in H'.
  { injection H' as <- <-. split; [done|]. split; [by eapply spends_as, Hspends|]. left. by exists (cd_IDs state), records. }
  unfold too_broad_error in Hbroad. rewrite Hbroad, andb_true_r in H'. destruct found eqn:Ef.
  2: { apply searchError_silent in H' as [-> ->]; [|done]. split; [done|]. split; [by eapply spends_never, Hspends|]. right. by exists e. }
  pose proof (ascending_NoDup _ (ca_ascending _ _ Hc)) as Hn.
  rewrite best_identified in H' by done. set (kept := filter (λ x, is_Some (identity_at x)) (cd_IDs state)) in *.
  change (take maxSearchResults (rk_recordID <$> sort_by (less_by rank_order) (rank_record builders query quality <$> kept)))
    with (best_twenty builders query quality kept) in H'.
  assert (Hkept : candidates_of kept quality).
  { split.
    - apply StronglySorted_filter', Hc.
    - intros x [Hx _]%list_elem_of_filter. by left.
    - intros x Hx. apply list_elem_of_filter. split; [done|]. by apply (ca_identified _ _ Hc).
    - intros Hno. apply found_spec in Hno. congruence.
    - intros x [Hx _]%list_elem_of_filter Hno. by destruct Hno. }
  unfold mbind at 1, stM_bind at 1, modify in H'. unfold mbind at 1, stM_bind at 1 in H'.
  destruct (or_search_error _ _) as [s2 r2] eqn:Eo. destruct (loadSearchRecords service (best_twenty builders query quality kept) (with_receipt (ss_receipt s) s1)) as [s3 r3] eqn:El2.
  assert (Hs1' : silent (with_receipt (ss_receipt s) s1)) by exact Hs1.
  destruct (Hload _ _ _ _ Hs1' Hkept El2) as (Hs3 & _ & Hr3). destruct (or_search_error_silent _ _ _ _ _ _ El2 Hs3 Eo) as [-> ->].
  destruct Hr3 as [(records & -> & Hr)|(e3 & -> & Hbroad3)]; injection H' as <- <-; (split; [done|]); (split; [by eapply spends_never, Hspends|]).
  - left. exists kept, records. split; [done|]. split; [done|]. split; [|done]. by intros x [_ ?]%list_elem_of_filter.
  - right. by exists e3.
Qed.
End matches.

Lemma within_few : within_budget d → few.
Proof.
  intros Hw. split; [apply Hw|]. pose proof (wb_ranks _ Hw) as Hr. by rewrite (bi_ranks _ _ _ _ _ _ _ _ Hbuilt), length_fmap in Hr.
Qed.
Lemma records_cost_ok : left_over true (records_cost d).
Proof.
  split; [eapply total_cost_free, records_cost_free, Hbuilt|]. intros _. apply records_cost_counts.
Qed.

Lemma SearchCanonical_answer s s' r :
  silent s → query ≠ "" → SearchCanonical service (sv_snapshotID service) query s = (s', r) →
  (∃ result, r = Ok result ∧ answers result)
  ∨ (∃ e, r = Fail e ∧ ((too_broad_error e ∧ ¬ within_budget d)
                        ∨ ((∀ x, ¬ identified x) ∧ tokenizeNormalizedSearchExact query = Fail e))).
Proof.
  intros Hs Hne H'. unfold SearchCanonical in H'.
  unfold mbind at 1, stM_bind at 1 in H'. rewrite (parent_err_silent s Hs) in H'.
  rewrite (bool_decide_eq_true_2 (sv_snapshotID service = _)), (bool_decide_eq_false_2 (query = "")) in H' by done. cbn [negb throw_if] in H'.
  unfold mbind at 1, stM_bind at 1, lift at 1 in H'. unfold mbind at 1, stM_bind at 1, lift at 1 in H'.
  unfold mbind at 1, stM_bind at 1, modify at 1 in H'. set (s0 := with_receipt empty_receipt s) in *. assert (Hs0 : silent s0) by exact Hs.
  assert (Hroom : within_budget d → room s0 (add_cost (exact_cost d) (add_cost (postings_cost d) (records_cost d)))) by (intros Hw; by apply budget_room).
  clearbody s0. pose proof postings_cost_ok as Hpfree. pose proof records_cost_ok as Hrleft.
  unfold mbind at 1, stM_bind at 1 in H'. destruct (or_search_error (loadExactMatches service query) s0) as [s1 r1] eqn:E1.
  destruct (loadExactMatches service query s0) as [s1' r1'] eqn:El.
  destruct (loadExactMatches_answer _ _ _ _ _ _ _ _ Hbuilt service Hserves _ _ _ _ Hs0 El) as (Hs1 & Hspend1 & Hms).
  destruct (or_search_error_silent _ _ _ _ _ _ El Hs1 E1) as [-> ->].
  assert (Hroom1 : within_budget d → is_ok r1' = true ∧ room s1' (add_cost (postings_cost d) (records_cost d))).
  { intros Hw. apply Hspend1; [|by apply Hroom]. split; [by apply add_cost_free, Hrleft|done]. }
  destruct Hms as [(ms & -> & Hms)|(e & -> & He)].
  2: { injection H' as <- <-. right. exists e. split; [done|]. left. split; [done|]. intros Hw. by destruct (Hroom1 Hw). }
  cbv zeta in H'. unfold mbind at 1, stM_bind at 1 in H'.
  destruct (merge_candidates _ _ _ _ s1') as [s2 r2] eqn:E2.
  destruct (merge_candidates_answer ms Hms _ _ _ Hs1 E2) as [Hs2 Hmerged].
  assert (Hroom2 : (few → spends false (postings_cost d) s1' s2 r2) → within_budget d → is_ok r2 = true ∧ room s2 (records_cost d)).
  { intros Hspend Hw. apply Hspend; [by apply within_few|split; [apply Hrleft|done]|by apply Hroom1]. }
  destruct Hmerged as [(state & quality & -> & Hok & Hspend2)|(e & -> & [[He Hspend2]|Hinvalid])].
  2: { injection H' as <- <-. right. exists e. split; [done|]. left. split; [done|]. intros Hw. by destruct (Hroom2 Hspend2 Hw). }
  2: { injection H' as <- <-. right. exists e. split; [done|]. by right. }
  unfold mbind at 1, stM_bind at 1, lift at 1 in H'.
  destruct (Z.ltb_spec maxSearchPostings (Z.of_nat (length (cd_IDs state)))) as [Hmany|_]; cbn [throw_if] in H'.
  { injection H' as <- <-. right. eexists. split; [done|]. left. split; [reflexivity|]. intros [_ Hlen]%within_few.
    pose proof (ascending_length (cd_IDs state) (length builders) (ca_ascending _ _ (proj1 Hok))) as Hl.
    assert (length (cd_IDs state) ≤ length builders)%nat; [|lia]. apply Hl. intros x Hx. eapply candidate_bound; [apply Hok|done]. }
  unfold mbind at 1, stM_bind at 1 in H'. rewrite (se_directory _ _ _ Hserves), (bi_ranks _ _ _ _ _ _ _ _ Hbuilt) in H'.
  rewrite (rank_candidates_ok ms Hms _ quality) in H'; [|done| |apply Hok].
  2: { intros x Hx. eapply candidate_bound; [apply Hok|done]. }
  unfold mbind at 1, stM_bind at 1 in H'. destruct (load_selected _ _ _ s2) as [s3 r3] eqn:E3.
  destruct (load_twenty ms Hms _ _ _ _ _ Hs2 Hok E3) as (Hs3 & Hspend3 & [(candidates & results & -> & Hc & Hsub & Hr)|(e & -> & He)]).
  2: { injection H' as <- <-. right. exists e. split; [done|]. left. split; [done|]. intros Hw.
    destruct (Hspend3 no_cost) as [? _]; [split; [apply le_cost_refl|done]| |done].
    eapply room_le; [apply (Hroom2 Hspend2 Hw)|apply add_cost_free; [apply Hrleft|apply le_cost_refl]|cost_lia]. }
  rewrite gets_bind in H'. injection H' as <- <-. left. eexists. split; [done|]. split; [done|]. split; [done|].
  exists candidates, quality. split; [done|]. split; [done|]. cbn [sres_MatchQualities]. apply list_fmap_ext.
  intros i x Hi%list_elem_of_lookup_2. destruct Hok as (_ & _ & Hq). apply Hq, Hsub. by eapply best_twenty_sub.
Qed.
End ranking.
