(* ===== verification/SearchAnswers.v ===== *)
(** * What a search answers

    A snapshot that holds the search artifacts built of a catalog is served:
    looking up an exact key, looking up tokens and a whole search answer with
    the records of that catalog that they should, unless too much would have to
    be loaded. *)

From S2P Require Import Prelude GoString GoSha256 GoJson CatalogIdentity CatalogModel CatalogRuntime SearchText CatalogChildren SearchIndex SearchCodec SearchQuery SearchLists SearchRoundtrip SearchSegments SearchIndexed SearchBuilt SearchServe SearchTokens SearchRecords SearchRanking Projection.

(** A service of a snapshot with the artifacts of a catalog: its records can be
    counted in 32 bits, as can the bytes of a segment. *)
Record serving `{SearchTables} (directory : CatalogArtifactV1) (bounds : Bounds) (limits : bool) (artifacts : SearchArtifacts)
    (snapshot : CompiledSnapshot) (service : SearchService) : Prop := {
  sg_texts : directory_texts directory;
  sg_records : Z.of_nat (length (search_builders directory)) ≤ 2 ^ 32;
  sg_limit : bd_PostingSegmentBytes bounds < 2 ^ 32;
  sg_build : buildSearchArtifacts directory bounds limits = Ok artifacts;
  sg_children : ∀ c, c ∈ elems (sa_Children artifacts) → c ∈ elems (cs_Children snapshot);
  sg_path : ca_SearchChild (cs_Directory snapshot) = "search/directory.json";
  sg_service : NewSearchService snapshot = Ok service;
}.

Lemma serving_built `{SearchLaws} directory bounds limits artifacts snapshot service :
  serving directory bounds limits artifacts snapshot service →
  (∃ postings exact runs record_runs, built (search_builders directory) (bd_PostingSegmentBytes bounds) (sa_Directory artifacts)
    (elems (sa_Children artifacts)) postings exact runs record_runs)
  ∧ serves (sa_Directory artifacts) (elems (sa_Children artifacts)) service.
Proof.
  intros [Ht Hr Hl Hb Hc Hp Hs]. destruct (built_index _ _ _ _ Ht Hr Hl Hb) as (postings & exact & runs & record_runs & Hbuilt).
  split; [by exists postings, exact, runs, record_runs|].
  by destruct (NewSearchService_ok _ _ _ _ Hs Hc Hp (bi_directory _ _ _ _ _ _ _ _ Hbuilt) (bi_directory_ok _ _ _ _ _ _ _ _ Hbuilt)) as [? _].
Qed.

(** An answer that is right; or the query is too broad, which it never is for a
    fresh search of an index within the budget. *)
Definition right_or_too_broad {A} (d : SearchDirectoryV1) (s : searchState) (right : A → Prop) (r : res A) : Prop :=
  (∃ a, r = Ok a ∧ right a)
  ∨ ∃ e, r = Fail e ∧ too_broad_error e ∧ (ss_receipt s = empty_receipt → ¬ within_budget d).

(** On an index within the budget the first look-up of a search does not fail. *)
Section first.
Context `{SearchLaws} {builders limit d children postings artifacts runs record_runs}
  (Hbuilt : built builders limit d children postings artifacts runs record_runs).

Lemma costs_left : left_over false (add_cost (postings_cost d) (records_cost d)) ∧ left_over false (records_cost d).
Proof.
  pose proof (postings_cost_ok _ _ _ _ _ _ _ _ Hbuilt) as Hp. destruct (records_cost_ok _ _ _ _ _ _ _ _ Hbuilt) as [Hr _].
  split; (split; [|done]); [by apply add_cost_free|done].
Qed.
Lemma exact_never_fails {A} s s' e :
  ss_receipt s = empty_receipt → within_budget d → spends false (exact_cost d) s s' (Fail e : res A) → False.
Proof. intros Er Hw Hspend. by destruct (Hspend _ (proj1 costs_left) (budget_room _ _ Hw Er)). Qed.
Lemma tokens_never_fail {A} s s' e :
  ss_receipt s = empty_receipt → within_budget d → spends false (postings_cost d) s s' (Fail e : res A) → False.
Proof.
  intros Er Hw Hspend. destruct costs_left as [[Hall _] Hr]. destruct (Hspend _ Hr) as [? _]; [|done].
  eapply room_le; [by apply budget_room|done|]. assert (free (exact_cost d)) by apply greatest_cost_free. cost_lia.
Qed.
End first.

(** C12: Looking up an exact key answers with the records that have it. Let a
    service serve a snapshot with the artifacts built of a catalog whose texts
    are UTF-8, with at most 2^32 records and segments below 4 GiB, and let its
    contexts not be done. Then [loadExactMatches] finds precisely the records
    one of whose keys normalises to the key asked for, each with the best
    priority it has it with, in order; it fails only for the budget of the
    search, and never when that was untouched and the index is within it. *)
Theorem identity_lookup_exact `{SearchLaws} directory bounds limits artifacts snapshot service key s :
  serving directory bounds limits artifacts snapshot service → silent s →
  right_or_too_broad (sa_Directory artifacts) s (identity_matches (search_builders directory) key) (loadExactMatches service key s).2.
Proof.
  intros Hserving Hs. destruct (serving_built _ _ _ _ _ _ Hserving) as [(postings & exact & runs & record_runs & Hbuilt) Hserves].
  destruct (loadExactMatches service key s) as [s' r] eqn:E.
  apply (loadExactMatches_answer _ _ _ _ _ _ _ _ Hbuilt service Hserves) in E as (_ & Hspend & [?|(e & -> & He)]); [by left| |done].
  right. exists e. split; [done|]. split; [done|]. intros Er Hw. by eapply (exact_never_fails Hbuilt).
Qed.

(** C11: Looking up tokens answers with the records that match them all. A token
    stands for itself when it is indexed, else for the indexed keys it begins,
    else for the near ones that [fuzzyPostingRoutes] finds. Let a service serve
    a snapshot with the artifacts built of a catalog whose texts are UTF-8, with
    at most 2^32 records and segments below 4 GiB, and let its contexts not be
    done. Then [loadRankedCandidateIDs] finds precisely the records that have
    for each token a key it stands for, in ascending order, and says which of
    the three was needed; it fails only for the budget of the search, and never
    when that was untouched and the index is within it. *)
Theorem token_lookup_exact `{SearchLaws} directory bounds limits artifacts snapshot service tokens s :
  serving directory bounds limits artifacts snapshot service → silent s → tokens ≠ [] →
  right_or_too_broad (sa_Directory artifacts) s (λ '(ids, prefix, fuzzy),
      ascending ids
      ∧ (∀ x, x ∈ ids ↔ token_match (search_builders directory) (sa_Directory artifacts) tokens x)
      ∧ (ids ≠ [] → token_quality (search_builders directory) tokens
           (if fuzzy : bool then SearchMatchFuzzy else if prefix : bool then SearchMatchPrefix else SearchMatchExactToken)))
    (loadRankedCandidateIDs service tokens s).2.
Proof.
  intros Hserving Hs Hne. destruct (serving_built _ _ _ _ _ _ Hserving) as [(postings & exact & runs & record_runs & Hbuilt) Hserves].
  destruct (loadRankedCandidateIDs service tokens s) as [s' r] eqn:E.
  apply (loadRankedCandidateIDs_answer _ _ _ _ _ _ _ _ Hbuilt service Hserves) in E
    as (_ & Hspend & [(ids & prefix & fuzzy & -> & ?)|(e & -> & He)]); [by left; exists (ids, prefix, fuzzy)| |done..].
  right. exists e. split; [done|]. split; [done|]. intros Er Hw. by eapply (tokens_never_fail Hbuilt), Hspend, wb_segments.
Qed.


(** ** A sample *)

#[local] Instance ascii_laws : @SearchLaws ascii_tables.
Proof.
  split; [done|]. intros s _. apply valid_of_runes, Forall_fmap. eapply Forall_impl; [apply runes_scalars|].
  intros r Hr. cbn. unfold ascii_lower. destruct (in_range 65 90 r) eqn:E; [|done]. unfold in_range in E. unfold is_scalar, in_range. lia.
Qed.

Definition sample_brand : BrandingV1 := MkBrandingV1 "" "" "" "" "".
Definition sample_overview : Overview :=
  MkOverview "" "" "" "" 0 "" "" "" (MkContact "" "" "") (MkLicense "" "" "") None.
Definition sample_document : DocumentDirectoryV1 :=
  MkDocumentDirectoryV1 None "a" "" "" "" sample_brand sample_overview "" None
    (Some [MkOperationDirectoryV1 "d1" "Pets" "GET" "/pet" "" None "Pets" "" "h1" "" false None None])
    (Some [MkSchemaDirectoryV1 "d2" "Pet" "" "h2" "" "c" "p"]) None.
(** An operation that lists pets and a schema of a pet. *)
Definition sample_catalog : CatalogArtifactV1 :=
  MkCatalogArtifactV1 1 "pets" "" sample_brand "" "strict" "search/directory.json" (Some [sample_document]).
Definition sample_identity : SnapshotIdentityV1 :=
  MkSnapshotIdentityV1 1 "" "" sample_brand "" "" "" "" "" "" 0 "" (MkCompilerVersions "" "" "" "" "" "") DefaultBounds None None.
Definition sample_snapshot (artifacts : SearchArtifacts) : CompiledSnapshot :=
  MkCompiledSnapshot "snap" sample_identity sample_catalog (sa_Children artifacts).
Definition sample_search (service : SearchService) (input : string) : option (list string * list Z) :=
  match (@Search ascii_tables service "snap" input (MkSearchState [] [] empty_receipt)).2 with
  | Ok result => Some (sr_DetailID <$> sres_Results result, sres_MatchQualities result)
  | Fail _ => None
  end.
Notation sample_artifacts := (@buildSearchArtifacts ascii_tables sample_catalog DefaultBounds true).

(** The schema has the name asked for, the operation only the token. *)
Lemma sample_run :
  match sample_artifacts with
  | Ok artifacts =>
      match NewSearchService (sample_snapshot artifacts) with
      | Ok service => sample_search service "Pet" = Some (["d2"; "d1"], [5; 4])
      | Fail _ => False
      end
  | Fail _ => False
  end.
Proof. vm_compute. reflexivity. Qed.

Lemma sample_serving artifacts service :
  sample_artifacts = Ok artifacts → NewSearchService (sample_snapshot artifacts) = Ok service →
  @serving ascii_tables sample_catalog DefaultBounds true artifacts (sample_snapshot artifacts) service.
Proof.
  intros Ha Hs. refine {| sg_build := Ha; sg_service := Hs |}.
  - intros document ->%list_elem_of_singleton. split; [done|]. split; repeat constructor.
  - vm_compute. discriminate.
  - vm_compute. reflexivity.
  - done.
  - done.
Qed.
Notation sample_state := (MkSearchState [] [] empty_receipt).
Lemma sample_silent : silent sample_state.
Proof. done. Qed.

Lemma identity_lookup_exact_witness :
  match sample_artifacts with
  | Ok artifacts =>
      match NewSearchService (sample_snapshot artifacts) with
      | Ok service =>
          @serving ascii_tables sample_catalog DefaultBounds true artifacts (sample_snapshot artifacts) service
          ∧ right_or_too_broad (sa_Directory artifacts) sample_state (@identity_matches ascii_tables (@search_builders ascii_tables sample_catalog) "pet")
              (loadExactMatches service "pet" sample_state).2
      | Fail _ => False
      end
  | Fail _ => False
  end.
Proof.
  pose proof sample_run as Hrun. destruct sample_artifacts as [artifacts|] eqn:Ea; [|exact Hrun].
  destruct (NewSearchService (sample_snapshot artifacts)) as [service|] eqn:Es; [|exact Hrun].
  refine (conj (sample_serving _ _ Ea Es) _).
  exact (@identity_lookup_exact ascii_tables ascii_laws _ _ _ _ _ _ "pet" sample_state (sample_serving _ _ Ea Es) sample_silent).
Defined.

Lemma token_lookup_exact_witness :
  match sample_artifacts with
  | Ok artifacts =>
      match NewSearchService (sample_snapshot artifacts) with
      | Ok service =>
          @serving ascii_tables sample_catalog DefaultBounds true artifacts (sample_snapshot artifacts) service
          ∧ right_or_too_broad (sa_Directory artifacts) sample_state (λ '(ids, prefix, fuzzy),
              ascending ids
              ∧ (∀ x, x ∈ ids ↔ token_match (@search_builders ascii_tables sample_catalog) (sa_Directory artifacts) ["pe"; "pets"] x)
              ∧ (ids ≠ [] → token_quality (@search_builders ascii_tables sample_catalog) ["pe"; "pets"]
                   (if fuzzy : bool then SearchMatchFuzzy else if prefix : bool then SearchMatchPrefix else SearchMatchExactToken)))
            (loadRankedCandidateIDs service ["pe"; "pets"] sample_state).2
      | Fail _ => False
      end
  | Fail _ => False
  end.
Proof.
  pose proof sample_run as Hrun. destruct sample_artifacts as [artifacts|] eqn:Ea; [|exact Hrun].
  destruct (NewSearchService (sample_snapshot artifacts)) as [service|] eqn:Es; [|exact Hrun].
  refine (conj (sample_serving _ _ Ea Es) _).
  exact (@token_lookup_exact ascii_tables ascii_laws _ _ _ _ _ _ ["pe"; "pets"] sample_state (sample_serving _ _ Ea Es) sample_silent
    ltac:(discriminate)).
Defined.

